(* ===== verification/_CoqProject ===== *)
-Q . S2P
Prelude.v
BitList.v
Bstream.v
Varint.v
Varbit.v
Xor.v
GoSort.v
Encoding.v
Tombstones.v
TxRing.v
Isolation.v
OooHead.v
Postings.v
MemPostings.v
Record.v
RecordHistogram.v
Compression.v
WlogReader.v
Wlog.v
Float64.v
Compaction.v
Retention.v
Labels.v
LabelBuilder.v
Matcher.v
Utf8.v
Alerting.v
RuleGroup.v
Exemplar.v
ExemplarLog.v
Heap.v
SeriesIterator.v
ChainIterator.v
SeriesMerge.v
LabelQuery.v
HeadChunks.v
HeadAppend.v
HeadSeries.v
HeadAppender.v
HeadCommit.v
ScrapeCache.v
ScrapeLoop.v
ScrapeStaleness.v
Lookback.v
VectorMatching.v
BinaryRange.v
SampleRing.v
RangeSelector.v
RangeFunction.v
SendLoop.v
Relabel.v
Alertmanager.v
Notifier.v
