(* ===== verification/Prelude.v ===== *)
(** A verification library for Prometheus (src/upstream): its storage engine
    (package tsdb), the merging of series (package storage), its label sets
    (model/labels), the scrape loop (package scrape), alerting rules (package
    rules), the selectors and binary operators of its query language (package
    promql), relabelling rules (model/relabel), and the sending of alerts (package
    notifier).

    * The program

    Prometheus scrapes samples, appends them to a time series database and
    evaluates queries over it, some of them as rules that raise alerts.  The
    scrape loop decides what is appended, the database whether it survives, the
    label sets which series it belongs to, queries what is seen of it, and the
    rules who is told; these are the parts this library models:

    - a scrape loop turns each scrape of a target into appends: the entries of
      the body through limits and relabelling, staleness markers for the series
      that are gone, and the report samples; it commits all of them or none;
    - the head's appender looks up or creates the series of a sample, decides
      whether it is in order, queues it in a batch and reserves the series; Commit
      gives the batch an append ID from the isolation structure, logs it, and
      puts every sample in its series' newest chunk, or in the out-of-order chunk
      when it is older than the newest sample; full chunks are m-mapped and old
      ones dropped while readers hold their IDs;
    - a chunk is a compressed bit stream; deleted ranges are kept as tombstones;
    - a query selects series by label through the inverted index (postings),
      takes an isolation state, and iterates the chunks up to what the state
      lets it see; series and label results of several queriers are merged;
    - an instant selector gives a series' newest sample within the lookback at
      every step, and a binary operator matches the samples of two vectors by
      their labels;
    - after a restart the log's segments are read back and their records are
      decoded;
    - the head is cut into blocks; the planner picks blocks to merge and the
      retention policy picks blocks to delete;
    - a series is identified by its label set, one string of sorted,
      length-prefixed names and values;
    - a rule group evaluates its rules at aligned times; an alerting rule keeps
      a state machine per label set and sends what changed to the notifier;
    - the notifier relabels alerts, queues them for every Alertmanager that was
      discovered, and sends them in batches from a goroutine for each; new
      configurations take the goroutines over.

    * Files, and the code they model (paths under src/upstream)

    - Prelude: results and errors, machine-width integers with Go's wrap-around,
      shared tactics, hints and list lemmas.
    - BitList: lists of bits and big-endian bytes, the specification side.
    - Bstream: tsdb/chunkenc/bstream.go, the bit writer and the buffered bit
      reader with its word-at-a-time fast paths.
    - Varint: encoding/binary's varints, and the bit reader's own versions.
    - Varbit: tsdb/chunkenc/varbit.go, bucketed variable-width integers.
    - Xor: tsdb/chunkenc/xor.go, the XOR float chunk: appender, iterator, Seek,
      reopening a chunk for appending.
    - GoSort: sort.Search and slices.BinarySearch.
    - Encoding: tsdb/encoding/encoding.go, Encbuf and Decbuf, and CRC-32.
    - Tombstones: tsdb/tombstones/tombstones.go, intervals, the in-memory
      tombstones and their file.
    - TxRing: the append-ID ring of tsdb/isolation.go and memSeries.iterator of
      tsdb/head_read.go.
    - Isolation: tsdb/isolation.go, open appends and reads as pointer rings in a
      heap.
    - OooHead: tsdb/ooo_head.go, the out-of-order chunk.
    - Postings: the iterators of tsdb/index/postings.go and their combinators.
    - MemPostings: the head's inverted index and merged postings.
    - Record, RecordHistogram: tsdb/record/record.go, payloads of log records.
    - Compression: util/compression/compression.go.
    - WlogReader: reader.go and segmentBufReader of tsdb/wlog.
    - Wlog: tsdb/wlog/wlog.go, pages, segments, Log, Truncate.
    - Float64: float64 by its bits and its conversion to integers, for the code
      that computes with floats.
    - Compaction: tsdb/compact.go, the planner (plan, selectDirs,
      selectOverlappingDirs) and the metadata of merged blocks.
    - Retention: tsdb/db.go, deletable blocks and OverlappingBlocks.
    - Labels: model/labels/labels_stringlabels.go, the label set and its
      readers.
    - LabelBuilder: the Builder and ScratchBuilder of model/labels.
    - Matcher, Utf8: model/labels/matcher.go, and Go's unicode/utf8.
    - Alerting: rules/alerting.go, AlertingRule.Eval and sendAlerts.
    - RuleGroup: rules/group.go and rules/manager.go, evaluation slots, restored
      "for" state, CopyState and the batches of concurrent rules.
    - Exemplar: tsdb/exemplar.go, the circular exemplar storage; ExemplarLog: the
      log it refines, and the proof.
    - Heap: container/heap, over any order on the elements.
    - SeriesIterator: chunkenc.Iterator with its contract, the list iterator of
      storage/series.go and the XOR iterator as instances.
    - ChainIterator: chainSampleIterator of storage/merge.go.
    - SeriesMerge: genericMergeSeriesSet of storage/merge.go.
    - LabelQuery: mergeResults, mergeStrings and truncateToLimit of
      storage/merge.go.
    - HeadChunks: memSeries of tsdb/head.go, its chunks in memory and on disk,
      and the packed state word.
    - HeadAppend: append, insert and appendable of tsdb/head_append.go.
    - HeadSeries: seriesHashmap, stripeSeries, getOrCreate and gc of tsdb/head.go.
    - HeadAppender, HeadCommit: headAppender of tsdb/head_append.go, up to its
      queues, and Commit and Rollback.
    - ScrapeCache, ScrapeLoop: scrapeCache and scrapeLoopAppender of
      scrape/scrape.go, with the limiting appenders of scrape/target.go;
      ScrapeStaleness: what a life of scrapes does to the storage.
    - Lookback: storage/memoized_iterator.go and the instant selectors of
      promql/engine.go.
    - VectorMatching: VectorAnd, VectorOr, VectorUnless, VectorBinop and
      resultMetric of promql/engine.go; BinaryRange: rangeEval over the steps of a
      query.
    - SampleRing: sampleRing of storage/buffer.go; RangeSelector: its
      BufferedSeriesIterator and matrixIterSlice of promql/engine.go;
      RangeFunction: what functions with a range selector are called with.
    - SendLoop: notifier/sendloop.go, the queue of an Alertmanager with its
      goroutines as a step relation.
    - Relabel: model/relabel/relabel.go, on the Builder of LabelBuilder.
    - Alertmanager: notifier/alert.go and notifier/alertmanager.go, on Relabel.
    - Notifier: notifier/alertmanagerset.go and notifier/manager.go; its loops are
      those of SendLoop, seen from outside, and its functions on alerts and target
      groups are those of Alertmanager.

    * How the code is translated

    A struct is a [Record], an enum or tagged union an [Inductive], a function
    or method a [Definition] or [Fixpoint] with the source's name, prefixed by
    its receiver's type where two methods share a name.  A method that mutates
    its receiver returns the new receiver; fallible methods return a [result]
    (the monad [st] threads state and errors); a Go run-time panic is [None].
    Fixed-width integers are [Z] with their wrap-around written out ([u8] ...
    [u64], [i64]); float64 values are their bit patterns, as the code only moves
    bits.  Strings in encoded data are byte lists.

    Code outside the repository is a parameter with named laws, each shown
    satisfiable by an instance: dennwc/varint ([UvarintSpec], by [std_Uvarint]),
    go-loser ([LoserSpec]), snappy and zstd ([CodecLaws], by [rle_Codec]), regexp
    and the validity of label names ([RegexpOps], [RegexpLaws], by [prefix_ops]).
    Interfaces of the program are classes that clients are verified against:
    [Postings]/[PostingsLaws] (index.Postings), [ChunkOps]/[ChunkLaws] and
    [ChunkMeta]/[ChunkMetaLaws] (chunkenc.Chunk), [IoReader]/[IoReaderLaws]
    (io.Reader), [SampleIterator]/[SampleIteratorLaws] (chunkenc.Iterator),
    [SeriesSet]/[SeriesSetLaws] (storage.SeriesSet), [DiskMapper]/[DiskMapperLaws]
    (chunks.ChunkDiskMapper), [Appender]/[AppenderLaws] (storage.Appender),
    [LabelSet]/[LabelSetLaws] (labels.Labels, where only its identity matters),
    and for the kinds of histograms [HistogramOps], [HistogramKind] and
    [HistogramBuckets].

    Loops that are not structural take fuel.  The bound is stated at each
    definition (bits or bytes left, elements left, open nodes), and the theorems
    show that the result is produced, not only that it is right when it is.  The
    appender's loop around a series that was collected before it was locked
    needs 3 rounds, reducing a histogram to the bucket limit 13 (a schema goes
    from 8 to -4), and Seek of the memoized iterator as many as the series has
    samples.

    Pointers that are shared are indices into a store (Isolation, ExemplarLog,
    HeadSeries, ScrapeCache, Notifier).  What may happen between two critical sections is
    an argument (the [env] of HeadAppender), and so is the order in which Go
    visits a map.  Goroutines that share a queue are a step relation (SendLoop).

    * What the theorems show

    - Chunks: iterating a chunk returns exactly the appended samples, also after
      reopening it and after Seek, and always terminates (Xor); the bit codes
      underneath round-trip and the fast paths equal the simple ones (Bstream,
      Varbit).
    - Tombstones: Intervals.Add is the union of time sets and keeps the slice
      sorted and disjoint; the file round-trips; the inputs that panic are
      characterised.
    - Isolation: the pointer rings implement lists under every operation; over
      all reachable states lowWatermark is safe, a read's view is a snapshot of
      the appends completed when it started, and a query's iterator returns
      exactly the visible prefix of a series (Isolation, TxRing).
    - Out-of-order head: Insert keeps the samples sorted without duplicates;
      ToEncodedChunks loses and invents nothing.
    - Index: intersection, difference and merge iterators compute the set
      operations and honour Seek; Add and Delete of the inverted index refine
      operations on the set of series; label queries are exact.
    - Log: every record type round-trips; whatever a sequence of Log calls,
      segment changes and restarts wrote is what the reader returns; Truncate
      keeps exactly the later segments (Record, RecordHistogram, Wlog).
    - Blocks: the planner returns blocks that are adjacent or overlapping, never
      the newest one or tombstone-only noise, and the merged metadata describes
      the union of its parents (Compaction); the blocks deleted are exactly
      those past the time or size limit or superseded, and the overlaps reported
      are exactly the ranges two blocks cover (Retention).
    - Labels: a label set read back is the sorted list it was built from;
      lookups, projections and comparison agree with that list (Labels); a
      Builder is a map update, so built sets are always sorted without
      duplicates or empty values (LabelBuilder).
    - Exemplars: the ring of slots with its linked lists and its index is the log
      of the last exemplars accepted, through eviction, growing and shrinking,
      and Select returns its exemplars by series in time order (ExemplarLog).
    - Rules: an evaluation moves each alert along its life cycle and nothing
      else; an alert that holds long enough fires, one that is gone resolves,
      and the receiver is told before it forgets (Alerting); evaluation times
      are the group's slots, a batch never runs a rule before what it reads, a
      restart neither shortens nor restarts the "for" wait (RuleGroup).
    - Merging: any sequence of Next and Seek on the merging iterator finds what it
      finds on one list without duplicate timestamps (ChainIterator); merged sets
      give each series once in the order of labels, up to the limit (SeriesMerge);
      label results are their ascending union, or the first error (LabelQuery).
    - The head's series: appends add a sample exactly when it is later than all
      others and keep chunk order and time ranges; an out-of-order sample is
      stored once; the checks before it tell every kind of sample apart
      (HeadAppend).  m-mapping changes no chunk a reader sees and no ID, dropping
      old chunks leaves the others readable under their IDs, and references that a
      query gets find their chunks (HeadChunks).  Series are found by reference
      and, through colliding hashes, by labels; gc removes exactly those that
      nothing holds (HeadSeries).  Assumed: chunk ranges end within int64,
      samplesPerChunk is at least 4 and small, the disk mapper is open, a series
      has fewer than 2^23 chunks, and reservations are below the counter's mask.
    - The head's appender: whatever is collected between lookup and lock, an
      accepted sample is queued for a live, reserved series (HeadAppender); Commit
      returns, gives a series every queued sample once at most, and all of them if
      they come in order, and a failed log or Rollback adds none; reservations and
      append IDs are given back (HeadCommit).
    - Scraping: over any list of scrapes a healthy one stores its samples, and
      staleness markers for exactly the series that were exposed before and are
      not now; a failing one marks all; the end of the loop marks the rest
      (ScrapeStaleness).
    - Queries: at every step a selector gives the newest sample within the
      lookback, unless it is a staleness marker, and fails exactly beyond the
      limit on samples (Lookback); two samples match if and only if their metrics
      agree on the labels to match, and a binary operator over a range gives at
      every step what the operator gives on the vectors of that step, with the
      errors of ambiguous matches where they have to be (VectorMatching,
      BinaryRange).  Assumed there: pairs of metrics that meet have different
      bytes, as the cache of result metrics needs; an example shows what happens
      when they have not.  A function with a range selector is called with exactly
      the points of the range of each step, though steps share points and the
      buffer is as narrow as a step (RangeFunction); the ring buffer underneath is
      the list of the samples in its range (SampleRing).  Assumed there: the range
      of a step, and one more buffer below it, fit int64, and the lookback is a
      whole number of milliseconds.
    - Notifications: over any interleaving of add, sending and stop an alert is
      dropped for newer ones, finished, in flight or queued, exactly once; queue
      and batches keep their bounds; no wake-up is lost (SendLoop).  Relabelling
      drops exactly what the rules drop (Alertmanager).  The loops that run are
      those of the discovered Alertmanagers, each once, and go on when their
      configuration stays (Notifier); an example shows what happens after a
      configuration that fails half-way.
    - Relabelling: validated rules never panic and act as operations on a map,
      shortcuts included (Relabel).  Assumed: names and values below 16 MB, and
      documented facts of regexp ([RegexpLaws]).
    - Errors: the inputs on which the code panics, reads bits that were never
      written or accepts torn data have theorems of their own
      ([readBits_truncated_wraps], [UvarintBytes_huge_length_panics],
      [Intervals_Add_panics_iff], [ReadTombstones_short_file_panics],
      [bigEndian_Seek_truncates], [samples_decoder_given_slice],
      [torn_record_detection], [New_loses_longest_value],
      [critical_range_negative]).

    * What is not modelled

    Concurrency inside a method: each method that holds its mutexes is one step.
    Metrics, logging, warnings, and file operations other than reads and writes.
    Of the packages modelled: histogram and XOR2 chunks, histogram sample records
    (they need ReduceResolution of model/histogram), Repair, checkpoints and the
    live reader of wlog, FindIntersectingPostings; writing the merged block
    (compact.go's populate) and reloading blocks (db.go); replaying the log into
    the head, exemplars and metadata of the head's appender; re-use of an old
    merging iterator's memory, chunk mergers and secondary queriers of storage;
    HTTP, the parsers and the pool of scrape; in promql the parser,
    functions, aggregations, subqueries, vector-scalar operators and the
    engine's queue and timeouts; templates of alert annotations and regular
    expressions, which are parameters.  Whole packages outside: service
    discovery, recording rules' storage, remote storage, the web API,
    configuration and the command-line programs.

    * Plan

    In order: aggregations and functions of the query language; histogram span
    arithmetic (model/histogram) with the histogram records and chunks; the log's
    live reader, Repair and replay into the head. *)
From stdpp Require Export base list numbers option tactics gmap.
From Stdlib Require Export ZArith Lia.

#[global] Open Scope Z_scope.
Declare Scope go_scope.
Delimit Scope go_scope with go.

(** ** Results of fallible Go code

    A Go function that returns [(v, err)] and mutates its receiver is a
    function from the receiver to a [result] and the new receiver; the receiver
    is returned on the error path too, since the source may have changed it
    before failing. *)

Inductive goerror :=
  | EOF                  (* io.EOF *)
  | ErrUnexpectedEOF     (* io.ErrUnexpectedEOF *)
  | ErrOverflow          (* encoding/binary: varint overflows a 64-bit integer *)
  | ErrInvalidSize       (* tsdb/encoding.ErrInvalidSize *)
  | ErrInvalidChecksum   (* tsdb/encoding.ErrInvalidChecksum *)
  | ErrBitPattern (d : Z)   (* fmt.Errorf of an invalid bit pattern *)
  | ErrFormat (d : Z).      (* fmt.Errorf of an unknown format, type or magic *)

#[global] Instance goerror_eq_dec : EqDecision goerror.
Proof. solve_decision. Defined.

Inductive result (A : Type) :=
  | Ok (a : A)
  | Err (e : goerror).
Arguments Ok {A} a.
Arguments Err {A} e.

Definition is_ok {A} (r : result A) : bool :=
  match r with Ok _ => true | Err _ => false end.

Definition st (S A : Type) : Type := S -> result A * S.

Definition st_ret {S A} (a : A) : st S A := fun s => (Ok a, s).

Definition st_fail {S A} (e : goerror) : st S A := fun s => (Err e, s).

Definition st_bind {S A B} (m : st S A) (k : A -> st S B) : st S B :=
  fun s => match m s with
           | (Ok a, s') => k a s'
           | (Err e, s') => (Err e, s')
           end.

(** [x, err := fast(); if err != nil { x, err = slow() }]: the retry of a fast
    path by its complete version. *)
Definition st_or {S A} (fast slow : st S A) : st S A :=
  fun s => match fast s with
           | (Ok a, s') => (Ok a, s')
           | (Err _, s') => slow s'
           end.

Notation "x <-- m ; k" := (st_bind m (fun x => k))
  (at level 100, m at next level, right associativity) : go_scope.
Notation "m ;;; k" := (st_bind m (fun _ => k))
  (at level 100, right associativity) : go_scope.
#[global] Open Scope go_scope.

(** ** Machine integers

    A [w]-bit unsigned integer is a [Z] in [0, 2^w); a signed one is a [Z] in
    [-2^(w-1), 2^(w-1)).  Every conversion and every operation that can leave
    the range writes the wrap-around out with one of the functions below. *)

Definition u8 (z : Z) : Z := z mod 2 ^ 8.
Definition u16 (z : Z) : Z := z mod 2 ^ 16.
Definition u32 (z : Z) : Z := z mod 2 ^ 32.
Definition u64 (z : Z) : Z := z mod 2 ^ 64.
Definition i64 (z : Z) : Z := (z + 2 ^ 63) mod 2 ^ 64 - 2 ^ 63.

Definition MaxUint16 : Z := 2 ^ 16 - 1.
Definition MaxUint64 : Z := 2 ^ 64 - 1.
Definition MaxInt64 : Z := 2 ^ 63 - 1.
Definition MinInt64 : Z := - 2 ^ 63.

(** [u << n] on uint64: a shift count of 64 or more gives 0. *)
Definition shl64 (u n : Z) : Z := if 64 <=? n then 0 else u64 (Z.shiftl u n).
(** [u >> n] on uint64. *)
Definition shr64 (u n : Z) : Z := if 64 <=? n then 0 else Z.shiftr u n.
(** [b << n] on byte. *)
Definition shl8 (b n : Z) : Z := u8 (Z.shiftl b n).

Definition is_u8 (z : Z) : Prop := 0 <= z < 2 ^ 8.
Definition is_u16 (z : Z) : Prop := 0 <= z < 2 ^ 16.
Definition is_u32 (z : Z) : Prop := 0 <= z < 2 ^ 32.
Definition is_u64 (z : Z) : Prop := 0 <= z < 2 ^ 64.
Definition is_i64 (z : Z) : Prop := MinInt64 <= z <= MaxInt64.

Lemma u8_range z : is_u8 (u8 z).
Proof. apply Z.mod_pos_bound. lia. Qed.
Lemma u16_range z : is_u16 (u16 z).
Proof. apply Z.mod_pos_bound. lia. Qed.
Lemma u32_range z : is_u32 (u32 z).
Proof. apply Z.mod_pos_bound. lia. Qed.
Lemma u64_range z : is_u64 (u64 z).
Proof. apply Z.mod_pos_bound. lia. Qed.
Lemma i64_range z : is_i64 (i64 z).
Proof.
  unfold is_i64, i64, MinInt64, MaxInt64.
  pose proof (Z.mod_pos_bound (z + 2 ^ 63) (2 ^ 64)). lia.
Qed.

Lemma u8_id z : is_u8 z -> u8 z = z.
Proof. apply Z.mod_small. Qed.
Lemma u16_id z : is_u16 z -> u16 z = z.
Proof. apply Z.mod_small. Qed.
Lemma u32_id z : is_u32 z -> u32 z = z.
Proof. apply Z.mod_small. Qed.
Lemma u64_id z : is_u64 z -> u64 z = z.
Proof. apply Z.mod_small. Qed.
Lemma i64_id z : is_i64 z -> i64 z = z.
Proof.
  unfold is_i64, i64, MinInt64, MaxInt64. intros.
  rewrite Z.mod_small; lia.
Qed.

(** Signed and unsigned 64-bit views agree modulo 2^64. *)
Lemma i64_mod z : i64 z mod 2 ^ 64 = z mod 2 ^ 64.
Proof.
  unfold i64. rewrite Zminus_mod_idemp_l. f_equal. lia.
Qed.

Lemma i64_congr a b : a mod 2 ^ 64 = b mod 2 ^ 64 -> i64 a = i64 b.
Proof.
  intros H. unfold i64. f_equal.
  rewrite <-(Zplus_mod_idemp_l a), <-(Zplus_mod_idemp_l b). congruence.
Qed.

Lemma i64_u64 z : i64 (u64 z) = i64 z.
Proof. apply i64_congr. unfold u64. apply Zmod_mod. Qed.

Lemma u64_i64 z : u64 (i64 z) = u64 z.
Proof. apply i64_mod. Qed.

#[global] Opaque i64.

(** [u64 a = u64 b] is congruence modulo 2^64; sums and differences respect it. *)
Lemma u64_add_l a b : u64 (u64 a + b) = u64 (a + b).
Proof. apply Zplus_mod_idemp_l. Qed.
Lemma u64_add_r a b : u64 (a + u64 b) = u64 (a + b).
Proof. apply Zplus_mod_idemp_r. Qed.
Lemma u64_sub_l a b : u64 (u64 a - b) = u64 (a - b).
Proof. apply Zminus_mod_idemp_l. Qed.
Lemma u64_sub_r a b : u64 (a - u64 b) = u64 (a - b).
Proof. apply Zminus_mod_idemp_r. Qed.
Lemma i64_add_i64_l a b : i64 (i64 a + b) = i64 (a + b).
Proof.
  apply i64_congr. rewrite <-Zplus_mod_idemp_l, i64_mod. apply Zplus_mod_idemp_l.
Qed.
Lemma i64_add_i64_r a b : i64 (a + i64 b) = i64 (a + b).
Proof. rewrite Z.add_comm, i64_add_i64_l. f_equal. lia. Qed.
Lemma i64_add_u64_r a b : i64 (a + u64 b) = i64 (a + b).
Proof. rewrite <-i64_u64, u64_add_r, i64_u64. done. Qed.
Lemma i64_sub_u64_r a b : i64 (a - u64 b) = i64 (a - b).
Proof. rewrite <-i64_u64, u64_sub_r, i64_u64. done. Qed.
Lemma i64_sub_u64_l a b : i64 (u64 a - b) = i64 (a - b).
Proof. rewrite <-i64_u64, u64_sub_l, i64_u64. done. Qed.

Create HintDb wraps.
Create Rewrite HintDb wraps.
#[export] Hint Resolve u8_range u16_range u32_range u64_range i64_range : wraps.
#[export] Hint Rewrite u64_i64 i64_u64 u64_add_l u64_add_r u64_sub_l u64_sub_r
  i64_add_i64_l i64_add_i64_r i64_add_u64_r i64_sub_u64_r i64_sub_u64_l : wraps.

(** Replaces nested wrap-arounds by one outermost wrap-around and closes the
    goal when the arguments agree. *)
Ltac wrap_solve :=
  autorewrite with wraps;
  try done;
  try (f_equal; lia).

(** Proves [Forall P l] pointwise by arithmetic, from the [Forall]s known of
    [l]; [unf] unfolds the predicates first. *)
Ltac each_elem unf :=
  apply Forall_forall; intros ?x ?Hx;
  repeat match goal with
         | H : Forall _ ?l, Hx : ?y ∈ ?l |- _ =>
             let H' := fresh in
             pose proof (proj1 (Forall_forall _ _) H _ Hx) as H'; cbv beta in H'; clear H
         end;
  cbv beta; unf; lia.

(** ** Lists *)

Lemma filter_none {A} (P : A -> Prop) `{!forall x, Decision (P x)} l :
  Forall (fun x => ~ P x) l -> filter P l = [].
Proof. induction 1; [done|]. by rewrite filter_cons_False. Qed.

Lemma filter_all {A} (P : A -> Prop) `{!forall x, Decision (P x)} l :
  Forall P l -> filter P l = l.
Proof. induction 1; [done|]. rewrite filter_cons_True by done. by f_equal. Qed.

Lemma elem_of_lfilter {A} (f : A -> bool) x l : x ∈ List.filter f l <-> x ∈ l /\ f x = true.
Proof. by rewrite !list_elem_of_In, filter_In. Qed.
