(* ===== verification/BitList.v ===== *)
(** Bit lists: the abstract view of a bit stream, most significant bit first.

    [zbits n u] is the list of the [n] low bits of [u]; [stream_bits] the bits
    of a byte slice; [be_uint] the big-endian integer of a byte slice
    (encoding/binary's BigEndian.Uint16/32/64).  These are the specification
    side of the bit stream in Bstream.v and of the byte codecs. *)
From S2P Require Import Prelude.

Fixpoint zbits (n : nat) (u : Z) : list bool :=
  match n with
  | O => []
  | S n' => Z.testbit u (Z.of_nat n') :: zbits n' u
  end.

Definition stream_bits (s : list Z) : list bool := mbind (zbits 8) s.

(** binary.BigEndian.UintN over the whole slice. *)
Definition be_uint (l : list Z) : Z := foldl (fun acc b => acc * 2 ^ 8 + b) 0 l.

(** binary.BigEndian.PutUintN: the [n] low bytes of [u], high byte first. *)
Fixpoint be_bytes (n : nat) (u : Z) : list Z :=
  match n with
  | O => []
  | S n' => u8 (Z.shiftr u (8 * Z.of_nat n')) :: be_bytes n' u
  end.

(** ** Length and extensionality *)

Lemma length_zbits n u : length (zbits n u) = n.
Proof. induction n; simpl; auto. Qed.

Lemma zbits_ext n u w :
  (forall i, 0 <= i < Z.of_nat n -> Z.testbit u i = Z.testbit w i) ->
  zbits n u = zbits n w.
Proof.
  induction n as [|n IH]; intros H; simpl; [done|].
  rewrite H by lia. f_equal. apply IH. intros. apply H. lia.
Qed.

Lemma zbits_testbit n u w i :
  zbits n u = zbits n w -> 0 <= i < Z.of_nat n ->
  Z.testbit u i = Z.testbit w i.
Proof.
  induction n as [|n IH]; simpl; intros H Hi; [lia|].
  injection H as H1 H2.
  destruct (decide (i = Z.of_nat n)) as [->|]; [done|]. apply IH; [done|lia].
Qed.

Lemma zbits_inj n u w :
  0 <= u < 2 ^ Z.of_nat n -> 0 <= w < 2 ^ Z.of_nat n ->
  zbits n u = zbits n w -> u = w.
Proof.
  intros Hu Hw H. apply Z.bits_inj'. intros i Hi.
  destruct (decide (i < Z.of_nat n)).
  - by apply (zbits_testbit n).
  - rewrite <-(Z.mod_small u (2 ^ Z.of_nat n)), <-(Z.mod_small w (2 ^ Z.of_nat n)) by done.
    rewrite !Z.mod_pow2_bits_high by lia. done.
Qed.

Lemma zbits_app m n u :
  zbits (m + n) u = zbits m (Z.shiftr u (Z.of_nat n)) ++ zbits n u.
Proof.
  induction m as [|m IH]; simpl; [done|].
  rewrite IH, Z.shiftr_spec by lia. do 2 f_equal. lia.
Qed.

Lemma zbits_mod n k u :
  Z.of_nat n <= k -> zbits n (u mod 2 ^ k) = zbits n u.
Proof.
  intros. apply zbits_ext. intros i Hi. apply Z.mod_pow2_bits_low. lia.
Qed.

Lemma zbits_u8 n u : (n <= 8)%nat -> zbits n (u8 u) = zbits n u.
Proof. intros. apply zbits_mod. lia. Qed.
Lemma zbits_u64 n u : (n <= 64)%nat -> zbits n (u64 u) = zbits n u.
Proof. intros. apply zbits_mod. lia. Qed.

Lemma zbits_0 n : zbits n 0 = replicate n false.
Proof.
  induction n as [|n IH]; simpl; [done|]. by rewrite Z.bits_0, IH.
Qed.

(** The bits of a value that fits in [n] bits, read at a larger width, start
    with zeros. *)
Lemma zbits_small m n u :
  0 <= u < 2 ^ Z.of_nat n -> zbits (m + n) u = replicate m false ++ zbits n u.
Proof.
  intros Hu. rewrite zbits_app. f_equal.
  rewrite Z.shiftr_div_pow2, Z.div_small, zbits_0 by lia. done.
Qed.

Lemma zbits_shl n u k :
  zbits (n + k) (Z.shiftl u (Z.of_nat k)) = zbits n u ++ replicate k false.
Proof.
  rewrite zbits_app. f_equal.
  - apply zbits_ext. intros i Hi.
    rewrite Z.shiftr_spec, Z.shiftl_spec by lia. f_equal. lia.
  - rewrite <-(zbits_0 k). apply zbits_ext. intros i Hi.
    rewrite Z.shiftl_spec_low, Z.bits_0 by lia. done.
Qed.

(** Setting low bits of a value whose [c] low bits are zero. *)
Lemma zbits_lor_low m c x y p :
  zbits (m + c) x = p ++ replicate c false -> 0 <= y < 2 ^ Z.of_nat c ->
  zbits (m + c) (Z.lor x y) = p ++ zbits c y.
Proof.
  rewrite zbits_app. intros H Hy.
  apply app_inj_2 in H as [H1 H2]; [|by rewrite length_zbits, length_replicate].
  rewrite zbits_app, <-H1. f_equal.
  - rewrite Z.shiftr_lor, (Z.shiftr_div_pow2 y), (Z.div_small y), Z.lor_0_r by lia. done.
  - rewrite <-(zbits_0 c) in H2. apply zbits_ext. intros i Hi.
    rewrite Z.lor_spec, (zbits_testbit c x 0 i), Z.bits_0 by done. done.
Qed.

(** ** Byte slices *)

Definition bytes_ok (s : list Z) : Prop := Forall is_u8 s.

Lemma bytes_ok_app s1 s2 : bytes_ok (s1 ++ s2) <-> bytes_ok s1 /\ bytes_ok s2.
Proof. apply Forall_app. Qed.
Lemma bytes_ok_snoc s x : bytes_ok (s ++ [x]) <-> bytes_ok s /\ is_u8 x.
Proof. unfold bytes_ok. by rewrite Forall_app, Forall_singleton. Qed.

Lemma stream_bits_app s1 s2 : stream_bits (s1 ++ s2) = stream_bits s1 ++ stream_bits s2.
Proof. apply bind_app. Qed.
Lemma stream_bits_one x : stream_bits [x] = zbits 8 x.
Proof. unfold stream_bits. cbn [mbind list_bind]. by rewrite app_nil_r. Qed.
Lemma length_stream_bits s : length (stream_bits s) = (8 * length s)%nat.
Proof.
  unfold stream_bits. induction s as [|x s IH]; [done|].
  rewrite bind_cons, length_app, length_zbits, IH. simpl. lia.
Qed.

Lemma be_uint_snoc l x : be_uint (l ++ [x]) = be_uint l * 2 ^ 8 + x.
Proof. unfold be_uint. by rewrite foldl_app. Qed.

Lemma be_uint_range l : bytes_ok l -> 0 <= be_uint l < 2 ^ (8 * Z.of_nat (length l)).
Proof.
  induction l as [|x l IH] using rev_ind; intros H.
  - unfold be_uint. simpl. lia.
  - apply bytes_ok_snoc in H as [H1 H2].
    rewrite be_uint_snoc, length_app. simpl length.
    replace (8 * Z.of_nat (length l + 1)) with (8 * Z.of_nat (length l) + 8) by lia.
    rewrite Z.pow_add_r by lia. specialize (IH H1). unfold is_u8 in H2.
    set (p := 2 ^ (8 * Z.of_nat (length l))) in *. lia.
Qed.

Lemma zbits_be_uint l : bytes_ok l -> zbits (8 * length l) (be_uint l) = stream_bits l.
Proof.
  induction l as [|x l IH] using rev_ind; intros H; [done|].
  apply bytes_ok_snoc in H as [H1 H2].
  rewrite be_uint_snoc, length_app, stream_bits_app, stream_bits_one.
  simpl length. replace (8 * (length l + 1))%nat with (8 * length l + 8)%nat by lia.
  rewrite zbits_app, <-IH by done. unfold is_u8 in H2. f_equal.
  - f_equal. rewrite Z.shiftr_div_pow2 by lia. change (Z.of_nat 8) with 8.
    rewrite Z.div_add_l, Z.div_small; lia.
  - rewrite <-(zbits_mod 8 8 (be_uint l * 2 ^ 8 + x)) by lia.
    rewrite Z.add_comm, Z_mod_plus_full, Z.mod_small by done. done.
Qed.

Lemma length_be_bytes n u : length (be_bytes n u) = n.
Proof. induction n; simpl; auto. Qed.

Lemma be_bytes_ok n u : bytes_ok (be_bytes n u).
Proof. induction n; simpl; constructor; auto with wraps. Qed.

Lemma stream_bits_be_bytes n u : stream_bits (be_bytes n u) = zbits (8 * n) u.
Proof.
  induction n as [|n IH]; [done|]. simpl be_bytes.
  change (stream_bits (?x :: ?l)) with (zbits 8 x ++ stream_bits l).
  rewrite IH, zbits_u8 by lia.
  replace (8 * S n)%nat with (8 + 8 * n)%nat by lia.
  rewrite (zbits_app 8 (8 * n)). do 3 f_equal. lia.
Qed.

(** Big-endian round trip. *)
Lemma be_uint_be_bytes n u : be_uint (be_bytes n u) = u mod 2 ^ (8 * Z.of_nat n).
Proof.
  apply (zbits_inj (8 * n)).
  - pose proof (be_uint_range _ (be_bytes_ok n u)) as H. rewrite length_be_bytes in H.
    rewrite Nat2Z.inj_mul. done.
  - rewrite Nat2Z.inj_mul. apply Z.mod_pos_bound. lia.
  - rewrite zbits_mod by lia. rewrite <-(stream_bits_be_bytes n u).
    rewrite <-zbits_be_uint by apply be_bytes_ok. by rewrite length_be_bytes.
Qed.
