(* ===== verification/Bstream.v ===== *)
(** The bit stream of tsdb/chunkenc/bstream.go: the writer [bstream], the
    buffered reader [bstreamReader], and the theorem that each of their
    operations implements a list of bits ([wrep], [rrep]). *)
From S2P Require Import Prelude BitList.

(** ** The writer *)

Record bstream := mk_bstream {
  bs_stream : list Z;   (* the data stream *)
  bs_count : Z;         (* how many right-most bits of the last byte are free *)
}.

Definition bstream_Reset (stream : list Z) : bstream := mk_bstream stream 0.

(** [b.stream[len(b.stream)-1] = f(...)]. *)
Definition set_last (f : Z -> Z) (s : list Z) : list Z := alter f (length s - 1)%nat s.

Definition writeBit (bit : bool) (b : bstream) : bstream :=
  let '(s, c) :=
    if bs_count b =? 0 then (bs_stream b ++ [0], 8) else (bs_stream b, bs_count b) in
  let s := if bit then set_last (fun x => Z.lor x (shl8 1 (c - 1))) s else s in
  mk_bstream s (u8 (c - 1)).

Definition writeByte (byt : Z) (b : bstream) : bstream :=
  let c := bs_count b in
  if c =? 0 then mk_bstream (bs_stream b ++ [byt]) c
  else
    let s := set_last (fun x => Z.lor x (Z.shiftr byt (8 - c))) (bs_stream b) in
    mk_bstream (s ++ [shl8 byt c]) c.

(** [for nbits > 0]: one bit at a time from the top of [u]. *)
Fixpoint writeBits_tail (nbits : nat) (u : Z) (b : bstream) : bstream :=
  match nbits with
  | O => b
  | S n => writeBits_tail n (shl64 u 1) (writeBit (shr64 u 63 =? 1) b)
  end.

(** [for nbits >= 8]: a byte at a time from the top of [u], then the tail. *)
Fixpoint writeBits_loop (nbits : nat) (u : Z) (b : bstream) : bstream :=
  match nbits with
  | S (S (S (S (S (S (S (S n))))))) =>
      writeBits_loop n (shl64 u 8) (writeByte (u8 (shr64 u 56)) b)
  | _ => writeBits_tail nbits u b
  end.

Definition writeBits (u : Z) (nbits : nat) (b : bstream) : bstream :=
  writeBits_loop nbits (shl64 u (u64 (64 - Z.of_nat nbits))) b.

(** The loop of writeBitsFast over complete bytes, then the partial byte. *)
Fixpoint writeBitsFast_loop (nbits : nat) (u : Z) (s : list Z) : bstream :=
  match nbits with
  | S (S (S (S (S (S (S (S n))))))) =>
      writeBitsFast_loop n (shl64 u 8) (s ++ [u8 (shr64 u 56)])
  | O => mk_bstream s 0
  | _ => mk_bstream (s ++ [u8 (shr64 u 56)]) (u8 (8 - Z.of_nat nbits))
  end.

Definition writeBitsFast (u : Z) (nbits : nat) (b : bstream) : bstream :=
  let u := shl64 u (u64 (64 - Z.of_nat nbits)) in
  if 0 <? bs_count b then
    let free := bs_count b in
    let s := set_last (fun x => Z.lor x (u8 (shr64 u (64 - free)))) (bs_stream b) in
    if Z.of_nat nbits <? free then mk_bstream s (u8 (free - Z.of_nat nbits))
    else writeBitsFast_loop (Z.to_nat (Z.of_nat nbits - free)) (shl64 u free) s
  else writeBitsFast_loop nbits u (bs_stream b).

(** *** What a writer holds *)

(** [wrep w bs]: the stream of [w] is [bs] followed by the zero bits that are
    still free in the last byte. *)
Record wrep (w : bstream) (bs : list bool) : Prop := mk_wrep {
  wrep_bytes : bytes_ok (bs_stream w);
  wrep_count : 0 <= bs_count w < 8;
  wrep_bits : stream_bits (bs_stream w) = bs ++ replicate (Z.to_nat (bs_count w)) false;
}.

Lemma set_last_snoc f s x : set_last f (s ++ [x]) = s ++ [f x].
Proof.
  unfold set_last. rewrite length_app. simpl length.
  replace (length s + 1 - 1)%nat with (length s + 0)%nat by lia.
  by rewrite alter_app_r.
Qed.

(** A writer with free bits ends in a partial byte. *)
Lemma wrep_partial w bs :
  wrep w bs -> bs_count w <> 0 ->
  exists s x p, bs_stream w = s ++ [x] /\ bytes_ok s /\ is_u8 x /\
    bs = stream_bits s ++ p /\
    zbits (Z.to_nat (8 - bs_count w) + Z.to_nat (bs_count w)) x
      = p ++ replicate (Z.to_nat (bs_count w)) false.
Proof.
  intros [Hb Hc Hs] H0. destruct (bs_stream w) as [|x s _] using rev_ind.
  - apply (f_equal length) in Hs.
    rewrite length_app, length_replicate in Hs. simpl in Hs. lia.
  - apply bytes_ok_snoc in Hb as [Hb1 Hb2].
    rewrite stream_bits_app, stream_bits_one in Hs.
    exists s, x, (drop (length (stream_bits s)) bs).
    assert (Hlen := f_equal length Hs).
    rewrite !length_app, length_zbits, length_replicate in Hlen.
    assert (take (length (stream_bits s)) bs = stream_bits s) as Ht.
    { apply (f_equal (take (length (stream_bits s)))) in Hs.
      rewrite take_app_length, take_app_le in Hs by lia. done. }
    split_and!; try done.
    + by rewrite <-Ht at 1; rewrite take_drop.
    + apply (f_equal (drop (length (stream_bits s)))) in Hs.
      rewrite drop_app_length, drop_app_le in Hs by lia.
      rewrite <-Hs. f_equal. lia.
Qed.

Lemma wrep_zero_count w bs :
  wrep w bs -> bs_count w = 0 -> stream_bits (bs_stream w) = bs.
Proof. intros [_ _ Hs] E. rewrite E in Hs. simpl in Hs. by rewrite app_nil_r in Hs. Qed.

Lemma lor_u8 x y : is_u8 x -> is_u8 y -> is_u8 (Z.lor x y).
Proof.
  unfold is_u8. intros Hx Hy.
  assert (Z.lor x y = (Z.lor x y) mod 2 ^ 8) as ->; [|by apply Z.mod_pos_bound].
  apply Z.bits_inj'. intros i Hi. destruct (decide (i < 8)).
  - by rewrite Z.mod_pow2_bits_low by lia.
  - rewrite Z.mod_pow2_bits_high by lia. rewrite Z.lor_spec.
    rewrite <-(Z.mod_small x (2 ^ 8)), <-(Z.mod_small y (2 ^ 8)) by done.
    by rewrite !Z.mod_pow2_bits_high by lia.
Qed.

(** Filling [n] of the free bits with the bits of [y], where the rest of the
    free bits stay zero. *)
Lemma wrep_fill w bs n y :
  wrep w bs -> Z.of_nat n <= bs_count w -> bs_count w <> 0 ->
  0 <= y < 2 ^ bs_count w ->
  zbits (Z.to_nat (bs_count w)) y
    = zbits n (Z.shiftr y (bs_count w - Z.of_nat n))
      ++ replicate (Z.to_nat (bs_count w - Z.of_nat n)) false ->
  bytes_ok (set_last (fun x => Z.lor x y) (bs_stream w)) /\
  stream_bits (set_last (fun x => Z.lor x y) (bs_stream w))
    = (bs ++ zbits n (Z.shiftr y (bs_count w - Z.of_nat n)))
      ++ replicate (Z.to_nat (bs_count w - Z.of_nat n)) false.
Proof.
  intros Hw Hn H0 Hy Hbits.
  destruct (wrep_partial _ _ Hw H0) as (s & x & p & Es & Hs & Hx & -> & Hp).
  pose proof (wrep_count _ _ Hw) as Hc.
  rewrite Es, set_last_snoc, stream_bits_app, stream_bits_one. split.
  - apply bytes_ok_snoc. split; [done|]. apply lor_u8; [done|].
    unfold is_u8. split; [lia|].
    apply Z.lt_le_trans with (2 ^ bs_count w); [lia|]. apply Z.pow_le_mono_r; lia.
  - rewrite <-!app_assoc, <-Hbits. f_equal.
    replace 8%nat with (Z.to_nat (8 - bs_count w) + Z.to_nat (bs_count w))%nat by lia.
    apply zbits_lor_low; [done|]. rewrite Z2Nat.id by lia. done.
Qed.

(** *** The writer's operations append bits *)

Lemma shiftr_u8 x n : is_u8 x -> 0 <= n -> 0 <= Z.shiftr x n < 2 ^ Z.max 0 (8 - n).
Proof.
  unfold is_u8. intros Hx Hn. rewrite Z.shiftr_div_pow2 by lia.
  split; [apply Z.div_pos; lia|].
  apply Z.div_lt_upper_bound; [lia|]. rewrite <-Z.pow_add_r by lia.
  apply Z.lt_le_trans with (2 ^ 8); [lia|]. apply Z.pow_le_mono_r; lia.
Qed.

Lemma shl8_1 c : 0 <= c < 8 -> shl8 1 c = 2 ^ c.
Proof.
  intros. unfold shl8. rewrite Z.shiftl_1_l. apply u8_id. unfold is_u8.
  split; [lia|]. apply Z.pow_lt_mono_r; lia.
Qed.

Lemma wrep_writeBit w bs b : wrep w bs -> wrep (writeBit b w) (bs ++ [b]).
Proof.
  intros Hw. pose proof (wrep_count _ _ Hw) as Hc. unfold writeBit.
  destruct (Z.eqb_spec (bs_count w) 0) as [E|E].
  - apply (mk_wrep (mk_bstream _ _)); simpl.
    + destruct b; rewrite ?set_last_snoc; apply bytes_ok_snoc;
        (split; [apply Hw|unfold is_u8; vm_compute; split; congruence]).
    + vm_compute; split; congruence.
    + rewrite <-(wrep_zero_count _ _ Hw E).
      destruct b; rewrite ?set_last_snoc, stream_bits_app, stream_bits_one, <-app_assoc;
        f_equal; vm_compute; reflexivity.
  - rewrite u8_id by (unfold is_u8; lia).
    assert (Hpow := Z.pow_pos_nonneg 2 (bs_count w - 1) ltac:(lia) ltac:(lia)).
    destruct b; simpl.
    + rewrite shl8_1 by lia.
      destruct (wrep_fill w bs 1 (2 ^ (bs_count w - 1))) as [H1 H2]; try done; try lia.
      * split; [lia|]. apply Z.pow_lt_mono_r; lia.
      * replace (Z.to_nat (bs_count w)) with (1 + Z.to_nat (bs_count w - 1))%nat by lia.
        rewrite <-Z.shiftl_1_l, Z.shiftr_shiftl_l by lia.
        replace (Z.of_nat 1) with 1 by done. rewrite Z.sub_diag, Z.shiftl_0_r.
        rewrite <-(Z2Nat.id (bs_count w - 1)) at 2 by lia. apply zbits_shl.
      * split; simpl; [done|lia|]. rewrite H2. replace (Z.of_nat 1) with 1 by done.
        rewrite <-Z.shiftl_1_l, Z.shiftr_shiftl_l, Z.sub_diag by lia. done.
    + split; simpl; [apply Hw|lia|]. rewrite (wrep_bits _ _ Hw).
      replace (Z.to_nat (bs_count w)) with (S (Z.to_nat (bs_count w - 1)))%nat by lia.
      rewrite <-app_assoc. done.
Qed.

Lemma wrep_writeByte w bs x : wrep w bs -> is_u8 x -> wrep (writeByte x w) (bs ++ zbits 8 x).
Proof.
  intros Hw Hx. pose proof (wrep_count _ _ Hw) as Hc. unfold writeByte.
  destruct (Z.eqb_spec (bs_count w) 0) as [E|E].
  - split; cbn [bs_stream bs_count]; [|lia|].
    + apply bytes_ok_snoc. split; [apply Hw|done].
    + rewrite stream_bits_app, stream_bits_one, (wrep_zero_count _ _ Hw E), E.
      by rewrite app_nil_r.
  - set (c := bs_count w) in *.
    destruct (wrep_fill w bs (Z.to_nat c) (Z.shiftr x (8 - c))) as [H1 H2];
      try done; fold c; try lia.
    + pose proof (shiftr_u8 x (8 - c)) as H.
      replace (Z.max 0 (8 - (8 - c))) with c in H by lia. apply H; [done|lia].
    + rewrite Z2Nat.id, Z.sub_diag, Z.shiftr_0_r by lia. simpl. by rewrite app_nil_r.
    + fold c in H2. rewrite Z2Nat.id, Z.sub_diag, Z.shiftr_0_r, app_nil_r in H2 by lia.
      split; cbn [bs_stream bs_count]; [|lia|].
      * apply bytes_ok_snoc. split; [done|]. apply u8_range.
      * rewrite stream_bits_app, stream_bits_one, H2, <-!app_assoc. f_equal.
        unfold shl8. rewrite zbits_u8 by lia.
        assert (zbits 8 x = zbits (Z.to_nat c + Z.to_nat (8 - c)) x) as -> by (f_equal; lia).
        rewrite zbits_app, Z2Nat.id, <-app_assoc by lia. f_equal.
        rewrite <-zbits_shl, Z2Nat.id by lia. f_equal. lia.
Qed.

(** Writing the top [n] bits of a 64-bit word, as both loops do. *)
Lemma top_bits_step k n u :
  (k <= n)%nat -> (n <= 64)%nat -> is_u64 u ->
  zbits n (Z.shiftr u (64 - Z.of_nat n))
    = zbits k (Z.shiftr u (64 - Z.of_nat k))
      ++ zbits (n - k) (Z.shiftr (shl64 u (Z.of_nat k)) (64 - Z.of_nat (n - k))).
Proof.
  intros Hk Hn Hu. replace n with (k + (n - k))%nat at 1 by lia.
  rewrite zbits_app, Z.shiftr_shiftr by lia.
  f_equal; [f_equal; f_equal; lia|].
  unfold shl64. destruct (Z.leb_spec 64 (Z.of_nat k)).
  - replace (n - k)%nat with 0%nat by lia. done.
  - apply zbits_ext. intros i Hi. rewrite !Z.shiftr_spec by lia.
    unfold u64. rewrite Z.mod_pow2_bits_low, Z.shiftl_spec by lia. f_equal. lia.
Qed.

Lemma shl64_range u n : is_u64 (shl64 u n).
Proof.
  unfold shl64. destruct (64 <=? n); [unfold is_u64; lia|]. apply u64_range.
Qed.

Lemma zbits_top8 u : is_u64 u -> zbits 8 (u8 (shr64 u 56)) = zbits 8 (Z.shiftr u (64 - Z.of_nat 8)).
Proof. intros. rewrite zbits_u8 by lia. done. Qed.

Lemma top_bit u : is_u64 u -> [shr64 u 63 =? 1] = zbits 1 (Z.shiftr u (64 - Z.of_nat 1)).
Proof.
  intros Hu. unfold zbits, shr64.
  change (64 <=? 63) with false. cbv iota. change (64 - Z.of_nat 1) with 63.
  f_equal. unfold is_u64 in Hu.
  assert (0 <= Z.shiftr u 63 < 2) as H.
  { rewrite Z.shiftr_div_pow2 by lia. split; [apply Z.div_pos; lia|].
    apply Z.div_lt_upper_bound; lia. }
  assert (Z.shiftr u 63 = 0 \/ Z.shiftr u 63 = 1) as [->| ->] by lia; done.
Qed.

Lemma wrep_writeBits_tail n u w bs :
  (n <= 64)%nat -> is_u64 u -> wrep w bs ->
  wrep (writeBits_tail n u w) (bs ++ zbits n (Z.shiftr u (64 - Z.of_nat n))).
Proof.
  revert u w bs. induction n as [|n IH]; intros u w bs Hn Hu Hw.
  - simpl. by rewrite app_nil_r.
  - rewrite (top_bits_step 1) by (done || lia). rewrite app_assoc.
    replace (S n - 1)%nat with n by lia. cbn [writeBits_tail].
    apply IH; [lia|apply shl64_range|]. rewrite <-top_bit by done. by apply wrep_writeBit.
Qed.

Lemma wrep_writeBits_loop n u w bs :
  (n <= 64)%nat -> is_u64 u -> wrep w bs ->
  wrep (writeBits_loop n u w) (bs ++ zbits n (Z.shiftr u (64 - Z.of_nat n))).
Proof.
  revert u w bs. induction (lt_wf n) as [n _ IH]; intros u w bs Hn Hu Hw.
  destruct (decide (8 <= n)%nat).
  - rewrite (top_bits_step 8) by (done || lia). rewrite app_assoc.
    do 8 (destruct n as [|n]; [lia|]). cbn [writeBits_loop].
    replace (S (S (S (S (S (S (S (S n))))))) - 8)%nat with n by lia.
    apply IH; [lia|lia|apply shl64_range|]. rewrite <-zbits_top8 by done.
    apply wrep_writeByte; [done|]. apply u8_range.
  - do 8 (destruct n as [|n]; [by apply wrep_writeBits_tail|]). lia.
Qed.

Lemma zbits_shl64_top n u :
  (n <= 64)%nat ->
  zbits n (Z.shiftr (shl64 u (u64 (64 - Z.of_nat n))) (64 - Z.of_nat n)) = zbits n u.
Proof.
  intros Hn. rewrite u64_id by (unfold is_u64; lia). unfold shl64.
  destruct (Z.leb_spec 64 (64 - Z.of_nat n)).
  - by replace n with 0%nat by lia.
  - apply zbits_ext. intros i Hi. rewrite Z.shiftr_spec by lia.
    unfold u64. rewrite Z.mod_pow2_bits_low, Z.shiftl_spec by lia. f_equal. lia.
Qed.

Lemma wrep_writeBits w bs u n :
  wrep w bs -> (n <= 64)%nat -> wrep (writeBits u n w) (bs ++ zbits n u).
Proof.
  intros Hw Hn. rewrite <-(zbits_shl64_top n u Hn).
  apply wrep_writeBits_loop; [done|apply shl64_range|done].
Qed.

Lemma wrep_writeBitsFast_loop n u s bs :
  (n <= 64)%nat -> is_u64 u -> bytes_ok s -> stream_bits s = bs ->
  (forall i, 0 <= i < 64 - Z.of_nat n -> Z.testbit u i = false) ->
  wrep (writeBitsFast_loop n u s) (bs ++ zbits n (Z.shiftr u (64 - Z.of_nat n))).
Proof.
  revert u s bs. induction (lt_wf n) as [n _ IH]; intros u s bs Hn Hu Hs Hb Hlow.
  destruct (decide (8 <= n)%nat) as [Hn8|Hn8].
  - rewrite (top_bits_step 8) by (done || lia). rewrite app_assoc.
    do 8 (destruct n as [|n]; [lia|]). cbn [writeBitsFast_loop].
    replace (S (S (S (S (S (S (S (S n))))))) - 8)%nat with n by lia.
    apply IH; [lia|lia|apply shl64_range| | |].
    + apply bytes_ok_snoc. split; [done|apply u8_range].
    + by rewrite stream_bits_app, stream_bits_one, Hb, zbits_top8.
    + intros i Hi. change (shl64 u (Z.of_nat 8)) with (u64 (Z.shiftl u 8)).
      unfold u64. rewrite Z.mod_pow2_bits_low, Z.shiftl_spec by lia.
      destruct (decide (i < 8)); [by rewrite Z.testbit_neg_r by lia|]. apply Hlow. lia.
  - assert (writeBitsFast_loop n u s
      = if decide (n = 0%nat) then mk_bstream s 0
        else mk_bstream (s ++ [u8 (shr64 u 56)]) (u8 (8 - Z.of_nat n))) as ->.
    { do 8 (destruct n as [|n]; [done|]). lia. }
    case_decide as E.
    + subst n. split; cbn [bs_stream bs_count]; [done|lia|]. simpl. by rewrite Hb, !app_nil_r.
    + rewrite (u8_id (8 - Z.of_nat n)) by (unfold is_u8; lia). split; cbn [bs_stream bs_count]; [|lia|].
      * apply bytes_ok_snoc. split; [done|apply u8_range].
      * rewrite stream_bits_app, stream_bits_one, Hb, zbits_top8, <-app_assoc by done. f_equal.
        assert (zbits 8 (Z.shiftr u (64 - Z.of_nat 8))
          = zbits (n + (8 - n)) (Z.shiftr u (64 - Z.of_nat 8))) as -> by (f_equal; lia).
        rewrite zbits_app, Z.shiftr_shiftr by lia. f_equal; [f_equal; f_equal; lia|].
        replace (Z.to_nat (8 - Z.of_nat n)) with (8 - n)%nat by lia.
        rewrite <-zbits_0. apply zbits_ext. intros i Hi.
        rewrite Z.shiftr_spec, Z.bits_0 by lia. apply Hlow. lia.
Qed.

Lemma shl64_low u k i : 0 <= k < 64 -> 0 <= i < k -> Z.testbit (shl64 u k) i = false.
Proof.
  intros Hk Hi. unfold shl64. destruct (Z.leb_spec 64 k); [lia|].
  unfold u64. rewrite Z.mod_pow2_bits_low, Z.shiftl_spec_low by lia. done.
Qed.

Lemma shl64_testbit u k i : 0 <= k < 64 -> 0 <= i < 64 ->
  Z.testbit (shl64 u k) i = Z.testbit u (i - k).
Proof.
  intros Hk Hi. unfold shl64. destruct (Z.leb_spec 64 k); [lia|].
  unfold u64. rewrite Z.mod_pow2_bits_low, Z.shiftl_spec by lia. done.
Qed.

Lemma shr64_range u n k :
  is_u64 u -> 0 <= n -> 64 <= n + k -> 0 <= k -> 0 <= shr64 u n < 2 ^ k.
Proof.
  intros Hu Hn Hk H0. unfold shr64. destruct (Z.leb_spec 64 n); [lia|].
  rewrite Z.shiftr_div_pow2 by lia. unfold is_u64 in Hu.
  split; [apply Z.div_pos; lia|]. apply Z.div_lt_upper_bound; [lia|].
  rewrite <-Z.pow_add_r by lia.
  apply Z.lt_le_trans with (2 ^ 64); [lia|]. apply Z.pow_le_mono_r; lia.
Qed.

Lemma wrep_writeBitsFast w bs u n :
  wrep w bs -> (1 <= n <= 64)%nat -> wrep (writeBitsFast u n w) (bs ++ zbits n u).
Proof.
  intros Hw Hn. rewrite <-(zbits_shl64_top n u) by lia. unfold writeBitsFast.
  assert (Hk : u64 (64 - Z.of_nat n) = 64 - Z.of_nat n) by (apply u64_id; unfold is_u64; lia).
  assert (Hlow : forall i, 0 <= i < 64 - Z.of_nat n ->
    Z.testbit (shl64 u (u64 (64 - Z.of_nat n))) i = false).
  { intros i Hi. rewrite Hk. apply shl64_low; lia. }
  revert Hlow. generalize (shl64_range u (u64 (64 - Z.of_nat n))).
  generalize (shl64 u (u64 (64 - Z.of_nat n))). clear u Hk. intros u Hu Hlow.
  pose proof (wrep_count _ _ Hw) as Hc.
  destruct (Z.ltb_spec 0 (bs_count w)) as [H0|H0].
  2: { apply wrep_writeBitsFast_loop; [lia|done|apply Hw| |done].
       apply wrep_zero_count; [done|lia]. }
  set (c := bs_count w) in *.
  assert (Hfill := shr64_range u (64 - c) c Hu ltac:(lia) ltac:(lia) ltac:(lia)).
  assert (u8 (shr64 u (64 - c)) = shr64 u (64 - c)) as ->.
  { apply u8_id. unfold is_u8. split; [lia|].
    apply Z.lt_le_trans with (2 ^ c); [lia|]. apply Z.pow_le_mono_r; lia. }
  destruct (Z.ltb_spec (Z.of_nat n) c) as [Hlt|Hge].
  - destruct (wrep_fill w bs n (shr64 u (64 - c))) as [H1 H2]; try done; fold c; try lia.
    + unfold shr64. destruct (Z.leb_spec 64 (64 - c)); [lia|].
      replace (Z.to_nat c) with (n + (Z.to_nat c - n))%nat by lia.
      rewrite zbits_app. f_equal; [do 2 f_equal; lia|].
      replace (Z.to_nat (c - Z.of_nat n)) with (Z.to_nat c - n)%nat by lia.
      rewrite <-zbits_0. apply zbits_ext. intros i Hi.
      rewrite Z.shiftr_spec, Z.bits_0 by lia. apply Hlow. lia.
    + fold c in H2. rewrite u8_id by (unfold is_u8; lia).
      split; cbn [bs_stream bs_count]; [done|lia|]. rewrite H2. f_equal. f_equal.
      unfold shr64. destruct (Z.leb_spec 64 (64 - c)); [lia|].
      rewrite Z.shiftr_shiftr by lia. do 2 f_equal. lia.
  - destruct (wrep_fill w bs (Z.to_nat c) (shr64 u (64 - c))) as [H1 H2];
      try done; fold c; try lia.
    { rewrite Z2Nat.id, Z.sub_diag, Z.shiftr_0_r by lia. simpl. by rewrite app_nil_r. }
    fold c in H2. rewrite Z2Nat.id, Z.sub_diag, Z.shiftr_0_r, app_nil_r in H2 by lia.
    rewrite (top_bits_step (Z.to_nat c)) by (done || lia).
    rewrite app_assoc, Z2Nat.id by lia.
    replace (Z.to_nat (Z.of_nat n - c)) with (n - Z.to_nat c)%nat by lia.
    apply wrep_writeBitsFast_loop; [lia|apply shl64_range|done| |].
    + rewrite H2. unfold shr64. destruct (Z.leb_spec 64 (64 - c)); [lia|done].
    + intros i Hi. destruct (decide (i < c)); [apply shl64_low; lia|].
      rewrite shl64_testbit by lia. apply Hlow. lia.
Qed.

(** The representation determines the writer: two writers that hold the same
    bits are equal. *)
Lemma wrep_stream_inj s1 s2 :
  bytes_ok s1 -> bytes_ok s2 -> stream_bits s1 = stream_bits s2 -> s1 = s2.
Proof.
  revert s2. induction s1 as [|x s1 IH]; intros [|y s2] H1 H2 E; try done.
  apply Forall_cons in H1 as [Hx H1]. apply Forall_cons in H2 as [Hy H2].
  unfold stream_bits in E. rewrite !bind_cons in E.
  apply app_inj_1 in E as [E1 E2]; [|by rewrite !length_zbits].
  f_equal; [|by apply IH]. by apply (zbits_inj 8).
Qed.

Lemma wrep_inj w1 w2 bs : wrep w1 bs -> wrep w2 bs -> w1 = w2.
Proof.
  destruct w1 as [s1 c1], w2 as [s2 c2]. intros [B1 C1 E1] [B2 C2 E2]. simpl in *.
  assert (c1 = c2) as ->.
  { apply (f_equal length) in E1, E2.
    rewrite length_app, length_replicate, length_stream_bits in E1, E2. lia. }
  f_equal. apply wrep_stream_inj; congruence.
Qed.

(** ** The reader *)

Record bstreamReader := mk_bstreamReader {
  br_stream : list Z;
  br_streamOffset : nat;   (* the offset from which to read the next byte *)
  br_buffer : Z;           (* uint64 *)
  br_valid : Z;            (* uint8: right-most bits of buffer still to be read *)
  br_last : Z;             (* a copy of the last byte of the stream *)
}.

Definition newBReader (b : list Z) : bstreamReader :=
  mk_bstreamReader b 0 0 0 (default 0 (last b)).

Definition set_valid (v : Z) (b : bstreamReader) : bstreamReader :=
  mk_bstreamReader (br_stream b) (br_streamOffset b) (br_buffer b) v (br_last b).

(** The loop of loadNextBuffer: or the bytes into place, from [i] on. *)
Fixpoint load_loop (stream : list Z) (off nbytes : nat) (i cnt : nat) (buffer : Z) : Z :=
  match cnt with
  | O => buffer
  | S cnt' =>
      load_loop stream off nbytes (S i) cnt'
        (Z.lor buffer (shl64 (stream !!! (off + i)%nat) (8 * Z.of_nat (nbytes - i - 1))))
  end.

Definition loadNextBuffer (nbits : Z) (b : bstreamReader) : bool * bstreamReader :=
  let n := length (br_stream b) in
  let off := br_streamOffset b in
  if (n <=? off)%nat then (false, b)
  else if (off + 8 <? n)%nat then
    (true, mk_bstreamReader (br_stream b) (off + 8)
             (be_uint (take 8 (drop off (br_stream b)))) 64 (br_last b))
  else
    let nbytes := Z.to_nat (nbits / 8 + 1) in
    let nbytes := if (n <? off + nbytes)%nat then (n - off)%nat else nbytes in
    let '(buffer, skip) :=
      if (off + nbytes =? n)%nat then (Z.lor 0 (br_last b), 1%nat) else (0, 0%nat) in
    let buffer := load_loop (br_stream b) off nbytes 0 (nbytes - skip) buffer in
    (true, mk_bstreamReader (br_stream b) (off + nbytes) buffer
             (u8 (Z.of_nat nbytes * 8)) (br_last b)).

Definition readBitFast : st bstreamReader bool := fun b =>
  if br_valid b =? 0 then (Err EOF, b)
  else
    let v := u8 (br_valid b - 1) in
    (Ok (negb (Z.land (br_buffer b) (shl64 1 v) =? 0)), set_valid v b).

Definition readBit : st bstreamReader bool := fun b =>
  if br_valid b =? 0 then
    let '(ok, b) := loadNextBuffer 1 b in
    if ok then readBitFast b else (Err EOF, b)
  else readBitFast b.

Definition readBitsFast (nbits : Z) : st bstreamReader Z := fun b =>
  if br_valid b <? nbits then (Err EOF, b)
  else
    let bitmask := u64 (shl64 1 nbits - 1) in
    let v := u8 (br_valid b - nbits) in
    (Ok (Z.land (shr64 (br_buffer b) v) bitmask), set_valid v b).

Definition readBits (nbits : Z) : st bstreamReader Z := fun b =>
  let '(ok, b) := if br_valid b =? 0 then loadNextBuffer nbits b else (true, b) in
  if negb ok then (Err EOF, b)
  else if nbits <=? br_valid b then readBitsFast nbits b
  else
    let bitmask := u64 (shl64 1 (br_valid b) - 1) in
    let nbits := u8 (nbits - br_valid b) in
    let v := shl64 (Z.land (br_buffer b) bitmask) nbits in
    let '(ok, b) := loadNextBuffer nbits (set_valid 0 b) in
    if negb ok then (Err EOF, b)
    else
      let bitmask := u64 (shl64 1 nbits - 1) in
      let v := Z.lor v (Z.land (shr64 (br_buffer b) (u8 (br_valid b - nbits))) bitmask) in
      (Ok v, set_valid (u8 (br_valid b - nbits)) b).

Definition ReadByte : st bstreamReader Z := v <-- readBits 8; st_ret (u8 v).

(** *** What is left in a reader *)

(** [rrep r bs]: the bits still to be read from [r] are [bs]. *)
Record rrep (r : bstreamReader) (bs : list bool) : Prop := mk_rrep {
  rrep_bytes : bytes_ok (br_stream r);
  rrep_off : (br_streamOffset r <= length (br_stream r))%nat;
  rrep_buffer : is_u64 (br_buffer r);
  rrep_valid : 0 <= br_valid r <= 64;
  rrep_last : br_last r = default 0 (last (br_stream r));
  rrep_bits : bs = zbits (Z.to_nat (br_valid r)) (br_buffer r)
                   ++ stream_bits (drop (br_streamOffset r) (br_stream r));
}.

Lemma rrep_new s : bytes_ok s -> rrep (newBReader s) (stream_bits s).
Proof. intros H. split; simpl; try done; unfold is_u64; lia. Qed.

(** *** loadNextBuffer *)

Lemma lor_shift_add a b k :
  0 <= k -> 0 <= b < 2 ^ k -> Z.lor (Z.shiftl a k) b = a * 2 ^ k + b.
Proof.
  intros Hk Hb. rewrite <-Z.shiftl_mul_pow2 by done.
  rewrite <-(Z.lxor_lor (Z.shiftl a k) b), <-Z.add_nocarry_lxor; [done| |];
    apply Z.bits_inj'; intros i Hi; rewrite Z.land_spec, Z.bits_0;
    (destruct (decide (i < k)); [by rewrite Z.shiftl_spec_low by lia|]);
    rewrite <-(Z.mod_small b (2 ^ k)), Z.mod_pow2_bits_high by lia; apply andb_false_r.
Qed.

Lemma be_uint_cons x l : be_uint (x :: l) = x * 2 ^ (8 * Z.of_nat (length l)) + be_uint l.
Proof.
  induction l as [|y l IH] using rev_ind.
  - unfold be_uint. simpl. lia.
  - rewrite app_comm_cons, !be_uint_snoc, IH, length_app. simpl length.
    replace (8 * Z.of_nat (length l + 1)) with (8 * Z.of_nat (length l) + 8) by lia.
    rewrite Z.pow_add_r by lia. lia.
Qed.

(** The loop ors the bytes of the slice below the bits of [buffer] that lie
    above them, or beside the last byte when it was put there first. *)
Lemma load_loop_spec stream off nbytes i cnt buffer l :
  (nbytes <= 8)%nat -> bytes_ok l -> length l = cnt -> (i + cnt <= nbytes)%nat ->
  (forall j, (j < cnt)%nat -> stream !!! (off + (i + j))%nat = l !!! j) ->
  load_loop stream off nbytes i cnt buffer
    = Z.lor buffer (Z.shiftl (be_uint l) (8 * Z.of_nat (nbytes - i - cnt))).
Proof.
  revert i buffer l. induction cnt as [|cnt IH]; intros i buffer l H8 Hl Hlen Hi Hj.
  - apply nil_length_inv in Hlen as ->. simpl. by rewrite Z.shiftl_0_l, Z.lor_0_r.
  - destruct l as [|x l]; [done|]. injection Hlen as Hlen.
    apply Forall_cons in Hl as [Hx Hl]. simpl load_loop.
    rewrite (IH (S i) _ l); [|done|done|done|lia|].
    2: { intros j Hjc. replace (off + (S i + j))%nat with (off + (i + S j))%nat by lia.
         rewrite Hj by lia. done. }
    rewrite <-Z.lor_assoc. f_equal.
    specialize (Hj 0%nat ltac:(lia)). rewrite Nat.add_0_r in Hj. rewrite Hj. simpl.
    pose proof (be_uint_range l Hl) as Hr. rewrite Hlen in Hr.
    rewrite be_uint_cons, Hlen, <-lor_shift_add, Z.shiftl_lor, Z.shiftl_shiftl by lia.
    f_equal; [|f_equal; lia].
    replace (8 * Z.of_nat cnt + 8 * Z.of_nat (nbytes - i - S cnt))
      with (8 * Z.of_nat (nbytes - i - 1)) by lia.
    unfold shl64. destruct (Z.leb_spec 64 (8 * Z.of_nat (nbytes - i - 1))); [lia|].
    apply u64_id. unfold is_u64. rewrite Z.shiftl_mul_pow2 by lia. unfold is_u8 in Hx.
    split; [lia|].
    apply Z.lt_le_trans with (2 ^ 8 * 2 ^ (8 * Z.of_nat (nbytes - i - 1))); [nia|].
    rewrite <-Z.pow_add_r by lia. apply Z.pow_le_mono_r; lia.
Qed.

Lemma load_slow_buffer stream off nbytes last :
  bytes_ok stream -> (1 <= nbytes <= 8)%nat -> (off + nbytes <= length stream)%nat ->
  last = default 0 (list.last stream) ->
  (let '(buffer, skip) :=
     if (off + nbytes =? length stream)%nat then (Z.lor 0 last, 1%nat) else (0, 0%nat) in
   load_loop stream off nbytes 0 (nbytes - skip) buffer)
  = be_uint (take nbytes (drop off stream)).
Proof.
  intros Hs Hn Hoff Hl.
  assert (Hseg : bytes_ok (take nbytes (drop off stream))) by by apply Forall_take, Forall_drop.
  assert (Hlk : forall j, (j < nbytes)%nat ->
    stream !!! (off + (0 + j))%nat = take nbytes (drop off stream) !!! j).
  { intros j Hj. rewrite !list_lookup_total_alt, lookup_take_lt, lookup_drop by done. done. }
  assert (Hlen : length (take nbytes (drop off stream)) = nbytes).
  { rewrite length_take, length_drop. lia. }
  destruct (Nat.eqb_spec (off + nbytes) (length stream)) as [E|E].
  - set (seg := take nbytes (drop off stream)) in *.
    assert (exists l x, seg = l ++ [x] /\ last = x) as (l & x & El & Ex).
    { destruct (exists_last (l := seg)) as (l & x & El); [by intros ->; simpl in Hlen; lia|].
      exists l, x. split; [done|]. subst last.
      assert (stream = take off stream ++ l ++ [x]) as ->.
      { rewrite <-El, <-(take_drop off stream) at 1. f_equal. unfold seg.
        rewrite take_ge; [done|]. rewrite length_drop. lia. }
      by rewrite app_assoc, last_snoc. }
    rewrite El in *. apply bytes_ok_snoc in Hseg as [Hl1 Hx].
    rewrite length_app in Hlen. simpl in Hlen.
    rewrite (load_loop_spec _ _ _ _ _ _ l); try done; try lia.
    + rewrite be_uint_snoc, Z.lor_0_l, Z.lor_comm, Ex.
      replace (8 * Z.of_nat (nbytes - 0 - (nbytes - 1))) with 8 by lia.
      apply lor_shift_add; [lia|done].
    + intros j Hj. rewrite Hlk by lia. by rewrite lookup_total_app_l by lia.
  - rewrite (load_loop_spec _ _ _ _ _ _ (take nbytes (drop off stream))); try done; try lia.
    + rewrite Z.lor_0_l. replace (8 * Z.of_nat (nbytes - 0 - (nbytes - 0))) with 0 by lia.
      by rewrite Z.shiftl_0_r.
    + intros j Hj. apply Hlk. lia.
Qed.

(** Moving the next [k] bytes of the stream into the empty buffer. *)
Lemma rrep_load r bs k :
  rrep r bs -> br_valid r = 0 -> (k <= 8)%nat ->
  (br_streamOffset r + k <= length (br_stream r))%nat ->
  rrep (mk_bstreamReader (br_stream r) (br_streamOffset r + k)
          (be_uint (take k (drop (br_streamOffset r) (br_stream r))))
          (8 * Z.of_nat k) (br_last r)) bs.
Proof.
  intros [Hb Ho Hbf Hv Hl E] V0 Hk Hle. set (off := br_streamOffset r) in *.
  assert (Hseg : bytes_ok (take k (drop off (br_stream r)))) by by apply Forall_take, Forall_drop.
  assert (Hlen : length (take k (drop off (br_stream r))) = k).
  { rewrite length_take, length_drop. lia. }
  pose proof (be_uint_range _ Hseg) as Hr. rewrite Hlen in Hr.
  split; cbn [br_stream br_streamOffset br_buffer br_valid br_last]; try done; try lia.
  - unfold is_u64. split; [lia|]. apply Z.lt_le_trans with (2 ^ (8 * Z.of_nat k)); [lia|].
    apply Z.pow_le_mono_r; lia.
  - rewrite V0 in E. simpl in E.
    replace (Z.to_nat (8 * Z.of_nat k)) with (8 * k)%nat by lia.
    rewrite <-Hlen at 1. rewrite zbits_be_uint by done. subst bs.
    rewrite <-stream_bits_app, <-drop_drop, take_drop. done.
Qed.

Lemma loadNextBuffer_spec r bs n :
  rrep r bs -> br_valid r = 0 -> 0 <= n <= 64 -> bs <> [] ->
  exists r', loadNextBuffer n r = (true, r') /\ rrep r' bs /\
    0 < br_valid r' /\ (n <= br_valid r' \/ br_valid r' = Z.of_nat (length bs)).
Proof.
  intros Hr V0 Hn Hne. assert (E := rrep_bits _ _ Hr). rewrite V0 in E. simpl in E.
  assert (Hlen := f_equal length E). rewrite length_stream_bits, length_drop in Hlen.
  assert (Ho : (br_streamOffset r < length (br_stream r))%nat).
  { destruct bs; [done|]. simpl in Hlen. lia. }
  unfold loadNextBuffer.
  destruct (Nat.leb_spec (length (br_stream r)) (br_streamOffset r)); [lia|].
  destruct (Nat.ltb_spec (br_streamOffset r + 8) (length (br_stream r))).
  - eexists. split; [done|]. split; [|simpl; lia].
    apply (rrep_load r bs 8); [done|done|lia|lia].
  - set (nb := Z.to_nat (n / 8 + 1)).
    assert (Hnb : n <= 8 * Z.of_nat nb /\ (1 <= nb)%nat).
    { unfold nb. pose proof (Z.div_mod n 8). pose proof (Z.mod_pos_bound n 8).
      assert (0 <= n / 8) by (apply Z.div_pos; lia). lia. }
    set (k := if (_ <? _)%nat then _ else _).
    assert (Hk : (1 <= k <= 8)%nat /\ (br_streamOffset r + k <= length (br_stream r))%nat /\
      (n <= 8 * Z.of_nat k \/ 8 * Z.of_nat k = Z.of_nat (length bs))).
    { unfold k. destruct (Nat.ltb_spec (length (br_stream r)) (br_streamOffset r + nb)); lia. }
    destruct Hk as (Hk1 & Hk2 & Hk3).
    assert (Hbuf := load_slow_buffer (br_stream r) (br_streamOffset r) k (br_last r)
      (rrep_bytes _ _ Hr) Hk1 Hk2 (rrep_last _ _ Hr)).
    destruct (if (_ =? _)%nat then _ else _) as [buffer skip].
    rewrite Hbuf, u8_id by (unfold is_u8; lia).
    eexists. split; [done|]. rewrite (Z.mul_comm (Z.of_nat k) 8).
    split; [apply rrep_load; [done|done|lia|lia]|]. simpl. lia.
Qed.

Lemma loadNextBuffer_eof r n :
  rrep r [] -> loadNextBuffer n r = (false, r).
Proof.
  intros Hr. assert (E := f_equal length (rrep_bits _ _ Hr)).
  rewrite length_app, length_stream_bits, length_drop in E. simpl in E.
  unfold loadNextBuffer.
  destruct (Nat.leb_spec (length (br_stream r)) (br_streamOffset r)); [done|lia].
Qed.

(** *** The reader's operations consume bits *)

(** [Reads m bs v]: on a reader whose next bits are [bs], [m] consumes exactly
    them and returns [v]. *)
Definition Reads {A} (m : st bstreamReader A) (bs : list bool) (v : A) : Prop :=
  forall r rest, rrep r (bs ++ rest) -> exists r', m r = (Ok v, r') /\ rrep r' rest.

(** The same for a fast path, which may instead fail and leave the reader as
    it was. *)
Definition FastReads {A} (m : st bstreamReader A) (bs : list bool) (v : A) : Prop :=
  forall r rest, rrep r (bs ++ rest) ->
    (exists r', m r = (Ok v, r') /\ rrep r' rest) \/ (exists e, m r = (Err e, r)).

Lemma Reads_ret {A} (v : A) : Reads (st_ret v) [] v.
Proof. intros r rest H. by exists r. Qed.

Lemma Reads_bind {A B} (m : st bstreamReader A) (k : A -> st bstreamReader B) b1 b2 v w :
  Reads m b1 v -> Reads (k v) b2 w -> Reads (st_bind m k) (b1 ++ b2) w.
Proof.
  intros H1 H2 r rest Hr. rewrite <-app_assoc in Hr.
  destruct (H1 _ _ Hr) as (r1 & E1 & Hr1). destruct (H2 _ _ Hr1) as (r2 & E2 & Hr2).
  exists r2. unfold st_bind. by rewrite E1.
Qed.

Lemma Reads_or {A} (f s : st bstreamReader A) bs v :
  FastReads f bs v -> Reads s bs v -> Reads (st_or f s) bs v.
Proof.
  intros Hf Hs r rest Hr. unfold st_or.
  destruct (Hf _ _ Hr) as [(r' & -> & Hr')|(e & ->)]; [by exists r'|]. by apply Hs.
Qed.

(** Taking [k] bits out of the buffer. *)
Lemma rrep_take r bs rest :
  rrep r (bs ++ rest) -> Z.of_nat (length bs) <= br_valid r ->
  bs = zbits (length bs) (Z.shiftr (br_buffer r) (br_valid r - Z.of_nat (length bs))) /\
  rrep (set_valid (br_valid r - Z.of_nat (length bs)) r) rest.
Proof.
  intros [Hb Ho Hbf Hv Hl E] Hle. set (k := length bs) in *.
  replace (Z.to_nat (br_valid r)) with (k + (Z.to_nat (br_valid r) - k))%nat in E by lia.
  rewrite zbits_app, <-app_assoc in E.
  apply app_inj_1 in E as [E1 E2]; [|by rewrite length_zbits].
  replace (Z.of_nat (Z.to_nat (br_valid r) - k)) with (br_valid r - Z.of_nat k) in E1 by lia.
  split; [done|]. split; cbn; try done; try lia.
  rewrite E2. f_equal. f_equal. lia.
Qed.

Lemma ones64 n : 0 <= n <= 64 -> u64 (shl64 1 n - 1) = Z.ones n.
Proof.
  intros Hn. unfold shl64. destruct (Z.leb_spec 64 n).
  - replace n with 64 by lia. done.
  - assert (0 < 2 ^ n) by lia. assert (2 ^ n < 2 ^ 64) by (apply Z.pow_lt_mono_r; lia).
    rewrite Z.shiftl_1_l, (u64_id (2 ^ n)), Z.ones_equiv by (unfold is_u64; lia).
    apply u64_id. unfold is_u64. lia.
Qed.

(** The value a reader returns for the bits [zbits n v]. *)
Lemma land_ones_bits n x v :
  0 <= v < 2 ^ Z.of_nat n -> zbits n x = zbits n v ->
  Z.land x (Z.ones (Z.of_nat n)) = v.
Proof.
  intros Hv E. rewrite Z.land_ones by lia.
  apply (zbits_inj n); [apply Z.mod_pos_bound; lia|done|]. by rewrite zbits_mod.
Qed.

Lemma shr64_small x n : is_u64 x -> 0 <= n -> shr64 x n = Z.shiftr x n.
Proof.
  unfold is_u64, shr64. intros Hx Hn. destruct (Z.leb_spec 64 n); [|done].
  rewrite Z.shiftr_div_pow2, Z.div_small; [done| |lia]. split; [lia|].
  apply Z.lt_le_trans with (2 ^ 64); [lia|]. apply Z.pow_le_mono_r; lia.
Qed.

Lemma readBitsFast_buffered n v r rest :
  (n <= 64)%nat -> 0 <= v < 2 ^ Z.of_nat n -> rrep r (zbits n v ++ rest) ->
  Z.of_nat n <= br_valid r ->
  exists r', readBitsFast (Z.of_nat n) r = (Ok v, r') /\ rrep r' rest.
Proof.
  intros Hn Hv Hr Hle. destruct (rrep_take _ _ _ Hr) as [E Hr']; rewrite length_zbits in *; [done|].
  pose proof (rrep_valid _ _ Hr). unfold readBitsFast.
  destruct (Z.ltb_spec (br_valid r) (Z.of_nat n)); [lia|].
  rewrite u8_id by (unfold is_u8; lia).
  rewrite shr64_small, ones64 by (lia || apply Hr).
  rewrite (land_ones_bits n _ v) by done. by eexists.
Qed.

Lemma FastReads_readBitsFast n v :
  (n <= 64)%nat -> 0 <= v < 2 ^ Z.of_nat n ->
  FastReads (readBitsFast (Z.of_nat n)) (zbits n v) v.
Proof.
  intros Hn Hv r rest Hr. destruct (decide (Z.of_nat n <= br_valid r)).
  - left. by apply readBitsFast_buffered.
  - right. unfold readBitsFast. destruct (Z.ltb_spec (br_valid r) (Z.of_nat n)); [|lia].
    by eexists.
Qed.

(** Putting the high [k] and the low [m] bits of a value back together. *)
Lemma lor_split_value k m v :
  (k + m <= 64)%nat -> 0 <= v < 2 ^ Z.of_nat (k + m) ->
  Z.lor (shl64 (Z.shiftr v (Z.of_nat m)) (Z.of_nat m)) (v mod 2 ^ Z.of_nat m) = v.
Proof.
  intros Hkm Hv.
  assert (Hvm : 0 <= v mod 2 ^ Z.of_nat m < 2 ^ Z.of_nat m) by (apply Z.mod_pos_bound; lia).
  unfold shl64. destruct (Z.leb_spec 64 (Z.of_nat m)) as [H64|H64].
  - rewrite Z.lor_0_l. apply Z.mod_small. replace m with (k + m)%nat by lia. done.
  - assert (v / 2 ^ Z.of_nat m * 2 ^ Z.of_nat m <= v).
    { rewrite Z.mul_comm. apply Z.mul_div_le. lia. }
    assert (0 <= v / 2 ^ Z.of_nat m) by (apply Z.div_pos; lia).
    assert (2 ^ Z.of_nat (k + m) <= 2 ^ 64) by (apply Z.pow_le_mono_r; lia).
    rewrite u64_id, lor_shift_add, Z.shiftr_div_pow2 by
      (unfold is_u64; rewrite ?Z.shiftl_mul_pow2, ?Z.shiftr_div_pow2 by lia; nia || lia).
    rewrite Z.mul_comm. symmetry. apply Z_div_mod_eq_full.
Qed.

Lemma shiftr_bits_range k m v :
  0 <= v < 2 ^ Z.of_nat (k + m) -> 0 <= Z.shiftr v (Z.of_nat m) < 2 ^ Z.of_nat k.
Proof.
  intros Hv. rewrite Z.shiftr_div_pow2 by lia. split; [apply Z.div_pos; lia|].
  apply Z.div_lt_upper_bound; [lia|]. rewrite <-Z.pow_add_r by lia.
  replace (Z.of_nat m + Z.of_nat k) with (Z.of_nat (k + m)) by lia. lia.
Qed.

(** The slow half of readBits: the rest of the buffer, then a part of the next
    one. *)
Lemma readBits_spanning k m v r rest :
  (1 <= m)%nat -> (k + m <= 64)%nat -> 0 <= v < 2 ^ Z.of_nat (k + m) ->
  br_valid r = Z.of_nat k -> br_valid r <> 0 -> rrep r (zbits (k + m) v ++ rest) ->
  exists r', readBits (Z.of_nat (k + m)) r = (Ok v, r') /\ rrep r' rest.
Proof.
  intros Hm Hkm Hv Hk H0 Hr. unfold readBits.
  destruct (Z.eqb_spec (br_valid r) 0); [done|]. simpl negb. cbv iota.
  destruct (Z.leb_spec (Z.of_nat (k + m)) (br_valid r)); [lia|].
  rewrite zbits_app, <-app_assoc in Hr.
  destruct (rrep_take _ _ _ Hr) as [E Hr1]; rewrite length_zbits in *; [lia|].
  replace (br_valid r - Z.of_nat k) with 0 in * by lia. rewrite Z.shiftr_0_r in E.
  rewrite (u8_id (Z.of_nat (k + m) - br_valid r)) by (unfold is_u8; lia).
  replace (Z.of_nat (k + m) - br_valid r) with (Z.of_nat m) by lia.
  destruct (loadNextBuffer_spec _ _ (Z.of_nat m) Hr1) as (r2 & E2 & Hr2 & _ & Hval2);
    [done|lia|by destruct m; [lia|]|].
  rewrite E2. simpl negb. cbv iota.
  assert (Z.of_nat m <= br_valid r2) as Hle2.
  { destruct Hval2 as [?|Hval2]; [done|]. rewrite length_app, length_zbits in Hval2. lia. }
  pose proof (rrep_valid _ _ Hr2).
  destruct (rrep_take _ _ _ Hr2) as [E3 Hr3]; rewrite length_zbits in *; [done|].
  rewrite (u8_id (br_valid r2 - Z.of_nat m)) by (unfold is_u8; lia).
  eexists. split; [|done]. do 2 f_equal.
  rewrite Hk, !ones64, shr64_small by (lia || apply Hr2).
  rewrite (land_ones_bits k _ _ (shiftr_bits_range _ _ _ Hv)) by done.
  rewrite (land_ones_bits m _ (v mod 2 ^ Z.of_nat m))
    by (rewrite ?zbits_mod by lia; done || (apply Z.mod_pos_bound; lia)).
  by apply (lor_split_value k).
Qed.

Lemma readBits_loaded n r :
  br_valid r <> 0 -> (Z.of_nat n <= br_valid r) ->
  readBits (Z.of_nat n) r = readBitsFast (Z.of_nat n) r.
Proof.
  intros H0 Hle. unfold readBits. destruct (Z.eqb_spec (br_valid r) 0); [done|].
  simpl negb. cbv iota. by destruct (Z.leb_spec (Z.of_nat n) (br_valid r)); [|lia].
Qed.

Lemma readBits_load n r r' :
  br_valid r = 0 -> loadNextBuffer (Z.of_nat n) r = (true, r') -> br_valid r' <> 0 ->
  readBits (Z.of_nat n) r = readBits (Z.of_nat n) r'.
Proof.
  intros V E V'. unfold readBits at 1. rewrite V, E. simpl negb. cbv iota.
  unfold readBits. destruct (Z.eqb_spec (br_valid r') 0); done.
Qed.

Lemma Reads_readBits n v :
  (1 <= n <= 64)%nat -> 0 <= v < 2 ^ Z.of_nat n ->
  Reads (readBits (Z.of_nat n)) (zbits n v) v.
Proof.
  intros Hn Hv r0 rest Hr0.
  assert (exists r, readBits (Z.of_nat n) r0 = readBits (Z.of_nat n) r /\
    br_valid r <> 0 /\ rrep r (zbits n v ++ rest)) as (r & -> & H0 & Hr).
  { destruct (decide (br_valid r0 = 0)) as [V|V]; [|by exists r0].
    destruct (loadNextBuffer_spec r0 _ (Z.of_nat n) Hr0 V) as (r & E & Hr & H0 & _);
      [lia|by destruct n; [lia|]|].
    exists r. split; [apply readBits_load; [done|done|lia]|]. split; [lia|done]. }
  pose proof (rrep_valid _ _ Hr). destruct (decide (Z.of_nat n <= br_valid r)).
  - rewrite readBits_loaded by done. apply readBitsFast_buffered; [lia|done..].
  - assert (exists k m, n = (k + m)%nat /\ br_valid r = Z.of_nat k /\ (1 <= m)%nat)
      as (k & m & -> & Hk & Hm).
    { exists (Z.to_nat (br_valid r)), (n - Z.to_nat (br_valid r))%nat. lia. }
    apply readBits_spanning; [lia|lia|done..].
Qed.

Lemma rrep_bit_buffered r b rest :
  rrep r (b :: rest) -> br_valid r <> 0 ->
  Z.testbit (br_buffer r) (br_valid r - 1) = b /\ rrep (set_valid (br_valid r - 1) r) rest.
Proof.
  intros Hr H0. pose proof (rrep_valid _ _ Hr).
  destruct (rrep_take r [b] rest Hr) as [E Hr']; [simpl; lia|].
  cbn [length zbits] in E. injection E as E.
  rewrite <-Z.bit0_odd, Z.shiftr_spec, Z.add_0_l in E by lia. done.
Qed.

Lemma readBitFast_buffered b r rest :
  rrep r (b :: rest) -> br_valid r <> 0 ->
  exists r', readBitFast r = (Ok b, r') /\ rrep r' rest.
Proof.
  intros Hr H0. destruct (rrep_bit_buffered _ _ _ Hr H0) as [E Hr'].
  pose proof (rrep_valid _ _ Hr). unfold readBitFast.
  destruct (Z.eqb_spec (br_valid r) 0); [done|].
  rewrite u8_id by (unfold is_u8; lia). eexists. split; [|done]. do 2 f_equal.
  unfold shl64. destruct (Z.leb_spec 64 (br_valid r - 1)); [lia|].
  rewrite Z.shiftl_1_l, u64_id by
    (unfold is_u64; split; [lia|apply Z.pow_lt_mono_r; lia]).
  destruct b.
  - destruct (Z.eqb_spec (Z.land (br_buffer r) (2 ^ (br_valid r - 1))) 0) as [F|]; [|done].
    apply (f_equal (fun z => Z.testbit z (br_valid r - 1))) in F.
    rewrite Z.land_spec, E, Z.pow2_bits_true, Z.bits_0 in F by lia. done.
  - assert (Z.land (br_buffer r) (2 ^ (br_valid r - 1)) = 0) as ->; [|done].
    apply Z.bits_inj'. intros i Hi. rewrite Z.land_spec, Z.bits_0.
    destruct (decide (i = br_valid r - 1)) as [->|].
    + by rewrite E.
    + rewrite Z.pow2_bits_false by lia. apply andb_false_r.
Qed.

Lemma FastReads_readBitFast b : FastReads readBitFast [b] b.
Proof.
  intros r rest Hr. destruct (decide (br_valid r = 0)) as [V|V].
  - right. unfold readBitFast. rewrite V. by eexists.
  - left. by apply readBitFast_buffered.
Qed.

Lemma Reads_readBit b : Reads readBit [b] b.
Proof.
  intros r rest Hr. unfold readBit.
  destruct (Z.eqb_spec (br_valid r) 0) as [V|V]; [|by apply readBitFast_buffered].
  destruct (loadNextBuffer_spec r _ 1 Hr V) as (r' & -> & Hr' & H0 & _); [lia|done|].
  apply readBitFast_buffered; [done|lia].
Qed.

(** The two retries the decoders are made of. *)
Definition readBitRetry : st bstreamReader bool := st_or readBitFast readBit.
Definition readBitsRetry (n : Z) : st bstreamReader Z := st_or (readBitsFast n) (readBits n).

Lemma Reads_bit b : Reads readBitRetry [b] b.
Proof. apply Reads_or; [apply FastReads_readBitFast|apply Reads_readBit]. Qed.

Lemma Reads_bits n v :
  (1 <= n <= 64)%nat -> 0 <= v < 2 ^ Z.of_nat n ->
  Reads (readBitsRetry (Z.of_nat n)) (zbits n v) v.
Proof.
  intros. apply Reads_or; [apply FastReads_readBitsFast|apply Reads_readBits]; (done || lia).
Qed.

Lemma Reads_bitsZ n v :
  1 <= n <= 64 -> 0 <= v < 2 ^ Z.of_nat (Z.to_nat n) ->
  Reads (readBitsRetry n) (zbits (Z.to_nat n) v) v.
Proof.
  intros Hn Hv. rewrite <-(Z2Nat.id n) at 1 by lia. apply Reads_bits; [lia|done].
Qed.

Lemma Reads_ReadByte x : is_u8 x -> Reads ReadByte (zbits 8 x) x.
Proof.
  intros Hx. rewrite <-(app_nil_r (zbits 8 x)).
  apply Reads_bind with x; [by apply (Reads_readBits 8); [lia|]|].
  rewrite u8_id by done. apply Reads_ret.
Qed.

(** An exhausted reader reports io.EOF. *)
Lemma readBit_eof r : rrep r [] -> fst (readBit r) = Err EOF.
Proof.
  intros Hr. assert (E := f_equal length (rrep_bits _ _ Hr)).
  rewrite length_app, length_zbits in E. simpl in E. pose proof (rrep_valid _ _ Hr).
  unfold readBit. destruct (Z.eqb_spec (br_valid r) 0); [|lia].
  by rewrite loadNextBuffer_eof.
Qed.

Lemma readBits_eof n r : rrep r [] -> fst (readBits n r) = Err EOF.
Proof.
  intros Hr. assert (E := f_equal length (rrep_bits _ _ Hr)).
  rewrite length_app, length_zbits in E. simpl in E. pose proof (rrep_valid _ _ Hr).
  unfold readBits. destruct (Z.eqb_spec (br_valid r) 0); [|lia].
  by rewrite loadNextBuffer_eof.
Qed.

(** ** Main theorems *)

(** The writer and the reader are inverse, bit for bit.  What writeBits
    appends to a stream is exactly the [n] low bits of [u]; and any reader
    whose next bits are those returns [u] (modulo 2^n) and consumes exactly
    them, however the bits straddle its 64-bit buffer. *)
Theorem writeBits_readBits u n w bs :
  wrep w bs -> (1 <= n <= 64)%nat ->
  exists cs, length cs = n /\ wrep (writeBits u n w) (bs ++ cs) /\
    forall r rest, rrep r (cs ++ rest) ->
      exists r', readBits (Z.of_nat n) r = (Ok (u mod 2 ^ Z.of_nat n), r') /\ rrep r' rest.
Proof.
  intros Hw Hn. exists (zbits n u). split; [apply length_zbits|].
  split; [apply wrep_writeBits; [done|lia]|]. rewrite <-(zbits_mod n (Z.of_nat n) u) by lia.
  apply Reads_readBits; [done|]. apply Z.mod_pos_bound. lia.
Qed.

Lemma writeBits_readBits_witness :
  exists cs, length cs = 13%nat /\
    wrep (writeBits 0x1abc 13 (mk_bstream [0xa0] 4)) ([true; false; true; false] ++ cs) /\
    forall r rest, rrep r (cs ++ rest) ->
      exists r', readBits 13 r = (Ok (0x1abc mod 2 ^ 13), r') /\ rrep r' rest.
Proof.
  apply (writeBits_readBits 0x1abc 13 (mk_bstream [0xa0] 4) [true; false; true; false]); [|lia].
  split; [repeat constructor; unfold is_u8; lia|simpl; lia|reflexivity].
Defined.

(** WriteBitsFast is writeBits.  On every well-formed stream it produces
    the same bytes and the same free-bit count. *)
Theorem writeBitsFast_eq u n w bs :
  wrep w bs -> (1 <= n <= 64)%nat -> writeBitsFast u n w = writeBits u n w.
Proof.
  intros Hw Hn. eapply wrep_inj; [by apply wrep_writeBitsFast|apply wrep_writeBits; [done|lia]].
Qed.

Lemma writeBitsFast_eq_witness :
  writeBitsFast 0x1abc 13 (mk_bstream [0xa0] 4) = writeBits 0x1abc 13 (mk_bstream [0xa0] 4).
Proof.
  apply (writeBitsFast_eq 0x1abc 13 (mk_bstream [0xa0] 4) [true; false; true; false]); [|lia].
  split; [repeat constructor; unfold is_u8; lia|simpl; lia|reflexivity].
Defined.

(** A truncated stream is not always reported.  With four bits in the
    buffer and one byte left in the stream, asking for sixteen bits does not
    return io.EOF: readBits returns a value built from four bits only, and its
    counter of valid bits wraps from 8 - 12 to 252, so that later reads go on
    returning zeros. *)
Theorem readBits_truncated_wraps :
  exists r0 r1 r2, readBits 4 (newBReader [0xff; 0xff]) = (Ok 0xf, r0) /\
    rrep r0 (replicate 12 true) /\
    readBits 16 r0 = (Ok 0xf000, r1) /\ br_valid r1 = 252 /\
    readBits 8 r1 = (Ok 0, r2).
Proof.
  do 3 eexists. split; [vm_compute; reflexivity|].
  split; [|split; [vm_compute; reflexivity|split; vm_compute; reflexivity]].
  split; cbn; try done; try (unfold is_u64; lia); try lia.
  repeat constructor; unfold is_u8; lia.
Qed.
