(* ===== verification/Varint.v ===== *)
(** Variable-length integers: the standard library's encoding/binary
    (PutUvarint, PutVarint, ReadUvarint, ReadVarint) as the chunk encodings use
    it over a bit stream, and the bstreamReader's own readUvarint and
    readVarint (tsdb/chunkenc/bstream.go). *)
From S2P Require Import Prelude BitList Bstream.

Definition MaxVarintLen64 : nat := 10.

(** ** encoding/binary *)

Fixpoint put_uvarint (fuel : nat) (x : Z) : list Z :=
  match fuel with
  | O => []
  | S f => if 0x80 <=? x then Z.lor (u8 x) 0x80 :: put_uvarint f (Z.shiftr x 7) else [u8 x]
  end.

(** The bytes PutUvarint puts in the buffer; ten are enough for 64 bits. *)
Definition PutUvarint (x : Z) : list Z := put_uvarint MaxVarintLen64 x.

Definition zigzag (x : Z) : Z :=
  let ux := u64 (Z.shiftl (u64 x) 1) in if x <? 0 then u64 (Z.lnot ux) else ux.

Definition unzigzag (ux : Z) : Z :=
  let x := i64 (shr64 ux 1) in if negb (Z.land ux 1 =? 0) then Z.lnot x else x.

Definition PutVarint (x : Z) : list Z := PutUvarint (zigzag x).

(** binary.ReadUvarint; [n] bytes may still be read, [i] of ten were. *)
Fixpoint ReadUvarint_loop (n : nat) (x s : Z) : st bstreamReader Z :=
  match n with
  | O => st_fail ErrOverflow
  | S n' => fun r =>
      match ReadByte r with
      | (Err e, r') =>
          (Err (if negb (S n' =? MaxVarintLen64)%nat && bool_decide (e = EOF)
                then ErrUnexpectedEOF else e), r')
      | (Ok b, r') =>
          if b <? 0x80 then
            if (S n' =? 1)%nat && (1 <? b) then (Err ErrOverflow, r')
            else (Ok (Z.lor x (shl64 b s)), r')
          else ReadUvarint_loop n' (Z.lor x (shl64 (Z.land b 0x7f) s)) (s + 7) r'
      end
  end.

Definition ReadUvarint : st bstreamReader Z := ReadUvarint_loop MaxVarintLen64 0 0.

Definition ReadVarint : st bstreamReader Z := ux <-- ReadUvarint; st_ret (unzigzag ux).

(** ** bstreamReader.readUvarint and readVarint *)

Fixpoint readUvarint_loop (n : nat) (x s : Z) : st bstreamReader Z :=
  match n with
  | O => st_fail ErrUnexpectedEOF
  | S n' =>
      byt <-- ReadByte;
      (if byt <? 0x80 then st_ret (Z.lor x (shl64 byt s))
       else readUvarint_loop n' (Z.lor x (shl64 (Z.land byt 0x7f) s)) (s + 7))
  end.

Definition readUvarint : st bstreamReader Z := readUvarint_loop MaxVarintLen64 0 0.

Definition readVarint : st bstreamReader Z := ux <-- readUvarint; st_ret (unzigzag ux).

(** ** Properties *)

Lemma unzigzag_zigzag x : is_i64 x -> unzigzag (zigzag x) = x.
Proof.
  unfold is_i64, MinInt64, MaxInt64, unzigzag, zigzag. intros Hx.
  rewrite (shr64_small _ 1); [|destruct (x <? 0); apply u64_range|lia].
  assert (forall y, Z.land y 1 = y mod 2) as Hl by (intros; apply (Z.land_ones _ 1); lia).
  rewrite Hl, Z.shiftr_div_pow2 by lia. unfold u64, Z.lnot. rewrite Z.shiftl_mul_pow2 by lia.
  change (2 ^ 1) with 2. destruct (Z.ltb_spec x 0) as [H|H].
  - assert ((x mod 2 ^ 64 * 2) mod 2 ^ 64 = 2 * x + 2 ^ 64) as ->.
    { rewrite Z.mul_mod_idemp_l, <-(Z_mod_plus_full _ 1) by lia. rewrite Z.mod_small; lia. }
    assert (Z.pred (- (2 * x + 2 ^ 64)) mod 2 ^ 64 = (- x - 1) * 2 + 1) as ->.
    { rewrite <-(Z_mod_plus_full _ 1). rewrite Z.mod_small; lia. }
    rewrite Z.div_add_l, Z.add_comm, Z_mod_plus_full by lia.
    change (1 / 2) with 0. change (negb (1 mod 2 =? 0)) with true. cbv iota.
    rewrite i64_id; [lia|]. unfold is_i64, MinInt64, MaxInt64. lia.
  - rewrite Z.mul_mod_idemp_l, (Z.mod_small (x * 2)) by lia.
    rewrite Z_mod_mult, Z.div_mul by lia. change (negb (0 =? 0)) with false. cbv iota.
    apply i64_id. unfold is_i64, MinInt64, MaxInt64. lia.
Qed.

Lemma zigzag_range x : is_u64 (zigzag x).
Proof. unfold zigzag. destruct (x <? 0); apply u64_range. Qed.

Lemma lor_128 x : Z.lor (u8 x) 128 = x mod 128 + 128.
Proof.
  unfold u8. transitivity (Z.lor (Z.shiftl 1 7) (x mod 2 ^ 7)).
  - apply Z.bits_inj'. intros i Hi. rewrite !Z.lor_spec.
    change (Z.shiftl 1 7) with 128.
    destruct (decide (i < 7)); [|destruct (decide (i = 7)) as [->|]].
    + rewrite !Z.mod_pow2_bits_low by lia. apply orb_comm.
    + rewrite orb_true_r. done.
    + rewrite !Z.mod_pow2_bits_high by lia. apply orb_comm.
  - rewrite lor_shift_add by (lia || (apply Z.mod_pos_bound; lia)). change (2 ^ 7) with 128. lia.
Qed.

Lemma put_uvarint_ok n x : bytes_ok (put_uvarint n x).
Proof.
  revert x. induction n as [|n IH]; intros x; simpl; [constructor|].
  destruct (0x80 <=? x).
  - constructor; [|apply IH]. rewrite lor_128. unfold is_u8.
    pose proof (Z.mod_pos_bound x 128). lia.
  - constructor; [apply u8_range|constructor].
Qed.

(** One step of either decoding loop. *)
Lemma uvarint_step x y s :
  0 <= s -> 0 <= y ->
  Z.lor (Z.lor x (Z.shiftl (y mod 128) s)) (Z.shiftl (Z.shiftr y 7) (s + 7))
    = Z.lor x (Z.shiftl y s).
Proof.
  intros Hs Hy. rewrite <-Z.lor_assoc. f_equal.
  rewrite (Z.add_comm s 7), <-Z.shiftl_shiftl, <-Z.shiftl_lor by lia. f_equal.
  rewrite Z.lor_comm, lor_shift_add by (lia || (apply (Z.mod_pos_bound _ 128); lia)).
  rewrite Z.shiftr_div_pow2 by lia. change (2 ^ 7) with 128.
  rewrite Z.mul_comm. symmetry. apply Z_div_mod_eq_full.
Qed.

Lemma shl64_fits y s :
  0 <= s < 64 -> 0 <= y < 2 ^ (64 - s) -> shl64 y s = Z.shiftl y s.
Proof.
  intros Hs Hy. unfold shl64. destruct (Z.leb_spec 64 s); [lia|]. apply u64_id.
  unfold is_u64. rewrite Z.shiftl_mul_pow2 by lia. split; [nia|].
  apply Z.lt_le_trans with (2 ^ (64 - s) * 2 ^ s); [nia|].
  rewrite <-Z.pow_add_r by lia. apply Z.pow_le_mono_r; lia.
Qed.

(** The decomposition of the head byte shared by the two decoders. *)
Lemma put_uvarint_big y n : 128 <= y ->
  put_uvarint (S n) y = (y mod 128 + 128) :: put_uvarint n (Z.shiftr y 7).
Proof. intros. cbn [put_uvarint]. destruct (Z.leb_spec 0x80 y); [|lia]. by rewrite lor_128. Qed.

Lemma put_uvarint_small y n : 0 <= y < 128 -> put_uvarint (S n) y = [y].
Proof.
  intros. cbn [put_uvarint]. destruct (Z.leb_spec 0x80 y); [lia|].
  rewrite u8_id; [done|]. unfold is_u8. lia.
Qed.

Lemma land_127 y : Z.land (y mod 128 + 128) 0x7f = y mod 128.
Proof.
  change 0x7f with (Z.ones 7). rewrite Z.land_ones by lia.
  change (2 ^ 7) with 128. rewrite <-(Z.mul_1_l 128) at 2.
  rewrite Z_mod_plus_full. apply Zmod_mod.
Qed.

(** [s] bits were decoded with [n] bytes left; the rest [y] fits in 64 bits. *)
Definition varint_pos (n : nat) (s y : Z) : Prop :=
  (1 <= n)%nat /\ s = 7 * (10 - Z.of_nat n) /\ 0 <= s /\ 0 <= y < 2 ^ (64 - s).

Lemma varint_pos_next n s y :
  varint_pos (S n) s y -> 128 <= y -> varint_pos n (s + 7) (Z.shiftr y 7).
Proof.
  intros (Hn & -> & Hs & Hy) Hb.
  assert (n <> 0%nat).
  { intros ->. change (2 ^ (64 - 7 * (10 - Z.of_nat 1))) with 2 in Hy. lia. }
  split; [lia|]. split; [lia|]. split; [lia|].
  rewrite Z.shiftr_div_pow2 by lia. split; [apply Z.div_pos; lia|].
  apply Z.div_lt_upper_bound; [lia|]. rewrite <-Z.pow_add_r by lia.
  replace (7 + (64 - (7 * (10 - Z.of_nat (S n)) + 7))) with (64 - 7 * (10 - Z.of_nat (S n))) by lia.
  lia.
Qed.

Lemma varint_pos_shl n s y :
  varint_pos (S n) s y -> 128 <= y -> shl64 (y mod 128) s = Z.shiftl (y mod 128) s.
Proof.
  intros Hp Hb. destruct (varint_pos_next _ _ _ Hp Hb) as (Hn & _ & _ & _).
  destruct Hp as (_ & -> & Hs & _). pose proof (Z.mod_pos_bound y 128).
  apply shl64_fits; [lia|]. split; [lia|].
  apply Z.lt_le_trans with (2 ^ 7); [lia|]. apply Z.pow_le_mono_r; lia.
Qed.

Lemma Reads_ReadUvarint_loop n x y s :
  varint_pos n s y ->
  Reads (ReadUvarint_loop n x s) (stream_bits (put_uvarint n y)) (Z.lor x (Z.shiftl y s)).
Proof.
  revert x y s. induction n as [|n IH]; intros x y s Hp; [destruct Hp; lia|].
  assert (Hp' := Hp). destruct Hp' as (_ & Hs & Hs0 & Hy).
  intros r rest Hr. cbn [ReadUvarint_loop]. destruct (decide (128 <= y)) as [Hb|Hb].
  - rewrite put_uvarint_big in Hr by done. pose proof (Z.mod_pos_bound y 128).
    unfold stream_bits in Hr. rewrite bind_cons, <-app_assoc in Hr.
    destruct (Reads_ReadByte (y mod 128 + 128) ltac:(unfold is_u8; lia) _ _ Hr) as (r1 & -> & Hr1).
    destruct (Z.ltb_spec (y mod 128 + 128) 0x80); [lia|].
    rewrite land_127, (varint_pos_shl n) by done. rewrite <-(uvarint_step x y s) by lia. apply IH; [|done]. by apply varint_pos_next.
  - rewrite put_uvarint_small, stream_bits_one in Hr by lia.
    destruct (Reads_ReadByte y ltac:(unfold is_u8; lia) _ _ Hr) as (r1 & -> & Hr1).
    destruct (Z.ltb_spec y 0x80); [|lia].
    destruct (Nat.eqb_spec (S n) 1) as [E|E]; [|exists r1; rewrite shl64_fits by lia; done].
    replace (64 - s) with 1 in Hy by lia. destruct (Z.ltb_spec 1 y); [lia|].
    exists r1. simpl. rewrite shl64_fits; [done|lia|]. replace (64 - s) with 1 by lia. done.
Qed.

Lemma Reads_readUvarint_loop n x y s :
  varint_pos n s y ->
  Reads (readUvarint_loop n x s) (stream_bits (put_uvarint n y)) (Z.lor x (Z.shiftl y s)).
Proof.
  revert x y s. induction n as [|n IH]; intros x y s Hp; [destruct Hp; lia|].
  assert (Hp' := Hp). destruct Hp' as (_ & Hs & Hs0 & Hy).
  cbn [readUvarint_loop]. destruct (decide (128 <= y)) as [Hb|Hb].
  - rewrite put_uvarint_big by done. pose proof (Z.mod_pos_bound y 128).
    unfold stream_bits. rewrite bind_cons.
    eapply Reads_bind; [apply Reads_ReadByte; unfold is_u8; lia|].
    destruct (Z.ltb_spec (y mod 128 + 128) 0x80); [lia|].
    rewrite land_127, (varint_pos_shl n) by done. rewrite <-(uvarint_step x y s) by lia. apply IH. by apply varint_pos_next.
  - rewrite put_uvarint_small, stream_bits_one by lia.
    rewrite <-(app_nil_r (zbits 8 y)).
    eapply Reads_bind; [apply Reads_ReadByte; unfold is_u8; lia|].
    destruct (Z.ltb_spec y 0x80); [|lia]. rewrite shl64_fits by lia. apply Reads_ret.
Qed.

Lemma varint_pos_start x : is_u64 x -> varint_pos MaxVarintLen64 0 x.
Proof. unfold is_u64, varint_pos, MaxVarintLen64. intros. split; lia. Qed.

Lemma Reads_ReadUvarint x : is_u64 x -> Reads ReadUvarint (stream_bits (PutUvarint x)) x.
Proof.
  intros Hx. assert (H := Reads_ReadUvarint_loop _ 0 _ _ (varint_pos_start _ Hx)).
  by rewrite Z.lor_0_l, Z.shiftl_0_r in H.
Qed.

Lemma Reads_readUvarint x : is_u64 x -> Reads readUvarint (stream_bits (PutUvarint x)) x.
Proof.
  intros Hx. assert (H := Reads_readUvarint_loop _ 0 _ _ (varint_pos_start _ Hx)).
  by rewrite Z.lor_0_l, Z.shiftl_0_r in H.
Qed.

Lemma Reads_ReadVarint x : is_i64 x -> Reads ReadVarint (stream_bits (PutVarint x)) x.
Proof.
  intros Hx. rewrite <-(app_nil_r (stream_bits _)).
  eapply Reads_bind; [apply Reads_ReadUvarint, zigzag_range|].
  rewrite unzigzag_zigzag by done. apply Reads_ret.
Qed.

Lemma Reads_readVarint x : is_i64 x -> Reads readVarint (stream_bits (PutVarint x)) x.
Proof.
  intros Hx. rewrite <-(app_nil_r (stream_bits _)).
  eapply Reads_bind; [apply Reads_readUvarint, zigzag_range|].
  rewrite unzigzag_zigzag by done. apply Reads_ret.
Qed.

(** Writing a varint byte by byte, as the chunk appenders do. *)
Definition writeBytes (l : list Z) (b : bstream) : bstream :=
  foldl (fun b x => writeByte x b) b l.

Lemma wrep_writeBytes l w bs :
  wrep w bs -> bytes_ok l -> wrep (writeBytes l w) (bs ++ stream_bits l).
Proof.
  revert w bs. induction l as [|x l IH]; intros w bs Hw Hl.
  - simpl. by rewrite app_nil_r.
  - change (writeBytes (x :: l) w) with (writeBytes l (writeByte x w)). apply Forall_cons in Hl as [Hx Hl]. unfold stream_bits. rewrite bind_cons, app_assoc.
    apply IH; [|done]. by apply wrep_writeByte.
Qed.

Lemma PutUvarint_ok x : bytes_ok (PutUvarint x).
Proof. apply put_uvarint_ok. Qed.
Lemma PutVarint_ok x : bytes_ok (PutVarint x).
Proof. apply put_uvarint_ok. Qed.
