(* ===== verification/Varbit.v ===== *)
(** The varbit integer codes of tsdb/chunkenc/varbit.go: a unary bucket prefix
    followed by the value at the bucket's width; and [bitRange] of
    tsdb/chunkenc/xor.go, which chooses the bucket. *)
From S2P Require Import Prelude BitList Bstream.

(** [bitRange(x, nbits)]: x fits the bucket [-(2^(nbits-1)-1), 2^(nbits-1)]. *)
Definition bitRange (x : Z) (nbits : Z) : bool :=
  (- (2 ^ (nbits - 1) - 1) <=? x) && (x <=? 2 ^ (nbits - 1)).

(** math/bits. *)
Definition LeadingZeros64 (x : Z) : Z := if x =? 0 then 64 else 63 - Z.log2 x.

Definition bitRangeUint (x : Z) (nbits : Z) : bool := 64 - nbits <=? LeadingZeros64 x.

(** ** Writers

    The bucket prefixes are 0b10 = 2, 0b110 = 6, 0b1110 = 14, 0b11110 = 30,
    0b111110 = 62, 0b1111110 = 126, 0b11111110 = 254 and 0b11111111 = 255. *)

Definition putVarbitInt (val : Z) (b : bstream) : bstream :=
  if val =? 0 then writeBit false b
  else if bitRange val 3 then writeBits (u64 val) 3 (writeBits 2 2 b)
  else if bitRange val 6 then writeBits (u64 val) 6 (writeBits 6 3 b)
  else if bitRange val 9 then writeBits (u64 val) 9 (writeBits 14 4 b)
  else if bitRange val 12 then writeBits (u64 val) 12 (writeBits 30 5 b)
  else if bitRange val 18 then writeBits (u64 val) 18 (writeBits 62 6 b)
  else if bitRange val 25 then writeBits (u64 val) 25 (writeBits 126 7 b)
  else if bitRange val 56 then writeBits (u64 val) 56 (writeBits 254 8 b)
  else writeBits (u64 val) 64 (writeBits 255 8 b).

Definition putVarbitIntFast (val : Z) (b : bstream) : bstream :=
  let uval := u64 val in
  if val =? 0 then writeBit false b
  else if bitRange val 3 then
    writeBitsFast (Z.lor (Z.shiftl 2 3) (Z.land uval 0x7)) 5 b
  else if bitRange val 6 then
    writeBitsFast (Z.lor (Z.shiftl 6 6) (Z.land uval 0x3F)) 9 b
  else if bitRange val 9 then
    writeBitsFast (Z.lor (Z.shiftl 14 9) (Z.land uval 0x1FF)) 13 b
  else if bitRange val 12 then
    writeBitsFast (Z.lor (Z.shiftl 30 12) (Z.land uval 0xFFF)) 17 b
  else if bitRange val 18 then
    writeBitsFast (Z.lor (Z.shiftl 62 18) (Z.land uval 0x3FFFF)) 24 b
  else if bitRange val 25 then
    writeBitsFast (Z.lor (Z.shiftl 126 25) (Z.land uval 0x1FFFFFF)) 32 b
  else if bitRange val 56 then
    writeBitsFast (Z.lor (Z.shiftl 254 56) (Z.land uval 0xFFFFFFFFFFFFFF)) 64 b
  else writeBitsFast uval 64 (writeBitsFast 255 8 b).

Definition putVarbitUint (val : Z) (b : bstream) : bstream :=
  if val =? 0 then writeBit false b
  else if bitRangeUint val 3 then writeBits val 3 (writeBits 2 2 b)
  else if bitRangeUint val 6 then writeBits val 6 (writeBits 6 3 b)
  else if bitRangeUint val 9 then writeBits val 9 (writeBits 14 4 b)
  else if bitRangeUint val 12 then writeBits val 12 (writeBits 30 5 b)
  else if bitRangeUint val 18 then writeBits val 18 (writeBits 62 6 b)
  else if bitRangeUint val 25 then writeBits val 25 (writeBits 126 7 b)
  else if bitRangeUint val 56 then writeBits val 56 (writeBits 254 8 b)
  else writeBits val 64 (writeBits 255 8 b).

(** ** Readers *)

(** [for range n { d <<= 1; read a bit; if zero, break; d |= 1 }]. *)
Fixpoint read_prefix (n : nat) (d : Z) : st bstreamReader Z :=
  match n with
  | O => st_ret d
  | S n' =>
      bit <-- readBitRetry;
      (if bit : bool then read_prefix n' (Z.lor (shl8 d 1) 1) else st_ret (shl8 d 1))
  end.

(** Negative numbers come back as high unsigned numbers of [sz] bits. *)
Definition sign_extend (sz bits : Z) : Z :=
  i64 (if shl64 1 (sz - 1) <? bits then u64 (bits - shl64 1 sz) else bits).

Definition read_signed (sz : Z) : st bstreamReader Z :=
  bits <-- readBitsRetry sz; st_ret (sign_extend sz bits).

Definition readVarbitInt : st bstreamReader Z :=
  d <-- read_prefix 8 0;
  match d with
  | 0 => st_ret 0
  | 2 => read_signed 3
  | 6 => read_signed 6
  | 14 => read_signed 9
  | 30 => read_signed 12
  | 62 => read_signed 18
  | 126 => read_signed 25
  | 254 => read_signed 56
  | 255 => bits <-- readBits 64; st_ret (i64 bits)
  | _ => st_fail (ErrBitPattern d)
  end.

Definition readVarbitUint : st bstreamReader Z :=
  d <-- read_prefix 8 0;
  match d with
  | 0 => st_ret 0
  | 2 => readBitsRetry 3
  | 6 => readBitsRetry 6
  | 14 => readBitsRetry 9
  | 30 => readBitsRetry 12
  | 62 => readBitsRetry 18
  | 126 => readBitsRetry 25
  | 254 => readBitsRetry 56
  | 255 => readBits 64
  | _ => st_fail (ErrBitPattern d)
  end.

(** ** The code words *)

Definition varbit_code (prefix : list bool) (n : nat) (u : Z) : list bool := prefix ++ zbits n u.

Definition varbitInt_bits (val : Z) : list bool :=
  if val =? 0 then [false]
  else if bitRange val 3 then varbit_code (zbits 2 2) 3 val
  else if bitRange val 6 then varbit_code (zbits 3 6) 6 val
  else if bitRange val 9 then varbit_code (zbits 4 14) 9 val
  else if bitRange val 12 then varbit_code (zbits 5 30) 12 val
  else if bitRange val 18 then varbit_code (zbits 6 62) 18 val
  else if bitRange val 25 then varbit_code (zbits 7 126) 25 val
  else if bitRange val 56 then varbit_code (zbits 8 254) 56 val
  else varbit_code (zbits 8 255) 64 val.

Definition varbitUint_bits (val : Z) : list bool :=
  if val =? 0 then [false]
  else if bitRangeUint val 3 then varbit_code (zbits 2 2) 3 val
  else if bitRangeUint val 6 then varbit_code (zbits 3 6) 6 val
  else if bitRangeUint val 9 then varbit_code (zbits 4 14) 9 val
  else if bitRangeUint val 12 then varbit_code (zbits 5 30) 12 val
  else if bitRangeUint val 18 then varbit_code (zbits 6 62) 18 val
  else if bitRangeUint val 25 then varbit_code (zbits 7 126) 25 val
  else if bitRangeUint val 56 then varbit_code (zbits 8 254) 56 val
  else varbit_code (zbits 8 255) 64 val.

(** *** Writing *)

Lemma wrep_code_u w bs (p : Z) (m n : nat) u :
  wrep w bs -> (m <= 64)%nat -> (n <= 64)%nat ->
  wrep (writeBits u n (writeBits p m w)) (bs ++ varbit_code (zbits m p) n u).
Proof.
  intros Hw Hm Hn. unfold varbit_code. rewrite app_assoc. by repeat apply wrep_writeBits.
Qed.

Lemma wrep_code w bs (p : Z) (m n : nat) u :
  wrep w bs -> (m <= 64)%nat -> (n <= 64)%nat ->
  wrep (writeBits (u64 u) n (writeBits p m w)) (bs ++ varbit_code (zbits m p) n u).
Proof.
  intros Hw Hm Hn. unfold varbit_code. rewrite <-(zbits_u64 n u) by done.
  by apply wrep_code_u.
Qed.

Lemma zbits_pack m n a u :
  zbits (m + n) (Z.lor (Z.shiftl a (Z.of_nat n)) (Z.land u (Z.ones (Z.of_nat n))))
    = zbits m a ++ zbits n u.
Proof.
  rewrite (zbits_lor_low m n _ _ (zbits m a)).
  - f_equal. rewrite Z.land_ones by lia. by apply zbits_mod.
  - apply zbits_shl.
  - rewrite Z.land_ones by lia. apply Z.mod_pos_bound. lia.
Qed.

Lemma wrep_code_fast w bs (a : Z) (m n : nat) u :
  wrep w bs -> (1 <= m + n <= 64)%nat ->
  wrep (writeBitsFast (Z.lor (Z.shiftl a (Z.of_nat n)) (Z.land (u64 u) (Z.ones (Z.of_nat n))))
          (m + n) w) (bs ++ varbit_code (zbits m a) n u).
Proof.
  intros Hw Hn. unfold varbit_code. rewrite <-(zbits_u64 n u) by lia.
  rewrite <-zbits_pack. by apply wrep_writeBitsFast.
Qed.

Lemma wrep_putVarbitInt w bs val :
  wrep w bs -> wrep (putVarbitInt val w) (bs ++ varbitInt_bits val).
Proof.
  intros Hw. unfold putVarbitInt, varbitInt_bits.
  repeat case_match; first [by apply wrep_writeBit | apply wrep_code; [done|lia|lia]].
Qed.

Lemma wrep_putVarbitIntFast w bs val :
  wrep w bs -> wrep (putVarbitIntFast val w) (bs ++ varbitInt_bits val).
Proof.
  intros Hw. unfold putVarbitIntFast, varbitInt_bits.
  repeat case_match; [by apply wrep_writeBit|..].
  - apply (wrep_code_fast _ _ _ 2 3); [done|lia].
  - apply (wrep_code_fast _ _ _ 3 6); [done|lia].
  - apply (wrep_code_fast _ _ _ 4 9); [done|lia].
  - apply (wrep_code_fast _ _ _ 5 12); [done|lia].
  - apply (wrep_code_fast _ _ _ 6 18); [done|lia].
  - apply (wrep_code_fast _ _ _ 7 25); [done|lia].
  - apply (wrep_code_fast _ _ _ 8 56); [done|lia].
  - unfold varbit_code. rewrite app_assoc, <-(zbits_u64 64 val) by done.
    by repeat (apply wrep_writeBitsFast; [|lia]).
Qed.

Lemma wrep_putVarbitUint w bs val :
  wrep w bs -> wrep (putVarbitUint val w) (bs ++ varbitUint_bits val).
Proof.
  intros Hw. unfold putVarbitUint, varbitUint_bits.
  repeat case_match; first [by apply wrep_writeBit | apply wrep_code_u; [done|lia|lia]].
Qed.

(** *** Reading *)

Lemma Reads_prefix_one n d bs v :
  Reads (read_prefix n (Z.lor (shl8 d 1) 1)) bs v -> Reads (read_prefix (S n) d) (true :: bs) v.
Proof. intros H. apply (Reads_bind _ _ [true] _ true); [apply Reads_bit|done]. Qed.

Lemma Reads_prefix_zero n d : Reads (read_prefix (S n) d) [false] (shl8 d 1).
Proof. apply (Reads_bind _ _ [false] [] false); [apply Reads_bit|apply Reads_ret]. Qed.

Lemma Reads_prefix_end d : Reads (read_prefix 0 d) [] d.
Proof. apply Reads_ret. Qed.

(** Reads a concrete prefix. *)
Ltac reads_prefix :=
  match goal with
  | |- Reads (read_prefix _ _) (zbits ?n ?c) _ =>
      let bs := eval vm_compute in (zbits n c) in change (zbits n c) with bs
  | _ => idtac
  end;
  repeat apply Reads_prefix_one;
  first [apply Reads_prefix_zero | apply Reads_prefix_end].

Lemma sign_extend_spec (sz : nat) val :
  (2 <= sz <= 63)%nat -> bitRange val (Z.of_nat sz) = true ->
  sign_extend (Z.of_nat sz) (val mod 2 ^ Z.of_nat sz) = val.
Proof.
  intros Hsz Hr. unfold bitRange in Hr.
  apply andb_true_iff in Hr as [H1%Z.leb_le H2%Z.leb_le].
  unfold sign_extend, shl64.
  destruct (Z.leb_spec 64 (Z.of_nat sz - 1)); [lia|].
  destruct (Z.leb_spec 64 (Z.of_nat sz)); [lia|].
  assert (Hp : 2 ^ Z.of_nat sz = 2 * 2 ^ (Z.of_nat sz - 1)).
  { rewrite <-Z.pow_succ_r by lia. f_equal. lia. }
  assert (Hp1 : 0 < 2 ^ (Z.of_nat sz - 1)) by lia.
  assert (Hp2 : 2 ^ (Z.of_nat sz - 1) <= 2 ^ 62) by (apply Z.pow_le_mono_r; lia).
  set (q := 2 ^ (Z.of_nat sz - 1)) in *.
  rewrite !Z.shiftl_1_l. fold q. rewrite (u64_id q), (u64_id (2 ^ _)) by (unfold is_u64; lia).
  rewrite Hp. destruct (decide (0 <= val)).
  - rewrite Z.mod_small by lia. destruct (Z.ltb_spec q val); [lia|].
    apply i64_id. unfold is_i64, MinInt64, MaxInt64. lia.
  - assert (val mod (2 * q) = val + 2 * q) as ->.
    { rewrite <-(Z_mod_plus_full val 1). rewrite Z.mod_small; lia. }
    destruct (Z.ltb_spec q (val + 2 * q)); [|lia].
    rewrite i64_u64. replace (val + 2 * q - 2 * q) with val by lia.
    apply i64_id. unfold is_i64, MinInt64, MaxInt64. lia.
Qed.

Lemma Reads_signed (sz : nat) val :
  (2 <= sz <= 63)%nat -> bitRange val (Z.of_nat sz) = true ->
  Reads (read_signed (Z.of_nat sz)) (zbits sz val) val.
Proof.
  intros Hsz Hr. rewrite <-(zbits_mod sz (Z.of_nat sz) val), <-(app_nil_r (zbits sz _)) by lia.
  eapply Reads_bind; [apply Reads_bits; [lia|apply Z.mod_pos_bound; lia]|].
  rewrite sign_extend_spec by done. apply Reads_ret.
Qed.

Lemma Reads_bits64 val : is_i64 val ->
  Reads (bits <-- readBits 64; st_ret (i64 bits)) (zbits 64 val) val.
Proof.
  intros Hv. rewrite <-(zbits_u64 64 val), <-(app_nil_r (zbits 64 _)) by lia.
  eapply Reads_bind; [apply (Reads_readBits 64); [lia|apply u64_range]|].
  rewrite i64_u64, i64_id by done. apply Reads_ret.
Qed.

Lemma Reads_readVarbitInt val : is_i64 val -> Reads readVarbitInt (varbitInt_bits val) val.
Proof.
  intros Hv. unfold varbitInt_bits, readVarbitInt, varbit_code.
  destruct (Z.eqb_spec val 0) as [->|].
  { rewrite <-(app_nil_r [false]). eapply Reads_bind; [reads_prefix|]. apply Reads_ret. }
  repeat case_match; (eapply Reads_bind; [reads_prefix|]);
    match goal with |- Reads (match ?d with _ => _ end) _ _ =>
      let x := eval vm_compute in d in change d with x end; cbv iota.
  - by apply (Reads_signed 3); [lia|].
  - by apply (Reads_signed 6); [lia|].
  - by apply (Reads_signed 9); [lia|].
  - by apply (Reads_signed 12); [lia|].
  - by apply (Reads_signed 18); [lia|].
  - by apply (Reads_signed 25); [lia|].
  - by apply (Reads_signed 56); [lia|].
  - by apply Reads_bits64.
Qed.

Lemma bitRangeUint_spec x n : is_u64 x -> 0 <= n <= 64 -> bitRangeUint x n = (x <? 2 ^ n).
Proof.
  intros Hx Hn. unfold bitRangeUint, LeadingZeros64. unfold is_u64 in Hx.
  destruct (Z.eqb_spec x 0) as [->|H0].
  - destruct (Z.leb_spec (64 - n) 64), (Z.ltb_spec 0 (2 ^ n)); lia || done.
  - pose proof (Z.log2_lt_pow2 x n ltac:(lia)).
    destruct (Z.leb_spec (64 - n) (63 - Z.log2 x)), (Z.ltb_spec x (2 ^ n)); lia || done.
Qed.

Lemma Reads_readVarbitUint val : is_u64 val -> Reads readVarbitUint (varbitUint_bits val) val.
Proof.
  intros Hv. unfold varbitUint_bits, readVarbitUint, varbit_code.
  destruct (Z.eqb_spec val 0) as [->|].
  { rewrite <-(app_nil_r [false]). eapply Reads_bind; [reads_prefix|]. apply Reads_ret. }
  rewrite !bitRangeUint_spec by (done || lia). unfold is_u64 in Hv.
  repeat case_match; (eapply Reads_bind; [reads_prefix|]);
    match goal with |- Reads (match ?d with _ => _ end) _ _ =>
      let x := eval vm_compute in d in change d with x end; cbv iota;
    repeat match goal with H : (_ <? _) = true |- _ => apply Z.ltb_lt in H end.
  - apply (Reads_bits 3); lia.
  - apply (Reads_bits 6); lia.
  - apply (Reads_bits 9); lia.
  - apply (Reads_bits 12); lia.
  - apply (Reads_bits 18); lia.
  - apply (Reads_bits 25); lia.
  - apply (Reads_bits 56); lia.
  - apply (Reads_readBits 64); lia.
Qed.

(** ** Main theorems *)

(** Varbit integers round trip.  After any bits [bs], writing an int64 with
    putVarbitInt and then more bits [more] gives a stream from which, once [bs]
    is consumed, readVarbitInt returns the same int64 and leaves [more]. *)
Theorem varbit_int_roundtrip val w bs :
  is_i64 val -> wrep w bs ->
  exists cs, wrep (putVarbitInt val w) (bs ++ cs) /\
    forall r rest, rrep r (cs ++ rest) ->
      exists r', readVarbitInt r = (Ok val, r') /\ rrep r' rest.
Proof.
  intros Hv Hw. exists (varbitInt_bits val). split; [by apply wrep_putVarbitInt|].
  by apply Reads_readVarbitInt.
Qed.

Lemma wrep_empty : wrep (bstream_Reset []) [].
Proof. split; [constructor|simpl; lia|done]. Qed.

Lemma varbit_int_roundtrip_witness :
  exists cs, wrep (putVarbitInt (-131071) (bstream_Reset [])) ([] ++ cs) /\
    forall r rest, rrep r (cs ++ rest) ->
      exists r', readVarbitInt r = (Ok (-131071), r') /\ rrep r' rest.
Proof.
  apply (varbit_int_roundtrip (-131071) (bstream_Reset []) []); [|apply wrep_empty].
  unfold is_i64, MinInt64, MaxInt64. lia.
Defined.

(** The same for unsigned varbit integers: putVarbitUint and
    readVarbitUint are inverse on every uint64. *)
Theorem varbit_uint_roundtrip val w bs :
  is_u64 val -> wrep w bs ->
  exists cs, wrep (putVarbitUint val w) (bs ++ cs) /\
    forall r rest, rrep r (cs ++ rest) ->
      exists r', readVarbitUint r = (Ok val, r') /\ rrep r' rest.
Proof.
  intros Hv Hw. exists (varbitUint_bits val). split; [by apply wrep_putVarbitUint|].
  by apply Reads_readVarbitUint.
Qed.

Lemma varbit_uint_roundtrip_witness :
  exists cs, wrep (putVarbitUint 33554432 (bstream_Reset [])) ([] ++ cs) /\
    forall r rest, rrep r (cs ++ rest) ->
      exists r', readVarbitUint r = (Ok 33554432, r') /\ rrep r' rest.
Proof.
  apply (varbit_uint_roundtrip 33554432 (bstream_Reset []) []); [|apply wrep_empty].
  unfold is_u64. lia.
Defined.

(** PutVarbitIntFast writes the same bytes as putVarbitInt, for every
    int64 and every well-formed stream. *)
Theorem putVarbitIntFast_eq val w bs :
  wrep w bs -> putVarbitIntFast val w = putVarbitInt val w.
Proof.
  intros Hw. eapply wrep_inj; [by apply wrep_putVarbitIntFast|by apply wrep_putVarbitInt].
Qed.

Lemma putVarbitIntFast_eq_witness :
  putVarbitIntFast 300 (bstream_Reset []) = putVarbitInt 300 (bstream_Reset []).
Proof. apply (putVarbitIntFast_eq 300 (bstream_Reset []) []), wrep_empty. Defined.
