(* ===== verification/Xor.v ===== *)
(** The XOR (Gorilla) float chunk of tsdb/chunkenc/xor.go: appender, iterator,
    and the proof that iterating a chunk gives back what was appended.

    A float64 is its 64-bit pattern: the code only moves values through
    math.Float64bits and math.Float64frombits. *)
From S2P Require Import Prelude BitList Bstream Varint Varbit.

(** chunkenc.ValueType. *)
Inductive ValueType := ValNone | ValFloat | ValHistogram | ValFloatHistogram.
#[global] Instance ValueType_eq_dec : EqDecision ValueType.
Proof. solve_decision. Defined.

Definition chunkHeaderSize : nat := 2.

(** math/bits.TrailingZeros64. *)
Fixpoint pos_trailing_zeros (p : positive) : Z :=
  match p with xO p' => 1 + pos_trailing_zeros p' | _ => 0 end.
Definition TrailingZeros64 (x : Z) : Z :=
  match x with Zpos p => pos_trailing_zeros p | _ => 64 end.

(** ** Values *)

(** xorWrite returns the stream and the caller's updated leading and trailing. *)
Definition xorWrite (newValue currentValue : Z) (leading trailing : Z) (b : bstream)
  : bstream * Z * Z :=
  let delta := Z.lxor newValue currentValue in
  if delta =? 0 then (writeBit false b, leading, trailing)
  else
    let b := writeBit true b in
    let newLeading := u8 (LeadingZeros64 delta) in
    let newTrailing := u8 (TrailingZeros64 delta) in
    let newLeading := if 32 <=? newLeading then 31 else newLeading in
    if negb (leading =? 0xff) && (leading <=? newLeading) && (trailing <=? newTrailing) then
      let b := writeBit false b in
      (writeBits (shr64 delta trailing) (Z.to_nat (64 - leading - trailing)) b, leading, trailing)
    else
      let b := writeBit true b in
      let b := writeBits newLeading 5 b in
      let sigbits := u8 (64 - newLeading - newTrailing) in
      let b := writeBits sigbits 6 b in
      (writeBits (shr64 delta newTrailing) (Z.to_nat sigbits) b, newLeading, newTrailing).

(** What xorRead has pointers to. *)
Record xst := mk_xst { x_br : bstreamReader; x_val : Z; x_leading : Z; x_trailing : Z }.

Definition set_br (br : bstreamReader) (s : xst) : xst :=
  mk_xst br (x_val s) (x_leading s) (x_trailing s).

Definition on_br {A} (m : st bstreamReader A) : st xst A :=
  fun s => let '(res, br) := m (x_br s) in (res, set_br br s).

Definition xorRead : st xst unit :=
  bit <-- on_br readBitRetry;
  if negb bit then st_ret tt
  else
    bit <-- on_br readBitRetry;
    tm <--
      (if negb bit then
         fun s => (Ok (x_trailing s, u8 (64 - x_leading s - x_trailing s)), s)
       else
         bits <-- on_br (readBitsRetry 5);
         let newLeading := u8 bits in
         bits <-- on_br (readBitsRetry 6);
         let mbits := u8 bits in
         let mbits := if mbits =? 0 then 64 else mbits in
         let newTrailing := u8 (64 - newLeading - mbits) in
         fun s => (Ok (newTrailing, mbits), mk_xst (x_br s) (x_val s) newLeading newTrailing));
    bits <-- on_br (readBitsRetry (snd tm));
    fun s => (Ok tt, mk_xst (x_br s) (Z.lxor (x_val s) (shl64 bits (fst tm)))
                       (x_leading s) (x_trailing s)).

(** ** The chunk and its appender *)

(** An XORChunk is its bstream; the first two bytes hold the sample count. *)
Definition NewXORChunk : bstream := mk_bstream (replicate chunkHeaderSize 0) 0.

Definition XORChunk_NumSamples (c : bstream) : Z := be_uint (take 2 (bs_stream c)).

Record xorAppender := mk_xorAppender {
  xa_b : bstream;
  xa_t : Z;
  xa_v : Z;
  xa_tDelta : Z;
  xa_leading : Z;
  xa_trailing : Z;
}.

(** binary.BigEndian.PutUint16(b.bytes(), n). *)
Definition put_header (n : Z) (b : bstream) : bstream :=
  mk_bstream (be_bytes 2 n ++ drop 2 (bs_stream b)) (bs_count b).

(** The delta of deltas of the timestamps. *)
Definition write_dod (dod : Z) (b : bstream) : bstream :=
  if dod =? 0 then writeBit false b
  else if bitRange dod 14 then
    writeByte (u8 dod)
      (writeByte (Z.lor (Z.shiftl 2 6) (Z.land (u8 (Z.shiftr dod 8)) (Z.shiftl 1 6 - 1))) b)
  else if bitRange dod 17 then writeBits (u64 dod) 17 (writeBits 6 3 b)
  else if bitRange dod 20 then writeBits (u64 dod) 20 (writeBits 14 4 b)
  else writeBits (u64 dod) 64 (writeBits 15 4 b).

(** Append; [None] is the panic of a full chunk. *)
Definition xorAppender_Append (t v : Z) (a : xorAppender) : option xorAppender :=
  let num := be_uint (take 2 (bs_stream (xa_b a))) in
  if num =? 0 then
    let b := writeBytes (PutVarint t) (xa_b a) in
    let b := writeBits v 64 b in
    Some (mk_xorAppender (put_header (u16 (num + 1)) b) t v 0 (xa_leading a) (xa_trailing a))
  else if num =? 1 then
    let tDelta := u64 (i64 (t - xa_t a)) in
    let b := writeBytes (PutUvarint tDelta) (xa_b a) in
    let '(b, l, tr) := xorWrite v (xa_v a) (xa_leading a) (xa_trailing a) b in
    Some (mk_xorAppender (put_header (u16 (num + 1)) b) t v tDelta l tr)
  else if num =? MaxUint16 then None
  else
    let tDelta := u64 (i64 (t - xa_t a)) in
    let dod := i64 (u64 (tDelta - xa_tDelta a)) in
    let b := write_dod dod (xa_b a) in
    let '(b, l, tr) := xorWrite v (xa_v a) (xa_leading a) (xa_trailing a) b in
    Some (mk_xorAppender (put_header (u16 (num + 1)) b) t v tDelta l tr).

(** ** The iterator *)

Record xorIterator := mk_xorIterator {
  xi_x : xst;             (* br, val, leading, trailing *)
  xi_numTotal : Z;        (* uint16 *)
  xi_numRead : Z;         (* uint16 *)
  xi_t : Z;
  xi_tDelta : Z;          (* uint64 *)
  xi_err : option goerror;
}.

(** XORChunk.iterator(nil): a fresh iterator. *)
Definition XORChunk_iterator (c : bstream) : xorIterator :=
  mk_xorIterator (mk_xst (newBReader (drop chunkHeaderSize (bs_stream c))) 0 0 0)
    (be_uint (take 2 (bs_stream c))) 0 MinInt64 0 None.

(** xorIterator.Reset, with which XORChunk.iterator reuses an old iterator. *)
Definition xorIterator_Reset (b : list Z) : xorIterator :=
  mk_xorIterator (mk_xst (newBReader (drop chunkHeaderSize b)) 0 0 0)
    (be_uint (take 2 b)) 0 0 0 None.

Definition xorIterator_At (it : xorIterator) : Z * Z := (xi_t it, x_val (xi_x it)).

Definition xi_fail (e : goerror) (it : xorIterator) : ValueType * xorIterator :=
  (ValNone, mk_xorIterator (xi_x it) (xi_numTotal it) (xi_numRead it) (xi_t it) (xi_tDelta it)
              (Some e)).

(** [it.numRead++; return ValFloat]. *)
Definition xi_found (it : xorIterator) : ValueType * xorIterator :=
  (ValFloat, mk_xorIterator (xi_x it) (xi_numTotal it) (u16 (xi_numRead it + 1)) (xi_t it)
               (xi_tDelta it) (xi_err it)).

Definition set_xst (x : xst) (it : xorIterator) : xorIterator :=
  mk_xorIterator x (xi_numTotal it) (xi_numRead it) (xi_t it) (xi_tDelta it) (xi_err it).

Definition set_time (t tDelta : Z) (it : xorIterator) : xorIterator :=
  mk_xorIterator (xi_x it) (xi_numTotal it) (xi_numRead it) t tDelta (xi_err it).

(** [it.br.valid -= n]. *)
Definition consume (n : Z) (x : xst) : xst := set_br (set_valid (u8 (br_valid (x_br x) - n)) (x_br x)) x.

(** [(br.buffer>>(br.valid-n))&1 == 0]: the n-th next bit is zero. *)
Definition peek_zero (n : Z) (br : bstreamReader) : bool :=
  Z.land (shr64 (br_buffer br) (u8 (br_valid br - n))) 1 =? 0.

Definition read_value_slow (it : xorIterator) : ValueType * xorIterator :=
  match xorRead (xi_x it) with
  | (Err e, x) => xi_fail e (set_xst x it)
  | (Ok _, x) => xi_found (set_xst x it)
  end.

Definition xorIterator_readValue (it : xorIterator) : ValueType * xorIterator :=
  let x := xi_x it in
  let br := x_br x in
  if 1 <=? br_valid br then
    if peek_zero 1 br then xi_found (set_xst (consume 1 x) it)
    else
      let mbits := u8 (64 - x_leading x - x_trailing x) in
      if negb (x_leading x =? 0xff) && (u8 (2 + mbits) <=? br_valid br) && peek_zero 2 br then
        let x := consume 2 x in
        let dataMask := u64 (shl64 1 mbits - 1) in
        let br := x_br x in
        let bits := Z.land (shr64 (br_buffer br) (u8 (br_valid br - mbits))) dataMask in
        let x := consume mbits x in
        let vbits := Z.lxor (x_val x) (shl64 bits (x_trailing x)) in
        xi_found (set_xst (mk_xst (x_br x) vbits (x_leading x) (x_trailing x)) it)
      else read_value_slow it
  else read_value_slow it.

(** The delta of deltas: prefix, then the value at the bucket's width. *)
Definition read_dod : st bstreamReader Z :=
  d <-- read_prefix 4 0;
  match d with
  | 0 => st_ret 0
  | 2 => read_signed 14
  | 6 => read_signed 17
  | 14 => read_signed 20
  | 15 => bits <-- readBits 64; st_ret (i64 bits)
  | _ => st_ret 0
  end.

Definition next_dod_slow (it : xorIterator) : ValueType * xorIterator :=
  match read_dod (x_br (xi_x it)) with
  | (Err e, br) => xi_fail e (set_xst (set_br br (xi_x it)) it)
  | (Ok dod, br) =>
      let it := set_xst (set_br br (xi_x it)) it in
      let tDelta := u64 (i64 (i64 (xi_tDelta it) + dod)) in
      xorIterator_readValue (set_time (i64 (xi_t it + i64 tDelta)) tDelta it)
  end.

Definition xorIterator_Next (it : xorIterator) : ValueType * xorIterator :=
  let x := xi_x it in
  if bool_decide (is_Some (xi_err it)) || (xi_numRead it =? xi_numTotal it) then (ValNone, it)
  else if xi_numRead it =? 0 then
    match ReadVarint (x_br x) with
    | (Err e, br) => xi_fail e (set_xst (set_br br x) it)
    | (Ok t, br) =>
        match readBits 64 br with
        | (Err e, br) => xi_fail e (set_xst (set_br br x) it)
        | (Ok v, br) =>
            xi_found (set_time t (xi_tDelta it)
                        (set_xst (mk_xst br v (x_leading x) (x_trailing x)) it))
        end
    end
  else if xi_numRead it =? 1 then
    match ReadUvarint (x_br x) with
    | (Err e, br) => xi_fail e (set_xst (set_br br x) it)
    | (Ok tDelta, br) =>
        xorIterator_readValue
          (set_time (i64 (xi_t it + i64 tDelta)) tDelta (set_xst (set_br br x) it))
    end
  else if (1 <=? br_valid (x_br x)) && peek_zero 1 (x_br x) then
    let it := set_time (i64 (xi_t it + i64 (xi_tDelta it))) (xi_tDelta it)
                (set_xst (consume 1 x) it) in
    let x := xi_x it in
    if (1 <=? br_valid (x_br x)) && peek_zero 1 (x_br x) then xi_found (set_xst (consume 1 x) it)
    else xorIterator_readValue it
  else next_dod_slow it.

(** [for it.Next() != ValNone { ... it.At() ... }]: the samples seen and the
    iterator at the end. *)
Fixpoint xor_drain (fuel : nat) (it : xorIterator) : option (list (Z * Z) * xorIterator) :=
  match fuel with
  | O => None
  | S f =>
      match xorIterator_Next it with
      | (ValNone, it') => Some ([], it')
      | (_, it') => '(l, it'') ← xor_drain f it'; Some (xorIterator_At it' :: l, it'')
      end
  end.

(** XORChunk.Appender: a fresh appender for an empty chunk, otherwise one
    with the state the iterator has after the last sample. *)
Definition XORChunk_Appender (c : bstream) : option (result xorAppender) :=
  if (length (bs_stream c) =? chunkHeaderSize)%nat then
    Some (Ok (mk_xorAppender c MinInt64 0 0 0xff 0))
  else
    let it := XORChunk_iterator c in
    '(_, it) ← xor_drain (S (Z.to_nat (xi_numTotal it))) it;
    match xi_err it with
    | Some e => Some (Err e)
    | None =>
        Some (Ok (mk_xorAppender c (xi_t it) (x_val (xi_x it)) (xi_tDelta it)
                    (x_leading (xi_x it)) (x_trailing (xi_x it))))
    end.

(** Seek: advance to the first sample at or after [t]. *)
Fixpoint xor_seek_loop (fuel : nat) (t : Z) (it : xorIterator) : option (ValueType * xorIterator) :=
  match fuel with
  | O => None
  | S f =>
      if (xi_t it <? t) || (xi_numRead it =? 0) then
        match xorIterator_Next it with
        | (ValNone, it') => Some (ValNone, it')
        | (_, it') => xor_seek_loop f t it'
        end
      else Some (ValFloat, it)
  end.

Definition xorIterator_Seek (t : Z) (it : xorIterator) : option (ValueType * xorIterator) :=
  if bool_decide (is_Some (xi_err it)) then Some (ValNone, it)
  else xor_seek_loop (S (Z.to_nat (xi_numTotal it - xi_numRead it)) + 1) t it.

(** ** Encoding of values *)

(** leading/trailing of an initialised window. *)
Definition lt_ok (l t : Z) : Prop := 0 <= l <= 31 /\ 0 <= t /\ l + t <= 63.
(** The appender's window: initialised, or the marker 0xff. *)
Definition enc_lt (l t : Z) : Prop := l = 0xff \/ lt_ok l t.

Lemma pos_trailing_zeros_spec p :
  0 <= pos_trailing_zeros p /\ exists q, 0 < q /\ Z.pos p = q * 2 ^ pos_trailing_zeros p.
Proof.
  induction p as [p IH|p IH|]; simpl.
  - split; [lia|]. exists (Z.pos p~1). lia.
  - destruct IH as (H0 & q & Hq & E). split; [lia|]. exists q. split; [done|].
    rewrite Z.pow_add_r by lia. lia.
  - split; [lia|]. exists 1. lia.
Qed.

Lemma TrailingZeros64_spec x :
  0 < x -> 0 <= TrailingZeros64 x <= Z.log2 x /\
  forall t, 0 <= t <= TrailingZeros64 x -> Z.shiftl (Z.shiftr x t) t = x.
Proof.
  intros Hx. destruct x as [|p|p]; try lia. simpl TrailingZeros64.
  destruct (pos_trailing_zeros_spec p) as (H0 & q & Hq & E).
  set (n := pos_trailing_zeros p) in *. assert (0 < 2 ^ n) by lia. split.
  - split; [done|]. apply Z.log2_le_pow2; [lia|]. rewrite E. nia.
  - intros t Ht. rewrite E. replace n with ((n - t) + t) by lia.
    rewrite Z.pow_add_r, Z.mul_assoc, <-(Z.shiftl_mul_pow2 _ t) by lia.
    rewrite Z.shiftr_shiftl_l, Z.sub_diag, Z.shiftl_0_r by lia. done.
Qed.

Definition new_leading (delta : Z) : Z :=
  let l := u8 (LeadingZeros64 delta) in if 32 <=? l then 31 else l.
Definition new_trailing (delta : Z) : Z := u8 (TrailingZeros64 delta).

(** A window [l,t] holds [delta] when no set bit lies outside it. *)
Definition window (l t delta : Z) : Prop :=
  lt_ok l t /\ 0 <= delta < 2 ^ (64 - l) /\ Z.shiftl (Z.shiftr delta t) t = delta.

Lemma new_window delta :
  is_u64 delta -> delta <> 0 -> window (new_leading delta) (new_trailing delta) delta.
Proof.
  intros Hd H0. unfold is_u64 in Hd.
  destruct (TrailingZeros64_spec delta ltac:(lia)) as [Ht Hs].
  pose proof (Z.log2_nonneg delta). pose proof (Z.log2_spec delta ltac:(lia)) as Hlog.
  assert (Z.log2 delta < 64) by (apply Z.log2_lt_pow2; lia).
  unfold window, lt_ok, new_leading, new_trailing, LeadingZeros64.
  destruct (Z.eqb_spec delta 0); [done|].
  rewrite !u8_id by (unfold is_u8; lia).
  assert (delta < 2 ^ (64 - (63 - Z.log2 delta))).
  { replace (64 - (63 - Z.log2 delta)) with (Z.succ (Z.log2 delta)) by lia. lia. }
  destruct (Z.leb_spec 32 (63 - Z.log2 delta)); (split; [lia|]).
  - split; [|apply Hs; lia]. split; [lia|].
    apply Z.lt_le_trans with (2 ^ (64 - (63 - Z.log2 delta))); [done|]. apply Z.pow_le_mono_r; lia.
  - split; [lia|apply Hs; lia].
Qed.

(** A wider window than the tightest one also holds delta. *)
Lemma reuse_window delta l t :
  is_u64 delta -> delta <> 0 -> lt_ok l t ->
  l <= new_leading delta -> t <= new_trailing delta -> window l t delta.
Proof.
  intros Hd H0 Hlt Hl Ht. destruct (new_window delta Hd H0) as (Hlt' & Hr & _).
  split; [done|]. unfold lt_ok in *. unfold is_u64 in Hd. split.
  - split; [lia|]. apply Z.lt_le_trans with (2 ^ (64 - new_leading delta)); [lia|].
    apply Z.pow_le_mono_r; lia.
  - destruct (TrailingZeros64_spec delta ltac:(lia)) as [Htz Hs]. apply Hs.
    split; [lia|]. unfold new_trailing in Ht. rewrite u8_id in Ht; [done|].
    unfold is_u8. assert (Z.log2 delta < 64) by (apply Z.log2_lt_pow2; lia). lia.
Qed.

(** The significant bits of delta, and delta from them. *)
Lemma window_bits l t delta :
  window l t delta -> 0 <= shr64 delta t < 2 ^ Z.of_nat (Z.to_nat (64 - l - t)) /\
  shl64 (shr64 delta t) t = delta.
Proof.
  intros ((Hl & Ht & Hlt) & Hd & Hs).
  assert (is_u64 delta) as Hu.
  { unfold is_u64. split; [lia|]. apply Z.lt_le_trans with (2 ^ (64 - l)); [lia|].
    apply Z.pow_le_mono_r; lia. }
  rewrite shr64_small by (done || lia). split.
  - rewrite Z2Nat.id, Z.shiftr_div_pow2 by lia. split; [apply Z.div_pos; lia|].
    apply Z.div_lt_upper_bound; [lia|]. rewrite <-Z.pow_add_r by lia.
    replace (t + (64 - l - t)) with (64 - l) by lia. lia.
  - unfold shl64. destruct (Z.leb_spec 64 t); [lia|]. by rewrite Hs, u64_id.
Qed.

(** The bits xorWrite emits, with the window after it. *)
Definition xor_code (v cur l t : Z) : list bool * Z * Z :=
  let delta := Z.lxor v cur in
  if delta =? 0 then ([false], l, t)
  else
    let nl := new_leading delta in
    let nt := new_trailing delta in
    if negb (l =? 0xff) && (l <=? nl) && (t <=? nt) then
      ([true; false] ++ zbits (Z.to_nat (64 - l - t)) (shr64 delta t), l, t)
    else
      ([true; true] ++ zbits 5 nl ++ zbits 6 (64 - nl - nt)
         ++ zbits (Z.to_nat (64 - nl - nt)) (shr64 delta nt), nl, nt).

Lemma lxor_u64 a b : is_u64 a -> is_u64 b -> is_u64 (Z.lxor a b).
Proof.
  unfold is_u64. intros Ha Hb.
  assert (Z.lxor a b = (Z.lxor a b) mod 2 ^ 64) as ->; [|by apply Z.mod_pos_bound].
  apply Z.bits_inj'. intros i Hi. destruct (decide (i < 64)).
  - by rewrite Z.mod_pow2_bits_low by lia.
  - rewrite Z.mod_pow2_bits_high by lia. rewrite Z.lxor_spec.
    rewrite <-(Z.mod_small a (2 ^ 64)), <-(Z.mod_small b (2 ^ 64)) by done.
    by rewrite !Z.mod_pow2_bits_high by lia.
Qed.

Lemma lxor_0 a b : Z.lxor a b = 0 -> a = b.
Proof. apply Z.lxor_eq. Qed.

(** What the bits of a value are, case by case: the appender's choice as the
    iterator will see it. *)
Inductive xor_case (v cur l t : Z) : list bool -> Z -> Z -> Prop :=
  | xc_same : v = cur -> xor_case v cur l t [false] l t
  | xc_reuse : l <> 0xff -> window l t (Z.lxor v cur) ->
      xor_case v cur l t
        ([true; false] ++ zbits (Z.to_nat (64 - l - t)) (shr64 (Z.lxor v cur) t)) l t
  | xc_new nl nt : window nl nt (Z.lxor v cur) ->
      xor_case v cur l t
        ([true; true] ++ zbits 5 nl ++ zbits 6 (64 - nl - nt)
           ++ zbits (Z.to_nat (64 - nl - nt)) (shr64 (Z.lxor v cur) nt)) nl nt.

Lemma xor_code_case v cur l t :
  is_u64 v -> is_u64 cur -> enc_lt l t ->
  exists bs l' t', xor_code v cur l t = (bs, l', t') /\ xor_case v cur l t bs l' t'.
Proof.
  intros Hv Hc Hlt. pose proof (lxor_u64 v cur Hv Hc) as Hd. unfold xor_code.
  destruct (Z.eqb_spec (Z.lxor v cur) 0) as [E|E].
  - do 3 eexists. split; [done|]. constructor. by apply lxor_0.
  - destruct (Z.eqb_spec l 0xff) as [->|Hl]; simpl negb; cbv iota.
    { do 3 eexists. split; [done|]. constructor. by apply new_window. }
    destruct Hlt as [?|Hlt]; [done|].
    destruct (Z.leb_spec l (new_leading (Z.lxor v cur))); simpl.
    2: { do 3 eexists. split; [done|]. constructor. by apply new_window. }
    destruct (Z.leb_spec t (new_trailing (Z.lxor v cur))); do 3 eexists; (split; [done|]).
    + constructor; [done|]. by apply reuse_window.
    + constructor. by apply new_window.
Qed.

Lemma xor_case_lt v cur l t bs l' t' :
  enc_lt l t -> xor_case v cur l t bs l' t' -> enc_lt l' t'.
Proof. intros H [ | |nl nt Hw]; [done|done|]. right. apply Hw. Qed.

Lemma wrep_xorWrite w bs v cur l t cs l' t' :
  wrep w bs -> is_u64 v -> is_u64 cur -> enc_lt l t -> xor_code v cur l t = (cs, l', t') ->
  exists w', xorWrite v cur l t w = (w', l', t') /\ wrep w' (bs ++ cs).
Proof.
  intros Hw Hv Hc Hlt E. pose proof (lxor_u64 v cur Hv Hc) as Hd.
  unfold xor_code in E. unfold xorWrite.
  destruct (Z.eqb_spec (Z.lxor v cur) 0) as [E0|E0].
  { simplify_eq. eexists. split; [done|]. by apply wrep_writeBit. }
  fold (new_leading (Z.lxor v cur)) (new_trailing (Z.lxor v cur)).
  change (if 32 <=? u8 (LeadingZeros64 (Z.lxor v cur)) then 31
          else u8 (LeadingZeros64 (Z.lxor v cur))) with (new_leading (Z.lxor v cur)).
  destruct (new_window _ Hd E0) as ((Hl & Ht & Hs) & _).
  destruct (negb (l =? 0xff) && (l <=? new_leading (Z.lxor v cur)) &&
            (t <=? new_trailing (Z.lxor v cur))) eqn:Ew; simplify_eq.
  - eexists. split; [done|]. rewrite app_assoc.
    apply wrep_writeBits.
    + change [true; false] with ([true] ++ [false]). rewrite app_assoc.
      by apply wrep_writeBit, wrep_writeBit.
    + destruct Hlt as [->|Hlt]; [done|]. unfold lt_ok in Hlt. lia.
  - eexists. split; [done|]. rewrite (u8_id (64 - _ - _)) by (unfold is_u8; lia).
    rewrite !app_assoc. repeat (apply wrep_writeBits; [|lia]).
    change [true; true] with ([true] ++ [true]). rewrite app_assoc.
    by apply wrep_writeBit, wrep_writeBit.
Qed.

(** ** Decoding of values *)

(** The iterator's window against the appender's. *)
Definition dec_lt (le te ld td : Z) : Prop :=
  lt_ok ld td /\ ((le = 0xff /\ ld = 0 /\ td = 0) \/ (ld = le /\ td = te)).

Lemma on_br_run {A} (m : st bstreamReader A) bs v s rest :
  Reads m bs v -> rrep (x_br s) (bs ++ rest) ->
  exists br, on_br m s = (Ok v, set_br br s) /\ rrep br rest.
Proof.
  intros Hm Hr. destruct (Hm _ _ Hr) as (br & E & Hbr). exists br.
  unfold on_br. by rewrite E.
Qed.

(** Runs the next reader action of a decoder over an [xst]. *)
Tactic Notation "run" constr(H) "on" constr(Hr) "as" ident(br) ident(Hbr) :=
  unfold st_bind at 1;
  match goal with
  | |- context [on_br _ ?s] =>
      destruct (on_br_run _ _ _ s _ H Hr) as (br & -> & Hbr)
  end; cbv beta iota; cbn [negb].

Lemma lxor_delta v cur : Z.lxor cur (Z.lxor v cur) = v.
Proof. rewrite (Z.lxor_comm v), <-Z.lxor_assoc, Z.lxor_nilpotent. apply Z.lxor_0_l. Qed.

Lemma xorRead_spec v cur le te bs l' t' br ld td rest :
  xor_case v cur le te bs l' t' -> dec_lt le te ld td -> rrep br (bs ++ rest) ->
  exists br' ld' td', xorRead (mk_xst br cur ld td) = (Ok tt, mk_xst br' v ld' td') /\
    rrep br' rest /\ dec_lt l' t' ld' td'.
Proof.
  intros Hcase (Hlt & Hd) Hr. unfold xorRead. destruct Hcase as [->|Hl Hw|nl nt Hw].
  - run (Reads_bit false) on Hr as br1 Hbr1. by exists br1, ld, td.
  - destruct Hd as [[? _]|[-> ->]]; [done|]. destruct (window_bits _ _ _ Hw) as [Hb Hs].
    unfold lt_ok in Hlt. rewrite <-app_assoc in Hr.
    run (Reads_bit true) on Hr as br1 Hbr1. run (Reads_bit false) on Hbr1 as br2 Hbr2.
    unfold st_bind at 1. cbn [x_trailing x_leading set_br fst snd].
    rewrite (u8_id (64 - le - te)) by (unfold is_u8; lia).
    run (Reads_bitsZ (64 - le - te) (shr64 (Z.lxor v cur) te) ltac:(lia) Hb) on Hbr2 as br3 Hbr3.
    simpl. rewrite Hs, lxor_delta. exists br3, le, te. split; [done|]. split; [done|].
    split; [done|]. by right.
  - destruct (window_bits _ _ _ Hw) as [Hb Hs]. destruct Hw as ((Hnl & Hnt & Hsum) & _).
    rewrite <-!app_assoc in Hr.
    run (Reads_bit true) on Hr as br1 Hbr1. run (Reads_bit true) on Hbr1 as br2 Hbr2.
    unfold st_bind at 1. run (Reads_bitsZ 5 nl ltac:(lia) ltac:(change (2 ^ _) with 32; lia)) on Hbr2 as br3 Hbr3.
    rewrite <-(zbits_mod 6 6) in Hbr3 by lia.
    run (Reads_bitsZ 6 ((64 - nl - nt) mod 2 ^ 6) ltac:(lia)
           ltac:(apply Z.mod_pos_bound; lia)) on Hbr3 as br4 Hbr4.
    assert ((if u8 ((64 - nl - nt) mod 2 ^ 6) =? 0 then 64 else u8 ((64 - nl - nt) mod 2 ^ 6))
            = 64 - nl - nt) as ->.
    { destruct (decide (nl = 0 /\ nt = 0)) as [[-> ->]|Hne]; [done|].
      rewrite (Z.mod_small (64 - nl - nt)), u8_id by (unfold is_u8; lia).
      destruct (Z.eqb_spec (64 - nl - nt) 0); lia. }
    rewrite (u8_id nl) by (unfold is_u8; lia).
    replace (64 - nl - (64 - nl - nt)) with nt by lia. rewrite (u8_id nt) by (unfold is_u8; lia).
    cbn [fst snd].
    run (Reads_bitsZ (64 - nl - nt) (shr64 (Z.lxor v cur) nt) ltac:(lia) Hb) on Hbr4 as br5 Hbr5.
    simpl. rewrite Hs, lxor_delta. exists br5, nl, nt. split; [done|]. split; [done|].
    split; [split; lia|]. by right.
Qed.

(** *** The fast paths of readValue *)

Lemma peek_zero_spec br b rest :
  rrep br (b :: rest) -> 1 <= br_valid br -> peek_zero 1 br = negb b.
Proof.
  intros Hr Hv. destruct (rrep_bit_buffered _ _ _ Hr ltac:(lia)) as [E _].
  pose proof (rrep_valid _ _ Hr). unfold peek_zero. rewrite u8_id by (unfold is_u8; lia).
  rewrite shr64_small by (lia || apply Hr). rewrite (Z.land_ones _ 1) by lia.
  rewrite <-Z.bit0_mod, Z.shiftr_spec, Z.add_0_l, E by lia. by destruct b.
Qed.

Lemma peek_zero_2 br b1 b2 rest :
  rrep br (b1 :: b2 :: rest) -> 2 <= br_valid br -> peek_zero 2 br = negb b2.
Proof.
  intros Hr Hv. destruct (rrep_bit_buffered _ _ _ Hr ltac:(lia)) as [_ Hr'].
  rewrite <-(peek_zero_spec _ _ _ Hr') by (simpl; lia). pose proof (rrep_valid _ _ Hr).
  unfold peek_zero. simpl. rewrite !u8_id by (unfold is_u8; lia). do 3 f_equal. lia.
Qed.

Lemma consume_rrep x bs rest :
  rrep (x_br x) (bs ++ rest) -> Z.of_nat (length bs) <= br_valid (x_br x) ->
  rrep (x_br (consume (Z.of_nat (length bs)) x)) rest.
Proof.
  intros Hr Hv. destruct (rrep_take _ _ _ Hr Hv) as [_ Hr']. pose proof (rrep_valid _ _ Hr).
  unfold consume. simpl. by rewrite u8_id by (unfold is_u8; lia).
Qed.

(** The iterator after a value was read: only the reader, the value, the
    window and the counter change. *)
Definition found_it (it : xorIterator) (br : bstreamReader) (v l t : Z) : xorIterator :=
  mk_xorIterator (mk_xst br v l t) (xi_numTotal it) (u16 (xi_numRead it + 1))
    (xi_t it) (xi_tDelta it) (xi_err it).

Lemma readValue_slow_spec it v le te bs l' t' rest :
  xor_case v (x_val (xi_x it)) le te bs l' t' ->
  dec_lt le te (x_leading (xi_x it)) (x_trailing (xi_x it)) ->
  rrep (x_br (xi_x it)) (bs ++ rest) ->
  exists br ld td, read_value_slow it = (ValFloat, found_it it br v ld td) /\
    rrep br rest /\ dec_lt l' t' ld td.
Proof.
  intros Hc Hd Hr.
  destruct (xorRead_spec _ _ _ _ _ _ _ _ _ _ _ Hc Hd Hr) as (br & ld & td & E & Hr' & Hd').
  exists br, ld, td. unfold read_value_slow. destruct it as [[b v0 l t] tot rd ti dl er].
  simpl in *. by rewrite E.
Qed.

(** Reading a value straight from the buffer. *)
Lemma buffered_value n v br rest :
  1 <= n <= 64 -> 0 <= v < 2 ^ Z.of_nat (Z.to_nat n) ->
  rrep br (zbits (Z.to_nat n) v ++ rest) -> n <= br_valid br ->
  Z.land (shr64 (br_buffer br) (u8 (br_valid br - n))) (u64 (shl64 1 n - 1)) = v.
Proof.
  intros Hn Hv Hr Hle. pose proof (rrep_valid _ _ Hr).
  destruct (readBitsFast_buffered (Z.to_nat n) v br rest) as (r' & E & _); try done; try lia.
  unfold readBitsFast in E. rewrite Z2Nat.id in E by lia.
  destruct (Z.ltb_spec (br_valid br) n); [lia|]. by injection E.
Qed.

(** The fast path for the control bits 10. *)
Lemma readValue_reuse_fast it v rest :
  let x := xi_x it in
  let mbits := 64 - x_leading x - x_trailing x in
  window (x_leading x) (x_trailing x) (Z.lxor v (x_val x)) ->
  rrep (x_br x) ([true; false] ++ zbits (Z.to_nat mbits)
                   (shr64 (Z.lxor v (x_val x)) (x_trailing x)) ++ rest) ->
  2 + mbits <= br_valid (x_br x) ->
  exists br, xorIterator_readValue it
      = (ValFloat, found_it it br v (x_leading x) (x_trailing x)) /\ rrep br rest.
Proof.
  destruct it as [[br cur l t] tot rd ti dl er]. cbn [xi_x x_leading x_trailing x_val x_br].
  intros Hw Hr Hm. destruct (window_bits _ _ _ Hw) as [Hb Hs]. destruct Hw as ((Hl & Ht & Hlt) & _).
  pose proof (rrep_valid _ _ Hr). unfold xorIterator_readValue.
  cbn [xi_x x_leading x_trailing x_val x_br].
  destruct (Z.leb_spec 1 (br_valid br)); [|lia].
  rewrite (peek_zero_spec _ true _ Hr) by done. cbn [negb].
  destruct (Z.eqb_spec l 0xff); [lia|].
  rewrite (u8_id (64 - l - t)), (u8_id (2 + _)) by (unfold is_u8; lia).
  destruct (Z.leb_spec (2 + (64 - l - t)) (br_valid br)); [|lia].
  rewrite (peek_zero_2 _ true false _ Hr) by lia. cbn [negb andb].
  assert (Hr2 := consume_rrep (mk_xst br cur l t) [true; false] _ Hr ltac:(simpl; lia)).
  change (Z.of_nat (length [true; false])) with 2 in Hr2.
  assert (Hv2 : br_valid (x_br (consume 2 (mk_xst br cur l t))) = br_valid br - 2).
  { simpl. apply u8_id. unfold is_u8. lia. }
  assert (Hr3 := consume_rrep _ _ _ Hr2). rewrite length_zbits, Z2Nat.id in Hr3 by lia.
  eexists. split; [|apply Hr3; rewrite Hv2; lia].
  rewrite (buffered_value (64 - l - t) _ _ _ ltac:(lia) Hb Hr2) by (rewrite Hv2; lia).
  unfold consume. cbn [x_val x_trailing x_leading set_br x_br]. by rewrite Hs, lxor_delta.
Qed.

Lemma readValue_spec it v le te bs l' t' rest :
  xor_case v (x_val (xi_x it)) le te bs l' t' ->
  dec_lt le te (x_leading (xi_x it)) (x_trailing (xi_x it)) ->
  rrep (x_br (xi_x it)) (bs ++ rest) ->
  exists br ld td, xorIterator_readValue it = (ValFloat, found_it it br v ld td) /\
    rrep br rest /\ dec_lt l' t' ld td.
Proof.
  intros Hc Hd Hr.
  pose proof (readValue_slow_spec it v le te bs l' t' rest Hc Hd Hr) as Hslow.
  pose proof (readValue_reuse_fast it v rest) as Hfast. unfold xorIterator_readValue in *.
  destruct (Z.leb_spec 1 (br_valid (x_br (xi_x it)))) as [Hv|]; [|done].
  destruct Hc as [->|Hl Hw|nl nt Hw].
  - rewrite (peek_zero_spec _ false rest) by done. simpl negb. cbv iota.
    eexists _, _, _. split; [done|]. split; [|done]. by apply (consume_rrep _ [false]).
  - rewrite (peek_zero_spec _ true _ Hr Hv) in *. cbn [negb] in *.
    destruct Hd as [Hlt [[? _]|[El Et]]]; [done|]. rewrite El, Et, <-app_assoc in *.
    destruct (Z.eqb_spec le 0xff) as [|_]; [done|]. unfold lt_ok in Hlt.
    rewrite (u8_id (64 - le - te)), (u8_id (2 + _)) in * by (unfold is_u8; lia).
    destruct (Z.leb_spec (2 + (64 - le - te)) (br_valid (x_br (xi_x it)))); [|done].
    destruct (Hfast Hw Hr) as (br & E & Hbr); [done|].
    exists br, le, te. split; [done|]. split; [done|]. by split; [|right].
  - rewrite (peek_zero_spec _ true _ Hr Hv) in *. cbn [negb] in *.
    destruct (Z.leb_spec (u8 (2 + u8 (64 - x_leading (xi_x it) - x_trailing (xi_x it))))
                (br_valid (x_br (xi_x it)))) as [Hm|]; [|by rewrite andb_false_r].
    destruct Hd as [Hlt _]. unfold lt_ok in Hlt.
    rewrite (u8_id (64 - _ - _)), (u8_id (2 + _)) in Hm by (unfold is_u8; lia).
    rewrite (peek_zero_2 _ true true _ Hr) by lia. by rewrite andb_false_r.
Qed.

(** ** Timestamps *)

Definition dod_bits (dod : Z) : list bool :=
  if dod =? 0 then [false]
  else if bitRange dod 14 then varbit_code (zbits 2 2) 14 dod
  else if bitRange dod 17 then varbit_code (zbits 3 6) 17 dod
  else if bitRange dod 20 then varbit_code (zbits 4 14) 20 dod
  else varbit_code (zbits 4 15) 64 dod.

Lemma wrep_write_dod w bs dod : wrep w bs -> wrep (write_dod dod w) (bs ++ dod_bits dod).
Proof.
  intros Hw. unfold write_dod, dod_bits.
  repeat case_match; first [by apply wrep_writeBit | apply wrep_code; [done|lia|lia] | idtac].
  assert (varbit_code (zbits 2 2) 14 dod
    = zbits 8 (Z.lor (Z.shiftl 2 6) (Z.land (u8 (Z.shiftr dod 8)) (Z.shiftl 1 6 - 1)))
      ++ zbits 8 (u8 dod)) as ->.
  { change (Z.shiftl 1 6 - 1) with (Z.ones (Z.of_nat 6)).
    rewrite (zbits_pack 2 6 2), !zbits_u8 by lia. unfold varbit_code.
    rewrite <-app_assoc. f_equal. apply (zbits_app 6 8). }
  rewrite app_assoc. apply wrep_writeByte; [|apply u8_range].
  apply wrep_writeByte; [done|]. apply lor_u8; [by vm_compute; split; congruence|].
  change (Z.shiftl 1 6 - 1) with (Z.ones 6). rewrite Z.land_ones by lia.
  pose proof (Z.mod_pos_bound (u8 (Z.shiftr dod 8)) (2 ^ 6)). unfold is_u8. lia.
Qed.

Lemma Reads_read_dod dod : is_i64 dod -> Reads read_dod (dod_bits dod) dod.
Proof.
  intros Hd. unfold dod_bits, read_dod, varbit_code.
  destruct (Z.eqb_spec dod 0) as [->|].
  { rewrite <-(app_nil_r [false]). eapply Reads_bind; [reads_prefix|]. apply Reads_ret. }
  repeat case_match; (eapply Reads_bind; [reads_prefix|]);
    match goal with |- Reads (match ?d with _ => _ end) _ _ =>
      let x := eval vm_compute in d in change d with x end; cbv iota.
  - by apply (Reads_signed 14); [lia|].
  - by apply (Reads_signed 17); [lia|].
  - by apply (Reads_signed 20); [lia|].
  - by apply Reads_bits64.
Qed.

(** Deltas recover the timestamp. *)
Lemma tDelta_time t t0 : is_i64 t -> i64 (t0 + i64 (u64 (i64 (t - t0)))) = t.
Proof.
  intros Ht. autorewrite with wraps. replace (t0 + (t - t0)) with t by lia. by apply i64_id.
Qed.

Lemma tDelta_dod d d0 : is_u64 d ->
  u64 (i64 (i64 d0 + i64 (u64 (d - d0)))) = d.
Proof.
  intros Hd. autorewrite with wraps. replace (d0 + (d - d0)) with d by lia. by apply u64_id.
Qed.

(** ** The chunk header *)

Lemma wrep_header w h bs :
  wrep w (zbits 16 h ++ bs) -> is_u16 h ->
  be_uint (take 2 (bs_stream w)) = h /\
  bytes_ok (drop 2 (bs_stream w)) /\
  stream_bits (drop 2 (bs_stream w)) = bs ++ replicate (Z.to_nat (bs_count w)) false /\
  (2 <= length (bs_stream w))%nat.
Proof.
  intros [Hb Hc E] Hh. rewrite <-app_assoc in E.
  assert (Hlen := f_equal length E).
  rewrite length_stream_bits, length_app, length_zbits in Hlen.
  rewrite <-(take_drop 2 (bs_stream w)), stream_bits_app in E.
  assert (Hl2 : length (take 2 (bs_stream w)) = 2%nat) by (rewrite length_take; lia).
  apply app_inj_1 in E as [E1 E2].
  2: { by rewrite length_stream_bits, length_zbits, Hl2. }
  assert (Hb2 : bytes_ok (take 2 (bs_stream w))) by by apply Forall_take.
  split; [|split; [by apply Forall_drop|split; [done|lia]]].
  pose proof (be_uint_range _ Hb2) as Hr. rewrite Hl2 in Hr.
  apply (zbits_inj 16); [done|done|]. rewrite <-E1, <-zbits_be_uint, Hl2 by done. done.
Qed.

Lemma wrep_put_header w h h' bs :
  wrep w (zbits 16 h ++ bs) -> is_u16 h -> wrep (put_header h' w) (zbits 16 h' ++ bs).
Proof.
  intros Hw Hh. destruct (wrep_header _ _ _ Hw Hh) as (_ & Hb & E & _).
  split; cbn [bs_stream bs_count put_header].
  - apply bytes_ok_app. split; [apply be_bytes_ok|done].
  - apply Hw.
  - by rewrite stream_bits_app, E, stream_bits_be_bytes, app_assoc.
Qed.

(** ** Appending one sample and reading it back *)

(** The appender's fields are in range once [n] samples made them relevant. *)
Record app_ok (n : Z) (a : xorAppender) : Prop := mk_app_ok {
  app_ok_v : 1 <= n -> is_u64 (xa_v a);
  app_ok_tDelta : 2 <= n -> is_u64 (xa_tDelta a);
  app_ok_lt : enc_lt (xa_leading a) (xa_trailing a);
}.

(** [sync n a it]: the iterator, having read [n] samples, has the state the
    appender had after them. *)
Definition sync (n : Z) (a : xorAppender) (it : xorIterator) : Prop :=
  (1 <= n -> xi_t it = xa_t a /\ x_val (xi_x it) = xa_v a) /\
  (2 <= n -> xi_tDelta it = xa_tDelta a) /\
  dec_lt (xa_leading a) (xa_trailing a) (x_leading (xi_x it)) (x_trailing (xi_x it)).

(** [ready n it bs]: no error, [n] samples read, and [bs] is what is left. *)
Record ready (n : Z) (it : xorIterator) (bs : list bool) : Prop := mk_ready {
  ready_read : xi_numRead it = n;
  ready_err : xi_err it = None;
  ready_bits : rrep (x_br (xi_x it)) bs;
}.

(** [cs] is a code for the sample that takes the appender from [a] to [a']. *)
Definition sample_code (n : Z) (a a' : xorAppender) (t v : Z) (cs : list bool) : Prop :=
  forall it rest, sync n a it -> ready n it (cs ++ rest) -> xi_numTotal it <> n ->
    exists it', xorIterator_Next it = (ValFloat, it') /\ sync (n + 1) a' it' /\
      ready (n + 1) it' rest /\ xi_numTotal it' = xi_numTotal it /\
      xorIterator_At it' = (t, v).

(** What a successful readValue makes of the iterator. *)
Lemma sample_code_found n a' t v it tot br l' t' rest :
  0 <= n < MaxUint16 -> xi_numRead it = n -> xi_err it = None -> rrep br rest ->
  xi_t it = t -> xi_numTotal it = tot ->
  xa_t a' = t -> xa_v a' = v -> (1 <= n -> xi_tDelta it = xa_tDelta a') ->
  dec_lt (xa_leading a') (xa_trailing a') l' t' ->
  exists it', (ValFloat, found_it it br v l' t') = (ValFloat, it') /\ sync (n + 1) a' it' /\
    ready (n + 1) it' rest /\ xi_numTotal it' = tot /\ xorIterator_At it' = (t, v).
Proof.
  intros Hn Hrd Her Hbr <- <- Ht Hv Hd Hlt. eexists. split; [done|].
  unfold sync. cbn. rewrite Ht, Hv. split_and!; try done.
  - intros. apply Hd. lia.
  - split; cbn; [|done|done]. rewrite Hrd. unfold MaxUint16 in Hn. apply u16_id.
    unfold is_u16. lia.
Qed.

Lemma cons_app_nonempty {A} (l1 l2 : list A) : l1 <> [] -> l1 ++ l2 <> [].
Proof. by destruct l1. Qed.

Lemma uvarint_bits_nonempty x : stream_bits (PutUvarint x) <> [].
Proof.
  unfold PutUvarint, MaxVarintLen64. cbn [put_uvarint]. by destruct (0x80 <=? x).
Qed.

(** Selects the branch of Next once the guards are decided. *)
Ltac next_branch :=
  change (bool_decide (is_Some (@None goerror)) || false) with false;
  change (0 =? 0) with true; change (1 =? 0) with false; change (1 =? 1) with true;
  cbv beta iota zeta.

(** The first sample: a varint timestamp and the value's 64 bits. *)
Lemma first_sample_code a a' t v :
  is_i64 t -> is_u64 v -> xa_t a' = t -> xa_v a' = v ->
  xa_leading a' = xa_leading a -> xa_trailing a' = xa_trailing a ->
  sample_code 0 a a' t v (stream_bits (PutVarint t) ++ zbits 64 v).
Proof.
  intros Ht Hv Et Ev El Etr it rest (_ & _ & Hlt) [Hrd Her Hr] Htot.
  rewrite <-app_assoc in Hr. unfold xorIterator_Next. rewrite Her, Hrd.
  destruct (Z.eqb_spec 0 (xi_numTotal it)); [lia|]. next_branch.
  destruct (Reads_ReadVarint t Ht _ _ Hr) as (br1 & -> & Hr1).
  destruct (Reads_readBits 64 v ltac:(lia) Hv _ _ Hr1) as (br2 & E2 & Hr2).
  change (Z.of_nat 64) with 64 in E2. rewrite E2.
  apply (sample_code_found 0 a' t v
    (set_time t (xi_tDelta it) (set_xst (mk_xst br2 v (x_leading (xi_x it))
      (x_trailing (xi_x it))) it)) (xi_numTotal it) br2); try done.
  by rewrite El, Etr.
Qed.

(** The second sample: an unsigned delta and the value's code. *)
Lemma second_sample_code a a' t v cs :
  is_i64 t -> xa_t a' = t -> xa_v a' = v -> xa_tDelta a' = u64 (i64 (t - xa_t a)) ->
  xor_case v (xa_v a) (xa_leading a) (xa_trailing a) cs (xa_leading a') (xa_trailing a') ->
  sample_code 1 a a' t v (stream_bits (PutUvarint (u64 (i64 (t - xa_t a)))) ++ cs).
Proof.
  intros Ht Et Ev Ed Hc it rest (Hs1 & _ & Hlt) [Hrd Her Hr] Htot.
  destruct Hs1 as [Et0 Ev0]; [lia|].
  rewrite <-app_assoc in Hr. unfold xorIterator_Next. rewrite Her, Hrd.
  destruct (Z.eqb_spec 1 (xi_numTotal it)); [lia|]. next_branch.
  destruct (Reads_ReadUvarint _ (u64_range (i64 (t - xa_t a))) _ _ Hr) as (br1 & -> & Hr1).
  edestruct (readValue_spec (set_time (i64 (xi_t it + i64 (u64 (i64 (t - xa_t a)))))
    (u64 (i64 (t - xa_t a))) (set_xst (set_br br1 (xi_x it)) it)) v) as (br2 & ld & td & -> & Hr2 & Hlt2).
  { cbn. rewrite Ev0. exact Hc. }
  { exact Hlt. }
  { exact Hr1. }
  eapply sample_code_found; cbn; try done.
  rewrite Et0. by apply tDelta_time.
Qed.

(** Only the zero delta of deltas starts with a zero bit. *)
Lemma dod_bits_head dod : is_i64 dod ->
  (dod = 0 /\ dod_bits dod = [false]) \/ exists bs, dod_bits dod = true :: bs.
Proof.
  intros _. unfold dod_bits. destruct (Z.eqb_spec dod 0); [by left|]. right.
  repeat case_match; eexists; unfold varbit_code; reflexivity.
Qed.

Lemma xor_case_head v cur l t bs l' t' :
  xor_case v cur l t bs l' t' ->
  (v = cur /\ bs = [false] /\ l' = l /\ t' = t) \/ exists bs', bs = true :: bs'.
Proof. intros [->| |]; [by left|right; by eexists..]. Qed.

Lemma dod_zero d d0 : is_u64 d -> is_u64 d0 -> i64 (u64 (d - d0)) = 0 -> d = d0.
Proof.
  intros Hd Hd0 E. rewrite <-(tDelta_dod d d0 Hd), E, Z.add_0_r.
  autorewrite with wraps. by apply u64_id.
Qed.

(** Every later sample through the slow path of the timestamp. *)
Lemma next_dod_slow_spec n a a' t v cs it rest :
  let d := u64 (i64 (t - xa_t a)) in
  let dod := i64 (u64 (d - xa_tDelta a)) in
  2 <= n < MaxUint16 -> is_i64 t -> xa_t a' = t -> xa_v a' = v -> xa_tDelta a' = d ->
  xor_case v (xa_v a) (xa_leading a) (xa_trailing a) cs (xa_leading a') (xa_trailing a') ->
  sync n a it -> ready n it ((dod_bits dod ++ cs) ++ rest) ->
  exists it', next_dod_slow it = (ValFloat, it') /\ sync (n + 1) a' it' /\
    ready (n + 1) it' rest /\ xi_numTotal it' = xi_numTotal it /\ xorIterator_At it' = (t, v).
Proof.
  intros d dod Hn Ht Et Ev Ed Hc (Hs1 & Hs2 & Hlt) [Hrd Her Hr].
  destruct Hs1 as [Et0 Ev0]; [lia|]. specialize (Hs2 ltac:(lia)).
  rewrite <-app_assoc in Hr. unfold next_dod_slow.
  destruct (Reads_read_dod dod (i64_range _) _ _ Hr) as (br1 & -> & Hr1). cbv zeta.
  assert (Edelta : u64 (i64 (i64 (xi_tDelta it) + dod)) = d).
  { rewrite Hs2. apply tDelta_dod, u64_range. }
  cbn [set_xst xi_tDelta xi_t]. rewrite Edelta, Et0.
  assert (i64 (xa_t a + i64 d) = t) as -> by by apply tDelta_time.
  edestruct (readValue_spec (set_time t d (set_xst (set_br br1 (xi_x it)) it)) v)
    as (br2 & ld & td & -> & Hr2 & Hlt2).
  { cbn. rewrite Ev0. exact Hc. }
  { exact Hlt. }
  { exact Hr1. }
  eapply sample_code_found; cbn; try done. lia.
Qed.

(** Every later sample through the fast path: the delta did not change. *)
Lemma next_same_delta_spec n a a' t v cs it rest :
  2 <= n < MaxUint16 -> is_i64 t -> xa_t a' = t -> xa_v a' = v ->
  xa_tDelta a' = u64 (i64 (t - xa_t a)) -> xa_tDelta a = u64 (i64 (t - xa_t a)) ->
  xor_case v (xa_v a) (xa_leading a) (xa_trailing a) cs (xa_leading a') (xa_trailing a') ->
  sync n a it -> ready n it (false :: cs ++ rest) -> 1 <= br_valid (x_br (xi_x it)) ->
  let it1 := set_time (i64 (xi_t it + i64 (xi_tDelta it))) (xi_tDelta it)
               (set_xst (consume 1 (xi_x it)) it) in
  exists it', (if (1 <=? br_valid (x_br (xi_x it1))) && peek_zero 1 (x_br (xi_x it1))
               then xi_found (set_xst (consume 1 (xi_x it1)) it1)
               else xorIterator_readValue it1) = (ValFloat, it') /\ sync (n + 1) a' it' /\
    ready (n + 1) it' rest /\ xi_numTotal it' = xi_numTotal it /\ xorIterator_At it' = (t, v).
Proof.
  intros Hn Ht Et Ev Ed Ed0 Hc (Hs1 & Hs2 & Hlt) [Hrd Her Hr] Hval it1.
  destruct Hs1 as [Et0 Ev0]; [lia|]. specialize (Hs2 ltac:(lia)).
  assert (Hr1 := consume_rrep (xi_x it) [false] (cs ++ rest) Hr Hval).
  change (rrep (x_br (xi_x it1)) (cs ++ rest)) in Hr1.
  assert (Htime : xi_t it1 = t).
  { subst it1. cbn. rewrite Et0, Hs2, Ed0. by apply tDelta_time. }
  destruct (Z.leb_spec 1 (br_valid (x_br (xi_x it1)))) as [Hv1|Hv1]; cbn [andb].
  - destruct (xor_case_head _ _ _ _ _ _ _ Hc) as [(Evc & -> & El & Etr)|[bs' ->]].
    + rewrite (peek_zero_spec _ false _ Hr1 Hv1). cbn [negb].
      assert (Hr2 := consume_rrep (xi_x it1) [false] rest Hr1 Hv1).
      assert (consume 1 (xi_x it1) = mk_xst (x_br (consume 1 (xi_x it1))) v
        (x_leading (xi_x it)) (x_trailing (xi_x it))) as ->.
      { unfold it1, consume, set_br. cbn. by rewrite Ev0, Evc. }
      eapply (sample_code_found n a' t v it1); cbn; try done; [lia| |].
      * intros _. congruence.
      * rewrite El, Etr. exact Hlt.
    + rewrite (peek_zero_spec _ true _ Hr1 Hv1). cbn [negb].
      edestruct (readValue_spec it1 v) as (br2 & ld & td & -> & Hr2 & Hlt2);
        [by cbn; rewrite Ev0|exact Hlt|exact Hr1|].
      eapply sample_code_found; try done; [lia|]. intros _. cbn. congruence.
  - edestruct (readValue_spec it1 v) as (br2 & ld & td & -> & Hr2 & Hlt2);
      [by cbn; rewrite Ev0|exact Hlt|exact Hr1|].
    eapply sample_code_found; try done; [lia|]. intros _. cbn. congruence.
Qed.

Lemma later_sample_code n a a' t v cs :
  let d := u64 (i64 (t - xa_t a)) in
  let dod := i64 (u64 (d - xa_tDelta a)) in
  2 <= n < MaxUint16 -> app_ok n a -> is_i64 t -> xa_t a' = t -> xa_v a' = v -> xa_tDelta a' = d ->
  xor_case v (xa_v a) (xa_leading a) (xa_trailing a) cs (xa_leading a') (xa_trailing a') ->
  sample_code n a a' t v (dod_bits dod ++ cs).
Proof.
  intros d dod Hn Ha Ht Et Ev Ed Hc it rest Hs Hready Htot.
  unfold xorIterator_Next. rewrite (ready_err _ _ _ Hready), (ready_read _ _ _ Hready).
  destruct (Z.eqb_spec n (xi_numTotal it)); [lia|].
  destruct (Z.eqb_spec n 0); [lia|]. destruct (Z.eqb_spec n 1); [lia|]. next_branch.
  assert (Hslow := next_dod_slow_spec n a a' t v cs it rest Hn Ht Et Ev Ed Hc Hs Hready).
  destruct (Z.leb_spec 1 (br_valid (x_br (xi_x it)))) as [Hval|]; cbn [andb]; [|done].
  destruct (dod_bits_head dod (i64_range _)) as [[E0 Eb]|[bs Eb]].
  - rewrite Eb in Hready.
    rewrite (peek_zero_spec _ false _ (ready_bits _ _ _ Hready) Hval). cbn [negb].
    apply (next_same_delta_spec n a a' t v cs it rest); try done.
    symmetry. apply dod_zero; [apply u64_range|apply Ha; lia|done].
  - rewrite Eb in Hready.
    rewrite (peek_zero_spec _ true _ (ready_bits _ _ _ Hready) Hval). done.
Qed.

(** The common tail of Append: value, then the new count in the header. *)
Lemma append_tail num w bs bs1 v a :
  wrep w (zbits 16 num ++ bs ++ bs1) -> is_u16 num -> 1 <= num -> is_u64 v -> app_ok num a ->
  exists w' cs l' t',
    xorWrite v (xa_v a) (xa_leading a) (xa_trailing a) w = (w', l', t') /\
    xor_case v (xa_v a) (xa_leading a) (xa_trailing a) cs l' t' /\ enc_lt l' t' /\
    wrep (put_header (u16 (num + 1)) w') (zbits 16 (u16 (num + 1)) ++ bs ++ bs1 ++ cs).
Proof.
  intros Hw Hn Hn1 Hv [Hav _ Hlt]. specialize (Hav Hn1).
  destruct (xor_code_case v (xa_v a) _ _ Hv Hav Hlt) as (cs & l' & t' & E & Hc).
  destruct (wrep_xorWrite _ _ _ _ _ _ _ _ _ Hw Hv Hav Hlt E) as (w' & Ew & Hw').
  exists w', cs, l', t'. split; [done|]. split; [done|].
  split; [by eapply xor_case_lt|]. rewrite <-!app_assoc in Hw'. by eapply wrep_put_header.
Qed.

(** Append adds exactly one sample: its code follows the bits already there,
    and the iterator reads it back. *)
Lemma Append_spec n a t v bs :
  wrep (xa_b a) (zbits 16 n ++ bs) -> 0 <= n < MaxUint16 -> app_ok n a -> is_i64 t -> is_u64 v ->
  exists a' cs, xorAppender_Append t v a = Some a' /\ app_ok (n + 1) a' /\ cs <> [] /\
    wrep (xa_b a') (zbits 16 (n + 1) ++ bs ++ cs) /\ sample_code n a a' t v cs.
Proof.
  intros Hw Hn Ha Ht Hv. unfold MaxUint16 in Hn.
  assert (Hn16 : is_u16 n) by (unfold is_u16; lia).
  destruct (wrep_header _ _ _ Hw Hn16) as (Enum & _). unfold xorAppender_Append.
  assert (Enext : u16 (n + 1) = n + 1) by (apply u16_id; unfold is_u16; lia).
  rewrite Enum. destruct (Z.eqb_spec n 0) as [->|H0].
  { exists (mk_xorAppender (put_header (u16 (0 + 1)) (writeBits v 64 (writeBytes (PutVarint t) (xa_b a))))
      t v 0 (xa_leading a) (xa_trailing a)), (stream_bits (PutVarint t) ++ zbits 64 v).
    split; [done|]. split; [split; [done|simpl; lia|apply Ha]|].
    split; [apply cons_app_nonempty, uvarint_bits_nonempty|]. split; [|by apply first_sample_code].
    eapply wrep_put_header; [|done]. rewrite !app_assoc.
    apply wrep_writeBits; [|lia]. apply wrep_writeBytes; [done|apply PutVarint_ok]. }
  destruct (Z.eqb_spec n 1) as [->|H1].
  { assert (Hw1 := wrep_writeBytes (PutUvarint (u64 (i64 (t - xa_t a)))) _ _ Hw (PutUvarint_ok _)).
    rewrite <-app_assoc in Hw1.
    destruct (append_tail 1 _ _ _ v a Hw1 Hn16 ltac:(lia) Hv Ha) as (w' & cs & l' & t' & -> & Hc & Hlt & Hw').
    eexists _, (_ ++ cs). split; [done|]. split; [split; [done|intros; apply u64_range|done]|].
    split; [apply cons_app_nonempty, uvarint_bits_nonempty|]. split; [exact Hw'|].
    by apply second_sample_code. }
  destruct (Z.eqb_spec n MaxUint16) as [->|_]; [unfold MaxUint16 in Hn; lia|].
  assert (Hw1 := wrep_write_dod _ _ (i64 (u64 (u64 (i64 (t - xa_t a)) - xa_tDelta a))) Hw).
  rewrite <-app_assoc in Hw1.
  destruct (append_tail n _ _ _ v a Hw1 Hn16 ltac:(lia) Hv Ha) as (w' & cs & l' & t' & -> & Hc & Hlt & Hw').
  eexists _, (_ ++ cs). split; [done|]. split; [split; [done|intros; apply u64_range|done]|].
  rewrite Enext in *. split; [|split; [exact Hw'|apply later_sample_code; (done || (unfold MaxUint16; lia))]].
  destruct (dod_bits_head (i64 (u64 (u64 (i64 (t - xa_t a)) - xa_tDelta a))) (i64_range _))
    as [[_ ->]|[? ->]]; done.
Qed.

(** ** Whole chunks *)

(** A run of Next over the samples [l]. *)
Inductive nexts : xorIterator -> list (Z * Z) -> xorIterator -> Prop :=
  | nexts_nil it : nexts it [] it
  | nexts_snoc it l it1 it2 : nexts it l it1 ->
      xorIterator_Next it1 = (ValFloat, it2) -> nexts it (l ++ [xorIterator_At it2]) it2.

(** [bs] decodes to [l] and leaves the iterator where the appender [a] is. *)
Definition decodes (bs : list bool) (l : list (Z * Z)) (a : xorAppender) : Prop :=
  forall it rest, ready 0 it (bs ++ rest) -> Z.of_nat (length l) <= xi_numTotal it ->
    x_leading (xi_x it) = 0 -> x_trailing (xi_x it) = 0 ->
    exists it', nexts it l it' /\ sync (Z.of_nat (length l)) a it' /\
      ready (Z.of_nat (length l)) it' rest /\ xi_numTotal it' = xi_numTotal it.

(** [xapp a l]: [a] is an appender of a chunk that holds the samples [l]. *)
Record xapp (a : xorAppender) (l : list (Z * Z)) : Prop := mk_xapp {
  xapp_ok : app_ok (Z.of_nat (length l)) a;
  xapp_len : Z.of_nat (length l) <= MaxUint16;
  xapp_bits : exists bs, wrep (xa_b a) (zbits 16 (Z.of_nat (length l)) ++ bs) /\
    (l <> [] -> bs <> []) /\ decodes bs l a;
}.

Lemma decodes_nil a : xa_leading a = 0xff \/ (xa_leading a = 0 /\ xa_trailing a = 0) ->
  decodes [] [] a.
Proof.
  intros Ha it rest Hr _ El Et. exists it. split; [constructor|].
  split; [|done]. unfold sync. split; [simpl; lia|]. split; [simpl; lia|].
  rewrite El, Et. split; [unfold lt_ok; lia|]. destruct Ha as [?|[? ?]]; [by left|by right].
Qed.

Lemma xapp_new : exists a, XORChunk_Appender NewXORChunk = Some (Ok a) /\ xapp a [].
Proof.
  eexists. split; [done|]. split.
  - split; [simpl; lia..|]. by left.
  - unfold MaxUint16. simpl. lia.
  - exists []. split; [|split; [done|apply decodes_nil; by left]].
    split; [repeat constructor; unfold is_u8; lia|simpl; lia|done].
Qed.

Lemma xapp_append a l t v :
  xapp a l -> Z.of_nat (length l) < MaxUint16 -> is_i64 t -> is_u64 v ->
  exists a', xorAppender_Append t v a = Some a' /\ xapp a' (l ++ [(t, v)]).
Proof.
  intros [Ha _ (bs & Hw & _ & Hdec)] Hlen Ht Hv.
  destruct (Append_spec _ _ _ _ _ Hw ltac:(lia) Ha Ht Hv) as (a' & cs & E & Ha' & Hne & Hw' & Hcode).
  assert (Elen : Z.of_nat (length (l ++ [(t, v)])) = Z.of_nat (length l) + 1).
  { rewrite length_app. simpl. lia. }
  exists a'. split; [done|]. split; [by rewrite Elen|rewrite Elen; lia|].
  exists (bs ++ cs). rewrite Elen. split; [done|]. split; [by destruct bs|].
  intros it rest Hr Htot El Et. rewrite Elen in *. rewrite <-app_assoc in Hr.
  destruct (Hdec it (cs ++ rest) Hr ltac:(lia) El Et) as (it1 & Hn & Hs & Hr1 & Et1).
  destruct (Hcode it1 rest Hs Hr1 ltac:(lia)) as (it2 & En & Hs2 & Hr2 & Et2 & Eat).
  exists it2. rewrite <-Eat. split; [by econstructor|]. split; [done|]. split; [done|]. congruence.
Qed.

Lemma nexts_drain it l it1 f l2 it2 :
  nexts it l it1 -> xor_drain f it1 = Some (l2, it2) ->
  xor_drain (length l + f) it = Some (l ++ l2, it2).
Proof.
  intros Hn. revert f l2 it2. induction Hn as [|it l it1 it2 _ IH E]; intros f l2 it3 Hd; [done|].
  rewrite length_app, <-Nat.add_assoc, <-app_assoc. apply IH. simpl. by rewrite E, Hd.
Qed.

Lemma next_exhausted it : xi_numRead it = xi_numTotal it -> xorIterator_Next it = (ValNone, it).
Proof.
  intros E. unfold xorIterator_Next. by rewrite E, Z.eqb_refl, orb_true_r.
Qed.

(** An iterator over the chunk's bytes, as XORChunk.iterator makes it afresh
    ([t0] is MinInt64) or Reset reuses it ([t0] is 0). *)
Definition iterator_over (b : list Z) (t0 : Z) : xorIterator :=
  mk_xorIterator (mk_xst (newBReader (drop chunkHeaderSize b)) 0 0 0) (be_uint (take 2 b)) 0 t0 0 None.

Lemma xapp_iterate a l t0 :
  xapp a l ->
  let it := iterator_over (bs_stream (xa_b a)) t0 in
  xi_numTotal it = Z.of_nat (length l) /\
  exists it', xor_drain (S (Z.to_nat (xi_numTotal it))) it = Some (l, it') /\
    nexts it l it' /\ xi_err it' = None /\ xi_numRead it' = xi_numTotal it' /\
    sync (Z.of_nat (length l)) a it'.
Proof.
  intros [Ha Hlen (bs & Hw & _ & Hdec)] it. unfold MaxUint16 in Hlen.
  assert (is_u16 (Z.of_nat (length l))) as H16 by (unfold is_u16; lia).
  destruct (wrep_header _ _ _ Hw H16) as (Enum & Hb & Eb & _).
  assert (Hready : ready 0 it (bs ++ replicate (Z.to_nat (bs_count (xa_b a))) false)).
  { split; [done|done|]. cbn. rewrite <-Eb. by apply rrep_new. }
  assert (Etot : xi_numTotal it = Z.of_nat (length l)) by exact Enum.
  destruct (Hdec it _ Hready ltac:(lia) eq_refl eq_refl) as (it' & Hn & Hs & [Hrd Her _] & Et).
  split; [done|]. exists it'. split; [|split_and!; congruence || done]. rewrite Etot, Nat2Z.id.
  replace (S (length l)) with (length l + 1)%nat by lia. rewrite <-(app_nil_r l) at 2.
  eapply nexts_drain; [done|]. simpl. rewrite next_exhausted by congruence. done.
Qed.

Lemma sync_reopen n a it c :
  sync n a it -> sync n (mk_xorAppender c (xi_t it) (x_val (xi_x it)) (xi_tDelta it)
                           (x_leading (xi_x it)) (x_trailing (xi_x it))) it.
Proof. intros (_ & _ & Hlt & _). split_and!; try done. split; [done|]. by right. Qed.

(** Two iterators synchronised with the same appender have the same state. *)
Lemma sync_det n a it1 it2 c :
  sync n a it1 -> sync n a it2 ->
  sync n (mk_xorAppender c (xi_t it1) (x_val (xi_x it1)) (xi_tDelta it1)
            (x_leading (xi_x it1)) (x_trailing (xi_x it1))) it2.
Proof.
  intros (H1 & H2 & Hlt1 & Hd1) (H3 & H4 & Hlt2 & Hd2). split_and!; cbn.
  - intros Hn. destruct (H1 Hn), (H3 Hn). split; congruence.
  - intros Hn. rewrite (H2 Hn), (H4 Hn). done.
  - split; [done|]. right. unfold lt_ok in *. lia.
Qed.

Lemma xapp_reopen a l :
  xapp a l -> exists a', XORChunk_Appender (xa_b a) = Some (Ok a') /\ xapp a' l.
Proof.
  intros Hx. destruct (xapp_iterate a l MinInt64 Hx) as (_ & it' & Hd & _ & Her & _ & Hs).
  destruct Hx as [[Hav Hatd Halt] Hlen (bs & Hw & Hne & Hdec)]. unfold XORChunk_Appender.
  destruct (Nat.eqb_spec (length (bs_stream (xa_b a))) chunkHeaderSize) as [E|E].
  - assert (bs = [] /\ l = []) as [-> ->].
    { assert (Hl := f_equal length (wrep_bits _ _ Hw)).
      rewrite length_stream_bits, E, !length_app, length_zbits in Hl. unfold chunkHeaderSize in Hl.
      assert (bs = []) as -> by (destruct bs; [done|simpl in Hl; lia]).
      split; [done|]. destruct l; [done|]. by destruct Hne. }
    eexists. split; [done|]. split; [split; [simpl; lia..|by left]|done|].
    exists []. split; [done|]. split; [done|]. apply decodes_nil. by left.
  - change (XORChunk_iterator (xa_b a)) with (iterator_over (bs_stream (xa_b a)) MinInt64).
    rewrite Hd. simpl. rewrite Her. eexists. split; [done|]. split; [|done|].
    + destruct Hs as (H1 & H2 & Hlt & _). split; cbn.
      * intros Hn. destruct (H1 Hn) as [_ ->]. auto.
      * intros Hn. rewrite (H2 Hn). auto.
      * by right.
    + exists bs. split; [done|]. split; [done|]. intros it rest Hr Htot El Et.
      destruct (Hdec it rest Hr Htot El Et) as (it1 & Hn & Hs1 & Hr1 & Et1).
      exists it1. split; [done|]. split; [by eapply sync_det|done].
Qed.

(** *** Termination on arbitrary bytes *)

Lemma readValue_read it res it' :
  xorIterator_readValue it = (res, it') -> res <> ValNone ->
  xi_numRead it' = u16 (xi_numRead it + 1) /\ xi_numTotal it' = xi_numTotal it /\
  xi_err it' = xi_err it.
Proof.
  unfold xorIterator_readValue, read_value_slow, xi_found, xi_fail. intros E Hres.
  repeat case_match; simplify_eq; done.
Qed.

(** A successful Next counts one sample and keeps the total. *)
Lemma next_progress it res it' :
  xorIterator_Next it = (res, it') -> res <> ValNone ->
  xi_numRead it <> xi_numTotal it /\ xi_numRead it' = u16 (xi_numRead it + 1) /\
  xi_numTotal it' = xi_numTotal it /\ xi_err it' = None.
Proof.
  unfold xorIterator_Next. intros E Hres.
  destruct (xi_err it) as [e|] eqn:Her; [simpl in E; simplify_eq|].
  destruct (Z.eqb_spec (xi_numRead it) (xi_numTotal it)) as [|Hne];
    [rewrite orb_true_r in E; simplify_eq|].
  split; [done|]. unfold next_dod_slow, xi_found, xi_fail in E.
  repeat (case_match; simplify_eq; try done);
    match goal with H : xorIterator_readValue _ = _ |- _ =>
      apply readValue_read in H as (-> & -> & ->); [|done]; cbn; by rewrite ?Her end.
Qed.

Lemma drain_terminates f it :
  0 <= xi_numRead it <= xi_numTotal it -> xi_numTotal it < 2 ^ 16 ->
  xi_numTotal it - xi_numRead it < Z.of_nat f ->
  exists l it', xor_drain f it = Some (l, it') /\
    Z.of_nat (length l) <= xi_numTotal it - xi_numRead it.
Proof.
  revert it. induction f as [|f IH]; intros it Hr Ht Hf; [lia|]. simpl.
  destruct (xorIterator_Next it) as [res it'] eqn:E.
  destruct (decide (res = ValNone)) as [->|Hres]; [exists [], it'; split; [done|simpl; lia]|].
  destruct (next_progress _ _ _ E Hres) as (Hne & Hrd & Htot & _).
  rewrite u16_id in Hrd by (unfold is_u16; lia).
  destruct (IH it') as (l & it2 & Hd & Hl); [lia..|]. rewrite Hd.
  exists (xorIterator_At it' :: l), it2. split; [by destruct res|]. simpl. lia.
Qed.

(** *** Seek *)

Lemma nexts_head it l it' :
  nexts it l it' ->
  (l = [] /\ it' = it) \/
  exists it1 l', l = xorIterator_At it1 :: l' /\
    xorIterator_Next it = (ValFloat, it1) /\ nexts it1 l' it'.
Proof.
  induction 1 as [|it l it1 it2 Hn IH E]; [by left|right].
  destruct IH as [[-> ->]|(it3 & l' & -> & E3 & Hn3)].
  - exists it2, []. split; [done|]. split; [done|constructor].
  - exists it3, (l' ++ [xorIterator_At it2]). split; [done|]. split; [done|by econstructor].
Qed.

(** The sample Seek stops at: the first one not before [t]. *)
Definition seek_target (t : Z) (l : list (Z * Z)) : option (Z * Z) :=
  head (filter (fun s => t <= s.1) l).

Lemma seek_target_cons t s l :
  seek_target t (s :: l) = if decide (t <= s.1) then Some s else seek_target t l.
Proof. unfold seek_target. rewrite filter_cons. by case_decide. Qed.

Lemma seek_loop_spec t l it it' f :
  nexts it l it' -> xi_numRead it' = xi_numTotal it' ->
  0 <= xi_numRead it -> xi_numTotal it < 2 ^ 16 -> xi_numRead it + Z.of_nat (length l) <= xi_numTotal it ->
  (xi_t it <? t) || (xi_numRead it =? 0) = true -> (S (length l) < f)%nat ->
  exists it2, xor_seek_loop f t it
    = Some (if seek_target t l is Some _ then ValFloat else ValNone, it2) /\
    (forall s, seek_target t l = Some s -> xorIterator_At it2 = s).
Proof.
  revert it f. induction l as [|s l IH]; intros it f Hn Hend H0 Htot Hle Hcond Hf.
  - apply nexts_head in Hn as [[_ ->]|(? & ? & [=] & _)]. destruct f as [|f]; [lia|].
    cbn [xor_seek_loop]. rewrite Hcond, next_exhausted by done. by eexists.
  - apply nexts_head in Hn as [[[=] _]|(it1 & l' & [= -> <-] & E & Hn)].
    destruct f as [|f]; [lia|]. simpl length in *. cbn [xor_seek_loop]. rewrite Hcond, E.
    destruct (next_progress _ _ _ E ltac:(done)) as (_ & Hrd & Htot1 & _).
    rewrite u16_id in Hrd by (unfold is_u16; lia). rewrite seek_target_cons.
    case_decide as Hd.
    + exists it1. destruct f as [|f]; [lia|]. cbn [xor_seek_loop].
      destruct (Z.ltb_spec (xi_t it1) t); [cbn in Hd; lia|].
      destruct (Z.eqb_spec (xi_numRead it1) 0); [lia|]. split; [done|congruence].
    + apply IH; [done|done|lia|lia|lia| |lia].
      destruct (Z.ltb_spec (xi_t it1) t); [done|]. cbn in Hd. lia.
Qed.

Lemma xapp_seek a l t t0 :
  xapp a l ->
  let it := iterator_over (bs_stream (xa_b a)) t0 in
  exists it2, xorIterator_Seek t it = Some (if seek_target t l is Some _ then ValFloat else ValNone, it2) /\
    (forall s, seek_target t l = Some s -> xorIterator_At it2 = s).
Proof.
  intros Hx it. destruct (xapp_iterate a l t0 Hx) as (Etot & it' & _ & Hn & _ & Hend & _).
  fold it in Etot, Hn. pose proof (xapp_len _ _ Hx) as Hlen. unfold MaxUint16 in Hlen.
  unfold xorIterator_Seek. change (bool_decide (is_Some (xi_err it))) with false. cbv iota.
  rewrite Etot. change (xi_numRead it) with 0. rewrite Z.sub_0_r, Nat2Z.id.
  eapply seek_loop_spec; [exact Hn|done|done|lia| |by rewrite orb_true_r|lia].
  change (xi_numRead it) with 0. lia.
Qed.

(** ** Main theorems *)

Definition sample_ok (s : Z * Z) : Prop := is_i64 s.1 /\ is_u64 s.2.

(** Appending a list of samples; [None] as soon as an Append panics. *)
Fixpoint append_all (l : list (Z * Z)) (a : xorAppender) : option xorAppender :=
  match l with
  | [] => Some a
  | (t, v) :: l' => a' ← xorAppender_Append t v a; append_all l' a'
  end.

Lemma xapp_append_all l2 a l1 :
  xapp a l1 -> Forall sample_ok l2 -> Z.of_nat (length (l1 ++ l2)) <= MaxUint16 ->
  exists a', append_all l2 a = Some a' /\ xapp a' (l1 ++ l2).
Proof.
  revert a l1. induction l2 as [|[t v] l2 IH]; intros a l1 Ha Hok Hlen.
  - exists a. by rewrite app_nil_r.
  - apply Forall_cons in Hok as [[Ht Hv] Hok]. rewrite length_app in Hlen. simpl in *.
    destruct (xapp_append a l1 t v Ha ltac:(lia) Ht Hv) as (a1 & -> & Ha1). simpl.
    replace (l1 ++ (t, v) :: l2) with ((l1 ++ [(t, v)]) ++ l2) by by rewrite <-app_assoc.
    apply IH; [done|done|]. rewrite !length_app. simpl. lia.
Qed.

(** Iterating a chunk to the end: the samples and the final error. *)
Definition chunk_samples (c : bstream) : option (list (Z * Z) * option goerror) :=
  let it := XORChunk_iterator c in
  '(l, it') ← xor_drain (S (Z.to_nat (xi_numTotal it))) it; Some (l, xi_err it').

Lemma xapp_chunk_samples a l : xapp a l -> chunk_samples (xa_b a) = Some (l, None).
Proof.
  intros Ha. destruct (xapp_iterate a l MinInt64 Ha) as (_ & it' & Hd & _ & Her & _).
  unfold chunk_samples. change (XORChunk_iterator (xa_b a)) with
    (iterator_over (bs_stream (xa_b a)) MinInt64).
  rewrite Hd. simpl. by rewrite Her.
Qed.

Lemma xapp_num_samples a l : xapp a l -> XORChunk_NumSamples (xa_b a) = Z.of_nat (length l).
Proof. intros Ha. by destruct (xapp_iterate a l MinInt64 Ha) as [E _]. Qed.

(** C1: a chunk gives back what was appended to it.  Whatever samples (at most
    65535, any int64 timestamps in any order, any float bit patterns) are
    appended to a new XOR chunk, no Append panics, NumSamples is their number,
    and iterating the chunk returns exactly them, in order and without error. *)
Theorem xor_roundtrip l :
  Forall sample_ok l -> Z.of_nat (length l) <= MaxUint16 ->
  exists a0 a, XORChunk_Appender NewXORChunk = Some (Ok a0) /\ append_all l a0 = Some a /\
    XORChunk_NumSamples (xa_b a) = Z.of_nat (length l) /\
    chunk_samples (xa_b a) = Some (l, None).
Proof.
  intros Hok Hlen. destruct xapp_new as (a0 & E0 & Ha0).
  destruct (xapp_append_all l a0 [] Ha0 Hok Hlen) as (a & E & Ha).
  exists a0, a. split; [done|]. split; [done|].
  split; [by apply xapp_num_samples|by apply xapp_chunk_samples].
Qed.

Definition xor_example : list (Z * Z) :=
  [(1000, 0x4028000000000000); (1015, 0x4028000000000000); (1030, 0x4038000000000000);
   (-7, 0x4038000000000001); (2 ^ 63 - 1, 0); (- 2 ^ 63, 2 ^ 64 - 1)].

Lemma xor_example_ok : Forall sample_ok xor_example.
Proof.
  repeat constructor; unfold is_i64, is_u64, MinInt64, MaxInt64; simpl; lia.
Qed.

Lemma xor_roundtrip_witness :
  exists a0 a, XORChunk_Appender NewXORChunk = Some (Ok a0) /\
    append_all xor_example a0 = Some a /\
    XORChunk_NumSamples (xa_b a) = 6 /\ chunk_samples (xa_b a) = Some (xor_example, None).
Proof.
  apply (xor_roundtrip xor_example); [apply xor_example_ok|vm_compute; congruence].
Defined.

(** An appender taken on a chunk that already has samples continues it.
    After [l1] was appended through one appender, XORChunk.Appender replays the
    chunk without error, and appending [l2] through the new appender makes a
    chunk that iterates as [l1 ++ l2]. *)
Theorem xor_reopen_roundtrip l1 l2 :
  Forall sample_ok l1 -> Forall sample_ok l2 -> Z.of_nat (length (l1 ++ l2)) <= MaxUint16 ->
  exists a0 a1 a1' a2, XORChunk_Appender NewXORChunk = Some (Ok a0) /\
    append_all l1 a0 = Some a1 /\ XORChunk_Appender (xa_b a1) = Some (Ok a1') /\
    append_all l2 a1' = Some a2 /\ chunk_samples (xa_b a2) = Some (l1 ++ l2, None).
Proof.
  intros Hok1 Hok2 Hlen. destruct xapp_new as (a0 & E0 & Ha0).
  assert (Z.of_nat (length l1) <= MaxUint16) as Hlen1 by (rewrite length_app in Hlen; lia).
  destruct (xapp_append_all l1 a0 [] Ha0 Hok1 Hlen1) as (a1 & E1 & Ha1).
  destruct (xapp_reopen a1 l1 Ha1) as (a1' & E1' & Ha1').
  destruct (xapp_append_all l2 a1' l1 Ha1' Hok2 Hlen) as (a2 & E2 & Ha2).
  exists a0, a1, a1', a2. split_and!; try done. by apply xapp_chunk_samples.
Qed.

Lemma xor_reopen_roundtrip_witness :
  exists a0 a1 a1' a2, XORChunk_Appender NewXORChunk = Some (Ok a0) /\
    append_all xor_example a0 = Some a1 /\ XORChunk_Appender (xa_b a1) = Some (Ok a1') /\
    append_all xor_example a1' = Some a2 /\
    chunk_samples (xa_b a2) = Some (xor_example ++ xor_example, None).
Proof.
  apply (xor_reopen_roundtrip xor_example xor_example);
    [apply xor_example_ok|apply xor_example_ok|vm_compute; congruence].
Defined.

(** Seek stops at the first sample not before the target.  On a chunk with
    the samples [l], Seek on a fresh iterator or on one reused through Reset
    ends on the first sample of [l] whose timestamp is at least [t], and
    returns ValNone when there is none. *)
Theorem xor_seek l t :
  Forall sample_ok l -> Z.of_nat (length l) <= MaxUint16 ->
  exists a0 a, XORChunk_Appender NewXORChunk = Some (Ok a0) /\ append_all l a0 = Some a /\
    forall it, it = XORChunk_iterator (xa_b a) \/ it = xorIterator_Reset (bs_stream (xa_b a)) ->
    exists it', xorIterator_Seek t it
      = Some (if seek_target t l is Some _ then ValFloat else ValNone, it') /\
    (forall s, seek_target t l = Some s -> xorIterator_At it' = s).
Proof.
  intros Hok Hlen. destruct xapp_new as (a0 & E0 & Ha0).
  destruct (xapp_append_all l a0 [] Ha0 Hok Hlen) as (a & E & Ha).
  exists a0, a. split; [done|]. split; [done|].
  intros it [->| ->]; [apply (xapp_seek a l t MinInt64 Ha)|apply (xapp_seek a l t 0 Ha)].
Qed.

Lemma xor_seek_witness :
  exists a0 a, XORChunk_Appender NewXORChunk = Some (Ok a0) /\
    append_all xor_example a0 = Some a /\
    forall it, it = XORChunk_iterator (xa_b a) \/ it = xorIterator_Reset (bs_stream (xa_b a)) ->
    exists it', xorIterator_Seek 1016 it = Some (ValFloat, it') /\
    (forall s, seek_target 1016 xor_example = Some s -> xorIterator_At it' = s).
Proof.
  apply (xor_seek xor_example 1016); [apply xor_example_ok|vm_compute; congruence].
Defined.


