(* ===== verification/GoSort.v ===== *)
(** The standard library's binary searches: sort.Search and
    slices.BinarySearch, with what they return for any predicate and for a
    monotone one. *)
From stdpp Require Import sorting.
From S2P Require Import Prelude.

(** [for i < j { h := (i+j)/2; if !f(h) { i = h+1 } else { j = h } }]; every
    turn shrinks [j - i], so [n] turns are enough. *)
Fixpoint search_loop (fuel : nat) (f : nat -> bool) (i j : nat) : nat :=
  match fuel with
  | O => i
  | S fuel' =>
      if (i <? j)%nat then
        let h := ((i + j) / 2)%nat in
        if f h then search_loop fuel' f i h else search_loop fuel' f (S h) j
      else i
  end.

Definition Search (n : nat) (f : nat -> bool) : nat := search_loop n f 0 n.

(** slices.BinarySearch on an ordered slice: the position of [x]. *)
Definition BinarySearch (l : list Z) (x : Z) : nat :=
  Search (length l) (fun i => x <=? l !!! i).

Lemma search_loop_spec fuel f i j n :
  (i <= j <= n)%nat -> (j - i <= fuel)%nat ->
  (forall k, (0 < i)%nat -> k = (i - 1)%nat -> f k = false) -> ((j < n)%nat -> f j = true) ->
  let r := search_loop fuel f i j in
  (i <= r <= j)%nat /\ ((r < n)%nat -> f r = true) /\ ((0 < r)%nat -> f (r - 1)%nat = false).
Proof.
  revert i j. induction fuel as [|fuel IH]; intros i j Hij Hf Hi Hj; cbn [search_loop]; cbv zeta in *.
  { assert (i = j) as -> by lia. split; [lia|]. auto. }
  destruct (Nat.ltb_spec i j) as [Hlt|Hge].
  2: { assert (i = j) as -> by lia. split; [lia|]. auto. }
  assert (Hh : (i <= (i + j) / 2 < j)%nat).
  { pose proof (Nat.div_mod_eq (i + j) 2). pose proof (Nat.mod_upper_bound (i + j) 2). lia. }
  set (h := ((i + j) / 2)%nat) in *. destruct (f h) eqn:E.
  - destruct (IH i h) as (H1 & H2 & H3); [lia|lia|done|done|]. split; [lia|done].
  - destruct (IH (S h) j) as (H1 & H2 & H3); [lia|lia| |done|].
    + intros k _ ->. replace (S h - 1)%nat with h by lia. done.
    + split; [lia|done].
Qed.

Lemma Search_spec n f :
  (Search n f <= n)%nat /\ ((Search n f < n)%nat -> f (Search n f) = true) /\
  ((0 < Search n f)%nat -> f (Search n f - 1)%nat = false).
Proof.
  destruct (search_loop_spec n f 0 n n) as (H1 & H2 & H3); [lia|lia|lia|lia|].
  unfold Search. split; [lia|done].
Qed.

(** [f] is false then true on [0, n). *)
Definition monotone (n : nat) (f : nat -> bool) : Prop :=
  forall i j, (i <= j < n)%nat -> f i = true -> f j = true.

(** On a monotone predicate Search finds the boundary. *)
Lemma Search_monotone n f :
  monotone n f ->
  (Search n f <= n)%nat /\
  (forall i, (i < Search n f)%nat -> f i = false) /\
  (forall i, (Search n f <= i < n)%nat -> f i = true).
Proof.
  intros Hm. destruct (Search_spec n f) as (H1 & H2 & H3). split; [done|]. split.
  - intros i Hi. destruct (f i) eqn:E; [|done].
    rewrite <-(H3 ltac:(lia)). symmetry. apply (Hm i); [lia|done].
  - intros i Hi. apply (Hm (Search n f)); [lia|]. apply H2. lia.
Qed.

(** The boundary is unique. *)
Lemma Search_unique n f k :
  (k <= n)%nat -> (forall i, (i < k)%nat -> f i = false) ->
  (forall i, (k <= i < n)%nat -> f i = true) -> Search n f = k.
Proof.
  intros Hk Hlo Hhi.
  destruct (Search_monotone n f) as (H1 & H2 & H3).
  { intros i j Hij Ei. destruct (decide (i < k)%nat); [rewrite Hlo in Ei by done; done|].
    apply Hhi. lia. }
  destruct (lt_eq_lt_dec (Search n f) k) as [[Hlt|?]|Hgt]; [|done|].
  - specialize (Hlo _ Hlt). rewrite H3 in Hlo by lia. done.
  - specialize (H2 k Hgt). rewrite Hhi in H2 by lia. done.
Qed.

Lemma Search_ext n f g : (forall i, f i = g i) -> Search n f = Search n g.
Proof.
  intros Hfg. unfold Search. generalize n at 1 3 as fuel. generalize O as i. intros i fuel.
  revert i n. induction fuel as [|fuel IH]; intros i j; cbn [search_loop]; [done|].
  rewrite Hfg. by rewrite !IH.
Qed.

(** Searching a slice whose elements fail a predicate and then pass it. *)
Lemma Search_app {A} `{!Inhabited A} (p : A -> bool) (l1 l2 : list A) :
  Forall (fun a => p a = false) l1 -> Forall (fun a => p a = true) l2 ->
  Search (length (l1 ++ l2)) (fun i => p ((l1 ++ l2) !!! i)) = length l1.
Proof.
  intros H1 H2. apply Search_unique.
  - rewrite length_app. lia.
  - intros i Hi. rewrite lookup_total_app_l by done.
    rewrite Forall_lookup in H1. eapply H1. by apply list_lookup_lookup_total_lt.
  - intros i Hi. rewrite length_app in Hi. rewrite lookup_total_app_r by lia.
    rewrite Forall_lookup in H2. eapply H2. apply list_lookup_lookup_total_lt. lia.
Qed.

(** A slice where no element after one that passes fails splits that way. *)
Lemma StronglySorted_split {A} (p : A -> bool) (l : list A) :
  StronglySorted (fun a b => p a = true -> p b = true) l ->
  exists l1 l2, l = l1 ++ l2 /\ Forall (fun a => p a = false) l1 /\ Forall (fun a => p a = true) l2.
Proof.
  intros Hs. induction Hs as [|a l _ IH Ha]; [by exists [], []|]. destruct (p a) eqn:E.
  - exists [], (a :: l). split_and!; [done..|]. constructor; [done|].
    eapply Forall_impl; [exact Ha|]. cbv beta. auto.
  - destruct IH as (l1 & l2 & -> & H1 & H2). exists (a :: l1), l2. auto.
Qed.

Lemma StronglySorted_weaken {A} (P : A -> Prop) (R S : relation A) l :
  (forall a b, P a -> P b -> R a b -> S a b) -> Forall P l -> StronglySorted R l -> StronglySorted S l.
Proof.
  intros Himp HP Hs. induction Hs as [|a l Hs IH Ha]; [constructor|].
  apply Forall_cons in HP as [HPa HPl]. constructor; [by apply IH|].
  rewrite Forall_forall in Ha, HPl |- *. auto.
Qed.
