(* ===== verification/Encoding.v ===== *)
(** tsdb/encoding/encoding.go: the append-only encoding buffer [Encbuf] and the
    bounds-checking decoding buffer [Decbuf].

    An Encbuf is its byte slice B (C is scratch space for one number).  The
    third-party decoder github.com/dennwc/varint is the parameter [uvarint];
    [UvarintSpec] states its documented contract on well-formed input, which is
    that of encoding/binary.Uvarint. *)
From S2P Require Import Prelude BitList Bstream Varint.

(** ** hash/crc32 with the Castagnoli polynomial *)

Fixpoint crc_bits (n : nat) (c : Z) : Z :=
  match n with
  | O => c
  | S n' => crc_bits n' (if Z.testbit c 0 then Z.lxor (Z.shiftr c 1) 0x82F63B78 else Z.shiftr c 1)
  end.

Definition crc_step (c b : Z) : Z :=
  Z.lxor (Z.shiftr c 8) (crc_bits 8 (Z.land (Z.lxor c b) 0xff)).

Definition crc32_Checksum (l : list Z) : Z := Z.lxor (foldl crc_step 0xffffffff l) 0xffffffff.

(** ** Encbuf *)

Definition PutByte (c : Z) (e : list Z) : list Z := e ++ [c].
Definition PutBytes (b : list Z) (e : list Z) : list Z := e ++ b.
Definition PutBE32 (x : Z) (e : list Z) : list Z := e ++ be_bytes 4 x.
Definition PutBE64 (x : Z) (e : list Z) : list Z := e ++ be_bytes 8 x.
Definition PutBE32int (x : Z) (e : list Z) : list Z := PutBE32 (u32 x) e.
Definition PutBE64int64 (x : Z) (e : list Z) : list Z := PutBE64 (u64 x) e.
(** A float64 is its bit pattern. *)
Definition PutBEFloat64 (x : Z) (e : list Z) : list Z := PutBE64 x e.
Definition PutUvarint64 (x : Z) (e : list Z) : list Z := e ++ PutUvarint x.
Definition PutUvarint32 (x : Z) (e : list Z) : list Z := PutUvarint64 x e.
(** The method PutUvarint takes an int. *)
Definition Encbuf_PutUvarint (x : Z) (e : list Z) : list Z := PutUvarint64 (u64 x) e.
Definition PutVarint64 (x : Z) (e : list Z) : list Z := e ++ PutVarint x.
Definition PutUvarintBytes (b : list Z) (e : list Z) : list Z :=
  PutBytes b (Encbuf_PutUvarint (Z.of_nat (length b)) e).
Definition PutUvarintStr (s : list Z) (e : list Z) : list Z :=
  PutBytes s (Encbuf_PutUvarint (Z.of_nat (length s)) e).
(** PutHash with a CRC32 hash: reset, write the buffer, append the sum. *)
Definition PutHash (e : list Z) : list Z := e ++ be_bytes 4 (crc32_Checksum e).

(** ** Decbuf *)

Record Decbuf := mk_Decbuf { dB : list Z; dE : option goerror }.

Definition invalid_size {A} (a : A) (d : Decbuf) : A * Decbuf :=
  (a, mk_Decbuf (dB d) (Some ErrInvalidSize)).

(** Be64 and Be32 for [n] of 8 and 4 bytes. *)
Definition get_fixed (n : nat) (d : Decbuf) : Z * Decbuf :=
  match dE d with
  | Some _ => (0, d)
  | None =>
      if (length (dB d) <? n)%nat then invalid_size 0 d
      else (be_uint (take n (dB d)), mk_Decbuf (drop n (dB d)) None)
  end.

Definition Be64 (d : Decbuf) : Z * Decbuf := get_fixed 8 d.
Definition Be32 (d : Decbuf) : Z * Decbuf := get_fixed 4 d.
Definition Be64int64 (d : Decbuf) : Z * Decbuf := let '(x, d) := Be64 d in (i64 x, d).
Definition Be64Float64 (d : Decbuf) : Z * Decbuf := Be64 d.
Definition Be32int (d : Decbuf) : Z * Decbuf := Be32 d.

Definition Decbuf_Byte (d : Decbuf) : Z * Decbuf :=
  match dE d, dB d with
  | Some _, _ => (0, d)
  | None, [] => invalid_size 0 d
  | None, x :: b => (x, mk_Decbuf b None)
  end.

(** Skip does not look at the error. *)
Definition Skip (l : nat) (d : Decbuf) : Decbuf :=
  if (length (dB d) <? l)%nat then mk_Decbuf (dB d) (Some ErrInvalidSize)
  else mk_Decbuf (drop l (dB d)) (dE d).

(** [for len(d.B) > 1 && d.B[0] == 0 { d.B = d.B[1:] }]. *)
Fixpoint drop_padding (b : list Z) : list Z :=
  match b with
  | x :: b' => if (x =? 0) && negb (length b' =? 0)%nat then drop_padding b' else b
  | [] => []
  end.

Definition ConsumePadding (d : Decbuf) : Decbuf :=
  match dE d with
  | Some _ => d
  | None =>
      let b := drop_padding (dB d) in
      if (length b <? 1)%nat then mk_Decbuf b (Some ErrInvalidSize) else mk_Decbuf b None
  end.

(** NewDecbufAt; [check] is whether a checksum table was passed. *)
Definition NewDecbufAt (bs : list Z) (off : nat) (check : bool) : Decbuf :=
  if (length bs <? off + 4)%nat then mk_Decbuf [] (Some ErrInvalidSize)
  else
    let l := Z.to_nat (be_uint (take 4 (drop off bs))) in
    if (length bs <? off + 4 + l + 4)%nat then mk_Decbuf [] (Some ErrInvalidSize)
    else
      let b := take (l + 4) (drop (off + 4) bs) in
      let body := take (length b - 4) b in
      if check && negb (crc32_Checksum body =? be_uint (drop (length b - 4) b))
      then mk_Decbuf [] (Some ErrInvalidChecksum)
      else mk_Decbuf body None.

Definition NewDecbufRaw (bs : list Z) (n : nat) : Decbuf :=
  if (length bs <? n)%nat then mk_Decbuf [] (Some ErrInvalidSize) else mk_Decbuf (take n bs) None.

Section WithUvarint.
  (** [varint.Uvarint(buf)] returns the value and the number of bytes read,
      which is not positive when the buffer does not start with a varint. *)
  Variable uvarint : list Z -> Z * Z.

Definition Uvarint64 (d : Decbuf) : Z * Decbuf :=
  match dE d with
  | Some _ => (0, d)
  | None =>
      let '(x, n) := uvarint (dB d) in
      if n <? 1 then invalid_size 0 d
      else (x, mk_Decbuf (drop (Z.to_nat n) (dB d)) None)
  end.

Definition Varint64 (d : Decbuf) : Z * Decbuf :=
  match dE d with
  | Some _ => (0, d)
  | None =>
      let '(ux, n) := uvarint (dB d) in
      if n <? 1 then invalid_size 0 d
      else (unzigzag ux, mk_Decbuf (drop (Z.to_nat n) (dB d)) None)
  end.

Definition Decbuf_Uvarint (d : Decbuf) : Z * Decbuf := let '(x, d) := Uvarint64 d in (i64 x, d).
Definition Uvarint32 (d : Decbuf) : Z * Decbuf := let '(x, d) := Uvarint64 d in (u32 x, d).

(** [None] is the run-time panic of slicing past the buffer. *)
Definition UvarintBytes (d : Decbuf) : option (list Z * Decbuf) :=
  let '(l, d) := Uvarint64 d in
  match dE d with
  | Some _ => Some ([], d)
  | None =>
      if Z.of_nat (length (dB d)) <? i64 l then Some (invalid_size [] d)
      else if Z.of_nat (length (dB d)) <? l then None
      else Some (take (Z.to_nat l) (dB d), mk_Decbuf (drop (Z.to_nat l) (dB d)) None)
  end.

(** UvarintStr is UvarintBytes as a string. *)
Definition UvarintStr (d : Decbuf) : option (list Z * Decbuf) := UvarintBytes d.

(** NewDecbufUvarintAt; MaxVarintLen32 is 5. *)
Definition NewDecbufUvarintAt (bs : list Z) (off : nat) : Decbuf :=
  if (length bs <? off + 5)%nat then mk_Decbuf [] (Some ErrInvalidSize)
  else
    let '(l, n) := uvarint (take 5 (drop off bs)) in
    if (n <=? 0) || (5 <? n) then mk_Decbuf [] (Some (ErrFormat n))
    else if Z.of_nat (length bs) <? Z.of_nat off + n + i64 l + 4
      then mk_Decbuf [] (Some ErrInvalidSize)
    else
      let b := take (Z.to_nat (i64 l + 4)) (drop (off + Z.to_nat n) bs) in
      let body := take (length b - 4) b in
      if crc32_Checksum body =? be_uint (drop (length b - 4) b) then mk_Decbuf body None
      else mk_Decbuf [] (Some ErrInvalidChecksum).

(** The contract of the decoder on what binary.PutUvarint writes. *)
Class UvarintSpec : Prop :=
  uvarint_put : forall x rest, is_u64 x ->
    uvarint (PutUvarint x ++ rest) = (x, Z.of_nat (length (PutUvarint x))).

End WithUvarint.

(** ** encoding/binary.Uvarint satisfies the contract *)

Fixpoint std_Uvarint_loop (i : nat) (x s : Z) (buf : list Z) : Z * Z :=
  match buf with
  | [] => (0, 0)
  | b :: buf' =>
      if (i =? MaxVarintLen64)%nat then (0, - (Z.of_nat i + 1))
      else if b <? 0x80 then
        if (i =? MaxVarintLen64 - 1)%nat && (1 <? b) then (0, - (Z.of_nat i + 1))
        else (Z.lor x (shl64 b s), Z.of_nat i + 1)
      else std_Uvarint_loop (S i) (Z.lor x (shl64 (Z.land b 0x7f) s)) (s + 7) buf'
  end.

Definition std_Uvarint (buf : list Z) : Z * Z := std_Uvarint_loop 0 0 0 buf.

Lemma std_Uvarint_loop_spec n x y s rest :
  varint_pos n s y ->
  std_Uvarint_loop (10 - n) x s (put_uvarint n y ++ rest)
    = (Z.lor x (Z.shiftl y s), Z.of_nat (10 - n) + Z.of_nat (length (put_uvarint n y))).
Proof.
  revert x y s. induction n as [|n IH]; intros x y s Hp; [destruct Hp; lia|].
  assert (Hp' := Hp). destruct Hp' as (_ & Hs & Hs0 & Hy).
  assert (Hn10 : (S n <= 10)%nat) by lia. destruct (decide (128 <= y)) as [Hb|Hb].
  - rewrite put_uvarint_big by done. pose proof (Z.mod_pos_bound y 128).
    rewrite <-app_comm_cons. cbn [std_Uvarint_loop length].
    destruct (Nat.eqb_spec (10 - S n) MaxVarintLen64); [unfold MaxVarintLen64 in *; lia|].
    destruct (Z.ltb_spec (y mod 128 + 128) 0x80); [lia|].
    rewrite land_127, (varint_pos_shl n) by done.
    replace (S (10 - S n)) with (10 - n)%nat by lia.
    rewrite IH by by apply varint_pos_next. rewrite uvarint_step by lia. f_equal. lia.
  - rewrite put_uvarint_small by lia. cbn [app std_Uvarint_loop length].
    destruct (Nat.eqb_spec (10 - S n) MaxVarintLen64); [unfold MaxVarintLen64 in *; lia|].
    destruct (Z.ltb_spec y 0x80); [|lia].
    destruct (Nat.eqb_spec (10 - S n) (MaxVarintLen64 - 1)) as [E|E]; cbn [andb].
    + unfold MaxVarintLen64 in E. replace (64 - s) with 1 in Hy by lia.
      destruct (Z.ltb_spec 1 y); [lia|]. rewrite shl64_fits; [done|lia|].
      replace (64 - s) with 1 by lia. done.
    + rewrite shl64_fits; [done|unfold MaxVarintLen64 in E; lia|done].
Qed.

#[global] Instance std_UvarintSpec : UvarintSpec std_Uvarint.
Proof.
  intros x rest Hx.
  assert (H := std_Uvarint_loop_spec _ 0 _ _ rest (varint_pos_start _ Hx)).
  by rewrite Z.lor_0_l, Z.shiftl_0_r in H.
Qed.

(** ** Decoding what was encoded *)

(** [gets get bytes a]: [get] takes [bytes] off the buffer and returns [a]. *)
Definition gets {A} (get : Decbuf -> A * Decbuf) (bytes : list Z) (a : A) : Prop :=
  forall rest, get (mk_Decbuf (bytes ++ rest) None) = (a, mk_Decbuf rest None).

Lemma gets_fixed n x : gets (get_fixed n) (be_bytes n x) (x mod 2 ^ (8 * Z.of_nat n)).
Proof.
  intros rest. unfold get_fixed. cbn [dE dB].
  destruct (Nat.ltb_spec (length (be_bytes n x ++ rest)) n) as [H|_].
  { rewrite length_app, length_be_bytes in H. lia. }
  rewrite take_app_length', drop_app_length' by by rewrite length_be_bytes.
  by rewrite be_uint_be_bytes.
Qed.

Lemma gets_Be64 x : is_u64 x -> gets Be64 (be_bytes 8 x) x.
Proof. intros Hx rest. unfold Be64. rewrite gets_fixed.
  change (8 * Z.of_nat 8) with 64. f_equal. apply Z.mod_small, Hx. Qed.

Lemma gets_Be32 x : is_u32 x -> gets Be32 (be_bytes 4 x) x.
Proof. intros Hx rest. unfold Be32. rewrite gets_fixed.
  change (8 * Z.of_nat 4) with 32. f_equal. apply Z.mod_small, Hx. Qed.

Lemma gets_Be64int64 x : is_i64 x -> gets Be64int64 (be_bytes 8 (u64 x)) x.
Proof.
  intros Hx rest. unfold Be64int64. rewrite gets_Be64 by apply u64_range.
  by rewrite i64_u64, i64_id.
Qed.

Lemma gets_Byte x : gets Decbuf_Byte [x] x.
Proof. done. Qed.

Lemma put_uvarint_length_pos n x : (1 <= length (put_uvarint (S n) x))%nat.
Proof. cbn [put_uvarint]. destruct (0x80 <=? x); cbn [length]; lia. Qed.

Section Roundtrip.
  Context (uvarint : list Z -> Z * Z) `{!UvarintSpec uvarint}.

Lemma PutUvarint_length_pos x : (1 <= length (PutUvarint x))%nat.
Proof. apply (put_uvarint_length_pos 9). Qed.

Lemma gets_Uvarint64 x : is_u64 x -> gets (Uvarint64 uvarint) (PutUvarint x) x.
Proof.
  intros Hx rest. unfold Uvarint64. cbn [dE dB]. rewrite uvarint_put by done.
  pose proof (PutUvarint_length_pos x). destruct (Z.ltb_spec (Z.of_nat (length (PutUvarint x))) 1); [lia|].
  by rewrite Nat2Z.id, drop_app_length.
Qed.

Lemma gets_Varint64 x : is_i64 x -> gets (Varint64 uvarint) (PutVarint x) x.
Proof.
  intros Hx rest. unfold Varint64. cbn [dE dB]. unfold PutVarint.
  rewrite uvarint_put by first [done | apply zigzag_range].
  pose proof (PutUvarint_length_pos (zigzag x)).
  destruct (Z.ltb_spec (Z.of_nat (length (PutUvarint (zigzag x)))) 1); [lia|].
  by rewrite Nat2Z.id, drop_app_length, unzigzag_zigzag.
Qed.

Lemma UvarintBytes_put b rest :
  Z.of_nat (length b) <= MaxInt64 ->
  UvarintBytes uvarint (mk_Decbuf (PutUvarintBytes b [] ++ rest) None)
    = Some (b, mk_Decbuf rest None).
Proof.
  intros Hl. unfold UvarintBytes, PutUvarintBytes, PutBytes, Encbuf_PutUvarint, PutUvarint64.
  unfold MaxInt64 in Hl. cbn [app]. rewrite u64_id by (unfold is_u64; lia).
  rewrite <-app_assoc, gets_Uvarint64 by (unfold is_u64; lia). cbn [dE dB].
  rewrite i64_id by (unfold is_i64, MinInt64, MaxInt64; lia).
  rewrite length_app, Nat2Z.id, take_app_length, drop_app_length.
  destruct (Z.ltb_spec (Z.of_nat (length b + length rest)) (Z.of_nat (length b))); [lia|done].
Qed.

End Roundtrip.

(** ** Checksummed sections *)

Lemma lxor_u32 a b : is_u32 a -> is_u32 b -> is_u32 (Z.lxor a b).
Proof.
  unfold is_u32. intros Ha Hb.
  assert (Z.lxor a b = (Z.lxor a b) mod 2 ^ 32) as ->; [|by apply Z.mod_pos_bound].
  apply Z.bits_inj'. intros i Hi. destruct (decide (i < 32)).
  - by rewrite Z.mod_pow2_bits_low by lia.
  - rewrite Z.mod_pow2_bits_high by lia. rewrite Z.lxor_spec.
    rewrite <-(Z.mod_small a (2 ^ 32)), <-(Z.mod_small b (2 ^ 32)) by done.
    by rewrite !Z.mod_pow2_bits_high by lia.
Qed.

Lemma shiftr_u32 a n : is_u32 a -> 0 <= n -> is_u32 (Z.shiftr a n).
Proof.
  unfold is_u32. intros Ha Hn. rewrite Z.shiftr_div_pow2 by lia.
  split; [apply Z.div_pos; lia|]. apply Z.le_lt_trans with a; [|lia].
  apply Z.div_le_upper_bound; [lia|]. assert (0 < 2 ^ n) by lia. nia.
Qed.

Lemma crc_bits_u32 n c : is_u32 c -> is_u32 (crc_bits n c).
Proof.
  revert c. induction n as [|n IH]; intros c Hc; cbn [crc_bits]; [done|]. apply IH.
  destruct (Z.testbit c 0); [apply lxor_u32|]; try apply shiftr_u32; done || unfold is_u32; lia.
Qed.

Lemma crc_step_u32 c b : is_u32 c -> is_u32 (crc_step c b).
Proof.
  intros Hc. apply lxor_u32; [apply shiftr_u32; [done|lia]|]. apply crc_bits_u32.
  change 0xff with (Z.ones 8). rewrite Z.land_ones by lia.
  pose proof (Z.mod_pos_bound (Z.lxor c b) (2 ^ 8)). unfold is_u32. lia.
Qed.

Lemma crc32_range l : is_u32 (crc32_Checksum l).
Proof.
  apply lxor_u32; [|unfold is_u32; lia].
  assert (forall c, is_u32 c -> is_u32 (foldl crc_step c l)) as H.
  { induction l as [|b l IH]; intros c Hc; [done|]. apply IH. by apply crc_step_u32. }
  apply H. unfold is_u32. lia.
Qed.

(** A section as the block files store it: length, contents, checksum. *)
Definition section_bytes (body sum : list Z) : list Z :=
  PutBytes sum (PutBytes body (PutBE32int (Z.of_nat (length body)) [])).

Lemma NewDecbufAt_section pre body sum post check :
  Z.of_nat (length body) < 2 ^ 32 -> length sum = 4%nat ->
  NewDecbufAt (pre ++ section_bytes body sum ++ post) (length pre) check
    = if check && negb (crc32_Checksum body =? be_uint sum)
      then mk_Decbuf [] (Some ErrInvalidChecksum) else mk_Decbuf body None.
Proof.
  intros Hlen Hsum. unfold NewDecbufAt, section_bytes, PutBytes, PutBE32int, PutBE32.
  cbn [app]. rewrite u32_id by (unfold is_u32; lia).
  set (hdr := be_bytes 4 (Z.of_nat (length body))).
  assert (Hhdr : length hdr = 4%nat) by apply length_be_bytes.
  assert (Hl : be_uint hdr = Z.of_nat (length body)).
  { unfold hdr. rewrite be_uint_be_bytes. apply Z.mod_small. change (8 * Z.of_nat 4) with 32. lia. }
  rewrite <-!app_assoc. rewrite !length_app, Hhdr, Hsum.
  destruct (Nat.ltb_spec (length pre + (4 + (length body + (4 + length post)))) (length pre + 4)); [lia|].
  rewrite drop_app_length, take_app_length' by done. rewrite Hl, Nat2Z.id.
  destruct (Nat.ltb_spec (length pre + (4 + (length body + (4 + length post))))
              (length pre + 4 + length body + 4)); [lia|].
  rewrite <-drop_drop, drop_app_length, (drop_app_length' hdr) by done.
  rewrite app_assoc, (take_app_length' (body ++ sum)) by (rewrite length_app; lia).
  rewrite length_app, Hsum. replace (length body + 4 - 4)%nat with (length body) by lia.
  by rewrite take_app_length, drop_app_length.
Qed.

(** ** Main theorems *)

(** A checksummed section is read back exactly when its checksum matches.
    NewDecbufAt at the start of a length-prefixed section, wherever it lies in
    the file, yields its contents when the stored sum is the CRC of the
    contents, and ErrInvalidChecksum and no contents for any other sum. *)
Theorem decbuf_section_roundtrip pre body sum post :
  Z.of_nat (length body) < 2 ^ 32 -> length sum = 4%nat ->
  NewDecbufAt (pre ++ section_bytes body (be_bytes 4 (crc32_Checksum body)) ++ post)
    (length pre) true = mk_Decbuf body None /\
  (be_uint sum <> crc32_Checksum body ->
   NewDecbufAt (pre ++ section_bytes body sum ++ post) (length pre) true
     = mk_Decbuf [] (Some ErrInvalidChecksum)).
Proof.
  intros Hlen Hsum. split.
  - rewrite NewDecbufAt_section by (done || apply length_be_bytes).
    rewrite be_uint_be_bytes. change (8 * Z.of_nat 4) with 32.
    rewrite Z.mod_small, Z.eqb_refl by apply crc32_range. done.
  - intros Hne. rewrite NewDecbufAt_section by done.
    destruct (Z.eqb_spec (crc32_Checksum body) (be_uint sum)); [congruence|done].
Qed.

Lemma decbuf_section_roundtrip_witness :
  NewDecbufAt ([7] ++ section_bytes [1; 2; 3] (be_bytes 4 (crc32_Checksum [1; 2; 3])) ++ [9])
    1 true = mk_Decbuf [1; 2; 3] None /\
  (be_uint [0; 0; 0; 0] <> crc32_Checksum [1; 2; 3] ->
   NewDecbufAt ([7] ++ section_bytes [1; 2; 3] [0; 0; 0; 0] ++ [9]) 1 true
     = mk_Decbuf [] (Some ErrInvalidChecksum)).
Proof.
  apply (decbuf_section_roundtrip [7] [1; 2; 3] [0; 0; 0; 0] [9]); [vm_compute; done|reflexivity].
Defined.

(** A corrupt length makes UvarintBytes panic.  Whenever the decoded
    length is 2^63 or more, its conversion to int is negative, the bounds
    check passes, and the slice expression is out of range: the run-time panic
    [None], not ErrInvalidSize. *)
Theorem UvarintBytes_huge_length_panics (uvarint : list Z -> Z * Z) l rest :
  UvarintSpec uvarint -> 2 ^ 63 <= l < 2 ^ 64 -> Z.of_nat (length rest) < 2 ^ 63 ->
  UvarintBytes uvarint (mk_Decbuf (PutUvarint l ++ rest) None) = None.
Proof.
  intros Hu Hl Hr. unfold UvarintBytes. rewrite (gets_Uvarint64 uvarint) by (done || unfold is_u64; lia).
  cbn [dE dB].
  assert (i64 l = l - 2 ^ 64) as ->.
  { transitivity (i64 (l - 2 ^ 64)).
    - apply i64_congr. replace l with (l - 2 ^ 64 + 1 * 2 ^ 64) at 1 by lia. apply Z_mod_plus_full.
    - apply i64_id. unfold is_i64, MinInt64, MaxInt64. lia. }
  destruct (Z.ltb_spec (Z.of_nat (length rest)) (l - 2 ^ 64)); [lia|].
  destruct (Z.ltb_spec (Z.of_nat (length rest)) l); [done|lia].
Qed.

Lemma UvarintBytes_huge_length_panics_witness :
  UvarintBytes std_Uvarint (mk_Decbuf (PutUvarint (2 ^ 63) ++ [1; 2; 3]) None) = None.
Proof.
  apply (UvarintBytes_huge_length_panics std_Uvarint (2 ^ 63) [1; 2; 3]); [apply _|lia|simpl; lia].
Defined.
