(* ===== verification/Tombstones.v ===== *)
(** tsdb/tombstones/tombstones.go: deleted time ranges per series.

    [Intervals.Add] merges a range into a sorted slice with two binary
    searches; [MemTombstones] keeps one such slice per series; Encode and Decode
    are its file format.  A Go run-time panic (index or slice bounds) is
    [None]. *)
From stdpp Require Import sorting.
From S2P Require Import Prelude BitList Varint GoSort Encoding.

Record Interval := mk_Interval { Mint : Z; Maxt : Z }.

#[global] Instance Interval_eq_dec : EqDecision Interval.
Proof. solve_decision. Defined.
#[global] Instance Interval_inhabited : Inhabited Interval := populate (mk_Interval 0 0).

Definition InBounds (tr : Interval) (t : Z) : bool := (Mint tr <=? t) && (t <=? Maxt tr).

Definition IsSubrange (tr : Interval) (dranges : list Interval) : bool :=
  existsb (fun r => InBounds r (Mint tr) && InBounds r (Maxt tr)) dranges.

(** The last three lines of Add: widen [in[mini]] to the new range and to the
    end of [in[maxi+mini-1]], and cut the intervals between them. *)
Definition merge_at (ins : list Interval) (n : Interval) (mini maxi : nat) : option (list Interval) :=
  match ins !! mini, ins !! (maxi + mini - 1)%nat with
  | Some a, Some b =>
      let lo := if Mint n <? Mint a then Mint n else Mint a in
      Some (take mini ins ++ [mk_Interval lo (Z.max (Maxt n) (Maxt b))] ++ drop (maxi + mini) ins)
  | _, _ => None
  end.

Definition Intervals_Add (ins : list Interval) (n : Interval) : option (list Interval) :=
  if (length ins =? 0)%nat then Some (ins ++ [n])
  else
    let mini := if Mint n =? MinInt64 then O
      else Search (length ins) (fun i => i64 (Mint n - 1) <=? Maxt (ins !!! i)) in
    if negb (Mint n =? MinInt64) && (mini =? length ins)%nat then Some (ins ++ [n])
    else
      let maxi := if Maxt n =? MaxInt64 then length ins
        else Search (length ins - mini)
               (fun i => i64 (Maxt n + 1) <? Mint (ins !!! (mini + i)%nat)) in
      if negb (Maxt n =? MaxInt64) && (maxi =? 0)%nat then Some (take mini ins ++ [n] ++ drop mini ins)
      else merge_at ins n mini maxi.

(** ** MemTombstones *)

Notation MemTombstones := (gmap Z (list Interval)).

Definition NewMemTombstones : MemTombstones := ∅.

Definition MemTombstones_Get (t : MemTombstones) (ref : Z) : list Interval := default [] (t !! ref).

Definition DeleteTombstones (refs : list Z) (t : MemTombstones) : MemTombstones :=
  foldr delete t refs.

(** [i := len(ivs)-1; for ; i >= 0; i-- { if beforeT > ivs[i].Maxt { break } }]:
    the number of intervals up to and including the one it stops at. *)
Fixpoint truncate_index (beforeT : Z) (ivs : list Interval) (k : nat) : nat :=
  match k with
  | O => O
  | S i => if Maxt (ivs !!! i) <? beforeT then S i else truncate_index beforeT ivs i
  end.

Definition truncate_group (beforeT : Z) (ivs : list Interval) : option (list Interval) :=
  let rest := drop (truncate_index beforeT ivs (length ivs)) ivs in
  if (length rest =? 0)%nat then None else Some rest.

Definition TruncateBefore (beforeT : Z) (t : MemTombstones) : MemTombstones :=
  omap (truncate_group beforeT) t.

(** Iter visits the groups in Go's unspecified map order. *)
Definition Iter_order (t : MemTombstones) (visited : list (Z * list Interval)) : Prop :=
  visited ≡ₚ map_to_list t.

Definition Total (t : MemTombstones) : Z :=
  u64 (foldr (fun g n => Z.of_nat (length g.2) + n) 0 (map_to_list t)).

Fixpoint AddInterval (ref : Z) (itvs : list Interval) (t : MemTombstones) : option MemTombstones :=
  match itvs with
  | [] => Some t
  | itv :: itvs' =>
      match Intervals_Add (MemTombstones_Get t ref) itv with
      | Some ivs => AddInterval ref itvs' (<[ref := ivs]> t)
      | None => None
      end
  end.

(** ** The file format *)

Definition MagicTombstone : Z := 0x0130BA30.
Definition tombstoneFormatV1 : Z := 1.
Definition tombstoneFormatVersionSize : nat := 1.
Definition tombstonesHeaderSize : nat := 5.
Definition tombstonesCRCSize : nat := 4.

Definition put_interval (ref : Z) (buf : list Z) (iv : Interval) : list Z :=
  PutVarint64 (Maxt iv) (PutVarint64 (Mint iv) (PutUvarint64 ref buf)).

(** Encode over the sequence of calls the reader's Iter makes. *)
Definition Encode (visited : list (Z * list Interval)) : list Z :=
  foldl (fun buf g => foldl (put_interval g.1) buf g.2) (PutByte tombstoneFormatV1 []) visited.

(** The bytes WriteFile leaves in the tombstones file. *)
Definition WriteFile (visited : list (Z * list Interval)) : list Z :=
  let bytes := Encode visited in
  PutBE32 MagicTombstone [] ++ bytes ++
  be_bytes 4 (crc32_Checksum (drop tombstoneFormatVersionSize bytes)).

Section Decoding.
  Variable uvarint : list Z -> Z * Z.

(** [for d.Len() > 0 { ... }]; a turn that does not fail takes at least three
    bytes, so as many turns as bytes are enough. *)
Fixpoint decode_loop (fuel : nat) (d : Decbuf) (stones : MemTombstones)
  : option (result MemTombstones) :=
  if (length (dB d) =? 0)%nat then Some (Ok stones)
  else
    match fuel with
    | O => Some (Ok stones)
    | S fuel' =>
        let '(k, d) := Uvarint64 uvarint d in
        let '(mint, d) := Varint64 uvarint d in
        let '(maxt, d) := Varint64 uvarint d in
        match dE d with
        | Some e => Some (Err e)
        | None =>
            match AddInterval k [mk_Interval mint maxt] stones with
            | Some stones => decode_loop fuel' d stones
            | None => None
            end
        end
    end.

Definition Decode (b : list Z) : option (result MemTombstones) :=
  let '(flag, d) := Decbuf_Byte (mk_Decbuf b None) in
  if negb (flag =? tombstoneFormatV1) then Some (Err (ErrFormat flag))
  else match dE d with
       | Some e => Some (Err e)
       | None => decode_loop (length (dB d)) d NewMemTombstones
       end.

(** ReadTombstones on the contents of the file, [None] when it does not exist. *)
Definition ReadTombstones (file : option (list Z)) : option (result (MemTombstones * Z)) :=
  match file with
  | None => Some (Ok (NewMemTombstones, 0))
  | Some b =>
      if (length b <? tombstonesHeaderSize)%nat then Some (Err ErrInvalidSize)
      else
        let '(mg, d) := Be32 (mk_Decbuf (take (length b - tombstonesCRCSize) b) None) in
        if negb (mg =? MagicTombstone) then Some (Err (ErrFormat mg))
        else if (length (dB d) <? tombstoneFormatVersionSize)%nat then None
        else if negb (be_uint (drop (length b - tombstonesCRCSize) b)
                      =? crc32_Checksum (drop tombstoneFormatVersionSize (dB d)))
          then Some (Err ErrInvalidChecksum)
        else match dE d with
             | Some e => Some (Err e)
             | None =>
                 match Decode (dB d) with
                 | None => None
                 | Some (Err e) => Some (Err e)
                 | Some (Ok m) => Some (Ok (m, Z.of_nat (length b)))
                 end
             end
  end.

End Decoding.

(** ** Well-formed interval slices *)

Definition valid (iv : Interval) : Prop :=
  is_i64 (Mint iv) /\ is_i64 (Maxt iv) /\ Mint iv <= Maxt iv.

(** [a] ends before [b] starts, with at least one timestamp between them. *)
Definition apart (a b : Interval) : Prop := Maxt a + 1 < Mint b.

(** Intervals "represents a set of increasing and non-overlapping
    time-intervals": valid, increasing and not even adjacent. *)
Definition wf (ins : list Interval) : Prop := Forall valid ins /\ StronglySorted apart ins.

(** The set of timestamps a slice deletes. *)
Definition covers (ins : list Interval) (t : Z) : Prop := Exists (fun iv => InBounds iv t = true) ins.

Lemma wf_app a b :
  wf (a ++ b) <-> wf a /\ wf b /\ (forall x y, x ∈ a -> y ∈ b -> apart x y).
Proof. unfold wf. rewrite Forall_app, StronglySorted_app. tauto. Qed.

Lemma wf_nil : wf [].
Proof. split; constructor. Qed.

Lemma wf_single n : wf [n] <-> valid n.
Proof.
  unfold wf. rewrite Forall_singleton. split; [naive_solver|]. intros. split; [done|].
  repeat constructor.
Qed.

(** What Add leaves in place of the intervals [b] that touch [n]. *)
Definition hull (b : list Interval) (n : Interval) : Interval :=
  match b with
  | [] => n
  | x :: _ => mk_Interval (Z.min (Mint n) (Mint x)) (Z.max (Maxt n) (Maxt (default x (last b))))
  end.

(** [a] ends before [n], [b] touches [n], [c] starts after [n]. *)
Definition splits (ins : list Interval) (n : Interval) (a b c : list Interval) : Prop :=
  ins = a ++ b ++ c /\
  Forall (fun x => Maxt x < Mint n - 1) a /\
  Forall (fun x => Mint n - 1 <= Maxt x /\ Mint x <= Maxt n + 1) b /\
  Forall (fun x => Maxt n + 1 < Mint x) c.

Lemma merge_at_split a b c n :
  b <> [] -> merge_at (a ++ b ++ c) n (length a) (length b) = Some (a ++ [hull b n] ++ c).
Proof.
  intros Hb. destruct b as [|x b]; [done|]. unfold merge_at.
  assert ((a ++ (x :: b) ++ c) !! length a = Some x) as ->.
  { by rewrite lookup_app_r, Nat.sub_diag by lia. }
  replace (length (x :: b) + length a - 1)%nat with (length a + length b)%nat by (simpl; lia).
  rewrite lookup_app_r by lia. replace (length a + length b - length a)%nat with (length b) by lia.
  rewrite lookup_app_l by (simpl; lia).
  destruct ((x :: b) !! length b) as [y|] eqn:Ey; [|apply lookup_ge_None in Ey; simpl in Ey; lia].
  rewrite take_app_length, (app_assoc a (x :: b) c), drop_app_length' by (rewrite length_app; lia).
  assert (last (x :: b) = Some y) as Hlast by (rewrite last_lookup; done).
  unfold hull. rewrite Hlast. cbn [default].
  destruct (Z.ltb_spec (Mint n) (Mint x)); [rewrite Z.min_l by lia|rewrite Z.min_r by lia]; done.
Qed.

Ltac ivs := each_elem ltac:(unfold valid, apart, is_i64 in *).

Lemma splits_exists ins n : wf ins -> valid n -> exists a b c, splits ins n a b c.
Proof.
  intros [Hval Hs] Hn.
  destruct (StronglySorted_split (fun x => Mint n - 1 <=? Maxt x) ins) as (a & r & -> & Fa & Fr).
  { eapply StronglySorted_weaken; [|exact Hval|exact Hs]. unfold valid, apart. intros; lia. }
  apply Forall_app in Hval as [Va Vr]. apply StronglySorted_app in Hs as (_ & _ & Hs).
  destruct (StronglySorted_split (fun x => Maxt n + 1 <? Mint x) r) as (b & c & -> & Fb & Fc).
  { eapply StronglySorted_weaken; [|exact Vr|exact Hs]. unfold valid, apart. intros; lia. }
  apply Forall_app in Fr as [Fr _]. exists a, b, c. split_and!; [done|ivs..].
Qed.

Section Splits.
  Context {ins a b c : list Interval} {n : Interval}.
  Context (Hsp : splits ins n a b c) (Hval : Forall valid ins) (Hn : valid n).

(** The first search of Add finds the end of [a]. *)
Lemma mini_split :
  (if Mint n =? MinInt64 then O
   else Search (length ins) (fun i => i64 (Mint n - 1) <=? Maxt (ins !!! i))) = length a.
Proof.
  destruct Hsp as (-> & Fa & Fb & Fc). rewrite !Forall_app in Hval. destruct Hval as (Va & Vb & Vc).
  destruct (Z.eqb_spec (Mint n) MinInt64) as [E|E].
  - destruct a as [|x a']; [done|]. apply Forall_cons in Fa as [Fa _], Va as [Va _].
    unfold valid, is_i64 in *. lia.
  - rewrite i64_id by (unfold valid, is_i64 in *; lia).
    apply (Search_app (fun x => Mint n - 1 <=? Maxt x)); [ivs|]. apply Forall_app. split; ivs.
Qed.

(** The second one finds the end of [b], counted from [a]. *)
Lemma maxi_split :
  Maxt n <> MaxInt64 ->
  Search (length ins - length a)
    (fun i => i64 (Maxt n + 1) <? Mint (ins !!! (length a + i)%nat)) = length b.
Proof.
  intros E. destruct Hsp as (-> & Fa & Fb & Fc).
  rewrite i64_id by (unfold valid, is_i64 in *; lia).
  rewrite (Search_ext _ _ (fun i => Maxt n + 1 <? Mint ((b ++ c) !!! i))).
  - rewrite length_app, Nat.add_comm, Nat.add_sub.
    apply (Search_app (fun x => Maxt n + 1 <? Mint x)); ivs.
  - intros i. rewrite lookup_total_app_r by lia.
    by replace (length a + i - length a)%nat with i by lia.
Qed.

(** At the ends of the time axis nothing lies beyond the new range. *)
Lemma maxt_split : Maxt n = MaxInt64 -> c = [].
Proof.
  intros E. destruct Hsp as (-> & _ & _ & Fc). rewrite !Forall_app in Hval.
  destruct Hval as (_ & _ & Vc). destruct c as [|x c']; [done|].
  apply Forall_cons in Fc as [Fc _], Vc as [Vc _]. unfold valid, is_i64 in *. lia.
Qed.

Lemma mint_split : Mint n = MinInt64 -> a = [].
Proof.
  intros E. apply length_zero_iff_nil. rewrite <-mini_split, E. done.
Qed.

(** Add panics when the new range is open to the right, does not swallow the
    first interval and touches a later one; otherwise it replaces the touched
    intervals by their hull. *)
Lemma Intervals_Add_split :
  Intervals_Add ins n =
    if (Maxt n =? MaxInt64) && negb (length a =? 0)%nat && negb (length b =? 0)%nat
    then None else Some (a ++ [hull b n] ++ c).
Proof.
  unfold Intervals_Add. rewrite mini_split. pose proof maxi_split as Hmaxi.
  pose proof maxt_split as Hmaxt. pose proof mint_split as Hmint.
  destruct Hsp as (-> & _). rewrite !length_app in *.
  destruct (Nat.eqb_spec (length a + (length b + length c)) 0) as [E0|E0].
  { destruct a, b, c; simpl in E0; try lia. by rewrite andb_false_r. }
  destruct (Nat.eqb_spec (length a) (length a + (length b + length c))) as [E1|E1].
  { destruct b, c; simpl in *; try lia. rewrite !andb_false_r, app_nil_r, andb_true_r.
    destruct (Z.eqb_spec (Mint n) MinInt64) as [E|]; [|done].
    rewrite (Hmint E) in E0. simpl in E0. lia. }
  rewrite andb_false_r. destruct (Z.eqb_spec (Maxt n) MaxInt64) as [E|E]; cbn [negb andb].
  - rewrite (Hmaxt E) in *. simpl length in *. destruct (Nat.eqb_spec (length b) 0); [lia|].
    destruct (Nat.eqb_spec (length a) 0) as [Ea|Ea]; cbn [negb andb].
    + rewrite Ea, Nat.add_0_l, Nat.add_0_r. destruct a; [|done].
      apply (merge_at_split []). by destruct b.
    + unfold merge_at. rewrite (lookup_ge_None_2 _ (_ - 1)); [by case_match|].
      rewrite !length_app. simpl. lia.
  - rewrite Hmaxi by done. destruct (Nat.eqb_spec (length b) 0) as [Eb|Eb].
    + destruct b; [|done]. cbn [app hull]. by rewrite take_app_length, drop_app_length.
    + apply merge_at_split. by destruct b.
Qed.

End Splits.

(** ** The merged slice *)

Lemma covers_app a b t : covers (a ++ b) t <-> covers a t \/ covers b t.
Proof. unfold covers. apply Exists_app. Qed.

Lemma covers_single n t : covers [n] t <-> InBounds n t = true.
Proof. unfold covers. rewrite Exists_cons, Exists_nil. tauto. Qed.

Lemma covers_nil t : ~ covers [] t.
Proof. unfold covers. intros H. by apply Exists_nil in H. Qed.

Lemma InBounds_spec iv t : InBounds iv t = true <-> Mint iv <= t <= Maxt iv.
Proof. unfold InBounds. rewrite andb_true_iff, !Z.leb_le. done. Qed.

(** The first interval of a well-formed slice starts first and the last one
    ends last. *)
Lemma wf_bounds x b iv :
  wf (x :: b) -> iv ∈ x :: b ->
  Mint x <= Mint iv /\ Maxt iv <= Maxt (default x (last (x :: b))) /\
  default x (last (x :: b)) ∈ x :: b.
Proof.
  intros [Hval Hs] Hin.
  destruct (last (x :: b)) as [y|] eqn:Hy; [|by apply last_None in Hy].
  apply last_Some in Hy as [l Hl]. change (default x (Some y)) with y. split_and!.
  - apply StronglySorted_inv in Hs as [_ Hs]. apply Forall_cons in Hval as [Vx _].
    apply elem_of_cons in Hin as [->|Hin]; [lia|].
    rewrite Forall_forall in Hs. specialize (Hs _ Hin). unfold apart, valid in *. lia.
  - rewrite Hl in *. apply elem_of_app in Hin as [Hin|Hin].
    + apply StronglySorted_app in Hs as (Hs & _). rewrite Forall_app, Forall_singleton in Hval.
      destruct Hval as [_ Vy]. specialize (Hs iv y Hin (list_elem_of_here _ _)).
      unfold apart, valid in *. lia.
    + apply list_elem_of_singleton in Hin as ->. lia.
  - rewrite Hl. set_solver.
Qed.

(** Merging: the hull covers exactly what the touched intervals and the new
    one cover. *)
Lemma hull_covers b n t :
  wf b -> valid n -> Forall (fun x => Mint n - 1 <= Maxt x /\ Mint x <= Maxt n + 1) b ->
  InBounds (hull b n) t = true <-> covers b t \/ InBounds n t = true.
Proof.
  intros Hwf Hn Fb. destruct b as [|x b].
  { pose proof (covers_nil t). tauto. }
  unfold hull. set (y := default x (last (x :: b))).
  assert (Hb : forall iv, iv ∈ x :: b -> Mint x <= Mint iv /\ Maxt iv <= Maxt y /\ y ∈ x :: b)
    by (intros; by apply wf_bounds).
  destruct (Hb x) as (_ & _ & Hy); [set_solver|]. rewrite Forall_forall in Fb.
  pose proof (Fb x ltac:(set_solver)) as Fx. pose proof (Fb y Hy) as Fy.
  unfold covers. rewrite Exists_exists, !InBounds_spec. cbn [Mint Maxt]. unfold valid in Hn. split.
  - intros Ht. destruct (decide (t < Mint n)).
    { left. exists x. split; [set_solver|]. rewrite InBounds_spec. lia. }
    destruct (decide (Maxt n < t)); [|right; lia].
    left. exists y. split; [done|]. rewrite InBounds_spec. lia.
  - intros [(iv & Hin & Ht)|Ht]; [|lia]. rewrite InBounds_spec in Ht.
    destruct (Hb iv Hin) as (H1 & H2 & _). lia.
Qed.

Lemma hull_bounds b n :
  wf b -> valid n ->
  valid (hull b n) /\
  (Mint (hull b n) = Mint n \/ exists x, x ∈ b /\ Mint (hull b n) = Mint x) /\
  (Maxt (hull b n) = Maxt n \/ exists x, x ∈ b /\ Maxt (hull b n) = Maxt x).
Proof.
  intros Hwf Hn. destruct b as [|x b]; [auto|].
  destruct (wf_bounds x b x Hwf ltac:(set_solver)) as (_ & _ & Hy).
  destruct Hwf as [Hval _]. rewrite Forall_forall in Hval.
  pose proof (Hval x ltac:(set_solver)) as Vx. pose proof (Hval _ Hy) as Vy.
  unfold hull. set (y := default x (last (x :: b))) in *. cbn [Mint Maxt]. split_and!.
  - unfold valid, is_i64 in *. cbn [Mint Maxt]. lia.
  - destruct (Z.min_spec (Mint n) (Mint x)) as [[_ ->]|[_ ->]]; [auto|]. right. exists x. set_solver.
  - destruct (Z.max_spec (Maxt n) (Maxt y)) as [[_ ->]|[_ ->]]; [|auto]. right. eauto.
Qed.

Lemma splits_wf ins n a b c :
  splits ins n a b c -> wf ins -> valid n -> wf (a ++ [hull b n] ++ c).
Proof.
  intros (-> & Fa & Fb & Fc) Hwf Hn. rewrite !wf_app in Hwf.
  destruct Hwf as (Wa & (Wb & Wc & Hbc) & Hab).
  destruct (hull_bounds b n Wb Hn) as (Hv & Hlo & Hhi). rewrite Forall_forall in Fa, Fc.
  rewrite !wf_app, wf_single. split_and!; [done..| |].
  - intros x y ->%list_elem_of_singleton Hy. unfold apart.
    destruct Hhi as [->|(z & Hz & ->)]; [by apply Fc|by apply Hbc].
  - intros x y Hx [->%list_elem_of_singleton|Hy]%elem_of_app.
    + unfold apart. specialize (Fa _ Hx). destruct Hlo as [->|(z & Hz & ->)]; [lia|].
      apply Hab; set_solver.
    + apply Hab; set_solver.
Qed.

Lemma splits_covers ins n a b c t :
  splits ins n a b c -> wf ins -> valid n ->
  covers (a ++ [hull b n] ++ c) t <-> covers ins t \/ InBounds n t = true.
Proof.
  intros (-> & Fa & Fb & Fc) Hwf Hn. rewrite !wf_app in Hwf.
  rewrite !covers_app, covers_single, hull_covers by tauto. tauto.
Qed.

(** The calls that make Add index past the slice. *)
Definition add_panics (ins : list Interval) (n : Interval) : Prop :=
  Maxt n = MaxInt64 /\
  (exists x rest, ins = x :: rest /\ Maxt x + 1 < Mint n) /\
  (exists x, x ∈ ins /\ Mint n <= Maxt x + 1).

Lemma splits_panics ins n a b c :
  splits ins n a b c -> Forall valid ins -> valid n ->
  (Maxt n =? MaxInt64) && negb (length a =? 0)%nat && negb (length b =? 0)%nat = true
    <-> add_panics ins n.
Proof.
  intros Hsp Hval Hn. pose proof (maxt_split Hsp Hval) as Hc. destruct Hsp as (-> & Fa & Fb & Fc).
  unfold add_panics. rewrite !andb_true_iff, !negb_true_iff, Z.eqb_eq, !Nat.eqb_neq.
  rewrite Forall_forall in Fa, Fb. split.
  - intros [[E Ha] Hb]. split_and!; [done| |].
    + destruct a as [|x a]; [done|]. exists x, (a ++ b ++ c). split; [done|].
      specialize (Fa x ltac:(set_solver)). lia.
    + destruct b as [|x b]; [done|]. exists x. split; [set_solver|].
      specialize (Fb x ltac:(set_solver)). lia.
  - intros (E & (x & rest & Heq & Hx) & (y & Hy & Hyn)). rewrite (Hc E) in *. split_and!; [done| |].
    + destruct a as [|x' a]; [|done]. destruct b as [|x' b]; [done|]. simpl in Heq.
      injection Heq as -> _. specialize (Fb x ltac:(set_solver)). lia.
    + destruct b as [|x' b]; [|done]. rewrite app_nil_r in Hy. specialize (Fa y Hy). lia.
Qed.

(** ** MemTombstones: invariant and lemmas *)

(** Every group is a non-empty well-formed slice under a uint64 reference. *)
Definition stones_wf (t : MemTombstones) : Prop :=
  map_Forall (fun ref ivs => is_u64 ref /\ ivs <> [] /\ wf ivs) t.

(** Appending in order never merges. *)
Lemma Intervals_Add_append pre iv : wf (pre ++ [iv]) -> Intervals_Add pre iv = Some (pre ++ [iv]).
Proof.
  rewrite wf_app, wf_single. intros ([Hval Hs] & Hiv & Hap).
  assert (splits pre iv pre [] []) as Hsp.
  { split_and!; [by rewrite !app_nil_r| |constructor..]. apply Forall_forall. intros x Hx.
    specialize (Hap x iv Hx (list_elem_of_here _ _)). unfold apart in Hap. lia. }
  rewrite (Intervals_Add_split Hsp Hval Hiv). by rewrite andb_false_r.
Qed.

Lemma AddInterval_extend ref suf : forall pre (t : MemTombstones),
  wf (pre ++ suf) ->
  AddInterval ref suf (<[ref := pre]> t) = Some (<[ref := pre ++ suf]> t).
Proof.
  induction suf as [|iv suf IH]; intros pre t Hwf; cbn [AddInterval].
  - by rewrite app_nil_r.
  - unfold MemTombstones_Get. rewrite lookup_insert_eq. cbn [from_option]. unfold id.
    rewrite cons_middle, app_assoc in Hwf.
    rewrite Intervals_Add_append by (apply wf_app in Hwf; tauto).
    rewrite insert_insert_eq, IH by done. by rewrite <-app_assoc.
Qed.

Lemma AddInterval_new ref ivs (t : MemTombstones) :
  wf ivs -> ivs <> [] -> t !! ref = None -> AddInterval ref ivs t = Some (<[ref := ivs]> t).
Proof.
  intros Hwf Hne Hnew. destruct ivs as [|iv ivs]; [done|]. cbn [AddInterval].
  unfold MemTombstones_Get. rewrite Hnew. cbn. by rewrite (AddInterval_extend ref ivs [iv]).
Qed.

Lemma AddInterval_cons ref iv ivs t :
  AddInterval ref (iv :: ivs) t = AddInterval ref [iv] t ≫= AddInterval ref ivs.
Proof. cbn [AddInterval]. by destruct (Intervals_Add _ _). Qed.

(** ** Encoding and decoding *)

Definition interval_bytes (ref : Z) (iv : Interval) : list Z :=
  PutUvarint ref ++ PutVarint (Mint iv) ++ PutVarint (Maxt iv).

Definition group_bytes (g : Z * list Interval) : list Z := concat (map (interval_bytes g.1) g.2).

Lemma put_interval_bytes ref ivs buf :
  foldl (put_interval ref) buf ivs = buf ++ concat (map (interval_bytes ref) ivs).
Proof.
  revert buf. induction ivs as [|iv ivs IH]; intros buf; cbn [foldl map concat].
  - by rewrite app_nil_r.
  - rewrite IH. unfold put_interval, PutVarint64, PutUvarint64, interval_bytes. by rewrite <-!app_assoc.
Qed.

Lemma Encode_bytes visited : Encode visited = tombstoneFormatV1 :: concat (map group_bytes visited).
Proof.
  unfold Encode, PutByte. cbn [app]. change (tombstoneFormatV1 :: concat (map group_bytes visited))
    with ([tombstoneFormatV1] ++ concat (map group_bytes visited)).
  generalize [tombstoneFormatV1] as buf. induction visited as [|g visited IH]; intros buf;
    cbn [foldl map concat].
  - by rewrite app_nil_r.
  - rewrite IH, put_interval_bytes. unfold group_bytes at 2. by rewrite <-app_assoc.
Qed.

Section DecodingLemmas.
  Context (uvarint : list Z -> Z * Z).

(** Every successful read takes at least one byte. *)
Lemma Uvarint64_length d x d' :
  Uvarint64 uvarint d = (x, d') -> dE d' = None -> dB d <> [] ->
  dE d = None /\ (length (dB d') < length (dB d))%nat.
Proof.
  unfold Uvarint64. destruct (dE d) eqn:E; [congruence|].
  destruct (uvarint (dB d)) as [v n]. case_match eqn:Hn; [by intros [= <- <-]|].
  intros [= <- <-] _ Hne. cbn [dB]. rewrite length_drop. split; [done|].
  destruct (dB d); [done|]. simpl length. lia.
Qed.

Lemma Varint64_length d x d' :
  Varint64 uvarint d = (x, d') -> dE d' = None -> dE d = None /\ (length (dB d') <= length (dB d))%nat.
Proof.
  unfold Varint64. destruct (dE d) eqn:E; [congruence|].
  destruct (uvarint (dB d)) as [v n]. case_match eqn:Hn; [by intros [= <- <-]|].
  intros [= <- <-] _. cbn [dB]. rewrite length_drop. split; [done|lia].
Qed.

(** The fuel of the decoding loop is enough: more of it changes nothing. *)
Lemma decode_loop_enough f1 f2 d t :
  (length (dB d) <= f1)%nat -> (length (dB d) <= f2)%nat ->
  decode_loop uvarint f1 d t = decode_loop uvarint f2 d t.
Proof.
  revert f2 d t. induction f1 as [|f1 IH]; intros [|f2] d t H1 H2; cbn [decode_loop].
  1-3: destruct (Nat.eqb_spec (length (dB d)) 0); [done|lia].
  destruct (Nat.eqb_spec (length (dB d)) 0) as [|Hne]; [done|].
  destruct (Uvarint64 uvarint d) as [k d1] eqn:E1.
  destruct (Varint64 uvarint d1) as [mint d2] eqn:E2.
  destruct (Varint64 uvarint d2) as [maxt d3] eqn:E3.
  destruct (dE d3) eqn:Ed; [done|].
  destruct (Varint64_length _ _ _ E3 Ed) as [Ed2 L3].
  destruct (Varint64_length _ _ _ E2 Ed2) as [Ed1 L2].
  destruct (Uvarint64_length _ _ _ E1 Ed1) as [_ L1]; [intros E; by rewrite E in Hne|].
  case_match; [|done]. apply IH; lia.
Qed.

Context `{!UvarintSpec uvarint}.

Lemma decode_interval fuel ref iv rest t :
  is_u64 ref -> valid iv -> (length (interval_bytes ref iv ++ rest) <= fuel)%nat ->
  decode_loop uvarint fuel (mk_Decbuf (interval_bytes ref iv ++ rest) None) t =
    match AddInterval ref [iv] t with
    | Some t => decode_loop uvarint fuel (mk_Decbuf rest None) t
    | None => None
    end.
Proof.
  intros Href (Hm & HM & _) Hf. unfold interval_bytes in *. rewrite <-!app_assoc in *.
  pose proof (PutUvarint_length_pos ref) as Hpos. rewrite !length_app in Hf.
  destruct fuel as [|fuel]; [lia|]. cbn [decode_loop dB].
  destruct (Nat.eqb_spec (length (PutUvarint ref ++ PutVarint (Mint iv) ++ PutVarint (Maxt iv) ++ rest)) 0)
    as [E|_]; [rewrite length_app in E; lia|].
  rewrite gets_Uvarint64, !gets_Varint64 by done. cbn [dE]. destruct iv as [m M]. cbn [Mint Maxt] in *.
  destruct (AddInterval ref [mk_Interval m M] t) as [t'|]; [|done].
  change (decode_loop uvarint fuel (mk_Decbuf rest None) t'
    = decode_loop uvarint (S fuel) (mk_Decbuf rest None) t').
  apply decode_loop_enough; cbn [dB]; lia.
Qed.

Lemma decode_group fuel ref ivs rest t :
  is_u64 ref -> Forall valid ivs -> (length (group_bytes (ref, ivs) ++ rest) <= fuel)%nat ->
  decode_loop uvarint fuel (mk_Decbuf (group_bytes (ref, ivs) ++ rest) None) t =
    match AddInterval ref ivs t with
    | Some t => decode_loop uvarint fuel (mk_Decbuf rest None) t
    | None => None
    end.
Proof.
  intros Href Hval. revert t. induction Hval as [|iv ivs Hiv Hval IH]; intros t Hf; [done|].
  unfold group_bytes in *. cbn [map concat fst snd] in *. rewrite <-app_assoc in *.
  rewrite decode_interval by done. rewrite (AddInterval_cons ref iv ivs).
  destruct (AddInterval ref [iv] t) as [t'|]; [|done]. cbn [mbind option_bind].
  apply IH. rewrite !length_app in *. lia.
Qed.

Lemma decode_groups fuel visited t :
  Forall (fun g => is_u64 g.1 /\ g.2 <> [] /\ wf g.2) visited -> NoDup visited.*1 ->
  (forall g, g ∈ visited -> t !! g.1 = None) ->
  (length (concat (map group_bytes visited)) <= fuel)%nat ->
  decode_loop uvarint fuel (mk_Decbuf (concat (map group_bytes visited)) None) t
    = Some (Ok (list_to_map visited ∪ t)).
Proof.
  intros Hwf. revert t. induction Hwf as [|[ref ivs] visited (Href & Hne & Hivs) _ IH];
    intros t Hnd Hnew Hf; cbn [map concat].
  - destruct fuel; cbn [decode_loop dB length Nat.eqb]; by rewrite list_to_map_nil, (left_id_L ∅ (∪)).
  - cbn [fst snd fmap list_fmap] in *. apply NoDup_cons in Hnd as [Hni Hnd].
    rewrite decode_group by (done || apply Hivs || done).
    rewrite AddInterval_new by (done || apply (Hnew (ref, ivs)); set_solver).
    rewrite IH; [| done | |].
    + cbn [list_to_map foldr fst snd]. rewrite <-insert_union_r; [by rewrite insert_union_l|].
      by apply not_elem_of_list_to_map.
    + intros g Hg. rewrite lookup_insert_ne; [apply Hnew; set_solver|].
      intros ->. apply Hni. by apply list_elem_of_fmap_2.
    + cbn [map concat] in Hf. rewrite length_app in Hf. lia.
Qed.

Lemma Decode_Encode t visited :
  stones_wf t -> Iter_order t visited -> Decode uvarint (Encode visited) = Some (Ok t).
Proof.
  intros Ht Hv. unfold Decode. rewrite Encode_bytes.
  cbn [Decbuf_Byte dE dB]. change (negb (tombstoneFormatV1 =? tombstoneFormatV1)) with false. cbn iota.
  rewrite decode_groups; [| | | |done].
  - change NewMemTombstones with (∅ : MemTombstones). rewrite (right_id_L ∅ (∪)). do 2 f_equal. unfold Iter_order in Hv.
    rewrite <-(list_to_map_to_list t). apply list_to_map_proper; [|done].
    rewrite Hv. apply NoDup_fst_map_to_list.
  - rewrite Hv. apply Forall_forall. intros [k ivs] Hin%elem_of_map_to_list. by apply (Ht k).
  - rewrite Hv. apply NoDup_fst_map_to_list.
  - intros. apply lookup_empty.
Qed.

End DecodingLemmas.

(** ** Truncation keeps what ends at or after the limit *)

Lemma truncate_index_split beforeT a b :
  Forall (fun x => Maxt x < beforeT) a -> Forall (fun x => beforeT <= Maxt x) b ->
  truncate_index beforeT (a ++ b) (length (a ++ b)) = length a.
Proof.
  intros Ha Hb. induction b as [|x b IH] using rev_ind.
  - rewrite app_nil_r. destruct a as [|y a] using rev_ind; [done|].
    rewrite length_app, Nat.add_comm. cbn [truncate_index length Nat.add].
    rewrite Forall_app, Forall_singleton in Ha. rewrite lookup_total_app_r, Nat.sub_diag by lia.
    cbn. destruct (Z.ltb_spec (Maxt y) beforeT); [done|lia].
  - rewrite Forall_app, Forall_singleton in Hb. destruct Hb as [Hb Hx].
    rewrite app_assoc, (length_app (a ++ b)), Nat.add_comm. cbn [length Nat.add].
    assert (forall k l', (k <= length l')%nat ->
      truncate_index beforeT (l' ++ [x]) k = truncate_index beforeT l' k) as Hext.
    { intros k l'. induction k as [|k IHk]; intros Hk; cbn [truncate_index]; [done|].
      rewrite lookup_total_app_l, IHk by lia. done. }
    cbn [truncate_index]. rewrite lookup_total_app_r, Nat.sub_diag by lia. cbn [lookup_total list_lookup_total].
    destruct (Z.ltb_spec (Maxt x) beforeT); [lia|]. rewrite Hext by lia. by apply IH.
Qed.

Lemma truncate_group_filter beforeT ivs :
  wf ivs -> default [] (truncate_group beforeT ivs) = filter (fun iv => beforeT <= Maxt iv) ivs.
Proof.
  intros [Hval Hs].
  destruct (StronglySorted_split (fun x => beforeT <=? Maxt x) ivs) as (a & b & -> & Fa & Fb).
  { eapply StronglySorted_weaken; [|exact Hval|exact Hs]. unfold valid, apart. intros; lia. }
  unfold truncate_group. rewrite truncate_index_split by ivs. rewrite drop_app_length, filter_app.
  rewrite (filter_none _ a), (filter_all _ b) by ivs. by destruct b.
Qed.

Lemma truncate_group_Some beforeT ivs rest :
  truncate_group beforeT ivs = Some rest -> rest <> [] /\ exists pre, ivs = pre ++ rest.
Proof.
  unfold truncate_group. case_match eqn:E; [done|]. intros [= <-]. split.
  - intros Hn. by rewrite Hn in E.
  - eexists. symmetry. apply take_drop.
Qed.

Lemma Get_Truncate beforeT t ref :
  stones_wf t ->
  MemTombstones_Get (TruncateBefore beforeT t) ref
    = filter (fun iv => beforeT <= Maxt iv) (MemTombstones_Get t ref).
Proof.
  intros Ht. unfold MemTombstones_Get, TruncateBefore. rewrite lookup_omap.
  destruct (t !! ref) as [ivs|] eqn:E; [|done]. apply truncate_group_filter.
  by destruct (Ht _ _ E) as (_ & _ & ?).
Qed.

Lemma lookup_delete_all refs (t : MemTombstones) ref :
  foldr delete t refs !! ref = if decide (ref ∈ refs) then None else t !! ref.
Proof.
  induction refs as [|r refs IH]; cbn [foldr]; [case_decide; [set_solver|done]|].
  destruct (decide (r = ref)) as [->|Hne].
  - rewrite lookup_delete_eq. by rewrite decide_True by set_solver.
  - rewrite lookup_delete_ne, IH by done. destruct (decide (ref ∈ refs)).
    + by rewrite decide_True by set_solver.
    + by rewrite decide_False by set_solver.
Qed.

(** Proves that a concrete slice is well-formed. *)
Ltac wf_solve :=
  split; [|repeat constructor; unfold apart; simpl; lia];
  repeat (apply Forall_cons_2 || apply Forall_nil_2);
  unfold valid, is_i64, MinInt64, MaxInt64; simpl; lia.

(** ** Main theorems *)

(** C9: Add inserts a range.  For every well-formed slice (valid, increasing,
    non-adjacent intervals) and every valid new range, except the calls
    [add_panics] describes, Add returns a well-formed slice that covers exactly
    the timestamps covered before or by the new range. *)
Theorem Intervals_Add_union ins n :
  wf ins -> valid n -> ~ add_panics ins n ->
  exists out, Intervals_Add ins n = Some out /\ wf out /\
    forall t, covers out t <-> covers ins t \/ InBounds n t = true.
Proof.
  intros Hwf Hn Hnp. destruct (splits_exists ins n Hwf Hn) as (a & b & c & Hsp).
  exists (a ++ [hull b n] ++ c). split_and!.
  - rewrite (Intervals_Add_split Hsp (proj1 Hwf) Hn).
    destruct (_ && _ && _) eqn:E; [|done]. by apply (splits_panics _ _ _ _ _ Hsp (proj1 Hwf) Hn) in E.
  - by eapply splits_wf.
  - intros t. by eapply splits_covers.
Qed.

Lemma Intervals_Add_union_witness :
  exists out, Intervals_Add [mk_Interval 1 3; mk_Interval 10 20] (mk_Interval 4 12) = Some out /\ wf out /\
    forall t, covers out t <->
      covers [mk_Interval 1 3; mk_Interval 10 20] t \/ InBounds (mk_Interval 4 12) t = true.
Proof.
  apply (Intervals_Add_union [mk_Interval 1 3; mk_Interval 10 20] (mk_Interval 4 12)).
  - wf_solve.
  - unfold valid, is_i64, MinInt64, MaxInt64. simpl. lia.
  - by intros [? _].
Defined.

(** Exactly when Add panics.  On a well-formed slice, Add indexes past the
    end exactly when the new range is open to the right (Maxt is the largest
    int64), starts after the first interval has ended (and is not adjacent to
    it), and touches some later interval. *)
Theorem Intervals_Add_panics_iff ins n :
  wf ins -> valid n -> Intervals_Add ins n = None <-> add_panics ins n.
Proof.
  intros Hwf Hn. destruct (splits_exists ins n Hwf Hn) as (a & b & c & Hsp).
  rewrite (Intervals_Add_split Hsp (proj1 Hwf) Hn), <-(splits_panics _ _ _ _ _ Hsp (proj1 Hwf) Hn).
  by destruct (_ && _ && _).
Qed.

Lemma Intervals_Add_panics_iff_witness :
  Intervals_Add [mk_Interval 1 2; mk_Interval 10 20] (mk_Interval 15 MaxInt64) = None
    <-> add_panics [mk_Interval 1 2; mk_Interval 10 20] (mk_Interval 15 MaxInt64).
Proof.
  apply (Intervals_Add_panics_iff [mk_Interval 1 2; mk_Interval 10 20] (mk_Interval 15 MaxInt64)).
  - wf_solve.
  - unfold valid, is_i64, MinInt64, MaxInt64. simpl. lia.
Defined.

(** The tombstones file round trip.  Whatever order Iter visits the map in,
    ReadTombstones of the bytes WriteFile writes (magic number, format byte,
    varint triples, CRC) returns exactly the same tombstones, and the
    file size; and the same file with any other checksum is rejected. *)
Theorem tombstones_file_roundtrip (uvarint : list Z -> Z * Z) t visited sum :
  UvarintSpec uvarint -> stones_wf t -> Iter_order t visited -> length sum = 4%nat ->
  ReadTombstones uvarint (Some (WriteFile visited))
    = Some (Ok (t, Z.of_nat (length (WriteFile visited)))) /\
  (be_uint sum <> crc32_Checksum (drop tombstoneFormatVersionSize (Encode visited)) ->
   ReadTombstones uvarint (Some (PutBE32 MagicTombstone [] ++ Encode visited ++ sum))
     = Some (Err ErrInvalidChecksum)).
Proof.
  intros Hu Ht Hv Hsum.
  assert (Hread : forall s, length s = 4%nat ->
    ReadTombstones uvarint (Some (PutBE32 MagicTombstone [] ++ Encode visited ++ s)) =
      if be_uint s =? crc32_Checksum (drop tombstoneFormatVersionSize (Encode visited))
      then Some (Ok (t, Z.of_nat (length (PutBE32 MagicTombstone [] ++ Encode visited ++ s))))
      else Some (Err ErrInvalidChecksum)).
  { intros s Hs. unfold ReadTombstones. set (b := PutBE32 MagicTombstone [] ++ Encode visited ++ s).
    assert (Hb : length b = (4 + length (Encode visited) + 4)%nat).
    { unfold b. rewrite !length_app, Hs. change (length (PutBE32 MagicTombstone [])) with 4%nat. lia. }
    rewrite Hb. unfold tombstonesCRCSize, tombstonesHeaderSize.
    destruct (Nat.ltb_spec (4 + length (Encode visited) + 4) 5); [lia|]. rewrite Nat.add_sub.
    unfold b at 1 2. rewrite app_assoc, take_app_length', drop_app_length'
      by (rewrite length_app; done).
    rewrite (gets_Be32 MagicTombstone) by (unfold is_u32, MagicTombstone; lia).
    rewrite Z.eqb_refl. cbn [negb dB dE].
    rewrite (Encode_bytes visited) at 1. cbn [length Nat.ltb Nat.leb tombstoneFormatVersionSize].
    destruct (_ =? _); [|done]. cbn [negb]. by rewrite (Decode_Encode uvarint t). }
  split.
  - unfold WriteFile. rewrite Hread by apply length_be_bytes. rewrite be_uint_be_bytes.
    change (8 * Z.of_nat 4) with 32. rewrite Z.mod_small by apply crc32_range. by rewrite Z.eqb_refl.
  - intros Hne. rewrite Hread by done. by destruct (Z.eqb_spec (be_uint sum)
      (crc32_Checksum (drop tombstoneFormatVersionSize (Encode visited)))).
Qed.

Lemma tombstones_file_roundtrip_witness :
  let visited := [(7, [mk_Interval (-5) 3; mk_Interval 10 MaxInt64]); (2, [mk_Interval 0 0])] in
  ReadTombstones std_Uvarint (Some (WriteFile visited))
    = Some (Ok (list_to_map visited, Z.of_nat (length (WriteFile visited)))) /\
  (be_uint [0; 0; 0; 0] <> crc32_Checksum (drop tombstoneFormatVersionSize (Encode visited)) ->
   ReadTombstones std_Uvarint (Some (PutBE32 MagicTombstone [] ++ Encode visited ++ [0; 0; 0; 0]))
     = Some (Err ErrInvalidChecksum)).
Proof.
  apply (tombstones_file_roundtrip std_Uvarint).
  - apply _.
  - intros k ivs. cbn [list_to_map foldr fst snd]. rewrite !lookup_insert_Some, lookup_empty.
    intros [[<- <-]|[_ [[<- <-]|[_ [=]]]]]; (split; [unfold is_u64; lia|split; [done|wf_solve]]).
  - unfold Iter_order. symmetry. apply map_to_list_to_map. cbn.
    apply NoDup_cons. split; [set_solver|]. apply NoDup_singleton.
  - reflexivity.
Defined.

(** A tombstones file cut after its magic number makes ReadTombstones
    panic.  The header check only asks for five bytes, so an eight-byte file
    (magic number and checksum) reaches the slice expression that skips the
    format byte of an empty buffer. *)
Theorem ReadTombstones_short_file_panics (uvarint : list Z -> Z * Z) sum :
  length sum = 4%nat -> ReadTombstones uvarint (Some (PutBE32 MagicTombstone [] ++ sum)) = None.
Proof. intros Hs. do 4 (destruct sum as [|? sum]; [done|]). by destruct sum. Qed.

Lemma ReadTombstones_short_file_panics_witness :
  ReadTombstones std_Uvarint (Some (PutBE32 MagicTombstone [] ++ [0; 0; 0; 0])) = None.
Proof. apply (ReadTombstones_short_file_panics std_Uvarint [0; 0; 0; 0]). reflexivity. Defined.

(** The abstract contents: which timestamps of which series are deleted. *)
Definition deleted (t : MemTombstones) (ref s : Z) : Prop := covers (MemTombstones_Get t ref) s.

(** MemTombstones implements a set of deleted (series, timestamp) pairs.
    AddInterval with a finite range adds exactly the range of that series,
    DeleteTombstones removes exactly the named series, TruncateBefore forgets
    only pairs whose interval ended before the limit (so nothing at or after
    it), and all three keep every group sorted, disjoint and non-empty. *)
Theorem MemTombstones_refines t ref iv refs beforeT :
  stones_wf t -> is_u64 ref -> valid iv -> Maxt iv < MaxInt64 ->
  (exists t', AddInterval ref [iv] t = Some t' /\ stones_wf t' /\
     forall r s, deleted t' r s <-> deleted t r s \/ (r = ref /\ InBounds iv s = true)) /\
  (stones_wf (DeleteTombstones refs t) /\
     forall r s, deleted (DeleteTombstones refs t) r s <-> deleted t r s /\ r ∉ refs) /\
  (stones_wf (TruncateBefore beforeT t) /\
     forall r s, deleted (TruncateBefore beforeT t) r s <->
       exists x, x ∈ MemTombstones_Get t r /\ InBounds x s = true /\ beforeT <= Maxt x).
Proof.
  intros Ht Href Hiv Hmax. split_and!.
  - assert (Hwf : wf (MemTombstones_Get t ref)).
    { unfold MemTombstones_Get. destruct (t !! ref) eqn:E; [by apply (Ht _ _ E)|apply wf_nil]. }
    destruct (splits_exists _ _ Hwf Hiv) as (a & b & c & Hsp).
    pose proof (Intervals_Add_split Hsp (proj1 Hwf) Hiv) as Hadd.
    rewrite (proj2 (Z.eqb_neq _ _)) in Hadd by lia. cbn [andb] in Hadd.
    cbn [AddInterval]. rewrite Hadd. eexists. split_and!; [done| |].
    + apply map_Forall_insert_2; [|done]. split_and!; [done| |by eapply splits_wf].
      by destruct a.
    + intros r s. unfold deleted, MemTombstones_Get. destruct (decide (r = ref)) as [->|Hne].
      * rewrite lookup_insert_eq. cbn [from_option]. unfold id.
        rewrite (splits_covers _ _ _ _ _ s Hsp Hwf Hiv). unfold MemTombstones_Get. tauto.
      * rewrite lookup_insert_ne by done. tauto.
  - intros k ivs. unfold DeleteTombstones. rewrite lookup_delete_all. case_decide; [done|]. apply Ht.
  - intros r s. unfold deleted, MemTombstones_Get, DeleteTombstones. rewrite lookup_delete_all.
    case_decide; [|tauto]. pose proof (covers_nil s). cbn. tauto.
  - intros k rest. unfold TruncateBefore. rewrite lookup_omap_Some.
    intros (ivs & E & Hg). destruct (Ht _ _ Hg) as (Hk & _ & Hwf).
    apply truncate_group_Some in E as (Hne & pre & ->). apply wf_app in Hwf. tauto.
  - intros r s. unfold deleted. rewrite Get_Truncate by done. unfold covers.
    rewrite Exists_exists. setoid_rewrite list_elem_of_filter. naive_solver.
Qed.

Lemma MemTombstones_refines_witness :
  let t : MemTombstones := <[5 := [mk_Interval 1 3]]> ∅ in
  (exists t', AddInterval 5 [mk_Interval 4 9] t = Some t' /\ stones_wf t' /\
     forall r s, deleted t' r s <-> deleted t r s \/ (r = 5 /\ InBounds (mk_Interval 4 9) s = true)) /\
  (stones_wf (DeleteTombstones [5] t) /\
     forall r s, deleted (DeleteTombstones [5] t) r s <-> deleted t r s /\ r ∉ [5]) /\
  (stones_wf (TruncateBefore 2 t) /\
     forall r s, deleted (TruncateBefore 2 t) r s <->
       exists x, x ∈ MemTombstones_Get t r /\ InBounds x s = true /\ 2 <= Maxt x).
Proof.
  apply (MemTombstones_refines _ 5 (mk_Interval 4 9) [5] 2).
  - apply map_Forall_insert_2; [|apply map_Forall_empty]. split_and!; [unfold is_u64; lia|done|wf_solve].
  - unfold is_u64. lia.
  - unfold valid, is_i64, MinInt64, MaxInt64. simpl. lia.
  - unfold MaxInt64. simpl. lia.
Defined.
