(* ===== verification/TxRing.v ===== *)
(** tsdb/isolation.go (txRing) and tsdb/head_read.go (memSeries.iterator): the
    ring of append IDs a series keeps for its newest samples, and how many
    samples of a chunk a read may see.

    The ring refines a queue: add enqueues, cleanupAppendIDsBelow dequeues.
    memSeries.iterator walks the ring from its oldest ID and cuts the chunk at
    the first sample whose append the read must not see. *)
From S2P Require Import Prelude.

Record txRing := mk_txRing { txIDs : list Z; txIDFirst : Z; txIDCount : Z }.

Definition newTxRing (capacity : nat) : txRing := mk_txRing (replicate capacity 0) 0 0.

(** [copy(newRing, a); copy(newRing[idx:], b)] into [n] zeros. *)
Definition copy_into (n : nat) (a b : list Z) : list Z :=
  let l := take n (a ++ b) in l ++ replicate (n - length l) 0.

Definition expand (txr : txRing) : txRing :=
  let newLen := u32 (txIDCount txr * 2) in
  let newLen := if newLen =? 0 then 4 else newLen in
  let k := Z.to_nat (txIDFirst txr) in
  mk_txRing (copy_into (Z.to_nat newLen) (drop k (txIDs txr)) (take k (txIDs txr))) 0 (txIDCount txr).

Definition txRing_add (txr : txRing) (appendID : Z) : txRing :=
  let txr := if txIDCount txr =? Z.of_nat (length (txIDs txr)) then expand txr else txr in
  let pos := u32 (txIDFirst txr + txIDCount txr) mod Z.of_nat (length (txIDs txr)) in
  mk_txRing (<[Z.to_nat pos := appendID]> (txIDs txr)) (txIDFirst txr) (u32 (txIDCount txr + 1)).

(** One turn of the loop lowers txIDCount, so txIDCount turns are enough. *)
Fixpoint cleanup_loop (fuel : nat) (bound : Z) (txr : txRing) (pos : Z) : txRing :=
  match fuel with
  | O => txr
  | S fuel' =>
      if 0 <? txIDCount txr then
        if bound <=? txIDs txr !!! Z.to_nat pos then txr
        else
          let txr := mk_txRing (txIDs txr) (u32 (txIDFirst txr + 1)) (u32 (txIDCount txr - 1)) in
          let pos := pos + 1 in
          let pos := if pos =? Z.of_nat (length (txIDs txr)) then 0 else pos in
          cleanup_loop fuel' bound txr pos
      else txr
  end.

Definition cleanupAppendIDsBelow (txr : txRing) (bound : Z) : txRing :=
  if (length (txIDs txr) =? 0)%nat then txr
  else
    let txr := cleanup_loop (Z.to_nat (txIDCount txr)) bound txr (txIDFirst txr) in
    mk_txRing (txIDs txr) (txIDFirst txr mod u32 (Z.of_nat (length (txIDs txr)))) (txIDCount txr).

Record txRingIterator := mk_txRingIterator { it_ids : list Z; it_pos : Z }.

Definition txRing_iterator (txr : txRing) : txRingIterator :=
  mk_txRingIterator (txIDs txr) (txIDFirst txr).

(** [None] is the run-time panic of an index out of range. *)
Definition txRingIterator_At (it : txRingIterator) : option Z := it_ids it !! Z.to_nat (it_pos it).

Definition txRingIterator_Next (it : txRingIterator) : txRingIterator :=
  let pos := u32 (it_pos it + 1) in
  mk_txRingIterator (it_ids it) (if pos =? Z.of_nat (length (it_ids it)) then 0 else pos).

(** head.go: hasAppendIDAbove on the ring of a series, [fuel] being txIDCount. *)
Fixpoint append_above_loop (fuel : nat) (watermark : Z) (it : txRingIterator) : option bool :=
  match fuel with
  | O => Some false
  | S fuel' =>
      match txRingIterator_At it with
      | None => None
      | Some id =>
          if watermark <? id then Some true
          else append_above_loop fuel' watermark (txRingIterator_Next it)
      end
  end.

Definition hasAppendIDAbove (txs : option txRing) (watermark : Z) : option bool :=
  match txs with
  | None => Some false
  | Some txs => append_above_loop (Z.to_nat (txIDCount txs)) watermark (txRing_iterator txs)
  end.

(** ** memSeries.iterator *)

(** What the function reads of a memSeries: the sample counts of the m-mapped
    chunks, oldest first, of the head chunks in list order, newest first, the
    counter of the head chunks and the ring; and of an isolationState. *)
Record memSeries := mk_memSeries {
  mmapped_counts : list Z;
  head_counts : list Z;
  headChunkCount : Z;
  s_txs : txRing }.

Record isoView := mk_isoView { maxAppendID : Z; incompleteAppends : list Z }.

(** [appendID <= maxAppendID && appendID not in incompleteAppends]. *)
Definition visible (v : isoView) (appendID : Z) : bool :=
  (appendID <=? maxAppendID v) && negb (bool_decide (appendID ∈ incompleteAppends v)).

(** The two counting loops: [(totalSamples, previousSamples)]. *)
Fixpoint count_mmapped (j ix : Z) (counts : list Z) (acc : Z * Z) : Z * Z :=
  match counts with
  | [] => acc
  | d :: rest =>
      count_mmapped (j + 1) ix rest (acc.1 + d, if j <? ix then acc.2 + d else acc.2)
  end.

Fixpoint count_head (j ix : Z) (counts : list Z) (acc : Z * Z) : Z * Z :=
  match counts with
  | [] => acc
  | c :: rest =>
      count_head (j - 1) ix rest (acc.1 + c, if j <? ix then acc.2 + c else acc.2)
  end.

(** [for index := range appendIDsToConsider { ... }]. *)
Fixpoint stop_loop (n : nat) (index : Z) (v : isoView) (numSamples consider : Z) (it : txRingIterator)
  : option Z :=
  match n with
  | O => Some numSamples
  | S n' =>
      match txRingIterator_At it with
      | None => None
      | Some appendID =>
          if visible v appendID then
            stop_loop n' (index + 1) v numSamples consider (txRingIterator_Next it)
          else Some (Z.max (numSamples - (consider - index)) 0)
      end
  end.

(** The stopAfter that memSeries.iterator computes for the chunk at position
    [ix] (the wrapped difference of chunk IDs) with [numSamples] samples;
    [v] is [None] without an isolation state or with isolation disabled. *)
Definition stopAfter (s : memSeries) (ix numSamples : Z) (v : option isoView) : option Z :=
  match v with
  | None => Some numSamples
  | Some v =>
      let acc := count_mmapped 0 ix (mmapped_counts s) (0, 0) in
      let '(totalSamples, previousSamples) :=
        count_head (headChunkCount s - 1)
          (ix - Z.of_nat (length (mmapped_counts s))) (head_counts s) acc in
      let consider := txIDCount (s_txs s) - (totalSamples - (previousSamples + numSamples)) in
      stop_loop (Z.to_nat consider) 0 v numSamples consider (txRing_iterator (s_txs s))
  end.

(** stopIterator: at most stopAfter values of the wrapped iterator, here over
    the list of values it would return. *)
Fixpoint stop_drain (i stop : Z) (values : list Z) : list Z :=
  match values with
  | [] => []
  | x :: rest => if stop <=? i + 1 then [] else x :: stop_drain (i + 1) stop rest
  end.

Definition iterator_values (stop numSamples : Z) (values : list Z) : list Z :=
  if stop =? 0 then []
  else if stop =? numSamples then values
  else stop_drain (-1) stop values.

(** ** The ring as a queue *)

(** The [n] IDs from position [pos] of a ring. *)
Definition ring_list (ids : list Z) (pos n : nat) : list Z :=
  map (fun i => ids !!! ((pos + i) mod length ids)%nat) (seq 0 n).

Definition contents (txr : txRing) : list Z :=
  ring_list (txIDs txr) (Z.to_nat (txIDFirst txr)) (Z.to_nat (txIDCount txr)).

Definition ring_wf (txr : txRing) : Prop :=
  0 <= txIDFirst txr /\
  (0 <= txIDCount txr <= Z.of_nat (length (txIDs txr)) /\ Z.of_nat (length (txIDs txr)) < 2 ^ 31) /\
  (txIDFirst txr < Z.of_nat (length (txIDs txr)) \/ txIDFirst txr = 0).

(** The queue operation cleanupAppendIDsBelow implements. *)
Fixpoint drop_below (bound : Z) (l : list Z) : list Z :=
  match l with
  | [] => []
  | x :: l' => if bound <=? x then l else drop_below bound l'
  end.

Lemma length_ring_list ids pos n : length (ring_list ids pos n) = n.
Proof. unfold ring_list. by rewrite length_map, length_seq. Qed.

Lemma ring_list_snoc ids pos n :
  ring_list ids pos (S n) = ring_list ids pos n ++ [ids !!! ((pos + n) mod length ids)%nat].
Proof. unfold ring_list. by rewrite seq_S, map_app. Qed.

Lemma ring_list_cons ids pos n :
  ring_list ids pos (S n) = ids !!! (pos mod length ids)%nat :: ring_list ids (S pos) n.
Proof.
  unfold ring_list. cbn [seq map]. rewrite Nat.add_0_r. f_equal.
  rewrite <-seq_shift, map_map. apply map_ext. intros i. by rewrite Nat.add_succ_comm.
Qed.

Lemma ring_list_mod ids pos n :
  ids <> [] -> ring_list ids (pos mod length ids) n = ring_list ids pos n.
Proof.
  intros Hne. assert (length ids <> 0%nat) by (by destruct ids).
  apply map_ext. intros i. by rewrite Nat.Div0.add_mod_idemp_l.
Qed.

Lemma ring_list_insert ids pos n x k :
  (forall i, (i < n)%nat -> ((pos + i) mod length ids)%nat <> k) ->
  ring_list (<[k := x]> ids) pos n = ring_list ids pos n.
Proof.
  intros Hk. apply map_ext_in. intros i Hi%in_seq. rewrite length_insert.
  rewrite !list_lookup_total_alt, list_lookup_insert_ne; [done|]. symmetry. apply Hk. lia.
Qed.

(** Positions of different offsets in a ring differ. *)
Lemma ring_positions_ne L pos i j : (i < j)%nat -> (j < i + L)%nat -> ((pos + i) mod L <> (pos + j) mod L)%nat.
Proof.
  intros Hij Hj E. assert (HL : L <> 0%nat) by lia.
  pose proof (Nat.div_mod_eq (pos + i) L). pose proof (Nat.div_mod_eq (pos + j) L).
  assert (exists q, (j = i + L * q)%nat) as [q Hq].
  { exists ((pos + j) / L - (pos + i) / L)%nat.
    assert ((pos + i) / L <= (pos + j) / L)%nat by (apply Nat.Div0.div_le_mono; lia). nia. }
  destruct q; nia.
Qed.

Lemma ring_wf_u32 txr : ring_wf txr ->
  u32 (txIDFirst txr + txIDCount txr) = txIDFirst txr + txIDCount txr /\
  u32 (txIDCount txr + 1) = txIDCount txr + 1 /\ u32 (txIDCount txr * 2) = txIDCount txr * 2.
Proof.
  intros (H1 & H2 & H3). split_and!; apply u32_id; unfold is_u32; lia.
Qed.

Lemma add_not_full txr x :
  ring_wf txr -> txIDCount txr < Z.of_nat (length (txIDs txr)) ->
  let pos := u32 (txIDFirst txr + txIDCount txr) mod Z.of_nat (length (txIDs txr)) in
  let txr' := mk_txRing (<[Z.to_nat pos := x]> (txIDs txr)) (txIDFirst txr) (u32 (txIDCount txr + 1)) in
  ring_wf txr' /\ contents txr' = contents txr ++ [x].
Proof.
  intros Hwf Hlt pos txr'. destruct (ring_wf_u32 txr Hwf) as (E1 & E2 & _). destruct Hwf as (H1 & H2 & H3).
  unfold ring_wf, txr', contents. cbn [txIDs txIDFirst txIDCount]. rewrite length_insert, E2.
  split; [lia|]. assert (Hpos : Z.to_nat pos =
    ((Z.to_nat (txIDFirst txr) + Z.to_nat (txIDCount txr)) mod length (txIDs txr))%nat).
  { unfold pos. rewrite E1, Z2Nat.inj_mod, Z2Nat.inj_add, Nat2Z.id by lia. done. }
  rewrite Hpos. clear pos txr' Hpos E1 E2.
  replace (Z.to_nat (txIDCount txr + 1)) with (S (Z.to_nat (txIDCount txr))) by lia.
  rewrite ring_list_snoc, ring_list_insert.
  - f_equal. rewrite length_insert, list_lookup_total_insert_eq; [done|].
    apply Nat.mod_upper_bound. lia.
  - intros i Hi. apply ring_positions_ne; lia.
Qed.

Lemma expand_full txr :
  ring_wf txr -> txIDCount txr = Z.of_nat (length (txIDs txr)) -> txIDCount txr < 2 ^ 29 ->
  ring_wf (expand txr) /\ contents (expand txr) = contents txr /\
  txIDCount (expand txr) < Z.of_nat (length (txIDs (expand txr))).
Proof.
  intros Hwf Hfull Hsmall. destruct (ring_wf_u32 txr Hwf) as (_ & _ & E3). destruct Hwf as (H1 & H2 & H3).
  set (k := Z.to_nat (txIDFirst txr)). set (n := Z.to_nat (txIDCount txr)).
  assert (Hn : n = length (txIDs txr)) by lia.
  set (m := Z.to_nat (if u32 (txIDCount txr * 2) =? 0 then 4 else u32 (txIDCount txr * 2))).
  assert (Hm : (n < m)%nat /\ Z.of_nat m < 2 ^ 31).
  { unfold m. rewrite E3. destruct (Z.eqb_spec (txIDCount txr * 2) 0); lia. }
  assert (Hids : txIDs (expand txr) = (drop k (txIDs txr) ++ take k (txIDs txr)) ++ replicate (m - n) 0).
  { unfold expand, copy_into. cbn [txIDs]. fold k. fold m. rewrite take_ge.
    - rewrite length_app, length_drop, length_take. f_equal. f_equal. lia.
    - rewrite length_app, length_drop, length_take. lia. }
  assert (Hlen : length (txIDs (expand txr)) = m).
  { rewrite Hids, !length_app, length_drop, length_take, length_replicate. lia. }
  split_and!.
  - unfold ring_wf. rewrite Hlen. change (txIDFirst (expand txr)) with 0.
    change (txIDCount (expand txr)) with (txIDCount txr). lia.
  - unfold contents. change (txIDFirst (expand txr)) with 0.
    change (txIDCount (expand txr)) with (txIDCount txr). fold n k.
    apply map_ext_in. intros i Hi%in_seq. rewrite Hlen, Hids, Nat.mod_small by lia.
    change (Z.to_nat 0) with 0%nat. rewrite Nat.add_0_l.
    rewrite lookup_total_app_l by (rewrite length_app, length_drop, length_take; lia).
    rewrite !list_lookup_total_alt. f_equal. destruct (decide (i < n - k)%nat).
    + rewrite lookup_app_l, lookup_drop by (rewrite length_drop; lia). by rewrite Nat.mod_small by lia.
    + rewrite lookup_app_r, length_drop by (rewrite length_drop; lia). rewrite lookup_take_lt by lia.
      f_equal. rewrite <-Hn. replace (k + i)%nat with ((k + i - n) + 1 * n)%nat by lia.
      rewrite Nat.Div0.mod_add, Nat.mod_small by lia. lia.
  - rewrite Hlen. change (txIDCount (expand txr)) with (txIDCount txr). lia.
Qed.

Lemma cleanup_loop_spec fuel bound txr pos :
  txIDs txr <> [] -> Z.of_nat (length (txIDs txr)) < 2 ^ 31 ->
  0 <= txIDFirst txr -> 0 <= txIDCount txr ->
  txIDFirst txr + txIDCount txr < 2 ^ 32 -> (Z.to_nat (txIDCount txr) <= fuel)%nat ->
  pos = txIDFirst txr mod Z.of_nat (length (txIDs txr)) ->
  let r := cleanup_loop fuel bound txr pos in
  txIDs r = txIDs txr /\ 0 <= txIDFirst r /\ 0 <= txIDCount r <= txIDCount txr /\
  contents r = drop_below bound (contents txr).
Proof.
  revert txr pos. induction fuel as [|fuel IH]; intros txr pos Hne HL H1 H2 H3 Hf Hpos; cbn [cleanup_loop].
  { unfold contents. replace (Z.to_nat (txIDCount txr)) with 0%nat by lia. split_and!; done || lia. }
  assert (0 < length (txIDs txr))%nat by (destruct (txIDs txr); simpl; [done|lia]).
  destruct (Z.ltb_spec 0 (txIDCount txr)) as [Hc|Hc].
  2: { unfold contents. replace (Z.to_nat (txIDCount txr)) with 0%nat by lia. split_and!; done || lia. }
  assert (Hcont : contents txr = txIDs txr !!! Z.to_nat pos ::
    ring_list (txIDs txr) (S (Z.to_nat (txIDFirst txr))) (Z.to_nat (txIDCount txr - 1))).
  { unfold contents. replace (Z.to_nat (txIDCount txr)) with (S (Z.to_nat (txIDCount txr - 1))) by lia.
    rewrite ring_list_cons. do 2 f_equal. rewrite Hpos, Z2Nat.inj_mod, Nat2Z.id by lia. done. }
  rewrite Hcont. cbn [drop_below]. destruct (Z.leb_spec bound (txIDs txr !!! Z.to_nat pos)) as [Hb|Hb].
  { split_and!; done || lia. }
  set (txr' := mk_txRing (txIDs txr) (u32 (txIDFirst txr + 1)) (u32 (txIDCount txr - 1))).
  assert (Ef : txIDFirst txr' = txIDFirst txr + 1) by (apply u32_id; unfold is_u32; lia).
  assert (Ec : txIDCount txr' = txIDCount txr - 1) by (apply u32_id; unfold is_u32; lia).
  destruct (IH txr' (if pos + 1 =? Z.of_nat (length (txIDs txr')) then 0 else pos + 1))
    as (R1 & R2 & R3 & R4); try (rewrite ?Ef, ?Ec; done || lia).
  { rewrite Ef. cbn [txIDs txr']. pose proof (Z.mod_pos_bound (txIDFirst txr) (Z.of_nat (length (txIDs txr)))).
    rewrite <-Zplus_mod_idemp_l, <-Hpos. destruct (Z.eqb_spec (pos + 1) (Z.of_nat (length (txIDs txr)))) as [->|].
    - by rewrite Z.mod_same by lia.
    - by rewrite Z.mod_small by lia. }
  rewrite Ec in R3. split_and!; [exact R1|exact R2|apply R3|lia|]. rewrite R4. unfold contents. rewrite Ef, Ec. cbn [txIDs txr'].
  do 2 f_equal; lia.
Qed.

(** ** Iterating over the ring *)

(** The [n] IDs an iterator returns next. *)
Definition iter_ids (it : txRingIterator) (n : nat) : list Z :=
  ring_list (it_ids it) (Z.to_nat (it_pos it)) n.

Definition iter_wf (it : txRingIterator) : Prop :=
  0 <= it_pos it < Z.of_nat (length (it_ids it)) /\ Z.of_nat (length (it_ids it)) < 2 ^ 31.

Lemma iter_step it n :
  iter_wf it ->
  exists x, txRingIterator_At it = Some x /\ iter_wf (txRingIterator_Next it) /\
    iter_ids it (S n) = x :: iter_ids (txRingIterator_Next it) n.
Proof.
  intros [Hp HL]. assert (Z.to_nat (it_pos it) < length (it_ids it))%nat by lia.
  unfold txRingIterator_At, txRingIterator_Next, iter_wf, iter_ids. cbn [it_ids it_pos].
  rewrite (u32_id (it_pos it + 1)) by (unfold is_u32; lia).
  destruct (lookup_lt_is_Some_2 (it_ids it) (Z.to_nat (it_pos it))) as [x Hx]; [done|].
  exists x. rewrite ring_list_cons, Nat.mod_small by done.
  rewrite (list_lookup_total_correct _ _ _ Hx).
  destruct (Z.eqb_spec (it_pos it + 1) (Z.of_nat (length (it_ids it)))) as [E|E].
  - split_and!; [done|lia|lia|done|]. f_equal.
    rewrite <-(ring_list_mod _ (S _)) by (intros E'; rewrite E' in *; simpl in *; lia). f_equal.
    replace (S (Z.to_nat (it_pos it))) with (length (it_ids it)) by lia. by rewrite Nat.Div0.mod_same.
  - split_and!; [done|lia|lia|done|]. do 2 f_equal. lia.
Qed.

Lemma ring_wf_iter txr : ring_wf txr -> 0 < txIDCount txr -> iter_wf (txRing_iterator txr).
Proof. intros (H1 & H2 & H3) Hc. unfold iter_wf. cbn. lia. Qed.

(** How many of the leading IDs the read may see. *)
Fixpoint visible_prefix (v : isoView) (ids : list Z) : nat :=
  match ids with
  | [] => O
  | x :: ids' => if visible v x then S (visible_prefix v ids') else O
  end.

Lemma stop_loop_spec n index v numSamples consider it :
  (n = O \/ iter_wf it) ->
  stop_loop n index v numSamples consider it =
    let k := visible_prefix v (iter_ids it n) in
    Some (if (k =? n)%nat then numSamples
          else Z.max (numSamples - (consider - (index + Z.of_nat k))) 0).
Proof.
  revert index it. induction n as [|n IH]; intros index it Hit; [done|].
  destruct Hit as [|Hit]; [done|]. destruct (iter_step it n Hit) as (x & Ex & Hnext & Eids).
  cbn [stop_loop]. rewrite Ex, Eids. cbn [visible_prefix]. destruct (visible v x).
  - rewrite IH by auto. cbv zeta. cbn [Nat.eqb]. rewrite <-Z.add_assoc. by rewrite Z.add_1_l, <-Nat2Z.inj_succ.
  - cbv zeta. cbn [Nat.eqb]. do 2 f_equal; lia.
Qed.

Lemma visible_prefix_le v ids : (visible_prefix v ids <= length ids)%nat.
Proof. induction ids as [|x ids IH]; simpl; [lia|]. destruct (visible v x); lia. Qed.

Lemma visible_prefix_app_all v a b :
  Forall (fun x => visible v x = true) a ->
  visible_prefix v (a ++ b) = (length a + visible_prefix v b)%nat.
Proof. induction 1 as [|x a Hx _ IH]; simpl; [done|]. by rewrite Hx, IH. Qed.

Lemma visible_prefix_take v n ids :
  visible_prefix v (take n ids) = Nat.min n (visible_prefix v ids).
Proof.
  revert n. induction ids as [|x ids IH]; intros [|n]; simpl; try lia.
  destruct (visible v x); [by rewrite IH|done].
Qed.

Lemma ring_list_take ids pos n m : (n <= m)%nat -> ring_list ids pos n = take n (ring_list ids pos m).
Proof.
  intros Hn. unfold ring_list. rewrite firstn_map. f_equal.
  replace m with (n + (m - n))%nat by lia. rewrite seq_app, take_app_length'; [done|].
  by rewrite length_seq.
Qed.

(** ** Counting samples *)

Definition sumZ (l : list Z) : Z := foldr Z.add 0 l.

Lemma sumZ_app a b : sumZ (a ++ b) = sumZ a + sumZ b.
Proof. induction a; simpl in *; lia. Qed.

Lemma count_mmapped_spec counts : forall j ix acc,
  0 <= j ->
  count_mmapped j ix counts acc =
    (acc.1 + sumZ counts, acc.2 + sumZ (take (Z.to_nat (ix - j)) counts)).
Proof.
  induction counts as [|d counts IH]; intros j ix acc Hj; cbn [count_mmapped].
  { rewrite take_nil. destruct acc. cbn. f_equal; lia. }
  rewrite IH by lia. cbn [fst snd sumZ foldr]. destruct (Z.ltb_spec j ix).
  - replace (Z.to_nat (ix - j)) with (S (Z.to_nat (ix - (j + 1)))) by lia. cbn [take sumZ foldr].
    unfold sumZ. f_equal; lia.
  - replace (Z.to_nat (ix - j)) with 0%nat by lia. replace (Z.to_nat (ix - (j + 1))) with 0%nat by lia.
    cbn. unfold sumZ. f_equal; lia.
Qed.

Lemma count_head_spec counts : forall ix acc,
  count_head (Z.of_nat (length counts) - 1) ix counts acc =
    (acc.1 + sumZ counts, acc.2 + sumZ (take (Z.to_nat ix) (reverse counts))).
Proof.
  induction counts as [|c counts IH]; intros ix acc; cbn [count_head].
  { rewrite reverse_nil, take_nil. destruct acc. cbn. f_equal; lia. }
  replace (Z.of_nat (length (c :: counts)) - 1 - 1) with (Z.of_nat (length counts) - 1) by (simpl; lia).
  rewrite IH. cbn [fst snd]. rewrite reverse_cons, take_app, sumZ_app, length_reverse.
  f_equal; [cbn; unfold sumZ; lia|].
  destruct (Z.ltb_spec (Z.of_nat (length (c :: counts)) - 1) ix) as [H|H]; simpl length in H.
  - destruct (Z.to_nat ix - length counts)%nat eqn:E; [lia|]. cbn [take]. rewrite take_nil. cbn. lia.
  - replace (Z.to_nat ix - length counts)%nat with 0%nat by lia. cbn. lia.
Qed.

(** ** The samples of a whole series *)

(** The values an iterator over the chunk at [ix] returns. *)
Definition read_chunk (s : memSeries) (v : option isoView) (ix : Z) (c : list Z) : option (list Z) :=
  let n := Z.of_nat (length c) in
  match stopAfter s ix n v with
  | None => None
  | Some stop => Some (iterator_values stop n c)
  end.

(** A query over the chunks of a series, oldest first. *)
Fixpoint read_series (s : memSeries) (v : option isoView) (ix : Z) (chks : list (list Z)) : option (list Z) :=
  match chks with
  | [] => Some []
  | c :: rest =>
      match read_chunk s v ix c, read_series s v (ix + 1) rest with
      | Some a, Some b => Some (a ++ b)
      | _, _ => None
      end
  end.

(** The series holds the samples [chks] (by chunk, oldest first), [ids] are the
    append IDs of all samples, and the ring holds the IDs of the newest ones;
    every older sample is visible to [v], which is what cleaning up below the
    low watermark guarantees. *)
Record series_ok (s : memSeries) (v : isoView) (chks : list (list Z)) (ids : list Z) : Prop := {
  so_counts : mmapped_counts s ++ reverse (head_counts s) = map (fun c => Z.of_nat (length c)) chks;
  so_head : headChunkCount s = Z.of_nat (length (head_counts s));
  so_ring : ring_wf (s_txs s);
  so_len : length ids = length (concat chks);
  so_ids : exists old, ids = old ++ contents (s_txs s) /\ Forall (fun x => visible v x = true) old }.

Lemma sumZ_lengths (chks : list (list Z)) :
  sumZ (map (fun c => Z.of_nat (length c)) chks) = Z.of_nat (length (concat chks)).
Proof. induction chks as [|c chks IH]; simpl in *; [done|]. rewrite length_app. lia. Qed.

Lemma sumZ_reverse l : sumZ (reverse l) = sumZ l.
Proof.
  induction l as [|x l IH]; [done|]. rewrite reverse_cons, sumZ_app, IH. simpl. lia.
Qed.

Lemma stop_drain_take stop values : forall i,
  stop_drain i stop values = take (Z.to_nat (stop - (i + 1))) values.
Proof.
  induction values as [|x values IH]; intros i; cbn [stop_drain]; [by rewrite take_nil|].
  destruct (Z.leb_spec stop (i + 1)).
  - by replace (Z.to_nat (stop - (i + 1))) with 0%nat by lia.
  - replace (Z.to_nat (stop - (i + 1))) with (S (Z.to_nat (stop - (i + 1 + 1)))) by lia.
    cbn [take]. by rewrite IH.
Qed.

Lemma iterator_values_take stop values :
  0 <= stop -> iterator_values stop (Z.of_nat (length values)) values = take (Z.to_nat stop) values.
Proof.
  intros Hs. unfold iterator_values. destruct (Z.eqb_spec stop 0) as [->|]; [done|].
  destruct (Z.eqb_spec stop (Z.of_nat (length values))) as [->|].
  - rewrite take_ge; [done|]. lia.
  - rewrite stop_drain_take. f_equal. lia.
Qed.

(** The cut of one chunk: what lies in the visible prefix of the series. *)
Lemma read_chunk_spec s v chks ids before c after :
  series_ok s v chks ids -> chks = before ++ c :: after ->
  read_chunk s (Some v) (Z.of_nat (length before)) c
    = Some (take (visible_prefix v ids - length (concat before)) c).
Proof.
  intros [Hc Hh Hr Hl (old & -> & Hold)] ->. unfold read_chunk, stopAfter.
  rewrite Hh, count_mmapped_spec, count_head_spec by lia. cbn [fst snd].
  set (ix := Z.of_nat (length before)). set (n := Z.of_nat (length c)).
  set (mm := mmapped_counts s) in *. set (hd := head_counts s) in *.
  assert (Htot : 0 + sumZ mm + sumZ hd = Z.of_nat (length (concat before) + length c + length (concat after))).
  { rewrite <-(sumZ_reverse hd), <-Z.add_assoc, <-sumZ_app, Hc, sumZ_lengths, concat_app.
    cbn [concat]. rewrite !length_app. lia. }
  assert (Hprev : 0 + sumZ (take (Z.to_nat (ix - 0)) mm)
      + sumZ (take (Z.to_nat (ix - Z.of_nat (length mm))) (reverse hd)) = Z.of_nat (length (concat before))).
  { replace (Z.to_nat (ix - Z.of_nat (length mm))) with (Z.to_nat (ix - 0) - length mm)%nat by lia.
    rewrite <-Z.add_assoc, <-sumZ_app, <-take_app, Hc, Z.sub_0_r. unfold ix. rewrite Nat2Z.id.
    rewrite map_app, take_app_length' by (by rewrite length_map). rewrite sumZ_lengths. lia. }
  rewrite Htot, Hprev.
  assert (Hcount : Z.of_nat (length (contents (s_txs s))) = txIDCount (s_txs s)).
  { unfold contents. rewrite length_ring_list. destruct Hr as (_ & ? & _). lia. }
  rewrite concat_app in Hl. cbn [concat] in Hl. rewrite !length_app in Hl.
  set (consider := txIDCount (s_txs s) - _).
  assert (Hcons : consider = Z.of_nat (length (concat before)) + n - Z.of_nat (length old)) by lia.
  rewrite stop_loop_spec; cycle 1.
  { destruct (decide (consider <= 0)); [left; lia|]. right. apply ring_wf_iter; [done|]. lia. }
  unfold iter_ids. cbn [txRing_iterator it_ids it_pos].
  rewrite (ring_list_take _ _ _ (Z.to_nat (txIDCount (s_txs s)))) by lia. fold (contents (s_txs s)).
  rewrite visible_prefix_take, visible_prefix_app_all by done. cbv zeta.
  set (P := visible_prefix v (contents (s_txs s))).
  assert (P <= length (contents (s_txs s)))%nat by apply visible_prefix_le. clear Htot Hprev Hc Hh.
  destruct (Nat.eqb_spec (Nat.min (Z.to_nat consider) P) (Z.to_nat consider)) as [E|E].
  - unfold n at 1 2. rewrite iterator_values_take by lia. rewrite Nat2Z.id, !take_ge by lia. done.
  - unfold n at 2. rewrite iterator_values_take by lia. do 2 f_equal. lia.
Qed.

(** ** Main theorems *)

(** The ring is a queue.  On a well-formed ring that is not enormous, add
    enqueues the ID at the back, growing the ring when it is full, and
    cleanupAppendIDsBelow removes exactly the leading IDs below the bound; both
    keep the ring well-formed. *)
Theorem txRing_refines_queue txr id bound :
  ring_wf txr -> txIDCount txr < 2 ^ 29 ->
  (ring_wf (txRing_add txr id) /\ contents (txRing_add txr id) = contents txr ++ [id]) /\
  (ring_wf (cleanupAppendIDsBelow txr bound) /\
   contents (cleanupAppendIDsBelow txr bound) = drop_below bound (contents txr)).
Proof.
  intros Hwf Hc. split.
  - unfold txRing_add. destruct (Z.eqb_spec (txIDCount txr) (Z.of_nat (length (txIDs txr)))) as [E|E].
    + destruct (expand_full txr Hwf E Hc) as (We & <- & Hlt). by apply add_not_full.
    + apply add_not_full; [done|]. destruct Hwf as (_ & ? & _). lia.
  - unfold cleanupAppendIDsBelow. destruct (Nat.eqb_spec (length (txIDs txr)) 0) as [E|E].
    { split; [done|]. destruct Hwf as (_ & ? & _). unfold contents.
      by replace (Z.to_nat (txIDCount txr)) with 0%nat by lia. }
    assert (Hne : txIDs txr <> []) by (intros Hn; by rewrite Hn in E). destruct Hwf as (H1 & H2 & H3).
    destruct (cleanup_loop_spec (Z.to_nat (txIDCount txr)) bound txr (txIDFirst txr))
      as (R1 & R2 & R3 & R4); try done || lia.
    { by rewrite Z.mod_small by lia. }
    set (r := cleanup_loop _ _ _ _) in *. rewrite R1, (u32_id (Z.of_nat _)) by (unfold is_u32; lia).
    split; [unfold ring_wf; cbn [txIDs txIDFirst txIDCount];
      pose proof (Z.mod_pos_bound (txIDFirst r) (Z.of_nat (length (txIDs txr)))); lia|].
    rewrite <-R4. unfold contents. cbn [txIDs txIDFirst txIDCount]. rewrite R1.
    rewrite Z2Nat.inj_mod, Nat2Z.id by lia. by rewrite ring_list_mod.
Qed.

Lemma txRing_refines_queue_witness :
  let txr := mk_txRing [5; 6; 3; 4] 2 4 in
  (ring_wf (txRing_add txr 7) /\ contents (txRing_add txr 7) = contents txr ++ [7]) /\
  (ring_wf (cleanupAppendIDsBelow txr 5) /\
   contents (cleanupAppendIDsBelow txr 5) = drop_below 5 (contents txr)).
Proof.
  apply (txRing_refines_queue (mk_txRing [5; 6; 3; 4] 2 4) 7 5); unfold ring_wf; simpl; lia.
Defined.

(** C5: a query sees a prefix of the series: exactly the samples before the
    first one whose append the isolation state excludes.  Reading every chunk
    through the iterator memSeries.iterator chooses never panics and returns,
    chunk after chunk, the values of the longest visible prefix and nothing
    else, however the samples are spread over m-mapped and head chunks. *)
Theorem iterator_reads_visible_prefix s v chks ids :
  series_ok s v chks ids ->
  read_series s (Some v) 0 chks = Some (take (visible_prefix v ids) (concat chks)).
Proof.
  intros Hok.
  assert (H : forall after before, chks = before ++ after ->
    read_series s (Some v) (Z.of_nat (length before)) after
      = Some (take (visible_prefix v ids - length (concat before)) (concat after))).
  { induction after as [|c after IH]; intros before E; cbn [read_series].
    { cbn [concat]. by rewrite take_nil. }
    rewrite (read_chunk_spec s v chks ids before c after Hok E).
    specialize (IH (before ++ [c])). rewrite length_app, Nat2Z.inj_add in IH. change (Z.of_nat (length [c])) with 1 in IH.
    rewrite IH by (by rewrite <-app_assoc). cbn [concat]. f_equal.
    rewrite take_app, concat_app, length_app. cbn [concat]. rewrite app_nil_r. do 2 f_equal. lia. }
  specialize (H chks [] eq_refl). by rewrite Nat.sub_0_r in H.
Qed.

Lemma iterator_reads_visible_prefix_witness :
  let s := mk_memSeries [2] [1; 2] 2 (mk_txRing [9; 7; 8; 0] 1 2) in
  let v := mk_isoView 8 [8] in
  read_series s (Some v) 0 [[10; 11]; [12; 13]; [14]]
    = Some (take (visible_prefix v [5; 6; 6; 7; 8]) (concat [[10; 11]; [12; 13]; [14]])).
Proof.
  apply (iterator_reads_visible_prefix _ _ _ [5; 6; 6; 7; 8]). constructor.
  - reflexivity.
  - reflexivity.
  - unfold ring_wf. simpl. lia.
  - reflexivity.
  - exists [5; 6; 6]. split; [reflexivity|]. repeat constructor.
Defined.
