(* ===== verification/Isolation.v ===== *)
(** tsdb/isolation.go: isolation between appends and reads.

    The open appends and the open reads are circular doubly linked lists with a
    sentinel, modelled as nodes in a heap with next and prev pointers.  The
    pointer code refines lists ([rep]); over the lists an invariant of all
    reachable states gives the guarantees reads and the append-ID cleanup rely
    on.  Every method runs under the mutexes, so each is one step. *)
From stdpp Require Import sorting.
From S2P Require Import Prelude TxRing.

(** ** Circular doubly linked lists *)

Record node (A : Type) := mk_node { n_val : A; n_prev : Z; n_next : Z }.
Arguments mk_node {A}.
Arguments n_val {A}.
Arguments n_prev {A}.
Arguments n_next {A}.

Section Ring.
  Context {A : Type} `{!Inhabited A}.
#[local] Instance node_inhabited : Inhabited (node A) := populate (mk_node inhabitant 0 0).

Definition next (h : gmap Z (node A)) (p : Z) : Z := n_next (h !!! p).
Definition prev (h : gmap Z (node A)) (p : Z) : Z := n_prev (h !!! p).
Definition val (h : gmap Z (node A)) (p : Z) : A := n_val (h !!! p).

(** [p.next = q] and [p.prev = q]. *)
Definition set_next (h : gmap Z (node A)) (p q : Z) : gmap Z (node A) :=
  alter (fun n => mk_node (n_val n) (n_prev n) q) p h.
Definition set_prev (h : gmap Z (node A)) (p q : Z) : gmap Z (node A) :=
  alter (fun n => mk_node (n_val n) q (n_next n)) p h.

(** Links [p] after the sentinel [s], in the order of isolation.State. *)
Definition link_front (h : gmap Z (node A)) (s p : Z) (v : A) : gmap Z (node A) :=
  let h := <[p := mk_node v s (next h s)]> h in
  let h := set_prev h (next h s) p in
  set_next h s p.

(** Links [p] before the sentinel, in the order of newAppendID. *)
Definition link_back (h : gmap Z (node A)) (s p : Z) (v : A) : gmap Z (node A) :=
  let h := <[p := mk_node v (prev h s) s]> h in
  let h := set_next h (prev h s) p in
  set_prev h s p.

(** isolationState.Close. *)
Definition unlink_read (h : gmap Z (node A)) (p : Z) : gmap Z (node A) :=
  let h := set_prev h (next h p) (prev h p) in
  set_next h (prev h p) (next h p).

(** closeAppend's two assignments. *)
Definition unlink_append (h : gmap Z (node A)) (p : Z) : gmap Z (node A) :=
  let h := set_next h (prev h p) (next h p) in
  set_prev h (next h p) (prev h p).

(** [s] heads a ring of the nodes [l]. *)
Definition ring (h : gmap Z (node A)) (s : Z) (l : list Z) : Prop :=
  NoDup (s :: l) /\ (forall p, p ∈ s :: l -> is_Some (h !! p)) /\
  map (next h) (s :: l) = l ++ [s] /\ map (prev h) (l ++ [s]) = s :: l.

(** The nodes of a ring in order, at most [fuel] of them: the traversals
    [for a := s.next; a != s; a = a.next]. *)
Fixpoint walk (fuel : nat) (h : gmap Z (node A)) (s p : Z) : list Z :=
  match fuel with
  | O => []
  | S fuel' => if p =? s then [] else p :: walk fuel' h s (next h p)
  end.

Definition ring_nodes (h : gmap Z (node A)) (s : Z) : list Z := walk (size h) h s (next h s).

Lemma next_set_next h p q x :
  is_Some (h !! p) -> next (set_next h p q) x = if decide (x = p) then q else next h x.
Proof.
  intros [n Hn]. unfold next, set_next. rewrite !lookup_total_alt. case_decide as E.
  - subst. by rewrite lookup_alter_eq, Hn.
  - by rewrite lookup_alter_ne.
Qed.

Lemma prev_set_prev h p q x :
  is_Some (h !! p) -> prev (set_prev h p q) x = if decide (x = p) then q else prev h x.
Proof.
  intros [n Hn]. unfold prev, set_prev. rewrite !lookup_total_alt. case_decide as E.
  - subst. by rewrite lookup_alter_eq, Hn.
  - by rewrite lookup_alter_ne.
Qed.

Lemma set_next_other h p q x :
  prev (set_next h p q) x = prev h x /\ val (set_next h p q) x = val h x /\
  (is_Some (set_next h p q !! x) <-> is_Some (h !! x)).
Proof.
  unfold prev, val, set_next. rewrite !lookup_total_alt. destruct (decide (x = p)) as [->|].
  - rewrite lookup_alter_eq. destruct (h !! p); [|done]. split_and!; try done.
  - by rewrite lookup_alter_ne.
Qed.

Lemma set_prev_other h p q x :
  next (set_prev h p q) x = next h x /\ val (set_prev h p q) x = val h x /\
  (is_Some (set_prev h p q !! x) <-> is_Some (h !! x)).
Proof.
  unfold next, val, set_prev. rewrite !lookup_total_alt. destruct (decide (x = p)) as [->|].
  - rewrite lookup_alter_eq. destruct (h !! p); [|done]. split_and!; try done.
  - by rewrite lookup_alter_ne.
Qed.

Lemma insert_other h p n x : x <> p ->
  next (<[p := n]> h) x = next h x /\ prev (<[p := n]> h) x = prev h x /\
  val (<[p := n]> h) x = val h x.
Proof. intros Hx. unfold next, prev, val. by rewrite lookup_total_insert_ne. Qed.

Lemma insert_same h p n :
  next (<[p := n]> h) p = n_next n /\ prev (<[p := n]> h) p = n_prev n /\ val (<[p := n]> h) p = n_val n.
Proof. unfold next, prev, val. by rewrite lookup_total_insert_eq. Qed.

(** What each operation does to every pointer of the heap. *)
Record rewired (h h' : gmap Z (node A)) (nx pv : Z -> Z) (vl : Z -> A) : Prop := {
  rw_next : forall x, next h' x = nx x;
  rw_prev : forall x, prev h' x = pv x;
  rw_val : forall x, val h' x = vl x;
  rw_dom : forall x, is_Some (h !! x) -> is_Some (h' !! x) }.

Lemma link_front_rewired h s p v :
  is_Some (h !! s) -> is_Some (h !! next h s) -> p <> s -> p <> next h s ->
  rewired h (link_front h s p v)
    (fun x => if decide (x = s) then p else if decide (x = p) then next h s else next h x)
    (fun x => if decide (x = next h s) then p else if decide (x = p) then s else prev h x)
    (fun x => if decide (x = p) then v else val h x) /\ is_Some (link_front h s p v !! p).
Proof.
  intros Hs Hb Hps Hpb. unfold link_front. set (h1 := <[p := mk_node v s (next h s)]> h).
  assert (E1 : next h1 s = next h s) by (apply insert_other; congruence). rewrite E1.
  set (b := next h s) in *. set (h2 := set_prev h1 b p).
  assert (S1 : forall x, is_Some (h !! x) -> is_Some (h1 !! x)).
  { intros x Hx. unfold h1. destruct (decide (x = p)) as [->|]; [by rewrite lookup_insert_eq|].
    by rewrite lookup_insert_ne. }
  assert (S2 : forall x, is_Some (h1 !! x) -> is_Some (h2 !! x)) by (intros; by apply set_prev_other).
  split; [split|].
  - intros x. rewrite next_set_next by auto. case_decide; [done|]. unfold h2.
    rewrite (proj1 (set_prev_other _ _ _ _)). case_decide as E; [subst; apply insert_same|by apply insert_other].
  - intros x. rewrite (proj1 (set_next_other _ _ _ _)). unfold h2. rewrite prev_set_prev by auto.
    case_decide; [done|]. case_decide as E; [subst; apply insert_same|by apply insert_other].
  - intros x. rewrite (proj1 (proj2 (set_next_other _ _ _ _))). unfold h2.
    rewrite (proj1 (proj2 (set_prev_other _ _ _ _))).
    case_decide as E; [subst; apply insert_same|by apply insert_other].
  - intros x Hx. apply set_next_other. auto.
  - apply set_next_other, S2. unfold h1. by rewrite lookup_insert_eq.
Qed.

Lemma link_back_rewired h s p v :
  is_Some (h !! s) -> is_Some (h !! prev h s) -> p <> s -> p <> prev h s ->
  rewired h (link_back h s p v)
    (fun x => if decide (x = prev h s) then p else if decide (x = p) then s else next h x)
    (fun x => if decide (x = s) then p else if decide (x = p) then prev h s else prev h x)
    (fun x => if decide (x = p) then v else val h x) /\ is_Some (link_back h s p v !! p).
Proof.
  intros Hs Hb Hps Hpb. unfold link_back. set (h1 := <[p := mk_node v (prev h s) s]> h).
  assert (E1 : prev h1 s = prev h s) by (apply insert_other; congruence). rewrite E1.
  set (b := prev h s) in *. set (h2 := set_next h1 b p).
  assert (S1 : forall x, is_Some (h !! x) -> is_Some (h1 !! x)).
  { intros x Hx. unfold h1. destruct (decide (x = p)) as [->|]; [by rewrite lookup_insert_eq|].
    by rewrite lookup_insert_ne. }
  assert (S2 : forall x, is_Some (h1 !! x) -> is_Some (h2 !! x)) by (intros; by apply set_next_other).
  split; [split|].
  - intros x. rewrite (proj1 (set_prev_other _ _ _ _)). unfold h2. rewrite next_set_next by auto.
    case_decide; [done|]. case_decide as E; [subst; apply insert_same|by apply insert_other].
  - intros x. rewrite prev_set_prev by auto. case_decide; [done|]. unfold h2.
    rewrite (proj1 (set_next_other _ _ _ _)). case_decide as E; [subst; apply insert_same|by apply insert_other].
  - intros x. rewrite (proj1 (proj2 (set_prev_other _ _ _ _))). unfold h2.
    rewrite (proj1 (proj2 (set_next_other _ _ _ _))).
    case_decide as E; [subst; apply insert_same|by apply insert_other].
  - intros x Hx. apply set_prev_other. auto.
  - apply set_prev_other, S2. unfold h1. by rewrite lookup_insert_eq.
Qed.

Lemma unlink_rewired h p h' :
  h' = unlink_read h p \/ h' = unlink_append h p ->
  is_Some (h !! next h p) -> is_Some (h !! prev h p) -> p <> next h p -> p <> prev h p ->
  rewired h h'
    (fun x => if decide (x = prev h p) then next h p else next h x)
    (fun x => if decide (x = next h p) then prev h p else prev h x) (val h).
Proof.
  intros Hh' Hb Ha Hpb Hpa. destruct Hh' as [->| ->]; unfold unlink_read, unlink_append.
  - rewrite prev_set_prev, !(proj1 (set_prev_other _ _ _ _)) by done. rewrite decide_False by done.
    split; intros x.
    + rewrite next_set_next by (by apply set_prev_other). case_decide; [done|]. apply set_prev_other.
    + rewrite (proj1 (set_next_other _ _ _ _)). by apply prev_set_prev.
    + rewrite (proj1 (proj2 (set_next_other _ _ _ _))). apply set_prev_other.
    + intros Hx. by apply set_next_other, set_prev_other.
  - rewrite next_set_next, !(proj1 (set_next_other _ _ _ _)) by done. rewrite decide_False by done.
    split; intros x.
    + rewrite (proj1 (set_prev_other _ _ _ _)). by apply next_set_next.
    + rewrite prev_set_prev by (by apply set_next_other). case_decide; [done|]. apply set_next_other.
    + rewrite (proj1 (proj2 (set_prev_other _ _ _ _))). apply set_next_other.
    + intros Hx. by apply set_prev_other, set_next_other.
Qed.

(** Agreement of pointer functions on the elements of a list. *)
Lemma map_agree (f g : Z -> Z) l : (forall x, x ∈ l -> f x = g x) -> map f l = map g l.
Proof. intros H. apply map_ext_in. intros x Hx. apply H. by apply list_elem_of_In. Qed.

Lemma ring_next_s h s l b r : ring h s l -> l ++ [s] = b :: r -> next h s = b /\ prev h b = s /\
  map (next h) l = r /\ map (prev h) r = l.
Proof.
  intros (_ & _ & Hn & Hp) E. rewrite E in *. cbn [map] in Hn, Hp. by simplify_eq.
Qed.

Lemma ring_prev_s h s l L a : ring h s l -> s :: l = L ++ [a] -> prev h s = a /\ next h a = s /\
  map (next h) L = l /\ map (prev h) l = L.
Proof.
  intros (_ & _ & Hn & Hp) E. rewrite E, map_app in Hn. rewrite E, map_app in Hp. cbn [map] in Hn, Hp.
  apply app_inj_2 in Hn as [Hn1 Hn2]; [|done]. apply app_inj_2 in Hp as [Hp1 Hp2]; [|done]. by simplify_eq.
Qed.

Lemma ring_link_front h s l p v :
  ring h s l -> p ∉ s :: l ->
  ring (link_front h s p v) s (p :: l) /\
  forall x, val (link_front h s p v) x = if decide (x = p) then v else val h x.
Proof.
  intros Hr Hp. destruct (l ++ [s]) as [|b r] eqn:E; [by destruct l|].
  destruct (ring_next_s h s l b r Hr E) as (En & Ep & Hn & Hpv). destruct Hr as (Hnd & Hdom & _).
  assert (Hb : b ∈ s :: l).
  { assert (b ∈ l ++ [s]) by (rewrite E; set_solver). set_solver. }
  assert (Hbr : NoDup (b :: r)).
  { rewrite <-E. rewrite (Permutation_app_comm l [s]). done. }
  apply NoDup_cons in Hbr as [Hbr _]. assert (Hr' : forall x, x ∈ r -> x <> p).
  { intros x Hx ->. assert (p ∈ l ++ [s]) by (rewrite E; set_solver). set_solver. }
  destruct (link_front_rewired h s p v) as [[Rn Rp Rv Rd] Hsome].
  { apply Hdom. set_solver. } { rewrite En. by apply Hdom. } { set_solver. } { rewrite En. set_solver. }
  rewrite En in *. apply NoDup_cons in Hnd as [Hsl Hnd]. split; [|exact Rv]. unfold ring. split_and!.
  - apply NoDup_cons. split; [set_solver|]. apply NoDup_cons. set_solver.
  - intros x Hx. destruct (decide (x = p)) as [->|]; [done|]. apply Rd, Hdom. set_solver.
  - cbn [map app]. rewrite !Rn, decide_True by done. rewrite decide_False, decide_True by set_solver.
    rewrite E. do 2 f_equal. rewrite <-Hn. apply map_agree. intros x Hx.
    rewrite Rn, !decide_False by set_solver. done.
  - cbn [map app]. rewrite E. cbn [map]. rewrite !Rp, (decide_True (P := b = b)) by done.
    rewrite decide_False, decide_True by set_solver. do 2 f_equal. transitivity (map (prev h) r); [|done]. apply map_agree.
    intros x Hx. rewrite Rp, !decide_False by set_solver. done.
Qed.

Lemma ring_link_back h s l p v :
  ring h s l -> p ∉ s :: l ->
  ring (link_back h s p v) s (l ++ [p]) /\
  forall x, val (link_back h s p v) x = if decide (x = p) then v else val h x.
Proof.
  intros Hr Hp. destruct (exists_last (l := s :: l)) as (L & a & E); [done|].
  destruct (ring_prev_s h s l L a Hr E) as (Ep & En & Hn & Hpv). destruct Hr as (Hnd & Hdom & _).
  assert (Ha : a ∈ s :: l) by (rewrite E; set_solver).
  assert (HLa : NoDup (L ++ [a])) by (by rewrite <-E). apply NoDup_app in HLa as (_ & HLa & _).
  assert (HLp : forall x, x ∈ L -> x <> p).
  { intros x Hx ->. apply Hp. rewrite E. set_solver. }
  destruct (link_back_rewired h s p v) as [[Rn Rp Rv Rd] Hsome].
  { apply Hdom. set_solver. } { rewrite Ep. by apply Hdom. } { set_solver. } { rewrite Ep. set_solver. }
  rewrite Ep in *. split; [|exact Rv]. apply NoDup_cons in Hnd as [Hsl Hnd]. unfold ring. split_and!.
  - rewrite app_comm_cons. apply NoDup_app. split_and!; [by apply NoDup_cons| |apply NoDup_singleton].
    intros x Hx Hx'. apply list_elem_of_singleton in Hx' as ->. by apply Hp.
  - intros x Hx. destruct (decide (x = p)) as [->|]; [done|]. apply Rd, Hdom. set_solver.
  - rewrite app_comm_cons, map_app, E, map_app. cbn [map]. rewrite !Rn, decide_True by done.
    rewrite (decide_False (P := p = a)), decide_True by set_solver. do 2 f_equal.
    transitivity (map (next h) L); [|by rewrite Hn]. apply map_agree. intros x Hx. rewrite Rn, !decide_False; [done|by apply HLp|].
    intros ->. by apply (HLa a); set_solver.
  - rewrite !map_app. cbn [map]. rewrite !Rp, (decide_True (P := s = s)) by done.
    rewrite (decide_False (P := p = s)), decide_True by set_solver.
    rewrite app_comm_cons, E. do 2 f_equal.
    transitivity (map (prev h) l); [|done]. apply map_agree. intros x Hx.
    rewrite Rp, !decide_False by set_solver. done.
Qed.

Lemma ring_unlink h s l1 p l2 h' :
  h' = unlink_read h p \/ h' = unlink_append h p ->
  ring h s (l1 ++ p :: l2) -> ring h' s (l1 ++ l2) /\ forall x, val h' x = val h x.
Proof.
  intros Hh' (Hnd & Hdom & Hn & Hp). destruct (exists_last (l := s :: l1)) as (L & a & E); [done|].
  destruct (l2 ++ [s]) as [|b r] eqn:E2; [by destruct l2|].
  assert (HL : length L = length l1) by (apply (f_equal length) in E; rewrite length_app in E; simpl in E; lia).
  assert (C1 : s :: l1 ++ p :: l2 = L ++ a :: p :: l2).
  { by rewrite app_comm_cons, E, <-app_assoc. }
  assert (C2 : (l1 ++ p :: l2) ++ [s] = l1 ++ p :: b :: r) by (by rewrite <-app_assoc, <-E2).
  rewrite C1, C2, !map_app in Hn, Hp. cbn [map] in Hn, Hp.
  apply app_inj_1 in Hn as [HnL Hn]; [|by rewrite length_map].
  apply app_inj_1 in Hp as [HpL Hp]; [|by rewrite length_map].
  injection Hn as Hna Hnp Hnr. injection Hp as Hpp Hpb Hpr.
  assert (N2 : NoDup (l1 ++ p :: b :: r)).
  { rewrite <-C2. by rewrite (Permutation_app_comm _ [s]). }
  assert (Db : is_Some (h !! b)).
  { apply Hdom. assert (b ∈ (l1 ++ p :: l2) ++ [s]) by (rewrite C2; set_solver). set_solver. }
  rewrite C1 in Hnd, Hdom. assert (Dl : forall x, x ∈ L ++ a :: l2 -> is_Some (h !! x)) by set_solver.
  apply NoDup_app in Hnd as (NL & DL & Na). apply NoDup_cons in Na as [Da Na].
  apply NoDup_cons in Na as [Dp Nl2]. apply NoDup_app in N2 as (_ & DL1 & Nb).
  apply NoDup_cons in Nb as [Db1 Nb]. apply NoDup_cons in Nb as [Db2 _].
  destruct (unlink_rewired h p h' Hh') as [Rn Rp Rv Rd]; rewrite ?Hnp, ?Hpp; [done|set_solver..|].
  rewrite Hnp, Hpp in *. split; [|exact Rv].
  assert (C3 : s :: l1 ++ l2 = L ++ a :: l2) by (by rewrite app_comm_cons, E, <-app_assoc).
  assert (C4 : (l1 ++ l2) ++ [s] = l1 ++ b :: r) by (by rewrite <-app_assoc, E2).
  unfold ring. rewrite C3, C4. split_and!.
  - apply NoDup_app. split_and!; [done|set_solver|]. apply NoDup_cons. set_solver.
  - intros x Hx. by apply Rd, Dl.
  - rewrite map_app. cbn [map]. rewrite Rn, decide_True by done. f_equal; [|f_equal].
    + rewrite <-HnL. apply map_agree. intros x Hx. rewrite Rn, decide_False; [done|set_solver].
    + rewrite <-Hnr. apply map_agree. intros x Hx. rewrite Rn, decide_False; [done|set_solver].
  - rewrite map_app. cbn [map]. rewrite Rp, decide_True by done. f_equal; [|f_equal].
    + rewrite <-HpL. apply map_agree. intros x Hx. rewrite Rp, decide_False; [done|set_solver].
    + rewrite <-Hpr. apply map_agree. intros x Hx. rewrite Rp, decide_False; [done|set_solver].
Qed.

(** A ring depends on its own nodes only. *)
Lemma ring_frame h h' s l :
  ring h s l ->
  (forall x, x ∈ s :: l -> next h' x = next h x /\ prev h' x = prev h x /\ is_Some (h' !! x)) ->
  ring h' s l.
Proof.
  intros (Hnd & Hdom & Hn & Hp) Hsame. unfold ring. split_and!; [done|by intros; apply Hsame|..].
  - rewrite <-Hn. apply map_agree. intros x Hx. by apply Hsame.
  - rewrite <-Hp. apply map_agree. intros x Hx. apply Hsame. set_solver.
Qed.

(** The traversal visits the nodes of the ring in order. *)
Lemma walk_ring h s l fuel i y :
  ring h s l -> (s :: l) !! i = Some y -> (length l - i < fuel)%nat ->
  walk fuel h s (next h y) = drop i l.
Proof.
  intros Hr. revert i y. induction fuel as [|fuel IH]; intros i y Hy Hf; [lia|].
  assert (Hnext : (l ++ [s]) !! i = Some (next h y)).
  { pose proof Hr as (_ & _ & <- & _). change (map (next h) (s :: l)) with (next h <$> s :: l).
    by rewrite list_lookup_fmap, Hy. }
  cbn [walk]. destruct (decide (i < length l)%nat) as [Hi|Hi].
  - rewrite lookup_app_l in Hnext by done. pose proof (proj1 Hr) as Hnd.
    apply NoDup_cons in Hnd as [Hsl _]. destruct (Z.eqb_spec (next h y) s) as [Es|_].
    { destruct Hsl. rewrite <-Es. by eapply list_elem_of_lookup_2. }
    rewrite (IH (S i)) by (done || lia). symmetry. by apply drop_S.
  - apply lookup_lt_Some in Hy as Hlt. simpl in Hlt. assert (i = length l) as -> by lia.
    rewrite lookup_app_r, Nat.sub_diag in Hnext by lia. injection Hnext as <-.
    rewrite Z.eqb_refl. by rewrite drop_all.
Qed.

Lemma ring_size h s l : ring h s l -> (length l < size h)%nat.
Proof.
  intros (Hnd & Hdom & _). rewrite <-size_dom.
  assert (list_to_set (s :: l) ⊆ (dom h : gset Z)) as Hsub.
  { intros x Hx%elem_of_list_to_set. apply elem_of_dom. by apply Hdom. }
  apply subseteq_size in Hsub. rewrite size_list_to_set in Hsub by done. simpl in Hsub. lia.
Qed.

Lemma ring_nodes_ring h s l : ring h s l -> ring_nodes h s = l.
Proof.
  intros Hr. unfold ring_nodes. rewrite (walk_ring h s l _ 0 s Hr); [done|done|].
  pose proof (ring_size h s l Hr). lia.
Qed.
End Ring.

(** ** The isolation state and its operations *)

Record isolationAppender := mk_isolationAppender { appendID : Z; minTime : Z }.
#[global] Instance isolationAppender_inhabited : Inhabited isolationAppender :=
  populate (mk_isolationAppender 0 0).

Record isolationState := mk_isolationState {
  is_maxAppendID : Z;
  is_incompleteAppends : gset Z;
  is_lowWatermark : Z;
  is_mint : Z;
  is_maxt : Z }.
#[global] Instance isolationState_inhabited : Inhabited isolationState :=
  populate (mk_isolationState 0 ∅ 0 0 0).

(** Pointers are integers, nil is 0 and the sentinels of both lists are at 1. *)
Record isolation := mk_isolation {
  appendsOpen : gmap Z Z;
  appenders : gmap Z (node isolationAppender);
  states : gmap Z (node isolationState);
  disabled : bool }.

Definition appendsOpenList : Z := 1.
Definition readsOpen : Z := 1.

Definition newIsolation (disabled : bool) : isolation :=
  mk_isolation ∅ {[appendsOpenList := mk_node (mk_isolationAppender 0 0) 1 1]}
    {[readsOpen := mk_node (mk_isolationState 0 ∅ 0 0 0) 1 1]} disabled.

Definition lastAppendID (i : isolation) : Z :=
  if disabled i then 0 else appendID (val (appenders i) appendsOpenList).

Definition lowWatermarkLocked (i : isolation) : Z :=
  if disabled i then 0
  else if negb (prev (states i) readsOpen =? readsOpen)
    then is_lowWatermark (val (states i) (prev (states i) readsOpen))
  else appendID (val (appenders i) (next (appenders i) appendsOpenList)).

Definition lowWatermark (i : isolation) : Z := if disabled i then 0 else lowWatermarkLocked i.

Definition lowestAppendTime (i : isolation) : Z :=
  foldl (fun lowest p => if minTime (val (appenders i) p) <? lowest then minTime (val (appenders i) p) else lowest)
    MaxInt64 (ring_nodes (appenders i) appendsOpenList).

Definition committedAppendID (i : isolation) : Z :=
  if disabled i then 0
  else
    let first := next (appenders i) appendsOpenList in
    if first =? appendsOpenList then appendID (val (appenders i) appendsOpenList)
    else u64 (appendID (val (appenders i) first) - 1).

(** State; [q] is the address of the new object. *)
Definition State (i : isolation) (q mint maxt : Z) : isolation :=
  let st := mk_isolationState (appendID (val (appenders i) appendsOpenList)) (dom (appendsOpen i))
    (appendID (val (appenders i) (next (appenders i) appendsOpenList))) mint maxt in
  mk_isolation (appendsOpen i) (appenders i) (link_front (states i) readsOpen q st) (disabled i).

(** isolationState.Close. *)
Definition CloseState (i : isolation) (q : Z) : isolation :=
  mk_isolation (appendsOpen i) (appenders i) (unlink_read (states i) q) (disabled i).

(** TraverseOpenReads: the states [f] is called on. *)
Fixpoint traverse (f : isolationState -> bool) (l : list isolationState) : list isolationState :=
  match l with
  | [] => []
  | s :: l' => s :: (if f s then traverse f l' else [])
  end.

Definition TraverseOpenReads (i : isolation) (f : isolationState -> bool) : list isolationState :=
  traverse f (map (val (states i)) (ring_nodes (states i) readsOpen)).

(** newAppendID; [p] is the object the pool returns.  Also the results: the new
    ID and the low watermark. *)
Definition newAppendID (i : isolation) (p mint : Z) : isolation * (Z * Z) :=
  if disabled i then (i, (0, 0))
  else
    let h := alter (fun n => mk_node (mk_isolationAppender (u64 (appendID (n_val n) + 1))
                               (minTime (n_val n))) (n_prev n) (n_next n))
               appendsOpenList (appenders i) in
    let id := appendID (val h appendsOpenList) in
    let h := link_back h appendsOpenList p (mk_isolationAppender id mint) in
    let i := mk_isolation (<[id := p]> (appendsOpen i)) h (states i) (disabled i) in
    (i, (id, lowWatermarkLocked i)).

Definition closeAppend (i : isolation) (id : Z) : isolation :=
  if disabled i then i
  else
    match appendsOpen i !! id with
    | None => i
    | Some app =>
        let h := unlink_append (appenders i) app in
        let h := <[app := mk_node (mk_isolationAppender 0 0) 0 0]> h in
        mk_isolation (delete id (appendsOpen i)) h (states i) (disabled i)
    end.

(** ** The lists the pointers implement *)

Record alists := mk_alists {
  a_last : Z;                          (* the last issued append ID *)
  a_open : list (Z * isolationAppender);    (* open appends by pointer, oldest first *)
  a_reads : list (Z * isolationState) }.    (* open reads by pointer, newest first *)

Record rep (i : isolation) (a : alists) : Prop := {
  rep_enabled : disabled i = false;
  rep_last : appendID (val (appenders i) appendsOpenList) = a_last a;
  rep_open_ring : ring (appenders i) appendsOpenList (a_open a).*1;
  rep_open_val : forall p v, (p, v) ∈ a_open a -> val (appenders i) p = v;
  rep_open_map : forall id p, appendsOpen i !! id = Some p <-> exists v, (p, v) ∈ a_open a /\ appendID v = id;
  rep_reads_ring : ring (states i) readsOpen (a_reads a).*1;
  rep_reads_val : forall q s, (q, s) ∈ a_reads a -> val (states i) q = s }.

(** The append ID below which the next read will not need tracking. *)
Definition next_watermark (a : alists) : Z :=
  match a_open a with
  | [] => a_last a
  | (_, v) :: _ => appendID v
  end.

(** What isolation maintains: open IDs increase and were issued; every open read
    sees everything below its watermark; watermarks do not decrease from older
    to newer reads and up to the next read. *)
Record ainv (a : alists) : Prop := {
  ai_last : 0 <= a_last a <= MaxUint64;
  ai_sorted : StronglySorted Z.lt (map (fun e => appendID e.2) (a_open a));
  ai_range : forall e, e ∈ a_open a -> 1 <= appendID e.2 <= a_last a;
  ai_reads_sorted : StronglySorted Z.ge (next_watermark a :: map (fun e => is_lowWatermark e.2) (a_reads a));
  ai_reads_see : forall e, e ∈ a_reads a -> is_lowWatermark e.2 <= is_maxAppendID e.2 /\
    is_maxAppendID e.2 <= a_last a /\
    forall id, id ∈ is_incompleteAppends e.2 -> is_lowWatermark e.2 <= id }.

(** The steps: one call of a method that changes the state.  The pool and the
    allocator return objects that are not in use; IDs do not run out. *)
Inductive step (i : isolation) : isolation -> Prop :=
  | step_newAppendID p t :
      p ∉ appendsOpenList :: ring_nodes (appenders i) appendsOpenList -> lastAppendID i < MaxUint64 ->
      step i (newAppendID i p t).1
  | step_closeAppend id : step i (closeAppend i id)
  | step_State q mint maxt :
      q ∉ readsOpen :: ring_nodes (states i) readsOpen -> step i (State i q mint maxt)
  | step_CloseState q : q ∈ ring_nodes (states i) readsOpen -> step i (CloseState i q).

Definition snapshot (a : alists) (mint maxt : Z) : isolationState :=
  mk_isolationState (a_last a) (list_to_set (map (fun e => appendID e.2) (a_open a)))
    (next_watermark a) mint maxt.

(** The same steps on the lists. *)
Inductive astep (a : alists) : alists -> Prop :=
  | astep_new p t :
      a_last a < MaxUint64 ->
      astep a (mk_alists (a_last a + 1) (a_open a ++ [(p, mk_isolationAppender (a_last a + 1) t)]) (a_reads a))
  | astep_close o1 e o2 :
      a_open a = o1 ++ e :: o2 -> astep a (mk_alists (a_last a) (o1 ++ o2) (a_reads a))
  | astep_close_unknown : astep a a
  | astep_state q mint maxt :
      astep a (mk_alists (a_last a) (a_open a) ((q, snapshot a mint maxt) :: a_reads a))
  | astep_close_read r1 e r2 :
      a_reads a = r1 ++ e :: r2 -> astep a (mk_alists (a_last a) (a_open a) (r1 ++ r2)).

(** ** The invariant *)

Lemma snapshot_watermark_le a : ainv a -> next_watermark a <= a_last a.
Proof.
  intros Ha. unfold next_watermark. destruct (a_open a) as [|[p v] o] eqn:E; [lia|].
  apply (ai_range _ Ha (p, v)). rewrite E. set_solver.
Qed.

Lemma open_ids_ge a e : ainv a -> e ∈ a_open a -> next_watermark a <= appendID e.2.
Proof.
  intros Ha He. pose proof (ai_sorted _ Ha) as Hs. unfold next_watermark.
  destruct (a_open a) as [|[p v] o]; [set_solver|]. cbn [map snd] in Hs.
  apply StronglySorted_inv in Hs as [_ Hs]. rewrite Forall_forall in Hs.
  apply elem_of_cons in He as [->|He]; [simpl; lia|]. apply Z.lt_le_incl, Hs.
  change (fun e => appendID e.2) with (fun e : Z * isolationAppender => appendID e.2).
  apply list_elem_of_In, in_map_iff. exists e. split; [done|]. by apply list_elem_of_In.
Qed.

(** A change that only raises the next watermark keeps the order of reads. *)
Lemma reads_sorted_raise w w' l :
  StronglySorted Z.ge (w :: l) -> w <= w' -> StronglySorted Z.ge (w' :: l).
Proof.
  intros [Hs Hw]%StronglySorted_inv Hle. constructor; [done|].
  eapply Forall_impl; [exact Hw|]. simpl. lia.
Qed.

Lemma ainv_astep a a' : ainv a -> astep a a' -> ainv a'.
Proof.
  intros Ha Hstep. pose proof (snapshot_watermark_le a Ha) as Hwl. pose proof Ha as [H0 Hs Hr Hrs Hsee].
  destruct Hstep as [p t Hmax|o1 e o2 E| |q mint maxt|r1 e r2 E].
  - split; cbn [a_last a_open a_reads].
    + lia.
    + rewrite map_app. apply StronglySorted_app_2; [|done|by repeat constructor].
      intros x y (e & <- & He)%list_elem_of_In%in_map_iff ->%list_elem_of_singleton.
      apply list_elem_of_In, Hr in He. simpl. lia.
    + intros e [He| ->%list_elem_of_singleton]%elem_of_app; [apply Hr in He|simpl]; lia.
    + eapply reads_sorted_raise; [exact Hrs|]. unfold next_watermark in *. cbn [a_open a_last].
      destruct (a_open a) as [|[p' v'] o]; simpl; lia.
    + intros e He. destruct (Hsee e He) as (? & ? & ?). split_and!; [lia..|done].
  - rewrite E in *. split; cbn [a_last a_open a_reads]; [done| | | |done].
    + rewrite map_app in Hs |- *. cbn [map] in Hs. apply StronglySorted_app in Hs as (S1 & S2 & S3).
      apply StronglySorted_inv in S3 as [S3 _]. apply StronglySorted_app_2; [set_solver|done|done].
    + intros e' He'. apply Hr. set_solver.
    + eapply reads_sorted_raise; [exact Hrs|]. unfold next_watermark in *. rewrite E in *. cbn [a_open a_last].
      destruct o1 as [|[p1 v1] o1]; cbn [app]; [|done]. destruct e as [p v].
      destruct o2 as [|[p2 v2] o2]; [done|]. cbn [app map snd] in Hs.
      apply StronglySorted_inv in Hs as [_ Hs]. apply Forall_cons in Hs as [Hs _]. lia.
  - done.
  - split; cbn [a_last a_open a_reads]; [done..| |].
    + cbn [map snd]. unfold snapshot at 1. cbn [is_lowWatermark].
      change (next_watermark (mk_alists (a_last a) (a_open a) _)) with (next_watermark a).
      constructor; [done|]. constructor; [apply Z.le_ge, Z.le_refl|]. by apply StronglySorted_inv in Hrs as [_ ?].
    + intros e [->|He]%elem_of_cons; [|by apply Hsee]. cbn [snd snapshot is_lowWatermark is_maxAppendID is_incompleteAppends].
      split_and!; [done|lia|]. intros id (e & <- & He)%elem_of_list_to_set%list_elem_of_In%in_map_iff.
      apply open_ids_ge; [done|]. by apply list_elem_of_In.
  - rewrite E in *. split; cbn [a_last a_open a_reads]; [done..| |].
    + change (next_watermark (mk_alists (a_last a) (a_open a) _)) with (next_watermark a).
      apply StronglySorted_inv in Hrs as [S F]. rewrite map_app in S, F |- *. cbn [map] in S, F.
      apply Forall_app in F as [F1 F2]. apply Forall_cons in F2 as [_ F2].
      apply StronglySorted_app in S as (S1 & S2 & S3). apply StronglySorted_inv in S3 as [S3 _].
      constructor; [|by apply Forall_app]. apply StronglySorted_app_2; [set_solver|done|done].
    + intros e' He'. apply Hsee. set_solver.
Qed.

(** ** The pointer code implements the list steps *)

Lemma ids_NoDup a : ainv a -> NoDup (map (fun e => appendID e.2) (a_open a)).
Proof.
  intros Ha. pose proof (ai_sorted _ Ha) as Hs. induction Hs as [|x l Hs IH Hx]; constructor; [|done].
  rewrite Forall_forall in Hx. intros Hin. specialize (Hx _ Hin). lia.
Qed.

Lemma dom_appendsOpen i a :
  rep i a -> (dom (appendsOpen i) : gset Z) = list_to_set (map (fun e => appendID e.2) (a_open a)).
Proof.
  intros Hrep. apply set_eq. intros id. rewrite elem_of_dom, elem_of_list_to_set, list_elem_of_In, in_map_iff.
  split.
  - intros [p Hp]. apply (rep_open_map _ _ Hrep) in Hp as (v & Hv & <-). exists (p, v). split; [done|].
    by apply list_elem_of_In.
  - intros ([p v] & <- & Hin%list_elem_of_In). exists p. apply (rep_open_map _ _ Hrep). eauto.
Qed.

Lemma rep_next_watermark i a :
  rep i a -> appendID (val (appenders i) (next (appenders i) appendsOpenList)) = next_watermark a.
Proof.
  intros Hrep. destruct (rep_open_ring _ _ Hrep) as (_ & _ & Hn & _). cbn [map] in Hn.
  unfold next_watermark. destruct (a_open a) as [|[p v] o] eqn:E; apply (f_equal head) in Hn; cbn in Hn; injection Hn as ->.
  - apply rep_last in Hrep. done.
  - f_equal. apply (rep_open_val _ _ Hrep). rewrite E. set_solver.
Qed.

Lemma rep_State i a q mint maxt :
  rep i a -> q ∉ readsOpen :: (a_reads a).*1 ->
  rep (State i q mint maxt)
    (mk_alists (a_last a) (a_open a) ((q, snapshot a mint maxt) :: a_reads a)).
Proof.
  intros Hrep Hq. pose proof (dom_appendsOpen i a Hrep) as Hdom.
  pose proof (rep_next_watermark i a Hrep) as Hw. destruct Hrep as [H1 H2 H3 H4 H5 H6 H7].
  unfold State. rewrite Hdom, Hw, H2. fold (snapshot a mint maxt).
  destruct (ring_link_front (states i) readsOpen (a_reads a).*1 q (snapshot a mint maxt) H6 Hq) as [Hr Hv].
  split; cbn [disabled appenders appendsOpen states a_last a_open a_reads]; try done.
  intros q' s Hs. rewrite Hv. case_decide as E.
  - subst q'. apply elem_of_cons in Hs as [[= ->]|Hs]; [done|]. destruct Hq.
    apply elem_of_cons. right. by apply (list_elem_of_fmap_2 fst) in Hs.
  - apply elem_of_cons in Hs as [[= -> _]|Hs]; [done|]. by apply H7.
Qed.

Lemma rep_CloseState i a r1 q s r2 :
  rep i a -> a_reads a = r1 ++ (q, s) :: r2 ->
  rep (CloseState i q) (mk_alists (a_last a) (a_open a) (r1 ++ r2)).
Proof.
  intros [H1 H2 H3 H4 H5 H6 H7] E. rewrite E, fmap_app in H6. cbn [fmap list_fmap fst] in H6.
  destruct (ring_unlink _ _ _ _ _ (unlink_read (states i) q) (or_introl eq_refl) H6) as [Hr Hv].
  split; cbn [disabled appenders appendsOpen states CloseState a_last a_open a_reads]; try done.
  - by rewrite fmap_app.
  - intros q' s' Hs. rewrite Hv. apply H7. rewrite E. set_solver.
Qed.

Lemma rep_newAppendID i a p t :
  rep i a -> ainv a -> p ∉ appendsOpenList :: (a_open a).*1 -> a_last a < MaxUint64 ->
  rep (newAppendID i p t).1
    (mk_alists (a_last a + 1) (a_open a ++ [(p, mk_isolationAppender (a_last a + 1) t)]) (a_reads a)).
Proof.
  intros [H1 H2 H3 H4 H5 H6 H7] Ha Hp Hmax. unfold newAppendID. rewrite H1. cbn [fst].
  set (h := alter _ appendsOpenList (appenders i)).
  assert (Hsome : is_Some (appenders i !! appendsOpenList)) by (apply H3; set_solver).
  destruct Hsome as [n0 Hn0].
  assert (Hh : forall x, next h x = next (appenders i) x /\ prev h x = prev (appenders i) x /\
    (is_Some (appenders i !! x) -> is_Some (h !! x)) /\
    (x <> appendsOpenList -> val h x = val (appenders i) x)).
  { intros x. unfold next, prev, val, h. rewrite !lookup_total_alt.
    destruct (decide (x = appendsOpenList)) as [->|Hne]; [rewrite lookup_alter_eq, Hn0; split_and!; by eauto|].
    by rewrite lookup_alter_ne. }
  assert (Hid : appendID (val h appendsOpenList) = a_last a + 1).
  { unfold val, h in *. rewrite lookup_total_alt in H2 |- *. rewrite lookup_alter_eq, Hn0 in *. cbn in *.
    rewrite H2. apply u64_id. pose proof (ai_last _ Ha). unfold is_u64, MaxUint64 in *. lia. }
  rewrite Hid. assert (Hr : ring h appendsOpenList (a_open a).*1).
  { apply (ring_frame (appenders i)); [done|]. intros x Hx. split_and!; try apply Hh. by apply H3. }
  destruct (ring_link_back h _ _ p (mk_isolationAppender (a_last a + 1) t) Hr Hp) as [Hr' Hv].
  assert (Hfst : forall p' v, (p', v) ∈ a_open a -> p' ∈ (a_open a).*1).
  { intros p' v Hin. by apply (list_elem_of_fmap_2 fst) in Hin. }
  split; cbn [disabled appenders appendsOpen states a_last a_open a_reads]; try done.
  - rewrite Hv, decide_False by set_solver. done.
  - by rewrite fmap_app.
  - intros p' v [Hin|[= -> ->]%list_elem_of_singleton]%elem_of_app; rewrite Hv.
    + pose proof (Hfst _ _ Hin). rewrite decide_False by set_solver.
      destruct (Hh p') as (_ & _ & _ & Hval). rewrite Hval; [by apply H4|].
      intros ->. destruct H3 as (Hnd & _). apply NoDup_cons in Hnd. set_solver.
    + by rewrite decide_True.
  - intros id p'. destruct (decide (id = a_last a + 1)) as [->|Hne].
    + rewrite lookup_insert_eq. split.
      * intros [= ->]. exists (mk_isolationAppender (a_last a + 1) t). set_solver.
      * intros (v & [Hin|[= -> ->]%list_elem_of_singleton]%elem_of_app & Hv'); [|done].
        apply (ai_range _ Ha) in Hin. simpl in Hin. lia.
    + rewrite lookup_insert_ne by done. rewrite H5. split.
      * intros (v & Hin & Hv'). exists v. set_solver.
      * intros (v & [Hin|[= -> ->]%list_elem_of_singleton]%elem_of_app & Hv'); [eauto|by simpl in Hv'].
Qed.

Lemma rep_closeAppend i a id :
  rep i a -> ainv a ->
  (closeAppend i id = i /\ forall e, e ∈ a_open a -> appendID e.2 <> id) \/
  exists o1 e o2, a_open a = o1 ++ e :: o2 /\ appendID e.2 = id /\
    rep (closeAppend i id) (mk_alists (a_last a) (o1 ++ o2) (a_reads a)).
Proof.
  intros Hrep Ha. pose proof (ids_NoDup a Ha) as Hnd. destruct Hrep as [H1 H2 H3 H4 H5 H6 H7].
  unfold closeAppend. rewrite H1. destruct (appendsOpen i !! id) as [p|] eqn:E.
  2: { left. split; [done|]. intros [p v] Hin Hid. by rewrite (proj2 (H5 id p)) in E by eauto. }
  right. pose proof E as (v & Hin & Hid)%H5. apply list_elem_of_split in Hin as (o1 & o2 & Eo).
  exists o1, (p, v), o2. split_and!; [done|done|]. rewrite Eo, fmap_app in H3. cbn [fmap list_fmap fst] in H3.
  destruct (ring_unlink _ _ _ _ _ (unlink_append (appenders i) p) (or_intror eq_refl) H3) as [Hr Hv].
  assert (Hp : p ∉ appendsOpenList :: o1.*1 ++ o2.*1).
  { destruct H3 as (Hnd3 & _). rewrite app_comm_cons in Hnd3 |- *. apply NoDup_app in Hnd3 as (_ & D & N).
    apply NoDup_cons in N as [N _]. set_solver. }
  assert (Hpe : forall p' v', (p', v') ∈ o1 ++ o2 -> p' <> p).
  { intros p' v' Hin ->. apply Hp. apply elem_of_cons. right. rewrite <-fmap_app.
    by apply (list_elem_of_fmap_2 fst) in Hin. }
  rewrite Eo, map_app in Hnd. cbn [map snd] in Hnd. rewrite Hid in Hnd.
  assert (Hide : forall e, e ∈ o1 ++ o2 -> appendID e.2 <> id).
  { intros e He. apply NoDup_app in Hnd as (_ & D & N). apply NoDup_cons in N as [N _].
    apply (list_elem_of_fmap_2 (fun e : Z * isolationAppender => appendID e.2)) in He.
    rewrite fmap_app in He. intros Eid. rewrite Eid in He. apply elem_of_app in He as [He|He]; [|done].
    apply (D id); [done|set_solver]. }
  split; cbn [disabled appenders appendsOpen states a_last a_open a_reads]; try done.
  - rewrite (proj2 (proj2 (insert_other _ _ _ _ (not_eq_sym (proj1 (proj1 (not_elem_of_cons _ _ _) Hp)))))).
    by rewrite Hv.
  - rewrite fmap_app. apply (ring_frame (unlink_append (appenders i) p)); [done|]. intros x Hx.
    assert (x <> p) by (intros ->; done).
    split_and!; try by apply insert_other. rewrite lookup_insert_ne by done. by apply Hr.
  - intros p' v' Hin. rewrite (proj2 (proj2 (insert_other _ _ _ _ (Hpe _ _ Hin)))), Hv.
    apply H4. rewrite Eo. set_solver.
  - intros id' p'. rewrite lookup_delete_Some, H5, Eo. split.
    + intros (Hne & v' & Hin & Hid'). exists v'. split; [|done].
      apply elem_of_app in Hin as [Hin|[[= -> ->]|Hin]%elem_of_cons]; [set_solver|congruence|set_solver].
    + intros (v' & Hin & Hid'). split; [|exists v'; set_solver]. specialize (Hide _ Hin). simpl in Hide. congruence.
Qed.

Lemma step_simulated i a i' :
  rep i a -> ainv a -> step i i' -> exists a', astep a a' /\ rep i' a' /\ ainv a'.
Proof.
  intros Hrep Ha Hstep.
  assert (exists a', astep a a' /\ rep i' a') as (a' & Hs & Hr); [|by eauto using ainv_astep].
  destruct Hstep as [p t Hp Hlast|id|q mint maxt Hq|q Hq].
  - rewrite (ring_nodes_ring _ _ _ (rep_open_ring _ _ Hrep)) in Hp. unfold lastAppendID in Hlast.
    rewrite (rep_enabled _ _ Hrep), (rep_last _ _ Hrep) in Hlast.
    eexists. split; [by apply astep_new|]. by apply rep_newAppendID.
  - destruct (rep_closeAppend i a id Hrep Ha) as [[-> _]|(o1 & e & o2 & E & _ & Hr)].
    + eauto using astep_close_unknown.
    + eexists. split; [by apply (astep_close _ o1 e o2)|done].
  - rewrite (ring_nodes_ring _ _ _ (rep_reads_ring _ _ Hrep)) in Hq.
    eexists. split; [apply astep_state|by apply rep_State].
  - rewrite (ring_nodes_ring _ _ _ (rep_reads_ring _ _ Hrep)) in Hq.
    apply list_elem_of_fmap in Hq as ([q' s] & -> & Hin).
    apply list_elem_of_split in Hin as (r1 & r2 & E).
    eexists. split; [by apply (astep_close_read _ r1 (q', s) r2)|by eapply rep_CloseState].
Qed.

Definition reachable (i : isolation) : Prop := rtc step (newIsolation false) i.

Lemma rep_new : exists a, rep (newIsolation false) a /\ ainv a.
Proof.
  exists (mk_alists 0 [] []). split.
  - split; cbn; try done.
    + split_and!; [apply NoDup_singleton| |done|done]. intros p ->%list_elem_of_singleton.
      by eexists.
    + set_solver.
    + intros id p. rewrite lookup_empty. split; [done|]. intros (v & Hin & _). set_solver.
    + split_and!; [apply NoDup_singleton| |done|done]. intros p ->%list_elem_of_singleton.
      by eexists.
    + set_solver.
  - split; cbn; try done; try (repeat constructor); set_solver.
Qed.

Lemma rtc_step_rep i a i' :
  rep i a -> ainv a -> rtc step i i' -> exists a', rtc astep a a' /\ rep i' a' /\ ainv a'.
Proof.
  intros Hrep Ha Hsteps. revert a Hrep Ha. induction Hsteps as [i|i i1 i2 Hs _ IH]; intros a Hrep Ha.
  - exists a. eauto using rtc_refl.
  - destruct (step_simulated i a i1 Hrep Ha Hs) as (a1 & As & Hrep1 & Ha1).
    destruct (IH a1 Hrep1 Ha1) as (a2 & Ass & ? & ?). exists a2. eauto using rtc_l.
Qed.

Lemma reachable_rep i : reachable i -> exists a, rep i a /\ ainv a.
Proof.
  intros Hr. destruct rep_new as (a0 & R0 & A0).
  destruct (rtc_step_rep _ _ _ R0 A0 Hr) as (a & _ & ? & ?). eauto.
Qed.

(** What a read may see, as memSeries.iterator tests it. *)
Definition view (s : isolationState) : isoView :=
  mk_isoView (is_maxAppendID s) (elements (is_incompleteAppends s)).

Lemma visible_view s id :
  visible (view s) id = true <-> id <= is_maxAppendID s /\ id ∉ is_incompleteAppends s.
Proof.
  unfold visible, view. cbn [maxAppendID incompleteAppends].
  rewrite andb_true_iff, negb_true_iff, bool_decide_eq_false, Z.leb_le, elem_of_elements. done.
Qed.

Lemma rep_lowWatermark i a :
  rep i a -> lowWatermark i = match last (a_reads a) with
                              | Some e => is_lowWatermark e.2
                              | None => next_watermark a
                              end.
Proof.
  intros Hrep. pose proof (rep_next_watermark i a Hrep) as Hw. unfold lowWatermark, lowWatermarkLocked.
  rewrite (rep_enabled _ _ Hrep). destruct (exists_last (l := readsOpen :: (a_reads a).*1)) as (L & q & E); [done|].
  destruct (ring_prev_s _ _ _ _ _ (rep_reads_ring _ _ Hrep) E) as (-> & _).
  destruct (last (a_reads a)) as [[q' s]|] eqn:El.
  - apply last_Some in El as [r Er]. rewrite Er, fmap_app, app_comm_cons in E.
    apply app_inj_2 in E as [_ [= ->]]; [|done].
    pose proof (rep_reads_ring _ _ Hrep) as (Hnd & _). rewrite Er, fmap_app in Hnd. cbn in Hnd.
    apply NoDup_cons in Hnd as [Hnd _]. destruct (Z.eqb_spec q readsOpen) as [->|]; [set_solver|].
    cbn [negb]. f_equal. apply (rep_reads_val _ _ Hrep). rewrite Er. set_solver.
  - apply last_None in El. rewrite El in E. cbn in E. destruct L; [|by destruct L]. injection E as <-.
    by rewrite Z.eqb_refl.
Qed.

Definition acommitted (a : alists) : Z :=
  match a_open a with
  | [] => a_last a
  | (_, v) :: _ => appendID v - 1
  end.

Lemma rep_committed i a : rep i a -> ainv a -> committedAppendID i = acommitted a.
Proof.
  intros Hrep Ha. pose proof (ai_last _ Ha) as Hlt. unfold MaxUint64 in Hlt. unfold committedAppendID, acommitted. rewrite (rep_enabled _ _ Hrep).
  pose proof (rep_next_watermark i a Hrep) as Hw. unfold next_watermark in Hw.
  destruct (rep_open_ring _ _ Hrep) as (Hnd & _ & Hn & _).
  destruct (a_open a) as [|[p v] o] eqn:E; apply (f_equal head) in Hn; cbn in Hn; injection Hn as Hn; rewrite Hn in *.
  - rewrite Z.eqb_refl. apply Hrep.
  - apply NoDup_cons in Hnd as [Hnd _]. destruct (Z.eqb_spec p appendsOpenList) as [->|]; [set_solver|].
    rewrite Hw. pose proof (ai_range _ Ha (p, v)). rewrite E in *. apply u64_id. unfold is_u64.
    cbn [snd] in *. specialize (H ltac:(set_solver)). lia.
Qed.

Lemma acommitted_mono a a' : ainv a -> astep a a' -> acommitted a <= acommitted a'.
Proof.
  intros Ha Hs. unfold acommitted. destruct Hs as [p t _|o1 e o2 E| |q mint maxt|r1 e r2 E]; cbn [a_open a_last]; try lia.
  - destruct (a_open a) as [|[p' v'] o]; simpl; lia.
  - pose proof (ai_sorted _ Ha) as Hs. pose proof (ai_range _ Ha) as Hr. rewrite E in *.
    destruct o1 as [|[p1 v1] o1]; cbn [app] in *; [|lia]. destruct e as [p v].
    destruct o2 as [|[p2 v2] o2]; [specialize (Hr (p, v) ltac:(set_solver)); simpl in Hr; lia|].
    cbn [map snd] in Hs. apply StronglySorted_inv in Hs as [_ Hs]. apply Forall_cons in Hs as [Hs _]. lia.
Qed.

Lemma acommitted_mono_rtc a a' : ainv a -> rtc astep a a' -> acommitted a <= acommitted a'.
Proof.
  intros Ha Hs. induction Hs as [|a a1 a2 Hs _ IH]; [lia|].
  pose proof (acommitted_mono _ _ Ha Hs). specialize (IH (ainv_astep _ _ Ha Hs)). lia.
Qed.

Lemma open_above_committed a e : ainv a -> e ∈ a_open a -> acommitted a < appendID e.2.
Proof.
  intros Ha He. pose proof (open_ids_ge a e Ha He) as H. unfold next_watermark, acommitted in *.
  destruct (a_open a) as [|[p v] o]; [set_solver|lia].
Qed.


(** The pointers of open reads, in the lists. *)
Lemma rep_read i a q :
  rep i a -> q ∈ ring_nodes (states i) readsOpen <-> exists s, (q, s) ∈ a_reads a /\ val (states i) q = s.
Proof.
  intros Hrep. rewrite (ring_nodes_ring _ _ _ (rep_reads_ring _ _ Hrep)), list_elem_of_fmap. split.
  - intros ([q' s] & -> & Hin). exists s. split; [done|]. by apply (rep_reads_val _ _ Hrep).
  - intros (s & Hin & _). by exists (q, s).
Qed.

Lemma rep_open_dom i a id :
  rep i a -> id ∈ dom (appendsOpen i) <-> exists e, e ∈ a_open a /\ appendID e.2 = id.
Proof.
  intros Hrep. rewrite (dom_appendsOpen i a Hrep), elem_of_list_to_set, list_elem_of_In, in_map_iff.
  setoid_rewrite list_elem_of_In. naive_solver.
Qed.

(** The low watermark bounds the next one and every read's. *)
Lemma watermark_bounds i a :
  rep i a -> ainv a ->
  lowWatermark i <= next_watermark a /\
  forall e, e ∈ a_reads a -> lowWatermark i <= is_lowWatermark e.2.
Proof.
  intros Hrep Ha. rewrite (rep_lowWatermark i a Hrep). pose proof (ai_reads_sorted _ Ha) as Hs.
  destruct (last (a_reads a)) as [e0|] eqn:El.
  - apply last_Some in El as [r Er]. rewrite Er, map_app, app_comm_cons in Hs.
    apply StronglySorted_app in Hs as (Hs & _). cbn [map] in Hs.
    assert (Hge : forall x, x ∈ next_watermark a :: map (fun e => is_lowWatermark e.2) r ->
      is_lowWatermark e0.2 <= x) by (intros x Hx; apply Z.ge_le, Hs; set_solver).
    split; [apply Hge; set_solver|]. intros e He. rewrite Er in He.
    apply elem_of_app in He as [He|He]; [|apply list_elem_of_singleton in He as ->; lia].
    apply Hge, elem_of_cons. right. by apply (list_elem_of_fmap_2 (fun e : Z * isolationState => is_lowWatermark e.2)).
  - apply last_None in El. rewrite El. split; [lia|set_solver].
Qed.

(** ** Main theorems *)


(** C30: cleaning up below the low watermark is safe.  In every reachable state,
    an append ID below lowWatermark belongs to no open append, and every open
    read sees it; so a sample whose ID was dropped from a series' ring is one
    that all present and future reads may return. *)
Theorem lowWatermark_safe i id :
  reachable i -> id < lowWatermark i ->
  id ∉ dom (appendsOpen i) /\
  forall q, q ∈ ring_nodes (states i) readsOpen -> visible (view (val (states i) q)) id = true.
Proof.
  intros (a & Hrep & Ha)%reachable_rep Hid. destruct (watermark_bounds i a Hrep Ha) as [Hw Hr]. split.
  - rewrite (rep_open_dom i a) by done. intros (e & He & <-). pose proof (open_ids_ge a e Ha He). lia.
  - intros q (s & Hin & ->)%(rep_read i a q Hrep). apply visible_view.
    specialize (Hr _ Hin). destruct (ai_reads_see _ Ha _ Hin) as (H1 & H2 & H3). cbn [snd] in *.
    split; [lia|]. intros Hi%H3. lia.
Qed.

Lemma lowWatermark_safe_witness :
  let i := closeAppend (State (newAppendID (newAppendID (newIsolation false) 2 7).1 3 8).1 5 0 9) 2 in
  0 ∉ dom (appendsOpen i) /\
  forall q, q ∈ ring_nodes (states i) readsOpen -> visible (view (val (states i) q)) 0 = true.
Proof.
  apply (lowWatermark_safe _ 0); [|vm_compute; reflexivity].
  eapply rtc_l; [apply (step_newAppendID _ 2 7); [vm_compute; set_solver|vm_compute; reflexivity]|].
  eapply rtc_l; [apply (step_newAppendID _ 3 8); [vm_compute; set_solver|vm_compute; reflexivity]|].
  eapply rtc_l; [apply (step_State _ 5 0 9); vm_compute; set_solver|].
  eapply rtc_l; [apply (step_closeAppend _ 2)|]. apply rtc_refl.
Defined.

(** A read sees exactly the appends that were complete when it started.
    The state State returns makes an issued ID visible exactly when that append
    is not open at that moment, and no later step changes it while the read
    stays open. *)
Theorem State_snapshot i q mint maxt :
  reachable i -> q ∉ readsOpen :: ring_nodes (states i) readsOpen ->
  (forall id, visible (view (val (states (State i q mint maxt)) q)) id = true <->
     id <= lastAppendID i /\ id ∉ dom (appendsOpen i)) /\
  forall i1 i2 r, reachable i1 -> step i1 i2 ->
    r ∈ ring_nodes (states i1) readsOpen -> r ∈ ring_nodes (states i2) readsOpen ->
    val (states i2) r = val (states i1) r.
Proof.
  intros (a & Hrep & Ha)%reachable_rep Hq. split.
  - intros id. rewrite (ring_nodes_ring _ _ _ (rep_reads_ring _ _ Hrep)) in Hq.
    pose proof (rep_State i a q mint maxt Hrep Hq) as Hrep'.
    rewrite (rep_reads_val _ _ Hrep' q (snapshot a mint maxt)) by set_solver.
    rewrite visible_view, (dom_appendsOpen i a Hrep). unfold lastAppendID.
    by rewrite (rep_enabled _ _ Hrep), (rep_last _ _ Hrep).
  - clear. intros i1 i2 r (a & Hrep & Ha)%reachable_rep Hs Hr1 Hr2.
    apply (rep_read i1 a r Hrep) in Hr1 as (s & Hin & ->).
    destruct Hs as [p t Hp Hlast|id|q mint maxt Hq|q Hq].
    + unfold newAppendID. rewrite (rep_enabled _ _ Hrep). by apply (rep_reads_val _ _ Hrep).
    + unfold closeAppend. rewrite (rep_enabled _ _ Hrep). case_match; by apply (rep_reads_val _ _ Hrep).
    + rewrite (ring_nodes_ring _ _ _ (rep_reads_ring _ _ Hrep)) in Hq.
      pose proof (rep_State i1 a q mint maxt Hrep Hq) as Hrep'. apply (rep_reads_val _ _ Hrep'). set_solver.
    + apply (rep_read i1 a q Hrep) in Hq as (s' & Hin' & _). apply list_elem_of_split in Hin' as (r1 & r2 & E).
      pose proof (rep_reads_ring _ _ Hrep) as Hring. rewrite E, fmap_app in Hring.
      destruct (ring_unlink _ _ _ _ _ (unlink_read (states i1) q) (or_introl eq_refl) Hring) as [_ Hv].
      cbn [CloseState states]. rewrite Hv. by apply (rep_reads_val _ _ Hrep).
Qed.

Lemma State_snapshot_witness :
  let i := closeAppend (newAppendID (newAppendID (newIsolation false) 2 7).1 3 8).1 1 in
  (forall id, visible (view (val (states (State i 5 0 9)) 5)) id = true <->
     id <= lastAppendID i /\ id ∉ dom (appendsOpen i)) /\
  forall i1 i2 r, reachable i1 -> step i1 i2 ->
    r ∈ ring_nodes (states i1) readsOpen -> r ∈ ring_nodes (states i2) readsOpen ->
    val (states i2) r = val (states i1) r.
Proof.
  apply (State_snapshot _ 5 0 9); [|vm_compute; set_solver].
  eapply rtc_l; [apply (step_newAppendID _ 2 7); [vm_compute; set_solver|vm_compute; reflexivity]|].
  eapply rtc_l; [apply (step_newAppendID _ 3 8); [vm_compute; set_solver|vm_compute; reflexivity]|].
  eapply rtc_l; [apply (step_closeAppend _ 1)|]. apply rtc_refl.
Defined.

(** CommittedAppendID is a lower bound of the future.  Once it has returned
    [n], no ID up to [n] is open in any later state, so no later read lists it
    as incomplete. *)
Theorem committedAppendID_stable i i' id q mint maxt :
  reachable i -> rtc step i i' -> id <= committedAppendID i ->
  q ∉ readsOpen :: ring_nodes (states i') readsOpen ->
  id ∉ dom (appendsOpen i') /\
  id ∉ is_incompleteAppends (val (states (State i' q mint maxt)) q).
Proof.
  intros (a & Hrep & Ha)%reachable_rep Hs Hid Hq.
  destruct (rtc_step_rep _ _ _ Hrep Ha Hs) as (a' & As & Hrep' & Ha').
  rewrite (rep_committed i a Hrep Ha) in Hid. pose proof (acommitted_mono_rtc a a' Ha As) as Hm.
  assert (Hopen : id ∉ dom (appendsOpen i')).
  { rewrite (rep_open_dom i' a') by done. intros (e & He & <-). pose proof (open_above_committed a' e Ha' He). lia. }
  split; [done|]. rewrite (ring_nodes_ring _ _ _ (rep_reads_ring _ _ Hrep')) in Hq.
  rewrite (rep_reads_val _ _ (rep_State i' a' q mint maxt Hrep' Hq) q (snapshot a' mint maxt)) by set_solver.
  cbn [snapshot is_incompleteAppends]. by rewrite <-(dom_appendsOpen i' a').
Qed.

Lemma committedAppendID_stable_witness :
  let i := closeAppend (newAppendID (newIsolation false) 2 7).1 1 in
  let i' := (newAppendID i 2 9).1 in
  1 ∉ dom (appendsOpen i') /\ 1 ∉ is_incompleteAppends (val (states (State i' 5 0 9)) 5).
Proof.
  apply (committedAppendID_stable (closeAppend (newAppendID (newIsolation false) 2 7).1 1)
    (newAppendID (closeAppend (newAppendID (newIsolation false) 2 7).1 1) 2 9).1 1 5 0 9).
  - eapply rtc_l; [apply (step_newAppendID _ 2 7); [vm_compute; set_solver|vm_compute; reflexivity]|].
    eapply rtc_l; [apply (step_closeAppend _ 1)|]. apply rtc_refl.
  - eapply rtc_l; [apply (step_newAppendID _ 2 9); [vm_compute; set_solver|vm_compute; reflexivity]|].
    apply rtc_refl.
  - vm_compute. done.
  - vm_compute. set_solver.
Defined.
