(* ===== verification/OooHead.v ===== *)
(** tsdb/ooo_head.go: the out-of-order head chunk, and the chunk encodings of
    tsdb/chunkenc/chunk.go.

    Samples are kept uncompressed in a sorted slice; ToEncodedChunks compresses
    them into chunks of one encoding each.  The chunks and appenders are reached
    through the interface [ChunkOps]; [ChunkLaws] states what an appender
    promises, and ToEncodedChunks is verified against that. *)
From stdpp Require Import sorting.
From S2P Require Import Prelude GoSort Xor.

(** ** Encodings *)

Inductive ChunkEnc :=
  EncNone | EncXOR | EncHistogram | EncFloatHistogram | EncXOR2 | EncHistogramST | EncFloatHistogramST.

#[global] Instance ChunkEnc_eq_dec : EqDecision ChunkEnc.
Proof. solve_decision. Defined.

Definition IsValidEncoding (e : ChunkEnc) : bool :=
  bool_decide (e = EncXOR) || bool_decide (e = EncHistogram) || bool_decide (e = EncFloatHistogram)
  || bool_decide (e = EncXOR2) || bool_decide (e = EncHistogramST) || bool_decide (e = EncFloatHistogramST).

Definition ChunkEncoding (v : ValueType) (useXOR2 useHistogramST : bool) : ChunkEnc :=
  match v with
  | ValFloat => if useXOR2 then EncXOR2 else EncXOR
  | ValHistogram => if useHistogramST then EncHistogramST else EncHistogram
  | ValFloatHistogram => if useHistogramST then EncFloatHistogramST else EncFloatHistogram
  | ValNone => EncNone
  end.

Definition isFloatXOREncoding (e : ChunkEnc) : bool :=
  bool_decide (e = EncXOR) || bool_decide (e = EncXOR2).

Definition CompatibleValues (a b : ChunkEnc) : bool := isFloatXOREncoding a && isFloatXOREncoding b.

(** [copy(dst[k:], src)], where src may be a part of dst. *)
Definition go_copy {A} (k : nat) (src dst : list A) : list A :=
  take k dst ++ take (length dst - k) src ++ drop (k + length src) dst.

Section OOO.
  (** *histogram.Histogram and *histogram.FloatHistogram; nil is [None]. *)
  Context {H FH : Type}.

Record sample := mk_sample { s_st : Z; s_t : Z; s_f : Z; s_h : option H; s_fh : option FH }.

#[global] Instance sample_inhabited : Inhabited sample := populate (mk_sample 0 0 0 None None).

Definition sample_Type (s : sample) : ValueType :=
  match s_h s, s_fh s with
  | Some _, _ => ValHistogram
  | None, Some _ => ValFloatHistogram
  | None, None => ValFloat
  end.

(** Insert of the sample [x]; the result is the new slice and the return value. *)
Definition Insert (x : sample) (samples : list sample) : list sample * bool :=
  let n := length samples in
  if (n =? 0)%nat || (s_t (samples !!! (n - 1)%nat) <? s_t x) then (samples ++ [x], true)
  else
    let i := Search n (fun i => s_t x <=? s_t (samples !!! i)) in
    if (n <=? i)%nat then (samples ++ [x], true)
    else if s_t (samples !!! i) =? s_t x then (samples, false)
    else
      let grown := samples ++ [mk_sample 0 0 0 None None] in
      let moved := go_copy (i + 1) (drop i grown) grown in
      (<[i := x]> moved, true).

Definition NumSamples (samples : list sample) : nat := length samples.

(** ** Chunks and appenders *)

(** What AppendHistogram and AppendFloatHistogram do: append in place, return a
    recoded chunk that replaces the old one, or start a new chunk. *)
Inductive appended (C : Type) := Same (c : C) | Recoded (c : C) | NewChunk (c : C).
Arguments Same {C}.
Arguments Recoded {C}.
Arguments NewChunk {C}.

(** An appender writes to its chunk, so both are one value.  The first argument
    of the histogram appends is the appender of the previous sample. *)
Class ChunkOps (C : Type) := {
  NewEmptyChunk : ChunkEnc -> option C;
  Append : C -> sample -> C;
  AppendHistogram : option C -> C -> sample -> appended C;
  AppendFloatHistogram : option C -> C -> sample -> appended C }.

Record memChunk (C : Type) := mk_memChunk { mc_chunk : C; mc_minTime : Z; mc_maxTime : Z }.
Arguments mk_memChunk {C}.
Arguments mc_chunk {C}.
Arguments mc_minTime {C}.
Arguments mc_maxTime {C}.

(** What the appenders promise, in terms of the samples a chunk holds: an append
    adds the sample at the end, to the chunk itself or to a recoded copy of it,
    or else starts a chunk with that sample alone; an empty chunk takes the
    first sample without being replaced by a new chunk. *)
Class ChunkLaws (C : Type) `{!ChunkOps C} := {
  contents : C -> list sample;
  empty_contents : forall e, e <> EncNone -> exists c, NewEmptyChunk e = Some c /\ contents c = [];
  append_contents : forall c s, contents (Append c s) = contents c ++ [s];
  hist_contents : forall p c s, match AppendHistogram p c s with
    | Same c' | Recoded c' => contents c' = contents c ++ [s]
    | NewChunk c' => contents c' = [s] /\ contents c <> []
    end;
  fhist_contents : forall p c s, match AppendFloatHistogram p c s with
    | Same c' | Recoded c' => contents c' = contents c ++ [s]
    | NewChunk c' => contents c' = [s] /\ contents c <> []
    end }.

Section Encode.
  Context {C : Type} `{!ChunkOps C}.

(** The variables of the loop: [cur] is the chunk with cmint and cmaxt, and the
    previous encoding is not EncNone exactly when there is one. *)
Record enc_state := mk_enc_state {
  es_chks : list (memChunk C);
  es_cur : option (memChunk C);
  es_prevEncoding : ChunkEnc }.

Definition push (chks : list (memChunk C)) (cur : option (memChunk C)) : list (memChunk C) :=
  match cur with None => chks | Some c => chks ++ [c] end.

(** The switch after the chunk is chosen. *)
Definition append_sample (chks : list (memChunk C)) (prevApp : option C) (cur : memChunk C)
    (encoding : ChunkEnc) (s : sample) : enc_state :=
  let done (r : appended C) :=
    match r with
    | Same c | Recoded c => mk_enc_state chks (Some (mk_memChunk c (mc_minTime cur) (s_t s))) encoding
    | NewChunk c => mk_enc_state (chks ++ [cur]) (Some (mk_memChunk c (s_t s) (s_t s))) encoding
    end in
  match encoding with
  | EncXOR | EncXOR2 => done (Same (Append (mc_chunk cur) s))
  | EncHistogram | EncHistogramST => done (AppendHistogram prevApp (mc_chunk cur) s)
  | EncFloatHistogram | EncFloatHistogramST => done (AppendFloatHistogram prevApp (mc_chunk cur) s)
  | EncNone => done (Same (mc_chunk cur))
  end.

(** The body of the loop; [None] is the error return of NewEmptyChunk.  cmaxt is
    still that of the last sample when a chunk is pushed. *)
Definition encode_sample (useXOR2 useHistogramST : bool) (st : enc_state) (s : sample) : option enc_state :=
  let encoding := ChunkEncoding (sample_Type s) useXOR2 useHistogramST in
  let prevApp := mc_chunk <$> es_cur st in
  match (if decide (encoding = es_prevEncoding st) then es_cur st else None) with
  | Some cur => Some (append_sample (es_chks st) prevApp cur encoding s)
  | None =>
      match NewEmptyChunk encoding with
      | None => None
      | Some chunk =>
          Some (append_sample (push (es_chks st) (es_cur st)) prevApp
                  (mk_memChunk chunk (s_t s) (default 0 (mc_maxTime <$> es_cur st))) encoding s)
      end
  end.

Fixpoint encode_loop (mint maxt : Z) (useXOR2 useHistogramST : bool) (samples : list sample)
    (st : enc_state) : list (memChunk C) * option goerror :=
  match samples with
  | [] => (push (es_chks st) (es_cur st), None)
  | s :: rest =>
      if s_t s <? mint then encode_loop mint maxt useXOR2 useHistogramST rest st
      else if maxt <? s_t s then (push (es_chks st) (es_cur st), None)
      else
        match encode_sample useXOR2 useHistogramST st s with
        | None => (push (es_chks st) (es_cur st), Some (ErrFormat 0))
        | Some st => encode_loop mint maxt useXOR2 useHistogramST rest st
        end
  end.

Definition ToEncodedChunks (samples : list sample) (mint maxt : Z) (useXOR2 useHistogramST : bool)
  : list (memChunk C) * option goerror :=
  encode_loop mint maxt useXOR2 useHistogramST samples (mk_enc_state [] None EncNone).

(** ** What ToEncodedChunks returns *)

Section Spec.
  Context `{!ChunkLaws C}.

(** A chunk that holds samples and whose time range is theirs. *)
Definition chunk_ok (m : memChunk C) : Prop :=
  (exists s, head (contents (mc_chunk m)) = Some s /\ s_t s = mc_minTime m) /\
  (exists s, last (contents (mc_chunk m)) = Some s /\ s_t s = mc_maxTime m).

Definition all_contents (l : list (memChunk C)) : list sample :=
  concat (map (fun m => contents (mc_chunk m)) l).

(** The loop invariant: the pushed chunks and the current one hold the samples
    [done] in order. *)
Definition enc_inv (st : enc_state) (done : list sample) : Prop :=
  Forall chunk_ok (push (es_chks st) (es_cur st)) /\
  all_contents (push (es_chks st) (es_cur st)) = done /\
  (es_cur st = None -> es_prevEncoding st = EncNone).

Lemma all_contents_snoc l m : all_contents (l ++ [m]) = all_contents l ++ contents (mc_chunk m).
Proof. unfold all_contents. rewrite map_app, concat_app. cbn. by rewrite app_nil_r. Qed.

Lemma chunk_ok_snoc c c' lo hi s :
  chunk_ok (mk_memChunk c lo hi) -> contents c' = contents c ++ [s] -> chunk_ok (mk_memChunk c' lo (s_t s)).
Proof.
  intros [(a & Ha & Et) _] E. unfold chunk_ok. cbn [mc_chunk mc_minTime mc_maxTime] in *. rewrite E. split.
  - exists a. destruct (contents c); [done|]. by split.
  - exists s. by rewrite last_snoc.
Qed.

Lemma chunk_ok_single c s : contents c = [s] -> chunk_ok (mk_memChunk c (s_t s) (s_t s)).
Proof. intros E. unfold chunk_ok. cbn [mc_chunk mc_minTime mc_maxTime]. rewrite E. split; by exists s. Qed.

(** Appending to a current chunk that holds samples, or to a fresh one. *)
Lemma append_sample_inv chks p cur e s done :
  e <> EncNone -> Forall chunk_ok chks ->
  (chunk_ok cur \/ (contents (mc_chunk cur) = [] /\ mc_minTime cur = s_t s)) ->
  all_contents chks ++ contents (mc_chunk cur) = done ->
  enc_inv (append_sample chks p cur e s) (done ++ [s]).
Proof.
  intros He Hchks Hcur Hdone.
  assert (Hsame : forall c, contents c = contents (mc_chunk cur) ++ [s] ->
    enc_inv (mk_enc_state chks (Some (mk_memChunk c (mc_minTime cur) (s_t s))) e) (done ++ [s])).
  { intros c Hc. unfold enc_inv. cbn [es_chks es_cur push es_prevEncoding]. split_and!; [|..|done].
    - apply Forall_app. split; [done|]. apply Forall_singleton. destruct Hcur as [Hok|[Hnil ->]].
      + destruct cur. by eapply chunk_ok_snoc.
      + apply chunk_ok_single. by rewrite Hc, Hnil.
    - rewrite all_contents_snoc, <-Hdone. cbn [mc_chunk]. by rewrite Hc, app_assoc. }
  assert (Hnew : forall c, contents c = [s] -> contents (mc_chunk cur) <> [] ->
    enc_inv (mk_enc_state (chks ++ [cur]) (Some (mk_memChunk c (s_t s) (s_t s))) e) (done ++ [s])).
  { intros c Hc Hne. unfold enc_inv. cbn [es_chks es_cur push es_prevEncoding]. split_and!; [|..|done].
    - destruct Hcur as [Hok|[? _]]; [|done]. repeat (apply Forall_app; split); try done;
        apply Forall_singleton; [done|by apply chunk_ok_single].
    - rewrite !all_contents_snoc, <-Hdone. cbn [mc_chunk]. by rewrite Hc. }
  pose proof (hist_contents p (mc_chunk cur) s) as Hh. pose proof (fhist_contents p (mc_chunk cur) s) as Hf.
  unfold append_sample. destruct e; try done; try (apply Hsame, append_contents).
  1, 3: clear Hf; destruct (AppendHistogram p (mc_chunk cur) s);
    [by apply Hsame|by apply Hsame|by destruct Hh; apply Hnew].
  all: clear Hh; destruct (AppendFloatHistogram p (mc_chunk cur) s);
    [by apply Hsame|by apply Hsame|by destruct Hf; apply Hnew].
Qed.

Lemma encode_sample_inv b1 b2 st s done :
  enc_inv st done -> exists st', encode_sample b1 b2 st s = Some st' /\ enc_inv st' (done ++ [s]).
Proof.
  intros (Hok & Hall & Hnone). unfold encode_sample.
  set (e := ChunkEncoding (sample_Type s) b1 b2).
  assert (He : e <> EncNone).
  { unfold e, sample_Type. destruct (s_h s), (s_fh s), b1, b2; done. }
  destruct (if decide (e = es_prevEncoding st) then es_cur st else None) as [cur|] eqn:Ecur.
  - case_decide; [|done]. rewrite Ecur in *. cbn [push] in *. eexists. split; [done|].
    apply Forall_app in Hok as [Hchks Hc]. rewrite Forall_singleton in Hc.
    apply append_sample_inv; [done|done|by left|]. by rewrite <-Hall, all_contents_snoc.
  - destruct (empty_contents e He) as (c & -> & Hc). eexists. split; [done|].
    apply append_sample_inv; [done|done|by right|]. cbn [mc_chunk]. by rewrite Hc, app_nil_r.
Qed.

Lemma encode_loop_spec mint maxt b1 b2 samples : forall st done,
  StronglySorted (fun a b => s_t a < s_t b) samples -> enc_inv st done ->
  let '(chks, err) := encode_loop mint maxt b1 b2 samples st in
  err = None /\ Forall chunk_ok chks /\
  all_contents chks = done ++ filter (fun s => mint <= s_t s <= maxt) samples.
Proof.
  induction samples as [|s samples IH]; intros st done Hs Hinv; cbn [encode_loop].
  { destruct Hinv as (Hok & Hall & _). rewrite filter_nil, app_nil_r. done. }
  apply StronglySorted_inv in Hs as [Hs Hlt]. destruct (Z.ltb_spec (s_t s) mint) as [H1|H1].
  { rewrite filter_cons_False by lia. by apply IH. }
  destruct (Z.ltb_spec maxt (s_t s)) as [H2|H2].
  - destruct Hinv as (Hok & Hall & _). split_and!; [done|done|]. rewrite filter_none, app_nil_r; [done|].
    constructor; [lia|]. eapply Forall_impl; [exact Hlt|]. cbv beta. lia.
  - destruct (encode_sample_inv b1 b2 st s done Hinv) as (st' & -> & Hinv').
    specialize (IH st' (done ++ [s]) Hs Hinv'). rewrite filter_cons_True by lia.
    by rewrite <-app_assoc in IH.
Qed.

End Spec.
End Encode.
End OOO.
Arguments mk_memChunk {C}.
Arguments mc_chunk {C}.
Arguments mc_minTime {C}.
Arguments mc_maxTime {C}.
Arguments Same {C}.
Arguments Recoded {C}.
Arguments NewChunk {C}.

(** ** Insert *)

Lemma go_copy_shift {A} (l1 l2 : list A) z :
  go_copy (length l1 + 1) (drop (length l1) ((l1 ++ l2) ++ [z])) ((l1 ++ l2) ++ [z])
    = take (length l1 + 1) ((l1 ++ l2) ++ [z]) ++ l2.
Proof.
  unfold go_copy. rewrite <-!app_assoc, drop_app_length. f_equal.
  rewrite !length_app. cbn [length].
  replace (length l1 + (length l2 + 1) - (length l1 + 1))%nat with (length l2) by lia.
  rewrite take_app_length, drop_ge; [by rewrite app_nil_r|]. rewrite !length_app. cbn. lia.
Qed.

(** Making room and storing is inserting. *)
Lemma insert_moved {A} (l1 l2 : list A) z x :
  <[length l1 := x]> (go_copy (length l1 + 1) (drop (length l1) ((l1 ++ l2) ++ [z])) ((l1 ++ l2) ++ [z]))
    = l1 ++ x :: l2.
Proof.
  rewrite go_copy_shift. rewrite <-app_assoc. rewrite take_app_add.
  destruct (l2 ++ [z]) as [|y r] eqn:E; [by destruct l2|]. cbn [take].
  rewrite take_0, <-app_assoc. rewrite insert_app_r_alt, Nat.sub_diag by lia. done.
Qed.

Section InsertSpec.
  Context {H FH : Type}.
  Notation smp := (@sample H FH).
  Implicit Types (x : smp) (samples : list smp).

Definition sorted (samples : list smp) : Prop := StronglySorted (fun a b => s_t a < s_t b) samples.

(** A sorted slice splits at any timestamp. *)
Lemma sorted_split samples t :
  sorted samples ->
  exists l1 l2, samples = l1 ++ l2 /\ Forall (fun s => s_t s < t) l1 /\ Forall (fun s => t <= s_t s) l2 /\
    Search (length samples) (fun i => t <=? s_t (samples !!! i)) = length l1.
Proof.
  intros Hs. destruct (StronglySorted_split (fun s : smp => t <=? s_t s) samples) as (l1 & l2 & -> & F1 & F2).
  { eapply (StronglySorted_weaken (fun _ => True)); [|by apply Forall_true|exact Hs]. cbn. intros; lia. }
  exists l1, l2. split_and!; [done| | |].
  - eapply Forall_impl; [exact F1|]. cbn. intros; lia.
  - eapply Forall_impl; [exact F2|]. cbn. intros; lia.
  - by apply (Search_app (fun s : smp => t <=? s_t s)).
Qed.

Lemma sorted_insert l1 x l2 :
  sorted (l1 ++ l2) -> Forall (fun s => s_t s < s_t x) l1 -> Forall (fun s => s_t x < s_t s) l2 ->
  sorted (l1 ++ x :: l2).
Proof.
  unfold sorted. rewrite !StronglySorted_app. intros (H12 & S1 & S2) F1 F2. rewrite Forall_forall in F1.
  split_and!; [|done|by constructor]. intros a b Ha [->|Hb]%elem_of_cons; [by apply F1|by apply H12].
Qed.

(** Insert keeps the slice sorted and free of duplicates.  On a sorted
    slice, Insert refuses (and changes nothing) exactly when the timestamp is
    already there; otherwise it returns true and the sorted slice with the new
    sample added. *)
Theorem OOOChunk_Insert_spec x samples :
  sorted samples ->
  (Exists (fun s => s_t s = s_t x) samples -> Insert x samples = (samples, false)) /\
  (Forall (fun s => s_t s <> s_t x) samples ->
     exists out, Insert x samples = (out, true) /\ sorted out /\ out ≡ₚ x :: samples).
Proof.
  intros Hs. destruct (sorted_split samples (s_t x) Hs) as (l1 & l2 & -> & F1 & F2 & Hi).
  assert (Hins : Insert x (l1 ++ l2) =
    match l2 with
    | s :: _ => if s_t s =? s_t x then (l1 ++ l2, false) else (l1 ++ x :: l2, true)
    | [] => (l1 ++ [x], true)
    end).
  { unfold Insert. rewrite Hi. destruct l2 as [|s l2].
    { rewrite app_nil_r. destruct (_ || _); [done|]. by rewrite Nat.leb_refl. }
    rewrite (proj2 (Nat.eqb_neq _ _)) by (rewrite length_app; simpl; lia). cbn [orb].
    assert (Hlast : s_t x <= s_t ((l1 ++ s :: l2) !!! (length (l1 ++ s :: l2) - 1)%nat)).
    { rewrite length_app, lookup_total_app_r by (simpl; lia). rewrite Forall_lookup in F2.
      eapply F2. apply list_lookup_lookup_total_lt. simpl. lia. }
    rewrite (proj2 (Z.ltb_ge _ _)) by lia.
    rewrite (proj2 (Nat.leb_gt _ _)) by (rewrite length_app; simpl; lia).
    rewrite lookup_total_app_r, Nat.sub_diag by lia. cbn [lookup_total list_lookup_total].
    destruct (s_t s =? s_t x); [done|]. by rewrite insert_moved. }
  rewrite Hins. split.
  - intros [(s & Hin & E)%Exists_exists|Hex]%Exists_app.
    { rewrite Forall_forall in F1. specialize (F1 _ Hin). lia. }
    destruct l2 as [|s l2]; [by apply Exists_nil in Hex|]. destruct (Z.eqb_spec (s_t s) (s_t x)); [done|].
    apply Forall_cons in F2 as [F2 _]. apply StronglySorted_app in Hs as (_ & _ & Hs).
    apply StronglySorted_inv in Hs as [_ Hs]. rewrite Forall_forall in Hs.
    apply Exists_cons in Hex as [?|(s' & Hin & E)%Exists_exists]; [done|]. specialize (Hs _ Hin). lia.
  - intros [_ Fne]%Forall_app. destruct l2 as [|s l2].
    + exists (l1 ++ [x]). split_and!; [done| |].
      * apply sorted_insert; [done..|constructor].
      * rewrite app_nil_r. by rewrite (Permutation_app_comm l1 [x]).
    + apply Forall_cons in Fne as Fne'. destruct (Z.eqb_spec (s_t s) (s_t x)); [tauto|].
      exists (l1 ++ x :: s :: l2). split_and!; [done| |by rewrite Permutation_middle].
      apply sorted_insert; [done|done|]. rewrite Forall_forall in F2, Fne |- *. intros s' Hin.
      specialize (F2 _ Hin). specialize (Fne _ Hin). lia.
Qed.

Lemma ToEncodedChunks_spec {C} `{!@ChunkOps H FH C} `{!ChunkLaws C} samples mint maxt b1 b2 :
  sorted samples ->
  exists chks, ToEncodedChunks samples mint maxt b1 b2 = (chks, None) /\ Forall chunk_ok chks /\
    all_contents chks = filter (fun s => mint <= s_t s <= maxt) samples.
Proof.
  intros Hs. unfold ToEncodedChunks.
  pose proof (encode_loop_spec mint maxt b1 b2 samples (mk_enc_state [] None EncNone) []) as Hspec.
  destruct (encode_loop _ _ _ _ _ _) as [chks err]. exists chks.
  destruct Hspec as (-> & Hok & Hall); [done| |done]. split_and!; [constructor|done|done].
Qed.

(** ToEncodedChunks loses and reorders nothing.  For a sorted slice and any
    appenders that keep their promises it returns no error, and chunks whose
    samples, one chunk after the other, are exactly the samples in
    [mint, maxt]; every chunk holds samples and its time range is the
    timestamps of its first and last one. *)
Theorem ToEncodedChunks_complete {C} `{!@ChunkOps H FH C} `{!ChunkLaws C} samples mint maxt b1 b2 :
  sorted samples ->
  exists chks, ToEncodedChunks samples mint maxt b1 b2 = (chks, None) /\ Forall chunk_ok chks /\
    all_contents chks = filter (fun s => mint <= s_t s <= maxt) samples.
Proof. apply ToEncodedChunks_spec. Qed.

End InsertSpec.

(** A concrete implementation of the interface: a chunk is its list of samples;
    histogram appends start a new chunk after two samples. *)
#[local] Instance list_chunk_ops : @ChunkOps unit unit (list (@sample unit unit)) := {|
  NewEmptyChunk e := if decide (e = EncNone) then None else Some [];
  Append c s := c ++ [s];
  AppendHistogram _ c s := if (2 <=? length c)%nat then NewChunk [s] else Same (c ++ [s]);
  AppendFloatHistogram _ c s := Recoded (c ++ [s]) |}.

#[local] Instance list_chunk_laws : ChunkLaws (list (@sample unit unit)).
Proof.
  refine {| contents := fun c => c |}; intros; cbn.
  - rewrite decide_False by done. eauto.
  - done.
  - destruct c as [|? [|? ?]]; done.
  - done.
Defined.

Definition flt (t : Z) : @sample unit unit := mk_sample 0 t 0 None None.
Definition hst (t : Z) : @sample unit unit := mk_sample 0 t 0 (Some tt) None.

Lemma OOOChunk_Insert_spec_witness :
  (Exists (fun s => s_t s = 5) [flt 3; flt 9] -> Insert (flt 5) [flt 3; flt 9] = ([flt 3; flt 9], false)) /\
  (Forall (fun s => s_t s <> 5) [flt 3; flt 9] ->
     exists out, Insert (flt 5) [flt 3; flt 9] = (out, true) /\ sorted out /\ out ≡ₚ flt 5 :: [flt 3; flt 9]).
Proof. apply (OOOChunk_Insert_spec (flt 5) [flt 3; flt 9]). repeat constructor. Defined.

Lemma ToEncodedChunks_complete_witness :
  exists chks : list (memChunk (list (@sample unit unit))),
    ToEncodedChunks [flt 1; hst 2; hst 3; hst 4; flt 5] 1 4 false false = (chks, None) /\ Forall chunk_ok chks /\
    all_contents chks = filter (fun s => 1 <= s_t s <= 4) [flt 1; hst 2; hst 3; hst 4; flt 5].
Proof. apply (ToEncodedChunks_complete [flt 1; hst 2; hst 3; hst 4; flt 5] 1 4 false false). repeat constructor. Defined.
