(* ===== verification/Postings.v ===== *)
(** tsdb/index/postings.go: iterators over ordered series references and their
    combinators.

    [Postings] is the Go interface; [PostingsLaws] is its documented contract
    (Next and Seek walk an increasing list).  listPostings and
    bigEndianPostings satisfy it; intersectPostings and removedPostings are
    verified against it for any postings that do, and satisfy it again, so they
    nest. *)
From stdpp Require Import sorting.
From S2P Require Import Prelude BitList GoSort.

Class Postings (P : Type) := {
  pNext : P -> bool * P;
  pSeek : Z -> P -> bool * P;
  pAt : P -> Z;
  pSize : P -> nat }.   (* a bound on the values left; the fuel of the loops below *)

(** ** Implementations *)

(** listPostings. *)
Record listPostings := mk_listPostings { lp_list : list Z; lp_cur : Z }.

Definition NewListPostings (l : list Z) : listPostings := mk_listPostings l 0.

Definition listPostings_Next (it : listPostings) : bool * listPostings :=
  match lp_list it with
  | x :: l => (true, mk_listPostings l x)
  | [] => (false, mk_listPostings [] 0)
  end.

Definition listPostings_Seek (x : Z) (it : listPostings) : bool * listPostings :=
  if x <=? lp_cur it then (true, it)
  else match lp_list it with
       | [] => (false, it)
       | y :: _ =>
           let i := if y <? x then BinarySearch (lp_list it) x else O in
           if (length (lp_list it) <=? i)%nat then (false, mk_listPostings [] (lp_cur it))
           else (true, mk_listPostings (drop (i + 1) (lp_list it)) (lp_list it !!! i))
       end.

#[global] Instance listPostings_ops : Postings listPostings := {|
  pNext := listPostings_Next;
  pSeek := listPostings_Seek;
  pAt := lp_cur;
  pSize it := length (lp_list it) |}.

(** bigEndianPostings: a byte slice of big-endian uint32s. *)
Record bigEndianPostings := mk_bigEndianPostings { bp_list : list Z; bp_cur : Z }.

Definition newBigEndianPostings (l : list Z) : bigEndianPostings := mk_bigEndianPostings l 0.

Definition Uint32 (b : list Z) : Z := be_uint (take 4 b).

Definition bigEndianPostings_Next (it : bigEndianPostings) : bool * bigEndianPostings :=
  if (4 <=? length (bp_list it))%nat
  then (true, mk_bigEndianPostings (drop 4 (bp_list it)) (Uint32 (bp_list it)))
  else (false, it).

Definition bigEndianPostings_Seek (x : Z) (it : bigEndianPostings) : bool * bigEndianPostings :=
  if x <=? bp_cur it then (true, it)
  else
    let num := (length (bp_list it) / 4)%nat in
    let i := Search num (fun i => u32 x <=? Uint32 (drop (i * 4) (bp_list it))) in
    if (i <? num)%nat then
      let j := (i * 4)%nat in
      (true, mk_bigEndianPostings (drop (j + 4) (bp_list it)) (Uint32 (drop j (bp_list it))))
    else (false, mk_bigEndianPostings [] (bp_cur it)).

#[global] Instance bigEndianPostings_ops : Postings bigEndianPostings := {|
  pNext := bigEndianPostings_Next;
  pSeek := bigEndianPostings_Seek;
  pAt := bp_cur;
  pSize it := (length (bp_list it) / 4)%nat |}.

(** intersectPostings. *)
Section Intersect.
  Context {P : Type} `{!Postings P}.

Record intersectPostings := mk_intersectPostings { ip_postings : list P; ip_current : Z }.

Definition newIntersectPostings (its : list P) : intersectPostings := mk_intersectPostings its 0.

(** One turn of the outer loop of Seek: whether every Seek succeeded, the new
    target and allEqual, and the postings. *)
Fixpoint seek_round (target : Z) (allEqual : bool) (ps : list P) : bool * (Z * bool) * list P :=
  match ps with
  | [] => (true, (target, allEqual), [])
  | p :: ps' =>
      let '(ok, p) := pSeek target p in
      if ok then
        let '(target, allEqual) := if target <? pAt p then (pAt p, false) else (target, allEqual) in
        let '(ok, te, ps') := seek_round target allEqual ps' in
        (ok, te, p :: ps')
      else (false, (target, allEqual), p :: ps')
  end.

(** Every turn but the last raises the target to a value of some postings, so
    as many turns as there are values are enough ([seek_fuel]). *)
Fixpoint intersect_loop (fuel : nat) (target : Z) (it : intersectPostings) : bool * intersectPostings :=
  match fuel with
  | O => (false, it)
  | S fuel' =>
      let '(ok, (target, allEqual), ps) := seek_round target true (ip_postings it) in
      if negb ok then (false, mk_intersectPostings ps (ip_current it))
      else if allEqual then (true, mk_intersectPostings ps target)
      else intersect_loop fuel' target (mk_intersectPostings ps (ip_current it))
  end.

Definition seek_fuel (ps : list P) : nat := S (sum_list_with (fun p => S (pSize p)) ps).

Definition intersect_Seek (target : Z) (it : intersectPostings) : bool * intersectPostings :=
  intersect_loop (seek_fuel (ip_postings it)) target it.

Fixpoint next_round (target : Z) (allEqual : bool) (ps : list P) : bool * (Z * bool) * list P :=
  match ps with
  | [] => (true, (target, allEqual), [])
  | p :: ps' =>
      let '(ok, p) := pNext p in
      if ok then
        let at_ := pAt p in
        let '(target, allEqual) :=
          if target <? at_ then (at_, false)
          else if at_ <? target then (target, false) else (target, allEqual) in
        let '(ok, te, ps') := next_round target allEqual ps' in
        (ok, te, p :: ps')
      else (false, (target, allEqual), p :: ps')
  end.

(** newIntersectPostings gets at least two postings, so [it.postings[0]] exists. *)
Definition intersect_Next (it : intersectPostings) : bool * intersectPostings :=
  match ip_postings it with
  | [] => (false, it)
  | p :: ps =>
      let '(ok, p) := pNext p in
      if negb ok then (false, mk_intersectPostings (p :: ps) (ip_current it))
      else
        let '(ok, (target, allEqual), ps) := next_round (pAt p) true ps in
        let it := mk_intersectPostings (p :: ps) (ip_current it) in
        if negb ok then (false, it)
        else if allEqual then (true, mk_intersectPostings (ip_postings it) target)
        else intersect_Seek target it
  end.

#[global] Instance intersectPostings_ops : Postings intersectPostings := {|
  pNext := intersect_Next;
  pSeek := intersect_Seek;
  pAt := ip_current;
  pSize it := sum_list_with pSize (ip_postings it) |}.

End Intersect.
Arguments intersectPostings : clear implicits.

(** removedPostings. *)
Section Removed.
  Context {P Q : Type} `{!Postings P} `{!Postings Q}.

Record removedPostings := mk_removedPostings {
  rp_full : P; rp_remove : Q; rp_cur : Z; rp_initialized : bool; rp_fok : bool; rp_rok : bool }.

Definition newRemovedPostings (full : P) (remove : Q) : removedPostings :=
  mk_removedPostings full remove 0 false false false.

(** Every turn advances one of the two postings. *)
Fixpoint removed_loop (fuel : nat) (rp : removedPostings) : bool * removedPostings :=
  match fuel with
  | O => (false, rp)
  | S fuel' =>
      let '(mk_removedPostings full remove cur init fok rok) := rp in
      if negb fok then (false, rp)
      else if negb rok then
        let c := pAt full in
        let '(fok, full) := pNext full in
        (true, mk_removedPostings full remove c init fok rok)
      else
        let fcur := pAt full in
        let rcur := pAt remove in
        if fcur <? rcur then
          let '(fok, full) := pNext full in
          (true, mk_removedPostings full remove fcur init fok rok)
        else if rcur <? fcur then
          let '(rok, remove) := pSeek fcur remove in
          removed_loop fuel' (mk_removedPostings full remove cur init fok rok)
        else
          let '(fok, full) := pNext full in
          removed_loop fuel' (mk_removedPostings full remove cur init fok rok)
  end.

Definition removed_fuel (rp : removedPostings) : nat := 3 + pSize (rp_full rp) + pSize (rp_remove rp).

Definition removed_Next (rp : removedPostings) : bool * removedPostings :=
  let fuel := removed_fuel rp in
  if rp_initialized rp then removed_loop fuel rp
  else
    let '(fok, full) := pNext (rp_full rp) in
    let '(rok, remove) := pNext (rp_remove rp) in
    removed_loop fuel (mk_removedPostings full remove (rp_cur rp) true fok rok).

Definition removed_Seek (id : Z) (rp : removedPostings) : bool * removedPostings :=
  if id <=? rp_cur rp then (true, rp)
  else
    let '(fok, full) := pSeek id (rp_full rp) in
    let '(rok, remove) := pSeek id (rp_remove rp) in
    removed_Next (mk_removedPostings full remove (rp_cur rp) true fok rok).

#[global] Instance removedPostings_ops : Postings removedPostings := {|
  pNext := removed_Next;
  pSeek := removed_Seek;
  pAt := rp_cur;
  pSize rp := S (pSize (rp_full rp)) |}.

End Removed.
Arguments removedPostings : clear implicits.

(** ExpandPostings: [for p.Next() { res = append(res, p.At()) }]. *)
Fixpoint expand_loop {P} `{!Postings P} (fuel : nat) (p : P) : option (list Z) :=
  match fuel with
  | O => None
  | S fuel' =>
      let '(ok, p) := pNext p in
      if ok then cons (pAt p) <$> expand_loop fuel' p else Some []
  end.

Definition ExpandPostings {P} `{!Postings P} (p : P) : option (list Z) := expand_loop (S (pSize p)) p.

(** ** The contract *)

(** The first value not below [v], and what follows it. *)
Fixpoint first_ge (v : Z) (l : list Z) : option (Z * list Z) :=
  match l with
  | [] => None
  | x :: l' => if v <=? x then Some (x, l') else first_ge v l'
  end.

(** Where Seek goes from the current value [c] with [l] to come. *)
Definition seek_list (v : Z) (c : option Z) (l : list Z) : option (Z * list Z) :=
  match c with
  | Some x => if v <=? x then Some (x, l) else first_ge v l
  | None => first_ge v l
  end.

(** The values an iterator is at or will reach. *)
Definition avail (c : option Z) (l : list Z) : list Z := option_list c ++ l.

(** Positive, increasing references below the bound. *)
Definition refs_ok (bound : Z) (l : list Z) : Prop :=
  StronglySorted Z.lt l /\ Forall (fun x => 0 < x < bound) l.

(** [prep p c l]: [p] is at [c] ([None] before the first call) with [l] to come.
    [pdead p t]: [p] has returned false; targets from [t] on are past its end. *)
Class PostingsLaws (P : Type) `{!Postings P} := {
  prep : P -> option Z -> list Z -> Prop;
  pdead : P -> Z -> Prop;
  pbound : Z;
  prep_ok : forall p c l, prep p c l -> refs_ok pbound (avail c l);
  prep_size : forall p c l, prep p c l -> (length l <= pSize p)%nat;
  pAt_rep : forall p c l, prep p (Some c) l -> pAt p = c;
  pNext_rep : forall p c l, prep p c l ->
    match l with
    | x :: l' => exists p', pNext p = (true, p') /\ prep p' (Some x) l'
    | [] => exists p', pNext p = (false, p') /\ pdead p' (default 0 c + 1)
    end;
  pSeek_rep : forall p c l v, prep p c l -> 0 < v < pbound ->
    match seek_list v c l with
    | Some (x, l') => exists p', pSeek v p = (true, p') /\ prep p' (Some x) l'
    | None => exists p', pSeek v p = (false, p') /\ pdead p' v
    end;
  pdead_mono : forall p t t', pdead p t -> t <= t' -> pdead p t' }.

(** Postings that keep returning false for targets past their end. *)
Class PostingsEnd (P : Type) `{!Postings P} `{!PostingsLaws P} : Prop :=
  pdead_seek : forall p t v, pdead p t -> t <= v < pbound (P := P) ->
    exists p', pSeek v p = (false, p') /\ pdead p' v.

(** ** Increasing lists *)

Lemma refs_ok_sub bound l l' :
  refs_ok bound l -> StronglySorted Z.lt l' -> (forall x, x ∈ l' -> x ∈ l) -> refs_ok bound l'.
Proof. intros [_ F] Hs Hsub. split; [done|]. rewrite Forall_forall in *. auto. Qed.

Lemma refs_ok_app_r bound a b : refs_ok bound (a ++ b) -> refs_ok bound b.
Proof.
  intros [Hs F]. apply StronglySorted_app in Hs as (_ & _ & Hs). apply Forall_app in F as [_ F]. done.
Qed.

Lemma refs_ok_cons bound x l :
  refs_ok bound (x :: l) <-> 0 < x < bound /\ Forall (Z.lt x) l /\ refs_ok bound l.
Proof. unfold refs_ok. rewrite StronglySorted_cons, Forall_cons. tauto. Qed.

Lemma sorted_NoDup l : StronglySorted Z.lt l -> NoDup l.
Proof.
  induction 1 as [|x l _ IH Hx]; constructor; [|done]. rewrite Forall_forall in Hx.
  intros Hin. specialize (Hx _ Hin). lia.
Qed.

(** Increasing lists with the same elements are equal. *)
Lemma sorted_ext l l' :
  StronglySorted Z.lt l -> StronglySorted Z.lt l' -> (forall x, x ∈ l <-> x ∈ l') -> l = l'.
Proof.
  intros Hs Hs' Hext. apply (StronglySorted_unique_strong Z.lt); [|done|done|].
  - intros; lia.
  - apply NoDup_Permutation; [by apply sorted_NoDup..|done].
Qed.

Lemma sorted_filter (Q : Z -> Prop) `{!forall x, Decision (Q x)} l :
  StronglySorted Z.lt l -> StronglySorted Z.lt (filter Q l).
Proof.
  induction 1 as [|x l Hs IH Hx]; [constructor|]. rewrite filter_cons. case_decide; [|done].
  constructor; [done|]. rewrite Forall_forall in Hx |- *. intros y [_ Hy]%list_elem_of_filter. auto.
Qed.

Lemma first_ge_spec v l :
  StronglySorted Z.lt l ->
  match first_ge v l with
  | Some (x, r) => v <= x /\ x ∈ l /\ StronglySorted Z.lt (x :: r) /\
      forall y, y ∈ x :: r <-> y ∈ l /\ v <= y
  | None => forall y, y ∈ l -> y < v
  end.
Proof.
  induction 1 as [|x l Hs IH Hx]; cbn [first_ge]; [set_solver|]. destruct (Z.leb_spec v x) as [Hv|Hv].
  - rewrite Forall_forall in Hx. split_and!; [done|set_solver|by constructor; [|apply Forall_forall]|].
    intros y. split; [|tauto]. intros Hy. split; [done|].
    apply elem_of_cons in Hy as [->|Hy]; [lia|]. specialize (Hx _ Hy). lia.
  - destruct (first_ge v l) as [[y r]|].
    + destruct IH as (H1 & H2 & H3 & H4). split_and!; [done|set_solver|done|]. intros z. rewrite H4.
      split; [set_solver|]. intros [[->|Hz]%elem_of_cons Hv']; [lia|done].
    + intros y [->|Hy]%elem_of_cons; [done|by apply IH].
Qed.

(** Seek lands on the first available value not below the target, and keeps
    everything from there on. *)
Lemma seek_list_spec v c l :
  StronglySorted Z.lt (avail c l) ->
  match seek_list v c l with
  | Some (x, r) => v <= x /\ x ∈ avail c l /\ StronglySorted Z.lt (x :: r) /\
      forall y, y ∈ x :: r <-> y ∈ avail c l /\ v <= y
  | None => forall y, y ∈ avail c l -> y < v
  end.
Proof.
  intros Hs. destruct c as [c|]; [|by apply first_ge_spec]. cbn [seek_list avail option_list app] in *.
  pose proof (first_ge_spec v (c :: l) Hs) as H. cbn [first_ge] in H. by destruct (v <=? c).
Qed.

Lemma seek_list_size v c l x r : seek_list v c l = Some (x, r) -> (length r <= length l)%nat.
Proof.
  assert (forall r', first_ge v l = Some (x, r') -> length r' <= length l)%nat as H.
  { induction l as [|y l IH]; intros r'; cbn [first_ge]; [done|]. destruct (v <=? y).
    - intros [= _ ->]. simpl. lia.
    - intros E%IH. simpl. lia. }
  destruct c as [c|]; cbn [seek_list]; [destruct (v <=? c)|]; [by intros [= _ ->]|by intros ?%H..].
Qed.

Lemma first_ge_drop v a b :
  Forall (fun x => x < v) a -> Forall (fun x => v <= x) b ->
  first_ge v (a ++ b) = match b with [] => None | x :: r => Some (x, r) end.
Proof.
  induction 1 as [|x a Hx _ IH]; intros Hb; cbn [app first_ge].
  - destruct Hb as [|x b Hx _]; [done|]. cbn [first_ge]. by rewrite (proj2 (Z.leb_le _ _)) by lia.
  - rewrite (proj2 (Z.leb_gt _ _)) by lia. by apply IH.
Qed.

(** ** ExpandPostings returns all values *)

Lemma expand_loop_spec {P} `{!Postings P} `{!PostingsLaws P} fuel p c l :
  prep p c l -> (length l < fuel)%nat -> expand_loop fuel p = Some l.
Proof.
  revert p c l. induction fuel as [|fuel IH]; intros p c l Hp Hf; [lia|]. cbn [expand_loop].
  pose proof (pNext_rep p c l Hp) as Hn. destruct l as [|x l].
  - by destruct Hn as (p' & -> & _).
  - destruct Hn as (p' & -> & Hp'). rewrite (pAt_rep _ _ _ Hp').
    rewrite (IH p' (Some x) l) by (done || simpl in Hf; lia). done.
Qed.

Lemma ExpandPostings_spec {P} `{!Postings P} `{!PostingsLaws P} p c l :
  prep p c l -> ExpandPostings p = Some l.
Proof. intros Hp. apply (expand_loop_spec _ p c l Hp). pose proof (prep_size p c l Hp). lia. Qed.

(** ** listPostings satisfies the contract *)

Lemma sorted_split_ge v l :
  StronglySorted Z.lt l -> exists a b, l = a ++ b /\ Forall (fun x => x < v) a /\ Forall (fun x => v <= x) b.
Proof.
  intros Hs. destruct (StronglySorted_split (fun x => v <=? x) l) as (a & b & -> & Fa & Fb).
  { eapply (StronglySorted_weaken (fun _ => True)); [|by apply Forall_true|exact Hs]. cbn. intros; lia. }
  exists a, b. split_and!; [done| |].
  - eapply Forall_impl; [exact Fa|]. cbn. intros; lia.
  - eapply Forall_impl; [exact Fb|]. cbn. intros; lia.
Qed.

Definition list_rep (it : listPostings) (c : option Z) (l : list Z) : Prop :=
  lp_list it = l /\ lp_cur it = default 0 c /\ refs_ok (2 ^ 64) (avail c l).

Lemma list_seek it c l v :
  list_rep it c l -> 0 < v ->
  match seek_list v c l with
  | Some (x, l') => exists p', listPostings_Seek v it = (true, p') /\ list_rep p' (Some x) l'
  | None => exists p', listPostings_Seek v it = (false, p') /\ lp_list p' = [] /\ lp_cur p' < v
  end.
Proof.
  intros (<- & Hc & Hok) Hv. unfold listPostings_Seek.
  assert (Hcur : forall x, c = Some x -> lp_cur it = x) by (intros x ->; done).
  destruct (Z.leb_spec v (lp_cur it)) as [Hle|Hlt].
  { destruct c as [c|]; [|simpl in Hc; lia]. cbn [seek_list]. simpl in Hc. subst c.
    rewrite (proj2 (Z.leb_le _ _)) by done. exists it. done. }
  assert (Hseek : seek_list v c (lp_list it) = first_ge v (lp_list it)).
  { destruct c as [c|]; [|done]. cbn [seek_list]. rewrite (proj2 (Z.leb_gt _ _)); [done|].
    by rewrite (Hcur c) in Hlt. }
  rewrite Hseek. pose proof (refs_ok_app_r _ _ _ Hok) as [Hs Hf].
  destruct (sorted_split_ge v (lp_list it) Hs) as (a & b & El & Fa & Fb).
  destruct (lp_list it) as [|y l] eqn:E; [by exists it|].
  assert (Hi : (if y <? v then BinarySearch (y :: l) v else O) = length a).
  { destruct (Z.ltb_spec y v).
    - unfold BinarySearch. rewrite El. apply (Search_app (fun x => v <=? x)).
      + eapply Forall_impl; [exact Fa|]. cbn. intros; lia.
      + eapply Forall_impl; [exact Fb|]. cbn. intros; lia.
    - destruct a as [|y' a]; [done|]. simpl in El. injection El as -> _.
      apply Forall_cons in Fa as [Fa _]. lia. }
  rewrite Hi, El, first_ge_drop by done. rewrite length_app. destruct b as [|x b].
  - rewrite (proj2 (Nat.leb_le _ _)) by (simpl; lia). by eexists.
  - rewrite (proj2 (Nat.leb_gt _ _)) by (simpl; lia). eexists. split; [done|].
    rewrite El in Hok. apply refs_ok_app_r in Hok. apply refs_ok_app_r in Hok.
    split_and!; cbn [lp_list lp_cur].
    + rewrite cons_middle, app_assoc, drop_app_length' by (rewrite length_app; done). done.
    + by rewrite lookup_total_app_r, Nat.sub_diag by lia.
    + done.
Qed.

#[global] Instance listPostings_laws : PostingsLaws listPostings.
Proof.
  refine {| prep := list_rep; pdead := fun it t => lp_list it = [] /\ lp_cur it < t; pbound := 2 ^ 64 |}.
  - by intros p c l (_ & _ & ?).
  - intros p c l (<- & _ & _). done.
  - by intros p c l (_ & ? & _).
  - intros p c l (Hl & Hc & Hok). cbn [pNext listPostings_ops]. unfold listPostings_Next. rewrite Hl.
    destruct l as [|x l]; eexists; (split; [done|]).
    + cbn [lp_list lp_cur]. split; [done|]. destruct c as [c|]; cbn; [|lia].
      apply refs_ok_cons in Hok. lia.
    + split_and!; [done|done|]. by apply refs_ok_app_r in Hok.
  - intros p c l v Hp Hv. cbn [pSeek listPostings_ops]. apply list_seek; [done|lia].
  - intros p t t' [? ?] ?. split; [done|lia].
Defined.

#[global] Instance listPostings_end : PostingsEnd listPostings.
Proof.
  intros p t v [Hl Hc] Hv. exists p. cbn. unfold listPostings_Seek.
  rewrite (proj2 (Z.leb_gt _ _)) by lia. rewrite Hl. split; [done|]. split; [done|lia].
Qed.

(** ** bigEndianPostings satisfies the contract *)

(** The bytes of a list of references, as the index writes them. *)
Definition be_refs (l : list Z) : list Z := concat (map (be_bytes 4) l).

Lemma length_be_refs l : length (be_refs l) = (length l * 4)%nat.
Proof.
  unfold be_refs. induction l as [|x l IH]; [done|]. cbn [map concat]. rewrite length_app, length_be_bytes, IH.
  simpl. lia.
Qed.

Lemma drop_be_refs i l : drop (i * 4) (be_refs l) = be_refs (drop i l).
Proof.
  revert l. induction i as [|i IH]; intros l; [done|]. destruct l as [|x l]; [by rewrite drop_nil|].
  unfold be_refs. cbn [map concat drop]. change (S i * 4)%nat with (4 + i * 4)%nat.
  rewrite <-drop_drop, drop_app_length' by (by rewrite length_be_bytes). apply IH.
Qed.

Lemma Uint32_be_refs x l : 0 < x < 2 ^ 32 -> Uint32 (be_refs (x :: l)) = x.
Proof.
  intros Hx. unfold Uint32, be_refs. cbn [map concat].
  rewrite take_app_length' by (by rewrite length_be_bytes). rewrite be_uint_be_bytes.
  apply Z.mod_small. change (8 * Z.of_nat 4) with 32. lia.
Qed.

Definition be_rep (it : bigEndianPostings) (c : option Z) (l : list Z) : Prop :=
  bp_list it = be_refs l /\ bp_cur it = default 0 c /\ refs_ok (2 ^ 32) (avail c l).

Lemma be_seek it c l v :
  be_rep it c l -> 0 < v < 2 ^ 32 ->
  match seek_list v c l with
  | Some (x, l') => exists p', bigEndianPostings_Seek v it = (true, p') /\ be_rep p' (Some x) l'
  | None => exists p', bigEndianPostings_Seek v it = (false, p') /\ bp_list p' = [] /\ bp_cur p' < v
  end.
Proof.
  intros (Hl & Hc & Hok) Hv. unfold bigEndianPostings_Seek.
  destruct (Z.leb_spec v (bp_cur it)) as [Hle|Hlt].
  { destruct c as [c|]; [|simpl in Hc; lia]. cbn [seek_list]. simpl in Hc. subst c.
    rewrite (proj2 (Z.leb_le _ _)) by done. exists it. done. }
  assert (Hseek : seek_list v c l = first_ge v l).
  { destruct c as [c|]; [|done]. cbn [seek_list]. simpl in Hc. subst c. by rewrite (proj2 (Z.leb_gt _ _)). }
  pose proof (refs_ok_app_r _ _ _ Hok) as [Hs Hf]. rewrite Hseek, Hl, length_be_refs, Nat.div_mul by done.
  destruct (sorted_split_ge v l Hs) as (a & b & -> & Fa & Fb).
  assert (Hi : Search (length (a ++ b)) (fun i => u32 v <=? Uint32 (drop (i * 4) (be_refs (a ++ b)))) = length a).
  { rewrite u32_id by (unfold is_u32; lia).
    assert (Hat : forall i, (i < length (a ++ b))%nat -> Uint32 (drop (i * 4) (be_refs (a ++ b))) = (a ++ b) !!! i).
    { intros i Hi. rewrite drop_be_refs. destruct (lookup_lt_is_Some_2 _ _ Hi) as [x Hx].
      rewrite (drop_S _ _ _ Hx), (list_lookup_total_correct _ _ _ Hx). apply Uint32_be_refs.
      rewrite Forall_lookup in Hf. by eapply Hf. }
    rewrite length_app in *. apply Search_unique; [lia|..].
    - intros i Hi. rewrite Hat, lookup_total_app_l by lia. apply Z.leb_gt.
      rewrite Forall_lookup in Fa. eapply Fa. by apply list_lookup_lookup_total_lt.
    - intros i Hi. rewrite Hat, lookup_total_app_r by lia. apply Z.leb_le.
      rewrite Forall_lookup in Fb. eapply Fb. apply list_lookup_lookup_total_lt. lia. }
  rewrite Hi, first_ge_drop by done. rewrite length_app. destruct b as [|x b].
  - rewrite (proj2 (Nat.ltb_ge _ _)) by (simpl; lia). by eexists.
  - rewrite (proj2 (Nat.ltb_lt _ _)) by (simpl; lia). eexists. split; [done|].
    apply refs_ok_app_r in Hok. pose proof (refs_ok_app_r _ _ _ Hok) as Hok'.
    split_and!; cbn [bp_list bp_cur].
    + replace (length a * 4 + 4)%nat with ((length a + 1) * 4)%nat by lia. rewrite drop_be_refs.
      rewrite cons_middle, app_assoc, drop_app_length' by (rewrite length_app; done). done.
    + rewrite drop_be_refs, drop_app_length. apply Uint32_be_refs. apply refs_ok_cons in Hok'. tauto.
    + done.
Qed.

#[global] Instance bigEndianPostings_laws : PostingsLaws bigEndianPostings.
Proof.
  refine {| prep := be_rep; pbound := 2 ^ 32;
            pdead := fun it t => (length (bp_list it) < 4)%nat /\ bp_cur it < t |}.
  - by intros p c l (_ & _ & ?).
  - intros p c l (Hl & _ & _). change (pSize p) with (length (bp_list p) / 4)%nat. rewrite Hl, length_be_refs, Nat.div_mul by done. done.
  - by intros p c l (_ & ? & _).
  - intros p c l (Hl & Hc & Hok). cbn [pNext bigEndianPostings_ops]. unfold bigEndianPostings_Next.
    rewrite Hl, length_be_refs. pose proof (refs_ok_app_r _ _ _ Hok) as Hok'. destruct l as [|x l].
    + exists p. split; [done|]. rewrite Hl, Hc. cbn. split; lia.
    + rewrite (proj2 (Nat.leb_le _ _)) by (simpl; lia). eexists. split; [done|]. split_and!; cbn [bp_list bp_cur].
      * apply (drop_be_refs 1 (x :: l)).
      * apply Uint32_be_refs. apply refs_ok_cons in Hok'. tauto.
      * done.
  - intros p c l v Hp Hv. cbn [pSeek bigEndianPostings_ops]. pose proof (be_seek p c l v Hp Hv) as H.
    destruct (seek_list v c l) as [[x r]|]; [done|]. destruct H as (p' & -> & Hl & Hc). exists p'.
    rewrite Hl. split; [done|]. split; [simpl; lia|done].
  - intros p t t' [? ?] ?. split; [done|lia].
Defined.

#[global] Instance bigEndianPostings_end : PostingsEnd bigEndianPostings.
Proof.
  intros p t v [Hl Hc] Hv. cbn. unfold bigEndianPostings_Seek.
  rewrite (proj2 (Z.leb_gt _ _)) by lia. rewrite (Nat.div_small _ 4) by done.
  eexists. split; [done|]. cbn. split; lia.
Qed.

(** ** intersectPostings *)

Section IntersectSpec.
  Context {P : Type} `{!Postings P} `{!PostingsLaws P}.

(** What each of the postings is at and has to come. *)
Notation pos := (option Z * list Z)%type.

Definition reps (ps : list P) (cls : list pos) : Prop := Forall2 (fun p cl => prep p cl.1 cl.2) ps cls.

(** The values all of them can still reach. *)
Definition common (cls : list pos) (y : Z) : Prop := Forall (fun cl => y ∈ avail cl.1 cl.2) cls.

(** [cl'] is [cl] after a Seek that found a value between [lo] and [hi]. *)
Definition moved (lo hi : Z) (cl cl' : pos) : Prop :=
  exists x r, cl' = (Some x, r) /\ lo <= x <= hi /\ (forall y, y ∈ x :: r -> y ∈ avail cl.1 cl.2) /\
    (forall y, y ∈ avail cl.1 cl.2 -> hi <= y -> y ∈ x :: r).

Lemma moved_weaken lo lo' hi hi' cl cl' :
  lo' <= lo -> hi <= hi' -> moved lo hi cl cl' -> moved lo' hi' cl cl'.
Proof.
  intros H1 H2 (x & r & -> & Hx & Hsub & Hkeep). exists x, r. split_and!; [done|lia|lia|done|].
  intros y Hy Hle. apply Hkeep; [done|lia].
Qed.

Lemma Forall2_moved_weaken lo lo' hi hi' cls cls' :
  lo' <= lo -> hi <= hi' -> Forall2 (moved lo hi) cls cls' -> Forall2 (moved lo' hi') cls cls'.
Proof. intros H1 H2 H. eapply Forall2_impl; [exact H|]. intros. by eapply moved_weaken. Qed.

(** One round from [target]: if it fails there is no common value from the
    target on; otherwise every posting has moved to a value between the target
    and the new target, which is an available value if it was raised, and
    allEqual says that nothing was. *)
Lemma seek_round_spec ps : forall cls target ae,
  reps ps cls -> 0 < target < pbound (P := P) ->
  match seek_round target ae ps with
  | (true, (target', ae'), ps') =>
      exists cls', reps ps' cls' /\ Forall2 (moved target target') cls cls' /\
        target <= target' < pbound (P := P) /\
        (target' = target \/ Exists (fun cl => target' ∈ avail cl.1 cl.2) cls) /\
        (ae' = true -> ae = true /\ target' = target) /\ (target' = target -> ae' = ae) /\
        (forall y, common cls y -> target <= y -> target' <= y)
  | (false, _, _) => forall y, common cls y -> y < target
  end.
Proof.
  induction ps as [|p ps IH]; intros cls target ae Hreps Ht; cbn [seek_round].
  { apply Forall2_nil_inv_l in Hreps as ->. exists []. split_and!; try done || lia; [constructor..|by left]. }
  apply Forall2_cons_inv_l in Hreps as ([c l] & cls0 & Hp & Hreps & ->). cbn [fst snd] in Hp.
  pose proof (prep_ok p c l Hp) as [Hs Hb]. pose proof (pSeek_rep p c l target Hp Ht) as Hseek.
  pose proof (seek_list_spec target c l Hs) as Hspec. destruct (seek_list target c l) as [[x r]|].
  2: { destruct Hseek as (p' & -> & _). intros y Hy. apply Forall_cons in Hy as [Hy _]. by apply Hspec. }
  destruct Hseek as (p' & -> & Hp'). destruct Hspec as (Hx & Hxin & Hsx & Hiff).
  rewrite (pAt_rep _ _ _ Hp'). rewrite Forall_forall in Hb. pose proof (Hb _ Hxin) as Hxb.
  set (t1 := Z.max target x).
  assert (Ht1 : (if target <? x then (x, false) else (target, ae))
    = (t1, if target <? x then false else ae)) by (unfold t1; destruct (Z.ltb_spec target x); f_equal; lia).
  rewrite Ht1. clear Ht1. specialize (IH cls0 t1 (if target <? x then false else ae) Hreps).
  destruct (seek_round t1 _ ps) as [[ok [t' ae']] ps']. destruct ok.
  - destruct IH as (cls' & Hr' & Hm & Ht' & Hex & Hae & Hae2 & Hy); [lia|].
    exists ((Some x, r) :: cls'). split_and!.
    + by constructor.
    + constructor; [|eapply Forall2_moved_weaken; [| |exact Hm]; lia].
      exists x, r. cbn [fst snd]. split_and!; [done|lia|lia| |].
      * intros y Hy'. by apply Hiff.
      * intros y Hy' Hle. apply Hiff. split; [done|lia].
    + lia.
    + lia.
    + destruct Hex as [->|Hex]; [|right; by apply Exists_cons_tl].
      unfold t1. destruct (Z.max_spec target x) as [[_ ->]|[_ ->]]; [|by left]. right. by apply Exists_cons_hd.
    + intros E. destruct (Hae E) as [Hae' ->]. destruct (Z.ltb_spec target x); [done|]. split; [done|lia].
    + intros ->. rewrite Hae2 by lia. destruct (Z.ltb_spec target x); [lia|done].
    + intros y Hcom Hle. apply Forall_cons in Hcom as [Hy1 Hcom]. apply Hy; [done|].
      assert (y ∈ x :: r) as Hyx by (apply Hiff; done). apply elem_of_cons in Hyx as [->|Hyr]; [lia|].
      apply StronglySorted_inv in Hsx as [_ Hsx]. rewrite Forall_forall in Hsx. specialize (Hsx _ Hyr). lia.
  - intros y Hcom. apply Forall_cons in Hcom as [Hy1 Hcom].
    specialize (IH ltac:(lia) y Hcom). destruct (decide (y < target)) as [|Hge]; [done|].
    assert (y ∈ x :: r) as Hyx by (apply Hiff; split; [done|lia]). apply elem_of_cons in Hyx as [->|Hyr]; [lia|].
    apply StronglySorted_inv in Hsx as [_ Hsx]. rewrite Forall_forall in Hsx. specialize (Hsx _ Hyr). lia.
Qed.

(** How many available values lie above the target: the measure of the loop. *)
Definition above (target : Z) (cls : list pos) : nat :=
  sum_list_with (fun cl => length (filter (fun y => target < y) (avail cl.1 cl.2))) cls.

Lemma sub_length (l l' : list Z) : NoDup l' -> (forall x, x ∈ l' -> x ∈ l) -> (length l' <= length l)%nat.
Proof.
  intros Hnd Hsub. apply NoDup_incl_length; [by apply NoDup_ListNoDup|].
  intros x Hx. apply list_elem_of_In, Hsub. by apply list_elem_of_In.
Qed.

Lemma above_moved lo target target' cl cl' :
  StronglySorted Z.lt (avail cl.1 cl.2) -> StronglySorted Z.lt (avail cl'.1 cl'.2) ->
  moved lo target' cl cl' -> target < target' ->
  let n := length (filter (fun y => target < y) (avail cl.1 cl.2)) in
  let n' := length (filter (fun y => target' < y) (avail cl'.1 cl'.2)) in
  (n' <= n)%nat /\ (target' ∈ avail cl.1 cl.2 -> (n' < n)%nat).
Proof.
  intros Hs Hs' (x & r & -> & _ & Hsub & _) Hlt n n'. cbn [fst snd] in *.
  assert (Hnd : NoDup (filter (fun y => target' < y) (x :: r))) by (by apply sorted_NoDup, sorted_filter).
  split.
  - apply sub_length; [done|]. intros y [Hy Hin]%list_elem_of_filter. apply list_elem_of_filter.
    split; [lia|by apply Hsub].
  - intros Hin. change (length (target' :: filter (fun y => (target' < y)%Z) (x :: r)) <= n)%nat.
    apply sub_length.
    + constructor; [|done]. intros [? _]%list_elem_of_filter. lia.
    + intros y [->|[Hy Hin']%list_elem_of_filter]%elem_of_cons; apply list_elem_of_filter.
      * done.
      * split; [lia|by apply Hsub].
Qed.

Lemma reps_sorted ps cls : reps ps cls -> Forall (fun cl => StronglySorted Z.lt (avail cl.1 cl.2)) cls.
Proof. induction 1 as [|p cl ps cls Hp _ IH]; constructor; [|done]. by apply (prep_ok p). Qed.

Lemma above_decreases lo target target' cls cls' :
  Forall (fun cl => StronglySorted Z.lt (avail cl.1 cl.2)) cls ->
  Forall (fun cl => StronglySorted Z.lt (avail cl.1 cl.2)) cls' ->
  Forall2 (moved lo target') cls cls' -> target < target' ->
  (above target' cls' <= above target cls)%nat /\
  (Exists (fun cl => target' ∈ avail cl.1 cl.2) cls -> (above target' cls' < above target cls)%nat).
Proof.
  intros Hs Hs' Hm Hlt. induction Hm as [|cl cl' cls cls' Hcl _ IH].
  { split; [done|]. by intros ?%Exists_nil. }
  apply Forall_cons in Hs as [Hs1 Hs], Hs' as [Hs1' Hs']. destruct (IH Hs Hs') as [IH1 IH2].
  destruct (above_moved lo target target' cl cl' Hs1 Hs1' Hcl Hlt) as [H1 H2].
  unfold above in *. cbn [sum_list_with]. split; [lia|]. intros [Hin|Hex]%Exists_cons; [specialize (H2 Hin)|specialize (IH2 Hex)]; lia.
Qed.

Lemma common_moved lo target' cls cls' y :
  Forall2 (moved lo target') cls cls' ->
  (common cls' y -> common cls y) /\ (common cls y -> target' <= y -> common cls' y).
Proof.
  unfold common. induction 1 as [|cl cl' cls cls' (x & r & -> & _ & Hsub & Hkeep) _ [IH1 IH2]]; [done|].
  rewrite !Forall_cons. cbn [fst snd]. split.
  - intros [H1 H2]. split; [by apply Hsub|by apply IH1].
  - intros [H1 H2] Hle. split; [by apply Hkeep|by apply IH2].
Qed.

Lemma intersect_loop_spec fuel : forall target it cls,
  reps (ip_postings it) cls -> cls <> [] -> 0 < target < pbound (P := P) ->
  (above target cls < fuel)%nat ->
  match intersect_loop fuel target it with
  | (true, it') => exists cls', reps (ip_postings it') cls' /\ length cls' = length cls /\
      Forall (fun cl => cl.1 = Some (ip_current it')) cls' /\
      target <= ip_current it' /\ common cls (ip_current it') /\
      (forall y, common cls y -> target <= y -> ip_current it' <= y) /\
      (forall y, common cls' y <-> common cls y /\ ip_current it' <= y)
  | (false, _) => forall y, common cls y -> y < target
  end.
Proof.
  induction fuel as [|fuel IH]; intros target it cls Hreps Hne Ht Hf; [lia|]. cbn [intersect_loop].
  pose proof (seek_round_spec (ip_postings it) cls target true Hreps Ht) as Hround.
  destruct (seek_round target true (ip_postings it)) as [[ok [t' ae]] ps]. destruct ok; cbn [negb]; [|done].
  destruct Hround as (cls' & Hr' & Hm & Ht' & Hex & Hae & Hae2 & Hmin).
  pose proof (Forall2_length _ _ _ Hm) as Hlen. destruct ae.
  - destruct (Hae eq_refl) as [_ ->]. cbn [ip_postings ip_current].
    assert (Hat : Forall (fun cl => cl.1 = Some target) cls' /\ common cls target).
    { clear -Hm. unfold common.
      induction Hm as [|cl cl' cls cls' (x & r & -> & Hx & Hsub & _) _ [IH1 IH2]]; [done|].
      rewrite !Forall_cons. assert (x = target) as -> by lia. cbn [fst snd]. split_and!; try done.
      apply Hsub. set_solver. }
    destruct Hat as [Hat Hcom]. exists cls'. split_and!; try done.
    intros y. destruct (common_moved _ _ _ _ y Hm) as [Hc1 Hc2]. split; [|tauto].
    intros Hy. split; [auto|].
    destruct cls as [|cl cls]; [done|]. destruct cls' as [|cl' cls'']; [done|].
    apply Forall_cons in Hat as [E _], Hy as [Hy _]. apply Forall2_cons_1 in Hm as [_ Hm].
    apply reps_sorted, Forall_cons in Hr' as [Hs _]. destruct cl' as [c r]. cbn [fst snd] in *. subst c.
    cbn [avail option_list app] in *. apply StronglySorted_inv in Hs as [_ Hs]. rewrite Forall_forall in Hs.
    apply elem_of_cons in Hy as [->|Hy]; [lia|]. specialize (Hs _ Hy). lia.
  - assert (Hlt : target < t').
    { destruct (decide (t' = target)) as [E|]; [by specialize (Hae2 E)|lia]. }
    destruct Hex as [->|Hex]; [lia|].
    destruct (above_decreases target target t' cls cls') as [_ Hdec];
      [by eapply reps_sorted|by eapply reps_sorted|done|done|]. specialize (Hdec Hex).
    specialize (IH t' (mk_intersectPostings ps (ip_current it)) cls' Hr').
    destruct (intersect_loop fuel t' _) as [ok it']. destruct ok.
    + destruct IH as (cls2 & R2 & L2 & A2 & T2 & C2 & M2 & Q2); [by destruct cls, cls'|lia|lia|].
      exists cls2. split_and!; try done || lia.
      * by apply (common_moved _ _ _ _ _ Hm).
      * intros y Hy Hle. specialize (Hmin y Hy Hle). apply M2; [|done]. by apply (common_moved _ _ _ _ y Hm).
      * intros y. rewrite Q2. destruct (common_moved _ _ _ _ y Hm) as [Hc1 Hc2]. split; intros [H1 H2]; split; auto.
        apply Hc2; [done|lia].
    + intros y Hy. destruct (decide (y < target)) as [|Hge]; [done|].
      specialize (IH ltac:(by destruct cls, cls') ltac:(lia) ltac:(lia) y).
      specialize (Hmin y Hy ltac:(lia)). destruct (common_moved _ _ _ _ y Hm) as [_ Hc2].
      specialize (IH (Hc2 Hy Hmin)). lia.
Qed.

(** The contract of the intersection: all postings are at [c], and [l] are the
    values all of them have to come. *)
Definition irep (it : intersectPostings P) (c : option Z) (l : list Z) : Prop :=
  exists cls, reps (ip_postings it) cls /\ cls <> [] /\ Forall (fun cl => cl.1 = c) cls /\
    ip_current it = default 0 c /\ StronglySorted Z.lt (avail c l) /\
    forall y, y ∈ avail c l <-> common cls y.

Lemma irep_bounds it c l : irep it c l ->
  refs_ok (pbound (P := P)) (avail c l) /\ (length l <= sum_list_with pSize (ip_postings it))%nat.
Proof.
  intros (cls & Hreps & Hne & Hat & _ & Hs & Hcom). destruct cls as [|[c0 l0] cls]; [done|].
  apply Forall2_cons_inv_r in Hreps as (p & ps & Hp & _ & Eps). cbn [fst snd] in Hp.
  apply Forall_cons in Hat as [E _]. cbn in E. subst c0. rewrite Eps. cbn [sum_list_with].
  assert (Hsub : forall y, y ∈ avail c l -> y ∈ avail c l0).
  { intros y Hy%Hcom. by apply Forall_cons in Hy as [Hy _]. }
  split; [by eapply refs_ok_sub; [by eapply prep_ok|done|]|].
  pose proof (prep_size p c l0 Hp). apply sub_length in Hsub; [|by apply sorted_NoDup].
  unfold avail in Hsub. rewrite !length_app in Hsub. lia.
Qed.

Lemma seek_fuel_enough ps cls target : reps ps cls -> (above target cls < seek_fuel ps)%nat.
Proof.
  intros Hreps. unfold seek_fuel, above. apply Nat.lt_succ_r.
  induction Hreps as [|p [c l] ps cls Hp _ IH]; cbn [sum_list_with]; [done|]. cbn [fst snd] in *.
  pose proof (prep_size p c l Hp). pose proof (length_filter (fun y => target < y) (avail c l)) as Hf.
  assert (length (avail c l) <= S (length l))%nat by (unfold avail; rewrite length_app; destruct c; simpl; lia). lia.
Qed.

(** A Seek from a state whose common values are the increasing list [L]. *)
Lemma intersect_Seek_spec it cls target L :
  reps (ip_postings it) cls -> cls <> [] -> 0 < target < pbound (P := P) ->
  StronglySorted Z.lt L -> (forall y, y ∈ L <-> common cls y) ->
  match first_ge target L with
  | Some (x, r) => exists it', intersect_Seek target it = (true, it') /\ irep it' (Some x) r
  | None => exists it', intersect_Seek target it = (false, it')
  end.
Proof.
  intros Hreps Hne Ht HL Hcom. pose proof (first_ge_spec target L HL) as Hfirst.
  pose proof (intersect_loop_spec (seek_fuel (ip_postings it)) target it cls Hreps Hne Ht
    (seek_fuel_enough _ _ _ Hreps)) as Hloop. fold (intersect_Seek target it) in Hloop.
  destruct (intersect_Seek target it) as [ok it']. destruct (first_ge target L) as [[x r]|].
  - destruct Hfirst as (Hx & Hxin & Hsx & Hiff). destruct ok.
    2: { specialize (Hloop x (proj1 (Hcom x) Hxin)). lia. }
    destruct Hloop as (cls' & R & Hl & Hat & Hge & Hc & Hmin & Hq).
    assert (ip_current it' = x) as Ex.
    { apply Z.le_antisymm; [apply Hmin; [by apply Hcom|done]|].
      assert (ip_current it' ∈ x :: r) as Hin by (apply Hiff; split; [by apply Hcom|done]).
      apply StronglySorted_inv in Hsx as [_ Hsx]. rewrite Forall_forall in Hsx.
      apply elem_of_cons in Hin as [->|Hin]; [lia|]. specialize (Hsx _ Hin). lia. }
    exists it'. split; [done|]. rewrite Ex in *. exists cls'. split_and!; try done.
    + by destruct cls, cls'.
    + intros y. change (avail (Some x) r) with (x :: r). rewrite Hiff, Hcom, Hq. split; [|split; [tauto|lia]].
      intros [Hy Hle]. split; [done|]. by apply Hmin.
  - destruct ok; [|by eexists]. destruct Hloop as (cls' & _ & _ & _ & Hge & Hc & _).
    specialize (Hfirst _ (proj2 (Hcom _) Hc)). lia.
Qed.

Lemma next_round_spec ps : forall cls target ae,
  reps ps cls ->
  match next_round target ae ps with
  | (true, (t', ae'), ps') =>
      exists cls', reps ps' cls' /\ length cls' = length cls /\
        Forall2 (fun cl cl' => avail cl'.1 cl'.2 = cl.2) cls cls' /\
        (t' = target \/ Exists (fun cl => t' ∈ cl.2) cls) /\
        (ae' = true -> ae = true /\ t' = target /\ Forall (fun cl' => cl'.1 = Some target) cls') /\
        (forall y, Forall (fun cl => y ∈ cl.2) cls -> target <= y -> t' <= y)
  | (false, _, _) => Exists (fun cl => cl.2 = []) cls
  end.
Proof.
  induction ps as [|p ps IH]; intros cls target ae Hreps; cbn [next_round].
  { apply Forall2_nil_inv_l in Hreps as ->. exists []. split_and!; try done; by left. }
  apply Forall2_cons_inv_l in Hreps as ([c l] & cls0 & Hp & Hreps & ->). cbn [fst snd] in Hp.
  pose proof (pNext_rep p c l Hp) as Hn. destruct l as [|x l].
  { destruct Hn as (p' & -> & _). by apply Exists_cons_hd. }
  destruct Hn as (p' & -> & Hp'). rewrite (pAt_rep _ _ _ Hp').
  set (t1 := Z.max target x). set (ae1 := if target =? x then ae else false).
  assert (Ht1 : (if target <? x then (x, false) else if x <? target then (target, false) else (target, ae))
    = (t1, ae1)).
  { unfold t1, ae1. destruct (Z.ltb_spec target x), (Z.ltb_spec x target), (Z.eqb_spec target x); try lia; f_equal; lia. }
  rewrite Ht1. specialize (IH cls0 t1 ae1 Hreps).
  destruct (next_round t1 ae1 ps) as [[ok [t' ae']] ps']. destruct ok; [|by apply Exists_cons_tl].
  destruct IH as (cls' & Hr & Hl & Hav & Hex & Hae & Hmin). exists ((Some x, l) :: cls').
  pose proof (prep_ok p' (Some x) l Hp') as [Hs _]. apply StronglySorted_inv in Hs as [_ Hs]. rewrite Forall_forall in Hs.
  split_and!.
  - by constructor.
  - by simpl; rewrite Hl.
  - by constructor.
  - destruct Hex as [->|Hex]; [|right; by apply Exists_cons_tl].
    unfold t1. destruct (Z.max_spec target x) as [[_ ->]|[_ ->]]; [|by left]. right. apply Exists_cons_hd. cbn. set_solver.
  - intros E. destruct (Hae E) as (E1 & -> & Hat). unfold ae1 in E1. destruct (Z.eqb_spec target x) as [->|]; [|done].
    unfold t1 in *. rewrite Z.max_id in *. split_and!; [done|done|]. by constructor.
  - intros y Hy Hle. apply Forall_cons in Hy as [Hy Hys]. apply Hmin; [done|]. cbn [snd] in Hy.
    apply elem_of_cons in Hy as [->|Hy]; [lia|]. specialize (Hs _ Hy). lia.
Qed.

Lemma irep_tail it c l : irep it c l ->
  exists cls, reps (ip_postings it) cls /\ cls <> [] /\ StronglySorted Z.lt l /\
    forall y, y ∈ l <-> Forall (fun cl => y ∈ cl.2) cls.
Proof.
  intros (cls & Hreps & Hne & Hat & _ & Hs & Hcom). exists cls.
  apply StronglySorted_app in Hs as (Hlt & _ & Hs). split_and!; [done|done|done|]. intros y.
  assert (Hord : forall cl, cl ∈ cls -> forall z, z ∈ cl.2 -> c <> Some z).
  { intros cl Hcl z Hz ->. rewrite Forall_forall in Hat. pose proof (reps_sorted _ _ Hreps) as Hrs.
    rewrite Forall_forall in Hrs. specialize (Hrs _ Hcl). rewrite (Hat _ Hcl) in Hrs.
    apply StronglySorted_inv in Hrs as [_ Hrs]. rewrite Forall_forall in Hrs. specialize (Hrs _ Hz). lia. }
  unfold common in Hcom. specialize (Hcom y). rewrite !Forall_forall in *. split.
  - intros Hy. assert (c <> Some y).
    { intros ->. specialize (Hlt y y ltac:(set_solver) Hy). lia. }
    assert (y ∈ avail c l) as Hav by set_solver. intros cl Hcl.
    specialize (proj1 Hcom Hav cl Hcl). rewrite (Hat _ Hcl). unfold avail.
    intros [Ho|?]%elem_of_app; [|done]. destruct c; set_solver.
  - intros Hall. assert (y ∈ avail c l) as Hav.
    { apply Hcom. intros cl Hcl. unfold avail. set_solver. }
    unfold avail in Hav. apply elem_of_app in Hav as [Ho|]; [|done].
    destruct cls as [|cl cls]; [done|]. destruct (Hord cl ltac:(set_solver) y); [apply Hall; set_solver|].
    destruct c; set_solver.
Qed.

Lemma intersect_Next_spec it c l :
  irep it c l ->
  match l with
  | x :: l' => exists it', intersect_Next it = (true, it') /\ irep it' (Some x) l'
  | [] => exists it', intersect_Next it = (false, it')
  end.
Proof.
  intros (cls & Hreps & Hne & Hsl & Hl)%irep_tail. destruct cls as [|[c0 l0] cls]; [done|].
  apply Forall2_cons_inv_r in Hreps as (p & ps & Hp & Hreps & Eps). cbn [fst snd] in Hp.
  unfold intersect_Next. rewrite Eps. pose proof (pNext_rep p c0 l0 Hp) as Hn.
  assert (Hempty : Exists (fun cl => cl.2 = []) ((c0, l0) :: cls) -> l = []).
  { intros (cl & Hin & E)%Exists_exists. destruct l as [|x l]; [done|].
    assert (x ∈ cl.2) as Hx; [|rewrite E in Hx; set_solver].
    assert (x ∈ x :: l) as Hx%Hl by set_solver. rewrite Forall_forall in Hx. by apply Hx. }
  destruct l0 as [|x0 r0].
  { destruct Hn as (p' & -> & _). cbn [negb]. rewrite Hempty by (by apply Exists_cons_hd). by eexists. }
  destruct Hn as (p' & -> & Hp'). cbn [negb]. rewrite (pAt_rep _ _ _ Hp').
  pose proof (next_round_spec ps cls x0 true Hreps) as Hround.
  destruct (next_round x0 true ps) as [[ok [t' ae]] ps']. destruct ok; cbn [negb].
  2: { rewrite Hempty by (by apply Exists_cons_tl). by eexists. }
  destruct Hround as (cls' & Hr' & Hlen & Hav & Hex & Hae & Hmin).
  assert (Hreps1 : reps (p' :: ps') ((Some x0, r0) :: cls')) by (by constructor).
  assert (Hcom : forall y, y ∈ l <-> common ((Some x0, r0) :: cls') y).
  { intros y. rewrite Hl. unfold common. rewrite !Forall_cons. cbn [fst snd]. apply and_iff_compat_l.
    clear -Hav. induction Hav as [|cl cl' cls cls' E _ IH]; [by rewrite !Forall_nil|].
    by rewrite !Forall_cons, E, IH. }
  assert (Hge : forall y, y ∈ l -> x0 <= y).
  { intros y Hy%Hl. apply Forall_cons in Hy as [Hy _]. cbn [snd] in Hy.
    pose proof (prep_ok p' _ _ Hp') as [Hs _]. apply StronglySorted_inv in Hs as [_ Hs]. rewrite Forall_forall in Hs.
    apply elem_of_cons in Hy as [->|Hy]; [lia|]. specialize (Hs _ Hy). lia. }
  destruct ae.
  - destruct (Hae eq_refl) as (_ & -> & Hat).
    assert (x0 ∈ l) as Hx0.
    { apply Hcom. constructor; [cbn; set_solver|]. eapply Forall_impl; [exact Hat|]. cbv beta.
      intros [cc ll] E. cbn in E. subst cc. cbn. set_solver. }
    destruct l as [|x l]; [set_solver|]. assert (x = x0) as ->.
    { apply Z.le_antisymm; [|apply Hge; set_solver]. apply StronglySorted_inv in Hsl as [_ Hsl].
      rewrite Forall_forall in Hsl. apply elem_of_cons in Hx0 as [->|Hx0]; [lia|]. specialize (Hsl _ Hx0). lia. }
    eexists. split; [done|]. exists ((Some x0, r0) :: cls'). split_and!; try done. by constructor.
  - assert (Hb : 0 < t' < pbound (P := P)).
    { destruct Hex as [->|Hex].
      - pose proof (prep_ok p' _ _ Hp') as [_ Hb]. by apply Forall_cons in Hb as [? _].
      - apply Exists_exists in Hex as ([cc ll] & Hin & Ht'). apply list_elem_of_lookup in Hin as [i Hi].
        destruct (Forall2_lookup_r _ _ _ _ _ Hreps Hi) as (pp & _ & Hpp). cbn [fst snd] in *.
        pose proof (prep_ok pp cc ll Hpp) as [_ Hb]. rewrite Forall_forall in Hb. apply Hb. unfold avail. set_solver. }
    pose proof (intersect_Seek_spec (mk_intersectPostings (p' :: ps') (ip_current it)) _ t' l Hreps1
      ltac:(done) Hb Hsl Hcom) as Hseek.
    destruct l as [|x l]; [done|]. cbn [first_ge] in Hseek. rewrite (proj2 (Z.leb_le _ _)) in Hseek; [done|].
    assert (x ∈ x :: l) as Hx by set_solver. apply Hmin; [|by apply Hge].
    apply Hl in Hx. by apply Forall_cons in Hx as [_ Hx].
Qed.

#[global] Instance intersectPostings_laws : PostingsLaws (intersectPostings P).
Proof.
  refine {| prep := irep; pdead := fun _ _ => True; pbound := pbound (P := P) |}.
  - intros p c l Hp. apply irep_bounds in Hp. apply Hp.
  - intros p c l Hp. apply irep_bounds in Hp. apply Hp.
  - by intros p c l (cls & _ & _ & _ & ? & _).
  - intros p c l Hp. pose proof (intersect_Next_spec p c l Hp) as H. destruct l; [|done].
    destruct H as [p' E]. eauto.
  - intros p c l v (cls & Hreps & Hne & _ & _ & Hs & Hcom) Hv.
    pose proof (intersect_Seek_spec p cls v (avail c l) Hreps Hne Hv Hs Hcom) as H.
    assert (seek_list v c l = first_ge v (avail c l)) as -> by (destruct c; done).
    destruct (first_ge v (avail c l)) as [[x r]|]; [done|]. destruct H as [p' E]. eauto.
  - done.
Defined.

(** A fresh intersection of fresh postings. *)
Lemma newIntersect_rep ps ls :
  ps <> [] -> Forall2 (fun p l => prep p None l) ps ls ->
  prep (newIntersectPostings ps) None (filter (fun x => Forall (fun l => x ∈ l) ls) (default [] (head ls))).
Proof.
  intros Hne Hps. exists (map (fun l => (None, l)) ls).
  assert (Hreps : reps ps (map (fun l => (None, l)) ls)).
  { clear Hne. induction Hps; constructor; done. }
  destruct Hps as [|p l ps ls Hp _]; [done|]. split_and!; try done.
  - apply Forall_map, Forall_true. done.
  - cbn. apply sorted_filter. by apply (prep_ok p None l Hp).
  - intros y. change (y ∈ filter (fun x => Forall (fun l => x ∈ l) (l :: ls)) l <->
      Forall (fun cl => y ∈ avail cl.1 cl.2) (map (fun l => (None, l)) (l :: ls))).
    rewrite list_elem_of_filter, Forall_map. cbn [fst snd]. unfold avail. cbn [option_list app].
    rewrite !Forall_cons. tauto.
Qed.

End IntersectSpec.

(** ** removedPostings *)

(** The values of [l] that are not in [r]. *)
Definition diff (l r : list Z) : list Z := filter (fun x => x ∉ r) l.

Lemma elem_of_diff x l r : x ∈ diff l r <-> x ∈ l /\ x ∉ r.
Proof. unfold diff. rewrite list_elem_of_filter. tauto. Qed.

Lemma diff_sorted l r : StronglySorted Z.lt l -> StronglySorted Z.lt (diff l r).
Proof. apply sorted_filter. Qed.

(** Changes of the removed list that [l] does not see. *)
Lemma diff_ext l r r' :
  (forall x, x ∈ l -> x ∈ r <-> x ∈ r') -> diff l r = diff l r'.
Proof.
  unfold diff. induction l as [|x l IH]; intros H; [done|]. rewrite !filter_cons.
  rewrite (IH ltac:(set_solver)). specialize (H x ltac:(set_solver)).
  destruct (decide (x ∉ r)), (decide (x ∉ r')); try done; tauto.
Qed.

(** On an increasing list the values from [v] on are the first and the rest. *)
Lemma first_ge_sorted v l L :
  StronglySorted Z.lt l -> StronglySorted Z.lt L -> (forall y, y ∈ L <-> y ∈ l /\ v <= y) ->
  first_ge v l = match L with [] => None | x :: r => Some (x, r) end.
Proof.
  intros Hl HL Hiff. pose proof (first_ge_spec v l Hl) as H. destruct (first_ge v l) as [[x r]|].
  - destruct H as (_ & _ & Hs & H). assert (L = x :: r) as ->; [|done].
    apply sorted_ext; [done|done|]. intros y. by rewrite Hiff, H.
  - destruct L as [|x L]; [done|]. destruct (proj1 (Hiff x)) as [Hin Hle]; [set_solver|]. specialize (H _ Hin). lia.
Qed.

Section RemovedSpec.
  Context {P Q : Type} `{!Postings P} `{!Postings Q} `{!PostingsLaws P} `{!PostingsLaws Q}.
  Context (Hbound : pbound (P := P) <= pbound (P := Q)).

(** The remove postings: [L] is what they leave of [F]; [n] counts their turns;
    exhausted, they are dead from [t] on. *)
Definition rem_state (t : Z) (remove : Q) (rok : bool) (F L : list Z) (n : nat) : Prop :=
  if rok then exists r lr, prep remove (Some r) lr /\ L = diff F (r :: lr) /\ n = S (length lr)
  else L = F /\ pdead remove t /\ n = O.

(** A state of the loop in which [L] is still to be returned. *)
Definition loop_ok (rp : removedPostings P Q) (L : list Z) (n : nat) : Prop :=
  rp_initialized rp = true /\
  if rp_fok rp then
    exists f lf m, prep (rp_full rp) (Some f) lf /\
      rem_state f (rp_remove rp) (rp_rok rp) (f :: lf) L m /\ n = (S (length lf) + m)%nat
  else L = [].

(** A state between calls. *)
Definition rrep (rp : removedPostings P Q) (c : option Z) (l : list Z) : Prop :=
  rp_cur rp = default 0 c /\
  match c with
  | None => rp_initialized rp = false /\ exists lf lr, prep (rp_full rp) None lf /\
      prep (rp_remove rp) None lr /\ l = diff lf lr
  | Some c0 => 0 < c0 < pbound (P := P) /\ rp_initialized rp = true /\
      if rp_fok rp then exists f lf m, prep (rp_full rp) (Some f) lf /\ c0 < f /\
        rem_state (c0 + 1) (rp_remove rp) (rp_rok rp) (f :: lf) l m
      else l = [] /\ pdead (rp_full rp) (c0 + 1)
  end.

(** Delivering [f]: the full postings advance, the remove postings stay. *)
Lemma deliver full remove init cur rok f lf L m :
  prep full (Some f) lf -> init = true -> rem_state (f + 1) remove rok lf L m ->
  exists rp', (let '(fok, full) := pNext full in (true, mk_removedPostings full remove cur init fok rok))
      = (true, rp') /\ (cur = f -> rrep rp' (Some f) L).
Proof.
  intros Hp -> Hrem. pose proof (prep_ok full (Some f) lf Hp) as [Hs Hb].
  pose proof (pNext_rep full (Some f) lf Hp) as Hn. apply Forall_cons in Hb as [Hb _].
  apply StronglySorted_inv in Hs as [_ Hs]. destruct lf as [|x lf].
  - destruct Hn as (full' & -> & Hd). eexists. split; [done|]. intros ->. unfold rrep. cbn. split_and!; try done; try apply Hb.
    destruct rok; [by destruct Hrem as (r & lr & _ & -> & _)|by destruct Hrem as (-> & _)].
  - destruct Hn as (full' & -> & Hp'). eexists. split; [done|]. intros ->. unfold rrep. cbn. split_and!; try done; try apply Hb.
    apply Forall_cons in Hs as [Hs _]. exists x, lf, m. done.
Qed.

Lemma removed_loop_spec fuel : forall rp L n,
  loop_ok rp L n -> (n < fuel)%nat ->
  match L with
  | x :: L' => exists rp', removed_loop fuel rp = (true, rp') /\ rrep rp' (Some x) L'
  | [] => exists rp', removed_loop fuel rp = (false, rp')
  end.
Proof.
  induction fuel as [|fuel IH]; intros [full remove cur init fok rok] L n [Hinit Hok] Hf; [lia|].
  cbn [removed_loop]. cbn [rp_initialized rp_fok rp_full rp_remove rp_rok] in *. destruct fok; cbn [negb].
  2: { subst L. by eexists. }
  destruct Hok as (f & lf & m & Hp & Hrem & ->). pose proof (prep_ok full (Some f) lf Hp) as [Hs Hb].
  cbn [avail option_list app] in Hs, Hb. apply Forall_cons in Hb as [Hb _]. rewrite (pAt_rep _ _ _ Hp).
  pose proof Hs as Hsf. apply StronglySorted_inv in Hsf as [Hslf Hltf]. rewrite Forall_forall in Hltf.
  destruct rok; cbn [negb].
  2: { destruct Hrem as (-> & Hd & ->).
    destruct (deliver full remove init f false f lf lf 0 Hp Hinit) as (rp' & -> & Hrep).
    { split_and!; [done| |done]. eapply pdead_mono; [exact Hd|lia]. }
    eauto. }
  destruct Hrem as (r & lr & Hr & -> & ->). rewrite (pAt_rep _ _ _ Hr).
  pose proof (prep_ok remove (Some r) lr Hr) as [Hsr _]. cbn [avail option_list app] in Hsr.
  pose proof Hsr as Hsr'. apply StronglySorted_inv in Hsr' as [_ Hltr]. rewrite Forall_forall in Hltr.
  destruct (Z.ltb_spec f r) as [Hfr|Hfr].
  { assert (f ∉ r :: lr) as Hni.
    { intros [->|Hin]%elem_of_cons; [lia|]. specialize (Hltr _ Hin). lia. }
    unfold diff. rewrite filter_cons_True by done.
    destruct (deliver full remove init f true f lf (diff lf (r :: lr)) (S (length lr)) Hp Hinit) as (rp' & -> & Hrep).
    { exists r, lr. done. }
    eauto. }
  destruct (Z.ltb_spec r f) as [Hrf|Hrf].
  - pose proof (pSeek_rep remove (Some r) lr f Hr ltac:(lia)) as Hseek.
    pose proof (seek_list_spec f (Some r) lr Hsr) as Hspec. change (avail (Some r) lr) with (r :: lr) in Hspec.
    assert (Hge : forall x, x ∈ f :: lf -> f <= x).
    { intros x [->|Hx]%elem_of_cons; [lia|]. specialize (Hltf _ Hx). lia. }
    destruct (seek_list f (Some r) lr) as [[r' lr']|] eqn:Esk.
    + destruct Hseek as (remove' & -> & Hr'). destruct Hspec as (_ & _ & _ & Hiff).
      assert (length lr' < length lr)%nat.
      { clear -Esk Hrf. cbn [seek_list] in Esk. rewrite (proj2 (Z.leb_gt _ _)) in Esk by lia.
        induction lr as [|y lr IH]; [done|]. cbn [first_ge] in Esk. destruct (f <=? y).
        - injection Esk as -> ->. simpl. lia.
        - specialize (IH Esk). simpl. lia. }
      rewrite (diff_ext (f :: lf) (r :: lr) (r' :: lr')).
      2: { intros x Hx. rewrite Hiff. specialize (Hge _ Hx). tauto. }
      apply (IH _ _ (S (length lf) + S (length lr'))%nat); [|lia].
      split; [done|]. cbn. exists f, lf, (S (length lr')). split_and!; [done| |done]. exists r', lr'. done.
    + destruct Hseek as (remove' & -> & Hd).
      assert (diff (f :: lf) (r :: lr) = f :: lf) as ->.
      { apply filter_all, Forall_forall. intros x Hx Hin. specialize (Hspec _ Hin). specialize (Hge _ Hx). lia. }
      apply (IH _ (f :: lf) (S (length lf) + 0)%nat); [|lia].
      split; [done|]. cbn. exists f, lf, 0%nat. done.
  - assert (r = f) as -> by lia. unfold diff. rewrite filter_cons_False by set_solver. fold (diff lf (f :: lr)).
    pose proof (pNext_rep full (Some f) lf Hp) as Hn. destruct lf as [|x lf].
    + destruct Hn as (full' & -> & _). apply (IH _ [] 0%nat); [done|lia].
    + destruct Hn as (full' & -> & Hp'). apply (IH _ _ (S (length lf) + S (length lr))%nat); [|simpl in Hf; lia].
      split; [done|]. cbn. exists x, lf, (S (length lr)). split_and!; [done| |done]. exists f, lr. done.
Qed.

Lemma loop_ok_fuel rp L n : loop_ok rp L n -> (rp_fok rp = false -> n = O) -> (n < removed_fuel rp)%nat.
Proof.
  intros [_ Hok] H0. unfold removed_fuel. destruct (rp_fok rp); [|rewrite H0 by done; lia].
  destruct Hok as (f & lf & m & Hp & Hrem & ->). pose proof (prep_size _ _ _ Hp) as Hs.
  destruct (rp_rok rp); [destruct Hrem as (r & lr & Hr & _ & ->); pose proof (prep_size _ _ _ Hr)|
    destruct Hrem as (_ & _ & ->)]; lia.
Qed.

Lemma removed_Next_spec rp c l :
  rrep rp c l ->
  match l with
  | x :: l' => exists rp', removed_Next rp = (true, rp') /\ rrep rp' (Some x) l'
  | [] => exists rp', removed_Next rp = (false, rp')
  end.
Proof.
  intros [Hcur Hrep]. unfold removed_Next. destruct c as [c0|].
  - destruct Hrep as (Hc0 & Hinit & Hrep). rewrite Hinit. destruct (rp_fok rp) eqn:Ef.
    + destruct Hrep as (f & lf & m & Hp & Hlt & Hrem).
      assert (Hok : loop_ok rp l (S (length lf) + m)).
      { split; [done|]. rewrite Ef. exists f, lf, m. split_and!; [done| |done]. unfold rem_state in *.
        destruct (rp_rok rp); [done|]. destruct Hrem as (-> & Hd & ->). split_and!; try done.
        eapply pdead_mono; [exact Hd|lia]. }
      apply (removed_loop_spec _ rp l _ Hok). apply (loop_ok_fuel _ _ _ Hok). by rewrite Ef.
    + destruct Hrep as [-> _]. apply (removed_loop_spec _ rp [] 0%nat); [by split; [|rewrite Ef]|unfold removed_fuel; lia].
  - destruct Hrep as (Hinit & lf & lr & Hf & Hr & ->). rewrite Hinit.
    pose proof (prep_size _ _ _ Hf). pose proof (prep_size _ _ _ Hr).
    pose proof (pNext_rep _ _ _ Hf) as Hnf. pose proof (pNext_rep _ _ _ Hr) as Hnr.
    destruct lf as [|f lf].
    { destruct Hnf as (full' & -> & _). destruct (pNext (rp_remove rp)) as [rok remove'].
      apply (removed_loop_spec _ _ [] 0%nat); [done|unfold removed_fuel; lia]. }
    destruct Hnf as (full' & -> & Hf'). destruct lr as [|r lr].
    + destruct Hnr as (remove' & -> & Hd). assert (diff (f :: lf) [] = f :: lf) as ->.
      { apply filter_all, Forall_forall. set_solver. }
      apply (removed_loop_spec _ _ (f :: lf) (S (length lf) + 0)%nat); [|unfold removed_fuel; simpl in *; lia].
      split; [done|]. exists f, lf, 0%nat. split_and!; [done| |done]. split_and!; [done| |done].
      eapply pdead_mono; [exact Hd|]. pose proof (prep_ok _ _ _ Hf') as [_ Hb].
      apply Forall_cons in Hb as [Hb _]. cbn. lia.
    + destruct Hnr as (remove' & -> & Hr').
      apply (removed_loop_spec _ _ _ (S (length lf) + S (length lr))%nat); [|unfold removed_fuel; simpl in *; lia].
      split; [done|]. exists f, lf, (S (length lr)). split_and!; [done| |done]. by exists r, lr.
Qed.

(** The values left of a state. *)
Lemma rrep_ok rp c l : rrep rp c l ->
  refs_ok (pbound (P := P)) (avail c l) /\ (length l <= S (pSize (rp_full rp)))%nat.
Proof.
  intros [_ Hrep]. destruct c as [c0|].
  - destruct Hrep as (Hc0 & _ & Hrep). change (avail (Some c0) l) with (c0 :: l). destruct (rp_fok rp).
    + destruct Hrep as (f & lf & m & Hp & Hlt & Hrem). pose proof (prep_ok _ _ _ Hp) as Hok.
      assert (StronglySorted Z.lt l /\ (forall x, x ∈ l -> x ∈ f :: lf)) as [Hs Hsub].
      { destruct (rp_rok rp).
        - destruct Hrem as (r & lr & _ & -> & _). split; [apply diff_sorted, Hok|]. intros x [? _]%elem_of_diff. done.
        - destruct Hrem as (-> & _). split; [apply Hok|done]. }
      pose proof (refs_ok_sub _ _ l Hok Hs Hsub) as Hl. split.
      * apply refs_ok_cons. split; [exact Hc0|]. split; [|exact Hl]. apply Forall_forall. intros x Hx%Hsub.
        destruct Hok as [Hok _]. apply StronglySorted_inv in Hok as [_ Hok]. rewrite Forall_forall in Hok.
        apply elem_of_cons in Hx as [->|Hx]; [done|]. specialize (Hok _ Hx). lia.
      * apply sub_length in Hsub; [|by apply sorted_NoDup]. pose proof (prep_size _ _ _ Hp). simpl in Hsub. lia.
    + destruct Hrep as [-> _]. split; [|simpl; lia]. apply refs_ok_cons. split; [exact Hc0|]. split; [constructor|].
      split; constructor.
  - destruct Hrep as (_ & lf & lr & Hf & _ & ->). pose proof (prep_ok _ _ _ Hf) as Hok. split.
    + apply (refs_ok_sub _ lf); [done|apply diff_sorted, Hok|]. intros x [? _]%elem_of_diff. done.
    + pose proof (prep_size _ _ _ Hf). pose proof (length_filter (fun x => x ∉ lr) lf). unfold diff. lia.
Qed.

Lemma removed_expand (full : P) (remove : Q) lf lr :
  prep full None lf -> prep remove None lr ->
  ExpandPostings (newRemovedPostings full remove) = Some (diff lf lr).
Proof.
  intros Hf Hr. assert (H : forall fuel rp c l, rrep rp c l -> (length l < fuel)%nat -> expand_loop fuel rp = Some l).
  { induction fuel as [|fuel IH]; intros rp c l Hrep Hfuel; [lia|]. cbn [expand_loop].
    pose proof (removed_Next_spec rp c l Hrep) as Hn. change (pNext rp) with (removed_Next rp).
    destruct l as [|x l]; [by destruct Hn as (rp' & ->)|]. destruct Hn as (rp' & -> & Hrep').
    rewrite (IH rp' _ _ Hrep') by (simpl in Hfuel; lia). destruct Hrep' as [Hc _]. cbn in Hc |- *. by rewrite Hc. }
  assert (Hrep : rrep (newRemovedPostings full remove) None (diff lf lr)).
  { split; [done|]. split; [done|]. by exists lf, lr. }
  apply (H _ _ _ _ Hrep). pose proof (rrep_ok _ _ _ Hrep) as [_ Hs]. cbn. cbn in Hs. lia.
Qed.

Section Seeking.
  Context `{!PostingsEnd P} `{!PostingsEnd Q}.

(** Seeking the remove postings from any of their states between calls. *)
Lemma seek_remove v remove rok F l m t :
  0 < v < pbound (P := Q) -> t <= v ->
  (rem_state t remove rok F l m \/ exists lr, prep remove None lr /\ l = diff F lr) ->
  let '(rok', remove') := pSeek v remove in
  forall f' lf', v <= f' -> (forall y, y ∈ f' :: lf' -> y ∈ F /\ v <= y) -> exists L m',
    rem_state f' remove' rok' (f' :: lf') L m' /\ (forall y, y ∈ L <-> y ∈ l /\ y ∈ f' :: lf').
Proof.
  intros Hv Ht Hst.
  assert (Hcase : (exists c lr, prep remove c lr /\ l = diff F (avail c lr)) \/ (l = F /\ pdead remove t)).
  { destruct Hst as [Hst|(lr & Hr & ->)]; [|left; by exists None, lr]. destruct rok.
    - destruct Hst as (r & lr & Hr & -> & _). left. by exists (Some r), lr.
    - destruct Hst as (-> & Hd & _). by right. }
  destruct Hcase as [(c & lr & Hr & ->)|[-> Hd]].
  - pose proof (pSeek_rep remove c lr v Hr Hv) as Hseek. pose proof (prep_ok _ _ _ Hr) as [Hs _].
    pose proof (seek_list_spec v c lr Hs) as Hspec. destruct (seek_list v c lr) as [[r' lr']|].
    + destruct Hseek as (remove' & -> & Hr'). destruct Hspec as (_ & _ & _ & Hiff). intros f' lf' Hf' Hsub.
      exists (diff (f' :: lf') (r' :: lr')), (S (length lr')). split; [by exists r', lr'|]. intros y.
      rewrite !elem_of_diff, Hiff. split; [intros [H1 H2]|intros [[H1 H2] H3]].
      * destruct (Hsub y H1). tauto.
      * split; [done|]. tauto.
    + destruct Hseek as (remove' & -> & Hd). intros f' lf' Hf' Hsub. exists (f' :: lf'), 0%nat. split.
      * split_and!; try done. by eapply pdead_mono.
      * intros y. rewrite elem_of_diff. split; [|tauto]. intros Hy. destruct (Hsub y Hy). split_and!; try done.
        intros Hin. specialize (Hspec _ Hin). lia.
  - destruct (pdead_seek remove t v Hd ltac:(lia)) as (remove' & -> & Hd'). intros f' lf' Hf' Hsub.
    exists (f' :: lf'), 0%nat. split.
    + split_and!; try done. by eapply pdead_mono.
    + intros y. split; [|tauto]. intros Hy. destruct (Hsub y Hy). done.
Qed.

Lemma removed_Seek_spec rp c l v :
  rrep rp c l -> 0 < v < pbound (P := P) ->
  match seek_list v c l with
  | Some (x, l') => exists rp', removed_Seek v rp = (true, rp') /\ rrep rp' (Some x) l'
  | None => exists rp', removed_Seek v rp = (false, rp')
  end.
Proof.
  intros Hrep Hv. pose proof (rrep_ok rp c l Hrep) as [[Hsl _] _]. pose proof Hrep as [Hcur Hst].
  unfold removed_Seek. destruct (Z.leb_spec v (rp_cur rp)) as [Hle|Hgt].
  { destruct c as [c0|]; cbn in Hcur; [|lia]. cbn [seek_list]. subst c0. rewrite (proj2 (Z.leb_le _ _)) by done. eauto. }
  assert (seek_list v c l = first_ge v l) as ->.
  { destruct c as [c0|]; [|done]. cbn [seek_list]. cbn in Hcur. subst c0. by rewrite (proj2 (Z.leb_gt _ _)). }
  apply StronglySorted_app in Hsl as (_ & _ & Hsl).
  (* it is enough to find what the loop still has to return *)
  assert (Hend : forall rp' L n, loop_ok rp' L n -> (rp_fok rp' = false -> n = O) -> StronglySorted Z.lt L ->
    (forall y, y ∈ L <-> y ∈ l /\ v <= y) ->
    match first_ge v l with
    | Some (x, l') => exists rp'', removed_Next rp' = (true, rp'') /\ rrep rp'' (Some x) l'
    | None => exists rp'', removed_Next rp' = (false, rp'') end).
  { intros rp' L n Hok H0 HsL Hiff. rewrite (first_ge_sorted v l L Hsl HsL Hiff).
    pose proof (removed_loop_spec _ rp' L n Hok (loop_ok_fuel _ _ _ Hok H0)) as Hloop.
    unfold removed_Next. rewrite (proj1 Hok). by destruct L. }
  assert (Hfull : (exists c1 lf, prep (rp_full rp) c1 lf /\ (forall y, y ∈ l -> y ∈ avail c1 lf) /\
      exists t m, t <= v /\ (rem_state t (rp_remove rp) (rp_rok rp) (avail c1 lf) l m \/
        exists lr, prep (rp_remove rp) None lr /\ l = diff (avail c1 lf) lr)) \/
    (l = [] /\ pdead (rp_full rp) v)).
  { destruct c as [c0|]; cbn in Hcur.
    - destruct Hst as (Hc0 & _ & Hst). destruct (rp_fok rp).
      + destruct Hst as (f & lf & m & Hp & _ & Hrem). left. exists (Some f), lf. split_and!; [done| |].
        * intros y Hy. destruct (rp_rok rp); [destruct Hrem as (r & lr & _ & -> & _)|by destruct Hrem as (-> & _)].
          by apply elem_of_diff in Hy as [? _].
        * exists (c0 + 1), m. split; [lia|by left].
      + destruct Hst as [-> Hd]. right. split; [done|]. eapply pdead_mono; [exact Hd|lia].
    - destruct Hst as (_ & lf & lr & Hf & Hr & ->). left. exists None, lf. split_and!; [done| |].
      + by intros y [? _]%elem_of_diff.
      + exists 0, 0%nat. split; [lia|]. right. by exists lr. }
  destruct Hfull as [(c1 & lf & Hf & Hsub & t & m & Ht & Hrem)|[-> Hd]].
  - pose proof (pSeek_rep _ c1 lf v Hf Hv) as Hseek. pose proof (prep_ok _ _ _ Hf) as [Hsf _].
    pose proof (seek_list_spec v c1 lf Hsf) as Hspec.
    pose proof (seek_remove v (rp_remove rp) (rp_rok rp) (avail c1 lf) l m t ltac:(lia) Ht Hrem) as Hsr.
    destruct (seek_list v c1 lf) as [[f' lf']|].
    + destruct Hseek as (full' & -> & Hf'). destruct Hspec as (Hvf & _ & Hsf' & Hiff).
      destruct (pSeek v (rp_remove rp)) as [rok' remove'].
      destruct (Hsr f' lf' Hvf) as (L & m' & Hrem' & HL); [by intros y Hy%Hiff|].
      eapply (Hend _ L (S (length lf') + m')%nat).
      * split; [done|]. cbn. by exists f', lf', m'.
      * done.
      * unfold rem_state in Hrem'. destruct rok'; [destruct Hrem' as (? & ? & _ & -> & _); by apply diff_sorted|].
        by destruct Hrem' as (-> & _).
      * intros y. rewrite HL, Hiff. split; [tauto|]. intros [Hy Hle]. split_and!; try done. by apply Hsub.
    + destruct Hseek as (full' & -> & _). destruct (pSeek v (rp_remove rp)) as [rok' remove'].
      apply (Hend _ [] 0%nat); [done|done|constructor|]. intros y. split; [set_solver|].
      intros [Hy Hle]. specialize (Hspec _ (Hsub _ Hy)). lia.
  - destruct (pdead_seek _ v v Hd ltac:(lia)) as (full' & -> & _). destruct (pSeek v (rp_remove rp)) as [rok' remove'].
    apply (Hend _ [] 0%nat); [done|done|constructor|set_solver].
Qed.

End Seeking.
End RemovedSpec.

(** With full postings whose references fit the remove postings, the difference
    satisfies the contract again. *)
Definition removedPostings_laws {P Q} `{!Postings P} `{!Postings Q} `{!PostingsLaws P} `{!PostingsLaws Q}
  `{!PostingsEnd P} `{!PostingsEnd Q} (Hbound : pbound (P := P) <= pbound (P := Q)) :
  PostingsLaws (removedPostings P Q).
Proof.
  refine {| prep := rrep; pdead := fun _ _ => True; pbound := pbound (P := P) |}.
  - intros p c l Hp. apply rrep_ok in Hp. apply Hp.
  - intros p c l Hp. apply rrep_ok in Hp. apply Hp.
  - by intros p c l [? _].
  - intros p c l Hp. pose proof (removed_Next_spec Hbound p c l Hp) as H. destruct l; [|done].
    destruct H as [p' E]. eauto.
  - intros p c l v Hp Hv. pose proof (removed_Seek_spec Hbound p c l v Hp Hv) as H.
    destruct (seek_list v c l) as [[x r]|]; [done|]. destruct H as [p' E]. eauto.
  - done.
Defined.

(** ** Main theorems *)

(** C20: intersecting postings yields the intersection.  For any number of
    postings that satisfy the contract, freshly positioned, iterating the
    intersection to its end returns, in increasing order and once each, exactly
    the references all of them contain; the loops terminate. *)
Theorem intersect_is_intersection {P} `{!Postings P} `{!PostingsLaws P} (ps : list P) (ls : list (list Z)) :
  ps <> [] -> Forall2 (fun p l => prep p None l) ps ls ->
  exists out, ExpandPostings (newIntersectPostings ps) = Some out /\ StronglySorted Z.lt out /\
    forall x, x ∈ out <-> Forall (fun l => x ∈ l) ls.
Proof.
  intros Hne Hps. pose proof (newIntersect_rep ps ls Hne Hps) as Hrep. eexists. split; [by eapply ExpandPostings_spec|].
  destruct Hps as [|p l ps ls Hp _]; [done|]. cbn [head default]. split.
  - apply sorted_filter. by apply (prep_ok p None l).
  - intros x. change (x ∈ filter (fun x => Forall (fun l => x ∈ l) (l :: ls)) l <-> Forall (fun l => x ∈ l) (l :: ls)).
    rewrite list_elem_of_filter, Forall_cons. tauto.
Qed.

(** Concrete references satisfy [refs_ok]. *)
Ltac refs_solve := split; [repeat constructor; lia | repeat constructor; lia].

Lemma intersect_is_intersection_witness :
  exists out, ExpandPostings (newIntersectPostings
      [NewListPostings [1; 4; 6; 9]; NewListPostings [2; 4; 9]; NewListPostings [4; 5; 9; 12]]) = Some out /\
    StronglySorted Z.lt out /\
    forall x, x ∈ out <-> Forall (fun l => x ∈ l) [[1; 4; 6; 9]; [2; 4; 9]; [4; 5; 9; 12]].
Proof.
  apply intersect_is_intersection; [done|].
  repeat constructor; cbn; lia.
Defined.

(** Without yields the difference.  For full and remove postings that
    satisfy the contract (the intersection included), the removed postings
    return, in increasing order, exactly the references of the full postings
    that the remove postings do not contain; the loop terminates. *)
Theorem without_is_difference {P Q} `{!Postings P} `{!Postings Q} `{!PostingsLaws P} `{!PostingsLaws Q}
    (full : P) (remove : Q) lf lr :
  pbound (P := P) <= pbound (P := Q) -> prep full None lf -> prep remove None lr ->
  exists out, ExpandPostings (newRemovedPostings full remove) = Some out /\ StronglySorted Z.lt out /\
    forall x, x ∈ out <-> x ∈ lf /\ x ∉ lr.
Proof.
  intros Hb Hf Hr. exists (diff lf lr). split_and!.
  - by apply removed_expand.
  - apply diff_sorted. by apply (prep_ok full None lf).
  - intros x. apply elem_of_diff.
Qed.

Lemma without_is_difference_witness :
  exists out, ExpandPostings (newRemovedPostings
      (newIntersectPostings [NewListPostings [1; 4; 6; 9]; NewListPostings [1; 4; 9]])
      (NewListPostings [3; 4; 7])) = Some out /\ StronglySorted Z.lt out /\
    forall x, x ∈ out <-> x ∈ [1; 4; 9] /\ x ∉ [3; 4; 7].
Proof.
  apply without_is_difference; [reflexivity| |].
  - apply (newIntersect_rep [NewListPostings [1; 4; 6; 9]; NewListPostings [1; 4; 9]] [[1; 4; 6; 9]; [1; 4; 9]]);
      [done|]. repeat constructor; cbn; lia.
  - repeat constructor; cbn; lia.
Defined.

(** Seek of every kind of postings.  From any position, Seek to a target
    within the reference bound returns true and stops at the first reference
    not below the target (staying put if the current one qualifies), with the
    later references still to come, and returns false when there is none: for
    slices, for byte streams, for intersections and for differences of those. *)
Theorem postings_Seek_contract v :
  (forall (it : listPostings) c l, prep it c l -> 0 < v < 2 ^ 64 ->
    match seek_list v c l with
    | Some (x, r) => exists it', pSeek v it = (true, it') /\ pAt it' = x /\ prep it' (Some x) r
    | None => (pSeek v it).1 = false
    end) /\
  (forall (it : bigEndianPostings) c l, prep it c l -> 0 < v < 2 ^ 32 ->
    match seek_list v c l with
    | Some (x, r) => exists it', pSeek v it = (true, it') /\ pAt it' = x /\ prep it' (Some x) r
    | None => (pSeek v it).1 = false
    end) /\
  (forall (it : intersectPostings bigEndianPostings) c l, prep it c l -> 0 < v < 2 ^ 32 ->
    match seek_list v c l with
    | Some (x, r) => exists it', pSeek v it = (true, it') /\ pAt it' = x /\ prep it' (Some x) r
    | None => (pSeek v it).1 = false
    end) /\
  (forall (it : removedPostings bigEndianPostings listPostings) c l, rrep it c l -> 0 < v < 2 ^ 32 ->
    match seek_list v c l with
    | Some (x, r) => exists it', pSeek v it = (true, it') /\ pAt it' = x /\ rrep it' (Some x) r
    | None => (pSeek v it).1 = false
    end).
Proof.
  assert (H : forall P (HP : Postings P) (HL : PostingsLaws P) (it : P) c l, prep it c l -> 0 < v < pbound (P := P) ->
    match seek_list v c l with
    | Some (x, r) => exists it', pSeek v it = (true, it') /\ pAt it' = x /\ prep it' (Some x) r
    | None => (pSeek v it).1 = false
    end).
  { intros P HP HL it c l Hit Hv. pose proof (pSeek_rep it c l v Hit Hv) as Hs.
    destruct (seek_list v c l) as [[x r]|].
    - destruct Hs as (it' & E & Hit'). exists it'. split_and!; [done|by eapply pAt_rep|done].
    - by destruct Hs as (it' & -> & _). }
  assert (Hb : pbound (P := bigEndianPostings) <= pbound (P := listPostings)) by (cbn; lia).
  split_and!; intros it c l; [apply (H listPostings)|apply (H bigEndianPostings)|
    apply (H (intersectPostings bigEndianPostings))|apply (H _ _ (removedPostings_laws Hb))].
Qed.

(** BigEndianPostings.Seek compares only the low 32 bits of its target.  On
    fresh postings, a target of 2^32 or more whose low bits [w] are not past the
    end stops at the first reference not below [w], which is below the target:
    Seek returns true at a value smaller than asked for. *)
Theorem bigEndian_Seek_truncates l w x r :
  refs_ok (2 ^ 32) l -> 0 < w < 2 ^ 32 -> first_ge w l = Some (x, r) ->
  exists it', pSeek (2 ^ 32 + w) (newBigEndianPostings (be_refs l)) = (true, it') /\
    pAt it' = x /\ x < 2 ^ 32 + w.
Proof.
  intros Hl Hw Hf.
  assert (Hu : u32 (2 ^ 32 + w) = u32 w).
  { unfold u32. rewrite <-Zplus_mod_idemp_l, Z.mod_same by lia. done. }
  assert (Hseek : bigEndianPostings_Seek (2 ^ 32 + w) (newBigEndianPostings (be_refs l))
    = bigEndianPostings_Seek w (newBigEndianPostings (be_refs l))).
  { unfold bigEndianPostings_Seek. rewrite Hu. cbn [newBigEndianPostings bp_cur].
    by rewrite !(proj2 (Z.leb_gt _ _)) by lia. }
  pose proof (be_seek (newBigEndianPostings (be_refs l)) None l w) as H. cbn [seek_list] in H. rewrite Hf in H.
  destruct H as (it' & E & Hit'); [done|done|]. exists it'. cbn [pSeek bigEndianPostings_ops]. rewrite Hseek.
  destruct Hit' as (_ & Hc & Hok). split_and!; [done|done|]. apply refs_ok_cons in Hok. lia.
Qed.

Lemma bigEndian_Seek_truncates_witness :
  exists it', pSeek (2 ^ 32 + 5) (newBigEndianPostings (be_refs [3; 7])) = (true, it') /\
    pAt it' = 7 /\ 7 < 2 ^ 32 + 5.
Proof. apply (bigEndian_Seek_truncates [3; 7] 5 7 []); [refs_solve|lia|reflexivity]. Defined.
