(* ===== verification/MemPostings.v ===== *)
(** tsdb/index/postings.go: MemPostings, the head's inverted index, and
    mergedPostings, the union of postings.

    A map is a [gmap]; where Go ranges over a map the order is a parameter or
    does not matter.  The loser tree of github.com/bboreham/go-loser is a
    parameter; [LoserSpec] is its documented contract: it returns the values of
    its sequences in increasing order. *)
From stdpp Require Import strings sorting.
From S2P Require Import Prelude GoSort Postings.

Record Label := mk_Label { l_Name : string; l_Value : string }.

#[global] Instance Label_eq_dec : EqDecision Label.
Proof. solve_decision. Defined.

Definition allPostingsKey : Label := mk_Label "" "".

Record MemPostings := mk_MemPostings {
  mp_m : gmap string (gmap string (list Z));
  mp_lvs : gmap string (list string);
  mp_ordered : bool }.

Definition NewMemPostings : MemPostings := mk_MemPostings ∅ ∅ true.
Definition NewUnorderedMemPostings : MemPostings := mk_MemPostings ∅ ∅ false.

(** [p.m[name][value]]; a missing entry is the nil slice. *)
Definition mp_get (p : MemPostings) (l : Label) : list Z :=
  default [] (default ∅ (mp_m p !! l_Name l) !! l_Value l).

(** [for i := len(list)-1; i >= 1; i-- { ... swap }]: [i] counts down. *)
Fixpoint repair (i : nat) (l : list Z) : list Z :=
  match i with
  | O => l
  | S j =>
      if l !!! j <=? l !!! i then l
      else repair j (<[i := l !!! j]> (<[j := l !!! i]> l))
  end.

Definition addFor (id : Z) (l : Label) (p : MemPostings) : MemPostings :=
  let nm := default ∅ (mp_m p !! l_Name l) in
  let lvs := match nm !! l_Value l with
             | Some _ => mp_lvs p
             | None => <[l_Name l := default [] (mp_lvs p !! l_Name l) ++ [l_Value l]]> (mp_lvs p)
             end in
  let list := default [] (nm !! l_Value l) ++ [id] in
  let list := if mp_ordered p then repair (length list - 1) list else list in
  mk_MemPostings (<[l_Name l := <[l_Value l := list]> nm]> (mp_m p)) lvs (mp_ordered p).

Definition Add (id : Z) (lset : list Label) (p : MemPostings) : MemPostings :=
  addFor id allPostingsKey (foldl (fun p l => addFor id l p) p lset).

(** EnsureOrder sorts every list; the workers sort disjoint slices. *)
Definition EnsureOrder (p : MemPostings) : MemPostings :=
  if mp_ordered p then p
  else mk_MemPostings (fmap (M := gmap string) (fmap (M := gmap string) (merge_sort Z.le)) (mp_m p)) (mp_lvs p) true.

(** The closure [process] of Delete. *)
Definition delete_process (deleted : gset Z) (l : Label) (st : MemPostings * gset string)
  : MemPostings * gset string :=
  let '(p, affectedNames) := st in
  let repl := filter (fun id => id ∉ deleted) (mp_get p l) in
  match repl with
  | _ :: _ =>
      (mk_MemPostings (alter (fun nm => <[l_Value l := repl]> nm) (l_Name l) (mp_m p)) (mp_lvs p) (mp_ordered p),
       affectedNames)
  | [] =>
      (mk_MemPostings (alter (fun nm => delete (l_Value l) nm) (l_Name l) (mp_m p)) (mp_lvs p) (mp_ordered p),
       {[l_Name l]} ∪ affectedNames)
  end.

(** The loop over the affected label names. *)
Definition delete_name (name : string) (p : MemPostings) : MemPostings :=
  let nm := default ∅ (mp_m p !! name) in
  if decide (nm = ∅) then mk_MemPostings (delete name (mp_m p)) (delete name (mp_lvs p)) (mp_ordered p)
  else mk_MemPostings (mp_m p) (<[name := (map_to_list nm).*1]> (mp_lvs p)) (mp_ordered p).

(** Delete; [affected] in the order the map is ranged over. *)
Definition Delete (deleted : gset Z) (affected : list Label) (p : MemPostings) : MemPostings :=
  let '(p, names) := foldl (fun st l => delete_process deleted l st) (p, ∅) affected in
  let '(p, names) := delete_process deleted allPostingsKey (p, names) in
  foldr delete_name p (elements names).

Definition LabelNames (p : MemPostings) : list string :=
  filter (fun n => n <> l_Name allPostingsKey) (map_to_list (mp_m p)).*1.

(** LabelValues; [limit] is hints.Limit, 0 without hints. *)
Definition LabelValues (p : MemPostings) (name : string) (limit : nat) : list string :=
  let values := default [] (mp_lvs p !! name) in
  if (0 <? limit)%nat && (limit <? length values)%nat then take limit values else values.

(** The slices Postings, PostingsForLabelMatching and PostingsForAllLabelValues
    hand to Merge. *)
Definition Postings_lists (p : MemPostings) (name : string) (values : list string) : list (list Z) :=
  omap (fun v => default ∅ (mp_m p !! name) !! v) values.

Definition PostingsForLabelMatching_lists (p : MemPostings) (name : string) (match_ : string -> bool)
  : list (list Z) :=
  omap (fun v => default ∅ (mp_m p !! name) !! v)
    (filter (fun v => match_ v = true) (default [] (mp_lvs p !! name))).

Definition PostingsForAllLabelValues_lists (p : MemPostings) (name : string) : list (list Z) :=
  filter (fun l => l <> []) (map_to_list (default ∅ (mp_m p !! name))).*2.

(** ** mergedPostings *)

(** The operations of loser.Tree that Next uses, over slices of references. *)
Class Loser (T : Type) := {
  loser_New : list (list Z) -> T;
  loser_Next : T -> bool * T;
  loser_At : T -> Z }.

Class LoserSpec (T : Type) `{!Loser T} := {
  loser_rep : T -> list Z -> Prop;
  loser_New_rep : forall ls, Forall (Sorted Z.le) ls -> loser_rep (loser_New ls) (merge_sort Z.le (concat ls));
  loser_Next_rep : forall t l, loser_rep t l ->
    match l with
    | x :: l' => exists t', loser_Next t = (true, t') /\ loser_At t' = x /\ loser_rep t' l'
    | [] => exists t', loser_Next t = (false, t')
    end }.

Section Merge.
  Context {T : Type} `{!Loser T}.

(** The postings and how many values they hold, the tree and the current value. *)
Record mergedPostings := mk_mergedPostings { mg_p : list (list Z); mg_h : T; mg_cur : Z }.

Definition newMergedPostings (p : list (list Z)) : mergedPostings := mk_mergedPostings p (loser_New p) 0.

(** Every turn takes a value from the tree. *)
Fixpoint merged_loop (fuel : nat) (it : mergedPostings) : bool * mergedPostings :=
  match fuel with
  | O => (false, it)
  | S fuel' =>
      let '(ok, h) := loser_Next (mg_h it) in
      if negb ok then (false, mk_mergedPostings (mg_p it) h (mg_cur it))
      else
        let newItem := loser_At h in
        if newItem =? mg_cur it then merged_loop fuel' (mk_mergedPostings (mg_p it) h (mg_cur it))
        else (true, mk_mergedPostings (mg_p it) h newItem)
  end.

Definition merged_Next (it : mergedPostings) : bool * mergedPostings :=
  merged_loop (S (length (concat (mg_p it)))) it.

Fixpoint merged_expand (fuel : nat) (it : mergedPostings) : option (list Z) :=
  match fuel with
  | O => None
  | S fuel' =>
      let '(ok, it) := merged_Next it in
      if ok then cons (mg_cur it) <$> merged_expand fuel' it else Some []
  end.

(** Merge of slices, expanded.  No slice gives the empty postings, one slice
    its own iterator. *)
Definition Merge_expand (its : list (list Z)) : option (list Z) :=
  match its with
  | [] => Some []
  | [l] => ExpandPostings (NewListPostings l)
  | _ => merged_expand (S (length (concat its))) (newMergedPostings its)
  end.

End Merge.

(** ** Repairing the order after an append *)

Lemma repair_step a y x b :
  repair (S (length a)) (a ++ y :: x :: b) =
    if y <=? x then a ++ y :: x :: b else repair (length a) (a ++ x :: y :: b).
Proof.
  cbn [repair]. assert (E1 : (a ++ y :: x :: b) !!! length a = y) by (by rewrite list_lookup_total_middle).
  assert (E2 : (a ++ y :: x :: b) !!! S (length a) = x).
  { rewrite cons_middle, app_assoc. apply list_lookup_total_middle. rewrite length_app. simpl. lia. }
  rewrite E1, E2. destruct (y <=? x); [done|]. f_equal. rewrite insert_app_r_alt, Nat.sub_diag by lia. cbn [insert list_insert].
  rewrite insert_app_r_alt by lia. by replace (S (length a) - length a)%nat with 1%nat by lia.
Qed.

Lemma repair_insert x a : forall b,
  StronglySorted Z.le a ->
  exists a1 a2, a = a1 ++ a2 /\ repair (length a) (a ++ x :: b) = a1 ++ x :: a2 ++ b /\
    Forall (fun y => y <= x) a1 /\ Forall (fun y => x < y) a2.
Proof.
  induction a as [|y a IH] using rev_ind; intros b Hs; [by exists [], []|].
  rewrite length_app, Nat.add_1_r, <-app_assoc. cbn [app]. rewrite repair_step.
  apply StronglySorted_app in Hs as (Hle & Hs & _). destruct (Z.leb_spec y x) as [H|H].
  - exists (a ++ [y]), []. rewrite app_nil_r, <-app_assoc. split_and!; try done.
    apply Forall_app. split; [|by constructor]. apply Forall_forall. intros z Hz. specialize (Hle z y Hz ltac:(set_solver)). lia.
  - destruct (IH (y :: b) Hs) as (a1 & a2 & -> & E & F1 & F2). exists a1, (a2 ++ [y]). rewrite E, <-!app_assoc.
    split_and!; try done. apply Forall_app. split; [done|by constructor].
Qed.

(** Appending a new reference and repairing keeps an increasing list increasing. *)
Lemma repair_sorted l x :
  StronglySorted Z.lt l -> x ∉ l ->
  StronglySorted Z.lt (repair (length l) (l ++ [x])) /\ repair (length l) (l ++ [x]) ≡ₚ x :: l.
Proof.
  intros Hs Hx. destruct (repair_insert x l []) as (a1 & a2 & -> & -> & F1 & F2).
  { eapply (StronglySorted_weaken (fun _ => True)); [|by apply Forall_true|exact Hs]. intros; lia. }
  rewrite app_nil_r. split; [|by rewrite Permutation_middle]. apply StronglySorted_app in Hs as (H12 & S1 & S2).
  rewrite Forall_forall in F1. apply StronglySorted_app_2; [|done|by constructor].
  intros y z Hy [->|Hz]%elem_of_cons; [|by apply H12]. specialize (F1 _ Hy).
  assert (y <> x) by (intros ->; set_solver). lia.
Qed.

(** ** The union *)

(** The values of [l] without repetitions, given that the last one was [c]. *)
Fixpoint uniq (c : Z) (l : list Z) : list Z :=
  match l with
  | [] => []
  | x :: r => if x =? c then uniq c r else x :: uniq x r
  end.

Lemma uniq_spec l : forall c,
  StronglySorted Z.le (c :: l) ->
  StronglySorted Z.lt (uniq c l) /\ Forall (Z.lt c) (uniq c l) /\ forall x, x ∈ uniq c l <-> x ∈ l /\ x <> c.
Proof.
  induction l as [|x l IH]; intros c Hs; cbn [uniq].
  { split_and!; [constructor..|]. set_solver. }
  apply StronglySorted_inv in Hs as [Hs Hc]. apply Forall_cons in Hc as [Hcx Hc].
  destruct (Z.eqb_spec x c) as [->|Hne].
  - destruct (IH c Hs) as (H1 & H2 & H3). split_and!; [done|done|]. intros y. rewrite H3. set_solver.
  - destruct (IH x Hs) as (H1 & H2 & H3). split_and!.
    + by constructor.
    + constructor; [lia|]. eapply Forall_impl; [exact H2|]. cbn. lia.
    + intros y. apply StronglySorted_inv in Hs as [_ Hx]. rewrite Forall_forall in Hx.
      split.
      * intros [->|Hy]%elem_of_cons; [set_solver|]. apply H3 in Hy as [Hy Hyx]. specialize (Hx _ Hy).
        split; [set_solver|lia].
      * intros [[->|Hy]%elem_of_cons Hyc]; [set_solver|]. destruct (decide (y = x)) as [->|]; [set_solver|].
        apply elem_of_cons. right. by apply H3.
Qed.

Section MergeSpec.
  Context {T : Type} `{!Loser T} `{!LoserSpec T}.

Lemma merged_loop_spec fuel : forall (it : mergedPostings (T := T)) l,
  loser_rep (mg_h it) l -> (length l < fuel)%nat ->
  match uniq (mg_cur it) l with
  | [] => exists it', merged_loop fuel it = (false, it')
  | x :: _ => exists it' r, merged_loop fuel it = (true, it') /\ mg_cur it' = x /\ mg_p it' = mg_p it /\
      loser_rep (mg_h it') r /\ uniq (mg_cur it) l = x :: uniq x r /\ (length r < length l)%nat
  end.
Proof.
  induction fuel as [|fuel IH]; intros it l Hrep Hf; [lia|]. cbn [merged_loop].
  pose proof (loser_Next_rep (mg_h it) l Hrep) as Hn. destruct l as [|x l]; cbn [uniq].
  { destruct Hn as (t & ->). by eexists. }
  destruct Hn as (t & -> & -> & Ht). cbn [negb]. destruct (Z.eqb_spec x (mg_cur it)) as [->|Hne].
  - specialize (IH (mk_mergedPostings (mg_p it) t (mg_cur it)) l Ht). cbn [mg_cur mg_p] in IH. simpl in Hf.
    specialize (IH ltac:(lia)). destruct (uniq (mg_cur it) l) as [|y r]; [done|].
    destruct IH as (it' & r' & E & H1 & H2 & H3 & H4 & H5). exists it', r'. split_and!; try done. simpl. lia.
  - eexists _, l. split_and!; try done. simpl. lia.
Qed.

Lemma merged_expand_spec fuel : forall (it : mergedPostings (T := T)) l,
  loser_rep (mg_h it) l -> (length l < fuel)%nat -> (length l <= length (concat (mg_p it)))%nat ->
  merged_expand fuel it = Some (uniq (mg_cur it) l).
Proof.
  induction fuel as [|fuel IH]; intros it l Hrep Hf Hp; [lia|]. cbn [merged_expand]. unfold merged_Next.
  pose proof (merged_loop_spec (S (length (concat (mg_p it)))) it l Hrep ltac:(lia)) as Hloop.
  destruct (uniq (mg_cur it) l) as [|x r] eqn:E.
  - by destruct Hloop as (it' & ->).
  - destruct Hloop as (it' & r' & -> & <- & Hmg & Hr' & -> & Hlen).
    rewrite (IH it' r' Hr'); [done|lia|rewrite Hmg; lia].
Qed.

(** Merge of increasing slices is their union. *)
Lemma Merge_expand_union its :
  Forall (refs_ok (2 ^ 64)) its ->
  exists out, Merge_expand (T := T) its = Some out /\ StronglySorted Z.lt out /\
    forall x, x ∈ out <-> exists l, l ∈ its /\ x ∈ l.
Proof.
  intros Hits. destruct its as [|l [|l' its]].
  - exists []. split_and!; [done|constructor|set_solver].
  - rewrite Forall_singleton in Hits. exists l. split_and!; [|apply Hits|set_solver].
    apply (ExpandPostings_spec _ None). by split_and!.
  - set (ls := l :: l' :: its) in *. change (Merge_expand (T := T) ls) with (merged_expand (T := T) (S (length (concat ls))) (newMergedPostings ls)).
    pose proof (merge_sort_Permutation Z.le (concat ls)) as Hperm.
    assert (Hrep : loser_rep (loser_New ls) (merge_sort Z.le (concat ls))).
    { apply loser_New_rep. eapply Forall_impl; [exact Hits|]. intros k [Hk _]. apply StronglySorted_Sorted.
      eapply (StronglySorted_weaken (fun _ => True)); [|by apply Forall_true|exact Hk]. intros; lia. }
    rewrite (merged_expand_spec _ (newMergedPostings ls) _ Hrep) by (cbn [newMergedPostings mg_p]; rewrite Hperm; lia).
    cbn [newMergedPostings mg_cur].
    assert (Hpos : Forall (fun x => 0 < x) (merge_sort Z.le (concat ls))).
    { rewrite Hperm. apply Forall_concat. eapply Forall_impl; [exact Hits|]. intros k [_ Hk].
      eapply Forall_impl; [exact Hk|]. cbn. lia. }
    destruct (uniq_spec (merge_sort Z.le (concat ls)) 0) as (H1 & _ & H3).
    { constructor; [apply (StronglySorted_merge_sort Z.le)|].
      eapply Forall_impl; [exact Hpos|]. cbn. lia. }
    eexists. split_and!; [done|done|]. intros x. rewrite H3, Hperm. rewrite Forall_forall in Hpos. split.
    + intros [Hin _]. apply list_elem_of_In, in_concat in Hin as (k & Hk & Hx). exists k.
      split; by apply list_elem_of_In.
    + intros (k & Hk & Hx). assert (x ∈ concat ls) as Hin.
      { apply list_elem_of_In, in_concat. exists k. split; by apply list_elem_of_In. }
      split; [done|]. specialize (Hpos x). rewrite Hperm in Hpos. specialize (Hpos Hin). lia.
Qed.

End MergeSpec.

(** ** The inverted index *)

(** Entry of the two-level map. *)
Definition entry (p : MemPostings) (n v : string) : option (list Z) := default ∅ (mp_m p !! n) !! v.

Lemma mp_get_entry p l : mp_get p l = default [] (entry p (l_Name l) (l_Value l)).
Proof. done. Qed.

(** What the index holds for a set of series, given by their labels. *)
Definition indexed (series : gmap Z (list Label)) (l : Label) (id : Z) : Prop :=
  exists ls, series !! id = Some ls /\ (l ∈ ls \/ l = allPostingsKey).

(** The label values listed for a name are its keys. *)
Definition lvs_ok (p : MemPostings) (n : string) : Prop :=
  NoDup (default [] (mp_lvs p !! n)) /\
  forall v, v ∈ default [] (mp_lvs p !! n) <-> is_Some (entry p n v).

(** The index invariant: every list is increasing and holds exactly the series
    with that label; no list is empty; the label values are those in use. *)
Record index_ok (p : MemPostings) (series : gmap Z (list Label)) : Prop := {
  ix_ordered : mp_ordered p = true;
  ix_sorted : forall l, StronglySorted Z.lt (mp_get p l);
  ix_mem : forall l id, id ∈ mp_get p l <-> indexed series l id;
  ix_nonempty : forall n v, entry p n v <> Some [];
  ix_lvs : forall n, lvs_ok p n }.

Lemma entry_addFor id l p n v :
  entry (addFor id l p) n v =
    if decide (mk_Label n v = l) then
      Some (let list := mp_get p l ++ [id] in if mp_ordered p then repair (length list - 1) list else list)
    else entry p n v.
Proof.
  unfold entry, addFor. cbn [mp_m]. destruct l as [n' v']. cbn [l_Name l_Value].
  destruct (decide (n = n')) as [->|Hn].
  - rewrite lookup_insert_eq. cbn [default]. destruct (decide (v = v')) as [->|Hv].
    + rewrite decide_True by done. cbn. by rewrite lookup_insert_eq.
    + rewrite decide_False by congruence. cbn. by rewrite lookup_insert_ne.
  - rewrite lookup_insert_ne, decide_False by congruence. done.
Qed.

Lemma mp_get_addFor id l p l' :
  mp_ordered p = true ->
  mp_get (addFor id l p) l' = if decide (l' = l) then repair (length (mp_get p l)) (mp_get p l ++ [id]) else mp_get p l'.
Proof.
  intros Ho. rewrite mp_get_entry, entry_addFor, Ho. destruct l' as [n v]. cbn [l_Name l_Value].
  case_decide; [|done]. cbv zeta. rewrite length_app, Nat.add_sub. done.
Qed.

Lemma lvs_addFor id l p n : lvs_ok p n -> lvs_ok (addFor id l p) n.
Proof.
  intros [Hnd Hiff]. unfold lvs_ok. setoid_rewrite entry_addFor. set (new := Some _). destruct l as [n' v'].
  assert (Hlvs : default [] (mp_lvs (addFor id (mk_Label n' v') p) !! n) =
    if decide (n = n' /\ entry p n' v' = None) then default [] (mp_lvs p !! n) ++ [v'] else default [] (mp_lvs p !! n)).
  { unfold addFor. cbn [mp_lvs l_Name l_Value]. fold (entry p n' v').
    destruct (entry p n' v') eqn:E; [by rewrite decide_False by naive_solver|].
    destruct (decide (n = n')) as [->|]; [rewrite lookup_insert_eq, decide_True by done; done|].
    rewrite lookup_insert_ne, decide_False by naive_solver. done. }
  rewrite Hlvs. case_decide as H.
  - destruct H as [-> E]. split.
    + apply NoDup_app. split_and!; [done| |apply NoDup_singleton].
      intros v Hv ->%list_elem_of_singleton. apply Hiff in Hv as [? Hv]. congruence.
    + intros v. rewrite elem_of_app, list_elem_of_singleton, Hiff. case_decide as Hl.
      * injection Hl as ->. split; [by eexists|by right].
      * split; [|by left]. intros [?| ->]; [done|]. congruence.
  - split; [done|]. intros v. rewrite Hiff. case_decide as Hl; [|done]. injection Hl as -> ->.
    split; [by eexists|]. intros _. destruct (entry p n' v'); [by eexists|]. destruct H. done.
Qed.

(** The part of the invariant one addFor maintains: [done] are the labels
    already added for [id]. *)
Record adding (series : gmap Z (list Label)) (id : Z) (done : list Label) (p : MemPostings) : Prop := {
  ad_ordered : mp_ordered p = true;
  ad_sorted : forall l, StronglySorted Z.lt (mp_get p l);
  ad_mem : forall l x, x ∈ mp_get p l <-> indexed series l x \/ (x = id /\ l ∈ done);
  ad_nonempty : forall n v, entry p n v <> Some [];
  ad_lvs : forall n, lvs_ok p n }.

Lemma adding_step series id done p l :
  series !! id = None -> l ∉ done -> adding series id done p -> adding series id (done ++ [l]) (addFor id l p).
Proof.
  intros Hid Hl [H1 H2 H3 H4 H5].
  assert (Hni : id ∉ mp_get p l).
  { intros [(ls & E & _)|[_ ?]]%H3; congruence. }
  destruct (repair_sorted (mp_get p l) id (H2 l) Hni) as [Hs Hperm]. split.
  - done.
  - intros l'. rewrite mp_get_addFor by done. case_decide; [done|apply H2].
  - intros l' x. rewrite mp_get_addFor by done. case_decide as E.
    + subst l'. rewrite Hperm, elem_of_cons, H3. set_solver.
    + rewrite H3. set_solver.
  - intros n v. rewrite entry_addFor, H1. case_decide; [|done]. intros [= E]. cbv zeta in E.
    rewrite length_app, Nat.add_sub in E. rewrite E in Hperm. by apply Permutation_nil_cons in Hperm.
  - intros n. by apply lvs_addFor.
Qed.

Lemma index_ok_Add p series id lset :
  index_ok p series -> series !! id = None -> NoDup lset -> allPostingsKey ∉ lset ->
  index_ok (Add id lset p) (<[id := lset]> series).
Proof.
  intros Hok Hid Hnd Hall. unfold Add.
  assert (Hfold : forall todo done q, adding series id done q -> NoDup (done ++ todo) ->
    adding series id (done ++ todo) (foldl (fun p l => addFor id l p) q todo)).
  { induction todo as [|l todo IH]; intros done q Hq Hnd'; cbn [foldl]; [by rewrite app_nil_r|].
    rewrite cons_middle, app_assoc in Hnd' |- *. apply IH; [|done]. apply adding_step; [done| |done].
    apply NoDup_app in Hnd' as (Hnd' & _). apply NoDup_app in Hnd' as (_ & Hd & _). set_solver. }
  assert (Hstart : adding series id [] p).
  { destruct Hok as [H1 H2 H3 H4 H5]. split; try done. intros l x. rewrite H3. set_solver. }
  pose proof (Hfold lset [] p Hstart Hnd) as Hq. cbn [app] in Hq.
  destruct (adding_step _ _ _ _ allPostingsKey Hid Hall Hq) as [H1 H2 H3 H4 H5]. split; try done.
  intros l x. rewrite H3. unfold indexed. destruct (decide (x = id)) as [->|Hne].
  - rewrite lookup_insert_eq. split.
    + intros [(ls & E & _)|[_ Hl]]; [congruence|]. exists lset. split; [done|]. set_solver.
    + intros (ls & [= <-] & Hl). right. set_solver.
  - rewrite lookup_insert_ne by done. naive_solver.
Qed.

(** ** Delete *)

Section DeleteSpec.
  Context (deleted : gset Z).

Definition keep (l : list Z) : list Z := filter (fun id => id ∉ deleted) l.

Lemma keep_idemp l : keep (keep l) = keep l.
Proof. apply filter_all, Forall_forall. intros x [? _]%list_elem_of_filter. done. Qed.

(** What one [process] does to every entry. *)
Lemma entry_process l p names n v :
  let '(p', names') := delete_process deleted l (p, names) in
  entry p' n v = (if decide (mk_Label n v = l)
                  then match keep (mp_get p l) with [] => None | r => Some r end else entry p n v) /\
  mp_lvs p' = mp_lvs p /\ mp_ordered p' = mp_ordered p /\
  (n ∉ names' -> n ∉ names /\ (n = l_Name l -> keep (mp_get p l) <> [])).
Proof.
  unfold delete_process, entry. fold (keep (mp_get p l)). destruct l as [n' v']. cbn [l_Name l_Value].
  destruct (keep (mp_get p (mk_Label n' v'))) as [|x r] eqn:E; cbn [mp_m mp_lvs mp_ordered].
  - split_and!; [|done|done|intros Hn; split; set_solver]. destruct (decide (n = n')) as [->|Hn].
    + rewrite lookup_alter_eq. destruct (mp_m p !! n') as [nm|] eqn:En; cbn.
      * case_decide as Hl; [injection Hl as ->; by rewrite lookup_delete_eq|].
        rewrite lookup_delete_ne by congruence. done.
      * rewrite lookup_empty. by case_decide.
    + rewrite lookup_alter_ne, decide_False by congruence. done.
  - split_and!; [|done|done|by intros Hn]. destruct (decide (n = n')) as [->|Hn].
    + rewrite lookup_alter_eq. destruct (mp_m p !! n') as [nm|] eqn:En; cbn.
      * case_decide as Hl; [injection Hl as ->; by rewrite lookup_insert_eq|].
        rewrite lookup_insert_ne by congruence. done.
      * unfold mp_get in E. cbn [l_Name] in E. rewrite En in E. cbn in E. rewrite lookup_empty in E. done.
    + rewrite lookup_alter_ne, decide_False by congruence. done.
Qed.

(** After processing the labels [ls]: their lists are filtered, the others are
    as before, and a name outside [names] has kept all its values. *)
Definition processed (p0 p : MemPostings) (ls : list Label) (names : gset string) : Prop :=
  mp_lvs p = mp_lvs p0 /\ mp_ordered p = mp_ordered p0 /\
  (forall n v, entry p n v <> Some []) /\
  (forall l, mp_get p l = if decide (l ∈ ls) then keep (mp_get p0 l) else mp_get p0 l) /\
  (forall n, n ∉ names -> forall v, is_Some (entry p n v) <-> is_Some (entry p0 n v)).

Lemma processed_step p0 p ls names l :
  processed p0 p ls names ->
  let '(p', names') := delete_process deleted l (p, names) in processed p0 p' (ls ++ [l]) names'.
Proof.
  intros (H1 & H2 & H3 & H4 & H5). pose proof (entry_process l p names) as He.
  destruct (delete_process deleted l (p, names)) as [p' names']. destruct (He "" "") as (_ & El & Eo & _).
  split_and!; [congruence|congruence| | |].
  - intros n v. destruct (He n v) as (-> & _). case_decide; [by destruct (keep _)|done].
  - intros [n v]. rewrite mp_get_entry. cbn [l_Name l_Value]. destruct (He n v) as (-> & _).
    destruct (decide (mk_Label n v = l)) as [->|Hne].
    + rewrite (decide_True (P := l ∈ ls ++ [l])) by set_solver. transitivity (keep (mp_get p l)); [by destruct (keep _)|].
      rewrite H4. case_decide; [apply keep_idemp|done].
    + change (default [] (entry p n v)) with (mp_get p (mk_Label n v)). rewrite H4.
      destruct (decide (mk_Label n v ∈ ls)); [by rewrite decide_True by set_solver|].
      by rewrite decide_False by set_solver.
  - intros n Hn v. destruct (He n v) as (-> & _ & _ & Hn'). destruct (Hn' Hn) as [Hn0 Hk].
    case_decide as Hl; [|by apply H5]. subst l. cbn [l_Name] in Hk. specialize (Hk eq_refl).
    rewrite <-(H5 n Hn0 v). destruct (keep (mp_get p (mk_Label n v))) eqn:E; [done|].
    rewrite mp_get_entry in E. cbn [l_Name l_Value] in E. destruct (entry p n v); [by split; eexists|done].
Qed.

(** Fixing the label values of a name changes no list. *)
Lemma entry_delete_name name p n v : entry (delete_name name p) n v = entry p n v.
Proof.
  unfold delete_name, entry. case_decide as E; [|done]. cbn [mp_m]. destruct (decide (n = name)) as [->|].
  - rewrite lookup_delete_eq. by rewrite E.
  - by rewrite lookup_delete_ne.
Qed.

Lemma lvs_delete_name name p n :
  (n = name -> lvs_ok (delete_name name p) n) /\ (lvs_ok p n -> lvs_ok (delete_name name p) n).
Proof.
  assert (Hname : lvs_ok (delete_name name p) name).
  { unfold lvs_ok. setoid_rewrite entry_delete_name. unfold delete_name, entry. case_decide as E; cbn [mp_lvs].
    - rewrite lookup_delete_eq, E. cbn. split; [constructor|]. intros v. rewrite lookup_empty. split; [set_solver|by intros [? ?]].
    - rewrite lookup_insert_eq. cbn. split; [apply NoDup_fst_map_to_list|]. intros v. rewrite list_elem_of_fmap. split.
      + intros ([k x] & -> & Hin%elem_of_map_to_list). by eexists.
      + intros [x Hx]. exists (v, x). split; [done|]. by apply elem_of_map_to_list. }
  split; [by intros ->|]. intros Hn. destruct (decide (n = name)) as [->|Hne]; [done|].
  unfold lvs_ok in *. setoid_rewrite entry_delete_name.
  assert (mp_lvs (delete_name name p) !! n = mp_lvs p !! n) as ->; [|done].
  unfold delete_name. case_decide; cbn [mp_lvs]; [by rewrite lookup_delete_ne|by rewrite lookup_insert_ne].
Qed.

Lemma delete_names_spec names p :
  let p' := foldr delete_name p names in
  mp_ordered p' = mp_ordered p /\ (forall n v, entry p' n v = entry p n v) /\
  (forall n, n ∈ names \/ lvs_ok p n -> lvs_ok p' n).
Proof.
  induction names as [|name names (IH1 & IH2 & IH3)]; cbn [foldr]; [split_and!; [done|done|set_solver]|].
  split_and!.
  - rewrite <-IH1. unfold delete_name. by case_decide.
  - intros n v. by rewrite entry_delete_name.
  - intros n Hn. destruct (decide (n = name)) as [->|Hne]; [by apply (proj1 (lvs_delete_name name _ name))|].
    apply (proj2 (lvs_delete_name name _ n)), IH3. set_solver.
Qed.

Lemma Delete_processed affected p :
  index_ok p ∅ \/ (forall n v, entry p n v <> Some []) ->
  exists q names, processed p q (affected ++ [allPostingsKey]) names /\
    Delete deleted affected p = foldr delete_name q (elements names).
Proof.
  intros Hne0. assert (Hne : forall n v, entry p n v <> Some []) by (destruct Hne0 as [[]|]; done).
  assert (Hfold : forall todo ls q names, processed p q ls names ->
    let '(q', names') := foldl (fun st l => delete_process deleted l st) (q, names) todo in
    processed p q' (ls ++ todo) names').
  { induction todo as [|l todo IH]; intros ls q names Hq; cbn [foldl]; [by rewrite app_nil_r|].
    pose proof (processed_step p q ls names l Hq) as Hstep.
    destruct (delete_process deleted l (q, names)) as [q1 names1]. specialize (IH _ _ _ Hstep).
    by rewrite <-app_assoc in IH. }
  assert (H0 : processed p p [] ∅).
  { by split_and!. }
  specialize (Hfold affected [] p ∅ H0). unfold Delete.
  destruct (foldl _ _ _) as [q names]. pose proof (processed_step p q _ names allPostingsKey Hfold) as Hlast.
  destruct (delete_process deleted allPostingsKey (q, names)) as [q1 names1]. by exists q1, names1.
Qed.

Lemma index_ok_Delete p series affected :
  index_ok p series ->
  (forall id ls, series !! id = Some ls -> id ∈ deleted -> forall l, l ∈ ls -> l ∈ affected) ->
  index_ok (Delete deleted affected p) (filter (fun e => e.1 ∉ deleted) series).
Proof.
  intros [O1 O2 O3 O4 O5] Haff. destruct (Delete_processed affected p) as (q & names & Hq & ->); [by right|].
  destruct Hq as (H1 & H2 & H3 & H4 & H5).
  destruct (delete_names_spec (elements names) q) as (D1 & D2 & D3). set (p' := foldr delete_name q (elements names)) in *.
  assert (Hget : forall l, mp_get p' l = mp_get q l) by (intros l; rewrite !mp_get_entry; by rewrite D2).
  split.
  - congruence.
  - intros l. rewrite Hget, H4. case_decide; [apply sorted_filter|]; apply O2.
  - intros l id. rewrite Hget, H4. unfold indexed. setoid_rewrite map_lookup_filter_Some. cbn [fst].
    case_decide as Hl.
    + unfold keep. rewrite list_elem_of_filter, O3. unfold indexed. naive_solver.
    + rewrite O3. unfold indexed. split; [|naive_solver]. intros (ls & E & Hin). exists ls. split_and!; try done.
      intros Hd. apply Hl. apply elem_of_app. destruct Hin as [Hin| ->]; [left; by eapply Haff|right; set_solver].
  - intros n v. rewrite D2. apply H3.
  - intros n. apply D3. destruct (decide (n ∈ names)); [left; by apply elem_of_elements|]. right.
    unfold lvs_ok. rewrite H1. destruct (O5 n) as [Hnd Hiff]. split; [done|]. intros v. by rewrite Hiff, H5.
Qed.

End DeleteSpec.

(** ** Main theorems *)

(** Add indexes a series.  Adding a new reference with distinct labels to
    an index in order keeps every postings list increasing and without empty
    lists, keeps the label values those in use, and makes the index that of the
    series extended by the new one (also under the all-postings key). *)
Theorem MemPostings_Add_refines p series id lset :
  index_ok p series -> series !! id = None -> NoDup lset -> allPostingsKey ∉ lset ->
  index_ok (Add id lset p) (<[id := lset]> series).
Proof. apply index_ok_Add. Qed.

Lemma index_ok_new : index_ok NewMemPostings ∅.
Proof.
  assert (forall n v, entry NewMemPostings n v = None) as He.
  { intros n v. unfold entry. cbn. by rewrite !lookup_empty. }
  split.
  - done.
  - intros l. rewrite mp_get_entry, He. constructor.
  - intros l id. rewrite mp_get_entry, He. unfold indexed. split; [set_solver|].
    intros (ls & E & _). by rewrite lookup_empty in E.
  - intros n v. by rewrite He.
  - intros n. unfold lvs_ok. cbn. rewrite lookup_empty. cbn. split; [constructor|].
    intros v. rewrite He. split; [set_solver|by intros [? ?]].
Qed.

Lemma MemPostings_Add_refines_witness :
  index_ok (Add 7 [mk_Label "job" "a"; mk_Label "env" "b"] NewMemPostings)
    (<[7 := [mk_Label "job" "a"; mk_Label "env" "b"]]> ∅).
Proof.
  apply (MemPostings_Add_refines NewMemPostings ∅); [apply index_ok_new|reflexivity| |].
  - apply (bool_decide_unpack _). reflexivity.
  - apply (bool_decide_unpack _). reflexivity.
Defined.

(** Delete removes series from the index.  When the affected labels include
    all labels of the deleted series, Delete leaves exactly the index of the
    remaining series, with the label values still in use and no empty lists,
    whatever order the affected labels are visited in. *)
Theorem MemPostings_Delete_refines p series deleted affected :
  index_ok p series ->
  (forall id ls, series !! id = Some ls -> id ∈ deleted -> forall l, l ∈ ls -> l ∈ affected) ->
  index_ok (Delete deleted affected p) (filter (fun e => e.1 ∉ deleted) series).
Proof. apply index_ok_Delete. Qed.

Lemma MemPostings_Delete_refines_witness :
  index_ok (Delete {[7]} [mk_Label "job" "a"] (Add 7 [mk_Label "job" "a"] NewMemPostings))
    (filter (fun e => e.1 ∉ ({[7]} : gset Z)) (<[7 := [mk_Label "job" "a"]]> ∅)).
Proof.
  apply (MemPostings_Delete_refines _ (<[7 := [mk_Label "job" "a"]]> ∅)).
  - apply index_ok_Add; [apply index_ok_new|reflexivity| |]; apply (bool_decide_unpack _); reflexivity.
  - intros id ls [[<- <-]|[_ E]]%lookup_insert_Some _ l Hl; [done|by rewrite lookup_empty in E].
Defined.

Section Query.
  Context {T : Type} `{!Loser T} `{!LoserSpec T}.

Lemma query_lists p series name values :
  index_ok p series -> map_Forall (fun id _ => 0 < id < 2 ^ 64) series ->
  exists out, Merge_expand (T := T) (omap (fun v => entry p name v) values) = Some out /\
    StronglySorted Z.lt out /\
    forall id, id ∈ out <-> exists v, v ∈ values /\ indexed series (mk_Label name v) id.
Proof.
  intros [O1 O2 O3 O4 O5] Hids.
  assert (Hget : forall v l, entry p name v = Some l -> mp_get p (mk_Label name v) = l).
  { intros v l E. rewrite mp_get_entry. cbn [l_Name l_Value]. by rewrite E. }
  destruct (Merge_expand_union (T := T) (omap (fun v => entry p name v) values)) as (out & E & Hs & Hmem).
  { apply Forall_forall. intros l (v & Hv & El)%list_elem_of_omap. rewrite <-(Hget v l El). split; [apply O2|].
    apply Forall_forall. intros id (ls & Hls & _)%O3. by apply (Hids id ls). }
  exists out. split_and!; [done|done|]. intros id. rewrite Hmem. split.
  - intros (l & (v & Hv & El)%list_elem_of_omap & Hid). exists v. split; [done|]. apply O3. by rewrite (Hget v l El).
  - intros (v & Hv & Hid%O3). destruct (entry p name v) as [l|] eqn:El.
    + exists l. split; [apply list_elem_of_omap; eauto|]. by rewrite (Hget v l El) in Hid.
    + rewrite mp_get_entry in Hid. cbn [l_Name l_Value] in Hid. rewrite El in Hid. set_solver.
Qed.


End Query.

(** A loser tree as the sorted list of all values and the current one. *)
#[local] Instance list_loser : Loser (list Z * Z) := {|
  loser_New ls := (merge_sort Z.le (concat ls), 0);
  loser_Next t := match t.1 with x :: l => (true, (l, x)) | [] => (false, t) end;
  loser_At t := t.2 |}.

#[local] Instance list_loser_spec : LoserSpec (list Z * Z).
Proof.
  refine {| loser_rep := fun t l => t.1 = l |}.
  - done.
  - intros [l' c] l E. cbn in E. subst l'. destruct l; by eexists.
Defined.

