(* ===== verification/Record.v ===== *)
(** tsdb/record/record.go: the payloads of write-ahead-log records.

    Decoders run over a [Decbuf] in a state monad whose [None] is the run-time
    panic of UvarintBytes; the third-party varint decoder is a parameter as in
    Encoding.  Floats are their bit patterns, strings their bytes, labels the
    sequence of name and value pairs. *)
From S2P Require Import Prelude BitList Varint Encoding Tombstones.

(** ** Record types *)

Definition T_Unknown : Z := 255.
Definition T_Series : Z := 1.
Definition T_Samples : Z := 2.
Definition T_Tombstones : Z := 3.
Definition T_Exemplars : Z := 4.
Definition T_MmapMarkers : Z := 5.
Definition T_Metadata : Z := 6.
Definition T_HistogramSamples : Z := 7.
Definition T_FloatHistogramSamples : Z := 8.
Definition T_CustomBucketsHistogramSamples : Z := 9.
Definition T_CustomBucketsFloatHistogramSamples : Z := 10.
Definition T_SamplesV2 : Z := 11.
Definition T_HistogramSamplesV2 : Z := 12.
Definition T_FloatHistogramSamplesV2 : Z := 13.

(** Decoder.Type. *)
Definition record_Type (rec : list Z) : Z :=
  match rec with
  | [] => T_Unknown
  | t :: _ => if (1 <=? t) && (t <=? 13) then t else T_Unknown
  end.

Record RefSeries := mk_RefSeries { rs_Ref : Z; rs_Labels : list (list Z * list Z) }.
Record RefSample := mk_RefSample { sm_Ref : Z; sm_ST : Z; sm_T : Z; sm_V : Z }.
Record RefMetadata := mk_RefMetadata { md_Ref : Z; md_Type : Z; md_Unit : list Z; md_Help : list Z }.
Record RefExemplar := mk_RefExemplar { ex_Ref : Z; ex_T : Z; ex_V : Z; ex_Labels : list (list Z * list Z) }.
Record RefMmapMarker := mk_RefMmapMarker { mm_Ref : Z; mm_MmapRef : Z }.
Record Stone := mk_Stone { st_Ref : Z; st_Intervals : list Interval }.

#[global] Instance RefSample_inhabited : Inhabited RefSample := populate (mk_RefSample 0 0 0 0).

(** "UNIT" and "HELP". *)
Definition unitMetaName : list Z := [85; 78; 73; 84].
Definition helpMetaName : list Z := [72; 69; 76; 80].

Definition noST : Z := 0.
Definition sameST : Z := 1.
Definition explicitST : Z := 2.

(** ** Encoder *)

Definition EncodeLabels (lbls : list (list Z * list Z)) (buf : list Z) : list Z :=
  foldl (fun buf l => PutUvarintStr l.2 (PutUvarintStr l.1 buf))
    (Encbuf_PutUvarint (Z.of_nat (length lbls)) buf) lbls.

Definition Encoder_Series (series : list RefSeries) (b : list Z) : list Z :=
  foldl (fun buf s => EncodeLabels (rs_Labels s) (PutBE64 (rs_Ref s) buf)) (PutByte T_Series b) series.

Definition put_metadata (buf : list Z) (m : RefMetadata) : list Z :=
  let buf := PutUvarint64 (md_Ref m) buf in
  let buf := PutByte (md_Type m) buf in
  let buf := Encbuf_PutUvarint 2 buf in
  let buf := PutUvarintStr unitMetaName buf in
  let buf := PutUvarintStr (md_Unit m) buf in
  let buf := PutUvarintStr helpMetaName buf in
  PutUvarintStr (md_Help m) buf.

Definition Encoder_Metadata (metadata : list RefMetadata) (b : list Z) : list Z :=
  foldl put_metadata (PutByte T_Metadata b) metadata.

Definition put_sample_v1 (first : RefSample) (buf : list Z) (s : RefSample) : list Z :=
  let buf := PutVarint64 (i64 (i64 (sm_Ref s) - i64 (sm_Ref first))) buf in
  let buf := PutVarint64 (i64 (sm_T s - sm_T first)) buf in
  PutBE64 (sm_V s) buf.

Definition Encoder_samplesV1 (samples : list RefSample) (b : list Z) : list Z :=
  let buf := PutByte T_Samples b in
  match samples with
  | [] => buf
  | first :: _ =>
      foldl (put_sample_v1 first) (PutBE64int64 (sm_T first) (PutBE64 (sm_Ref first) buf)) samples
  end.

Definition writeSTMarker (st firstST prevST : Z) (buf : list Z) : list Z :=
  if st =? 0 then PutByte noST buf
  else if st =? prevST then PutByte sameST buf
  else PutVarint64 (i64 (st - firstST)) (PutByte explicitST buf).

(** [for i := 1; i < len(samples); i++ { s, prev := samples[i], samples[i-1] ... }]. *)
Fixpoint put_samples_v2 (first prev : RefSample) (rest : list RefSample) (buf : list Z) : list Z :=
  match rest with
  | [] => buf
  | s :: rest' =>
      let buf := PutVarint64 (i64 (i64 (sm_Ref s) - i64 (sm_Ref prev))) buf in
      let buf := PutVarint64 (i64 (sm_T s - sm_T first)) buf in
      let buf := writeSTMarker (sm_ST s) (sm_ST first) (sm_ST prev) buf in
      put_samples_v2 first s rest' (PutBE64 (sm_V s) buf)
  end.

Definition Encoder_samplesV2 (samples : list RefSample) (b : list Z) : list Z :=
  let buf := PutByte T_SamplesV2 b in
  match samples with
  | [] => buf
  | first :: rest =>
      let buf := PutVarint64 (i64 (sm_Ref first)) buf in
      let buf := PutVarint64 (sm_T first) buf in
      let buf := PutVarint64 (sm_ST first) buf in
      put_samples_v2 first first rest (PutBE64 (sm_V first) buf)
  end.

Definition Encoder_Samples (EnableSTStorage : bool) (samples : list RefSample) (b : list Z) : list Z :=
  if EnableSTStorage then Encoder_samplesV2 samples b else Encoder_samplesV1 samples b.

Definition put_stone (ref : Z) (buf : list Z) (iv : Interval) : list Z :=
  PutVarint64 (Maxt iv) (PutVarint64 (Mint iv) (PutBE64 ref buf)).

Definition Encoder_Tombstones (tstones : list Stone) (b : list Z) : list Z :=
  foldl (fun buf s => foldl (put_stone (st_Ref s)) buf (st_Intervals s)) (PutByte T_Tombstones b) tstones.

Definition put_exemplar (first : RefExemplar) (buf : list Z) (ex : RefExemplar) : list Z :=
  let buf := PutVarint64 (i64 (i64 (ex_Ref ex) - i64 (ex_Ref first))) buf in
  let buf := PutVarint64 (i64 (ex_T ex - ex_T first)) buf in
  let buf := PutBE64 (ex_V ex) buf in
  EncodeLabels (ex_Labels ex) buf.

(** EncodeExemplarsIntoBuffer indexes [exemplars[0]]; Exemplars returns before. *)
Definition EncodeExemplarsIntoBuffer (first : RefExemplar) (exemplars : list RefExemplar) (buf : list Z) : list Z :=
  foldl (put_exemplar first) (PutBE64int64 (ex_T first) (PutBE64 (ex_Ref first) buf)) exemplars.

Definition Encoder_Exemplars (exemplars : list RefExemplar) (b : list Z) : list Z :=
  let buf := PutByte T_Exemplars b in
  match exemplars with
  | [] => buf
  | first :: _ => EncodeExemplarsIntoBuffer first exemplars buf
  end.

Definition Encoder_MmapMarkers (markers : list RefMmapMarker) (b : list Z) : list Z :=
  foldl (fun buf m => PutBE64 (mm_MmapRef m) (PutBE64 (mm_Ref m) buf)) (PutByte T_MmapMarkers b) markers.

(** ** The decoding monad *)

Definition D (A : Type) : Type := Decbuf -> option (A * Decbuf).

Definition d_ret {A} (a : A) : D A := fun d => Some (a, d).
Definition d_bind {A B} (m : D A) (k : A -> D B) : D B :=
  fun d => match m d with Some (a, d') => k a d' | None => None end.
Definition d_lift {A} (m : Decbuf -> A * Decbuf) : D A := fun d => Some (m d).

Notation "'let*' x := m 'in' k" := (d_bind m (fun x => k))
  (at level 200, x name, m at level 100, k at level 200) : go_scope.

(** [for range n { ... }]: a negative [n] means no turn. *)
Fixpoint d_repeat {A} (n : nat) (m : D A) : D (list A) :=
  match n with
  | O => d_ret []
  | S n' => let* a := m in let* l := d_repeat n' m in d_ret (a :: l)
  end.

(** [for len(dec.B) > 0 && dec.Err() == nil { ... }] with the slice built so far
    and the local variables of the function as state.  Without an error a turn
    takes a byte at least, so as many turns as bytes are enough. *)
Fixpoint records_loop {S A} (fuel : nat) (item : S -> list A -> D (list A * S)) (s : S) (acc : list A)
    (d : Decbuf) : option (list A * Decbuf) :=
  match dB d, dE d with
  | _ :: _, None =>
      match fuel with
      | O => Some (acc, d)
      | Datatypes.S fuel' =>
          match item s acc d with
          | None => None
          | Some ((acc, s), d) => records_loop fuel' item s acc d
          end
      end
  | _, _ => Some (acc, d)
  end.

(** The loop and the two checks after it. *)
Definition records {S A} (item : S -> list A -> D (list A * S)) (s : S) (acc : list A) (d : Decbuf)
  : option (result (list A)) :=
  match records_loop (length (dB d)) item s acc d with
  | None => None
  | Some (acc, d) =>
      match dE d with
      | Some e => Some (Err e)
      | None => if (0 <? length (dB d))%nat then Some (Err (ErrFormat (Z.of_nat (length (dB d))))) else Some (Ok acc)
      end
  end.

(** ** Decoder *)

Section Decoder.
  Variable uvarint : list Z -> Z * Z.

Definition d_label : D (list Z * list Z) :=
  let* lName := UvarintBytes uvarint in let* lValue := UvarintBytes uvarint in d_ret (lName, lValue).

Definition DecodeLabels : D (list (list Z * list Z)) :=
  let* nLabels := d_lift (Decbuf_Uvarint uvarint) in d_repeat (Z.to_nat nLabels) d_label.

Definition series_item (_ : unit) (acc : list RefSeries) : D (list RefSeries * unit) :=
  let* ref := d_lift Be64 in
  let* lset := DecodeLabels in
  d_ret (acc ++ [mk_RefSeries ref lset], tt).

Definition Decoder_Series (rec : list Z) (series : list RefSeries) : option (result (list RefSeries)) :=
  let '(t, d) := Decbuf_Byte (mk_Decbuf rec None) in
  if negb (t =? T_Series) then Some (Err (ErrFormat t)) else records series_item tt series d.

(** The switch on the name of a metadata field. *)
Definition metadata_field (uh : list Z * list Z) (f : list Z * list Z) : list Z * list Z :=
  if decide (f.1 = unitMetaName) then (f.2, uh.2)
  else if decide (f.1 = helpMetaName) then (uh.1, f.2) else uh.

Definition d_field : D (list Z * list Z) :=
  let* n := UvarintStr uvarint in let* v := UvarintStr uvarint in d_ret (n, v).

Definition metadata_item (_ : unit) (acc : list RefMetadata) : D (list RefMetadata * unit) :=
  let* ref := d_lift (Uvarint64 uvarint) in
  let* typ := d_lift Decbuf_Byte in
  let* numFields := d_lift (Decbuf_Uvarint uvarint) in
  let* fields := d_repeat (Z.to_nat numFields) d_field in
  let '(unit_, help) := foldl metadata_field ([], []) fields in
  d_ret (acc ++ [mk_RefMetadata ref typ unit_ help], tt).

Definition Decoder_Metadata (rec : list Z) (metadata : list RefMetadata) : option (result (list RefMetadata)) :=
  let '(t, d) := Decbuf_Byte (mk_Decbuf rec None) in
  if negb (t =? T_Metadata) then Some (Err (ErrFormat t)) else records metadata_item tt metadata d.

(** The slice is replaced by a new one when its capacity is below the least
    number of samples the bytes can hold. *)
Definition grow (cap : nat) (d : Decbuf) (samples : list RefSample) : list RefSample :=
  if (cap <? length (dB d) / 10)%nat then [] else samples.

Definition sample_v1_item (base : Z * Z) (acc : list RefSample) : D (list RefSample * (Z * Z)) :=
  let* dref := d_lift (Varint64 uvarint) in
  let* dtime := d_lift (Varint64 uvarint) in
  let* val := d_lift Be64 in
  d_ret (acc ++ [mk_RefSample (u64 (i64 base.1 + dref)) 0 (i64 (base.2 + dtime)) val], base).

Definition Decoder_samplesV1 (cap : nat) (samples : list RefSample) (d : Decbuf) : option (result (list RefSample)) :=
  if (length (dB d) =? 0)%nat then Some (Ok samples)
  else
    let '(baseRef, d) := Be64 d in
    let '(baseTime, d) := Be64int64 d in
    records sample_v1_item (baseRef, baseTime) (grow cap d samples) d.

Definition readSTMarker (prevST firstST : Z) : D Z :=
  let* stMarker := d_lift Decbuf_Byte in
  if stMarker =? noST then d_ret 0
  else if stMarker =? sameST then d_ret prevST
  else let* x := d_lift (Varint64 uvarint) in d_ret (i64 (firstST + x)).

(** The state is [(firstT, firstST)]; the first sample is the one that finds
    the slice empty. *)
Definition sample_v2_item (first : Z * Z) (acc : list RefSample) : D (list RefSample * (Z * Z)) :=
  match last acc with
  | None =>
      let* ref := d_lift (Varint64 uvarint) in
      let* t := d_lift (Varint64 uvarint) in
      let* st := d_lift (Varint64 uvarint) in
      let* val := d_lift Be64 in
      d_ret (acc ++ [mk_RefSample (u64 ref) st t val], (t, st))
  | Some prev =>
      let* dref := d_lift (Varint64 uvarint) in
      let* dt := d_lift (Varint64 uvarint) in
      let* st := readSTMarker (sm_ST prev) first.2 in
      let* val := d_lift Be64 in
      d_ret (acc ++ [mk_RefSample (u64 (i64 (sm_Ref prev) + dref)) st (i64 (first.1 + dt)) val], first)
  end.

Definition Decoder_samplesV2 (cap : nat) (samples : list RefSample) (d : Decbuf) : option (result (list RefSample)) :=
  if (length (dB d) =? 0)%nat then Some (Ok samples)
  else records sample_v2_item (0, 0) (grow cap d samples) d.

Definition Decoder_Samples (cap : nat) (rec : list Z) (samples : list RefSample) : option (result (list RefSample)) :=
  let '(typ, d) := Decbuf_Byte (mk_Decbuf rec None) in
  if typ =? T_Samples then Decoder_samplesV1 cap samples d
  else if typ =? T_SamplesV2 then Decoder_samplesV2 cap samples d
  else Some (Err (ErrFormat typ)).

Definition stone_item (_ : unit) (acc : list Stone) : D (list Stone * unit) :=
  let* ref := d_lift Be64 in
  let* mint := d_lift (Varint64 uvarint) in
  let* maxt := d_lift (Varint64 uvarint) in
  d_ret (acc ++ [mk_Stone ref [mk_Interval mint maxt]], tt).

Definition Decoder_Tombstones (rec : list Z) (tstones : list Stone) : option (result (list Stone)) :=
  let '(t, d) := Decbuf_Byte (mk_Decbuf rec None) in
  if negb (t =? T_Tombstones) then Some (Err (ErrFormat t)) else records stone_item tt tstones d.

Definition exemplar_item (base : Z * Z) (acc : list RefExemplar) : D (list RefExemplar * (Z * Z)) :=
  let* dref := d_lift (Varint64 uvarint) in
  let* dtime := d_lift (Varint64 uvarint) in
  let* val := d_lift Be64 in
  let* lset := DecodeLabels in
  d_ret (acc ++ [mk_RefExemplar (u64 (base.1 + u64 dref)) (i64 (base.2 + dtime)) val lset], base).

Definition ExemplarsFromBuffer (exemplars : list RefExemplar) (d : Decbuf) : option (result (list RefExemplar)) :=
  if (length (dB d) =? 0)%nat then Some (Ok exemplars)
  else
    let '(baseRef, d) := Be64 d in
    let '(baseTime, d) := Be64int64 d in
    records exemplar_item (baseRef, baseTime) exemplars d.

Definition Decoder_Exemplars (rec : list Z) (exemplars : list RefExemplar) : option (result (list RefExemplar)) :=
  let '(t, d) := Decbuf_Byte (mk_Decbuf rec None) in
  if negb (t =? T_Exemplars) then Some (Err (ErrFormat t)) else ExemplarsFromBuffer exemplars d.

Definition marker_item (_ : unit) (acc : list RefMmapMarker) : D (list RefMmapMarker * unit) :=
  let* ref := d_lift Be64 in
  let* mmapRef := d_lift Be64 in
  d_ret (acc ++ [mk_RefMmapMarker ref mmapRef], tt).

Definition Decoder_MmapMarkers (rec : list Z) (markers : list RefMmapMarker) : option (result (list RefMmapMarker)) :=
  let '(t, d) := Decbuf_Byte (mk_Decbuf rec None) in
  if negb (t =? T_MmapMarkers) then Some (Err (ErrFormat t))
  else if (length (dB d) =? 0)%nat then Some (Ok markers)
  else records marker_item tt markers d.

End Decoder.

(** ** Round-trip reasoning *)

(** [m] takes [bytes] off any buffer and returns [a]. *)
Definition dgets {A} (m : D A) (bytes : list Z) (a : A) : Prop :=
  forall rest, m (mk_Decbuf (bytes ++ rest) None) = Some (a, mk_Decbuf rest None).

Lemma dgets_ret {A} (a : A) : dgets (d_ret a) [] a.
Proof. done. Qed.

Lemma dgets_lift {A} (m : Decbuf -> A * Decbuf) bytes a : gets m bytes a -> dgets (d_lift m) bytes a.
Proof. intros H rest. unfold d_lift. by rewrite H. Qed.

Lemma dgets_bind {A B} (m : D A) (k : A -> D B) b1 b2 a b :
  dgets m b1 a -> dgets (k a) b2 b -> dgets (d_bind m k) (b1 ++ b2) b.
Proof. intros H1 H2 rest. unfold d_bind. by rewrite <-app_assoc, H1. Qed.

Lemma dgets_bind_ret {A B} (m : D A) (k : A -> B) b1 a :
  dgets m b1 a -> dgets (d_bind m (fun x => d_ret (k x))) b1 (k a).
Proof. intros H1 rest. unfold d_bind. by rewrite H1. Qed.

Lemma dgets_repeat {A B} (m : D A) (enc : B -> list Z) (f : B -> A) (l : list B) :
  Forall (fun x => dgets m (enc x) (f x)) l -> dgets (d_repeat (length l) m) (concat (map enc l)) (map f l).
Proof.
  induction 1 as [|x l Hx _ IH]; cbn [length d_repeat map concat]; [apply dgets_ret|].
  eapply dgets_bind; [exact Hx|]. eapply (dgets_bind_ret _ (fun l => f x :: l)). exact IH.
Qed.

(** A run of the loop over [bytes], turn by turn. *)
Inductive turns {S A} (item : S -> list A -> D (list A * S)) : S -> list A -> list Z -> list A -> Prop :=
  | turns_nil s acc : turns item s acc [] acc
  | turns_cons s acc b1 b2 acc1 s1 acc2 :
      b1 <> [] -> dgets (item s acc) b1 (acc1, s1) -> turns item s1 acc1 b2 acc2 ->
      turns item s acc (b1 ++ b2) acc2.

Lemma records_loop_turns {S A} (item : S -> list A -> D (list A * S)) s acc bytes acc' fuel :
  turns item s acc bytes acc' -> (length bytes <= fuel)%nat ->
  records_loop fuel item s acc (mk_Decbuf bytes None) = Some (acc', mk_Decbuf [] None).
Proof.
  intros H. revert fuel. induction H as [s acc|s acc b1 b2 acc1 s1 acc2 Hne Hi _ IH]; intros fuel Hf.
  { by destruct fuel. }
  rewrite length_app in Hf. destruct b1 as [|x b1]; [done|]. simpl in Hf. destruct fuel as [|fuel]; [lia|].
  cbn [records_loop dB dE app]. specialize (Hi b2). cbn [app] in Hi. rewrite Hi. apply IH. lia.
Qed.

Lemma records_turns {S A} (item : S -> list A -> D (list A * S)) s acc bytes acc' :
  turns item s acc bytes acc' -> records item s acc (mk_Decbuf bytes None) = Some (Ok acc').
Proof. intros H. unfold records. cbn [dB]. by rewrite (records_loop_turns _ _ _ _ _ _ H). Qed.

(** Encoders append the bytes of each item. *)
Lemma foldl_bytes {A} (put : list Z -> A -> list Z) (enc : A -> list Z) l :
  (forall buf x, x ∈ l -> put buf x = buf ++ enc x) -> forall buf, foldl put buf l = buf ++ concat (map enc l).
Proof.
  induction l as [|x l IH]; intros Hput buf; cbn [foldl map concat]; [by rewrite app_nil_r|].
  rewrite Hput by apply list_elem_of_here. rewrite IH, app_assoc; [done|]. intros. apply Hput. by right.
Qed.

(** Items that do not depend on what came before. *)
Lemma turns_items {S A B} (item : S -> list A -> D (list A * S)) (s : S) (enc : B -> list Z) (f : B -> A) (l : list B) :
  (forall x, x ∈ l -> enc x <> [] /\ forall acc, dgets (item s acc) (enc x) (acc ++ [f x], s)) ->
  forall acc, turns item s acc (concat (map enc l)) (acc ++ map f l).
Proof.
  induction l as [|x l IH]; intros Hl acc; cbn [map concat]; [rewrite app_nil_r; constructor|].
  destruct (Hl x (list_elem_of_here _ _)) as [Hne Hx]. eapply turns_cons; [done|apply Hx|].
  replace (acc ++ f x :: map f l) with ((acc ++ [f x]) ++ map f l) by (by rewrite <-app_assoc).
  apply IH. intros y Hy. apply Hl. by right.
Qed.

(** ** Round trips *)

Definition bytes_small (b : list Z) : Prop := Z.of_nat (length b) <= MaxInt64.

Definition labels_ok (ls : list (list Z * list Z)) : Prop :=
  Z.of_nat (length ls) <= MaxInt64 /\ Forall (fun l => bytes_small l.1 /\ bytes_small l.2) ls.

Section Roundtrip.
  Context (uvarint : list Z -> Z * Z) `{!UvarintSpec uvarint}.

Lemma dgets_str b : bytes_small b -> dgets (UvarintBytes uvarint) (PutUvarintStr b []) b.
Proof. intros Hb rest. by apply UvarintBytes_put. Qed.

Lemma dgets_count n : Z.of_nat n <= MaxInt64 ->
  dgets (d_lift (Decbuf_Uvarint uvarint)) (PutUvarint (Z.of_nat n)) (Z.of_nat n).
Proof.
  intros Hn. apply dgets_lift. intros rest. unfold Decbuf_Uvarint, MaxInt64 in *.
  rewrite gets_Uvarint64 by (done || unfold is_u64; lia).
  by rewrite i64_id by (unfold is_i64, MinInt64, MaxInt64; lia).
Qed.

Lemma dgets_u64 x : is_u64 x -> dgets (d_lift Be64) (be_bytes 8 x) x.
Proof. intros. by apply dgets_lift, gets_Be64. Qed.

Lemma dgets_i64 x : is_i64 x -> dgets (d_lift (Varint64 uvarint)) (PutVarint x) x.
Proof. intros. by apply dgets_lift, gets_Varint64. Qed.

Lemma dgets_byte x : dgets (d_lift Decbuf_Byte) [x] x.
Proof. apply dgets_lift, gets_Byte. Qed.

Definition label_bytes (l : list Z * list Z) : list Z := PutUvarintStr l.1 [] ++ PutUvarintStr l.2 [].

Definition labels_bytes (ls : list (list Z * list Z)) : list Z :=
  PutUvarint (Z.of_nat (length ls)) ++ concat (map label_bytes ls).

Lemma PutUvarintStr_app s buf : PutUvarintStr s buf = buf ++ PutUvarintStr s [].
Proof. unfold PutUvarintStr, PutBytes, Encbuf_PutUvarint, PutUvarint64. by rewrite <-!app_assoc. Qed.

Lemma EncodeLabels_bytes ls buf :
  Z.of_nat (length ls) <= MaxInt64 -> EncodeLabels ls buf = buf ++ labels_bytes ls.
Proof.
  intros Hl. unfold EncodeLabels, labels_bytes, Encbuf_PutUvarint, PutUvarint64. unfold MaxInt64 in Hl.
  rewrite u64_id by (unfold is_u64; lia). rewrite (foldl_bytes _ label_bytes), <-app_assoc; [done|].
  intros b l _. rewrite PutUvarintStr_app, (PutUvarintStr_app l.1 b), <-app_assoc. done.
Qed.

Lemma dgets_pairs ls : Forall (fun l => bytes_small l.1 /\ bytes_small l.2) ls ->
  dgets (d_repeat (length ls) (d_label uvarint)) (concat (map label_bytes ls)) ls.
Proof.
  intros Hls. rewrite <-(map_id ls) at 3. apply dgets_repeat. eapply Forall_impl; [exact Hls|].
  intros [n v] [Hn Hv]. unfold d_label, label_bytes. cbn [fst snd].
  eapply dgets_bind; [by apply dgets_str|]. eapply (dgets_bind_ret _ (fun y => (n, y))). by apply dgets_str.
Qed.

Lemma dgets_labels ls : labels_ok ls -> dgets (DecodeLabels uvarint) (labels_bytes ls) ls.
Proof.
  intros [Hl Hls]. unfold DecodeLabels, labels_bytes. eapply dgets_bind; [by apply dgets_count|].
  rewrite Nat2Z.id. by apply dgets_pairs.
Qed.

Definition series_bytes (s : RefSeries) : list Z := be_bytes 8 (rs_Ref s) ++ labels_bytes (rs_Labels s).
Definition series_ok (s : RefSeries) : Prop := is_u64 (rs_Ref s) /\ labels_ok (rs_Labels s).

Ltac dget l := eapply dgets_bind; [by apply l|].

Lemma series_turn s acc :
  series_ok s -> dgets (series_item uvarint tt acc) (series_bytes s) (acc ++ [s], tt).
Proof.
  intros [Hr Hl]. unfold series_item, series_bytes. dget dgets_u64.
  destruct s as [ref ls]. apply (dgets_bind_ret _ (fun ls => (acc ++ [mk_RefSeries ref ls], tt))).
  by apply dgets_labels.
Qed.

Definition str_bytes (s : list Z) : list Z := PutUvarintStr s [].

Definition metadata_bytes (m : RefMetadata) : list Z :=
  PutUvarint (md_Ref m) ++ [md_Type m] ++ PutUvarint 2 ++
  concat (map label_bytes [(unitMetaName, md_Unit m); (helpMetaName, md_Help m)]).

Definition metadata_ok (m : RefMetadata) : Prop :=
  is_u64 (md_Ref m) /\ bytes_small (md_Unit m) /\ bytes_small (md_Help m).

Lemma put_metadata_bytes buf m : put_metadata buf m = buf ++ metadata_bytes m.
Proof.
  unfold put_metadata, metadata_bytes. cbn [map concat label_bytes fst snd]. unfold label_bytes. cbn [fst snd].
  rewrite !(PutUvarintStr_app _ (PutUvarintStr _ _)), (PutUvarintStr_app _ (Encbuf_PutUvarint _ _)).
  unfold Encbuf_PutUvarint, PutUvarint64, PutByte. change (u64 2) with 2. by rewrite app_nil_r, <-!app_assoc.
Qed.

Lemma metadata_turn m acc :
  metadata_ok m -> dgets (metadata_item uvarint tt acc) (metadata_bytes m) (acc ++ [m], tt).
Proof.
  intros (Hr & Hu & Hh). unfold metadata_item, metadata_bytes.
  eapply dgets_bind; [by apply dgets_lift, gets_Uvarint64|]. dget dgets_byte. dget (dgets_count 2).
  change (d_field uvarint) with (d_label uvarint). rewrite Nat2Z.id, <-(app_nil_r (concat _)).
  eapply dgets_bind; [apply (dgets_pairs [_; _])|by destruct m].
  repeat constructor; unfold bytes_small, MaxInt64; simpl; (done || lia).
Qed.

Definition sample_v1_bytes (base : Z * Z) (s : RefSample) : list Z :=
  PutVarint (i64 (i64 (sm_Ref s) - i64 base.1)) ++ PutVarint (i64 (sm_T s - base.2)) ++ be_bytes 8 (sm_V s).

Definition sample_ok (s : RefSample) : Prop :=
  is_u64 (sm_Ref s) /\ is_i64 (sm_ST s) /\ is_i64 (sm_T s) /\ is_u64 (sm_V s).

Lemma put_sample_v1_bytes first buf s :
  put_sample_v1 first buf s = buf ++ sample_v1_bytes (sm_Ref first, sm_T first) s.
Proof. unfold put_sample_v1, sample_v1_bytes, PutBE64, PutVarint64. by rewrite <-!app_assoc. Qed.

(** The deltas are added back modulo the width. *)
Lemma ref_delta r b : is_u64 r -> u64 (i64 b + i64 (i64 r - i64 b)) = r.
Proof.
  intros Hr. rewrite <-(u64_id r Hr) at 2. rewrite <-(u64_i64 (i64 b + _)), i64_add_i64_r, u64_i64.
  rewrite <-(u64_i64 r). f_equal. lia.
Qed.

Lemma time_delta t b : is_i64 t -> i64 (b + i64 (t - b)) = t.
Proof. intros Ht. rewrite i64_add_i64_r. rewrite <-(i64_id t Ht) at 2. f_equal. lia. Qed.

Definition drop_ST (s : RefSample) : RefSample := mk_RefSample (sm_Ref s) 0 (sm_T s) (sm_V s).

Lemma sample_v1_turn base s acc :
  sample_ok s -> dgets (sample_v1_item uvarint base acc) (sample_v1_bytes base s) (acc ++ [drop_ST s], base).
Proof.
  intros (Hr & _ & Ht & Hv). unfold sample_v1_item, sample_v1_bytes.
  eapply dgets_bind; [apply dgets_i64, i64_range|]. eapply dgets_bind; [apply dgets_i64, i64_range|].
  rewrite ref_delta, time_delta by done.
  apply (dgets_bind_ret _ (fun v => (acc ++ [mk_RefSample (sm_Ref s) 0 (sm_T s) v], base))). by apply dgets_u64.
Qed.

Definition st_marker_bytes (st firstST prevST : Z) : list Z :=
  if st =? 0 then [noST] else if st =? prevST then [sameST] else [explicitST] ++ PutVarint (i64 (st - firstST)).

Lemma writeSTMarker_bytes st firstST prevST buf :
  writeSTMarker st firstST prevST buf = buf ++ st_marker_bytes st firstST prevST.
Proof.
  unfold writeSTMarker, st_marker_bytes, PutByte, PutVarint64. repeat case_match; try done. by rewrite <-app_assoc.
Qed.

Lemma dgets_marker st firstST prevST :
  is_i64 st -> dgets (readSTMarker uvarint prevST firstST) (st_marker_bytes st firstST prevST) st.
Proof.
  intros Hst. unfold readSTMarker, st_marker_bytes. destruct (Z.eqb_spec st 0) as [->|].
  { rewrite <-(app_nil_r [noST]). dget dgets_byte. apply dgets_ret. }
  destruct (Z.eqb_spec st prevST) as [->|].
  { rewrite <-(app_nil_r [sameST]). dget dgets_byte. apply dgets_ret. }
  dget dgets_byte. cbn [Z.eqb explicitST noST sameST Pos.eqb].
  rewrite <-(time_delta st firstST Hst) at 2. apply (dgets_bind_ret _ (fun x => i64 (firstST + x))).
  apply dgets_i64, i64_range.
Qed.

Lemma be_bytes_nonempty n x : be_bytes (S n) x <> [].
Proof. done. Qed.

Lemma PutUvarint_nonempty x : PutUvarint x <> [].
Proof. intros H. pose proof (PutUvarint_length_pos x) as Hp. rewrite H in Hp. simpl in Hp. lia. Qed.

Lemma PutVarint_nonempty x : PutVarint x <> [].
Proof. apply PutUvarint_nonempty. Qed.

Lemma app_nonempty {A} (l k : list A) : l <> [] -> l ++ k <> [].
Proof. by destruct l. Qed.

Definition sample_v2_bytes (first prev s : RefSample) : list Z :=
  PutVarint (i64 (i64 (sm_Ref s) - i64 (sm_Ref prev))) ++ PutVarint (i64 (sm_T s - sm_T first)) ++
  st_marker_bytes (sm_ST s) (sm_ST first) (sm_ST prev) ++ be_bytes 8 (sm_V s).

Fixpoint samples_v2_bytes (first prev : RefSample) (rest : list RefSample) : list Z :=
  match rest with
  | [] => []
  | s :: rest' => sample_v2_bytes first prev s ++ samples_v2_bytes first s rest'
  end.

Lemma put_samples_v2_bytes first prev rest buf :
  put_samples_v2 first prev rest buf = buf ++ samples_v2_bytes first prev rest.
Proof.
  revert prev buf. induction rest as [|s rest IH]; intros prev buf; simpl; [by rewrite app_nil_r|].
  rewrite IH, writeSTMarker_bytes. unfold sample_v2_bytes, PutBE64, PutVarint64. by rewrite <-!app_assoc.
Qed.

Lemma sample_v2_turn first prev s acc :
  sample_ok s ->
  dgets (sample_v2_item uvarint (sm_T first, sm_ST first) (acc ++ [prev])) (sample_v2_bytes first prev s)
    ((acc ++ [prev]) ++ [s], (sm_T first, sm_ST first)).
Proof.
  intros (Hr & Hst & Ht & Hv). unfold sample_v2_item, sample_v2_bytes. rewrite last_snoc.
  eapply dgets_bind; [apply dgets_i64, i64_range|]. eapply dgets_bind; [apply dgets_i64, i64_range|].
  dget dgets_marker. cbn [fst snd]. rewrite ref_delta, time_delta by done. destruct s as [r st t v].
  apply (dgets_bind_ret _ (fun v => ((acc ++ [prev]) ++ [mk_RefSample r st t v], _))). by apply dgets_u64.
Qed.

Lemma samples_v2_turns first rest : Forall sample_ok rest -> forall acc prev,
  turns (sample_v2_item uvarint) (sm_T first, sm_ST first) (acc ++ [prev]) (samples_v2_bytes first prev rest)
    ((acc ++ [prev]) ++ rest).
Proof.
  induction 1 as [|s rest Hs _ IH]; intros acc prev; cbn [samples_v2_bytes]; [rewrite app_nil_r; constructor|].
  eapply turns_cons; [apply app_nonempty, PutVarint_nonempty|by apply sample_v2_turn|].
  change (s :: rest) with ([s] ++ rest). rewrite app_assoc. apply IH.
Qed.

Definition first_v2_bytes (s : RefSample) : list Z :=
  PutVarint (i64 (sm_Ref s)) ++ PutVarint (sm_T s) ++ PutVarint (sm_ST s) ++ be_bytes 8 (sm_V s).

Lemma first_v2_turn s :
  sample_ok s ->
  dgets (sample_v2_item uvarint (0, 0) []) (first_v2_bytes s) ([s], (sm_T s, sm_ST s)).
Proof.
  intros (Hr & Hst & Ht & Hv). unfold sample_v2_item, first_v2_bytes. cbn [last].
  eapply dgets_bind; [apply dgets_i64, i64_range|]. dget dgets_i64. dget dgets_i64.
  rewrite u64_i64, u64_id by done. destruct s as [r st t v].
  apply (dgets_bind_ret _ (fun v => ([mk_RefSample r st t v], (t, st)))). by apply dgets_u64.
Qed.

Lemma samples_v2_whole first rest :
  Forall sample_ok (first :: rest) ->
  turns (sample_v2_item uvarint) (0, 0) [] (first_v2_bytes first ++ samples_v2_bytes first first rest) (first :: rest).
Proof.
  intros H. apply Forall_cons in H as [Hf Hr].
  eapply turns_cons; [apply app_nonempty, PutVarint_nonempty|by apply first_v2_turn|].
  apply (samples_v2_turns first rest Hr [] first).
Qed.

Definition exemplar_bytes (base : Z * Z) (ex : RefExemplar) : list Z :=
  PutVarint (i64 (i64 (ex_Ref ex) - i64 base.1)) ++ PutVarint (i64 (ex_T ex - base.2)) ++
  be_bytes 8 (ex_V ex) ++ labels_bytes (ex_Labels ex).

Definition exemplar_ok (ex : RefExemplar) : Prop :=
  is_u64 (ex_Ref ex) /\ is_i64 (ex_T ex) /\ is_u64 (ex_V ex) /\ labels_ok (ex_Labels ex).

Lemma uref_delta r b : is_u64 r -> u64 (b + u64 (i64 (i64 r - i64 b))) = r.
Proof. intros Hr. rewrite u64_add_r, <-(u64_add_l b), <-(u64_i64 b), u64_add_l. by apply ref_delta. Qed.

Lemma exemplar_turn base ex acc :
  exemplar_ok ex -> dgets (exemplar_item uvarint base acc) (exemplar_bytes base ex) (acc ++ [ex], base).
Proof.
  intros (Hr & Ht & Hv & Hl). unfold exemplar_item, exemplar_bytes.
  eapply dgets_bind; [apply dgets_i64, i64_range|]. eapply dgets_bind; [apply dgets_i64, i64_range|]. dget dgets_u64.
  rewrite uref_delta, time_delta by done. destruct ex as [r t v ls].
  apply (dgets_bind_ret _ (fun ls => (acc ++ [mk_RefExemplar r t v ls], base))). by apply dgets_labels.
Qed.

(** A stone is written interval by interval. *)
Definition stone_bytes (ri : Z * Interval) : list Z :=
  be_bytes 8 ri.1 ++ PutVarint (Mint ri.2) ++ PutVarint (Maxt ri.2).

Definition stone_pairs (tstones : list Stone) : list (Z * Interval) :=
  concat (map (fun s => map (pair (st_Ref s)) (st_Intervals s)) tstones).

Definition single_stone (ri : Z * Interval) : Stone := mk_Stone ri.1 [ri.2].

Definition stone_ok (s : Stone) : Prop :=
  is_u64 (st_Ref s) /\ Forall (fun iv => is_i64 (Mint iv) /\ is_i64 (Maxt iv)) (st_Intervals s).

Lemma stone_turn ri acc :
  is_u64 ri.1 -> is_i64 (Mint ri.2) /\ is_i64 (Maxt ri.2) ->
  dgets (stone_item uvarint tt acc) (stone_bytes ri) (acc ++ [single_stone ri], tt).
Proof.
  destruct ri as [r [a b]]. intros Hr [Ha Hb]. unfold stone_item, stone_bytes. dget dgets_u64. dget dgets_i64.
  apply (dgets_bind_ret _ (fun b => (acc ++ [mk_Stone r [mk_Interval a b]], tt))). by apply dgets_i64.
Qed.

Lemma Encoder_Tombstones_bytes tstones b :
  Encoder_Tombstones tstones b = (b ++ [T_Tombstones]) ++ concat (map stone_bytes (stone_pairs tstones)).
Proof.
  unfold Encoder_Tombstones, PutByte, stone_pairs. generalize (b ++ [T_Tombstones]). clear b.
  induction tstones as [|s ts IH]; intros b; cbn [foldl map concat]; [by rewrite app_nil_r|].
  rewrite IH, (foldl_bytes _ (fun iv => stone_bytes (st_Ref s, iv))).
  - rewrite map_app, concat_app, map_map, <-app_assoc. done.
  - intros b0 iv _. unfold put_stone, PutVarint64, PutBE64, stone_bytes. by rewrite <-!app_assoc.
Qed.

Lemma stone_pairs_ok tstones ri :
  Forall stone_ok tstones -> ri ∈ stone_pairs tstones -> is_u64 ri.1 /\ is_i64 (Mint ri.2) /\ is_i64 (Maxt ri.2).
Proof.
  intros Hok. unfold stone_pairs. rewrite list_elem_of_In, in_concat. intros (l & Hl & Hri).
  apply in_map_iff in Hl as (s & <- & Hs). apply in_map_iff in Hri as (iv & <- & Hiv).
  rewrite Forall_forall in Hok. apply list_elem_of_In in Hs, Hiv.
  destruct (Hok s Hs) as [Hr Hivs]. rewrite Forall_forall in Hivs. split; [done|by apply Hivs].
Qed.

Definition marker_bytes (m : RefMmapMarker) : list Z := be_bytes 8 (mm_Ref m) ++ be_bytes 8 (mm_MmapRef m).
Definition marker_ok (m : RefMmapMarker) : Prop := is_u64 (mm_Ref m) /\ is_u64 (mm_MmapRef m).

Lemma marker_turn m acc : marker_ok m -> dgets (marker_item tt acc) (marker_bytes m) (acc ++ [m], tt).
Proof.
  destruct m as [r x]. intros [Hr Hx]. unfold marker_item, marker_bytes. dget dgets_u64.
  apply (dgets_bind_ret _ (fun x => (acc ++ [mk_RefMmapMarker r x], tt))). by apply dgets_u64.
Qed.

(** The loop over items that do not depend on one another. *)
Lemma records_items {S A B} (item : S -> list A -> D (list A * S)) (s : S) (enc : B -> list Z) (f : B -> A) (l : list B) acc :
  (forall x, x ∈ l -> enc x <> [] /\ forall acc, dgets (item s acc) (enc x) (acc ++ [f x], s)) ->
  records item s acc (mk_Decbuf (concat (map enc l)) None) = Some (Ok (acc ++ map f l)).
Proof. intros H. by apply records_turns, turns_items. Qed.

(** The early return on an empty buffer is what the loop would do. *)
Lemma records_or_empty {S A} (item : S -> list A -> D (list A * S)) s acc bytes :
  (if (length bytes =? 0)%nat then Some (Ok acc) else records item s acc (mk_Decbuf bytes None)) =
  records item s acc (mk_Decbuf bytes None).
Proof. by destruct bytes. Qed.

Lemma if_same {A} (b : bool) (x : A) : (if b then x else x) = x.
Proof. by destruct b. Qed.

Lemma Series_roundtrip l b acc : Forall series_ok l ->
  exists rec, Encoder_Series l b = b ++ rec /\ Decoder_Series uvarint rec acc = Some (Ok (acc ++ l)).
Proof.
  rewrite Forall_forall. intros Hl. exists (T_Series :: concat (map series_bytes l)). split.
  - unfold Encoder_Series, PutByte. rewrite (foldl_bytes _ series_bytes), <-app_assoc; [done|].
    intros buf s [_ [Hs _]]%Hl. rewrite EncodeLabels_bytes by done. unfold PutBE64, series_bytes. by rewrite <-!app_assoc.
  - unfold Decoder_Series. cbn [Decbuf_Byte dE dB negb Z.eqb T_Series Pos.eqb].
    rewrite <-(map_id l) at 2. apply records_items. intros s Hs. split; [done|]. intros. by apply series_turn, Hl.
Qed.

Lemma Metadata_roundtrip l b acc : Forall metadata_ok l ->
  exists rec, Encoder_Metadata l b = b ++ rec /\ Decoder_Metadata uvarint rec acc = Some (Ok (acc ++ l)).
Proof.
  rewrite Forall_forall. intros Hl. exists (T_Metadata :: concat (map metadata_bytes l)). split.
  - unfold Encoder_Metadata, PutByte. rewrite (foldl_bytes _ metadata_bytes), <-app_assoc; [done|].
    intros buf m _. apply put_metadata_bytes.
  - unfold Decoder_Metadata. cbn [Decbuf_Byte dE dB negb Z.eqb T_Metadata Pos.eqb].
    rewrite <-(map_id l) at 2. apply records_items. intros m Hm. split; [|intros; by apply metadata_turn, Hl].
    apply app_nonempty, (PutUvarint_nonempty (md_Ref m)).
Qed.

Lemma Tombstones_roundtrip l b acc : Forall stone_ok l ->
  exists rec, Encoder_Tombstones l b = b ++ rec /\
    Decoder_Tombstones uvarint rec acc = Some (Ok (acc ++ map single_stone (stone_pairs l))).
Proof.
  intros Hl. exists (T_Tombstones :: concat (map stone_bytes (stone_pairs l))). split.
  - by rewrite Encoder_Tombstones_bytes, <-app_assoc.
  - unfold Decoder_Tombstones. cbn [Decbuf_Byte dE dB negb Z.eqb T_Tombstones Pos.eqb].
    apply records_items. intros ri Hri. destruct (stone_pairs_ok _ _ Hl Hri) as [Hr Hi].
    split; [done|]. intros. by apply stone_turn.
Qed.

Lemma MmapMarkers_roundtrip l b acc : Forall marker_ok l ->
  exists rec, Encoder_MmapMarkers l b = b ++ rec /\ Decoder_MmapMarkers rec acc = Some (Ok (acc ++ l)).
Proof.
  rewrite Forall_forall. intros Hl. exists (T_MmapMarkers :: concat (map marker_bytes l)). split.
  - unfold Encoder_MmapMarkers, PutByte. rewrite (foldl_bytes _ marker_bytes), <-app_assoc; [done|].
    intros buf m _. unfold PutBE64, marker_bytes. by rewrite <-app_assoc.
  - unfold Decoder_MmapMarkers. cbn [Decbuf_Byte dE dB negb Z.eqb T_MmapMarkers Pos.eqb].
    rewrite records_or_empty. rewrite <-(map_id l) at 2. apply records_items. intros x Hx. split; [done|].
    intros. by apply marker_turn, Hl.
Qed.

(** The base reference and time of V1 samples and of exemplars. *)
Lemma read_base {A} r t rest (empty : A) (k : Z -> Z -> Decbuf -> A) : is_u64 r -> is_i64 t ->
  let d := mk_Decbuf (be_bytes 8 r ++ be_bytes 8 (u64 t) ++ rest) None in
  (if (length (dB d) =? 0)%nat then empty
   else let '(baseRef, d) := Be64 d in let '(baseTime, d) := Be64int64 d in k baseRef baseTime d) =
  k r t (mk_Decbuf rest None).
Proof.
  intros Hr Ht d. subst d. cbn [dB]. rewrite length_app, length_be_bytes. cbn [Nat.eqb Nat.add].
  rewrite gets_Be64 by done. by rewrite gets_Be64int64.
Qed.

Lemma Exemplars_roundtrip l b acc : Forall exemplar_ok l ->
  exists rec, Encoder_Exemplars l b = b ++ rec /\ Decoder_Exemplars uvarint rec acc = Some (Ok (acc ++ l)).
Proof.
  rewrite Forall_forall. intros Hl. destruct l as [|ex l]; [by exists [T_Exemplars]; rewrite app_nil_r|].
  set (l' := ex :: l) in *. set (base := (ex_Ref ex, ex_T ex)).
  exists (T_Exemplars :: be_bytes 8 (ex_Ref ex) ++ be_bytes 8 (u64 (ex_T ex)) ++ concat (map (exemplar_bytes base) l')).
  split.
  - cbn [Encoder_Exemplars l']. unfold EncodeExemplarsIntoBuffer, PutBE64int64, PutBE64, PutByte.
    rewrite (foldl_bytes _ (exemplar_bytes base)), <-!app_assoc; [done|]. intros buf x (_ & _ & _ & Hx & _)%Hl.
    unfold put_exemplar. rewrite EncodeLabels_bytes by done. unfold PutBE64, PutVarint64, exemplar_bytes.
    by rewrite <-!app_assoc.
  - destruct (Hl ex (list_elem_of_here _ _)) as (Hr & Ht & _).
    unfold Decoder_Exemplars. cbn [Decbuf_Byte dE dB negb Z.eqb T_Exemplars Pos.eqb]. unfold ExemplarsFromBuffer.
    rewrite (read_base _ _ _ _ (fun r t => records (exemplar_item uvarint) (r, t) acc)) by done.
    rewrite <-(map_id l') at 2. apply records_items. intros x Hx.
    split; [apply app_nonempty, PutVarint_nonempty|]. intros. by apply exemplar_turn, Hl.
Qed.

(** A V1 record decodes to its samples, without start times, behind what
    [grow] leaves of the given slice. *)
Lemma samplesV1_decodes l b : Forall sample_ok l ->
  exists rec, Encoder_samplesV1 l b = b ++ rec /\ forall cap acc,
    Decoder_Samples uvarint cap rec acc =
      Some (Ok ((if (cap <? (length rec - 17) / 10)%nat then [] else acc) ++ map drop_ST l)).
Proof.
  rewrite Forall_forall. intros Hl. destruct l as [|s l]; [by exists [T_Samples]; split; [done|]; intros; rewrite app_nil_r|].
  set (l' := s :: l) in *. set (base := (sm_Ref s, sm_T s)).
  exists (T_Samples :: be_bytes 8 (sm_Ref s) ++ be_bytes 8 (u64 (sm_T s)) ++ concat (map (sample_v1_bytes base) l')).
  split.
  - cbn [Encoder_samplesV1 l']. unfold PutBE64int64, PutBE64, PutByte.
    rewrite (foldl_bytes _ (sample_v1_bytes base)), <-!app_assoc; [done|]. intros. apply put_sample_v1_bytes.
  - intros cap acc. destruct (Hl s (list_elem_of_here _ _)) as (Hr & _ & Ht & _).
    unfold Decoder_Samples. cbn [Decbuf_Byte dE dB negb Z.eqb T_Samples Pos.eqb]. unfold Decoder_samplesV1.
    rewrite (read_base _ _ _ _ (fun r t d => records (sample_v1_item uvarint) (r, t) (grow cap d acc) d)) by done.
    unfold grow. cbn [length dB]. rewrite !length_app, !length_be_bytes, Nat.add_assoc.
    change (S (8 + 8 + _)) with (17 + length (concat (map (sample_v1_bytes base) l')))%nat.
    rewrite Nat.add_comm, Nat.add_sub. apply records_items. intros x Hx.
    split; [apply app_nonempty, PutVarint_nonempty|]. intros. by apply sample_v1_turn, Hl.
Qed.

Lemma samplesV2_roundtrip l b cap : Forall sample_ok l ->
  exists rec, Encoder_samplesV2 l b = b ++ rec /\ Decoder_Samples uvarint cap rec [] = Some (Ok l).
Proof.
  intros Hl. destruct l as [|s l]; [by exists [T_SamplesV2]|].
  exists (T_SamplesV2 :: first_v2_bytes s ++ samples_v2_bytes s s l). split.
  - unfold Encoder_samplesV2, PutVarint64, PutBE64, PutByte. rewrite put_samples_v2_bytes.
    unfold first_v2_bytes. by rewrite <-!app_assoc.
  - unfold Decoder_Samples. cbn [Decbuf_Byte dE dB negb Z.eqb T_Samples T_SamplesV2 Pos.eqb]. unfold Decoder_samplesV2.
    unfold grow. rewrite if_same. cbn [dB]. rewrite records_or_empty. by apply records_turns, samples_v2_whole.
Qed.

(** The first item of a V2 record, read behind a sample of the given slice. *)
Lemma first_v2_turn_after p s acc : sample_ok s -> sm_ST s = 0 ->
  dgets (sample_v2_item uvarint (0, 0) (acc ++ [p])) (first_v2_bytes s)
    ((acc ++ [p]) ++ [mk_RefSample (u64 (sm_Ref p + sm_Ref s)) 0 (sm_T s) (sm_V s)], (0, 0)).
Proof.
  intros (Hr & Hst & Ht & Hv) HST. unfold sample_v2_item, first_v2_bytes. rewrite last_snoc, HST.
  eapply dgets_bind; [apply dgets_i64, i64_range|]. dget dgets_i64.
  change (PutVarint 0) with (st_marker_bytes 0 0 (sm_ST p)). dget dgets_marker.
  cbn [fst snd]. rewrite Z.add_0_l, (i64_id (sm_T s)) by done.
  replace (u64 (i64 (sm_Ref p) + i64 (sm_Ref s))) with (u64 (sm_Ref p + sm_Ref s))
    by (rewrite <-(u64_add_l (i64 _)), u64_i64, u64_add_l, <-(u64_add_r _ (i64 _)), u64_i64, u64_add_r; done).
  apply (dgets_bind_ret _ (fun v => ((acc ++ [p]) ++ [mk_RefSample _ 0 (sm_T s) v], (0, 0)))). by apply dgets_u64.
Qed.
End Roundtrip.

(** ** Properties *)

(** A series, metadata, tombstone, exemplar or mmap-marker record appended
    to a buffer decodes, behind whatever slice the caller passes, to exactly
    what was encoded: references and deltas survive the wrap-around of 64-bit
    arithmetic, labels keep their order, and tombstones come back as one stone
    per interval. *)
Theorem wal_records_roundtrip (uvarint : list Z -> Z * Z) (series : list RefSeries) (metadata : list RefMetadata)
    (tstones : list Stone) (exemplars : list RefExemplar) (markers : list RefMmapMarker) (b : list Z) :
  UvarintSpec uvarint -> Forall series_ok series -> Forall metadata_ok metadata -> Forall stone_ok tstones ->
  Forall exemplar_ok exemplars -> Forall marker_ok markers ->
  (forall acc, exists rec, Encoder_Series series b = b ++ rec /\
     Decoder_Series uvarint rec acc = Some (Ok (acc ++ series))) /\
  (forall acc, exists rec, Encoder_Metadata metadata b = b ++ rec /\
     Decoder_Metadata uvarint rec acc = Some (Ok (acc ++ metadata))) /\
  (forall acc, exists rec, Encoder_Tombstones tstones b = b ++ rec /\
     Decoder_Tombstones uvarint rec acc = Some (Ok (acc ++ map single_stone (stone_pairs tstones)))) /\
  (forall acc, exists rec, Encoder_Exemplars exemplars b = b ++ rec /\
     Decoder_Exemplars uvarint rec acc = Some (Ok (acc ++ exemplars))) /\
  (forall acc, exists rec, Encoder_MmapMarkers markers b = b ++ rec /\
     Decoder_MmapMarkers rec acc = Some (Ok (acc ++ markers))).
Proof.
  intros Hu Hs Hm Ht He Hk. split_and!; intros acc.
  - by apply Series_roundtrip.
  - by apply Metadata_roundtrip.
  - by apply Tombstones_roundtrip.
  - by apply Exemplars_roundtrip.
  - by apply MmapMarkers_roundtrip.
Qed.

Lemma wal_records_roundtrip_witness :
  let s := mk_RefSeries 7 [([97], [98; 99])] in
  exists rec, Encoder_Series [s] [5] = [5] ++ rec /\
    Decoder_Series std_Uvarint rec [s] = Some (Ok ([s] ++ [s])).
Proof.
  apply (wal_records_roundtrip std_Uvarint [_] [mk_RefMetadata 3 1 [115] []] [mk_Stone 2 [mk_Interval (-5) 9]]
    [mk_RefExemplar 4 100 0 []; mk_RefExemplar 1 (-3) 7 []] [mk_RefMmapMarker 1 2] [5]);
    try apply _; repeat constructor; vm_compute; (done || intros; discriminate).
Defined.

(** C33: a samples record decodes into an empty slice of any capacity to the
    samples that were encoded; the V1 format drops the start times and the V2
    format, written when start-time storage is enabled, keeps them, whatever
    marker (none, same as the previous sample, explicit) each one took. *)
Theorem wal_samples_roundtrip (uvarint : list Z -> Z * Z) (EnableSTStorage : bool) (samples : list RefSample)
    (b : list Z) (cap : nat) :
  UvarintSpec uvarint -> Forall sample_ok samples ->
  exists rec, Encoder_Samples EnableSTStorage samples b = b ++ rec /\
    Decoder_Samples uvarint cap rec [] = Some (Ok (if EnableSTStorage then samples else map drop_ST samples)).
Proof.
  intros Hu Hs. destruct EnableSTStorage; [by apply samplesV2_roundtrip|].
  destruct (samplesV1_decodes uvarint samples b Hs) as (rec & Hrec & Hdec). exists rec. split; [done|].
  by rewrite Hdec, if_same.
Qed.

Lemma wal_samples_roundtrip_witness :
  exists rec, Encoder_Samples true [mk_RefSample 9 5 100 1; mk_RefSample (2 ^ 64 - 1) 5 (-7) 2; mk_RefSample 3 0 8 4] [] = [] ++ rec /\
    Decoder_Samples std_Uvarint 0 rec [] =
      Some (Ok [mk_RefSample 9 5 100 1; mk_RefSample (2 ^ 64 - 1) 5 (-7) 2; mk_RefSample 3 0 8 4]).
Proof.
  apply (wal_samples_roundtrip std_Uvarint true); [apply _|]. repeat constructor; vm_compute; (done || intros; discriminate).
Defined.

(** Unlike the other record decoders, Samples does not simply append to the
    slice it is given.  A V1 record whose least sample count exceeds the
    slice's capacity discards the slice; a V2 record read behind a non-empty
    slice takes its first sample for a delta, so the series reference it yields
    is the sum of the encoded reference and that of the slice's last sample. *)
Theorem samples_decoder_given_slice (uvarint : list Z -> Z * Z) (l acc : list RefSample) (p s : RefSample) (cap cap' : nat) :
  UvarintSpec uvarint -> Forall sample_ok l -> sample_ok s -> sm_ST s = 0 ->
  (17 + 10 * (cap + 1) <= length (Encoder_samplesV1 l []))%nat ->
  (length (Encoder_samplesV2 [s] []) <= 10 * cap')%nat ->
  Decoder_Samples uvarint cap (Encoder_samplesV1 l []) acc = Some (Ok (map drop_ST l)) /\
  Decoder_Samples uvarint cap' (Encoder_samplesV2 [s] []) (acc ++ [p]) =
    Some (Ok (acc ++ [p] ++ [mk_RefSample (u64 (sm_Ref p + sm_Ref s)) 0 (sm_T s) (sm_V s)])).
Proof.
  intros Hu Hl Hs HST Hcap Hcap'. split.
  - destruct (samplesV1_decodes uvarint l [] Hl) as (rec & Hrec & Hdec). simpl in Hrec. rewrite Hrec in *.
    rewrite Hdec. destruct (Nat.ltb_spec cap ((length rec - 17) / 10)) as [_|Hge]; [done|].
    exfalso. assert (cap + 1 <= (length rec - 17) / 10)%nat; [|lia]. apply Nat.div_le_lower_bound; lia.
  - assert (Henc : Encoder_samplesV2 [s] [] = T_SamplesV2 :: first_v2_bytes s).
    { unfold Encoder_samplesV2, PutVarint64, PutBE64, PutByte, first_v2_bytes. cbn [put_samples_v2]. by rewrite <-!app_assoc. }
    rewrite Henc in *. unfold Decoder_Samples. cbn [Decbuf_Byte dE dB negb Z.eqb T_Samples T_SamplesV2 Pos.eqb].
    unfold Decoder_samplesV2, grow. cbn [dB length] in *.
    destruct (Nat.ltb_spec cap' (length (first_v2_bytes s) / 10)) as [Hlt|_].
    { exfalso. assert (length (first_v2_bytes s) / 10 <= cap')%nat; [|lia]. apply Nat.Div0.div_le_upper_bound. lia. }
    rewrite records_or_empty, app_assoc. apply records_turns. rewrite <-(app_nil_r (first_v2_bytes s)).
    eapply turns_cons; [apply app_nonempty, PutVarint_nonempty|by apply first_v2_turn_after|constructor].
Qed.

Lemma samples_decoder_given_slice_witness :
  let s := mk_RefSample 9 0 100 1 in
  Decoder_Samples std_Uvarint 0 (Encoder_samplesV1 [s] []) [s] = Some (Ok (map drop_ST [s])) /\
  Decoder_Samples std_Uvarint 3 (Encoder_samplesV2 [s] []) ([s] ++ [s]) =
    Some (Ok ([s] ++ [s] ++ [mk_RefSample (u64 (9 + 9)) 0 100 1])).
Proof.
  apply (samples_decoder_given_slice std_Uvarint [_] [_]); try apply _; try reflexivity;
    repeat constructor; vm_compute; (done || lia || intros; discriminate).
Defined.
