(* ===== verification/RecordHistogram.v ===== *)
(** tsdb/record/record.go, the histogram payloads: EncodeHistogram,
    DecodeHistogram and their float counterparts (types of model/histogram).

    The decoders fill a histogram they are given: a slice whose encoded length
    is zero keeps the elements it had, and the loop over it then reads as many
    elements as it has. *)
From S2P Require Import Prelude BitList Varint Encoding Record.
Open Scope go_scope.

(** Go's conversion to int32. *)
Definition i32 (z : Z) : Z := (z + 2 ^ 31) mod 2 ^ 32 - 2 ^ 31.
Definition is_i32 (z : Z) : Prop := - 2 ^ 31 <= z < 2 ^ 31.

Record Span := mk_Span { Offset : Z; Length : Z }.

(** Both histogram structs have these fields; the float version holds the bits
    of float64 values where the integer one holds uint64 counts and int64
    bucket deltas. *)
Record Histogram := mk_Histogram {
  CounterResetHint : Z;
  Schema : Z;
  ZeroThreshold : Z;
  ZeroCount : Z;
  Count : Z;
  Sum : Z;
  PositiveSpans : list Span;
  NegativeSpans : list Span;
  PositiveBuckets : list Z;
  NegativeBuckets : list Z;
  CustomValues : list Z }.

Definition FloatHistogram : Type := Histogram.

(** [&histogram.Histogram{}]. *)
Definition zero_Histogram : Histogram := mk_Histogram 0 0 0 0 0 0 [] [] [] [] [].

Definition CustomBucketsSchema : Z := -53.
Definition IsCustomBucketsSchema (s : Z) : bool := s =? CustomBucketsSchema.

(** ** Encoders *)

(** A length and the elements. *)
Definition put_slice {A} (put : list Z -> A -> list Z) (l : list A) (buf : list Z) : list Z :=
  foldl put (Encbuf_PutUvarint (Z.of_nat (length l)) buf) l.

Definition put_span (buf : list Z) (s : Span) : list Z := PutUvarint32 (Length s) (PutVarint64 (Offset s) buf).

Definition put_custom (h : Histogram) (buf : list Z) : list Z :=
  if IsCustomBucketsSchema (Schema h) then put_slice (fun buf v => PutBEFloat64 v buf) (CustomValues h) buf else buf.

Definition EncodeHistogram (buf : list Z) (h : Histogram) : list Z :=
  let buf := PutByte (CounterResetHint h) buf in
  let buf := PutVarint64 (Schema h) buf in
  let buf := PutBE64 (ZeroThreshold h) buf in
  let buf := PutUvarint64 (ZeroCount h) buf in
  let buf := PutUvarint64 (Count h) buf in
  let buf := PutBE64 (Sum h) buf in
  let buf := put_slice put_span (PositiveSpans h) buf in
  let buf := put_slice put_span (NegativeSpans h) buf in
  let buf := put_slice (fun buf b => PutVarint64 b buf) (PositiveBuckets h) buf in
  let buf := put_slice (fun buf b => PutVarint64 b buf) (NegativeBuckets h) buf in
  put_custom h buf.

Definition EncodeFloatHistogram (buf : list Z) (h : FloatHistogram) : list Z :=
  let buf := PutByte (CounterResetHint h) buf in
  let buf := PutVarint64 (Schema h) buf in
  let buf := PutBEFloat64 (ZeroThreshold h) buf in
  let buf := PutBEFloat64 (ZeroCount h) buf in
  let buf := PutBEFloat64 (Count h) buf in
  let buf := PutBEFloat64 (Sum h) buf in
  let buf := put_slice put_span (PositiveSpans h) buf in
  let buf := put_slice put_span (NegativeSpans h) buf in
  let buf := put_slice (fun buf b => PutBEFloat64 b buf) (PositiveBuckets h) buf in
  let buf := put_slice (fun buf b => PutBEFloat64 b buf) (NegativeBuckets h) buf in
  put_custom h buf.

(** ** Decoders *)

Section Decode.
  Variable uvarint : list Z -> Z * Z.

(** [l := buf.Uvarint(); if l > 0 { x = make([]T, l) }; for i := range x { x[i] = ... }]. *)
Definition get_slice {A} (existing : list A) (item : D A) : D (list A) :=
  let* l := d_lift (Decbuf_Uvarint uvarint) in
  d_repeat (if 0 <? l then Z.to_nat l else length existing) item.

Definition get_span : D Span :=
  let* o := d_lift (Varint64 uvarint) in
  let* n := d_lift (Uvarint32 uvarint) in
  d_ret (mk_Span (i32 o) n).

Definition get_custom (schema : Z) (existing : list Z) : D (list Z) :=
  if IsCustomBucketsSchema schema then get_slice existing (d_lift Be64Float64) else d_ret existing.

(** What follows the six scalar fields, with the buckets' element reader. *)
Definition get_buckets (h : Histogram) (hint schema zt zc c s : Z) (bucket : D Z) : D Histogram :=
  let* ps := get_slice (PositiveSpans h) get_span in
  let* ns := get_slice (NegativeSpans h) get_span in
  let* pb := get_slice (PositiveBuckets h) bucket in
  let* nb := get_slice (NegativeBuckets h) bucket in
  let* cv := get_custom schema (CustomValues h) in
  d_ret (mk_Histogram hint schema zt zc c s ps ns pb nb cv).

Definition DecodeHistogram (h : Histogram) : D Histogram :=
  let* hint := d_lift Decbuf_Byte in
  let* schema := d_lift (Varint64 uvarint) in
  let* zt := d_lift Be64 in
  let* zc := d_lift (Uvarint64 uvarint) in
  let* c := d_lift (Uvarint64 uvarint) in
  let* s := d_lift Be64 in
  get_buckets h hint (i32 schema) zt zc c s (d_lift (Varint64 uvarint)).

Definition DecodeFloatHistogram (fh : FloatHistogram) : D FloatHistogram :=
  let* hint := d_lift Decbuf_Byte in
  let* schema := d_lift (Varint64 uvarint) in
  let* zt := d_lift Be64Float64 in
  let* zc := d_lift Be64Float64 in
  let* c := d_lift Be64Float64 in
  let* s := d_lift Be64Float64 in
  get_buckets fh hint (i32 schema) zt zc c s (d_lift Be64Float64).

End Decode.

(** ** Round trips *)

Definition small {A} (l : list A) : Prop := Z.of_nat (length l) <= MaxInt64.

Definition span_ok (s : Span) : Prop := is_i32 (Offset s) /\ is_u32 (Length s).

(** What the Go types guarantee of a histogram whose counts satisfy [count] and
    whose buckets satisfy [bucket]. *)
Record histogram_ok (count bucket : Z -> Prop) (h : Histogram) : Prop := {
  hok_schema : is_i32 (Schema h);
  hok_zt : is_u64 (ZeroThreshold h);
  hok_zc : count (ZeroCount h);
  hok_count : count (Count h);
  hok_sum : is_u64 (Sum h);
  hok_ps : small (PositiveSpans h) /\ Forall span_ok (PositiveSpans h);
  hok_ns : small (NegativeSpans h) /\ Forall span_ok (NegativeSpans h);
  hok_pb : small (PositiveBuckets h) /\ Forall bucket (PositiveBuckets h);
  hok_nb : small (NegativeBuckets h) /\ Forall bucket (NegativeBuckets h);
  hok_cv : small (CustomValues h) /\ Forall is_u64 (CustomValues h) }.

(** Custom values travel with the custom-buckets schema only. *)
Definition keep_custom (h : Histogram) : Histogram :=
  mk_Histogram (CounterResetHint h) (Schema h) (ZeroThreshold h) (ZeroCount h) (Count h) (Sum h)
    (PositiveSpans h) (NegativeSpans h) (PositiveBuckets h) (NegativeBuckets h)
    (if IsCustomBucketsSchema (Schema h) then CustomValues h else []).

Lemma i32_id z : is_i32 z -> i32 z = z.
Proof. unfold is_i32, i32. intros. rewrite Z.mod_small; lia. Qed.

Lemma is_i32_i64 z : is_i32 z -> is_i64 z.
Proof. unfold is_i32, is_i64, MinInt64, MaxInt64. lia. Qed.

Section Roundtrip.
  Context (uvarint : list Z -> Z * Z) `{!UvarintSpec uvarint}.

Definition slice_bytes {A} (enc : A -> list Z) (l : list A) : list Z :=
  PutUvarint (Z.of_nat (length l)) ++ concat (map enc l).

Lemma put_slice_bytes {A} (put : list Z -> A -> list Z) (enc : A -> list Z) l buf :
  small l -> (forall buf x, put buf x = buf ++ enc x) -> put_slice put l buf = buf ++ slice_bytes enc l.
Proof.
  unfold small, MaxInt64. intros Hl Hput. unfold put_slice, slice_bytes, Encbuf_PutUvarint, PutUvarint64.
  rewrite u64_id by (unfold is_u64; lia). rewrite (foldl_bytes _ enc), <-app_assoc; [done|]. intros. apply Hput.
Qed.

Lemma dgets_slice {A} (item : D A) (enc : A -> list Z) (l : list A) :
  small l -> Forall (fun x => dgets item (enc x) x) l -> dgets (get_slice uvarint [] item) (slice_bytes enc l) l.
Proof.
  intros Hs Hl. unfold get_slice, slice_bytes. eapply dgets_bind; [by apply dgets_count|].
  replace (if 0 <? Z.of_nat (length l) then Z.to_nat (Z.of_nat (length l)) else length []) with (length l).
  - rewrite <-(map_id l) at 3. by apply dgets_repeat.
  - destruct l; [done|]. by rewrite Nat2Z.id.
Qed.

Definition span_bytes (s : Span) : list Z := PutVarint (Offset s) ++ PutUvarint (Length s).

Lemma put_span_bytes buf s : put_span buf s = buf ++ span_bytes s.
Proof. unfold put_span, PutUvarint32, PutUvarint64, PutVarint64, span_bytes. by rewrite app_assoc. Qed.

Lemma dgets_span s : span_ok s -> dgets (get_span uvarint) (span_bytes s) s.
Proof.
  intros [Ho Hn]. unfold get_span, span_bytes. eapply dgets_bind; [by apply dgets_i64, is_i32_i64|].
  rewrite i32_id by done. destruct s as [o n]. apply (dgets_bind_ret _ (fun n => mk_Span o n)).
  apply dgets_lift. intros rest. unfold Uvarint32. cbn [Length] in *.
  rewrite gets_Uvarint64 by (done || unfold is_u32, is_u64 in *; lia). by rewrite u32_id.
Qed.

Definition custom_bytes (h : Histogram) : list Z :=
  if IsCustomBucketsSchema (Schema h) then slice_bytes (be_bytes 8) (CustomValues h) else [].

Definition buckets_bytes (enc : Z -> list Z) (h : Histogram) : list Z :=
  slice_bytes span_bytes (PositiveSpans h) ++ slice_bytes span_bytes (NegativeSpans h) ++
  slice_bytes enc (PositiveBuckets h) ++ slice_bytes enc (NegativeBuckets h) ++ custom_bytes h.

Lemma dgets_buckets count bucket (enc : Z -> list Z) (item : D Z) h :
  (forall x, bucket x -> dgets item (enc x) x) -> histogram_ok count bucket h ->
  dgets (get_buckets uvarint zero_Histogram (CounterResetHint h) (Schema h) (ZeroThreshold h) (ZeroCount h) (Count h) (Sum h) item)
    (buckets_bytes enc h) (keep_custom h).
Proof.
  intros Hitem Hok. unfold get_buckets, buckets_bytes.
  assert (Hspans : forall l, small l /\ Forall span_ok l -> dgets (get_slice uvarint [] (get_span uvarint)) (slice_bytes span_bytes l) l).
  { intros l [Hs Hl]. apply dgets_slice; [done|]. eapply Forall_impl; [exact Hl|]. intros. by apply dgets_span. }
  assert (Hbs : forall l, small l /\ Forall bucket l -> dgets (get_slice uvarint [] item) (slice_bytes enc l) l).
  { intros l [Hs Hl]. apply dgets_slice; [done|]. eapply Forall_impl; [exact Hl|]. done. }
  eapply dgets_bind; [apply Hspans, Hok|]. eapply dgets_bind; [apply Hspans, Hok|].
  eapply dgets_bind; [apply Hbs, Hok|]. eapply dgets_bind; [apply Hbs, Hok|].
  apply (dgets_bind_ret _ (fun cv => mk_Histogram _ _ _ _ _ _ _ _ _ _ cv)).
  unfold get_custom, custom_bytes. destruct (IsCustomBucketsSchema _); [|apply dgets_ret].
  destruct Hok as [_ _ _ _ _ _ _ _ _ [Hs Hl]]. apply dgets_slice; [done|].
  eapply Forall_impl; [exact Hl|]. intros. by apply dgets_u64.
Qed.

Lemma put_buckets_bytes count bucket (enc : Z -> list Z) put h buf :
  (forall buf x, put buf x = buf ++ enc x) -> histogram_ok count bucket h ->
  put_custom h (put_slice put (NegativeBuckets h) (put_slice put (PositiveBuckets h)
    (put_slice put_span (NegativeSpans h) (put_slice put_span (PositiveSpans h) buf)))) = buf ++ buckets_bytes enc h.
Proof.
  intros Hput [_ _ _ _ _ [Hps _] [Hns _] [Hpb _] [Hnb _] [Hcv _]]. unfold put_custom, buckets_bytes, custom_bytes.
  rewrite !(put_slice_bytes put enc), !(put_slice_bytes put_span span_bytes) by (done || apply put_span_bytes).
  rewrite (put_slice_bytes _ (be_bytes 8)) by done.
  destruct (IsCustomBucketsSchema _); rewrite <-!app_assoc; [done|]. by rewrite !app_nil_r.
Qed.

Definition head_bytes (enc : Z -> list Z) (h : Histogram) : list Z :=
  [CounterResetHint h] ++ PutVarint (Schema h) ++ be_bytes 8 (ZeroThreshold h) ++
  enc (ZeroCount h) ++ enc (Count h) ++ be_bytes 8 (Sum h).

Lemma Histogram_roundtrip h buf :
  histogram_ok is_u64 is_i64 h ->
  exists bytes, EncodeHistogram buf h = buf ++ bytes /\
    dgets (DecodeHistogram uvarint zero_Histogram) bytes (keep_custom h).
Proof.
  intros Hok. exists (head_bytes PutUvarint h ++ buckets_bytes PutVarint h). split.
  - unfold EncodeHistogram. rewrite (put_buckets_bytes _ _ PutVarint _ _ _ (fun _ _ => eq_refl) Hok).
    unfold PutBE64, PutUvarint64, PutVarint64, PutByte, head_bytes. by rewrite <-!app_assoc.
  - unfold DecodeHistogram, head_bytes. rewrite <-!app_assoc. pose proof Hok as [Hsch Hzt Hzc Hc Hsum _ _ _ _ _].
    eapply dgets_bind; [apply dgets_byte|]. eapply dgets_bind; [by apply dgets_i64, is_i32_i64|].
    eapply dgets_bind; [by apply dgets_u64|]. eapply dgets_bind; [by apply dgets_lift, gets_Uvarint64|].
    eapply dgets_bind; [by apply dgets_lift, gets_Uvarint64|]. eapply dgets_bind; [by apply dgets_u64|].
    rewrite i32_id by done. eapply dgets_buckets; [|exact Hok]. intros. by apply dgets_i64.
Qed.

Lemma FloatHistogram_roundtrip h buf :
  histogram_ok is_u64 is_u64 h ->
  exists bytes, EncodeFloatHistogram buf h = buf ++ bytes /\
    dgets (DecodeFloatHistogram uvarint zero_Histogram) bytes (keep_custom h).
Proof.
  intros Hok. exists (head_bytes (be_bytes 8) h ++ buckets_bytes (be_bytes 8) h). split.
  - unfold EncodeFloatHistogram. rewrite (put_buckets_bytes _ _ (be_bytes 8) _ _ _ (fun _ _ => eq_refl) Hok).
    unfold PutBEFloat64, PutBE64, PutVarint64, PutByte, head_bytes. by rewrite <-!app_assoc.
  - unfold DecodeFloatHistogram, head_bytes. rewrite <-!app_assoc. pose proof Hok as [Hsch Hzt Hzc Hc Hsum _ _ _ _ _].
    eapply dgets_bind; [apply dgets_byte|]. eapply dgets_bind; [by apply dgets_i64, is_i32_i64|].
    do 4 (eapply dgets_bind; [by apply dgets_u64|]).
    rewrite i32_id by done. eapply dgets_buckets; [|exact Hok]. intros. by apply dgets_u64.
Qed.
End Roundtrip.

(** A histogram, integer or float, encoded at the end of any buffer and
    followed by any bytes is decoded into a fresh histogram as it was, whatever
    its schema, spans, buckets and 64-bit patterns, and the decoder stops
    exactly at the bytes that follow; custom values are kept with the
    custom-buckets schema only. *)
Theorem histogram_payload_roundtrip (uvarint : list Z -> Z * Z) (h : Histogram) (fh : FloatHistogram) (buf rest : list Z) :
  UvarintSpec uvarint -> histogram_ok is_u64 is_i64 h -> histogram_ok is_u64 is_u64 fh ->
  (exists bytes, EncodeHistogram buf h = buf ++ bytes /\
    DecodeHistogram uvarint zero_Histogram (mk_Decbuf (bytes ++ rest) None) =
      Some (keep_custom h, mk_Decbuf rest None)) /\
  (exists bytes, EncodeFloatHistogram buf fh = buf ++ bytes /\
    DecodeFloatHistogram uvarint zero_Histogram (mk_Decbuf (bytes ++ rest) None) =
      Some (keep_custom fh, mk_Decbuf rest None)).
Proof.
  intros Hu Hh Hfh. split.
  - destruct (Histogram_roundtrip uvarint h buf Hh) as (bytes & He & Hd). by exists bytes.
  - destruct (FloatHistogram_roundtrip uvarint fh buf Hfh) as (bytes & He & Hd). by exists bytes.
Qed.

Lemma histogram_payload_roundtrip_witness :
  let h := mk_Histogram 1 (-53) 0 2 9 (2 ^ 63) [mk_Span (-3) 2] [] [4; -1] [] [5; 6] in
  let fh := mk_Histogram 0 3 0 2 9 (2 ^ 63) [mk_Span (-3) 2] [] [4; 1] [] [] in
  (exists bytes, EncodeHistogram [1] h = [1] ++ bytes /\
    DecodeHistogram std_Uvarint zero_Histogram (mk_Decbuf (bytes ++ [7; 7]) None) =
      Some (keep_custom h, mk_Decbuf [7; 7] None)) /\
  (exists bytes, EncodeFloatHistogram [1] fh = [1] ++ bytes /\
    DecodeFloatHistogram std_Uvarint zero_Histogram (mk_Decbuf (bytes ++ [7; 7]) None) =
      Some (keep_custom fh, mk_Decbuf [7; 7] None)).
Proof.
  apply histogram_payload_roundtrip; [apply _| |]; repeat constructor; vm_compute; (done || intros; discriminate).
Defined.
