(* ===== verification/Compression.v ===== *)
(** util/compression/compression.go: the choice of a block codec.

    The codecs (golang/snappy, klauspost zstd) are third-party code and a
    parameter, [Codec]; [CodecLaws] states what their documentation promises:
    decoding what was encoded gives it back, and a non-empty message has a
    non-empty encoding.  The buffers that are passed for reuse do not change
    the result. *)
From S2P Require Import Prelude.

(** A Go string; the values other than the three constants and the empty
    string are unsupported. *)
Inductive CompressionType := NoCompression | Snappy | Zstd | UnknownCompression.

#[global] Instance CompressionType_eq_dec : EqDecision CompressionType.
Proof. solve_decision. Defined.

(** snappy.MaxEncodedLen is negative for messages that are too large. *)
Class Codec := {
  snappy_too_large : nat -> bool;
  snappy_Encode : list Z -> list Z;
  snappy_Decode : list Z -> result (list Z);
  zstd_EncodeAll : list Z -> list Z;
  zstd_DecodeAll : list Z -> result (list Z) }.

Class CodecLaws (C : Codec) : Prop := {
  snappy_roundtrip : forall l, snappy_Decode (snappy_Encode l) = Ok l;
  zstd_roundtrip : forall l, zstd_DecodeAll (zstd_EncodeAll l) = Ok l;
  snappy_nonempty : forall l, l <> [] -> snappy_Encode l <> [];
  zstd_nonempty : forall l, l <> [] -> zstd_EncodeAll l <> [] }.

Section Compression.
  Context `{Codec}.

Definition compression_Encode (t : CompressionType) (src : list Z) : result (list Z) :=
  match src with
  | [] => Ok src
  | _ =>
      match t with
      | NoCompression => Ok src
      | Snappy =>
          if snappy_too_large (length src) then Err (ErrFormat (Z.of_nat (length src))) else Ok (snappy_Encode src)
      | Zstd => Ok (zstd_EncodeAll src)
      | UnknownCompression => Err (ErrFormat 0)
      end
  end.

Definition compression_Decode (t : CompressionType) (src : list Z) : result (list Z) :=
  match src with
  | [] => Ok src
  | _ =>
      match t with
      | NoCompression => Ok src
      | Snappy => snappy_Decode src
      | Zstd => zstd_DecodeAll src
      | UnknownCompression => Err (ErrFormat 0)
      end
  end.

Lemma compression_roundtrip `{!CodecLaws _} t src enc :
  compression_Encode t src = Ok enc -> compression_Decode t enc = Ok src.
Proof.
  unfold compression_Encode, compression_Decode. destruct src as [|x src]; [by intros [= <-]|].
  destruct t; [by intros [= <-]| | |done].
  - destruct (snappy_too_large _); [done|]. intros [= <-].
    destruct (snappy_Encode (x :: src)) eqn:E; [by destruct (snappy_nonempty (x :: src))|].
    rewrite <-E. apply snappy_roundtrip.
  - intros [= <-]. destruct (zstd_EncodeAll (x :: src)) eqn:E; [by destruct (zstd_nonempty (x :: src))|].
    rewrite <-E. apply zstd_roundtrip.
Qed.

Lemma compression_Decode_none src : compression_Decode NoCompression src = Ok src.
Proof. by destruct src. Qed.

End Compression.

(** ** A codec that satisfies the laws

    Run-length coding of messages of one repeated byte, everything else
    literal: short enough to evaluate and it compresses something. *)

Definition rle_Encode (l : list Z) : list Z :=
  match l with
  | x :: _ :: _ => if decide (l = replicate (length l) x) then [1; x; Z.of_nat (length l)] else 0 :: l
  | _ => 0 :: l
  end.

Definition rle_Decode (l : list Z) : result (list Z) :=
  match l with
  | [1; x; n] => Ok (replicate (Z.to_nat n) x)
  | 0 :: l => Ok l
  | _ => Err ErrInvalidSize
  end.

Definition rle_Codec : Codec := {|
  snappy_too_large := fun _ => false;
  snappy_Encode := rle_Encode; snappy_Decode := rle_Decode;
  zstd_EncodeAll := rle_Encode; zstd_DecodeAll := rle_Decode |}.

Lemma rle_roundtrip l : rle_Decode (rle_Encode l) = Ok l.
Proof.
  destruct l as [|x [|y l]]; [done|done|]. unfold rle_Encode. case_decide as H; [|done].
  cbn [rle_Decode]. by rewrite Nat2Z.id, <-H.
Qed.

Lemma rle_nonempty l : rle_Encode l <> [].
Proof. destruct l as [|x [|y l]]; [done|done|]. unfold rle_Encode. by case_decide. Qed.

#[global] Instance rle_CodecLaws : CodecLaws rle_Codec.
Proof. split; intros; (apply rle_roundtrip || apply rle_nonempty). Qed.
