(* ===== verification/WlogReader.v ===== *)
(** tsdb/wlog: reading a write-ahead log.

    [IoReader] is Go's io.Reader, with io.ReadFull over it; [segmentBufReader]
    (wlog.go) presents the segment files as one stream in which every file is
    padded to whole pages; [Reader] (reader.go) reassembles records from their
    fragments.  A bufio.Reader returns what is left of its file, up to the
    length asked for. *)
From S2P Require Import Prelude BitList Encoding Compression.

Definition pageSize : Z := 32 * 1024.
Definition recordHeaderSize : Z := 7.

(** ** io.Reader *)

(** [io_Read n r] fills a buffer of [n] bytes; [io_measure] bounds the reads
    that can still succeed. *)
Class IoReader (R : Type) := {
  io_Read : nat -> R -> list Z * option goerror * R;
  io_measure : R -> nat }.

(** The loop of io.ReadAtLeast with [min = len(buf)]. *)
Fixpoint ReadFull_loop {R} `{IoReader R} (fuel : nat) (n : nat) (got : list Z) (r : R)
  : list Z * option goerror * R :=
  match n, fuel with
  | O, _ => (got, None, r)
  | _, O => (got, Some EOF, r)
  | _, S fuel' =>
      match io_Read n r with
      | (bs, None, r') => ReadFull_loop fuel' (n - length bs) (got ++ bs) r'
      | (bs, Some e, r') =>
          let got := got ++ bs in
          (got,
           if (n <=? length bs)%nat then None
           else if decide (e = EOF) then Some (match got with [] => EOF | _ => ErrUnexpectedEOF end)
           else Some e, r')
      end
  end.

Definition ReadFull {R} `{IoReader R} (n : nat) (r : R) : list Z * option goerror * R :=
  ReadFull_loop (S (io_measure r)) n [] r.

(** What a reader promises: [io_rest] is the stream still to come. *)
Class IoReaderLaws (R : Type) `{IoReader R} := {
  io_rest : R -> list Z;
  io_rest_measure : forall r, (length (io_rest r) <= io_measure r)%nat;
  io_Read_ok : forall n r bs r', (0 < n)%nat -> io_Read n r = (bs, None, r') ->
    io_rest r = bs ++ io_rest r' /\ (length bs <= n)%nat /\ (io_measure r' < io_measure r)%nat;
  io_Read_err : forall n r bs e r', (0 < n)%nat -> io_Read n r = (bs, Some e, r') ->
    bs = [] /\ e = EOF /\ io_rest r = [] /\ io_rest r' = [] }.

(** ** A reader over bytes in memory *)

#[global] Instance bytes_IoReader : IoReader (list Z) := {|
  io_Read n r := match r with [] => ([], Some EOF, r) | _ => (take n r, None, drop n r) end;
  io_measure := length |}.

#[global, program] Instance bytes_IoReaderLaws : IoReaderLaws (list Z) := {| io_rest r := r |}.
Next Obligation. done. Qed.
Next Obligation.
  intros n [|x r] bs r' Hn; cbn [io_Read bytes_IoReader]; [done|]. intros [= <- <-].
  cbn [io_measure bytes_IoReader]. rewrite take_drop, length_take, length_drop. cbn [length]. split_and!; [done|lia|lia].
Qed.
Next Obligation. intros n [|x r] bs e r' Hn; cbn [io_Read bytes_IoReader]; [|done]. by intros [= <- <- <-]. Qed.

(** ** segmentBufReader *)

Record segmentBufReader := mk_sbr {
  sbr_buf : list Z;          (* what is left of the current segment *)
  sbr_segs : list (list Z);
  sbr_cur : nat;
  sbr_off : Z }.

Definition NewSegmentBufReader (segs : list (list Z)) : segmentBufReader :=
  match segs with [] => mk_sbr [] [] 0 0 | s :: _ => mk_sbr s segs 0 0 end.

Definition segmentBufReader_Read (n : nat) (r : segmentBufReader) : list Z * option goerror * segmentBufReader :=
  match sbr_segs r with
  | [] => ([], Some EOF, r)
  | _ =>
      match sbr_buf r with
      | _ :: _ =>
          let bs := take n (sbr_buf r) in
          (bs, None, mk_sbr (drop n (sbr_buf r)) (sbr_segs r) (sbr_cur r) (sbr_off r + Z.of_nat (length bs)))
      | [] =>
          if negb (sbr_off r mod pageSize =? 0) then
            let i := Nat.min n (Z.to_nat (pageSize - sbr_off r mod pageSize)) in
            (replicate i 0, None, mk_sbr [] (sbr_segs r) (sbr_cur r) (sbr_off r + Z.of_nat i))
          else if (length (sbr_segs r) <=? sbr_cur r + 1)%nat then ([], Some EOF, r)
          else ([], None, mk_sbr (sbr_segs r !!! (sbr_cur r + 1)%nat) (sbr_segs r) (sbr_cur r + 1) 0)
      end
  end.

(** The zeros that complete a page at offset [off]. *)
Definition pad_zeros (off : Z) : list Z := replicate (Z.to_nat ((- off) mod pageSize)) 0.

Definition pad_segment (s : list Z) : list Z := s ++ pad_zeros (Z.of_nat (length s)).

Definition sbr_rest (r : segmentBufReader) : list Z :=
  match sbr_segs r with
  | [] => []
  | _ => sbr_buf r ++ pad_zeros (sbr_off r + Z.of_nat (length (sbr_buf r))) ++
         concat (map pad_segment (drop (S (sbr_cur r)) (sbr_segs r)))
  end.

#[global] Instance sbr_IoReader : IoReader segmentBufReader := {|
  io_Read := segmentBufReader_Read;
  io_measure r := (length (sbr_rest r) + (length (sbr_segs r) - sbr_cur r))%nat |}.

Lemma pad_zeros_aligned off : off mod pageSize = 0 -> pad_zeros off = [].
Proof. intros H. unfold pad_zeros. by rewrite Z.mod_opp_l_z by (done || unfold pageSize; lia). Qed.

Lemma pad_zeros_step off i :
  off mod pageSize <> 0 -> (i <= Z.to_nat (pageSize - off mod pageSize))%nat ->
  pad_zeros off = replicate i 0 ++ pad_zeros (off + Z.of_nat i).
Proof.
  intros Hne Hi. unfold pad_zeros. rewrite <-replicate_add. f_equal.
  assert (Hp : 0 < pageSize) by (unfold pageSize; lia). pose proof (Z.mod_pos_bound off pageSize Hp) as Hb.
  rewrite Z.mod_opp_l_nz by lia.
  replace (- (off + Z.of_nat i)) with ((pageSize - off mod pageSize - Z.of_nat i) + (- (off / pageSize) - 1) * pageSize)
    by (pose proof (Z.div_mod off pageSize ltac:(lia)); lia).
  rewrite Z.mod_add, (Z.mod_small (pageSize - _ - _)) by lia. lia.
Qed.

#[global, program] Instance sbr_IoReaderLaws : IoReaderLaws segmentBufReader := {| io_rest := sbr_rest |}.
Next Obligation. intros r. cbn [io_measure sbr_IoReader]. lia. Qed.
Next Obligation.
  intros n [buf segs cur off] bs r' Hn. cbn [io_Read sbr_IoReader]. unfold segmentBufReader_Read, io_measure, sbr_IoReader, sbr_rest.
  cbn [sbr_buf sbr_segs sbr_cur sbr_off]. destruct segs as [|s segs]; [done|]. set (ss := s :: segs).
  destruct buf as [|x buf]; cbn [length app].
  - rewrite !Z.add_0_r. destruct (Z.eqb_spec (off mod pageSize) 0) as [Ha|Ha]; cbn [negb].
    + destruct (Nat.leb_spec (length ss) (cur + 1)) as [|Hlt]; [done|]. intros [= <- <-].
      cbn [sbr_buf sbr_segs sbr_cur sbr_off ss]. fold ss. rewrite (pad_zeros_aligned off Ha).
      destruct (lookup_lt_is_Some_2 ss (cur + 1) Hlt) as [t Ht]. rewrite (list_lookup_total_correct _ _ _ Ht).
      replace (S cur) with (cur + 1)%nat by lia. rewrite (drop_S _ _ _ Ht). cbn [map concat app length].
      replace (S (cur + 1)) with (S (S cur)) by lia. replace (cur + 1)%nat with (S cur) by lia.
      assert (Hps : pad_segment t = t ++ pad_zeros (Z.of_nat (length t))) by done.
      rewrite Hps, Z.add_0_l, <-!app_assoc. split_and!; [done|lia|lia].
    + intros [= <- <-]. cbn [sbr_buf sbr_segs sbr_cur sbr_off app length ss]. fold ss. rewrite Z.add_0_r.
      set (i := Nat.min _ _). assert (Hi : (1 <= i <= n)%nat).
      { pose proof (Z.mod_pos_bound off pageSize ltac:(unfold pageSize; lia)). lia. }
      rewrite (pad_zeros_step off i) by lia. rewrite <-app_assoc, !length_app, !length_replicate. split_and!; [done|lia|lia].
  - intros [= <- <-]. cbn [sbr_buf sbr_segs sbr_cur sbr_off ss]. fold ss.
    change (x :: buf ++ ?l) with ((x :: buf) ++ l). set (b := x :: buf).
    replace (off + Z.of_nat (S (length buf))) with (off + Z.of_nat (length b)) by done.
    replace (off + Z.of_nat (length (take n b)) + Z.of_nat (length (drop n b))) with (off + Z.of_nat (length b))
      by (rewrite <-(take_drop n b) at 1; rewrite length_app; lia).
    rewrite (app_assoc (take n b)), take_drop, !length_app, length_drop, length_take. split_and!; [done|lia|].
    subst b. cbn [length]. lia.
Qed.
Next Obligation.
  intros n [buf segs cur off] bs e r' Hn. cbn [io_Read sbr_IoReader]. unfold segmentBufReader_Read, sbr_rest.
  cbn [sbr_buf sbr_segs sbr_cur sbr_off]. destruct segs as [|s segs]; [by intros [= <- <- <-]|].
  destruct buf as [|x buf]; [|done]. destruct (Z.eqb_spec (off mod pageSize) 0) as [Ha|Ha]; cbn [negb]; [|done].
  destruct (Nat.leb_spec (length (s :: segs)) (cur + 1)) as [Hle|]; [|done]. intros [= <- <- <-].
  cbn [sbr_buf sbr_segs sbr_cur sbr_off length app]. rewrite Z.add_0_r, (pad_zeros_aligned off Ha), drop_ge by lia. done.
Qed.

Lemma NewSegmentBufReader_rest segs : sbr_rest (NewSegmentBufReader segs) = concat (map pad_segment segs).
Proof. destruct segs as [|s segs]; [done|]. unfold pad_segment at 1. cbn. by rewrite <-app_assoc. Qed.

(** io.ReadFull returns the next [n] bytes of the stream, or EOF on an empty
    stream, or ErrUnexpectedEOF on a shorter one. *)
Section ReadFull.
  Context {R : Type} `{IoReaderLaws R}.

Lemma ReadFull_loop_spec fuel n got (r : R) :
  (io_measure r < fuel)%nat ->
  exists r', io_rest r' = drop n (io_rest r) /\
    ReadFull_loop fuel n got r =
      (got ++ take n (io_rest r),
       if (n <=? length (io_rest r))%nat then None
       else Some (match got ++ io_rest r with [] => EOF | _ => ErrUnexpectedEOF end), r').
Proof.
  revert n got r. induction fuel as [|fuel IH]; intros n got r Hf; [lia|].
  destruct n as [|n]; cbn [ReadFull_loop]. { exists r. by rewrite take_0, drop_0, app_nil_r. }
  destruct (io_Read (S n) r) as [[bs [e|]] r'] eqn:E.
  - apply io_Read_err in E as (-> & -> & Hr & Hr'); [|lia]. exists r'. rewrite Hr, Hr'. cbn. by rewrite app_nil_r.
  - apply io_Read_ok in E as (Hr & Hlen & Hm); [|lia]. destruct (IH (S n - length bs)%nat (got ++ bs) r') as (r'' & Hd & ->); [lia|].
    exists r''. rewrite Hr, Hd. rewrite drop_app_ge, take_app_ge by lia. rewrite <-!app_assoc, length_app. split; [done|].
    f_equal. f_equal. replace (S n - length bs <=? length (io_rest r'))%nat with (S n <=? length bs + length (io_rest r'))%nat; [done|].
    apply eq_true_iff_eq. rewrite !Nat.leb_le. lia.
Qed.

Lemma ReadFull_ok n (r : R) bs rest :
  io_rest r = bs ++ rest -> length bs = n -> exists r', ReadFull n r = (bs, None, r') /\ io_rest r' = rest.
Proof.
  intros Hr <-. destruct (ReadFull_loop_spec (S (io_measure r)) (length bs) [] r) as (r' & Hd & Heq); [lia|].
  exists r'. unfold ReadFull. rewrite Heq, Hd, Hr, take_app_length, drop_app_length.
  replace (length bs <=? length (bs ++ rest))%nat with true; [done|]. symmetry. apply Nat.leb_le. rewrite length_app. lia.
Qed.

Lemma ReadFull_eof n (r : R) :
  (0 < n)%nat -> io_rest r = [] -> exists r', ReadFull n r = ([], Some EOF, r') /\ io_rest r' = [].
Proof.
  intros Hn Hr. destruct (ReadFull_loop_spec (S (io_measure r)) n [] r) as (r' & Hd & Heq); [lia|].
  exists r'. unfold ReadFull. rewrite Heq, Hd, Hr, take_nil, drop_nil. by destruct n; [lia|].
Qed.

Lemma ReadFull_short n (r : R) bs :
  io_rest r = bs -> (0 < length bs < n)%nat -> exists r', ReadFull n r = (bs, Some ErrUnexpectedEOF, r').
Proof.
  intros Hr Hn. destruct (ReadFull_loop_spec (S (io_measure r)) n [] r) as (r' & _ & Heq); [lia|].
  exists r'. unfold ReadFull. rewrite Heq, Hr, take_ge by lia. rewrite (proj2 (Nat.leb_gt _ _)) by lia.
  by destruct bs; [simpl in Hn; lia|].
Qed.
End ReadFull.

(** ** Reader *)

Definition snappyMask : Z := Z.shiftl 1 3.
Definition zstdMask : Z := Z.shiftl 1 4.
Definition recTypeMask : Z := snappyMask - 1.
Definition recPageTerm : Z := 0.
Definition recFull : Z := 1.
Definition recFirst : Z := 2.
Definition recMiddle : Z := 3.
Definition recLast : Z := 4.

Definition recTypeFromHeader (header : Z) : Z := Z.land header recTypeMask.

(** The compression flag of a header, as both readers test it. *)
Definition header_compression (h : Z) : CompressionType :=
  if Z.land h snappyMask =? snappyMask then Snappy
  else if Z.land h zstdMask =? zstdMask then Zstd else NoCompression.

Definition validateRecord (typ : Z) (i : Z) : option goerror :=
  if typ =? recFull then (if negb (i =? 0) then Some (ErrFormat typ) else None)
  else if typ =? recFirst then (if negb (i =? 0) then Some (ErrFormat typ) else None)
  else if typ =? recMiddle then (if i =? 0 then Some (ErrFormat typ) else None)
  else if typ =? recLast then (if i =? 0 then Some (ErrFormat typ) else None)
  else Some (ErrFormat typ).

(** r.buf is scratch space: every byte of it that is used was read in the same
    turn of the loop, and header and payload do not overlap in what is used. *)
Record Reader (R : Type) := mk_Reader {
  r_rdr : R;
  r_err : option goerror;
  r_rec : list Z;
  r_precomprBuf : list Z;
  r_total : Z;
  r_curRecTyp : Z }.
Arguments mk_Reader {R}.
Arguments r_rdr {R}.
Arguments r_err {R}.
Arguments r_rec {R}.
Arguments r_precomprBuf {R}.
Arguments r_total {R}.
Arguments r_curRecTyp {R}.

Section Reader.
  Context {R : Type} `{IoReader R} `{Codec}.

Definition NewReader (r : R) : Reader R := mk_Reader r None [] [] 0 0.

(** [r.total += len]; the reader behind a read. *)
Definition advance (r : Reader R) (rd : R) (n : nat) : Reader R :=
  mk_Reader rd (r_err r) (r_rec r) (r_precomprBuf r) (r_total r + Z.of_nat n) (r_curRecTyp r).

(** The rest of a page behind a zero byte; [None] means the loop goes on. *)
Definition read_padding (r : Reader R) : option goerror * Reader R :=
  let k := pageSize - r_total r mod pageSize in
  if k =? pageSize then (None, r)
  else
    match ReadFull (Z.to_nat k) (r_rdr r) with
    | (_, Some e, rd) => (Some e, advance r rd 0)
    | (bs, None, rd) =>
        (if forallb (Z.eqb 0) bs then None else Some (ErrFormat k), advance r rd (length bs))
    end.

(** The remaining header and the payload of a fragment. *)
Definition read_fragment (r : Reader R) (i : Z) : result (list Z) * Reader R :=
  match ReadFull (Z.to_nat (recordHeaderSize - 1)) (r_rdr r) with
  | (_, Some e, rd) => (Err e, advance r rd 0)
  | (hdr, None, rd) =>
      let r := advance r rd (length hdr) in
      let len := be_uint (take 2 hdr) in
      let crc := be_uint (take 4 (drop 2 hdr)) in
      if pageSize - recordHeaderSize <? len then (Err (ErrFormat len), r)
      else
        match ReadFull (Z.to_nat len) (r_rdr r) with
        | (_, Some e, rd) => (Err e, advance r rd 0)
        | (part, None, rd) =>
            let r := advance r rd (length part) in
            if negb (Z.of_nat (length part) =? len) then (Err ErrInvalidSize, r)
            else if negb (crc32_Checksum part =? crc) then (Err ErrInvalidChecksum, r)
            else
              match validateRecord (r_curRecTyp r) i with
              | Some e => (Err e, r)
              | None => (Ok part, r)
              end
        end
  end.

Fixpoint nextNew_loop (fuel : nat) (i : Z) (r : Reader R) : option goerror * Reader R :=
  match fuel with
  | O => (Some EOF, r)
  | S fuel' =>
      match ReadFull 1 (r_rdr r) with
      | (_, Some e, rd) => (Some e, advance r rd 0)
      | (bs, None, rd) =>
          let h := default 0 (head bs) in
          let r := mk_Reader rd (r_err r) (r_rec r) (r_precomprBuf r) (r_total r + 1) (recTypeFromHeader h) in
          let compr := header_compression h in
          if r_curRecTyp r =? recPageTerm then
            match read_padding r with
            | (Some e, r) => (Some e, r)
            | (None, r) => nextNew_loop fuel' i r
            end
          else
            match read_fragment r i with
            | (Err e, r) => (Some e, r)
            | (Ok part, r) =>
                let pre := r_precomprBuf r ++ part in
                if (r_curRecTyp r =? recLast) || (r_curRecTyp r =? recFull) then
                  match compression_Decode compr pre with
                  | Ok rec => (None, mk_Reader (r_rdr r) (r_err r) rec pre (r_total r) (r_curRecTyp r))
                  | Err e => (Some e, mk_Reader (r_rdr r) (r_err r) [] pre (r_total r) (r_curRecTyp r))
                  end
                else
                  nextNew_loop fuel' (i + 1) (mk_Reader (r_rdr r) (r_err r) (r_rec r) pre (r_total r) (r_curRecTyp r))
            end
      end
  end.

(** A turn takes a byte at least, so one turn more than there are bytes is enough. *)
Definition nextNew (r : Reader R) : option goerror * Reader R :=
  nextNew_loop (S (io_measure (r_rdr r))) 0
    (mk_Reader (r_rdr r) (r_err r) (r_rec r) [] (r_total r) (r_curRecTyp r)).

Definition set_err (r : Reader R) (e : option goerror) : Reader R :=
  mk_Reader (r_rdr r) e (r_rec r) (r_precomprBuf r) (r_total r) (r_curRecTyp r).

(** The error of a torn last record. *)
Definition ErrTorn : goerror := ErrFormat (-1).

Definition Reader_Next (r : Reader R) : bool * Reader R :=
  match nextNew r with
  | (Some EOF, r) =>
      (false,
       if (r_curRecTyp r =? recFirst) || (r_curRecTyp r =? recMiddle) then set_err r (Some ErrTorn) else r)
  | (Some e, r) => (false, set_err r (Some e))
  | (None, r) => (true, set_err r None)
  end.

(** [for r.Next() { recs = append(recs, r.Record()) }; r.Err()]. *)
Fixpoint read_all_loop (fuel : nat) (acc : list (list Z)) (r : Reader R) : list (list Z) * option goerror :=
  match fuel with
  | O => (acc, Some ErrUnexpectedEOF)
  | S fuel' =>
      match Reader_Next r with
      | (true, r) => read_all_loop fuel' (acc ++ [r_rec r]) r
      | (false, r) => (acc, r_err r)
      end
  end.

Definition read_all (rd : R) : list (list Z) * option goerror :=
  read_all_loop (S (io_measure rd)) [] (NewReader rd).

End Reader.

(** ** The stream format *)

Definition compression_mask (c : CompressionType) : Z :=
  match c with Snappy => snappyMask | Zstd => zstdMask | _ => 0 end.

(** A fragment: type and compression flag, length, checksum, payload. *)
Definition frag_bytes (typ : Z) (c : CompressionType) (part : list Z) : list Z :=
  Z.lor typ (compression_mask c) :: be_bytes 2 (u16 (Z.of_nat (length part))) ++
  be_bytes 4 (crc32_Checksum part) ++ part.

(** [parses p bytes (i, pre) recs (i', pre')]: read from offset [p] with [i]
    fragments of a record, [pre], already read, the bytes are whole fragments
    and padding to page ends, they complete the records [recs] and leave the
    fragments [i'], [pre'] of an incomplete one. *)
Inductive parses `{Codec} : Z -> list Z -> Z * list Z -> list (list Z) -> Z * list Z -> Prop :=
  | parses_nil p s : parses p [] s [] s
  | parses_pad p k bytes s recs s' :
      (1 <= k)%nat -> Z.of_nat k <= pageSize -> (p + Z.of_nat k) mod pageSize = 0 ->
      parses (p + Z.of_nat k) bytes s recs s' -> parses p (replicate k 0 ++ bytes) s recs s'
  | parses_part p typ c part bytes i pre recs s' :
      typ = (if i =? 0 then recFirst else recMiddle) -> 0 <= i ->
      Z.of_nat (length part) <= pageSize - recordHeaderSize ->
      parses (p + recordHeaderSize + Z.of_nat (length part)) bytes (i + 1, pre ++ part) recs s' ->
      parses p (frag_bytes typ c part ++ bytes) (i, pre) recs s'
  | parses_end p typ c part bytes i pre rec recs s' :
      typ = (if i =? 0 then recFull else recLast) -> 0 <= i -> c <> UnknownCompression ->
      Z.of_nat (length part) <= pageSize - recordHeaderSize ->
      compression_Decode c (pre ++ part) = Ok rec ->
      parses (p + recordHeaderSize + Z.of_nat (length part)) bytes (0, []) recs s' ->
      parses p (frag_bytes typ c part ++ bytes) (i, pre) (rec :: recs) s'.

Lemma length_frag_bytes typ c part :
  Z.of_nat (length (frag_bytes typ c part)) = recordHeaderSize + Z.of_nat (length part).
Proof. unfold frag_bytes. cbn [length]. rewrite !length_app, !length_be_bytes. unfold recordHeaderSize. lia. Qed.

Lemma parses_app `{Codec} p b1 s1 recs1 s2 b2 recs2 s3 :
  parses p b1 s1 recs1 s2 -> parses (p + Z.of_nat (length b1)) b2 s2 recs2 s3 ->
  parses p (b1 ++ b2) s1 (recs1 ++ recs2) s3.
Proof.
  induction 1 as [p s|p k bytes s recs s' Hk Hk' Hp _ IH|p typ c part bytes i pre recs s' Ht Hi Hl _ IH
    |p typ c part bytes i pre rec recs s' Ht Hi Hc Hl Hd _ IH]; intros H2.
  - by rewrite Z.add_0_r in H2.
  - rewrite <-app_assoc. apply parses_pad; [done..|]. apply IH. rewrite length_app, length_replicate in H2.
    replace (p + Z.of_nat k + Z.of_nat (length bytes)) with (p + Z.of_nat (k + length bytes)) by lia. done.
  - rewrite <-app_assoc. apply parses_part; [done..|]. apply IH. rewrite length_app, Nat2Z.inj_add, length_frag_bytes in H2.
    by rewrite !Z.add_assoc in H2.
  - rewrite <-app_assoc. eapply parses_end; [done..|]. apply IH. rewrite length_app, Nat2Z.inj_add, length_frag_bytes in H2.
    by rewrite !Z.add_assoc in H2.
Qed.

(** The position matters modulo the page size only. *)
Lemma parses_shift `{Codec} p q bytes s recs s' :
  p mod pageSize = q mod pageSize -> parses p bytes s recs s' -> parses q bytes s recs s'.
Proof.
  intros Hpq Hps. revert q Hpq.
  induction Hps as [p s|p k bytes s recs s' Hk Hk' Hp _ IH|p typ c part bytes i pre recs s' Ht Hi Hl _ IH
    |p typ c part bytes i pre rec recs s' Ht Hi Hc Hl Hd _ IH]; intros q Hpq.
  - constructor.
  - assert (Hq : (p + Z.of_nat k) mod pageSize = (q + Z.of_nat k) mod pageSize) by (by rewrite <-Zplus_mod_idemp_l, Hpq, Zplus_mod_idemp_l).
    apply parses_pad; [done|done|by rewrite <-Hq|by apply IH].
  - apply parses_part; [done..|]. apply IH. rewrite <-!Z.add_assoc. by rewrite <-Zplus_mod_idemp_l, Hpq, Zplus_mod_idemp_l.
  - eapply parses_end; [done..|]. apply IH. rewrite <-!Z.add_assoc. by rewrite <-Zplus_mod_idemp_l, Hpq, Zplus_mod_idemp_l.
Qed.

(** The four record types, with any compression flag. *)
Definition is_recType (typ : Z) : Prop := typ = recFull \/ typ = recFirst \/ typ = recMiddle \/ typ = recLast.

Lemma header_type typ c : is_recType typ -> recTypeFromHeader (Z.lor typ (compression_mask c)) = typ.
Proof. intros [-> | [-> | [-> | ->]]]; by destruct c. Qed.

Lemma header_compression_mask typ c :
  is_recType typ -> c <> UnknownCompression -> header_compression (Z.lor typ (compression_mask c)) = c.
Proof. intros [-> | [-> | [-> | ->]]]; by destruct c. Qed.

Lemma forallb_zeros k : forallb (Z.eqb 0) (replicate k 0) = true.
Proof. by induction k. Qed.

Section ReaderSpec.
  Context {R : Type} `{IoReaderLaws R} `{Codec}.

(** One turn over a fragment: what [read_fragment] returns. *)
Lemma read_fragment_ok (r : Reader R) i part rest :
  io_rest (r_rdr r) = be_bytes 2 (u16 (Z.of_nat (length part))) ++ be_bytes 4 (crc32_Checksum part) ++ part ++ rest ->
  Z.of_nat (length part) <= pageSize - recordHeaderSize -> validateRecord (r_curRecTyp r) i = None ->
  exists rd, io_rest rd = rest /\
    read_fragment r i = (Ok part, mk_Reader rd (r_err r) (r_rec r) (r_precomprBuf r)
      (r_total r + (recordHeaderSize - 1) + Z.of_nat (length part)) (r_curRecTyp r)).
Proof.
  intros Hr Hlen Hval. unfold read_fragment. rewrite app_assoc in Hr.
  destruct (ReadFull_ok (Z.to_nat (recordHeaderSize - 1)) _ _ _ Hr) as (rd & -> & Hrd).
  { by rewrite length_app, !length_be_bytes. }
  rewrite (take_app_length' _ _ 2), (drop_app_length' _ _ 2), (take_ge (be_bytes 4 _) 4) by (by rewrite length_be_bytes).
  rewrite !be_uint_be_bytes. cbn [r_rdr advance].
  assert (Hl16 : u16 (Z.of_nat (length part)) mod 2 ^ (8 * Z.of_nat 2) = Z.of_nat (length part)).
  { unfold pageSize, recordHeaderSize in Hlen. rewrite u16_id by (unfold is_u16; lia). apply Z.mod_small. lia. }
  rewrite Hl16. pose proof (crc32_range part) as Hcrc. rewrite (Z.mod_small (crc32_Checksum _)) by exact Hcrc.
  destruct (Z.ltb_spec (pageSize - recordHeaderSize) (Z.of_nat (length part))) as [|_]; [lia|].
  destruct (ReadFull_ok (Z.to_nat (Z.of_nat (length part))) rd part rest Hrd) as (rd' & -> & Hrd'); [lia|].
  rewrite Z.eqb_refl, Z.eqb_refl. cbn [negb r_curRecTyp advance]. rewrite Hval. exists rd'. split; [done|].
  unfold advance. cbn [r_rdr r_err r_rec r_precomprBuf r_total r_curRecTyp]. rewrite length_app, !length_be_bytes. done.
Qed.

(** One turn over padding. *)
Lemma read_padding_ok (r : Reader R) k rest :
  io_rest (r_rdr r) = replicate k 0 ++ rest -> Z.of_nat (S k) <= pageSize -> (r_total r + Z.of_nat k) mod pageSize = 0 ->
  exists rd, io_rest rd = rest /\
    read_padding r = (None, mk_Reader rd (r_err r) (r_rec r) (r_precomprBuf r) (r_total r + Z.of_nat k) (r_curRecTyp r)).
Proof.
  intros Hr Hk Hp. unfold read_padding.
  assert (Hps : 0 < pageSize) by (unfold pageSize; lia). pose proof (Z.mod_pos_bound (r_total r) pageSize Hps) as Hb.
  assert (Hkm : Z.of_nat k = (- r_total r) mod pageSize).
  { rewrite <-(Z.mod_small (Z.of_nat k) pageSize) by lia. replace (Z.of_nat k) with ((r_total r + Z.of_nat k) + - r_total r) by lia.
    by rewrite <-Zplus_mod_idemp_l, Hp. }
  destruct (decide (r_total r mod pageSize = 0)) as [Hz|Hz].
  - rewrite Z.mod_opp_l_z in Hkm by lia. assert (k = 0%nat) as -> by lia. rewrite Hz, Z.sub_0_r, Z.eqb_refl.
    exists (r_rdr r). split; [done|]. rewrite Z.add_0_r. by destruct r.
  - rewrite Z.mod_opp_l_nz in Hkm by lia. rewrite <-Hkm. destruct (Z.eqb_spec (Z.of_nat k) pageSize); [lia|].
    rewrite Nat2Z.id. destruct (ReadFull_ok k _ _ _ Hr) as (rd & -> & Hrd); [by rewrite length_replicate|].
    rewrite forallb_zeros, length_replicate. by exists rd.
Qed.

(** What a call of nextNew finds on a stream that parses: the next record, or
    the end. *)
Definition next_outcome (recs : list (list Z)) (bytes : list Z) (res : option goerror * Reader R) : Prop :=
  match recs with
  | [] => res.1 = Some EOF /\ r_curRecTyp res.2 <> recFirst /\ r_curRecTyp res.2 <> recMiddle
  | rec :: recs' =>
      res.1 = None /\ r_rec res.2 = rec /\ r_curRecTyp res.2 <> recFirst /\ r_curRecTyp res.2 <> recMiddle /\
      exists bytes', io_rest (r_rdr res.2) = bytes' /\ (length bytes' < length bytes)%nat /\
        parses (r_total res.2) bytes' (0, []) recs' (0, [])
  end.

(** A turn of the loop over padding, and one over a fragment. *)
Lemma nextNew_loop_pad fuel i (r : Reader R) k rest :
  io_rest (r_rdr r) = replicate (S k) 0 ++ rest -> Z.of_nat (S k) <= pageSize ->
  (r_total r + Z.of_nat (S k)) mod pageSize = 0 ->
  exists rd, io_rest rd = rest /\
    nextNew_loop (S fuel) i r = nextNew_loop fuel i
      (mk_Reader rd (r_err r) (r_rec r) (r_precomprBuf r) (r_total r + Z.of_nat (S k)) recPageTerm).
Proof.
  intros Hr Hk Hp. cbn [nextNew_loop]. destruct (ReadFull_ok 1 (r_rdr r) [0] _ Hr) as (rd & -> & Hrd); [done|].
  change (default 0 (head [0])) with 0. cbn [r_curRecTyp]. change (recTypeFromHeader 0) with recPageTerm.
  rewrite Z.eqb_refl.
  destruct (read_padding_ok (mk_Reader rd (r_err r) (r_rec r) (r_precomprBuf r) (r_total r + 1) recPageTerm) k rest Hrd)
    as (rd' & Hrd' & ->); [lia|cbn [r_total]; by replace (r_total r + 1 + Z.of_nat k) with (r_total r + Z.of_nat (S k)) by lia|].
  exists rd'. split; [done|]. cbn [r_err r_rec r_precomprBuf r_total r_curRecTyp].
  by replace (r_total r + 1 + Z.of_nat k) with (r_total r + Z.of_nat (S k)) by lia.
Qed.

Lemma nextNew_loop_frag fuel i (r : Reader R) typ c part rest :
  io_rest (r_rdr r) = frag_bytes typ c part ++ rest -> is_recType typ ->
  Z.of_nat (length part) <= pageSize - recordHeaderSize -> validateRecord typ i = None ->
  exists rd, io_rest rd = rest /\
    nextNew_loop (S fuel) i r =
      let pre := r_precomprBuf r ++ part in
      let total := r_total r + recordHeaderSize + Z.of_nat (length part) in
      if (typ =? recLast) || (typ =? recFull) then
        match compression_Decode (header_compression (Z.lor typ (compression_mask c))) pre with
        | Ok rec => (None, mk_Reader rd (r_err r) rec pre total typ)
        | Err e => (Some e, mk_Reader rd (r_err r) [] pre total typ)
        end
      else nextNew_loop fuel (i + 1) (mk_Reader rd (r_err r) (r_rec r) pre total typ).
Proof.
  intros Hr Ht Hl Hv. cbn [nextNew_loop]. unfold frag_bytes in Hr. cbn [app] in Hr. rewrite <-!app_assoc in Hr.
  destruct (ReadFull_ok 1 (r_rdr r) [Z.lor typ (compression_mask c)] _ Hr) as (rd & -> & Hrd); [done|].
  change (default 0 (head [?x])) with x. cbn [r_curRecTyp]. rewrite header_type by done.
  replace (typ =? recPageTerm) with false by (by destruct Ht as [-> | [-> | [-> | ->]]]).
  destruct (read_fragment_ok (mk_Reader rd (r_err r) (r_rec r) (r_precomprBuf r) (r_total r + 1) typ) i part rest Hrd Hl Hv)
    as (rd' & Hrd' & ->). exists rd'. split; [done|]. cbn [r_rdr r_err r_rec r_precomprBuf r_total r_curRecTyp].
  by replace (r_total r + 1 + (recordHeaderSize - 1) + Z.of_nat (length part))
    with (r_total r + recordHeaderSize + Z.of_nat (length part)) by lia.
Qed.

Lemma part_type i : 0 <= i -> let typ := if i =? 0 then recFirst else recMiddle in
  is_recType typ /\ validateRecord typ i = None /\ (typ =? recLast) || (typ =? recFull) = false.
Proof. intros Hi. unfold is_recType, validateRecord. destruct (Z.eqb_spec i 0) as [->|]; cbn; auto. Qed.

Lemma end_type i : 0 <= i -> let typ := if i =? 0 then recFull else recLast in
  is_recType typ /\ validateRecord typ i = None /\ (typ =? recLast) || (typ =? recFull) = true /\
  typ <> recFirst /\ typ <> recMiddle.
Proof. intros Hi. unfold is_recType, validateRecord. destruct (Z.eqb_spec i 0) as [->|]; cbn; auto. Qed.

(** The outcome on a longer stream. *)
Lemma next_outcome_longer recs bytes bytes' res :
  next_outcome recs bytes res -> (length bytes <= length bytes')%nat -> next_outcome recs bytes' res.
Proof.
  unfold next_outcome. destruct recs; [done|]. intros (?&?&?&?&b&?&?&?) Hle. split_and!; try done.
  exists b. split_and!; [done|lia|done].
Qed.

Lemma nextNew_loop_spec p bytes i pre recs fuel (r : Reader R) :
  parses p bytes (i, pre) recs (0, []) -> (length bytes < fuel)%nat ->
  io_rest (r_rdr r) = bytes -> r_total r = p -> r_precomprBuf r = pre ->
  (i = 0 -> r_curRecTyp r <> recFirst /\ r_curRecTyp r <> recMiddle) ->
  next_outcome recs bytes (nextNew_loop fuel i r) /\ r_err (nextNew_loop fuel i r).2 = r_err r.
Proof.
  intros Hp. remember (i, pre) as s eqn:Es. remember (0, []) as s' eqn:Es'. revert i pre fuel r Es.
  induction Hp as [p s|p k bytes s recs s' Hk Hk' Hpk Hps IH|p typ c part bytes i0 pre0 recs s' Ht Hi Hl Hps IH
    |p typ c part bytes i0 pre0 rec recs s' Ht Hi Hc Hl Hd Hps IH];
    intros i pre fuel r Es Hf Hr Htot Hpre Hcur; (destruct fuel as [|fuel]; [simpl in Hf; lia|]).
  - rewrite Es in Es'. injection Es' as -> ->. cbn [nextNew_loop].
    destruct (ReadFull_eof 1 (r_rdr r)) as (rd & -> & _); [lia|done|]. cbn. split; [|done]. split; [done|]. by apply Hcur.
  - destruct k as [|k]; [lia|]. destruct (nextNew_loop_pad fuel i r k bytes Hr) as (rd & Hrd & ->); [lia|by rewrite Htot|].
    rewrite length_app, length_replicate in Hf.
    match goal with |- context [nextNew_loop fuel i ?q] => destruct (IH Es' i pre fuel q) as [Ho He] end;
      [done|lia|exact Hrd|cbn; lia|done|done|].
    split; [|exact He]. eapply next_outcome_longer; [exact Ho|]. rewrite length_app. lia.
  - injection Es as -> ->. destruct (part_type i Hi) as (Hty & Hval & Hnl). rewrite <-Ht in *.
    destruct (nextNew_loop_frag fuel i r typ c part bytes Hr Hty Hl Hval) as (rd & Hrd & ->). cbv zeta. rewrite Hnl.
    rewrite length_app in Hf. pose proof (length_frag_bytes typ c part) as Hfl. unfold recordHeaderSize in Hfl.
    match goal with |- context [nextNew_loop fuel (i + 1) ?q] => destruct (IH Es' (i + 1) (pre ++ part) fuel q) as [Ho He] end;
      [done|lia|exact Hrd|cbn; by rewrite Htot|cbn; by rewrite Hpre|lia|].
    split; [|exact He]. eapply next_outcome_longer; [exact Ho|]. rewrite length_app. lia.
  - injection Es as -> ->. destruct (end_type i Hi) as (Hty & Hval & Hnl & Hn1 & Hn2). rewrite <-Ht in *.
    destruct (nextNew_loop_frag fuel i r typ c part bytes Hr Hty Hl Hval) as (rd & Hrd & ->). cbv zeta. rewrite Hnl.
    rewrite header_compression_mask, Hpre, Hd by done. split; [|done]. split_and!; [done..|]. exists bytes.
    pose proof (length_frag_bytes typ c part) as Hfl. unfold recordHeaderSize in Hfl. rewrite length_app.
    split_and!; [done|lia|]. cbn [r_total snd]. rewrite Htot. by rewrite Es' in Hps.
Qed.

(** Reading the whole stream. *)
Lemma read_all_loop_spec recs : forall p bytes fuel acc (r : Reader R),
  parses p bytes (0, []) recs (0, []) -> (length bytes < fuel)%nat -> io_rest (r_rdr r) = bytes -> r_total r = p ->
  r_curRecTyp r <> recFirst -> r_curRecTyp r <> recMiddle -> r_err r = None ->
  read_all_loop fuel acc r = (acc ++ recs, None).
Proof.
  induction recs as [|rec recs IH]; intros p bytes fuel acc r Hp Hf Hr Ht Hn1 Hn2 He; (destruct fuel as [|fuel]; [lia|]);
    cbn [read_all_loop]; unfold Reader_Next, nextNew;
    (match goal with |- context [nextNew_loop ?f 0 ?q] => destruct (nextNew_loop_spec _ _ _ _ _ f q Hp) as [Ho Her] end;
      [rewrite <-Hr; pose proof (io_rest_measure (r_rdr r)); lia|exact Hr|exact Ht|done|done|]);
    destruct (nextNew_loop _ _ _) as [e r'] eqn:E; unfold next_outcome in Ho; cbn [r_err fst snd] in *.
  - destruct Ho as (-> & Hc1 & Hc2). cbn [fst snd] in *. rewrite (proj2 (Z.eqb_neq _ _) Hc1), (proj2 (Z.eqb_neq _ _) Hc2).
    cbn [orb]. rewrite app_nil_r. congruence.
  - destruct Ho as (-> & Hrec & Hc1 & Hc2 & bytes' & Hr' & Hlt & Hps). cbn [fst snd] in *.
    erewrite (IH (r_total r') bytes'); [|done|lia|done|done|done|done|done].
    cbn [set_err r_rec]. by rewrite Hrec, <-app_assoc.
Qed.

Lemma read_all_parses (rd : R) recs :
  parses 0 (io_rest rd) (0, []) recs (0, []) -> read_all rd = (recs, None).
Proof.
  intros Hp. unfold read_all. erewrite read_all_loop_spec; [done|exact Hp| | | | | |]; try done.
  pose proof (io_rest_measure rd). lia.
Qed.

(** The first read of a torn fragment. *)
Lemma nextNew_torn (rd : R) typ c part k :
  is_recType typ -> validateRecord typ 0 = None -> part <> [] -> Z.of_nat (length part) <= pageSize - recordHeaderSize ->
  (1 <= k < length (frag_bytes typ c part))%nat -> io_rest rd = take k (frag_bytes typ c part) ->
  exists r', nextNew (NewReader rd) = (Some (if decide (k = 1 \/ k = 7)%nat then EOF else ErrUnexpectedEOF), r') /\
    r_curRecTyp r' = typ /\ r_err r' = None.
Proof.
  intros Ht Hv Hne Hl Hk Hrd. pose proof (length_frag_bytes typ c part) as Hlen. unfold nextNew. cbn [nextNew_loop NewReader r_rdr].
  set (h := Z.lor typ (compression_mask c)). set (hdr := be_bytes 2 (u16 (Z.of_nat (length part))) ++ be_bytes 4 (crc32_Checksum part)).
  assert (Hfb : frag_bytes typ c part = h :: hdr ++ part) by (unfold frag_bytes, hdr; by rewrite <-app_assoc).
  assert (Hhl : length hdr = 6%nat) by (unfold hdr; by rewrite length_app, !length_be_bytes).
  destruct k as [|k]; [lia|]. rewrite Hfb in Hrd. cbn [take] in Hrd.
  destruct (ReadFull_ok 1 rd [h] (take k (hdr ++ part)) Hrd) as (rd1 & -> & Hrd1); [done|].
  change (default 0 (head [h])) with h. cbn [r_curRecTyp]. unfold h. rewrite header_type by done.
  replace (typ =? recPageTerm) with false by (by destruct Ht as [-> | [-> | [-> | ->]]]).
  unfold read_fragment. cbn [r_rdr r_curRecTyp].
  rewrite Hfb in Hk. cbn [length] in Hk. rewrite length_app in Hk. change (Z.to_nat (recordHeaderSize - 1)) with 6%nat.
  destruct (decide (k < 6)%nat) as [Hk6|Hk6].
  - rewrite take_app_le in Hrd1 by lia. destruct k as [|k].
    + destruct (ReadFull_eof 6 rd1) as (rd2 & -> & _); [lia|done|]. eexists. split; [reflexivity|done].
    + destruct (ReadFull_short 6 rd1 _ Hrd1) as (rd2 & ->); [rewrite length_take; lia|].
      rewrite decide_False by lia. eexists. split; [reflexivity|done].
  - rewrite take_app_ge in Hrd1 by lia. destruct (ReadFull_ok 6 rd1 hdr _ Hrd1 Hhl) as (rd2 & -> & Hrd2).
    pose proof (take_app_length' (be_bytes 2 (u16 (Z.of_nat (length part)))) (be_bytes 4 (crc32_Checksum part)) 2) as Ht2.
    fold hdr in Ht2. rewrite Ht2 by (by rewrite length_be_bytes). clear Ht2. rewrite be_uint_be_bytes.
    rewrite u16_id by (unfold is_u16, pageSize, recordHeaderSize in *; lia).
    rewrite (Z.mod_small (Z.of_nat (length part))) by (unfold pageSize, recordHeaderSize in *; lia).
    destruct (Z.ltb_spec (pageSize - recordHeaderSize) (Z.of_nat (length part))) as [|_]; [lia|]. rewrite Nat2Z.id. cbn [r_rdr advance].
    destruct (decide (k = 6)%nat) as [->|Hne6].
    + rewrite Hhl, Nat.sub_diag, take_0 in Hrd2. destruct (ReadFull_eof (length part) rd2) as (rd3 & -> & _); [destruct part; [done|simpl; lia]|done|].
      eexists. split; [reflexivity|done].
    + destruct (ReadFull_short (length part) rd2 _ Hrd2) as (rd3 & ->); [rewrite length_take; lia|].
      rewrite decide_False by lia. eexists. split; [reflexivity|done].
Qed.
End ReaderSpec.

(** C40: how a reader reports a stream that ends inside its only fragment, after
    [k] of its bytes.  A cut in the middle of the header or of the payload is
    an error; a cut right behind the first byte or right behind the header is
    reported as a torn record for the first fragment of a record, but as a
    clean end of the log for a full record. *)
Theorem torn_record_detection (R : Type) (IR : IoReader R) (LR : IoReaderLaws R) (C : Codec) (rd : R) (typ : Z)
    (c : CompressionType) (part : list Z) (k : nat) :
  typ = recFull \/ typ = recFirst -> part <> [] -> Z.of_nat (length part) <= pageSize - recordHeaderSize ->
  (1 <= k < length (frag_bytes typ c part))%nat -> io_rest rd = take k (frag_bytes typ c part) ->
  read_all rd =
    ([], if decide (k = 1 \/ k = 7)%nat then (if typ =? recFull then None else Some ErrTorn) else Some ErrUnexpectedEOF).
Proof.
  intros Ht Hne Hl Hk Hrd. unfold read_all. cbn [read_all_loop]. unfold Reader_Next.
  destruct (nextNew_torn rd typ c part k) as (r' & -> & Hty & He); try done.
  { destruct Ht as [-> | ->]; unfold is_recType; auto. }
  { by destruct Ht as [-> | ->]. }
  rewrite Hty. destruct (decide (k = 1 \/ k = 7)%nat); destruct Ht as [-> | ->]; cbn; by rewrite ?He.
Qed.

Lemma torn_record_detection_witness :
  read_all (R := list Z) (H0 := rle_Codec) (take 7 (frag_bytes recFull NoCompression [1; 2; 3])) = ([], None).
Proof.
  apply (torn_record_detection (list Z) _ _ rle_Codec _ recFull NoCompression [1; 2; 3] 7); [by left|done|done|cbn; lia|done].
Defined.
