(* ===== verification/Wlog.v ===== *)
(** tsdb/wlog/wlog.go: writing the write-ahead log.

    The directory is a map from segment index to file content.  Creating,
    closing, syncing and removing files succeed; a write can fail part way:
    [w_faults] lists, for each write to come, whether it fails and after how
    many bytes.  Metrics, loggers, the mutex and the goroutine that closes old
    segments do not change what is written. *)
From stdpp Require Import sorting.
From S2P Require Import Prelude BitList Encoding Compression WlogReader.
Open Scope go_scope.

(** ** Pages *)

(** [p_buf] has pageSize bytes. *)
Record page := mk_page { p_alloc : nat; p_flushed : nat; p_buf : list Z }.

Definition zero_page : page := mk_page 0 0 (replicate (Z.to_nat pageSize) 0).

Definition page_remaining (p : page) : Z := pageSize - Z.of_nat (p_alloc p).
Definition page_full (p : page) : bool := pageSize - Z.of_nat (p_alloc p) <? recordHeaderSize.
Definition page_reset (p : page) : page := zero_page.

(** ** The log *)

Record WL := mk_WL {
  w_dir : gmap Z (list Z);
  w_segmentSize : Z;
  w_segment : Z;             (* index of the active segment *)
  w_donePages : Z;
  w_page : page;
  w_closed : bool;
  w_compress : CompressionType;
  w_faults : list (option nat) }.

Definition set_page (p : page) (w : WL) : WL :=
  mk_WL (w_dir w) (w_segmentSize w) (w_segment w) (w_donePages w) p (w_closed w) (w_compress w) (w_faults w).

Definition ErrDisk : goerror := ErrFormat (-2).

(** File.Write appends to the active segment. *)
Definition segment_Write (bs : list Z) (w : WL) : nat * option goerror * WL :=
  let file := default [] (w_dir w !! w_segment w) in
  let write n fs :=
    mk_WL (<[w_segment w := file ++ take n bs]> (w_dir w)) (w_segmentSize w) (w_segment w) (w_donePages w)
      (w_page w) (w_closed w) (w_compress w) fs in
  match w_faults w with
  | Some n :: fs => (Nat.min n (length bs), Some ErrDisk, write n fs)
  | None :: fs => (length bs, None, write (length bs) fs)
  | [] => (length bs, None, write (length bs) [])
  end.

(** [p.buf[a:b]]. *)
Definition slice (a b : nat) (l : list Z) : list Z := take (b - a) (drop a l).

Definition flushPage (forceClear : bool) : st WL unit := fun w =>
  let p := w_page w in
  let shouldClear := forceClear || page_full p in
  let alloc := if shouldClear then Z.to_nat pageSize else p_alloc p in
  let '(n, err, w) := segment_Write (slice (p_flushed p) alloc (p_buf p)) w in
  let p := mk_page alloc (p_flushed p + n) (p_buf p) in
  match err with
  | Some e => (Err e, set_page p w)
  | None =>
      if shouldClear then
        (Ok tt, mk_WL (w_dir w) (w_segmentSize w) (w_segment w) (w_donePages w + 1) (page_reset p) (w_closed w)
                  (w_compress w) (w_faults w))
      else (Ok tt, set_page p w)
  end.

(** CreateSegment opens with O_CREATE and O_APPEND. *)
Definition CreateSegment (k : Z) (dir : gmap Z (list Z)) : gmap Z (list Z) :=
  match dir !! k with Some _ => dir | None => <[k := []]> dir end.

Definition setSegment (k : Z) (w : WL) : WL :=
  mk_WL (w_dir w) (w_segmentSize w) k (Z.of_nat (length (default [] (w_dir w !! k))) / pageSize)
    (w_page w) (w_closed w) (w_compress w) (w_faults w).

Definition set_dir (dir : gmap Z (list Z)) (w : WL) : WL :=
  mk_WL dir (w_segmentSize w) (w_segment w) (w_donePages w) (w_page w) (w_closed w) (w_compress w) (w_faults w).

Definition ErrClosed : goerror := ErrFormat (-3).

Definition nextSegment : st WL Z := fun w =>
  if w_closed w then (Err ErrClosed, w)
  else
    ((fun w => if (0 <? p_alloc (w_page w))%nat then flushPage true w else (Ok tt, w)) ;;;
     (fun w =>
        let next := w_segment w + 1 in
        (Ok next, setSegment next (set_dir (CreateSegment next (w_dir w)) w)))) w.

Definition pagesPerSegment (w : WL) : Z := w_segmentSize w / pageSize.

(** [buf] with [bs] copied to offset [off]. *)
Definition put_at (off : nat) (bs buf : list Z) : list Z := take off buf ++ bs ++ drop (off + length bs) buf.

Section Log.
  Context `{Codec}.

(** The type of a fragment: [i == 0], [len(part) == len(enc)]. *)
Definition fragment_type (i : Z) (whole : bool) : Z :=
  if (i =? 0) && whole then recFull else if whole then recLast else if i =? 0 then recFirst else recMiddle.

(** One fragment is written to the page; the flag, length, checksum and payload
    go to consecutive offsets from [p.alloc]. *)
Definition put_fragment (i : Z) (c : CompressionType) (enc part : list Z) (w : WL) : WL :=
  let p := w_page w in
  let typ := fragment_type i (length part =? length enc)%nat in
  let bs := frag_bytes typ c part in
  set_page (mk_page (p_alloc p + (length part + Z.to_nat recordHeaderSize)) (p_flushed p) (put_at (p_alloc p) bs (p_buf p))) w.

Definition part_length (enc : list Z) (w : WL) : nat :=
  Z.to_nat (Z.min (Z.of_nat (length enc)) (pageSize - Z.of_nat (p_alloc (w_page w)) - recordHeaderSize)).

(** [for i := 0; i == 0 || len(enc) > 0; i++].  Every turn but the first takes
    a byte of [enc] at least. *)
Fixpoint log_loop (fuel : nat) (i : Z) (c : CompressionType) (enc : list Z) : st WL unit := fun w =>
  match fuel with
  | O => (Err ErrUnexpectedEOF, w)
  | S fuel' =>
      if (i =? 0) || (0 <? length enc)%nat then
        let l := part_length enc w in
        if bool_decide (c = UnknownCompression) then (Err (ErrFormat 0), w)
        else
          let w := put_fragment i c enc (take l enc) w in
          ((fun w => if page_full (w_page w) then flushPage true w else (Ok tt, w)) ;;;
           log_loop fuel' (i + 1) c (drop l enc)) w
      else (Ok tt, w)
  end.

(** The record as it will be written, and its compression. *)
Definition encode_record (t : CompressionType) (rec : list Z) : result (list Z * CompressionType) :=
  match compression_Encode t rec with
  | Err e => Err e
  | Ok enc =>
      if bool_decide (t = NoCompression) then Ok (enc, t)
      else if Z.of_nat (length rec) - Z.of_nat (length enc) <=? 0 then Ok (rec, NoCompression) else Ok (enc, t)
  end.

(** The free space of the active segment. *)
Definition space_left (w : WL) : Z :=
  page_remaining (w_page w) - recordHeaderSize +
  (pageSize - recordHeaderSize) * (pagesPerSegment w - w_donePages w - 1).

Definition log_record (rec : list Z) (final : bool) : st WL unit :=
  (fun w => if page_full (w_page w) then flushPage true w else (Ok tt, w)) ;;;
  (fun w =>
     match encode_record (w_compress w) rec with
     | Err e => (Err e, w)
     | Ok (enc, c) =>
         ((fun w =>
             if space_left w <? Z.of_nat (length enc) then (nextSegment ;;; st_ret tt) w else (Ok tt, w)) ;;;
          log_loop (S (S (length enc))) 0 c enc ;;;
          (fun w => if final && (0 <? p_alloc (w_page w))%nat then flushPage false w else (Ok tt, w))) w
     end).

Fixpoint Log (recs : list (list Z)) : st WL unit :=
  match recs with
  | [] => st_ret tt
  | r :: recs' => log_record r (match recs' with [] => true | _ => false end) ;;; Log recs'
  end.

End Log.

(** ** Segment files *)

(** The names that are numbers, sorted; gaps are an error. *)
Definition segment_indices (dir : gmap Z (list Z)) : list Z := merge_sort Z.le (map fst (map_to_list dir)).

Fixpoint sequential (l : list Z) : bool :=
  match l with
  | a :: (b :: _) as l' => (a + 1 =? b) && sequential l'
  | _ => true
  end.

Definition listSegments (dir : gmap Z (list Z)) : result (list Z) :=
  let refs := segment_indices dir in
  if sequential refs then Ok refs else Err (ErrFormat (-4)).

Definition Segments (dir : gmap Z (list Z)) : result (Z * Z) :=
  match listSegments dir with
  | Err e => Err e
  | Ok [] => Ok (-1, -1)
  | Ok (r :: refs) => Ok (r, List.last (r :: refs) 0)
  end.

Definition ErrSegmentSize : goerror := ErrFormat (-5).

Definition NewSize (dir : gmap Z (list Z)) (segmentSize : Z) (compress : CompressionType) (faults : list (option nat)) : result WL :=
  if negb (segmentSize mod pageSize =? 0) then Err ErrSegmentSize
  else
    match Segments dir with
    | Err e => Err e
    | Ok (_, last) =>
        let k := if negb (last =? -1) then last + 1 else 0 in
        Ok (setSegment k (mk_WL (CreateSegment k dir) segmentSize 0 0 zero_page false compress faults))
    end.

(** Truncate drops all segments before [i]. *)
Definition Truncate (i : Z) : st WL unit := fun w =>
  match listSegments (w_dir w) with
  | Err e => (Err e, w)
  | Ok refs => (Ok tt, set_dir (foldl (fun d k => delete k d) (w_dir w) (filter (fun k => k < i) refs)) w)
  end.

Definition Close : st WL unit := fun w =>
  if w_closed w then (Err ErrClosed, w)
  else
    ((fun w => if (0 <? p_alloc (w_page w))%nat then flushPage true w else (Ok tt, w)) ;;;
     (fun w => (Ok tt, mk_WL (w_dir w) (w_segmentSize w) (w_segment w) (w_donePages w) (w_page w) true (w_compress w) (w_faults w)))) w.

(** A range reader over one directory; a bound of -1 is open. *)
Definition NewSegmentsRangeReader (dir : gmap Z (list Z)) (First Last : Z) : result segmentBufReader :=
  match listSegments dir with
  | Err e => Err e
  | Ok refs =>
      let refs := filter (fun k => negb ((0 <=? First) && (k <? First)) && negb ((0 <=? Last) && (Last <? k)) = true) refs in
      Ok (NewSegmentBufReader (map (fun k => default [] (dir !! k)) refs))
  end.

Definition NewSegmentsReader (dir : gmap Z (list Z)) : result segmentBufReader := NewSegmentsRangeReader dir (-1) (-1).

(** ** Slices of the page buffer *)

Lemma slice_app a b c l : (a <= b <= c)%nat -> slice a c l = slice a b l ++ slice b c l.
Proof.
  intros H. unfold slice. replace (drop b l) with (drop (b - a) (drop a l)) by (rewrite drop_drop; f_equal; lia).
  replace (c - a)%nat with ((b - a) + (c - b))%nat by lia. by rewrite <-take_take_drop.
Qed.

Lemma slice_nil a l : slice a a l = [].
Proof. unfold slice. by rewrite Nat.sub_diag. Qed.

Lemma length_slice a b l : (b <= length l)%nat -> length (slice a b l) = (b - a)%nat.
Proof. intros H. unfold slice. rewrite length_take, length_drop. lia. Qed.

Lemma length_put_at off bs buf : (off + length bs <= length buf)%nat -> length (put_at off bs buf) = length buf.
Proof. intros H. unfold put_at. rewrite !length_app, length_take, length_drop. lia. Qed.

Lemma drop_put_at off bs buf :
  (off + length bs <= length buf)%nat -> drop (off + length bs) (put_at off bs buf) = drop (off + length bs) buf.
Proof.
  intros H. unfold put_at. rewrite app_assoc. apply drop_app_length'. rewrite length_app, length_take. lia.
Qed.

Lemma slice_put_at a off bs buf :
  (a <= off)%nat -> (off + length bs <= length buf)%nat ->
  slice a (off + length bs) (put_at off bs buf) = slice a off buf ++ bs.
Proof.
  intros Ha H. rewrite (slice_app a off) by lia. f_equal.
  - unfold slice, put_at. rewrite drop_app_le by (rewrite length_take; lia).
    rewrite take_app_le by (rewrite length_drop, length_take; lia). rewrite skipn_firstn_comm. apply take_idemp.
  - unfold slice, put_at. rewrite drop_app_length' by (rewrite length_take; lia).
    by rewrite take_app_length' by lia.
Qed.

Lemma slice_zeros a l n : drop a l = replicate n 0 -> slice a (a + n) l = replicate n 0.
Proof. intros H. unfold slice. rewrite H. apply take_ge. rewrite length_replicate. lia. Qed.

(** ** The invariant *)

Lemma pageSize_pos : recordHeaderSize < pageSize.
Proof. done. Qed.

(** [walI t w first prev recs s]: the directory holds the segments [first], ...,
    each closed one a stream of the records of its entry of [prev]; the active
    one, with what the page has not flushed yet, is a stream of the records
    [recs] that ends in the middle state [s]; writes succeed. *)
Record walI `{Codec} (t : CompressionType) (w : WL) (first : Z) (prev : list (list (list Z))) (recs : list (list Z)) (s : Z * list Z) : Prop := {
  I_len : Z.of_nat (length (p_buf (w_page w))) = pageSize;
  I_flushed : (p_flushed (w_page w) <= p_alloc (w_page w))%nat;
  I_alloc : Z.of_nat (p_alloc (w_page w)) <= pageSize;
  I_clean : drop (p_alloc (w_page w)) (p_buf (w_page w)) = replicate (Z.to_nat pageSize - p_alloc (w_page w)) 0;
  I_active : exists file, w_dir w !! w_segment w = Some file /\
    Z.of_nat (length file) mod pageSize = Z.of_nat (p_flushed (w_page w)) mod pageSize /\
    parses 0 (file ++ slice (p_flushed (w_page w)) (p_alloc (w_page w)) (p_buf (w_page w))) (0, []) recs s;
  I_segment : w_segment w = first + Z.of_nat (length prev);
  I_prev : forall j rs, prev !! j = Some rs -> exists f, w_dir w !! (first + Z.of_nat j) = Some f /\
    parses 0 (pad_segment f) (0, []) rs (0, []);
  I_dom : forall k, is_Some (w_dir w !! k) -> first <= k <= w_segment w;
  I_open : w_closed w = false;
  I_faults : w_faults w = [];
  I_compress : w_compress w = t;
  I_size : w_segmentSize w mod pageSize = 0 }.

(** Outside Log the page has room for a header. *)
Definition not_full (w : WL) : Prop := page_full (w_page w) = false.

Section Invariant.
  Context `{C : Codec} (t : CompressionType).

(** A write to the active segment leaves the closed ones alone. *)
Lemma prev_insert (d : gmap Z (list Z)) first (prev : list (list (list Z))) seg file :
  seg = first + Z.of_nat (length prev) ->
  (forall j rs, prev !! j = Some rs -> exists f, d !! (first + Z.of_nat j) = Some f /\ parses 0 (pad_segment f) (0, []) rs (0, [])) ->
  forall j rs, prev !! j = Some rs -> exists f, <[seg := file]> d !! (first + Z.of_nat j) = Some f /\ parses 0 (pad_segment f) (0, []) rs (0, []).
Proof.
  intros -> Hp j rs Hj. destruct (Hp j rs Hj) as (f & Hf & Hps). exists f. split; [|done].
  rewrite lookup_insert_ne; [done|]. apply lookup_lt_Some in Hj. lia.
Qed.

Lemma dom_insert_active (d : gmap Z (list Z)) (first seg : Z) (file : list Z) :
  first <= seg -> (forall k, is_Some (d !! k) -> first <= k <= seg) ->
  forall k, is_Some (<[seg := file]> d !! k) -> first <= k <= seg.
Proof.
  intros Hle Hd k. destruct (decide (k = seg)) as [->|]; [lia|]. rewrite lookup_insert_ne by done. apply Hd.
Qed.

Lemma put_fragment_page i c enc part w :
  w_page (put_fragment i c enc part w) =
    let p := w_page w in
    mk_page (p_alloc p + length (frag_bytes (fragment_type i (length part =? length enc)%nat) c part)) (p_flushed p)
      (put_at (p_alloc p) (frag_bytes (fragment_type i (length part =? length enc)%nat) c part) (p_buf p)).
Proof.
  unfold put_fragment, set_page. cbn [w_page]. f_equal. f_equal.
  pose proof (length_frag_bytes (fragment_type i (length part =? length enc)%nat) c part). unfold recordHeaderSize in *. lia.
Qed.

(** A fragment that fits the page extends the stream. *)
Lemma put_fragment_I w first prev recs s i c enc part recs1 s' :
  walI t w first prev recs s ->
  Z.of_nat (p_alloc (w_page w)) + recordHeaderSize + Z.of_nat (length part) <= pageSize ->
  (forall p, parses p (frag_bytes (fragment_type i (length part =? length enc)%nat) c part) s recs1 s') ->
  walI t (put_fragment i c enc part w) first prev (recs ++ recs1) s'.
Proof.
  intros [Hlen Hfl Hal Hcl (file & Hfile & Hmod & Hps) Hseg Hprev Hdom Hop Hfa Hco Hsz] Hfit Hfrag.
  set (bs := frag_bytes _ _ _) in *.
  assert (Hbs : Z.of_nat (length bs) = recordHeaderSize + Z.of_nat (length part)) by apply length_frag_bytes.
  split; rewrite ?put_fragment_page; fold bs; cbn [p_alloc p_flushed p_buf]; try done; try lia.
  - by rewrite length_put_at by lia.
  - rewrite drop_put_at by lia. rewrite <-drop_drop, Hcl, drop_replicate. f_equal. lia.
  - exists file. split_and!; [done|done|]. rewrite slice_put_at, app_assoc by lia.
    eapply parses_app; [exact Hps|]. apply Hfrag.
Qed.

Lemma zero_page_len : Z.of_nat (length (p_buf zero_page)) = pageSize.
Proof. unfold zero_page. cbn [p_buf]. rewrite length_replicate. pose proof pageSize_pos. unfold recordHeaderSize in *. lia. Qed.

Lemma zero_page_clean : drop (p_alloc zero_page) (p_buf zero_page) = replicate (Z.to_nat pageSize - p_alloc zero_page) 0.
Proof. unfold zero_page. cbn [p_buf p_alloc]. by rewrite drop_0, Nat.sub_0_r. Qed.

(** Clearing the page pads the stream to the page's end. *)
Lemma flushPage_clear w first prev recs s force :
  walI t w first prev recs s -> force || page_full (w_page w) = true ->
  exists w', flushPage force w = (Ok tt, w') /\ walI t w' first prev recs s /\ w_page w' = zero_page.
Proof.
  intros [Hlen Hfl Hal Hcl (file & Hfile & Hmod & Hps) Hseg Hprev Hdom Hop Hfa Hco Hsz] Hforce.
  unfold flushPage, segment_Write. rewrite Hforce, Hfa, Hfile. eexists. split; [reflexivity|]. split; [|done].
  set (p := w_page w) in *. change (default [] (Some file)) with file. rewrite take_ge by lia.
  assert (Hz : slice (p_flushed p) (Z.to_nat pageSize) (p_buf p) =
    slice (p_flushed p) (p_alloc p) (p_buf p) ++ replicate (Z.to_nat pageSize - p_alloc p) 0).
  { rewrite (slice_app _ (p_alloc p)) by lia. f_equal. rewrite <-(slice_zeros (p_alloc p) _ _ Hcl). f_equal. lia. }
  unfold page_reset. split; cbn [w_page w_dir w_segment w_closed w_faults w_compress].
  - apply zero_page_len.
  - apply Nat.le_refl.
  - cbn [p_alloc zero_page]. pose proof pageSize_pos. unfold recordHeaderSize in *. lia.
  - apply zero_page_clean.
  - exists (file ++ slice (p_flushed p) (Z.to_nat pageSize) (p_buf p)). rewrite lookup_insert_eq. split; [done|].
    assert (Hal2 : Z.of_nat (length (file ++ slice (p_flushed p) (Z.to_nat pageSize) (p_buf p))) mod pageSize = 0).
    { rewrite length_app, length_slice, Nat2Z.inj_add, <-Zplus_mod_idemp_l, Hmod, Zplus_mod_idemp_l by lia.
      replace (Z.of_nat (p_flushed p) + Z.of_nat (Z.to_nat pageSize - p_flushed p)) with pageSize by lia.
      apply Z_mod_same_full. }
    rewrite Hal2. split; [done|]. cbn [p_flushed p_alloc zero_page]. rewrite slice_nil, app_nil_r. rewrite Hz, app_assoc in *.
    rewrite <-(app_nil_r recs). eapply parses_app; [exact Hps|]. rewrite length_app, length_replicate in Hal2.
    destruct (Z.to_nat pageSize - p_alloc p)%nat as [|k] eqn:Ek; [constructor|]. rewrite <-(app_nil_r (replicate _ _)).
    apply parses_pad; [lia|lia| |constructor]. by rewrite Z.add_0_l, <-Nat2Z.inj_add.
  - exact Hseg.
  - by apply prev_insert.
  - apply dom_insert_active; [lia|done].
  - exact Hop.
  - done.
  - exact Hco.
  - exact Hsz.
Qed.

(** A flush that does not clear leaves nothing behind in the page. *)
Lemma flushPage_keep w first prev recs s :
  walI t w first prev recs s -> not_full w ->
  exists w', flushPage false w = (Ok tt, w') /\ walI t w' first prev recs s /\ not_full w' /\
    p_flushed (w_page w') = p_alloc (w_page w').
Proof.
  intros [Hlen Hfl Hal Hcl (file & Hfile & Hmod & Hps) Hseg Hprev Hdom Hop Hfa Hco Hsz] Hnf. unfold not_full in Hnf.
  unfold flushPage, segment_Write. rewrite Hnf, Hfa, Hfile. cbn [orb]. eexists. split; [reflexivity|].
  set (p := w_page w) in *. change (default [] (Some file)) with file. rewrite take_ge by lia.
  assert (Hsl : length (slice (p_flushed p) (p_alloc p) (p_buf p)) = (p_alloc p - p_flushed p)%nat) by (apply length_slice; lia).
  rewrite Hsl. replace (p_flushed p + (p_alloc p - p_flushed p))%nat with (p_alloc p) by lia.
  split; [|done]. split; cbn [set_page w_page w_dir w_segment w_closed w_faults w_compress p_alloc p_flushed p_buf]; try done.
  - eexists. rewrite lookup_insert_eq. split; [reflexivity|]. split.
    + rewrite length_app, Hsl, Nat2Z.inj_add, <-Zplus_mod_idemp_l, Hmod, Zplus_mod_idemp_l. f_equal. lia.
    + by rewrite slice_nil, app_nil_r.
  - by apply prev_insert.
  - apply dom_insert_active; [lia|done].
Qed.

Lemma zero_page_not_full w : w_page w = zero_page -> not_full w.
Proof. unfold not_full. intros ->. done. Qed.

(** A full segment of the page padded is a closed segment. *)
Lemma pad_aligned f : Z.of_nat (length f) mod pageSize = 0 -> pad_segment f = f.
Proof. intros H. unfold pad_segment. by rewrite pad_zeros_aligned, app_nil_r. Qed.

(** nextSegment closes the active segment between records. *)
Lemma nextSegment_I w first prev recs :
  walI t w first prev recs (0, []) ->
  exists w', nextSegment w = (Ok (w_segment w + 1), w') /\ walI t w' first (prev ++ [recs]) [] (0, []) /\ not_full w' /\
    p_flushed (w_page w') = p_alloc (w_page w').
Proof.
  intros HI. unfold nextSegment. rewrite (I_open _ _ _ _ _ _ HI). unfold st_bind.
  assert (Hfl : exists w1, (if (0 <? p_alloc (w_page w))%nat then flushPage true w else (Ok tt, w)) = (Ok tt, w1) /\
    walI t w1 first prev recs (0, []) /\ p_alloc (w_page w1) = 0%nat /\ w_segment w1 = w_segment w).
  { destruct (Nat.ltb_spec 0 (p_alloc (w_page w))).
    - destruct (flushPage_clear _ _ _ _ _ true HI eq_refl) as (w1 & -> & HI1 & Hz). exists w1. rewrite Hz.
      split_and!; try done. by rewrite (I_segment _ _ _ _ _ _ HI1), (I_segment _ _ _ _ _ _ HI).
    - exists w. split_and!; try done. lia. }
  destruct Hfl as (w1 & -> & HI1 & Ha & Hs). eexists. split; [rewrite <-Hs; reflexivity|].
  destruct HI1 as [Hlen Hfl Hal Hcl (file & Hfile & Hmod & Hps) Hseg Hprev Hdom Hop Hfa Hco Hsz].
  assert (Hnone : w_dir w1 !! (w_segment w1 + 1) = None).
  { destruct (w_dir w1 !! (w_segment w1 + 1)) eqn:E; [|done]. destruct (Hdom (w_segment w1 + 1)); [done|lia]. }
  assert (Hf0 : p_flushed (w_page w1) = 0%nat) by lia. rewrite Ha, Hf0, slice_nil, app_nil_r in Hps. rewrite Hf0 in Hmod.
  unfold CreateSegment. rewrite Hnone. split; [split|split]; cbn [setSegment set_dir w_page w_dir w_segment w_closed w_faults w_compress].
  1-4,9-12: done. 6: congruence.
  - exists []. rewrite lookup_insert_eq, Ha, Hf0, slice_nil. split_and!; [done|done|constructor].
  - rewrite length_app, Hseg. cbn [length]. lia.
  - intros j rs Hj. rewrite lookup_insert_ne by (apply lookup_lt_Some in Hj; rewrite length_app in Hj; cbn [length] in Hj; lia).
    apply lookup_app_Some in Hj as [Hj|[Hj1 Hj2]]; [by apply Hprev|].
    apply list_lookup_singleton_Some in Hj2 as [Hj2 <-]. exists file. rewrite <-Hfile. split; [f_equal; lia|].
    by rewrite pad_aligned.
  - intros k. destruct (decide (k = w_segment w1 + 1)) as [->|]; [lia|]. rewrite lookup_insert_ne by done.
    intros Hk. apply Hdom in Hk. lia.
  - unfold not_full, page_full, setSegment, set_dir. cbn [w_page]. rewrite Ha. done.
Qed.

(** ** Records *)

Lemma fragment_type_whole i : fragment_type i true = if i =? 0 then recFull else recLast.
Proof. unfold fragment_type. rewrite andb_true_r. by destruct (i =? 0). Qed.

Lemma fragment_type_part i : fragment_type i false = if i =? 0 then recFirst else recMiddle.
Proof. unfold fragment_type. by rewrite andb_false_r. Qed.

(** The stream of one fragment. *)
Lemma parses_whole p i c pre part rec :
  0 <= i -> c <> UnknownCompression -> Z.of_nat (length part) <= pageSize - recordHeaderSize ->
  compression_Decode c (pre ++ part) = Ok rec ->
  parses p (frag_bytes (fragment_type i true) c part) (i, pre) [rec] (0, []).
Proof.
  intros. rewrite <-(app_nil_r (frag_bytes _ _ _)). eapply parses_end; [apply fragment_type_whole|done..|constructor].
Qed.

Lemma parses_partial p i c pre part :
  0 <= i -> Z.of_nat (length part) <= pageSize - recordHeaderSize ->
  parses p (frag_bytes (fragment_type i false) c part) (i, pre) [] (i + 1, pre ++ part).
Proof.
  intros. rewrite <-(app_nil_r (frag_bytes _ _ _)). eapply parses_part; [apply fragment_type_part|done..|constructor].
Qed.

(** The flush of a full page between fragments. *)
Lemma flush_if_full w first prev recs s :
  walI t w first prev recs s ->
  exists w', (if page_full (w_page w) then flushPage true w else (Ok tt, w)) = (Ok tt, w') /\
    walI t w' first prev recs s /\ not_full w' /\ (page_full (w_page w) = true -> w_page w' = zero_page).
Proof.
  intros HI. destruct (page_full (w_page w)) eqn:E; [|by exists w].
  destruct (flushPage_clear _ _ _ _ _ true HI eq_refl) as (w' & -> & HI' & Hz). exists w'.
  split_and!; [done|done|by apply zero_page_not_full|done].
Qed.

Lemma not_full_room w : not_full w -> Z.of_nat (p_alloc (w_page w)) + recordHeaderSize <= pageSize.
Proof. unfold not_full, page_full. intros H%Z.ltb_ge. lia. Qed.

(** One turn of the loop: the fragment and the flush of the page it fills. *)
Lemma log_turn w first prev recs s i c enc recs1 s' :
  walI t w first prev recs s -> not_full w ->
  let part := take (part_length enc w) enc in
  (forall p, parses p (frag_bytes (fragment_type i (length part =? length enc)%nat) c part) s recs1 s') ->
  exists w', (let w1 := put_fragment i c enc part w in
              if page_full (w_page w1) then flushPage true w1 else (Ok tt, w1)) = (Ok tt, w') /\
    walI t w' first prev (recs ++ recs1) s' /\ not_full w' /\
    ((length part < length enc)%nat -> w_page w' = zero_page).
Proof.
  intros HI Hnf part Hp. pose proof (not_full_room w Hnf) as Hroom.
  assert (Hlp : Z.of_nat (length part) = Z.min (Z.of_nat (length enc)) (pageSize - Z.of_nat (p_alloc (w_page w)) - recordHeaderSize)).
  { subst part. rewrite length_take. unfold part_length. lia. }
  destruct (flush_if_full (put_fragment i c enc part w) first prev (recs ++ recs1) s') as (w' & Hw' & HI' & Hnf' & Hz).
  { eapply put_fragment_I; [exact HI|lia|exact Hp]. }
  exists w'. split_and!; [exact Hw'|done|done|]. intros Hlt. apply Hz. unfold page_full. rewrite put_fragment_page. cbn [p_alloc].
  pose proof (length_frag_bytes (fragment_type i (length part =? length enc)%nat) c part). apply Z.ltb_lt.
  unfold recordHeaderSize in *. lia.
Qed.

(** The loop writes the record [rec] in fragments; [pre] is the part of the
    encoded record already written. *)
Lemma log_loop_I c rec : c <> UnknownCompression -> forall fuel i enc pre w first prev recs,
  walI t w first prev recs (i, pre) -> not_full w -> 0 <= i -> (i <> 0 -> enc <> [] /\ w_page w = zero_page) ->
  compression_Decode c (pre ++ enc) = Ok rec -> (length enc + (if (i =? 0)%Z then 2 else 1) <= fuel)%nat ->
  exists w', log_loop fuel i c enc w = (Ok tt, w') /\ walI t w' first prev (recs ++ [rec]) (0, []) /\ not_full w'.
Proof.
  intros Hc. induction fuel as [|fuel IH]; intros i enc pre w first prev recs HI Hnf Hi Hne Hdec Hfuel; [case_match; lia|].
  cbn [log_loop]. replace ((i =? 0) || (0 <? length enc)%nat) with true.
  2: { destruct (Z.eqb_spec i 0) as [|Hi0]; [done|]. destruct (Hne Hi0) as [He _]. by destruct enc. }
  rewrite bool_decide_eq_false_2 by done. unfold st_bind. pose proof (not_full_room w Hnf) as Hroom.
  set (part := take (part_length enc w) enc).
  assert (Hlp : length part = part_length enc w) by (subst part; rewrite length_take; unfold part_length; lia).
  assert (Hsm : Z.of_nat (length part) <= pageSize - recordHeaderSize) by (rewrite Hlp; unfold part_length; lia).
  destruct (decide (length part = length enc)) as [Hw|Hw].
  - assert (Hpe : part = enc) by (subst part; apply take_ge; lia).
    destruct (log_turn w first prev recs (i, pre) i c enc [rec] (0, []) HI Hnf) as (w' & Hturn & HI' & Hnf' & _).
    { intros p. fold part. rewrite Hw, Nat.eqb_refl. apply parses_whole; [done..|by rewrite Hpe]. }
    cbv zeta in Hturn. fold part in Hturn. rewrite Hturn. exists w'.
    rewrite drop_ge by lia. destruct fuel as [|fuel]; [destruct (Z.eqb_spec i 0) as [|Hi0]; [lia|]|].
    { destruct (Hne Hi0) as [He _]. by destruct enc; simpl in *; [|lia]. }
    cbn [log_loop length].
    replace (i + 1 =? 0) with false by lia. done.
  - assert (Hlt : (length part < length enc)%nat) by (subst part; rewrite length_take in *; lia).
    destruct (log_turn w first prev recs (i, pre) i c enc [] (i + 1, pre ++ part) HI Hnf) as (w' & Hturn & HI' & Hnf' & Hz).
    { intros p. fold part. rewrite (proj2 (Nat.eqb_neq _ _) Hw). by apply parses_partial. }
    cbv zeta in Hturn. fold part in Hturn. rewrite Hturn. rewrite app_nil_r in HI'.
    apply (IH _ _ (pre ++ part)); [done|done|lia| | |].
    + intros _. split; [|by apply Hz]. intros Hnil. apply (f_equal length) in Hnil. rewrite length_drop in Hnil. simpl in Hnil. lia.
    + subst part. by rewrite <-app_assoc, take_drop.
    + rewrite length_drop. replace (i + 1 =? 0) with false by lia. destruct (Z.eqb_spec i 0) as [|Hi0]; [lia|].
      destruct (Hne Hi0) as [_ Hzp]. assert (1 <= part_length enc w)%nat; [|lia].
      unfold part_length. rewrite Hzp. cbn [p_alloc zero_page]. unfold pageSize, recordHeaderSize. lia.
Qed.

(** What is written for a record decodes to it. *)
Lemma encode_record_ok `{!CodecLaws C} rec enc c :
  t <> UnknownCompression -> encode_record t rec = Ok (enc, c) -> c <> UnknownCompression /\ compression_Decode c enc = Ok rec.
Proof.
  intros Ht. unfold encode_record. destruct (compression_Encode t rec) as [e|] eqn:E; [|done].
  case_bool_decide as Hn; [|case_match].
  - intros [= <- <-]. split; [done|]. by eapply compression_roundtrip.
  - intros [= <- <-]. split; [done|]. apply compression_Decode_none.
  - intros [= <- <-]. split; [done|]. by eapply compression_roundtrip.
Qed.

(** Records the codec accepts. *)
Definition encodable (rec : list Z) : Prop := exists e, encode_record t rec = Ok e.

(** One record: it goes behind the records of the active segment or into a
    new one. *)
Lemma log_record_I `{!CodecLaws C} rec final w first prev recs :
  t <> UnknownCompression -> walI t w first prev recs (0, []) -> not_full w -> encodable rec ->
  exists w' prev' recs', log_record rec final w = (Ok tt, w') /\ walI t w' first prev' recs' (0, []) /\ not_full w' /\
    concat prev' ++ recs' = concat prev ++ recs ++ [rec] /\
    (final = true -> p_flushed (w_page w') = p_alloc (w_page w')).
Proof.
  intros Ht HI Hnf [[enc c] Henc]. unfold log_record, st_bind. rewrite Hnf, (I_compress _ _ _ _ _ _ HI), Henc.
  destruct (encode_record_ok rec enc c Ht Henc) as [Hc Hdec].
  assert (Hseg : exists w1 prev1 recs1,
    (if space_left w <? Z.of_nat (length enc) then match nextSegment w with (Ok _, s') => st_ret tt s' | (Err e, s') => (Err e, s') end
     else (Ok tt, w)) = (Ok tt, w1) /\ walI t w1 first prev1 recs1 (0, []) /\ not_full w1 /\ concat prev1 ++ recs1 = concat prev ++ recs).
  { destruct (space_left w <? _).
    - destruct (nextSegment_I w first prev recs HI) as (w1 & -> & HI1 & Hnf1 & _). exists w1, (prev ++ [recs]), [].
      split_and!; try done. by rewrite concat_app, concat_cons, !app_nil_r.
    - by exists w, prev, recs. }
  destruct Hseg as (w1 & prev1 & recs1 & -> & HI1 & Hnf1 & Hcat).
  destruct (log_loop_I c rec Hc (S (S (length enc))) 0 enc [] w1 first prev1 recs1) as (w2 & -> & HI2 & Hnf2); [done..|cbn; lia|].
  assert (Hcat2 : concat prev1 ++ recs1 ++ [rec] = concat prev ++ recs ++ [rec]) by (by rewrite !app_assoc, Hcat).
  destruct final; cbn [andb].
  - destruct (Nat.ltb_spec 0 (p_alloc (w_page w2))) as [Hpos|Hz].
    + destruct (flushPage_keep w2 _ _ _ _ HI2 Hnf2) as (w3 & -> & HI3 & Hnf3 & Hfl). by exists w3, prev1, (recs1 ++ [rec]).
    + exists w2, prev1, (recs1 ++ [rec]). split_and!; try done. intros _. pose proof (I_flushed _ _ _ _ _ _ HI2). lia.
  - by exists w2, prev1, (recs1 ++ [rec]).
Qed.

(** A batch: afterwards everything is in the files. *)
Lemma Log_I `{!CodecLaws C} batch : t <> UnknownCompression -> forall w first prev recs,
  walI t w first prev recs (0, []) -> not_full w -> p_flushed (w_page w) = p_alloc (w_page w) -> Forall encodable batch ->
  exists w' prev' recs', Log batch w = (Ok tt, w') /\ walI t w' first prev' recs' (0, []) /\ not_full w' /\
    concat prev' ++ recs' = concat prev ++ recs ++ batch /\ p_flushed (w_page w') = p_alloc (w_page w').
Proof.
  intros Ht. assert (Hgen : forall w first prev recs, walI t w first prev recs (0, []) -> not_full w ->
    (batch = [] -> p_flushed (w_page w) = p_alloc (w_page w)) -> Forall encodable batch ->
    exists w' prev' recs', Log batch w = (Ok tt, w') /\ walI t w' first prev' recs' (0, []) /\ not_full w' /\
    concat prev' ++ recs' = concat prev ++ recs ++ batch /\ p_flushed (w_page w') = p_alloc (w_page w')).
  2: { intros. by apply Hgen. }
  induction batch as [|r batch IH]; intros w first prev recs HI Hnf Hfl Henc.
  { exists w, prev, recs. rewrite app_nil_r. split_and!; auto. }
  apply Forall_cons in Henc as [Hr Henc]. cbn [Log]. unfold st_bind.
  destruct (log_record_I r (match batch with [] => true | _ => false end) w first prev recs Ht HI Hnf Hr)
    as (w1 & prev1 & recs1 & -> & HI1 & Hnf1 & Hcat & Hf1).
  destruct (IH w1 first prev1 recs1 HI1 Hnf1) as (w2 & prev2 & recs2 & -> & HI2 & Hnf2 & Hcat2 & Hf2); [|done|].
  { intros ->. by apply Hf1. }
  exists w2, prev2, recs2. split_and!; try done. rewrite Hcat2, app_assoc, Hcat, <-!app_assoc. done.
Qed.
End Invariant.

(** ** Listing the segments *)

Lemma seqZ_sorted m n : StronglySorted Z.le (seqZ m (Z.of_nat n)).
Proof.
  revert m. induction n as [|n IH]; intros m; [constructor|]. rewrite seqZ_cons by lia. constructor.
  - replace (Z.pred (Z.of_nat (S n))) with (Z.of_nat n) by lia. apply IH.
  - apply Forall_seqZ. lia.
Qed.

Lemma segment_indices_range (d : gmap Z (list Z)) first n :
  (forall k, is_Some (d !! k) <-> first <= k < first + Z.of_nat n) -> segment_indices d = seqZ first (Z.of_nat n).
Proof.
  intros Hd. unfold segment_indices. apply (StronglySorted_unique Z.le).
  - apply StronglySorted_merge_sort; apply _.
  - apply seqZ_sorted.
  - etrans; [apply merge_sort_Permutation|]. apply NoDup_Permutation; [apply NoDup_fst_map_to_list|apply NoDup_seqZ|].
    intros k. rewrite elem_of_seqZ, <-Hd, list_elem_of_fmap. split.
    + intros ([k' f] & -> & Hk). apply elem_of_map_to_list in Hk. by eexists.
    + intros [f Hf]. exists (k, f). split; [done|]. by apply elem_of_map_to_list.
Qed.

Lemma sequential_seqZ n : forall m, sequential (seqZ m (Z.of_nat n)) = true.
Proof.
  induction n as [|n IH]; intros m; [done|]. rewrite seqZ_cons by lia.
  replace (Z.pred (Z.of_nat (S n))) with (Z.of_nat n) by lia. specialize (IH (Z.succ m)).
  destruct n as [|n]; [done|]. rewrite seqZ_cons in * by lia. cbn [sequential] in *. rewrite IH, andb_true_r. apply Z.eqb_eq. lia.
Qed.

Lemma listSegments_range (d : gmap Z (list Z)) first n :
  (forall k, is_Some (d !! k) <-> first <= k < first + Z.of_nat n) -> listSegments d = Ok (seqZ first (Z.of_nat n)).
Proof. intros Hd. unfold listSegments. by rewrite (segment_indices_range d first n Hd), sequential_seqZ. Qed.

(** ** Between calls *)

Section Between.
  Context `{C : Codec} (t : CompressionType).

(** The state between calls of Log: everything is in the files.  [segs] are the
    records of the segments [first], [first + 1], ... *)
Definition wal_at_rest (w : WL) (first : Z) (segs : list (list (list Z))) : Prop :=
  exists prev recs, segs = prev ++ [recs] /\ walI t w first prev recs (0, []) /\ not_full w /\
    p_flushed (w_page w) = p_alloc (w_page w) /\ 0 <= first.

(** Every file, padded, is a stream of its records. *)
Lemma at_rest_files w first segs :
  wal_at_rest w first segs ->
  (forall k, is_Some (w_dir w !! k) <-> first <= k < first + Z.of_nat (length segs)) /\
  forall j rs, segs !! j = Some rs -> exists f, w_dir w !! (first + Z.of_nat j) = Some f /\
    parses 0 (pad_segment f) (0, []) rs (0, []).
Proof.
  intros (prev & recs & -> & HI & _ & Hfl & _). rewrite length_app. cbn [length].
  destruct HI as [Hlen _ Hal Hcl (file & Hfile & Hmod & Hps) Hseg Hprev Hdom Hop Hfa Hco Hsz].
  assert (Hall : forall j rs, (prev ++ [recs]) !! j = Some rs -> exists f, w_dir w !! (first + Z.of_nat j) = Some f /\
    parses 0 (pad_segment f) (0, []) rs (0, [])).
  { intros j rs Hj. apply lookup_app_Some in Hj as [Hj|[Hj1 Hj2]]; [by apply Hprev|].
    apply list_lookup_singleton_Some in Hj2 as [Hj2 <-]. exists file. rewrite <-Hfile. split; [f_equal; lia|].
    rewrite Hfl, slice_nil, app_nil_r in Hps. unfold pad_segment. rewrite <-(app_nil_r recs).
    eapply parses_app; [exact Hps|]. unfold pad_zeros. set (q := Z.of_nat (length file)).
    assert (Hp : 0 < pageSize) by done. pose proof (Z.mod_pos_bound (- q) pageSize Hp) as Hb.
    destruct (Z.to_nat ((- q) mod pageSize)) as [|k] eqn:Ek; [constructor|]. rewrite <-(app_nil_r (replicate _ _)).
    apply parses_pad; [lia|lia| |constructor]. replace (Z.of_nat (S k)) with ((- q) mod pageSize) by lia.
    rewrite Z.add_0_l, Zplus_mod_idemp_r. by rewrite Z.add_opp_diag_r. }
  split; [|done]. intros k. split.
  - intros Hk. apply Hdom in Hk. lia.
  - intros Hk. destruct (lookup_lt_is_Some_2 (prev ++ [recs]) (Z.to_nat (k - first))) as [rs Hrs].
    { rewrite length_app. cbn [length]. lia. }
    destruct (Hall _ _ Hrs) as (f & Hf & _). exists f. rewrite <-Hf. f_equal. lia.
Qed.

(** Streams of whole pages follow one another. *)
Lemma pad_segment_aligned f : Z.of_nat (length (pad_segment f)) mod pageSize = 0.
Proof.
  unfold pad_segment, pad_zeros. rewrite length_app, length_replicate, Nat2Z.inj_add.
  pose proof (Z.mod_pos_bound (- Z.of_nat (length f)) pageSize ltac:(done)).
  rewrite Z2Nat.id, Zplus_mod_idemp_r by lia. by rewrite Z.add_opp_diag_r.
Qed.

Lemma parses_files (files : list (list Z)) (segs : list (list (list Z))) p :
  p mod pageSize = 0 -> Forall2 (fun f rs => parses 0 (pad_segment f) (0, []) rs (0, [])) files segs ->
  parses p (concat (map pad_segment files)) (0, []) (concat segs) (0, []).
Proof.
  intros Hp HF. revert p Hp. induction HF as [|f rs files segs Hf _ IH]; intros p Hp; cbn [map concat]; [constructor|].
  eapply parses_app; [eapply parses_shift, Hf; by rewrite Hp|]. apply IH.
  by rewrite <-Zplus_mod_idemp_l, Hp, Z.add_0_l, pad_segment_aligned.
Qed.

(** Reading the segments from [from] on. *)
Lemma read_range w first segs from :
  wal_at_rest w first segs -> first <= from <= first + Z.of_nat (length segs) ->
  exists rd, NewSegmentsRangeReader (w_dir w) from (-1) = Ok rd /\
    read_all rd = (concat (drop (Z.to_nat (from - first)) segs), None).
Proof.
  intros Hr Hfrom. destruct (at_rest_files w first segs Hr) as [Hdom Hfiles]. destruct Hr as (_ & _ & _ & _ & _ & _ & H0).
  unfold NewSegmentsRangeReader. rewrite (listSegments_range _ _ _ Hdom). eexists. split; [reflexivity|].
  apply read_all_parses. change (io_rest (NewSegmentBufReader ?l)) with (sbr_rest (NewSegmentBufReader l)).
  rewrite NewSegmentBufReader_rest. apply parses_files; [done|].
  set (n := Z.to_nat (from - first)). replace (Z.of_nat (length segs)) with (Z.of_nat n + Z.of_nat (length segs - n)) by lia.
  rewrite seqZ_app by lia. rewrite filter_app, filter_none, filter_all.
  - cbn [app]. apply Forall2_same_length_lookup_2; [by rewrite length_map, length_seqZ, length_drop; lia|].
    intros j f rs Hj Hrs. rewrite lookup_drop in Hrs. rewrite list_lookup_fmap in Hj. apply fmap_Some in Hj as (k & Hk & ->).
    apply lookup_seqZ in Hk as [-> Hk]. destruct (Hfiles _ _ Hrs) as (f & Hf & Hps).
    replace (first + Z.of_nat n + Z.of_nat j) with (first + Z.of_nat (n + j)) by lia. by rewrite Hf.
  - apply Forall_seqZ. lia.
  - apply Forall_seqZ. lia.
Qed.

Lemma read_segments w first segs :
  wal_at_rest w first segs ->
  exists rd, NewSegmentsReader (w_dir w) = Ok rd /\ read_all rd = (concat segs, None).
Proof.
  intros Hr. pose proof Hr as (prev & recs & Hs & _ & _ & _ & H0).
  destruct (read_range w first segs first Hr) as (rd & Hrd & Hall); [lia|]. rewrite Z.sub_diag in Hall. exists rd.
  split; [|exact Hall]. rewrite <-Hrd. unfold NewSegmentsReader, NewSegmentsRangeReader.
  rewrite (listSegments_range _ _ _ (proj1 (at_rest_files w first segs Hr))). do 3 f_equal.
  rewrite !filter_all; [done|apply Forall_seqZ; lia..].
Qed.

Lemma setSegment_fresh (d : gmap Z (list Z)) size k prev first :
  d !! k = None -> (forall j rs, prev !! j = Some rs -> exists f, d !! (first + Z.of_nat j) = Some f /\
    parses 0 (pad_segment f) (0, []) rs (0, [])) ->
  (forall j, is_Some (d !! j) -> first <= j < k) -> k = first + Z.of_nat (length prev) -> 0 <= first -> size mod pageSize = 0 ->
  wal_at_rest (setSegment k (mk_WL (CreateSegment k d) size 0 0 zero_page false t [])) first (prev ++ [[]]).
Proof.
  intros Hk Hprev Hdom -> H0 Hsz. exists prev, []. split_and!; [done| |done|done|done]. unfold CreateSegment. rewrite Hk.
  split; cbn [setSegment w_page w_dir w_segment w_closed w_faults w_compress]; [apply zero_page_len|done| |apply zero_page_clean| |done| | |done..].
  - cbn [p_alloc zero_page]. pose proof pageSize_pos. unfold recordHeaderSize in *. lia.
  - exists []. rewrite lookup_insert_eq. split_and!; [done|done|]. cbn [p_flushed p_alloc zero_page]. rewrite slice_nil. constructor.
  - by apply prev_insert.
  - apply dom_insert_active; [lia|]. intros j Hj. apply Hdom in Hj. lia.
Qed.

(** A new log in an empty directory. *)
Lemma NewSize_empty size : size mod pageSize = 0 ->
  exists w, NewSize ∅ size t [] = Ok w /\ wal_at_rest w 0 [[]].
Proof.
  intros Hs. unfold NewSize. rewrite Hs. eexists. split; [reflexivity|]. apply (setSegment_fresh ∅ size 0 [] 0); try done.
  intros j [f Hf]. done.
Qed.

(** Opening a log over the files of another starts a new segment. *)
Lemma NewSize_reopen w first segs size : size mod pageSize = 0 -> wal_at_rest w first segs ->
  exists w', NewSize (w_dir w) size t [] = Ok w' /\ wal_at_rest w' first (segs ++ [[]]).
Proof.
  intros Hs Hr. destruct (at_rest_files w first segs Hr) as [Hdom Hfiles].
  destruct Hr as (prev & recs & Hsegs & HI & _ & _ & H0).
  unfold NewSize, Segments. rewrite Hs, (listSegments_range _ _ _ Hdom). cbn [negb Z.eqb].
  assert (Hlast : exists l, seqZ first (Z.of_nat (length segs)) = l ++ [first + Z.of_nat (length segs) - 1]).
  { destruct (length segs) as [|n] eqn:E; [rewrite Hsegs, length_app in E; simpl in E; lia|].
    exists (seqZ first (Z.of_nat n)). rewrite seqZ_S. do 2 f_equal. lia. }
  destruct Hlast as [l Hl]. rewrite Hl. destruct (l ++ _) as [|r refs] eqn:E; [by destruct l|].
  rewrite <-E, List.last_last. assert (Hpos : (0 < length segs)%nat) by (rewrite Hsegs, length_app; simpl; lia).
  replace (first + Z.of_nat (length segs) - 1 =? -1) with false by lia. cbn [negb].
  eexists. split; [reflexivity|]. replace (first + Z.of_nat (length segs) - 1 + 1) with (first + Z.of_nat (length segs)) by lia.
  apply setSegment_fresh; try done.
  - destruct (w_dir w !! _) eqn:E'; [|done]. destruct (proj1 (Hdom (first + Z.of_nat (length segs)))); [by eexists|lia].
  - intros j Hj. by apply Hdom.
Qed.

Lemma NextSegment_at_rest w first segs : wal_at_rest w first segs ->
  exists k w', nextSegment w = (Ok k, w') /\ wal_at_rest w' first (segs ++ [[]]).
Proof.
  intros (prev & recs & -> & HI & _ & _ & H0). destruct (nextSegment_I t w first prev recs HI) as (w' & Hw & HI' & Hnf & Hfl).
  exists (w_segment w + 1), w'. split; [done|]. by exists (prev ++ [recs]), [].
Qed.

Lemma Log_at_rest `{!CodecLaws C} batch w first segs :
  t <> UnknownCompression -> wal_at_rest w first segs -> Forall (encodable t) batch ->
  exists w' segs', Log batch w = (Ok tt, w') /\ wal_at_rest w' first segs' /\ concat segs' = concat segs ++ batch.
Proof.
  intros Ht (prev & recs & -> & HI & Hnf & Hfl & H0) Henc.
  destruct (Log_I t batch Ht w first prev recs HI Hnf Hfl Henc) as (w' & prev' & recs' & Hlog & HI' & Hnf' & Hcat & Hfl').
  exists w', (prev' ++ [recs']). split_and!; [done|by exists prev', recs'|].
  rewrite !concat_app, !concat_cons, !app_nil_r, Hcat. by rewrite <-app_assoc.
Qed.

(** Truncating below the active segment drops whole segments. *)
Lemma foldl_delete_lookup (d : gmap Z (list Z)) ks k :
  foldl (fun d k => delete k d) d ks !! k = if decide (k ∈ ks) then None else d !! k.
Proof.
  revert d. induction ks as [|x ks IH]; intros d; cbn [foldl]; [by rewrite decide_False by set_solver|].
  rewrite IH. destruct (decide (k = x)) as [->|Hne].
  - rewrite (decide_True _ _ (list_elem_of_here x ks)), lookup_delete_eq. by destruct (decide _).
  - rewrite lookup_delete_ne by done. repeat case_decide; set_solver.
Qed.

Lemma Truncate_at_rest w first segs i :
  wal_at_rest w first segs -> first <= i <= w_segment w ->
  exists w', Truncate i w = (Ok tt, w') /\ wal_at_rest w' i (drop (Z.to_nat (i - first)) segs).
Proof.
  intros Hr Hi. destruct (at_rest_files w first segs Hr) as [Hdom _].
  unfold Truncate. rewrite (listSegments_range _ _ _ Hdom). eexists. split; [reflexivity|].
  destruct Hr as (prev & recs & Hsegs & HI & Hnf & Hfl & H0). destruct HI as [Hlen Hfl' Hal Hcl Hact Hseg Hprev Hdom' Hop Hfa Hco Hsz].
  set (ks := filter _ _). set (n := Z.to_nat (i - first)).
  assert (Hks : forall k, is_Some (w_dir w !! k) -> k ∈ ks <-> k < i).
  { intros k Hk. unfold ks. rewrite list_elem_of_filter, elem_of_seqZ. apply Hdom in Hk. lia. }
  assert (Hlk : forall k, i <= k -> foldl (fun d k => delete k d) (w_dir w) ks !! k = w_dir w !! k).
  { intros k Hk. rewrite foldl_delete_lookup. case_decide as Hin; [|done]. unfold ks in Hin.
    apply list_elem_of_filter in Hin as [Hlt _]. lia. }
  exists (drop n prev), recs. assert (Hn : (n <= length prev)%nat) by lia. split_and!; try done; [|split|lia].
  { by rewrite Hsegs, drop_app_le by lia. }
  all: cbn [set_dir w_page w_dir w_segment w_closed w_faults w_compress]; try done.
  - destruct Hact as (file & Hfile & Hrest). exists file. rewrite Hlk by lia. done.
  - rewrite length_drop. lia.
  - intros j rs Hj. rewrite lookup_drop in Hj. destruct (Hprev _ _ Hj) as (f & Hf & Hps). exists f. split; [|done].
    rewrite Hlk by lia. rewrite <-Hf. f_equal. lia.
  - intros k Hk. destruct (decide (k < i)) as [Hlt|Hge]; [|rewrite Hlk in Hk by lia; apply Hdom' in Hk; lia].
    exfalso. rewrite foldl_delete_lookup in Hk. case_decide as Hin; [by destruct Hk|]. by apply Hin, Hks.
Qed.
End Between.

(** ** Sequences of calls *)

(** OpReopen is a restart: a new log over the files. *)
Inductive wal_op :=
  | OpLog (batch : list (list Z))
  | OpNextSegment
  | OpReopen.

Definition wal_step `{Codec} (op : wal_op) : st WL unit :=
  match op with
  | OpLog batch => Log batch
  | OpNextSegment => nextSegment ;;; st_ret tt
  | OpReopen => fun w =>
      match NewSize (w_dir w) (w_segmentSize w) (w_compress w) (w_faults w) with
      | Ok w' => (Ok tt, w')
      | Err e => (Err e, w)
      end
  end.

Fixpoint wal_run `{Codec} (ops : list wal_op) : st WL unit :=
  match ops with [] => st_ret tt | op :: ops' => wal_step op ;;; wal_run ops' end.

(** The records a sequence of calls logs. *)
Definition logged (ops : list wal_op) : list (list Z) :=
  concat (map (fun op => match op with OpLog batch => batch | _ => [] end) ops).

Section Runs.
  Context `{C : Codec} `{!CodecLaws C} (t : CompressionType).

Lemma encodable_small rec :
  t <> UnknownCompression -> snappy_too_large (length rec) = false -> encodable t rec.
Proof.
  intros Ht Hs. unfold encodable, encode_record, compression_Encode.
  destruct rec as [|x rec], t; try done; try (eexists; reflexivity); rewrite ?Hs; case_bool_decide; try done;
    (case_match; by eexists).
Qed.

Lemma wal_step_at_rest op w first segs :
  t <> UnknownCompression -> wal_at_rest t w first segs -> Forall (encodable t) (logged [op]) ->
  exists w' segs', wal_step op w = (Ok tt, w') /\ wal_at_rest t w' first segs' /\ concat segs' = concat segs ++ logged [op].
Proof.
  intros Ht Hr Henc. assert (Hnew : concat (segs ++ [[]]) = concat segs ++ []) by (by rewrite concat_app).
  destruct op as [batch| |]; unfold logged in *; cbn [map concat] in *; rewrite ?app_nil_r in *.
  - by apply (Log_at_rest t).
  - destruct (NextSegment_at_rest t w first segs Hr) as (k & w' & Hk & Hr'). exists w', (segs ++ [[]]).
    cbn [wal_step]. unfold st_bind. by rewrite Hk.
  - pose proof Hr as (prev & recs & _ & HI & _). cbn [wal_step]. destruct HI as [_ _ _ _ _ _ _ _ _ -> -> Hsz].
    destruct (NewSize_reopen t w first segs _ Hsz Hr) as (w' & -> & Hr'). by exists w', (segs ++ [[]]).
Qed.

Lemma wal_run_at_rest ops : t <> UnknownCompression -> forall w first segs,
  wal_at_rest t w first segs -> Forall (encodable t) (logged ops) ->
  exists w' segs', wal_run ops w = (Ok tt, w') /\ wal_at_rest t w' first segs' /\ concat segs' = concat segs ++ logged ops.
Proof.
  intros Ht. induction ops as [|op ops IH]; intros w first segs Hr Henc.
  { exists w, segs. by rewrite app_nil_r. }
  assert (Hl : logged (op :: ops) = logged [op] ++ logged ops) by (unfold logged; cbn [map concat]; by rewrite app_nil_r).
  rewrite Hl in *. apply Forall_app in Henc as [H1 H2].
  destruct (wal_step_at_rest op w first segs Ht Hr H1) as (w1 & segs1 & Hs1 & Hr1 & Hc1).
  destruct (IH w1 first segs1 Hr1 H2) as (w2 & segs2 & Hs2 & Hr2 & Hc2). exists w2, segs2.
  cbn [wal_run]. unfold st_bind. rewrite Hs1, Hs2. split_and!; [done|done|]. by rewrite Hc2, Hc1, <-app_assoc.
Qed.

Lemma wal_start ops size :
  t <> UnknownCompression -> size mod pageSize = 0 ->
  Forall (fun rec => snappy_too_large (length rec) = false) (logged ops) ->
  exists w0 w segs, NewSize ∅ size t [] = Ok w0 /\ wal_run ops w0 = (Ok tt, w) /\ wal_at_rest t w 0 segs /\
    concat segs = logged ops.
Proof.
  intros Ht Hs Hsm. destruct (NewSize_empty t size Hs) as (w0 & Hw0 & Hr0).
  destruct (wal_run_at_rest ops Ht w0 0 [[]] Hr0) as (w & segs & Hrun & Hr & Hc).
  { eapply Forall_impl; [exact Hsm|]. intros rec. by apply encodable_small. }
  by exists w0, w, segs.
Qed.
End Runs.

(** ** Properties *)

(** C2: whatever is logged is read back.  Any sequence of batches, segment
    changes and restarts on a fresh log succeeds, and a reader over the segment
    files then returns exactly the records in the order they were logged and
    ends without an error: records split over pages and segments, compressed or
    not, empty or larger than a page, and pages padded with zeros included. *)
Theorem wal_roundtrip (C : Codec) (t : CompressionType) (size : Z) (ops : list wal_op) :
  CodecLaws C -> t <> UnknownCompression -> size mod pageSize = 0 ->
  Forall (fun rec => snappy_too_large (length rec) = false) (logged ops) ->
  exists w0 w rd, NewSize ∅ size t [] = Ok w0 /\ wal_run ops w0 = (Ok tt, w) /\
    NewSegmentsReader (w_dir w) = Ok rd /\ read_all rd = (logged ops, None).
Proof.
  intros HC Ht Hs Hsm. destruct (wal_start t ops size Ht Hs Hsm) as (w0 & w & segs & Hw0 & Hrun & Hr & Hc).
  destruct (read_segments t w 0 segs Hr) as (rd & Hrd & Hall). rewrite Hc in Hall. by exists w0, w, rd.
Qed.

Lemma wal_roundtrip_witness :
  let ops := [OpLog [[1; 2]; replicate 100 7; []]; OpReopen; OpLog [[5]]; OpNextSegment; OpLog [[1]; [2; 2; 2; 2]]] in
  exists w0 w rd, NewSize ∅ (4 * pageSize) Snappy [] = Ok w0 /\ wal_run (H := rle_Codec) ops w0 = (Ok tt, w) /\
    NewSegmentsReader (w_dir w) = Ok rd /\ read_all (H0 := rle_Codec) rd = (logged ops, None).
Proof.
  apply (wal_roundtrip rle_Codec Snappy (4 * pageSize)); [apply _|done|done|]. repeat constructor.
Defined.

(** Truncating the log before a segment that still exists removes exactly
    what was logged in the segments before it: reading the truncated log gives
    what reading the old one from that segment on gave, which is a suffix of
    the records logged. *)
Theorem wal_truncate_suffix (C : Codec) (t : CompressionType) (size : Z) (ops : list wal_op) (i : Z) (w0 w : WL) :
  CodecLaws C -> t <> UnknownCompression -> size mod pageSize = 0 ->
  Forall (fun rec => snappy_too_large (length rec) = false) (logged ops) ->
  NewSize ∅ size t [] = Ok w0 -> wal_run ops w0 = (Ok tt, w) -> 0 <= i <= w_segment w ->
  exists w' rd rd' dropped kept,
    Truncate i w = (Ok tt, w') /\
    NewSegmentsRangeReader (w_dir w) i (-1) = Ok rd /\ read_all rd = (kept, None) /\
    NewSegmentsReader (w_dir w') = Ok rd' /\ read_all rd' = (kept, None) /\ logged ops = dropped ++ kept.
Proof.
  intros HC Ht Hs Hsm Hw0 Hrun Hi. destruct (wal_start t ops size Ht Hs Hsm) as (? & ? & segs & E0 & E1 & Hr & Hc).
  rewrite Hw0 in E0. injection E0 as <-. rewrite Hrun in E1. injection E1 as <-.
  assert (Hle : w_segment w < Z.of_nat (length segs)).
  { destruct Hr as (prev & recs & -> & HI & _). rewrite (I_segment _ _ _ _ _ _ HI), length_app. cbn [length]. lia. }
  destruct (Truncate_at_rest t w 0 segs i Hr Hi) as (w' & Hw' & Hr').
  destruct (read_range t w 0 segs i Hr) as (rd & Hrd & Hall); [lia|].
  destruct (read_segments t w' _ _ Hr') as (rd' & Hrd' & Hall').
  exists w', rd, rd', (concat (take (Z.to_nat (i - 0)) segs)), (concat (drop (Z.to_nat (i - 0)) segs)).
  split_and!; try done. by rewrite <-concat_app, take_drop.
Qed.

(** Two segments with one and two records. *)
Definition example_ops : list wal_op := [OpLog [[1; 2]]; OpNextSegment; OpLog [[1]; [2; 2; 2; 2]]].

Definition example_log : WL :=
  setSegment 0 (mk_WL (CreateSegment 0 ∅) (4 * pageSize) 0 0 zero_page false NoCompression []).

Lemma run_ok {A} (x : result unit * A) : x.1 = Ok tt -> x = (Ok tt, x.2).
Proof. destruct x. cbn. by intros ->. Qed.

Lemma wal_truncate_suffix_witness :
  let w := (wal_run (H := rle_Codec) example_ops example_log).2 in
  exists w' rd rd' dropped kept,
    Truncate 1 w = (Ok tt, w') /\
    NewSegmentsRangeReader (w_dir w) 1 (-1) = Ok rd /\ read_all (H0 := rle_Codec) rd = (kept, None) /\
    NewSegmentsReader (w_dir w') = Ok rd' /\ read_all (H0 := rle_Codec) rd' = (kept, None) /\
    logged example_ops = dropped ++ kept.
Proof.
  apply (wal_truncate_suffix rle_Codec NoCompression (4 * pageSize) example_ops 1 example_log).
  - apply _.
  - done.
  - done.
  - repeat constructor.
  - reflexivity.
  - apply run_ok. vm_compute. reflexivity.
  - vm_compute. split; discriminate.
Defined.

(** A record larger than a page, in a one-page segment that already holds
    another record: it starts a new segment, is split in two fragments, and
    comes back whole. *)
Example wal_split_record :
  match NewSize ∅ pageSize NoCompression [] with
  | Ok w =>
      match Log (H := rle_Codec) [[1; 2; 3]; replicate 33000 5] w with
      | (Ok _, w) =>
          (w_segment w =? 1) &&
          match NewSegmentsReader (w_dir w) with
          | Ok rd => bool_decide (read_all (H0 := rle_Codec) rd = ([[1; 2; 3]; replicate 33000 5], None))
          | Err _ => false
          end
      | _ => false
      end
  | Err _ => false
  end = true.
Proof. vm_compute. reflexivity. Qed.
