(* ===== verification/Float64.v ===== *)
(** float64 where the program computes with it: IEEE 754 binary64 from the
    Standard Library's specification of floating-point numbers, its bit
    patterns (math.Float64bits, math.Float64frombits) and conversions. *)
From Stdlib Require Export SpecFloat.
From S2P Require Import Prelude.

Definition f64_of_int (n : Z) : spec_float := binary_normalize 53 1024 n 0 false.
Definition f64_div : spec_float -> spec_float -> spec_float := SFdiv 53 1024.
Definition f64_mul : spec_float -> spec_float -> spec_float := SFmul 53 1024.
Definition f64_add : spec_float -> spec_float -> spec_float := SFadd 53 1024.

(** math.Floor; shifting right rounds towards minus infinity. *)
Definition f64_floor (x : spec_float) : spec_float :=
  match x with
  | S754_finite s m (Zneg e) =>
      match Z.shiftr (if s then Zneg m else Zpos m) (Zpos e) with
      | Z0 => S754_zero s
      | v => f64_of_int v
      end
  | _ => x
  end.

(** int64(x) for a float64: truncation; out of range is implementation-defined
    and taken as the least int64. *)
Definition int64_of_f64 (x : spec_float) : Z :=
  match x with
  | S754_finite s m e =>
      let v := match e with Z0 => Zpos m | Zpos _ => Z.shiftl (Zpos m) e | Zneg _ => Z.shiftr (Zpos m) (- e) end in
      let v := if s then - v else v in
      if (MinInt64 <=? v) && (v <=? MaxInt64) then v else MinInt64
  | S754_zero _ => 0
  | _ => MinInt64
  end.

Definition sign_bit (s : bool) : Z := if s then 2 ^ 63 else 0.

(** math.Float64frombits: the fraction is the low 52 bits, the exponent the 11
    bits above it. *)
Definition f64_of_bits (b : Z) : spec_float :=
  let s := Z.testbit b 63 in
  let e := Z.land (Z.shiftr b 52) 0x7ff in
  let m := Z.land b (2 ^ 52 - 1) in
  if e =? 0x7ff then (if m =? 0 then S754_infinity s else S754_nan)
  else if e =? 0 then match m with Zpos p => S754_finite s p (-1074) | _ => S754_zero s end
  else S754_finite s (Z.to_pos (m + 2 ^ 52)) (e - 1075).

(** math.Float64bits; Go's quiet NaN for the one NaN of the specification. *)
Definition bits_of_f64 (x : spec_float) : Z :=
  match x with
  | S754_zero s => sign_bit s
  | S754_infinity s => sign_bit s + 0x7ff * 2 ^ 52
  | S754_nan => 0x7ff8000000000001
  | S754_finite s m e => sign_bit s + (if Zpos m <? 2 ^ 52 then Zpos m else (e + 1075) * 2 ^ 52 + (Zpos m - 2 ^ 52))
  end.

(** Seconds since 1970 survive being stored as a float64. *)
Example f64_unix_time :
  let x := f64_of_bits (bits_of_f64 (f64_of_int 1767225600)) in x = f64_of_int 1767225600 /\ int64_of_f64 x = 1767225600.
Proof. by vm_compute. Qed.
