(* ===== verification/Compaction.v ===== *)
(** tsdb/compact.go: which blocks the leveled compactor merges, and the metadata
    of the merged block (types of tsdb/block.go).

    A ULID is its big-endian number.  slices.SortFunc does not promise
    stability, so sorting by an integer key is an interface, [SortBy], with its
    documented contract [SortByLaws]; merge sort satisfies it.  Division of
    float64 values is the executable IEEE arithmetic of SpecFloat. *)
From stdpp Require Import sorting strings.
From S2P Require Import Prelude GoSort Float64.

(** ** Sorting by a key *)

Class SortBy := sort_by : forall (A : Type) (key : A -> Z), list A -> list A.
Arguments sort_by {_ A}.

Definition by_key {A} (key : A -> Z) (a b : A) : Prop := key a <= key b.

Class SortByLaws (S : SortBy) : Prop := {
  sort_by_perm : forall A (key : A -> Z) l, sort_by key l ≡ₚ l;
  sort_by_sorted : forall A (key : A -> Z) l, StronglySorted (by_key key) (sort_by key l) }.

#[global] Instance by_key_dec {A} (key : A -> Z) a b : Decision (by_key key a b).
Proof. unfold by_key. apply _. Defined.

Definition merge_SortBy : SortBy := fun A key l => merge_sort (by_key key) l.

#[global] Instance merge_SortByLaws : SortByLaws merge_SortBy.
Proof.
  split; intros A key l; unfold sort_by, merge_SortBy; [apply merge_sort_Permutation|].
  apply StronglySorted_merge_sort; unfold by_key; [intros a b c; lia|intros a b; lia].
Qed.

(** ** float64 *)

(** The literal 0.05. *)
Definition f64_0_05 : spec_float := S754_finite false 0x1999999999999A (-57).

(** ** Block metadata *)

Record BlockStats := mk_BlockStats {
  NumSamples : Z;
  NumFloatSamples : Z;
  NumHistogramSamples : Z;
  NumSeries : Z;
  NumChunks : Z;
  NumTombstones : Z }.
Record BlockDesc := mk_BlockDesc { bd_ULID : Z; bd_MinTime : Z; bd_MaxTime : Z }.

Record BlockMetaCompaction := mk_BlockMetaCompaction {
  Level : Z;
  Sources : list Z;
  Deletable : bool;
  Parents : list BlockDesc;
  Failed : bool;
  Hints : list string }.

Record BlockMeta := mk_BlockMeta {
  ULID : Z;
  MinTime : Z;
  MaxTime : Z;
  Stats : BlockStats;
  Compaction : BlockMetaCompaction;
  Version : Z }.

Definition CompactionHintFromOutOfOrder : string := "from-out-of-order".
Definition CompactionHintFromStaleSeries : string := "from-stale-series".
Definition CompactionHintFromSelectedSeries : string := "from-selected-series".

Definition has_hint (h : string) (c : BlockMetaCompaction) : bool := bool_decide (h ∈ Hints c).
Definition FromOutOfOrder : BlockMetaCompaction -> bool := has_hint CompactionHintFromOutOfOrder.
Definition FromStaleSeries : BlockMetaCompaction -> bool := has_hint CompactionHintFromStaleSeries.
Definition FromSelectedSeries : BlockMetaCompaction -> bool := has_hint CompactionHintFromSelectedSeries.

#[global] Instance string_leb_dec a b : Decision (String.leb a b = true).
Proof. apply _. Defined.

(** The three setters: nothing if the hint is there, otherwise append and sort. *)
Definition set_hint (h : string) (c : BlockMetaCompaction) : BlockMetaCompaction :=
  if has_hint h c then c
  else mk_BlockMetaCompaction (Level c) (Sources c) (Deletable c) (Parents c) (Failed c)
         (merge_sort (fun a b => String.leb a b = true) (Hints c ++ [h])).

Definition SetOutOfOrder : BlockMetaCompaction -> BlockMetaCompaction := set_hint CompactionHintFromOutOfOrder.
Definition SetStaleSeries : BlockMetaCompaction -> BlockMetaCompaction := set_hint CompactionHintFromStaleSeries.
Definition SetSelectedSeries : BlockMetaCompaction -> BlockMetaCompaction := set_hint CompactionHintFromSelectedSeries.

Record dirMeta := mk_dirMeta { dm_dir : string; dm_meta : BlockMeta }.

(** ** Ranges *)

Fixpoint exponential_loop (steps : nat) (curRange stepSize : Z) : list Z :=
  match steps with O => [] | S n => curRange :: exponential_loop n (i64 (curRange * stepSize)) stepSize end.

Definition ExponentialBlockRanges (minSize : Z) (steps : nat) (stepSize : Z) : list Z :=
  exponential_loop steps minSize stepSize.

(** Go's division of int64 values truncates. *)
Definition range_start (t tr : Z) : Z :=
  if 0 <=? t then i64 (tr * Z.quot t tr) else i64 (tr * Z.quot (i64 (i64 (t - tr) + 1)) tr).

(** The inner loop: the blocks from [i] on that end in the range. *)
Fixpoint take_group (limit : Z) (ds : list dirMeta) : list dirMeta * list dirMeta :=
  match ds with
  | [] => ([], [])
  | d :: ds' =>
      if limit <? MaxTime (dm_meta d) then ([], ds)
      else let '(g, rest) := take_group limit ds' in (d :: g, rest)
  end.

(** Every turn of the outer loop passes a block, so as many turns as blocks are
    enough. *)
Fixpoint split_loop (fuel : nat) (ds : list dirMeta) (tr : Z) : list (list dirMeta) :=
  match fuel, ds with
  | S fuel', d :: ds' =>
      let t0 := range_start (MinTime (dm_meta d)) tr in
      if i64 (t0 + tr) <? MaxTime (dm_meta d) then split_loop fuel' ds' tr
      else
        let '(group, rest) := take_group (i64 (t0 + tr)) ds in
        match group with
        | [] => split_loop fuel' rest tr
        | _ => group :: split_loop fuel' rest tr
        end
  | _, _ => []
  end.

Definition splitByRange (ds : list dirMeta) (tr : Z) : list (list dirMeta) := split_loop (length ds) ds tr.

(** ** Planning *)

(** The fields of LeveledCompactor that planning reads. *)
Record LeveledCompactor := mk_LeveledCompactor {
  ranges : list Z;
  enableOverlappingCompaction : bool }.

(** The condition under which selectDirs returns a group. *)
Definition pick_group (iv highTime : Z) (p : list dirMeta) : bool :=
  negb (existsb (fun dm => Failed (Compaction (dm_meta dm))) p) &&
  match p with
  | [] => false
  | d :: _ =>
      let mint := MinTime (dm_meta d) in
      let maxt := MaxTime (dm_meta (List.last p d)) in
      ((i64 (maxt - mint) =? iv) || (maxt <=? highTime)) && (1 <? length p)%nat
  end.

Fixpoint select_ranges (ivs : list Z) (highTime : Z) (ds : list dirMeta) : list dirMeta :=
  match ivs with
  | [] => []
  | iv :: ivs' =>
      match List.find (pick_group iv highTime) (splitByRange ds iv) with
      | Some p => p
      | None => select_ranges ivs' highTime ds
      end
  end.

Definition selectDirs (c : LeveledCompactor) (ds : list dirMeta) : list dirMeta :=
  match ranges c, last ds with
  | _ :: (_ :: _) as ivs, Some d => select_ranges ivs (MinTime (dm_meta d)) ds
  | _, _ => []
  end.

(** The loop of selectOverlappingDirs; [prev] is [ds[i]], [acc] the result so far. *)
Fixpoint overlap_loop (prev : dirMeta) (globalMaxt : Z) (acc : list string) (ds : list dirMeta) : list string :=
  match ds with
  | [] => acc
  | d :: ds' =>
      let m := dm_meta d in
      let globalMaxt' := if globalMaxt <? MaxTime m then MaxTime m else globalMaxt in
      if MinTime m <? globalMaxt then
        let acc := match acc with [] => [dm_dir prev] | _ => acc end in
        overlap_loop d globalMaxt' (acc ++ [dm_dir d]) ds'
      else
        match acc with
        | [] => overlap_loop d globalMaxt' acc ds'
        | _ => acc
        end
  end.

Definition selectOverlappingDirs (c : LeveledCompactor) (ds : list dirMeta) : list string :=
  if negb (enableOverlappingCompaction c) then []
  else
    match ds with
    | d :: (_ :: _) as ds' => overlap_loop d (MaxTime (dm_meta d)) [] ds'
    | _ => []
    end.

(** The search, newest first, for a block with enough tombstones. *)
Fixpoint tombstone_loop (big : Z) (dms : list dirMeta) : list string :=
  match dms with
  | [] => []
  | v :: dms' =>
      let meta := dm_meta v in
      if i64 (MaxTime meta - MinTime meta) <? big then
        if (0 <? NumTombstones (Stats meta)) && (NumSeries (Stats meta) <=? NumTombstones (Stats meta)) then [dm_dir v] else []
      else if SFltb f64_0_05 (f64_div (f64_of_int (NumTombstones (Stats meta))) (f64_of_int (u64 (NumSeries (Stats meta) + 1))))
      then [dm_dir v]
      else tombstone_loop big dms'
  end.

Section Plan.
  Context `{SortBy}.

(** NewLeveledCompactor refuses an empty list of ranges. *)
Definition planClass (c : LeveledCompactor) (dms : list dirMeta) : list string :=
  match dms with
  | [] => []
  | _ =>
      let dms := sort_by (fun dm => MinTime (dm_meta dm)) dms in
      match selectOverlappingDirs c dms with
      | (_ :: _) as res => res
      | [] =>
          let dms := take (length dms - 1) dms in
          match map dm_dir (selectDirs c dms) with
          | (_ :: _) as res => res
          | [] => tombstone_loop (ranges c !!! (length (ranges c) / 2)%nat) (reverse dms)
          end
      end
  end.

Definition is_stale (dm : dirMeta) : bool := FromStaleSeries (Compaction (dm_meta dm)).
Definition is_selected (dm : dirMeta) : bool := negb (is_stale dm) && FromSelectedSeries (Compaction (dm_meta dm)).
Definition is_nonHint (dm : dirMeta) : bool := negb (is_stale dm) && negb (FromSelectedSeries (Compaction (dm_meta dm))).

Definition nonempty {A} (l : list A) : nat := match l with [] => 0 | _ => 1 end.

Definition plan (c : LeveledCompactor) (dms : list dirMeta) : list string :=
  match dms with
  | [] => []
  | _ =>
      let stale := List.filter is_stale dms in
      let selected := List.filter is_selected dms in
      let nonHint := List.filter is_nonHint dms in
      if (1 <? nonempty stale + nonempty selected + nonempty nonHint)%nat then
        match planClass c nonHint with
        | (_ :: _) as res => res
        | [] =>
            match planClass c stale with
            | (_ :: _) as res => res
            | [] => planClass c selected
            end
        end
      else planClass c dms
  end.

End Plan.

(** ** The merged block's metadata *)

(** [res.Compaction] after the loop over the blocks. *)
Definition merge_compaction (r : BlockMetaCompaction) (b : BlockMeta) : BlockMetaCompaction :=
  let r := mk_BlockMetaCompaction (if Level r <? Level (Compaction b) then Level (Compaction b) else Level r)
             (Sources r) (Deletable r) (Parents r) (Failed r) (Hints r) in
  let r := if FromStaleSeries (Compaction b) then SetStaleSeries r else r in
  let r := if FromSelectedSeries (Compaction b) then SetSelectedSeries r else r in
  mk_BlockMetaCompaction (Level r) (Sources r) (Deletable r)
    (Parents r ++ [mk_BlockDesc (ULID b) (MinTime b) (MaxTime b)]) (Failed r) (Hints r).

Definition zero_Compaction : BlockMetaCompaction := mk_BlockMetaCompaction 0 [] false [] false [].

(** [blocks[0]] and the rest; an empty call panics.  The sources come out of a
    map and are then sorted, so the order in which the map is ranged over does
    not matter. *)
Definition CompactBlockMetas (uid : Z) (b0 : BlockMeta) (bs : list BlockMeta) : BlockMeta :=
  let blocks := b0 :: bs in
  let mint := foldl (fun m b => if MinTime b <? m then MinTime b else m) (MinTime b0) blocks in
  let maxt := foldl (fun m b => if m <? MaxTime b then MaxTime b else m) (MaxTime b0) blocks in
  let sources : gset Z := foldl (fun s b => foldl (fun s u => {[u]} ∪ s) s (Sources (Compaction b))) ∅ blocks in
  let r := foldl merge_compaction zero_Compaction blocks in
  let r := if forallb (fun b => FromOutOfOrder (Compaction b)) blocks then SetOutOfOrder r else r in
  mk_BlockMeta uid mint maxt (mk_BlockStats 0 0 0 0 0 0)
    (mk_BlockMetaCompaction (Level r + 1) (merge_sort Z.le (elements sources)) (Deletable r) (Parents r) (Failed r) (Hints r)) 0.

(** ** Splitting by range *)

Definition dmin (d : dirMeta) : Z := MinTime (dm_meta d).
Definition dmax (d : dirMeta) : Z := MaxTime (dm_meta d).

(** Times for which the range arithmetic does not overflow. *)
Definition time_fits (tr t : Z) : Prop := MinInt64 + tr <= t /\ t + tr <= MaxInt64.

Lemma range_start_floor t tr : 0 < tr -> time_fits tr t -> range_start t tr = tr * (t / tr).
Proof.
  unfold time_fits, range_start, MinInt64, MaxInt64. intros Htr Ht.
  pose proof (Z.mul_div_le t tr Htr). pose proof (Z.mul_succ_div_gt t tr Htr).
  destruct (Z.leb_spec 0 t).
  - rewrite Z.quot_div_nonneg by lia. apply i64_id. unfold is_i64, MinInt64, MaxInt64. nia.
  - assert (Hq : Z.quot (t - tr + 1) tr = t / tr).
    { replace (t - tr + 1) with (- (tr - 1 - t)) by lia. rewrite Z.quot_opp_l, Z.quot_div_nonneg by lia.
      assert ((tr - 1 - t) / tr = - (t / tr)); [|lia]. symmetry. apply Z.div_unique with (tr - 1 - t mod tr).
      - pose proof (Z.mod_pos_bound t tr Htr). lia.
      - pose proof (Z.div_mod t tr). nia. }
    rewrite (i64_id (t - tr)), (i64_id (t - tr + 1)), Hq by (unfold is_i64, MinInt64, MaxInt64; lia).
    apply i64_id. unfold is_i64, MinInt64, MaxInt64. nia.
Qed.

(** The end of the aligned range a block starts in. *)
Lemma range_end t tr : 0 < tr -> time_fits tr t -> i64 (range_start t tr + tr) = tr * (t / tr) + tr.
Proof.
  intros Htr Ht. rewrite range_start_floor by done. apply i64_id. unfold time_fits, is_i64, MinInt64, MaxInt64 in *.
  pose proof (Z.mul_div_le t tr Htr). pose proof (Z.mul_succ_div_gt t tr Htr). nia.
Qed.

(** A block fits the aligned range of size [tr] it starts in. *)
Definition fits (tr : Z) (d : dirMeta) : Prop := dmax d <= tr * (dmin d / tr) + tr.
#[global] Instance fits_dec tr d : Decision (fits tr d).
Proof. unfold fits. apply _. Defined.

Definition window (tr k : Z) (d : dirMeta) : Prop := tr * k <= dmin d /\ dmax d <= tr * (k + 1).

Lemma take_group_spec limit ds g rest :
  take_group limit ds = (g, rest) ->
  ds = g ++ rest /\ Forall (fun d => dmax d <= limit) g /\ match rest with [] => True | d :: _ => limit < dmax d end.
Proof.
  revert g rest. induction ds as [|d ds IH]; intros g rest; cbn [take_group]; [by intros [= <- <-]|].
  destruct (Z.ltb_spec limit (MaxTime (dm_meta d))); [by intros [= <- <-]|].
  destruct (take_group limit ds) as [g' rest'] eqn:E. intros [= <- <-].
  destruct (IH g' rest' eq_refl) as (-> & Hg & Hr). split_and!; [done|by constructor|done].
Qed.

(** A block that lies in a range whose start is at most its own fits the range
    it starts in. *)
Lemma window_fits tr k d : 0 < tr -> dmin d <= dmax d -> window tr k d -> fits tr d.
Proof.
  unfold window, fits. intros Htr Hle [H1 H2]. assert (k <= dmin d / tr) by (apply Z.div_le_lower_bound; lia). nia.
Qed.

Lemma split_loop_spec tr : 0 < tr -> forall fuel ds,
  (length ds <= fuel)%nat -> StronglySorted (by_key dmin) ds ->
  Forall (fun d => time_fits tr (dmin d) /\ dmin d <= dmax d) ds ->
  concat (split_loop fuel ds tr) = filter (fits tr) ds /\
  Forall (fun g => g <> [] /\ exists k, Forall (window tr k) g) (split_loop fuel ds tr).
Proof.
  intros Htr. induction fuel as [|fuel IH]; intros ds Hlen Hsort Hok; [destruct ds; [by split|simpl in Hlen; lia]|].
  destruct ds as [|d ds]; [by split|]. cbn [split_loop]. pose proof Hok as Hok0. apply Forall_cons in Hok as [[Ht Hle] Hok].
  rewrite range_end by done. fold (dmin d). fold (dmax d).
  assert (Hd : dmin d / tr * tr <= dmin d) by (pose proof (Z.mul_div_le (dmin d) tr Htr); lia).
  destruct (Z.ltb_spec (tr * (dmin d / tr) + tr) (dmax d)) as [Hbig|Hfit].
  - apply StronglySorted_inv in Hsort as [Hsort _]. rewrite filter_cons_False by (unfold fits; lia).
    apply IH; [simpl in Hlen; lia|done|done].
  - destruct (take_group _ (d :: ds)) as [g rest] eqn:E. apply take_group_spec in E as (Heq & Hg & Hrest).
    destruct g as [|d' g]. { cbn [app] in Heq. subst rest. fold (dmax d) in *. lia. }
    cbn [app] in Heq. injection Heq as <- ->. apply Forall_app in Hok as [Hokg Hokr].
    assert (Hwin : Forall (window tr (dmin d / tr)) (d :: g)).
    { apply StronglySorted_inv in Hsort as [_ Hall]. apply Forall_app in Hall as [Hall _].
      apply Forall_cons in Hg as [Hg1 Hg2]. constructor; [unfold window; lia|].
      rewrite Forall_forall in *. intros x Hx. specialize (Hall x Hx). specialize (Hg2 x Hx). unfold by_key, window in *. lia. }
    destruct (IH rest) as [Hcat Hall].
    + simpl in Hlen. rewrite length_app in Hlen. lia.
    + change (d :: g ++ rest) with ((d :: g) ++ rest) in Hsort. by apply StronglySorted_app_1_r in Hsort.
    + done.
    + split.
      * cbn [concat]. change (d :: g ++ rest) with ((d :: g) ++ rest). rewrite filter_app, Hcat. f_equal.
        symmetry. apply filter_all. rewrite Forall_forall in *. intros x Hx.
        eapply window_fits; [done| |by apply Hwin]. apply elem_of_cons in Hx as [->|Hx]; [done|]. by apply Hokg.
      * constructor; [|done]. split; [done|]. by eexists.
Qed.

(** ** Overlapping blocks *)

Definition ends_before (a b : dirMeta) : Prop := dmax a <= dmin b.

(** Every block but the first starts before an earlier one of the run ends. *)
Definition chained (run : list dirMeta) : Prop :=
  forall l1 d l2, run = l1 ++ d :: l2 -> l1 <> [] -> exists a, a ∈ l1 /\ dmin d < dmax a.

Lemma chained_one d : chained [d].
Proof. intros [|x [|y l1]] e l2; by intros [= ]. Qed.

Lemma chained_snoc run d a : chained run -> a ∈ run -> dmin d < dmax a -> chained (run ++ [d]).
Proof.
  intros Hc Ha Hd l1 e l2 Heq Hne. destruct l2 as [|x l2] using rev_ind.
  - apply app_inj_tail in Heq as [<- <-]. by exists a.
  - rewrite app_comm_cons, app_assoc in Heq. apply app_inj_tail in Heq as [-> _]. by eapply Hc.
Qed.

(** Once a run has begun it grows until a block starts behind all of it. *)
Lemma overlap_loop_run ds : forall prev g run,
  run <> [] -> (exists a, a ∈ run /\ dmax a = g) -> Forall (fun a => dmax a <= g) run -> chained run ->
  StronglySorted (by_key dmin) ds ->
  exists run' post, ds = run' ++ post /\ overlap_loop prev g (map dm_dir run) ds = map dm_dir (run ++ run') /\
    chained (run ++ run') /\ Forall (fun b => Forall (fun a => ends_before a b) (run ++ run')) post.
Proof.
  induction ds as [|d ds IH]; intros prev g run Hne Hmax Hg Hc Hsort.
  { exists [], []. rewrite !app_nil_r. split_and!; [done..|constructor]. }
  cbn [overlap_loop]. fold (dmin d). fold (dmax d). destruct (map dm_dir run) as [|x xs] eqn:Em.
  { by destruct run. } rewrite <-Em. apply StronglySorted_inv in Hsort as [Hsort Hd].
  destruct (Z.ltb_spec (dmin d) g) as [Hlt|Hge].
  - replace (map dm_dir run ++ [dm_dir d]) with (map dm_dir (run ++ [d])) by (by rewrite map_app).
    set (g' := if g <? dmax d then dmax d else g).
    assert (Hg' : (exists a, a ∈ run ++ [d] /\ dmax a = g') /\ Forall (fun a => dmax a <= g') (run ++ [d])).
    { subst g'. destruct (Z.ltb_spec g (dmax d)).
      - split; [exists d; split; [apply elem_of_app; right; by constructor|done]|].
        apply Forall_app; split; [|by constructor]. eapply Forall_impl; [exact Hg|]. cbv beta. lia.
      - destruct Hmax as (a & Ha & <-). split; [exists a; split; [apply elem_of_app; by left|done]|].
        apply Forall_app; split; [done|]. by constructor. }
    destruct Hg' as [Hmax' Hall'].
    destruct (IH d g' (run ++ [d])) as (run' & post & -> & Hl & Hc' & Hpost); [by destruct run|done|done| |done|].
    { destruct Hmax as (a & Ha & <-). by eapply chained_snoc. }
    exists (d :: run'), post. rewrite <-app_assoc in *. done.
  - exists [], (d :: ds). rewrite app_nil_r. split_and!; [done|done|done|].
    assert (Hdone : forall b, dmin d <= dmin b -> Forall (fun a => ends_before a b) run).
    { intros b Hb. eapply Forall_impl; [exact Hg|]. unfold ends_before. cbv beta. lia. }
    constructor; [by apply Hdone|]. eapply Forall_impl; [exact Hd|]. intros b Hb. by apply Hdone.
Qed.

(** What selectOverlappingDirs returns on blocks sorted by start: the first
    maximal run of overlapping blocks. *)
Definition first_overlap (ds : list dirMeta) (res : list string) : Prop :=
  exists pre run post, ds = pre ++ run ++ post /\ res = map dm_dir run /\
    StronglySorted ends_before (pre ++ take 1 run) /\
    (run = [] -> post = []) /\ (run <> [] -> (2 <= length run)%nat) /\ chained run /\
    Forall (fun b => Forall (fun a => ends_before a b) run) post.

Lemma overlap_loop_first ds : forall pre prev,
  StronglySorted ends_before (pre ++ [prev]) -> Forall (fun d => dmin d <= dmax d) (pre ++ prev :: ds) ->
  StronglySorted (by_key dmin) (pre ++ prev :: ds) ->
  first_overlap (pre ++ prev :: ds) (overlap_loop prev (dmax prev) [] ds).
Proof.
  induction ds as [|d ds IH]; intros pre prev Hdis Hok Hsort.
  { exists (pre ++ [prev]), [], []. split_and!; [by rewrite <-app_assoc|done|cbn [take]; by rewrite app_nil_r|done|done| |constructor].
    intros l1 e l2 He. by destruct l1. }
  cbn [overlap_loop]. fold (dmin d). fold (dmax d).
  assert (Hokd : dmin prev <= dmax prev /\ dmin d <= dmax d).
  { apply Forall_app in Hok as [_ Hok]. by apply Forall_cons in Hok as [? [? _]%Forall_cons]. }
  destruct (Z.ltb_spec (dmin d) (dmax prev)) as [Hlt|Hge].
  - change ([dm_dir prev] ++ [dm_dir d]) with (map dm_dir [prev; d]).
    destruct (overlap_loop_run ds d (if dmax prev <? dmax d then dmax d else dmax prev) [prev; d])
      as (run' & post & -> & Hl & Hc & Hpost); [done| | | | |].
    + destruct (Z.ltb_spec (dmax prev) (dmax d)); [exists d|exists prev]; (split; [repeat constructor|done]).
    + destruct (Z.ltb_spec (dmax prev) (dmax d)); repeat constructor; lia.
    + apply (chained_snoc [prev] d prev); [apply chained_one|by constructor|done].
    + change (pre ++ prev :: d :: ds) with (pre ++ [prev; d] ++ ds) in Hsort. by do 2 apply StronglySorted_app_1_r in Hsort.
    + exists pre, ([prev; d] ++ run'), post. cbn [app] in *. split_and!; try done. intros _. cbn [length]. lia.
  - assert (Hpd : forall a, a ∈ pre -> dmax a <= dmin d).
    { intros a Ha. apply StronglySorted_app in Hdis as (Hap & _ & _). specialize (Hap a prev Ha (list_elem_of_here _ _)).
      unfold ends_before in Hap. lia. }
    replace (if dmax prev <? dmax d then dmax d else dmax prev) with (dmax d) by (destruct (Z.ltb_spec (dmax prev) (dmax d)); lia).
    change (pre ++ prev :: d :: ds) with (pre ++ [prev] ++ d :: ds) in *. rewrite app_assoc in *. apply IH; [|done|done].
    apply StronglySorted_app_2; [|done|by repeat constructor]. intros a b Ha Hb%list_elem_of_singleton. subst b.
    apply elem_of_app in Ha as [Ha|Ha%list_elem_of_singleton]; [by apply Hpd|]. by subst a.
Qed.

(** ** Plans *)

Definition same_class (l : list dirMeta) : Prop :=
  Forall (fun d => is_stale d = true) l \/ Forall (fun d => is_selected d = true) l \/ Forall (fun d => is_nonHint d = true) l.

(** Why a set of blocks is compacted together. *)
Inductive plan_reason (c : LeveledCompactor) (dms : list dirMeta) : list dirMeta -> Prop :=
  | plan_nothing : plan_reason c dms []
  | plan_overlap run :
      enableOverlappingCompaction c = true -> (2 <= length run)%nat -> chained run -> plan_reason c dms run
  | plan_level iv k p newest :
      iv ∈ tail (ranges c) -> (2 <= length p)%nat -> Forall (window iv k) p ->
      Forall (fun d => Failed (Compaction (dm_meta d)) = false) p ->
      newest ∈ dms -> Forall (fun d => dmin d <= dmin newest) p -> plan_reason c dms p
  | plan_tombstones d : plan_reason c dms [d].

(** Positive ranges and times for which their arithmetic does not overflow. *)
Definition plannable (c : LeveledCompactor) (dms : list dirMeta) : Prop :=
  Forall (fun iv => 0 < iv /\ Forall (fun d => time_fits iv (dmin d)) dms) (ranges c) /\
  Forall (fun d => dmin d <= dmax d) dms.

Lemma plannable_sub c dms dms' : plannable c dms -> (forall d, d ∈ dms' -> d ∈ dms) -> plannable c dms'.
Proof.
  intros [Hr Hok] Hsub. split.
  - eapply Forall_impl; [exact Hr|]. intros iv [Hiv Hf]. split; [done|]. rewrite Forall_forall in *. auto.
  - rewrite Forall_forall in *. auto.
Qed.

Lemma pick_group_spec iv high p :
  pick_group iv high p = true -> (2 <= length p)%nat /\ Forall (fun d => Failed (Compaction (dm_meta d)) = false) p.
Proof.
  unfold pick_group. intros [Hf Hp]%andb_true_iff. apply negb_true_iff in Hf. split.
  - destruct p as [|d p]; [done|]. apply andb_true_iff in Hp as [_ Hp%Nat.ltb_lt]. lia.
  - apply Forall_forall. intros d Hd. destruct (Failed _) eqn:E; [|done]. exfalso.
    rewrite <-not_true_iff_false in Hf. apply Hf. apply existsb_exists. exists d. split; [by apply list_elem_of_In|done].
Qed.

Lemma select_ranges_spec c ivs high ds : forall p,
  StronglySorted (by_key dmin) ds -> plannable c ds -> (forall iv, iv ∈ ivs -> iv ∈ ranges c) ->
  select_ranges ivs high ds = p -> p <> [] ->
  exists iv k, iv ∈ ivs /\ (2 <= length p)%nat /\ Forall (window iv k) p /\
    Forall (fun d => Failed (Compaction (dm_meta d)) = false) p /\ forall d, d ∈ p -> d ∈ ds.
Proof.
  intros p Hsort [Hr Hok] Hsub. induction ivs as [|iv ivs IH]; cbn [select_ranges]; [by intros <-|].
  destruct (List.find _ _) as [q|] eqn:E.
  - intros <- _. apply find_some in E as [Hq Hpick]. apply pick_group_spec in Hpick as [Hlen Hfail].
    rewrite Forall_forall in Hr. destruct (Hr iv) as [Hiv Htf]; [apply Hsub; by left|].
    destruct (split_loop_spec iv Hiv (length ds) ds) as [Hcat Hgroups]; [lia|done| |].
    { rewrite Forall_forall in *. intros d Hd. split; [by apply Htf|by apply Hok]. }
    rewrite Forall_forall in Hgroups. destruct (Hgroups q) as [_ [k Hk]]; [by apply list_elem_of_In|].
    exists iv, k. split_and!; [by left|done|done|done|]. intros d Hd.
    assert (Hin : d ∈ concat (splitByRange ds iv)).
    { apply list_elem_of_In, in_concat. exists q. split; [done|by apply list_elem_of_In]. }
    unfold splitByRange in Hin. rewrite Hcat in Hin. by apply list_elem_of_filter in Hin as [_ Hin].
  - intros Hp Hne. destruct IH as (iv' & k & Hiv' & Hrest); [|done|done|].
    + intros x Hx. apply Hsub. by right.
    + exists iv', k. split; [by right|done].
Qed.

Lemma tombstone_loop_spec big ds : tombstone_loop big ds = [] \/ exists d, d ∈ ds /\ tombstone_loop big ds = [dm_dir d].
Proof.
  induction ds as [|d ds IH]; cbn [tombstone_loop]; [by left|].
  assert (Hd : d ∈ d :: ds) by constructor.
  repeat case_match; eauto. destruct IH as [->|(e & He & ->)]; [by left|]. right. exists e. split; [by right|done].
Qed.

(** The usual compaction: the blocks [q] without the newest one. *)
Lemma selectDirs_spec c q nw :
  StronglySorted (by_key dmin) (q ++ [nw]) -> plannable c (q ++ [nw]) -> selectDirs c q <> [] ->
  plan_reason c (q ++ [nw]) (selectDirs c q) /\ forall d, d ∈ selectDirs c q -> d ∈ q.
Proof.
  intros Hsort Hpl Hne. apply StronglySorted_app in Hsort as (Hle & Hsort & _).
  assert (Hplq : plannable c q) by (eapply plannable_sub; [exact Hpl|intros; apply elem_of_app; by left]).
  unfold selectDirs in *. destruct (ranges c) as [|r0 [|r1 rs]] eqn:Er; [done|done|]. destruct (last q) as [dl|]; [|done].
  edestruct (select_ranges_spec c (r1 :: rs) (MinTime (dm_meta dl)) q) as (iv & k & Hiv & Hlen & Hwin & Hfail & Hsub);
    [done|done|rewrite Er; set_solver|reflexivity|done|].
  split; [|done]. apply (plan_level c _ iv k _ nw); [by rewrite Er|done|done|done| |].
  - apply elem_of_app. right. by constructor.
  - apply Forall_forall. intros d Hd. apply (Hle d nw); [by apply Hsub|by constructor].
Qed.

Lemma selectOverlappingDirs_run c l :
  StronglySorted (by_key dmin) l -> Forall (fun d => dmin d <= dmax d) l -> selectOverlappingDirs c l <> [] ->
  enableOverlappingCompaction c = true /\ first_overlap l (selectOverlappingDirs c l).
Proof.
  unfold selectOverlappingDirs. intros Hsort Hok Hne. destruct (enableOverlappingCompaction c); [|done]. split; [done|].
  destruct l as [|a [|b l]]; [done|done|]. apply (overlap_loop_first (b :: l) [] a); [by repeat constructor|done|done].
Qed.

Lemma plan_reason_mono c dms dms' sel :
  (forall d, d ∈ dms -> d ∈ dms') -> plan_reason c dms sel -> plan_reason c dms' sel.
Proof.
  intros Hsub []; [constructor|by apply plan_overlap| |apply plan_tombstones]. eapply plan_level; eauto.
Qed.

Section PlanSpec.
  Context `{S : SortBy} `{!SortByLaws S}.

Lemma planClass_spec c dms : plannable c dms ->
  exists sel, planClass c dms = map dm_dir sel /\ (forall d, d ∈ sel -> d ∈ dms) /\ plan_reason c dms sel.
Proof.
  intros Hpl. destruct dms as [|d0 dms0]; [exists []; split_and!; [done|set_solver|constructor]|].
  unfold planClass. set (dms := d0 :: dms0) in *. set (l := sort_by (fun dm => MinTime (dm_meta dm)) dms).
  assert (Hperm : l ≡ₚ dms) by apply sort_by_perm. assert (Hsort : StronglySorted (by_key dmin) l) by apply sort_by_sorted.
  assert (Hin : forall d, d ∈ l -> d ∈ dms) by (intros d; by rewrite Hperm).
  assert (Hpll : plannable c l) by (by eapply plannable_sub). change (d0 :: dms0) with dms. cbv iota. fold l.
  clearbody l. destruct l as [|nw q _] using rev_ind.
  { apply Permutation_nil_l in Hperm. done. }
  rewrite length_app. cbn [length]. rewrite Nat.add_sub, take_app_length.
  destruct (selectOverlappingDirs c (q ++ [nw])) as [|x xs] eqn:Eo.
  - destruct (map dm_dir (selectDirs c q)) as [|x xs] eqn:Es.
    + destruct (tombstone_loop_spec (ranges c !!! (length (ranges c) / 2)%nat) (reverse q)) as [->|(d & Hd & ->)].
      * exists []. split_and!; [done|set_solver|constructor].
      * exists [d]. split_and!; [done| |apply plan_tombstones]. intros e ->%list_elem_of_singleton. apply Hin, elem_of_app. left.
        by rewrite elem_of_reverse in Hd.
    + destruct (selectDirs_spec c q nw Hsort Hpll) as [Hr Hsub]; [by intros E; rewrite E in Es|].
      exists (selectDirs c q). split_and!; [done|intros; apply Hin, elem_of_app; left; auto|]. by eapply plan_reason_mono.
  - destruct (selectOverlappingDirs_run c (q ++ [nw]) Hsort (proj2 Hpll)) as (Hen & pre & run & post & Heq & Hres & _ & _ & Hlen & Hch & _);
      [by rewrite Eo|]. rewrite <-Eo, Hres. exists run.
    assert (run <> []) by (intros ->; rewrite Hres in Eo; done).
    split_and!; [done| |apply plan_overlap; auto]. intros d Hd. apply Hin. rewrite Heq, !elem_of_app. auto.
Qed.

Lemma planClass_class c cls dms (P : dirMeta -> bool) :
  plannable c dms -> cls = List.filter P dms ->
  exists sel, planClass c cls = map dm_dir sel /\ (forall d, d ∈ sel -> d ∈ dms) /\ Forall (fun d => P d = true) sel /\
    plan_reason c dms sel.
Proof.
  intros Hpl ->. assert (Hsub : forall d, d ∈ List.filter P dms -> d ∈ dms /\ P d = true).
  { intros d Hd. rewrite !list_elem_of_In in *. by apply filter_In in Hd. }
  destruct (planClass_spec c (List.filter P dms)) as (sel & Hsel & Hin & Hr).
  { eapply plannable_sub; [exact Hpl|]. intros d Hd. by apply Hsub. }
  exists sel. split_and!; [done|intros d Hd; by apply Hsub, Hin| |].
  - apply Forall_forall. intros d Hd. by apply Hsub, Hin.
  - eapply plan_reason_mono; [|exact Hr]. intros d Hd. by apply Hsub.
Qed.

(** One class only: the other two filters are empty. *)
Lemma single_class (dms : list dirMeta) :
  (nonempty (List.filter is_stale dms) + nonempty (List.filter is_selected dms) + nonempty (List.filter is_nonHint dms) <= 1)%nat ->
  same_class dms.
Proof.
  intros Hn. assert (Hempty : forall P, nonempty (List.filter P dms) = 0%nat -> forall d, d ∈ dms -> P d = false).
  { intros P HP d Hd. destruct (P d) eqn:E; [|done]. exfalso.
    assert (Hin : In d (List.filter P dms)) by (apply filter_In; split; [by apply list_elem_of_In|done]).
    by destruct (List.filter P dms). }
  assert (Htri : forall d, is_stale d = false -> is_selected d = false -> is_nonHint d = true).
  { intros d. unfold is_selected, is_nonHint. intros -> Hs. by destruct (FromSelectedSeries _). }
  assert (Htri2 : forall d, is_stale d = false -> is_nonHint d = false -> is_selected d = true).
  { intros d. unfold is_selected, is_nonHint. intros -> Hs. by destruct (FromSelectedSeries _). }
  assert (Htri3 : forall d, is_selected d = false -> is_nonHint d = false -> is_stale d = true).
  { intros d. unfold is_selected, is_nonHint. destruct (is_stale d), (FromSelectedSeries _); done. }
  unfold same_class. rewrite !Forall_forall.
  destruct (nonempty (List.filter is_stale dms)) eqn:E1, (nonempty (List.filter is_selected dms)) eqn:E2; try lia.
  - right; right. intros d Hd. apply Htri; [by apply Hempty|by apply Hempty].
  - right; left. intros d Hd. apply Htri2; [by apply Hempty|apply (Hempty is_nonHint); [lia|done]].
  - left. intros d Hd. apply Htri3; [by apply Hempty|apply (Hempty is_nonHint); [lia|done]].
Qed.
End PlanSpec.

(** ** Merged metadata *)

Lemma has_hint_set h h' c : has_hint h (set_hint h' c) = bool_decide (h = h') || has_hint h c.
Proof.
  unfold set_hint. destruct (has_hint h' c) eqn:E.
  - case_bool_decide as Hd; [by rewrite Hd, E|done].
  - unfold has_hint in *. cbn [Hints]. apply eq_true_iff_eq. rewrite orb_true_iff, !bool_decide_eq_true.
    rewrite merge_sort_Permutation, elem_of_app, list_elem_of_singleton. tauto.
Qed.

Lemma has_hint_if h h' (b : bool) c :
  has_hint h (if b then set_hint h' c else c) = b && bool_decide (h = h') || has_hint h c.
Proof. destruct b; [apply has_hint_set|done]. Qed.

(** The loop collects the two partial-view hints of any block. *)
Lemma hint_merge h r b :
  h = CompactionHintFromStaleSeries \/ h = CompactionHintFromSelectedSeries ->
  has_hint h (merge_compaction r b) = has_hint h r || has_hint h (Compaction b).
Proof.
  intros Hh. unfold merge_compaction.
  match goal with |- has_hint h (mk_BlockMetaCompaction _ _ _ _ _ (Hints ?q)) = _ => transitivity (has_hint h q); [done|] end.
  unfold SetStaleSeries, SetSelectedSeries. rewrite !has_hint_if. unfold FromStaleSeries, FromSelectedSeries.
  match goal with |- context [has_hint h (mk_BlockMetaCompaction _ _ _ _ _ (Hints r))] =>
    change (has_hint h (mk_BlockMetaCompaction _ _ _ _ _ (Hints r))) with (has_hint h r) end.
  destruct Hh as [-> | ->].
  - rewrite (bool_decide_eq_false_2 (_ = CompactionHintFromSelectedSeries)), bool_decide_eq_true_2 by done.
    destruct (has_hint _ (Compaction b)), (has_hint _ r), (has_hint _ _); done.
  - rewrite (bool_decide_eq_false_2 (_ = CompactionHintFromStaleSeries)), bool_decide_eq_true_2 by done.
    destruct (has_hint _ (Compaction b)), (has_hint _ r), (has_hint _ _); done.
Qed.

Lemma hint_merge_all h bs : forall r,
  h = CompactionHintFromStaleSeries \/ h = CompactionHintFromSelectedSeries ->
  has_hint h (foldl merge_compaction r bs) = has_hint h r || existsb (fun b => has_hint h (Compaction b)) bs.
Proof.
  induction bs as [|b bs IH]; intros r Hh; cbn [foldl existsb]; [by rewrite orb_false_r|].
  by rewrite IH, hint_merge, orb_assoc by done.
Qed.

(** The out-of-order hint is not touched by the loop. *)
Lemma ooo_merge bs : forall r,
  has_hint CompactionHintFromOutOfOrder (foldl merge_compaction r bs) = has_hint CompactionHintFromOutOfOrder r.
Proof.
  induction bs as [|b bs IH]; intros r; cbn [foldl]; [done|]. rewrite IH. unfold merge_compaction.
  match goal with |- has_hint ?h (mk_BlockMetaCompaction _ _ _ _ _ (Hints ?q)) = _ => transitivity (has_hint h q); [done|] end.
  unfold SetStaleSeries, SetSelectedSeries. rewrite !has_hint_if.
  rewrite !(bool_decide_eq_false_2 (_ = _)), !andb_false_r by done. done.
Qed.

Lemma level_merge bs : forall r, Level (foldl merge_compaction r bs) = foldl (fun m b => Z.max m (Level (Compaction b))) (Level r) bs.
Proof.
  induction bs as [|b bs IH]; intros r; cbn [foldl]; [done|]. rewrite IH. f_equal. unfold merge_compaction, SetStaleSeries, SetSelectedSeries, set_hint.
  repeat case_match; cbn [Level]; lia.
Qed.

Lemma parents_merge bs : forall r, Parents (foldl merge_compaction r bs) = Parents r ++ map (fun b => mk_BlockDesc (ULID b) (MinTime b) (MaxTime b)) bs.
Proof.
  induction bs as [|b bs IH]; intros r; cbn [foldl map]; [by rewrite app_nil_r|]. rewrite IH.
  unfold merge_compaction, SetStaleSeries, SetSelectedSeries, set_hint. repeat case_match; cbn [Parents]; by rewrite <-app_assoc.
Qed.

Lemma fold_min bs : forall m, foldl (fun m b => if MinTime b <? m then MinTime b else m) m bs = foldl (fun m b => Z.min m (MinTime b)) m bs.
Proof. induction bs as [|b bs IH]; intros m; cbn [foldl]; [done|]. rewrite IH. f_equal. destruct (Z.ltb_spec (MinTime b) m); lia. Qed.

Lemma fold_max bs : forall m, foldl (fun m b => if m <? MaxTime b then MaxTime b else m) m bs = foldl (fun m b => Z.max m (MaxTime b)) m bs.
Proof. induction bs as [|b bs IH]; intros m; cbn [foldl]; [done|]. rewrite IH. f_equal. destruct (Z.ltb_spec m (MaxTime b)); lia. Qed.

Lemma foldl_min_le {A} (f : A -> Z) l : forall m, let r := foldl (fun m b => Z.min m (f b)) m l in
  r <= m /\ (forall b, b ∈ l -> r <= f b) /\ (r = m \/ exists b, b ∈ l /\ r = f b).
Proof.
  induction l as [|b l IH]; intros m; cbn [foldl]; [split_and!; [lia|set_solver|by left]|].
  destruct (IH (Z.min m (f b))) as (H1 & H2 & H3). split_and!.
  - lia.
  - intros x [->|Hx]%elem_of_cons; [lia|by apply H2].
  - destruct H3 as [->|(x & Hx & ->)]; [|right; exists x; split; [by right|done]].
    destruct (Z.min_spec m (f b)) as [[_ ->]|[_ ->]]; [by left|right; exists b; split; [by left|done]].
Qed.

Lemma foldl_max_ge {A} (f : A -> Z) l : forall m, let r := foldl (fun m b => Z.max m (f b)) m l in
  m <= r /\ (forall b, b ∈ l -> f b <= r) /\ (r = m \/ exists b, b ∈ l /\ r = f b).
Proof.
  induction l as [|b l IH]; intros m; cbn [foldl]; [split_and!; [lia|set_solver|by left]|].
  destruct (IH (Z.max m (f b))) as (H1 & H2 & H3). split_and!.
  - lia.
  - intros x [->|Hx]%elem_of_cons; [lia|by apply H2].
  - destruct H3 as [->|(x & Hx & ->)]; [|right; exists x; split; [by right|done]].
    destruct (Z.max_spec m (f b)) as [[_ ->]|[_ ->]]; [right; exists b; split; [by left|done]|by left].
Qed.

Lemma fold_sources bs : forall (s : gset Z) u,
  u ∈ foldl (fun s b => foldl (fun s u => {[u]} ∪ s) s (Sources (Compaction b))) s bs <->
  u ∈ s \/ exists b, b ∈ bs /\ u ∈ Sources (Compaction b).
Proof.
  assert (Hin : forall l (s : gset Z) u, u ∈ foldl (fun s u => {[u]} ∪ s) s l <-> u ∈ s \/ u ∈ l).
  { induction l as [|x l IH]; intros s u; cbn [foldl]; [set_solver|]. rewrite IH. set_solver. }
  induction bs as [|b bs IH]; intros s u; cbn [foldl]; [set_solver|]. rewrite IH, Hin. set_solver.
Qed.

(** ** Properties *)

(** Splitting blocks by a range puts every block that fits the aligned
    range it starts in into a group, in order, drops the others, and each group
    lies within one range [k*tr, (k+1)*tr], also for blocks before time zero. *)
Theorem splitByRange_windows (ds : list dirMeta) (tr : Z) :
  0 < tr -> StronglySorted (by_key dmin) ds -> Forall (fun d => time_fits tr (dmin d) /\ dmin d <= dmax d) ds ->
  concat (splitByRange ds tr) = filter (fits tr) ds /\
  Forall (fun g => g <> [] /\ exists k, Forall (window tr k) g) (splitByRange ds tr).
Proof. intros Htr Hs Hok. by apply split_loop_spec. Qed.

Definition example_block (dir : string) (mint maxt : Z) (hints : list string) : dirMeta :=
  mk_dirMeta dir (mk_BlockMeta 0 mint maxt (mk_BlockStats 0 0 0 10 0 0) (mk_BlockMetaCompaction 1 [] false [] false hints) 1).

Lemma splitByRange_windows_witness :
  let ds := [example_block "a" (-20) (-10) []; example_block "b" 0 10 []; example_block "c" 10 20 []; example_block "d" 50 60 []] in
  concat (splitByRange ds 30) = filter (fits 30) ds /\
  Forall (fun g => g <> [] /\ exists k, Forall (window 30 k) g) (splitByRange ds 30).
Proof.
  apply splitByRange_windows; [lia| |]; unfold by_key, time_fits; repeat constructor; vm_compute; (done || intros; discriminate).
Defined.



(** The same plan, computed. *)
Example plan_example :
  plan (H := merge_SortBy) (mk_LeveledCompactor [10; 30; 90] true)
    [example_block "c" 10 20 []; example_block "a" (-20) (-10) []; example_block "b" 0 10 [];
     example_block "s" 5 12 ["from-stale-series"%string]; example_block "d" 50 60 []; example_block "e" 60 70 []]
  = ["b"; "c"]%string.
Proof. vm_compute. reflexivity. Qed.

(** With overlapping compaction enabled, the overlap search on blocks sorted
    by start time returns the first maximal run of overlapping blocks: no two
    blocks up to the start of the run overlap, every later block of the run
    overlaps an earlier one of it, no block behind the run overlaps it, and the
    result is empty exactly when no blocks overlap. *)
Theorem selectOverlappingDirs_first (c : LeveledCompactor) (ds : list dirMeta) :
  enableOverlappingCompaction c = true -> StronglySorted (by_key dmin) ds -> Forall (fun d => dmin d <= dmax d) ds ->
  first_overlap ds (selectOverlappingDirs c ds).
Proof.
  intros Hen Hs Hok. unfold selectOverlappingDirs. rewrite Hen. cbn [negb]. destruct ds as [|a [|b ds]].
  - exists [], [], []. split_and!; try done; [cbn; apply SSorted_nil|]. intros l1 e l2 He. by destruct l1.
  - exists [a], [], []. split_and!; try done; [cbn; by repeat constructor|]. intros l1 e l2 He. by destruct l1.
  - apply (overlap_loop_first (b :: ds) [] a); [by repeat constructor|done|done].
Qed.

Lemma selectOverlappingDirs_first_witness :
  let ds := [example_block "a" 0 10 []; example_block "b" 10 30 []; example_block "c" 20 40 []; example_block "d" 25 28 []; example_block "e" 40 50 []] in
  first_overlap ds (selectOverlappingDirs (mk_LeveledCompactor [10] true) ds).
Proof. apply selectOverlappingDirs_first; [done| |]; unfold by_key; repeat constructor; vm_compute; (done || intros; discriminate). Defined.

(** The hint that keeps a block out of inOrderBlocksMaxTime. *)
Definition hints_agree (h : string) (res : BlockMeta) (bs : list BlockMeta) : Prop :=
  has_hint h (Compaction res) = true <-> Forall (fun b => has_hint h (Compaction b) = true) bs.

(** Where either all or none of the blocks carry a hint, some carry it exactly
    when all do. *)
Lemma hint_uniform h b0 bs :
  (forall b, b ∈ b0 :: bs -> has_hint h (Compaction b) = true) \/ (forall b, b ∈ b0 :: bs -> has_hint h (Compaction b) = false) ->
  existsb (fun b => has_hint h (Compaction b)) (b0 :: bs) = true <-> Forall (fun b => has_hint h (Compaction b) = true) (b0 :: bs).
Proof.
  intros Hu. rewrite existsb_exists, Forall_forall. split.
  - intros (b & Hb%list_elem_of_In & Ht). destruct Hu as [Hu|Hu]; [done|]. by rewrite (Hu b Hb) in Ht.
  - intros Ha. exists b0. split; [by left|]. apply Ha. by left.
Qed.

Lemma class_uniform dirs (h : string) :
  h = CompactionHintFromStaleSeries \/ h = CompactionHintFromSelectedSeries -> same_class dirs ->
  Forall (fun d => ~ (FromStaleSeries (Compaction (dm_meta d)) = true /\ FromSelectedSeries (Compaction (dm_meta d)) = true)) dirs ->
  (forall b, b ∈ map dm_meta dirs -> has_hint h (Compaction b) = true) \/ (forall b, b ∈ map dm_meta dirs -> has_hint h (Compaction b) = false).
Proof.
  intros Hh Hc Hnot. rewrite Forall_forall in Hnot. unfold same_class in Hc. rewrite !Forall_forall in Hc.
  assert (Hm : forall P : BlockMeta -> Prop, (forall d, d ∈ dirs -> P (dm_meta d)) -> forall b, b ∈ map dm_meta dirs -> P b).
  { intros P HP b (d & -> & Hd)%list_elem_of_fmap. by apply HP. }
  destruct Hc as [Hc|[Hc|Hc]]; unfold is_stale, is_selected, is_nonHint, is_stale in Hc;
    destruct Hh as [-> | ->]; fold FromStaleSeries; fold FromSelectedSeries;
    (left; apply Hm; intros d Hd; specialize (Hc d Hd); specialize (Hnot d Hd);
      destruct (FromStaleSeries _) eqn:?, (FromSelectedSeries _) eqn:?; by cbn in Hc; intuition) ||
    (right; apply Hm; intros d Hd; specialize (Hc d Hd); specialize (Hnot d Hd);
      destruct (FromStaleSeries _) eqn:?, (FromSelectedSeries _) eqn:?; by cbn in Hc; intuition).
Qed.

(** The metadata of a merged block covers all its sources and nothing more
    (tightest time range, union of the sources in order, one level above the
    highest, one parent per block); and for blocks of one class, which is what
    plan selects, each of the three hints is on the merged block exactly when
    all the blocks carry it. *)
Theorem CompactBlockMetas_spec (uid : Z) (b0 : BlockMeta) (bs : list BlockMeta) (dirs : list dirMeta) :
  map dm_meta dirs = b0 :: bs -> same_class dirs ->
  Forall (fun d => ~ (FromStaleSeries (Compaction (dm_meta d)) = true /\ FromSelectedSeries (Compaction (dm_meta d)) = true)) dirs ->
  let res := CompactBlockMetas uid b0 bs in
  (forall b, b ∈ b0 :: bs -> MinTime res <= MinTime b /\ MaxTime b <= MaxTime res /\ Level (Compaction b) < Level (Compaction res)) /\
  (exists b, b ∈ b0 :: bs /\ MinTime res = MinTime b) /\ (exists b, b ∈ b0 :: bs /\ MaxTime res = MaxTime b) /\
  StronglySorted Z.le (Sources (Compaction res)) /\
  (forall u, u ∈ Sources (Compaction res) <-> exists b, b ∈ b0 :: bs /\ u ∈ Sources (Compaction b)) /\
  Parents (Compaction res) = map (fun b => mk_BlockDesc (ULID b) (MinTime b) (MaxTime b)) (b0 :: bs) /\
  hints_agree CompactionHintFromOutOfOrder res (b0 :: bs) /\
  hints_agree CompactionHintFromStaleSeries res (b0 :: bs) /\
  hints_agree CompactionHintFromSelectedSeries res (b0 :: bs).
Proof.
  intros Hd Hc Hnot res. set (l := b0 :: bs) in *.
  assert (Hr : forall h, has_hint h (Compaction res) = has_hint h (if forallb (fun b => FromOutOfOrder (Compaction b)) l
    then SetOutOfOrder (foldl merge_compaction zero_Compaction l) else foldl merge_compaction zero_Compaction l)) by done.
  assert (Hl : Level (Compaction res) = foldl (fun m b => Z.max m (Level (Compaction b))) 0 l + 1).
  { subst res. unfold CompactBlockMetas. cbn [Compaction Level]. fold l. unfold SetOutOfOrder, set_hint.
    repeat case_match; cbn [Level]; by rewrite level_merge. }
  destruct (foldl_min_le MinTime l (MinTime b0)) as (_ & Hmin & Hmin'). destruct (foldl_max_ge MaxTime l (MaxTime b0)) as (_ & Hmax & Hmax').
  destruct (foldl_max_ge (fun b => Level (Compaction b)) l 0) as (_ & Hlev & _).
  rewrite <-fold_min in Hmin, Hmin'. rewrite <-fold_max in Hmax, Hmax'. fold l in Hmin, Hmin', Hmax, Hmax'.
  change (foldl _ (MinTime b0) l) with (MinTime res) in Hmin, Hmin'. change (foldl _ (MaxTime b0) l) with (MaxTime res) in Hmax, Hmax'.
  assert (Hb0 : b0 ∈ l) by (by left). split_and!.
  - intros b Hb. rewrite Hl. specialize (Hmin b Hb). specialize (Hmax b Hb). specialize (Hlev b Hb). cbv beta in Hlev. lia.
  - destruct Hmin' as [->|Hx]; [by exists b0|done].
  - destruct Hmax' as [->|Hx]; [by exists b0|done].
  - apply StronglySorted_merge_sort; [intros x y z; lia|intros x y; lia].
  - intros u. subst res. unfold CompactBlockMetas. cbn [Compaction Sources]. fold l.
    rewrite merge_sort_Permutation, elem_of_elements, fold_sources. set_solver.
  - subst res. unfold CompactBlockMetas. cbn [Compaction Parents]. fold l. unfold SetOutOfOrder, set_hint.
    repeat case_match; cbn [Parents]; by rewrite parents_merge.
  - unfold hints_agree. rewrite Hr. unfold SetOutOfOrder. rewrite has_hint_if, ooo_merge, bool_decide_eq_true_2, andb_true_r, orb_false_r by done.
    rewrite forallb_forall, Forall_forall. split; intros Ha b Hb; apply Ha; by apply list_elem_of_In.
  - unfold hints_agree. rewrite Hr. unfold SetOutOfOrder. rewrite has_hint_if, (bool_decide_eq_false_2 (_ = _)), andb_false_r by done. cbn [orb].
    rewrite hint_merge_all by auto. apply hint_uniform. fold l. rewrite <-Hd. apply class_uniform; auto.
  - unfold hints_agree. rewrite Hr. unfold SetOutOfOrder. rewrite has_hint_if, (bool_decide_eq_false_2 (_ = _)), andb_false_r by done. cbn [orb].
    rewrite hint_merge_all by auto. apply hint_uniform. fold l. rewrite <-Hd. apply class_uniform; auto.
Qed.

Lemma CompactBlockMetas_spec_witness :
  let a := example_block "a" 0 10 ["from-stale-series"%string] in
  let b := example_block "b" 5 20 ["from-out-of-order"%string; "from-stale-series"%string] in
  let res := CompactBlockMetas 7 (dm_meta a) [dm_meta b] in
  MinTime res = 0 /\ MaxTime res = 20 /\ hints_agree CompactionHintFromOutOfOrder res [dm_meta a; dm_meta b] /\
  hints_agree CompactionHintFromStaleSeries res [dm_meta a; dm_meta b].
Proof.
  intros a b res. destruct (CompactBlockMetas_spec 7 (dm_meta a) [dm_meta b] [a; b]) as (_ & _ & _ & _ & _ & _ & H1 & H2 & _).
  - reflexivity.
  - left. repeat constructor.
  - repeat constructor; vm_compute; intros [_ [=]].
  - split_and!; [reflexivity|reflexivity|exact H1|exact H2].
Defined.
