(* ===== verification/Retention.v ===== *)
(** tsdb/db.go: which blocks retention deletes, and the report of overlapping
    blocks.

    A block is its metadata and its size; the options are read once per call.
    The size of the file system is a parameter of the call (db.fsSizeFunc). *)
From stdpp Require Import sorting strings.
From S2P Require Import Prelude Float64 Compaction.

Record Block := mk_Block { b_meta : BlockMeta; b_size : Z }.

(** What the retention functions read of the database. *)
Record DB := mk_DB {
  retentionDuration : Z;
  maxBytes : Z;
  maxPercentage : spec_float;
  fsSize : Z;
  headSize : Z }.

(** The blocks [blocks[i:]] from the first one that satisfies [stop] on. *)
Fixpoint time_loop (newest retention : Z) (blocks : list Block) : list Block :=
  match blocks with
  | [] => []
  | b :: bs => if retention <=? i64 (newest - MaxTime (b_meta b)) then blocks else time_loop newest retention bs
  end.

(** The first block is never beyond the retention ([i > 0]). *)
Definition BeyondTimeRetention (db : DB) (blocks : list Block) : gset Z :=
  match blocks with
  | [] => ∅
  | b0 :: bs =>
      if retentionDuration db =? 0 then ∅
      else list_to_set (map (fun b => ULID (b_meta b)) (time_loop (MaxTime (b_meta b0)) (retentionDuration db) bs))
  end.

Fixpoint size_loop (blocksSize limit : Z) (blocks : list Block) : list Block :=
  match blocks with
  | [] => []
  | b :: bs =>
      let blocksSize := i64 (blocksSize + b_size b) in
      if limit <? blocksSize then blocks else size_loop blocksSize limit bs
  end.

Definition f64_100 : spec_float := f64_of_int 100.

(** The limit after the percentage has been taken into account. *)
Definition size_limit (db : DB) : Z :=
  if SFltb (S754_zero false) (maxPercentage db) && (0 <? fsSize db)
  then int64_of_f64 (f64_div (f64_mul (f64_of_int (fsSize db)) (maxPercentage db)) f64_100)
  else maxBytes db.

Definition BeyondSizeRetention (db : DB) (blocks : list Block) : gset Z :=
  match blocks with
  | [] => ∅
  | _ =>
      if size_limit db <=? 0 then ∅
      else list_to_set (map (fun b => ULID (b_meta b)) (size_loop (headSize db) (size_limit db) blocks))
  end.

Definition deletableBlocks `{SortBy} (db : DB) (blocks : list Block) : gset Z :=
  let blocks := sort_by (fun b => - MaxTime (b_meta b)) blocks in
  let deletable := list_to_set (map (fun b => ULID (b_meta b)) (List.filter (fun b => Deletable (Compaction (b_meta b))) blocks)) in
  deletable ∪ BeyondTimeRetention db blocks ∪ BeyondSizeRetention db blocks.

(** inOrderBlocksMaxTime: the maximum and whether there is a block. *)
Definition inOrderBlocksMaxTime (blocks : list Block) : Z * bool :=
  foldl (fun '(maxt, ok) b =>
           let c := Compaction (b_meta b) in
           if negb (FromOutOfOrder c) && negb (FromStaleSeries c) && negb (FromSelectedSeries c) && (maxt <? MaxTime (b_meta b))
           then (MaxTime (b_meta b), true) else (maxt, ok))
    (MinInt64, false) blocks.

(** Truncating division, as rangeForTimestamp uses it. *)
Definition rangeForTimestamp (t width : Z) : Z := i64 (i64 (Z.quot t width * width) + width).

(** ** OverlappingBlocks *)

Record TimeRange := mk_TimeRange { tr_Min : Z; tr_Max : Z }.

(** [pending], [continuousPending] and [overlaps]. *)
Record overlap_state := mk_ostate { o_pending : list BlockMeta; o_continuous : bool; o_overlaps : list (list BlockMeta) }.

(** [overlaps[len(overlaps)-1] = append(overlaps[len(overlaps)-1], b)]. *)
Fixpoint extend_last {A} (ls : list (list A)) (a : A) : list (list A) :=
  match ls with [] => [] | [l] => [l ++ [a]] | l :: ls' => l :: extend_last ls' a end.

Definition overlap_step (s : overlap_state) (b : BlockMeta) : overlap_state :=
  let newPending := List.filter (fun p => MinTime b <? MaxTime p) (o_pending s) in
  let continuous := o_continuous s && forallb (fun p => MinTime b <? MaxTime p) (o_pending s) in
  let pending := newPending ++ [b] in
  match newPending with
  | [] => mk_ostate pending continuous (o_overlaps s)
  | _ =>
      if continuous && (0 <? length (o_overlaps s))%nat
      then mk_ostate pending continuous (extend_last (o_overlaps s) b)
      else mk_ostate pending true (o_overlaps s ++ [newPending ++ [b]])
  end.

Definition overlap_groups (bm : list BlockMeta) : list (list BlockMeta) :=
  match bm with
  | b0 :: (_ :: _) as bs => o_overlaps (foldl overlap_step (mk_ostate [b0] true []) bs)
  | _ => []
  end.

(** The critical time range of a group. *)
Definition critical_range (overlap : list BlockMeta) : TimeRange :=
  mk_TimeRange (foldl (fun m b => if m <? MinTime b then MinTime b else m) 0 overlap)
               (foldl (fun m b => if MaxTime b <? m then MaxTime b else m) MaxInt64 overlap).

(** The map from ranges to groups, as the pairs that are inserted in order. *)
Definition OverlappingBlocks (bm : list BlockMeta) : list (TimeRange * list BlockMeta) :=
  map (fun g => (critical_range g, g)) (overlap_groups bm).

(** ** Retention *)

Definition b_maxt (b : Block) : Z := MaxTime (b_meta b).
Definition b_id (b : Block) : Z := ULID (b_meta b).

Fixpoint total_size (bs : list Block) : Z := match bs with [] => 0 | b :: bs => b_size b + total_size bs end.

(** Times whose differences do not overflow. *)
Definition small_time (t : Z) : Prop := - 2 ^ 62 <= t < 2 ^ 62.

Lemma time_loop_spec newest retention bs :
  StronglySorted (by_key (fun b => - b_maxt b)) bs -> small_time newest -> Forall (fun b => small_time (b_maxt b)) bs ->
  forall b, b ∈ time_loop newest retention bs <-> b ∈ bs /\ retention <= newest - b_maxt b.
Proof.
  intros Hs Hn Ht. induction bs as [|a bs IH]; intros b; cbn [time_loop]; [set_solver|].
  apply StronglySorted_inv in Hs as [Hs Ha]. apply Forall_cons in Ht as [Hta Ht]. fold (b_maxt a).
  rewrite i64_id by (unfold small_time, is_i64, MinInt64, MaxInt64 in *; lia).
  destruct (Z.leb_spec retention (newest - b_maxt a)) as [Hle|Hgt].
  - split; [|by intros [? _]]. intros Hb. split; [done|]. apply elem_of_cons in Hb as [->|Hb]; [done|].
    rewrite Forall_forall in Ha. specialize (Ha b Hb). unfold by_key in Ha. lia.
  - rewrite IH by done. rewrite elem_of_cons. split; [tauto|]. intros [[->|Hb] Hr]; [lia|done].
Qed.

Lemma total_size_app a b : total_size (a ++ b) = total_size a + total_size b.
Proof. induction a as [|x a IH]; cbn; lia. Qed.

Lemma total_size_nonneg bs : Forall (fun b => 0 <= b_size b) bs -> 0 <= total_size bs.
Proof. induction 1; cbn; lia. Qed.

(** The size loop keeps the longest prefix that fits. *)
Lemma size_loop_spec limit bs : forall used,
  0 <= used -> Forall (fun b => 0 <= b_size b) bs -> used + total_size bs <= MaxInt64 ->
  exists kept, bs = kept ++ size_loop used limit bs /\ (kept = [] \/ used + total_size kept <= limit) /\
    match size_loop used limit bs with [] => True | b :: _ => limit < used + total_size kept + b_size b end.
Proof.
  induction bs as [|b bs IH]; intros used Hu Hs Hmax; cbn [size_loop]; [by exists []; split_and!; [|left|]|].
  apply Forall_cons in Hs as [Hb Hs]. pose proof (total_size_nonneg bs Hs). cbn [total_size] in Hmax.
  rewrite i64_id by (unfold is_i64, MinInt64; lia). destruct (Z.ltb_spec limit (used + b_size b)) as [Hlt|Hge].
  - exists []. split_and!; [done|by left|cbn; lia].
  - destruct (IH (used + b_size b)) as (kept & Heq & Hk & Hnext); [lia|done|lia|]. exists (b :: kept).
    cbn [total_size]. split_and!; [by rewrite <-app_comm_cons, <-Heq| |].
    + right. destruct Hk as [->|Hk]; [cbn; lia|lia].
    + case_match; [done|]. lia.
Qed.

(** The blocks that the size limit drops: everything behind the longest run of
    newest blocks that fits. *)
Definition size_split (db : DB) (blocks kept dropped : list Block) : Prop :=
  blocks ≡ₚ kept ++ dropped /\ (forall a b, a ∈ kept -> b ∈ dropped -> b_maxt b <= b_maxt a) /\
  (size_limit db <= 0 -> dropped = []) /\
  (0 < size_limit db -> (kept = [] \/ headSize db + total_size kept <= size_limit db) /\
     match dropped with [] => True | b :: _ => size_limit db < headSize db + total_size kept + b_size b end).

Lemma total_size_perm a b : a ≡ₚ b -> total_size a = total_size b.
Proof. induction 1; cbn in *; lia. Qed.

Lemma time_retention db b0 bs :
  0 < retentionDuration db -> StronglySorted (by_key (fun b => - b_maxt b)) (b0 :: bs) ->
  Forall (fun b => small_time (b_maxt b)) (b0 :: bs) ->
  forall u, u ∈ BeyondTimeRetention db (b0 :: bs) <->
    exists b, b ∈ b0 :: bs /\ b_id b = u /\ retentionDuration db <= b_maxt b0 - b_maxt b.
Proof.
  intros Hret Hsort Hok u. unfold BeyondTimeRetention. destruct (Z.eqb_spec (retentionDuration db) 0); [lia|].
  apply StronglySorted_inv in Hsort as [Hsort _]. apply Forall_cons in Hok as [H0 Hok].
  rewrite elem_of_list_to_set, list_elem_of_fmap. fold (b_maxt b0). setoid_rewrite (time_loop_spec _ _ _ Hsort H0 Hok).
  split.
  - intros (b & -> & Hb & Hle). exists b. split_and!; [by right|done|done].
  - intros (b & [->|Hb]%elem_of_cons & <- & Hle); [lia|]. by exists b.
Qed.

Lemma size_retention db b0 bs :
  0 <= headSize db -> StronglySorted (by_key (fun b => - b_maxt b)) (b0 :: bs) -> Forall (fun b => 0 <= b_size b) (b0 :: bs) ->
  headSize db + total_size (b0 :: bs) <= MaxInt64 ->
  exists kept dropped, size_split db (b0 :: bs) kept dropped /\
    forall u, u ∈ BeyondSizeRetention db (b0 :: bs) <-> exists b, b ∈ dropped /\ b_id b = u.
Proof.
  intros Hh Hsort Hs Htot. unfold BeyondSizeRetention. destruct (Z.leb_spec (size_limit db) 0) as [Hle|Hgt].
  - exists (b0 :: bs), []. split; [|set_solver]. split_and!; [by rewrite app_nil_r|set_solver|done|lia].
  - destruct (size_loop_spec (size_limit db) (b0 :: bs) (headSize db) Hh Hs Htot) as (kept & Heq & Hk & Hnext).
    exists kept, (size_loop (headSize db) (size_limit db) (b0 :: bs)). split.
    + split_and!; [by rewrite <-Heq| |lia|done]. intros a b Ha Hb. rewrite Heq in Hsort.
      apply StronglySorted_app in Hsort as (Hab & _ & _). specialize (Hab a b Ha Hb). unfold by_key in Hab. lia.
    + intros u. rewrite elem_of_list_to_set, list_elem_of_fmap. unfold b_id. naive_solver.
Qed.


(** A block of the witnesses. *)
Definition test_meta (ulid mint maxt : Z) (deletable : bool) : BlockMeta :=
  mk_BlockMeta ulid mint maxt (mk_BlockStats 0 0 0 0 0 0) (mk_BlockMetaCompaction 1 [] deletable [] false []) 1.
Definition test_block (ulid maxt size : Z) (deletable : bool) : Block := mk_Block (test_meta ulid (maxt - 10) maxt deletable) size.


(** ** Overlapping blocks *)

Definition alive (t : Z) (p : BlockMeta) : bool := t <? MaxTime p.

(** A reported group: at least two blocks, every two of which overlap. *)
Definition overlap_group (g : list BlockMeta) : Prop :=
  (2 <= length g)%nat /\ forall a b, a ∈ g -> b ∈ g -> MinTime a < MaxTime b.

Definition range_end (g : list BlockMeta) : Z := tr_Max (critical_range g).

(** Two blocks at different positions that overlap are in one group. *)
Definition covers (l : list BlockMeta) (gs : list (list BlockMeta)) : Prop :=
  forall i j a b, (i < j)%nat -> l !! i = Some a -> l !! j = Some b -> MinTime b < MaxTime a -> exists g, g ∈ gs /\ a ∈ g /\ b ∈ g.

Lemma filter_alive t t' l : t <= t' -> List.filter (alive t') (List.filter (alive t) l) = List.filter (alive t') l.
Proof.
  intros Ht. induction l as [|p l IH]; cbn; [done|].
  assert (Hp : alive t' p = true -> alive t p = true) by (unfold alive; lia).
  destruct (alive t p); cbn; destruct (alive t' p); try (by rewrite IH); by specialize (Hp eq_refl).
Qed.

Lemma extend_last_snoc {A} (gs : list (list A)) g a : extend_last (gs ++ [g]) a = gs ++ [g ++ [a]].
Proof. induction gs as [|h gs IH]; [done|]. cbn. destruct (gs ++ [g]) eqn:E; [by destruct gs|]. by rewrite <-IH. Qed.

Lemma foldl_min_spec g : forall m, let r := foldl (fun m b => if MaxTime b <? m then MaxTime b else m) m g in
  r <= m /\ (forall b, b ∈ g -> r <= MaxTime b) /\ (r = m \/ exists b, b ∈ g /\ r = MaxTime b).
Proof.
  induction g as [|b g IH]; intros m; cbn; [split_and!; [lia|set_solver|by left]|].
  specialize (IH (if MaxTime b <? m then MaxTime b else m)). cbn in IH. revert IH.
  set (r := foldl _ _ g). clearbody r. intros (H1 & H2 & H3). setoid_rewrite elem_of_cons.
  destruct (Z.ltb_spec (MaxTime b) m); split_and!; try lia; try (intros c [->|Hc]; [lia|by apply H2]).
  - destruct H3 as [->|(c & Hc & ->)]; right; eauto.
  - destruct H3 as [->|(c & Hc & ->)]; [by left|right; eauto].
Qed.

Lemma range_end_le g b : b ∈ g -> range_end g <= MaxTime b.
Proof. apply (foldl_min_spec g MaxInt64). Qed.

Lemma range_end_gt g t : t < MaxInt64 -> (forall b, b ∈ g -> t < MaxTime b) -> t < range_end g.
Proof. intros Ht Hg. destruct (foldl_min_spec g MaxInt64) as (_ & _ & [H|(b & Hb & H)]); unfold range_end, critical_range; cbn; rewrite H; [done|by apply Hg]. Qed.

(** The state after the blocks [l ++ [z]]: closed groups, then the open one if
    the run of pending blocks is still growing. *)
Definition overlap_inv (l : list BlockMeta) (z : BlockMeta) (s : overlap_state) : Prop :=
  o_pending s = List.filter (alive (MinTime z)) l ++ [z] /\
  exists closed open, o_overlaps s = closed ++ open /\ Forall overlap_group (closed ++ open) /\ covers (l ++ [z]) (closed ++ open) /\
    NoDup (map range_end closed) /\ Forall (fun g => range_end g <= MinTime z) closed /\
    ((open = [] /\ (o_continuous s = true -> closed = [])) \/ (open = [o_pending s] /\ o_continuous s = true)).

Lemma covers_snoc l b gs gs' :
  covers l gs -> (forall a a' g, g ∈ gs -> a ∈ g -> a' ∈ g -> exists g', g' ∈ gs' /\ a ∈ g' /\ a' ∈ g') ->
  (forall a, a ∈ l -> MinTime b < MaxTime a -> exists g, g ∈ gs' /\ a ∈ g /\ b ∈ g) -> covers (l ++ [b]) gs'.
Proof.
  intros Hc Hold Hnew i j x y Hij Hx Hy Hlt. apply lookup_snoc_Some in Hy as [[Hj Hy]|[-> ->]].
  - rewrite lookup_app_l in Hx by lia. destruct (Hc i j x y) as (g & Hg & Hxg & Hyg); [done..|]. by eapply Hold.
  - rewrite lookup_app_l in Hx by lia. apply list_elem_of_lookup_2 in Hx. by apply Hnew.
Qed.

(** The pending blocks that are still alive at [b] are those of all earlier
    blocks that are. *)
Lemma pending_alive l z b s :
  o_pending s = List.filter (alive (MinTime z)) l ++ [z] -> MinTime z <= MinTime b ->
  List.filter (alive (MinTime b)) (o_pending s) = List.filter (alive (MinTime b)) (l ++ [z]).
Proof. intros -> Hz. by rewrite !List.filter_app, filter_alive by done. Qed.

Lemma alive_group l b :
  Forall (fun a => MinTime a <= MinTime b) l -> MinTime b < MaxTime b -> List.filter (alive (MinTime b)) l <> [] ->
  overlap_group (List.filter (alive (MinTime b)) l ++ [b]).
Proof.
  intros Hl Hb Hne. rewrite Forall_forall in Hl. assert (Hmem : forall a, a ∈ List.filter (alive (MinTime b)) l ++ [b] -> MinTime a <= MinTime b < MaxTime a).
  { intros a [Ha|Ha]%elem_of_app; [|apply list_elem_of_singleton in Ha as ->; lia].
    apply list_elem_of_In, filter_In in Ha as [Ha%list_elem_of_In Hal]. unfold alive in Hal. specialize (Hl a Ha). lia. }
  split; [rewrite length_app; cbn; destruct (List.filter _ l); [done|cbn; lia]|].
  intros x y Hx%Hmem Hy%Hmem. lia.
Qed.

Lemma all_alive t l : forallb (alive t) l = true -> List.filter (alive t) l = l.
Proof. induction l as [|a l IH]; cbn; [done|]. destruct (alive t a); cbn; [|done]. intros H. by rewrite IH. Qed.

Lemma not_all_alive t l : forallb (alive t) l = false -> exists a, a ∈ l /\ MaxTime a <= t.
Proof.
  induction l as [|a l IH]; cbn; [done|]. unfold alive at 1. destruct (Z.ltb_spec t (MaxTime a)); cbn.
  - intros (c & ? & ?)%IH. exists c. split; [by right|done].
  - intros _. exists a. split; [by left|done].
Qed.

(** The group that grows or starts with [b]. *)
Lemma covers_step l b gs :
  covers l gs ->
  covers (l ++ [b]) (gs ++ [List.filter (alive (MinTime b)) l ++ [b]]).
Proof.
  intros Hc. eapply covers_snoc; [exact Hc| |].
  - intros a a' g Hg Ha Ha'. exists g. split; [set_solver|done].
  - intros a Ha Hlt. exists (List.filter (alive (MinTime b)) l ++ [b]). split; [set_solver|]. split; [|set_solver].
    apply elem_of_app. left. apply list_elem_of_In, filter_In. split; [by apply list_elem_of_In|]. unfold alive. lia.
Qed.

(** The range of the open group ends behind those of the closed ones. *)
Lemma open_range_end g z : MinTime z < MaxInt64 -> Forall overlap_group [g] -> z ∈ g -> MinTime z < range_end g.
Proof. intros Hz Hg Hin. rewrite Forall_singleton in Hg. apply range_end_gt; [done|]. intros x Hx. by apply Hg. Qed.

Lemma NoDup_open t closed g :
  NoDup (map range_end closed) -> Forall (fun g => range_end g <= t) closed -> t < range_end g -> NoDup (map range_end (closed ++ [g])).
Proof.
  intros Hnd Hcl Hlt. rewrite map_app, NoDup_app. split_and!; [done| |apply NoDup_singleton].
  intros r (g' & -> & Hg')%list_elem_of_fmap Hr%list_elem_of_singleton. rewrite Forall_forall in Hcl.
  specialize (Hcl g' Hg'). cbv beta in Hcl. lia.
Qed.

(** Once a pending block has ended, the open group is closed: its range ends
    before the current time, and behind those of the groups closed earlier. *)
Lemma close_group closed op z b s :
  Forall overlap_group (closed ++ op) -> NoDup (map range_end closed) -> Forall (fun g => range_end g <= MinTime z) closed ->
  z ∈ o_pending s -> MinTime z <= MinTime b -> MinTime b < MaxInt64 ->
  (op = [] \/ (op = [o_pending s] /\ o_continuous s = true)) ->
  o_continuous s && forallb (alive (MinTime b)) (o_pending s) = false ->
  NoDup (map range_end (closed ++ op)) /\ Forall (fun g => range_end g <= MinTime b) (closed ++ op).
Proof.
  intros Hg Hnd Hcl Hz Hzb Hmax Hopen Hc.
  assert (Hclb : Forall (fun g => range_end g <= MinTime b) closed) by (eapply Forall_impl; [exact Hcl|]; intros ? ?; cbv beta in *; lia).
  destruct Hopen as [->|[-> Hcont]]; [by rewrite app_nil_r|]. rewrite Hcont in Hc. cbn in Hc.
  destruct (not_all_alive _ _ Hc) as (a & Ha & Hend).
  split; [eapply NoDup_open; [done|exact Hcl|by apply open_range_end; [lia|apply Forall_app in Hg as [_ Hg]|]]|].
  apply Forall_app. split; [done|]. rewrite Forall_singleton. pose proof (range_end_le _ _ Ha). lia.
Qed.

Lemma overlap_step_inv l z b s :
  overlap_inv l z s -> Forall (fun a => MinTime a <= MinTime b) (l ++ [z]) -> MinTime b < MaxTime b -> MinTime b < MaxInt64 ->
  overlap_inv (l ++ [z]) b (overlap_step s b).
Proof.
  intros (Hp & closed & op & Ho & Hg & Hcov & Hnd & Hcl & Hopen) Hsort Hb Hmax.
  assert (Hzb : MinTime z <= MinTime b) by (rewrite Forall_forall in Hsort; apply Hsort; set_solver).
  pose proof (pending_alive l z b s Hp Hzb) as Hnp. unfold overlap_step. fold (alive (MinTime b)). rewrite Hnp, Ho.
  set (np := List.filter (alive (MinTime b)) (l ++ [z])) in *.
  assert (Hgrp : np <> [] -> overlap_group (np ++ [b])) by (intros; by apply alive_group).
  assert (Hz : z ∈ o_pending s) by (rewrite Hp; set_solver).
  pose proof (close_group closed op z b s Hg Hnd Hcl Hz Hzb Hmax) as Hclose.
  specialize (Hclose ltac:(naive_solver)).
  pose proof (covers_step (l ++ [z]) b _ Hcov) as Hcov'. fold np in Hcov'.
  destruct (o_continuous s && forallb (alive (MinTime b)) (o_pending s)) eqn:Ec; cbn [andb].
  - apply andb_prop in Ec as [Hcont Hall]. rewrite (all_alive _ _ Hall) in Hnp.
    assert (Hne : np <> []) by (rewrite <-Hnp; intros E; rewrite E in Hz; by apply not_elem_of_nil in Hz).
    destruct np as [|n0 np'] eqn:En; [done|]. rewrite <-En in *. specialize (Hgrp Hne).
    destruct Hopen as [[-> Hempty]|[-> _]].
    + rewrite (Hempty Hcont) in *. cbn. split; [done|]. exists [], [np ++ [b]]. cbn in *.
      split_and!; [done|by constructor|done|constructor|constructor|by right].
    + rewrite length_app. cbn [length]. rewrite (proj2 (Nat.ltb_lt 0 (length closed + 1))) by lia. rewrite extend_last_snoc, Hnp.
      split; [done|]. exists closed, [np ++ [b]]. cbn [o_overlaps o_pending o_continuous]. split_and!; [done| | |done| |by right].
      * apply Forall_app in Hg as [Hg _]. apply Forall_app. split; [done|by constructor].
      * intros i j x y Hij Hx Hy Hlt. destruct (Hcov' i j x y) as (g & Hgi & Hxg & Hyg); [done..|].
        rewrite <-app_assoc, !elem_of_app, !list_elem_of_singleton in Hgi. destruct Hgi as [Hgi|[ -> | -> ]]; [exists g; set_solver| |].
        -- exists (np ++ [b]). rewrite Hnp in *. set_solver.
        -- exists (np ++ [b]). set_solver.
      * eapply Forall_impl; [exact Hcl|]. intros ? ?; cbv beta in *; lia.
  - destruct (Hclose eq_refl) as [Hnd' Hcl']. destruct np as [|n0 np'] eqn:En.
    + split; [unfold np in En; cbn; by rewrite En|]. exists (closed ++ op), []. cbn [o_overlaps o_pending o_continuous]. rewrite app_nil_r. split_and!; [done..| |done|done|by left].
      eapply covers_snoc; [exact Hcov|eauto|]. intros a Ha Hlt. exfalso. assert (a ∈ np) as Hin; [|rewrite En in Hin; by apply not_elem_of_nil in Hin].
      apply list_elem_of_In, filter_In. split; [by apply list_elem_of_In|unfold alive; lia].
    + rewrite <-En in *. split; [done|]. exists (closed ++ op), [np ++ [b]]. cbn [o_overlaps o_pending o_continuous]. split_and!; [done| |done|done|done|by right].
      apply Forall_app. split; [done|]. constructor; [|done]. apply Hgrp. by rewrite En.
Qed.

Lemma overlap_groups_inv b0 bs :
  StronglySorted (by_key MinTime) (b0 :: bs) -> Forall (fun b => MinTime b < MaxTime b /\ MinTime b < MaxInt64) (b0 :: bs) ->
  exists l z, b0 :: bs = l ++ [z] /\ overlap_inv l z (foldl overlap_step (mk_ostate [b0] true []) bs).
Proof.
  intros Hs Hok. induction bs as [|b bs IH] using rev_ind.
  - exists [], b0. split; [done|]. split; [done|]. exists [], []. split_and!; [done|constructor| |constructor|constructor|by left].
    intros i j x y Hij Hx Hy. destruct j; [lia|]. by destruct j.
  - rewrite app_comm_cons in Hs, Hok. apply StronglySorted_app in Hs as (Hle & Hs & _). apply Forall_app in Hok as [Hok [Hb1 Hb2]%Forall_singleton].
    destruct (IH Hs Hok) as (l & z & Hl & Hinv). exists (l ++ [z]), b. split; [by rewrite app_comm_cons, Hl|].
    rewrite foldl_app. cbn [foldl]. apply overlap_step_inv; [done| |done|done]. rewrite <-Hl. apply Forall_forall.
    intros a Ha. apply (Hle a b Ha). by apply list_elem_of_singleton.
Qed.

(** On blocks sorted by start time, the overlap report is exact: every
    reported group has at least two blocks and any two of them overlap, every
    two blocks of the input that overlap are together in some group, and no two
    groups have the same range, so that none is lost when they are put into a
    map by their range. *)
Theorem OverlappingBlocks_exact (bm : list BlockMeta) :
  StronglySorted (by_key MinTime) bm -> Forall (fun b => MinTime b < MaxTime b /\ MinTime b < MaxInt64) bm ->
  Forall overlap_group (map snd (OverlappingBlocks bm)) /\ covers bm (map snd (OverlappingBlocks bm)) /\
  NoDup (map fst (OverlappingBlocks bm)).
Proof.
  intros Hs Hok. unfold OverlappingBlocks. rewrite !map_map. cbn. rewrite map_id.
  destruct bm as [|b0 bs]; [split_and!; [constructor| |constructor]; intros i j x y _ Hx; by rewrite lookup_nil in Hx|].
  destruct (overlap_groups_inv b0 bs Hs Hok) as (l & z & Hl & Hp & closed & op & Ho & Hg & Hcov & Hnd & Hcl & Hopen).
  assert (Hgs : overlap_groups (b0 :: bs) = closed ++ op) by (rewrite <-Ho; by destruct bs). rewrite Hgs, Hl.
  split_and!; [done|done|]. apply (NoDup_fmap_1 tr_Max). rewrite <-list_fmap_compose. change (NoDup (map range_end (closed ++ op))).
  destruct Hopen as [[-> _]|[-> _]]; [by rewrite app_nil_r|]. eapply NoDup_open; [done|exact Hcl|].
  rewrite Forall_forall in Hok. apply open_range_end; [|by apply Forall_app in Hg as [_ Hg]|rewrite Hp; set_solver].
  apply Hok. rewrite Hl. set_solver.
Qed.

Lemma OverlappingBlocks_exact_witness :
  let bm := [test_meta 1 0 10 false; test_meta 2 5 20 false; test_meta 3 12 30 false; test_meta 4 15 18 false; test_meta 5 40 50 false] in
  map (fun p => (tr_Min (fst p), tr_Max (fst p), map ULID (snd p))) (OverlappingBlocks bm) = [(5, 10, [1; 2]); (15, 18, [2; 3; 4])] /\
  covers bm (map snd (OverlappingBlocks bm)).
Proof.
  intros bm. split; [by vm_compute|]. apply OverlappingBlocks_exact; unfold by_key; repeat constructor; vm_compute; (done || intros; discriminate).
Defined.

(** The reported range starts at 0 whatever the blocks: for blocks before 1970
    it ends before it starts. *)
Theorem critical_range_negative (g : list BlockMeta) :
  g <> [] -> Forall (fun b => MinTime b < MaxTime b < 0) g -> tr_Max (critical_range g) < tr_Min (critical_range g).
Proof.
  intros Hne Hg. cbn. assert (Hmin : foldl (fun m b => if m <? MinTime b then MinTime b else m) 0 g = 0).
  { clear Hne. induction Hg as [|b g Hb Hg IH]; cbn; [done|]. by destruct (Z.ltb_spec 0 (MinTime b)); [lia|]. }
  rewrite Hmin. destruct g as [|b g]; [done|]. pose proof (range_end_le (b :: g) b ltac:(set_solver)) as Hle.
  apply Forall_cons in Hg as [Hb _]. unfold range_end, critical_range in Hle. cbn [tr_Max] in Hle. lia.
Qed.
