(* ===== verification/Labels.v ===== *)
(** model/labels: label sets as one flat string (labels_stringlabels.go, the
    default build): decoding, encoding, lookup, comparison, hashing input.

    A Go string is its list of bytes.  Functions that index into a malformed
    string panic in Go; here they return [None].  xxhash is a parameter. *)
From stdpp Require Import sorting.
From S2P Require Import Prelude.

(** ** Strings *)

Notation gostr := (list Z).

Fixpoint str_compare (a b : gostr) : comparison :=
  match a, b with
  | [], [] => Eq
  | [], _ => Lt
  | _, [] => Gt
  | x :: a, y :: b => match x ?= y with Eq => str_compare a b | c => c end
  end.

(** Go's [<] on strings. *)
Definition str_ltb (a b : gostr) : bool := match str_compare a b with Lt => true | _ => false end.
Definition str_le (a b : gostr) : Prop := str_ltb b a = false.
Definition str_eqb (a b : gostr) : bool := bool_decide (a = b).

(** [data[lo:hi]], which panics when the bounds do not fit. *)
Definition slice (data : gostr) (lo hi : nat) : option gostr :=
  if (lo <=? hi)%nat && (hi <=? length data)%nat then Some (take (hi - lo) (drop lo data)) else None.

(** [MetricName], "__name__". *)
Definition MetricName : gostr := [95; 95; 110; 97; 109; 101; 95; 95].
(** [AlertName], "alertname". *)
Definition AlertName : gostr := [97; 108; 101; 114; 116; 110; 97; 109; 101].
Definition sep : Z := 0xff.

Record Label := mk_Label { Name : gostr; Value : gostr }.

#[global] Instance Label_eq_dec : EqDecision Label.
Proof. solve_decision. Defined.

(** [Labels], its one field. *)
Record Labels := mk_Labels { data : gostr }.
#[global] Instance Labels_eq_dec : EqDecision Labels.
Proof. solve_decision. Defined.

(** ** Decoding *)

Definition decodeSize (data : gostr) (index : nat) : option (nat * nat) :=
  b ← data !! index;
  let index := S index in
  if b =? 255 then
    b0 ← data !! index;
    b1 ← data !! (index + 1)%nat;
    b2 ← data !! (index + 2)%nat;
    Some (Z.to_nat (b0 + Z.shiftl b1 8 + Z.shiftl b2 16), index + 3)%nat
  else Some (Z.to_nat b, index).

Definition decodeString (data : gostr) (index : nat) : option (gostr * nat) :=
  '(size, index) ← decodeSize data index;
  s ← slice data index (index + size);
  Some (s, index + size)%nat.

(** The loop that most methods share: decode a name and a value, run the body
    on them and on the bytes they take, until the data ends or the body breaks.
    Every round consumes two bytes at least, so the data's length is enough
    fuel. *)
Inductive loop_step (T : Type) := Continue (s : T) | Break (s : T).
Arguments Continue {T} s.
Arguments Break {T} s.

Fixpoint for_labels_from {T} (fuel : nat) (data : gostr) (pos : nat)
    (body : T -> gostr -> gostr -> gostr -> loop_step T) (s : T) : option T :=
  if (pos <? length data)%nat then
    match fuel with
    | O => None
    | S fuel' =>
        '(lName, newPos) ← decodeString data pos;
        '(lValue, newPos) ← decodeString data newPos;
        match body s lName lValue (take (newPos - pos) (drop pos data)) with
        | Continue s' => for_labels_from fuel' data newPos body s'
        | Break s' => Some s'
        end
    end
  else Some s.

Definition for_labels {T} (ls : Labels) : (T -> gostr -> gostr -> gostr -> loop_step T) -> T -> option T :=
  for_labels_from (length (data ls)) (data ls) 0.

(** Range, as the list of labels its callback is called on. *)
Definition Labels_Range (ls : Labels) : option (list Label) :=
  for_labels ls (fun acc n v _ => Continue (acc ++ [mk_Label n v])) [].

(** Validate: the first error of [f]. *)
Definition Labels_Validate {E} (f : Label -> option E) (ls : Labels) : option (option E) :=
  for_labels ls (fun _ n v _ => match f (mk_Label n v) with None => Continue None | Some e => Break (Some e) end) None.

Definition Labels_Map (ls : Labels) : option (gmap gostr gostr) :=
  for_labels ls (fun m n v _ => Continue (<[n := v]> m)) ∅.

Definition HasDuplicateLabelNames (ls : Labels) : option (gostr * bool) :=
  r ← for_labels (T := gostr * bool) ls (fun '(prevName, dup) n _ _ => if str_eqb n prevName then Break (n, true) else Continue (n, dup)) ([], false);
  Some (if (snd r : bool) then r else ([], false)).

(** [for j < len(names) && names[j] < name { j++ }], on [names[j:]]. *)
Fixpoint skip_less (name : gostr) (names : list gostr) : list gostr :=
  match names with [] => [] | n :: ns => if str_ltb n name then skip_less name ns else names end.

Definition hash_entry (n v : gostr) : gostr := n ++ [sep] ++ v ++ [sep].

Section Hashing.
Context (Sum64 : gostr -> Z).

Definition Labels_Hash (ls : Labels) : Z := Sum64 (data ls).

Definition HashForLabels (ls : Labels) (names : list gostr) : option (Z * gostr) :=
  r ← for_labels (T := list gostr * gostr) ls (fun '(ns, b) n v _ =>
        match skip_less n ns with
        | [] => Break ([], b)
        | m :: _ => Continue (skip_less n ns, if str_eqb n m then b ++ hash_entry n v else b)
        end) (names, []);
  Some (Sum64 (snd r), snd r).

Definition HashWithoutLabels (ls : Labels) (names : list gostr) : option (Z * gostr) :=
  r ← for_labels (T := list gostr * gostr) ls (fun '(ns, b) n v _ =>
        let ns := skip_less n ns in
        if str_eqb n MetricName || match ns with m :: _ => str_eqb n m | [] => false end
        then Continue (ns, b) else Continue (ns, b ++ hash_entry n v)) (names, []);
  Some (Sum64 (snd r), snd r).
End Hashing.

Definition BytesWithLabels (ls : Labels) (names : list gostr) : option gostr :=
  r ← for_labels (T := list gostr * gostr) ls (fun '(ns, b) n _ raw =>
        match skip_less n ns with
        | [] => Break ([], b)
        | m :: _ => Continue (skip_less n ns, if str_eqb n m then b ++ raw else b)
        end) (names, []);
  Some (snd r).

Definition BytesWithoutLabels (ls : Labels) (names : list gostr) : option gostr :=
  r ← for_labels (T := list gostr * gostr) ls (fun '(ns, b) n _ raw =>
        let ns := skip_less n ns in
        match ns with
        | m :: _ => Continue (ns, if str_eqb n m then b else b ++ raw)
        | [] => Continue (ns, b ++ raw)
        end) (names, []);
  Some (snd r).

(** The first loop stops at the first blank value with the bytes before it; the
    second copies the labels behind it that are not blank.  [s] is the buffer
    and whether the first blank has been seen. *)
Definition WithoutEmpty (ls : Labels) : option Labels :=
  r ← for_labels (T := gostr * bool) ls (fun '(buf, blank) _ v raw =>
        match v with [] => Continue (buf, true) | _ => Continue (buf ++ raw, blank) end) ([], false);
  Some (if snd r : bool then mk_Labels (fst r) else ls).

(** ** Lookup *)

(** The common loop of Get and Has: the value's position, when found. *)
Fixpoint find_from (fuel : nat) (data : gostr) (name : gostr) (c : Z) (i : nat) : option (option nat) :=
  if (i <? length data)%nat then
    match fuel with
    | O => None
    | S fuel' =>
        '(size, i) ← decodeSize data i;
        d ← data !! i;
        if d =? c then
          lName ← slice data i (i + size);
          let i := (i + size)%nat in
          if str_eqb lName name then Some (Some i)
          else '(size, i) ← decodeSize data i; find_from fuel' data name c (i + size)
        else if c <? d then Some None
        else '(size, i) ← decodeSize data (i + size); find_from fuel' data name c (i + size)
    end
  else Some None.

Definition Labels_Get (ls : Labels) (name : gostr) : option gostr :=
  match name with
  | [] => Some []
  | c :: _ =>
      r ← find_from (length (data ls)) (data ls) name c 0;
      match r with
      | Some i => '(v, _) ← decodeString (data ls) i; Some v
      | None => Some []
      end
  end.

Definition Labels_Has (ls : Labels) (name : gostr) : option bool :=
  match name with
  | [] => Some false
  | c :: _ => r ← find_from (length (data ls)) (data ls) name c 0; Some (bool_decide (is_Some r))
  end.

Fixpoint len_from (fuel : nat) (data : gostr) (i count : nat) : option nat :=
  if (i <? length data)%nat then
    match fuel with
    | O => None
    | S fuel' =>
        '(size, i) ← decodeSize data i;
        '(size, i) ← decodeSize data (i + size);
        len_from fuel' data (i + size) (S count)
    end
  else Some count.

Definition Labels_Len (ls : Labels) : option nat := len_from (length (data ls)) (data ls) 0 0.

(** DropReserved: [lName[0]] panics on a blank name. *)
Fixpoint drop_from (fuel : nat) (shouldDropFn : gostr -> bool) (data : gostr) (i : nat) : option gostr :=
  if (i <? length data)%nat then
    match fuel with
    | O => None
    | S fuel' =>
        '(lName, i2) ← decodeString data i;
        '(size, i2) ← decodeSize data i2;
        let i2 := (i2 + size)%nat in
        c ← lName !! 0%nat;
        if 95 <? c then Some data
        else if shouldDropFn lName then drop_from fuel' shouldDropFn (take i data ++ drop i2 data) i
        else drop_from fuel' shouldDropFn data i2
    end
  else Some data.

Definition DropReserved (shouldDropFn : gostr -> bool) (ls : Labels) : option Labels :=
  d ← drop_from (length (data ls)) shouldDropFn (data ls) 0; Some (mk_Labels d).

Definition DropMetricName : Labels -> option Labels := DropReserved (fun n => str_eqb n MetricName).

(** ** Encoding *)

(** Panics on strings that are too long. *)
Definition sizeWhenEncoded (x : Z) : option nat :=
  if x <? 255 then Some 1%nat else if x <=? Z.shiftl 1 24 then Some 4%nat else None.

(** Overwrites [data[i:i+len(bs)]]. *)
Definition put (data : gostr) (i : nat) (bs : gostr) : option gostr :=
  if (i + length bs <=? length data)%nat then Some (take i data ++ bs ++ drop (i + length bs) data) else None.

(** An offset that is lowered by [k]; a negative index panics. *)
Definition back (offset k : nat) : option nat := if (k <=? offset)%nat then Some (offset - k)%nat else None.

Definition encodeSize (data : gostr) (offset : nat) (v : Z) : option (gostr * nat) :=
  if v <? 255 then
    offset ← back offset 1;
    data ← put data offset [u8 v];
    Some (data, offset)
  else
    offset ← back offset 4;
    data ← put data offset [255; u8 v; u8 (Z.shiftr v 8); u8 (Z.shiftr v 16)];
    Some (data, offset).

Definition marshalLabelToSizedBuffer (m : Label) (data : gostr) : option (gostr * nat) :=
  let i := length data in
  i ← back i (length (Value m));
  data ← put data i (Value m);
  '(data, i) ← encodeSize data i (Z.of_nat (length (Value m)));
  i ← back i (length (Name m));
  data ← put data i (Name m);
  '(data, i) ← encodeSize data i (Z.of_nat (length (Name m)));
  Some (data, length data - i)%nat.

(** The labels from the last to the first, each into [data[:i]]. *)
Fixpoint marshal_backward (rlbls : list Label) (data : gostr) (i : nat) : option gostr :=
  match rlbls with
  | [] => Some data
  | v :: rlbls =>
      '(d, size) ← marshalLabelToSizedBuffer v (take i data);
      marshal_backward rlbls (d ++ drop i data) (i - size)
  end.

Definition marshalLabelsToSizedBuffer (lbls : list Label) (data : gostr) : option gostr :=
  marshal_backward (reverse lbls) data (length data).

Definition labelSize (m : Label) : option nat :=
  n1 ← sizeWhenEncoded (Z.of_nat (length (Name m)));
  n2 ← sizeWhenEncoded (Z.of_nat (length (Value m)));
  Some (length (Name m) + n1 + (length (Value m) + n2))%nat.

Fixpoint labelsSize (lbls : list Label) : option nat :=
  match lbls with
  | [] => Some 0%nat
  | e :: lbls => n ← labelSize e; k ← labelsSize lbls; Some (n + k)%nat
  end.

(** The buffer is extended by the label's size and the label is written at its
    end; what the new part held before does not matter. *)
Definition appendLabelTo (buf : gostr) (m : Label) : option gostr :=
  size ← labelSize m;
  '(buf, _) ← marshalLabelToSizedBuffer m (buf ++ repeat 0 size);
  Some buf.

Definition by_name (a b : Label) : Prop := str_le (Name a) (Name b).
#[global] Instance str_le_dec a b : Decision (str_le a b).
Proof. unfold str_le. apply _. Defined.
#[global] Instance by_name_dec a b : Decision (by_name a b).
Proof. unfold by_name. apply _. Defined.

Definition marshalLabels (ls : list Label) : option Labels :=
  size ← labelsSize ls;
  d ← marshalLabelsToSizedBuffer ls (repeat 0 size);
  Some (mk_Labels d).

(** New: the caller guarantees that the names are unique, so that it does not
    matter which order the sort gives equal names. *)
Definition New (ls : list Label) : option Labels := marshalLabels (merge_sort by_name ls).

Fixpoint pairs (ss : list gostr) : list Label :=
  match ss with n :: v :: ss => mk_Label n v :: pairs ss | _ => [] end.

Definition FromStrings (ss : list gostr) : option Labels :=
  if Nat.even (length ss) then New (pairs ss) else None.

Definition FromMap (m : gmap gostr gostr) : option Labels :=
  New (map (fun kv => mk_Label (fst kv) (snd kv)) (map_to_list m)).

(** ** Comparison *)

Definition Labels_Equal (ls o : Labels) : bool := str_eqb (data ls) (data o).

(** Eight bytes at a time, while more than eight are left. *)
Fixpoint diff_words (fuel : nat) (shorter longer : gostr) (i : nat) : nat :=
  match fuel with
  | O => i
  | S fuel' =>
      if (i + 8 <? length shorter)%nat then
        if str_eqb (take 8 (drop i shorter)) (take 8 (drop i longer)) then diff_words fuel' shorter longer (i + 8) else i
      else i
  end.

Fixpoint diff_bytes (fuel : nat) (shorter longer : gostr) (i : nat) : nat :=
  match fuel with
  | O => i
  | S fuel' =>
      if (i <? length shorter)%nat then
        if bool_decide (shorter !! i = longer !! i) then diff_bytes fuel' shorter longer (S i) else i
      else i
  end.

(** The start of the field that holds the byte at [firstCharDifferent]. *)
Fixpoint find_field (fuel : nat) (a : gostr) (firstCharDifferent i : nat) : option nat :=
  match fuel with
  | O => None
  | S fuel' =>
      '(size, nextI) ← decodeSize a i;
      if (nextI + size <=? firstCharDifferent)%nat then find_field fuel' a firstCharDifferent (nextI + size) else Some i
  end.

Definition Labels_Compare (a b : Labels) : option Z :=
  let '(shorter, longer) := if (length (data b) <? length (data a))%nat then (data b, data a) else (data a, data b) in
  let i := diff_words (length shorter) shorter longer 0 in
  let i := diff_bytes (length shorter) shorter longer i in
  if (i =? length shorter)%nat then Some (Z.of_nat (length (data a)) - Z.of_nat (length (data b)))
  else
    i ← find_field (S (length (data a))) (data a) i 0;
    '(aStr, _) ← decodeString (data a) i;
    '(bStr, _) ← decodeString (data b) i;
    Some (if str_ltb aStr bStr then -1 else 1).

(** ** The encoding of a list of labels *)

Definition enc_size (v : Z) : gostr :=
  if v <? 255 then [v] else [255; u8 v; u8 (Z.shiftr v 8); u8 (Z.shiftr v 16)].
Definition enc_string (s : gostr) : gostr := enc_size (Z.of_nat (length s)) ++ s.
Definition enc_label (l : Label) : gostr := enc_string (Name l) ++ enc_string (Value l).
Definition encode (ls : list Label) : gostr := concat (map enc_label ls).
Definition of_list (ls : list Label) : Labels := mk_Labels (encode ls).

(** Strings whose length the encoding can hold. *)
Definition short (s : gostr) : Prop := Z.of_nat (length s) < 2 ^ 24.
Definition short_label (l : Label) : Prop := short (Name l) /\ short (Value l).

Lemma length_enc_string s : (1 <= length (enc_string s))%nat.
Proof. unfold enc_string, enc_size. destruct (_ <? _); rewrite length_app; cbn; lia. Qed.

Lemma lookup_at {A} (pre : list A) rest (i : nat) : (pre ++ rest) !! (length pre + i)%nat = rest !! i.
Proof. rewrite lookup_app_r by lia. f_equal. lia. Qed.

Lemma lookup_at0 {A} (pre : list A) rest : (pre ++ rest) !! length pre = rest !! 0%nat.
Proof. rewrite <-(lookup_at pre rest 0). f_equal. lia. Qed.

Lemma three_bytes v : 0 <= v < 2 ^ 24 -> u8 v + Z.shiftl (u8 (Z.shiftr v 8)) 8 + Z.shiftl (u8 (Z.shiftr v 16)) 16 = v.
Proof.
  intros Hv. unfold u8. rewrite !Z.shiftr_div_pow2, !Z.shiftl_mul_pow2 by lia.
  change (2 ^ 24) with 16777216 in Hv. change (2 ^ 8) with 256. change (2 ^ 16) with 65536. Z.div_mod_to_equations. lia.
Qed.

Lemma decodeSize_enc pre v rest :
  0 <= v < 2 ^ 24 -> decodeSize (pre ++ enc_size v ++ rest) (length pre) = Some (Z.to_nat v, length pre + length (enc_size v))%nat.
Proof.
  intros Hv. unfold decodeSize, enc_size. destruct (Z.ltb_spec v 255).
  - cbn [app]. rewrite lookup_at0. cbn. destruct (Z.eqb_spec v 255); [lia|]. do 2 f_equal. lia.
  - cbn [app]. rewrite lookup_at0. cbn [mbind option_bind lookup list_lookup]. cbn [Z.eqb Pos.eqb].
    replace (S (length pre)) with (length pre + 1)%nat by lia. rewrite <-!Nat.add_assoc, !lookup_at. cbn. by rewrite three_bytes.
Qed.

Lemma slice_at (pre s rest : gostr) : slice (pre ++ s ++ rest) (length pre) (length pre + length s) = Some s.
Proof.
  unfold slice. rewrite !length_app. replace (_ <=? _)%nat with true by (symmetry; apply Nat.leb_le; lia).
  replace (_ <=? _)%nat with true by (symmetry; apply Nat.leb_le; lia). cbn. rewrite drop_app_length.
  replace (length pre + length s - length pre)%nat with (length s) by lia. by rewrite take_app_length.
Qed.

Lemma decodeString_enc pre s rest :
  short s -> decodeString (pre ++ enc_string s ++ rest) (length pre) = Some (s, length pre + length (enc_string s))%nat.
Proof.
  intros Hs. unfold decodeString, enc_string. rewrite <-app_assoc, decodeSize_enc by (unfold short in Hs; lia). cbn.
  rewrite Nat2Z.id. rewrite (app_assoc pre), <-length_app, slice_at. cbn. rewrite !length_app. do 2 f_equal. lia.
Qed.

Lemma length_enc_label l : (2 <= length (enc_label l))%nat.
Proof. unfold enc_label. rewrite length_app. pose proof (length_enc_string (Name l)). pose proof (length_enc_string (Value l)). lia. Qed.

Lemma decode_name pre l rest :
  short (Name l) -> decodeString (pre ++ enc_label l ++ rest) (length pre) = Some (Name l, length (pre ++ enc_string (Name l))).
Proof. intros Hs. unfold enc_label. by rewrite <-app_assoc, decodeString_enc, length_app. Qed.

Lemma decode_value pre l rest :
  short (Value l) -> decodeString (pre ++ enc_label l ++ rest) (length (pre ++ enc_string (Name l))) = Some (Value l, length (pre ++ enc_label l)).
Proof. intros Hs. unfold enc_label. rewrite <-app_assoc, (app_assoc pre), decodeString_enc by done. by rewrite !length_app, Nat.add_assoc. Qed.

(** What the shared loop computes on an encoded list. *)
Fixpoint fold_labels {T} (body : T -> gostr -> gostr -> gostr -> loop_step T) (s : T) (ls : list Label) : T :=
  match ls with
  | [] => s
  | l :: ls => match body s (Name l) (Value l) (enc_label l) with Continue s' => fold_labels body s' ls | Break s' => s' end
  end.

Lemma for_labels_from_enc {T} (body : T -> gostr -> gostr -> gostr -> loop_step T) ls : forall fuel pre s,
  Forall short_label ls -> (length ls <= fuel)%nat ->
  for_labels_from fuel (pre ++ encode ls) (length pre) body s = Some (fold_labels body s ls).
Proof.
  induction ls as [|l ls IH]; intros fuel pre s Hs Hf.
  - unfold encode. cbn [map concat]. rewrite app_nil_r. destruct fuel; cbn [for_labels_from]; by rewrite Nat.ltb_irrefl.
  - apply Forall_cons in Hs as [[Hn Hv] Hs]. destruct fuel as [|fuel]; [cbn in Hf; lia|]. cbn [for_labels_from].
    change (encode (l :: ls)) with (enc_label l ++ encode ls).
    rewrite (proj2 (Nat.ltb_lt _ _)) by (rewrite !length_app; pose proof (length_enc_label l); lia).
    rewrite decode_name by done. cbn [mbind option_bind]. rewrite decode_value by done. cbn [mbind option_bind].
    rewrite drop_app_length, take_app_length' by (rewrite length_app; lia).
    cbn [fold_labels]. destruct (body _ _ _ _); [|done]. rewrite (app_assoc pre). apply IH; [done|cbn in Hf; lia].
Qed.

Lemma length_encode ls : (length ls <= length (encode ls))%nat.
Proof.
  induction ls as [|l ls IH]; [done|]. change (encode (l :: ls)) with (enc_label l ++ encode ls). unfold enc_label.
  rewrite !length_app. pose proof (length_enc_string (Name l)). cbn. lia.
Qed.

Lemma for_labels_enc {T} (body : T -> gostr -> gostr -> gostr -> loop_step T) s ls :
  Forall short_label ls -> for_labels (of_list ls) body s = Some (fold_labels body s ls).
Proof. intros Hs. apply (for_labels_from_enc body ls _ []); [done|apply length_encode]. Qed.

(** A body that never breaks is a fold. *)
Lemma fold_labels_foldl {T} (f : T -> Label -> T) s ls :
  fold_labels (fun s n v _ => Continue (f s (mk_Label n v))) s ls = foldl f s ls.
Proof. revert s. induction ls as [|[n v] ls IH]; intros s; [done|]. cbn. apply IH. Qed.

Lemma foldl_snoc {A} (l acc : list A) : foldl (fun acc x => acc ++ [x]) acc l = acc ++ l.
Proof. revert acc. induction l as [|x l IH]; intros acc; cbn; [by rewrite app_nil_r|]. by rewrite IH, <-app_assoc. Qed.

Lemma Range_enc ls : Forall short_label ls -> Labels_Range (of_list ls) = Some ls.
Proof.
  intros Hs. unfold Labels_Range. rewrite for_labels_enc by done.
  by rewrite (fold_labels_foldl (fun acc l => acc ++ [l])), foldl_snoc.
Qed.

(** ** Writing *)

Lemma put_back (d suf bs : gostr) i :
  (i <= length d)%nat -> (length bs <= i)%nat -> put (take i d ++ suf) (i - length bs) bs = Some (take (i - length bs) d ++ bs ++ suf).
Proof.
  intros Hi Hb. unfold put. rewrite length_app, length_take, (proj2 (Nat.leb_le _ _)) by lia. f_equal.
  rewrite take_app_le, take_take by (rewrite length_take; lia). f_equal; [f_equal; lia|]. f_equal.
  rewrite drop_app_ge by (rewrite length_take; lia). rewrite length_take. replace (_ - _)%nat with 0%nat by lia. done.
Qed.

Lemma back_sub offset k : (k <= offset)%nat -> back offset k = Some (offset - k)%nat.
Proof. intros H. unfold back. by rewrite (proj2 (Nat.leb_le _ _)). Qed.

Lemma encodeSize_enc d suf i v :
  0 <= v -> (i <= length d)%nat -> (length (enc_size v) <= i)%nat ->
  encodeSize (take i d ++ suf) i v = Some (take (i - length (enc_size v)) d ++ enc_size v ++ suf, i - length (enc_size v))%nat.
Proof.
  intros Hv Hi Hl. unfold encodeSize, enc_size in *. destruct (Z.ltb_spec v 255).
  - cbn [length] in *. rewrite back_sub by done. cbn [mbind option_bind]. rewrite u8_id by (unfold is_u8; lia).
    by rewrite (put_back d suf [v]).
  - cbn [length] in *. rewrite back_sub by done. cbn [mbind option_bind].
    by rewrite (put_back d suf [255; u8 v; u8 (Z.shiftr v 8); u8 (Z.shiftr v 16)]).
Qed.

Lemma marshal_enc m d :
  (length (enc_label m) <= length d)%nat ->
  marshalLabelToSizedBuffer m d = Some (take (length d - length (enc_label m)) d ++ enc_label m, length (enc_label m)).
Proof.
  unfold enc_label, enc_string. rewrite !length_app. intros Hl. unfold marshalLabelToSizedBuffer.
  rewrite back_sub by lia. cbn [mbind option_bind].
  assert (Hput := put_back d [] (Value m) (length d)). rewrite firstn_all, !app_nil_r in Hput. rewrite Hput by lia. cbn [mbind option_bind].
  rewrite encodeSize_enc by lia. cbn [mbind option_bind]. rewrite back_sub by lia. cbn [mbind option_bind].
  rewrite put_back by lia. cbn [mbind option_bind]. rewrite encodeSize_enc by lia. cbn [mbind option_bind].
  rewrite <-!app_assoc. do 2 f_equal; [f_equal; f_equal; lia|]. rewrite !length_app, length_take. lia.
Qed.

Lemma sizeWhenEncoded_enc s : short s -> sizeWhenEncoded (Z.of_nat (length s)) = Some (length (enc_size (Z.of_nat (length s)))).
Proof.
  unfold short. intros Hs. unfold sizeWhenEncoded, enc_size. change (Z.shiftl 1 24) with (2 ^ 24).
  destruct (_ <? _); [done|]. by destruct (Z.leb_spec (Z.of_nat (length s)) (2 ^ 24)); [|lia].
Qed.

Lemma labelSize_enc m : short_label m -> labelSize m = Some (length (enc_label m)).
Proof.
  intros [Hn Hv]. unfold labelSize. rewrite !sizeWhenEncoded_enc by done. cbn [mbind option_bind].
  unfold enc_label, enc_string. rewrite !length_app. f_equal. lia.
Qed.

Lemma appendLabelTo_enc buf m : short_label m -> appendLabelTo buf m = Some (buf ++ enc_label m).
Proof.
  intros Hm. unfold appendLabelTo. rewrite labelSize_enc by done. cbn [mbind option_bind].
  rewrite marshal_enc by (rewrite length_app, repeat_length; lia). cbn [mbind option_bind].
  rewrite length_app, repeat_length, Nat.add_sub. by rewrite take_app_length.
Qed.

Lemma encode_app a b : encode (a ++ b) = encode a ++ encode b.
Proof. unfold encode. by rewrite map_app, concat_app. Qed.

Lemma encode_singleton l : encode [l] = enc_label l.
Proof. apply app_nil_r. Qed.

Lemma marshal_backward_enc ls : forall d suf,
  (length (encode ls) <= length d)%nat ->
  marshal_backward (reverse ls) (d ++ suf) (length d) = Some (take (length d - length (encode ls)) d ++ encode ls ++ suf).
Proof.
  induction ls as [|v ls IH] using rev_ind; intros d suf.
  - intros _. cbn. by rewrite Nat.sub_0_r, firstn_all.
  - rewrite encode_app, encode_singleton, length_app, reverse_snoc. intros Hl. cbn [marshal_backward].
    rewrite take_app_length, drop_app_length, marshal_enc by lia. cbn [mbind option_bind].
    set (d' := take (length d - length (enc_label v)) d). assert (Hd' : length d' = (length d - length (enc_label v))%nat).
    { unfold d'. rewrite length_take. lia. }
    rewrite <-Hd', <-app_assoc, IH by lia. unfold d' at 2. rewrite take_take, Hd', <-!app_assoc. do 2 f_equal. f_equal. lia.
Qed.

Lemma labelsSize_enc ls : Forall short_label ls -> labelsSize ls = Some (length (encode ls)).
Proof.
  induction 1 as [|l ls Hl _ IH]; [done|]. cbn [labelsSize]. rewrite labelSize_enc, IH by done. cbn.
  by rewrite length_app.
Qed.

Lemma marshalLabels_enc ls : Forall short_label ls -> marshalLabels ls = Some (of_list ls).
Proof.
  intros Hs. unfold marshalLabels. rewrite labelsSize_enc by done. cbn [mbind option_bind].
  unfold marshalLabelsToSizedBuffer. rewrite repeat_length.
  assert (H := marshal_backward_enc ls (repeat 0 (length (encode ls))) []). rewrite repeat_length, !app_nil_r in H.
  rewrite H by done. cbn [mbind option_bind]. by rewrite Nat.sub_diag.
Qed.

(** ** The order of strings *)

Lemma str_compare_refl a : str_compare a a = Eq.
Proof. induction a as [|x a IH]; cbn; [done|]. by rewrite Z.compare_refl. Qed.

Lemma str_compare_eq a b : str_compare a b = Eq <-> a = b.
Proof.
  split; [|intros ->; apply str_compare_refl]. revert b. induction a as [|x a IH]; intros [|y b]; cbn; try done.
  destruct (Z.compare_spec x y) as [->| |]; [|done..]. by intros ->%IH.
Qed.

Lemma str_compare_antisym a b : str_compare b a = CompOpp (str_compare a b).
Proof.
  revert b. induction a as [|x a IH]; intros [|y b]; cbn; try done.
  rewrite (Z.compare_antisym x y). destruct (x ?= y); cbn; [apply IH|done|done].
Qed.

Lemma str_ltb_compare a b : str_ltb a b = true <-> str_compare a b = Lt.
Proof. unfold str_ltb. by destruct (str_compare a b). Qed.

Lemma str_ltb_trans a b c : str_ltb a b = true -> str_ltb b c = true -> str_ltb a c = true.
Proof.
  rewrite !str_ltb_compare. revert b c. induction a as [|x a IH]; intros [|y b] [|z c]; cbn; try done.
  destruct (Z.compare_spec x y) as [->|Hxy|Hxy]; try done.
  - destruct (Z.compare_spec y z); try done. by apply IH.
  - intros _. destruct (Z.compare_spec y z) as [->|Hyz|Hyz]; try done.
    + by destruct (Z.compare_spec x z); [lia| |lia].
    + by destruct (Z.compare_spec x z); [lia| |lia].
Qed.

Lemma str_ltb_irrefl a : str_ltb a a = false.
Proof. unfold str_ltb. by rewrite str_compare_refl. Qed.

Lemma str_trichotomy a b : str_ltb a b = true \/ a = b \/ str_ltb b a = true.
Proof.
  destruct (str_compare a b) eqn:E; [right; left; by apply str_compare_eq|left; by apply str_ltb_compare|].
  right; right. apply str_ltb_compare. by rewrite str_compare_antisym, E.
Qed.

Lemma str_ltb_asym a b : str_ltb a b = true -> str_ltb b a = false.
Proof. intros H. destruct (str_ltb b a) eqn:E; [|done]. pose proof (str_ltb_trans _ _ _ H E) as F. by rewrite str_ltb_irrefl in F. Qed.

#[global] Instance str_le_trans : Transitive str_le.
Proof.
  intros a b c. unfold str_le. intros H1 H2. destruct (str_ltb c a) eqn:E; [|done].
  destruct (str_trichotomy a b) as [H|[->|H]]; [|congruence|congruence].
  pose proof (str_ltb_trans _ _ _ E H). congruence.
Qed.

#[global] Instance str_le_total : Total str_le.
Proof. intros a b. unfold str_le. destruct (str_ltb b a) eqn:E; [right; by apply str_ltb_asym|by left]. Qed.

Lemma str_eqb_eq a b : str_eqb a b = true <-> a = b.
Proof. apply bool_decide_eq_true. Qed.
Lemma str_eqb_neq a b : str_eqb a b = false <-> a <> b.
Proof. apply bool_decide_eq_false. Qed.
Lemma str_eqb_refl a : str_eqb a a = true.
Proof. by apply str_eqb_eq. Qed.

(** Strictly sorted by name: the invariant of label sets. *)
Definition name_lt (a b : Label) : Prop := str_ltb (Name a) (Name b) = true.
Definition sorted_labels (ls : list Label) : Prop := StronglySorted name_lt ls.

Lemma sorted_labels_inv l ls : sorted_labels (l :: ls) -> sorted_labels ls /\ Forall (fun x => str_ltb (Name l) (Name x) = true) ls.
Proof. intros H. apply StronglySorted_inv in H as [H1 H2]. by split. Qed.

(** ** Lookup *)

(** The size in front of a name and in front of a value. *)
Lemma decodeSize_name pre l rest :
  short (Name l) -> decodeSize (pre ++ enc_label l ++ rest) (length pre) =
    Some (length (Name l), length (pre ++ enc_size (Z.of_nat (length (Name l))))).
Proof.
  intros Hs. unfold enc_label, enc_string. rewrite <-!app_assoc, decodeSize_enc by (unfold short in Hs; lia).
  by rewrite Nat2Z.id, length_app.
Qed.

Lemma decodeSize_value pre l rest :
  short (Value l) -> exists i, decodeSize (pre ++ enc_label l ++ rest) (length (pre ++ enc_string (Name l))) = Some (length (Value l), i) /\
    (i + length (Value l))%nat = length (pre ++ enc_label l).
Proof.
  intros Hs. assert (E : pre ++ enc_label l ++ rest = (pre ++ enc_string (Name l)) ++ enc_size (Z.of_nat (length (Value l))) ++ Value l ++ rest)
    by (unfold enc_label, enc_string; by rewrite <-!app_assoc).
  rewrite E, decodeSize_enc by (unfold short in Hs; lia). rewrite Nat2Z.id. eexists. split; [done|].
  unfold enc_label, enc_string. rewrite !length_app. lia.
Qed.

Lemma slice_name pre l rest :
  let i := length (pre ++ enc_size (Z.of_nat (length (Name l)))) in
  slice (pre ++ enc_label l ++ rest) i (i + length (Name l)) = Some (Name l) /\ (i + length (Name l))%nat = length (pre ++ enc_string (Name l)) /\
  (pre ++ enc_label l ++ rest) !! i = (Name l ++ enc_string (Value l) ++ rest) !! 0%nat.
Proof.
  cbn. unfold enc_label. assert (E : pre ++ (enc_string (Name l) ++ enc_string (Value l)) ++ rest =
    (pre ++ enc_size (Z.of_nat (length (Name l)))) ++ Name l ++ enc_string (Value l) ++ rest)
    by (unfold enc_string at 1; by rewrite <-!app_assoc).
  rewrite E, slice_at, lookup_at0. split_and!; [done| |done]. unfold enc_string. rewrite !length_app. lia.
Qed.

Definition nonblank (l : Label) : Prop := Name l <> [].

(** Label sets as the program builds them. *)
Definition good (ls : list Label) : Prop := Forall short_label ls /\ Forall nonblank ls /\ sorted_labels ls.

Lemma good_inv l ls : good (l :: ls) -> good ls /\ short_label l /\ nonblank l /\ Forall (fun x => str_ltb (Name l) (Name x) = true) ls.
Proof.
  intros (H1 & H2 & H3). apply Forall_cons in H1 as [? ?]. apply Forall_cons in H2 as [? ?]. apply sorted_labels_inv in H3 as [? ?]. done.
Qed.

Lemma head_le d n c m : str_ltb (d :: n) (c :: m) = true -> d <= c.
Proof. rewrite str_ltb_compare. cbn. destruct (Z.compare_spec d c); [lia|lia|done]. Qed.

Lemma find_from_enc name c m ls : name = c :: m -> forall fuel pre, good ls -> (length ls <= fuel)%nat ->
  (exists l1 l l2, ls = l1 ++ l :: l2 /\ Name l = name /\
     find_from fuel (pre ++ encode ls) name c (length pre) = Some (Some (length (pre ++ encode l1 ++ enc_string (Name l))))) \/
  (Forall (fun l => Name l <> name) ls /\ find_from fuel (pre ++ encode ls) name c (length pre) = Some None).
Proof.
  intros Hname. induction ls as [|l ls IH]; intros fuel pre Hg Hf.
  - right. split; [constructor|]. unfold encode. cbn [map concat]. rewrite app_nil_r.
    destruct fuel; cbn [find_from]; by rewrite Nat.ltb_irrefl.
  - apply good_inv in Hg as (Hg & [Hn Hv] & Hb & Hlt). destruct fuel as [|fuel]; [cbn in Hf; lia|]. cbn [length] in Hf.
    cbn [find_from]. change (encode (l :: ls)) with (enc_label l ++ encode ls).
    rewrite (proj2 (Nat.ltb_lt _ _)) by (rewrite !length_app; pose proof (length_enc_label l); lia).
    rewrite decodeSize_name by done. cbn [mbind option_bind]. destruct (slice_name pre l (encode ls)) as (Hsl & Hi & Hd).
    rewrite Hd, Hsl, Hi. destruct (Name l) as [|d nm] eqn:En; [done|]. cbn [app lookup list_lookup mbind option_bind].
    destruct (decodeSize_value pre l (encode ls) Hv) as (i & Hds & Hi2). rewrite En in Hds. rewrite Hds. cbn [mbind option_bind]. rewrite Hi2.
    specialize (IH fuel (pre ++ enc_label l) Hg ltac:(lia)). rewrite <-app_assoc in IH.
    assert (Hnext : Name l <> name -> (exists l1 l' l2, l :: ls = l1 ++ l' :: l2 /\ Name l' = name /\
        find_from fuel (pre ++ enc_label l ++ encode ls) name c (length (pre ++ enc_label l)) = Some (Some (length (pre ++ encode l1 ++ enc_string (Name l'))))) \/
      (Forall (fun l => Name l <> name) (l :: ls) /\ find_from fuel (pre ++ enc_label l ++ encode ls) name c (length (pre ++ enc_label l)) = Some None)).
    { intros Hne. destruct IH as [(l1 & l' & l2 & -> & Hl' & Hr)|[Hall Hr]].
      - left. exists (l :: l1), l', l2. split_and!; [done|done|]. rewrite Hr. change (encode (l :: l1)) with (enc_label l ++ encode l1).
        by rewrite <-!app_assoc.
      - right. split; [by constructor|done]. }
    destruct (Z.eqb_spec d c) as [->|Hdc].
    + destruct (str_eqb (c :: nm) name) eqn:E.
      * apply str_eqb_eq in E. left. exists [], l, ls. rewrite En. split_and!; [done|done|done].
      * apply str_eqb_neq in E. apply Hnext. by rewrite En.
    + destruct (Z.ltb_spec c d).
      * right. split; [|done]. constructor; [rewrite En, Hname; congruence|]. eapply Forall_impl; [exact Hlt|].
        intros x Hx Hxn. cbv beta in Hx; rewrite Hxn, Hname in Hx. apply head_le in Hx. lia.
      * apply Hnext. rewrite En, Hname. congruence.
Qed.

(** The value of a label, "" if there is none. *)
Definition get_label (ls : list Label) (n : gostr) : gostr :=
  match list_find (fun l => Name l = n) ls with Some (_, l) => Value l | None => [] end.

Lemma list_find_name_none ls n : Forall (fun l => Name l <> n) ls -> list_find (fun l => Name l = n) ls = None.
Proof. intros H. by apply list_find_None. Qed.

Lemma list_find_name ls l1 l l2 n : sorted_labels ls -> ls = l1 ++ l :: l2 -> Name l = n -> list_find (fun l => Name l = n) ls = Some (length l1, l).
Proof.
  intros Hs -> <-. rewrite list_find_app_r; cbn.
  - by rewrite decide_True by done.
  - apply list_find_name_none. apply StronglySorted_app in Hs as (Hlt & _ & _). apply Forall_forall. intros x Hx E.
    specialize (Hlt x l Hx ltac:(left)). unfold name_lt in Hlt. by rewrite E, str_ltb_irrefl in Hlt.
Qed.

Lemma find_label_blank ls : good ls -> get_label ls [] = [] /\ ([] : gostr) ∉ map Name ls.
Proof.
  intros (_ & Hb & _). split; [unfold get_label; by rewrite list_find_name_none|].
  intros (l & E & Hl)%list_elem_of_fmap. rewrite Forall_forall in Hb. by eapply Hb.
Qed.

Lemma Labels_Get_enc ls name : good ls -> Labels_Get (of_list ls) name = Some (get_label ls name).
Proof.
  intros Hg. unfold Labels_Get. destruct name as [|c m] eqn:En; [by rewrite (proj1 (find_label_blank ls Hg))|].
  unfold get_label. rewrite <-En. destruct (find_from_enc name c m ls En (length (encode ls)) [] Hg (length_encode ls)) as [(l1 & l & l2 & Hl & Hname & Hr)|[Hall Hr]];
    cbn [app length] in Hr; cbn [data of_list]; rewrite Hr; cbn [mbind option_bind].
  - rewrite (list_find_name ls l1 l l2 name) by (try done; apply Hg).
    destruct Hg as (Hs & _). rewrite Hl in Hs. apply Forall_app in Hs as [_ [[_ Hv] _]%Forall_cons].
    rewrite Hl, encode_app. change (encode (l :: l2)) with (enc_label l ++ encode l2). by rewrite decode_value.
  - by rewrite list_find_name_none.
Qed.

Lemma Labels_Has_enc ls name : good ls -> Labels_Has (of_list ls) name = Some (bool_decide (name ∈ map Name ls)).
Proof.
  intros Hg. unfold Labels_Has. destruct name as [|c m] eqn:En; [f_equal; symmetry; apply bool_decide_false, find_label_blank, Hg|].
  rewrite <-En. destruct (find_from_enc name c m ls En (length (encode ls)) [] Hg (length_encode ls)) as [(l1 & l & l2 & Hl & Hname & Hr)|[Hall Hr]];
    cbn [app length] in Hr; cbn [data of_list]; rewrite Hr; cbn [mbind option_bind]; f_equal.
  - rewrite !bool_decide_true; [done| |by eexists]. rewrite <-Hname. apply list_elem_of_fmap. exists l. split; [done|]. rewrite Hl. set_solver.
  - rewrite !bool_decide_false; [done| |by intros [? ?]].
    intros (l & E & Hl)%list_elem_of_fmap. rewrite Forall_forall in Hall. by eapply Hall.
Qed.

(** Get and Has find exactly the labels of a label set: Get returns the value
    of the label with the name, or "" when there is none, although the search
    compares first bytes only and stops at the first larger one. *)
Theorem Labels_Get_spec (ls : list Label) (name : gostr) :
  good ls ->
  Labels_Get (of_list ls) name = Some (get_label ls name) /\
  Labels_Has (of_list ls) name = Some (bool_decide (name ∈ map Name ls)).
Proof. intros Hg. split; [by apply Labels_Get_enc|by apply Labels_Has_enc]. Qed.

(** ** Comparison *)

Fixpoint lcp (a b : gostr) : nat :=
  match a, b with x :: a, y :: b => if x =? y then S (lcp a b) else 0%nat | _, _ => 0%nat end.

Lemma lcp_comm a b : lcp a b = lcp b a.
Proof. revert b. induction a as [|x a IH]; intros [|y b]; cbn; try done. rewrite Z.eqb_sym, IH. done. Qed.

Lemma lcp_le a b : (lcp a b <= length a)%nat.
Proof. revert b. induction a as [|x a IH]; intros [|y b]; cbn; try lia. specialize (IH b). destruct (x =? y); lia. Qed.

Lemma lcp_drop i : forall a b, (i <= lcp a b)%nat -> lcp a b = (i + lcp (drop i a) (drop i b))%nat.
Proof.
  induction i as [|i IH]; intros a b; [done|]. destruct a as [|x a], b as [|y b]; cbn; try lia.
  destruct (x =? y); [|lia]. intros H. rewrite (IH a b); lia.
Qed.

Lemma lcp_app_same p a b : lcp (p ++ a) (p ++ b) = (length p + lcp a b)%nat.
Proof. induction p as [|x p IH]; cbn; [done|]. by rewrite Z.eqb_refl, IH. Qed.

Lemma lcp_extends p a : lcp p (p ++ a) = length p.
Proof. induction p as [|x p IH]; cbn; [done|]. by rewrite Z.eqb_refl, IH. Qed.

Lemma lcp_prefix a b n : (n <= lcp a b)%nat -> take n a = take n b.
Proof.
  revert a b. induction n as [|n IH]; intros a b; [done|]. destruct a as [|x a], b as [|y b]; cbn; try lia.
  destruct (Z.eqb_spec x y) as [->|]; [|lia]. intros H. f_equal. apply IH. lia.
Qed.

Lemma take_eq_lcp n a b : take n a = take n b -> (n <= length a)%nat -> (n <= length b)%nat -> (n <= lcp a b)%nat.
Proof.
  revert a b. induction n as [|n IH]; intros a b; [lia|]. destruct a as [|x a], b as [|y b]; cbn; try lia.
  intros [= -> H] Ha Hb. rewrite Z.eqb_refl. specialize (IH a b H). lia.
Qed.

Lemma diff_words_le fuel s l : (length s <= length l)%nat -> forall i, (i <= lcp s l)%nat -> (diff_words fuel s l i <= lcp s l)%nat.
Proof.
  intros Hl. induction fuel as [|fuel IH]; intros i Hi; cbn [diff_words]; [done|].
  destruct (Nat.ltb_spec (i + 8) (length s)) as [H|]; [|done]. destruct (str_eqb _ _) eqn:E; [|done]. apply str_eqb_eq in E.
  apply IH. rewrite (lcp_drop i) by done. pose proof (take_eq_lcp 8 (drop i s) (drop i l) E). rewrite !length_drop in *. lia.
Qed.

Lemma diff_bytes_lcp s l : (length s <= length l)%nat -> forall fuel i, (i <= lcp s l)%nat -> (length s - i <= fuel)%nat -> diff_bytes fuel s l i = lcp s l.
Proof.
  intros Hl. induction fuel as [|fuel IH]; intros i Hi Hf; cbn [diff_bytes]; pose proof (lcp_le s l); [lia|].
  destruct (Nat.ltb_spec i (length s)) as [H1|]; [|lia].
  destruct (lookup_lt_is_Some_2 s i H1) as [x Hx]. destruct (lookup_lt_is_Some_2 l i ltac:(lia)) as [y Hy].
  pose proof (lcp_drop i s l Hi) as Hd. rewrite (drop_S _ _ _ Hx), (drop_S _ _ _ Hy) in Hd. cbn in Hd. rewrite Hx, Hy.
  destruct (Z.eqb_spec x y) as [->|Hne].
  - rewrite bool_decide_true by done. apply IH; lia.
  - rewrite bool_decide_false by congruence. lia.
Qed.

(** The fields of a label set in order, and their encoding. *)
Definition fields (ls : list Label) : list gostr := concat (map (fun l => [Name l; Value l]) ls).
Definition enc_fields (fs : list gostr) : gostr := concat (map enc_string fs).

Lemma encode_fields ls : encode ls = enc_fields (fields ls).
Proof.
  induction ls as [|l ls IH]; [done|]. change (encode (l :: ls)) with (enc_label l ++ encode ls). rewrite IH. unfold fields, enc_fields. cbn.
  unfold enc_label. by rewrite <-app_assoc.
Qed.

(** Two different fields differ within both of their encodings. *)
Lemma lcp_field x y r1 r2 :
  short x -> short y -> x <> y -> (lcp (enc_string x ++ r1) (enc_string y ++ r2) < length (enc_string x))%nat.
Proof.
  intros Hx Hy Hne. apply Nat.lt_nge. intros Hge. apply lcp_prefix in Hge. rewrite take_app_length in Hge.
  assert (Hpre : enc_string y ++ r2 = enc_string x ++ drop (length (enc_string x)) (enc_string y ++ r2)) 
    by (rewrite <-(take_drop (length (enc_string x)) (enc_string y ++ r2)) at 1; by rewrite <-Hge).
  pose proof (decodeString_enc [] y r2 Hy) as D1. pose proof (decodeString_enc [] x (drop (length (enc_string x)) (enc_string y ++ r2)) Hx) as D2.
  cbn [app length] in D1, D2. rewrite <-Hpre, D1 in D2. congruence.
Qed.

Lemma decodeSize_field pre x rest :
  short x -> exists i, decodeSize (pre ++ enc_string x ++ rest) (length pre) = Some (length x, i) /\
    (i + length x)%nat = (length pre + length (enc_string x))%nat.
Proof.
  intros Hx. unfold enc_string. rewrite <-app_assoc, decodeSize_enc by (unfold short in Hx; lia). rewrite Nat2Z.id.
  eexists. split; [done|]. rewrite length_app. lia.
Qed.

Lemma find_field_enc c x rest : forall fuel pre k, Forall short (c ++ [x]) -> (length c < fuel)%nat ->
  (length pre + length (enc_fields c) <= k < length pre + length (enc_fields c) + length (enc_string x))%nat ->
  find_field fuel (pre ++ enc_fields c ++ enc_string x ++ rest) k (length pre) = Some (length pre + length (enc_fields c))%nat.
Proof.
  induction c as [|y c IH]; intros fuel pre k Hs Hf Hk; (destruct fuel as [|fuel]; [cbn in Hf; lia|]); cbn [find_field].
  - cbn [enc_fields concat map app length] in *. apply Forall_cons in Hs as [Hx _].
    destruct (decodeSize_field pre x rest Hx) as (i & Hd & Hi). rewrite Hd. cbn [mbind option_bind].
    rewrite Hi, (proj2 (Nat.leb_gt _ _)); [f_equal; lia|lia].
  - cbn [app] in Hs. apply Forall_cons in Hs as [Hy Hs]. change (enc_fields (y :: c)) with (enc_string y ++ enc_fields c) in *.
    rewrite length_app in Hk |- *. rewrite <-!app_assoc.
    destruct (decodeSize_field pre y (enc_fields c ++ enc_string x ++ rest) Hy) as (i & Hd & Hi). rewrite Hd. cbn [mbind option_bind].
    rewrite Hi, (proj2 (Nat.leb_le _ _)) by lia.
    rewrite (app_assoc pre), <-length_app, IH; [rewrite length_app; f_equal; lia|done|cbn in Hf; lia|rewrite length_app; lia].
Qed.

(** Lexicographic order of lists of strings. *)
Fixpoint seq_compare (a b : list gostr) : comparison :=
  match a, b with
  | [], [] => Eq
  | [], _ => Lt
  | _, [] => Gt
  | x :: a, y :: b => match str_compare x y with Eq => seq_compare a b | c => c end
  end.

(** Two lists are equal, one extends the other, or they differ behind a common
    part. *)
Lemma seq_cases (a b : list gostr) :
  (a = b /\ seq_compare a b = Eq) \/ (exists x t, b = a ++ x :: t /\ seq_compare a b = Lt) \/ (exists x t, a = b ++ x :: t /\ seq_compare a b = Gt) \/
  (exists c x y ra rb, a = c ++ x :: ra /\ b = c ++ y :: rb /\ x <> y /\ seq_compare a b = str_compare x y).
Proof.
  revert b. induction a as [|x a IH]; intros [|y b]; cbn; [by left|right; left; by exists y, b|do 2 right; left; by exists x, a|].
  destruct (decide (x = y)) as [->|Hne].
  - rewrite str_compare_refl. destruct (IH b) as [[-> H]|[(z & t & -> & H)|[(z & t & -> & H)|(c & u & v & ra & rb & -> & -> & Hn & H)]]].
    + by left.
    + right; left. by exists z, t.
    + do 2 right; left. by exists z, t.
    + do 3 right. by exists (y :: c), u, v, ra, rb.
  - do 3 right. exists [], x, y, a, b. split_and!; [done..|]. destruct (str_compare x y) eqn:E; [|done..]. by apply str_compare_eq in E.
Qed.

Lemma seq_compare_eq a b : seq_compare a b = Eq <-> a = b.
Proof.
  revert b. induction a as [|x a IH]; intros [|y b]; cbn; try done. destruct (str_compare x y) eqn:E.
  - apply str_compare_eq in E as ->. rewrite IH. split; [by intros ->|by intros [= ->]].
  - split; [done|]. intros [= -> ->]. by rewrite str_compare_refl in E.
  - split; [done|]. intros [= -> ->]. by rewrite str_compare_refl in E.
Qed.

Lemma seq_compare_antisym a b : seq_compare b a = CompOpp (seq_compare a b).
Proof.
  revert b. induction a as [|x a IH]; intros [|y b]; cbn; try done. rewrite (str_compare_antisym x y). destruct (str_compare x y); cbn; [apply IH|done|done].
Qed.

Lemma seq_compare_trans a b c : seq_compare a b = Lt -> seq_compare b c = Lt -> seq_compare a c = Lt.
Proof.
  revert b c. induction a as [|x a IH]; intros [|y b] [|z c]; cbn; try done.
  destruct (str_compare x y) eqn:E1; [apply str_compare_eq in E1 as ->|intros _|done].
  - destruct (str_compare y z) eqn:E2; [apply IH|done|done].
  - destruct (str_compare y z) eqn:E2; [apply str_compare_eq in E2 as ->; by rewrite E1|intros _|done].
    apply str_ltb_compare in E1, E2. pose proof (str_ltb_trans _ _ _ E1 E2) as E3. apply str_ltb_compare in E3. by rewrite E3.
Qed.

Lemma enc_fields_app a b : enc_fields (a ++ b) = enc_fields a ++ enc_fields b.
Proof. unfold enc_fields. by rewrite map_app, concat_app. Qed.

Lemma length_enc_fields fs : (length fs <= length (enc_fields fs))%nat.
Proof.
  induction fs as [|f fs IH]; [done|]. change (enc_fields (f :: fs)) with (enc_string f ++ enc_fields fs).
  rewrite length_app. pose proof (length_enc_string f). cbn. lia.
Qed.

(** The first two loops compute the length of the common prefix. *)
Lemma first_difference s l : (length s <= length l)%nat -> diff_bytes (length s) s l (diff_words (length s) s l 0) = lcp s l.
Proof. intros Hl. apply diff_bytes_lcp; [done|apply diff_words_le; [done|lia]|lia]. Qed.

Lemma Compare_fields fa fb :
  Forall short fa -> Forall short fb ->
  exists z, Labels_Compare (mk_Labels (enc_fields fa)) (mk_Labels (enc_fields fb)) = Some z /\ (z ?= 0) = seq_compare fa fb.
Proof.
  intros Ha Hb. unfold Labels_Compare. cbn [data].
  set (A := enc_fields fa). set (B := enc_fields fb).
  assert (Hsl : exists s l, (if (length B <? length A)%nat then (B, A) else (A, B)) = (s, l) /\
    diff_bytes (length s) s l (diff_words (length s) s l 0) = lcp A B /\ length s = Nat.min (length A) (length B)).
  { destruct (Nat.ltb_spec (length B) (length A)); eexists _, _; (split; [done|]).
    - rewrite first_difference, lcp_comm by lia. split; [done|lia].
    - rewrite first_difference by lia. split; [done|lia]. }
  destruct Hsl as (s & l & -> & -> & Hlen). rewrite Hlen.
  destruct (seq_cases fa fb) as [[<- Hc]|[(x & t & -> & Hc)|[(x & t & -> & Hc)|(c & x & y & ra & rb & -> & -> & Hne & Hc)]]]; rewrite Hc.
  - subst B. fold A. pose proof (lcp_extends A []) as HL. rewrite app_nil_r in HL.
    rewrite HL, Nat.min_id, Nat.eqb_refl. eexists. split; [done|]. by rewrite Z.sub_diag.
  - subst B. rewrite enc_fields_app. fold A. rewrite lcp_extends, length_app.
    pose proof (length_enc_fields (x :: t)). cbn [length] in *. rewrite Nat.min_l, Nat.eqb_refl by lia. eexists. split; [done|].
    apply Z.compare_lt_iff. lia.
  - subst A. rewrite enc_fields_app. fold B. rewrite lcp_comm, lcp_extends, length_app.
    pose proof (length_enc_fields (x :: t)). cbn [length] in *. rewrite Nat.min_r, Nat.eqb_refl by lia. eexists. split; [done|].
    apply Z.compare_gt_iff. lia.
  - apply Forall_app in Ha as [Hsc [Hx Hra]%Forall_cons]. apply Forall_app in Hb as [_ [Hy Hrb]%Forall_cons].
    subst A B. rewrite !enc_fields_app. change (enc_fields (x :: ra)) with (enc_string x ++ enc_fields ra).
    change (enc_fields (y :: rb)) with (enc_string y ++ enc_fields rb). set (Ra := enc_fields ra). set (Rb := enc_fields rb).
    rewrite lcp_app_same. pose proof (lcp_field x y Ra Rb Hx Hy Hne) as H1. pose proof (lcp_field y x Rb Ra Hy Hx ltac:(congruence)) as H2.
    rewrite lcp_comm in H2. rewrite !length_app.
    rewrite (proj2 (Nat.eqb_neq _ _)) by lia.
    pose proof (find_field_enc c x Ra (S (length (enc_fields c) + (length (enc_string x) + length Ra))) []) as Hff. cbn [length app Nat.add] in Hff.
    rewrite Hff; [|apply Forall_app; split; [done|by constructor]|pose proof (length_enc_fields c); lia|lia]. cbn [mbind option_bind].
    rewrite !decodeString_enc by done. cbn [mbind option_bind]. eexists. split; [done|]. unfold str_ltb.
    destruct (str_compare x y) eqn:E; [by apply str_compare_eq in E|done|done].
Qed.

Lemma short_fields ls : Forall short_label ls -> Forall short (fields ls).
Proof. induction 1 as [|l ls [Hn Hv] _ IH]; [constructor|]. unfold fields. cbn. repeat constructor; done. Qed.

Lemma Labels_Compare_enc a b :
  Forall short_label a -> Forall short_label b ->
  exists z, Labels_Compare (of_list a) (of_list b) = Some z /\ (z ?= 0) = seq_compare (fields a) (fields b).
Proof.
  intros Ha Hb. unfold of_list. rewrite (encode_fields a), (encode_fields b). by apply Compare_fields; apply short_fields.
Qed.

Lemma of_list_inj a b : Forall short_label a -> Forall short_label b -> of_list a = of_list b -> a = b.
Proof. intros Ha Hb E. pose proof (Range_enc a Ha) as R1. pose proof (Range_enc b Hb) as R2. rewrite E, R2 in R1. congruence. Qed.

(** Comparing two encoded label sets byte by byte, eight bytes at a time, and
    then the field in which the first difference lies, orders them as their
    sequences of names and values are ordered lexicographically; Equal is
    equality of the label sets. *)
Theorem Labels_Compare_lexicographic (a b : list Label) :
  Forall short_label a -> Forall short_label b ->
  exists z, Labels_Compare (of_list a) (of_list b) = Some z /\ (z ?= 0) = seq_compare (fields a) (fields b) /\
    (Labels_Equal (of_list a) (of_list b) = true <-> a = b).
Proof.
  intros Ha Hb. destruct (Labels_Compare_enc a b Ha Hb) as (z & Hz & Hs). exists z. split_and!; [done|done|].
  unfold Labels_Equal. rewrite str_eqb_eq. split; [|by intros ->]. intros E. apply of_list_inj; [done|done|]. unfold of_list in *. cbn in E. by rewrite E.
Qed.

(** ** Labels by names *)

Lemma skip_less_sub name ds d : d ∈ skip_less name ds -> d ∈ ds.
Proof. induction ds as [|e ds IH]; cbn; [done|]. destruct (str_ltb e name); [|done]. intros H. right. by apply IH. Qed.

Lemma skip_less_keeps name ds d : d ∈ ds -> str_ltb d name = false -> d ∈ skip_less name ds.
Proof.
  induction ds as [|e ds IH]; cbn; [done|]. intros [->|Hd]%elem_of_cons Hn; [rewrite Hn; by left|].
  destruct (str_ltb e name); [by apply IH|by right].
Qed.

Lemma skip_less_sorted name ds : StronglySorted str_le ds -> StronglySorted str_le (skip_less name ds).
Proof. induction 1; cbn; [constructor|]. destruct (str_ltb _ _); [done|by constructor]. Qed.

Lemma str_le_antisym a b : str_le a b -> str_le b a -> a = b.
Proof. unfold str_le. intros H1 H2. destruct (str_trichotomy a b) as [H|[H|H]]; congruence. Qed.

(** The head of the remaining names tells whether the name is among them. *)
Lemma skip_less_head name ds :
  StronglySorted str_le ds -> match skip_less name ds with d :: _ => str_eqb d name | [] => false end = bool_decide (name ∈ ds).
Proof.
  intros Hs. symmetry. case_bool_decide as H.
  - pose proof (skip_less_keeps name ds name H (str_ltb_irrefl name)) as Hin. pose proof (skip_less_sorted name ds Hs) as Hs'.
    assert (Hh : match skip_less name ds with d :: _ => str_ltb d name = false | [] => True end).
    { clear. induction ds as [|e ds IH]; cbn; [done|]. destruct (str_ltb e name) eqn:E; [done|done]. }
    destruct (skip_less name ds) as [|d ds']; [by apply not_elem_of_nil in Hin|]. symmetry. apply str_eqb_eq.
    apply elem_of_cons in Hin as [->|Hin]; [done|]. apply StronglySorted_inv in Hs' as [_ Hall]. rewrite Forall_forall in Hall.
    apply str_le_antisym; [by apply Hall|done].
  - destruct (skip_less name ds) as [|d ds'] eqn:E; [done|]. symmetry. apply str_eqb_neq. intros ->. apply H.
    apply (skip_less_sub name). rewrite E. by left.
Qed.

(** Names behind [l] are not affected by what was skipped at [l]. *)
Lemma skip_less_later name ds n : str_ltb name n = true -> n ∈ skip_less name ds <-> n ∈ ds.
Proof. intros Hlt. split; [apply skip_less_sub|]. intros H. apply skip_less_keeps; [done|by apply str_ltb_asym]. Qed.


(** Which labels a sorted list of names selects. *)
Definition in_names (ns : list gostr) (l : Label) : bool := bool_decide (Name l ∈ ns).

Definition hash_entries (ls : list Label) : gostr := concat (map (fun l => hash_entry (Name l) (Value l)) ls).

(** The loops that keep the named labels: [out] is what a label contributes. *)
Lemma with_names_loop (out : gostr -> gostr -> gostr -> gostr) ls : forall ns b, sorted_labels ls -> StronglySorted str_le ns ->
  snd (fold_labels (fun '((ns, b) : list gostr * gostr) n v raw =>
         match skip_less n ns with
         | [] => Break ([], b)
         | m :: _ => Continue (skip_less n ns, if str_eqb n m then b ++ out n v raw else b)
         end) (ns, b) ls)
  = b ++ concat (map (fun l => out (Name l) (Value l) (enc_label l)) (List.filter (in_names ns) ls)).
Proof.
  induction ls as [|l ls IH]; intros ns b Hs Hns; cbn [fold_labels List.filter map concat]; [by rewrite app_nil_r|].
  apply sorted_labels_inv in Hs as [Hs Hlt]. pose proof (skip_less_head (Name l) ns Hns) as Hh. pose proof (skip_less_sorted (Name l) ns Hns) as Hns'.
  assert (Hf : List.filter (in_names (skip_less (Name l) ns)) ls = List.filter (in_names ns) ls).
  { apply filter_ext_in. intros x Hx%list_elem_of_In. unfold in_names. apply bool_decide_ext, skip_less_later. by eapply Forall_forall in Hlt. }
  unfold in_names at 1. rewrite <-Hh. destruct (skip_less (Name l) ns) as [|m ns'] eqn:E.
  - cbn [snd]. rewrite <-Hf. assert (Hnil : List.filter (in_names []) ls = []).
    { clear. induction ls as [|x ls IH]; [done|]. cbn. unfold in_names at 1. by rewrite bool_decide_false by apply not_elem_of_nil. }
    by rewrite Hnil, app_nil_r.
  - rewrite IH by done. rewrite Hf. replace (str_eqb (Name l) m) with (str_eqb m (Name l)) by (unfold str_eqb; by apply bool_decide_ext).
    destruct (str_eqb m (Name l)); [|done]. cbn [map concat]. by rewrite <-app_assoc.
Qed.

(** The loops that drop the named labels and those for which [skip] holds. *)
Lemma without_names_loop (out : gostr -> gostr -> gostr -> gostr) (skip : gostr -> bool) (body : list gostr * gostr -> gostr -> gostr -> gostr -> loop_step (list gostr * gostr)) ls :
  (forall ns b n v raw, body (ns, b) n v raw =
     Continue (skip_less n ns, if skip n || match skip_less n ns with m :: _ => str_eqb m n | [] => false end then b else b ++ out n v raw)) ->
  forall ns b, sorted_labels ls -> StronglySorted str_le ns ->
  snd (fold_labels body (ns, b) ls)
  = b ++ concat (map (fun l => out (Name l) (Value l) (enc_label l)) (List.filter (fun l => negb (skip (Name l)) && negb (in_names ns l)) ls)).
Proof.
  intros Hbody. induction ls as [|l ls IH]; intros ns b Hs Hns; cbn [fold_labels List.filter map concat]; [by rewrite app_nil_r|].
  apply sorted_labels_inv in Hs as [Hs Hlt]. rewrite Hbody, (skip_less_head (Name l) ns Hns), IH by (done || by apply skip_less_sorted).
  assert (Hf : List.filter (fun l0 => negb (skip (Name l0)) && negb (in_names (skip_less (Name l) ns) l0)) ls = List.filter (fun l0 => negb (skip (Name l0)) && negb (in_names ns l0)) ls).
  { apply filter_ext_in. intros x Hx%list_elem_of_In. f_equal. f_equal. unfold in_names. apply bool_decide_ext, skip_less_later. by eapply Forall_forall in Hlt. }
  rewrite Hf. change (in_names ns l) with (bool_decide (Name l ∈ ns)). destruct (skip (Name l)), (bool_decide (Name l ∈ ns)); cbn; try done. by rewrite <-app_assoc.
Qed.

Definition blank_value (l : Label) : bool := str_eqb (Value l) [].

Lemma WithoutEmpty_loop ls : forall buf blank,
  fold_labels (fun '((buf, blank) : gostr * bool) _ v raw => match v with [] => Continue (buf, true) | _ => Continue (buf ++ raw, blank) end) (buf, blank) ls
  = (buf ++ encode (List.filter (fun l => negb (blank_value l)) ls), blank || existsb blank_value ls).
Proof.
  induction ls as [|l ls IH]; intros buf blank; cbn [fold_labels List.filter existsb]; [by rewrite app_nil_r, orb_false_r|].
  destruct (Value l) as [|c v] eqn:E; rewrite IH.
  - assert (Hb : blank_value l = true) by (unfold blank_value; by rewrite E). rewrite Hb. cbn. by rewrite orb_true_r.
  - assert (Hb : blank_value l = false) by (unfold blank_value; by rewrite E). rewrite Hb. cbn [negb orb]. f_equal.
    change (encode (l :: List.filter (fun l0 => negb (blank_value l0)) ls)) with (enc_label l ++ encode (List.filter (fun l0 => negb (blank_value l0)) ls)).
    by rewrite <-app_assoc.
Qed.

Lemma WithoutEmpty_enc ls : Forall short_label ls -> WithoutEmpty (of_list ls) = Some (of_list (List.filter (fun l => negb (blank_value l)) ls)).
Proof.
  intros Hs. unfold WithoutEmpty. rewrite for_labels_enc, WithoutEmpty_loop by done. cbn [mbind option_bind fst snd orb]. f_equal.
  destruct (existsb blank_value ls) eqn:E; [done|]. f_equal. f_equal. clear Hs. induction ls as [|l ls IH]; [done|]. cbn in *.
  apply orb_false_iff in E as [-> E]. cbn. f_equal. by apply IH.
Qed.

(** The bytes that identify a group of series are those of a projection of the
    label set.  For sorted names, BytesWithLabels is the encoding of the labels
    with those names and BytesWithoutLabels that of the others; HashForLabels
    and HashWithoutLabels hash the separated names and values of the former and
    of the latter without the metric name; WithoutEmpty drops exactly the labels
    with empty values. *)
Theorem Labels_projections (Sum64 : gostr -> Z) (ls : list Label) (ns : list gostr) :
  good ls -> StronglySorted str_le ns ->
  BytesWithLabels (of_list ls) ns = Some (encode (List.filter (in_names ns) ls)) /\
  BytesWithoutLabels (of_list ls) ns = Some (encode (List.filter (fun l => negb (in_names ns l)) ls)) /\
  (let b := hash_entries (List.filter (in_names ns) ls) in HashForLabels Sum64 (of_list ls) ns = Some (Sum64 b, b)) /\
  (let b := hash_entries (List.filter (fun l => negb (str_eqb (Name l) MetricName) && negb (in_names ns l)) ls) in
   HashWithoutLabels Sum64 (of_list ls) ns = Some (Sum64 b, b)) /\
  WithoutEmpty (of_list ls) = Some (of_list (List.filter (fun l => negb (str_eqb (Value l) [])) ls)).
Proof.
  intros (Hsh & _ & Hs) Hns. unfold BytesWithLabels, BytesWithoutLabels, HashForLabels, HashWithoutLabels. rewrite !for_labels_enc by done.
  cbn [mbind option_bind].
  assert (Hsym : forall n m, str_eqb n m = str_eqb m n) by (intros n m; unfold str_eqb; by apply bool_decide_ext).
  split_and!.
  - f_equal. exact (with_names_loop (fun _ _ raw => raw) ls ns [] Hs Hns).
  - f_equal. rewrite (without_names_loop (fun _ _ raw => raw) (fun _ => false)); [done| |done|done].
    intros ns' b n v raw. cbn [orb]. destruct (skip_less n ns') as [|m ?]; [done|]. rewrite Hsym. by destruct (str_eqb m n).
  - pose proof (with_names_loop (fun n v _ => hash_entry n v) ls ns [] Hs Hns) as H. cbn [app] in H. cbv zeta. f_equal. f_equal; [f_equal|]; exact H.
  - cbv zeta. rewrite (without_names_loop (fun n v _ => hash_entry n v) (fun n => str_eqb n MetricName)); [done| |done|done].
    intros ns' b n v raw. destruct (skip_less n ns') as [|m ?]; [by destruct (str_eqb n MetricName)|]. rewrite (Hsym n m).
    by destruct (str_eqb n MetricName), (str_eqb m n).
  - by apply WithoutEmpty_enc.
Qed.

(** Three sorted labels with one selected name, one absent name and the empty
    value. *)
Definition example_labels : list Label :=
  [mk_Label MetricName [117; 112]; mk_Label [97] [49]; mk_Label [98] []; mk_Label [106; 111; 98] [120]].

Lemma example_good : good example_labels.
Proof. split_and!; repeat constructor; done. Qed.

Lemma Labels_projections_witness :
  BytesWithLabels (of_list example_labels) [[97]; [99]] = Some (encode [mk_Label [97] [49]]) /\
  HashWithoutLabels (fun _ => 0) (of_list example_labels) [[97]; [99]] =
    Some (0, hash_entries [mk_Label [98] []; mk_Label [106; 111; 98] [120]]).
Proof.
  destruct (Labels_projections (fun _ => 0) example_labels [[97]; [99]] example_good) as (H1 & _ & _ & H4 & _).
  - repeat constructor.
  - split; [exact H1|exact H4].
Defined.

Lemma Labels_Get_spec_witness :
  Labels_Get (of_list example_labels) [106; 111; 98] = Some [120] /\ Labels_Has (of_list example_labels) [99] = Some false.
Proof.
  split; [exact (proj1 (Labels_Get_spec example_labels [106; 111; 98] example_good))|exact (proj2 (Labels_Get_spec example_labels [99] example_good))].
Defined.

(** The shorter name is smaller although its size byte is not. *)
Lemma Labels_Compare_lexicographic_witness :
  let a := [mk_Label [97] (repeat 49 300)] in
  let b := [mk_Label [97] (repeat 49 299 ++ [50])] in
  exists z, Labels_Compare (of_list a) (of_list b) = Some z /\ (z ?= 0) = Lt.
Proof.
  intros a b. destruct (Labels_Compare_lexicographic a b) as (z & H1 & H2 & _).
  - repeat constructor.
  - repeat constructor.
  - exists z. split; [exact H1|]. rewrite H2. by vm_compute.
Defined.

(** ** Strings of 2^24 bytes *)

(** The size of a string is accepted up to 2^24 bytes, but three bytes hold it
    only below that.  A label whose value has exactly 2^24 bytes is built
    without a panic, and its value reads back as the empty string. *)
Theorem New_loses_longest_value (n v : gostr) :
  n <> [] -> short n -> Z.of_nat (length v) = 2 ^ 24 ->
  exists ls, New [mk_Label n v] = Some ls /\ Labels_Get ls n = Some [].
Proof.
  intros Hn Hs Hv. remember (mk_Label n v) as l eqn:Hl. assert (HN : Name l = n) by by subst l. assert (HV : Value l = v) by by subst l. clear Hl.
  assert (Henc : enc_label l = enc_string n ++ [255; 0; 0; 0] ++ v) by (unfold enc_label; rewrite HN, HV; unfold enc_string at 2; by rewrite Hv).
  assert (Hsize : labelSize l = Some (length (enc_label l))).
  { unfold labelSize. rewrite HN, HV, (sizeWhenEncoded_enc n Hs), Hv. cbn [mbind option_bind]. rewrite Henc. unfold enc_string.
    rewrite !length_app. change (sizeWhenEncoded (2 ^ 24)) with (Some 4%nat). cbn [mbind option_bind length]. f_equal. lia. }
  exists (mk_Labels (enc_label l)). split.
  - unfold New, marshalLabels. change (merge_sort by_name [l]) with [l]. cbn [labelsSize]. rewrite Hsize. cbn [mbind option_bind]. rewrite Nat.add_0_r.
    unfold marshalLabelsToSizedBuffer. change (reverse [l]) with [l]. cbn [marshal_backward]. rewrite firstn_all, marshal_enc by (rewrite repeat_length; lia).
    cbn [mbind option_bind]. rewrite repeat_length, Nat.sub_diag, drop_ge by (rewrite repeat_length; lia). cbn. by rewrite app_nil_r.
  - unfold Labels_Get. destruct n as [|c m] eqn:En; [done|]. rewrite <-En in *. cbn [data].
    pose proof (decodeSize_name [] l []) as Hd. pose proof (slice_name [] l []) as (Hsl & Hi & Hc). rewrite HN, ?HV in Hd, Hsl, Hi, Hc. specialize (Hd Hs).
    cbn [app] in Hd, Hsl, Hi, Hc. rewrite !app_nil_r in *. pose proof (length_enc_label l). destruct (length (enc_label l)) as [|fuel] eqn:El; [lia|].
    cbn [find_from]. rewrite El. cbn [Nat.ltb Nat.leb]. change (length (@nil Z)) with 0%nat in Hd. rewrite Hd. cbn [mbind option_bind].
    rewrite Hc, En. cbn [app lookup list_lookup mbind option_bind]. rewrite Z.eqb_refl, <-En, Hsl. cbn [mbind option_bind].
    rewrite str_eqb_refl, Hi. cbn [mbind option_bind]. unfold decodeString, decodeSize. rewrite Henc, lookup_at0. cbn [app lookup list_lookup mbind option_bind Z.eqb Pos.eqb].
    replace (S (length (enc_string n))) with (length (enc_string n) + 1)%nat by lia. rewrite <-!Nat.add_assoc, !lookup_at.
    cbn [app lookup list_lookup mbind option_bind Nat.add]. change (Z.to_nat (0 + Z.shiftl 0 8 + Z.shiftl 0 16)) with 0%nat.
    unfold slice. rewrite (proj2 (Nat.leb_le _ _)) by lia.
    rewrite (proj2 (Nat.leb_le _ _)) by (rewrite !length_app; cbn; lia). cbn [andb mbind option_bind]. by rewrite Nat.add_0_r, Nat.sub_diag.
Qed.

Lemma New_loses_longest_value_witness :
  exists ls, New [mk_Label [97] (repeat 120 (Z.to_nat (2 ^ 24)))] = Some ls /\ Labels_Get ls [97] = Some [].
Proof. apply New_loses_longest_value; [done|done|]. by rewrite repeat_length, Z2Nat.id. Defined.
