(* ===== verification/LabelBuilder.v ===== *)
(** model/labels: the builders of label sets (labels_common.go and
    labels_stringlabels.go). *)
From stdpp Require Import sorting.
From S2P Require Import Prelude Labels.

(** ** Builders *)

Record Builder := mk_Builder { base : Labels; del : list gostr; add : list Label }.

Definition Builder_Reset (base : Labels) : option Builder :=
  ls ← Labels_Range base;
  Some (mk_Builder base (map Name (List.filter (fun l => str_eqb (Value l) []) ls)) []).

Definition NewBuilder (base : Labels) : option Builder := Builder_Reset base.

(** Del's inner loop ranges over the slice as it was, while the removal shifts
    its elements: [arr] is the backing array, [k] the current length. *)
Fixpoint del_loop (steps i : nat) (n : gostr) (arr : list Label) (k : nat) : option (list Label * nat) :=
  match steps with
  | O => Some (arr, k)
  | S steps' =>
      a ← arr !! i;
      if str_eqb (Name a) n then
        if (i + 1 <=? k)%nat
        then del_loop steps' (S i) n (take i arr ++ take (k - (i + 1)) (drop (i + 1) arr) ++ drop (k - 1) arr) (k - 1)
        else None
      else del_loop steps' (S i) n arr k
  end.

Definition Builder_Del1 (b : Builder) (n : gostr) : option Builder :=
  '(arr, k) ← del_loop (length (add b)) 0 n (add b) (length (add b));
  Some (mk_Builder (base b) (del b ++ [n]) (take k arr)).

Fixpoint Builder_Del (b : Builder) (ns : list gostr) : option Builder :=
  match ns with [] => Some b | n :: ns => b ← Builder_Del1 b n; Builder_Del b ns end.

Definition Builder_Keep (b : Builder) (ns : list gostr) : option Builder :=
  ls ← Labels_Range (base b);
  Some (mk_Builder (base b) (del b ++ map Name (List.filter (fun l => negb (bool_decide (Name l ∈ ns))) ls)) (add b)).

(** Replaces the value of the first label with the name, if there is one. *)
Fixpoint set_value (n v : gostr) (add : list Label) : option (list Label) :=
  match add with
  | [] => None
  | a :: add => if str_eqb (Name a) n then Some (mk_Label (Name a) v :: add) else l ← set_value n v add; Some (a :: l)
  end.

Definition Builder_Set (b : Builder) (n v : gostr) : option Builder :=
  match v with
  | [] => Builder_Del b [n]
  | _ => Some (mk_Builder (base b) (del b) (match set_value n v (add b) with Some l => l | None => add b ++ [mk_Label n v] end))
  end.

Definition Builder_Get (b : Builder) (n : gostr) : option gostr :=
  match list_find (fun a => Name a = n) (add b) with
  | Some (_, a) => Some (Value a)
  | None => if bool_decide (n ∈ del b) then Some [] else Labels_Get (base b) n
  end.

(** contains. *)
Definition labels_contains (s : list Label) (n : gostr) : bool := existsb (fun a => str_eqb (Name a) n) s.

Definition Builder_Range (b : Builder) : option (list Label) :=
  ls ← Labels_Range (base b);
  Some (List.filter (fun l => negb (bool_decide (Name l ∈ del b)) && negb (labels_contains (add b) (Name l))) ls ++ add b).

(** The added labels with smaller names, appended to the buffer. *)
Fixpoint add_less (lName : gostr) (add : list Label) (buf : option gostr) : list Label * option gostr :=
  match add with
  | [] => ([], buf)
  | a :: add' => if str_ltb (Name a) lName then add_less lName add' (buf ← buf; appendLabelTo buf a) else (add, buf)
  end.

Definition merge_body (s : list gostr * list Label * option gostr) (lName _ raw : gostr) : loop_step (list gostr * list Label * option gostr) :=
  let '(del, add, buf) := s in
  let del := skip_less lName del in
  if match del with d :: _ => str_eqb d lName | [] => false end then Continue (del, add, buf)
  else
    let '(add, buf) := add_less lName add buf in
    match add with
    | a :: add' => if str_eqb (Name a) lName then Continue (del, add', buf ← buf; appendLabelTo buf a) else Continue (del, add, buf ← buf; Some (buf ++ raw))
    | [] => Continue (del, [], buf ← buf; Some (buf ++ raw))
    end.

(** Labels; the builder's slices are sorted in place. *)
Definition Builder_Labels (b : Builder) : option (Labels * Builder) :=
  match del b, add b with
  | [], [] => Some (base b, b)
  | _, _ =>
      let b := mk_Builder (base b) (merge_sort str_le (del b)) (merge_sort by_name (add b)) in
      '(_, add', buf) ← for_labels (base b) merge_body (del b, add b, Some []);
      buf ← foldl (fun buf a => buf ← buf; appendLabelTo buf a) buf add';
      Some (mk_Labels buf, b)
  end.

Definition MatchLabels (on : bool) (names : list gostr) (ls : Labels) : option Labels :=
  b ← NewBuilder ls;
  b ← (if on then Builder_Keep b names else b ← Builder_Del b [MetricName]; Builder_Del b names);
  '(ls, _) ← Builder_Labels b;
  Some ls.

(** ** Scratch builders *)

Record ScratchBuilder := mk_ScratchBuilder { sb_add : list Label; output : Labels }.

Definition NewScratchBuilder : ScratchBuilder := mk_ScratchBuilder [] (mk_Labels []).
Definition ScratchBuilder_Add (b : ScratchBuilder) (name value : gostr) : ScratchBuilder :=
  mk_ScratchBuilder (sb_add b ++ [mk_Label name value]) (output b).
Definition ScratchBuilder_Sort (b : ScratchBuilder) : ScratchBuilder := mk_ScratchBuilder (merge_sort by_name (sb_add b)) (output b).
Definition ScratchBuilder_Assign (b : ScratchBuilder) (l : Labels) : ScratchBuilder := mk_ScratchBuilder (sb_add b) l.

Definition ScratchBuilder_Labels (b : ScratchBuilder) : option (Labels * ScratchBuilder) :=
  match data (output b) with
  | [] => l ← marshalLabels (sb_add b); Some (l, mk_ScratchBuilder (sb_add b) l)
  | _ => Some (output b, b)
  end.

(** ** Deleting from the added labels *)

Definition names (ls : list Label) : list gostr := map Name ls.

#[global] Instance names_Permutation : Proper (Permutation ==> Permutation) names.
Proof. intros a b H. unfold names. by apply Permutation_map. Qed.

Lemma del_loop_skip p q i n arr k :
  (i + p <= length arr)%nat -> (forall j a, (i <= j < i + p)%nat -> arr !! j = Some a -> Name a <> n) ->
  del_loop (p + q) i n arr k = del_loop q (i + p) n arr k.
Proof.
  revert i. induction p as [|p IH]; intros i Hl Hno; [cbn; f_equal; lia|]. cbn [Nat.add del_loop].
  destruct (lookup_lt_is_Some_2 arr i ltac:(lia)) as [a Ha]. rewrite Ha. cbn [mbind option_bind].
  rewrite (proj2 (str_eqb_neq _ _)) by (eapply Hno; [|done]; lia). rewrite IH; [f_equal; lia|lia|].
  intros j x Hj. apply Hno. lia.
Qed.

(** The round that removes the label at [length l1], and those that follow it
    over the shifted array. *)
Lemma del_loop_hit n l1 a l2 :
  Name a = n -> Forall (fun l => Name l <> n) l2 ->
  del_loop (S (length l2)) (length l1) n (l1 ++ a :: l2) (length l1 + S (length l2)) =
    Some (l1 ++ l2 ++ drop (length l2) (a :: l2), length l1 + length l2)%nat.
Proof.
  intros Ha H2. cbn [del_loop]. rewrite list_lookup_middle by done. cbn [mbind option_bind].
  rewrite Ha, str_eqb_refl, (proj2 (Nat.leb_le _ _)) by lia.
  rewrite take_app_length, drop_app_ge by lia. replace (length l1 + 1 - length l1)%nat with 1%nat by lia. change (drop 1 (a :: l2)) with l2.
  rewrite drop_app_ge by lia. replace (length l1 + S (length l2) - 1 - length l1)%nat with (length l2) by lia.
  rewrite (take_ge l2) by lia. replace (length l1 + S (length l2) - 1)%nat with (length l1 + length l2)%nat by lia.
  rewrite <-(Nat.add_0_r (length l2)) at 1. rewrite del_loop_skip; [done| |].
  - rewrite !length_app, length_drop. cbn [length]. lia.
  - intros j x Hj Hx. rewrite lookup_app_r in Hx by lia. destruct l2 as [|y l2]; [cbn in *; lia|].
    assert (Hin : x ∈ y :: l2).
    { destruct (decide (j - length l1 < length (y :: l2))%nat); [rewrite lookup_app_l in Hx by done; by eapply list_elem_of_lookup_2|].
      rewrite lookup_app_r in Hx by lia. change (drop (length (y :: l2)) (a :: y :: l2)) with (drop (length l2) (y :: l2)) in Hx.
      rewrite lookup_drop in Hx. by eapply list_elem_of_lookup_2. }
    rewrite Forall_forall in H2. by apply H2.
Qed.

Lemma Del_add n add :
  NoDup (names add) -> exists arr k, del_loop (length add) 0 n add (length add) = Some (arr, k) /\ take k arr = filter (fun l => Name l <> n) add.
Proof.
  intros Hnd. destruct (list_find (fun l => Name l = n) add) as [[i a]|] eqn:E.
  - apply list_find_Some in E as (Ha & Hn & Hbefore). apply list_elem_of_split_length in Ha as (l1 & l2 & -> & Hi).
    unfold names in Hnd. rewrite map_app in Hnd. cbn in Hnd. apply NoDup_app in Hnd as (_ & Hd & [Hna _]%NoDup_cons). subst i.
    assert (H1 : Forall (fun l => Name l <> n) l1).
    { apply Forall_forall. intros x Hx E. apply (Hd (Name x)); [by apply list_elem_of_fmap_2|]. rewrite E, <-Hn. by left. }
    assert (H2 : Forall (fun l => Name l <> n) l2).
    { apply Forall_forall. intros x Hx E. apply Hna. rewrite Hn, <-E. by apply list_elem_of_fmap_2. }
    rewrite length_app. cbn [length].
    rewrite del_loop_skip; [|rewrite length_app; lia|intros j x Hj Hx; eapply Hbefore; [done|lia]].
    cbn [Nat.add]. rewrite (del_loop_hit n l1 a l2) by done. eexists _, _. split; [done|].
    rewrite app_assoc, <-length_app, take_app_length, filter_app, filter_cons_False, !filter_all by (done || congruence || tauto). done.
  - apply list_find_None in E. pose proof (del_loop_skip (length add) 0 0 n add (length add)) as H. rewrite Nat.add_0_r in H. rewrite H; [|done|].
    + eexists _, _. split; [done|]. by rewrite take_ge, filter_all.
    + intros j x _ Hx. rewrite Forall_forall in E. apply E. by eapply list_elem_of_lookup_2.
Qed.

(** ** The merge of Labels *)

Fixpoint span_less (lName : gostr) (add : list Label) : list Label * list Label :=
  match add with
  | [] => ([], [])
  | a :: add' => if str_ltb (Name a) lName then let '(l, r) := span_less lName add' in (a :: l, r) else ([], add)
  end.

Lemma add_less_enc lName add : Forall short_label add -> forall buf,
  add_less lName add (Some buf) = (snd (span_less lName add), Some (buf ++ encode (fst (span_less lName add)))).
Proof.
  induction 1 as [|a add Ha _ IH]; intros buf; cbn [add_less span_less]; [cbn; by rewrite app_nil_r|].
  destruct (str_ltb (Name a) lName); [|cbn; by rewrite app_nil_r]. cbn [mbind option_bind]. rewrite appendLabelTo_enc, IH by done.
  destruct (span_less lName add) as [l r]. cbn [fst snd]. change (encode (a :: l)) with (enc_label a ++ encode l). by rewrite <-app_assoc.
Qed.

Lemma span_less_spec lName add : sorted_labels add ->
  add = fst (span_less lName add) ++ snd (span_less lName add) /\ Forall (fun a => str_ltb (Name a) lName = true) (fst (span_less lName add)) /\
  Forall (fun a => str_ltb (Name a) lName = false) (snd (span_less lName add)).
Proof.
  induction add as [|a add IH]; cbn [span_less]; [done|]. intros [Hs Hlt]%sorted_labels_inv. destruct (str_ltb (Name a) lName) eqn:E.
  - destruct (IH Hs) as (He & Hl & Hr). destruct (span_less lName add) as [l r]. cbn in *. split_and!; [by rewrite He at 1|by constructor|done].
  - cbn. split_and!; [done|constructor|]. constructor; [done|]. eapply Forall_impl; [exact Hlt|]. intros x Hx. cbn in Hx.
    destruct (str_ltb (Name x) lName) eqn:F; [|done]. pose proof (str_ltb_trans _ _ _ Hx F). congruence.
Qed.

(** The merge on lists. *)
Fixpoint merge_spec (del : list gostr) (add bl : list Label) : list Label :=
  match bl with
  | [] => add
  | l :: bl' =>
      let del := skip_less (Name l) del in
      if match del with d :: _ => str_eqb d (Name l) | [] => false end then merge_spec del add bl'
      else
        let '(less, rest) := span_less (Name l) add in
        less ++ match rest with
                | a :: rest' => if str_eqb (Name a) (Name l) then a :: merge_spec del rest' bl' else l :: merge_spec del rest bl'
                | [] => l :: merge_spec del [] bl'
                end
  end.

Lemma foldl_append add buf :
  Forall short_label add -> foldl (fun buf a => buf ← buf; appendLabelTo buf a) (Some buf) add = Some (buf ++ encode add).
Proof.
  intros Hs. revert buf. induction Hs as [|a add Ha _ IH]; intros buf; cbn [foldl]; [cbn; by rewrite app_nil_r|].
  cbn [mbind option_bind]. rewrite appendLabelTo_enc by done. rewrite IH. change (encode (a :: add)) with (enc_label a ++ encode add).
  by rewrite <-app_assoc.
Qed.

Lemma span_short lName add : Forall short_label add -> Forall short_label (snd (span_less lName add)).
Proof. induction 1; cbn; [constructor|]. destruct (str_ltb _ _); [by destruct (span_less _ _)|by constructor]. Qed.

Lemma merge_loop_enc bl : forall del add buf, Forall short_label add ->
  exists del' add' out, fold_labels merge_body (del, add, Some buf) bl = (del', add', Some (buf ++ encode out)) /\
    Forall short_label add' /\ out ++ add' = merge_spec del add bl.
Proof.
  induction bl as [|l bl IH]; intros del add buf Hs; cbn [fold_labels merge_spec].
  - exists del, add, []. split_and!; [by rewrite app_nil_r|done|done].
  - unfold merge_body at 1. destruct (match skip_less (Name l) del with d :: _ => _ | [] => _ end) eqn:Ed; [by apply IH|].
    rewrite add_less_enc by done. pose proof (span_short (Name l) add Hs) as Hr. destruct (span_less (Name l) add) as [less rest]. cbn [fst snd] in *.
    assert (Hkeep : forall x add1, Forall short_label add1 -> exists del' add' out,
      fold_labels merge_body (skip_less (Name l) del, add1, Some (buf ++ encode less ++ enc_label x)) bl = (del', add', Some (buf ++ encode out)) /\
      Forall short_label add' /\ out ++ add' = less ++ x :: merge_spec (skip_less (Name l) del) add1 bl).
    { intros x add1 H1. destruct (IH (skip_less (Name l) del) add1 (buf ++ encode less ++ enc_label x) H1) as (d' & a' & out & -> & Ha' & Ho).
      exists d', a', (less ++ x :: out). split_and!; [|done|rewrite <-Ho; by rewrite <-app_assoc].
      rewrite encode_app. change (encode (x :: out)) with (enc_label x ++ encode out). by rewrite <-!app_assoc. }
    destruct rest as [|a rest]; [cbn [mbind option_bind]; rewrite <-app_assoc; by apply Hkeep|].
    apply Forall_cons in Hr as [Ha Hr]. destruct (str_eqb (Name a) (Name l)); cbn [mbind option_bind].
    + rewrite appendLabelTo_enc, <-app_assoc by done. by apply Hkeep.
    + rewrite <-app_assoc. apply Hkeep. by constructor.
Qed.

Lemma name_not_in n (ls : list Label) : Forall (fun a => Name a <> n) ls -> n ∉ names ls.
Proof. intros H (a & -> & Ha)%list_elem_of_fmap. rewrite Forall_forall in H. by eapply H. Qed.

Lemma ltb_neq a b : str_ltb a b = true -> a <> b.
Proof. intros H ->. by rewrite str_ltb_irrefl in H. Qed.

Lemma ltb_neq_trans a b c : str_ltb a b = true -> str_ltb b c = true -> a <> c.
Proof. intros H1 H2. apply ltb_neq. by eapply str_ltb_trans. Qed.

Lemma names_app a b : names (a ++ b) = names a ++ names b.
Proof. apply map_app. Qed.

Lemma sorted_labels_app a b : sorted_labels (a ++ b) -> sorted_labels a /\ sorted_labels b.
Proof. intros H. split; [by eapply StronglySorted_app_1_l|by eapply StronglySorted_app_1_r]. Qed.

(** The added labels around the name of a base label. *)
Inductive span_cases (l : Label) (add less rest : list Label) : Prop :=
  | span_replace a rest' : rest = a :: rest' -> Name a = Name l -> Forall (fun a => str_ltb (Name l) (Name a) = true) rest' -> span_cases l add less rest
  | span_keep : Forall (fun a => str_ltb (Name l) (Name a) = true) rest -> span_cases l add less rest.

Lemma span_less_cases l add less rest :
  sorted_labels add -> span_less (Name l) add = (less, rest) ->
  add = less ++ rest /\ Forall (fun a => str_ltb (Name a) (Name l) = true) less /\ sorted_labels rest /\ span_cases l add less rest.
Proof.
  intros Hs E. destruct (span_less_spec (Name l) add Hs) as (He & Hl & Hr). rewrite E in He, Hl, Hr. cbn in *.
  rewrite He in Hs. apply sorted_labels_app in Hs as [_ Hs]. split_and!; [done..|]. destruct rest as [|a rest']; [by right|].
  apply sorted_labels_inv in Hs as [_ Hlt]. apply Forall_cons in Hr as [Ha _]. destruct (str_trichotomy (Name a) (Name l)) as [H|[H|H]]; [congruence| |].
  - eapply span_replace; [done|done|]. by rewrite <-H.
  - right. constructor; [done|]. eapply Forall_impl; [exact Hlt|]. intros x Hx. by eapply str_ltb_trans.
Qed.

Lemma merge_spec_mem bl : forall del add, StronglySorted str_le del -> sorted_labels add -> sorted_labels bl ->
  forall x, x ∈ merge_spec del add bl <-> x ∈ add \/ (x ∈ bl /\ Name x ∉ del /\ Name x ∉ names add).
Proof.
  induction bl as [|l bl IH]; intros del add Hd Ha Hb x; cbn [merge_spec]; [set_solver|].
  apply sorted_labels_inv in Hb as [Hb Hlt]. rewrite skip_less_head by done. pose proof (skip_less_sorted (Name l) del Hd) as Hd'.
  rewrite Forall_forall in Hlt. assert (Hdel : x ∈ bl -> Name x ∉ skip_less (Name l) del <-> Name x ∉ del).
  { intros Hx. by rewrite (skip_less_later (Name l) del (Name x)) by by apply Hlt. }
  case_bool_decide as Hdl.
  - rewrite IH by done. rewrite elem_of_cons. split; [naive_solver|]. intros [H|([->|H] & H1 & H2)]; [by left|done|right; tauto].
  - destruct (span_less (Name l) add) as [less rest] eqn:E. apply span_less_cases in E as (-> & Hless & Hrest & Hc); [|done].
    assert (Hxless : x ∈ bl -> Name x ∉ names less).
    { intros Hx. apply name_not_in. eapply Forall_impl; [exact Hless|]. intros a H. by eapply ltb_neq_trans, Hlt. }
    rewrite elem_of_app, names_app, not_elem_of_app, elem_of_cons. destruct Hc as [a rest' -> Hal Hgt|Hgt].
    + rewrite (proj2 (str_eqb_eq _ _)) by done. apply sorted_labels_inv in Hrest as [Hrest _]. cbn [names map].
      assert (Hxa : x ∈ bl -> Name x <> Name a) by (intros Hx; rewrite Hal; apply not_eq_sym, ltb_neq; by apply Hlt).
      rewrite not_elem_of_cons, !elem_of_cons, IH, elem_of_app, elem_of_cons by done. split; [naive_solver|].
      intros [H|([->|H] & H1 & H2 & H3 & H4)]; [naive_solver| |right; right; right; split_and!; [done|by apply Hdel|done]]. congruence.
    + assert (Hstep : (match rest with a :: rest' => if str_eqb (Name a) (Name l) then a :: merge_spec (skip_less (Name l) del) rest' bl
          else l :: merge_spec (skip_less (Name l) del) rest bl | [] => l :: merge_spec (skip_less (Name l) del) [] bl end)
        = l :: merge_spec (skip_less (Name l) del) rest bl).
      { destruct rest as [|a rest']; [done|]. apply Forall_cons in Hgt as [Ha' _]. by rewrite (proj2 (str_eqb_neq _ _)) by (apply not_eq_sym; by apply ltb_neq). }
      rewrite Hstep, elem_of_cons, IH by done. rewrite elem_of_app.
      assert (Hl1 : Name l ∉ names less) by (apply name_not_in; eapply Forall_impl; [exact Hless|]; intros a; apply ltb_neq).
      assert (Hl2 : Name l ∉ names rest) by (apply name_not_in; eapply Forall_impl; [exact Hgt|]; intros a H; by apply not_eq_sym, ltb_neq).
      split; [naive_solver|]. intros [H|([->|H] & H1 & H2 & H3)]; [naive_solver|tauto|right; right; right; split_and!; [done|by apply Hdel|done]].
Qed.

Lemma merge_spec_sorted bl : forall del add, StronglySorted str_le del -> sorted_labels add -> sorted_labels bl -> sorted_labels (merge_spec del add bl).
Proof.
  induction bl as [|l bl IH]; intros del add Hd Ha Hb; cbn [merge_spec]; [done|].
  apply sorted_labels_inv in Hb as [Hb Hlt]. pose proof (skip_less_sorted (Name l) del Hd) as Hd'.
  destruct (match skip_less (Name l) del with d :: _ => _ | [] => _ end); [by apply IH|].
  destruct (span_less (Name l) add) as [less rest] eqn:E. apply span_less_cases in E as (-> & Hless & Hrest & Hc); [|done].
  apply sorted_labels_app in Ha as [Hsl _].
  assert (Hjoin : forall y rest1, Name y = Name l -> sorted_labels rest1 -> Forall (fun a => str_ltb (Name l) (Name a) = true) rest1 ->
    sorted_labels (less ++ y :: merge_spec (skip_less (Name l) del) rest1 bl)).
  { intros y rest1 Hy Hs1 Hgt. assert (Hall : Forall (fun x => str_ltb (Name l) (Name x) = true) (merge_spec (skip_less (Name l) del) rest1 bl)).
    { apply Forall_forall. intros x [Hx|[Hx _]]%merge_spec_mem; [|by eapply Forall_forall in Hlt|done..]. by eapply Forall_forall in Hgt. }
    apply StronglySorted_app_2; [|done|constructor; [by apply IH|eapply Forall_impl; [exact Hall|]; intros x Hx; unfold name_lt; by rewrite Hy]].
    intros a b Hx Hyz. eapply Forall_forall in Hless; [|exact Hx]. unfold name_lt. apply elem_of_cons in Hyz as [->|Hyz]; [by rewrite Hy|].
    eapply Forall_forall in Hall; [|exact Hyz]. by eapply str_ltb_trans. }
  destruct Hc as [a rest' -> Hal Hgt|Hgt].
  - rewrite (proj2 (str_eqb_eq _ _)) by done. apply Hjoin; [done| |done]. by apply sorted_labels_inv in Hrest as [? _].
  - destruct rest as [|a rest']; [by apply Hjoin|]. rewrite (proj2 (str_eqb_neq _ _)); [by apply Hjoin|].
    apply Forall_cons in Hgt as [H _]. by apply not_eq_sym, ltb_neq.
Qed.

(** ** The builder as a map *)

(** What the builder stands for: [m] is the label set, [a] the names that were
    set since the last reset. *)
Record represents (bl : list Label) (b : Builder) (m : gmap gostr gostr) (a : gset gostr) : Prop := {
  rep_base : base b = of_list bl;
  rep_good : good bl;
  rep_short : Forall short_label (add b);
  rep_nonblank : Forall nonblank (add b);
  rep_nodup : NoDup (names (add b));
  rep_values : Forall (fun l => Value l <> []) (add b);
  rep_blank : forall l, l ∈ bl -> Value l = [] -> Name l ∈ del b;
  rep_map : forall n v, m !! n = Some v <-> mk_Label n v ∈ add b \/ (mk_Label n v ∈ bl /\ n ∉ del b /\ n ∉ names (add b));
  rep_added : forall n, n ∈ a <-> n ∈ names (add b) }.

Lemma elem_of_names x ls : x ∈ ls -> Name x ∈ names ls.
Proof. apply list_elem_of_fmap_2. Qed.

Lemma names_filter_ne n ls : names (filter (fun l => Name l <> n) ls) = filter (fun k => k <> n) (names ls).
Proof.
  induction ls as [|l ls IH]; [done|]. change (names (l :: ls)) with (Name l :: names ls). rewrite !filter_cons.
  destruct (decide (Name l <> n)); [|done]. cbn. f_equal. exact IH.
Qed.

Lemma Forall_filter_keep {A} (P Q : A -> Prop) `{!forall x, Decision (P x)} l : Forall Q l -> Forall Q (filter P l).
Proof. rewrite !Forall_forall. intros HQ x [_ Hx]%list_elem_of_filter. by apply HQ. Qed.

Lemma Del1_represents bl b m a n :
  represents bl b m a -> exists b', Builder_Del1 b n = Some b' /\ represents bl b' (delete n m) (a ∖ {[n]}).
Proof.
  intros [Hb Hg Hs Hnb Hnd Hv Hbl Hm Ha]. unfold Builder_Del1. destruct (Del_add n (add b) Hnd) as (arr & k & -> & Hk). cbn [mbind option_bind].
  eexists. split; [done|]. rewrite Hk. split; cbn [base del add]; rewrite ?names_filter_ne; try done; try (by apply Forall_filter_keep); try (by apply NoDup_filter).
  - intros l Hl Hv'. rewrite elem_of_app. left. by apply Hbl.
  - intros n' v. rewrite lookup_delete_Some, Hm, !list_elem_of_filter, not_elem_of_app, list_elem_of_singleton. cbn.
    split; [intros [Hne [H|(H1 & H2 & H3)]]; [by left|right; split_and!; [done..|tauto]]|].
    intros [[H1 H2]|(H1 & [H2 H3] & H4)]; [split; [congruence|by left]|]. split; [congruence|right; split_and!; [done..|tauto]].
  - intros n'. rewrite elem_of_difference, Ha, elem_of_singleton, list_elem_of_filter. tauto.
Qed.

Lemma set_value_None n v ls : set_value n v ls = None -> n ∉ names ls.
Proof.
  induction ls as [|l ls IH]; cbn [set_value]; [intros _; apply not_elem_of_nil|]. destruct (str_eqb (Name l) n) eqn:E; [done|].
  apply str_eqb_neq in E. destruct (set_value n v ls); [done|]. intros _. cbn. rewrite not_elem_of_cons. split; [congruence|by apply IH].
Qed.

Lemma set_value_Some n v ls ls' : NoDup (names ls) -> set_value n v ls = Some ls' ->
  names ls' = names ls /\ n ∈ names ls /\ (forall x, x ∈ ls' <-> x = mk_Label n v \/ (x ∈ ls /\ Name x <> n)).
Proof.
  revert ls'. induction ls as [|l ls IH]; intros ls' Hnd; cbn [set_value]; [done|]. cbn in Hnd. apply NoDup_cons in Hnd as [Hn Hnd].
  destruct (str_eqb (Name l) n) eqn:E.
  - apply str_eqb_eq in E. intros [= <-]. cbn. rewrite E. split_and!; [done|by left|]. intros x. rewrite !elem_of_cons. split.
    + intros [->|Hx]; [by left|]. right. split; [by right|]. intros En. apply Hn. rewrite E, <-En. by apply elem_of_names.
    + intros [->|[[->|Hx] Hne]]; [by left|done|by right].
  - apply str_eqb_neq in E. destruct (set_value n v ls) as [l'|] eqn:F; [|done]. intros [= <-].
    destruct (IH l' Hnd eq_refl) as (H1 & H2 & H3). cbn. unfold names in *. rewrite H1. split_and!; [done|by right|].
    intros x. rewrite !elem_of_cons, H3. naive_solver.
Qed.

Lemma Set_represents bl b m a n v :
  represents bl b m a -> n <> [] -> short n -> short v ->
  exists b', Builder_Set b n v = Some b' /\
    represents bl b' (if str_eqb v [] then delete n m else <[n := v]> m) (if str_eqb v [] then a ∖ {[n]} else {[n]} ∪ a).
Proof.
  intros Hr Hn Hsn Hsv. unfold Builder_Set. destruct v as [|c v'] eqn:Ev.
  { cbn [Builder_Del]. destruct (Del1_represents bl b m a n Hr) as (b' & -> & Hr'). by exists b'. }
  rewrite <-Ev in *. assert (Hne : v <> []) by (by rewrite Ev). rewrite (proj2 (str_eqb_neq _ _) Hne). eexists. split; [done|].
  destruct Hr as [Hb Hg Hs Hnb Hnd Hv Hbl Hm Ha]. destruct (set_value n v (add b)) as [l|] eqn:E.
  - destruct (set_value_Some n v (add b) l Hnd E) as (Hnames & Hin & Hmem).
    assert (HF : forall P : Label -> Prop, P (mk_Label n v) -> Forall P (add b) -> Forall P l).
    { intros P HP HA. apply Forall_forall. intros x [->|[Hx _]]%Hmem; [done|]. by eapply Forall_forall in HA. }
    split; cbn [base del add]; rewrite ?Hnames; try done; try (by apply HF).
    + intros n' v'0. rewrite lookup_insert_Some, Hm, Hmem. split; [naive_solver|]. intros [[[= -> ->]|[H1 H2]]|(H1 & H2 & H3)]; [by left| |].
      * right. split; [cbn in H2; congruence|by left].
      * right. split; [by intros ->|by right].
    + intros n'. rewrite elem_of_union, elem_of_singleton, Ha. naive_solver.
  - apply set_value_None in E. assert (Hnew : forall P : Label -> Prop, P (mk_Label n v) -> Forall P (add b) -> Forall P (add b ++ [mk_Label n v]))
      by (intros; apply Forall_app; split; [done|by constructor]).
    split; cbn [base del add]; rewrite ?names_app; change (names [mk_Label n v]) with [n]; try done; try (by apply Hnew).
    + apply NoDup_app. split_and!; [done| |apply NoDup_singleton]. intros x Hx ->%list_elem_of_singleton. done.
    + intros n' v'0. rewrite lookup_insert_Some, Hm, elem_of_app, not_elem_of_app, !list_elem_of_singleton. cbn [Name].
      split; [intros [[-> ->]|[Hnn [H|(H1 & H2 & H3)]]]; [by left; right|by left; left|right; split_and!; [done..|congruence]]|].
      intros [[H|[= -> ->]]|(H1 & H2 & H3 & H4)]; [right; split; [|by left]|by left|right; split; [congruence|by right]].
      intros ->. by apply E, (elem_of_names (mk_Label n' v'0)).
    + intros n'. rewrite elem_of_union, elem_of_singleton, Ha, elem_of_app, list_elem_of_singleton. cbn [Name]. tauto.
Qed.

Lemma Del_represents bl ns : forall b m a, represents bl b m a ->
  exists b', Builder_Del b ns = Some b' /\ represents bl b' (foldl (fun m n => delete n m) m ns) (foldl (fun a n => a ∖ {[n]}) a ns).
Proof.
  induction ns as [|n ns IH]; intros b m a Hr; cbn [Builder_Del foldl]; [by exists b|].
  destruct (Del1_represents bl b m a n Hr) as (b' & -> & Hr'). by apply IH.
Qed.

Lemma Keep_represents bl b m a ns : represents bl b m a ->
  exists b', Builder_Keep b ns = Some b' /\ represents bl b' (filter (fun kv => kv.1 ∈ ns \/ kv.1 ∈ a) m) a.
Proof.
  intros [Hb Hg Hs Hnb Hnd Hv Hbl Hm Ha]. unfold Builder_Keep. rewrite Hb, Range_enc by apply Hg. cbn [mbind option_bind].
  eexists. split; [done|]. split; cbn [base del add]; try done.
  - intros l Hl Hv'. rewrite elem_of_app. left. by apply Hbl.
  - intros n v. rewrite map_lookup_filter_Some, Hm, not_elem_of_app. cbn [fst].
    assert (Hdel : mk_Label n v ∈ bl -> n ∉ map Name (List.filter (fun l => negb (bool_decide (Name l ∈ ns))) bl) <-> n ∈ ns).
    { intros Hin. rewrite list_elem_of_fmap. setoid_rewrite list_elem_of_In. setoid_rewrite filter_In. setoid_rewrite <-list_elem_of_In.
      split; [intros H; apply dec_stable; intros Hn; apply H; exists (mk_Label n v); split_and!; [done..|cbn; by rewrite bool_decide_false]|].
      intros Hn (l & -> & _ & Hneg). by rewrite bool_decide_true in Hneg. }
    split.
    + intros [[H|(H1 & H2 & H3)] [Hn|Hn]]; [by left|by left|right; split_and!; [done|done|by apply Hdel|done]|].
      by apply Ha in Hn.
    + intros [H|(H1 & [H2 H3] & H4)]; [split; [by left|right; apply Ha; by apply (elem_of_names (mk_Label n v))]|].
      split; [by right|left; by apply Hdel].
Qed.

(** The labels that are not blank, as a map. *)
Definition label_map (ls : list Label) : gmap gostr gostr :=
  list_to_map (map (fun l => (Name l, Value l)) (filter (fun l => Value l <> []) ls)).

Lemma sorted_names_NoDup ls : sorted_labels ls -> NoDup (names ls).
Proof.
  induction ls as [|l ls IH]; [constructor|]. intros [Hs Hlt]%sorted_labels_inv. cbn. constructor; [|by apply IH].
  apply name_not_in. eapply Forall_impl; [exact Hlt|]. intros x H. by apply not_eq_sym, ltb_neq.
Qed.

Lemma label_map_lookup ls n v : sorted_labels ls -> label_map ls !! n = Some v <-> mk_Label n v ∈ ls /\ v <> [].
Proof.
  intros Hs. unfold label_map. rewrite <-elem_of_list_to_map.
  - rewrite list_elem_of_fmap. setoid_rewrite list_elem_of_filter. split; [intros ([n' v'] & [= -> ->] & ? & ?); done|].
    intros [H1 H2]. by exists (mk_Label n v).
  - rewrite map_map. change (NoDup (names (filter (fun l => Value l <> []) ls))). apply sorted_names_NoDup in Hs. revert Hs.
    induction ls as [|l ls IH]; [done|]. cbn [names map]. intros [Hn Hnd]%NoDup_cons. rewrite filter_cons. destruct (decide _); [|by apply IH].
    cbn. constructor; [|by apply IH]. intros (x & E & [_ Hx]%list_elem_of_filter)%list_elem_of_fmap. apply Hn. rewrite E. by apply elem_of_names.
Qed.

Lemma Reset_represents bl : good bl -> exists b, NewBuilder (of_list bl) = Some b /\ represents bl b (label_map bl) ∅.
Proof.
  intros Hg. unfold NewBuilder, Builder_Reset. rewrite Range_enc by apply Hg. cbn [mbind option_bind]. eexists. split; [done|].
  assert (Hdel : forall l, l ∈ bl -> Name l ∈ map Name (List.filter (fun l => str_eqb (Value l) []) bl) <-> Value l = []).
  { intros l Hl. rewrite list_elem_of_fmap. setoid_rewrite list_elem_of_In. setoid_rewrite filter_In. setoid_rewrite <-list_elem_of_In.
    setoid_rewrite str_eqb_eq. split; [|intros H; by exists l]. intros (x & En & Hx & Hv). destruct Hg as (_ & _ & Hs).
    apply sorted_names_NoDup in Hs. assert (x = l) as ->; [|done]. apply list_elem_of_lookup in Hx as [i Hi], Hl as [j Hj].
    assert (i = j) as ->; [|congruence]. change (NoDup (Name <$> bl)) in Hs. eapply NoDup_lookup; [exact Hs|by rewrite list_lookup_fmap, Hi|by rewrite list_lookup_fmap, Hj; cbn; rewrite En]. }
  split; cbn [base del add]; try done; try constructor.
  - intros l Hl Hv. by apply Hdel.
  - intros Hm. apply label_map_lookup in Hm as [Hm Hv]; [|apply Hg]. right. split_and!; [done| |apply not_elem_of_nil].
    intros H. by apply (Hdel (mk_Label n v)) in H.
  - intros [H|(H1 & H2 & _)]; [by apply not_elem_of_nil in H|]. apply label_map_lookup; [apply Hg|]. split; [done|]. intros Hv. apply H2.
    by apply (Hdel (mk_Label n v)).
  - intros H. by apply not_elem_of_empty in H.
  - intros H. by apply not_elem_of_nil in H.
Qed.

(** The calls that change a builder. *)
Inductive builder_op := OpSet (n v : gostr) | OpDel (ns : list gostr) | OpKeep (ns : list gostr).

Definition builder_exec (b : Builder) (o : builder_op) : option Builder :=
  match o with OpSet n v => Builder_Set b n v | OpDel ns => Builder_Del b ns | OpKeep ns => Builder_Keep b ns end.

(** Their effect on a label set [m] and on the set [a] of names that were set. *)
Definition map_exec (ma : gmap gostr gostr * gset gostr) (o : builder_op) : gmap gostr gostr * gset gostr :=
  let '(m, a) := ma in
  match o with
  | OpSet n v => if str_eqb v [] then (delete n m, a ∖ {[n]}) else (<[n := v]> m, {[n]} ∪ a)
  | OpDel ns => (foldl (fun m n => delete n m) m ns, foldl (fun a n => a ∖ {[n]}) a ns)
  | OpKeep ns => (filter (fun kv => kv.1 ∈ ns \/ kv.1 ∈ a) m, a)
  end.

Definition op_ok (o : builder_op) : Prop := match o with OpSet n v => n <> [] /\ short n /\ short v | _ => True end.

Lemma exec_represents bl b m a o : op_ok o -> represents bl b m a ->
  exists b', builder_exec b o = Some b' /\ represents bl b' (map_exec (m, a) o).1 (map_exec (m, a) o).2.
Proof.
  intros Ho Hr. destruct o as [n v|ns|ns]; cbn [builder_exec map_exec fst snd].
  - destruct Ho as (Hn & Hsn & Hsv). destruct (Set_represents bl b m a n v Hr Hn Hsn Hsv) as (b' & -> & H). exists b'. split; [done|].
    by destruct (str_eqb v []).
  - destruct (Del_represents bl ns b m a Hr) as (b' & -> & H). by exists b'.
  - destruct (Keep_represents bl b m a ns Hr) as (b' & -> & H). by exists b'.
Qed.

Definition builder_run (b : option Builder) (os : list builder_op) : option Builder :=
  foldl (fun b o => b ← b; builder_exec b o) b os.

Lemma run_represents bl os : Forall op_ok os -> forall b m a, represents bl b m a ->
  exists b', builder_run (Some b) os = Some b' /\ represents bl b' (foldl map_exec (m, a) os).1 (foldl map_exec (m, a) os).2.
Proof.
  induction 1 as [|o os Ho _ IH]; intros b m a Hr; cbn [builder_run foldl]; [by exists b|].
  destruct (exec_represents bl b m a o Ho Hr) as (b' & Hb' & Hr'). cbn [mbind option_bind]. rewrite Hb'.
  destruct (map_exec (m, a) o) as [m' a']. by apply IH.
Qed.

(** The list of labels of a map. *)
Definition lists_map (ls : list Label) (m : gmap gostr gostr) : Prop :=
  sorted_labels ls /\ forall n v, mk_Label n v ∈ ls <-> m !! n = Some v.

#[global] Instance by_name_trans : Transitive by_name.
Proof. intros a b c. unfold by_name. apply str_le_trans. Qed.
#[global] Instance by_name_total : Total by_name.
Proof. intros a b. unfold by_name. apply str_le_total. Qed.

Lemma sort_labels ls : NoDup (names ls) -> sorted_labels (merge_sort by_name ls).
Proof.
  intros Hnd. assert (Hs : StronglySorted by_name (merge_sort by_name ls)) by (apply StronglySorted_merge_sort; apply _).
  assert (Hnd' : NoDup (names (merge_sort by_name ls))) by (unfold names; by rewrite merge_sort_Permutation).
  induction Hs as [|l ls' _ IH Hall]; [constructor|]. cbn in Hnd'. apply NoDup_cons in Hnd' as [Hn Hnd']. constructor; [by apply IH|].
  apply Forall_forall. intros x Hx. rewrite Forall_forall in Hall. specialize (Hall x Hx). unfold by_name, str_le in Hall. unfold name_lt.
  destruct (str_trichotomy (Name l) (Name x)) as [H|[H|H]]; [done| |congruence]. exfalso. apply Hn. rewrite H. by apply elem_of_names.
Qed.

Lemma Labels_represents bl b m a : represents bl b m a ->
  exists ls b', Builder_Labels b = Some (of_list ls, b') /\ lists_map ls m /\ good ls.
Proof.
  intros [Hb Hg Hs Hnb Hnd Hv Hbl Hm Ha]. unfold Builder_Labels. destruct (decide (del b = [] /\ add b = [])) as [[Ed Ea]|Hne].
  - rewrite Ed, Ea in *. rewrite Hb. eexists _, _. split; [done|]. split; [|done]. split; [apply Hg|]. intros n v. rewrite Hm.
    pose proof (not_elem_of_nil (A := Label)). pose proof (not_elem_of_nil (A := gostr)). cbn. naive_solver.
  - assert (Hsd : StronglySorted str_le (merge_sort str_le (del b))) by (apply StronglySorted_merge_sort; apply _).
    pose proof (sort_labels _ Hnd) as Hsa. pose proof (merge_sort_Permutation by_name (add b)) as Hp. pose proof (merge_sort_Permutation str_le (del b)) as Hpd.
    assert (Hss : Forall short_label (merge_sort by_name (add b))) by by rewrite Hp.
    destruct (merge_loop_enc bl (merge_sort str_le (del b)) (merge_sort by_name (add b)) [] Hss) as (d' & a' & out & Hf & Ha' & Ho).
    assert (Hres : exists b', (let b := mk_Builder (base b) (merge_sort str_le (del b)) (merge_sort by_name (add b)) in
      '(_, add', buf) ← for_labels (base b) merge_body (del b, add b, Some []);
      buf ← foldl (fun buf a => buf ← buf; appendLabelTo buf a) buf add';
      Some (mk_Labels buf, b)) = Some (of_list (merge_spec (merge_sort str_le (del b)) (merge_sort by_name (add b)) bl), b')).
    { cbn [base del add]. rewrite Hb, for_labels_enc, Hf by apply Hg. cbn [mbind option_bind]. rewrite foldl_append by done. cbn [mbind option_bind].
      eexists. rewrite <-Ho. unfold of_list. by rewrite encode_app. }
    assert (Hall : forall x, x ∈ merge_spec (merge_sort str_le (del b)) (merge_sort by_name (add b)) bl -> x ∈ add b \/ x ∈ bl).
    { intros x Hx. apply merge_spec_mem in Hx; [|done|done|apply Hg]. rewrite Hp in Hx. naive_solver. }
    destruct Hres as [b' Hres]. eexists _, b'. split; [|split; [split|split_and!]].
    + rewrite <-Hres. destruct (del b), (add b); try done. exfalso. by apply Hne.
    + apply merge_spec_sorted; [done..|apply Hg].
    + intros n v. rewrite merge_spec_mem by (done || apply Hg). rewrite Hm. by rewrite Hp, Hpd.
    + apply Forall_forall. intros x [Hx|Hx]%Hall; [by eapply Forall_forall in Hs|]. destruct Hg as (Hg & _). by eapply Forall_forall in Hg.
    + apply Forall_forall. intros x [Hx|Hx]%Hall; [by eapply Forall_forall in Hnb|]. destruct Hg as (_ & Hg & _). by eapply Forall_forall in Hg.
    + apply merge_spec_sorted; [done..|apply Hg].
Qed.

Lemma label_eta l : mk_Label (Name l) (Value l) = l.
Proof. by destruct l. Qed.

Lemma Get_represents bl b m a n : represents bl b m a -> Builder_Get b n = Some (default [] (m !! n)).
Proof.
  intros [Hb Hg Hs Hnb Hnd Hv Hbl Hm Ha]. unfold Builder_Get. destruct (list_find (fun l => Name l = n) (add b)) as [[i l]|] eqn:E.
  - apply list_find_Some in E as (Hl%list_elem_of_lookup_2 & <- & _). assert (Hx : m !! Name l = Some (Value l)) by (apply Hm; left; by rewrite label_eta).
    by rewrite Hx.
  - apply list_find_None in E. apply name_not_in in E. case_bool_decide as Hd.
    + destruct (m !! n) as [v|] eqn:F; [|done]. apply Hm in F as [F|(_ & F & _)]; [|done]. by apply (elem_of_names (mk_Label n v)) in F.
    + rewrite Hb. destruct (Labels_Get_spec bl n Hg) as [-> _]. f_equal. unfold get_label.
      destruct (list_find (fun l => Name l = n) bl) as [[i l]|] eqn:F.
      * apply list_find_Some in F as (Hl%list_elem_of_lookup_2 & <- & _).
        assert (Hx : m !! Name l = Some (Value l)) by (apply Hm; right; by rewrite label_eta). by rewrite Hx.
      * apply list_find_None in F. destruct (m !! n) as [v|] eqn:G; [|done]. apply Hm in G as [G|[G _]].
        -- by apply (elem_of_names (mk_Label n v)) in G.
        -- rewrite Forall_forall in F. destruct (F _ G eq_refl).
Qed.

Lemma Range_represents bl b m a : represents bl b m a ->
  exists ls, Builder_Range b = Some ls /\ NoDup (names ls) /\ forall n v, mk_Label n v ∈ ls <-> m !! n = Some v.
Proof.
  intros [Hb Hg Hs Hnb Hnd Hv Hbl Hm Ha]. unfold Builder_Range. rewrite Hb, Range_enc by apply Hg. cbn [mbind option_bind]. eexists. split; [done|].
  set (keep := fun l => _ && _). assert (Hk : forall l, l ∈ List.filter keep bl <-> l ∈ bl /\ Name l ∉ del b /\ Name l ∉ names (add b)).
  { intros l. rewrite list_elem_of_In, filter_In, <-list_elem_of_In. unfold keep. rewrite andb_true_iff, !negb_true_iff, bool_decide_eq_false.
    assert (Hc : labels_contains (add b) (Name l) = false <-> Name l ∉ names (add b)); [|by rewrite Hc].
    unfold labels_contains. rewrite <-not_true_iff_false, existsb_exists. setoid_rewrite <-list_elem_of_In. setoid_rewrite str_eqb_eq.
    unfold names. rewrite list_elem_of_fmap. naive_solver. }
  split.
  - rewrite names_app. apply NoDup_app. split_and!; [| |done].
    + destruct Hg as (_ & _ & Hsb). apply sorted_names_NoDup in Hsb. clear -Hsb. induction bl as [|l bl IH]; cbn; [constructor|].
      cbn in Hsb. apply NoDup_cons in Hsb as [Hn Hsb]. destruct (keep l); [|by apply IH]. cbn. constructor; [|by apply IH].
      intros (x & E & Hx)%list_elem_of_fmap. apply Hn. rewrite E. apply elem_of_names. apply list_elem_of_In, filter_In in Hx as [Hx _]. by apply list_elem_of_In.
    + intros n (l & -> & (_ & _ & Hl)%Hk)%list_elem_of_fmap. done.
  - intros n v. rewrite elem_of_app, Hk, Hm. cbn [Name]. tauto.
Qed.

(** C11: the label builder implements a map.  Whatever sequence of Set, Del and
    Keep calls follows a reset to a label set, no call fails, Labels returns the
    sorted list of the labels of the map that the same operations give (setting
    "" deletes; Keep removes base labels that were not set meanwhile), and Get
    and Range agree with it. *)
Theorem Builder_refines_map (bl : list Label) (os : list builder_op) :
  good bl -> Forall op_ok os ->
  let m := fst (foldl map_exec (label_map bl, ∅) os) in
  exists b ls b', builder_run (NewBuilder (of_list bl)) os = Some b /\ Builder_Labels b = Some (of_list ls, b') /\ lists_map ls m /\
    (forall n, Builder_Get b n = Some (default [] (m !! n))) /\
    exists rs, Builder_Range b = Some rs /\ NoDup (names rs) /\ forall n v, mk_Label n v ∈ rs <-> m !! n = Some v.
Proof.
  intros Hg Hos m. destruct (Reset_represents bl Hg) as (b0 & -> & Hr0). destruct (run_represents bl os Hos b0 _ _ Hr0) as (b & Hrun & Hr).
  destruct (Labels_represents _ _ _ _ Hr) as (ls & b' & Hl & Hlm & _). exists b, ls, b'. split_and!; [done|done|done| |].
  - intros n. by eapply Get_represents.
  - by eapply Range_represents.
Qed.

(** A set, an overwrite, a deletion, a deletion of an added label, and Keep. *)
Lemma Builder_refines_map_witness :
  let bl := [mk_Label [97] [49]; mk_Label [98] [50]; mk_Label [99] []; mk_Label [101] [53]] in
  let os := [OpSet [100] [52]; OpSet [98] [57]; OpSet [97; 97] [55]; OpSet [97; 97] []; OpKeep [[97]; [98]]; OpSet [99] [51]; OpDel [[97]]] in
  (b ← builder_run (NewBuilder (of_list bl)) os; '(ls, _) ← Builder_Labels b; Some ls)
    = Some (of_list [mk_Label [98] [57]; mk_Label [99] [51]; mk_Label [100] [52]]) /\
  exists b ls b', builder_run (NewBuilder (of_list bl)) os = Some b /\ Builder_Labels b = Some (of_list ls, b') /\
    lists_map ls (fst (foldl map_exec (label_map bl, ∅) os)).
Proof.
  intros bl os. split; [by vm_compute|].
  assert (Hg : good bl) by (split_and!; repeat constructor; done). assert (Ho : Forall op_ok os) by (repeat constructor; done).
  destruct (Builder_refines_map bl os Hg Ho) as (b & ls & b' & H1 & H2 & H3 & _). exists b, ls, b'. split_and!; [exact H1|exact H2|exact H3].
Defined.

(** ** Every way to make a label set makes a well-formed one *)

(** The labels that DropReserved keeps. *)
Definition keeps (f : gostr -> bool) (l : Label) : bool := negb (f (Name l) && (default 0 (Name l !! 0%nat) <=? 95)).

Lemma drop_from_enc f ls : forall fuel pre, good ls -> (length ls <= fuel)%nat ->
  drop_from fuel f (pre ++ encode ls) (length pre) = Some (pre ++ encode (List.filter (keeps f) ls)).
Proof.
  induction ls as [|l ls IH]; intros fuel pre Hg Hf.
  - cbn [List.filter]. unfold encode. cbn [map concat]. rewrite app_nil_r. destruct fuel; cbn [drop_from]; by rewrite Nat.ltb_irrefl.
  - apply good_inv in Hg as (Hg & [Hn Hv] & Hb & Hlt). destruct fuel as [|fuel]; [cbn in Hf; lia|]. cbn [length] in Hf. cbn [drop_from].
    change (encode (l :: ls)) with (enc_label l ++ encode ls). rewrite (proj2 (Nat.ltb_lt _ _)) by (rewrite !length_app; pose proof (length_enc_label l); lia).
    rewrite decode_name by done. cbn [mbind option_bind]. destruct (decodeSize_value pre l (encode ls) Hv) as (i & Hds & Hi2). rewrite Hds. cbn [mbind option_bind].
    rewrite Hi2. unfold nonblank in Hb. destruct (Name l) as [|c nm] eqn:En; [done|]. cbn [lookup list_lookup mbind option_bind List.filter].
    assert (Hk : keeps f l = negb (f (c :: nm) && (c <=? 95))) by (unfold keeps; by rewrite En). rewrite Hk.
    destruct (Z.ltb_spec 95 c) as [Hc|Hc].
    + rewrite (proj2 (Z.leb_gt _ _)), andb_false_r by lia. cbn [negb]. do 2 f_equal.
      change (encode (l :: List.filter (keeps f) ls)) with (enc_label l ++ encode (List.filter (keeps f) ls)). do 2 f_equal.
      symmetry. apply List.forallb_filter_id, forallb_forall. intros x Hx%list_elem_of_In. eapply Forall_forall in Hlt; [|exact Hx]. cbv beta in Hlt.
      unfold keeps. destruct (Name x) as [|d nx]; [done|]. apply head_le in Hlt. cbn. rewrite (proj2 (Z.leb_gt _ _)), andb_false_r by lia. done.
    + rewrite (proj2 (Z.leb_le _ _)), andb_true_r by lia. destruct (f (c :: nm)); cbn [negb].
      * rewrite take_app_length, app_assoc, drop_app_length. apply IH; [done|lia].
      * change (encode (l :: List.filter (keeps f) ls)) with (enc_label l ++ encode (List.filter (keeps f) ls)). rewrite !app_assoc. apply IH; [done|lia].
Qed.

Lemma good_filter (f : Label -> bool) ls : good ls -> good (List.filter f ls).
Proof.
  assert (HF : forall P : Label -> Prop, Forall P ls -> Forall P (List.filter f ls)).
  { intros P HP. apply Forall_forall. intros x [Hx _]%list_elem_of_In%filter_In. apply list_elem_of_In in Hx. by eapply Forall_forall in HP. }
  intros (H1 & H2 & H3). split_and!; [by apply HF..|]. clear HF H1 H2. induction ls as [|l ls IH]; cbn; [constructor|].
  apply sorted_labels_inv in H3 as [H3 Hlt]. specialize (IH H3). destruct (f l); [|done]. constructor; [done|].
  apply Forall_forall. intros x [Hx _]%list_elem_of_In%filter_In. apply list_elem_of_In in Hx. by eapply Forall_forall in Hlt.
Qed.

(** Labels with distinct, non-empty names that are not too long. *)
Definition distinct_labels (ls : list Label) : Prop := Forall short_label ls /\ Forall nonblank ls /\ NoDup (names ls).

Lemma New_enc ls : distinct_labels ls -> New ls = Some (of_list (merge_sort by_name ls)) /\ good (merge_sort by_name ls).
Proof.
  intros (H1 & H2 & H3). pose proof (merge_sort_Permutation by_name ls) as Hp.
  assert (Hs : Forall short_label (merge_sort by_name ls)) by by rewrite Hp. split; [by apply marshalLabels_enc|].
  split_and!; [done|by rewrite Hp|by apply sort_labels].
Qed.


