(* ===== verification/Matcher.v ===== *)
(** model/labels/matcher.go: label matchers, and the sets of matchers that
    select series. *)
From S2P Require Import Prelude Labels.

Inductive MatchType := MatchEqual | MatchNotEqual | MatchRegexp | MatchNotRegexp.

(** [m_re] is the compiled regular expression. *)
Record Matcher := mk_Matcher { m_Type : MatchType; m_Name : gostr; m_Value : gostr; m_re : gostr -> bool }.

(** MatchString of the compiled expression, negated or not. *)
Definition Matches (m : Matcher) (s : gostr) : bool :=
  match m_Type m with
  | MatchEqual => str_eqb s (m_Value m)
  | MatchNotEqual => negb (str_eqb s (m_Value m))
  | MatchRegexp => m_re m s
  | MatchNotRegexp => negb (m_re m s)
  end.

Section Construction.
(** The compiler of regular expressions, NewFastRegexMatcher; [None] is its
    error. *)
Context (NewFastRegexMatcher : gostr -> option (gostr -> bool)).

Definition NewMatcher (t : MatchType) (n v : gostr) : option Matcher :=
  match t with
  | MatchRegexp | MatchNotRegexp => re ← NewFastRegexMatcher v; Some (mk_Matcher t n v re)
  | _ => Some (mk_Matcher t n v (fun _ => false))
  end.

Definition Inverse (m : Matcher) : option Matcher :=
  match m_Type m with
  | MatchEqual => NewMatcher MatchNotEqual (m_Name m) (m_Value m)
  | MatchNotEqual => NewMatcher MatchEqual (m_Name m) (m_Value m)
  | MatchRegexp => NewMatcher MatchNotRegexp (m_Name m) (m_Value m)
  | MatchNotRegexp => NewMatcher MatchRegexp (m_Name m) (m_Value m)
  end.

(** The inverse of a matcher exists and matches exactly the other strings. *)
Lemma Inverse_complement t n v m :
  NewMatcher t n v = Some m -> exists m', Inverse m = Some m' /\ m_Name m' = n /\ forall s, Matches m' s = negb (Matches m s).
Proof.
  unfold NewMatcher, Inverse. destruct t; cbn; intros H; try (simplify_eq; cbn; eexists; split_and!; [done|done|]; intros s; cbn; by rewrite ?negb_involutive).
  all: destruct (NewFastRegexMatcher v) as [re|] eqn:E; simplify_eq/=; rewrite E; cbn; eexists; split_and!; [done|done|]; intros s; cbn; by rewrite ?negb_involutive.
Qed.
End Construction.

(** [for _, m := range ms]: all matchers of a set match the label set's value
    of their name.  [None] is the panic of Get on malformed labels. *)
Fixpoint matches_all (lbls : Labels) (ms : list Matcher) : option bool :=
  match ms with
  | [] => Some true
  | m :: ms =>
      v ← Labels_Get lbls (m_Name m);
      if Matches m v then matches_all lbls ms else Some false
  end.

(** The label set as the list of its labels satisfies a set of matchers. *)
Definition satisfies (ls : list Label) (ms : list Matcher) : bool :=
  forallb (fun m => Matches m (get_label ls (m_Name m))) ms.

Lemma matches_all_good ls ms : good ls -> matches_all (of_list ls) ms = Some (satisfies ls ms).
Proof.
  intros Hg. induction ms as [|m ms IH]; [done|]. cbn. rewrite Labels_Get_enc by done. cbn. destruct (Matches m _); [exact IH|done].
Qed.
