(* ===== verification/Utf8.v ===== *)
(** UTF-8 as Go's unicode/utf8 decodes it: the width of the rune at the start
    of a string, where every byte that starts no valid encoding counts as a
    rune of width one, and the number of runes of a string. *)
From S2P Require Import Prelude.

(** Size and range of the second byte, by the first byte; [None] for the bytes
    that start no encoding. *)
Definition utf8_first (c : Z) : option (nat * Z * Z) :=
  if c <? 0x80 then Some (1%nat, 0, 0)
  else if c <? 0xc2 then None
  else if c <? 0xe0 then Some (2%nat, 0x80, 0xbf)
  else if c =? 0xe0 then Some (3%nat, 0xa0, 0xbf)
  else if c =? 0xed then Some (3%nat, 0x80, 0x9f)
  else if c <? 0xf0 then Some (3%nat, 0x80, 0xbf)
  else if c =? 0xf0 then Some (4%nat, 0x90, 0xbf)
  else if c <? 0xf4 then Some (4%nat, 0x80, 0xbf)
  else if c =? 0xf4 then Some (4%nat, 0x80, 0x8f)
  else None.

Definition in_range (lo hi c : Z) : bool := (lo <=? c) && (c <=? hi).

(** Whether the bytes after the first one continue an encoding. *)
Definition utf8_continues (size : nat) (lo hi : Z) (rest : list Z) : bool :=
  match take (size - 1) rest with
  | [] => (size =? 1)%nat
  | c :: cs => (length cs =? size - 2)%nat && in_range lo hi c && forallb (in_range 0x80 0xbf) cs
  end.

(** The width of the first rune, and whether it is valid. *)
Definition rune_width (c : Z) (rest : list Z) : nat * bool :=
  match utf8_first c with
  | Some (size, lo, hi) => if utf8_continues size lo hi rest then (size, true) else (1%nat, false)
  | None => (1%nat, false)
  end.

(** Every rune takes a byte at least: the length is enough fuel. *)
Fixpoint rune_count_loop (fuel : nat) (s : list Z) : nat :=
  match fuel, s with
  | S fuel', c :: rest => S (rune_count_loop fuel' (drop (fst (rune_width c rest) - 1) rest))
  | _, _ => O
  end.
Definition RuneCountInString (s : list Z) : nat := rune_count_loop (length s) s.

Lemma RuneCountInString_le s : (RuneCountInString s <= length s)%nat.
Proof.
  unfold RuneCountInString. generalize (length s) as n. intros n. revert s. induction n as [|n IH]; intros s; [cbn; lia|].
  destruct s as [|c s]; cbn [rune_count_loop]; [lia|]. specialize (IH (drop (fst (rune_width c s) - 1) s)). lia.
Qed.

Lemma RuneCountInString_ascii s : Forall (fun c => 0 <= c < 0x80) s -> RuneCountInString s = length s.
Proof.
  unfold RuneCountInString. induction 1 as [|c s Hc _ IH]; [done|]. cbn [length rune_count_loop].
  assert (E : rune_width c s = (1%nat, true)).
  { unfold rune_width, utf8_first. rewrite (proj2 (Z.ltb_lt c 0x80)) by lia. unfold utf8_continues.
    change (1 - 1)%nat with 0%nat. by rewrite take_0. }
  rewrite E. cbn [fst]. rewrite Nat.sub_diag, drop_0. by rewrite IH.
Qed.

(** "é€𝄞" is three runes; a stray continuation byte, a truncated rune and an
    encoded surrogate count byte by byte. *)
Example RuneCountInString_examples :
  RuneCountInString [0xc3; 0xa9; 0xe2; 0x82; 0xac; 0xf0; 0x9d; 0x84; 0x9e] = 3%nat /\
  RuneCountInString [0x61; 0x80; 0xe2; 0x82; 0xed; 0xa0; 0x80] = 7%nat.
Proof. by vm_compute. Qed.
