(* ===== verification/Alerting.v ===== *)
(** rules/alerting.go: the evaluation of an alerting rule and the life cycle of
    its alerts.

    A time.Time is its number of nanoseconds since the zero time, a
    time.Duration an int64 number of nanoseconds; a float64 is its bit pattern.
    The hash of label sets, the template expansion and the result of the rule's
    query are parameters.  [r.active] is a map from hashes to alerts; Go iterates
    over it in an unspecified order, which only shows in the order of the output
    vector. *)
From S2P Require Import Prelude Float64 Labels LabelBuilder.

(** ** Time *)

Definition zero_time : Z := 0.
Definition saturate (d : Z) : Z := Z.max MinInt64 (Z.min MaxInt64 d).
(** t.Sub(u), which saturates, and t.Add(d). *)
Definition time_sub (t u : Z) : Z := saturate (t - u).
Definition time_add (t d : Z) : Z := t + d.
(** The zero time is January 1, year 1: seconds to the Unix epoch. *)
Definition unix_to_internal : Z := 62135596800.
Definition time_Unix (t : Z) : Z := t / 10 ^ 9 - unix_to_internal.
Definition time_UnixMilli (t : Z) : Z := t / 10 ^ 6 - unix_to_internal * 1000.
Definition from_Unix (sec : Z) : Z := (sec + unix_to_internal) * 10 ^ 9.

Definition resolvedRetention : Z := 15 * 60 * 10 ^ 9.

(** ** Alerts *)

Inductive AlertState := StateUnknown | StateInactive | StatePending | StateFiring.

#[global] Instance AlertState_eq_dec : EqDecision AlertState.
Proof. solve_decision. Defined.

(** The order of the constants. *)
Definition state_rank (s : AlertState) : Z :=
  match s with StateUnknown => 0 | StateInactive => 1 | StatePending => 2 | StateFiring => 3 end.

Definition AlertState_String (s : AlertState) : gostr :=
  match s with
  | StateUnknown => [117; 110; 107; 110; 111; 119; 110]
  | StateInactive => [105; 110; 97; 99; 116; 105; 118; 101]
  | StatePending => [112; 101; 110; 100; 105; 110; 103]
  | StateFiring => [102; 105; 114; 105; 110; 103]
  end.

Record Alert := mk_Alert {
  al_State : AlertState;
  al_Labels : Labels;
  al_Annotations : Labels;
  al_Value : Z;
  ActiveAt : Z;
  FiredAt : Z;
  ResolvedAt : Z;
  LastSentAt : Z;
  ValidUntil : Z;
  KeepFiringSince : Z }.

Definition set_state (a : Alert) (s : AlertState) : Alert :=
  mk_Alert s (al_Labels a) (al_Annotations a) (al_Value a) (ActiveAt a) (FiredAt a) (ResolvedAt a) (LastSentAt a) (ValidUntil a) (KeepFiringSince a).
Definition set_ActiveAt (a : Alert) (t : Z) : Alert :=
  mk_Alert (al_State a) (al_Labels a) (al_Annotations a) (al_Value a) t (FiredAt a) (ResolvedAt a) (LastSentAt a) (ValidUntil a) (KeepFiringSince a).
Definition set_FiredAt (a : Alert) (t : Z) : Alert :=
  mk_Alert (al_State a) (al_Labels a) (al_Annotations a) (al_Value a) (ActiveAt a) t (ResolvedAt a) (LastSentAt a) (ValidUntil a) (KeepFiringSince a).
Definition set_ResolvedAt (a : Alert) (t : Z) : Alert :=
  mk_Alert (al_State a) (al_Labels a) (al_Annotations a) (al_Value a) (ActiveAt a) (FiredAt a) t (LastSentAt a) (ValidUntil a) (KeepFiringSince a).
Definition set_LastSentAt (a : Alert) (t : Z) : Alert :=
  mk_Alert (al_State a) (al_Labels a) (al_Annotations a) (al_Value a) (ActiveAt a) (FiredAt a) (ResolvedAt a) t (ValidUntil a) (KeepFiringSince a).
Definition set_ValidUntil (a : Alert) (t : Z) : Alert :=
  mk_Alert (al_State a) (al_Labels a) (al_Annotations a) (al_Value a) (ActiveAt a) (FiredAt a) (ResolvedAt a) (LastSentAt a) t (KeepFiringSince a).
Definition set_KeepFiringSince (a : Alert) (t : Z) : Alert :=
  mk_Alert (al_State a) (al_Labels a) (al_Annotations a) (al_Value a) (ActiveAt a) (FiredAt a) (ResolvedAt a) (LastSentAt a) (ValidUntil a) t.
Definition set_value_annotations (a : Alert) (v : Z) (ann : Labels) : Alert :=
  mk_Alert (al_State a) (al_Labels a) ann v (ActiveAt a) (FiredAt a) (ResolvedAt a) (LastSentAt a) (ValidUntil a) (KeepFiringSince a).

Definition is_state (s : AlertState) (a : Alert) : bool := bool_decide (al_State a = s).

Definition needsSending (a : Alert) (ts resendDelay : Z) : bool :=
  if is_state StatePending a then false
  else if LastSentAt a <? ResolvedAt a then true
  else time_add (LastSentAt a) resendDelay <? ts.

(** What the evaluation uses of an alerting rule; its expression enters with the
    query result, its external labels and URL with the template expansion. *)
Record AlertingRule := mk_AlertingRule {
  ar_name : gostr;
  holdDuration : Z;
  keepFiringFor : Z;
  ar_labels : Labels;
  ar_annotations : Labels;
  restored : bool;
  active : gmap Z Alert;
  evaluationTimestamp : Z }.

Definition set_active (r : AlertingRule) (m : gmap Z Alert) : AlertingRule :=
  mk_AlertingRule (ar_name r) (holdDuration r) (keepFiringFor r) (ar_labels r) (ar_annotations r) (restored r) m (evaluationTimestamp r).

Definition NewAlertingRule (name : gostr) (hold keep : Z) (labels annotations : Labels) (rest : bool) : AlertingRule :=
  mk_AlertingRule name hold keep labels annotations rest ∅ zero_time.

Definition SetRestored (r : AlertingRule) (b : bool) : AlertingRule :=
  mk_AlertingRule (ar_name r) (holdDuration r) (keepFiringFor r) (ar_labels r) (ar_annotations r) b (active r) (evaluationTimestamp r).

(** promql.Sample of a float. *)
Record Sample := mk_Sample { s_Metric : Labels; s_T : Z; s_F : Z }.

(** "ALERTS", "ALERTS_FOR_STATE" and "alertstate". *)
Definition alertMetricName : gostr := [65; 76; 69; 82; 84; 83].
Definition alertForStateMetricName : gostr := alertMetricName ++ [95; 70; 79; 82; 95; 83; 84; 65; 84; 69].
Definition alertStateLabel : gostr := [97; 108; 101; 114; 116; 115; 116; 97; 116; 101].

(** Setting a list of labels one after the other. *)
Definition set_labels (b : option Builder) (ls : list Label) : option Builder :=
  foldl (fun b l => b ← b; Builder_Set b (Name l) (Value l)) b ls.

Definition finish (b : option Builder) : option Labels := b ← b; '(ls, _) ← Builder_Labels b; Some ls.

(** math.Float64bits(1). *)
Definition f64_one : Z := 0x3ff0000000000000.

Definition AlertingRule_sample (r : AlertingRule) (a : Alert) (ts : Z) : option Sample :=
  ls ← Labels_Range (al_Labels a);
  m ← finish (set_labels (NewBuilder (ar_labels r))
        (ls ++ [mk_Label MetricName alertMetricName; mk_Label AlertName (ar_name r); mk_Label alertStateLabel (AlertState_String (al_State a))]));
  Some (mk_Sample m (time_UnixMilli ts) f64_one).

Definition forStateSample (r : AlertingRule) (a : option Alert) (ts v : Z) : option Sample :=
  ls ← match a with Some a => Labels_Range (al_Labels a) | None => Some [] end;
  m ← finish (set_labels (NewBuilder (ar_labels r)) (ls ++ [mk_Label MetricName alertForStateMetricName; mk_Label AlertName (ar_name r)]));
  Some (mk_Sample m (time_UnixMilli ts) v).

(** ** Evaluation *)

Inductive eval_error := ErrQuery | ErrDuplicateAlertLabelSet | ErrExceededLimit (limit num : Z).

Section Eval.
(** xxhash, and the expansion of a template for a sample at a time. *)
Context (Sum64 : gostr -> Z) (expand : Z -> Sample -> gostr -> gostr).

(** The labels of the alert of a sample. *)
Definition alert_labels (r : AlertingRule) (ts : Z) (smpl : Sample) : option Labels :=
  b ← NewBuilder (s_Metric smpl);
  b ← Builder_Del b [MetricName];
  rl ← Labels_Range (ar_labels r);
  finish (set_labels (Some b) (map (fun l => mk_Label (Name l) (expand ts smpl (Value l))) rl ++ [mk_Label AlertName (ar_name r)])).

Definition alert_annotations (r : AlertingRule) (ts : Z) (smpl : Sample) : option Labels :=
  al ← Labels_Range (ar_annotations r);
  '(ls, _) ← ScratchBuilder_Labels (foldl (fun sb l => ScratchBuilder_Add sb (Name l) (expand ts smpl (Value l))) NewScratchBuilder al);
  Some ls.

Definition new_alert (r : AlertingRule) (ts : Z) (smpl : Sample) : option Alert :=
  ann ← alert_annotations r ts smpl;
  lbs ← alert_labels r ts smpl;
  Some (mk_Alert StatePending lbs ann (s_F smpl) ts zero_time zero_time zero_time zero_time zero_time).

(** The loop over the query result; [None] is a panic. *)
Fixpoint build_alerts (r : AlertingRule) (ts : Z) (res : list Sample) (alerts : gmap Z Alert) : option (eval_error + gmap Z Alert) :=
  match res with
  | [] => Some (inr alerts)
  | smpl :: res =>
      a ← new_alert r ts smpl;
      let h := Labels_Hash Sum64 (al_Labels a) in
      match alerts !! h with
      | Some _ => Some (inl ErrDuplicateAlertLabelSet)
      | None => build_alerts r ts res (<[h := a]> alerts)
      end
  end.

(** Updates existing alerts that are not inactive, and adds the others. *)
Definition merge_alert (a old : option Alert) : option Alert :=
  match a, old with
  | None, _ => old
  | Some a, Some alert =>
      if is_state StateInactive alert then Some a else Some (set_value_annotations alert (al_Value a) (al_Annotations a))
  | Some a, None => Some a
  end.

Definition merge_active (alerts active : gmap Z Alert) : gmap Z Alert := merge merge_alert alerts active.

(** Firing after the hold duration, and back to pending if the hold duration
    has become longer. *)
Definition fire (r : AlertingRule) (ts : Z) (a : Alert) : Alert :=
  let a := if is_state StatePending a && (holdDuration r <=? time_sub ts (ActiveAt a))
           then set_FiredAt (set_state a StateFiring) ts else a in
  if is_state StateFiring a && (time_sub ts (ActiveAt a) <? holdDuration r)
  then set_KeepFiringSince (set_LastSentAt (set_FiredAt (set_state a StatePending) zero_time) zero_time) zero_time
  else a.

(** One round of the loop over the active alerts: what stays in the map, and
    the alert that counts as pending or firing. *)
Definition eval_alert (r : AlertingRule) (ts : Z) (found : bool) (a : Alert) : option Alert * option Alert :=
  if found then
    let a := fire r ts (set_KeepFiringSince a zero_time) in (Some a, Some a)
  else
    let '(a, keepFiring) :=
      if is_state StateFiring a && (0 <? keepFiringFor r) then
        let a := if KeepFiringSince a =? zero_time then set_KeepFiringSince a ts else a in
        (a, time_sub ts (KeepFiringSince a) <? keepFiringFor r)
      else (a, false) in
    let deleted := is_state StatePending a || (negb (ResolvedAt a =? zero_time) && (resolvedRetention <? time_sub ts (ResolvedAt a))) in
    let a := if negb (is_state StateInactive a) && negb keepFiring then set_ResolvedAt (set_state a StateInactive) ts else a in
    if keepFiring then
      let a := fire r ts a in (if deleted then None else Some a, Some a)
    else (if deleted then None else Some a, None).

Definition eval_active (r : AlertingRule) (ts : Z) (alerts m : gmap Z Alert) : gmap Z Alert * list Alert :=
  let found fp := bool_decide (is_Some (alerts !! fp)) in
  (map_imap (fun fp a => fst (eval_alert r ts (found fp) a)) m,
   omap (fun '(fp, a) => snd (eval_alert r ts (found fp) a)) (map_to_list m)).

Definition alert_samples (r : AlertingRule) (ts : Z) (a : Alert) : option (list Sample) :=
  s1 ← AlertingRule_sample r a ts;
  s2 ← forStateSample r (Some a) ts (bits_of_f64 (f64_of_int (time_Unix (ActiveAt a))));
  Some [s1; s2].

(** Eval on the query's result [res] ([None]: the query failed). *)
Definition AlertingRule_Eval (r : AlertingRule) (queryOffset ts : Z) (res : option (list Sample)) (limit : Z)
    : option ((eval_error + list Sample) * AlertingRule) :=
  match res with
  | None => Some (inl ErrQuery, r)
  | Some res =>
      alerts ← build_alerts r ts res ∅;
      match alerts with
      | inl e => Some (inl e, r)
      | inr alerts =>
          let '(act, out) := eval_active r ts alerts (merge_active alerts (active r)) in
          vec ← (if restored r then mapM (alert_samples r (time_add ts (- queryOffset))) out else Some []);
          if (0 <? limit) && (limit <? Z.of_nat (length out))
          then Some (inl (ErrExceededLimit limit (Z.of_nat (length out))), set_active r ∅)
          else Some (inr (concat vec), set_active r act)
      end
  end.

Definition AlertingRule_State (r : AlertingRule) : AlertState :=
  if evaluationTimestamp r =? zero_time then StateUnknown
  else foldl (fun m a => if state_rank m <? state_rank (al_State a) then al_State a else m) StateInactive ((map_to_list (active r)).*2).

Definition ActiveAlerts (r : AlertingRule) : list Alert := List.filter (fun a => ResolvedAt a =? zero_time) ((map_to_list (active r)).*2).

(** sendAlerts: one alert, and the alerts that the notify function gets. *)
Definition send_alert (ts resendDelay interval : Z) (a : Alert) : Alert :=
  if needsSending a ts resendDelay
  then set_ValidUntil (set_LastSentAt a ts) (time_add ts (i64 (4 * Z.max interval resendDelay))) else a.

Definition sendAlerts (r : AlertingRule) (ts resendDelay interval : Z) : list Alert * AlertingRule :=
  (map (send_alert ts resendDelay interval) (List.filter (fun a => needsSending a ts resendDelay) ((map_to_list (active r)).*2)),
   set_active r (send_alert ts resendDelay interval <$> active r)).
End Eval.

(** ** The life cycle of an alert

    The states an alert can really be in: unknown to the rule, pending since a
    time, firing since a time and perhaps missing from the results since
    another, resolved at a time. *)
Inductive cycle := Gone | Pending (since : Z) | Firing (since : Z) (missing : option Z) | Resolved (at_ : Z).

(** One evaluation at [ts], in terms of the hold duration, the time a missing
    alert keeps firing, and whether the alert is in the result. *)
Definition cycle_step (hold keep ts : Z) (found : bool) (c : cycle) : cycle :=
  let active_since t := if hold <=? ts - t then Firing t None else Pending t in
  match c, found with
  | (Gone | Resolved _), true => active_since ts
  | (Pending t | Firing t _), true => active_since t
  | (Gone | Pending _), false => Gone
  | Firing t missing, false =>
      let m := default ts missing in
      if (0 <? keep) && (ts - m <? keep) then (if ts - t <? hold then Pending t else Firing t (Some m)) else Resolved ts
  | Resolved t, false => if resolvedRetention <? ts - t then Gone else Resolved t
  end.

Definition alert_cycle (a : option Alert) : cycle :=
  match a with
  | None => Gone
  | Some a =>
      match al_State a with
      | StatePending => Pending (ActiveAt a)
      | StateFiring => Firing (ActiveAt a) (if KeepFiringSince a =? zero_time then None else Some (KeepFiringSince a))
      | StateInactive => Resolved (ResolvedAt a)
      | StateUnknown => Gone
      end
  end.

(** The representation invariant of active alerts. *)
Definition alert_ok (a : Alert) : Prop :=
  al_State a <> StateUnknown /\ (al_State a = StateInactive <-> ResolvedAt a <> zero_time) /\
  (al_State a = StatePending -> KeepFiringSince a = zero_time).

Definition rule_ok (r : AlertingRule) : Prop := forall fp a, active r !! fp = Some a -> alert_ok a.

(** Durations at which saturation does not show. *)
Definition duration_ok (d : Z) : Prop := MinInt64 < d < MaxInt64.

Lemma time_sub_lt ts t d : duration_ok d -> (time_sub ts t <? d) = (ts - t <? d).
Proof. unfold duration_ok, time_sub, saturate. intros Hd. destruct (Z.ltb_spec (ts - t) d); [apply Z.ltb_lt|apply Z.ltb_ge]; lia. Qed.

Lemma time_sub_le ts t d : duration_ok d -> (d <=? time_sub ts t) = (d <=? ts - t).
Proof. unfold duration_ok, time_sub, saturate. intros Hd. destruct (Z.leb_spec d (ts - t)); [apply Z.leb_le|apply Z.leb_gt]; lia. Qed.

Lemma time_sub_gt ts t d : duration_ok d -> (d <? time_sub ts t) = (d <? ts - t).
Proof. unfold duration_ok, time_sub, saturate. intros Hd. destruct (Z.ltb_spec d (ts - t)); [apply Z.ltb_lt|apply Z.ltb_ge]; lia. Qed.

Lemma retention_ok : duration_ok resolvedRetention.
Proof. by vm_compute. Qed.

(** Case analysis on the tests of a model function, and arithmetic. *)
Ltac alert_cases :=
  repeat match goal with
  | |- context [if ?b then _ else _] => let E := fresh "E" in destruct b eqn:E
  | |- context [?b && _] => let E := fresh "E" in destruct b eqn:E
  | |- context [?b || _] => let E := fresh "E" in destruct b eqn:E
  end.

Lemma fire_cycle r ts a :
  duration_ok (holdDuration r) -> alert_ok a -> al_State a = StatePending \/ al_State a = StateFiring ->
  alert_ok (fire r ts a) /\
  alert_cycle (Some (fire r ts a)) =
    (if holdDuration r <=? ts - ActiveAt a then Firing (ActiveAt a) (if KeepFiringSince a =? zero_time then None else Some (KeepFiringSince a))
     else Pending (ActiveAt a)).
Proof.
  intros Hd (Hu & Hr & Hk) Hs. unfold fire. rewrite time_sub_le by done.
  destruct a as [s ls an v act fa ra lsa vu ks]. cbn in *. unfold is_state. cbn.
  destruct Hs as [-> | ->]; cbn.
  - rewrite (Hk eq_refl). destruct (Z.leb_spec (holdDuration r) (ts - act)); cbn.
    + rewrite time_sub_lt by done. rewrite (proj2 (Z.ltb_ge _ _)) by done. cbn. split; [|done]. split_and!; [done|cbn; naive_solver|done].
    + split; [|done]. split_and!; [done|cbn; naive_solver|done].
  - rewrite time_sub_lt by done. destruct (Z.leb_spec (holdDuration r) (ts - act)).
    + rewrite (proj2 (Z.ltb_ge _ _)) by done. cbn. split; [|done]. split_and!; [done|cbn; naive_solver|done].
    + rewrite (proj2 (Z.ltb_lt _ _)) by done. cbn. split; [|done]. split_and!; [done|cbn; naive_solver|done].
Qed.

(** What the result loop puts into the map. *)
Definition fresh_alert (ts : Z) (a : Alert) : Prop :=
  al_State a = StatePending /\ ActiveAt a = ts /\ ResolvedAt a = zero_time /\ KeepFiringSince a = zero_time.

Definition opt_ok (a : option Alert) : Prop := match a with Some a => alert_ok a | None => True end.

Lemma is_state_of s a : al_State a = s ->
  is_state StateFiring a = match s with StateFiring => true | _ => false end /\
  is_state StatePending a = match s with StatePending => true | _ => false end /\
  is_state StateInactive a = match s with StateInactive => true | _ => false end.
Proof. unfold is_state. intros ->. by destruct s. Qed.

#[local] Arguments fire : simpl never.
#[local] Arguments zero_time : simpl never.
#[local] Arguments resolvedRetention : simpl never.
#[local] Arguments Z.eqb : simpl never.
#[local] Arguments Z.ltb : simpl never.
#[local] Arguments Z.leb : simpl never.

Lemma eval_missing r ts a :
  ts <> zero_time -> duration_ok (holdDuration r) -> duration_ok (keepFiringFor r) -> alert_ok a ->
  let res := fst (eval_alert r ts false a) in
  opt_ok res /\ alert_cycle res = cycle_step (holdDuration r) (keepFiringFor r) ts false (alert_cycle (Some a)).
Proof.
  intros Hts Hh Hk Ha. pose proof Ha as (Hu & Hr & Hks). unfold eval_alert. cbn [alert_cycle]. destruct (al_State a) eqn:Es; [done| | |].
  - assert (Hrz : ResolvedAt a <> zero_time) by tauto. destruct (is_state_of _ a Es) as (Hf & Hp & Hi). rewrite Hf. cbn. rewrite Hp, Hi. cbn.
    rewrite (proj2 (Z.eqb_neq _ _) Hrz), (time_sub_gt ts (ResolvedAt a)) by exact retention_ok. cbn [negb andb].
    destruct (resolvedRetention <? ts - ResolvedAt a); cbn; [done|]. by rewrite Es.
  - destruct (is_state_of _ a Es) as (Hf & Hp & Hi). rewrite Hf. cbn. rewrite Hp. done.
  - assert (Hrz : ResolvedAt a = zero_time) by (apply dec_stable; intros H; by apply Hr in H). destruct (is_state_of _ a Es) as (Hf & Hp & Hi).
    rewrite Hf. cbn [andb cycle_step].
    destruct (Z.ltb_spec 0 (keepFiringFor r)) as [Hpos|Hneg]; cbn [andb].
    + set (a' := if KeepFiringSince a =? zero_time then set_KeepFiringSince a ts else a).
      assert (Hks' : KeepFiringSince a' = default ts (if KeepFiringSince a =? zero_time then None else Some (KeepFiringSince a)) /\ KeepFiringSince a' <> zero_time).
      { unfold a'. destruct (Z.eqb_spec (KeepFiringSince a) zero_time); cbn; by split. }
      assert (Ha' : al_State a' = StateFiring /\ ActiveAt a' = ActiveAt a /\ ResolvedAt a' = zero_time) by (unfold a'; by destruct (_ =? _)).
      destruct Hks' as [Hk1 Hk2], Ha' as (Hs' & Hact & Hr'). rewrite <-Hk1, (time_sub_lt ts (KeepFiringSince a')) by done.
      destruct (is_state_of _ a' Hs') as (_ & -> & ->). rewrite Hr'. cbn. destruct (Z.ltb_spec (ts - KeepFiringSince a') (keepFiringFor r)); cbn.
      * assert (Hok' : alert_ok a') by (split_and!; rewrite ?Hs', ?Hr'; [done|by split|done]).
        destruct (fire_cycle r ts a' Hh Hok' (or_intror Hs')) as [Hf1 Hf2]. split; [done|]. etransitivity; [exact Hf2|]. rewrite Hact.
        rewrite (proj2 (Z.eqb_neq _ _) Hk2). destruct (Z.leb_spec (holdDuration r) (ts - ActiveAt a)), (Z.ltb_spec (ts - ActiveAt a) (holdDuration r)); (done || lia).
      * split; [|done]. split_and!; [done|cbn; by split|done].
    + rewrite Hp, Hi, Hrz. cbn. split; [|done]. split_and!; [done|cbn; by split|done].
Qed.

Lemma eval_found r ts a :
  duration_ok (holdDuration r) -> alert_ok a -> al_State a <> StateInactive ->
  let res := fst (eval_alert r ts true a) in
  opt_ok res /\ alert_cycle res = (if holdDuration r <=? ts - ActiveAt a then Firing (ActiveAt a) None else Pending (ActiveAt a)).
Proof.
  intros Hh (Hu & Hr & Hks) Hn. cbn [eval_alert fst]. destruct (fire_cycle r ts (set_KeepFiringSince a zero_time) Hh) as [H1 H2].
  - by split_and!.
  - cbn. destruct (al_State a); [done|done|by left|by right].
  - split; [exact H1|]. rewrite H2. done.
Qed.

Lemma step_cycle_entry r ts (new old : option Alert) :
  ts <> zero_time -> duration_ok (holdDuration r) -> duration_ok (keepFiringFor r) -> opt_ok old ->
  match new with Some a => fresh_alert ts a | None => True end ->
  let found := bool_decide (is_Some new) in
  let res := merge_alert new old ≫= fun a => fst (eval_alert r ts found a) in
  opt_ok res /\ alert_cycle res = cycle_step (holdDuration r) (keepFiringFor r) ts found (alert_cycle old).
Proof.
  intros Hts Hh Hk Hold Hnew. destruct new as [n|]; cbn [merge_alert].
  - destruct Hnew as (Hs & Hact & Hr & Hks). assert (Hn : alert_ok n) by (split_and!; rewrite ?Hs, ?Hr; [done|by split|done]).
    assert (Hfresh : let res := fst (eval_alert r ts true n) in opt_ok res /\ alert_cycle res = (if holdDuration r <=? ts - ts then Firing ts None else Pending ts)).
    { destruct (eval_found r ts n Hh Hn) as [H1 H2]; [by rewrite Hs|]. rewrite Hact in H2. by split. }
    rewrite bool_decide_true by done. destruct old as [o|]; [|exact Hfresh]. cbn [opt_ok] in Hold. pose proof Hold as (Hu & Hro & Hko).
    destruct (al_State o) eqn:Eo; [done| | |]; destruct (is_state_of _ o Eo) as (_ & _ & ->); cbn [mbind option_bind alert_cycle cycle_step]; rewrite Eo.
    + exact Hfresh.
    + apply (eval_found r ts (set_value_annotations o (al_Value n) (al_Annotations n)) Hh); cbn; [exact Hold|by rewrite Eo].
    + apply (eval_found r ts (set_value_annotations o (al_Value n) (al_Annotations n)) Hh); cbn; [exact Hold|by rewrite Eo].
  - rewrite bool_decide_false by (by intros []). destruct old as [o|]; [|done]. by apply eval_missing.
Qed.

(** ** The labels of alerts *)

Definition label_fits (l : Label) : Prop := Name l <> [] /\ short (Name l) /\ short (Value l).

(** Setting labels, on maps. *)
Definition map_set (m : gmap gostr gostr) (l : Label) : gmap gostr gostr :=
  if str_eqb (Value l) [] then delete (Name l) m else <[Name l := Value l]> m.

Lemma set_labels_represents bl ls : Forall label_fits ls -> forall b m a, represents bl b m a ->
  exists b' a', set_labels (Some b) ls = Some b' /\ represents bl b' (foldl map_set m ls) a'.
Proof.
  unfold set_labels. induction 1 as [|l ls (Hn & Hs & Hv) _ IH]; intros b m a Hr; cbn [foldl]; [by exists b, a|].
  cbn [mbind option_bind]. destruct (Set_represents bl b m a (Name l) (Value l) Hr Hn Hs Hv) as (b' & -> & Hr').
  exact (IH b' _ _ Hr').
Qed.

Lemma finish_represents bl b m a : represents bl b m a -> exists ls, finish (Some b) = Some (of_list ls) /\ lists_map ls m /\ good ls.
Proof.
  intros Hr. destruct (Labels_represents _ _ _ _ Hr) as (ls & b' & Hl & Hm & Hg). exists ls. unfold finish. cbn [mbind option_bind]. rewrite Hl. by split_and!.
Qed.

Lemma good_fits ls : good ls -> Forall label_fits ls.
Proof.
  intros (Hs & Hn & _). apply Forall_forall. intros l Hl. eapply Forall_forall in Hs; [|exact Hl]. eapply Forall_forall in Hn; [|exact Hl].
  by destruct Hs.
Qed.

Lemma AlertState_fits s : label_fits (mk_Label alertStateLabel (AlertState_String s)).
Proof. by destruct s. Qed.

(** Labels of a rule with which no label set overflows. *)
Record labels_ok (expand : Z -> Sample -> gostr -> gostr) (r : AlertingRule) : Prop := {
  lo_labels : exists rl, ar_labels r = of_list rl /\ good rl;
  lo_annotations : exists al, ar_annotations r = of_list al /\ Forall short_label al;
  lo_name : short (ar_name r);
  lo_expand : forall ts smpl text, short (expand ts smpl text);
  lo_active : forall fp a, active r !! fp = Some a -> exists ls, al_Labels a = of_list ls /\ good ls }.

Section Labels.
Context (Sum64 : gostr -> Z) (expand : Z -> Sample -> gostr -> gostr).

Lemma alert_labels_spec r ts smpl rl ml :
  labels_ok expand r -> ar_labels r = of_list rl -> good rl -> s_Metric smpl = of_list ml -> good ml ->
  exists ls, alert_labels expand r ts smpl = Some (of_list ls) /\ good ls /\
    lists_map ls (foldl map_set (delete MetricName (label_map ml))
      (map (fun l => mk_Label (Name l) (expand ts smpl (Value l))) rl ++ [mk_Label AlertName (ar_name r)])).
Proof.
  intros Hlo Hrl Hgr Hml Hgm. unfold alert_labels. rewrite Hml, Hrl. destruct (Reset_represents ml Hgm) as (b & -> & Hr). cbn [mbind option_bind].
  destruct (Del_represents ml [MetricName] b _ _ Hr) as (b1 & -> & Hr1). cbn [mbind option_bind]. rewrite Range_enc by apply Hgr. cbn [mbind option_bind].
  assert (Hfit : Forall label_fits (map (fun l => mk_Label (Name l) (expand ts smpl (Value l))) rl ++ [mk_Label AlertName (ar_name r)])).
  { apply Forall_app. split; [|repeat constructor; (done || apply (lo_name _ _ Hlo))]. apply Forall_fmap. apply Forall_forall. intros l Hl.
    pose proof (good_fits rl Hgr) as Hf. eapply Forall_forall in Hf; [|exact Hl]. destruct Hf as (H1 & H2 & _). split_and!; [done|done|apply (lo_expand _ _ Hlo)]. }
  destruct (set_labels_represents ml _ Hfit b1 _ _ Hr1) as (b2 & a2 & -> & Hr2). destruct (finish_represents _ _ _ _ Hr2) as (ls & H1 & H2 & H3).
  exists ls. by split_and!.
Qed.

Lemma scratch_fold (f : gostr -> gostr) al : forall sb,
  foldl (fun sb l => ScratchBuilder_Add sb (Name l) (f (Value l))) sb al =
  mk_ScratchBuilder (sb_add sb ++ map (fun l => mk_Label (Name l) (f (Value l))) al) (output sb).
Proof.
  induction al as [|l al IH]; intros [ad o]; cbn [foldl map]; [by rewrite app_nil_r|]. rewrite IH. cbn. by rewrite <-app_assoc.
Qed.

Lemma alert_annotations_total r ts smpl : labels_ok expand r -> exists ls, alert_annotations expand r ts smpl = Some ls.
Proof.
  intros Hlo. destruct (lo_annotations _ _ Hlo) as (al & Ha & Hs). unfold alert_annotations. rewrite Ha, Range_enc by done. cbn [mbind option_bind].
  rewrite (scratch_fold (expand ts smpl)). unfold ScratchBuilder_Labels. cbn [output sb_add NewScratchBuilder data app].
  rewrite marshalLabels_enc; [by eexists|]. apply Forall_fmap. eapply Forall_impl; [exact Hs|]. intros l [H1 _]. split; [done|apply (lo_expand _ _ Hlo)].
Qed.

Lemma new_alert_spec r ts smpl ml :
  labels_ok expand r -> s_Metric smpl = of_list ml -> good ml ->
  exists a, new_alert expand r ts smpl = Some a /\ fresh_alert ts a /\ exists ls, al_Labels a = of_list ls /\ good ls.
Proof.
  intros Hlo Hml Hgm. destruct (lo_labels _ _ Hlo) as (rl & Hrl & Hgr). unfold new_alert.
  destruct (alert_annotations_total r ts smpl Hlo) as (ann & ->). destruct (alert_labels_spec r ts smpl rl ml Hlo Hrl Hgr Hml Hgm) as (ls & -> & Hg & _).
  cbn [mbind option_bind]. eexists. split; [done|]. split; [done|]. by exists ls.
Qed.

(** Alerts of the result: fresh, under the hash of their labels. *)
Definition fresh_map (ts : Z) (m : gmap Z Alert) : Prop :=
  forall fp a, m !! fp = Some a -> fresh_alert ts a /\ exists ls, al_Labels a = of_list ls /\ good ls.

Definition good_metric (smpl : Sample) : Prop := exists ml, s_Metric smpl = of_list ml /\ good ml.

Lemma build_alerts_total r ts res : labels_ok expand r -> Forall good_metric res -> forall m, fresh_map ts m ->
  build_alerts Sum64 expand r ts res m = Some (inl ErrDuplicateAlertLabelSet) \/
  exists alerts, build_alerts Sum64 expand r ts res m = Some (inr alerts) /\ fresh_map ts alerts.
Proof.
  intros Hlo. induction 1 as [|smpl res (ml & Hml & Hgm) _ IH]; intros m Hm; cbn [build_alerts]; [right; by exists m|].
  destruct (new_alert_spec r ts smpl ml Hlo Hml Hgm) as (a & -> & Hf & Hl). cbn [mbind option_bind]. destruct (m !! _); [by left|].
  apply IH. intros fp x [[<- <-]|[_ Hx]]%lookup_insert_Some; [by split|by eapply Hm].
Qed.

Lemma sample_total r a ts rl ls :
  labels_ok expand r -> ar_labels r = of_list rl -> good rl -> al_Labels a = of_list ls -> good ls ->
  exists s, alert_samples r ts a = Some s.
Proof.
  intros Hlo Hrl Hgr Hal Hga. unfold alert_samples, AlertingRule_sample, forStateSample. rewrite Hal, Hrl, Range_enc by apply Hga. cbn [mbind option_bind].
  destruct (Reset_represents rl Hgr) as (b & -> & Hr).
  assert (Hfin : forall extra, Forall label_fits extra -> exists m, finish (set_labels (Some b) (ls ++ extra)) = Some m).
  { intros extra He. assert (Hfit : Forall label_fits (ls ++ extra)) by (apply Forall_app; split; [by apply good_fits|done]).
    destruct (set_labels_represents rl _ Hfit b _ _ Hr) as (b2 & a2 & -> & Hr2). destruct (finish_represents _ _ _ _ Hr2) as (m & H & _). by eexists. }
  destruct (Hfin [mk_Label MetricName alertMetricName; mk_Label AlertName (ar_name r); mk_Label alertStateLabel (AlertState_String (al_State a))]) as [m1 ->].
  { repeat constructor; try done; [apply (lo_name _ _ Hlo)|apply AlertState_fits..]. }
  destruct (Hfin [mk_Label MetricName alertForStateMetricName; mk_Label AlertName (ar_name r)]) as [m2 ->].
  { repeat constructor; try done. apply (lo_name _ _ Hlo). }
  cbn [mbind option_bind]. by eexists.
Qed.
End Labels.

Lemma fire_labels r ts a : al_Labels (fire r ts a) = al_Labels a.
Proof. unfold fire. by repeat case_match. Qed.

Lemma eval_alert_labels r ts found a x :
  fst (eval_alert r ts found a) = Some x \/ snd (eval_alert r ts found a) = Some x -> al_Labels x = al_Labels a.
Proof.
  unfold eval_alert. intros H. repeat case_match; cbn in H; destruct H as [H|H]; simplify_eq; rewrite ?fire_labels; try done;
    repeat case_match; simplify_eq; done.
Qed.

Definition has_good_labels (a : Alert) : Prop := exists ls, al_Labels a = of_list ls /\ good ls.

Lemma merge_alert_labels a old x : merge_alert a old = Some x ->
  (forall y, a = Some y -> has_good_labels y) -> (forall y, old = Some y -> has_good_labels y) -> has_good_labels x.
Proof.
  unfold merge_alert, has_good_labels. intros H Ha Ho. repeat case_match; simplify_eq; eauto. cbn. eauto.
Qed.

Lemma merge_active_lookup alerts m fp : merge_active alerts m !! fp = merge_alert (alerts !! fp) (m !! fp).
Proof. unfold merge_active. rewrite lookup_merge. by destruct (alerts !! fp), (m !! fp). Qed.

Lemma mapM_total {A B} (f : A -> option B) l : (forall x, x ∈ l -> is_Some (f x)) -> is_Some (mapM f l).
Proof.
  intros H. apply mapM_is_Some. apply Forall_forall. exact H.
Qed.

(** What an evaluation did to the rule. *)
Definition eval_effect (ts : Z) (alerts : gmap Z Alert) (r r' : AlertingRule) : Prop :=
  forall fp, alert_cycle (active r' !! fp) =
    cycle_step (holdDuration r) (keepFiringFor r) ts (bool_decide (is_Some (alerts !! fp))) (alert_cycle (active r !! fp)).

Lemma Eval_step (Sum64 : gostr -> Z) (expand : Z -> Sample -> gostr -> gostr) (r : AlertingRule) (queryOffset ts : Z)
    (res : option (list Sample)) (limit : Z) :
  labels_ok expand r -> rule_ok r -> ts <> zero_time -> duration_ok (holdDuration r) -> duration_ok (keepFiringFor r) ->
  (forall l, res = Some l -> Forall good_metric l) ->
  exists out r', AlertingRule_Eval Sum64 expand r queryOffset ts res limit = Some (out, r') /\ labels_ok expand r' /\ rule_ok r' /\
    match out with
    | inl ErrQuery => res = None /\ r' = r
    | inl ErrDuplicateAlertLabelSet => r' = r
    | inl (ErrExceededLimit l n) => l = limit /\ 0 < limit < n /\ active r' = ∅
    | inr _ => exists l alerts, res = Some l /\ build_alerts Sum64 expand r ts l ∅ = Some (inr alerts) /\ eval_effect ts alerts r r'
    end.
Proof.
  intros Hlo Hok Hts Hh Hk Hres. unfold AlertingRule_Eval. destruct res as [l|]; [|by exists (inl ErrQuery), r].
  specialize (Hres l eq_refl). assert (H0 : fresh_map ts ∅) by (intros fp a H; by rewrite lookup_empty in H).
  destruct (build_alerts_total Sum64 expand r ts l Hlo Hres ∅ H0) as [Hdup|(alerts & Hb & Hf)].
  { rewrite Hdup. by exists (inl ErrDuplicateAlertLabelSet), r. }
  rewrite Hb. cbn [mbind option_bind]. unfold eval_active.
  set (found := fun fp => bool_decide (is_Some (alerts !! fp))). set (m := merge_active alerts (active r)).
  assert (Hml : forall fp a, m !! fp = Some a -> has_good_labels a).
  { intros fp a Ha. unfold m in Ha. rewrite merge_active_lookup in Ha. eapply merge_alert_labels; [exact Ha| |].
    - intros y Hy. by apply Hf in Hy as [_ ?].
    - intros y Hy. by apply (lo_active _ _ Hlo) in Hy. }
  set (out := omap _ (map_to_list m)). set (act := map_imap _ m).
  assert (Hact : forall fp, active (set_active r act) !! fp = merge_alert (alerts !! fp) (active r !! fp) ≫= fun a => fst (eval_alert r ts (found fp) a)).
  { intros fp. cbn. unfold act. rewrite map_lookup_imap. unfold m. by rewrite merge_active_lookup. }
  assert (Hstep : forall fp, let res := active (set_active r act) !! fp in opt_ok res /\
    alert_cycle res = cycle_step (holdDuration r) (keepFiringFor r) ts (found fp) (alert_cycle (active r !! fp))).
  { intros fp. cbv zeta. rewrite Hact. apply step_cycle_entry; try done.
    - destruct (active r !! fp) as [o|] eqn:E; [by eapply Hok|done].
    - destruct (alerts !! fp) as [n|] eqn:E; [by apply Hf in E as [? _]|done]. }
  assert (Hvec : exists vec, (if restored r then mapM (alert_samples r (time_add ts (- queryOffset))) out else Some []) = Some vec).
  { destruct (restored r); [|by eexists]. apply mapM_total. intros a Ha. unfold out in Ha. apply list_elem_of_omap in Ha as ([fp x] & Hx & Hs).
    apply elem_of_map_to_list in Hx. destruct (Hml fp x Hx) as (ls & Hls & Hg). destruct (lo_labels _ _ Hlo) as (rl & Hrl & Hgr).
    eapply (sample_total expand r a _ rl ls Hlo Hrl Hgr); [|done]. rewrite <-Hls. eapply eval_alert_labels. by right. }
  destruct Hvec as [vec ->]. cbn [mbind option_bind]. destruct ((0 <? limit) && (limit <? Z.of_nat (length out))) eqn:El.
  - eexists _, _. split; [done|]. apply andb_prop in El as [El1 El2]. split_and!; [|intros fp a; cbn; by rewrite lookup_empty|done|lia|lia|done].
    destruct Hlo. by split.
  - eexists _, _. split; [done|]. split_and!; [| |by exists l, alerts; split_and!; [done|done|intros fp; apply Hstep]].
    + pose proof Hlo as []. split; try done. intros fp a Ha. rewrite Hact in Ha. apply bind_Some in Ha as (x & Hx & Hs).
      assert (Hg : has_good_labels x) by (eapply (Hml fp); unfold m; by rewrite merge_active_lookup).
      unfold has_good_labels in Hg. erewrite eval_alert_labels; [exact Hg|by left].
    + intros fp a Ha. destruct (Hstep fp) as [H _]. cbv zeta in H. by rewrite Ha in H.
Qed.

(** C6: evaluating an alerting rule is total and moves every alert through its
    life cycle.  For well-formed labels no step panics; a failed query or two
    results with the same labels leave the rule as it was, exceeding the limit
    drops all alerts, and otherwise every alert makes exactly the step of the
    life-cycle automaton (pending, firing, kept firing, resolved, forgotten)
    that its presence in the result and the durations call for.  The invariant
    on the stored timestamps is kept in every case. *)
Theorem Eval_life_cycle (Sum64 : gostr -> Z) (expand : Z -> Sample -> gostr -> gostr) (r : AlertingRule) (queryOffset ts : Z)
    (res : option (list Sample)) (limit : Z) :
  labels_ok expand r -> rule_ok r -> ts <> zero_time -> duration_ok (holdDuration r) -> duration_ok (keepFiringFor r) ->
  (forall l, res = Some l -> Forall good_metric l) ->
  exists out r', AlertingRule_Eval Sum64 expand r queryOffset ts res limit = Some (out, r') /\ labels_ok expand r' /\ rule_ok r' /\
    match out with
    | inl ErrQuery => res = None /\ r' = r
    | inl ErrDuplicateAlertLabelSet => r' = r
    | inl (ErrExceededLimit l n) => l = limit /\ 0 < limit < n /\ active r' = ∅
    | inr _ => exists l alerts, res = Some l /\ build_alerts Sum64 expand r ts l ∅ = Some (inr alerts) /\ eval_effect ts alerts r r'
    end.
Proof. intros. by apply Eval_step. Qed.

(** ** Sequences of evaluations *)

Section Traces.
Context (Sum64 : gostr -> Z) (expand : Z -> Sample -> gostr -> gostr).

(** Successful evaluations of a rule, each with its time and its alerts. *)
Inductive eval_trace : AlertingRule -> list (Z * gmap Z Alert) -> AlertingRule -> Prop :=
  | trace_nil r : eval_trace r [] r
  | trace_cons r off ts l limit alerts vec r1 evs r2 :
      ts <> zero_time -> Forall good_metric l ->
      build_alerts Sum64 expand r ts l ∅ = Some (inr alerts) ->
      AlertingRule_Eval Sum64 expand r off ts (Some l) limit = Some (inr vec, r1) ->
      eval_trace r1 evs r2 -> eval_trace r ((ts, alerts) :: evs) r2.

Lemma Eval_durations r off ts l limit out r1 :
  AlertingRule_Eval Sum64 expand r off ts (Some l) limit = Some (out, r1) -> holdDuration r1 = holdDuration r /\ keepFiringFor r1 = keepFiringFor r.
Proof.
  unfold AlertingRule_Eval. intros (x & _ & H)%bind_Some. destruct x as [e|alerts]; [by simplify_eq|].
  destruct (eval_active r ts alerts (merge_active alerts (active r))) as [act o]. apply bind_Some in H as (vec & _ & H). case_match; by simplify_eq.
Qed.

Definition run_cycle (hold keep : Z) (c : cycle) (evs : list (Z * bool)) : cycle :=
  foldl (fun c '(ts, found) => cycle_step hold keep ts found c) c evs.

Definition seen (fp : Z) (evs : list (Z * gmap Z Alert)) : list (Z * bool) :=
  map (fun '(ts, alerts) => (ts, bool_decide (is_Some (alerts !! fp)))) evs.

Lemma trace_cycle r evs r' : eval_trace r evs r' ->
  labels_ok expand r -> rule_ok r -> duration_ok (holdDuration r) -> duration_ok (keepFiringFor r) ->
  labels_ok expand r' /\ rule_ok r' /\
  forall fp, alert_cycle (active r' !! fp) = run_cycle (holdDuration r) (keepFiringFor r) (alert_cycle (active r !! fp)) (seen fp evs).
Proof.
  induction 1 as [r|r off ts l limit alerts vec r1 evs r2 Hts Hl Hb He _ IH]; intros Hlo Hok Hh Hk; [done|].
  destruct (Eval_durations _ _ _ _ _ _ _ He) as [E1 E2].
  destruct (Eval_step Sum64 expand r off ts (Some l) limit Hlo Hok Hts Hh Hk) as (out & r1' & He' & Hlo1 & Hok1 & Hout); [by intros ? [= <-]|].
  rewrite He in He'. injection He' as <- <-. destruct Hout as (l' & alerts' & [= <-] & Hb' & Heff). rewrite Hb in Hb'. injection Hb' as <-.
  destruct IH as (Hlo2 & Hok2 & IH); [done|done|by rewrite E1|by rewrite E2|]. split_and!; [done|done|]. intros fp. rewrite IH, E1, E2, Heff. done.
Qed.

(** In the result every time: firing once the hold duration has passed since the
    first time. *)
Lemma run_found hold keep t0 evs : Forall (fun e => snd e = true) evs -> forall c,
  c = Pending t0 \/ (exists m, c = Firing t0 m) -> evs <> [] ->
  forall tl, last evs = Some tl -> run_cycle hold keep c evs = if hold <=? fst tl - t0 then Firing t0 None else Pending t0.
Proof.
  induction 1 as [|[ts f] evs Hf _ IH]; intros c Hc Hne tl Hl; [done|]. cbn in Hf. subst f. cbn [run_cycle foldl].
  assert (Hs : cycle_step hold keep ts true c = if hold <=? ts - t0 then Firing t0 None else Pending t0) by (by destruct Hc as [->|[m ->]]).
  rewrite Hs. destruct evs as [|e evs]; [cbn in Hl; by simplify_eq|]. apply IH; [destruct (hold <=? ts - t0); eauto|done|done].
Qed.

(** C25: an alert that is in the result of every evaluation since it was new fires
    exactly when the hold duration has passed since the first of them, and it is
    pending before; its start is the time of the first evaluation. *)
Theorem alert_fires_when_held (r r' : AlertingRule) (t0 : Z) (alerts0 : gmap Z Alert) (evs : list (Z * gmap Z Alert)) (fp tn : Z) :
  labels_ok expand r -> rule_ok r -> duration_ok (holdDuration r) -> duration_ok (keepFiringFor r) ->
  eval_trace r ((t0, alerts0) :: evs) r' -> Forall (fun e => is_Some (snd e !! fp)) ((t0, alerts0) :: evs) ->
  fst <$> last ((t0, alerts0) :: evs) = Some tn -> (forall a, active r !! fp = Some a -> al_State a = StateInactive) ->
  exists a, active r' !! fp = Some a /\ ActiveAt a = t0 /\ al_State a = (if holdDuration r <=? tn - t0 then StateFiring else StatePending).
Proof.
  intros Hlo Hok Hh Hk Htr Hall Hlast Hnew. pose proof (proj2 (proj2 (trace_cycle _ _ _ Htr Hlo Hok Hh Hk)) fp) as Hc.
  assert (Hinit : alert_cycle (active r !! fp) = Gone \/ exists t, alert_cycle (active r !! fp) = Resolved t).
  { destruct (active r !! fp) as [a|] eqn:E; [|by left]. right. cbn. rewrite (Hnew a eq_refl). by eexists. }
  assert (Hc' : alert_cycle (active r' !! fp) = if holdDuration r <=? tn - t0 then Firing t0 None else Pending t0).
  { rewrite Hc. cbn [seen map run_cycle foldl]. apply Forall_cons in Hall as [H0 Hall]. cbn in H0. rewrite bool_decide_true by done.
    assert (Hs : cycle_step (holdDuration r) (keepFiringFor r) t0 true (alert_cycle (active r !! fp)) = if holdDuration r <=? t0 - t0 then Firing t0 None else Pending t0).
    { by destruct Hinit as [->|[t ->]]. }
    rewrite Hs. destruct evs as [|e evs]; [cbn in Hlast; by simplify_eq|]. change (last ((t0, alerts0) :: e :: evs)) with (last (e :: evs)) in Hlast.
    destruct (last (e :: evs)) as [tl|] eqn:El; [|done]. cbn in Hlast. injection Hlast as <-.
    change (seen fp (e :: evs)) with (seen fp (e :: evs)).
    eapply (run_found _ _ t0 (seen fp (e :: evs))) with (tl := (fst tl, bool_decide (is_Some (snd tl !! fp)))).
    - unfold seen. apply Forall_fmap. eapply Forall_impl; [exact Hall|]. intros [x y] Hxy. cbn in *. by rewrite bool_decide_true.
    - destruct (holdDuration r <=? t0 - t0); eauto.
    - done.
    - unfold seen. change (map ?f ?l) with (f <$> l). rewrite fmap_last, El. by destruct tl. }
  destruct (active r' !! fp) as [a|]; cbn in Hc'; [|by destruct (_ <=? _)]. exists a. split; [done|].
  destruct (al_State a), (holdDuration r <=? tn - t0); by simplify_eq.
Qed.

Definition missing_evs (times : list Z) : list (Z * bool) := map (fun t => (t, false)) times.

Lemma run_gone hold keep times : run_cycle hold keep Gone (missing_evs times) = Gone.
Proof. induction times as [|t times IH]; [done|]. exact IH. Qed.

Lemma run_resolved hold keep tr times :
  run_cycle hold keep (Resolved tr) (missing_evs times) = if existsb (fun t => resolvedRetention <? t - tr) times then Gone else Resolved tr.
Proof.
  induction times as [|t times IH]; [done|]. cbn [missing_evs map run_cycle foldl existsb cycle_step].
  destruct (resolvedRetention <? t - tr); cbn [orb]; [apply run_gone|exact IH].
Qed.

Lemma run_kept hold keep s t1 kept : 0 < keep -> Forall (fun t => hold <= t - s /\ t - t1 < keep) kept ->
  run_cycle hold keep (Firing s (Some t1)) (missing_evs kept) = Firing s (Some t1).
Proof.
  intros Hk. induction 1 as [|t kept [H1 H2] _ IH]; [done|]. cbn [missing_evs map run_cycle foldl cycle_step from_option id].
  rewrite (proj2 (Z.ltb_lt _ _) Hk), (proj2 (Z.ltb_lt _ _) H2), (proj2 (Z.ltb_ge _ _) H1). exact IH.
Qed.

(** The first evaluation without the alert decides since when it is missing. *)
Lemma run_missing hold keep s t1 kept :
  Forall (fun t => hold <= t - s /\ t - t1 < keep) (t1 :: kept) ->
  run_cycle hold keep (Firing s None) (missing_evs (t1 :: kept)) = Firing s (Some t1).
Proof.
  intros [[H1 H2] Hk]%Forall_cons. cbn [missing_evs map run_cycle foldl cycle_step from_option id].
  rewrite (proj2 (Z.ltb_lt 0 keep)), (proj2 (Z.ltb_lt _ _) H2), (proj2 (Z.ltb_ge _ _) H1) by lia. cbn. apply run_kept; [lia|done].
Qed.

Lemma run_resolve hold keep s kept tr rest :
  let t1 := default tr (head kept) in
  Forall (fun t => hold <= t - s /\ t - t1 < keep) kept -> keep <= tr - t1 ->
  run_cycle hold keep (Firing s None) (missing_evs (kept ++ tr :: rest)) = if existsb (fun t => resolvedRetention <? t - tr) rest then Gone else Resolved tr.
Proof.
  intros t1 Hk Htr. unfold missing_evs. rewrite map_app. unfold run_cycle. rewrite foldl_app. cbn [map foldl].
  assert (Hr : cycle_step hold keep tr false (run_cycle hold keep (Firing s None) (missing_evs kept)) = Resolved tr).
  { destruct kept as [|k kept]; cbn [head from_option id] in t1.
    - cbn [missing_evs map run_cycle foldl cycle_step from_option id]. by rewrite (proj2 (Z.ltb_ge (tr - tr) keep)), andb_false_r by (unfold t1 in Htr; lia).
    - unfold t1 in *. rewrite run_missing by done. cbn [cycle_step from_option id]. by rewrite (proj2 (Z.ltb_ge (tr - k) keep)), andb_false_r by lia. }
  etransitivity; [|exact (run_resolved hold keep tr rest)]. unfold run_cycle at 1. f_equal. exact Hr.
Qed.

Lemma seen_missing fp evs : Forall (fun e : Z * gmap Z Alert => snd e !! fp = None) evs -> seen fp evs = missing_evs (map fst evs).
Proof.
  induction 1 as [|[t al] evs H _ IH]; [done|]. cbn in H. cbn [seen map missing_evs]. rewrite H, bool_decide_false by (by intros []).
  cbn [fst]. f_equal. exact IH.
Qed.

(** A firing alert that disappears from the results keeps firing as long as
    less than the keep-firing time has passed since the first evaluation without
    it, is resolved by the first evaluation after that, stays known as resolved
    for fifteen minutes, and is forgotten by the first evaluation after them. *)
Theorem alert_resolves_when_missing (r r' : AlertingRule) (kept rest : list Z) (tr : Z) (evs : list (Z * gmap Z Alert)) (fp : Z) (a : Alert) :
  labels_ok expand r -> rule_ok r -> duration_ok (holdDuration r) -> duration_ok (keepFiringFor r) ->
  eval_trace r evs r' -> Forall (fun e => snd e !! fp = None) evs ->
  active r !! fp = Some a -> al_State a = StateFiring -> KeepFiringSince a = zero_time ->
  let t1 := default tr (head kept) in
  Forall (fun t => holdDuration r <= t - ActiveAt a /\ t - t1 < keepFiringFor r) kept -> keepFiringFor r <= tr - t1 ->
  (map fst evs = kept -> kept <> [] -> exists b, active r' !! fp = Some b /\ al_State b = StateFiring) /\
  (map fst evs = kept ++ tr :: rest -> Forall (fun t => t - tr <= resolvedRetention) rest ->
     exists b, active r' !! fp = Some b /\ al_State b = StateInactive /\ ResolvedAt b = tr) /\
  (map fst evs = kept ++ tr :: rest -> Exists (fun t => resolvedRetention < t - tr) rest -> alert_cycle (active r' !! fp) = Gone).
Proof.
  intros Hlo Hok Hh Hk Htr Hmiss Ha Hs Hks t1 Hkept Hkeep. pose proof (proj2 (proj2 (trace_cycle _ _ _ Htr Hlo Hok Hh Hk)) fp) as Hc.
  rewrite seen_missing, Ha in Hc by done. cbn [alert_cycle] in Hc. rewrite Hs, Hks, Z.eqb_refl in Hc.
  split_and!.
  - intros E Hne. rewrite E in Hc. destruct kept as [|k kept]; [done|]. unfold t1 in Hkept. cbn [head from_option id] in Hkept. rewrite run_missing in Hc by done.
    destruct (active r' !! fp) as [b|]; [|done]. exists b. split; [done|]. cbn in Hc. destruct (al_State b); by simplify_eq.
  - intros E Hrest. rewrite E, run_resolve in Hc by done. replace (existsb _ rest) with false in Hc.
    + destruct (active r' !! fp) as [b|]; [|done]. exists b. cbn in Hc. destruct (al_State b); by simplify_eq.
    + symmetry. clear -Hrest. induction Hrest as [|t rest H _ IH]; [done|]. cbn [existsb]. by rewrite (proj2 (Z.ltb_ge _ _) H), IH.
  - intros E Hrest. rewrite E, run_resolve in Hc by done. rewrite Hc. replace (existsb _ rest) with true; [done|]. symmetry. clear -Hrest.
    induction Hrest as [t rest H|t rest _ IH]; cbn [existsb]; [by rewrite (proj2 (Z.ltb_lt _ _) H)|by rewrite IH, orb_true_r].
Qed.
End Traces.

(** ** Notifications *)

(** Since the last time it was sent, an alert is announced as valid for four
    times the longer of evaluation interval and resend delay. *)
Definition sent_ok (resendDelay interval : Z) (a : Alert) : Prop :=
  LastSentAt a <> zero_time -> ValidUntil a = time_add (LastSentAt a) (4 * Z.max interval resendDelay).

(** After a rule has sent its alerts, everything the receiver must know has been
    sent recently enough: every alert that is not pending was sent within the
    resend delay, a resolved one after it was resolved, and what was announced
    stays valid for at least three more evaluation intervals and resend delays;
    alerts that were sent carry the new times, and pending ones are never sent. *)
Theorem sendAlerts_keeps_receiver_informed (r : AlertingRule) (ts resendDelay interval : Z) :
  0 < ts -> 0 <= resendDelay < ts -> 0 <= interval -> 4 * Z.max interval resendDelay <= MaxInt64 ->
  (forall fp a, active r !! fp = Some a -> LastSentAt a <= ts /\ ResolvedAt a <= ts /\ sent_ok resendDelay interval a) ->
  let '(sent, r') := sendAlerts r ts resendDelay interval in
  (forall fp a, active r' !! fp = Some a -> sent_ok resendDelay interval a /\
     (al_State a <> StatePending -> ts <= LastSentAt a + resendDelay /\ ResolvedAt a <= LastSentAt a /\
        ts + 3 * Z.max interval resendDelay <= ValidUntil a)) /\
  (forall a, a ∈ sent -> al_State a <> StatePending /\ LastSentAt a = ts /\ exists fp, active r' !! fp = Some a).
Proof.
  intros Hts Hrd Hint Hmax Hinv. unfold sendAlerts. assert (Hi : i64 (4 * Z.max interval resendDelay) = 4 * Z.max interval resendDelay)
    by (apply i64_id; unfold is_i64, MinInt64; lia). split.
  - intros fp b Hb. cbn in Hb. rewrite lookup_fmap in Hb. apply fmap_Some in Hb as (a & Ha & ->). destruct (Hinv fp a Ha) as (H1 & H2 & H3).
    unfold send_alert, needsSending, sent_ok, time_add in *. rewrite Hi. destruct (is_state StatePending a) eqn:Ep.
    + split; [done|]. intros Hn. unfold is_state in Ep. by apply bool_decide_eq_true in Ep.
    + destruct (Z.ltb_spec (LastSentAt a) (ResolvedAt a)); cbn; [split; [done|]; lia|].
      destruct (Z.ltb_spec (LastSentAt a + resendDelay) ts); cbn; [split; [done|]; lia|]. split; [done|]. intros _. split_and!; [lia|lia|].
      rewrite H3 by (unfold zero_time; lia). lia.
  - intros b Hb. apply list_elem_of_fmap in Hb as (a & -> & Ha). apply list_elem_of_In, filter_In in Ha as [Ha Hn]. apply list_elem_of_In in Ha.
    apply list_elem_of_fmap in Ha as ([fp x] & -> & Hx). cbn in *. apply elem_of_map_to_list in Hx. unfold send_alert. rewrite Hn. cbn. split_and!; [|done|].
    + intros Hp. unfold needsSending, is_state in Hn. by rewrite bool_decide_true in Hn.
    + exists fp. rewrite lookup_fmap, Hx. cbn. unfold send_alert. by rewrite Hn.
Qed.

(** ** A rule, evaluated *)

Definition test_sum (b : gostr) : Z := foldl (fun h c => u64 (h * 31 + c)) 7 b.
Definition test_expand (_ : Z) (_ : Sample) (text : gostr) : gostr := take 64 text.
(** For one minute, keep firing for half a minute. *)
Definition test_rule : AlertingRule :=
  NewAlertingRule [65] (60 * 10 ^ 9) (30 * 10 ^ 9) (of_list [mk_Label [115] [49]]) (of_list []) true.
Definition test_metric : list Label := [mk_Label MetricName [117; 112]; mk_Label [106] [120]].
Definition test_sample : Sample := mk_Sample (of_list test_metric) 0 f64_one.
Definition test_alerts (r : AlertingRule) (ts : Z) (l : list Sample) : gmap Z Alert :=
  match build_alerts test_sum test_expand r ts l ∅ with Some (inr m) => m | _ => ∅ end.
Definition test_eval (r : AlertingRule) (ts : Z) (l : list Sample) : AlertingRule :=
  match AlertingRule_Eval test_sum test_expand r 0 ts (Some l) 0 with Some (_, r') => r' | None => r end.
Definition test_ok (r : AlertingRule) (ts : Z) (l : list Sample) : bool :=
  match AlertingRule_Eval test_sum test_expand r 0 ts (Some l) 0, build_alerts test_sum test_expand r ts l ∅ with
  | Some (inr _, _), Some (inr _) => true | _, _ => false end.
Definition test_fp : Z := test_sum (encode [mk_Label AlertName [65]; mk_Label [106] [120]; mk_Label [115] [49]]).
Definition seconds (n : Z) : Z := n * 10 ^ 9.

Lemma test_labels_ok : labels_ok test_expand test_rule.
Proof.
  split; [eexists; split; [done|split_and!; repeat constructor; done]|by exists []|done| |].
  - intros ts smpl text. unfold short, test_expand. rewrite length_take. lia.
  - intros fp a H. cbn in H. by rewrite lookup_empty in H.
Qed.

Lemma test_rule_ok : rule_ok test_rule.
Proof. intros fp a H. cbn in H. by rewrite lookup_empty in H. Qed.

Lemma test_metric_good : good_metric test_sample.
Proof. exists test_metric. split; [done|]. split_and!; repeat constructor; done. Qed.

Lemma test_trace r ts l evs r2 :
  ts <> zero_time -> Forall good_metric l -> test_ok r ts l = true ->
  eval_trace test_sum test_expand (test_eval r ts l) evs r2 -> eval_trace test_sum test_expand r ((ts, test_alerts r ts l) :: evs) r2.
Proof.
  unfold test_ok, test_eval, test_alerts. intros Hts Hl Hok Htr.
  destruct (AlertingRule_Eval test_sum test_expand r 0 ts (Some l) 0) as [[[e|vec] r1]|] eqn:E; [done| |done].
  destruct (build_alerts test_sum test_expand r ts l ∅) as [[e|m]|] eqn:F; [done| |done]. by eapply trace_cons.
Qed.

(** Two minutes of evaluations with the alert in the result. *)
Definition firing_rule : AlertingRule :=
  let r1 := test_eval test_rule (seconds 1000) [test_sample] in
  let r2 := test_eval r1 (seconds 1030) [test_sample] in
  test_eval r2 (seconds 1060) [test_sample].

Lemma alert_fires_when_held_witness :
  exists r1 r2 a, r1 = test_eval test_rule (seconds 1000) [test_sample] /\ r2 = test_eval r1 (seconds 1030) [test_sample] /\
    active firing_rule !! test_fp = Some a /\ ActiveAt a = seconds 1000 /\ al_State a = StateFiring.
Proof.
  eexists _, _. assert (Hm : Forall good_metric [test_sample]) by (repeat constructor; apply test_metric_good).
  destruct (alert_fires_when_held test_sum test_expand test_rule firing_rule (seconds 1000) (test_alerts test_rule (seconds 1000) [test_sample])
    [(seconds 1030, test_alerts (test_eval test_rule (seconds 1000) [test_sample]) (seconds 1030) [test_sample]);
     (seconds 1060, test_alerts (test_eval (test_eval test_rule (seconds 1000) [test_sample]) (seconds 1030) [test_sample]) (seconds 1060) [test_sample])]
    test_fp (seconds 1060)) as (a & H1 & H2 & H3).
  - apply test_labels_ok.
  - apply test_rule_ok.
  - by vm_compute.
  - by vm_compute.
  - do 3 (apply test_trace; [done|exact Hm|by vm_compute|]). apply trace_nil.
  - repeat constructor; vm_compute; by eexists.
  - done.
  - intros a H. cbn in H. by rewrite lookup_empty in H.
  - exists a. split_and!; [reflexivity|reflexivity|exact H1|exact H2|]. rewrite H3. by vm_compute.
Defined.

Lemma Eval_life_cycle_witness :
  exists out r' l alerts, AlertingRule_Eval test_sum test_expand test_rule 0 (seconds 1000) (Some [test_sample]) 0 = Some (inr out, r') /\ rule_ok r' /\
    build_alerts test_sum test_expand test_rule (seconds 1000) l ∅ = Some (inr alerts) /\ eval_effect (seconds 1000) alerts test_rule r' /\
    alert_cycle (active r' !! test_fp) = Pending (seconds 1000).
Proof.
  destruct (Eval_life_cycle test_sum test_expand test_rule 0 (seconds 1000) (Some [test_sample]) 0) as (out & r' & H1 & _ & H3 & H4).
  - apply test_labels_ok.
  - apply test_rule_ok.
  - done.
  - by vm_compute.
  - by vm_compute.
  - intros l [= <-]. repeat constructor. apply test_metric_good.
  - assert (Hr : match AlertingRule_Eval test_sum test_expand test_rule 0 (seconds 1000) (Some [test_sample]) 0 with Some (inr _, _) => true | _ => false end = true)
      by by vm_compute.
    assert (Hc : alert_cycle (active (test_eval test_rule (seconds 1000) [test_sample]) !! test_fp) = Pending (seconds 1000)) by by vm_compute.
    unfold test_eval in Hc. rewrite H1 in Hr, Hc. destruct out as [e|v]; [discriminate Hr|]. destruct H4 as (l & alerts & _ & Hb & He).
    exists v, r', l, alerts. split_and!; [exact H1|exact H3|exact Hb|exact He|exact Hc].
Defined.

Lemma firing_rule_ok : labels_ok test_expand firing_rule /\ rule_ok firing_rule.
Proof.
  assert (Hm : Forall good_metric [test_sample]) by (repeat constructor; apply test_metric_good).
  destruct (trace_cycle test_sum test_expand test_rule
    [(seconds 1000, test_alerts test_rule (seconds 1000) [test_sample]);
     (seconds 1030, test_alerts (test_eval test_rule (seconds 1000) [test_sample]) (seconds 1030) [test_sample]);
     (seconds 1060, test_alerts (test_eval (test_eval test_rule (seconds 1000) [test_sample]) (seconds 1030) [test_sample]) (seconds 1060) [test_sample])]
    firing_rule) as (H1 & H2 & _); [|apply test_labels_ok|apply test_rule_ok|by vm_compute|by vm_compute|done].
  do 3 (apply test_trace; [done|exact Hm|by vm_compute|]). apply trace_nil.
Qed.

(** Missing at 1090 s and 1110 s, resolved at 1120 s, still known at 1900 s,
    forgotten at 2030 s. *)
Definition missing_rule (times : list Z) : AlertingRule := foldl (fun r ts => test_eval r ts []) firing_rule times.

Fixpoint missing_trace_of (r : AlertingRule) (times : list Z) : list (Z * gmap Z Alert) :=
  match times with [] => [] | ts :: times => (ts, ∅) :: missing_trace_of (test_eval r ts []) times end.

Fixpoint missing_ok (r : AlertingRule) (times : list Z) : bool :=
  match times with [] => true | ts :: times => negb (ts =? zero_time) && test_ok r ts [] && missing_ok (test_eval r ts []) times end.

Lemma missing_trace times : forall r, missing_ok r times = true ->
  eval_trace test_sum test_expand r (missing_trace_of r times) (foldl (fun r ts => test_eval r ts []) r times) /\
  map fst (missing_trace_of r times) = times /\ Forall (fun e => snd e !! test_fp = None) (missing_trace_of r times).
Proof.
  induction times as [|ts times IH]; intros r H; cbn [missing_trace_of foldl map]; [split_and!; [constructor|done|constructor]|].
  cbn [missing_ok] in H. apply andb_prop in H as [[H1 H2]%andb_prop H3]. destruct (IH _ H3) as (I1 & I2 & I3). split_and!.
  - apply (test_trace r ts []); [|constructor|done|done]. by apply negb_true_iff, Z.eqb_neq in H1.
  - cbn [fst]. by rewrite I2.
  - constructor; [apply lookup_empty|done].
Qed.

Lemma firing_alert :
  exists a, active firing_rule !! test_fp = Some a /\ al_State a = StateFiring /\ KeepFiringSince a = zero_time /\ ActiveAt a = seconds 1000.
Proof. eexists. split; [vm_compute; reflexivity|]. by vm_compute. Qed.

Lemma alert_resolves_when_missing_witness :
  alert_cycle (active (missing_rule [seconds 1090; seconds 1110; seconds 1120; seconds 1900]) !! test_fp) = Resolved (seconds 1120) /\
  alert_cycle (active (missing_rule [seconds 1090; seconds 1110; seconds 1120; seconds 1900; seconds 2030]) !! test_fp) = Gone.
Proof.
  split; [vm_compute; reflexivity|]. unfold missing_rule.
  pose proof (missing_trace [seconds 1090; seconds 1110; seconds 1120; seconds 1900; seconds 2030] firing_rule) as Ht.
  destruct Ht as (Ht & Hf & Hm); [vm_compute; reflexivity|]. destruct firing_alert as (a & Ha & Hs & Hk & Hact).
  eapply (alert_resolves_when_missing test_sum test_expand firing_rule _ [seconds 1090; seconds 1110] [seconds 1900; seconds 2030] (seconds 1120) _ test_fp a
    (proj1 firing_rule_ok) (proj2 firing_rule_ok)).
  - vm_compute. split; reflexivity.
  - vm_compute. split; reflexivity.
  - exact Ht.
  - exact Hm.
  - exact Ha.
  - exact Hs.
  - exact Hk.
  - rewrite Hact. repeat constructor; vm_compute; (reflexivity || discriminate).
  - vm_compute. discriminate.
  - exact Hf.
  - apply Exists_cons. right. apply Exists_cons. left. vm_compute. reflexivity.
Defined.

Lemma firing_rule_unsent fp a :
  active firing_rule !! fp = Some a -> LastSentAt a <= seconds 1060 /\ ResolvedAt a <= seconds 1060 /\ sent_ok (seconds 60) (seconds 30) a.
Proof.
  intros Ha. assert (Hall : forallb (fun x => (LastSentAt (snd x) =? 0) && (ResolvedAt (snd x) =? 0)) (map_to_list (active firing_rule)) = true)
    by (vm_compute; reflexivity).
  apply elem_of_map_to_list, list_elem_of_In in Ha. rewrite forallb_forall in Hall. apply Hall in Ha. cbn in Ha.
  apply andb_prop in Ha as [H1%Z.eqb_eq H2%Z.eqb_eq]. unfold sent_ok, zero_time, seconds. rewrite H1, H2. split_and!; [lia|lia|done].
Qed.

Lemma sendAlerts_keeps_receiver_informed_witness :
  let '(sent, r') := sendAlerts firing_rule (seconds 1060) (seconds 60) (seconds 30) in
  forall a, a ∈ sent -> al_State a <> StatePending /\ LastSentAt a = seconds 1060 /\ exists fp, active r' !! fp = Some a.
Proof.
  assert (H := sendAlerts_keeps_receiver_informed firing_rule (seconds 1060) (seconds 60) (seconds 30)).
  specialize (H ltac:(vm_compute; reflexivity) ltac:(vm_compute; split; (reflexivity || discriminate)) ltac:(vm_compute; discriminate)
    ltac:(vm_compute; discriminate) firing_rule_unsent).
  destruct (sendAlerts firing_rule (seconds 1060) (seconds 60) (seconds 30)) as [sent r']. exact (proj2 H).
Defined.

Example sendAlerts_example : length (fst (sendAlerts firing_rule (seconds 1060) (seconds 60) (seconds 30))) = 1%nat.
Proof. vm_compute. reflexivity. Qed.
