(* ===== verification/RuleGroup.v ===== *)
(** rules/group.go and rules/manager.go: when a group of rules is evaluated, in
    which order its rules run, and what survives a reload or a restart.

    A rule is known by its index in the group.  The expression of a rule enters
    with the vector selectors that parser.Inspect visits, the storage with the
    last ALERTS_FOR_STATE sample of each series. *)
From stdpp Require Import sorting.
From S2P Require Import Prelude Float64 Labels LabelBuilder Alerting Matcher.

(** ** Evaluation times *)

(** EvalTimestamp: the latest slot of the group at or before [startTime], both in
    nanoseconds since 1970; [hash] is the group's hash. *)
Definition EvalTimestamp (hash interval startTime : Z) : Z :=
  let offset := i64 (hash mod u64 interval) in
  let adjNow := i64 (startTime - offset) in
  let base := i64 (adjNow - Z.rem adjNow interval) in
  i64 (base + offset).

(** The evaluation time of a group is the last one of its slots that is not in
    the future: at most the given time, less than one interval before it, and
    always at the same offset, below the interval, from the multiples of the
    interval.  No step of the computation overflows. *)
Theorem EvalTimestamp_slot (hash interval startTime : Z) :
  0 <= hash -> 0 < interval <= MaxInt64 -> interval <= startTime <= MaxInt64 ->
  let t := EvalTimestamp hash interval startTime in
  startTime - interval < t <= startTime /\ (t - hash mod interval) mod interval = 0.
Proof.
  intros Hh Hi Hs. unfold EvalTimestamp. cbv zeta. rewrite (u64_id interval) by (unfold is_u64, MaxInt64 in *; lia).
  pose proof (Z.mod_pos_bound hash interval ltac:(lia)) as Ho. set (o := hash mod interval) in *.
  assert (Hfit : forall z, 0 <= z <= startTime -> i64 z = z) by (intros z Hz; apply i64_id; unfold is_i64, MinInt64, MaxInt64 in *; lia).
  rewrite (Hfit o) by lia. rewrite (Hfit (startTime - o)) by lia. set (now := startTime - o) in *.
  assert (Hr : Z.rem now interval = now mod interval) by (apply Z.rem_mod_nonneg; lia). rewrite Hr.
  pose proof (Z.mod_pos_bound now interval ltac:(lia)) as Hm. pose proof (Z.mod_le now interval ltac:(lia) ltac:(lia)) as Hle.
  rewrite (Hfit (now - now mod interval)) by lia. rewrite Hfit by lia. split; [lia|].
  replace (now - now mod interval + o - o) with (interval * (now / interval)) by (pose proof (Z.div_mod now interval); lia).
  rewrite Z.mul_comm. apply Z.mod_mul. lia.
Qed.

Lemma EvalTimestamp_slot_witness :
  let t := EvalTimestamp 12345678901234567890 (seconds 60) 1767225600000000000 in
  1767225600000000000 - seconds 60 < t <= 1767225600000000000 /\ (t - 12345678901234567890 mod seconds 60) mod seconds 60 = 0.
Proof. apply EvalTimestamp_slot; vm_compute; [discriminate|split; [reflexivity|discriminate]|split; discriminate]. Defined.

(** ** Dependencies between rules *)

(** What buildDependencyMap reads of a parser.VectorSelector and of a Rule. *)
Record VectorSelector := mk_VectorSelector { vs_Name : gostr; LabelMatchers : list Matcher }.
Record Rule := mk_Rule { rule_Name : gostr; is_alerting : bool; selectors : list VectorSelector }.

Definition first_matcher (name : gostr) (ms : list Matcher) : option Matcher := List.find (fun m => str_eqb (m_Name m) name) ms.

(** The matcher for the metric name of a selector; none for a wildcard. *)
Definition name_matcher (n : VectorSelector) : option Matcher :=
  match vs_Name n with
  | [] => first_matcher MetricName (LabelMatchers n)
  | _ => Some (mk_Matcher MatchEqual MetricName (vs_Name n) (fun _ => false))
  end.

(** Whether a selector reads the output of another rule. *)
Definition selector_reads (nm : Matcher) (n : VectorSelector) (other : Rule) : bool :=
  Matches nm (rule_Name other) ||
  ((Matches nm alertMetricName || Matches nm alertForStateMetricName) && is_alerting other &&
   match first_matcher AlertName (LabelMatchers n) with None => true | Some m => Matches m (rule_Name other) end).

(** [dependencies[other] = append(dependencies[other], rule)]. *)
Definition add_dependent (deps : gmap nat (list nat)) (other rule : nat) : gmap nat (list nat) :=
  <[other := default [] (deps !! other) ++ [rule]]> deps.

(** The loop over the rules before rule [j]. *)
Fixpoint others_loop (nm : Matcher) (n : VectorSelector) (j i : nat) (rules : list Rule) (deps : gmap nat (list nat)) : gmap nat (list nat) :=
  match rules with
  | [] => deps
  | other :: rules =>
      if (i =? j)%nat then deps
      else others_loop nm n j (S i) rules (if selector_reads nm n other then add_dependent deps i j else deps)
  end.

(** What Inspect does for one selector of rule [j]: ([indeterminate], [dependencies]). *)
Definition inspect_selector (rules : list Rule) (j : nat) (s : bool * gmap nat (list nat)) (n : VectorSelector) : bool * gmap nat (list nat) :=
  match name_matcher n with
  | None => (true, snd s)
  | Some nm => (fst s, others_loop nm n j 0 rules (snd s))
  end.

Fixpoint rules_loop (all : list Rule) (j : nat) (rules : list Rule) (s : bool * gmap nat (list nat)) : bool * gmap nat (list nat) :=
  match rules with
  | [] => s
  | r :: rules => if fst s then s else rules_loop all (S j) rules (foldl (inspect_selector all j) s (selectors r))
  end.

(** [None] is the nil map. *)
Definition buildDependencyMap (rules : list Rule) : option (gmap nat (list nat)) :=
  if (length rules <=? 1)%nat then Some ∅
  else let '(indeterminate, deps) := rules_loop rules 0 rules (false, ∅) in if indeterminate : bool then None else Some deps.

Definition dependents (m : gmap nat (list nat)) (r : nat) : list nat := default [] (m !! r).
Definition dependencies (m : gmap nat (list nat)) (r : nat) : list nat :=
  map fst (List.filter (fun kv : nat * list nat => bool_decide (r ∈ snd kv)) (map_to_list m)).

(** The dependentRules and dependencyRules of each rule; [None] is nil, as a new
    rule has them. *)
Record rule_deps := mk_rule_deps { dependentRules : option (list nat); dependencyRules : option (list nat) }.

Definition AnalyseRules (rules : list Rule) : list rule_deps :=
  match buildDependencyMap rules with
  | None => map (fun _ => mk_rule_deps None None) rules
  | Some m => map (fun r => mk_rule_deps (Some (dependents m r)) (Some (dependencies m r))) (seq 0 (length rules))
  end.

Definition NoDependentRules (d : rule_deps) : bool := match dependentRules d with None => false | Some l => (length l =? 0)%nat end.
Definition NoDependencyRules (d : rule_deps) : bool := match dependencyRules d with None => false | Some l => (length l =? 0)%nat end.

(** The indices of the rules that satisfy [f], in order. *)
Definition indices (f : rule_deps -> bool) (ds : list rule_deps) : list nat :=
  map fst (List.filter (fun '(_, d) => f d) (combine (seq 0 (length ds)) ds)).

Definition nonempty_batch (b : list nat) : list (list nat) := match b with [] => [] | _ => [b] end.

Definition SplitGroupIntoBatches (ds : list rule_deps) : list (list nat) :=
  nonempty_batch (indices NoDependencyRules ds) ++
  map (fun i => [i]) (indices (fun d => negb (NoDependencyRules d) && negb (NoDependentRules d)) ds) ++
  nonempty_batch (indices (fun d => negb (NoDependencyRules d) && NoDependentRules d) ds).

(** Rule [j] reads what the earlier rule [k] writes. *)
Definition rule_reads (all : list Rule) (sels : list VectorSelector) (j k : nat) : Prop :=
  exists n nm other, n ∈ sels /\ name_matcher n = Some nm /\ all !! k = Some other /\ (k < j)%nat /\ selector_reads nm n other = true.

Lemma dependents_add deps o j x k : x ∈ dependents (add_dependent deps o j) k <-> x ∈ dependents deps k \/ (k = o /\ x = j).
Proof.
  unfold dependents, add_dependent. destruct (decide (k = o)) as [->|Hne].
  - rewrite lookup_insert_eq. cbn. rewrite elem_of_app, list_elem_of_singleton. naive_solver.
  - rewrite lookup_insert_ne by congruence. naive_solver.
Qed.

Lemma others_loop_spec nm n j rules : forall i deps x k, (i <= j)%nat ->
  x ∈ dependents (others_loop nm n j i rules deps) k <->
  x ∈ dependents deps k \/ (x = j /\ exists other, (i <= k < j)%nat /\ rules !! (k - i)%nat = Some other /\ selector_reads nm n other = true).
Proof.
  induction rules as [|r rules IH]; intros i deps x k Hi; cbn [others_loop].
  - split; [by left|]. by intros [H|(_ & o & _ & H & _)].
  - destruct (Nat.eqb_spec i j) as [->|Hne]; [split; [by left|intros [H|(_ & o & H & _)]; [done|lia]]|].
    rewrite IH by lia. assert (Hd : forall b, x ∈ dependents (if b : bool then add_dependent deps i j else deps) k <-> x ∈ dependents deps k \/ (b = true /\ k = i /\ x = j)).
    { intros []; [rewrite dependents_add|]; naive_solver. }
    rewrite Hd. split.
    + intros [[H|(H & -> & ->)]|(-> & o & Hk & Ho & Hr)]; [by left| |].
      * right. split; [done|]. exists r. rewrite Nat.sub_diag. split_and!; [lia|lia|done|done].
      * right. split; [done|]. exists o. split; [lia|]. split; [|done]. replace (k - i)%nat with (S (k - S i)) by lia. done.
    + intros [H|(-> & o & Hk & Ho & Hr)]; [left; by left|]. destruct (decide (k = i)) as [->|Hki].
      * rewrite Nat.sub_diag in Ho. cbn in Ho. simplify_eq. left. by right.
      * right. split; [done|]. exists o. split; [lia|]. split; [|done]. by replace (k - i)%nat with (S (k - S i)) in Ho by lia.
Qed.

Lemma inspect_fold all j sels : forall s, let s' := foldl (inspect_selector all j) s sels in
  (fst s' = false <-> fst s = false /\ Forall (fun n => name_matcher n <> None) sels) /\
  forall x k, x ∈ dependents (snd s') k <-> x ∈ dependents (snd s) k \/ (x = j /\ rule_reads all sels j k).
Proof.
  induction sels as [|n sels IH]; intros s; cbn [foldl].
  - split; [split; [by split|by intros [? _]]|]. intros x k. split; [by left|]. intros [H|(_ & n & nm & o & H & _)]; [done|]. by apply not_elem_of_nil in H.
  - cbv zeta. destruct (IH (inspect_selector all j s n)) as [IH1 IH2]. rewrite IH1. split.
    + unfold inspect_selector. rewrite Forall_cons. destruct (name_matcher n) eqn:E; cbn; [split; [intros [? ?]; by split_and!|by intros (? & _ & ?)]|].
      split; [by intros [? _]|by intros (_ & ? & _)].
    + intros x k. rewrite IH2. assert (H1 : x ∈ dependents (snd (inspect_selector all j s n)) k <-> x ∈ dependents (snd s) k \/ (x = j /\ rule_reads all [n] j k)).
      { unfold inspect_selector. destruct (name_matcher n) as [nm|] eqn:E; cbn [snd].
        - rewrite others_loop_spec by lia. rewrite Nat.sub_0_r. apply or_iff_compat_l, and_iff_compat_l. split.
          + intros (o & Hk & Ho & Hr). exists n, nm, o. split_and!; [by left|done|done|lia|done].
          + intros (n' & nm' & o & ->%list_elem_of_singleton & En & Ho & Hk & Hr). rewrite E in En. simplify_eq. exists o. split_and!; [lia|lia|done|done].
        - split; [by left|]. intros [H|(_ & n' & nm' & o & ->%list_elem_of_singleton & En & _)]; [done|congruence]. }
      rewrite H1. assert (H2 : rule_reads all (n :: sels) j k <-> rule_reads all [n] j k \/ rule_reads all sels j k); [|rewrite H2; tauto].
      split; [intros (n' & nm & o & [->|Hn]%elem_of_cons & H); [left; exists n, nm, o; split; [by left|done]|right; by exists n', nm, o]|].
      intros [(n' & nm & o & ->%list_elem_of_singleton & H)|(n' & nm & o & Hn & H)]; [exists n, nm, o; split; [by left|done]|exists n', nm, o; split; [by right|done]].
Qed.

Lemma rules_loop_spec all rules : forall pre s, all = pre ++ rules ->
  let s' := rules_loop all (length pre) rules s in fst s' = false ->
  Forall (fun r => Forall (fun n => name_matcher n <> None) (selectors r)) rules /\
  forall x k, x ∈ dependents (snd s') k <->
    x ∈ dependents (snd s) k \/ ((length pre <= x)%nat /\ exists r, all !! x = Some r /\ rule_reads all (selectors r) x k).
Proof.
  induction rules as [|r rules IH]; intros pre s Hall; cbv zeta; cbn [rules_loop].
  - intros _. split; [constructor|]. intros x k. split; [by left|]. intros [H|(Hx & r & Hr & _)]; [done|].
    apply lookup_lt_Some in Hr. subst all. rewrite app_nil_r in Hr. lia.
  - destruct (fst s) eqn:Es; [congruence|]. intros Hf. specialize (IH (pre ++ [r]) (foldl (inspect_selector all (length pre)) s (selectors r))).
    rewrite length_app, Nat.add_1_r in IH. destruct (inspect_fold all (length pre) (selectors r) s) as [I1 I2].
    destruct IH as [IH1 IH2]; [by rewrite <-app_assoc|done|].
    assert (Hr : all !! length pre = Some r) by (subst all; by apply list_lookup_middle).
    assert (Hone : Forall (fun n => name_matcher n <> None) (selectors r)).
    { destruct (fst (foldl (inspect_selector all (length pre)) s (selectors r))) eqn:E; [|by apply I1].
      exfalso. clear -Hf E. destruct rules; cbn [rules_loop] in Hf; [congruence|]. rewrite E in Hf. congruence. }
    split; [by constructor|]. intros x k. rewrite IH2, I2. split.
    + intros [[H|(-> & H)]|(Hx & r' & Hr' & H)]; [by left|right; split; [lia|by exists r]|right; split; [lia|by exists r']].
    + intros [H|(Hx & r' & Hr' & H)]; [left; by left|]. destruct (decide (x = length pre)) as [->|Hne].
      * left. right. rewrite Hr in Hr'. by simplify_eq.
      * right. split; [lia|by exists r'].
Qed.

(** The dependency map holds exactly the reads of earlier rules. *)
Lemma buildDependencyMap_spec rules m : buildDependencyMap rules = Some m ->
  forall x k r, rules !! x = Some r -> rule_reads rules (selectors r) x k -> x ∈ dependents m k.
Proof.
  unfold buildDependencyMap. intros H x k r Hr Hreads. destruct (Nat.leb_spec (length rules) 1) as [Hl|Hl].
  - destruct Hreads as (n & nm & o & _ & _ & Ho & Hk & _). apply lookup_lt_Some in Hr. lia.
  - destruct (rules_loop rules 0 rules (false, ∅)) as [ind deps] eqn:E. destruct ind; [done|]. simplify_eq.
    destruct (rules_loop_spec rules rules [] (false, ∅) eq_refl) as [_ H]; cbn [length]; [by rewrite E|].
    cbn [length] in H. rewrite E in H. apply H. right. split; [lia|by exists r].
Qed.

(** ** Batches *)

Lemma indices_spec f ds i : i ∈ indices f ds <-> exists d, ds !! i = Some d /\ f d = true.
Proof.
  unfold indices. rewrite list_elem_of_fmap.
  assert (Hc : forall d, (i, d) ∈ combine (seq 0 (length ds)) ds <-> ds !! i = Some d).
  { intros d. rewrite list_elem_of_lookup. split.
    - intros (k & Hk). change (combine (seq 0 (length ds)) ds) with (zip (seq 0 (length ds)) ds) in Hk. apply lookup_zip_with_Some in Hk as (a & b & [= -> ->] & Ha & Hb).
      apply lookup_seq in Ha as [-> _]. done.
    - intros Hd. exists i. change (combine (seq 0 (length ds)) ds) with (zip (seq 0 (length ds)) ds). apply lookup_zip_with_Some. exists i, d.
      split_and!; [done|apply lookup_seq_lt; by eapply lookup_lt_Some|done]. }
  split; [intros ([k d] & -> & [Hin Hf]%elem_of_lfilter); exists d; split; [by apply Hc|done]|].
  intros (d & Hd & Hf). exists (i, d). split; [done|]. apply elem_of_lfilter. split; [by apply Hc|done].
Qed.

Lemma indices_sorted f ds : StronglySorted lt (indices f ds).
Proof.
  unfold indices. generalize 0%nat as k. induction ds as [|d ds IH]; intros k; cbn; [constructor|].
  assert (Hgt : Forall (fun x => (k < x)%nat) (map fst (List.filter (fun '(_, d) => f d) (combine (seq (S k) (length ds)) ds)))).
  { apply Forall_forall. intros x ([y z] & -> & Hy)%list_elem_of_fmap. apply elem_of_lfilter in Hy as [Hy%list_elem_of_In _].
    apply in_combine_l, in_seq in Hy. cbn. lia. }
  destruct (f d); [constructor|]; [apply IH|done|apply IH].
Qed.

Lemma concat_nonempty_batch b : concat (nonempty_batch b) = b.
Proof. destruct b; [done|]. cbn. by rewrite app_nil_r. Qed.

Lemma concat_singles (l : list nat) : concat (map (fun i => [i]) l) = l.
Proof. induction l as [|x l IH]; [done|]. cbn. by rewrite IH. Qed.

Lemma length_AnalyseRules rules : length (AnalyseRules rules) = length rules.
Proof. unfold AnalyseRules. destruct (buildDependencyMap rules); by rewrite length_map, ?length_seq. Qed.

Lemma indices_NoDup f ds : NoDup (indices f ds).
Proof.
  pose proof (indices_sorted f ds) as H. induction H as [|x l Hs IH Hall]; constructor; [|done]. intros Hx.
  rewrite Forall_forall in Hall. specialize (Hall x Hx). lia.
Qed.

Lemma batches_partition ds : concat (SplitGroupIntoBatches ds) ≡ₚ seq 0 (length ds).
Proof.
  unfold SplitGroupIntoBatches. rewrite !concat_app, !concat_nonempty_batch, concat_singles. apply NoDup_Permutation; [|apply NoDup_seq|].
  - rewrite !NoDup_app. split_and!; try apply indices_NoDup.
    + intros x (d & Hd & H1)%indices_spec [H|H]%elem_of_app; apply indices_spec in H as (d' & Hd' & H2); rewrite Hd in Hd'; simplify_eq; by rewrite H1 in H2.
    + intros x (d & Hd & H1)%indices_spec (d' & Hd' & H2)%indices_spec. rewrite Hd in Hd'. simplify_eq.
      apply andb_prop in H1 as [_ H1], H2 as [_ H2]. by rewrite H2 in H1.
  - intros x. rewrite !elem_of_app, !indices_spec, elem_of_seq. split.
    + intros [(d & H%lookup_lt_Some & _)|[(d & H%lookup_lt_Some & _)|(d & H%lookup_lt_Some & _)]]; lia.
    + intros [_ Hx]. destruct (lookup_lt_is_Some_2 ds x Hx) as [d Hd]. destruct (NoDependencyRules d) eqn:E1; [left; by exists d|right].
      destruct (NoDependentRules d) eqn:E2; [right|left]; exists d; by rewrite E1, E2.
Qed.

(** [k] runs in an earlier batch than [j]. *)
Definition runs_before (bs : list (list nat)) (k j : nat) : Prop := exists l1 l2, bs = l1 ++ l2 /\ k ∈ concat l1 /\ j ∈ concat l2.

Lemma sorted_middle (l : list nat) k j : StronglySorted lt l -> k ∈ l -> j ∈ l -> (k < j)%nat -> exists p q, l = p ++ q /\ k ∈ p /\ j ∈ q.
Proof.
  intros Hs Hk Hj Hlt. apply list_elem_of_split in Hk as (p & q & ->). exists (p ++ [k]), q. rewrite <-app_assoc. split_and!; [done|set_solver|].
  apply elem_of_app in Hj as [Hj|[->|Hj]%elem_of_cons]; [|lia|done]. apply StronglySorted_app in Hs as (Hpq & _ & _).
  specialize (Hpq j k Hj ltac:(left)). lia.
Qed.

(** A rule with dependents runs before a later one with dependencies. *)
Lemma batches_order ds k j dk dj :
  ds !! k = Some dk -> ds !! j = Some dj -> (k < j)%nat -> NoDependentRules dk = false -> NoDependencyRules dj = false ->
  runs_before (SplitGroupIntoBatches ds) k j.
Proof.
  intros Hk Hj Hlt H1 H2. unfold SplitGroupIntoBatches.
  set (i1 := indices NoDependencyRules ds). set (i2 := indices (fun d => negb (NoDependencyRules d) && negb (NoDependentRules d)) ds).
  set (i3 := indices (fun d => negb (NoDependencyRules d) && NoDependentRules d) ds).
  assert (Hjin : j ∈ i2 \/ j ∈ i3).
  { destruct (NoDependentRules dj) eqn:E; [right|left]; apply indices_spec; exists dj; by rewrite H2, E. }
  destruct (NoDependencyRules dk) eqn:E.
  - exists (nonempty_batch i1), (map (fun i => [i]) i2 ++ nonempty_batch i3). rewrite concat_app, concat_singles, !concat_nonempty_batch, elem_of_app.
    split_and!; [done|apply indices_spec; by exists dk|done].
  - assert (Hkin : k ∈ i2) by (apply indices_spec; exists dk; by rewrite E, H1).
    destruct Hjin as [Hjin|Hjin].
    + destruct (sorted_middle i2 k j) as (p & q & Hpq & Hp & Hq); [apply indices_sorted|done|done|done|].
      exists (nonempty_batch i1 ++ map (fun i => [i]) p), (map (fun i => [i]) q ++ nonempty_batch i3).
      rewrite Hpq, map_app, <-!app_assoc, !concat_app, !concat_singles, !elem_of_app. split_and!; [done|by right|by left].
    + exists (nonempty_batch i1 ++ map (fun i => [i]) i2), (nonempty_batch i3).
      rewrite <-!app_assoc, !concat_app, concat_singles, !concat_nonempty_batch, !elem_of_app. split_and!; [done|by right|done].
Qed.

Lemma indices_all f ds : Forall (fun d => f d = true) ds -> indices f ds = seq 0 (length ds).
Proof.
  intros Hall. unfold indices. generalize 0%nat as k. induction Hall as [|d ds Hd _ IH]; intros k; [done|]. cbn. rewrite Hd. cbn. by rewrite IH.
Qed.

Lemma indices_none f ds : Forall (fun d => f d = false) ds -> indices f ds = [].
Proof.
  intros Hall. unfold indices. generalize 0%nat as k. induction Hall as [|d ds Hd _ IH]; intros k; [done|]. cbn. rewrite Hd. apply IH.
Qed.

Lemma batches_sequential rules : buildDependencyMap rules = None ->
  SplitGroupIntoBatches (AnalyseRules rules) = map (fun i => [i]) (seq 0 (length rules)).
Proof.
  intros Hb. unfold SplitGroupIntoBatches. rewrite <-(length_AnalyseRules rules). unfold AnalyseRules. rewrite Hb.
  assert (Hall : forall P : rule_deps -> Prop, P (mk_rule_deps None None) -> Forall P (map (fun _ => mk_rule_deps None None) rules)).
  { intros P HP. apply Forall_fmap. apply Forall_forall. by intros. }
  rewrite (indices_none NoDependencyRules) by (apply Hall; reflexivity).
  rewrite (indices_all (fun d => negb (NoDependencyRules d) && negb (NoDependentRules d))) by (apply Hall; reflexivity).
  rewrite (indices_none (fun d => negb (NoDependencyRules d) && NoDependentRules d)) by (apply Hall; reflexivity).
  apply app_nil_r.
Qed.


(** A recording rule, an alert that reads it, a rule that reads the alert. *)
Example batches_example :
  SplitGroupIntoBatches (AnalyseRules
    [mk_Rule [97] false [mk_VectorSelector [120] []];
     mk_Rule [98] true [mk_VectorSelector [97] []];
     mk_Rule [99] false [mk_VectorSelector alertMetricName [mk_Matcher MatchEqual AlertName [98] (fun _ => false)]];
     mk_Rule [100] false [mk_VectorSelector [121] []]])
  = [[0; 3]; [1]; [2]]%nat.
Proof. vm_compute. reflexivity. Qed.

(** ** Restoring the 'for' state after a restart *)

(** value.StaleNaN. *)
Definition StaleNaN : Z := 0x7ff0000000000002.
Definition IsStaleNaN (v : Z) : bool := v =? StaleNaN.

(** The new ActiveAt of an alert whose last sample was [v] at [t] ms, when the
    rule's hold duration is [hold] and the grace period [grace]. *)
Definition restored_ActiveAt (hold grace ts t v : Z) : Z :=
  let downAt := from_Unix (Z.quot t 1000) in
  let restoredActiveAt := from_Unix (int64_of_f64 (f64_of_bits v)) in
  let timeSpentPending := time_sub downAt restoredActiveAt in
  let timeRemainingPending := i64 (hold - timeSpentPending) in
  if timeRemainingPending <=? 0 then restoredActiveAt
  else if timeRemainingPending <? grace then time_add (time_add ts grace) (i64 (- hold))
  else time_add restoredActiveAt (time_sub ts downAt).

(** What the storage returns for a rule: none on an error; otherwise the series
    by their labels without the metric name, each with its last float sample or
    none when iterating over it failed. *)
Definition series_set : Type := option (list (gostr * option (Z * Z))).

Fixpoint find_series (ls : gostr) (s : list (gostr * option (Z * Z))) : option (option (Z * Z)) :=
  match s with
  | [] => None
  | (l, x) :: s => match find_series ls s with Some y => Some y | None => if str_eqb l ls then Some x else None end
  end.

Definition restore_alert (hold grace ts : Z) (series : list (gostr * option (Z * Z))) (a : Alert) : Alert :=
  match find_series (data (al_Labels a)) series with
  | Some (Some (t, v)) => if IsStaleNaN v then a else set_ActiveAt a (restored_ActiveAt hold grace ts t v)
  | _ => a
  end.

(** One round of RestoreForState's loop over the rules. *)
Definition restore_rule (grace ts : Z) (sset : series_set) (r : AlertingRule) : AlertingRule :=
  if holdDuration r <? grace then SetRestored r true
  else match sset with
       | None | Some [] => SetRestored r true
       | Some series => SetRestored (set_active r (restore_alert (holdDuration r) grace ts series <$> active r)) true
       end.

(** How long a restored alert still has to wait. *)
Definition remaining_wait (hold grace ts t v : Z) : Z :=
  let remaining := hold - (Z.quot t 1000 - int64_of_f64 (f64_of_bits v)) * 10 ^ 9 in
  if remaining <=? 0 then 0 else Z.max grace remaining.

Lemma restored_ActiveAt_wait hold grace ts t v te :
  let n := int64_of_f64 (f64_of_bits v) in
  0 <= grace <= hold -> hold < 2 ^ 61 -> 0 <= n -> (Z.quot t 1000 - n) * 10 ^ 9 < 2 ^ 61 -> - 2 ^ 61 < (Z.quot t 1000 - n) * 10 ^ 9 ->
  from_Unix (Z.quot t 1000) <= ts < from_Unix (Z.quot t 1000) + 2 ^ 61 -> ts <= te ->
  (hold <=? te - restored_ActiveAt hold grace ts t v) = (remaining_wait hold grace ts t v <=? te - ts).
Proof.
  intros n Hg Hh Hn Hd1 Hd2 Hts Hte. unfold restored_ActiveAt, remaining_wait. fold n. set (d := Z.quot t 1000) in *.
  assert (Hs : time_sub (from_Unix d) (from_Unix n) = (d - n) * 10 ^ 9) by (unfold time_sub, saturate, from_Unix, MinInt64, MaxInt64; lia).
  assert (Hdn : time_sub ts (from_Unix d) = ts - from_Unix d) by (unfold time_sub, saturate, MinInt64, MaxInt64; lia).
  cbv zeta. rewrite Hs, Hdn, i64_id, (i64_id (- hold)) by (unfold is_i64, MinInt64, MaxInt64; lia). set (rem := hold - (d - n) * 10 ^ 9) in *.
  unfold time_add. destruct (Z.leb_spec rem 0); [|destruct (Z.ltb_spec rem grace)];
    apply eq_true_iff_eq; rewrite !Z.leb_le; unfold from_Unix in *; lia.
Qed.

(** After a restart, a pending alert waits exactly as long as it still had to
    when the last ALERTS_FOR_STATE sample was written, but at least the grace
    period, and not at all if it was already firing: restored at [ts], an alert
    that is still in the result at [te] is firing after that evaluation exactly
    when this time has passed.  Rules with a hold duration below the grace
    period are left alone. *)
Theorem restored_alert_waits_remaining (r : AlertingRule) (grace ts te t v : Z) (series : list (gostr * option (Z * Z))) (fp : Z) (a : Alert) :
  let n := int64_of_f64 (f64_of_bits v) in
  let r' := restore_rule grace ts (Some series) r in
  rule_ok r -> duration_ok (holdDuration r) -> active r !! fp = Some a -> al_State a = StatePending \/ al_State a = StateFiring ->
  find_series (data (al_Labels a)) series = Some (Some (t, v)) -> IsStaleNaN v = false ->
  0 <= grace -> holdDuration r < 2 ^ 61 -> 0 <= n -> - 2 ^ 61 < (Z.quot t 1000 - n) * 10 ^ 9 < 2 ^ 61 ->
  from_Unix (Z.quot t 1000) <= ts < from_Unix (Z.quot t 1000) + 2 ^ 61 -> ts <= te ->
  restored r' = true /\ rule_ok r' /\ exists b c, active r' !! fp = Some b /\ fst (eval_alert r' te true b) = Some c /\
    (if holdDuration r <? grace then b = a
     else al_State c = StateFiring <-> remaining_wait (holdDuration r) grace ts t v <= te - ts).
Proof.
  intros n r' Hok Hd Ha Hst Hf Hstale Hg Hh Hn Hdown Hts Hte. unfold r', restore_rule. pose proof (Hok fp a Ha) as Hoka.
  destruct (Z.ltb_spec (holdDuration r) grace) as [Hlt|Hge].
  - split_and!; [done|exact Hok|]. exists a. eexists. cbn [active SetRestored]. split_and!; [exact Ha|done|done].
  - destruct series as [|s0 series0] eqn:Es; [done|]. rewrite <-Es in *. cbn [restored SetRestored]. split; [done|].
    set (r1 := SetRestored _ true). assert (Hr1 : forall fp x, active r1 !! fp = Some x -> exists y, active r !! fp = Some y /\ x = restore_alert (holdDuration r) grace ts series y).
    { intros fp' x Hx. cbn in Hx. rewrite lookup_fmap in Hx. apply fmap_Some in Hx as (y & Hy & ->). by exists y. }
    assert (Hkeep : forall y, alert_ok y -> alert_ok (restore_alert (holdDuration r) grace ts series y)).
    { intros y Hy. unfold restore_alert. repeat case_match; done. }
    split; [intros fp' x (y & Hy & ->)%Hr1; by eapply Hkeep, Hok|].
    set (b := set_ActiveAt a (restored_ActiveAt (holdDuration r) grace ts t v)).
    assert (Hb : active r1 !! fp = Some b).
    { cbn. rewrite lookup_fmap, Ha. cbn. f_equal. unfold restore_alert. rewrite Hf, Hstale. done. }
    exists b. eexists. split; [exact Hb|]. split; [done|]. assert (Hokb : alert_ok b) by exact Hoka.
    destruct (eval_found r1 te b) as [_ Hc]; [exact Hd|exact Hokb|cbn; by destruct Hst as [-> | ->]|]. cbn [eval_alert fst] in Hc.
    change (holdDuration r1) with (holdDuration r) in Hc. unfold b at 2 in Hc. cbn [ActiveAt set_ActiveAt] in Hc.
    rewrite (restored_ActiveAt_wait (holdDuration r) grace ts t v te) in Hc by (done || lia).
    rewrite <-Z.leb_le. revert Hc. cbn [alert_cycle]. destruct (remaining_wait (holdDuration r) grace ts t v <=? te - ts), (al_State (fire r1 te _)); intros; by simplify_eq.
Qed.

(** Down after 20 of 60 seconds, restored 80 seconds later: it fires 40 seconds
    after that. *)
Definition pending_rule : AlertingRule := test_eval test_rule (from_Unix 1000100) [test_sample].
Definition test_series : list (gostr * option (Z * Z)) :=
  [(encode [mk_Label AlertName [65]; mk_Label [106] [120]; mk_Label [115] [49]], Some (1000020 * 1000, bits_of_f64 (f64_of_int 1000000)))].

Lemma pending_rule_ok : rule_ok pending_rule.
Proof.
  assert (Hm : Forall good_metric [test_sample]) by (repeat constructor; apply test_metric_good).
  destruct (trace_cycle test_sum test_expand test_rule [(from_Unix 1000100, test_alerts test_rule (from_Unix 1000100) [test_sample])] pending_rule)
    as (_ & H & _); [|apply test_labels_ok|apply test_rule_ok|by vm_compute|by vm_compute|exact H].
  apply test_trace; [done|exact Hm|by vm_compute|]. apply trace_nil.
Qed.

Lemma pending_alert :
  exists a, active pending_rule !! test_fp = Some a /\ al_State a = StatePending /\ data (al_Labels a) = fst (hd ([], None) test_series).
Proof. eexists. split; [vm_compute; reflexivity|]. vm_compute. split; reflexivity. Qed.

Lemma restored_alert_waits_remaining_witness :
  exists a b c, active (restore_rule (seconds 10) (from_Unix 1000100) (Some test_series) pending_rule) !! test_fp = Some b /\
    active pending_rule !! test_fp = Some a /\
    fst (eval_alert (restore_rule (seconds 10) (from_Unix 1000100) (Some test_series) pending_rule) (from_Unix 1000140) true b) = Some c /\
    (al_State c = StateFiring <-> seconds 40 <= from_Unix 1000140 - from_Unix 1000100).
Proof.
  destruct pending_alert as (a & Ha & Hs & Hd).
  destruct (restored_alert_waits_remaining pending_rule (seconds 10) (from_Unix 1000100) (from_Unix 1000140) (1000020 * 1000) (bits_of_f64 (f64_of_int 1000000))
    test_series test_fp a) as (_ & _ & b & c & Hb & Hc & Hw); [exact pending_rule_ok| |exact Ha|by left| | | | | | | |  |].
  - vm_compute. split; reflexivity.
  - rewrite Hd. vm_compute. reflexivity.
  - vm_compute. reflexivity.
  - vm_compute. discriminate.
  - vm_compute. reflexivity.
  - vm_compute. discriminate.
  - vm_compute. split; reflexivity.
  - vm_compute. split; (reflexivity || discriminate).
  - vm_compute. discriminate.
  - exists a, b, c. split; [exact Hb|]. split; [exact Ha|]. split; [exact Hc|].
    replace (holdDuration pending_rule <? seconds 10) with false in Hw by (vm_compute; reflexivity).
    replace (remaining_wait (holdDuration pending_rule) (seconds 10) (from_Unix 1000100) (1000020 * 1000) (bits_of_f64 (f64_of_int 1000000)))
      with (seconds 40) in Hw by (vm_compute; reflexivity). exact Hw.
Defined.

(** ** Copying state after a reload *)

(** A rule of a group as CopyState sees it: its name and labels, the active
    alerts of an alerting rule, and the series of its last evaluation. *)
Record group_rule := mk_group_rule { gr_key : gostr; gr_active : option (gmap Z Alert); gr_series : gmap gostr Labels }.
Record group := mk_group { g_rules : list group_rule; staleSeries : list Labels }.

(** The indices of the rules with a key: the entries of [ruleMap]. *)
Fixpoint rule_map (i : nat) (rules : list group_rule) (m : gmap gostr (list nat)) : gmap gostr (list nat) :=
  match rules with
  | [] => m
  | r :: rules => rule_map (S i) rules (<[gr_key r := default [] (m !! gr_key r) ++ [i]]> m)
  end.

Definition copy_rule (from : list group_rule) (fi : nat) (r : group_rule) : group_rule :=
  match from !! fi with
  | None => r
  | Some f =>
      mk_group_rule (gr_key r)
        (match gr_active r, gr_active f with Some a, Some fa => Some (fa ∪ a) | a, _ => a end) (gr_series f)
  end.

(** The loop over the new rules, which consumes the entries of [ruleMap]. *)
Fixpoint copy_loop (from rules : list group_rule) (m : gmap gostr (list nat)) : list group_rule * gmap gostr (list nat) :=
  match rules with
  | [] => ([], m)
  | r :: rules =>
      match default [] (m !! gr_key r) with
      | [] => let '(rs, m') := copy_loop from rules m in (r :: rs, m')
      | fi :: indexes => let '(rs, m') := copy_loop from rules (<[gr_key r := indexes]> m) in (copy_rule from fi r :: rs, m')
      end
  end.

Definition CopyState (g from : group) : group :=
  let '(rules, m) := copy_loop (g_rules from) (g_rules g) (rule_map 0 (g_rules from) ∅) in
  mk_group rules (staleSeries from ++ concat (map (fun f => match default [] (m !! gr_key f) with [] => [] | _ => (map_to_list (gr_series f)).*2 end) (g_rules from))).

Definition has_key (key : gostr) (r : group_rule) : bool := str_eqb (gr_key r) key.

Fixpoint key_ids (i : nat) (key : gostr) (rules : list group_rule) : list nat :=
  match rules with [] => [] | r :: rules => (if has_key key r then [i] else []) ++ key_ids (S i) key rules end.

Lemma rule_map_spec rules key : forall i m, default [] (rule_map i rules m !! key) = default [] (m !! key) ++ key_ids i key rules.
Proof.
  induction rules as [|r rules IH]; intros i m; cbn [rule_map key_ids]; [by rewrite app_nil_r|]. rewrite IH. unfold has_key.
  destruct (str_eqb (gr_key r) key) eqn:E.
  - apply str_eqb_eq in E as ->. rewrite lookup_insert_eq. cbn. by rewrite <-app_assoc.
  - apply str_eqb_neq in E. by rewrite lookup_insert_ne by done.
Qed.

(** The [k]-th entry leads to the [k]-th rule with the key. *)
Lemma key_ids_lookup key rules k : forall pre,
  (key_ids (length pre) key rules !! k) ≫= (fun fi => (pre ++ rules) !! fi) = List.filter (has_key key) rules !! k.
Proof.
  revert k. induction rules as [|r rules IH]; intros k pre; cbn [key_ids List.filter]; [done|].
  specialize (IH (if has_key key r then pred k else k) (pre ++ [r])). rewrite length_app, Nat.add_1_r, <-app_assoc in IH.
  destruct (has_key key r); cbn [app]; [|exact IH]. destruct k as [|k]; cbn [lookup list_lookup].
  - cbn [mbind option_bind]. by rewrite list_lookup_middle.
  - exact IH.
Qed.

Lemma copy_loop_lookup from rules : forall m i r, rules !! i = Some r ->
  fst (copy_loop from rules m) !! i =
    Some (match default [] (m !! gr_key r) !! length (List.filter (has_key (gr_key r)) (take i rules)) with Some fi => copy_rule from fi r | None => r end).
Proof.
  induction rules as [|r0 rules IH]; intros m i r Hi; [done|]. cbn [copy_loop].
  destruct i as [|i]; cbn [lookup list_lookup take] in *.
  - simplify_eq. cbn [List.filter length]. destruct (default [] (m !! gr_key r)) as [|fi ids]; cbn [lookup list_lookup].
    + by destruct (copy_loop from rules m).
    + by destruct (copy_loop from rules _).
  - cbn [List.filter]. specialize (IH (match default [] (m !! gr_key r0) with [] => m | _ :: ids => <[gr_key r0 := ids]> m end) i r Hi).
    destruct (default [] (m !! gr_key r0)) as [|fi ids] eqn:E.
    + destruct (copy_loop from rules m) as [rs m'] eqn:El. cbn [fst] in *. match goal with |- (?x :: rs) !! S i = _ => change ((x :: rs) !! S i) with (rs !! i) end. rewrite IH. unfold has_key at 2.
      destruct (str_eqb (gr_key r0) (gr_key r)) eqn:Ek; [|done]. apply str_eqb_eq in Ek. rewrite <-Ek, E. cbn [length]. by rewrite !lookup_nil.
    + destruct (copy_loop from rules _) as [rs m'] eqn:El. cbn [fst] in *. match goal with |- (?x :: rs) !! S i = _ => change ((x :: rs) !! S i) with (rs !! i) end. rewrite IH. unfold has_key at 2.
      destruct (str_eqb (gr_key r0) (gr_key r)) eqn:Ek.
      * apply str_eqb_eq in Ek. rewrite <-Ek, lookup_insert_eq, E. done.
      * apply str_eqb_neq in Ek. by rewrite lookup_insert_ne by done.
Qed.

(** What a rule takes over from its predecessor. *)
Definition take_over (r f : group_rule) : group_rule :=
  mk_group_rule (gr_key r) (match gr_active r, gr_active f with Some a, Some fa => Some (fa ∪ a) | a, _ => a end) (gr_series f).

(** After a reload every rule continues where its predecessor stopped: the
    n-th rule with some name and labels takes over the alerts and the series of
    the n-th old rule with the same name and labels, and rules without a
    predecessor start afresh. *)
Theorem CopyState_matches_rules (g from : group) (i : nat) (r : group_rule) :
  g_rules g !! i = Some r ->
  g_rules (CopyState g from) !! i =
    Some (match List.filter (has_key (gr_key r)) (g_rules from) !! length (List.filter (has_key (gr_key r)) (take i (g_rules g))) with
          | Some f => take_over r f
          | None => r
          end).
Proof.
  intros Hi. unfold CopyState. pose proof (copy_loop_lookup (g_rules from) (g_rules g) (rule_map 0 (g_rules from) ∅) i r Hi) as H.
  destruct (copy_loop _ _ _) as [rs m]. cbn [fst g_rules] in *. rewrite H, rule_map_spec, lookup_empty. cbn [default from_option app].
  pose proof (key_ids_lookup (gr_key r) (g_rules from) (length (List.filter (has_key (gr_key r)) (take i (g_rules g)))) []) as Hk. cbn [length app] in Hk.
  rewrite <-Hk. destruct (key_ids 0 (gr_key r) (g_rules from) !! _) as [fi|]; [|done]. cbn [mbind option_bind]. unfold copy_rule, take_over.
  by destruct (g_rules from !! fi).
Qed.

Definition test_series_map : gmap gostr Labels := {[ [1] := of_list test_metric ]}.
Definition old_group : group := mk_group [mk_group_rule [97] (Some (active pending_rule)) ∅; mk_group_rule [98] None ∅; mk_group_rule [97] (Some ∅) test_series_map] [].

Lemma CopyState_matches_rules_witness :
  g_rules (CopyState (mk_group [mk_group_rule [98] None ∅; mk_group_rule [97] (Some ∅) ∅; mk_group_rule [97] (Some ∅) ∅] []) old_group) !! 2%nat
    = Some (mk_group_rule [97] (Some (∅ ∪ ∅)) test_series_map).
Proof. exact (CopyState_matches_rules (mk_group [mk_group_rule [98] None ∅; mk_group_rule [97] (Some ∅) ∅; mk_group_rule [97] (Some ∅) ∅] []) old_group 2 (mk_group_rule [97] (Some ∅) ∅) eq_refl). Defined.

(** When one of two rules with the same name and labels is removed, the series of
    both become stale series, also those of the one that was matched. *)
Example CopyState_marks_matched_duplicates :
  let from := mk_group [mk_group_rule [97] None test_series_map; mk_group_rule [97] None ∅] [] in
  let g := CopyState (mk_group [mk_group_rule [97] None ∅] []) from in
  map gr_series (g_rules g) = [test_series_map] /\ staleSeries g = [of_list test_metric].
Proof. vm_compute. split; reflexivity. Qed.
