(* ===== verification/Exemplar.v ===== *)
(** tsdb/exemplar.go and model/exemplar: the circular exemplar storage, one ring
    of slots shared by all series, with the slots of a series linked in time
    order.  Its theorems are in ExemplarLog. *)
From S2P Require Import Prelude Float64 Utf8 Labels Matcher.

(** ** model/exemplar *)

Record Exemplar := mk_Exemplar { ex_Labels : Labels; ex_Value : Z; Ts : Z; HasTs : bool }.
Record QueryResult := mk_QueryResult { SeriesLabels : Labels; Exemplars : list Exemplar }.

Definition ExemplarMaxLabelSetLength : nat := 128.

(** Values are float64 bit patterns, compared as floats. *)
Definition value_eq (a b : Z) : bool := SFeqb (f64_of_bits a) (f64_of_bits b).
Definition value_lt (a b : Z) : bool := SFltb (f64_of_bits a) (f64_of_bits b).

Definition Exemplar_Equals (e e2 : Exemplar) : bool :=
  if negb (Labels_Equal (ex_Labels e) (ex_Labels e2)) then false
  else if (HasTs e || HasTs e2) && negb (Ts e =? Ts e2) then false
  else value_eq (ex_Value e) (ex_Value e2).

Definition Exemplar_Compare (a b : Exemplar) : option Z :=
  if Ts a <? Ts b then Some (-1)
  else if Ts b <? Ts a then Some 1
  else if value_lt (ex_Value a) (ex_Value b) then Some (-1)
  else if value_lt (ex_Value b) (ex_Value a) then Some 1
  else Labels_Compare (ex_Labels a) (ex_Labels b).

(** ** The storage *)

Definition noExemplar : Z := -1.

Inductive exemplar_error := ErrExemplarsDisabled | ErrExemplarLabelLength | ErrDuplicateExemplar | ErrOutOfOrderExemplar.

#[global] Instance exemplar_error_eq_dec : EqDecision exemplar_error.
Proof. solve_decision. Defined.

(** An index entry is shared by the index and by the slots of its series: it
    lives in a heap, at an address. *)
Record indexEntry := mk_indexEntry { oldest : Z; newest : Z; seriesLabels : Labels }.

Record circularBufferEntry := mk_circularBufferEntry {
  exemplar : Exemplar;
  next : Z;
  prev : Z;
  ref : option nat
}.

(** The counters and gauges; those of a float64 hold one. *)
Record ExemplarMetrics := mk_ExemplarMetrics {
  exemplarsAppended : Z;
  exemplarsInStorage : Z;
  seriesWithExemplarsInStorage : Z;
  lastExemplarsTs : spec_float;
  maxExemplars : Z;
  outOfOrderExemplars : Z
}.

Record CircularExemplarStorage := mk_CircularExemplarStorage {
  exemplars : list circularBufferEntry;
  nextIndex : Z;
  metrics : ExemplarMetrics;
  oooTimeWindowMillis : Z;
  index : gmap gostr nat;
  heap : gmap nat indexEntry
}.

(** The zero value of a slot. *)
Definition zero_entry : circularBufferEntry := mk_circularBufferEntry (mk_Exemplar (mk_Labels []) 0 0 false) 0 0 None.

Definition NewCircularExemplarStorage (len : Z) (m : ExemplarMetrics) (window : Z) : CircularExemplarStorage :=
  let len := if len <? 0 then 0 else len in
  let window := if window <? 0 then 0 else window in
  mk_CircularExemplarStorage (repeat zero_entry (Z.to_nat len)) 0
    (mk_ExemplarMetrics (exemplarsAppended m) (exemplarsInStorage m) (seriesWithExemplarsInStorage m) (lastExemplarsTs m) len (outOfOrderExemplars m))
    window ∅ ∅.

Definition SetOutOfOrderTimeWindow (d : Z) (ce : CircularExemplarStorage) : CircularExemplarStorage :=
  mk_CircularExemplarStorage (exemplars ce) (nextIndex ce) (metrics ce) d (index ce) (heap ce).

Definition with_exemplars (es : list circularBufferEntry) (ce : CircularExemplarStorage) : CircularExemplarStorage :=
  mk_CircularExemplarStorage es (nextIndex ce) (metrics ce) (oooTimeWindowMillis ce) (index ce) (heap ce).
Definition with_nextIndex (n : Z) (ce : CircularExemplarStorage) : CircularExemplarStorage :=
  mk_CircularExemplarStorage (exemplars ce) n (metrics ce) (oooTimeWindowMillis ce) (index ce) (heap ce).
Definition with_metrics (m : ExemplarMetrics) (ce : CircularExemplarStorage) : CircularExemplarStorage :=
  mk_CircularExemplarStorage (exemplars ce) (nextIndex ce) m (oooTimeWindowMillis ce) (index ce) (heap ce).
Definition with_index (i : gmap gostr nat) (ce : CircularExemplarStorage) : CircularExemplarStorage :=
  mk_CircularExemplarStorage (exemplars ce) (nextIndex ce) (metrics ce) (oooTimeWindowMillis ce) i (heap ce).
Definition with_heap (h : gmap nat indexEntry) (ce : CircularExemplarStorage) : CircularExemplarStorage :=
  mk_CircularExemplarStorage (exemplars ce) (nextIndex ce) (metrics ce) (oooTimeWindowMillis ce) (index ce) h.

(** [ce.exemplars[i]]; an index out of range panics. *)
Definition get (es : list circularBufferEntry) (i : Z) : option circularBufferEntry :=
  if i <? 0 then None else es !! Z.to_nat i.
Definition modify (es : list circularBufferEntry) (i : Z) (f : circularBufferEntry -> circularBufferEntry) : option (list circularBufferEntry) :=
  e ← get es i; Some (<[Z.to_nat i := f e]> es).

Definition slot_next (n : Z) (e : circularBufferEntry) := mk_circularBufferEntry (exemplar e) n (prev e) (ref e).
Definition slot_prev (p : Z) (e : circularBufferEntry) := mk_circularBufferEntry (exemplar e) (next e) p (ref e).
Definition slot_ref (r : option nat) (e : circularBufferEntry) := mk_circularBufferEntry (exemplar e) (next e) (prev e) r.
Definition slot_exemplar (x : Exemplar) (e : circularBufferEntry) := mk_circularBufferEntry x (next e) (prev e) (ref e).

(** Assignments through the pointers: [ce.exemplars[i].f = v] and
    [ref.f = v]. *)
Definition modify_slot (i : Z) (f : circularBufferEntry -> circularBufferEntry) (ce : CircularExemplarStorage) : option CircularExemplarStorage :=
  es ← modify (exemplars ce) i f; Some (with_exemplars es ce).
Definition set_oldest (r : nat) (v : Z) (ce : CircularExemplarStorage) : CircularExemplarStorage :=
  with_heap (alter (fun ie => mk_indexEntry v (newest ie) (seriesLabels ie)) r (heap ce)) ce.
Definition set_newest (r : nat) (v : Z) (ce : CircularExemplarStorage) : CircularExemplarStorage :=
  with_heap (alter (fun ie => mk_indexEntry (oldest ie) v (seriesLabels ie)) r (heap ce)) ce.

(** removeExemplar of the slot at [i]; true if its series has no other. *)
Definition removeExemplar (i : Z) (ce : CircularExemplarStorage) : option (CircularExemplarStorage * bool) :=
  entry ← get (exemplars ce) i;
  match ref entry with
  | None => Some (ce, false)
  | Some r =>
      ce ← (if prev entry =? noExemplar then Some (set_oldest r (next entry) ce) else modify_slot (prev entry) (slot_next (next entry)) ce);
      entry ← get (exemplars ce) i;
      ce ← (if next entry =? noExemplar then Some (set_newest r (prev entry) ce) else modify_slot (next entry) (slot_prev (prev entry)) ce);
      ce ← modify_slot i (slot_ref None) ce;
      ie ← heap ce !! r;
      Some (ce, (oldest ie =? noExemplar) && (newest ie =? noExemplar))
  end.

(** The index is keyed by Labels.Bytes, the data of the label set. *)
Definition removeIndex (r : nat) (ce : CircularExemplarStorage) : option CircularExemplarStorage :=
  ie ← heap ce !! r; Some (with_index (delete (data (seriesLabels ie)) (index ce)) ce).

(** The loop of findInsertionIndex, from slot [i] backwards; a chain has no more
    slots than the ring. *)
Fixpoint insertion_loop (fuel : nat) (es : list circularBufferEntry) (e : Exemplar) (idx : indexEntry) (i : Z) : option Z :=
  if i =? noExemplar then Some (oldest idx)
  else match fuel with
  | O => None
  | S fuel' =>
      current ← get es i;
      if Ts (exemplar current) <=? Ts e then Some i else insertion_loop fuel' es e idx (prev current)
  end.
Definition findInsertionIndex (e : Exemplar) (idx : indexEntry) (ce : CircularExemplarStorage) : option Z :=
  insertion_loop (length (exemplars ce)) (exemplars ce) e idx (newest idx).

Definition f64_millis (ts : Z) : spec_float := f64_div (f64_of_int ts) (f64_of_int 1000).

Definition computeMetrics (ce : CircularExemplarStorage) : option CircularExemplarStorage :=
  let m := metrics ce in
  let set stored last := with_metrics (mk_ExemplarMetrics (exemplarsAppended m) stored (Z.of_nat (size (index ce))) last (maxExemplars m) (outOfOrderExemplars m)) ce in
  match exemplars ce with
  | [] => Some (set 0 (S754_zero false))
  | first :: _ =>
      entry ← get (exemplars ce) (nextIndex ce);
      Some (match ref entry with
            | Some _ => set (Z.of_nat (length (exemplars ce))) (f64_millis (Ts (exemplar entry)))
            | None => set (nextIndex ce) (match ref first with Some _ => f64_millis (Ts (exemplar first)) | None => lastExemplarsTs m end)
            end)
  end.

Definition count_outOfOrder (ce : CircularExemplarStorage) : CircularExemplarStorage :=
  let m := metrics ce in
  with_metrics (mk_ExemplarMetrics (exemplarsAppended m) (exemplarsInStorage m) (seriesWithExemplarsInStorage m) (lastExemplarsTs m) (maxExemplars m) (outOfOrderExemplars m + 1)) ce.
Definition count_appended (ce : CircularExemplarStorage) : CircularExemplarStorage :=
  let m := metrics ce in
  with_metrics (mk_ExemplarMetrics (exemplarsAppended m + 1) (exemplarsInStorage m) (seriesWithExemplarsInStorage m) (lastExemplarsTs m) (maxExemplars m) (outOfOrderExemplars m)) ce.
Definition set_maxExemplars (l : Z) (ce : CircularExemplarStorage) : CircularExemplarStorage :=
  let m := metrics ce in
  with_metrics (mk_ExemplarMetrics (exemplarsAppended m) (exemplarsInStorage m) (seriesWithExemplarsInStorage m) (lastExemplarsTs m) l (outOfOrderExemplars m)) ce.

(** The callback of Validate: the runes of the names and values so far, and
    whether there are too many. *)
Definition count_label (s : nat * bool) (n v : gostr) : loop_step (nat * bool) :=
  let len := (fst s + RuneCountInString n + RuneCountInString v)%nat in
  if (ExemplarMaxLabelSetLength <? len)%nat then Break (len, true) else Continue (len, false).
Definition labels_too_long (ls : Labels) : option bool :=
  r ← for_labels (T := nat * bool) ls (fun s n v _ => count_label s n v) (O, false); Some (snd r).

Section Storage.
(** xxhash, which Labels.Hash applies to the data of a label set. *)
Context (Sum64 : gostr -> Z).

(** The order of two exemplars of a series with the same timestamp, by value
    and hash. *)
Definition ordered_before (e newest : Exemplar) (window : Z) : bool :=
  (Ts e <? Ts newest) && (Ts e <=? i64 (Ts newest - window)) ||
  (Ts e =? Ts newest) && value_lt (ex_Value e) (ex_Value newest) ||
  (Ts e =? Ts newest) && value_eq (ex_Value e) (ex_Value newest) && (Labels_Hash Sum64 (ex_Labels e) <? Labels_Hash Sum64 (ex_Labels newest)).

(** validateExemplar for the index entry at [idx], nil for a new series. *)
Definition validateExemplar (idx : option nat) (e : Exemplar) (appended : bool) (ce : CircularExemplarStorage)
    : option (CircularExemplarStorage * option exemplar_error) :=
  match exemplars ce with
  | [] => Some (ce, Some ErrExemplarsDisabled)
  | _ =>
      long ← labels_too_long (ex_Labels e);
      if (long : bool) then Some (ce, Some ErrExemplarLabelLength)
      else match idx with
      | None => Some (ce, None)
      | Some r =>
          ie ← heap ce !! r;
          newestEntry ← get (exemplars ce) (newest ie);
          let newestExemplar := exemplar newestEntry in
          Some (if Exemplar_Equals newestExemplar e then (ce, Some ErrDuplicateExemplar)
                else if ordered_before e newestExemplar (oooTimeWindowMillis ce)
                then (if appended then count_outOfOrder ce else ce, Some ErrOutOfOrderExemplar)
                else (ce, None))
      end
  end.

Definition ValidateExemplar (l : Labels) (e : Exemplar) (ce : CircularExemplarStorage) : option (CircularExemplarStorage * option exemplar_error) :=
  validateExemplar (index ce !! data l) e false ce.

(** The insertion index for an exemplar between the oldest and the newest of
    its series; [None] if it is not between them. *)
Definition find_between (e : Exemplar) (idx : nat) (ce : CircularExemplarStorage) : option (option Z) :=
  ie ← heap ce !! idx;
  first ← get (exemplars ce) (oldest ie);
  last ← get (exemplars ce) (newest ie);
  if (Ts (exemplar first) <=? Ts e) && (Ts e <? Ts (exemplar last))
  then i ← findInsertionIndex e ie ce; Some (Some i)
  else Some None.

(** "Remove entries if the buffer is full": the new state, whether the series
    still has a list, and the insertion index. *)
Definition make_room (e : Exemplar) (idx : nat) (indexExists : bool) (between : option Z) (ce : CircularExemplarStorage)
    : option (CircularExemplarStorage * bool * option Z) :=
  slot ← get (exemplars ce) (nextIndex ce);
  match ref slot with
  | None => Some (ce, indexExists, between)
  | Some prevRef =>
      '(ce, emptied) ← removeExemplar (nextIndex ce) ce;
      if (emptied : bool) then
        if (prevRef =? idx)%nat then Some (ce, false, between)
        else ce ← removeIndex prevRef ce; Some (ce, indexExists, between)
      else match between with
      | Some insertionIndex =>
          if (insertionIndex =? nextIndex ce) && (prevRef =? idx)%nat then
            ie ← heap ce !! idx;
            i ← findInsertionIndex e ie ce;
            Some (ce, indexExists, Some i)
          else Some (ce, indexExists, between)
      | None => Some (ce, indexExists, between)
      end
  end.

(** The four cases of "We create a new entry in the linked list", for the slot
    at [n]: the first and only one, at the tip, at the tail, and after the slot
    at [insertionIndex]. *)
Definition link_only (idx : nat) (n : Z) (ce : CircularExemplarStorage) : option CircularExemplarStorage :=
  let ce := set_newest idx n (set_oldest idx n ce) in
  ce ← modify_slot n (slot_prev noExemplar) ce;
  modify_slot n (slot_next noExemplar) ce.

Definition link_tip (idx : nat) (n newest : Z) (ce : CircularExemplarStorage) : option CircularExemplarStorage :=
  ce ← modify_slot newest (slot_next n) ce;
  ce ← modify_slot n (slot_prev newest) ce;
  ce ← modify_slot n (slot_next noExemplar) ce;
  Some (set_newest idx n ce).

Definition link_tail (idx : nat) (n oldest : Z) (ce : CircularExemplarStorage) : option CircularExemplarStorage :=
  ce ← modify_slot oldest (slot_prev n) ce;
  ce ← modify_slot n (slot_prev noExemplar) ce;
  ce ← modify_slot n (slot_next oldest) ce;
  Some (set_oldest idx n ce).

Definition link_after (n insertionIndex : Z) (ce : CircularExemplarStorage) : option CircularExemplarStorage :=
  before ← get (exemplars ce) insertionIndex;
  let nextExemplar := next before in
  ce ← modify_slot n (slot_prev insertionIndex) ce;
  ce ← modify_slot n (slot_next nextExemplar) ce;
  ce ← modify_slot insertionIndex (slot_next n) ce;
  if nextExemplar =? noExemplar then Some ce else modify_slot nextExemplar (slot_prev n) ce.

(** The new entry in the slot at nextIndex. The insertion index of an exemplar
    that was not between others is Go's zero. *)
Definition link_entry (e : Exemplar) (idx : nat) (indexExists : bool) (between : option Z) (ce : CircularExemplarStorage) : option CircularExemplarStorage :=
  let n := nextIndex ce in
  ce ← modify_slot n (slot_exemplar e) ce;
  ce ← modify_slot n (slot_ref (Some idx)) ce;
  if negb indexExists then link_only idx n ce
  else
    ie ← heap ce !! idx;
    newestEntry ← get (exemplars ce) (newest ie);
    if Ts (exemplar newestEntry) <=? Ts e then link_tip idx n (newest ie) ce
    else
      oldestEntry ← get (exemplars ce) (oldest ie);
      if Ts e <? Ts (exemplar oldestEntry) then link_tail idx n (oldest ie) ce
      else link_after n (default 0 between) ce.

(** The rest of AddExemplar once the exemplar is accepted. *)
Definition store_entry (e : Exemplar) (idx : nat) (indexExists : bool) (between : option Z) (ce : CircularExemplarStorage) : option CircularExemplarStorage :=
  '(ce, indexExists, between) ← make_room e idx indexExists between ce;
  ce ← link_entry e idx indexExists between ce;
  let ce := with_nextIndex ((nextIndex ce + 1) mod Z.of_nat (length (exemplars ce))) ce in
  computeMetrics (count_appended ce).

Definition AddExemplar (l : Labels) (e : Exemplar) (ce : CircularExemplarStorage) : option (CircularExemplarStorage * option exemplar_error) :=
  match exemplars ce with
  | [] => Some (ce, Some ErrExemplarsDisabled)
  | _ =>
      let idx := index ce !! data l in
      '(ce, err) ← validateExemplar idx e true ce;
      match err with
      | Some ErrDuplicateExemplar => Some (ce, None)
      | Some err => Some (ce, Some err)
      | None =>
          between ← match idx with Some r => find_between e r ce | None => Some None end;
          duplicate ← match between with
                      | Some i => s ← get (exemplars ce) i; Some (Ts (exemplar s) =? Ts e)
                      | None => Some false
                      end;
          if (duplicate : bool) then Some (ce, None)
          else
            let '(ce, r) := match idx with
                            | Some r => (ce, r)
                            | None =>
                                let r := fresh (dom (heap ce)) in
                                (with_index (<[data l := r]> (index ce)) (with_heap (<[r := mk_indexEntry 0 0 l]> (heap ce)) ce), r)
                            end in
            ce ← store_entry e r (bool_decide (is_Some idx)) between ce;
            Some (ce, None)
      end
  end.

(** ** Queries *)

(** The loop of Select over the slots of a series, from entry [e]. *)
Fixpoint select_loop (fuel : nat) (es : list circularBufferEntry) (start end_ : Z) (e : circularBufferEntry) (acc : list Exemplar) : option (list Exemplar) :=
  match fuel with
  | O => None
  | S fuel' =>
      if Ts (exemplar e) <=? end_ then
        let acc := if start <=? Ts (exemplar e) then acc ++ [exemplar e] else acc in
        if next e =? noExemplar then Some acc
        else e ← get es (next e); select_loop fuel' es start end_ e acc
      else Some acc
  end.

Definition matchesSomeMatcherSet (lbls : Labels) (matchers : list (list Matcher)) : option bool :=
  foldr (fun ms rest => b ← matches_all lbls ms; if (b : bool) then Some true else rest) (Some false) matchers.

Definition select_series (ce : CircularExemplarStorage) (start end_ : Z) (matchers : list (list Matcher)) (r : nat) : option (list QueryResult) :=
  idx ← heap ce !! r;
  e ← get (exemplars ce) (oldest idx);
  newestEntry ← get (exemplars ce) (newest idx);
  if (end_ <? Ts (exemplar e)) || (Ts (exemplar newestEntry) <? start) then Some []
  else
    matched ← matchesSomeMatcherSet (seriesLabels idx) matchers;
    if (matched : bool) then
      xs ← select_loop (length (exemplars ce)) (exemplars ce) start end_ e [];
      Some (match xs with [] => [] | _ => [mk_QueryResult (seriesLabels idx) xs] end)
    else Some [].

(** slices.SortFunc by labels.Compare, as an insertion sort (the label sets of
    the results differ, so that every sort gives the same). *)
Fixpoint insert_result (r : QueryResult) (rs : list QueryResult) : option (list QueryResult) :=
  match rs with
  | [] => Some [r]
  | x :: rs' =>
      c ← Labels_Compare (SeriesLabels r) (SeriesLabels x);
      if c <? 0 then Some (r :: rs) else rest ← insert_result r rs'; Some (x :: rest)
  end.
Fixpoint sort_results (rs : list QueryResult) : option (list QueryResult) :=
  match rs with [] => Some [] | r :: rs => sorted ← sort_results rs; insert_result r sorted end.

Definition Select (start end_ : Z) (matchers : list (list Matcher)) (ce : CircularExemplarStorage) : option (list QueryResult) :=
  match exemplars ce with
  | [] => Some []
  | _ =>
      rs ← mapM (select_series ce start end_ matchers) (map snd (map_to_list (index ce)));
      sort_results (concat rs)
  end.

(** IterateExemplars: [f] updates a state and may return an error, which stops
    the iteration; [count] slots are left, [idx] is the next. *)
Fixpoint iterate_loop {T E} (f : T -> Labels -> Exemplar -> T * option E) (ce : CircularExemplarStorage) (count : nat) (idx : Z) (s : T) : option (T * option E) :=
  match count with
  | O => Some (s, None)
  | S count' =>
      let idx' := (idx + 1) mod Z.of_nat (length (exemplars ce)) in
      entry ← get (exemplars ce) idx;
      match ref entry with
      | None => iterate_loop f ce count' idx' s
      | Some r =>
          ie ← heap ce !! r;
          let '(s, err) := f s (seriesLabels ie) (exemplar entry) in
          match err with Some _ => Some (s, err) | None => iterate_loop f ce count' idx' s end
      end
  end.
Definition IterateExemplars {T E} (f : T -> Labels -> Exemplar -> T * option E) (s : T) (ce : CircularExemplarStorage) : option (T * option E) :=
  iterate_loop f ce (length (exemplars ce)) (nextIndex ce) s.

(** ** Resizing *)

Record intRange := mk_intRange { from : Z; to : Z }.
Definition contains (r : intRange) (i : Z) : bool := (from r <=? i) && (i <? to r).

(** [dest] filled up to [n]; copy(dest[n:], src[from:to]) copies what fits. *)
Fixpoint copy_ranges (dest src : list circularBufferEntry) (ranges : list intRange) (n : nat) (offsets : list Z) : option (list circularBufferEntry * nat * list Z) :=
  match ranges with
  | [] => Some (dest, n, offsets)
  | rng :: ranges =>
      if (0 <=? from rng) && (from rng <=? to rng) && (to rng <=? Z.of_nat (length src)) then
        let part := take (length dest - n) (take (Z.to_nat (to rng - from rng)) (drop (Z.to_nat (from rng)) src)) in
        copy_ranges (take n dest ++ part ++ drop (n + length part) dest) src ranges (n + length part) (offsets ++ [Z.of_nat n - from rng])
      else None
  end.

(** [for i, rng := range ranges { if rng.contains(p) { p += offsets[i]; break } }] *)
Fixpoint relocate (ranges : list intRange) (offsets : list Z) (p : Z) : Z :=
  match ranges, offsets with
  | rng :: ranges, o :: offsets => if contains rng p then p + o else relocate ranges offsets p
  | _, _ => p
  end.

Definition relocate_entry (ranges : list intRange) (offsets : list Z) (e : circularBufferEntry) : circularBufferEntry :=
  match ref e with
  | None => e
  | Some _ => slot_next (relocate ranges offsets (next e)) (slot_prev (relocate ranges offsets (prev e)) e)
  end.

Definition relocate_index (ranges : list intRange) (offsets : list Z) (ie : indexEntry) : indexEntry :=
  mk_indexEntry (relocate ranges offsets (oldest ie)) (relocate ranges offsets (newest ie)) (seriesLabels ie).

(** copyExemplarRanges: the filled destination, the heap with the entries of the
    index relocated, the slots copied and the exemplars among them. *)
Definition copyExemplarRanges (idx : gmap gostr nat) (h : gmap nat indexEntry) (dest src : list circularBufferEntry) (ranges : list intRange)
    : option (list circularBufferEntry * gmap nat indexEntry * nat * nat) :=
  '(dest, n, offsets) ← copy_ranges dest src ranges O [];
  let migrated := (n - length (filter (fun e => ref e = None) (take n dest)))%nat in
  let dest := map (relocate_entry ranges offsets) (take n dest) ++ drop n dest in
  let h := foldr (fun r h => alter (relocate_index ranges offsets) r h) h (map snd (map_to_list idx)) in
  Some (dest, h, n, migrated).

Definition grow (l : Z) (ce : CircularExemplarStorage) : option (CircularExemplarStorage * nat) :=
  let oldSize := Z.of_nat (length (exemplars ce)) in
  let newSlice := repeat zero_entry (Z.to_nat l) in
  let ranges := [mk_intRange (nextIndex ce) oldSize; mk_intRange 0 (nextIndex ce)] in
  '(newSlice, h, totalCopied, migrated) ← copyExemplarRanges (index ce) (heap ce) newSlice (exemplars ce) ranges;
  Some (with_exemplars newSlice (with_nextIndex (Z.of_nat totalCopied) (with_heap h ce)), migrated).

(** The loop of shrink that removes [diff] slots from [deleteStart] on. *)
Fixpoint delete_loop (diff : nat) (i deleteStart oldSize : Z) (ce : CircularExemplarStorage) : option CircularExemplarStorage :=
  match diff with
  | O => Some ce
  | S diff' =>
      let idx := (deleteStart + i) mod oldSize in
      entry ← get (exemplars ce) idx;
      '(ce, emptied) ← removeExemplar idx ce;
      ce ← match ref entry with
           | Some r => if (emptied : bool) then removeIndex r ce else Some ce
           | None => Some ce
           end;
      delete_loop diff' (i + 1) deleteStart oldSize ce
  end.

Definition shrink (l : Z) (ce : CircularExemplarStorage) : option (CircularExemplarStorage * nat) :=
  let oldSize := Z.of_nat (length (exemplars ce)) in
  let diff := oldSize - l in
  let deleteStart := nextIndex ce in
  let deleteEnd := (deleteStart + diff) mod oldSize in
  ce ← delete_loop (Z.to_nat diff) 0 deleteStart oldSize ce;
  let newSlice := repeat zero_entry (Z.to_nat l) in
  if deleteStart =? deleteEnd then Some (with_nextIndex 0 (with_exemplars newSlice ce), O)
  else
    let ranges := if deleteStart <? deleteEnd then [mk_intRange deleteEnd oldSize; mk_intRange 0 deleteStart]
                  else [mk_intRange deleteEnd deleteStart] in
    '(newSlice, h, totalCopied, migrated) ← copyExemplarRanges (index ce) (heap ce) newSlice (exemplars ce) ranges;
    Some (with_exemplars newSlice (with_nextIndex (Z.of_nat totalCopied mod l) (with_heap h ce)), migrated).

Definition Resize (l : Z) (ce : CircularExemplarStorage) : option (CircularExemplarStorage * nat) :=
  let l := if l <=? 0 then 0 else l in
  let oldSize := Z.of_nat (length (exemplars ce)) in
  if l =? oldSize then Some (ce, O)
  else
    '(ce, migrated) ← (if oldSize <? l then grow l ce else shrink l ce);
    ce ← computeMetrics ce;
    Some (set_maxExemplars l ce, migrated).

(** ** Sequences of calls *)

Inductive op := OpAdd (l : Labels) (e : Exemplar) | OpResize (l : Z) | OpWindow (d : Z).

Definition op_step (o : op) (ce : CircularExemplarStorage) : option (CircularExemplarStorage * option exemplar_error) :=
  match o with
  | OpAdd l e => AddExemplar l e ce
  | OpResize l => '(ce, _) ← Resize l ce; Some (ce, None)
  | OpWindow d => Some (SetOutOfOrderTimeWindow d ce, None)
  end.
(** The state and the answers after a sequence of calls. *)
Fixpoint run (ops : list op) (ce : CircularExemplarStorage) : option (CircularExemplarStorage * list (option exemplar_error)) :=
  match ops with
  | [] => Some (ce, [])
  | o :: ops => '(ce, err) ← op_step o ce; '(ce, errs) ← run ops ce; Some (ce, err :: errs)
  end.
End Storage.
