(* ===== verification/ExemplarLog.v ===== *)
(** The exemplar storage keeps the log of the last exemplars it accepted: the
    theorems about tsdb/exemplar.go.  A series' slots are the log's items of the
    series, sorted by time; adding, evicting and resizing act on the log's
    ends. *)
From stdpp Require Import sorting.
From S2P Require Import Prelude Labels Matcher Utf8 Exemplar.

(** ** The log of accepted exemplars *)

Record ExLog := mk_ExLog { capacity : nat; window : Z; items : list (Labels * Exemplar) }.

(** Stable sorting by a key: a new element goes after those not larger. *)
Fixpoint insert_by {A} (key : A -> Z) (x : A) (ys : list A) : list A :=
  match ys with
  | [] => [x]
  | y :: ys' => if key x <? key y then x :: ys else y :: insert_by key x ys'
  end.
Definition sort_by {A} (key : A -> Z) (xs : list A) : list A := foldl (fun acc x => insert_by key x acc) [] xs.

Section Specification.
Context (Sum64 : gostr -> Z).

(** The exemplars of a series in time order, those of a time in the order they
    came. *)
Definition series_log (l : Labels) (lg : ExLog) : list Exemplar := sort_by Ts (map snd (filter (fun it => fst it = l) (items lg))).

Definition rune_sum (ls : list Label) : nat := sum_list (map (fun l => RuneCountInString (Name l) + RuneCountInString (Value l))%nat ls).
Definition too_long (ls : Labels) : bool :=
  match Labels_Range ls with Some l => (ExemplarMaxLabelSetLength <? rune_sum l)%nat | None => false end.

(** Forget the oldest items until there are no more than [n]. *)
Definition keep_last {A} (n : nat) (xs : list A) : list A := drop (length xs - n) xs.

Definition log_accept (l : Labels) (e : Exemplar) (lg : ExLog) : ExLog := mk_ExLog (capacity lg) (window lg) (keep_last (capacity lg) (items lg ++ [(l, e)])).

(** Whether an exemplar is refused, or the newest one of its series. *)
Definition log_validate (l : Labels) (e : Exemplar) (lg : ExLog) : option exemplar_error :=
  if (capacity lg =? 0)%nat then Some ErrExemplarsDisabled
  else if too_long (ex_Labels e) then Some ErrExemplarLabelLength
  else match last (series_log l lg) with
  | None => None
  | Some newest =>
      if Exemplar_Equals newest e then Some ErrDuplicateExemplar
      else if ordered_before Sum64 e newest (window lg) then Some ErrOutOfOrderExemplar
      else None
  end.

(** Whether the series has an exemplar of the same time, and a later one. *)
Definition past_duplicate (l : Labels) (e : Exemplar) (lg : ExLog) : bool :=
  match last (series_log l lg) with
  | Some newest => (Ts e <? Ts newest) && existsb (fun x => Ts x =? Ts e) (series_log l lg)
  | None => false
  end.

(** What adding an exemplar does: refuse it, ignore it as a duplicate of the
    newest one or of a past time, or accept it. *)
Definition log_add (l : Labels) (e : Exemplar) (lg : ExLog) : ExLog * option exemplar_error :=
  match log_validate l e lg with
  | Some ErrDuplicateExemplar => (lg, None)
  | Some err => (lg, Some err)
  | None => if past_duplicate l e lg then (lg, None) else (log_accept l e lg, None)
  end.

Definition log_resize (l : Z) (lg : ExLog) : ExLog := mk_ExLog (Z.to_nat l) (window lg) (keep_last (Z.to_nat l) (items lg)).
Definition log_window (d : Z) (lg : ExLog) : ExLog := mk_ExLog (capacity lg) d (items lg).

Definition log_step (o : op) (lg : ExLog) : ExLog * option exemplar_error :=
  match o with
  | OpAdd l e => log_add l e lg
  | OpResize l => (log_resize l lg, None)
  | OpWindow d => (log_window d lg, None)
  end.

Fixpoint log_run (ops : list op) (lg : ExLog) : ExLog * list (option exemplar_error) :=
  match ops with
  | [] => (lg, [])
  | o :: ops => let '(lg, err) := log_step o lg in let '(lg, errs) := log_run ops lg in (lg, err :: errs)
  end.
End Specification.

(** ** Stable sorting *)

Section Sorting.
Context {A : Type} (key : A -> Z).
Let le (x y : A) : Prop := key x <= key y.

Lemma sort_by_snoc xs x : sort_by key (xs ++ [x]) = insert_by key x (sort_by key xs).
Proof. unfold sort_by. by rewrite foldl_app. Qed.

(** Inserting splits the list into what is not larger and what is larger. *)
Lemma insert_by_split x ys : StronglySorted le ys ->
  exists P Q, ys = P ++ Q /\ insert_by key x ys = P ++ x :: Q /\ Forall (fun y => key y <= key x) P /\ Forall (fun y => key x < key y) Q.
Proof.
  induction 1 as [|y ys Hs IH Hle]; [by exists [], []|]. cbn. destruct (Z.ltb_spec (key x) (key y)) as [Hlt|Hge].
  - exists [], (y :: ys). split_and!; [done|done|done|]. constructor; [done|]. eapply Forall_impl; [exact Hle|]. intros z. unfold le. cbn. lia.
  - destruct IH as (P & Q & -> & -> & HP & HQ). exists (y :: P), Q. split_and!; [done|done| |done]. by constructor.
Qed.

Lemma insert_by_at x P Q : Forall (fun y => key y <= key x) P -> Forall (fun y => key x < key y) Q -> insert_by key x (P ++ Q) = P ++ x :: Q.
Proof.
  intros HP HQ. induction HP as [|y P Hy _ IH]; cbn.
  - destruct Q as [|z Q]; [done|]. apply Forall_cons in HQ as [Hz _]. cbn. by rewrite (proj2 (Z.ltb_lt _ _) Hz).
  - rewrite (proj2 (Z.ltb_ge _ _) Hy). by rewrite IH.
Qed.

Lemma insert_by_perm x ys : insert_by key x ys ≡ₚ x :: ys.
Proof. induction ys as [|y ys IH]; [done|]. cbn. destruct (key x <? key y); [done|]. rewrite IH. apply Permutation_swap. Qed.

Lemma sort_by_perm xs : sort_by key xs ≡ₚ xs.
Proof.
  induction xs as [|x xs IH] using rev_ind; [done|]. rewrite sort_by_snoc, insert_by_perm, IH. by rewrite Permutation_app_comm.
Qed.

Lemma elem_of_sort_by x xs : x ∈ sort_by key xs <-> x ∈ xs.
Proof. by rewrite sort_by_perm. Qed.

Lemma sort_by_nil xs : sort_by key xs = [] <-> xs = [].
Proof. split; [|by intros ->]. intros E. apply Permutation_nil. by rewrite <-E, sort_by_perm. Qed.

Lemma sort_by_sorted xs : StronglySorted le (sort_by key xs).
Proof.
  induction xs as [|x xs IH] using rev_ind; [constructor|]. rewrite sort_by_snoc.
  destruct (insert_by_split x _ IH) as (P & Q & E & -> & HP & HQ). rewrite E in IH. apply StronglySorted_app in IH as (Hpq & HsP & HsQ).
  apply StronglySorted_app_2; [|done|].
  - intros y z Hy [ -> |Hz]%elem_of_cons; [rewrite Forall_forall in HP; by apply HP|by apply Hpq].
  - constructor; [done|]. eapply Forall_impl; [exact HQ|]. intros z. unfold le. cbn. lia.
Qed.

Lemma filter_insert_by (P : A -> Prop) `{!∀ x, Decision (P x)} x ys : StronglySorted le ys ->
  filter P (insert_by key x ys) = if decide (P x) then insert_by key x (filter P ys) else filter P ys.
Proof.
  intros Hs. destruct (insert_by_split x ys Hs) as (Q & R & -> & -> & HQ & HR). rewrite !filter_app, filter_cons.
  destruct (decide (P x)); [|done]. symmetry. apply insert_by_at; apply Forall_forall; intros y [_ Hy]%list_elem_of_filter.
  - rewrite Forall_forall in HQ. by apply HQ.
  - rewrite Forall_forall in HR. by apply HR.
Qed.

(** Sorting commutes with dropping elements. *)
Lemma filter_sort_by (P : A -> Prop) `{!∀ x, Decision (P x)} xs : filter P (sort_by key xs) = sort_by key (filter P xs).
Proof.
  induction xs as [|x xs IH] using rev_ind; [done|]. rewrite sort_by_snoc, filter_insert_by by apply sort_by_sorted.
  rewrite filter_app, filter_cons, filter_nil, IH. destruct (decide (P x)); [by rewrite sort_by_snoc|by rewrite app_nil_r].
Qed.
End Sorting.

Lemma insert_by_ext {A} (key key' : A -> Z) x ys : key x = key' x -> (forall y, y ∈ ys -> key y = key' y) -> insert_by key x ys = insert_by key' x ys.
Proof.
  intros Hx. induction ys as [|y ys IH]; intros Hy; [done|]. cbn. rewrite Hx, (Hy y) by left. by rewrite IH by (intros z Hz; apply Hy; by right).
Qed.

Lemma sort_by_ext {A} (key key' : A -> Z) xs : (forall x, x ∈ xs -> key x = key' x) -> sort_by key xs = sort_by key' xs.
Proof.
  induction xs as [|x xs IH] using rev_ind; intros H; [done|]. rewrite !sort_by_snoc, IH by (intros y Hy; apply H; set_solver).
  apply insert_by_ext; [apply H; set_solver|]. intros y Hy%elem_of_sort_by. apply H. set_solver.
Qed.

(** Sorting commutes with mapping. *)
Lemma map_sort_by {A B} (f : A -> B) (key : B -> Z) xs : map f (sort_by (fun x => key (f x)) xs) = sort_by key (map f xs).
Proof.
  induction xs as [|x xs IH] using rev_ind; [done|]. rewrite map_app. cbn [map]. rewrite !sort_by_snoc, <-IH.
  generalize (sort_by (fun x => key (f x)) xs). intros ys. induction ys as [|y ys IHy]; [done|]. cbn.
  destruct (key (f x) <? key (f y)); [done|]. cbn. by rewrite IHy.
Qed.

Lemma Forall2_impl_elem {A B} (P Q : A -> B -> Prop) xs ys : Forall2 P xs ys -> (forall x y, x ∈ xs -> P x y -> Q x y) -> Forall2 Q xs ys.
Proof. induction 1 as [|x y xs ys Hxy _ IH]; intros H; constructor; [apply H; [left|done]|]. apply IH. intros x' y' Hx. apply H. by right. Qed.

(** ** The ring and its slots *)

(** The positions of a ring of [len] slots, from [n] on. *)
Definition ring (n len : nat) : list nat := seq n (len - n) ++ seq 0 n.

Lemma elem_of_ring n len x : (n <= len)%nat -> x ∈ ring n len <-> (x < len)%nat.
Proof. intros H. unfold ring. rewrite elem_of_app, !elem_of_seq. lia. Qed.

Lemma NoDup_ring n len : NoDup (ring n len).
Proof.
  unfold ring. apply NoDup_app. split_and!; [apply NoDup_seq|intros x; rewrite !elem_of_seq; lia|apply NoDup_seq].
Qed.

Lemma length_ring n len : (n <= len)%nat -> length (ring n len) = len.
Proof. intros H. unfold ring. rewrite length_app, !length_seq. lia. Qed.

(** Advancing by one moves the first position to the end. *)
Lemma ring_advance n len : (n < len)%nat -> exists r, ring n len = n :: r /\ ring (S n mod len) len = r ++ [n].
Proof.
  intros H. unfold ring. replace (len - n)%nat with (S (len - S n)) by lia. cbn [seq app]. eexists. split; [done|].
  rewrite <-app_assoc. change ([n]) with (seq (0 + n) 1). rewrite <-seq_app. destruct (decide (S n = len)) as [E|E].
  - rewrite E, Nat.Div0.mod_same, Nat.sub_diag, Nat.sub_0_r. cbn [seq app]. rewrite app_nil_r. f_equal. lia.
  - rewrite Nat.mod_small by lia. f_equal. f_equal. lia.
Qed.

Lemma ring_lookup n len i : (n <= len)%nat -> (i < len)%nat -> ring n len !! i = Some ((n + i) mod len)%nat.
Proof.
  intros Hn Hi. unfold ring. destruct (decide (i < len - n)%nat) as [H|H].
  - rewrite lookup_app_l by (rewrite length_seq; lia). rewrite lookup_seq_lt by lia. f_equal. rewrite Nat.mod_small; lia.
  - rewrite lookup_app_r by (rewrite length_seq; lia). rewrite length_seq, lookup_seq_lt by lia. f_equal.
    replace (n + i)%nat with ((i - (len - n)) + 1 * len)%nat by lia. rewrite Nat.Div0.mod_add, Nat.mod_small by lia. lia.
Qed.

Definition slot (es : list circularBufferEntry) (x : nat) : circularBufferEntry := nth x es zero_entry.
#[local] Arguments slot es x : simpl never.

Lemma slot_lookup es x : (x < length es)%nat -> es !! x = Some (slot es x).
Proof. intros H. unfold slot. rewrite nth_lookup. destruct (es !! x) eqn:E; [done|]. apply lookup_ge_None in E. lia. Qed.

Lemma get_slot es x : (x < length es)%nat -> get es (Z.of_nat x) = Some (slot es x).
Proof. intros H. unfold get. rewrite (proj2 (Z.ltb_ge _ 0)) by lia. rewrite Nat2Z.id. by apply slot_lookup. Qed.

Lemma slot_insert es x e y : (x < length es)%nat -> slot (<[x := e]> es) y = if decide (y = x) then e else slot es y.
Proof.
  intros H. unfold slot. rewrite !nth_lookup. destruct (decide (y = x)) as [->|Hne].
  - by rewrite list_lookup_insert_eq.
  - by rewrite list_lookup_insert_ne.
Qed.

Lemma modify_slot_eq es x f : (x < length es)%nat -> modify es (Z.of_nat x) f = Some (<[x := f (slot es x)]> es).
Proof. intros H. unfold modify. rewrite get_slot by done. cbn. by rewrite Nat2Z.id. Qed.

(** ** Chains

    [chain pv nx p L q]: the slots of [L], in this order, are linked to each
    other, the first back to [p], the last on to [q]. *)

Definition hd_or (q : Z) (L : list nat) : Z := match L with [] => q | x :: _ => Z.of_nat x end.
Definition last_or (p : Z) (L : list nat) : Z := match last L with None => p | Some x => Z.of_nat x end.

Fixpoint chain (pv nx : nat -> Z) (p : Z) (L : list nat) (q : Z) : Prop :=
  match L with
  | [] => True
  | x :: L' => pv x = p /\ nx x = hd_or q L' /\ chain pv nx (Z.of_nat x) L' q
  end.

Lemma last_or_cons p x L : last_or p (x :: L) = last_or (Z.of_nat x) L.
Proof. unfold last_or. rewrite last_cons. by destruct (last L). Qed.
Lemma last_or_app p A B : last_or p (A ++ B) = last_or (last_or p A) B.
Proof. unfold last_or. rewrite last_app. by destruct (last B). Qed.
Lemma hd_or_app q A B : hd_or q (A ++ B) = hd_or (hd_or q B) A.
Proof. by destruct A. Qed.
Lemma last_or_nil p : last_or p [] = p.
Proof. done. Qed.
Create Rewrite HintDb ends.
#[local] Hint Rewrite last_or_nil last_or_cons last_or_app hd_or_app : ends.

Lemma chain_app pv nx A B : forall p q, chain pv nx p (A ++ B) q <-> chain pv nx p A (hd_or q B) /\ chain pv nx (last_or p A) B q.
Proof.
  induction A as [|x A IH]; intros p q; cbn [app chain].
  - split; [by intros H; split|by intros [_ H]].
  - rewrite IH, last_or_cons, hd_or_app. tauto.
Qed.

Lemma chain_ext pv nx pv' nx' L : (forall x, x ∈ L -> pv' x = pv x /\ nx' x = nx x) -> forall p q, chain pv nx p L q -> chain pv' nx' p L q.
Proof.
  induction L as [|x L IH]; intros H p q; [done|]. cbn. intros (Hp & Hn & Hc). destruct (H x ltac:(left)) as [-> ->].
  split_and!; [done|done|]. apply IH; [|done]. intros y Hy. apply H. by right.
Qed.

Lemma chain_next_last pv nx A B p q a : chain pv nx p (A ++ B) q -> last A = Some a -> nx a = hd_or q B.
Proof.
  intros Hc Ha. destruct A as [|x A _] using rev_ind; [done|]. rewrite last_snoc in Ha. simplify_eq. rewrite <-app_assoc in Hc.
  apply chain_app in Hc as [_ Hc]. by destruct Hc as (_ & -> & _).
Qed.

(** Changing what the last slot points to, or the first one back to. *)
Lemma chain_last pv nx pv' nx' q' L : (forall x, x ∈ L -> pv' x = pv x /\ nx' x = if decide (last L = Some x) then q' else nx x) ->
  NoDup L -> forall p q, chain pv nx p L q -> chain pv' nx' p L q'.
Proof.
  induction L as [|x L IH]; intros H Hnd p q; [done|]. cbn. intros (Hp & Hn & Hc). apply NoDup_cons in Hnd as [Hx Hnd].
  destruct (H x ltac:(left)) as [-> Hnx]. split_and!; [done| |].
  - rewrite Hnx. destruct L as [|y L]; [by rewrite decide_True|]. rewrite decide_False; [done|]. rewrite last_cons_cons. intros E%last_Some_elem_of. done.
  - eapply IH; [|done|done]. intros y Hy. destruct (H y ltac:(by right)) as [? ->]. split; [done|].
    destruct L as [|z L]; [by apply elem_of_nil in Hy|]. by rewrite last_cons_cons.
Qed.

Lemma chain_first pv nx pv' nx' p' L : (forall x, x ∈ L -> nx' x = nx x /\ pv' x = if decide (head L = Some x) then p' else pv x) ->
  NoDup L -> forall p q, chain pv nx p L q -> chain pv' nx' p' L q.
Proof.
  destruct L as [|x L]; intros H Hnd p q; [done|]. cbn. intros (Hp & Hn & Hc). destruct (H x ltac:(left)) as [Hnx Hpv].
  rewrite decide_True in Hpv by done. split_and!; [done|by rewrite Hnx|]. eapply chain_ext; [|done].
  intros y Hy. destruct (H y ltac:(by right)) as [? ->]. rewrite decide_False; [done|]. intros [= ->]. by apply NoDup_cons in Hnd as [? ?].
Qed.

(** Linking a slot between two parts of a chain, and unlinking it. *)
Lemma chain_insert pv nx pv' nx' A B n p q :
  NoDup (A ++ n :: B) -> chain pv nx p (A ++ B) q -> pv' n = last_or p A -> nx' n = hd_or q B ->
  (forall x, x ∈ A -> pv' x = pv x /\ nx' x = if decide (last A = Some x) then Z.of_nat n else nx x) ->
  (forall x, x ∈ B -> nx' x = nx x /\ pv' x = if decide (head B = Some x) then Z.of_nat n else pv x) ->
  chain pv' nx' p (A ++ n :: B) q.
Proof.
  intros (HA & _ & [_ HB]%NoDup_cons)%NoDup_app Hc Hp Hn HAs HBs. apply chain_app in Hc as [HcA HcB]. apply chain_app. cbn. split_and!.
  - by eapply chain_last.
  - done.
  - done.
  - by eapply chain_first.
Qed.

Lemma chain_remove pv nx pv' nx' A B n p q :
  NoDup (A ++ n :: B) -> chain pv nx p (A ++ n :: B) q ->
  (forall x, x ∈ A -> pv' x = pv x /\ nx' x = if decide (last A = Some x) then hd_or q B else nx x) ->
  (forall x, x ∈ B -> nx' x = nx x /\ pv' x = if decide (head B = Some x) then last_or p A else pv x) ->
  chain pv' nx' p (A ++ B) q.
Proof.
  intros (HA & _ & [_ HB]%NoDup_cons)%NoDup_app Hc HAs HBs. apply chain_app in Hc as [HcA HcB]. cbn in HcB. destruct HcB as (_ & _ & HcB). apply chain_app. split.
  - by eapply chain_last.
  - by eapply chain_first.
Qed.

(** Moving a chain: [rel] renumbers the pointers as [g] does the slots. *)
Lemma chain_map pv nx pv' nx' g rel L :
  (forall i, i ∈ L -> pv' i = rel (pv (g i)) /\ nx' i = rel (nx (g i)) /\ rel (Z.of_nat (g i)) = Z.of_nat i) ->
  forall p q, chain pv nx p (map g L) q -> chain pv' nx' (rel p) L (rel q).
Proof.
  induction L as [|x L IH]; intros H p q; [done|]. cbn. intros (Hp & Hn & Hc). destruct (H x ltac:(left)) as (-> & -> & E). split_and!.
  - by rewrite Hp.
  - rewrite Hn. destruct L as [|y L]; [done|]. apply H. right. left.
  - rewrite <-E. apply IH; [|done]. intros i Hi. apply H. by right.
Qed.

(** ** The invariant *)

Definition time (es : list circularBufferEntry) (x : nat) : Z := Ts (exemplar (slot es x)).
Definition owned (es : list circularBufferEntry) (r : nat) (x : nat) : Prop := ref (slot es x) = Some r.
#[local] Instance owned_dec es r x : Decision (owned es r x).
Proof. unfold owned. apply _. Defined.

(** The slots of an index entry in time order, among those in use. *)
Definition slots_of (es : list circularBufferEntry) (pos : list nat) (r : nat) : list nat := sort_by (time es) (filter (owned es r) pos).

Definition linked (es : list circularBufferEntry) (L : list nat) : Prop :=
  chain (fun x => prev (slot es x)) (fun x => next (slot es x)) noExemplar L noExemplar.

Definition entry_ok (es : list circularBufferEntry) (ie : indexEntry) (L : list nat) : Prop :=
  oldest ie = hd_or noExemplar L /\ newest ie = last_or noExemplar L /\ linked es L.

Definition item_ok (ce : CircularExemplarStorage) (x : nat) (it : Labels * Exemplar) : Prop :=
  exists r, ref (slot (exemplars ce) x) = Some r /\ exemplar (slot (exemplars ce) x) = snd it /\ index ce !! data (fst it) = Some r.

(** From nextIndex on, the ring has unused slots [E] and then the slots [pos] of
    the items, oldest first.  Every index entry is the chain of its slots in
    time order; the entries in [holes] may have none. *)
Record rep_at (holes : gset nat) (ce : CircularExemplarStorage) (E pos : list nat) (its : list (Labels * Exemplar)) : Prop := {
  rep_next : 0 <= nextIndex ce /\ (Z.to_nat (nextIndex ce) <= length (exemplars ce))%nat /\ (exemplars ce <> [] -> nextIndex ce < Z.of_nat (length (exemplars ce)));
  rep_ring : ring (Z.to_nat (nextIndex ce)) (length (exemplars ce)) = E ++ pos;
  rep_empty : Forall (fun x => ref (slot (exemplars ce) x) = None) E;
  rep_items : Forall2 (item_ok ce) pos its;
  rep_index : forall k r, index ce !! k = Some r -> exists ie, heap ce !! r = Some ie /\ data (seriesLabels ie) = k /\
    (let L := slots_of (exemplars ce) pos r in (L = [] /\ r ∈ holes) \/ (L <> [] /\ entry_ok (exemplars ce) ie L))
}.

Section Facts.
Context {holes : gset nat} {ce : CircularExemplarStorage} {E pos : list nat} {its : list (Labels * Exemplar)} (R : rep_at holes ce E pos its).

Lemma rep_NoDup : NoDup (E ++ pos).
Proof. rewrite <-(rep_ring _ _ _ _ _ R). apply NoDup_ring. Qed.

Lemma rep_bound x : x ∈ E ++ pos <-> (x < length (exemplars ce))%nat.
Proof. rewrite <-(rep_ring _ _ _ _ _ R). apply elem_of_ring, R. Qed.

Lemma slots_of_sub r x : x ∈ slots_of (exemplars ce) pos r -> x ∈ pos /\ ref (slot (exemplars ce) x) = Some r /\ (x < length (exemplars ce))%nat.
Proof. unfold slots_of. rewrite elem_of_sort_by, list_elem_of_filter. intros [Ho Hx]. split_and!; [done|exact Ho|]. apply rep_bound. set_solver. Qed.

Lemma slots_of_NoDup r : NoDup (slots_of (exemplars ce) pos r).
Proof. unfold slots_of. rewrite sort_by_perm. apply NoDup_filter. pose proof rep_NoDup as H. by apply NoDup_app in H as (_ & _ & H). Qed.

Lemma slots_of_length r : (length (slots_of (exemplars ce) pos r) <= length (exemplars ce))%nat.
Proof.
  assert (H : length (ring (Z.to_nat (nextIndex ce)) (length (exemplars ce))) = length (exemplars ce)) by (apply length_ring, R).
  rewrite (rep_ring _ _ _ _ _ R), length_app in H. unfold slots_of. rewrite sort_by_perm. pose proof (length_filter (owned (exemplars ce) r) pos). lia.
Qed.

Lemma index_inj k k' r : index ce !! k = Some r -> index ce !! k' = Some r -> k = k'.
Proof. intros (ie & H1 & <- & _)%(rep_index _ _ _ _ _ R) (ie' & H2 & <- & _)%(rep_index _ _ _ _ _ R). congruence. Qed.

(** An item belongs to the index entry of its labels. *)
Lemma item_owner l r x it : index ce !! data l = Some r -> item_ok ce x it -> owned (exemplars ce) r x <-> fst it = l.
Proof.
  intros Hl (r' & Hr' & _ & Hi). unfold owned. rewrite Hr'. split; intros H.
  - simplify_eq. pose proof (index_inj _ _ _ Hl Hi) as Hd. destruct l, (fst it); cbn in *; congruence.
  - subst l. congruence.
Qed.

(** The chain of a series holds the log's items of the series, in time order. *)
Lemma slots_values l r : index ce !! data l = Some r ->
  map (fun x => exemplar (slot (exemplars ce) x)) (slots_of (exemplars ce) pos r) = sort_by Ts (map snd (filter (fun it => fst it = l) its)).
Proof.
  intros Hl. unfold slots_of. rewrite (map_sort_by (fun x => exemplar (slot (exemplars ce) x)) Ts). f_equal.
  assert (Hown : forall x it, item_ok ce x it -> owned (exemplars ce) r x <-> fst it = l) by (intros; by apply item_owner).
  pose proof (rep_items _ _ _ _ _ R) as Hits. clear R. induction Hits as [|x it p its' Hx Hits IH]; [done|]. rewrite !filter_cons.
  pose proof (Hown x it Hx) as Ho. destruct (decide (owned _ r x)), (decide (fst it = l)); try tauto. cbn. rewrite IH.
  by destruct Hx as (? & _ & -> & _).
Qed.

End Facts.

(** ** Removing the oldest item *)

Lemma modify_slot_at x f ce : (x < length (exemplars ce))%nat ->
  modify_slot (Z.of_nat x) f ce = Some (with_exemplars (<[x := f (slot (exemplars ce) x)]> (exemplars ce)) ce).
Proof. intros H. unfold modify_slot. by rewrite modify_slot_eq. Qed.

Lemma of_nat_noExemplar x : (Z.of_nat x =? noExemplar) = false.
Proof. apply Z.eqb_neq. unfold noExemplar. lia. Qed.

(** What removing slot [p], between the parts [A] and [B] of its chain, changes. *)
Record removed (ce ce' : CircularExemplarStorage) (r p : nat) (A B : list nat) : Prop := {
  rm_same : nextIndex ce' = nextIndex ce /\ metrics ce' = metrics ce /\ oooTimeWindowMillis ce' = oooTimeWindowMillis ce /\ index ce' = index ce;
  rm_length : length (exemplars ce') = length (exemplars ce);
  rm_ref : forall x, ref (slot (exemplars ce') x) = if decide (x = p) then None else ref (slot (exemplars ce) x);
  rm_exemplar : forall x, exemplar (slot (exemplars ce') x) = exemplar (slot (exemplars ce) x);
  rm_next : forall x, x <> p -> next (slot (exemplars ce') x) = if decide (last A = Some x) then hd_or noExemplar B else next (slot (exemplars ce) x);
  rm_prev : forall x, x <> p -> prev (slot (exemplars ce') x) = if decide (head B = Some x) then last_or noExemplar A else prev (slot (exemplars ce) x);
  rm_heap : exists ie, heap ce !! r = Some ie /\ heap ce' = <[r := mk_indexEntry (hd_or noExemplar (A ++ B)) (last_or noExemplar (A ++ B)) (seriesLabels ie)]> (heap ce)
}.

Definition same_but_slots (ce ce' : CircularExemplarStorage) : Prop :=
  nextIndex ce' = nextIndex ce /\ metrics ce' = metrics ce /\ oooTimeWindowMillis ce' = oooTimeWindowMillis ce /\
  index ce' = index ce /\ length (exemplars ce') = length (exemplars ce).

(** [ref.oldest = v] if there is nothing before, else the slot before gets the
    next pointer [v]; and the other way round. *)
Lemma point_next r A v ce : Forall (fun x => (x < length (exemplars ce))%nat) A ->
  exists ce', (if last_or noExemplar A =? noExemplar then Some (set_oldest r v ce) else modify_slot (last_or noExemplar A) (slot_next v) ce) = Some ce' /\
    same_but_slots ce ce' /\
    heap ce' = (match A with [] => alter (fun ie => mk_indexEntry v (newest ie) (seriesLabels ie)) r | _ => id end) (heap ce) /\
    forall x, slot (exemplars ce') x = if decide (last A = Some x) then slot_next v (slot (exemplars ce) x) else slot (exemplars ce) x.
Proof.
  intros Hb. destruct A as [|a A _] using rev_ind; autorewrite with ends.
  - rewrite Z.eqb_refl. by eexists.
  - apply Forall_app in Hb as [_ [Ha _]%Forall_cons]. rewrite of_nat_noExemplar, modify_slot_at by done. eexists. split; [done|]. split_and!.
    + unfold same_but_slots. cbn. by rewrite length_insert.
    + by destruct A.
    + intros x. cbn. rewrite last_snoc, slot_insert by done. destruct (decide (x = a)) as [->|Hne]; [by rewrite decide_True|].
      rewrite decide_False; [done|]. congruence.
Qed.

Lemma point_prev r B v ce : Forall (fun x => (x < length (exemplars ce))%nat) B ->
  exists ce', (if hd_or noExemplar B =? noExemplar then Some (set_newest r v ce) else modify_slot (hd_or noExemplar B) (slot_prev v) ce) = Some ce' /\
    same_but_slots ce ce' /\
    heap ce' = (match B with [] => alter (fun ie => mk_indexEntry (oldest ie) v (seriesLabels ie)) r | _ => id end) (heap ce) /\
    forall x, slot (exemplars ce') x = if decide (head B = Some x) then slot_prev v (slot (exemplars ce) x) else slot (exemplars ce) x.
Proof.
  intros Hb. destruct B as [|b B]; cbn [hd_or].
  - rewrite Z.eqb_refl. by eexists.
  - apply Forall_cons in Hb as [Hb _]. rewrite of_nat_noExemplar, modify_slot_at by done. eexists. split; [done|]. split_and!.
    + unfold same_but_slots. cbn. by rewrite length_insert.
    + done.
    + intros x. cbn. rewrite slot_insert by done. destruct (decide (x = b)) as [->|Hne]; [by rewrite decide_True|].
      rewrite decide_False; [done|]. congruence.
Qed.

Lemma ends_noExemplar (L : list nat) : (hd_or noExemplar L =? noExemplar) = bool_decide (L = []) /\ (last_or noExemplar L =? noExemplar) = bool_decide (L = []).
Proof.
  split.
  - destruct L; [done|]. apply of_nat_noExemplar.
  - destruct L as [|x L _] using rev_ind; [done|]. autorewrite with ends. rewrite of_nat_noExemplar, bool_decide_false; [done|]. by destruct L.
Qed.

Lemma removeExemplar_removed ce r p A B ie :
  Forall (fun x => (x < length (exemplars ce))%nat) (A ++ p :: B) -> NoDup (A ++ p :: B) ->
  ref (slot (exemplars ce) p) = Some r -> heap ce !! r = Some ie -> entry_ok (exemplars ce) ie (A ++ p :: B) ->
  exists ce', removeExemplar (Z.of_nat p) ce = Some (ce', bool_decide (A ++ B = [])) /\ removed ce ce' r p A B.
Proof.
  intros Hb Hnd Hr Hie (Ho & Hn & Hc). apply chain_app in Hc as [_ Hc]. cbn in Hc. destruct Hc as (Hp & Hx & _).
  apply Forall_app in Hb as [HbA [Hbp HbB]%Forall_cons]. apply NoDup_app in Hnd as (_ & Hdis & [HpB _]%NoDup_cons).
  assert (HAp : last A <> Some p) by (intros H%last_Some_elem_of; apply (Hdis p H); left).
  assert (HBp : head B <> Some p) by (intros H%head_Some_elem_of; done).
  unfold removeExemplar. rewrite get_slot by done. cbn [mbind option_bind]. rewrite Hr, Hp, Hx.
  destruct (point_next r A (hd_or noExemplar B) ce HbA) as (ce1 & -> & (H1 & H2 & H3 & H4 & H5) & Hh1 & Hs1). cbn [mbind option_bind].
  rewrite get_slot, Hs1, decide_False by (by rewrite ?H5). cbn [mbind option_bind]. rewrite Hp, Hx.
  destruct (point_prev r B (last_or noExemplar A) ce1) as (ce2 & -> & (G1 & G2 & G3 & G4 & G5) & Hh2 & Hs2); [by rewrite H5|]. cbn [mbind option_bind].
  rewrite modify_slot_at by (by rewrite G5, H5). cbn [mbind option_bind with_exemplars heap].
  assert (Hheap : heap ce2 = <[r := mk_indexEntry (hd_or noExemplar (A ++ B)) (last_or noExemplar (A ++ B)) (seriesLabels ie)]> (heap ce)).
  { rewrite Hh2, Hh1. rewrite hd_or_app in Ho. rewrite last_or_app, last_or_cons in Hn. apply map_eq. intros k. destruct (decide (k = r)) as [->|Hk].
    - rewrite lookup_insert_eq. destruct ie as [o n sl]. cbn in Ho, Hn. subst o n.
      destruct A as [|a A]; destruct B as [|b B]; cbn [id app]; rewrite ?lookup_alter_eq, Hie; cbn; f_equal; autorewrite with ends; f_equal;
        rewrite ?app_nil_r; try done.
    - rewrite lookup_insert_ne by done. destruct A, B; cbn [id]; by rewrite ?lookup_alter_ne. }
  rewrite Hheap, lookup_insert_eq. cbn [mbind option_bind oldest newest]. eexists. split.
  { rewrite (proj1 (ends_noExemplar _)), (proj2 (ends_noExemplar _)), andb_diag. done. }
  assert (Hlen : (p < length (exemplars ce2))%nat) by (by rewrite G5, H5).
  assert (Hslot : forall x, slot (exemplars (with_exemplars (<[p:=slot_ref None (slot (exemplars ce2) p)]> (exemplars ce2)) ce2)) x =
    if decide (x = p) then slot_ref None (slot (exemplars ce2) x) else slot (exemplars ce2) x).
  { intros x. cbn. rewrite slot_insert by done. by destruct (decide (x = p)) as [->|]. }
  split.
  - cbn. split_and!; congruence.
  - cbn. rewrite length_insert. congruence.
  - intros x. rewrite Hslot, Hs2, Hs1. repeat case_decide; done.
  - intros x. rewrite Hslot, Hs2, Hs1. repeat case_decide; done.
  - intros x Hne. rewrite Hslot, Hs2, Hs1. repeat case_decide; done.
  - intros x Hne. rewrite Hslot, Hs2, Hs1. repeat case_decide; done.
  - exists ie. done.
Qed.

Lemma filter_ne_mid (A B : list nat) p : NoDup (A ++ p :: B) -> filter (fun x => x <> p) (A ++ p :: B) = A ++ B.
Proof.
  intros (_ & Hdis & [HpB _]%NoDup_cons)%NoDup_app. rewrite filter_app, filter_cons, decide_False by tauto.
  rewrite !filter_all; [done| |]; apply Forall_forall; intros x Hx ->; [done|]. apply (Hdis p Hx). left.
Qed.

Lemma filter_ne_notin (A : list nat) p : p ∉ A -> filter (fun x => x <> p) A = A.
Proof. intros H. apply filter_all, Forall_forall. by intros x Hx ->. Qed.

(** Chains only depend on the owners and the times of the slots. *)
Lemma slots_of_ext es es' pos r :
  (forall x, x ∈ pos -> ref (slot es' x) = ref (slot es x) /\ exemplar (slot es' x) = exemplar (slot es x)) -> slots_of es' pos r = slots_of es pos r.
Proof.
  intros H. unfold slots_of. assert (E : filter (owned es' r) pos = filter (owned es r) pos).
  { induction pos as [|x pos IH]; [done|]. rewrite !filter_cons, IH by (intros y Hy; apply H; by right).
    destruct (H x ltac:(left)) as [Hr _]. destruct (decide (owned es' r x)), (decide (owned es r x)); unfold owned in *; congruence. }
  rewrite E. apply sort_by_ext. intros x [_ Hx]%list_elem_of_filter. unfold time. by destruct (H x Hx) as [_ ->].
Qed.

Lemma slots_of_drop es p pos r : p ∉ pos -> slots_of es pos r = filter (fun x => x <> p) (slots_of es (p :: pos) r).
Proof.
  intros Hp. unfold slots_of. rewrite filter_sort_by, filter_cons. f_equal. destruct (decide (owned es r p)).
  - rewrite filter_cons, decide_False by tauto. symmetry. apply filter_ne_notin. by intros [_ ?]%list_elem_of_filter.
  - symmetry. apply filter_ne_notin. by intros [_ ?]%list_elem_of_filter.
Qed.

Lemma Forall2_cons_item ce x p it its : Forall2 (item_ok ce) (x :: p) (it :: its) -> item_ok ce x it /\ Forall2 (item_ok ce) p its.
Proof. intros H. by apply Forall2_cons in H. Qed.

(** The chain of the oldest item's series, split at its slot. *)
Lemma oldest_item_chain holes ce E p pos it its : rep_at holes ce E (p :: pos) (it :: its) ->
  exists r ie A B, ref (slot (exemplars ce) p) = Some r /\ index ce !! data (fst it) = Some r /\ heap ce !! r = Some ie /\
    slots_of (exemplars ce) (p :: pos) r = A ++ p :: B /\ entry_ok (exemplars ce) ie (A ++ p :: B).
Proof.
  intros R. destruct (Forall2_cons_item _ _ _ _ _ (rep_items _ _ _ _ _ R)) as [(r & Hr & Hx & Hi) _].
  destruct (rep_index _ _ _ _ _ R _ _ Hi) as (ie & Hie & _ & HL). cbn zeta in HL.
  assert (Hp : p ∈ slots_of (exemplars ce) (p :: pos) r) by (unfold slots_of; rewrite elem_of_sort_by, list_elem_of_filter; split; [done|left]).
  destruct HL as [[HL _]|[_ HL]]; [by rewrite HL in Hp; apply elem_of_nil in Hp|].
  destruct (list_elem_of_split _ _ Hp) as (A & B & E'). exists r, ie, A, B. rewrite E' in HL. done.
Qed.

(** Removing a slot keeps its own chain and those of the other entries. *)
Lemma removed_own ce ce' r p A B ie sl : removed ce ce' r p A B -> NoDup (A ++ p :: B) -> entry_ok (exemplars ce) ie (A ++ p :: B) ->
  entry_ok (exemplars ce') (mk_indexEntry (hd_or noExemplar (A ++ B)) (last_or noExemplar (A ++ B)) sl) (A ++ B).
Proof.
  intros RM Hnd (_ & _ & Hc). split_and!; [done|done|]. pose proof Hnd as (_ & Hdis & [HpB _]%NoDup_cons)%NoDup_app.
  eapply chain_remove; [exact Hnd|exact Hc| |]; intros y Hy; cbn.
  - assert (y <> p) by (intros ->; apply (Hdis p Hy); left). rewrite (rm_next _ _ _ _ _ _ RM), (rm_prev _ _ _ _ _ _ RM) by done. split; [|done].
    rewrite decide_False; [done|]. intros Hb%head_Some_elem_of. apply (Hdis y Hy). by right.
  - assert (y <> p) by (by intros ->). rewrite (rm_next _ _ _ _ _ _ RM), (rm_prev _ _ _ _ _ _ RM) by done. split; [|done].
    rewrite decide_False; [done|]. intros Hb%last_Some_elem_of. apply (Hdis y Hb). by right.
Qed.

Lemma removed_other ce ce' r p A B ie L : removed ce ce' r p A B -> (forall y, y ∈ L -> y ∉ A ++ p :: B) -> entry_ok (exemplars ce) ie L -> entry_ok (exemplars ce') ie L.
Proof.
  intros RM Hdis (Ho & Hn & Hc). split_and!; [done|done|]. eapply chain_ext; [|exact Hc]. intros y Hy. cbn.
  specialize (Hdis y Hy). rewrite (rm_next _ _ _ _ _ _ RM), (rm_prev _ _ _ _ _ _ RM) by (intros ->; set_solver).
  rewrite !decide_False; [done| |].
  - intros Hb%last_Some_elem_of. set_solver.
  - intros Hb%head_Some_elem_of. set_solver.
Qed.

Lemma evict_rep holes ce E p pos it its : rep_at holes ce E (p :: pos) (it :: its) ->
  exists r ce' emptied, ref (slot (exemplars ce) p) = Some r /\ index ce !! data (fst it) = Some r /\
    removeExemplar (Z.of_nat p) ce = Some (ce', emptied) /\ same_but_slots ce ce' /\
    (forall r', slots_of (exemplars ce') pos r' = filter (fun x => x <> p) (slots_of (exemplars ce) (p :: pos) r')) /\
    (forall x, exemplar (slot (exemplars ce') x) = exemplar (slot (exemplars ce) x)) /\
    emptied = bool_decide (slots_of (exemplars ce') pos r = []) /\
    rep_at (if emptied then {[r]} ∪ holes else holes) ce' (E ++ [p]) pos its.
Proof.
  intros R. destruct (oldest_item_chain _ _ _ _ _ _ _ R) as (r & ie & A & B & Hr & Hi & Hie & HL & Hok).
  pose proof (slots_of_NoDup R r) as Hnd. rewrite HL in Hnd.
  destruct (removeExemplar_removed ce r p A B ie) as (ce' & Hrm & RM); [|done..|].
  { apply Forall_forall. intros x Hx. rewrite <-HL in Hx. by apply (slots_of_sub R) in Hx as (_ & _ & ?). }
  pose proof RM as [(S1 & S2 & S3 & S4) Slen Sref Sex Snext Sprev (ie' & Hie' & Sheap)]. rewrite Hie in Hie'. simplify_eq.
  assert (Hp : p ∉ pos). { pose proof (rep_NoDup R) as H. apply NoDup_app in H as (_ & _ & [H _]%NoDup_cons). done. }
  assert (Hsl : forall r', slots_of (exemplars ce') pos r' = filter (fun x => x <> p) (slots_of (exemplars ce) (p :: pos) r')).
  { intros r'. rewrite <-slots_of_drop by done. apply slots_of_ext. intros x Hx. rewrite Sref, Sex, decide_False; [done|]. by intros ->. }
  assert (Hslr : slots_of (exemplars ce') pos r = A ++ B) by (rewrite Hsl, HL; by apply filter_ne_mid).
  exists r, ce', (bool_decide (A ++ B = [])). split_and!; try done; [by rewrite Hslr|].
  split.
  - rewrite S1, Slen. destruct (rep_next _ _ _ _ _ R) as (H1 & H2 & H3). split_and!; [done|done|]. intros Hne. apply H3. intros E0. rewrite E0 in Slen. by destruct (exemplars ce').
  - rewrite S1, Slen, (rep_ring _ _ _ _ _ R). by rewrite <-app_assoc.
  - apply Forall_app. split; [|constructor; [|done]]; [|by rewrite Sref, decide_True].
    eapply Forall_impl; [apply (rep_empty _ _ _ _ _ R)|]. intros x Hx. cbn in Hx. rewrite Sref. by case_decide.
  - destruct (Forall2_cons_item _ _ _ _ _ (rep_items _ _ _ _ _ R)) as [_ Hits]. clear -Hits Hp Sref Sex S4.
    induction Hits as [|x y pos its Hx Hits IH]; [constructor|]. constructor; [|apply IH; set_solver]. destruct Hx as (r & H1 & H2 & H3). exists r.
    rewrite Sref, Sex, S4, decide_False; [done|set_solver].
  - intros k r' Hk. rewrite S4 in Hk. destruct (rep_index _ _ _ _ _ R _ _ Hk) as (ie2 & Hie2 & Hd & HL2). cbn zeta in *.
    destruct (decide (r' = r)) as [->|Hne].
    + rewrite Hie in Hie2. simplify_eq. rewrite Sheap, lookup_insert_eq. eexists. split_and!; [done|done|]. rewrite Hslr. destruct (A ++ B) as [|x AB] eqn:EAB.
      * left. rewrite bool_decide_true by done. set_solver.
      * right. split; [done|]. rewrite <-EAB. by eapply removed_own.
    + rewrite Sheap, lookup_insert_ne by done. exists ie2. split_and!; [done|done|]. rewrite Hsl.
      assert (Hnp : p ∉ slots_of (exemplars ce) (p :: pos) r').
      { intros (_ & Hc & _)%(slots_of_sub R). congruence. }
      rewrite filter_ne_notin by done. destruct HL2 as [[-> Hh]|[Hne2 HL2]]; [left; split; [done|]; case_bool_decide; set_solver|].
      right. split; [done|]. eapply removed_other; [exact RM| |exact HL2]. intros y Hy Hy2. rewrite <-HL in Hy2.
      destruct (slots_of_sub R _ _ Hy) as (_ & Ho & _), (slots_of_sub R _ _ Hy2) as (_ & Ho2 & _). congruence.
Qed.

Lemma rep_holes holes holes' ce E pos its : rep_at holes ce E pos its ->
  (forall k r, index ce !! k = Some r -> r ∈ holes -> slots_of (exemplars ce) pos r = [] -> r ∈ holes') -> rep_at holes' ce E pos its.
Proof.
  intros [H1 H2 H3 H4 H5] H. split; try done. intros k r Hk. destruct (H5 k r Hk) as (ie & Hie & Hd & HL). exists ie. split_and!; [done|done|].
  destruct HL as [[HL Hr]|HL]; [left; split; [done|by eapply H]|by right].
Qed.

(** An entry without slots can leave the index. *)
Lemma removeIndex_rep holes ce E pos its k r : rep_at holes ce E pos its -> index ce !! k = Some r -> slots_of (exemplars ce) pos r = [] ->
  removeIndex r ce = Some (with_index (delete k (index ce)) ce) /\ rep_at (holes ∖ {[r]}) (with_index (delete k (index ce)) ce) E pos its.
Proof.
  intros R Hk HL. destruct (rep_index _ _ _ _ _ R k r Hk) as (ie & Hie & Hd & _). unfold removeIndex. rewrite Hie. cbn. rewrite Hd. split; [done|].
  split; cbn [nextIndex exemplars with_index index heap]; try apply R.
  - pose proof (rep_items _ _ _ _ _ R) as Hits. assert (Hno : forall x, x ∈ pos -> ~ owned (exemplars ce) r x).
    { intros x Hx Ho. assert (Hx' : x ∈ slots_of (exemplars ce) pos r) by (unfold slots_of; by rewrite elem_of_sort_by, list_elem_of_filter).
      rewrite HL in Hx'. by apply elem_of_nil in Hx'. }
    clear HL R. induction Hits as [|x it pos its (r' & H1 & H2 & H3) Hits IH]; constructor; [|apply IH; intros y Hy; apply Hno; by right].
    exists r'. split_and!; [done|done|]. cbn [index with_index]. rewrite lookup_delete_ne; [done|]. intros ->. rewrite Hk in H3. simplify_eq. apply (Hno x); [left|done].
  - intros k' r' (Hne & Hk')%lookup_delete_Some. destruct (rep_index _ _ _ _ _ R k' r' Hk') as (ie' & ? & ? & HL'). exists ie'. split_and!; [done|done|].
    assert (r' <> r) by (intros ->; by apply Hne, (index_inj R _ _ r)). destruct HL' as [[? ?]|?]; [left; split; [done|set_solver]|by right].
Qed.

(** ** Linking a new item *)

(** What linking slot [n] between the parts [A] and [B] of a chain changes. *)
Record linked_in (ce ce' : CircularExemplarStorage) (r n : nat) (e : Exemplar) (A B : list nat) : Prop := {
  li_same : same_but_slots ce ce';
  li_ref : forall x, ref (slot (exemplars ce') x) = if decide (x = n) then Some r else ref (slot (exemplars ce) x);
  li_exemplar : forall x, exemplar (slot (exemplars ce') x) = if decide (x = n) then e else exemplar (slot (exemplars ce) x);
  li_next : forall x, next (slot (exemplars ce') x) = if decide (x = n) then hd_or noExemplar B else if decide (last A = Some x) then Z.of_nat n else next (slot (exemplars ce) x);
  li_prev : forall x, prev (slot (exemplars ce') x) = if decide (x = n) then last_or noExemplar A else if decide (head B = Some x) then Z.of_nat n else prev (slot (exemplars ce) x);
  li_heap : exists ie, heap ce !! r = Some ie /\ heap ce' = <[r := mk_indexEntry (hd_or noExemplar (A ++ n :: B)) (last_or noExemplar (A ++ n :: B)) (seriesLabels ie)]> (heap ce)
}.

Lemma heap_set_both r o n (h : gmap nat indexEntry) ie : h !! r = Some ie ->
  alter (fun ie => mk_indexEntry (oldest ie) n (seriesLabels ie)) r (alter (fun ie => mk_indexEntry o (newest ie) (seriesLabels ie)) r h) = <[r := mk_indexEntry o n (seriesLabels ie)]> h.
Proof.
  intros H. apply map_eq. intros k. destruct (decide (k = r)) as [->|Hk]; [by rewrite !lookup_alter_eq, H, lookup_insert_eq|].
  by rewrite !lookup_alter_ne, lookup_insert_ne.
Qed.

Lemma modify_slot_spec x f ce : (x < length (exemplars ce))%nat ->
  exists ce', modify_slot (Z.of_nat x) f ce = Some ce' /\ same_but_slots ce ce' /\ heap ce' = heap ce /\
    forall y, slot (exemplars ce') y = if decide (y = x) then f (slot (exemplars ce) y) else slot (exemplars ce) y.
Proof.
  intros H. rewrite modify_slot_at by done. eexists. split; [done|]. split_and!; [|done|].
  - unfold same_but_slots. cbn. by rewrite length_insert.
  - intros y. cbn. rewrite slot_insert by done. by destruct (decide (y = x)) as [->|].
Qed.

Ltac ce_simpl := cbn [exemplars nextIndex metrics oooTimeWindowMillis index heap set_newest set_oldest with_heap with_exemplars mbind option_bind] in *.

(** Executes the next assignment to a slot. *)
Ltac slot_step :=
  match goal with
  | |- context [modify_slot (Z.of_nat ?x) ?f ?c] =>
      let c' := fresh "ce" in
      destruct (modify_slot_spec x f c) as (c' & -> & (?Hn & ?Hm & ?Hw & ?Hi & ?Hlen) & ?Hh & ?Hs); [ce_simpl; lia|ce_simpl]
  end.

Ltac slot_cases :=
  repeat match goal with H : forall y, slot _ y = _ |- _ => rewrite H; clear H end; cbn; repeat case_decide; subst; cbn; try done; try congruence.

Lemma last_or_elem p L : L <> [] -> exists z, last_or p L = Z.of_nat z /\ last L = Some z /\ z ∈ L.
Proof. destruct L as [|z L _] using rev_ind; [done|]. intros _. exists z. autorewrite with ends. rewrite last_snoc. split_and!; [done|done|set_solver]. Qed.
Lemma hd_or_elem q L : L <> [] -> exists z, hd_or q L = Z.of_nat z /\ head L = Some z /\ z ∈ L.
Proof. destruct L as [|z L]; [done|]. intros _. exists z. split_and!; [done|done|left]. Qed.

(** Which case of AddExemplar applies: the newest slot of the chain is not
    larger iff nothing is, the oldest is larger iff everything is. *)
Lemma newest_le ce ie t A B : A ++ B <> [] -> entry_ok (exemplars ce) ie (A ++ B) ->
  Forall (fun x => time (exemplars ce) x <= t) A -> Forall (fun x => t < time (exemplars ce) x) B ->
  exists z, newest ie = Z.of_nat z /\ last (A ++ B) = Some z /\ z ∈ A ++ B /\ (time (exemplars ce) z <=? t) = bool_decide (B = []).
Proof.
  intros Hne (_ & -> & _) HA HB. destruct (last_or_elem noExemplar _ Hne) as (z & Hz & Hl & Hin). exists z. split_and!; [done|done|done|].
  destruct B as [|b B _] using rev_ind.
  - rewrite app_nil_r in Hin. rewrite bool_decide_true by done. rewrite Forall_forall in HA. apply Z.leb_le. by apply HA.
  - rewrite bool_decide_false by (by destruct B). rewrite app_assoc, last_snoc in Hl. simplify_eq. apply Forall_app in HB as [_ [Hb _]%Forall_cons]. by apply Z.leb_gt.
Qed.

Lemma oldest_gt ce ie t A B : A ++ B <> [] -> entry_ok (exemplars ce) ie (A ++ B) ->
  Forall (fun x => time (exemplars ce) x <= t) A -> Forall (fun x => t < time (exemplars ce) x) B ->
  exists z, oldest ie = Z.of_nat z /\ head (A ++ B) = Some z /\ z ∈ A ++ B /\ (t <? time (exemplars ce) z) = bool_decide (A = []).
Proof.
  intros Hne (-> & _ & _) HA HB. destruct (hd_or_elem noExemplar _ Hne) as (z & Hz & Hl & Hin). exists z. split_and!; [done|done|done|].
  destruct A as [|a A].
  - rewrite bool_decide_true by done. rewrite Forall_forall in HB. apply Z.ltb_lt. by apply HB.
  - rewrite bool_decide_false by done. cbn in Hl. simplify_eq. apply Forall_cons in HA as [Ha _]. by apply Z.ltb_ge.
Qed.

Lemma hd_or_any q q' L : L <> [] -> hd_or q L = hd_or q' L.
Proof. by destruct L. Qed.
Lemma last_or_any p p' L : L <> [] -> last_or p L = last_or p' L.
Proof. destruct L as [|x L _] using rev_ind; [done|]. by autorewrite with ends. Qed.

Lemma heap_set_newest r v (h : gmap nat indexEntry) ie : h !! r = Some ie ->
  alter (fun ie => mk_indexEntry (oldest ie) v (seriesLabels ie)) r h = <[r := mk_indexEntry (oldest ie) v (seriesLabels ie)]> h.
Proof. intros H. apply map_eq. intros k. destruct (decide (k = r)) as [->|Hk]; [by rewrite lookup_alter_eq, H, lookup_insert_eq|by rewrite lookup_alter_ne, lookup_insert_ne]. Qed.
Lemma heap_set_oldest r v (h : gmap nat indexEntry) ie : h !! r = Some ie ->
  alter (fun ie => mk_indexEntry v (newest ie) (seriesLabels ie)) r h = <[r := mk_indexEntry v (newest ie) (seriesLabels ie)]> h.
Proof. intros H. apply map_eq. intros k. destruct (decide (k = r)) as [->|Hk]; [by rewrite lookup_alter_eq, H, lookup_insert_eq|by rewrite lookup_alter_ne, lookup_insert_ne]. Qed.

(** The four cases, from the state [ce1] in which slot [n] already holds the
    exemplar and its owner. *)
Section LinkCases.
Context (ce ce1 : CircularExemplarStorage) (e : Exemplar) (r n : nat) (ie : indexEntry).
Context (Hsame : same_but_slots ce ce1) (Hheap : heap ce1 = heap ce) (Hn : (n < length (exemplars ce))%nat) (Hie : heap ce !! r = Some ie).
Context (Hplaced : forall y, slot (exemplars ce1) y = if decide (y = n) then slot_ref (Some r) (slot_exemplar e (slot (exemplars ce) y)) else slot (exemplars ce) y).

Lemma link_only_linked : exists ce', link_only r (Z.of_nat n) ce1 = Some ce' /\ linked_in ce ce' r n e [] [].
Proof.
  destruct Hsame as (? & ? & ? & ? & ?). unfold link_only. cbv zeta. slot_step. slot_step. eexists. split; [done|]. split; try (intros x; by slot_cases).
  - unfold same_but_slots. split_and!; congruence.
  - exists ie. split; [done|]. rewrite Hh0, Hh, Hheap. by apply heap_set_both.
Qed.

Lemma link_tip_linked A z : A <> [] -> last A = Some z -> (z < length (exemplars ce))%nat -> n ∉ A -> entry_ok (exemplars ce) ie A ->
  exists ce', link_tip r (Z.of_nat n) (newest ie) ce1 = Some ce' /\ linked_in ce ce' r n e A [].
Proof.
  intros HA Hz Hzb HnA (Ho & Hnw & _). destruct Hsame as (? & ? & ? & ? & ?). assert (z <> n) by (intros ->; apply HnA; by apply last_Some_elem_of).
  assert (Elz : last_or noExemplar A = Z.of_nat z) by (unfold last_or; by rewrite Hz).
  unfold link_tip. rewrite Hnw, Elz. slot_step. slot_step. slot_step. eexists. split; [done|]. split; ce_simpl; try (intros x; by slot_cases).
  - unfold same_but_slots. ce_simpl. split_and!; congruence.
  - exists ie. split; [done|]. rewrite Hh1, Hh0, Hh, Hheap, (heap_set_newest _ _ _ ie), Ho by done.
    autorewrite with ends. by rewrite (hd_or_any (hd_or noExemplar [n]) noExemplar A).
Qed.

Lemma link_tail_linked B y : B <> [] -> head B = Some y -> (y < length (exemplars ce))%nat -> n ∉ B -> entry_ok (exemplars ce) ie B ->
  exists ce', link_tail r (Z.of_nat n) (oldest ie) ce1 = Some ce' /\ linked_in ce ce' r n e [] B.
Proof.
  intros HB Hy Hyb HnB (Ho & Hnw & _). destruct Hsame as (? & ? & ? & ? & ?). assert (y <> n) by (intros ->; apply HnB; by apply head_Some_elem_of).
  assert (Ehy : hd_or noExemplar B = Z.of_nat y) by (destruct B; [done|]; cbn in Hy; by simplify_eq).
  unfold link_tail. rewrite Ho, Ehy. slot_step. slot_step. slot_step. eexists. split; [done|]. split; ce_simpl; try (intros x; by slot_cases).
  - unfold same_but_slots. ce_simpl. split_and!; congruence.
  - exists ie. split; [done|]. rewrite Hh1, Hh0, Hh, Hheap, (heap_set_oldest _ _ _ ie), Hnw by done.
    cbn [app hd_or]. by rewrite last_or_cons, (last_or_any (Z.of_nat n) noExemplar).
Qed.

Lemma link_after_linked A B : A <> [] -> B <> [] -> Forall (fun x => (x < length (exemplars ce))%nat) (A ++ B) -> NoDup (A ++ n :: B) ->
  entry_ok (exemplars ce) ie (A ++ B) -> exists ce', link_after (Z.of_nat n) (last_or noExemplar A) ce1 = Some ce' /\ linked_in ce ce' r n e A B.
Proof.
  intros HA HB Hb Hnd (Ho & Hnw & Hc). destruct Hsame as (? & ? & ? & ? & ?). rewrite Forall_forall in Hb.
  destruct (last_or_elem noExemplar A HA) as (z & Ez & Hlz & Hz), (hd_or_elem noExemplar B HB) as (y & Ey & Hhy & Hy).
  pose proof (Hb z ltac:(set_solver)) as Hzb. pose proof (Hb y ltac:(set_solver)) as Hyb.
  apply NoDup_app in Hnd as (_ & Hd & [HnB _]%NoDup_cons).
  assert (z <> n /\ y <> n /\ y <> z) as (Hzn & Hyn & Hyz).
  { split_and!; [intros ->; apply (Hd n Hz); left|by intros ->|intros ->; apply (Hd z Hz); by right]. }
  assert (Hnx : next (slot (exemplars ce1) z) = Z.of_nat y).
  { rewrite <-Ey, <-(chain_next_last _ _ _ _ _ _ _ Hc Hlz). slot_cases. }
  unfold link_after. rewrite Ez, get_slot by lia. cbn [mbind option_bind]. rewrite Hnx, of_nat_noExemplar. slot_step. slot_step. slot_step. slot_step.
  eexists. split; [done|]. split; ce_simpl; try (intros x; by slot_cases).
  - unfold same_but_slots. ce_simpl. split_and!; congruence.
  - exists ie. split; [done|]. rewrite Hh2, Hh1, Hh0, Hh, Hheap. symmetry. apply insert_id. rewrite Hie. f_equal. destruct ie as [o nw sl]. cbn in *.
    rewrite Ho, Hnw, !last_or_app, !hd_or_app, last_or_cons. f_equal; [by apply hd_or_any|by apply last_or_any].
Qed.
End LinkCases.

Lemma link_entry_linked e r between ce A B ie n :
  nextIndex ce = Z.of_nat n -> (n < length (exemplars ce))%nat ->
  Forall (fun x => (x < length (exemplars ce))%nat) (A ++ B) -> NoDup (A ++ n :: B) ->
  heap ce !! r = Some ie -> (A ++ B <> [] -> entry_ok (exemplars ce) ie (A ++ B)) ->
  Forall (fun x => time (exemplars ce) x <= Ts e) A -> Forall (fun x => Ts e < time (exemplars ce) x) B ->
  (A <> [] -> B <> [] -> between = Some (last_or noExemplar A)) ->
  exists ce', link_entry e r (negb (bool_decide (A ++ B = []))) between ce = Some ce' /\ linked_in ce ce' r n e A B.
Proof.
  intros En Hn Hb Hnd Hie Hok HA HB Hbt. unfold link_entry. cbv zeta. rewrite En. slot_step. slot_step.
  assert (Hpl : forall y, slot (exemplars ce1) y = if decide (y = n) then slot_ref (Some r) (slot_exemplar e (slot (exemplars ce) y)) else slot (exemplars ce) y).
  { intros y. slot_cases. }
  assert (Hsame : same_but_slots ce ce1) by (unfold same_but_slots; split_and!; congruence). assert (Hheap : heap ce1 = heap ce) by congruence.
  clear ce0 Hn0 Hm Hw Hi Hlen Hh Hs Hn1 Hm0 Hw0 Hi0 Hlen0 Hh0 Hs0.
  destruct (decide (A ++ B = [])) as [Hnil|Hne].
  { destruct A; [|done]. destruct B; [|done]. rewrite bool_decide_true by done. by apply (link_only_linked ce ce1 e r n ie). }
  rewrite (bool_decide_false (A ++ B = [])) by done. cbn [negb]. rewrite Hheap, Hie. cbn [mbind option_bind].
  assert (HnAB : n ∉ A ++ B). { apply NoDup_app in Hnd as (_ & Hd & [Hn' _]%NoDup_cons). intros [H|H]%elem_of_app; [apply (Hd n H); left|done]. }
  pose proof (proj1 (Forall_forall _ _) Hb) as Hb'. pose proof Hsame as (_ & _ & _ & _ & Hlen).
  assert (Hold : forall x, x ∈ A ++ B -> get (exemplars ce1) (Z.of_nat x) = Some (slot (exemplars ce) x)).
  { intros x Hx. rewrite get_slot, Hpl, decide_False; [done|by intros ->|]. rewrite Hlen. by apply Hb'. }
  specialize (Hok Hne). destruct (newest_le ce ie (Ts e) A B Hne Hok HA HB) as (z & Ez & Hlz & Hz & Hcz).
  destruct (oldest_gt ce ie (Ts e) A B Hne Hok HA HB) as (y & Ey & Hhy & Hy & Hcy).
  assert (Hgz : get (exemplars ce1) (newest ie) = Some (slot (exemplars ce) z)) by (rewrite Ez; by apply Hold).
  assert (Hgy : get (exemplars ce1) (oldest ie) = Some (slot (exemplars ce) y)) by (rewrite Ey; by apply Hold).
  rewrite Hgz, Hgy. cbn [mbind option_bind]. unfold time in Hcz, Hcy. rewrite Hcz, Hcy.
  destruct (decide (B = [])) as [->|HBne].
  { rewrite bool_decide_true by done. rewrite app_nil_r in *. apply (link_tip_linked ce ce1 e r n ie) with (z := z); auto. }
  rewrite (bool_decide_false (B = [])) by done. destruct (decide (A = [])) as [->|HAne].
  { rewrite bool_decide_true by done. apply (link_tail_linked ce ce1 e r n ie) with (y := y); auto. }
  rewrite (bool_decide_false (A = [])), Hbt by done. by apply (link_after_linked ce ce1 e r n ie).
Qed.

(** A sorted chain splits at a time. *)
Lemma split_at (key : nat -> Z) t L : StronglySorted (fun x y => key x <= key y) L ->
  exists A B, L = A ++ B /\ Forall (fun x => key x <= t) A /\ Forall (fun x => t < key x) B.
Proof.
  induction 1 as [|x L _ (A & B & -> & HA & HB) Hle]; [by exists [], []|]. destruct (Z.le_gt_cases (key x) t) as [H|H].
  - exists (x :: A), B. split_and!; [done|by constructor|done].
  - exists [], (x :: A ++ B). split_and!; [done|done|]. constructor; [done|]. eapply Forall_impl; [exact Hle|]. cbn. lia.
Qed.

Lemma slots_of_sorted es pos r : StronglySorted (fun x y => time es x <= time es y) (slots_of es pos r).
Proof. apply sort_by_sorted. Qed.

Section Link.
Context (ce ce' : CircularExemplarStorage) (r n : nat) (e : Exemplar) (A B : list nat) (LI : linked_in ce ce' r n e A B).

Lemma linked_own ie sl : NoDup (A ++ n :: B) -> (A ++ B <> [] -> entry_ok (exemplars ce) ie (A ++ B)) ->
  entry_ok (exemplars ce') (mk_indexEntry (hd_or noExemplar (A ++ n :: B)) (last_or noExemplar (A ++ n :: B)) sl) (A ++ n :: B).
Proof.
  intros Hnd Hok. split_and!; [done|done|]. pose proof Hnd as (_ & Hdis & [HnB _]%NoDup_cons)%NoDup_app.
  assert (Hc : linked (exemplars ce) (A ++ B)) by (destruct (decide (A ++ B = [])) as [E|E]; [by rewrite E|by apply Hok]).
  eapply chain_insert; [exact Hnd|exact Hc| | | |]; cbn.
  - by rewrite (li_prev _ _ _ _ _ _ _ LI), decide_True.
  - by rewrite (li_next _ _ _ _ _ _ _ LI), decide_True.
  - intros x Hx. assert (x <> n) by (intros ->; apply (Hdis n Hx); left).
    rewrite (li_prev _ _ _ _ _ _ _ LI), (li_next _ _ _ _ _ _ _ LI), !(decide_False (P := x = n)) by done. split; [|done].
    rewrite decide_False; [done|]. intros Hh%head_Some_elem_of. apply (Hdis x Hx). by right.
  - intros x Hx. assert (x <> n) by (by intros ->).
    rewrite (li_prev _ _ _ _ _ _ _ LI), (li_next _ _ _ _ _ _ _ LI), !(decide_False (P := x = n)) by done. split; [|done].
    rewrite decide_False; [done|]. intros Hh%last_Some_elem_of. apply (Hdis x Hh). by right.
Qed.

Lemma linked_other ie L : (forall y, y ∈ L -> y ∉ A ++ n :: B) -> entry_ok (exemplars ce) ie L -> entry_ok (exemplars ce') ie L.
Proof.
  intros Hdis (Ho & Hn & Hc). split_and!; [done|done|]. eapply chain_ext; [|exact Hc]. intros y Hy. specialize (Hdis y Hy). cbn.
  rewrite (li_prev _ _ _ _ _ _ _ LI), (li_next _ _ _ _ _ _ _ LI), !(decide_False (P := y = n)) by (intros ->; set_solver).
  rewrite !decide_False; [done| |].
  - intros H%last_Some_elem_of. set_solver.
  - intros H%head_Some_elem_of. set_solver.
Qed.

Lemma linked_times : NoDup (A ++ n :: B) ->
  Forall (fun x => time (exemplars ce) x <= Ts e) A -> Forall (fun x => Ts e < time (exemplars ce) x) B ->
  Forall (fun x => time (exemplars ce') x <= time (exemplars ce') n) A /\ Forall (fun x => time (exemplars ce') n < time (exemplars ce') x) B.
Proof.
  intros (_ & Hdis & [HnB _]%NoDup_cons)%NoDup_app HA HB.
  assert (Ht : forall y, time (exemplars ce') y = if decide (y = n) then Ts e else time (exemplars ce) y).
  { intros y. unfold time. rewrite (li_exemplar _ _ _ _ _ _ _ LI). by case_decide. }
  rewrite Forall_forall in HA, HB. split; apply Forall_forall; intros y Hy; rewrite !Ht, (decide_True (P := n = n)) by done.
  - rewrite decide_False; [by apply HA|]. intros ->. apply (Hdis n Hy). left.
  - rewrite decide_False; [by apply HB|]. by intros ->.
Qed.

Lemma linked_slots pos r' : n ∉ pos ->
  slots_of (exemplars ce') (pos ++ [n]) r' = if decide (r' = r) then insert_by (time (exemplars ce')) n (slots_of (exemplars ce) pos r) else slots_of (exemplars ce) pos r'.
Proof.
  intros Hn. assert (Hext : forall r, slots_of (exemplars ce') pos r = slots_of (exemplars ce) pos r).
  { intros r0. apply slots_of_ext. intros x Hx. rewrite (li_ref _ _ _ _ _ _ _ LI), (li_exemplar _ _ _ _ _ _ _ LI), !decide_False; [done|by intros ->..]. }
  rewrite <-!Hext. unfold slots_of at 1. rewrite filter_app, filter_cons, filter_nil.
  assert (Hr : ref (slot (exemplars ce') n) = Some r) by (by rewrite (li_ref _ _ _ _ _ _ _ LI), decide_True).
  destruct (decide (r' = r)) as [->|Hne].
  - rewrite decide_True by done. by rewrite sort_by_snoc.
  - rewrite decide_False by (unfold owned; congruence). by rewrite app_nil_r.
Qed.
End Link.

Definition advance (ce : CircularExemplarStorage) : CircularExemplarStorage :=
  with_nextIndex ((nextIndex ce + 1) mod Z.of_nat (length (exemplars ce))) ce.

Lemma ring_head holes ce n E pos its : rep_at holes ce (n :: E) pos its ->
  nextIndex ce = Z.of_nat n /\ (n < length (exemplars ce))%nat /\ NoDup (n :: E ++ pos) /\
  ring (S n mod length (exemplars ce)) (length (exemplars ce)) = E ++ pos ++ [n].
Proof.
  intros R. destruct (rep_next _ _ _ _ _ R) as (Hn0 & Hnl & Hnlt).
  assert (Hlen : (n < length (exemplars ce))%nat) by (apply (rep_bound R); left).
  assert (Hes : exemplars ce <> []) by (intros H; rewrite H in Hlen; cbn in Hlen; lia). specialize (Hnlt Hes).
  destruct (ring_advance (Z.to_nat (nextIndex ce)) (length (exemplars ce)) ltac:(lia)) as (rest & Hring & Hring').
  pose proof (rep_ring _ _ _ _ _ R) as Hr. rewrite Hring in Hr. injection Hr as Hn Hrest.
  split_and!; [lia|done|apply (rep_NoDup R)|]. rewrite Hn, Hrest in Hring'. by rewrite Hring', app_assoc.
Qed.

Lemma linked_rep holes ce ce' n E pos its l e r A B :
  rep_at holes ce (n :: E) pos its -> index ce !! data l = Some r -> slots_of (exemplars ce) pos r = A ++ B ->
  Forall (fun x => time (exemplars ce) x <= Ts e) A -> Forall (fun x => Ts e < time (exemplars ce) x) B -> NoDup (A ++ n :: B) ->
  linked_in ce ce' r n e A B -> rep_at (holes ∖ {[r]}) (advance ce') E (pos ++ [n]) (its ++ [(l, e)]).
Proof.
  intros R Hl EL HA HB HndL LI. destruct (ring_head _ _ _ _ _ _ R) as (Hn & Hlen & Hnd & Hring).
  pose proof (li_same _ _ _ _ _ _ _ LI) as (S1 & _ & _ & S4 & S5). assert (Hnp : n ∉ E /\ n ∉ pos) by (apply NoDup_cons in Hnd; set_solver). destruct Hnp as [HnE Hnp].
  assert (En : Z.to_nat ((Z.of_nat n + 1) mod Z.of_nat (length (exemplars ce))) = (S n mod length (exemplars ce))%nat).
  { replace (Z.of_nat n + 1) with (Z.of_nat (S n)) by lia. rewrite <-Nat2Z.inj_mod. by rewrite Nat2Z.id. }
  assert (Hsl := linked_slots ce ce' r n e A B LI pos). split; unfold advance; cbn [nextIndex exemplars with_nextIndex index heap].
  - rewrite S1, S5, Hn. pose proof (Z.mod_pos_bound (Z.of_nat n + 1) (Z.of_nat (length (exemplars ce)))). split_and!; lia.
  - rewrite S1, S5, Hn, En. exact Hring.
  - pose proof (rep_empty _ _ _ _ _ R) as He. apply Forall_cons in He as [_ He]. rewrite Forall_forall in He. apply Forall_forall. intros x Hx.
    rewrite (li_ref _ _ _ _ _ _ _ LI), decide_False by (by intros ->). by apply He.
  - apply Forall2_app; [|repeat constructor].
    + pose proof (rep_items _ _ _ _ _ R) as Hits. clear -Hits LI Hnp S4. induction Hits as [|x it pos its (r' & H1 & H2 & H3) Hits IH]; constructor; [|apply IH; set_solver].
      exists r'. cbn [exemplars index with_nextIndex]. rewrite (li_ref _ _ _ _ _ _ _ LI), (li_exemplar _ _ _ _ _ _ _ LI), S4, !decide_False by set_solver. done.
    + exists r. cbn [exemplars index with_nextIndex fst snd]. rewrite (li_ref _ _ _ _ _ _ _ LI), (li_exemplar _ _ _ _ _ _ _ LI), S4, !decide_True by done. done.
  - intros k r' Hk. rewrite S4 in Hk. destruct (rep_index _ _ _ _ _ R _ _ Hk) as (ie & Hie & Hd & HL). cbn zeta in *. rewrite (Hsl r' Hnp).
    destruct (li_heap _ _ _ _ _ _ _ LI) as (ie0 & Hie0 & Hheap). rewrite Hheap. destruct (decide (r' = r)) as [->|Hne].
    + rewrite Hie in Hie0. simplify_eq. rewrite lookup_insert_eq. eexists. split_and!; [done|done|]. right. rewrite EL in *. rewrite insert_by_at by (by apply (linked_times _ _ _ _ _ _ _ LI)).
      split; [by destruct A|]. eapply linked_own; [exact LI|done|]. intros H. destruct HL as [[? _]|[_ ?]]; done.
    + rewrite lookup_insert_ne by done. exists ie. split_and!; [done|done|]. destruct HL as [[HL Hh]|[HL Hok]]; [left; split; [done|set_solver]|right].
      split; [done|]. eapply linked_other; [exact LI| |exact Hok]. intros y (Hy & Ho & _)%(slots_of_sub R) Hin.
      assert (Hin' : y ∈ A ++ B) by set_solver. rewrite <-EL in Hin'. apply (slots_of_sub R) in Hin' as (_ & ? & _). congruence.
Qed.

Lemma link_rep holes ce n E pos its l e r between :
  rep_at holes ce (n :: E) pos its -> index ce !! data l = Some r ->
  (forall A B, slots_of (exemplars ce) pos r = A ++ B -> A <> [] -> B <> [] ->
    Forall (fun x => time (exemplars ce) x <= Ts e) A -> Forall (fun x => Ts e < time (exemplars ce) x) B -> between = Some (last_or noExemplar A)) ->
  exists ce', link_entry e r (negb (bool_decide (slots_of (exemplars ce) pos r = []))) between ce = Some ce' /\ same_but_slots ce ce' /\
    rep_at (holes ∖ {[r]}) (advance ce') E (pos ++ [n]) (its ++ [(l, e)]).
Proof.
  intros R Hl Hbt. destruct (rep_index _ _ _ _ _ R _ _ Hl) as (ie & Hie & Hd & HL). cbn zeta in HL.
  destruct (split_at (time (exemplars ce)) (Ts e) _ (slots_of_sorted (exemplars ce) pos r)) as (A & B & EL & HA & HB). rewrite EL in HL.
  destruct (ring_head _ _ _ _ _ _ R) as (Hn & Hlen & Hnd & _).
  assert (HndL : NoDup (A ++ n :: B)).
  { assert (H : n :: A ++ B ≡ₚ A ++ n :: B) by apply Permutation_middle. rewrite <-H, <-EL. constructor; [|apply (slots_of_NoDup R)].
    intros (? & _)%(slots_of_sub R). apply NoDup_cons in Hnd. set_solver. }
  destruct (link_entry_linked e r between ce A B ie n) as (ce' & Hlink & LI); [done|done| |done|done| |done|done|by intros; apply (Hbt A B)|].
  { rewrite <-EL. apply Forall_forall. intros x (_ & _ & ?)%(slots_of_sub R). done. }
  { intros Hne. destruct HL as [[? _]|[_ ?]]; done. }
  rewrite EL. exists ce'. split_and!; [done|apply LI|]. by eapply linked_rep.
Qed.

(** ** Adding an exemplar *)

Lemma insertion_loop_spec es e ie A B rest fuel :
  linked es (A ++ B ++ rest) -> Forall (fun x => (x < length es)%nat) (A ++ B) -> (length (A ++ B) <= fuel)%nat ->
  Forall (fun x => time es x <= Ts e) A -> Forall (fun x => Ts e < time es x) B ->
  insertion_loop fuel es e ie (last_or noExemplar (A ++ B)) = Some (match A with [] => oldest ie | _ => last_or noExemplar A end).
Proof.
  revert rest fuel. induction B as [|b B IH] using rev_ind; intros rest fuel Hc Hb Hf HA HB.
  - rewrite app_nil_r in *. destruct A as [|a A _] using rev_ind; [by destruct fuel|].
    rewrite length_app in Hf. cbn in Hf. destruct fuel as [|fuel]; [lia|]. autorewrite with ends. cbn [insertion_loop]. rewrite of_nat_noExemplar.
    apply Forall_app in Hb as [_ [Hb _]%Forall_cons]. apply Forall_app in HA as [_ [Ha _]%Forall_cons].
    rewrite get_slot by done. cbn [mbind option_bind]. unfold time in Ha. rewrite (proj2 (Z.leb_le _ _) Ha). by destruct A.
  - apply Forall_app in HB as [HB [Hgt _]%Forall_cons]. rewrite app_assoc in *. apply Forall_app in Hb as [Hb [Hbb _]%Forall_cons].
    rewrite length_app in Hf. cbn in Hf. destruct fuel as [|fuel]; [lia|]. autorewrite with ends. cbn [insertion_loop]. rewrite of_nat_noExemplar, get_slot by done.
    cbn [mbind option_bind]. unfold time in Hgt. rewrite (proj2 (Z.leb_gt _ _) Hgt).
    assert (Hp : prev (slot es b) = last_or noExemplar (A ++ B)).
    { unfold linked in Hc. rewrite !app_assoc, <-(app_assoc (A ++ B)) in Hc. apply chain_app in Hc as [_ Hc]. cbn in Hc. by destruct Hc as (-> & _). }
    rewrite Hp. apply (IH ([b] ++ rest)); [by rewrite <-!app_assoc in *|done|lia|done|done].
Qed.

(** The insertion index of a series' chain [L] for an exemplar of time [t]: the
    last slot that is not younger, if there are slots on both sides. *)
Definition between_ok (es : list circularBufferEntry) (L : list nat) (t : Z) (between : option Z) : Prop :=
  forall A B, L = A ++ B -> A <> [] -> B <> [] -> Forall (fun x => time es x <= t) A -> Forall (fun x => t < time es x) B ->
    between = Some (last_or noExemplar A).

Lemma split_unique (key : nat -> Z) t A B A' B' : A ++ B = A' ++ B' ->
  Forall (fun x => key x <= t) A -> Forall (fun x => t < key x) B -> Forall (fun x => key x <= t) A' -> Forall (fun x => t < key x) B' -> A = A' /\ B = B'.
Proof.
  revert A'. induction A as [|a A IH]; intros A' E HA HB HA' HB'.
  - destruct A' as [|a' A']; [done|]. cbn in E. subst B. apply Forall_cons in HB as [? _]. apply Forall_cons in HA' as [? _]. lia.
  - apply Forall_cons in HA as [Ha HA]. destruct A' as [|a' A'].
    + cbn in E. subst B'. apply Forall_cons in HB' as [? _]. lia.
    + cbn in E. simplify_eq. apply Forall_cons in HA' as [_ HA']. by destruct (IH A') as [-> ->].
Qed.

Lemma findInsertionIndex_spec holes ce E pos its r e ie A B :
  rep_at holes ce E pos its -> slots_of (exemplars ce) pos r = A ++ B -> entry_ok (exemplars ce) ie (A ++ B) ->
  Forall (fun x => time (exemplars ce) x <= Ts e) A -> Forall (fun x => Ts e < time (exemplars ce) x) B ->
  findInsertionIndex e ie ce = Some (match A with [] => oldest ie | _ => last_or noExemplar A end).
Proof.
  intros R EL (_ & Hn & Hc) HA HB. unfold findInsertionIndex. rewrite Hn. apply (insertion_loop_spec _ _ _ A B []); [by rewrite app_nil_r| | |done|done].
  - rewrite <-EL. apply Forall_forall. by intros x (_ & _ & ?)%(slots_of_sub R).
  - rewrite <-EL. apply (slots_of_length R).
Qed.

Lemma find_between_spec holes ce E pos its r e ie A B :
  rep_at holes ce E pos its -> heap ce !! r = Some ie -> A ++ B <> [] -> slots_of (exemplars ce) pos r = A ++ B -> entry_ok (exemplars ce) ie (A ++ B) ->
  Forall (fun x => time (exemplars ce) x <= Ts e) A -> Forall (fun x => Ts e < time (exemplars ce) x) B ->
  find_between e r ce = Some (if bool_decide (A = []) || bool_decide (B = []) then None else Some (last_or noExemplar A)).
Proof.
  intros R Hie Hne EL Hok HA HB. unfold find_between. rewrite Hie. cbn [mbind option_bind].
  destruct (newest_le ce ie (Ts e) A B Hne Hok HA HB) as (z & Ez & _ & Hz & Hcz), (oldest_gt ce ie (Ts e) A B Hne Hok HA HB) as (y & Ey & _ & Hy & Hcy).
  rewrite Ez, Ey, !get_slot by (eapply (slots_of_sub R); by rewrite EL). cbn [mbind option_bind]. unfold time in Hcz, Hcy.
  rewrite Z.leb_antisym, Hcy, Z.ltb_antisym, Hcz, (findInsertionIndex_spec _ _ _ _ _ _ _ _ _ _ R EL Hok HA HB), <-negb_orb.
  destruct (bool_decide (A = []) || bool_decide (B = [])) eqn:E2; [done|]. apply orb_false_iff in E2 as [?%bool_decide_eq_false _]. cbn [negb]. by destruct A.
Qed.

(** What is read of the labels of an exemplar. *)
Definition readable (l : Labels) : Prop := exists ls, Forall short_label ls /\ l = of_list ls.

Lemma count_labels ls : forall n, (n <= ExemplarMaxLabelSetLength)%nat ->
  snd (fold_labels (fun s n v _ => count_label s n v) (n, false) ls) = (ExemplarMaxLabelSetLength <? n + rune_sum ls)%nat.
Proof.
  unfold rune_sum. induction ls as [|l ls IH]; intros n Hn; cbn [fold_labels map sum_list_with id].
  - cbn [snd]. symmetry. apply Nat.ltb_ge. lia.
  - unfold count_label at 1. cbn [fst]. destruct (Nat.ltb_spec ExemplarMaxLabelSetLength (n + RuneCountInString (Name l) + RuneCountInString (Value l))).
    + cbn [snd]. symmetry. apply Nat.ltb_lt. lia.
    + rewrite IH by lia. f_equal. lia.
Qed.

Lemma labels_too_long_readable l : readable l -> labels_too_long l = Some (too_long l).
Proof.
  intros (ls & Hs & ->). unfold labels_too_long, too_long. rewrite for_labels_enc, Range_enc by done. cbn [mbind option_bind]. by rewrite count_labels by (cbn; lia).
Qed.

(** Dropping the oldest slot from a chain keeps the insertion index, unless it
    was that slot. *)
Lemma between_drop es es' L L' p t i : NoDup L -> StronglySorted (fun x y => time es x <= time es y) L ->
  (forall x, time es' x = time es x) -> L' = filter (fun x => x <> p) L -> between_ok es L t i -> (p ∈ L -> i <> Some (Z.of_nat p)) ->
  between_ok es' L' t i.
Proof.
  intros Hnd Hs Ht -> Hi Hp A' B' E HA HB HA' HB'. destruct (split_at (time es) t L Hs) as (A & B & -> & H1 & H2). rewrite filter_app in E.
  assert (Hsub : forall L P, Forall P L -> Forall P (filter (fun x => x <> p) L)).
  { intros L P HL. rewrite Forall_forall in HL. apply Forall_forall. intros x [_ Hx]%list_elem_of_filter. by apply HL. }
  assert (Hcv : forall (P Q : Z -> Prop) L, (forall z, P z -> Q z) -> Forall (fun x => P (time es' x)) L -> Forall (fun x => Q (time es x)) L).
  { intros P Q L HPQ HL. eapply Forall_impl; [exact HL|]. intros x. cbv beta. rewrite Ht. apply HPQ. }
  destruct (split_unique (time es) t _ _ _ _ E) as [<- <-].
  - by apply Hsub.
  - by apply Hsub.
  - by apply (Hcv (fun z => z <= t) (fun z => z <= t)).
  - by apply (Hcv (fun z => t < z) (fun z => t < z)).
  - assert (A <> [] /\ B <> []) as [HAne HBne] by (split; intros ->; by rewrite filter_nil in *).
    rewrite (Hi A B eq_refl HAne HBne H1 H2). f_equal. destruct A as [|a A _] using rev_ind; [done|].
    rewrite filter_app, filter_cons, filter_nil. destruct (decide (a <> p)) as [_|Ha]; [by autorewrite with ends|].
    destruct (decide (a = p)) as [->|]; [|tauto]. exfalso. apply Hp; [set_solver|]. rewrite (Hi (A ++ [p]) B eq_refl HAne HBne H1 H2). by autorewrite with ends.
Qed.

Lemma between_recomputed holes ce E pos its r e ie i :
  rep_at holes ce E pos its -> slots_of (exemplars ce) pos r <> [] -> heap ce !! r = Some ie -> entry_ok (exemplars ce) ie (slots_of (exemplars ce) pos r) ->
  findInsertionIndex e ie ce = Some i -> between_ok (exemplars ce) (slots_of (exemplars ce) pos r) (Ts e) (Some i).
Proof.
  intros R Hne Hie Hok Hf A B EL HA HB HA' HB'. rewrite EL in *. rewrite (findInsertionIndex_spec _ _ _ _ _ _ _ _ _ _ R EL Hok HA' HB') in Hf. by destruct A.
Qed.

Lemma findInsertionIndex_total holes ce E pos its r e ie :
  rep_at holes ce E pos its -> entry_ok (exemplars ce) ie (slots_of (exemplars ce) pos r) -> exists i, findInsertionIndex e ie ce = Some i.
Proof.
  intros R Hok. destruct (split_at (time (exemplars ce)) (Ts e) _ (slots_of_sorted (exemplars ce) pos r)) as (A & B & EL & HA & HB). rewrite EL in Hok.
  rewrite (findInsertionIndex_spec _ _ _ _ _ _ _ _ _ _ R EL Hok HA HB). by eexists.
Qed.

Lemma keep_last_all {A} n (xs : list A) : (length xs <= n)%nat -> keep_last n xs = xs.
Proof. intros H. unfold keep_last. replace (length xs - n)%nat with 0%nat by lia. done. Qed.

Section Room.
Context {holes : gset nat} {ce : CircularExemplarStorage} {E pos : list nat} {its : list (Labels * Exemplar)} (R : rep_at holes ce E pos its).

Lemma rep_length : (length E + length its = length (exemplars ce))%nat.
Proof.
  pose proof (length_ring (Z.to_nat (nextIndex ce)) (length (exemplars ce)) ltac:(apply R)) as H.
  rewrite (rep_ring _ _ _ _ _ R), length_app in H. pose proof (Forall2_length _ _ _ (rep_items _ _ _ _ _ R)). lia.
Qed.

Lemma rep_first x rest : E ++ pos = x :: rest -> nextIndex ce = Z.of_nat x.
Proof.
  intros Hx. destruct (rep_next _ _ _ _ _ R) as (H1 & H2 & H3). pose proof (rep_ring _ _ _ _ _ R) as Hr. rewrite Hx in Hr.
  assert (Hlen : (x < length (exemplars ce))%nat) by (apply (rep_bound R); rewrite Hx; left).
  destruct (ring_advance (Z.to_nat (nextIndex ce)) (length (exemplars ce))) as (r & Hr' & _).
  { assert (exemplars ce <> []) by (intros H; rewrite H in Hlen; cbn in Hlen; lia). specialize (H3 ltac:(done)). lia. }
  rewrite Hr' in Hr. injection Hr as Hr _. lia.
Qed.
End Room.

(** What make_room hands to link_entry: a free slot at nextIndex, one item fewer
    if the ring was full, and an insertion index for the chain that is left. *)
Record room (ce ce' : CircularExemplarStorage) (its : list (Labels * Exemplar)) (l : Labels) (r : nat) (t : Z) (exists' : bool) (between : option Z) : Prop := {
  room_same : nextIndex ce' = nextIndex ce /\ metrics ce' = metrics ce /\ oooTimeWindowMillis ce' = oooTimeWindowMillis ce /\ length (exemplars ce') = length (exemplars ce);
  room_index : index ce' !! data l = Some r;
  room_rep : exists n E pos, rep_at {[r]} ce' (n :: E) pos (keep_last (length (exemplars ce) - 1) its) /\
    exists' = negb (bool_decide (slots_of (exemplars ce') pos r = [])) /\ between_ok (exemplars ce') (slots_of (exemplars ce') pos r) t between
}.

Lemma make_room_full holes ce p pos it its l e r between :
  rep_at holes ce [] (p :: pos) (it :: its) -> holes ⊆ {[r]} -> index ce !! data l = Some r ->
  between_ok (exemplars ce) (slots_of (exemplars ce) (p :: pos) r) (Ts e) between ->
  exists ce' exists' between',
    make_room e r (negb (bool_decide (slots_of (exemplars ce) (p :: pos) r = []))) between ce = Some (ce', exists', between') /\
    room ce ce' (it :: its) l r (Ts e) exists' between'.
Proof.
  intros R Hh Hl Hb. destruct (evict_rep _ _ _ _ _ _ _ R) as (r' & ce' & emptied & Hr' & Hi' & Hrm & (S1 & S2 & S3 & S4 & S5) & Hsl & Hex & Hemp & R').
  pose proof (rep_length R) as Hlen. cbn in Hlen. assert (Hkeep : keep_last (length (exemplars ce) - 1) (it :: its) = its).
  { rewrite <-Hlen. unfold keep_last. cbn [length]. replace (S (length its) - (S (length its) - 1))%nat with 1%nat by lia. done. }
  assert (Hp : (p < length (exemplars ce))%nat) by (apply (rep_bound R); left).
  assert (Hin : p ∈ slots_of (exemplars ce) (p :: pos) r <-> r' = r).
  { unfold slots_of. rewrite elem_of_sort_by, list_elem_of_filter. unfold owned. rewrite Hr'. split; [by intros [[= ->] _]|intros ->; split; [done|left]]. }
  assert (Hbd : (p ∈ slots_of (exemplars ce) (p :: pos) r -> between <> Some (Z.of_nat p)) -> between_ok (exemplars ce') (slots_of (exemplars ce') pos r) (Ts e) between).
  { intros H. apply (between_drop (exemplars ce) _ (slots_of (exemplars ce) (p :: pos) r) _ p); [apply (slots_of_NoDup R)|apply slots_of_sorted| |apply Hsl|done|done].
    intros x. unfold time. by rewrite Hex. }
  unfold make_room. rewrite (rep_first R p pos eq_refl), get_slot by done. cbn [mbind option_bind]. rewrite Hr', Hrm. cbn [mbind option_bind].
  assert (Hne : r' <> r -> slots_of (exemplars ce') pos r = slots_of (exemplars ce) (p :: pos) r).
  { intros H. rewrite Hsl. apply filter_ne_notin. by intros ?%Hin. }
  assert (Hroom : forall h b bt, rep_at h ce' [p] pos its -> h ⊆ {[r]} -> b = negb (bool_decide (slots_of (exemplars ce') pos r = [])) ->
    between_ok (exemplars ce') (slots_of (exemplars ce') pos r) (Ts e) bt -> room ce ce' (it :: its) l r (Ts e) b bt).
  { intros h b bt Rh Hsub Hb' Hbt. split; [by rewrite S1, S2, S3, S5|by rewrite S4|]. rewrite Hkeep. exists p, [], pos. split_and!; [|done|done].
    eapply rep_holes; [exact Rh|]. intros k r0 _ ? _. by apply Hsub. }
  cbn [app] in R'. destruct emptied; symmetry in Hemp; [apply bool_decide_eq_true in Hemp|apply bool_decide_eq_false in Hemp].
  - destruct (Nat.eqb_spec r' r) as [->|Hr].
    + do 3 eexists. split; [done|]. apply (Hroom ({[r]} ∪ holes)); [done|set_solver|by rewrite Hemp|]. rewrite Hemp. intros A B HAB HA _. by destruct A.
    + destruct (removeIndex_rep _ _ _ _ _ _ r' R' ltac:(rewrite S4; exact Hi') Hemp) as [-> R'']. cbn [mbind option_bind]. do 3 eexists. split; [done|].
      split; [cbn; by rewrite S1, S2, S3, S5| |].
      * cbn. rewrite lookup_delete_ne, S4; [done|]. intros Heq. rewrite Heq, Hl in Hi'. congruence.
      * rewrite Hkeep. exists p, [], pos. cbn [exemplars with_index]. rewrite Hne by done. split_and!; [|done|].
        -- eapply rep_holes; [exact R''|]. set_solver.
        -- rewrite <-Hne by done. apply Hbd. by intros ?%Hin.
  - assert (Hex' : negb (bool_decide (slots_of (exemplars ce) (p :: pos) r = [])) = negb (bool_decide (slots_of (exemplars ce') pos r = []))).
    { destruct (decide (r' = r)) as [->|H]; [|by rewrite Hne]. rewrite !bool_decide_false; [done|done|]. intros H. rewrite H in Hin. apply (proj1 (elem_of_nil p)). by apply Hin. }
    rewrite Hex', S1, (rep_first R p pos eq_refl). destruct between as [i|].
    + destruct (Z.eqb_spec i (Z.of_nat p)) as [->|Hi], (Nat.eqb_spec r' r) as [->|Hr]; cbn [andb].
      * destruct (rep_index _ _ _ _ _ R' (data l) r ltac:(by rewrite S4)) as (ie & Hie & _ & [[? _]|[HL Hok]]); [done|]. rewrite Hie. cbn [mbind option_bind].
        destruct (findInsertionIndex_total _ _ _ _ _ _ e _ R' Hok) as (i & Hf). rewrite Hf. cbn [mbind option_bind]. do 3 eexists. split; [done|].
        apply (Hroom holes); [done|done|done|]. by eapply between_recomputed.
      * do 3 eexists. split; [done|]. apply (Hroom holes); [done|done|done|]. apply Hbd. by intros ?%Hin.
      * do 3 eexists. split; [done|]. apply (Hroom holes); [done|done|done|]. apply Hbd. congruence.
      * do 3 eexists. split; [done|]. apply (Hroom holes); [done|done|done|]. apply Hbd. congruence.
    + do 3 eexists. split; [done|]. apply (Hroom holes); [done|done|done|]. apply Hbd. congruence.
Qed.

Lemma make_room_rep holes ce E pos its l e r between :
  rep_at holes ce E pos its -> exemplars ce <> [] -> holes ⊆ {[r]} -> index ce !! data l = Some r ->
  between_ok (exemplars ce) (slots_of (exemplars ce) pos r) (Ts e) between ->
  exists ce' exists' between',
    make_room e r (negb (bool_decide (slots_of (exemplars ce) pos r = []))) between ce = Some (ce', exists', between') /\
    room ce ce' its l r (Ts e) exists' between'.
Proof.
  intros R Hes Hh Hl Hb. pose proof (rep_length R) as Hlen. destruct E as [|n E].
  - destruct its as [|it its]; [by destruct (exemplars ce)|].
    destruct pos as [|p pos]; [by pose proof (Forall2_length _ _ _ (rep_items _ _ _ _ _ R))|]. by eapply make_room_full.
  - unfold make_room. destruct (ring_head _ _ _ _ _ _ R) as (-> & Hn & _). rewrite get_slot by done. cbn [mbind option_bind].
    pose proof (rep_empty _ _ _ _ _ R) as He. apply Forall_cons in He as [-> _]. do 3 eexists. split; [done|]. split; [done|done|].
    cbn in Hlen. rewrite keep_last_all by lia. exists n, E, pos. split_and!; [|done|done]. eapply rep_holes; [exact R|]. intros k r' _ ? _. by apply Hh.
Qed.

Definition rep (ce : CircularExemplarStorage) (lg : ExLog) : Prop :=
  length (exemplars ce) = capacity lg /\ oooTimeWindowMillis ce = window lg /\ exists E pos, rep_at ∅ ce E pos (items lg).

Lemma rep_with_metrics ce lg m : rep ce lg -> rep (with_metrics m ce) lg.
Proof. intros (H1 & H2 & E & pos & [R1 R2 R3 R4 R5]). split_and!; [done|done|]. exists E, pos. by split. Qed.

Lemma computeMetrics_rep ce lg : rep ce lg -> exists ce', computeMetrics ce = Some ce' /\ rep ce' lg.
Proof.
  intros Rp. pose proof Rp as (_ & _ & E & pos & R). unfold computeMetrics. destruct (exemplars ce) as [|first es] eqn:Ees; [eexists; split; [done|by apply rep_with_metrics]|].
  rewrite <-Ees. destruct (rep_next _ _ _ _ _ R) as (H1 & H2 & H3). specialize (H3 ltac:(by rewrite Ees)).
  assert (Hg : get (exemplars ce) (nextIndex ce) = Some (slot (exemplars ce) (Z.to_nat (nextIndex ce)))).
  { rewrite <-(Z2Nat.id (nextIndex ce)) at 1 by done. apply get_slot. lia. }
  rewrite Hg. cbn [mbind option_bind]. destruct (ref _); (eexists; split; [done|by apply rep_with_metrics]).
Qed.

(** The series of a label set: its chain, the newest slot of it, and the log's
    view of them. *)
Lemma series_known ce E pos its l r : rep_at ∅ ce E pos its -> index ce !! data l = Some r ->
  exists ie z, heap ce !! r = Some ie /\ slots_of (exemplars ce) pos r <> [] /\ entry_ok (exemplars ce) ie (slots_of (exemplars ce) pos r) /\
    newest ie = Z.of_nat z /\ (z < length (exemplars ce))%nat /\
    last (sort_by Ts (map snd (filter (fun it => fst it = l) its))) = Some (exemplar (slot (exemplars ce) z)).
Proof.
  intros R Hl. destruct (rep_index _ _ _ _ _ R _ _ Hl) as (ie & Hie & _ & [[_ ?]|[Hne Hok]]); [set_solver|].
  pose proof Hok as (_ & Hn & _). destruct (last_or_elem noExemplar _ Hne) as (z & Hz & Hlast & Hin). exists ie, z. split_and!; [done|done|done|congruence| |].
  - by apply (slots_of_sub R) in Hin as (_ & _ & ?).
  - rewrite <-(slots_values R l r Hl). change (map ?f ?L) with (f <$> L). by rewrite fmap_last, Hlast.
Qed.

Lemma series_unknown ce E pos its l holes : rep_at holes ce E pos its -> index ce !! data l = None -> filter (fun it => fst it = l) its = [].
Proof.
  intros R Hl. apply filter_none. pose proof (rep_items _ _ _ _ _ R) as Hits. clear R. induction Hits as [|x it pos its (r & _ & _ & Hi) _ IH]; constructor; [|done].
  intros <-. congruence.
Qed.

Section Adding.
Context (Sum64 : gostr -> Z).

Lemma validate_spec ce lg l e appended : rep ce lg -> readable (ex_Labels e) ->
  exists ce', validateExemplar Sum64 (index ce !! data l) e appended ce = Some (ce', log_validate Sum64 l e lg) /\
    (ce' = ce \/ ce' = count_outOfOrder ce) /\ (log_validate Sum64 l e lg = None -> ce' = ce).
Proof.
  intros (Hlen & Hw & E & pos & R) Hread. unfold validateExemplar, log_validate. rewrite <-Hlen.
  destruct (exemplars ce) as [|first es] eqn:Ees; [exists ce; by split_and!; [|left|]|]. cbn [length Nat.eqb]. rewrite <-Ees.
  rewrite labels_too_long_readable by done. cbn [mbind option_bind]. destruct (too_long (ex_Labels e)); [exists ce; by split_and!; [|left|]|].
  unfold series_log. destruct (index ce !! data l) as [r|] eqn:Hl.
  - destruct (series_known _ _ _ _ _ _ R Hl) as (ie & z & -> & _ & _ & Hnz & Hz & ->). cbn [mbind option_bind].
    rewrite Hnz, get_slot by done. cbn [mbind option_bind].
    rewrite <-Hw. destruct (Exemplar_Equals _ _); [exists ce; by split_and!; [|left|]|].
    destruct (ordered_before _ _ _); [|exists ce; by split_and!; [|left|]]. destruct appended; eexists; (split_and!; [done| |done]); [by right|by left].
  - rewrite (series_unknown _ _ _ _ _ _ R Hl). cbn. exists ce. by split_and!; [|left|].
Qed.

Lemma validate_false ce lg l e : rep ce lg -> readable (ex_Labels e) ->
  validateExemplar Sum64 (index ce !! data l) e false ce = Some (ce, log_validate Sum64 l e lg).
Proof.
  intros Rp He. destruct (validate_spec ce lg l e false Rp He) as (ce' & Hv & _). assert (ce' = ce) as ->; [|done].
  unfold validateExemplar in Hv. destruct (exemplars ce); [by simplify_eq|]. rewrite labels_too_long_readable in Hv by done. cbn [mbind option_bind] in Hv.
  destruct (too_long (ex_Labels e)); [by simplify_eq|]. destruct (index ce !! data l) as [r|]; [|by simplify_eq].
  destruct (heap ce !! r); [|done]. cbn [mbind option_bind] in Hv. destruct (get _ _); [|done]. cbn [mbind option_bind] in Hv.
  destruct (Exemplar_Equals _ _); [by simplify_eq|]. destruct (ordered_before _ _ _ _); by simplify_eq.
Qed.

Lemma keep_last_snoc {A} n (xs : list A) x : (0 < n)%nat -> keep_last n (xs ++ [x]) = keep_last (n - 1) xs ++ [x].
Proof.
  intros Hn. unfold keep_last. rewrite length_app. cbn [length]. rewrite drop_app_le by lia. f_equal. f_equal. lia.
Qed.

Lemma store_entry_rep holes ce E pos its l e r between lg :
  rep_at holes ce E pos its -> exemplars ce <> [] -> holes ⊆ {[r]} -> index ce !! data l = Some r ->
  between_ok (exemplars ce) (slots_of (exemplars ce) pos r) (Ts e) between ->
  length (exemplars ce) = capacity lg -> oooTimeWindowMillis ce = window lg -> its = items lg ->
  exists ce', store_entry e r (negb (bool_decide (slots_of (exemplars ce) pos r = []))) between ce = Some ce' /\ rep ce' (log_accept l e lg).
Proof.
  intros R Hes Hh Hl Hb Hlen Hw ->. unfold store_entry.
  destruct (make_room_rep _ _ _ _ _ _ _ _ _ R Hes Hh Hl Hb) as (ce1 & ex & bt & -> & [(_ & _ & Hw1 & Hlen1) Hl1 (n & E1 & pos1 & R1 & -> & Hb1)]).
  cbn [mbind option_bind]. destruct (link_rep _ _ _ _ _ _ l e r bt R1 Hl1 Hb1) as (ce2 & -> & (_ & _ & Hw2 & _ & Hlen2) & R2). cbn [mbind option_bind].
  change (with_nextIndex _ ce2) with (advance ce2). apply computeMetrics_rep, rep_with_metrics. split_and!.
  - cbn. congruence.
  - cbn. congruence.
  - cbn [items log_accept]. rewrite keep_last_snoc by (rewrite <-Hlen; destruct (exemplars ce); [done|cbn; lia]). exists E1, (pos1 ++ [n]). rewrite <-Hlen.
    eapply rep_holes; [exact R2|]. set_solver.
Qed.

(** The duplicate check at the insertion index sees every exemplar of the same
    time. *)
Lemma past_duplicate_spec es L A B t f :
  L = A ++ B -> StronglySorted (fun x y => time es x <= time es y) L ->
  Forall (fun x => time es x <= t) A -> Forall (fun x => t < time es x) B -> (forall x, Ts (f x) = time es x) ->
  existsb (fun x => Ts x =? t) (map f L) = match last A with Some x => time es x =? t | None => false end.
Proof.
  intros -> Hs HA HB Hf. rewrite map_app, existsb_app.
  assert (EB : existsb (fun x => Ts x =? t) (map f B) = false).
  { clear -HB Hf. induction HB as [|x B Hx _ IH]; [done|]. cbn. rewrite IH, Hf, (proj2 (Z.eqb_neq _ _)) by lia. done. }
  rewrite EB, orb_false_r. destruct A as [|a A _] using rev_ind; [done|]. rewrite last_snoc, map_app, existsb_app. cbn [map existsb]. rewrite orb_false_r, Hf.
  destruct (Z.eqb_spec (time es a) t) as [He|Hne]; [by rewrite orb_true_r|]. rewrite orb_false_r. apply Forall_app in HA as [HA [Ha _]%Forall_cons].
  rewrite <-app_assoc in Hs. apply StronglySorted_app in Hs as (Hle & _ & _). clear -Hle HA Ha Hne Hf.
  assert (H : Forall (fun x => time es x < t) A). { apply Forall_forall. intros x Hx. specialize (Hle x a Hx ltac:(left)). lia. }
  clear -H Hf. induction H as [|x A Hx _ IH]; [done|]. cbn. rewrite IH, Hf, (proj2 (Z.eqb_neq _ _)) by lia. done.
Qed.

(** A new series: an index entry without slots. *)
Definition new_entry (l : Labels) (r : nat) (ce : CircularExemplarStorage) : CircularExemplarStorage :=
  with_index (<[data l := r]> (index ce)) (with_heap (<[r := mk_indexEntry 0 0 l]> (heap ce)) ce).

Lemma new_entry_rep ce E pos its l r : rep_at ∅ ce E pos its -> index ce !! data l = None -> heap ce !! r = None ->
  slots_of (exemplars ce) pos r = [] /\ rep_at {[r]} (new_entry l r ce) E pos its.
Proof.
  intros R Hl Hr.
  assert (Hno : forall k r', index ce !! k = Some r' -> r' <> r).
  { intros k r' Hk ->. destruct (rep_index _ _ _ _ _ R _ _ Hk) as (ie & Hie & _). congruence. }
  assert (HL : slots_of (exemplars ce) pos r = []).
  { apply sort_by_nil, filter_none, Forall_forall. intros x Hx Ho. pose proof (rep_items _ _ _ _ _ R) as Hits.
    apply list_elem_of_lookup in Hx as (i & Hi). destruct (Forall2_lookup_l _ _ _ _ _ Hits Hi) as (it & _ & (r' & H1 & _ & H3)). apply Hno in H3. unfold owned in Ho. congruence. }
  split; [done|]. split; cbn [nextIndex exemplars index heap new_entry with_index with_heap]; try apply R.
  - pose proof (rep_items _ _ _ _ _ R) as Hits. eapply Forall2_impl; [exact Hits|]. intros x it (r' & H1 & H2 & H3). exists r'. split_and!; [done|done|].
    cbn. rewrite lookup_insert_ne; [done|]. intros E'. rewrite <-E' in H3. congruence.
  - intros k r' [(<- & <-)|(Hne & Hk)]%lookup_insert_Some.
    + rewrite lookup_insert_eq. eexists. split_and!; [done|done|]. left. split; [exact HL|set_solver].
    + rewrite lookup_insert_ne by (intros <-; by apply (Hno k r)). destruct (rep_index _ _ _ _ _ R _ _ Hk) as (ie & ? & ? & [[? ?]|?]); [set_solver|].
      exists ie. split_and!; [done|done|by right].
Qed.

Lemma add_known ce lg l e E pos r : rep_at ∅ ce E pos (items lg) -> index ce !! data l = Some r ->
  exists bt, find_between e r ce = Some bt /\ between_ok (exemplars ce) (slots_of (exemplars ce) pos r) (Ts e) bt /\
    (match bt with Some i => s ← get (exemplars ce) i; Some (Ts (exemplar s) =? Ts e) | None => Some false end) = Some (past_duplicate l e lg).
Proof.
  intros R Hl. destruct (series_known _ _ _ _ _ _ R Hl) as (ie & z & Hie & Hne & Hok & Hnz & Hz & Hlast).
  pose proof (slots_of_sorted (exemplars ce) pos r) as Hs. destruct (split_at (time (exemplars ce)) (Ts e) _ Hs) as (A & B & EL & HA & HB).
  assert (Hpd : past_duplicate l e lg = negb (bool_decide (B = [])) && match last A with Some x => time (exemplars ce) x =? Ts e | None => false end).
  { unfold past_duplicate, series_log. rewrite Hlast. rewrite <-(slots_values R l r Hl), (past_duplicate_spec (exemplars ce) _ A B (Ts e)) by done.
    rewrite EL in Hne, Hok. destruct (newest_le ce ie (Ts e) A B Hne Hok HA HB) as (y & Hy & _ & _ & Hc). assert (y = z) as -> by lia. unfold time in Hc.
    by rewrite Z.ltb_antisym, Hc. }
  rewrite EL in *. rewrite (find_between_spec _ _ _ _ _ _ _ _ A B R Hie Hne EL Hok HA HB). eexists. split; [done|]. split.
  - intros A' B' E' HA' HB' H1 H2. destruct (split_unique _ _ _ _ _ _ E' HA HB H1 H2) as [<- <-]. by rewrite !bool_decide_false.
  - rewrite Hpd. destruct (bool_decide (A = []) || bool_decide (B = [])) eqn:Eb.
    + apply orb_true_iff in Eb as [->%bool_decide_eq_true| ->%bool_decide_eq_true]; cbn; by rewrite ?andb_false_r.
    + apply orb_false_iff in Eb as [HA'%bool_decide_eq_false HB'%bool_decide_eq_false]. destruct (last_or_elem noExemplar A HA') as (a & -> & -> & Ha).
      rewrite bool_decide_false, get_slot; [done| |done]. eapply (slots_of_sub R r). rewrite EL. set_solver.
Qed.

Lemma AddExemplar_rep ce lg l e : rep ce lg -> readable (ex_Labels e) ->
  exists ce', AddExemplar Sum64 l e ce = Some (ce', snd (log_add Sum64 l e lg)) /\ rep ce' (fst (log_add Sum64 l e lg)).
Proof.
  intros Rp Hread. destruct (validate_spec ce lg l e true Rp Hread) as (ce1 & Hv & Hce1 & Hsame).
  unfold AddExemplar, log_add. destruct (exemplars ce) as [|first es] eqn:Ees.
  { unfold log_validate. pose proof Rp as (Hlen & _). rewrite <-Hlen, Ees. cbn. by exists ce. }
  assert (Hes : exemplars ce <> []) by congruence. clear first es Ees.
  rewrite Hv. cbn [mbind option_bind]. assert (Rp1 : rep ce1 lg) by (destruct Hce1 as [->| ->]; [done|by apply rep_with_metrics]).
  destruct (log_validate Sum64 l e lg) as [err|]; [by destruct err; exists ce1|]. rewrite (Hsame eq_refl). clear ce1 Hv Hce1 Hsame Rp1.
  pose proof Rp as (Hlen & Hw & E & pos & R). destruct (index ce !! data l) as [r|] eqn:Hl; cbn [mbind option_bind].
  - destruct (add_known _ _ l e _ _ _ R Hl) as (bt & -> & Hbt & Hdup). cbn [mbind option_bind].
    rewrite Hdup. cbn [mbind option_bind]. destruct (past_duplicate l e lg); [by exists ce|].
    destruct (series_known _ _ _ _ _ _ R Hl) as (_ & _ & _ & Hne & _). 
    destruct (store_entry_rep ∅ ce E pos (items lg) l e r bt lg R Hes ltac:(set_solver) Hl Hbt Hlen Hw eq_refl) as (ce' & Hst & Rp').
    rewrite bool_decide_false in Hst by done. rewrite bool_decide_true by done. cbn [negb] in Hst. rewrite Hst. by exists ce'.
  - assert (Hpd : past_duplicate l e lg = false) by (unfold past_duplicate, series_log; by rewrite (series_unknown _ _ _ _ _ _ R Hl)). rewrite Hpd.
    change (with_index _ _) with (new_entry l (fresh (dom (heap ce))) ce). set (r := fresh (dom (heap ce))).
    assert (Hr : heap ce !! r = None) by (apply not_elem_of_dom, is_fresh). destruct (new_entry_rep _ _ _ _ _ _ R Hl Hr) as [HL R'].
    destruct (store_entry_rep {[r]} (new_entry l r ce) E pos (items lg) l e r None lg R' Hes ltac:(set_solver)) as (ce' & Hst & Rp'); [apply lookup_insert_eq| |done|done|done|].
    { cbn. rewrite HL. intros A B HAB HA. by destruct A. }
    cbn [exemplars new_entry with_index with_heap] in Hst. rewrite HL, bool_decide_true in Hst by done. rewrite bool_decide_false by (by intros [? ?]). cbn [negb] in Hst.
    rewrite Hst. by exists ce'.
Qed.
End Adding.

(** ** Resizing *)

Definition range_pos (rng : intRange) : list nat := seq (Z.to_nat (from rng)) (Z.to_nat (to rng - from rng)).
Definition valid_range (len : nat) (rng : intRange) : Prop := 0 <= from rng <= to rng /\ to rng <= Z.of_nat len.

Fixpoint offsets_from (n : nat) (ranges : list intRange) : list Z :=
  match ranges with [] => [] | rng :: ranges => (Z.of_nat n - from rng) :: offsets_from (n + length (range_pos rng)) ranges end.

Lemma slice_slots es a k : (a + k <= length es)%nat -> take k (drop a es) = map (slot es) (seq a k).
Proof.
  revert a. induction k as [|k IH]; intros a H; [done|]. destruct (drop a es) as [|x rest] eqn:E.
  { assert (H' : length (drop a es) = 0%nat) by (by rewrite E). rewrite length_drop in H'. lia. }
  assert (Hx : es !! a = Some x) by (rewrite <-(Nat.add_0_r a), <-lookup_drop, E; done).
  assert (Hr : rest = drop (S a) es) by (rewrite <-(Nat.add_1_r a), <-drop_drop, E; done).
  cbn [take seq map]. rewrite Hr, IH by lia. rewrite slot_lookup in Hx by lia. by simplify_eq.
Qed.

Lemma copy_ranges_spec src ranges : forall dest n offs,
  Forall (valid_range (length src)) ranges -> (n + length (concat (map range_pos ranges)) <= length dest)%nat ->
  copy_ranges dest src ranges n offs =
    Some (take n dest ++ map (slot src) (concat (map range_pos ranges)) ++ drop (n + length (concat (map range_pos ranges))) dest,
          (n + length (concat (map range_pos ranges)))%nat, offs ++ offsets_from n ranges).
Proof.
  induction ranges as [|rng ranges IH]; intros dest n offs Hv Hlen; cbn [copy_ranges map concat offsets_from].
  - cbn. rewrite Nat.add_0_r, take_drop, app_nil_r. done.
  - apply Forall_cons in Hv as [(H1 & H2) Hv]. cbn [map concat] in Hlen. rewrite length_app in *.
    rewrite !(proj2 (Z.leb_le _ _)) by lia. cbn [andb]. rewrite slice_slots by lia.
    assert (Hpart : take (length dest - n) (map (slot src) (seq (Z.to_nat (from rng)) (Z.to_nat (to rng - from rng)))) = map (slot src) (range_pos rng)).
    { apply take_ge. rewrite length_map. fold (range_pos rng). lia. }
    rewrite Hpart, IH; [|done|].
    + rewrite length_map. f_equal. f_equal; [f_equal|by rewrite <-app_assoc].
      * rewrite (app_assoc (take n dest)), take_app_length', drop_app_ge by (rewrite length_app, length_take, length_map; lia).
        rewrite map_app, <-!app_assoc, length_app, length_take, length_map, drop_drop. do 4 f_equal. lia.
      * lia.
    + rewrite !length_app, length_take, length_map, length_drop. lia.
Qed.

Lemma relocate_pos len ranges : forall n x i, Forall (valid_range len) ranges -> NoDup (concat (map range_pos ranges)) ->
  concat (map range_pos ranges) !! i = Some x -> relocate ranges (offsets_from n ranges) (Z.of_nat x) = Z.of_nat (n + i).
Proof.
  induction ranges as [|rng ranges IH]; intros n x i Hv Hnd Hi; [done|]. apply Forall_cons in Hv as [(H1 & H2) Hv].
  cbn [map concat] in *. apply NoDup_app in Hnd as (_ & Hdis & Hnd). cbn [relocate offsets_from]. unfold contains.
  assert (Hin : x ∈ range_pos rng <-> from rng <= Z.of_nat x < to rng) by (unfold range_pos; rewrite elem_of_seq; lia).
  apply lookup_app_Some in Hi as [Hi|[Hge Hi]].
  - pose proof (proj1 Hin (list_elem_of_lookup_2 _ _ _ Hi)). rewrite (proj2 (Z.leb_le _ _)), (proj2 (Z.ltb_lt _ _)) by lia. cbn.
    unfold range_pos in Hi. apply lookup_seq in Hi as [-> ?]. lia.
  - assert (Hnin : x ∉ range_pos rng) by (intros H; apply (Hdis x H); by eapply list_elem_of_lookup_2).
    assert (Hc : (from rng <=? Z.of_nat x) && (Z.of_nat x <? to rng) = false).
    { apply not_true_is_false. intros [?%Z.leb_le ?%Z.ltb_lt]%andb_prop. apply Hnin, Hin. lia. }
    rewrite Hc, (IH _ _ _ Hv Hnd Hi). f_equal. lia.
Qed.

Lemma relocate_none len ranges offs : Forall (valid_range len) ranges -> relocate ranges offs noExemplar = noExemplar.
Proof.
  revert offs. induction ranges as [|rng ranges IH]; intros offs Hv; [done|]. apply Forall_cons in Hv as [(H1 & H2) Hv]. destruct offs as [|o offs]; [done|]. cbn [relocate].
  unfold contains, noExemplar in *. rewrite (proj2 (Z.leb_gt _ _)) by lia. cbn. by apply IH.
Qed.

(** Every entry of the index is relocated once. *)
Lemma foldr_alter (f : indexEntry -> indexEntry) rs (h : gmap nat indexEntry) r : NoDup rs -> r ∈ rs -> foldr (fun r h => alter f r h) h rs !! r = f <$> h !! r.
Proof.
  assert (Hno : forall rs, r ∉ rs -> foldr (fun r h => alter f r h) h rs !! r = h !! r).
  { induction rs0 as [|r0 rs0 IH]; intros Hr; [done|]. cbn. rewrite lookup_alter_ne by set_solver. apply IH. set_solver. }
  induction 1 as [|r0 rs Hr0 Hnd IH]; intros Hin; [by apply elem_of_nil in Hin|]. cbn. destruct (decide (r0 = r)) as [->|Hne].
  - by rewrite lookup_alter_eq, Hno.
  - rewrite lookup_alter_ne by done. apply IH. set_solver.
Qed.

Lemma index_refs_NoDup {holes ce E pos its} : rep_at holes ce E pos its -> NoDup (map snd (map_to_list (index ce))).
Proof.
  intros R. apply NoDup_fmap_2_strong; [|apply NoDup_map_to_list]. intros [k r] [k' r'] H1%elem_of_map_to_list H2%elem_of_map_to_list E'. cbn in E'. subst r'.
  f_equal. by eapply (index_inj R).
Qed.

(** Copying the slots [K = E' ++ pos] of a storage to the front of a new one. *)
Section Migration.
Context (ce : CircularExemplarStorage) (E E' pos : list nat) (its : list (Labels * Exemplar)) (R : rep_at ∅ ce E pos its).
Context (ranges : list intRange) (l : nat).
Let K : list nat := concat (map range_pos ranges).
Let rel : Z -> Z := relocate ranges (offsets_from 0 ranges).
Context (HK : K = E' ++ pos) (HE' : Forall (fun x => ref (slot (exemplars ce) x) = None) E') (Hnd : NoDup K).
Context (Hv : Forall (valid_range (length (exemplars ce))) ranges) (Hl : (length K <= l)%nat).

Definition migrated_slots : list circularBufferEntry :=
  map (relocate_entry ranges (offsets_from 0 ranges)) (map (slot (exemplars ce)) (concat (map range_pos ranges))) ++ repeat zero_entry (l - length (concat (map range_pos ranges))).
Definition migrated_heap : gmap nat indexEntry :=
  foldr (fun r h => alter (relocate_index ranges (offsets_from 0 ranges)) r h) (heap ce) (map snd (map_to_list (index ce))).

Lemma copyExemplarRanges_spec : exists migrated,
  copyExemplarRanges (index ce) (heap ce) (repeat zero_entry l) (exemplars ce) ranges = Some (migrated_slots, migrated_heap, length K, migrated).
Proof.
  unfold copyExemplarRanges. rewrite copy_ranges_spec by (try done; rewrite repeat_length; exact Hl). fold K. cbn [mbind option_bind]. rewrite take_0, Nat.add_0_l. cbn [app].
  rewrite take_app_length', drop_app_length' by (by rewrite length_map). eexists. f_equal. f_equal. f_equal. f_equal. unfold migrated_slots. fold K. f_equal.
  rewrite <-(Nat.sub_add (length K) l) at 1 by exact Hl. rewrite Nat.add_comm, repeat_app, drop_app_length'; [done|by rewrite repeat_length].
Qed.

Lemma migrated_length : length migrated_slots = l.
Proof. unfold migrated_slots. fold K. rewrite length_app, !length_map, repeat_length. lia. Qed.

Definition source_of (i : nat) : nat := nth i K 0%nat.

Lemma migrated_slot i : slot migrated_slots i = if decide (i < length K)%nat then relocate_entry ranges (offsets_from 0 ranges) (slot (exemplars ce) (source_of i)) else zero_entry.
Proof.
  unfold slot at 1, migrated_slots. fold K. case_decide as H.
  - rewrite app_nth1 by (by rewrite !length_map). rewrite (nth_indep _ _ (relocate_entry ranges (offsets_from 0 ranges) (slot (exemplars ce) 0%nat))) by (by rewrite !length_map).
    rewrite map_map. by rewrite (map_nth (fun x => relocate_entry ranges (offsets_from 0 ranges) (slot (exemplars ce) x))).
  - rewrite app_nth2 by (rewrite !length_map; lia). apply nth_repeat.
Qed.

Lemma rel_source i : (i < length K)%nat -> rel (Z.of_nat (source_of i)) = Z.of_nat i.
Proof.
  intros Hi. unfold rel. rewrite (relocate_pos (length (exemplars ce)) ranges 0 (source_of i) i); [done|done|done|]. fold K. unfold source_of.
  rewrite nth_lookup. destruct (K !! i) eqn:Ei; [done|]. apply lookup_ge_None in Ei. lia.
Qed.

Lemma rel_none : rel noExemplar = noExemplar.
Proof. by apply (relocate_none (length (exemplars ce))). Qed.

Definition new_pos : list nat := seq (length E') (length pos).

Lemma source_new_pos : map source_of new_pos = pos.
Proof.
  unfold new_pos, source_of. apply list_eq. intros i. change (map ?f ?L) with (f <$> L). rewrite list_lookup_fmap.
  destruct (decide (i < length pos)%nat) as [Hi|Hi].
  - rewrite lookup_seq_lt by done. cbn. rewrite HK, app_nth2 by lia. replace (length E' + i - length E')%nat with i by lia. rewrite nth_lookup.
    destruct (pos !! i) eqn:Ei; [done|]. apply lookup_ge_None in Ei. lia.
  - rewrite lookup_seq_ge by lia. symmetry. apply lookup_ge_None. lia.
Qed.

Lemma new_pos_lt i : i ∈ new_pos -> (i < length K)%nat.
Proof. unfold new_pos. rewrite elem_of_seq, HK, length_app. lia. Qed.

Lemma migrated_new i : i ∈ new_pos -> ref (slot migrated_slots i) = ref (slot (exemplars ce) (source_of i)) /\
  exemplar (slot migrated_slots i) = exemplar (slot (exemplars ce) (source_of i)) /\
  (ref (slot (exemplars ce) (source_of i)) <> None -> prev (slot migrated_slots i) = rel (prev (slot (exemplars ce) (source_of i))) /\ next (slot migrated_slots i) = rel (next (slot (exemplars ce) (source_of i)))).
Proof.
  intros Hi%new_pos_lt. rewrite migrated_slot, decide_True by done. unfold relocate_entry. destruct (ref (slot (exemplars ce) (source_of i))) eqn:Er; [|by rewrite Er].
  split_and!; [cbn; congruence|done|by intros _].
Qed.

Lemma migrated_slots_of r : map source_of (slots_of migrated_slots new_pos r) = slots_of (exemplars ce) pos r.
Proof.
  unfold slots_of. assert (Ef : map source_of (filter (owned migrated_slots r) new_pos) = filter (owned (exemplars ce) r) pos).
  { rewrite <-source_new_pos at 1. assert (H : forall L, (forall i, i ∈ L -> i ∈ new_pos) -> map source_of (filter (owned migrated_slots r) L) = filter (owned (exemplars ce) r) (map source_of L)).
    { induction L as [|i L IH]; intros HL; [done|]. rewrite filter_cons. cbn [map]. rewrite filter_cons.
      destruct (migrated_new i) as (Hr & _); [apply HL; left|]. rewrite <-IH by (intros j Hj; apply HL; by right).
      destruct (decide (owned migrated_slots r i)), (decide (owned (exemplars ce) r (source_of i))); unfold owned in *; congruence || done. }
    by apply H. }
  rewrite <-Ef, <-(map_sort_by source_of (time (exemplars ce))). f_equal. apply sort_by_ext.
  intros i [_ Hi]%list_elem_of_filter. unfold time. by destruct (migrated_new i Hi) as (_ & -> & _).
Qed.

Lemma rel_ends L : (forall i, i ∈ L -> (i < length K)%nat) -> rel (hd_or noExemplar (map source_of L)) = hd_or noExemplar L /\ rel (last_or noExemplar (map source_of L)) = last_or noExemplar L.
Proof.
  intros HL. split.
  - destruct L as [|i L]; [apply rel_none|]. apply rel_source, HL. left.
  - unfold last_or. change (map source_of L) with (source_of <$> L). rewrite fmap_last. destruct (last L) as [i|] eqn:Ei; [|apply rel_none]. apply rel_source, HL. by apply last_Some_elem_of.
Qed.

Definition migrated (n : nat) : CircularExemplarStorage := with_exemplars migrated_slots (with_nextIndex (Z.of_nat n) (with_heap migrated_heap ce)).

Lemma migrated_entry r ie sl : let L := slots_of (exemplars ce) pos r in let L' := slots_of migrated_slots new_pos r in
  L <> [] -> entry_ok (exemplars ce) ie L -> entry_ok migrated_slots (mk_indexEntry (rel (oldest ie)) (rel (newest ie)) sl) L'.
Proof.
  cbn. intros Hne (Ho & Hn & Hc). rewrite <-migrated_slots_of in *. set (L' := slots_of migrated_slots new_pos r) in *.
  assert (HL' : forall i, i ∈ L' -> i ∈ new_pos /\ owned migrated_slots r i).
  { intros i Hi. unfold L', slots_of in Hi. by apply elem_of_sort_by, list_elem_of_filter in Hi as [? ?]. }
  destruct (rel_ends L') as [H1 H2]; [intros i Hi; by apply new_pos_lt, HL'|]. unfold entry_ok. cbn [oldest newest]. rewrite Ho, Hn. split_and!; [done|done|].
  unfold linked. rewrite <-rel_none. eapply (chain_map _ _ _ _ source_of rel); [|exact Hc]. intros i Hi. cbn. destruct (HL' i Hi) as [Hp Hown].
  destruct (migrated_new i Hp) as (Hr & _ & Hlinks). destruct Hlinks as [-> ->]; [unfold owned in Hown; congruence|]. split_and!; [done|done|]. by apply rel_source, new_pos_lt.
Qed.

Lemma migrated_rep n Enew : ring n l = Enew ++ new_pos -> (n <= l)%nat -> (l <> 0 -> n < l)%nat ->
  Forall (fun x => (x < length E' \/ length K <= x)%nat) Enew -> rep_at ∅ (migrated n) Enew new_pos its.
Proof.
  intros Hring Hn Hn' HE. split; cbn [migrated exemplars nextIndex with_exemplars with_nextIndex with_heap index heap]; rewrite ?migrated_length, ?Nat2Z.id.
  - split_and!; [lia|lia|]. intros Hne. assert (l <> 0%nat) by (intros H0; apply Hne, nil_length_inv; by rewrite migrated_length). lia.
  - done.
  - eapply Forall_impl; [exact HE|]. intros x Hx. cbv beta. rewrite migrated_slot. case_decide as HxK; [|done]. destruct Hx as [Hx|Hx]; [|lia].
    rewrite Forall_forall in HE'. assert (Hs : ref (slot (exemplars ce) (source_of x)) = None).
    { apply HE'. unfold source_of. rewrite HK, app_nth1 by done. rewrite nth_lookup. destruct (E' !! x) eqn:Ex; [by eapply list_elem_of_lookup_2|]. apply lookup_ge_None in Ex. lia. }
    unfold relocate_entry. by rewrite Hs.
  - pose proof (rep_items _ _ _ _ _ R) as Hits. rewrite <-source_new_pos in Hits. apply (proj1 (Forall2_fmap_l _ _ _ _)) in Hits.
    eapply Forall2_impl_elem; [exact Hits|]. intros i it Hi (r & H1 & H2 & H3). destruct (migrated_new i Hi) as (Hr & Hex & _). exists r.
    cbn [migrated exemplars with_exemplars]. rewrite Hr, Hex. done.
  - intros k r Hk. destruct (rep_index _ _ _ _ _ R _ _ Hk) as (ie & Hie & Hd & [[_ ?]|[Hne Hok]]); [set_solver|]. unfold migrated_heap.
    rewrite foldr_alter, Hie; [|by eapply index_refs_NoDup|apply list_elem_of_fmap; exists (k, r); split; [done|by apply elem_of_map_to_list]].
    eexists. split_and!; [done|done|]. right. split; [|by eapply migrated_entry]. intros E0. apply Hne. by rewrite <-migrated_slots_of, E0.
Qed.
End Migration.

Lemma rep_items_length ce E pos its : rep_at ∅ ce E pos its -> length pos = length its.
Proof. intros R. apply (Forall2_length _ _ _ (rep_items _ _ _ _ _ R)). Qed.

Lemma grow_rep ce lg l : rep ce lg -> Z.of_nat (length (exemplars ce)) < l -> exists ce' m, grow l ce = Some (ce', m) /\ rep ce' (log_resize l lg).
Proof.
  intros (Hlen & Hw & E & pos & R) Hl. destruct (rep_next _ _ _ _ _ R) as (Hn0 & Hn1 & Hn2). set (len := length (exemplars ce)) in *.
  set (ranges := [mk_intRange (nextIndex ce) (Z.of_nat len); mk_intRange 0 (nextIndex ce)]).
  assert (HK : concat (map range_pos ranges) = E ++ pos).
  { rewrite <-(rep_ring _ _ _ _ _ R). cbn. unfold range_pos, ring. cbn [from to]. rewrite app_nil_r. fold len. f_equal; f_equal; lia. }
  assert (Hv : Forall (valid_range len) ranges) by (repeat constructor; cbn; lia).
  assert (HKl : length (concat (map range_pos ranges)) = len) by (rewrite HK, <-(rep_ring _ _ _ _ _ R); by apply length_ring).
  assert (Hnd : NoDup (concat (map range_pos ranges))) by (rewrite HK; apply (rep_NoDup R)).
  destruct (copyExemplarRanges_spec ce ranges (Z.to_nat l) Hv ltac:(lia)) as (m & Hcopy).
  unfold grow. fold len. fold ranges. rewrite Hcopy. cbn [mbind option_bind]. do 2 eexists. split; [done|].
  change (with_exemplars _ _) with (migrated ce ranges (Z.to_nat l) (length (concat (map range_pos ranges)))). rewrite HKl.
  pose proof (rep_items_length _ _ _ _ R) as Hpos. pose proof (rep_length R) as HEl. fold len in HEl. split_and!.
  - cbn [migrated exemplars with_exemplars capacity log_resize]. apply migrated_length. lia.
  - done.
  - exists (seq len (Z.to_nat l - len) ++ seq 0 (length E)), (new_pos E pos). cbn [items log_resize]. rewrite keep_last_all by lia.
    apply (migrated_rep ce E); [exact R|done|apply R|done|done|lia| |lia|lia|].
    + unfold ring, new_pos. rewrite <-app_assoc, <-seq_app. f_equal. f_equal. lia.
    + apply Forall_forall. intros x [Hx%elem_of_seq|Hx%elem_of_seq]%elem_of_app; lia.
Qed.

(** The loop of shrink frees the slots [i], ..., [i + diff - 1] of the ring. *)
Lemma delete_loop_rep diff : forall i ce E pos its, rep_at ∅ ce E pos its -> (i <= length E)%nat -> (i + diff <= length (exemplars ce))%nat ->
  exists ce' E' pos', delete_loop diff (Z.of_nat i) (nextIndex ce) (Z.of_nat (length (exemplars ce))) ce = Some ce' /\
    nextIndex ce' = nextIndex ce /\ oooTimeWindowMillis ce' = oooTimeWindowMillis ce /\ length (exemplars ce') = length (exemplars ce) /\
    rep_at ∅ ce' E' pos' (drop (i + diff - length E) its) /\ (i + diff <= length E')%nat.
Proof.
  induction diff as [|diff IH]; intros i ce E pos its R Hi Hlen.
  { exists ce, E, pos. split_and!; try done; [|lia]. by replace (i + 0 - length E)%nat with 0%nat by lia. }
  destruct (rep_next _ _ _ _ _ R) as (Hn0 & Hn1 & _).
  assert (Hidx : exists x, (nextIndex ce + Z.of_nat i) mod Z.of_nat (length (exemplars ce)) = Z.of_nat x /\ (E ++ pos) !! i = Some x).
  { pose proof (ring_lookup _ _ i Hn1 ltac:(lia)) as Hr. rewrite (rep_ring _ _ _ _ _ R) in Hr. eexists. split; [|exact Hr]. rewrite Nat2Z.inj_mod, Nat2Z.inj_add, Z2Nat.id; lia. }
  destruct Hidx as (x & Hx & Hlk). cbn [delete_loop]. rewrite Hx. assert (Hxb : (x < length (exemplars ce))%nat) by (apply (rep_bound R); by eapply list_elem_of_lookup_2).
  rewrite get_slot by done. cbn [mbind option_bind]. replace (Z.of_nat i + 1) with (Z.of_nat (S i)) by lia.
  destruct (decide (i < length E)%nat) as [HiE|HiE].
  - rewrite lookup_app_l in Hlk by done. pose proof (rep_empty _ _ _ _ _ R) as He. rewrite Forall_forall in He. specialize (He x ltac:(by eapply list_elem_of_lookup_2)).
    unfold removeExemplar. rewrite get_slot by done. cbn [mbind option_bind]. rewrite He. cbn [mbind option_bind].
    destruct (IH (S i) ce E pos its R ltac:(lia) ltac:(lia)) as (ce' & E' & pos' & ? & ? & ? & ? & ? & ?). exists ce', E', pos'.
    replace (i + S diff)%nat with (S i + diff)%nat by lia. done.
  - assert (i = length E) as -> by lia. rewrite lookup_app_r, Nat.sub_diag in Hlk by lia. destruct pos as [|p pos]; [done|]. cbn in Hlk. simplify_eq.
    destruct its as [|it its]; [by pose proof (rep_items_length _ _ _ _ R)|].
    destruct (evict_rep _ _ _ _ _ _ _ R) as (r & ce1 & emptied & Hr & Hir & -> & (S1 & _ & S3 & S4 & S5) & _ & _ & Hemp & R1). cbn [mbind option_bind]. rewrite Hr.
    assert (Hnext : exists ce2, (if emptied then removeIndex r ce1 else Some ce1) = Some ce2 /\ nextIndex ce2 = nextIndex ce /\ oooTimeWindowMillis ce2 = oooTimeWindowMillis ce /\
      length (exemplars ce2) = length (exemplars ce) /\ rep_at ∅ ce2 (E ++ [x]) pos its).
    { destruct emptied; symmetry in Hemp; [|by exists ce1]. apply bool_decide_eq_true in Hemp.
      destruct (removeIndex_rep _ _ _ _ _ _ r R1 ltac:(rewrite S4; exact Hir) Hemp) as [-> R2]. eexists. split; [done|]. split_and!; [done|done|done|].
      eapply rep_holes; [exact R2|]. set_solver. }
    destruct Hnext as (ce2 & -> & N1 & N2 & N3 & R2). cbn [mbind option_bind].
    destruct (IH (S (length E)) ce2 _ _ _ R2) as (ce' & E' & pos' & Hd & ? & ? & ? & R' & ?); [rewrite length_app; cbn; lia|lia|].
    rewrite N1, N3 in Hd. exists ce', E', pos'. split_and!; [done|congruence|congruence|congruence| |lia].
    rewrite length_app in R'. cbn [length] in R'. replace (length E + S diff - length E)%nat with (S (S (length E) + diff - (length E + 1))) by lia. exact R'.
Qed.

(** The ranges that shrink keeps are the ring without the freed slots. *)
Lemma shrink_ranges n len diff : (n <= len)%nat -> (0 < diff < len)%nat ->
  let deleteEnd := (Z.of_nat n + Z.of_nat diff) mod Z.of_nat len in
  let ranges := if Z.of_nat n <? deleteEnd then [mk_intRange deleteEnd (Z.of_nat len); mk_intRange 0 (Z.of_nat n)] else [mk_intRange deleteEnd (Z.of_nat n)] in
  (n < len)%nat -> (Z.of_nat n =? deleteEnd) = false /\ concat (map range_pos ranges) = drop diff (ring n len) /\ Forall (valid_range len) ranges.
Proof.
  intros Hn Hd deleteEnd ranges Hlt. unfold ranges, deleteEnd, ring. clear ranges deleteEnd. destruct (decide (n + diff < len)%nat) as [H|H].
  - rewrite Z.mod_small by lia. rewrite (proj2 (Z.ltb_lt _ _)), (proj2 (Z.eqb_neq _ _)) by lia. split_and!; [done| |repeat constructor; cbn; lia].
    rewrite drop_app_le by (rewrite length_seq; lia). rewrite skipn_seq. cbn. unfold range_pos. cbn [from to]. rewrite app_nil_r. f_equal; f_equal; lia.
  - assert (E : (Z.of_nat n + Z.of_nat diff) mod Z.of_nat len = Z.of_nat n + Z.of_nat diff - Z.of_nat len).
    { symmetry. apply (Z.mod_unique_pos _ _ 1); lia. }
    rewrite E, (proj2 (Z.ltb_ge _ _)), (proj2 (Z.eqb_neq _ _)) by lia. split_and!; [done| |repeat constructor; cbn; lia].
    rewrite drop_app_ge by (rewrite length_seq; lia). rewrite length_seq, skipn_seq. cbn. unfold range_pos. cbn [from to]. rewrite app_nil_r. f_equal; lia.
Qed.

(** Shrinking to nothing: no index entry is left either. *)
Lemma shrink_all_rep ce E' pos' its m : rep_at ∅ ce E' pos' its -> (length (exemplars ce) <= length E')%nat ->
  its = [] /\ rep_at ∅ (with_nextIndex 0 (with_exemplars [] (with_metrics m ce))) [] [] [].
Proof.
  intros R Hlen. pose proof (rep_length R) as HEl. pose proof (rep_items_length _ _ _ _ R) as Hpos.
  destruct its; [|cbn in HEl; lia]. destruct pos'; [|done]. split; [done|]. split; cbn; try done.
  intros k r Hk. destruct (rep_index _ _ _ _ _ R _ _ Hk) as (ie & _ & _ & [[_ ?]|[Hne _]]); [set_solver|]. by destruct Hne.
Qed.

Lemma shrink_rep ce lg l : rep ce lg -> 0 <= l < Z.of_nat (length (exemplars ce)) -> exists ce' m, shrink l ce = Some (ce', m) /\ rep ce' (log_resize l lg).
Proof.
  intros (Hlen & Hw & E & pos & R) Hl. destruct (rep_next _ _ _ _ _ R) as (Hn0 & Hn1 & Hn2). set (len := length (exemplars ce)) in *.
  assert (Hes : exemplars ce <> []) by (intros H; unfold len in Hl; rewrite H in Hl; cbn in Hl; lia). specialize (Hn2 Hes).
  set (n := Z.to_nat (nextIndex ce)) in *. assert (En : nextIndex ce = Z.of_nat n) by lia. set (diff := (len - Z.to_nat l)%nat).
  destruct (delete_loop_rep diff 0 ce E pos (items lg) R ltac:(lia) ltac:(fold len; lia)) as (ce1 & E1 & pos1 & Hdel & N1 & N2 & N3 & R1 & HE1).
  fold len in N3, Hdel. rewrite Nat.add_0_l in *. pose proof (rep_length R) as HEl. fold len in HEl.
  assert (Hits : drop (diff - length E) (items lg) = keep_last (Z.to_nat l) (items lg)) by (unfold keep_last; f_equal; lia). rewrite Hits in R1.
  unfold shrink. fold len. cbv zeta. replace (Z.to_nat (Z.of_nat len - l)) with diff by lia. change (Z.of_nat 0) with 0 in Hdel. rewrite Hdel. cbn [mbind option_bind].
  replace (Z.of_nat len - l) with (Z.of_nat diff) by lia. rewrite En in *.
  destruct (decide (l = 0)) as [->|Hl0].
  - assert (Hd : diff = len) by lia. rewrite Hd, (proj2 (Z.eqb_eq _ _)).
    2: { apply (Z.mod_unique_pos _ _ 1); lia. }
    do 2 eexists. split; [done|]. destruct (shrink_all_rep ce1 E1 pos1 _ (metrics ce1) R1 ltac:(lia)) as [Hi R2]. split_and!; [done|cbn; congruence|]. exists [], []. cbn [items log_resize]. rewrite Hi.
    by apply (rep_holes ∅).
  - destruct (shrink_ranges n len diff Hn1 ltac:(lia) ltac:(lia)) as (-> & HK & Hv). set (ranges := if _ <? _ then _ else _) in *.
    assert (Hring : ring n len = E1 ++ pos1) by (rewrite <-(rep_ring _ _ _ _ _ R1), N1, N3, Nat2Z.id; done).
    assert (HKl : length (concat (map range_pos ranges)) = Z.to_nat l) by (rewrite HK, length_drop, length_ring; lia).
    rewrite Hring, drop_app_le in HK by done. rewrite <-N3 in Hv.
    destruct (copyExemplarRanges_spec ce1 ranges (Z.to_nat l) Hv ltac:(lia)) as (m & Hcopy). rewrite Hcopy. cbn [mbind option_bind].
    do 2 eexists. split; [done|]. rewrite HKl, (Z2Nat.id l), Z_mod_same_full by lia.
    change (with_exemplars _ _) with (migrated ce1 ranges (Z.to_nat l) 0). split_and!.
    + cbn [migrated exemplars with_exemplars capacity log_resize]. apply migrated_length. lia.
    + cbn. congruence.
    + exists (seq 0 (length (drop diff E1))), (new_pos (drop diff E1) pos1). cbn [items log_resize].
      apply (migrated_rep ce1 E1); [exact R1|done| | |done|lia| |lia|lia|].
      * apply Forall_drop, R1.
      * rewrite HK. pose proof (rep_NoDup R1) as Hnd. rewrite <-(take_drop diff (E1 ++ pos1)) in Hnd. apply NoDup_app in Hnd as (_ & _ & Hnd). by rewrite drop_app_le in Hnd.
      * unfold ring, new_pos. rewrite HK, length_app in HKl. cbn [seq]. rewrite app_nil_r, Nat.sub_0_r, <-seq_app. f_equal. lia.
      * apply Forall_forall. intros x Hx%elem_of_seq. lia.
Qed.

Lemma Resize_rep ce lg l : rep ce lg -> exists ce' m, Resize l ce = Some (ce', m) /\ rep ce' (log_resize l lg).
Proof.
  intros Rp. unfold Resize. cbv zeta.
  assert (El : log_resize l lg = log_resize (if l <=? 0 then 0 else l) lg) by (destruct (Z.leb_spec l 0); [unfold log_resize; by replace (Z.to_nat l) with (Z.to_nat 0) by lia|done]).
  assert (Hl : 0 <= if l <=? 0 then 0 else l) by (destruct (Z.leb_spec l 0); lia). rewrite El. clear El. set (l' := if l <=? 0 then 0 else l) in *. clearbody l'. clear l.
  assert (Hgo : forall r : option (CircularExemplarStorage * nat), (exists ce' m, r = Some (ce', m) /\ rep ce' (log_resize l' lg)) ->
    exists ce' m, ('(ce, m) ← r; ce ← computeMetrics ce; Some (set_maxExemplars l' ce, m)) = Some (ce', m) /\ rep ce' (log_resize l' lg)).
  { intros r (ce1 & m & -> & R1). cbn [mbind option_bind]. destruct (computeMetrics_rep _ _ R1) as (ce2 & -> & R2). cbn [mbind option_bind].
    do 2 eexists. split; [done|]. by apply rep_with_metrics. }
  destruct (Z.eqb_spec l' (Z.of_nat (length (exemplars ce)))) as [El|Hne].
  - exists ce, O. split; [done|]. destruct Rp as (Hlen & Hw & E & pos & R). pose proof (rep_length R). unfold log_resize. rewrite keep_last_all by lia.
    split_and!; [cbn; lia|done|]. by exists E, pos.
  - destruct (Z.ltb_spec (Z.of_nat (length (exemplars ce))) l'); apply Hgo; [by apply grow_rep|apply shrink_rep; [done|lia]].
Qed.

(** ** Iterating and selecting *)

(** Calling [f] on the items, until it fails. *)
Fixpoint iterate_items {T X} (f : T -> Labels -> Exemplar -> T * option X) (its : list (Labels * Exemplar)) (s : T) : T * option X :=
  match its with
  | [] => (s, None)
  | (l, e) :: its => let '(s, err) := f s l e in match err with Some _ => (s, err) | None => iterate_items f its s end
  end.

Lemma item_entry {holes ce E pos its} x it : rep_at holes ce E pos its -> item_ok ce x it ->
  exists r ie, ref (slot (exemplars ce) x) = Some r /\ heap ce !! r = Some ie /\ seriesLabels ie = fst it /\ exemplar (slot (exemplars ce) x) = snd it /\ index ce !! data (fst it) = Some r.
Proof.
  intros R (r & H1 & H2 & H3). destruct (rep_index _ _ _ _ _ R _ _ H3) as (ie & Hie & Hd & _). exists r, ie. split_and!; try done.
  destruct (seriesLabels ie), (fst it). cbn in Hd. by subst.
Qed.

Lemma iterate_loop_rep {T X} (f : T -> Labels -> Exemplar -> T * option X) ce E pos its : rep_at ∅ ce E pos its ->
  forall P pre E2 pos2 its2 s, ring (Z.to_nat (nextIndex ce)) (length (exemplars ce)) = pre ++ P -> P = E2 ++ pos2 ->
  Forall (fun x => ref (slot (exemplars ce) x) = None) E2 -> Forall2 (item_ok ce) pos2 its2 ->
  iterate_loop f ce (length P) ((nextIndex ce + Z.of_nat (length pre)) mod Z.of_nat (length (exemplars ce))) s = Some (iterate_items f its2 s).
Proof.
  intros R. destruct (rep_next _ _ _ _ _ R) as (Hn0 & Hn1 & _). induction P as [|x P IH]; intros pre E2 pos2 its2 s Hring HP HE Hits.
  { symmetry in HP. apply app_nil in HP as [-> ->]. by apply Forall2_nil_inv_l in Hits as ->. }
  pose proof (length_ring _ _ Hn1) as Hlen. rewrite Hring, length_app in Hlen. cbn [length] in Hlen |- *.
  assert (Hx : (nextIndex ce + Z.of_nat (length pre)) mod Z.of_nat (length (exemplars ce)) = Z.of_nat x).
  { pose proof (ring_lookup _ _ (length pre) Hn1 ltac:(lia)) as Hr. rewrite Hring, lookup_app_r, Nat.sub_diag in Hr by lia. cbn in Hr. injection Hr as Hr. rewrite Hr, Nat2Z.inj_mod, Nat2Z.inj_add, Z2Nat.id; lia. }
  assert (Hx' : (Z.of_nat x + 1) mod Z.of_nat (length (exemplars ce)) = (nextIndex ce + Z.of_nat (length (pre ++ [x]))) mod Z.of_nat (length (exemplars ce))).
  { rewrite <-Hx, Zplus_mod_idemp_l, length_app. cbn [length]. f_equal. lia. }
  assert (Hxb : (x < length (exemplars ce))%nat) by (apply (elem_of_ring _ _ x Hn1); rewrite Hring; set_solver).
  cbn [iterate_loop]. rewrite Hx, get_slot, Hx' by done. cbn [mbind option_bind].
  rewrite (app_assoc pre [x] P : pre ++ x :: P = _) in Hring.
  destruct E2 as [|x2 E2].
  - cbn in HP. subst pos2. apply Forall2_cons_inv_l in Hits as (it & its3 & Hit & Hits & ->).
    destruct (item_entry x it R Hit) as (r & ie & -> & Hie & Hl & He & _). rewrite Hie. cbn [mbind option_bind]. rewrite Hl, He. destruct it as [l e]. cbn [iterate_items fst snd].
    destruct (f s l e) as [s' [err|]]; [done|]. by apply (IH _ [] P).
  - cbn in HP. injection HP as <- HP. apply Forall_cons in HE as [-> HE]. by apply (IH _ E2 pos2).
Qed.

Lemma IterateExemplars_rep {T X} (f : T -> Labels -> Exemplar -> T * option X) ce lg s : rep ce lg -> IterateExemplars f s ce = Some (iterate_items f (items lg) s).
Proof.
  intros (_ & _ & E & pos & R). unfold IterateExemplars. destruct (rep_next _ _ _ _ _ R) as (Hn0 & Hn1 & Hn2).
  rewrite <-(length_ring _ _ Hn1) at 1. assert (Hnext : nextIndex ce = (nextIndex ce + Z.of_nat (length (@nil nat))) mod Z.of_nat (length (exemplars ce)) \/ exemplars ce = []).
  { destruct (exemplars ce) eqn:Ees; [by right|left]. rewrite <-Ees in *. rewrite Z.add_0_r, Z.mod_small; [done|]. split; [done|]. apply Hn2. by rewrite Ees. }
  destruct Hnext as [Hnext|Hes].
  - rewrite Hnext at 2. eapply iterate_loop_rep; [exact R|done|apply R|apply R|apply R].
  - rewrite length_ring, Hes by done. cbn. pose proof (rep_length R) as Hl. rewrite Hes in Hl. cbn in Hl. destruct (items lg); [done|cbn in Hl; lia].
Qed.

(** The exemplars of a time range. *)
Definition in_window (start end_ : Z) (e : Exemplar) : Prop := start <= Ts e /\ Ts e <= end_.
#[global] Instance in_window_dec start end_ e : Decision (in_window start end_ e).
Proof. unfold in_window. apply _. Defined.

Lemma select_loop_spec es start end_ L : forall x fuel acc p,
  chain (fun x => prev (slot es x)) (fun x => next (slot es x)) p (x :: L) noExemplar -> Forall (fun x => (x < length es)%nat) L ->
  StronglySorted (fun x y => time es x <= time es y) (x :: L) -> (length L < fuel)%nat ->
  select_loop fuel es start end_ (slot es x) acc = Some (acc ++ filter (in_window start end_) (map (fun x => exemplar (slot es x)) (x :: L))).
Proof.
  induction L as [|y L IH]; intros x fuel acc p Hc Hb Hs Hf; (destruct fuel as [|fuel]; [cbn in Hf; lia|]); cbn [select_loop map]; cbn in Hc; destruct Hc as (_ & Hnx & Hc);
    rewrite filter_cons, Hnx; destruct (Z.leb_spec (Ts (exemplar (slot es x))) end_) as [He|He];
    destruct (decide (in_window start end_ (exemplar (slot es x)))) as [[H1 H2]|H]; try lia.
  - rewrite (proj2 (Z.leb_le _ _)) by lia. done.
  - rewrite (proj2 (Z.leb_gt _ _)); [by rewrite app_nil_r|]. apply Z.nle_gt. intros H1. by apply H.
  - by rewrite app_nil_r.
  - apply Forall_cons in Hb as [Hb1 Hb]. apply StronglySorted_inv in Hs as [Hs _]. rewrite (proj2 (Z.leb_le _ _)), of_nat_noExemplar, get_slot by done. cbn [mbind option_bind].
    rewrite (IH y fuel _ (Z.of_nat x)); [|done|done|done|cbn in Hf; lia]. by rewrite <-app_assoc.
  - apply Forall_cons in Hb as [Hb1 Hb]. apply StronglySorted_inv in Hs as [Hs _]. rewrite (proj2 (Z.leb_gt _ _)), of_nat_noExemplar, get_slot by (try done; apply Z.nle_gt; intros H1; by apply H).
    cbn [mbind option_bind]. by rewrite (IH y fuel _ (Z.of_nat x)); [|done|done|done|cbn in Hf; lia].
  - rewrite filter_none; [by rewrite app_nil_r|].
    apply StronglySorted_inv in Hs as [_ Hs]. rewrite Forall_forall in Hs. apply Forall_forall. intros e Hin.
    apply (list_elem_of_fmap (fun x => exemplar (slot es x)) (y :: L)) in Hin as (z & -> & Hz). specialize (Hs z Hz). unfold time in Hs. intros [? ?]. lia.
Qed.

(** The label sets of the log are well-formed. *)
Definition wf_log (lg : ExLog) : Prop := Forall (fun it => exists ls, good ls /\ fst it = of_list ls) (items lg).

(** The labels of a series of the log. *)
Definition matched (l : Labels) (matchers : list (list Matcher)) : bool :=
  match Labels_Range l with Some ls => existsb (satisfies ls) matchers | None => false end.

Lemma matchesSomeMatcherSet_good ls matchers : good ls -> matchesSomeMatcherSet (of_list ls) matchers = Some (matched (of_list ls) matchers).
Proof.
  intros Hg. unfold matched. rewrite Range_enc by apply Hg. unfold matchesSomeMatcherSet. induction matchers as [|ms matchers IH]; [done|]. cbn.
  rewrite matches_all_good by done. cbn. by destruct (satisfies ls ms).
Qed.

(** What Select returns for a series. *)
Definition series_result (start end_ : Z) (matchers : list (list Matcher)) (lg : ExLog) (l : Labels) : list QueryResult :=
  match filter (in_window start end_) (series_log l lg) with
  | [] => []
  | xs => if matched l matchers then [mk_QueryResult l xs] else []
  end.

Lemma series_log_sorted l lg : StronglySorted (fun x y => Ts x <= Ts y) (series_log l lg).
Proof. apply sort_by_sorted. Qed.

Lemma outside_window start end_ xs a b : StronglySorted (fun x y => Ts x <= Ts y) xs -> head xs = Some a -> last xs = Some b ->
  end_ < Ts a \/ Ts b < start -> filter (in_window start end_) xs = [].
Proof.
  intros Hs Ha Hb Hout. apply filter_none, Forall_forall. intros x Hx [H1 H2]. destruct Hout as [H|H].
  - destruct xs as [|a' xs]; [done|]. cbn in Ha. simplify_eq. apply StronglySorted_inv in Hs as [_ Hs]. rewrite Forall_forall in Hs.
    apply elem_of_cons in Hx as [->|Hx]; [lia|]. specialize (Hs x Hx). lia.
  - destruct xs as [|y xs _] using rev_ind; [done|]. rewrite last_snoc in Hb. simplify_eq. apply StronglySorted_app in Hs as (Hle & _ & _).
    apply elem_of_app in Hx as [Hx|Hx%list_elem_of_singleton]; [specialize (Hle x b Hx ltac:(left)); lia|subst; lia].
Qed.

Lemma select_series_rep ce lg E pos l r start end_ matchers :
  rep_at ∅ ce E pos (items lg) -> wf_log lg -> index ce !! data l = Some r ->
  (exists ls, good ls /\ l = of_list ls) /\ select_series ce start end_ matchers r = Some (series_result start end_ matchers lg l).
Proof.
  intros R Hwf Hl. destruct (series_known _ _ _ _ _ _ R Hl) as (ie & z & Hie & Hne & Hok & Hnz & Hz & Hlast).
  destruct (slots_of (exemplars ce) pos r) as [|x L] eqn:EL; [done|].
  assert (Hin : forall y, y ∈ x :: L -> y ∈ pos /\ ref (slot (exemplars ce) y) = Some r /\ (y < length (exemplars ce))%nat) by (intros y Hy; apply (slots_of_sub R); by rewrite EL).
  destruct (Hin x ltac:(left)) as (Hxp & Hxr & Hxb). pose proof (rep_items _ _ _ _ _ R) as Hits. apply list_elem_of_lookup in Hxp as (i & Hi).
  destruct (Forall2_lookup_l _ _ _ _ _ Hits Hi) as (it & Hit & Hiok).
  assert (Hlit : fst it = l) by (by apply (item_owner R l r x)).
  destruct (item_entry x it R Hiok) as (r' & ie' & Hr' & Hie' & Hsl & _). assert (r' = r) as -> by congruence. rewrite Hie in Hie'. simplify_eq.
  destruct (proj1 (Forall_forall _ _) Hwf it (list_elem_of_lookup_2 _ _ _ Hit)) as (ls & Hg & Hls). split; [by exists ls|].
  unfold select_series. rewrite Hie. cbn [mbind option_bind]. destruct Hok as (Ho & _ & Hc). rewrite Ho, Hnz. cbn [hd_or]. rewrite !get_slot by done. cbn [mbind option_bind].
  pose proof (slots_values R (fst it) r Hl) as Hv. rewrite EL in Hv. fold (series_log (fst it) lg) in Hv, Hlast. unfold series_result.
  pose proof (slots_of_sorted (exemplars ce) pos r) as Hs. rewrite EL in Hs.
  rewrite Hsl, Hls, matchesSomeMatcherSet_good, <-Hls by done. cbn [mbind option_bind].
  rewrite (select_loop_spec _ _ _ L _ _ _ noExemplar); [|done| |done|].
  3: { pose proof (slots_of_length R r) as Hlen. rewrite EL in Hlen. cbn in Hlen. lia. }
  2: { apply Forall_forall. intros y Hy. apply Hin. by right. }
  cbn [mbind option_bind app]. rewrite Hv.
  assert (Hhead : head (series_log (fst it) lg) = Some (exemplar (slot (exemplars ce) x))) by (by rewrite <-Hv).
  destruct (Z.ltb_spec end_ (Ts (exemplar (slot (exemplars ce) x)))); cbn [orb].
  { rewrite (outside_window _ _ _ _ _ (series_log_sorted _ _) Hhead Hlast); [done|by left]. }
  destruct (Z.ltb_spec (Ts (exemplar (slot (exemplars ce) z))) start).
  { rewrite (outside_window _ _ _ _ _ (series_log_sorted _ _) Hhead Hlast); [done|by right]. }
  destruct (filter _ _); by destruct (matched _ _).
Qed.

(** The order of label sets, on results. *)
Definition series_lt (a b : QueryResult) : Prop :=
  match Labels_Range (SeriesLabels a), Labels_Range (SeriesLabels b) with
  | Some la, Some lb => seq_compare (fields la) (fields lb) = Lt
  | _, _ => False
  end.
Definition readable_result (q : QueryResult) : Prop := readable (SeriesLabels q).

Lemma series_lt_trans a b c : series_lt a b -> series_lt b c -> series_lt a c.
Proof.
  unfold series_lt. destruct (Labels_Range (SeriesLabels a)), (Labels_Range (SeriesLabels b)), (Labels_Range (SeriesLabels c)); try done. apply seq_compare_trans.
Qed.

Lemma insert_result_spec r rs : readable_result r -> Forall readable_result rs -> SeriesLabels r ∉ map SeriesLabels rs -> StronglySorted series_lt rs ->
  exists rs', insert_result r rs = Some rs' /\ rs' ≡ₚ r :: rs /\ StronglySorted series_lt rs'.
Proof.
  intros (lr & Hlr & Er) Hg Hnew Hs. induction rs as [|x rs IH]; [exists [r]; by repeat constructor|].
  apply Forall_cons in Hg as [(lx & Hlx & Ex) Hg]. cbn [map] in Hnew. apply not_elem_of_cons in Hnew as [Hne Hnew]. apply StronglySorted_inv in Hs as [Hs Hlt].
  cbn [insert_result]. rewrite Er, Ex in *. destruct (Labels_Compare_enc lr lx Hlr Hlx) as (z & -> & Hz). cbn [mbind option_bind].
  assert (Hrx : seq_compare (fields lr) (fields lx) <> Eq).
  { intros E%seq_compare_eq. apply Hne. unfold of_list. by rewrite !encode_fields, E. }
  destruct (Z.ltb_spec z 0) as [Hz0|Hz0].
  - eexists. split_and!; [done|done|]. assert (Hlrx : series_lt r x).
    { unfold series_lt. rewrite Er, Ex, !Range_enc by done. rewrite <-Hz. by apply Z.compare_lt_iff. }
    constructor; [by constructor|]. constructor; [done|]. eapply Forall_impl; [exact Hlt|]. intros y Hy. by eapply series_lt_trans.
  - destruct (IH Hg Hnew Hs) as (rs' & -> & Hp & Hs'). cbn [mbind option_bind]. eexists. split_and!; [done|rewrite Hp; apply Permutation_swap|].
    constructor; [done|]. rewrite Hp. constructor; [|done]. unfold series_lt. rewrite Er, Ex, !Range_enc by done. rewrite seq_compare_antisym.
    destruct (seq_compare (fields lr) (fields lx)); [done| |done]. change (z < 0) in Hz. lia.
Qed.

Lemma sort_results_spec rs : Forall readable_result rs -> NoDup (map SeriesLabels rs) ->
  exists rs', sort_results rs = Some rs' /\ rs' ≡ₚ rs /\ StronglySorted series_lt rs'.
Proof.
  induction rs as [|r rs IH]; intros Hg Hnd; [exists []; split_and!; [done|done|constructor]|]. apply Forall_cons in Hg as [Hr Hg]. cbn [map] in Hnd. apply NoDup_cons in Hnd as [Hnew Hnd].
  destruct (IH Hg Hnd) as (rs1 & E1 & Hp & Hs). cbn [sort_results]. rewrite E1. cbn [mbind option_bind].
  destruct (insert_result_spec r rs1) as (rs2 & E2 & Hp2 & Hs2); [done|by rewrite Hp|by rewrite (Permutation_map SeriesLabels Hp)|done|]. exists rs2. split_and!; [done|by rewrite Hp2, Hp|done].
Qed.

Lemma mapM_snd {K V B} (f : V -> option B) (h : K * V -> B) kvs : (forall kv, kv ∈ kvs -> f (snd kv) = Some (h kv)) -> mapM f (map snd kvs) = Some (map h kvs).
Proof.
  induction kvs as [|kv kvs IH]; intros H; [done|]. cbn. rewrite (H kv) by left. cbn. rewrite IH by (intros kv' ?; apply H; by right). done.
Qed.

Lemma elem_of_series_result start end_ matchers lg l q : q ∈ series_result start end_ matchers lg l <->
  SeriesLabels q = l /\ Exemplars q = filter (in_window start end_) (series_log l lg) /\ Exemplars q <> [] /\ matched l matchers = true.
Proof.
  unfold series_result. destruct (filter _ _) as [|e xs].
  - split; [by intros ?%elem_of_nil|]. intros (_ & E & H & _). done.
  - destruct (matched l matchers).
    + rewrite list_elem_of_singleton. split; [by intros ->|]. destruct q. cbn. by intros (-> & -> & _ & _).
    + split; [by intros ?%elem_of_nil|]. by intros (_ & _ & _ & ?).
Qed.

(** Results of different keys have different labels. *)
Lemma concat_results_NoDup {V} (h : gostr * V -> list QueryResult) kvs :
  NoDup (map fst kvs) -> (forall kv q, q ∈ h kv -> SeriesLabels q = mk_Labels (fst kv)) -> (forall kv, (length (h kv) <= 1)%nat) -> NoDup (map SeriesLabels (concat (map h kvs))).
Proof.
  intros Hnd Hl H1. induction kvs as [|kv kvs IH]; [constructor|]. cbn [map concat]. cbn [map] in Hnd. apply NoDup_cons in Hnd as [Hnew Hnd]. rewrite map_app. apply NoDup_app. split_and!.
  - specialize (H1 kv). destruct (h kv) as [|q [|q' qs]]; [constructor|repeat constructor; set_solver|cbn in H1; lia].
  - intros l (q & -> & Hq)%list_elem_of_fmap (q' & E & Hq')%list_elem_of_fmap. apply list_elem_of_In, in_concat in Hq' as (qs & (kv' & <- & Hkv')%in_map_iff & Hq').
    apply list_elem_of_In in Hq'. apply Hl in Hq, Hq'. rewrite Hq, Hq' in E. injection E as E. apply Hnew. rewrite E. apply list_elem_of_fmap. exists kv'. split; [done|by apply list_elem_of_In].
  - by apply IH.
Qed.

Lemma Select_rep ce lg start end_ matchers : rep ce lg -> wf_log lg ->
  exists rs, Select start end_ matchers ce = Some rs /\ StronglySorted series_lt rs /\
    forall q, q ∈ rs <-> Exemplars q = filter (in_window start end_) (series_log (SeriesLabels q) lg) /\ Exemplars q <> [] /\ matched (SeriesLabels q) matchers = true.
Proof.
  intros (_ & _ & E & pos & R) Hwf. set (h := fun kv : gostr * nat => series_result start end_ matchers lg (mk_Labels (fst kv))).
  assert (Hh : forall kv, kv ∈ map_to_list (index ce) -> (exists ls, good ls /\ mk_Labels (fst kv) = of_list ls) /\ select_series ce start end_ matchers (snd kv) = Some (h kv)).
  { intros [k r] Hkv%elem_of_map_to_list. by apply (select_series_rep ce lg E pos (mk_Labels k) r). }
  assert (Hmem : forall q, q ∈ concat (map h (map_to_list (index ce))) <-> q ∈ series_result start end_ matchers lg (SeriesLabels q)).
  { intros q. rewrite list_elem_of_In, in_concat. split.
    - intros (qs & (kv & <- & _)%in_map_iff & Hq). apply list_elem_of_In in Hq. unfold h in Hq. pose proof Hq as (Hl & _)%elem_of_series_result. by rewrite Hl.
    - intros Hq. pose proof Hq as (_ & Hx & Hne & _)%elem_of_series_result. destruct (index ce !! data (SeriesLabels q)) as [r|] eqn:Hr.
      + exists (h (data (SeriesLabels q), r)). split; [apply in_map, list_elem_of_In; by apply elem_of_map_to_list|]. apply list_elem_of_In. unfold h. cbn [fst]. by destruct (SeriesLabels q).
      + exfalso. apply Hne. rewrite Hx. unfold series_log. by rewrite (series_unknown _ _ _ _ _ _ R Hr). }
  destruct (sort_results_spec (concat (map h (map_to_list (index ce))))) as (rs & Hrs & Hp & Hs).
  { apply Forall_forall. intros q Hq. apply list_elem_of_In, in_concat in Hq as (qs & (kv & <- & Hkv)%in_map_iff & Hq). apply list_elem_of_In in Hq, Hkv.
    apply elem_of_series_result in Hq as (Hl & _). destruct (Hh kv Hkv) as [(ls & (Hg & _) & Els) _]. exists ls. split; [done|]. by rewrite Hl. }
  { apply concat_results_NoDup; [apply NoDup_fst_map_to_list|by intros kv q (? & _)%elem_of_series_result|].
    intros kv. unfold h, series_result. destruct (filter _ _); [cbn; lia|]. destruct (matched _ _); cbn; lia. }
  exists rs. split; [|split; [done|]].
  - unfold Select. destruct (exemplars ce) eqn:Ees.
    + assert (Hnil : map_to_list (index ce) = []).
      { destruct (map_to_list (index ce)) as [|[k r] kvs] eqn:Em; [done|]. destruct (Hh (k, r) ltac:(left)) as [_ Hsel]. unfold select_series in Hsel.
        assert (Hk : index ce !! k = Some r) by (apply elem_of_map_to_list; rewrite Em; left).
        destruct (series_known _ _ _ _ (mk_Labels k) _ R Hk) as (_ & z & _ & _ & _ & _ & Hz & _). rewrite Ees in Hz. cbn in Hz. lia. }
      rewrite Hnil in Hrs. done.
    + rewrite (mapM_snd _ h) by (intros kv Hkv; by apply Hh). done.
  - intros q. rewrite Hp, Hmem, elem_of_series_result. tauto.
Qed.

(** ** Sequences of calls *)

Lemma new_rep n m w : rep (NewCircularExemplarStorage n m w) (mk_ExLog (Z.to_nat n) (Z.max 0 w) []).
Proof.
  set (len := Z.to_nat (if n <? 0 then 0 else n)). assert (Hlen : len = Z.to_nat n) by (unfold len; destruct (Z.ltb_spec n 0); lia).
  split_and!; cbn; [by rewrite repeat_length|destruct (Z.ltb_spec w 0); lia|]. exists (seq 0 len), []. split; cbn; fold len.
  - rewrite repeat_length. split_and!; [lia|lia|]. intros Hne. destruct len; [done|lia].
  - rewrite repeat_length. unfold ring. cbn. by rewrite Nat.sub_0_r.
  - apply Forall_forall. intros x _. unfold slot. by rewrite nth_repeat.
  - constructor.
  - intros k r Hk. done.
Qed.

(** Exemplars of the calls have labels that can be read. *)
Definition op_readable (o : op) : Prop := match o with OpAdd _ e => readable (ex_Labels e) | _ => True end.
(** The series of the calls have well-formed labels. *)
Definition op_wf (o : op) : Prop := match o with OpAdd l _ => exists ls, good ls /\ l = of_list ls | _ => True end.

Section Calls.
Context (Sum64 : gostr -> Z).

Lemma step_rep o ce lg : op_readable o -> rep ce lg ->
  exists ce', op_step Sum64 o ce = Some (ce', snd (log_step Sum64 o lg)) /\ rep ce' (fst (log_step Sum64 o lg)).
Proof.
  intros Ho Rp. destruct o as [l e|l|d]; cbn [op_step log_step].
  - by apply AddExemplar_rep.
  - destruct (Resize_rep ce lg l Rp) as (ce' & m & -> & R'). cbn. by exists ce'.
  - eexists. split; [done|]. destruct Rp as (Hlen & Hw & E & pos & [R1 R2 R3 R4 R5]). split_and!; [done|done|]. exists E, pos. by split.
Qed.

Lemma run_rep ops : forall ce lg, Forall op_readable ops -> rep ce lg ->
  exists ce', run Sum64 ops ce = Some (ce', snd (log_run Sum64 ops lg)) /\ rep ce' (fst (log_run Sum64 ops lg)).
Proof.
  induction ops as [|o ops IH]; intros ce lg Ho Rp; [by exists ce|]. apply Forall_cons in Ho as [Ho Hops]. cbn [run log_run].
  destruct (step_rep o ce lg Ho Rp) as (ce1 & -> & R1). cbn [mbind option_bind]. destruct (log_step Sum64 o lg) as [lg1 err]. cbn [fst snd] in *.
  destruct (IH ce1 lg1 Hops R1) as (ce2 & -> & R2). cbn [mbind option_bind]. destruct (log_run Sum64 ops lg1) as [lg2 errs]. by exists ce2.
Qed.

Lemma log_step_wf o lg : op_wf o -> wf_log lg -> wf_log (fst (log_step Sum64 o lg)).
Proof.
  intros Ho Hwf. destruct o as [l e|l|d]; cbn [log_step]; [|by apply Forall_drop|done].
  assert (Ha : wf_log (log_accept l e lg)) by (apply Forall_drop, Forall_app; split; [done|by repeat constructor]).
  unfold log_add. destruct (log_validate _ _ _ _) as [[]|]; try done. by destruct (past_duplicate _ _ _).
Qed.

Lemma log_run_wf ops : forall lg, Forall op_wf ops -> wf_log lg -> wf_log (fst (log_run Sum64 ops lg)).
Proof.
  induction ops as [|o ops IH]; intros lg Ho Hwf; [done|]. apply Forall_cons in Ho as [Ho Hops]. cbn [log_run].
  pose proof (log_step_wf o lg Ho Hwf) as H1. destruct (log_step Sum64 o lg) as [lg1 err]. specialize (IH lg1 Hops H1). by destruct (log_run Sum64 ops lg1).
Qed.

(** C14: the circular exemplar storage, with its ring of slots, its linked lists and
    its index, is the log of the last exemplars accepted.  Whatever sequence of
    AddExemplar, Resize and SetOutOfOrderTimeWindow calls is made on a new
    storage, no call panics, each answers as the log does, IterateExemplars
    visits exactly the items of the log in the order they were accepted, and
    ValidateExemplar gives the verdict of the log. *)
Theorem exemplars_refine_log (n w : Z) (m : ExemplarMetrics) (ops : list op) :
  Forall op_readable ops ->
  let '(lg, errs) := log_run Sum64 ops (mk_ExLog (Z.to_nat n) (Z.max 0 w) []) in
  exists ce, run Sum64 ops (NewCircularExemplarStorage n m w) = Some (ce, errs) /\
    length (exemplars ce) = capacity lg /\
    (forall T X (f : T -> Labels -> Exemplar -> T * option X) s, IterateExemplars f s ce = Some (iterate_items f (items lg) s)) /\
    (forall l e, readable (ex_Labels e) -> ValidateExemplar Sum64 l e ce = Some (ce, log_validate Sum64 l e lg)).
Proof.
  intros Ho. destruct (run_rep ops _ _ Ho (new_rep n m w)) as (ce & Hrun & Rp). destruct (log_run _ _ _) as [lg errs]. cbn [fst snd] in *.
  exists ce. split_and!; [done|apply Rp|by intros; apply IterateExemplars_rep|].
  intros l e He. unfold ValidateExemplar. by apply validate_false.
Qed.

(** After any sequence of calls, Select returns one result for each series that
    matches some matcher set and has exemplars in the time range, ordered by
    label set; a result holds exactly the series' exemplars of the range among
    those the storage still has, oldest first, however they were ordered when
    they came. *)
Theorem Select_exact (n w start end_ : Z) (m : ExemplarMetrics) (ops : list op) (matchers : list (list Matcher)) :
  Forall op_readable ops -> Forall op_wf ops ->
  let lg := fst (log_run Sum64 ops (mk_ExLog (Z.to_nat n) (Z.max 0 w) [])) in
  exists ce errs rs, run Sum64 ops (NewCircularExemplarStorage n m w) = Some (ce, errs) /\
    Select start end_ matchers ce = Some rs /\ StronglySorted series_lt rs /\
    forall q, q ∈ rs <-> Exemplars q = filter (in_window start end_) (series_log (SeriesLabels q) lg) /\ Exemplars q <> [] /\ matched (SeriesLabels q) matchers = true.
Proof.
  intros Ho Hwf lg. destruct (run_rep ops _ _ Ho (new_rep n m w)) as (ce & Hrun & Rp).
  destruct (Select_rep ce lg start end_ matchers Rp) as (rs & Hsel & Hs & Hmem); [apply log_run_wf; [done|constructor]|].
  by exists ce, (snd (log_run Sum64 ops (mk_ExLog (Z.to_nat n) (Z.max 0 w) []))), rs.
Qed.
End Calls.

(** ** Examples *)

Definition no_metrics : ExemplarMetrics := mk_ExemplarMetrics 0 0 0 (SpecFloat.S754_zero false) 0 0.
Definition example_labels (c : Z) : Labels := of_list [mk_Label [97] [c]].
Definition example_exemplar (v t : Z) : Exemplar := mk_Exemplar (example_labels 99) v t true.

(** A ring of three with a window of a second: the third exemplar of the first
    series comes late, the fourth one evicts the first of the ring, the fifth
    one is a duplicate, the sixth is too old; then the ring shrinks to two. *)
Definition example_ops : list op :=
  [OpWindow 1000; OpAdd (example_labels 1) (example_exemplar 1 2000); OpAdd (example_labels 1) (example_exemplar 2 3000);
   OpAdd (example_labels 1) (example_exemplar 3 2500); OpAdd (example_labels 2) (example_exemplar 4 2600);
   OpAdd (example_labels 1) (example_exemplar 5 2500); OpAdd (example_labels 1) (example_exemplar 6 2000); OpResize 2].

Lemma example_ops_readable : Forall op_readable example_ops.
Proof. repeat constructor; (eexists; split; [|reflexivity]); repeat constructor. Qed.
Lemma example_ops_wf : Forall op_wf example_ops.
Proof. repeat constructor; (eexists; split; [|reflexivity]); split_and!; by repeat constructor. Qed.

Lemma exemplars_refine_log_witness :
  exists ce, run (fun _ => 0) example_ops (NewCircularExemplarStorage 3 no_metrics 0) =
      Some (ce, [None; None; None; None; None; None; Some ErrOutOfOrderExemplar; None]) /\
    IterateExemplars (E := unit) (fun ts _ e => (ts ++ [Ts e], None)) [] ce = Some ([2500; 2600], None).
Proof.
  pose proof (exemplars_refine_log (fun _ => 0) 3 0 no_metrics example_ops example_ops_readable) as H.
  assert (E : exists lg, log_run (fun _ => 0) example_ops (mk_ExLog (Z.to_nat 3) (Z.max 0 0) []) =
      (lg, [None; None; None; None; None; None; Some ErrOutOfOrderExemplar; None]) /\ map (fun it => Ts (snd it)) (items lg) = [2500; 2600] /\
      iterate_items (X := unit) (fun ts _ e => (ts ++ [Ts e], None)) (items lg) [] = ([2500; 2600], None)) by (eexists; split_and!; vm_compute; reflexivity).
  destruct E as (lg & E & _ & E2). rewrite E in H. destruct H as (ce & H1 & _ & H2 & _). exists ce. split; [exact H1|]. rewrite H2, E2. reflexivity.
Defined.

Lemma Select_exact_witness :
  exists ce errs rs, run (fun _ => 0) example_ops (NewCircularExemplarStorage 3 no_metrics 0) = Some (ce, errs) /\
    Select 2500 2599 [[mk_Matcher MatchNotEqual [97] [2] (fun _ => false)]] ce = Some rs /\ mk_QueryResult (example_labels 1) [example_exemplar 3 2500] ∈ rs.
Proof.
  destruct (Select_exact (fun _ => 0) 3 0 2500 2599 no_metrics example_ops [[mk_Matcher MatchNotEqual [97] [2] (fun _ => false)]] example_ops_readable example_ops_wf)
    as (ce & errs & rs & H1 & H2 & _ & H3).
  exists ce, errs, rs. split_and!; [exact H1|exact H2|]. apply H3. split_and!; [vm_compute; reflexivity|discriminate|vm_compute; reflexivity].
Defined.

(** The gauge of the exemplars in storage counts empty slots after growing a ring
    that was not full, and no exemplars at all after shrinking one. *)
Definition stored_gauge (ops : list op) : option (Z * nat) :=
  '(ce, _) ← run (fun _ => 0) ops (NewCircularExemplarStorage 4 no_metrics 0);
  Some (exemplarsInStorage (metrics ce), length (filter (fun e => ref e <> None) (exemplars ce))).

Example exemplarsInStorage_after_resize :
  let add := OpAdd (example_labels 1) (example_exemplar 1 2000) in
  stored_gauge [add] = Some (1, 1%nat) /\ stored_gauge [add; OpResize 6] = Some (4, 1%nat) /\ stored_gauge [add; OpResize 3] = Some (0, 1%nat).
Proof. by vm_compute. Qed.
