(* ===== verification/Heap.v ===== *)
(** container/heap of Go's standard library: a binary min-heap in a slice, as
    the merging iterators use it.  [Less] may read the elements' state and
    panic, and so does indexing out of range: the operations return [None]
    then.  They are proved against any order that [Less] computes on the
    elements present. *)
From S2P Require Import Prelude.

Section Operations.
Context {A : Type} (less : A -> A -> option bool).

(** h.Less(i, j) and h.Swap(i, j) of the slice types. *)
Definition Less (i j : nat) (h : list A) : option bool :=
  x ← h !! i; y ← h !! j; less x y.

Definition Swap (i j : nat) (h : list A) : option (list A) :=
  x ← h !! i; y ← h !! j; Some (<[i := y]> (<[j := x]> h)).

(** [(j - 1) / 2]: Go's division truncates, so the root is its own parent. *)
Definition parent (j : nat) : nat := ((j - 1) / 2)%nat.

(** Every turn at least halves [j]: [S j] turns are enough. *)
Fixpoint up (fuel : nat) (j : nat) (h : list A) : option (list A) :=
  match fuel with
  | O => None
  | S fuel' =>
      let i := parent j in
      if (i =? j)%nat then Some h
      else b ← Less j i h;
           if negb b then Some h else h' ← Swap i j h; up fuel' i h'
  end.

(** Every turn moves [i] up, below [n]. *)
Fixpoint down (fuel : nat) (i n : nat) (h : list A) : option (list A) :=
  match fuel with
  | O => None
  | S fuel' =>
      let j1 := (2 * i + 1)%nat in
      if (n <=? j1)%nat then Some h
      else
        j ← (if (S j1 <? n)%nat then b ← Less (S j1) j1 h; Some (if (b : bool) then S j1 else j1)
             else Some j1);
        b ← Less j i h;
        if negb b then Some h else h' ← Swap i j h; down fuel' j n h'
  end.

(** heap.Push: h.Push(x), then up(h, h.Len()-1). *)
Definition Push (x : A) (h : list A) : option (list A) :=
  let h := h ++ [x] in up (length h) (length h - 1) h.

(** heap.Pop: n := h.Len()-1; h.Swap(0, n); down(h, 0, n); h.Pop(), which
    panics on an empty slice. *)
Definition Pop (h : list A) : option (A * list A) :=
  match length h with
  | O => None
  | S n => h ← Swap 0 n h; h ← down (S n) 0 n h; x ← h !! n; Some (x, take n h)
  end.

End Operations.

Lemma parent_lt j : (0 < j)%nat -> (parent j < j)%nat.
Proof.
  intros Hj. unfold parent. pose proof (Nat.div_mod_eq (j - 1) 2). lia.
Qed.

Lemma parent_children k i :
  (0 < k)%nat -> parent k = i <-> (k = 2 * i + 1 \/ k = 2 * i + 2)%nat.
Proof.
  intros Hk. unfold parent. pose proof (Nat.div_mod_eq (k - 1) 2).
  pose proof (Nat.mod_upper_bound (k - 1) 2). lia.
Qed.

Section SwapLemmas.
Context {A : Type}.
Implicit Types h : list A.

Lemma Swap_lookup h h' i j k :
  Swap i j h = Some h' ->
  h' !! k = if decide (k = i) then h !! j else if decide (k = j) then h !! i else h !! k.
Proof.
  unfold Swap. intros E. destruct (h !! i) as [x|] eqn:Ei; [|done].
  destruct (h !! j) as [y|] eqn:Ej; [|done]. cbn in E. injection E as <-.
  pose proof (lookup_lt_Some _ _ _ Ei). pose proof (lookup_lt_Some _ _ _ Ej).
  repeat case_decide; subst.
  - rewrite list_lookup_insert_eq; [done|]. by rewrite length_insert.
  - rewrite list_lookup_insert_ne by done. by rewrite list_lookup_insert_eq.
  - rewrite !list_lookup_insert_ne by done. done.
Qed.

Lemma Swap_length h h' i j : Swap i j h = Some h' -> length h' = length h.
Proof.
  unfold Swap. intros E. destruct (h !! i); [|done]. destruct (h !! j); [|done].
  cbn in E. injection E as <-. by rewrite !length_insert.
Qed.

Lemma Swap_Some h i j : (i < length h)%nat -> (j < length h)%nat -> is_Some (Swap i j h).
Proof.
  intros Hi Hj. unfold Swap.
  apply lookup_lt_is_Some in Hi as [x ->]. by apply lookup_lt_is_Some in Hj as [y ->].
Qed.

Lemma Swap_perm h h' i j : Swap i j h = Some h' -> h' ≡ₚ h.
Proof.
  intros E. apply Permutation_inj. split; [by eapply Swap_length|].
  exists (fun k => if decide (k = i) then j else if decide (k = j) then i else k). split.
  - intros a b. cbv beta. repeat case_decide; congruence.
  - intros k. rewrite (Swap_lookup _ _ _ _ k E). by destruct (decide (k = i)), (decide (k = j)).
Qed.

End SwapLemmas.

(** A total preorder given by a strict comparison. *)
Class StrictOrderb {A} (lt : A -> A -> bool) := {
  ltb_asym a b : lt a b = true -> lt b a = false;
  ltb_cotrans a b c : lt b a = false -> lt c b = false -> lt c a = false
}.

(** Comparing keys is such an order. *)
#[export] Instance StrictOrderb_key {A} (f : A -> Z) : StrictOrderb (fun a b => f a <? f b).
Proof. split; intros; lia. Qed.

Section Order.
Context {A : Type} (less : A -> A -> option bool) (lt : A -> A -> bool) `{!StrictOrderb lt}.

Definition le (a b : A) : Prop := lt b a = false.

Lemma le_refl a : le a a.
Proof.
  unfold le. destruct (lt a a) eqn:E; [|done]. pose proof (ltb_asym _ _ E). congruence.
Qed.

Lemma le_trans a b c : le a b -> le b c -> le a c.
Proof. apply ltb_cotrans. Qed.

Lemma lt_le a b : lt a b = true -> le a b.
Proof. apply ltb_asym. Qed.

(** [Less] does not panic on the elements of [h] and computes [lt]. *)
Definition computes (h : list A) : Prop :=
  forall x y, x ∈ h -> y ∈ h -> less x y = Some (lt x y).

Lemma computes_perm h h' : h' ≡ₚ h -> computes h -> computes h'.
Proof. intros Hp Hc x y Hx Hy. rewrite Hp in Hx, Hy. auto. Qed.

Lemma Less_lt h i j x y :
  computes h -> h !! i = Some x -> h !! j = Some y -> Less less i j h = Some (lt x y).
Proof.
  intros Hc Hx Hy. unfold Less. rewrite Hx, Hy. cbn.
  apply Hc; by eapply list_elem_of_lookup_2.
Qed.

(** The heap property of the first [n] slots, except below or above a slot. *)
Definition ordered (h : list A) (i j : nat) : Prop :=
  forall x y, h !! i = Some x -> h !! j = Some y -> le x y.

Definition heap_upto (n : nat) (h : list A) : Prop :=
  forall k, (0 < k < n)%nat -> ordered h (parent k) k.

Definition heap_ok (h : list A) : Prop := heap_upto (length h) h.

Definition up_inv (j : nat) (h : list A) : Prop :=
  forall k, (0 < k < length h)%nat ->
    (k <> j -> ordered h (parent k) k) /\
    (parent k = j -> (0 < j)%nat -> ordered h (parent j) k).

Definition down_inv (n i : nat) (h : list A) : Prop :=
  forall k, (0 < k < n)%nat ->
    (parent k <> i -> ordered h (parent k) k) /\
    (parent k = i -> (0 < i)%nat -> ordered h (parent i) k).

Lemma up_inv_swap j h h' x y :
  (0 < j)%nat -> up_inv j h -> h !! j = Some x -> h !! parent j = Some y -> lt x y = true ->
  Swap (parent j) j h = Some h' -> up_inv (parent j) h'.
Proof.
  intros Hj Hinv Hx Hy Hlt E k Hk. rewrite (Swap_length _ _ _ _ E) in Hk.
  pose proof (parent_lt j Hj) as Hpj. pose proof (lookup_lt_Some _ _ _ Hx) as Hjl.
  pose proof (parent_lt k (proj1 Hk)) as Hpk.
  assert (Hup : (0 < parent j)%nat -> forall z, h !! parent (parent j) = Some z -> le z y).
  { intros H0 z Hz. destruct (Hinv (parent j)) as [Hlow _]; [lia|]. apply Hlow; [lia|done..]. }
  unfold ordered. split.
  - intros Hki a b. rewrite !(Swap_lookup _ _ _ _ _ E). repeat case_decide; try lia; try congruence.
    + subst k. rewrite Hx, Hy. intros [= <-] [= <-]. by apply lt_le.
    + rewrite Hx. intros [= <-] Hb. apply (le_trans _ y); [by apply lt_le|].
      destruct (Hinv k Hk) as [Hlow _]. apply Hlow; [done| |done]. congruence.
    + rewrite Hy. intros [= <-] Hb. destruct (Hinv k Hk) as [_ Hhigh]. apply (Hhigh ltac:(done) Hj); done.
    + intros Ha Hb. destruct (Hinv k Hk) as [Hlow _]. by apply Hlow.
  - intros Hpki H0 a b. rewrite !(Swap_lookup _ _ _ _ _ E).
    pose proof (parent_lt (parent j) H0). repeat case_decide; try lia; intros Ha Hb.
    + rewrite Hy in Hb. injection Hb as <-. by apply Hup.
    + apply (le_trans _ y); [by apply Hup|]. destruct (Hinv k Hk) as [Hlow _].
      apply Hlow; [done| |done]. by rewrite Hpki.
Qed.

Lemma up_spec fuel j h :
  computes h -> (j < length h)%nat -> (j < fuel)%nat -> up_inv j h ->
  exists h', up less fuel j h = Some h' /\ h' ≡ₚ h /\ heap_ok h'.
Proof.
  revert j h. induction fuel as [|fuel IH]; intros j h Hc Hj Hf Hinv; [lia|]. cbn [up].
  destruct (Nat.eqb_spec (parent j) j) as [E|Hne].
  - assert (j = 0)%nat as ->. { destruct (decide (j = 0)%nat); [done|]. pose proof (parent_lt j). lia. }
    exists h. split_and!; [done..|]. intros k Hk. apply (Hinv k); lia.
  - assert (H0 : (0 < j)%nat) by (destruct j; [done|lia]).
    pose proof (parent_lt j H0) as Hpj.
    destruct (lookup_lt_is_Some_2 h j) as [x Hx]; [done|].
    destruct (lookup_lt_is_Some_2 h (parent j)) as [y Hy]; [lia|].
    rewrite (Less_lt _ _ _ _ _ Hc Hx Hy). cbn [mbind option_bind]. destruct (lt x y) eqn:Elt; cbn [negb].
    + destruct (Swap_Some h (parent j) j) as [h1 E1]; [lia|done|]. rewrite E1. cbn [mbind option_bind].
      pose proof (Swap_perm _ _ _ _ E1) as Hp.
      destruct (IH (parent j) h1) as (h2 & -> & Hp2 & Hok).
      * by eapply computes_perm.
      * rewrite (Swap_length _ _ _ _ E1). lia.
      * lia.
      * by eapply up_inv_swap.
      * exists h2. split_and!; [done| |done]. by rewrite Hp2.
    + exists h. split_and!; [done..|]. intros k Hk. destruct (decide (k = j)) as [->|Hkj].
      * intros a b Ha Hb. by simplify_eq.
      * by apply (Hinv k).
Qed.

Lemma down_inv_swap n i j h h' x y :
  (i < j < n)%nat -> (n <= length h)%nat -> parent j = i -> down_inv n i h ->
  h !! i = Some x -> h !! j = Some y -> lt y x = true ->
  (forall k z, (0 < k < n)%nat -> parent k = i -> h !! k = Some z -> le y z) ->
  Swap i j h = Some h' -> down_inv n j h'.
Proof.
  intros Hij Hn Hpj Hinv Hx Hy Hlt Hmin E k Hk. pose proof (parent_lt k (proj1 Hk)) as Hpk.
  unfold ordered. split.
  - intros Hne a b. rewrite !(Swap_lookup _ _ _ _ _ E).
    repeat case_decide; try lia; try congruence; intros Ha Hb.
    + subst k. rewrite Hy in Ha. injection Ha as <-. rewrite Hx in Hb. injection Hb as <-.
      by apply lt_le.
    + rewrite Hy in Ha. injection Ha as <-. by apply (Hmin k).
    + subst k. rewrite Hy in Hb. injection Hb as <-.
      destruct (Hinv j) as [_ Hhigh]; [lia|]. apply (Hhigh Hpj ltac:(lia)); done.
    + destruct (Hinv k Hk) as [Hlow _]. by apply Hlow.
  - intros Hpkj H0 a b. rewrite !(Swap_lookup _ _ _ _ _ E), Hpj.
    repeat case_decide; try lia; intros Ha Hb. rewrite Hy in Ha. injection Ha as <-.
    destruct (Hinv k Hk) as [Hlow _]. apply Hlow; [lia| |done]. by rewrite Hpkj.
Qed.

(** The child [down] compares with: the lesser of the two. *)
Lemma lesser_child n i h :
  computes h -> (n <= length h)%nat -> (2 * i + 1 < n)%nat ->
  exists j y,
    (if (S (2 * i + 1) <? n)%nat
     then b ← Less less (S (2 * i + 1)) (2 * i + 1) h;
          Some (if (b : bool) then S (2 * i + 1) else (2 * i + 1)%nat)
     else Some (2 * i + 1)%nat) = Some j /\
    (i < j < n)%nat /\ parent j = i /\ h !! j = Some y /\
    (forall k z, (0 < k < n)%nat -> parent k = i -> h !! k = Some z -> le y z).
Proof.
  intros Hc Hn Hi. destruct (lookup_lt_is_Some_2 h (2 * i + 1)) as [y1 Hy1]; [lia|].
  destruct (Nat.ltb_spec (S (2 * i + 1)) n) as [H2|H2].
  - destruct (lookup_lt_is_Some_2 h (S (2 * i + 1))) as [y2 Hy2]; [lia|].
    rewrite (Less_lt _ _ _ _ _ Hc Hy2 Hy1). cbn [mbind option_bind].
    destruct (lt y2 y1) eqn:E.
    + exists (S (2 * i + 1)), y2. split_and!; [done|lia|lia|apply parent_children; lia|done|].
      intros k z Hk Hp Hz. apply parent_children in Hp as [-> | ->]; [| |lia].
      * rewrite Hy1 in Hz. injection Hz as <-. by apply lt_le.
      * replace (2 * i + 2)%nat with (S (2 * i + 1)) in Hz by lia.
        rewrite Hy2 in Hz. injection Hz as <-. apply le_refl.
    + exists (2 * i + 1)%nat, y1. split_and!; [done|lia|lia|apply parent_children; lia|done|].
      intros k z Hk Hp Hz. apply parent_children in Hp as [-> | ->]; [| |lia].
      * rewrite Hy1 in Hz. injection Hz as <-. apply le_refl.
      * replace (2 * i + 2)%nat with (S (2 * i + 1)) in Hz by lia.
        by rewrite Hy2 in Hz; injection Hz as <-.
  - exists (2 * i + 1)%nat, y1. split_and!; [done|lia|lia|apply parent_children; lia|done|].
    intros k z Hk Hp Hz. apply parent_children in Hp as [-> | ->]; [| |lia].
    + rewrite Hy1 in Hz. injection Hz as <-. apply le_refl.
    + lia.
Qed.

Lemma down_spec fuel i n h :
  computes h -> (n <= length h)%nat -> (i <= n)%nat -> (n - i < fuel)%nat -> down_inv n i h ->
  exists h', down less fuel i n h = Some h' /\ h' ≡ₚ h /\ heap_upto n h' /\
             forall k, (n <= k)%nat -> h' !! k = h !! k.
Proof.
  revert i h. induction fuel as [|fuel IH]; intros i h Hc Hn Hi Hf Hinv; [lia|]. cbn [down].
  destruct (Nat.leb_spec n (2 * i + 1)) as [Hend|Hlt].
  { exists h. split_and!; [done..| |done]. intros k Hk. destruct (Hinv k Hk) as [Hlow _].
    apply Hlow. rewrite parent_children; lia. }
  destruct (lesser_child n i h) as (j & y & -> & Hij & Hpj & Hy & Hmin); [done|lia|lia|].
  destruct (lookup_lt_is_Some_2 h i) as [x Hx]; [lia|]. cbn [mbind option_bind].
  rewrite (Less_lt _ _ _ _ _ Hc Hy Hx). cbn [mbind option_bind]. destruct (lt y x) eqn:E; cbn [negb].
  - destruct (Swap_Some h i j) as [h1 E1]; [lia|lia|]. rewrite E1. cbn [mbind option_bind].
    pose proof (Swap_perm _ _ _ _ E1) as Hp. pose proof (Swap_length _ _ _ _ E1) as Hl.
    destruct (IH j h1) as (h2 & -> & Hp2 & Hok & Hsame).
    + by eapply computes_perm.
    + lia.
    + lia.
    + lia.
    + by eapply (down_inv_swap n i j h h1 x y).
    + exists h2. split_and!; [done|by rewrite Hp2|done|]. intros k Hk.
      rewrite Hsame by done. rewrite (Swap_lookup _ _ _ _ _ E1). repeat case_decide; lia || done.
  - exists h. split_and!; [done..| |done]. intros k Hk. destruct (Hinv k Hk) as [Hlow _].
    destruct (decide (parent k = i)) as [Hpk|Hpk]; [|by apply Hlow]. rewrite Hpk.
    intros a b Ha Hb. rewrite Hx in Ha. injection Ha as <-.
    apply (le_trans _ y); [done|]. by apply (Hmin k).
Qed.

(** The root is the least element. *)
Lemma heap_root h x : heap_ok h -> h !! 0%nat = Some x -> forall y, y ∈ h -> le x y.
Proof.
  intros Hok Hx y Hy. apply list_elem_of_lookup_1 in Hy as [k Hk]. revert y Hk.
  induction k as [k IH] using lt_wf_ind. intros y Hk.
  destruct (decide (k = 0)%nat) as [->|H0].
  { rewrite Hx in Hk. injection Hk as <-. apply le_refl. }
  pose proof (lookup_lt_Some _ _ _ Hk) as Hl. pose proof (parent_lt k ltac:(lia)) as Hp.
  destruct (lookup_lt_is_Some_2 h (parent k)) as [z Hz]; [lia|].
  apply (le_trans _ z); [by apply (IH (parent k))|]. by apply (Hok k); [lia|..].
Qed.

Lemma Push_spec x h :
  computes (x :: h) -> heap_ok h ->
  exists h', Push less x h = Some h' /\ h' ≡ₚ x :: h /\ heap_ok h'.
Proof.
  intros Hc Hok. unfold Push.
  assert (Hp : h ++ [x] ≡ₚ x :: h) by by rewrite Permutation_app_comm.
  destruct (up_spec (length (h ++ [x])) (length (h ++ [x]) - 1) (h ++ [x])) as (h' & -> & Hp' & Hok').
  - by eapply computes_perm.
  - rewrite length_app. cbn. lia.
  - rewrite length_app. cbn. lia.
  - intros k. rewrite length_app. cbn [length]. intros Hk. pose proof (parent_lt k ltac:(lia)). split.
    + intros Hne a b. rewrite !lookup_app_l by lia. apply (Hok k). lia.
    + intros Hpk. lia.
  - exists h'. split_and!; [done| |done]. by rewrite Hp'.
Qed.

Lemma Pop_spec x h :
  computes (x :: h) -> heap_ok (x :: h) ->
  exists h', Pop less (x :: h) = Some (x, h') /\ h' ≡ₚ h /\ heap_ok h' /\ forall y, y ∈ h -> le x y.
Proof.
  intros Hc Hok. unfold Pop. cbn [length]. set (n := length h).
  destruct (Swap_Some (x :: h) 0 n) as [h1 E1]; [cbn; lia|cbn; lia|]. rewrite E1. cbn [mbind option_bind].
  pose proof (Swap_perm _ _ _ _ E1) as Hp. pose proof (Swap_length _ _ _ _ E1) as Hl. cbn [length] in Hl.
  destruct (down_spec (S n) 0 n h1) as (h2 & -> & Hp2 & Hok2 & Hsame).
  - by eapply computes_perm.
  - lia.
  - lia.
  - lia.
  - intros k Hk. split; [|lia]. intros Hne a b. rewrite !(Swap_lookup _ _ _ _ _ E1).
    pose proof (parent_lt k ltac:(lia)). rewrite !decide_False by lia. apply (Hok k). cbn. lia.
  - assert (Hlast : h2 !! n = Some x).
    { rewrite Hsame by done. rewrite (Swap_lookup _ _ _ _ _ E1). destruct (decide (n = 0)%nat) as [-> |]; [done|]. by rewrite decide_True. }
    cbn [mbind option_bind]. rewrite Hlast. cbn [mbind option_bind]. exists (take n h2).
    assert (Hl2 : length h2 = S n) by (rewrite (Permutation_length Hp2); lia).
    split_and!; [done| | |].
    + apply (Permutation_cons_inv (a := x)). rewrite <-Hp, <-Hp2.
      rewrite <-(take_drop n h2) at 2. rewrite (drop_S _ _ _ Hlast), drop_ge by lia.
      by rewrite Permutation_app_comm.
    + intros k. rewrite length_take. intros Hk. pose proof (parent_lt k ltac:(lia)).
      intros a b. rewrite !lookup_take_lt by lia. apply Hok2. lia.
    + intros y Hy. eapply heap_root; [exact Hok|done|]. by apply elem_of_cons; right.
Qed.

End Order.

(** The property only looks at the elements present. *)
Lemma heap_ok_ext {A} (lt lt' : A -> A -> bool) (h : list A) :
  (forall x y, x ∈ h -> y ∈ h -> lt x y = lt' x y) -> heap_ok lt h -> heap_ok lt' h.
Proof.
  intros Heq Hok k Hk x y Hx Hy. unfold le. rewrite <-Heq; [by apply (Hok k)|..];
    by eapply list_elem_of_lookup_2.
Qed.

Lemma heap_ok_nil {A} (lt : A -> A -> bool) : heap_ok lt [].
Proof. intros k Hk. cbn in Hk. lia. Qed.
