(* ===== verification/SeriesIterator.v ===== *)
(** Sample iterators: the interface chunkenc.Iterator with the contract its
    documentation states, chunks.sample of tsdb/chunks/samples.go, and two
    implementations, listSeriesIterator of storage/series.go and the XOR chunk
    iterator.  Clients (Merge) are proved against the contract. *)
From stdpp Require Import sorting.
From S2P Require Import Prelude Bstream Xor GoSort Record RecordHistogram.

(** chunks.sample: a float, or a histogram when one of the pointers is set. *)
Record sample := mk_sample {
  s_st : Z;
  s_t : Z;
  s_f : Z;                          (* the bits of the float64 *)
  s_h : option Histogram;           (* nil is None *)
  s_fh : option FloatHistogram
}.

Definition sample_Type (s : sample) : ValueType :=
  if s_h s is Some _ then ValHistogram
  else if s_fh s is Some _ then ValFloatHistogram
  else ValFloat.

(** The interface.  [None] is a run-time panic.  An error is the list of the
    errors joined in it, so that nil is the empty list.  The histogram accessors
    return a fresh object, as they do when called with nil. *)
Class SampleIterator (I : Type) := {
  Next : I -> option (ValueType * I);
  Seek : Z -> I -> option (ValueType * I);
  At : I -> option (Z * Z);
  AtHistogram : I -> option (Z * option Histogram);
  AtFloatHistogram : I -> option (Z * option FloatHistogram);
  AtT : I -> option Z;
  AtST : I -> option Z;
  Err : I -> list goerror
}.

(** Where an iterator is: before the first of the timestamps [l], on a sample
    with the timestamps [l] to come, or past the end, which was at most [o]. *)
Inductive cursor :=
  | Fresh (l : list Z)
  | On (s : sample) (l : list Z)
  | Done (o : option Z).

Definition rest (c : cursor) : list Z :=
  match c with Fresh l => l | On _ l => l | Done _ => [] end.

Definition pos (c : cursor) : option Z :=
  match c with Fresh _ => None | On s _ => Some (s_t s) | Done o => o end.

(** The last timestamp there is. *)
Definition final (c : cursor) : option Z :=
  match last (rest c) with Some t => Some t | None => pos c end.

(** Samples come in ascending order; MinInt64 is the merging iterator's mark
    for no sample. *)
Definition cursor_ok (c : cursor) : Prop :=
  StronglySorted Z.lt (rest c) /\
  match c with
  | Fresh l => Forall (fun t => MinInt64 < t) l
  | On s l => MinInt64 < s_t s /\ Forall (fun t => s_t s < t) l
  | Done _ => True
  end.

(** Seek to [t] has to move. *)
Definition passed (c : cursor) (t : Z) : Prop :=
  match pos c with Some p => p < t | None => True end.

Fixpoint from (t : Z) (l : list Z) : list Z :=
  match l with
  | [] => []
  | u :: l' => if u <? t then from t l' else l
  end.

(** The accessors read the sample [s]; those for other types are
    unspecified. *)
Definition holds {I} `{SampleIterator I} (i : I) (s : sample) : Prop :=
  AtT i = Some (s_t s) /\ AtST i = Some (s_st s) /\
  match sample_Type s with
  | ValFloat => At i = Some (s_t s, s_f s)
  | ValHistogram => AtHistogram i = Some (s_t s, s_h s)
  | _ => AtFloatHistogram i = Some (s_t s, s_fh s)
  end.

(** A call found the first of the timestamps [l], or exhausted the iterator. *)
Definition lands {I} (rep : I -> (sample -> Prop) -> cursor -> Prop) (P : sample -> Prop)
    (l : list Z) (o : option Z) (r : option (ValueType * I)) : Prop :=
  match l with
  | [] => exists i', r = Some (ValNone, i') /\ rep i' P (Done o)
  | u :: l' => exists s i', s_t s = u /\ r = Some (sample_Type s, i') /\ rep i' P (On s l')
  end.

(** The contract of an iterator that meets no error: [rep i P c] says that [i]
    is at [c] and that its samples are in [P].  Seek need not be exact on a
    timestamp before the end once the iterator is exhausted. *)
Class SampleIteratorLaws (I : Type) `{SampleIterator I} := {
  rep : I -> (sample -> Prop) -> cursor -> Prop;
  rep_ok i P c : rep i P c -> cursor_ok c;
  rep_err i P c : rep i P c -> Err i = [];
  rep_on i P s l : rep i P (On s l) -> P s /\ holds i s;
  rep_later i P p q : rep i P (Done (Some p)) -> p <= q -> rep i P (Done (Some q));
  rep_later_none i P q : rep i P (Done None) -> rep i P (Done (Some q));
  rep_next i P c : rep i P c -> lands rep P (rest c) (final c) (Next i);
  rep_seek i P c t : rep i P c -> passed c t -> lands rep P (from t (rest c)) (final c) (Seek t i);
  rep_seek_here i P s l t : rep i P (On s l) -> t <= s_t s -> Seek t i = Some (sample_Type s, i)
}.

Lemma from_app t l1 l2 :
  Forall (fun u => (t <=? u) = false) l1 -> Forall (fun u => (t <=? u) = true) l2 -> from t (l1 ++ l2) = l2.
Proof.
  intros H1 H2. induction H1 as [|u l1 Hu H1 IH]; cbn.
  - destruct H2 as [|u l2 Hu H2]; cbn; [done|]. destruct (Z.ltb_spec u t); [lia|done].
  - destruct (Z.ltb_spec u t); [done|lia].
Qed.

Lemma from_suffix t l : exists l1, l = l1 ++ from t l.
Proof.
  induction l as [|u l [l1 IH]]; cbn; [by exists []|]. destruct (u <? t); [|by exists []].
  exists (u :: l1). cbn. by f_equal.
Qed.

Lemma from_sorted t l : StronglySorted Z.lt l -> StronglySorted Z.lt (from t l).
Proof. destruct (from_suffix t l) as [l1 E]. rewrite E at 1. apply StronglySorted_app_1_r. Qed.

Lemma elem_of_from t l u : StronglySorted Z.lt l -> u ∈ from t l <-> u ∈ l /\ t <= u.
Proof.
  induction l as [|v l IH]; intros Hl; cbn.
  - rewrite !elem_of_nil. tauto.
  - apply StronglySorted_inv in Hl as [Hl Hv]. rewrite Forall_forall in Hv.
    destruct (Z.ltb_spec v t); rewrite ?elem_of_cons.
    + rewrite IH by done. split; [tauto|]. intros [[->|?] ?]; [lia|tauto].
    + split; [|tauto]. intros [->|Hu]; [split; [by left|lia]|].
      pose proof (Hv u Hu). split; [by right|lia].
Qed.

Lemma from_nil_Forall t l : from t l = [] -> Forall (fun u => u < t) l.
Proof.
  induction l as [|u l IH]; cbn; [constructor|].
  destruct (Z.ltb_spec u t); [|done]. intros E. constructor; auto.
Qed.

(** ** listSeriesIterator *)

Record listSeriesIterator := mk_listSeriesIterator { li_samples : list sample; li_idx : Z }.

Definition NewListSeriesIterator (l : list sample) : listSeriesIterator :=
  mk_listSeriesIterator l (-1).

(** [it.samples.Get(i)] panics out of range. *)
Definition Get (l : list sample) (i : Z) : option sample :=
  if i <? 0 then None else l !! Z.to_nat i.

Definition li_Len (it : listSeriesIterator) : Z := Z.of_nat (length (li_samples it)).

Definition li_get (it : listSeriesIterator) : option sample := Get (li_samples it) (li_idx it).

Definition li_move (i : Z) (it : listSeriesIterator) : listSeriesIterator :=
  mk_listSeriesIterator (li_samples it) i.

Definition li_Next (it : listSeriesIterator) : option (ValueType * listSeriesIterator) :=
  let it := li_move (li_idx it + 1) it in
  if li_Len it <=? li_idx it then Some (ValNone, it)
  else s ← li_get it; Some (sample_Type s, it).

Definition li_Seek (t : Z) (it : listSeriesIterator) : option (ValueType * listSeriesIterator) :=
  let it := if li_idx it =? -1 then li_move 0 it else it in
  if li_Len it <=? li_idx it then Some (ValNone, it)
  else
    s ← li_get it;
    if t <=? s_t s then Some (sample_Type s, it)
    else
      let n := Search (Z.to_nat (li_Len it - li_idx it))
                 (fun i => from_option (fun s => t <=? s_t s) false
                             (Get (li_samples it) (Z.of_nat i + li_idx it))) in
      let it := li_move (li_idx it + Z.of_nat n) it in
      if li_Len it <=? li_idx it then Some (ValNone, it)
      else s ← li_get it; Some (sample_Type s, it).

#[export] Instance listSeriesIterator_SampleIterator : SampleIterator listSeriesIterator := {
  Next := li_Next;
  Seek := li_Seek;
  At it := s ← li_get it; Some (s_t s, s_f s);
  AtHistogram it := s ← li_get it; Some (s_t s, s_h s);
  AtFloatHistogram it := s ← li_get it; Some (s_t s, s_fh s);
  AtT it := s ← li_get it; Some (s_t s);
  AtST it := s ← li_get it; Some (s_st s);
  Err _ := []
}.

(** The samples from position [i] on. *)
Definition ahead (i : nat) (it : listSeriesIterator) : list Z := s_t <$> drop i (li_samples it).

Record li_rep (it : listSeriesIterator) (P : sample -> Prop) (c : cursor) : Prop := {
  li_in : Forall P (li_samples it);
  li_sorted : StronglySorted Z.lt (s_t <$> li_samples it);
  li_min : Forall (fun t => MinInt64 < t) (s_t <$> li_samples it);
  li_at : match c with
          | Fresh l => li_idx it = -1 /\ l = ahead 0 it
          | On s l => exists i, li_idx it = Z.of_nat i /\ li_samples it !! i = Some s /\ l = ahead (S i) it
          | Done _ => li_Len it <= li_idx it
          end
}.

Lemma Get_nat l i : Get l (Z.of_nat i) = l !! i.
Proof. unfold Get. destruct (Z.ltb_spec (Z.of_nat i) 0); [lia|]. by rewrite Nat2Z.id. Qed.

Lemma li_get_holds it s : li_get it = Some s -> holds it s.
Proof.
  intros E. unfold holds. cbn. rewrite E. cbn. by destruct (sample_Type s).
Qed.

(** Moving to a position in or past the samples that is not behind. *)
Lemma li_land it P c i (j := Z.of_nat i) :
  li_rep it P c ->
  lands li_rep P (ahead i it) (final c)
    (if li_Len (li_move j it) <=? li_idx (li_move j it) then Some (ValNone, li_move j it)
     else s ← li_get (li_move j it); Some (sample_Type s, li_move j it)).
Proof.
  intros [Hin Hs Hm _]. unfold li_Len, li_get, ahead. cbn [li_move li_samples li_idx]. subst j.
  rewrite Get_nat. destruct (li_samples it !! i) as [s|] eqn:E.
  - pose proof (lookup_lt_Some _ _ _ E). rewrite (drop_S _ _ _ E). cbn.
    destruct (Z.leb_spec (Z.of_nat (length (li_samples it))) (Z.of_nat i)); [lia|].
    exists s, (li_move (Z.of_nat i) it). split_and!; [done..|]. split; [done..|].
    by exists i.
  - apply lookup_ge_None in E. rewrite drop_ge by done. cbn.
    destruct (Z.leb_spec (Z.of_nat (length (li_samples it))) (Z.of_nat i)); [|lia].
    eexists. split; [done|]. by split.
Qed.

Lemma ahead_sorted it i :
  StronglySorted Z.lt (s_t <$> li_samples it) -> StronglySorted Z.lt (ahead i it).
Proof.
  intros Hs. unfold ahead. rewrite fmap_drop. rewrite <-(take_drop i) in Hs.
  by eapply StronglySorted_app_1_r.
Qed.

Lemma ahead_lookup it i j : ahead i it !! j = s_t <$> (li_samples it !! (i + j)%nat).
Proof. unfold ahead. by rewrite list_lookup_fmap, lookup_drop. Qed.

(** The binary search lands where a scan would. *)
Lemma li_search t it i :
  StronglySorted Z.lt (s_t <$> li_samples it) -> (i <= length (li_samples it))%nat ->
  let k := Search (Z.to_nat (li_Len it - Z.of_nat i))
             (fun j => from_option (fun s => t <=? s_t s) false
                         (Get (li_samples it) (Z.of_nat j + Z.of_nat i))) in
  from t (ahead i it) = ahead (i + k) it.
Proof.
  intros Hs Hi. unfold li_Len.
  assert (Hl : length (ahead i it) = (length (li_samples it) - i)%nat).
  { unfold ahead. by rewrite length_fmap, length_drop. }
  replace (Z.to_nat (Z.of_nat (length (li_samples it)) - Z.of_nat i)) with (length (ahead i it)) by lia.
  destruct (StronglySorted_split (fun u => t <=? u) (ahead i it)) as (l1 & l2 & E & H1 & H2).
  { eapply (StronglySorted_weaken (fun _ => True)), ahead_sorted, Hs; [|by apply Forall_true].
    cbv beta. lia. }
  cbv zeta. rewrite (Search_unique _ _ (length l1)).
  - rewrite E, from_app by done. unfold ahead in *. rewrite <-drop_drop, fmap_drop, E.
    by rewrite drop_app_length.
  - rewrite E, length_app. lia.
  - intros j Hj. rewrite <-Nat2Z.inj_add, Get_nat, Nat.add_comm.
    pose proof (ahead_lookup it i j) as El. rewrite E, lookup_app_l in El by done.
    rewrite Forall_lookup in H1. destruct (li_samples it !! (i + j)%nat) as [s|]; [|done].
    cbn in *. by apply (H1 _ _ El).
  - intros j Hj. rewrite <-Nat2Z.inj_add, Get_nat, Nat.add_comm.
    pose proof (ahead_lookup it i j) as El. rewrite E, length_app in Hj.
    rewrite E, lookup_app_r in El by lia. rewrite Forall_lookup in H2.
    destruct (lookup_lt_is_Some_2 l2 (j - length l1)) as [u Hu]; [lia|].
    rewrite Hu in El. destruct (li_samples it !! (i + j)%nat) as [s|]; [|done].
    cbn in *. injection El as <-. by apply (H2 _ _ Hu).
Qed.

Lemma li_rep_ok it P c : li_rep it P c -> cursor_ok c.
Proof.
  intros [_ Hs Hm Ha]. pose proof (fun i => ahead_sorted it i Hs) as Hah.
  destruct c as [l|s l|o]; unfold cursor_ok; cbn [rest].
  - destruct Ha as [_ ->]. split; [apply Hah|done].
  - destruct Ha as (i & _ & Hi & ->). split; [apply Hah|].
    specialize (Hah i) as Hd. unfold ahead in Hd. rewrite (drop_S _ _ _ Hi) in Hd. cbn in Hd.
    apply StronglySorted_inv in Hd as [_ Hd]. split; [|done].
    rewrite Forall_forall in Hm. apply Hm. apply list_elem_of_fmap. exists s. split; [done|].
    by eapply list_elem_of_lookup_2.
  - split; [constructor|done].
Qed.

Lemma li_rep_next it P c : li_rep it P c -> lands li_rep P (rest c) (final c) (li_Next it).
Proof.
  intros Hr. pose proof Hr as [_ _ _ Ha]. unfold li_Next. cbv zeta.
  destruct c as [l|s l|o]; cbn [rest].
  - destruct Ha as [E ->]. rewrite E. by apply (li_land it P (Fresh (ahead 0 it)) 0).
  - destruct Ha as (i & E & Hi & ->). rewrite E. replace (Z.of_nat i + 1) with (Z.of_nat (S i)) by lia.
    by apply (li_land it P (On s (ahead (S i) it)) (S i)).
  - destruct Hr as [Hin Hs Hm _]. unfold li_Len in *. cbn [li_move li_samples li_idx] in *.
    destruct (Z.leb_spec (Z.of_nat (length (li_samples it))) (li_idx it + 1)); [|lia].
    eexists. split; [done|]. split; [done..|]. unfold li_Len. cbn. lia.
Qed.

Lemma li_rep_here it P s l t : li_rep it P (On s l) -> t <= s_t s -> li_Seek t it = Some (sample_Type s, it).
Proof.
  intros [_ _ _ (i & E & Hi & _)] Ht. pose proof (lookup_lt_Some _ _ _ Hi). unfold li_Seek.
  destruct (Z.eqb_spec (li_idx it) (-1)); [lia|]. unfold li_Len, li_get. rewrite E, Get_nat, Hi.
  destruct (Z.leb_spec (Z.of_nat (length (li_samples it))) (Z.of_nat i)); [lia|]. cbn.
  by destruct (Z.leb_spec t (s_t s)); [|lia].
Qed.

(** Seek from position [i], whose sample may already be late enough. *)
Lemma li_seek_from t it P c i (it' := li_move (Z.of_nat i) it) :
  li_rep it P c ->
  lands li_rep P (from t (ahead i it)) (final c)
    (if li_Len it' <=? li_idx it' then Some (ValNone, it')
     else s ← li_get it';
          if t <=? s_t s then Some (sample_Type s, it')
          else
            let n := Search (Z.to_nat (li_Len it' - li_idx it'))
                       (fun i => from_option (fun s => t <=? s_t s) false
                                   (Get (li_samples it') (Z.of_nat i + li_idx it'))) in
            let it := li_move (li_idx it' + Z.of_nat n) it' in
            if li_Len it <=? li_idx it then Some (ValNone, it)
            else s ← li_get it; Some (sample_Type s, it)).
Proof.
  intros Hr. pose proof Hr as [Hin Hs Hm _]. subst it'.
  destruct (li_samples it !! i) as [s|] eqn:E.
  - pose proof (lookup_lt_Some _ _ _ E) as Hl. pose proof (li_land it P c i Hr) as Hland.
    unfold li_Len, li_get in *. cbn [li_move li_samples li_idx] in *. rewrite Get_nat, E in *.
    destruct (Z.leb_spec (Z.of_nat (length (li_samples it))) (Z.of_nat i)); [lia|].
    cbn [mbind option_bind] in *. destruct (Z.leb_spec t (s_t s)).
    + unfold ahead in *. rewrite (drop_S _ _ _ E) in *. cbn [fmap list_fmap from].
      by destruct (Z.ltb_spec (s_t s) t); [lia|].
    + rewrite (li_search t it i) by (done || lia). cbv zeta. rewrite <-Nat2Z.inj_add.
      by apply (li_land it P c).
  - apply lookup_ge_None in E. unfold li_Len, ahead. cbn [li_move li_samples li_idx].
    destruct (Z.leb_spec (Z.of_nat (length (li_samples it))) (Z.of_nat i)); [|lia].
    rewrite drop_ge by done. cbn. eexists. split; [done|]. split; [done..|]. done.
Qed.

Lemma li_rep_seek it P c t : li_rep it P c -> passed c t -> lands li_rep P (from t (rest c)) (final c) (li_Seek t it).
Proof.
  intros Hr Hp. pose proof Hr as [Hin Hs Hm Ha]. unfold li_Seek.
  destruct c as [l|s l|o]; cbn [rest] in *.
  - destruct Ha as [E ->]. rewrite E. by apply (li_seek_from t it P (Fresh (ahead 0 it)) 0).
  - destruct Ha as (i & E & Hi & ->). destruct (Z.eqb_spec (li_idx it) (-1)); [lia|].
    pose proof (li_seek_from t it P (On s (ahead (S i) it)) i Hr) as Hland.
    replace (li_move (Z.of_nat i) it) with it in Hland by (destruct it; unfold li_move; cbn in *; congruence).
    unfold ahead at 1 in Hland. rewrite (drop_S _ _ _ Hi) in Hland. cbn [fmap list_fmap from] in Hland.
    unfold passed in Hp. cbn in Hp. destruct (Z.ltb_spec (s_t s) t); [|lia].
    exact Hland.
  - unfold li_Len in Ha. destruct (Z.eqb_spec (li_idx it) (-1)); [lia|]. cbn [from]. unfold li_Len.
    destruct (Z.leb_spec (Z.of_nat (length (li_samples it))) (li_idx it)); [|lia].
    eexists. split; [done|]. by split.
Qed.

#[export] Instance listSeriesIterator_laws : SampleIteratorLaws listSeriesIterator.
Proof.
  refine {| rep := li_rep |}.
  - apply li_rep_ok.
  - done.
  - intros it P s l [Hin _ _ (i & E & Hi & _)]. split.
    + rewrite Forall_lookup in Hin. by apply (Hin _ _ Hi).
    + apply li_get_holds. unfold li_get. by rewrite E, Get_nat.
  - intros it P p q [? ? ? ?] _. by split.
  - intros it P q [? ? ? ?]. by split.
  - apply li_rep_next.
  - apply li_rep_seek.
  - apply li_rep_here.
Defined.

Lemma NewListSeriesIterator_rep l :
  StronglySorted Z.lt (s_t <$> l) -> Forall (fun t => MinInt64 < t) (s_t <$> l) ->
  rep (NewListSeriesIterator l) (fun s => s ∈ l) (Fresh (s_t <$> l)).
Proof.
  intros Hs Hm. split; [|done|done|by split]. cbn. by apply Forall_forall.
Qed.

(** ** xorIterator *)

#[export] Instance xorIterator_SampleIterator : SampleIterator xorIterator := {
  Next it := Some (xorIterator_Next it);
  Seek := xorIterator_Seek;
  At it := Some (xorIterator_At it);
  AtHistogram _ := None;                      (* panics *)
  AtFloatHistogram _ := None;
  AtT it := Some (xi_t it);
  AtST _ := Some 0;
  Err it := if xi_err it is Some e then [e] else []
}.

Definition float_sample (s : Z * Z) : sample := mk_sample 0 s.1 s.2 None None.

(** [it] still has the samples [l] to read, in ascending order. *)
Record xi_run (it : xorIterator) (P : sample -> Prop) (l : list (Z * Z)) : Prop := {
  xr_nexts : exists it', nexts it l it' /\ xi_numRead it' = xi_numTotal it';
  xr_count : xi_numRead it + Z.of_nat (length l) = xi_numTotal it;
  xr_read : 0 <= xi_numRead it;
  xr_total : xi_numTotal it < 2 ^ 16;
  xr_err : xi_err it = None;
  xr_in : Forall (fun s => P (float_sample s)) l;
  xr_sorted : StronglySorted Z.lt l.*1;
  xr_min : Forall (fun t => MinInt64 < t) l.*1
}.

(** Past the end Seek reports the last sample again for an earlier timestamp. *)
Definition xi_done (it : xorIterator) (o : option Z) : Prop :=
  xi_numRead it = 0 \/ exists b, o = Some b /\ xi_t it <= b.

Definition xi_rep (it : xorIterator) (P : sample -> Prop) (c : cursor) : Prop :=
  exists l, xi_run it P l /\ rest c = l.*1 /\
    match c with
    | Fresh _ => xi_numRead it = 0
    | On s _ => 0 < xi_numRead it /\ s = float_sample (xorIterator_At it) /\ P s /\
                MinInt64 < s_t s /\ Forall (fun t => s_t s < t) l.*1
    | Done o => xi_done it o
    end.

Lemma xi_run_end it P : xi_run it P [] -> xorIterator_Next it = (ValNone, it).
Proof. intros Hr. apply next_exhausted. pose proof (xr_count _ _ _ Hr). cbn in *. lia. Qed.

(** One Next moves a run along. *)
Lemma xi_run_cons it P s l :
  xi_run it P (s :: l) ->
  exists it', xorIterator_Next it = (ValFloat, it') /\ xorIterator_At it' = s /\
    xi_rep it' P (On (float_sample s) l.*1) /\ xi_run it' P l.
Proof.
  intros [(ie & Hn & He) Hc Hrd Ht Her Hin Hs Hm]. cbn [length] in Hc.
  apply nexts_head in Hn as [[[=] _]|(it1 & l' & [= -> <-] & E & Hn)].
  destruct (next_progress _ _ _ E ltac:(done)) as (_ & Hr1 & Ht1 & He1).
  rewrite u16_id in Hr1 by (unfold is_u16; lia).
  apply Forall_cons in Hin as [Hin1 Hin]. rewrite fmap_cons in Hs, Hm.
  apply StronglySorted_inv in Hs as [Hs Hlt]. apply Forall_cons in Hm as [Hm1 Hm].
  assert (Hrun : xi_run it1 P l) by (split; [by exists ie|lia|lia|lia|done..]).
  exists it1. split_and!; [done..| |done]. exists l. split_and!; [done..|lia|done|done|done|done].
Qed.

Lemma xi_rep_ok it P c : xi_rep it P c -> cursor_ok c.
Proof.
  intros (l & [_ _ _ _ _ _ Hs Hm] & E & Ha). unfold cursor_ok. rewrite E. split; [done|].
  destruct c as [l'|s l'|o]; cbn in *; subst; [done| |done]. tauto.
Qed.

Lemma xi_rep_next it P c : xi_rep it P c -> lands xi_rep P (rest c) (final c) (Some (xorIterator_Next it)).
Proof.
  intros (l & Hr & E & Ha). unfold final. rewrite E. destruct l as [|s l].
  - cbn. rewrite (xi_run_end it P Hr). eexists. split; [done|]. exists [].
    split_and!; [done..|]. destruct c as [l'|s l'|o]; cbn in *; [by left| |done].
    right. destruct Ha as (_ & -> & _). by eexists.
  - destruct (xi_run_cons it P s l Hr) as (it' & -> & _ & Hon & _). cbn.
    by exists (float_sample s), it'.
Qed.

Lemma xi_seek_loop t l it P o f :
  xi_run it P l -> (xi_t it <? t) || (xi_numRead it =? 0) = true -> (S (length l) < f)%nat ->
  match last l.*1 with Some u => o = Some u | None => xi_done it o end ->
  lands xi_rep P (from t l.*1) o (xor_seek_loop f t it).
Proof.
  revert it f. induction l as [|s l IH]; intros it f Hr Hcond Hf Ho.
  - destruct f as [|f]; [lia|]. cbn [xor_seek_loop]. rewrite Hcond, (xi_run_end it P Hr).
    eexists. split; [done|]. by exists [].
  - destruct f as [|f]; [lia|]. cbn [length] in Hf. cbn [xor_seek_loop]. rewrite Hcond.
    destruct (xi_run_cons it P s l Hr) as (it' & -> & Hat & Hon & Hr'). cbn [fmap list_fmap from].
    pose proof Hon as (l' & _ & _ & Hpos & _).
    assert (Et : xi_t it' = s.1) by by rewrite <-Hat.
    destruct (Z.ltb_spec s.1 t).
    + apply IH; [done| |lia|].
      * rewrite Et. by destruct (Z.ltb_spec s.1 t); [|lia].
      * rewrite fmap_cons, last_cons in Ho. destruct (last l.*1); [done|].
        right. exists s.1. split; [done|lia].
    + destruct f as [|f]; [lia|]. cbn [xor_seek_loop]. rewrite Et.
      destruct (Z.ltb_spec s.1 t); [lia|]. destruct (Z.eqb_spec (xi_numRead it') 0); [lia|].
      by exists (float_sample s), it'.
Qed.

Lemma xi_rep_seek it P c t : xi_rep it P c -> passed c t -> lands xi_rep P (from t (rest c)) (final c) (xorIterator_Seek t it).
Proof.
  intros (l & Hr & E & Ha) Hp. unfold xorIterator_Seek. rewrite (xr_err _ _ _ Hr), E.
  rewrite bool_decide_eq_false_2 by apply is_Some_None. pose proof (xr_count _ _ _ Hr) as Hc.
  apply (xi_seek_loop t l); [done| |lia|].
  - unfold passed in Hp. destruct c as [l'|s l'|o]; cbn in *; [lia| |].
    + destruct Ha as (_ & -> & _). cbn in Hp. lia.
    + destruct Ha as [->|(b & -> & Hb)]; [by rewrite orb_true_r|lia].
  - unfold final. rewrite E. destruct (last l.*1) eqn:El; [done|].
    destruct c as [l'|s l'|o]; cbn in *; [by left| |done].
    right. destruct Ha as (_ & -> & _). by eexists.
Qed.

#[export] Instance xorIterator_laws : SampleIteratorLaws xorIterator.
Proof.
  refine {| rep := xi_rep |}.
  - apply xi_rep_ok.
  - intros it P c (l & Hr & _). cbn. by rewrite (xr_err _ _ _ Hr).
  - intros it P s l (l' & _ & _ & _ & -> & HP & _). by split.
  - intros it P p q (l & Hr & E & Hd) Hpq. exists l. split_and!; [done..|].
    destruct Hd as [?|(b & [= <-] & ?)]; [by left|right]. exists q. split; [done|lia].
  - intros it P q (l & Hr & E & Hd). exists l. split_and!; [done..|].
    by destruct Hd as [?|(b & [=] & _)]; left.
  - apply xi_rep_next.
  - apply xi_rep_seek.
  - intros it P s l t (l' & Hr & _ & Hpos & -> & _) Ht. cbn [Seek xorIterator_SampleIterator].
    unfold xorIterator_Seek. rewrite (xr_err _ _ _ Hr).
    rewrite bool_decide_eq_false_2 by apply is_Some_None.
    rewrite Nat.add_comm. cbn [Nat.add xor_seek_loop]. cbn in Ht.
    destruct (Z.ltb_spec (xi_t it) t); [lia|]. by destruct (Z.eqb_spec (xi_numRead it) 0); [lia|].
Defined.

(** The iterator of a chunk that ascending samples were appended to. *)
Lemma XORChunk_iterator_rep a l P :
  xapp a l -> StronglySorted Z.lt l.*1 -> Forall (fun t => MinInt64 < t) l.*1 ->
  Forall (fun x => P (float_sample x)) l ->
  rep (XORChunk_iterator (xa_b a)) P (Fresh l.*1).
Proof.
  intros Hx Hs Hm HP. destruct (xapp_iterate a l MinInt64 Hx) as (Etot & it' & _ & Hn & _ & Hend & _).
  pose proof (xapp_len _ _ Hx) as Hlen. unfold MaxUint16 in Hlen.
  change (XORChunk_iterator (xa_b a)) with (iterator_over (bs_stream (xa_b a)) MinInt64).
  exists l. split_and!; [|done|done]. by split; [exists it'|cbn in *; lia|done|cbn in *; lia|..].
Qed.

(** ** Runs of calls *)

Inductive call := CNext | CSeek (t : Z).

Section Run.
Context {I : Type} `{SampleIterator I}.

Definition do_call (o : call) (i : I) : option (ValueType * I) :=
  match o with CNext => Next i | CSeek t => Seek t i end.

(** The calls of a caller that stops when the iterator is exhausted: what each
    returned, with the iterator it left. *)
Fixpoint run (ops : list call) (i : I) : option (list (ValueType * I)) :=
  match ops with
  | [] => Some []
  | o :: ops' =>
      '(v, i') ← do_call o i;
      match v with
      | ValNone => Some []
      | _ => tr ← run ops' i'; Some ((v, i') :: tr)
      end
  end.

(** The timestamps the calls find, by the documentation of the interface: [cur]
    is the current one, [l] those to come. *)
Definition target (o : call) (cur : option Z) (l : list Z) : list Z :=
  match o with
  | CNext => l
  | CSeek t => match cur with Some p => if t <=? p then p :: l else from t l | None => from t l end
  end.

Fixpoint expected (ops : list call) (cur : option Z) (l : list Z) : list Z :=
  match ops with
  | [] => []
  | o :: ops' => match target o cur l with [] => [] | u :: l' => u :: expected ops' (Some u) l' end
  end.

Lemma expected_next n cur l : expected (replicate n CNext) cur l = take n l.
Proof.
  revert cur l. induction n as [|n IH]; intros cur l; [done|]. cbn. destruct l as [|u l]; [done|].
  cbn. by rewrite IH.
Qed.

Context {L : SampleIteratorLaws I}.

Lemma call_lands o i P c :
  rep i P c -> (if c is Done _ then False else True) ->
  exists fin, lands rep P (target o (pos c) (rest c)) fin (do_call o i).
Proof.
  intros Hr Hc. exists (final c). destruct o as [|t]; cbn [target do_call]; [by apply rep_next|].
  destruct c as [l|s l|o]; cbn [pos rest]; [by apply (rep_seek i P (Fresh l))| |done].
  destruct (Z.leb_spec t (s_t s)).
  - rewrite (rep_seek_here _ _ _ _ _ Hr) by done. by exists s, i.
  - by apply (rep_seek i P (On s l)).
Qed.

(** What a caller may conclude from the contract. *)
Definition reports (P : sample -> Prop) (s : sample) (r : ValueType * I) : Prop :=
  P s /\ r.1 = sample_Type s /\ holds r.2 s.

Lemma run_expected ops i P c :
  rep i P c -> (if c is Done _ then False else True) ->
  exists tr ss, run ops i = Some tr /\ Forall2 (reports P) ss tr /\
    s_t <$> ss = expected ops (pos c) (rest c).
Proof.
  revert i c. induction ops as [|o ops IH]; intros i c Hr Hc; [by exists [], []|].
  destruct (call_lands o i P c Hr Hc) as [fin Hl]. cbn [run expected].
  destruct (target o (pos c) (rest c)) as [|u l]; cbn in Hl.
  - destruct Hl as (i' & -> & _). by exists [], [].
  - destruct Hl as (s & i' & Hs & -> & Hr'). cbn [mbind option_bind].
    destruct (IH i' (On s l) Hr' Logic.I) as (tr & ss & E & Hall & Hex). rewrite E. cbn [mbind option_bind].
    exists ((sample_Type s, i') :: tr), (s :: ss). split_and!.
    + destruct (sample_Type s) eqn:Ety; [|done..].
      unfold sample_Type in Ety. by destruct (s_h s), (s_fh s).
    + constructor; [|done]. destruct (rep_on _ _ _ _ Hr'). by split.
    + cbn in *. by rewrite Hs, Hex, <-Hs.
Qed.

End Run.
