(* ===== verification/ChainIterator.v ===== *)
(** chainSampleIterator of storage/merge.go: the iterator that merges the
    samples of overlapping series, over any iterators that meet the contract of
    SeriesIterator.  It is itself such an iterator, of the union of the
    timestamps. *)
From stdpp Require Import sorting.
From S2P Require Import Prelude Bstream Xor RecordHistogram Heap SeriesIterator.

(** histogram.CounterResetHint. *)
Definition UnknownCounterReset : Z := 0.
Definition GaugeType : Z := 3.

Definition set_hint (hint : Z) (h : Histogram) : Histogram :=
  mk_Histogram hint (Schema h) (ZeroThreshold h) (ZeroCount h) (Count h) (Sum h)
    (PositiveSpans h) (NegativeSpans h) (PositiveBuckets h) (NegativeBuckets h) (CustomValues h).

(** [if !c.consecutive && h.CounterResetHint != histogram.GaugeType
    { h.CounterResetHint = histogram.UnknownCounterReset }]. *)
Definition forget_reset (consecutive : bool) (h : Histogram) : Histogram :=
  if negb consecutive && negb (CounterResetHint h =? GaugeType) then set_hint UnknownCounterReset h else h.

Section Chain.
Context {I : Type} `{SampleIterator I}.

(** The iterators are the elements of a slice of pointers, which the heap and
    [curr] share: they are named by their index in it. *)
Record chainSampleIterator := mk_chain {
  iterators : list I;
  ch_h : option (list nat);         (* nil is None *)
  curr : option nat;
  lastT : Z;
  consecutive : bool
}.

Definition set_iterators (its : list I) (c : chainSampleIterator) : chainSampleIterator :=
  mk_chain its (ch_h c) (curr c) (lastT c) (consecutive c).
Definition set_heap (h : list nat) (c : chainSampleIterator) : chainSampleIterator :=
  mk_chain (iterators c) (Some h) (curr c) (lastT c) (consecutive c).
Definition set_curr (k : option nat) (c : chainSampleIterator) : chainSampleIterator :=
  mk_chain (iterators c) (ch_h c) k (lastT c) (consecutive c).
Definition set_last (t : Z) (b : bool) (c : chainSampleIterator) : chainSampleIterator :=
  mk_chain (iterators c) (ch_h c) (curr c) t b.

(** getChainSampleIterator(nil, length). *)
Definition getChainSampleIterator (its : list I) : chainSampleIterator :=
  mk_chain its None None MinInt64 false.

(** A Series' Iterator method, called with nil. *)
Definition ChainSampleIteratorFromSeries (series : list (unit -> I)) : chainSampleIterator :=
  getChainSampleIterator (map (fun s => s tt) series).

Definition ChainSampleIteratorFromIterators (its : list I) : chainSampleIterator :=
  getChainSampleIterator its.

(** samplesIteratorHeap.Less. *)
Definition time_less (its : list I) (i j : nat) : option bool :=
  a ← its !! i ≫= AtT; b ← its !! j ≫= AtT; Some (a <? b).

(** A call on the iterator [k] of the slice. *)
Definition on_iterator (k : nat) (f : I -> option (ValueType * I)) (c : chainSampleIterator) :
    option (ValueType * chainSampleIterator) :=
  it ← iterators c !! k; '(v, it') ← f it; Some (v, set_iterators (<[k := it']> (iterators c)) c).

Definition iterator_Err (k : nat) (c : chainSampleIterator) : list goerror :=
  from_option Err [] (iterators c !! k).

(** The range loops of Seek and Next: advance each iterator and push those that
    found a sample; abort on an error. *)
Fixpoint fill (step : I -> option (ValueType * I)) (ks : list nat) (c : chainSampleIterator) :
    option (bool * chainSampleIterator) :=
  match ks with
  | [] => Some (false, c)
  | k :: ks' =>
      '(v, c) ← on_iterator k step c;
      match v with
      | ValNone => match iterator_Err k c with [] => fill step ks' c | _ => Some (true, c) end
      | _ => h ← ch_h c; h ← Push (time_less (iterators c)) k h; fill step ks' (set_heap h c)
      end
  end.

(** [c.curr = heap.Pop(&c.h); currT = c.curr.AtT();
    currValueType = c.curr.Seek(currT)]. *)
Definition pop_curr (c : chainSampleIterator) : option (Z * ValueType * chainSampleIterator) :=
  h ← ch_h c;
  '(k, h) ← Pop (time_less (iterators c)) h;
  let c := set_curr (Some k) (set_heap h c) in
  t ← iterators c !! k ≫= AtT;
  '(v, c) ← on_iterator k (Seek t) c;
  Some (t, v, c).

Definition chain_Seek (t : Z) (c : chainSampleIterator) : option (ValueType * chainSampleIterator) :=
  let move :=
    let c := set_heap [] (set_last (lastT c) false c) in
    '(aborted, c) ← fill (Seek t) (seq 0 (length (iterators c))) c;
    if (aborted : bool) then Some (ValNone, c)
    else match ch_h c with
         | Some (_ :: _) => '(t, v, c) ← pop_curr c; Some (v, set_last t (consecutive c) c)
         | _ => Some (ValNone, set_curr None c)
         end in
  match curr c with
  | Some k => if t <=? lastT c then on_iterator k (Seek (lastT c)) c else move
  | None => move
  end.

(** The loop of Next.  [changed] is iteratorChanged.  Every turn reads a sample
    or drops an iterator. *)
Fixpoint next_loop (fuel : nat) (changed : bool) (c : chainSampleIterator) :
    option (ValueType * chainSampleIterator) :=
  match fuel with
  | O => None
  | S fuel' =>
      let found currT v changed c := Some (v, set_last currT (negb changed) c) in
      let pop c :=
        '(currT, v, c) ← pop_curr c;
        if negb (currT =? lastT c) then found currT v true c else next_loop fuel' true c in
      k ← curr c;
      '(v, c) ← on_iterator k Next c;
      h ← ch_h c;
      match v with
      | ValNone =>
          match iterator_Err k c with
          | [] => match h with [] => Some (ValNone, set_curr None c) | _ => pop c end
          | _ => Some (ValNone, c)
          end
      | _ =>
          currT ← iterators c !! k ≫= AtT;
          if currT =? lastT c then next_loop fuel' changed c
          else
            match h with
            | [] => found currT v changed c
            | top :: _ =>
                nextT ← iterators c !! top ≫= AtT;
                if currT <? nextT then found currT v changed c
                else h ← Push (time_less (iterators c)) k h; pop (set_heap h c)
            end
      end
  end.

Definition chain_Next (fuel : nat) (c : chainSampleIterator) : option (ValueType * chainSampleIterator) :=
  '(aborted, changed, c) ←
    match ch_h c with
    | Some _ => Some (false, false, c)
    | None =>
        (* c.iterators[0] panics when there is none *)
        _ ← iterators c !! 0%nat;
        '(aborted, c) ← fill Next (seq 1 (length (iterators c) - 1)) (set_curr (Some 0%nat) (set_heap [] c));
        Some (aborted, true, c)
    end;
  if (aborted : bool) then Some (ValNone, c)
  else match curr c with
       | None => Some (ValNone, c)
       | Some _ => next_loop fuel changed c
       end.

(** The accessors panic before the first sample and after the last. *)
Definition at_curr {A} (f : I -> option A) (c : chainSampleIterator) : option A :=
  k ← curr c; it ← iterators c !! k; f it.

Definition chain_AtHistogram (c : chainSampleIterator) : option (Z * option Histogram) :=
  '(t, h) ← at_curr AtHistogram c; h ← h; Some (t, Some (forget_reset (consecutive c) h)).

Definition chain_AtFloatHistogram (c : chainSampleIterator) : option (Z * option FloatHistogram) :=
  '(t, fh) ← at_curr AtFloatHistogram c; fh ← fh; Some (t, Some (forget_reset (consecutive c) fh)).

Definition chain_Err (c : chainSampleIterator) : list goerror := iterators c ≫= Err.

Definition chain_SampleIterator (fuel : nat) : SampleIterator chainSampleIterator := {|
  Next := chain_Next fuel;
  Seek := chain_Seek;
  At := at_curr At;
  AtHistogram := chain_AtHistogram;
  AtFloatHistogram := chain_AtFloatHistogram;
  AtT := at_curr AtT;
  AtST := at_curr AtST;
  Err := chain_Err
|}.

End Chain.
Arguments chainSampleIterator I : clear implicits.

(** ** Cursors of the iterators *)

(** The timestamps from the current one on. *)
Definition avail (cu : cursor) : list Z :=
  match cu with Fresh l => l | On s l => s_t s :: l | Done _ => [] end.

(** [None] is before every time. *)
Definition not_after (o o' : option Z) : Prop :=
  match o, o' with None, _ => True | Some p, Some q => p <= q | Some _, None => False end.

Lemma not_after_refl o : not_after o o.
Proof. destruct o; cbn; [lia|done]. Qed.

Lemma not_after_trans o1 o2 o3 : not_after o1 o2 -> not_after o2 o3 -> not_after o1 o3.
Proof. destruct o1, o2, o3; cbn; lia || done. Qed.

(** The cursor where [lands] leaves an iterator. *)
Definition landed (l : list Z) (o : option Z) (cu : cursor) : Prop :=
  match l with [] => cu = Done o | u :: l' => exists s, s_t s = u /\ cu = On s l' end.

Definition is_on (cu : cursor) : Prop := match cu with On _ _ => True | _ => False end.
#[export] Instance is_on_dec cu : Decision (is_on cu).
Proof. destruct cu; cbn; apply _. Defined.

Lemma landed_avail l o cu : landed l o cu -> avail cu = l.
Proof. destruct l as [|u l]; cbn; [by intros ->|]. by intros (s & <- & ->). Qed.

Lemma last_max l u t : StronglySorted Z.lt l -> u ∈ l -> last l = Some t -> u <= t.
Proof.
  induction l as [|v l IH]; intros Hs Hu Hl; [done|]. apply StronglySorted_inv in Hs as [Hs Hv].
  rewrite Forall_forall in Hv. rewrite last_cons in Hl. destruct (last l) as [t'|] eqn:E.
  - injection Hl as ->. apply elem_of_cons in Hu as [->|Hu]; [|by apply IH].
    apply last_Some in E as [l' ->]. enough (v < t) by lia. apply Hv, elem_of_app. right. by left.
  - injection Hl as ->. apply last_None in E as ->. apply elem_of_cons in Hu as [->|Hu]; [lia|].
    by apply elem_of_nil in Hu.
Qed.

Lemma final_max cu u : cursor_ok cu -> u ∈ rest cu -> not_after (Some u) (final cu).
Proof.
  intros [Hs _] Hu. unfold final. destruct (last (rest cu)) as [t|] eqn:E; cbn; [by eapply last_max|].
  apply last_None in E. rewrite E in Hu. by apply elem_of_nil in Hu.
Qed.

Lemma final_pos cu : cursor_ok cu -> not_after (pos cu) (final cu).
Proof.
  intros [Hs Hc]. unfold final. destruct (last (rest cu)) as [t|] eqn:E; [|apply not_after_refl].
  apply last_Some in E as [l' E]. destruct cu as [l|s l|o]; cbn in *; [done| |by destruct l'].
  destruct Hc as [_ Hf]. rewrite E, Forall_app, Forall_singleton in Hf. lia.
Qed.

(** Where an iterator can end: at one of its timestamps, or where it was. *)
Lemma final_cases cu : (exists u, final cu = Some u /\ u ∈ rest cu) \/ final cu = pos cu.
Proof.
  unfold final. destruct (last (rest cu)) as [t|] eqn:E; [left|by right].
  exists t. split; [done|]. apply last_Some in E as [l' ->]. apply elem_of_app. right. by left.
Qed.

(** The number of samples to read. *)
Fixpoint left_to_read (curs : list cursor) : nat :=
  match curs with [] => O | cu :: curs' => length (rest cu) + left_to_read curs' end.

Lemma left_insert curs k cu cu' :
  curs !! k = Some cu ->
  (left_to_read (<[k := cu']> curs) + length (rest cu) = left_to_read curs + length (rest cu'))%nat.
Proof.
  revert k. induction curs as [|c curs IH]; intros [|k] Hk; try done.
  - injection Hk as ->. cbn. lia.
  - specialize (IH k Hk). change (<[S k := cu']> (c :: curs)) with (c :: <[k := cu']> curs).
    cbn [left_to_read]. lia.
Qed.

Section Laws.
Context {I : Type} `{SampleIteratorLaws I}.
Implicit Types (c : chainSampleIterator I) (curs : list cursor) (Q : sample -> Prop).

(** Seek, wherever it has to go. *)
Lemma seek_avail it Q cu t :
  rep it Q cu -> (if cu is Done _ then passed cu t else True) ->
  lands rep Q (from t (avail cu)) (final cu) (Seek t it).
Proof.
  intros Hr Hp. destruct cu as [l|s l|o]; cbn [avail].
  - by apply (rep_seek it Q (Fresh l)).
  - cbn [from]. destruct (Z.ltb_spec (s_t s) t).
    + by apply (rep_seek it Q (On s l)).
    + rewrite (rep_seek_here _ _ _ _ _ Hr) by done. by exists s, it.
  - by apply (rep_seek it Q (Done o)).
Qed.

Definition reps Q (its : list I) curs : Prop := Forall2 (fun it cu => rep it Q cu) its curs.

Lemma reps_lookup Q its curs k cu :
  reps Q its curs -> curs !! k = Some cu -> exists it, its !! k = Some it /\ rep it Q cu.
Proof. intros Hr Hk. destruct (Forall2_lookup_r _ _ _ _ _ Hr Hk) as (it & ? & ?). by exists it. Qed.

Lemma reps_insert Q its curs k it cu :
  reps Q its curs -> rep it Q cu -> reps Q (<[k := it]> its) (<[k := cu]> curs).
Proof. intros Hr Hrep. by apply (Forall2_insert (fun it cu => rep it Q cu)). Qed.

(** The timestamp under the cursor [k]; the heap orders by it. *)
Definition key curs (k : nat) : Z := match curs !! k with Some (On s _) => s_t s | _ => 0 end.
Definition key_lt curs (i j : nat) : bool := key curs i <? key curs j.

#[local] Instance key_lt_order curs : StrictOrderb (key_lt curs) := StrictOrderb_key (key curs).

Definition on curs (k : nat) : Prop := exists s l, curs !! k = Some (On s l).

Lemma on_AtT Q its curs k : reps Q its curs -> on curs k -> its !! k ≫= AtT = Some (key curs k).
Proof.
  intros Hr (s & l & Hk). destruct (reps_lookup _ _ _ _ _ Hr Hk) as (it & -> & Hrep).
  destruct (rep_on _ _ _ _ Hrep) as [_ [Ht _]]. cbn. rewrite Ht. unfold key. by rewrite Hk.
Qed.

Lemma time_less_computes Q its curs h :
  reps Q its curs -> Forall (on curs) h -> computes (time_less its) (key_lt curs) h.
Proof.
  intros Hr Hon x y Hx Hy. rewrite Forall_forall in Hon. unfold time_less.
  rewrite !(on_AtT Q its curs) by auto. done.
Qed.

Lemma heap_ok_update curs k cu h :
  k ∉ h -> heap_ok (key_lt curs) h -> heap_ok (key_lt (<[k := cu]> curs)) h.
Proof.
  intros Hk. apply heap_ok_ext. intros x y Hx Hy. unfold key_lt, key.
  rewrite !list_lookup_insert_ne; [done|set_solver..].
Qed.

Lemma on_update curs k cu h : k ∉ h -> Forall (on curs) h -> Forall (on (<[k := cu]> curs)) h.
Proof.
  intros Hk. rewrite !Forall_forall. intros Hon x Hx. destruct (Hon x Hx) as (s & l & E).
  exists s, l. rewrite list_lookup_insert_ne; [done|set_solver].
Qed.

(** A call that lands moves the iterator's cursor. *)
Lemma on_iterator_lands Q c curs k cu f l o :
  reps Q (iterators c) curs -> curs !! k = Some cu ->
  (forall it, iterators c !! k = Some it -> rep it Q cu -> lands rep Q l o (f it)) ->
  exists v it cu' (c' := set_iterators (<[k := it]> (iterators c)) c),
    on_iterator k f c = Some (v, c') /\
    (exists it0, iterators c !! k = Some it0 /\ f it0 = Some (v, it)) /\
    reps Q (iterators c') (<[k := cu']> curs) /\ landed l o cu' /\
    iterator_Err k c' = [] /\ match cu' with On s _ => v = sample_Type s | _ => v = ValNone end.
Proof.
  intros Hr Hk Hf. destruct (reps_lookup _ _ _ _ _ Hr Hk) as (it & Hit & Hrep).
  specialize (Hf it Hit Hrep). unfold on_iterator. rewrite Hit. cbn.
  assert (Hl : (k < length (iterators c))%nat) by by eapply lookup_lt_Some.
  destruct l as [|u l]; cbn in Hf.
  - destruct Hf as (it' & E & Hrep'). rewrite E. exists ValNone, it', (Done o).
    split_and!; [done|by exists it|by apply reps_insert|done| |done].
    unfold iterator_Err. cbn. rewrite list_lookup_insert_eq by done. by apply (rep_err _ _ _ Hrep').
  - destruct Hf as (s & it' & Hu & E & Hrep'). rewrite E. exists (sample_Type s), it', (On s l).
    split_and!; [done|by exists it|by apply reps_insert|by exists s| |done].
    unfold iterator_Err. cbn. rewrite list_lookup_insert_eq by done. by apply (rep_err _ _ _ Hrep').
Qed.

Lemma sample_Type_some s : sample_Type s <> ValNone.
Proof. unfold sample_Type. by destruct (s_h s), (s_fh s). Qed.

(** A heap of iterators that are on a sample. *)
Record heap_of curs (h : list nat) : Prop := {
  ho_nodup : NoDup h;
  ho_on : Forall (on curs) h;
  ho_heap : heap_ok (key_lt curs) h
}.

Lemma push_heap Q its curs k h :
  reps Q its curs -> heap_of curs h -> k ∉ h -> on curs k ->
  exists h', Push (time_less its) k h = Some h' /\ h' ≡ₚ k :: h /\ heap_of curs h'.
Proof.
  intros Hr [Hnd Hon Hok] Hk Hkon.
  destruct (Push_spec (time_less its) (key_lt curs) k h) as (h' & E & Hp & Hok'); [|done|].
  { by apply (time_less_computes Q); [|constructor]. }
  exists h'. split_and!; [done..|]. split; [rewrite Hp; by constructor| |done].
  rewrite Hp. by constructor.
Qed.

Lemma pop_heap Q its curs k h :
  reps Q its curs -> heap_of curs (k :: h) ->
  exists h', Pop (time_less its) (k :: h) = Some (k, h') /\ h' ≡ₚ h /\ heap_of curs h' /\
    on curs k /\ k ∉ h' /\ forall j, j ∈ h' -> key curs k <= key curs j.
Proof.
  intros Hr [Hnd Hon Hok]. apply NoDup_cons in Hnd as [Hk Hnd].
  destruct (Pop_spec (time_less its) (key_lt curs) k h) as (h' & E & Hp & Hok' & Hmin); [|done|].
  { by apply (time_less_computes Q). }
  apply Forall_cons in Hon as [Hkon Hon]. exists h'. split_and!; [done..| |done| |].
  - split; [by rewrite Hp|by rewrite Hp|done].
  - by rewrite Hp.
  - intros j Hj. rewrite Hp in Hj. specialize (Hmin j Hj). unfold le, key_lt in Hmin. lia.
Qed.

(** [heap.Pop], [AtT] and [Seek] to where the iterator is. *)
Lemma pop_curr_spec Q c curs k h :
  reps Q (iterators c) curs -> ch_h c = Some (k :: h) -> heap_of curs (k :: h) ->
  exists s l h', curs !! k = Some (On s l) /\
    pop_curr c = Some (s_t s, sample_Type s, set_curr (Some k) (set_heap h' c)) /\
    h' ≡ₚ h /\ heap_of curs h' /\ k ∉ h' /\ forall j, j ∈ h' -> s_t s <= key curs j.
Proof.
  intros Hr Eh Hh. destruct (pop_heap Q _ _ _ _ Hr Hh) as (h' & E & Hp & Hh' & Hon & Hk & Hmin).
  pose proof Hon as (s & l & Ek). exists s, l, h'. unfold pop_curr. rewrite Eh. cbn [mbind option_bind].
  rewrite E. cbn [mbind option_bind]. cbn [iterators set_curr set_heap].
  assert (Ekey : key curs k = s_t s) by (unfold key; by rewrite Ek).
  pose proof (on_AtT Q _ _ _ Hr Hon) as EA. cbn in EA. rewrite EA, Ekey in *. cbn [mbind option_bind].
  destruct (reps_lookup _ _ _ _ _ Hr Ek) as (it & Hit & Hrep).
  unfold on_iterator. cbn [iterators set_curr set_heap]. rewrite Hit. cbn [mbind option_bind].
  rewrite (rep_seek_here _ _ _ _ _ Hrep) by lia. cbn. rewrite (list_insert_id _ _ _ Hit).
  by split_and!.
Qed.

(** What the range loops do: every iterator of [ks] moves to its target, and
    those that found a sample join the heap. *)
Definition filled Q (lst : cursor -> list Z) (ks : list nat) c curs (h : list nat)
    (r : option (bool * chainSampleIterator I)) : Prop :=
  exists its' h' curs',
    r = Some (false, mk_chain its' (Some h') (curr c) (lastT c) (consecutive c)) /\
    reps Q its' curs' /\ heap_of curs' h' /\ length curs' = length curs /\
    (forall j, j ∉ ks -> curs' !! j = curs !! j) /\
    (forall k cu, k ∈ ks -> curs !! k = Some cu ->
       exists cu', curs' !! k = Some cu' /\ landed (lst cu) (final cu) cu') /\
    (forall j, j ∈ h' <-> j ∈ h \/ (j ∈ ks /\ on curs' j)).

Lemma filled_cons Q lst k ks c c1 curs cu cu' h h1 r :
  curs !! k = Some cu -> landed (lst cu) (final cu) cu' -> k ∉ ks ->
  curr c1 = curr c -> lastT c1 = lastT c -> consecutive c1 = consecutive c ->
  (forall j, j ∈ h1 <-> j ∈ h \/ (is_on cu' /\ j = k)) ->
  filled Q lst ks c1 (<[k := cu']> curs) h1 r -> filled Q lst (k :: ks) c curs h r.
Proof.
  intros Hcu Hland Hk Ec El Eo Hin (its' & h' & curs' & E' & H1 & H2 & H3 & H4 & H5 & H6).
  assert (Hk1 : <[k := cu']> curs !! k = Some cu') by (apply list_lookup_insert_eq; by eapply lookup_lt_Some).
  assert (Hne : forall j, j <> k -> <[k := cu']> curs !! j = curs !! j) by (intros; by apply list_lookup_insert_ne).
  rewrite Ec, El, Eo in E'. exists its', h', curs'. split_and!; [done|done|done| | | |].
  - by rewrite H3, length_insert.
  - intros j Hj. rewrite H4 by set_solver. apply Hne. set_solver.
  - intros j cuj Hj Hcj. destruct (decide (j = k)) as [->|Hjk].
    + exists cu'. rewrite H4 by done. split; [done|]. by simplify_eq.
    + apply H5; [set_solver|]. by rewrite Hne.
  - intros j. rewrite H6, Hin. unfold on. destruct (decide (j = k)) as [->|Hjk]; [|set_solver].
    rewrite H4, Hk1 by done. split.
    + intros [[?|[Hon _]]|[? _]]; [by left|right|done]. split; [by left|].
      destruct cu' as [|s l|]; try done. by exists s, l.
    + intros [?|[_ (s & l & [= ->])]]; [by left; left|]. left. by right.
Qed.

(** The range loops put on the heap exactly the iterators that found a
    sample. *)
Lemma fill_spec Q step (lst : cursor -> list Z) ks c curs h :
  (forall k cu it, k ∈ ks -> curs !! k = Some cu -> rep it Q cu -> lands rep Q (lst cu) (final cu) (step it)) ->
  reps Q (iterators c) curs -> ch_h c = Some h -> heap_of curs h -> NoDup ks ->
  (forall k, k ∈ ks -> k ∉ h /\ is_Some (curs !! k)) ->
  filled Q lst ks c curs h (fill step ks c).
Proof.
  revert c curs h. induction ks as [|k ks IH]; intros c curs h Hstep Hr Eh Hh Hnd Hks.
  { exists (iterators c), h, curs. split_and!; [cbn; by destruct c; cbn in *; subst|done..| |].
    - intros k cu Hk. by apply elem_of_nil in Hk.
    - set_solver. }
  apply NoDup_cons in Hnd as [Hk Hnd]. destruct (Hks k) as [Hkh [cu Hcu]]; [by left|].
  destruct (on_iterator_lands Q c curs k cu step (lst cu) (final cu) Hr Hcu) as
    (v & it & cu' & E & _ & Hr' & Hland & Herr & Hv).
  { intros it Hit. by apply (Hstep k cu); [left|]. }
  cbn [fill]. rewrite E. cbn [mbind option_bind].
  assert (Hh1 : heap_of (<[k := cu']> curs) h).
  { destruct Hh. split; [done|by apply on_update|by apply heap_ok_update]. }
  assert (Hgo : forall c2 h1, iterators c2 = <[k := it]> (iterators c) -> ch_h c2 = Some h1 ->
    heap_of (<[k := cu']> curs) h1 -> (forall j, j ∈ h1 -> j ∈ h \/ j = k) ->
    filled Q lst ks c2 (<[k := cu']> curs) h1 (fill step ks c2)).
  { intros c2 h1 Ei Eh2 Hh2 Hin. apply IH; [|by rewrite Ei|done..|].
    - intros j cuj itj Hj. rewrite list_lookup_insert_ne by set_solver. apply (Hstep j). by right.
    - intros j Hj. rewrite list_lookup_insert_ne by set_solver.
      destruct (Hks j) as [Hjh Hjs]; [by right|]. split; [|done]. intros Hj1. set_solver. }
  destruct cu' as [l|s l|o].
  - by destruct (lst cu) as [|u l']; cbn in Hland; [|destruct Hland as (? & _ & ?)].
  - destruct (push_heap Q _ _ k h Hr' Hh1 Hkh) as (h1 & Eh1 & Hp1 & Hh2).
    { exists s, l. apply list_lookup_insert_eq. by eapply lookup_lt_Some. }
    subst v. cbn [ch_h set_iterators iterators] in *. rewrite Eh. cbn [mbind option_bind]. rewrite Eh1.
    cbn [mbind option_bind].
    assert (Hf := Hgo (set_heap h1 (set_iterators (<[k := it]> (iterators c)) c)) h1 eq_refl eq_refl Hh2
      ltac:(intros j; rewrite Hp1, elem_of_cons; tauto)).
    pose proof (sample_Type_some s) as Hs. destruct (sample_Type s); [done|..];
      (eapply filled_cons; [..|exact Hf]; [done..|];
       intros j; rewrite Hp1, elem_of_cons; cbn; tauto).
  - subst v. rewrite Herr. eapply filled_cons; [..|eapply (Hgo _ h)]; [done..|cbn; tauto|done|done|done|tauto].
Qed.

(** ** The invariant between calls *)

(** [lastT] as a position: MinInt64 stands for none. *)
Definition mark (T : Z) : option Z := if T =? MinInt64 then None else Some T.

Lemma mark_mono T T' : MinInt64 <= T -> T <= T' -> not_after (mark T) (mark T').
Proof. unfold mark. intros. repeat case_match; cbn; lia || done. Qed.

Lemma mark_bound t T : not_after (Some t) (mark T) -> t <= T.
Proof. unfold mark. case_match; [done|]. cbn. lia. Qed.

Lemma mark_some T : MinInt64 < T -> mark T = Some T.
Proof. intros. unfold mark. by destruct (Z.eqb_spec T MinInt64); [lia|]. Qed.

(** The timestamps still to come after [T]. *)
Definition remaining curs (T t : Z) : Prop := T < t /\ exists j cu, curs !! j = Some cu /\ t ∈ avail cu.

(** An iterator that is neither current nor on the heap has ended by [T]. *)
Definition ended curs (T : Z) (j : nat) : Prop :=
  forall cu, curs !! j = Some cu -> exists o, cu = Done o /\ not_after o (mark T).

Record chain_inv Q c curs (k : nat) (h : list nat) : Prop := {
  ci_reps : reps Q (iterators c) curs;
  ci_curr : curr c = Some k;
  ci_h : ch_h c = Some h;
  ci_heap : heap_of curs h;
  ci_notin : k ∉ h;
  ci_min : MinInt64 <= lastT c;
  ci_cu : exists cu, curs !! k = Some cu /\ not_after (pos cu) (mark (lastT c)) /\
            Forall (fun t => lastT c < t) (rest cu);
  ci_late : forall j, j ∈ h -> lastT c <= key curs j;
  ci_ended : forall j, j <> k -> j ∉ h -> ended curs (lastT c) j
}.

Definition chain_done Q c curs (o : option Z) : Prop :=
  reps Q (iterators c) curs /\ curr c = None /\ ch_h c = Some [] /\
  Forall (fun cu => exists o', cu = Done o' /\ not_after o' o) curs.

Lemma remaining_insert curs k cu cu' T t :
  curs !! k = Some cu -> (forall u, T < u -> u ∈ avail cu' <-> u ∈ avail cu) ->
  remaining (<[k := cu']> curs) T t <-> remaining curs T t.
Proof.
  intros Hk Heq. pose proof (lookup_lt_Some _ _ _ Hk) as Hlt. unfold remaining.
  split; intros [Ht (j & cuj & Hj & Hin)]; (split; [done|]).
  - destruct (decide (j = k)) as [->|Hne].
    + rewrite list_lookup_insert_eq in Hj by done. injection Hj as <-. exists k, cu.
      split; [done|by apply Heq].
    + rewrite list_lookup_insert_ne in Hj by done. by exists j, cuj.
  - destruct (decide (j = k)) as [->|Hne].
    + simplify_eq. exists k, cu'. rewrite list_lookup_insert_eq by done. split; [done|by apply Heq].
    + exists j, cuj. by rewrite list_lookup_insert_ne.
Qed.

(** Once the current iterator has moved, it only offers what it had left. *)
Lemma avail_rest cu T u :
  not_after (pos cu) (mark T) -> T < u -> u ∈ avail cu <-> u ∈ rest cu.
Proof.
  intros Hp Hu. destruct cu as [l|s l|o]; cbn in *; [done| |done].
  rewrite elem_of_cons. split; [|by right]. intros [->|?]; [|done].
  apply mark_bound in Hp. lia.
Qed.

Lemma avail_least s l t : cursor_ok (On s l) -> t ∈ avail (On s l) -> s_t s <= t.
Proof.
  intros [_ [_ Hl]] Ht. cbn in *. rewrite Forall_forall in Hl.
  apply elem_of_cons in Ht as [->|Ht]; [lia|]. specialize (Hl t Ht). lia.
Qed.

Lemma reps_ok Q its curs j cu : reps Q its curs -> curs !! j = Some cu -> cursor_ok cu.
Proof. intros Hr Hj. destruct (reps_lookup _ _ _ _ _ Hr Hj) as (it & _ & Hrep). by eapply rep_ok. Qed.

(** [x] is no later than what any iterator is on. *)
Lemma remaining_ge Q its curs T x t :
  reps Q its curs ->
  (forall j cu, curs !! j = Some cu -> match cu with On s _ => x <= s_t s | Done _ => True | Fresh _ => False end) ->
  remaining curs T t -> x <= t.
Proof.
  intros Hr Hall [_ (j & cu & Hj & Hin)]. specialize (Hall j cu Hj). destruct cu as [l|s l|o]; [done| |].
  - pose proof (avail_least _ _ _ (reps_ok _ _ _ _ _ Hr Hj) Hin). lia.
  - by apply elem_of_nil in Hin.
Qed.

(** The iterators on the heap [h] and perhaps [k] are on a sample, the others
    have ended. *)
Lemma remaining_ge_heap Q its curs h T x t :
  reps Q its curs -> heap_of curs h -> (forall j, j ∈ h -> x <= key curs j) ->
  (forall j, j ∉ h -> match curs !! j with Some (On s _) => x <= s_t s | Some (Fresh _) => False | _ => True end) ->
  remaining curs T t -> x <= t.
Proof.
  intros Hr Hh Hkey Hout. apply (remaining_ge Q its); [done|]. intros j cu Hj.
  destruct (decide (j ∈ h)) as [Hjh|Hjh].
  - destruct Hh as [_ Hon _]. rewrite Forall_forall in Hon. destruct (Hon j Hjh) as (s & l & E).
    specialize (Hkey j Hjh). unfold key in Hkey. rewrite E in Hkey. rewrite Hj in E. by injection E as ->.
  - specialize (Hout j Hjh). rewrite Hj in Hout. by destruct cu.
Qed.

(** Popping the heap makes its earliest iterator the current one. *)
Lemma pop_inv Q c curs h T :
  reps Q (iterators c) curs -> ch_h c = Some h -> h <> [] -> heap_of curs h -> MinInt64 <= T ->
  (forall j, j ∈ h -> T <= key curs j) -> (forall j, j ∉ h -> ended curs T j) ->
  exists k s l h' (c' := set_curr (Some k) (set_heap h' c)),
    curs !! k = Some (On s l) /\ pop_curr c = Some (s_t s, sample_Type s, c') /\
    T <= s_t s /\ MinInt64 < s_t s /\ (length h = S (length h')) /\
    (forall b, chain_inv Q (set_last (s_t s) b c') curs k h') /\
    (forall T' t, remaining curs T' t -> s_t s <= t).
Proof.
  intros Hr Eh Hne Hh Hmin Hlate Hend. destruct h as [|k h]; [done|].
  destruct (pop_curr_spec Q c curs k h Hr Eh Hh) as (s & l & h' & Hk & E & Hp & Hh' & Hkh & Hkey).
  pose proof (reps_ok _ _ _ _ _ Hr Hk) as Hok. pose proof Hok as [_ [Hs Hl]].
  assert (HT : T <= s_t s). { specialize (Hlate k). unfold key in Hlate. rewrite Hk in Hlate. apply Hlate. by left. }
  exists k, s, l, h'. split_and!; [done|done|done|done|by rewrite Hp|..].
  - intros b. split; cbn; [done|done|done|done|done|lia| |done|].
    + exists (On s l). cbn. rewrite mark_some by done. split_and!; [done|cbn; lia|done].
    + intros j Hjk Hj cu Hcu. destruct (Hend j ltac:(rewrite elem_of_cons, <-Hp; tauto) cu Hcu) as (o & -> & Ho).
      exists o. split; [done|]. eapply not_after_trans; [done|by apply mark_mono].
  - intros T' t. apply (remaining_ge_heap Q (iterators c) curs (k :: h)); [done..| |].
    + intros j Hj. apply elem_of_cons in Hj as [->|Hj]; [unfold key; rewrite Hk; lia|].
      apply Hkey. by rewrite Hp.
    + intros j Hj. destruct (curs !! j) as [cu|] eqn:Ej; [|done]. by destruct (Hend j Hj cu Ej) as (o & -> & _).
Qed.

(** What a call of Next finds from [c] on: the least remaining timestamp, or
    nothing when there is none. *)
Definition next_post Q (changed : bool) c curs (r : option (ValueType * chainSampleIterator I)) : Prop :=
  exists v c' curs', r = Some (v, c') /\ (left_to_read curs' <= left_to_read curs)%nat /\
    length curs' = length curs /\
    ((v = ValNone /\ chain_done Q c' curs' (mark (lastT c)) /\ forall t, ~ remaining curs (lastT c) t) \/
     (exists k s l h, v = sample_Type s /\ chain_inv Q c' curs' k h /\ curs' !! k = Some (On s l) /\
        s_t s = lastT c' /\ remaining curs (lastT c) (s_t s) /\
        (forall t, remaining curs (lastT c) t -> s_t s <= t) /\
        (forall t, s_t s < t -> remaining curs' (s_t s) t <-> remaining curs (lastT c) t) /\
        (consecutive c' = true -> changed = false /\ curr c = Some k /\
           exists it it', iterators c !! k = Some it /\ Next it = Some (v, it') /\
             iterators c' !! k = Some it'))).

Lemma remaining_later curs T T' t : T <= T' -> T' < t -> remaining curs T' t <-> remaining curs T t.
Proof. intros. unfold remaining. split; intros [_ ?]; (split; [lia|done]). Qed.

(** [found] with the iterator [k] at the earliest sample. *)
Lemma next_post_found Q changed b c c1 curs curs1 k s l h v :
  chain_inv Q (set_last (s_t s) b c1) curs1 k h -> curs1 !! k = Some (On s l) -> v = sample_Type s ->
  (left_to_read curs1 <= left_to_read curs)%nat -> length curs1 = length curs -> lastT c < s_t s ->
  (forall t, remaining curs1 (lastT c) t <-> remaining curs (lastT c) t) ->
  (forall t, remaining curs (lastT c) t -> s_t s <= t) ->
  (b = true -> changed = false /\ curr c = Some k /\
     exists it it', iterators c !! k = Some it /\ Next it = Some (v, it') /\ iterators c1 !! k = Some it') ->
  next_post Q changed c curs (Some (v, set_last (s_t s) b c1)).
Proof.
  intros Hinv Hk -> Hleft Hlen HT Hrem Hmin Hb. eexists _, _, curs1. split_and!; [done..|].
  right. exists k, s, l, h. split_and!; [done|done|done|done| |done| |done].
  - apply Hrem. split; [done|]. exists k, (On s l). split; [done|by left].
  - intros t Ht. rewrite <-Hrem. apply remaining_later; lia.
Qed.

(** A result from a later state with the same samples left. *)
Lemma next_post_later Q changed c c1 curs curs1 r :
  next_post Q true c1 curs1 r -> lastT c1 = lastT c ->
  (left_to_read curs1 <= left_to_read curs)%nat -> length curs1 = length curs ->
  (forall t, remaining curs1 (lastT c) t <-> remaining curs (lastT c) t) ->
  next_post Q changed c curs r.
Proof.
  intros (v & c' & curs' & -> & Hl & Hlen & Hcase) Elast Hleft Hlen1 Hrem. rewrite Elast in Hcase.
  exists v, c', curs'. split_and!; [done|lia|lia|]. destruct Hcase as [(-> & Hd & Hno)|Hfound]; [left|right].
  - split_and!; [done..|]. intros t. by rewrite <-Hrem.
  - destruct Hfound as (k & s & l & h & Hv & Hinv & Hk & Hs & Hin & Hmin & Hlater & Hc).
    exists k, s, l, h. split_and!; [done|done|done|done|by apply Hrem| | |by intros [? _]%Hc].
    + intros t Ht. apply Hmin. by apply Hrem.
    + intros t Ht. rewrite Hlater by done. apply Hrem.
Qed.

Lemma set_last_id c T : lastT c = T -> set_last T (consecutive c) c = c.
Proof. intros <-. by destruct c. Qed.

(** The tail of a turn: pop the heap, stop at a new timestamp, go on at the
    last one. *)
Lemma pop_turn Q changed c c1 curs curs1 h1 next :
  reps Q (iterators c1) curs1 -> ch_h c1 = Some h1 -> h1 <> [] -> heap_of curs1 h1 ->
  lastT c1 = lastT c -> MinInt64 <= lastT c ->
  (forall j, j ∈ h1 -> lastT c <= key curs1 j) -> (forall j, j ∉ h1 -> ended curs1 (lastT c) j) ->
  (left_to_read curs1 <= left_to_read curs)%nat -> length curs1 = length curs ->
  (forall t, remaining curs1 (lastT c) t <-> remaining curs (lastT c) t) ->
  (forall c2 k h2, chain_inv Q c2 curs1 k h2 -> lastT c2 = lastT c -> length h1 = S (length h2) ->
     next_post Q true c2 curs1 (next c2)) ->
  next_post Q changed c curs
    ('(currT, v, c) ← pop_curr c1;
     if negb (currT =? lastT c) then Some (v, set_last currT (negb true) c) else next c).
Proof.
  intros Hr Eh Hne Hh Elast Hmin Hlate Hend Hleft Hlen Hrem Hnext. rewrite <-Elast in *.
  destruct (pop_inv Q c1 curs1 h1 (lastT c1)) as (k & s & l & h2 & Hk & E & HT & Hs & Hl2 & Hinv & Hleast); [done..|].
  rewrite E. cbn [mbind option_bind]. cbn [lastT set_curr set_heap]. rewrite Elast in *.
  destruct (Z.eqb_spec (s_t s) (lastT c)) as [Es|Es]; cbn [negb].
  - set (c2 := set_curr (Some k) (set_heap h2 c1)) in *. specialize (Hinv (consecutive c2)).
    rewrite set_last_id in Hinv by (cbn; congruence).
    eapply (next_post_later Q changed c c2); [|exact Elast|done..]. by eapply Hnext.
  - eapply next_post_found; [apply Hinv|exact Hk|done|done|done|lia|done| |done].
    intros t Ht. eapply Hleast. by apply Hrem.
Qed.

(** Facts about moving the current iterator's cursor. *)
Lemma move_current Q c curs k h cu cu' :
  chain_inv Q c curs k h -> curs !! k = Some cu -> avail cu' = rest cu ->
  let curs1 := <[k := cu']> curs in
  heap_of curs1 h /\ (forall j, j ∈ h -> lastT c <= key curs1 j) /\
  (forall j, j <> k -> j ∉ h -> ended curs1 (lastT c) j) /\
  (forall t, remaining curs1 (lastT c) t <-> remaining curs (lastT c) t) /\
  length curs1 = length curs /\ curs1 !! k = Some cu'.
Proof.
  intros [Hr Ec Eh Hh Hk Hmin (cu0 & Hcu0 & Hpos & Hrest) Hlate Hend] Hcu Hav curs1.
  rewrite Hcu in Hcu0. injection Hcu0 as <-. pose proof (lookup_lt_Some _ _ _ Hcu) as Hlt.
  split_and!.
  - destruct Hh. split; [done|by apply on_update|by apply heap_ok_update].
  - intros j Hj. specialize (Hlate j Hj). unfold key, curs1 in *.
    rewrite list_lookup_insert_ne; [done|set_solver].
  - intros j Hjk Hj cuj Hcuj. unfold curs1 in Hcuj. rewrite list_lookup_insert_ne in Hcuj by done.
    by apply (Hend j).
  - intros t. apply (remaining_insert _ _ cu); [done|]. intros u Hu. rewrite Hav. by rewrite avail_rest.
  - apply length_insert.
  - by apply list_lookup_insert_eq.
Qed.

Lemma on_iterator_AtT Q c curs k s l :
  reps Q (iterators c) curs -> curs !! k = Some (On s l) -> iterators c !! k ≫= AtT = Some (s_t s).
Proof.
  intros Hr Hk. rewrite (on_AtT Q _ curs) by (done || by exists s, l). unfold key. by rewrite Hk.
Qed.

(** A turn in which the current iterator found the sample [s]. *)
Lemma sample_turn Q changed c curs k h cu it0 it s l v next
    (c1 := set_iterators (<[k := it]> (iterators c)) c) (curs1 := <[k := On s l]> curs) :
  chain_inv Q c curs k h -> curs !! k = Some cu -> rest cu = s_t s :: l -> lastT c < s_t s ->
  iterators c !! k = Some it0 -> Next it0 = Some (v, it) -> v = sample_Type s ->
  reps Q (iterators c1) curs1 ->
  (forall c2 k2 h2, chain_inv Q c2 curs1 k2 h2 -> lastT c2 = lastT c -> length h = length h2 ->
     next_post Q true c2 curs1 (next c2)) ->
  next_post Q changed c curs
    match h with
    | [] => Some (v, set_last (s_t s) (negb changed) c1)
    | top :: _ =>
        nextT ← iterators c1 !! top ≫= AtT;
        if s_t s <? nextT then Some (v, set_last (s_t s) (negb changed) c1)
        else h ← Push (time_less (iterators c1)) k h;
             '(currT, v, c) ← pop_curr (set_heap h c1);
             if negb (currT =? lastT c) then Some (v, set_last currT (negb true) c) else next c
    end.
Proof.
  intros Hinv Hcu Erest HT Hit0 Enext -> Hr1 Hnext.
  pose proof Hinv as [_ Ec Eh Hh Hk Hmin _ Hlate _].
  destruct (move_current Q c curs k h cu (On s l) Hinv Hcu) as (Hh1 & Hlate1 & Hend1 & Hrem & Hlen & Hk1).
  { by rewrite Erest. }
  pose proof (left_insert curs k cu (On s l) Hcu) as Hleft. rewrite Erest in Hleft. cbn [rest length] in Hleft.
  fold curs1 in Hh1, Hlate1, Hend1, Hrem, Hlen, Hk1, Hleft.
  pose proof (reps_ok _ _ _ _ _ Hr1 Hk1) as [_ [Hsmin Hsl]].
  assert (Hfound : (forall j, j ∈ h -> s_t s <= key curs1 j) ->
    next_post Q changed c curs (Some (sample_Type s, set_last (s_t s) (negb changed) c1))).
  { intros Hle. eapply next_post_found; [|exact Hk1|done|lia|done|done|exact Hrem| |].
    - split; cbn; [done|done|done|exact Hh1|done|lia| |exact Hle|].
      + exists (On s l). cbn. rewrite mark_some by done. split_and!; [done|cbn; lia|done].
      + intros j Hjk Hj cuj Hcuj. destruct (Hend1 j Hjk Hj cuj Hcuj) as (o & -> & Ho).
        exists o. split; [done|]. eapply not_after_trans; [done|apply mark_mono; lia].
    - intros t. rewrite <-Hrem. apply (remaining_ge_heap Q (iterators c1) curs1 h); [done..|].
      intros j Hj. destruct (decide (j = k)) as [->|Hjk]; [rewrite Hk1; lia|].
      destruct (curs1 !! j) as [cuj|] eqn:Ej; [|done]. by destruct (Hend1 j Hjk Hj cuj Ej) as (o & -> & _).
    - intros Hb. apply negb_true_iff in Hb. split_and!; [done..|]. exists it0, it.
      split_and!; [done..|]. apply list_lookup_insert_eq. by eapply lookup_lt_Some. }
  destruct h as [|top h']; [apply Hfound; intros j Hj; by apply elem_of_nil in Hj|].
  assert (Htop : on curs1 top). { destruct Hh1 as [_ Hon _]. by apply Forall_cons in Hon as [? _]. }
  rewrite (on_AtT Q _ curs1) by done. cbn [mbind option_bind].
  destruct (Z.ltb_spec (s_t s) (key curs1 top)) as [Hlt|Hge].
  - apply Hfound. intros j Hj. destruct Hh1 as [_ _ Hok].
    pose proof (heap_root (key_lt curs1) (top :: h') top Hok eq_refl j Hj) as Hle.
    unfold le, key_lt in Hle. lia.
  - destruct (push_heap Q (iterators c1) curs1 k (top :: h')) as (h1 & Eh1 & Hp1 & Hh2); [done..|by exists s, l|].
    rewrite Eh1. cbn [mbind option_bind].
    eapply (pop_turn Q changed c (set_heap h1 c1) curs curs1 h1); [done|done| |done|done|done| | |lia|done|done|].
    + intros ->. by apply Permutation_nil_cons in Hp1.
    + intros j. rewrite Hp1, elem_of_cons. intros [->|Hj]; [unfold key; rewrite Hk1; lia|by apply Hlate1].
    + intros j. rewrite Hp1, elem_of_cons. intros Hj. apply Hend1; tauto.
    + intros c2 k2 h2 Hinv2 El2 Hl2. eapply Hnext; [done..|].
      apply Permutation_length in Hp1. cbn in *. lia.
Qed.

(** A turn in which the current iterator was exhausted. *)
Lemma end_turn Q changed c curs k h cu it next
    (c1 := set_iterators (<[k := it]> (iterators c)) c) (curs1 := <[k := Done (final cu)]> curs) :
  chain_inv Q c curs k h -> curs !! k = Some cu -> rest cu = [] -> reps Q (iterators c1) curs1 ->
  (forall c2 k2 h2, chain_inv Q c2 curs1 k2 h2 -> lastT c2 = lastT c -> length h = S (length h2) ->
     next_post Q true c2 curs1 (next c2)) ->
  next_post Q changed c curs
    match h with
    | [] => Some (ValNone, set_curr None c1)
    | _ => '(currT, v, c) ← pop_curr c1;
           if negb (currT =? lastT c) then Some (v, set_last currT (negb true) c) else next c
    end.
Proof.
  intros Hinv Hcu Erest Hr1 Hnext. pose proof Hinv as [_ Ec Eh Hh Hk Hmin (cu0 & Hcu0 & Hpos & _) _ _].
  rewrite Hcu in Hcu0. injection Hcu0 as <-.
  destruct (move_current Q c curs k h cu (Done (final cu)) Hinv Hcu) as (Hh1 & Hlate1 & Hend1 & Hrem & Hlen & Hk1).
  { by rewrite Erest. }
  pose proof (left_insert curs k cu (Done (final cu)) Hcu) as Hleft. rewrite Erest in Hleft. cbn [rest length] in Hleft.
  fold curs1 in Hh1, Hlate1, Hend1, Hrem, Hlen, Hk1, Hleft.
  assert (Hfin : final cu = pos cu) by (unfold final; by rewrite Erest).
  assert (Hendk : forall j, j ∉ h -> ended curs1 (lastT c) j).
  { intros j Hj cuj Hcuj. destruct (decide (j = k)) as [->|Hjk]; [|by apply (Hend1 j Hjk Hj)].
    rewrite Hk1 in Hcuj. injection Hcuj as <-. exists (final cu). by rewrite Hfin. }
  destruct h as [|top h'].
  - eexists _, _, curs1. split_and!; [done|lia|done|]. left. split_and!; [done| |].
    + split_and!; [done..|]. apply Forall_lookup. intros j cuj Hcuj.
      apply (Hendk j); [apply not_elem_of_nil|done].
    + intros t. rewrite <-Hrem. intros [Ht (j & cuj & Hcuj & Hin)].
      destruct (Hendk j (not_elem_of_nil j) cuj Hcuj) as (o & -> & _). by apply elem_of_nil in Hin.
  - by eapply (pop_turn Q changed c c1 curs curs1 (top :: h')); try done; lia.
Qed.

(** The loop of Next finds the least remaining timestamp. *)
Lemma next_loop_spec Q fuel changed c curs k h :
  chain_inv Q c curs k h -> (left_to_read curs + length h < fuel)%nat ->
  next_post Q changed c curs (next_loop fuel changed c).
Proof.
  revert changed c curs k h. induction fuel as [|fuel IH]; intros changed c curs k h Hinv Hf; [lia|].
  pose proof Hinv as [Hr Ec Eh _ _ _ (cu & Hcu & _ & Hrest) _ _].
  destruct (on_iterator_lands Q c curs k cu Next (rest cu) (final cu) Hr Hcu) as
    (v & it & cu' & E & (it0 & Hit0 & Enext) & Hr1 & Hland & Herr & Hv).
  { intros it _. apply rep_next. }
  cbn [next_loop]. rewrite Ec. cbn [mbind option_bind]. rewrite E. cbn [mbind option_bind].
  change (ch_h (set_iterators _ c)) with (ch_h c). rewrite Eh. cbn [mbind option_bind].
  pose proof (left_insert curs k cu cu' Hcu) as Hleft.
  destruct (rest cu) as [|u l] eqn:Erest; cbn in Hland; cbn [length] in Hleft.
  - subst cu' v. rewrite Herr. eapply (end_turn Q changed c curs k h cu it); [done..|].
    intros c2 k2 h2 Hinv2 _ Hl2. eapply IH; [exact Hinv2|]. cbn in Hleft. lia.
  - destruct Hland as (s & <- & ->). apply Forall_cons in Hrest as [HT _]. cbn [rest] in Hleft.
    rewrite (on_iterator_AtT Q _ (<[k := On s l]> curs) k s l Hr1)
      by (apply list_lookup_insert_eq; by eapply lookup_lt_Some).
    cbn [mbind option_bind]. change (lastT (set_iterators _ c)) with (lastT c).
    destruct (Z.eqb_spec (s_t s) (lastT c)); [lia|].
    pose proof (sample_turn Q changed c curs k h cu it0 it s l v (next_loop fuel true)) as Hturn.
    pose proof (sample_Type_some s). destruct (sample_Type s); [done|..]; subst v;
      (eapply Hturn; [done..|]; intros c2 k2 h2 Hinv2 _ Hl2; eapply IH; [exact Hinv2|lia]).
Qed.

(** ** The chain as an iterator *)

(** The sample as the chain reports it: a histogram that does not follow its
    neighbour loses its counter reset hint. *)
Definition seen (b : bool) (s : sample) : sample :=
  mk_sample (s_st s) (s_t s) (s_f s) (forget_reset b <$> s_h s) (forget_reset b <$> s_fh s).

Lemma seen_Type b s : sample_Type (seen b s) = sample_Type s.
Proof. unfold sample_Type. cbn. by destruct (s_h s), (s_fh s). Qed.

Lemma lookup_fresh curs k cu : Forall (fun cu => exists l, cu = Fresh l) curs -> curs !! k = Some cu ->
  exists l, cu = Fresh l.
Proof. rewrite Forall_lookup. intros Hf. apply Hf. Qed.

Section Represent.
Context (fuel : nat).

(** Where the chain is, given where its iterators are: [fuel] bounds the turns
    of Next's loop by the samples to read. *)
Definition chain_at Q c curs (cur : cursor) : Prop :=
  match cur with
  | Fresh l =>
      reps Q (iterators c) curs /\ curr c = None /\ ch_h c = None /\ lastT c = MinInt64 /\
      Forall (fun cu => exists l, cu = Fresh l) curs /\
      (forall t, t ∈ l <-> remaining curs MinInt64 t)
  | On s l =>
      exists k h s' l', chain_inv Q c curs k h /\ curs !! k = Some (On s' l') /\ s_t s' = lastT c /\
        s = seen (consecutive c) s' /\ (forall t, t ∈ l <-> remaining curs (lastT c) t)
  | Done o => chain_done Q c curs o
  end.

Definition chain_rep c (P : sample -> Prop) (cur : cursor) : Prop :=
  exists Q curs, (forall s b, Q s -> P (seen b s)) /\ cursor_ok cur /\ curs <> [] /\
    (left_to_read curs + length curs < fuel)%nat /\ chain_at Q c curs cur.

(** What both calls need to know of the iterators. *)
Record snapshot Q c curs cur : Prop := {
  sn_reps : reps Q (iterators c) curs;
  sn_rest t : t ∈ rest cur <-> passed cur t /\ exists j cu, curs !! j = Some cu /\ t ∈ avail cu;
  sn_done j o : curs !! j = Some (Done o) -> not_after o (pos cur);
  sn_end : if cur is Done _ then Forall (fun cu => avail cu = []) curs else True
}.

Lemma chain_at_snapshot Q c curs cur : cursor_ok cur -> chain_at Q c curs cur -> snapshot Q c curs cur.
Proof.
  intros Hok Hat. destruct cur as [l|s l|o]; cbn in Hat.
  - destruct Hat as (Hr & _ & _ & _ & Hf & Hl). split; [done| | |done].
    + intros t. cbn. rewrite Hl. split; [by intros [_ ?]|]. intros [_ (j & cu & Hj & Hin)].
      split; [|by exists j, cu]. destruct (lookup_fresh _ _ _ Hf Hj) as [lj ->].
      destruct (reps_ok _ _ _ _ _ Hr Hj) as [_ Hm]. rewrite Forall_forall in Hm. by apply Hm.
    + intros j o Hj. by destruct (lookup_fresh _ _ _ Hf Hj).
  - destruct Hat as (k & h & s' & l' & Hinv & Hk & Es & -> & Hl). pose proof Hinv as [Hr _ _ Hh Hkh _ _ _ Hend].
    split; [done| | |done].
    + intros t. cbn. rewrite Hl. unfold remaining, passed. cbn. by rewrite Es.
    + intros j o Hj. cbn. rewrite Es.
      assert (Hjk : j <> k) by (intros ->; congruence).
      assert (Hjh : j ∉ h).
      { intros Hjh. destruct Hh as [_ Hon _]. rewrite Forall_forall in Hon.
        destruct (Hon j Hjh) as (? & ? & ?). congruence. }
      destruct (Hend j Hjk Hjh _ Hj) as (o' & [= <-] & Ho). eapply not_after_trans; [exact Ho|].
      unfold mark. case_match; [done|]. cbn. lia.
  - destruct Hat as (Hr & _ & _ & Hd). rewrite Forall_lookup in Hd.
    assert (Hav : forall j cu, curs !! j = Some cu -> avail cu = []).
    { intros j cu Hj. by destruct (Hd j cu Hj) as (o' & -> & _). }
    split; [done| | |by apply Forall_lookup].
    + intros t. cbn. split; [by intros ?%elem_of_nil|]. intros [_ (j & cu & Hj & Hin)].
      rewrite (Hav j cu Hj) in Hin. by apply elem_of_nil in Hin.
    + intros j o' Hj. by destruct (Hd j _ Hj) as (? & [= <-] & ?).
Qed.

(** No iterator ends after the chain. *)
Lemma final_bound Q c curs cur j cu :
  cursor_ok cur -> snapshot Q c curs cur -> curs !! j = Some cu -> not_after (final cu) (final cur).
Proof.
  intros Hok [_ Hrest Hdone _] Hj.
  assert (Hav : forall u, u ∈ avail cu -> not_after (Some u) (final cur)).
  { intros u Hu. destruct (decide (u ∈ rest cur)) as [Hin|Hout]; [by apply final_max|].
    eapply not_after_trans; [|by apply final_pos]. rewrite Hrest in Hout. unfold passed in Hout.
    destruct (pos cur) as [p|]; cbn.
    - destruct (decide (p < u)); [|lia]. destruct Hout. split; [done|by exists j, cu].
    - destruct Hout. split; [done|by exists j, cu]. }
  destruct (final_cases cu) as [(u & -> & Hu)| ->].
  - apply Hav. destruct cu; cbn in *; [done|by right|by apply elem_of_nil in Hu].
  - destruct cu as [l|s l|o]; cbn; [done|apply Hav; by left|].
    eapply not_after_trans; [by eapply Hdone|by apply final_pos].
Qed.

(** The head of the sorted list of the timestamps still to come. *)
Lemma least_head (R : Z -> Prop) u l x :
  StronglySorted Z.lt (u :: l) -> (forall t, t ∈ u :: l <-> R t) -> R x -> (forall t, R t -> x <= t) -> x = u.
Proof.
  intros Hs Hl Hx Hmin. apply StronglySorted_inv in Hs as [_ Hu]. rewrite Forall_forall in Hu.
  assert (Hux : x <= u) by (apply Hmin, Hl; by left).
  apply Hl, elem_of_cons in Hx as [->|Hx]; [done|]. specialize (Hu x Hx). lia.
Qed.

(** A result of Next's loop is where the cursor says. *)
Lemma next_post_lands Q P changed c curs cur l r :
  (forall s b, Q s -> P (seen b s)) -> curs <> [] -> (left_to_read curs + length curs < fuel)%nat ->
  StronglySorted Z.lt l -> (forall t, t ∈ l <-> remaining curs (lastT c) t) ->
  rest cur = l -> pos cur = mark (lastT c) ->
  next_post Q changed c curs r -> lands chain_rep P l (final cur) r.
Proof.
  intros HP Hne Hf Hs Hl Erest Epos (v & c' & curs' & -> & Hleft & Hlen & Hcase).
  assert (Hne' : curs' <> []) by (intros ->; by destruct curs).
  destruct l as [|u l]; cbn.
  - destruct Hcase as [(-> & Hd & _)|(k & s & l & h & _ & _ & _ & _ & Hin & _)].
    + eexists. split; [done|]. exists Q, curs'. unfold final. rewrite Erest, Epos. cbn.
      split_and!; [done|by split; [constructor|]|done|lia|done].
    + apply Hl in Hin. by apply elem_of_nil in Hin.
  - destruct Hcase as [(_ & _ & Hno)|(k & s & l' & h & -> & Hinv & Hk & Es & Hin & Hmin & Hlater & _)].
    { destruct (Hno u). apply Hl. by left. }
    pose proof (least_head _ _ _ _ Hs Hl Hin Hmin) as Eu. apply StronglySorted_inv in Hs as [Hs Hu].
    pose proof (reps_ok _ _ _ _ _ (ci_reps _ _ _ _ _ Hinv) Hk) as [_ [Hsm _]].
    exists (seen (consecutive c') s), c'. split_and!; [done|by rewrite seen_Type|].
    exists Q, curs'. split_and!; [done|split; [done|cbn; by rewrite Eu in *]|done|lia|].
    exists k, h, s, l'. split_and!; [done..|]. intros t. rewrite <-Es. split.
    + intros Ht. rewrite Forall_forall in Hu. specialize (Hu t Ht). rewrite Hlater by lia. apply Hl. by right.
    + intros Ht. pose proof Ht as [Hlt _]. rewrite Hlater in Ht by done. apply Hl, elem_of_cons in Ht as [->|Ht]; [lia|done].
Qed.

Lemma left_pointwise curs curs' :
  Forall2 (fun cu cu' => length (rest cu') <= length (rest cu))%nat curs curs' ->
  (left_to_read curs' <= left_to_read curs)%nat.
Proof. induction 1; cbn in *; lia. Qed.

(** A heap of indices has no more elements than the slice. *)
Lemma heap_length curs h : heap_of curs h -> (length h <= length curs)%nat.
Proof.
  intros [Hnd Hon _]. rewrite <-(length_seq (length curs) 0). apply submseteq_length, NoDup_submseteq; [done|].
  intros j Hj. rewrite Forall_forall in Hon. destruct (Hon j Hj) as (s & l & Ej).
  apply elem_of_seq. apply lookup_lt_Some in Ej. lia.
Qed.

(** The first Next, which advances every iterator but the first. *)
Lemma first_fill Q c curs l :
  chain_at Q c curs (Fresh l) -> curs <> [] ->
  exists c' curs' h,
    fill Next (seq 1 (length (iterators c) - 1)) (set_curr (Some 0%nat) (set_heap [] c)) = Some (false, c') /\
    chain_inv Q c' curs' 0 h /\ lastT c' = MinInt64 /\ curr c' = Some 0%nat /\ length curs' = length curs /\
    (left_to_read curs' <= left_to_read curs)%nat /\
    (forall t, remaining curs' MinInt64 t <-> remaining curs MinInt64 t).
Proof.
  intros (Hr & _ & _ & Elast & Hfr & _) Hne.
  assert (Hlen : length (iterators c) = length curs) by by eapply Forall2_length.
  pose proof (fill_spec Q Next rest (seq 1 (length (iterators c) - 1)) (set_curr (Some 0%nat) (set_heap [] c)) curs [])
    as (its' & h & curs' & E & H1 & H2 & H3 & H4 & H5 & H6); [|done|done| |apply NoDup_seq| |].
  { intros k cu it _ _. apply rep_next. }
  { split; [constructor|constructor|apply heap_ok_nil]. }
  { intros k [Hk1 Hk2]%elem_of_seq. split; [apply not_elem_of_nil|]. apply lookup_lt_is_Some. lia. }
  assert (Hmoved : forall j cu, curs !! j = Some cu -> (j <> 0)%nat ->
    exists cu', curs' !! j = Some cu' /\ landed (rest cu) (final cu) cu').
  { intros j cu Hj Hj0. apply H5; [|done]. apply elem_of_seq. apply lookup_lt_Some in Hj. lia. }
  assert (Hfst : curs' !! 0%nat = curs !! 0%nat) by (apply H4; rewrite elem_of_seq; lia).
  assert (Hcur : forall j cu', curs' !! j = Some cu' -> exists lj, curs !! j = Some (Fresh lj) /\
    avail cu' = lj /\ (length (rest cu') <= length lj)%nat /\ ((j <> 0)%nat -> landed lj (final (Fresh lj)) cu')).
  { intros j cu' Hj. destruct (lookup_lt_is_Some_2 curs j) as [cu Hcu]; [rewrite <-H3; by eapply lookup_lt_Some|].
    destruct (lookup_fresh _ _ _ Hfr Hcu) as [lj ->]. exists lj. destruct (decide (j = 0)%nat) as [->|Hj0].
    - rewrite Hfst, Hcu in Hj. by injection Hj as <-.
    - destruct (Hmoved j _ Hcu Hj0) as (cu2 & E2 & Hland). rewrite Hj in E2. injection E2 as <-.
      split_and!; [done|by eapply landed_avail| |done]. apply landed_avail in Hland. cbn [rest] in Hland.
      rewrite <-Hland. by destruct cu'; cbn; lia. }
  exists (mk_chain its' (Some h) (Some 0%nat) (lastT c) (consecutive c)), curs', h.
  split_and!; [done| |done|done|done| |].
  - split; cbn [iterators curr ch_h lastT]; [done|done|done|done|rewrite H6, elem_of_seq; set_solver by lia|rewrite Elast; lia|..].
    + destruct (lookup_lt_is_Some_2 curs' 0) as [cu Hcu]; [destruct curs; cbn in *; [done|lia]|].
      pose proof Hcu as Hcu'. rewrite Hfst in Hcu'. destruct (lookup_fresh _ _ _ Hfr Hcu') as [l0 ->].
      exists (Fresh l0). rewrite Elast. destruct (reps_ok _ _ _ _ _ Hr Hcu') as [_ Hm]. by split_and!.
    + intros j Hj. destruct H2 as [_ Hon _]. rewrite Forall_forall in Hon. destruct (Hon j Hj) as (s & lj & Ej).
      unfold key. rewrite Ej, Elast. destruct (reps_ok _ _ _ _ _ H1 Ej) as [_ [Hm _]]. lia.
    + intros j Hj0 Hj cu Hcu. destruct (Hcur j cu Hcu) as (lj & _ & _ & _ & Hland). specialize (Hland Hj0).
      destruct lj as [|u lj]; cbn in Hland; [by exists None|]. destruct Hland as (s & _ & ->).
      destruct Hj. apply H6. right. split; [apply elem_of_seq; apply lookup_lt_Some in Hcu; lia|by exists s, lj].
  - apply left_pointwise. apply Forall2_lookup. intros j. destruct (curs' !! j) as [cu'|] eqn:Ej.
    + destruct (Hcur j cu' Ej) as (lj & -> & _ & Hle & _). by constructor.
    + apply lookup_ge_None in Ej. rewrite (proj2 (lookup_ge_None curs j)) by lia. constructor.
  - intros t. unfold remaining. split; intros [Ht (j & cu & Hj & Hin)]; (split; [done|]).
    + destruct (Hcur j cu Hj) as (lj & Ej & <- & _). by exists j, (Fresh (avail cu)).
    + destruct (lookup_lt_is_Some_2 curs' j) as [cu' Hcu']; [rewrite H3; by eapply lookup_lt_Some|].
      destruct (Hcur j cu' Hcu') as (lj & Ej & Eav & _). rewrite Hj in Ej. injection Ej as ->.
      exists j, cu'. by rewrite Eav.
Qed.

Lemma chain_rep_next c P cur :
  chain_rep c P cur -> lands chain_rep P (rest cur) (final cur) (chain_Next fuel c).
Proof.
  intros (Q & curs & HP & Hok & Hne & Hf & Hat). pose proof Hok as [Hs _].
  destruct cur as [l|s l|o]; cbn [rest] in *.
  - pose proof Hat as (Hr & Ec & Eh & Elast & Hfr & Hl).
    destruct (first_fill Q c curs l Hat Hne) as (c' & curs' & h & E & Hinv & El' & Ec' & Hlen & Hleft & Hrem).
    unfold chain_Next. rewrite Eh.
    assert (Hits : is_Some (iterators c !! 0%nat)).
    { apply lookup_lt_is_Some. rewrite (Forall2_length _ _ _ Hr). destruct curs; cbn; [done|lia]. }
    destruct Hits as [it0 ->]. cbn [mbind option_bind]. rewrite E. cbn [mbind option_bind]. rewrite Ec'.
    apply (next_post_lands Q P true c' curs'); [done| |lia|done| |done|by rewrite El'|].
    + intros ->. by destruct curs.
    + intros t. by rewrite El', Hrem.
    + eapply next_loop_spec; [exact Hinv|]. pose proof (heap_length _ _ (ci_heap _ _ _ _ _ Hinv)). lia.
  - destruct Hat as (k & h & s' & l' & Hinv & Hk & Es & -> & Hl).
    unfold chain_Next. rewrite (ci_h _ _ _ _ _ Hinv). cbn [mbind option_bind]. rewrite (ci_curr _ _ _ _ _ Hinv).
    pose proof (reps_ok _ _ _ _ _ (ci_reps _ _ _ _ _ Hinv) Hk) as [_ [Hsm _]].
    apply (next_post_lands Q P false c curs); [done|done|done|done|done|done| |].
    + cbn. by rewrite <-Es, mark_some.
    + eapply next_loop_spec; [exact Hinv|]. pose proof (heap_length _ _ (ci_heap _ _ _ _ _ Hinv)). lia.
  - destruct Hat as (Hr & Ec & Eh & Hd). unfold chain_Next. rewrite Eh. cbn [mbind option_bind]. rewrite Ec.
    eexists. split; [done|]. by exists Q, curs.
Qed.

(** The iterators after Seek's range loop. *)
Definition sought (t : Z) curs curs' : Prop :=
  length curs' = length curs /\
  forall j cu, curs !! j = Some cu -> exists cu', curs' !! j = Some cu' /\ landed (from t (avail cu)) (final cu) cu'.

Lemma sought_back t curs curs' j cu' : sought t curs curs' -> curs' !! j = Some cu' ->
  exists cu, curs !! j = Some cu /\ landed (from t (avail cu)) (final cu) cu'.
Proof.
  intros [Hlen Hs] Hj. destruct (lookup_lt_is_Some_2 curs j) as [cu Hcu]; [rewrite <-Hlen; by eapply lookup_lt_Some|].
  destruct (Hs j cu Hcu) as (cu2 & E2 & Hland). rewrite Hj in E2. injection E2 as <-. by exists cu.
Qed.

Lemma sought_left t curs curs' : sought t curs curs' -> (left_to_read curs' <= left_to_read curs)%nat.
Proof.
  intros Hs. apply left_pointwise, Forall2_lookup. intros j. destruct (curs' !! j) as [cu'|] eqn:Ej.
  - destruct (sought_back t curs curs' j cu' Hs Ej) as (cu & -> & Hland). constructor.
    destruct (from_suffix t (avail cu)) as [l1 E]. apply (f_equal length) in E. rewrite length_app in E.
    destruct (from t (avail cu)) as [|u l]; cbn in Hland; [subst; cbn; lia|].
    destruct Hland as (s & _ & ->). destruct cu; cbn in *; lia.
  - destruct Hs as [Hlen _]. apply lookup_ge_None in Ej.
    rewrite (proj2 (lookup_ge_None curs j)) by lia. constructor.
Qed.

Lemma avail_sorted cu : cursor_ok cu -> StronglySorted Z.lt (avail cu).
Proof. intros [Hs Hc]. destruct cu; cbn in *; [done| |constructor]. destruct Hc. by constructor. Qed.

(** The chain's timestamps from [t] on are those of its iterators. *)
Lemma sought_avail Q c curs cur t curs' x :
  cursor_ok cur -> snapshot Q c curs cur -> passed cur t -> sought t curs curs' ->
  x ∈ from t (rest cur) <-> exists j cu', curs' !! j = Some cu' /\ x ∈ avail cu'.
Proof.
  intros [Hs _] [Hr Hrest _ _] Hp Hsought. rewrite elem_of_from, Hrest by done. split.
  - intros [[_ (j & cu & Hj & Hin)] Ht]. destruct Hsought as [_ Hsought].
    destruct (Hsought j cu Hj) as (cu' & Hj' & Hland). exists j, cu'. split; [done|].
    rewrite (landed_avail _ _ _ Hland). apply elem_of_from; [|done].
    by apply avail_sorted, (reps_ok _ _ _ _ _ Hr Hj).
  - intros (j & cu' & Hj & Hin). destruct (sought_back _ _ _ _ _ Hsought Hj) as (cu & Hcu & Hland).
    rewrite (landed_avail _ _ _ Hland) in Hin.
    apply elem_of_from in Hin as [Hin Ht]; [|by apply avail_sorted, (reps_ok _ _ _ _ _ Hr Hcu)].
    split; [|done]. split; [|by exists j, cu]. unfold passed in *. destruct (pos cur); [lia|done].
Qed.

Lemma chain_fill_seek Q c curs cur t (c0 := set_heap [] (set_last (lastT c) false c)) :
  cursor_ok cur -> snapshot Q c curs cur -> passed cur t ->
  exists its' h curs',
    fill (Seek t) (seq 0 (length (iterators c))) c0 = Some (false, mk_chain its' (Some h) (curr c) (lastT c) false) /\
    reps Q its' curs' /\ heap_of curs' h /\ sought t curs curs' /\ (forall j, j ∈ h <-> on curs' j).
Proof.
  intros Hok [Hr _ Hdone _] Hp. assert (Hlen : length (iterators c) = length curs) by by eapply Forall2_length.
  pose proof (fill_spec Q (Seek t) (fun cu => from t (avail cu)) (seq 0 (length (iterators c))) c0 curs [])
    as (its' & h & curs' & E & H1 & H2 & H3 & _ & H5 & H6); [|done|done| |apply NoDup_seq| |].
  { intros k cu it _ Hk Hrep. apply seek_avail; [done|]. destruct cu as [l|s l|o]; [done..|].
    specialize (Hdone k o Hk). unfold passed in *. cbn. destruct o as [p|]; [|done].
    destruct (pos cur); cbn in Hdone; [lia|done]. }
  { split; [constructor|constructor|apply heap_ok_nil]. }
  { intros k [_ Hk]%elem_of_seq. split; [apply not_elem_of_nil|]. apply lookup_lt_is_Some. lia. }
  exists its', h, curs'. split_and!; [done|done|done| |].
  - split; [done|]. intros j cu Hj. apply H5; [|done]. apply elem_of_seq. apply lookup_lt_Some in Hj. lia.
  - intros j. rewrite H6. split; [intros [Hj|[_ ?]]; [by apply elem_of_nil in Hj|done]|].
    intros Hon. right. split; [|done]. destruct Hon as (s & l & Ej). apply lookup_lt_Some in Ej.
    apply elem_of_seq. lia.
Qed.

(** An iterator that the loop exhausted ended before [t]. *)
Lemma sought_ended Q c curs cur t curs' j :
  cursor_ok cur -> snapshot Q c curs cur -> passed cur t -> sought t curs curs' ->
  (if cur is Done _ then False else True) -> ~ on curs' j -> ended curs' (Z.max MinInt64 (t - 1)) j.
Proof.
  intros Hok Hsn Hp Hsought Hcur Hoff cu' Hj.
  destruct (sought_back _ _ _ _ _ Hsought Hj) as (cu & Hcu & Hland).
  destruct (from t (avail cu)) as [|u l] eqn:Efrom; cbn in Hland.
  2: { destruct Hland as (s & _ & ->). destruct Hoff. by exists s, l. }
  subst cu'. exists (final cu). split; [done|]. apply from_nil_Forall in Efrom. rewrite Forall_forall in Efrom.
  pose proof (reps_ok _ _ _ _ _ (sn_reps _ _ _ _ Hsn) Hcu) as [_ Hc].
  assert (Hav : forall u, u ∈ avail cu -> not_after (Some u) (mark (Z.max MinInt64 (t - 1)))).
  { intros u Hu. specialize (Efrom u Hu). assert (MinInt64 < u); [|rewrite mark_some by lia; cbn; lia].
    destruct cu as [lc|s lc|o]; cbn in *.
    - rewrite Forall_forall in Hc. by apply Hc.
    - destruct Hc as [Hc1 Hc2]. rewrite Forall_forall in Hc2. apply elem_of_cons in Hu as [->|Hu]; [done|].
      specialize (Hc2 u Hu). lia.
    - by apply elem_of_nil in Hu. }
  destruct (final_cases cu) as [(u & -> & Hu)| ->].
  - apply Hav. destruct cu; cbn in *; [done|by right|by apply elem_of_nil in Hu].
  - destruct cu as [lc|s lc|o]; cbn [pos]; [done|apply Hav; by left|].
    pose proof (sn_done _ _ _ _ Hsn j o Hcu) as Ho. destruct o as [p|]; [|done].
    unfold passed in Hp. destruct cur as [lc|s lc|o2]; cbn in *; [done| |done].
    destruct Hok as [_ [Hm _]]. cbn in Hm. rewrite mark_some by lia. cbn. lia.
Qed.

(** The loop found nothing: the chain has no timestamp from [t] on. *)
Lemma move_end Q P curs curs' cur t c' its0 :
  (forall s b, Q s -> P (seen b s)) -> curs' <> [] -> (left_to_read curs' + length curs' < fuel)%nat ->
  cursor_ok cur -> snapshot Q its0 curs cur -> passed cur t -> sought t curs curs' ->
  reps Q (iterators c') curs' -> ch_h c' = Some [] -> (forall j, ~ on curs' j) ->
  lands chain_rep P (from t (rest cur)) (final cur) (Some (ValNone, set_curr None c')).
Proof.
  intros HP Hne Hf Hok Hsn Hp Hsought Hr Eh Hoff.
  assert (Hall : forall j cu', curs' !! j = Some cu' -> exists cu, curs !! j = Some cu /\ cu' = Done (final cu)).
  { intros j cu' Hj. destruct (sought_back _ _ _ _ _ Hsought Hj) as (cu & Hcu & Hland). exists cu. split; [done|].
    destruct (from t (avail cu)) as [|u l]; [done|]. destruct Hland as (s & _ & ->).
    destruct (Hoff j). by exists s, l. }
  destruct (from t (rest cur)) as [|u l] eqn:Ef.
  - eexists. split; [done|]. exists Q, curs'. split_and!; [done|by split; [constructor|]|done|done|].
    split_and!; [done..|]. apply Forall_lookup. intros j cu' Hj. destruct (Hall j cu' Hj) as (cu & Hcu & ->).
    exists (final cu). split; [done|]. by eapply final_bound.
  - destruct (proj1 (sought_avail _ _ _ _ _ _ u Hok Hsn Hp Hsought)) as (j & cu' & Hj & Hu); [rewrite Ef; by left|].
    destruct (Hall j cu' Hj) as (cu & _ & ->). by apply elem_of_nil in Hu.
Qed.

(** The earliest iterator found is the chain's. *)
Lemma move_found Q P curs curs' cur t c' its0 h :
  (forall s b, Q s -> P (seen b s)) -> curs' <> [] -> (left_to_read curs' + length curs' < fuel)%nat ->
  cursor_ok cur -> snapshot Q its0 curs cur -> passed cur t -> sought t curs curs' ->
  reps Q (iterators c') curs' -> ch_h c' = Some h -> h <> [] -> heap_of curs' h -> consecutive c' = false ->
  (forall j, j ∈ h <-> on curs' j) ->
  lands chain_rep P (from t (rest cur)) (final cur)
    ('(t, v, c) ← pop_curr c'; Some (v, set_last t (consecutive c) c)).
Proof.
  intros HP Hne Hf Hok Hsn Hp Hsought Hr Eh Hhne Hh Econs Hin.
  pose proof (fun x => sought_avail Q _ curs cur t curs' x Hok Hsn Hp Hsought) as Hav.
  assert (Hcur : if cur is Done _ then False else True).
  { destruct cur as [l|s l|o]; [done..|]. destruct h as [|k0 h0]; [done|].
    destruct (proj1 (Hin k0)) as (s & l & Ek); [by left|].
    eapply not_elem_of_nil, (Hav (s_t s)). exists k0, (On s l). split; [done|by left]. }
  destruct (pop_inv Q c' curs' h (Z.max MinInt64 (t - 1)))
    as (k & s & l & h' & Hk & -> & HT & Hsm & _ & Hinv & Hleast); [done..|lia| | |].
  - intros j Hj. destruct (proj1 (Hin j) Hj) as (s & l & Ej). unfold key. rewrite Ej.
    destruct (sought_back _ _ _ _ _ Hsought Ej) as (cu & Hcu & Hland). apply landed_avail in Hland. cbn in Hland.
    assert (s_t s ∈ from t (avail cu)) as Hs by (rewrite <-Hland; by left).
    apply elem_of_from in Hs as [_ Hts]; [|by apply avail_sorted, (reps_ok _ _ _ _ _ (sn_reps _ _ _ _ Hsn) Hcu)].
    destruct (reps_ok _ _ _ _ _ Hr Ej) as [_ [Hm _]]. lia.
  - intros j Hj. eapply sought_ended; [done..|]. by rewrite <-Hin.
  - cbn [mbind option_bind]. specialize (Hinv false). cbn [consecutive set_curr set_heap] in *. rewrite Econs.
    assert (Hsf : s_t s ∈ from t (rest cur)) by (apply Hav; exists k, (On s l); split; [done|by left]).
    destruct (from t (rest cur)) as [|u lf] eqn:Ef; [by apply elem_of_nil in Hsf|].
    assert (Hsorted : StronglySorted Z.lt (u :: lf)) by (rewrite <-Ef; apply from_sorted, Hok).
    assert (Hx : s_t s = u).
    { eapply (least_head (fun x => x ∈ u :: lf)); [done|done|done|]. intros x Hx.
      apply (Hleast (x - 1)). split; [lia|]. by apply Hav. }
    apply StronglySorted_inv in Hsorted as [Hs Hu]. rewrite Forall_forall in Hu.
    eexists (seen false s), _. split_and!; [done|by rewrite seen_Type|].
    exists Q, curs'. split_and!; [done| |done|lia|].
    + split; [done|]. cbn. rewrite Hx in *. split; [done|]. by apply Forall_forall.
    + exists k, h', s, l. split_and!; [done..|]. intros x. cbn [lastT set_last]. rewrite Hx. split.
      * intros Hxin. split; [by apply Hu|]. apply Hav. by right.
      * intros [Hlt Hex]. apply Hav, elem_of_cons in Hex as [->|?]; [lia|done].
Qed.

Lemma chain_rep_seek c P cur t :
  chain_rep c P cur -> passed cur t -> lands chain_rep P (from t (rest cur)) (final cur) (chain_Seek t c).
Proof.
  intros (Q & curs & HP & Hok & Hne & Hf & Hat) Hp.
  pose proof (chain_at_snapshot Q c curs cur Hok Hat) as Hsn.
  destruct (chain_fill_seek Q c curs cur t Hok Hsn Hp) as (its' & h & curs' & E & Hr & Hh & Hsought & Hin).
  pose proof (sought_left _ _ _ Hsought) as Hleft. pose proof Hsought as [Hlen _].
  assert (Hne' : curs' <> []) by (intros ->; by destruct curs).
  unfold chain_Seek.
  assert (Hcurr : curr c = None \/ exists k, curr c = Some k /\ lastT c < t).
  { destruct cur as [l|s l|o]; cbn in Hat.
    - left. by destruct Hat as (_ & -> & _).
    - right. destruct Hat as (k & h1 & s' & l' & Hinv & _ & Es & -> & _). exists k.
      split; [by apply (ci_curr _ _ _ _ _ Hinv)|]. unfold passed in Hp. cbn in Hp. lia.
    - left. by destruct Hat as (_ & -> & _). }
  match goal with |- lands _ _ _ _ (match _ with Some k => _ | None => ?m end) =>
    assert (Hmove : lands chain_rep P (from t (rest cur)) (final cur) m) end.
  - cbn [iterators set_heap set_last]. rewrite E. cbn [mbind option_bind ch_h]. destruct h as [|k0 h0].
    + eapply move_end; [done|done|lia|done..|]. intros j Hj. by apply Hin, elem_of_nil in Hj.
    + eapply move_found; [done|done|lia|done..].
  - destruct Hcurr as [->|(k & -> & Hlt)]; [done|]. by destruct (Z.leb_spec t (lastT c)); [lia|].
Qed.

Lemma chain_Err_nil Q c curs : reps Q (iterators c) curs -> chain_Err c = [].
Proof.
  unfold chain_Err. intros Hr. induction Hr as [|it cu its curs' Hrep _ IH]; [done|].
  cbn. by rewrite (rep_err _ _ _ Hrep).
Qed.

Lemma chain_rep_on c P s l : chain_rep c P (On s l) -> P s /\ @holds _ (chain_SampleIterator fuel) c s.
Proof.
  intros (Q & curs & HP & _ & _ & _ & (k & h & s' & l' & Hinv & Hk & _ & -> & _)).
  pose proof Hinv as [Hr Ec _ _ _ _ _ _ _]. destruct (reps_lookup _ _ _ _ _ Hr Hk) as (it & Hit & Hrep).
  destruct (rep_on _ _ _ _ Hrep) as [HQ (Ht & Hst & Hv)]. split; [by apply HP|].
  assert (Hcurr : forall A (f : I -> option A), at_curr f c = f it).
  { intros A f. unfold at_curr. rewrite Ec. cbn. by rewrite Hit. }
  unfold holds, chain_SampleIterator. cbn [AtT AtST At AtHistogram AtFloatHistogram].
  unfold chain_AtHistogram, chain_AtFloatHistogram. rewrite !Hcurr, seen_Type. split_and!; [done..|].
  unfold sample_Type in *. destruct s' as [st t f [hh|] [fh|]]; cbn in *; by rewrite Hv.
Qed.

Lemma chain_rep_done c P o o' : chain_rep c P (Done o) -> not_after o o' -> chain_rep c P (Done o').
Proof.
  intros (Q & curs & HP & Hok & Hne & Hf & Hr & Ec & Eh & Hd) Ho. exists Q, curs. split_and!; [done..|].
  split_and!; [done..|]. eapply Forall_impl; [exact Hd|]. intros cu (p & -> & Hp). exists p.
  split; [done|]. by eapply not_after_trans.
Qed.

Lemma chain_rep_here c P s l t :
  chain_rep c P (On s l) -> t <= s_t s -> chain_Seek t c = Some (sample_Type s, c).
Proof.
  intros (Q & curs & HP & _ & _ & _ & (k & h & s' & l' & Hinv & Hk & Es & -> & _)) Ht. cbn in Ht.
  pose proof Hinv as [Hr Ec _ _ _ _ _ _ _]. destruct (reps_lookup _ _ _ _ _ Hr Hk) as (it & Hit & Hrep).
  unfold chain_Seek. rewrite Ec. destruct (Z.leb_spec t (lastT c)); [|lia]. unfold on_iterator. rewrite Hit.
  cbn [mbind option_bind]. rewrite (rep_seek_here _ _ _ _ (lastT c) Hrep) by lia. cbn.
  rewrite (list_insert_id _ _ _ Hit), seen_Type. by destruct c.
Qed.

(** The merging iterator meets the contract its inputs meet. *)
Definition chain_laws : @SampleIteratorLaws (chainSampleIterator I) (chain_SampleIterator fuel).
Proof.
  refine (@Build_SampleIteratorLaws _ (chain_SampleIterator fuel) chain_rep _ _ _ _ _ _ _ _).
  - by intros c P cur (? & ? & ? & ? & _).
  - intros c P cur (Q & curs & HP & Hok & _ & _ & Hat).
    apply (chain_Err_nil Q c curs), (chain_at_snapshot Q c curs cur Hok Hat).
  - apply chain_rep_on.
  - intros c P p q Hr Hpq. by eapply chain_rep_done.
  - intros c P q Hr. by eapply chain_rep_done.
  - apply chain_rep_next.
  - intros c P cur t. apply chain_rep_seek.
  - intros c P s l t. apply chain_rep_here.
Defined.

(** A new chain over iterators that have not been read. *)
Lemma FromIterators_rep Q P its ls l :
  Forall2 (fun it li => rep it Q (Fresh li)) its ls -> its <> [] ->
  (length (concat ls) + length its < fuel)%nat -> (forall s b, Q s -> P (seen b s)) ->
  StronglySorted Z.lt l -> (forall t, t ∈ l <-> t ∈ concat ls) ->
  @rep _ _ chain_laws (ChainSampleIteratorFromIterators its) P (Fresh l).
Proof.
  intros Hr Hne Hf HP Hs Hl. pose proof (Forall2_length _ _ _ Hr) as Hlen.
  assert (Hreps : reps Q its (Fresh <$> ls)) by (unfold reps; by rewrite Forall2_fmap_r).
  assert (Hin : forall t, t ∈ concat ls <-> exists j lj, ls !! j = Some lj /\ t ∈ lj).
  { intros t. rewrite list_elem_of_In, in_concat. split.
    - intros (lj & Hlj & Ht). apply list_elem_of_In, list_elem_of_lookup_1 in Hlj as [j Hj].
      exists j, lj. split; [done|by apply list_elem_of_In].
    - intros (j & lj & Hj & Ht). exists lj. split; apply list_elem_of_In; [by eapply list_elem_of_lookup_2|done]. }
  assert (Hmin : forall j lj t, ls !! j = Some lj -> t ∈ lj -> MinInt64 < t).
  { intros j lj t Hj Ht. destruct (reps_ok Q its (Fresh <$> ls) j (Fresh lj)) as [_ Hm]; [done| |].
    - by rewrite list_lookup_fmap, Hj.
    - rewrite Forall_forall in Hm. by apply Hm. }
  exists Q, (Fresh <$> ls). split_and!; [done| |by destruct its, ls| |].
  - split; [done|]. apply Forall_forall. intros t Ht. apply Hl, Hin in Ht as (j & lj & Hj & Ht). by eapply Hmin.
  - rewrite length_fmap, <-Hlen. enough (left_to_read (Fresh <$> ls) = length (concat ls)) by lia.
    clear. induction ls as [|li ls IH]; [done|]. cbn. rewrite length_app. cbn in IH. lia.
  - split_and!; [done..| |].
    + apply Forall_forall. intros cu (li & -> & _)%list_elem_of_fmap. by exists li.
    + intros t. rewrite Hl, Hin. unfold remaining. split.
      * intros (j & lj & Hj & Ht). split; [by eapply Hmin|]. exists j, (Fresh lj). by rewrite list_lookup_fmap, Hj.
      * intros (_ & j & cu & Hj & Ht). rewrite list_lookup_fmap in Hj.
        destruct (ls !! j) as [lj|] eqn:Ej; [|done]. injection Hj as <-. by exists j, lj.
Qed.

(** A sample with its hint has followed the previous one in its own
    iterator. *)
Lemma consecutive_next c P s l v c' :
  chain_rep c P (On s l) -> chain_Next fuel c = Some (v, c') -> v <> ValNone -> consecutive c' = true ->
  exists k it it', curr c = Some k /\ curr c' = Some k /\ iterators c !! k = Some it /\
    Next it = Some (v, it') /\ iterators c' !! k = Some it'.
Proof.
  intros (Q & curs & HP & _ & _ & Hf & (k & h & s' & l' & Hinv & Hk & Es & -> & _)) E Hv Hc.
  unfold chain_Next in E. rewrite (ci_h _ _ _ _ _ Hinv) in E. cbn [mbind option_bind] in E.
  pose proof (ci_curr _ _ _ _ _ Hinv) as Ec. rewrite Ec in E.
  destruct (next_loop_spec Q fuel false c curs k h Hinv) as (v1 & c1 & curs1 & E1 & _ & _ & Hcase).
  { pose proof (heap_length _ _ (ci_heap _ _ _ _ _ Hinv)). lia. }
  rewrite E in E1. injection E1 as <- <-. destruct Hcase as [(-> & _)|(k1 & s1 & l1 & h1 & _ & Hinv1 & _ & _ & _ & _ & _ & Hcons)].
  - done.
  - destruct (Hcons Hc) as (_ & Ek & it & it' & Hit & Enext & Hit'). exists k1, it, it'.
    split_and!; [done|by apply (ci_curr _ _ _ _ _ Hinv1)|done..].
Qed.

End Represent.

End Laws.

(** ** Main theorems *)

(** C3: chainSampleIterator merges any iterators that keep the contract of
    chunkenc.Iterator: over inputs whose timestamps ascend and that meet no
    error, every sequence of Next and Seek calls (up to exhaustion) finds
    exactly the timestamps that the documented behaviour gives for the sorted
    union of the inputs' timestamps, each once; each sample is one of an
    input's, up to the counter reset hint of a histogram.  No call panics, and
    Next's loop ends within the number of samples plus the number of inputs. *)
Theorem chain_run {I} `{SampleIteratorLaws I} (its : list I) (ls : list (list Z)) (Q : sample -> Prop)
    (union : list Z) (ops : list call) (fuel : nat) :
  Forall2 (fun it l => rep it Q (Fresh l)) its ls -> its <> [] ->
  StronglySorted Z.lt union -> (forall t, t ∈ union <-> t ∈ concat ls) ->
  (length (concat ls) + length its < fuel)%nat ->
  exists tr ss,
    @run _ (chain_SampleIterator fuel) ops (ChainSampleIteratorFromIterators its) = Some tr /\
    Forall2 (@reports _ (chain_SampleIterator fuel) (fun s => exists s0 b, Q s0 /\ s = seen b s0)) ss tr /\
    s_t <$> ss = expected ops None union.
Proof.
  intros Hr Hne Hs Hu Hf.
  eapply (@run_expected _ (chain_SampleIterator fuel) (chain_laws fuel) ops _ _ (Fresh union)); [|done].
  eapply FromIterators_rep; [exact Hr|done|done| |done|done]. intros s b HQ. by exists s, b.
Qed.

Definition float_at (t v : Z) : sample := mk_sample 0 t v None None.

Lemma chain_run_witness :
  exists tr ss,
    @run _ (chain_SampleIterator 20) [CNext; CNext; CSeek 4; CNext; CNext]
      (ChainSampleIteratorFromIterators
         [NewListSeriesIterator [float_at 1 10; float_at 3 30; float_at 5 50];
          NewListSeriesIterator [float_at 1 10; float_at 2 20; float_at 5 50; float_at 6 60]]) = Some tr /\
    Forall2 (@reports _ (chain_SampleIterator 20)
      (fun s => exists s0 b, s0 ∈ [float_at 1 10; float_at 2 20; float_at 3 30; float_at 5 50; float_at 6 60]
                             /\ s = seen b s0)) ss tr /\
    s_t <$> ss = [1; 2; 5; 6].
Proof.
  apply (chain_run _ [[1; 3; 5]; [1; 2; 5; 6]] _ [1; 2; 3; 5; 6]).
  - repeat constructor; cbn; first [set_solver by lia|unfold MinInt64; lia].
  - done.
  - repeat constructor; lia.
  - intros t. cbn. set_solver.
  - cbn. lia.
Defined.

(** A histogram keeps the counter reset hint only when it directly follows
    the sample before it in the same input: when a call of Next sets
    [consecutive], the current iterator did not change and Next was called on it
    once. *)
Theorem chain_consecutive {I} `{SampleIteratorLaws I} fuel (c c' : chainSampleIterator I) P s l v :
  @rep _ _ (chain_laws fuel) c P (On s l) -> chain_Next fuel c = Some (v, c') -> v <> ValNone ->
  consecutive c' = true ->
  exists k it it', curr c = Some k /\ curr c' = Some k /\ iterators c !! k = Some it /\
    Next it = Some (v, it') /\ iterators c' !! k = Some it'.
Proof. apply consecutive_next. Qed.

Lemma chain_consecutive_witness :
  exists (c c' : chainSampleIterator listSeriesIterator) s l v,
    @rep _ _ (chain_laws 10) c (fun _ => True) (On s l) /\ chain_Next 10 c = Some (v, c') /\ v <> ValNone /\
    consecutive c' = true /\
    exists k it it', curr c = Some k /\ curr c' = Some k /\ iterators c !! k = Some it /\
      Next it = Some (v, it') /\ iterators c' !! k = Some it'.
Proof.
  assert (Hr : @rep _ _ (chain_laws 10) (ChainSampleIteratorFromIterators
      [NewListSeriesIterator [float_at 1 10; float_at 2 20]]) (fun _ => True) (Fresh [1; 2])).
  { apply (FromIterators_rep 10 (fun s => s ∈ [float_at 1 10; float_at 2 20]) _ _ [[1; 2]]); [|done|cbn; lia|done| |].
    - repeat constructor; cbn; first [set_solver by lia|unfold MinInt64; lia].
    - repeat constructor; lia.
    - intros t. cbn. set_solver. }
  pose proof (@rep_next _ _ (chain_laws 10) _ _ _ Hr) as (s & c & _ & E & Hon).
  vm_compute in E. injection E as _ Ec.
  match type of Ec with ?c1 = _ =>
    let r := eval vm_compute in (chain_Next 10 c1) in
    match r with Some (?v, ?c2) =>
      assert (Hnext : chain_Next 10 c1 = Some (v, c2)) by (vm_compute; reflexivity);
      exists c1, c2, s, [2], v
    end
  end.
  subst c. split_and!; [exact Hon|exact Hnext|done|done|].
  by apply (chain_consecutive 10 _ _ (fun _ => True) s [2]).
Defined.

(** Ascending samples that fit a chunk. *)
Definition chunkable (l : list (Z * Z)) : Prop :=
  Forall sample_ok l /\ Z.of_nat (length l) <= MaxUint16 /\
  StronglySorted Z.lt l.*1 /\ Forall (fun t => MinInt64 < t) l.*1.

Lemma append_chunks a0 lss :
  xapp a0 [] -> Forall chunkable lss ->
  exists chunks, Forall2 (fun l a => append_all l a0 = Some a /\ xapp a l) lss chunks.
Proof.
  intros Ha0. induction 1 as [|l lss (Hok & Hlen & _) _ [chunks IH]]; [by exists []|].
  destruct (xapp_append_all l a0 [] Ha0 Hok Hlen) as (a & E & Ha). exists (a :: chunks). by constructor.
Qed.

Lemma chunk_iterators_rep Q a0 lss chunks :
  Forall2 (fun l a => append_all l a0 = Some a /\ xapp a l) lss chunks -> Forall chunkable lss ->
  (forall x, x ∈ concat lss -> Q (float_sample x)) ->
  Forall2 (fun it l => rep it Q (Fresh l)) (map (fun a => XORChunk_iterator (xa_b a)) chunks) (map (fmap fst) lss).
Proof.
  induction 1 as [|l a lss chunks (_ & Ha) _ IH]; intros Hall HQ; cbn; constructor.
  - apply Forall_cons in Hall as [(_ & _ & Hs & Hm) _]. apply XORChunk_iterator_rep; [done..|].
    apply Forall_forall. intros x Hx. apply HQ. cbn. apply elem_of_app. by left.
  - apply Forall_cons in Hall as [_ Hall]. apply IH; [done|]. intros x Hx. apply HQ. cbn.
    apply elem_of_app. by right.
Qed.

(** Overlapping XOR chunks of one series read back as one: whatever
    ascending samples are appended to a number of chunks, chaining the chunks'
    iterators returns each timestamp of any of the chunks once, in order, with a
    value appended for it, then ends. *)
Theorem merge_chunks (lss : list (list (Z * Z))) (union : list Z) (n fuel : nat) :
  lss <> [] -> Forall chunkable lss ->
  StronglySorted Z.lt union -> (forall t, t ∈ union <-> t ∈ (concat lss).*1) ->
  (length union < n)%nat -> (length (concat lss) + length lss < fuel)%nat ->
  exists a0 chunks tr ss,
    XORChunk_Appender NewXORChunk = Some (Ok a0) /\
    Forall2 (fun l a => append_all l a0 = Some a) lss chunks /\
    @run _ (chain_SampleIterator fuel) (replicate n CNext)
      (ChainSampleIteratorFromIterators (map (fun a => XORChunk_iterator (xa_b a)) chunks)) = Some tr /\
    Forall2 (@reports _ (chain_SampleIterator fuel) (fun s => s ∈ float_sample <$> concat lss)) ss tr /\
    s_t <$> ss = union.
Proof.
  intros Hne Hall Hs Hu Hn Hf. destruct xapp_new as (a0 & E0 & Ha0).
  destruct (append_chunks a0 lss Ha0 Hall) as [chunks Hc].
  set (Q := fun s => s ∈ float_sample <$> concat lss).
  assert (Econcat : concat (map (fmap fst) lss) = (concat lss).*1) by (symmetry; apply concat_map).
  destruct (@run_expected _ (chain_SampleIterator fuel) (chain_laws fuel) (replicate n CNext)
    (ChainSampleIteratorFromIterators (map (fun a => XORChunk_iterator (xa_b a)) chunks)) Q (Fresh union))
    as (tr & ss & E & Hrep & Hss); [|done|].
  - apply (FromIterators_rep fuel Q Q _ (map (fmap fst) lss)).
    + eapply chunk_iterators_rep; [done..|]. intros x Hx. by apply list_elem_of_fmap_2.
    + by destruct Hc.
    + pose proof (Forall2_length _ _ _ Hc) as Hlen. rewrite Econcat, !length_fmap. lia.
    + intros s b Hq. unfold Q in *. apply list_elem_of_fmap in Hq as (x & -> & Hx).
      exact (list_elem_of_fmap_2 float_sample _ x Hx).
    + done.
    + intros t. by rewrite Econcat.
  - exists a0, chunks, tr, ss. split_and!; [done| |done|done|].
    + eapply Forall2_impl; [exact Hc|]. by intros l a [? _].
    + rewrite Hss, expected_next. apply take_ge. cbn. lia.
Qed.

Lemma merge_chunks_witness :
  exists a0 chunks tr ss,
    XORChunk_Appender NewXORChunk = Some (Ok a0) /\
    Forall2 (fun l a => append_all l a0 = Some a) [[(1, 7); (4, 8)]; [(2, 9); (4, 8)]] chunks /\
    @run _ (chain_SampleIterator 10) (replicate 5 CNext)
      (ChainSampleIteratorFromIterators (map (fun a => XORChunk_iterator (xa_b a)) chunks)) = Some tr /\
    Forall2 (@reports _ (chain_SampleIterator 10)
      (fun s => s ∈ float_sample <$> concat [[(1, 7); (4, 8)]; [(2, 9); (4, 8)]])) ss tr /\
    s_t <$> ss = [1; 2; 4].
Proof.
  apply merge_chunks.
  - done.
  - unfold chunkable, sample_ok, is_i64, is_u64, MaxUint16, MinInt64. cbn.
    repeat first [apply List.Forall_nil | apply List.Forall_cons | apply SSorted_nil | apply SSorted_cons | split];
      cbn; try lia; done.
  - repeat constructor; lia.
  - intros t. cbn. set_solver.
  - cbn. lia.
  - cbn. lia.
Defined.

(** A first sample at MinInt64 is taken for a duplicate of the sentinel: Next
    drops it, while Seek finds it. *)
Example first_sample_at_MinInt64 :
  let c := ChainSampleIteratorFromIterators [NewListSeriesIterator [float_at MinInt64 1; float_at 5 2]] in
  ('(_, c) ← chain_Next 9 c; at_curr At c) = Some (5, 2) /\
  ('(_, c) ← chain_Seek MinInt64 c; at_curr At c) = Some (MinInt64, 1).
Proof. by vm_compute. Qed.
