(* ===== verification/SeriesMerge.v ===== *)
(** Merging sorted series sets: genericMergeSeriesSet of storage/merge.go, over any
    sets that keep the contract of [SeriesSetLaws]. *)
From stdpp Require Import sorting.
From S2P Require Import Prelude Heap Labels.

(** ** Series sets *)

(** genericSeriesSet, without warnings: [T] is the set, [E] what At returns,
    which has labels.  At may panic ([None]). *)
Class SeriesSet (T E : Type) := {
  set_Next : T -> bool * T;
  set_At : T -> option E;
  set_Err : T -> list goerror;
  Lset : E -> Labels
}.

Section Merge.
Context {T E : Type} `{SeriesSet T E}.

(** The sets are a slice of pointers, some perhaps nil; the heap and
    [currentSets] share them by index. *)
Record genericMergeSeriesSet := mk_merge {
  currentLabels : Labels;
  m_heap : list nat;
  sets : list (option T);
  currentSets : list nat;
  seriesLimit : Z;
  mergedSeries : Z
}.

Definition set_sets (ts : list (option T)) (m : genericMergeSeriesSet) : genericMergeSeriesSet :=
  mk_merge (currentLabels m) (m_heap m) ts (currentSets m) (seriesLimit m) (mergedSeries m).
Definition set_mheap (h : list nat) (m : genericMergeSeriesSet) : genericMergeSeriesSet :=
  mk_merge (currentLabels m) h (sets m) (currentSets m) (seriesLimit m) (mergedSeries m).
Definition set_current (ls : Labels) (ks : list nat) (m : genericMergeSeriesSet) : genericMergeSeriesSet :=
  mk_merge ls (m_heap m) (sets m) ks (seriesLimit m) (mergedSeries m).
Definition set_merged (n : Z) (m : genericMergeSeriesSet) : genericMergeSeriesSet :=
  mk_merge (currentLabels m) (m_heap m) (sets m) (currentSets m) (seriesLimit m) n.

(** [h[i].At().Labels()]. *)
Definition at_set (ts : list (option T)) (k : nat) : option E := t ← ts !! k; t ← t; set_At t.
Definition labels_at (ts : list (option T)) (k : nat) : option Labels := e ← at_set ts k; Some (Lset e).

(** genericSeriesSetHeap.Less. *)
Definition labels_less (ts : list (option T)) (i j : nat) : option bool :=
  a ← labels_at ts i; b ← labels_at ts j; z ← Labels_Compare a b; Some (z <? 0).

Definition next_on (k : nat) (m : genericMergeSeriesSet) : option (bool * genericMergeSeriesSet) :=
  t ← sets m !! k; t ← t;
  let '(b, t') := set_Next t in Some (b, set_sets (<[k := Some t']> (sets m)) m).

Definition push_set (k : nat) (m : genericMergeSeriesSet) : option genericMergeSeriesSet :=
  h ← Push (labels_less (sets m)) k (m_heap m); Some (set_mheap h m).

(** [for _, set := range c.currentSets { if set.Next() { heap.Push(...) } }]. *)
Fixpoint advance (ks : list nat) (m : genericMergeSeriesSet) : option genericMergeSeriesSet :=
  match ks with
  | [] => Some m
  | k :: ks' =>
      '(b, m) ← next_on k m;
      m ← (if (b : bool) then push_set k m else Some m);
      advance ks' m
  end.

(** The range loop of newGenericMergeSeriesSet: nil sets are skipped, and a set
    that reports an error ends the construction with that error. *)
Fixpoint pre_advance (ks : list nat) (m : genericMergeSeriesSet) : option (list goerror * genericMergeSeriesSet) :=
  match ks with
  | [] => Some ([], m)
  | k :: ks' =>
      match sets m !! k with
      | Some (Some _) =>
          '(b, m) ← next_on k m;
          m ← (if (b : bool) then push_set k m else Some m);
          t ← sets m !! k; t ← t;
          match set_Err t with
          | [] => pre_advance ks' m
          | err => Some (err, m)
          end
      | _ => pre_advance ks' m
      end
  end.

Inductive merged :=
  | TheSet (t : option T)                 (* sets[0] *)
  | ErrorOnly (err : list goerror)        (* errorOnlySeriesSet *)
  | Merged (m : genericMergeSeriesSet).

Definition newGenericMergeSeriesSet (ts : list (option T)) (limit : Z) : option merged :=
  match ts with
  | [t] => Some (TheSet t)
  | _ =>
      '(err, m) ← pre_advance (seq 0 (length ts)) (mk_merge (mk_Labels []) [] ts [] limit 0);
      Some match err with [] => Merged m | _ => ErrorOnly err end
  end.

(** [for len(c.heap) > 0 && labels.Equal(c.currentLabels,
    c.heap[0].At().Labels()) { pop and append }]; every turn shortens the
    heap. *)
Fixpoint pop_equal (fuel : nat) (m : genericMergeSeriesSet) : option genericMergeSeriesSet :=
  match fuel, m_heap m with
  | _, [] => Some m
  | O, _ => None
  | S fuel', top :: _ =>
      ls ← labels_at (sets m) top;
      if Labels_Equal (currentLabels m) ls then
        '(k, h) ← Pop (labels_less (sets m)) (m_heap m);
        pop_equal fuel' (set_current (currentLabels m) (currentSets m ++ [k]) (set_mheap h m))
      else Some m
  end.

(** The loop of Next; every turn that goes on pops the heap. *)
Fixpoint merge_loop (fuel : nat) (m : genericMergeSeriesSet) : option (bool * genericMergeSeriesSet) :=
  match fuel with
  | O => None
  | S fuel' =>
      m ← advance (currentSets m) m;
      match m_heap m with
      | [] => Some (false, m)
      | top :: _ =>
          ls ← labels_at (sets m) top;
          m ← pop_equal (length (m_heap m)) (set_current ls [] m);
          match currentSets m with
          | [] => merge_loop fuel' m
          | _ => Some (true, set_merged (mergedSeries m + 1) m)
          end
      end
  end.

Definition merge_Next (m : genericMergeSeriesSet) : option (bool * genericMergeSeriesSet) :=
  if (0 <? seriesLimit m) && (seriesLimit m <=? mergedSeries m) then Some (false, m)
  else merge_loop (S (length (sets m))) m.

(** The series under the cursors of the current sets. *)
Definition current_series (m : genericMergeSeriesSet) : option (list E) :=
  mapM (at_set (sets m)) (currentSets m).

Definition merge_At (mergeFunc : list E -> E) (m : genericMergeSeriesSet) : option E :=
  match currentSets m with
  | [k] => at_set (sets m) k
  | _ => es ← current_series m; Some (mergeFunc es)
  end.

(** A nil set panics here. *)
Definition merge_Err (m : genericMergeSeriesSet) : option (list goerror) :=
  foldr (fun t rest => t ← t; match set_Err t with [] => rest | err => Some err end) (Some []) (sets m).

(** [for set.Next() { ... set.At() ... }]. *)
Fixpoint merge_drain (mergeFunc : list E -> E) (fuel : nat) (m : genericMergeSeriesSet) :
    option (list E * genericMergeSeriesSet) :=
  match fuel with
  | O => None
  | S fuel' =>
      '(b, m) ← merge_Next m;
      if negb b then Some ([], m)
      else e ← merge_At mergeFunc m; '(es, m) ← merge_drain mergeFunc fuel' m; Some (e :: es, m)
  end.

End Merge.
Arguments genericMergeSeriesSet T : clear implicits.
Arguments merged T : clear implicits.

(** ** Labels in order *)

Definition labels_lt (a b : list Label) : Prop := seq_compare (fields a) (fields b) = Lt.
Definition labels_ltb (a b : list Label) : bool := match seq_compare (fields a) (fields b) with Lt => true | _ => false end.

Lemma labels_ltb_lt a b : labels_ltb a b = true <-> labels_lt a b.
Proof. unfold labels_ltb, labels_lt. by destruct (seq_compare _ _). Qed.

#[export] Instance labels_lt_trans : Transitive labels_lt.
Proof. intros a b c. apply seq_compare_trans. Qed.

Lemma labels_lt_irrefl a : ~ labels_lt a a.
Proof. unfold labels_lt. rewrite (proj2 (seq_compare_eq _ _)); done. Qed.

(** Not less, not more: the same fields. *)
Lemma labels_ltb_false a b : labels_ltb a b = false <-> fields a = fields b \/ labels_lt b a.
Proof.
  unfold labels_ltb, labels_lt. rewrite (seq_compare_antisym (fields a) (fields b)).
  destruct (seq_compare (fields a) (fields b)) eqn:Eq; cbn.
  - apply seq_compare_eq in Eq. tauto.
  - split; [done|]. intros [E|?]; [|done]. by rewrite (proj2 (seq_compare_eq _ _) E) in Eq.
  - tauto.
Qed.

#[export] Instance labels_ltb_order {K} (f : K -> list Label) : StrictOrderb (fun i j => labels_ltb (f i) (f j)).
Proof.
  split.
  - intros a b Hab. apply labels_ltb_lt in Hab. apply labels_ltb_false. by right.
  - intros a b c. rewrite !labels_ltb_false. intros [E1|H1] [E2|H2].
    + left. congruence.
    + right. unfold labels_lt in *. by rewrite <-E1.
    + right. unfold labels_lt in *. by rewrite E2.
    + right. by etrans.
Qed.

Section Laws.
Context {T E : Type} `{SeriesSet T E}.

(** The contract of a series set that meets no error: [set_rep t c es] says that
    it is on [c] and has the elements [es] to come. *)
Class SeriesSetLaws := {
  set_rep : T -> option E -> list E -> Prop;
  set_rep_at t e es : set_rep t (Some e) es -> set_At t = Some e;
  set_rep_err t c es : set_rep t c es -> set_Err t = [];
  set_rep_end t c : set_rep t c [] -> exists t', set_Next t = (false, t') /\ exists c', set_rep t' c' [];
  set_rep_next t c e es : set_rep t c (e :: es) -> exists t', set_Next t = (true, t') /\ set_rep t' (Some e) es
}.

End Laws.
Arguments SeriesSetLaws T E {_}.

Lemma Labels_Equal_enc a b :
  Forall short_label a -> Forall short_label b -> Labels_Equal (of_list a) (of_list b) = true <-> a = b.
Proof.
  intros Ha Hb. unfold Labels_Equal. rewrite str_eqb_eq. split; [|by intros ->].
  intros Eq. apply of_list_inj; [done..|]. unfold of_list in *. cbn in Eq. by rewrite Eq.
Qed.

Lemma fields_inj a b : fields a = fields b -> a = b.
Proof.
  revert b. induction a as [|[n v] a IH]; intros [|[n' v'] b]; cbn; try done.
  intros [= -> -> Hf]. f_equal. by apply IH.
Qed.

(** ** Merging *)

Section Proofs.
Context {T E : Type} `{!SeriesSet T E, !SeriesSetLaws T E} (lab : E -> list Label).
Implicit Types (ts : list (option T)) (h ks : list nat) (pend : list (list E)) (m : genericMergeSeriesSet T).

(** The element's labels are [lab e], encoded. *)
Definition labelled (e : E) : Prop := Lset e = of_list (lab e) /\ Forall short_label (lab e).

Definition elem_lt (a b : E) : Prop := labels_lt (lab a) (lab b).

(** What a set that is on a sample, to be advanced, or neither still has to
    give. *)
Definition set_pending ts h ks (j : nat) (p : list E) : Prop :=
  StronglySorted elem_lt p /\ Forall labelled p /\
  (j ∈ h -> exists t e es, ts !! j = Some (Some t) /\ set_rep t (Some e) es /\ p = e :: es) /\
  (j ∈ ks -> j ∉ h /\ exists t c, ts !! j = Some (Some t) /\ set_rep t c p) /\
  (j ∉ h -> j ∉ ks -> p = []).

(** The labels under the cursor [j], for the heap's order. *)
Definition head_labels pend (j : nat) : list Label :=
  match pend !! j with Some (e :: _) => lab e | _ => [] end.
Definition head_lt pend (i j : nat) : bool := labels_ltb (head_labels pend i) (head_labels pend j).

#[local] Instance head_lt_order pend : StrictOrderb (head_lt pend) := labels_ltb_order (head_labels pend).

(** The sets [ks] are to be advanced; [pend] are the elements each set still has
    to give, counting the one under the cursor for those on the heap [h]. *)
Record state_ok ts h ks pend : Prop := {
  so_length : length pend = length ts;
  so_heap_nodup : NoDup h;
  so_ks_nodup : NoDup ks;
  so_heap_in : Forall (fun j => j < length ts)%nat h;
  so_ks_in : Forall (fun j => j < length ts)%nat ks;
  so_pending : forall j p, pend !! j = Some p -> set_pending ts h ks j p;
  so_heap : heap_ok (head_lt pend) h
}.

Lemma so_on ts h ks pend j :
  state_ok ts h ks pend -> j ∈ h ->
  exists t e es, ts !! j = Some (Some t) /\ set_rep t (Some e) es /\ pend !! j = Some (e :: es) /\ labelled e /\
    labels_at ts j = Some (of_list (lab e)).
Proof.
  intros [Hl _ _ Hin _ Hp _] Hj. rewrite Forall_forall in Hin. specialize (Hin j Hj).
  destruct (lookup_lt_is_Some_2 pend j) as [p Ep]; [lia|].
  destruct (Hp j p Ep) as (_ & Hlab & Hon & _). destruct (Hon Hj) as (t & e & es & Ht & Hr & ->).
  apply Forall_cons in Hlab as [Hlab _]. exists t, e, es. split_and!; [done..|].
  unfold labels_at, at_set. rewrite Ht. cbn. rewrite (set_rep_at _ _ _ Hr). cbn. by destruct Hlab as [-> _].
Qed.

Lemma labels_less_computes ts h ks pend :
  state_ok ts h ks pend -> computes (labels_less ts) (head_lt pend) h.
Proof.
  intros Hok x y Hx Hy.
  destruct (so_on _ _ _ _ x Hok Hx) as (tx & ex & esx & _ & _ & Epx & [_ Hsx] & Elx).
  destruct (so_on _ _ _ _ y Hok Hy) as (ty & ey & esy & _ & _ & Epy & [_ Hsy] & Ely).
  unfold labels_less. rewrite Elx, Ely. cbn.
  destruct (Labels_Compare_enc (lab ex) (lab ey) Hsx Hsy) as (z & -> & Hz). cbn.
  unfold head_lt, labels_ltb, head_labels. rewrite Epx, Epy, <-Hz. by destruct z.
Qed.

Lemma state_ok_update ts h k ks pend t p :
  state_ok ts h (k :: ks) pend -> pend !! k = Some p ->
  (p = [] \/ exists e es, p = e :: es /\ set_rep t (Some e) es) ->
  forall h', (h' ≡ₚ if p is [] then h else k :: h) -> heap_ok (head_lt pend) h' ->
  state_ok (<[k := Some t]> ts) h' ks pend.
Proof.
  intros [Hl Hnd Hndk Hin Hink Hp _] Ek Hcase h' Hh' Hheap.
  apply NoDup_cons in Hndk as [Hk Hndk]. apply Forall_cons in Hink as [Hkl Hink].
  destruct (Hp k p Ek) as (_ & _ & _ & Hks & _). destruct (Hks ltac:(left)) as [Hkh _].
  assert (Hin' : forall j, j ∈ h' <-> j ∈ h \/ (j = k /\ p <> [])).
  { intros j. rewrite Hh'. destruct p; [naive_solver|]. rewrite elem_of_cons. naive_solver. }
  split.
  - by rewrite length_insert.
  - rewrite Hh'. destruct p; [done|by constructor].
  - done.
  - rewrite length_insert, Hh'. destruct p; [done|by constructor].
  - by rewrite length_insert.
  - intros j pj Ej. destruct (Hp j pj Ej) as (Hs & Hlab & Hon & Htodo & Hnone). split_and!; [done..| | |].
    + intros Hj. destruct (decide (j = k)) as [->|Hjk].
      * rewrite Ek in Ej. injection Ej as <-. rewrite list_lookup_insert_eq by lia.
        destruct Hcase as [->|(e & es & -> & Hr)]; [|by exists t, e, es].
        apply Hin' in Hj as [?|[_ ?]]; done.
      * rewrite list_lookup_insert_ne by done. apply Hon. apply Hin' in Hj as [?|[? _]]; done.
    + intros Hj. assert (j <> k) by set_solver. rewrite list_lookup_insert_ne by done.
      destruct (Htodo ltac:(by right)) as [? ?]. split; [|done]. rewrite Hin'. tauto.
    + intros Hjh Hjk. rewrite Hin' in Hjh. destruct (decide (j = k)) as [->|Hne].
      * rewrite Ek in Ej. injection Ej as <-. destruct p; [done|]. exfalso. apply Hjh. right. done.
      * apply Hnone; [tauto|set_solver].
  - done.
Qed.

(** Pushing a set that its Next left on an element. *)
Lemma push_ok m k ks pend e es t :
  state_ok (sets m) (m_heap m) (k :: ks) pend -> pend !! k = Some (e :: es) -> set_rep t (Some e) es ->
  exists h', push_set k (set_sets (<[k := Some t]> (sets m)) m)
      = Some (set_mheap h' (set_sets (<[k := Some t]> (sets m)) m)) /\
    state_ok (<[k := Some t]> (sets m)) h' ks pend.
Proof.
  intros Hok Ek Hr. unfold push_set. cbn [sets m_heap set_sets].
  pose proof Hok as [Hl Hnd Hndk Hin Hink Hp Hheap]. apply Forall_cons in Hink as [Hkl Hink].
  destruct (Hp k _ Ek) as (_ & Hlabk & _ & Hks & _). destruct (Hks ltac:(left)) as [Hkh _].
  assert (Hok2 : forall h', h' ≡ₚ k :: m_heap m -> heap_ok (head_lt pend) h' ->
    state_ok (<[k := Some t]> (sets m)) h' ks pend).
  { intros h' Hp' Hh'. eapply state_ok_update; [exact Hok|exact Ek| |exact Hp'|done]. right. by exists e, es. }
  destruct (Push_spec (labels_less (<[k := Some t]> (sets m))) (head_lt pend) k (m_heap m)) as (h' & -> & Hp' & Hh').
  - intros x y Hx Hy.
    assert (Hat : forall j, j ∈ k :: m_heap m ->
      exists ej esj, pend !! j = Some (ej :: esj) /\ Forall short_label (lab ej) /\
        labels_at (<[k := Some t]> (sets m)) j = Some (of_list (lab ej))).
    { intros j Hj. destruct (decide (j = k)) as [->|Hjk].
      - apply Forall_cons in Hlabk as [[El Hsh] _]. exists e, es. split_and!; [done..|].
        unfold labels_at, at_set. rewrite list_lookup_insert_eq by done. cbn.
        rewrite (set_rep_at _ _ _ Hr). cbn. by rewrite El.
      - apply elem_of_cons in Hj as [?|Hj]; [done|].
        destruct (so_on _ _ _ _ j Hok Hj) as (tj & ej & esj & _ & _ & Ep & [_ Hsh] & El).
        exists ej, esj. split_and!; [done..|]. unfold labels_at, at_set in *.
        by rewrite list_lookup_insert_ne. }
    destruct (Hat x Hx) as (ex & esx & Epx & Hsx & Elx). destruct (Hat y Hy) as (ey & esy & Epy & Hsy & Ely).
    unfold labels_less. rewrite Elx, Ely. cbn.
    destruct (Labels_Compare_enc (lab ex) (lab ey) Hsx Hsy) as (z & -> & Hz). cbn.
    unfold head_lt, labels_ltb, head_labels. rewrite Epx, Epy, <-Hz. by destruct z.
  - done.
  - cbn. exists h'. split; [done|]. by apply Hok2.
Qed.

(** One advance, as both range loops make it. *)
Lemma advance_one m k ks pend :
  state_ok (sets m) (m_heap m) (k :: ks) pend ->
  exists b t m1 h',
    next_on k m = Some (b, set_sets (<[k := Some t]> (sets m)) m) /\ set_Err t = [] /\
    (if b then push_set k (set_sets (<[k := Some t]> (sets m)) m)
     else Some (set_sets (<[k := Some t]> (sets m)) m)) = Some m1 /\
    m1 = set_mheap h' (set_sets (<[k := Some t]> (sets m)) m) /\
    state_ok (<[k := Some t]> (sets m)) h' ks pend.
Proof.
  intros Hok. pose proof Hok as [Hl _ _ _ Hink Hp Hheap]. apply Forall_cons in Hink as [Hkl Hink].
  destruct (lookup_lt_is_Some_2 pend k) as [p Ek]; [lia|].
  destruct (Hp k _ Ek) as (_ & _ & _ & Hks & _). destruct (Hks ltac:(left)) as (_ & t & c & Ht & Hr).
  unfold next_on. rewrite Ht. cbn. destruct p as [|e es].
  - destruct (set_rep_end _ _ Hr) as (t' & -> & c' & Hr'). exists false, t', (set_sets (<[k := Some t']> (sets m)) m), (m_heap m).
    split_and!; [done|by eapply set_rep_err|done|by destruct m|].
    by apply (state_ok_update _ _ _ _ _ t' [] Hok Ek); [left|..].
  - destruct (set_rep_next _ _ _ _ Hr) as (t' & -> & Hr').
    destruct (push_ok m k ks pend e es t' Hok Ek Hr') as (h' & Epush & Hok').
    eexists true, t', _, h'. split_and!; [done|by eapply set_rep_err|done|done|done].
Qed.

Lemma advance_spec ks m pend :
  state_ok (sets m) (m_heap m) ks pend ->
  exists ts' h', advance ks m = Some (set_mheap h' (set_sets ts' m)) /\ state_ok ts' h' [] pend.
Proof.
  revert m. induction ks as [|k ks IH]; intros m Hok; [exists (sets m), (m_heap m); by destruct m|].
  destruct (advance_one m k ks pend Hok) as (b & t & m1 & h' & En & _ & Ep & -> & Hok').
  cbn [advance]. rewrite En. cbn [mbind option_bind]. rewrite Ep. cbn [mbind option_bind].
  destruct (IH (set_mheap h' (set_sets (<[k := Some t]> (sets m)) m)) Hok') as (ts'' & h'' & -> & Hok''). by exists ts'', h''.
Qed.

Lemma pre_advance_spec ks m pend :
  state_ok (sets m) (m_heap m) ks pend ->
  exists ts' h', pre_advance ks m = Some ([], set_mheap h' (set_sets ts' m)) /\ state_ok ts' h' [] pend.
Proof.
  revert m. induction ks as [|k ks IH]; intros m Hok; [exists (sets m), (m_heap m); by destruct m|].
  destruct (advance_one m k ks pend Hok) as (b & t & m1 & h' & En & Herr & Ep & -> & Hok').
  pose proof Hok as [Hl _ _ _ Hink Hp _]. apply Forall_cons in Hink as [Hkl _].
  destruct (lookup_lt_is_Some_2 pend k) as [p Ek]; [lia|].
  destruct (Hp k _ Ek) as (_ & _ & _ & Hks & _). destruct (Hks ltac:(left)) as (_ & t0 & c & Ht & _).
  cbn [pre_advance]. rewrite Ht, En. cbn [mbind option_bind]. rewrite Ep. cbn [mbind option_bind].
  cbn [sets set_mheap set_sets]. rewrite list_lookup_insert_eq by done. cbn [mbind option_bind]. rewrite Herr.
  destruct (IH (set_mheap h' (set_sets (<[k := Some t]> (sets m)) m)) Hok') as (ts'' & h'' & -> & Hok'').
  by exists ts'', h''.
Qed.

(** Taking the element under the cursor [k] off what the sets still have to
    give. *)
Lemma pop_state ts h h' k ks pend e es :
  state_ok ts (k :: h) ks pend -> pend !! k = Some (e :: es) -> h' ≡ₚ h -> heap_ok (head_lt pend) h' ->
  state_ok ts h' (ks ++ [k]) (<[k := es]> pend).
Proof.
  intros [Hl Hnd Hndk Hin Hink Hp _] Ek Hh' Hheap.
  apply NoDup_cons in Hnd as [Hkh Hnd]. apply Forall_cons in Hin as [Hkl Hin].
  assert (Hkks : k ∉ ks).
  { intros Hk. destruct (Hp k _ Ek) as (_ & _ & _ & Hks & _). destruct (Hks Hk) as [Hno _].
    apply Hno. by left. }
  split.
  - by rewrite length_insert.
  - by rewrite Hh'.
  - apply NoDup_app. split_and!; [done| |apply NoDup_singleton]. intros j Hj ?%list_elem_of_singleton. by subst.
  - by rewrite Hh'.
  - apply Forall_app. split; [done|by constructor].
  - intros j p Ej. destruct (decide (j = k)) as [->|Hjk].
    + rewrite list_lookup_insert_eq in Ej by lia. injection Ej as <-.
      destruct (Hp k _ Ek) as (Hs & Hlab & Hon & _). apply StronglySorted_inv in Hs as [Hs _].
      apply Forall_cons in Hlab as [_ Hlab]. destruct (Hon ltac:(by left)) as (t & e' & es' & Ht & Hr & [= <- <-]).
      split_and!; [done|done| | |].
      * rewrite Hh'. done.
      * intros _. split; [by rewrite Hh'|]. by exists t, (Some e).
      * intros _ Hno. set_solver.
    + rewrite list_lookup_insert_ne in Ej by done. destruct (Hp j p Ej) as (Hs & Hlab & Hon & Htodo & Hnone).
      split_and!; [done|done| | |].
      * rewrite Hh'. intros Hj. apply Hon. by right.
      * intros Hj. rewrite Hh'. apply elem_of_app in Hj as [Hj|?%list_elem_of_singleton]; [|done].
        destruct (Htodo Hj) as [Hno ?]. split; [|done]. set_solver.
      * rewrite Hh'. intros H1 H2. apply Hnone; set_solver.
  - eapply heap_ok_ext; [|exact Hheap]. intros x y Hx Hy. rewrite Hh' in Hx, Hy. unfold head_lt, head_labels.
    rewrite !list_lookup_insert_ne; [done|set_solver..].
Qed.

Lemma concat_insert pend k e es :
  pend !! k = Some (e :: es) -> concat pend ≡ₚ e :: concat (<[k := es]> pend).
Proof.
  revert k. induction pend as [|p pend IH]; intros [|k] Ek; try done.
  - injection Ek as ->. done.
  - change (<[S k := es]> (p :: pend)) with (p :: <[k := es]> pend). cbn.
    rewrite (IH k Ek). by rewrite Permutation_middle.
Qed.

(** The sets [ks] are on the elements [g]. *)
Definition on_elements ts ks (g : list E) : Prop :=
  Forall2 (fun k e => exists t es, ts !! k = Some (Some t) /\ set_rep t (Some e) es) ks g.

(** Nothing with labels up to [L] is left for the sets already taken. *)
Definition taken pend ks (L : list Label) : Prop :=
  forall j p, j ∈ ks -> pend !! j = Some p -> Forall (fun x => labels_lt L (lab x)) p.

Lemma pop_equal_spec fuel L m pend g :
  state_ok (sets m) (m_heap m) (currentSets m) pend -> on_elements (sets m) (currentSets m) g ->
  currentLabels m = of_list L -> Forall short_label L -> (length (m_heap m) <= fuel)%nat ->
  (forall j, j ∈ m_heap m -> labels_ltb (head_labels pend j) L = false) ->
  taken pend (currentSets m) L ->
  exists h' ks' pend' g',
    pop_equal fuel m = Some (set_current (of_list L) ks' (set_mheap h' m)) /\
    state_ok (sets m) h' ks' pend' /\ on_elements (sets m) ks' (g ++ g') /\
    Forall (fun e => lab e = L) g' /\ concat pend ≡ₚ g' ++ concat pend' /\
    taken pend' ks' L /\ (forall j, j ∈ h' -> labels_lt L (head_labels pend' j)) /\
    (if m_heap m is k :: _ then head_labels pend k = L -> g' <> [] else True).
Proof.
  revert m pend g. induction fuel as [|fuel IH]; intros m pend g Hok Hon EL HL Hf Hge Htk.
  { destruct (m_heap m) as [|k h] eqn:Eh; [|cbn in Hf; lia].
    exists [], (currentSets m), pend, []. rewrite !app_nil_r. cbn. rewrite Eh.
    split_and!; [by destruct m; cbn in *; subst|done|done|constructor|done|done|set_solver|done]. }
  cbn [pop_equal]. destruct (m_heap m) as [|k h] eqn:Eh.
  { exists [], (currentSets m), pend, []. rewrite !app_nil_r.
    split_and!; [by destruct m; cbn in *; subst|done|done|constructor|done|done|set_solver|done]. }
  destruct (so_on _ _ _ _ k Hok) as (t & e & es & Ht & Hr & Ek & [El Hsh] & Elab); [by left|].
  rewrite Elab. cbn [mbind option_bind]. rewrite EL.
  assert (Ehead : head_labels pend k = lab e) by (unfold head_labels; by rewrite Ek).
  pose proof (Pop_spec (labels_less (sets m)) (head_lt pend) k h) as (h1 & Epop & Hp1 & Hheap1 & Hmin).
  { by eapply labels_less_computes. }
  { by apply (so_heap _ _ _ _ Hok). }
  destruct (Labels_Equal (of_list L) (of_list (lab e))) eqn:Eeq.
  - apply Labels_Equal_enc in Eeq; [|done..].
    rewrite Epop. cbn [mbind option_bind].
    pose proof (pop_state _ _ _ _ _ _ _ _ Hok Ek Hp1 Hheap1) as Hok1.
    assert (Hkh : k ∉ h) by (pose proof (so_heap_nodup _ _ _ _ Hok) as Hnd; by apply NoDup_cons in Hnd as [? _]).
    destruct (IH (set_current (of_list L) (currentSets m ++ [k]) (set_mheap h1 m)) (<[k := es]> pend) (g ++ [e]))
      as (h' & ks' & pend' & g' & -> & Hok' & Hon' & Hg' & Hperm & Htk' & Hgt' & _); cbn.
    + done.
    + apply Forall2_app; [done|]. constructor; [by exists t, es|constructor].
    + done.
    + done.
    + rewrite (Permutation_length Hp1). cbn in Hf. lia.
    + intros j Hj. rewrite Hp1 in Hj. unfold head_labels. rewrite list_lookup_insert_ne by set_solver.
      apply Hge. by right.
    + intros j p Hj Ej. destruct (decide (j = k)) as [->|Hjk].
      * rewrite list_lookup_insert_eq in Ej by (by eapply lookup_lt_Some). injection Ej as <-.
        destruct (so_pending _ _ _ _ Hok k _ Ek) as (Hs & _). apply StronglySorted_inv in Hs as [_ Hs].
        rewrite Eeq. done.
      * rewrite list_lookup_insert_ne in Ej by done. apply (Htk j p); [|done].
        apply elem_of_app in Hj as [?|?%list_elem_of_singleton]; done.
    + exists h', ks', pend', (e :: g'). rewrite <-app_assoc in Hon'. split_and!; [done|done|done| | |done|done|done].
      * by constructor.
      * rewrite (concat_insert _ _ _ _ Ek), Hperm. done.
  - exists (k :: h), (currentSets m), pend, []. rewrite !app_nil_r.
    split_and!; [by destruct m; cbn in *; subst|done|done|constructor|done|done| |].
    + assert (Hlt : labels_lt L (lab e)).
      { specialize (Hge k ltac:(by left)). rewrite Ehead in Hge. apply labels_ltb_false in Hge as [Ef|?]; [|done].
        apply fields_inj in Ef. rewrite Ef in Eeq. by rewrite (proj2 (Labels_Equal_enc L L HL HL) eq_refl) in Eeq. }
      intros j Hj. apply elem_of_cons in Hj as [->|Hj]; [by rewrite Ehead|]. specialize (Hmin j Hj).
      unfold le, head_lt in Hmin. rewrite Ehead in Hmin. apply labels_ltb_false in Hmin as [Ef|Hl].
      * apply fields_inj in Ef. by rewrite Ef.
      * by etrans.
    + rewrite Ehead. intros Heq. exfalso. rewrite Heq in Eeq.
      by rewrite (proj2 (Labels_Equal_enc L L HL HL) eq_refl) in Eeq.
Qed.

Definition merge_ok m pend : Prop := state_ok (sets m) (m_heap m) (currentSets m) pend.

Lemma ready_empty ts pend : state_ok ts [] [] pend -> concat pend = [].
Proof.
  intros [_ _ _ _ _ Hp _]. assert (Hall : forall p, p ∈ pend -> p = []).
  { intros p Hin. apply list_elem_of_lookup_1 in Hin as [j Hj]. destruct (Hp j p Hj) as (_ & _ & _ & _ & Hnone).
    apply Hnone; apply not_elem_of_nil. }
  clear Hp. induction pend as [|p pend IH]; [done|]. cbn. rewrite (Hall p) by by left.
  apply IH. intros q Hq. apply Hall. by right.
Qed.

(** After the group with labels [L] is taken, all that is left comes later. *)
Lemma left_later ts h ks pend L x :
  state_ok ts h ks pend -> taken pend ks L -> (forall j, j ∈ h -> labels_lt L (head_labels pend j)) ->
  x ∈ concat pend -> labels_lt L (lab x) /\ labelled x.
Proof.
  intros Hok Htk Hgt Hx. apply list_elem_of_In, in_concat in Hx as (p & Hpin & Hx).
  apply list_elem_of_In in Hpin, Hx. apply list_elem_of_lookup_1 in Hpin as [j Hj].
  destruct (so_pending _ _ _ _ Hok j p Hj) as (Hs & Hlab & Hon & Htodo & Hnone).
  rewrite Forall_forall in Hlab. split; [|by apply Hlab].
  destruct (decide (j ∈ h)) as [Hjh|Hjh].
  - specialize (Hgt j Hjh). destruct (Hon Hjh) as (t & e & es & _ & _ & ->).
    unfold head_labels in Hgt. rewrite Hj in Hgt. apply elem_of_cons in Hx as [->|Hx]; [done|].
    apply StronglySorted_inv in Hs as [_ Hs]. rewrite Forall_forall in Hs. etrans; [exact Hgt|by apply Hs].
  - destruct (decide (j ∈ ks)) as [Hjk|Hjk].
    + specialize (Htk j p Hjk Hj). rewrite Forall_forall in Htk. by apply Htk.
    + rewrite (Hnone Hjh Hjk) in Hx. by apply elem_of_nil in Hx.
Qed.

(** Next takes the group of elements with the least labels. *)
Lemma merge_loop_spec fuel m pend :
  merge_ok m pend -> (0 < fuel)%nat ->
  exists b m', merge_loop fuel m = Some (b, m') /\ seriesLimit m' = seriesLimit m /\
    length (sets m') = length (sets m) /\
    if b then
      exists L g pend', mergedSeries m' = mergedSeries m + 1 /\ merge_ok m' pend' /\
        on_elements (sets m') (currentSets m') g /\ g <> [] /\ Forall (fun e => lab e = L) g /\
        concat pend ≡ₚ g ++ concat pend' /\ Forall (fun x => labels_lt L (lab x)) (concat pend')
    else concat pend = [].
Proof.
  intros Hok Hf. destruct fuel as [|fuel]; [lia|]. cbn [merge_loop].
  destruct (advance_spec _ _ _ Hok) as (ts & h & Eadv & Hok1). rewrite Eadv. cbn [mbind option_bind m_heap set_mheap].
  assert (Hlen : length ts = length (sets m)).
  { pose proof (so_length _ _ _ _ Hok). pose proof (so_length _ _ _ _ Hok1). lia. }
  destruct h as [|k h].
  { eexists false, _. split_and!; [done|done|done|]. by eapply ready_empty. }
  destruct (so_on _ _ _ _ k Hok1) as (t & e & es & Ht & Hr & Ek & [El Hsh] & Elab); [by left|].
  cbn [sets set_mheap set_sets]. rewrite Elab. cbn [mbind option_bind].
  set (m1 := set_current (of_list (lab e)) [] (set_mheap (k :: h) (set_sets ts m))).
  assert (Ehead : head_labels pend k = lab e) by (unfold head_labels; by rewrite Ek).
  destruct (pop_equal_spec (length (m_heap m1)) (lab e) m1 pend []) as
    (h' & ks' & pend' & g & Epop & Hok' & Hon' & Hg & Hperm & Htk & Hgt & Hne).
  - done.
  - constructor.
  - done.
  - done.
  - done.
  - intros j Hj. cbn in Hj. rewrite <-Ehead.
    pose proof (heap_root (head_lt pend) (k :: h) k (so_heap _ _ _ _ Hok1) eq_refl j Hj) as Hle. exact Hle.
  - intros j p Hj. by apply elem_of_nil in Hj.
  - cbn [m_heap set_mheap m1 set_current] in Epop, Hne. cbn [length m_heap set_mheap]. cbn [length] in Epop.
    change (set_current (of_list (lab e)) [] (set_mheap (k :: h) (set_sets ts m))) with m1.
    rewrite Epop. cbn [mbind option_bind]. specialize (Hne Ehead).
    assert (ks' <> []) as Hks'.
    { intros ->. apply Forall2_nil_inv_l in Hon'. by destruct g. }
    destruct ks' as [|k' ks']; [done|]. cbn [currentSets set_current].
    eexists true, _. split_and!; [done|done|done|]. exists (lab e), g, pend'.
    split_and!; [done|done|done|done|done|done|].
    apply Forall_forall. intros x Hx. by eapply left_later.
Qed.

(** The elements in groups of equal labels, in ascending order of the labels. *)
Definition groups_of (es : list E) (gs : list (list Label * list E)) : Prop :=
  concat gs.*2 ≡ₚ es /\ StronglySorted labels_lt gs.*1 /\
  Forall (fun Lg => Lg.2 <> [] /\ Forall (fun e => lab e = Lg.1) Lg.2) gs.

Lemma groups_cons L g es gs :
  g <> [] -> Forall (fun e => lab e = L) g -> Forall (fun x => labels_lt L (lab x)) es -> groups_of es gs ->
  groups_of (g ++ es) ((L, g) :: gs).
Proof.
  intros Hne Hg Hlt (Hp & Hs & Hall). split_and!; cbn.
  - by rewrite Hp.
  - constructor; [done|]. apply Forall_forall. intros L' (Lg & -> & Hin)%list_elem_of_fmap.
    rewrite Forall_forall in Hall. rewrite Forall_forall in Hlt. destruct (Hall Lg Hin) as [Hne' Hg'].
    destruct Lg as [L' [|x g']]; [done|]. cbn in *. apply Forall_cons in Hg' as [<- _]. apply Hlt.
    rewrite <-Hp. apply list_elem_of_In, in_concat. exists (x :: g').
    split; apply list_elem_of_In; [|by left]. apply list_elem_of_fmap. by exists (lab x, x :: g').
  - by constructor.
Qed.

Lemma groups_of_perm es es' gs : es ≡ₚ es' -> groups_of es gs -> groups_of es' gs.
Proof. intros Hp (? & ? & ?). split_and!; [by rewrite <-Hp|done..]. Qed.

Lemma groups_exist m pend : merge_ok m pend -> exists gs, groups_of (concat pend) gs.
Proof.
  remember (length (concat pend)) as n eqn:Hn. revert m pend Hn.
  induction n as [n IH] using lt_wf_ind. intros m pend -> Hok.
  destruct (merge_loop_spec 1 m pend Hok ltac:(lia)) as (b & m' & _ & _ & _ & Hb). destruct b.
  - destruct Hb as (L & g & pend' & _ & Hok' & _ & Hne & Hg & Hp & Hlt).
    destruct (IH (length (concat pend'))) with (m := m') (pend := pend') as [gs Hgs]; [|done|done|].
    + rewrite Hp, length_app. destruct g; [done|]. cbn. lia.
    + exists ((L, g) :: gs). eapply groups_of_perm; [symmetry; exact Hp|]. by apply groups_cons.
  - exists []. rewrite Hb. split_and!; constructor.
Qed.

(** What At returns for a group. *)
Definition present (f : list E -> E) (g : list E) : E := match g with [e] => e | _ => f g end.

Lemma merge_At_present f m g :
  on_elements (sets m) (currentSets m) g -> merge_At f m = Some (present f g).
Proof.
  intros Hon. unfold merge_At, current_series.
  assert (Hone : forall k e, (exists t es, sets m !! k = Some (Some t) /\ set_rep t (Some e) es) ->
    at_set (sets m) k = Some e).
  { intros k e (t & es & Ht & Hr). unfold at_set. rewrite Ht. cbn. by apply (set_rep_at _ _ _ Hr). }
  assert (Hall : mapM (at_set (sets m)) (currentSets m) = Some g).
  { apply mapM_Some_2. eapply Forall2_impl; [exact Hon|]. apply Hone. }
  destruct Hon as [|k e ks es Hk [|k2 e2 ks2 es2 Hk2 Hrest]]; [done|by apply Hone|]. by rewrite Hall.
Qed.

Lemma merge_drain_spec f fuel m pend :
  merge_ok m pend -> (length (concat pend) < fuel)%nat ->
  exists gs es m', groups_of (concat pend) gs /\ merge_drain f fuel m = Some (es, m') /\
    es = map (present f) (if 0 <? seriesLimit m
                          then take (Z.to_nat (seriesLimit m - mergedSeries m)) gs.*2 else gs.*2).
Proof.
  revert m pend. induction fuel as [|fuel IH]; intros m pend Hok Hf; [lia|]. cbn [merge_drain].
  unfold merge_Next. destruct (Z.ltb_spec 0 (seriesLimit m)) as [Hlim|Hlim]; cbn [andb];
    [destruct (Z.leb_spec (seriesLimit m) (mergedSeries m)) as [Hend|Hgo]|].
  - destruct (groups_exist m pend Hok) as [gs Hgs]. eexists gs, [], _. split_and!; [done|done|].
    by replace (Z.to_nat (seriesLimit m - mergedSeries m)) with O by lia.
  - destruct (merge_loop_spec (S (length (sets m))) m pend Hok ltac:(lia)) as (b & m' & -> & El & _ & Hb).
    cbn [mbind option_bind]. destruct b; cbn [negb].
    + destruct Hb as (L & g & pend' & Em & Hok' & Hon & Hne & Hg & Hp & Hlt).
      rewrite (merge_At_present f m' g Hon). cbn [mbind option_bind].
      destruct (IH m' pend' Hok') as (gs & es & m2 & Hgs & -> & ->).
      { rewrite Hp, length_app in Hf. destruct g; [done|]. cbn in Hf. lia. }
      cbn [mbind option_bind]. eexists ((L, g) :: gs), _, _. split_and!; [|done|].
      * eapply groups_of_perm; [symmetry; exact Hp|]. by apply groups_cons.
      * rewrite El, Em. destruct (Z.ltb_spec 0 (seriesLimit m)); [|lia].
        replace (Z.to_nat (seriesLimit m - mergedSeries m))
          with (S (Z.to_nat (seriesLimit m - (mergedSeries m + 1)))) by lia. done.
    + rewrite Hb. eexists [], [], _. split_and!; [split_and!; constructor|done|].
      cbn [fmap list_fmap]. by rewrite take_nil.
  - destruct (merge_loop_spec (S (length (sets m))) m pend Hok ltac:(lia)) as (b & m' & -> & El & _ & Hb).
    cbn [mbind option_bind]. destruct b; cbn [negb].
    + destruct Hb as (L & g & pend' & Em & Hok' & Hon & Hne & Hg & Hp & Hlt).
      rewrite (merge_At_present f m' g Hon). cbn [mbind option_bind].
      destruct (IH m' pend' Hok') as (gs & es & m2 & Hgs & -> & ->).
      { rewrite Hp, length_app in Hf. destruct g; [done|]. cbn in Hf. lia. }
      cbn [mbind option_bind]. eexists ((L, g) :: gs), _, _. split_and!; [|done|].
      * eapply groups_of_perm; [symmetry; exact Hp|]. by apply groups_cons.
      * rewrite El. by destruct (Z.ltb_spec 0 (seriesLimit m)); [lia|].
    + rewrite Hb. eexists [], [], _. split_and!; [split_and!; constructor|done|done].
Qed.

End Proofs.

(** A series set over a slice of series that are their label sets. *)
Definition slice_set : Type := option (list Label) * list (list Label).

#[export] Instance slice_SeriesSet : SeriesSet slice_set (list Label) := {
  set_Next t := match t.2 with [] => (false, (None, [])) | e :: es => (true, (Some e, es)) end;
  set_At t := t.1;
  set_Err _ := [];
  Lset := of_list
}.

#[export] Instance slice_SeriesSetLaws : SeriesSetLaws slice_set (list Label).
Proof.
  refine {| set_rep t c es := t = (c, es) |}; cbn.
  - by intros t e es ->.
  - done.
  - intros t c ->. eexists. split; [done|]. by exists None.
  - intros t c e es ->. eexists. by split.
Defined.

(** C19: merging series sets sorted by labels groups their series by label set, in
    ascending order of the label sets, each series in exactly one group; reading
    the merged set returns for each group its series, or their merge by
    mergeFunc when there are several, and stops after seriesLimit groups when
    the limit is positive.  This is for any number of sets but one (one set is
    returned as it is), without errors; nothing panics. *)
Theorem merge_series {T E} `{!SeriesSet T E, !SeriesSetLaws T E} (lab : E -> list Label) (f : list E -> E)
    (ts : list T) (xss : list (list E)) (limit : Z) (fuel : nat) :
  Forall2 (fun t xs => set_rep t None xs /\ StronglySorted (elem_lt lab) xs /\ Forall (labelled lab) xs) ts xss ->
  length ts <> 1%nat -> (length (concat xss) < fuel)%nat ->
  exists m gs es m',
    newGenericMergeSeriesSet (map Some ts) limit = Some (Merged m) /\
    groups_of lab (concat xss) gs /\
    merge_drain f fuel m = Some (es, m') /\
    es = map (present f) (if 0 <? limit then take (Z.to_nat limit) gs.*2 else gs.*2).
Proof.
  intros Hall Hne Hf. pose proof (Forall2_length _ _ _ Hall) as Hlen.
  set (m0 := mk_merge (mk_Labels []) [] (map Some ts) [] limit 0).
  assert (Hok : state_ok lab (sets m0) (m_heap m0) (seq 0 (length (map Some ts))) xss).
  { split; cbn.
    - by rewrite length_map.
    - constructor.
    - apply NoDup_seq.
    - constructor.
    - apply Forall_forall. intros j Hj%elem_of_seq. lia.
    - intros j p Ej. destruct (Forall2_lookup_r _ _ _ _ _ Hall Ej) as (t & Et & Hr & Hs & Hl).
      split_and!; [done|done|by intros ?%elem_of_nil| |].
      + intros _. split; [apply not_elem_of_nil|]. exists t, None. split; [|done].
        rewrite list_lookup_fmap. by rewrite Et.
      + intros _ Hno. destruct Hno. apply elem_of_seq. rewrite length_map. apply lookup_lt_Some in Et. lia.
    - apply heap_ok_nil. }
  destruct (pre_advance_spec lab _ m0 xss Hok) as (ts' & h' & E1 & Hok').
  destruct (merge_drain_spec lab f fuel (set_mheap h' (set_sets ts' m0)) xss Hok' Hf) as (gs & es & m' & Hgs & E2 & Ees).
  exists (set_mheap h' (set_sets ts' m0)), gs, es, m'. split_and!; [|done|done|].
  - unfold newGenericMergeSeriesSet. subst m0. destruct ts as [|t1 [|t2 ts]]; [|done|]; cbn [map] in *;
      rewrite E1; done.
  - rewrite Ees. cbn. by rewrite Z.sub_0_r.
Qed.

Definition lbl (n v : Z) : Label := mk_Label [n] [v].

Lemma merge_series_witness :
  exists m gs es m',
    newGenericMergeSeriesSet (map Some [(None, [[lbl 97 49]; [lbl 97 51]]); (None, [[lbl 97 49]; [lbl 98 49]])]) 2
      = Some (Merged m) /\
    groups_of id (concat [[[lbl 97 49]; [lbl 97 51]]; [[lbl 97 49]; [lbl 98 49]]]) gs /\
    merge_drain (fun _ => []) 5 m = Some (es, m') /\
    es = map (present (fun _ => [])) (if 0 <? 2 then take (Z.to_nat 2) gs.*2 else gs.*2).
Proof.
  apply (merge_series (T := slice_set) id).
  - repeat constructor; try (unfold lbl; cbn; lia); done.
  - done.
  - cbn. lia.
Defined.

(** Reading that example: the two series with labels {a="1"} are one group. *)
Example merge_two_sets :
  (m ← newGenericMergeSeriesSet (map Some [(None, [[lbl 97 49]; [lbl 97 51]]); (None, [[lbl 97 49]; [lbl 98 49]])]) 0;
   match m with Merged m => '(es, _) ← merge_drain (fun es => concat es) 9 m; Some es | _ => None end)
  = Some [[lbl 97 49; lbl 97 49]; [lbl 97 51]; [lbl 98 49]].
Proof. by vm_compute. Qed.

(** The limit does not apply to a single set, which is returned as it is. *)
Lemma one_set_unlimited {T E} `{!SeriesSet T E} (t : option T) (limit : Z) :
  newGenericMergeSeriesSet [t] limit = Some (TheSet t).
Proof. done. Qed.

(** A nil set is skipped when the merge starts, but Err panics on it. *)
Example nil_set_panics :
  match newGenericMergeSeriesSet [None; Some (None, [[lbl 97 49]]); Some (None, [])] 0 with
  | Some (Merged m) => merge_Err m
  | _ => Some []
  end = None.
Proof. by vm_compute. Qed.
