(* ===== verification/LabelQuery.v ===== *)
(** Merging the results of label queries: mergeStrings, truncateToLimit and
    mergeResults of storage/merge.go. *)
From stdpp Require Import sorting.
From S2P Require Import Prelude Labels.

(** The loop of mergeStrings and the two appends after it. *)
Fixpoint mergeStrings (a : list gostr) : list gostr -> list gostr :=
  fix merge_b (b : list gostr) : list gostr :=
    match a, b with
    | [], _ => b
    | _, [] => a
    | x :: a', y :: b' =>
        if str_eqb x y then x :: mergeStrings a' b'
        else if str_ltb x y then x :: mergeStrings a' b
        else y :: merge_b b'
    end.

(** storage.LabelHints. *)
Record LabelHints := mk_LabelHints { Limit : Z }.

Definition truncateToLimit (s : list gostr) (hints : option LabelHints) : list gostr :=
  match hints with
  | Some h => if (0 <? Limit h) && (Limit h <? Z.of_nat (length s)) then take (Z.to_nat (Limit h)) s else s
  | None => s
  end.

(** labelGenericQueriers.SplitByHalf. *)
Definition SplitByHalf {Q} (l : list Q) : list Q * list Q :=
  let i := (length l / 2)%nat in (take i l, drop i l).

Section Results.
Context {Q : Type} (resultsFn : Q -> result (list gostr)).

(** mergeResults, without the warnings.  Both halves of two or more queriers are
    shorter. *)
Fixpoint mergeResults (fuel : nat) (lq : list Q) (hints : option LabelHints) : option (result (list gostr)) :=
  match fuel with
  | O => None
  | S fuel' =>
      match lq with
      | [] => Some (Ok [])
      | [q] => Some (resultsFn q)
      | _ =>
          let '(a, b) := SplitByHalf lq in
          s1 ← mergeResults fuel' a hints;
          match s1 with
          | Err e => Some (Err e)
          | Ok s1 =>
              s2 ← mergeResults fuel' b hints;
              match s2 with
              | Err e => Some (Err e)
              | Ok s2 =>
                  let s1 := truncateToLimit s1 hints in
                  let s2 := truncateToLimit s2 hints in
                  Some (Ok (truncateToLimit (mergeStrings s1 s2) hints))
              end
          end
      end
  end.

End Results.

(** ** Proofs *)

Definition str_lt (a b : gostr) : Prop := str_ltb a b = true.
#[export] Instance str_lt_trans : Transitive str_lt.
Proof. intros a b c. apply str_ltb_trans. Qed.
Notation ascending := (StronglySorted str_lt).

Lemma mergeStrings_elem a b x : x ∈ mergeStrings a b <-> x ∈ a \/ x ∈ b.
Proof.
  revert b. induction a as [|y a IHa]; intros b; [destruct b; cbn; set_solver|].
  induction b as [|z b IHb]; cbn; [set_solver|].
  destruct (str_eqb y z) eqn:E.
  - apply str_eqb_eq in E as <-. rewrite elem_of_cons, IHa. set_solver.
  - destruct (str_ltb y z); rewrite elem_of_cons; [rewrite IHa; set_solver|].
    change (x = z \/ x ∈ mergeStrings (y :: a) b <-> x ∈ y :: a \/ x ∈ z :: b). rewrite IHb. set_solver.
Qed.

Lemma mergeStrings_ascending a b : ascending a -> ascending b -> ascending (mergeStrings a b).
Proof.
  intros Ha. revert b. induction Ha as [|y a Ha IHa Hy]; intros b Hb; [by destruct b|].
  assert (Hbound : forall u a' b', Forall (str_lt u) a' -> Forall (str_lt u) b' -> Forall (str_lt u) (mergeStrings a' b')).
  { intros u a' b'. rewrite !Forall_forall. intros H1 H2 x. rewrite mergeStrings_elem. intros [?|?]; auto. }
  assert (Hup : forall u v l, str_lt u v -> Forall (str_lt v) l -> Forall (str_lt u) l).
  { intros u v l Huv Hl. eapply Forall_impl; [exact Hl|]. intros w. by apply transitivity. }
  induction Hb as [|z b Hb IHb Hz]; cbn; [by constructor|].
  destruct (str_eqb y z) eqn:E; [|destruct (str_ltb y z) eqn:El].
  - apply str_eqb_eq in E as <-. constructor; [by apply IHa|by apply Hbound].
  - constructor; [apply IHa; by constructor|]. apply Hbound; [done|]. constructor; [done|by eapply Hup].
  - assert (Hzy : str_lt z y).
    { destruct (str_trichotomy y z) as [?|[->|?]]; [congruence| |done].
      unfold str_eqb in E. by rewrite bool_decide_eq_true_2 in E. }
    constructor; [exact IHb|]. apply (Hbound z (y :: a) b); [constructor; [done|by eapply Hup]|done].
Qed.

(** An ascending list is determined by its elements. *)
Lemma ascending_unique a b : ascending a -> ascending b -> (forall x, x ∈ a <-> x ∈ b) -> a = b.
Proof.
  assert (Hnd : forall l, ascending l -> NoDup l).
  { induction 1 as [|y l Hl IH Hy]; constructor; [|done]. intros Hin. rewrite Forall_forall in Hy.
    specialize (Hy y Hin). unfold str_lt in Hy. by rewrite str_ltb_irrefl in Hy. }
  intros Ha Hb Hab. apply (StronglySorted_unique_strong str_lt); [|done|done|].
  - intros x y _ _ H1 H2. unfold str_lt in *. apply str_ltb_asym in H1. congruence.
  - apply NoDup_Permutation; auto.
Qed.

Lemma take_ascending n l : ascending l -> ascending (take n l).
Proof. intros Hl. rewrite <-(take_drop n l) in Hl. by eapply StronglySorted_app_1_l. Qed.

(** Truncating the parts does not lose any of the first [n] of the merged list. *)
Lemma merge_take n p q a b : (n <= p)%nat -> (n <= q)%nat ->
  take n (mergeStrings (take p a) (take q b)) = take n (mergeStrings a b).
Proof.
  assert (Hnil : forall l, mergeStrings [] l = l) by by destruct l.
  assert (Hnil' : forall l, mergeStrings l [] = l) by by destruct l.
  revert p q a b. induction n as [|n IH]; intros p q a b Hp Hq; [done|].
  destruct a as [|y a]; [by rewrite take_nil, !Hnil, take_take, Nat.min_l|].
  destruct b as [|z b]; [by rewrite take_nil, !Hnil', take_take, Nat.min_l|].
  destruct p as [|p]; [lia|]. destruct q as [|q]; [lia|]. cbn [take mergeStrings].
  destruct (str_eqb y z); [cbn [take]; by rewrite IH by lia|]. destruct (str_ltb y z); cbn [take]; f_equal.
  - apply (IH p (S q) a (z :: b)); lia.
  - apply (IH (S p) q (y :: a) b); lia.
Qed.

Lemma truncate_take s hints :
  truncateToLimit s hints = match hints with
                            | Some h => if 0 <? Limit h then take (Z.to_nat (Limit h)) s else s
                            | None => s
                            end.
Proof.
  unfold truncateToLimit. destruct hints as [h|]; [|done]. destruct (Z.ltb_spec 0 (Limit h)); cbn; [|done].
  destruct (Z.ltb_spec (Limit h) (Z.of_nat (length s))); [done|]. rewrite take_ge; [done|lia].
Qed.

(** Truncating before or after merging truncated lists is the same. *)
Lemma truncate_merge hints a b :
  truncateToLimit (mergeStrings (truncateToLimit a hints) (truncateToLimit b hints)) hints
  = truncateToLimit (mergeStrings a b) hints.
Proof.
  rewrite !truncate_take. destruct hints as [h|]; [|done]. destruct (0 <? Limit h); [|done]. by apply merge_take.
Qed.

Lemma truncate_idem hints a : truncateToLimit (truncateToLimit a hints) hints = truncateToLimit a hints.
Proof.
  rewrite !truncate_take. destruct hints as [h|]; [|done]. destruct (0 <? Limit h); [|done].
  by rewrite take_take, Nat.min_id.
Qed.

(** The union of the queriers' results, when none fails. *)
Fixpoint first_error {A} (rs : list (result A)) : option goerror :=
  match rs with [] => None | Err e :: _ => Some e | Ok _ :: rs' => first_error rs' end.

Lemma first_error_app {A} (l1 l2 : list (result A)) :
  first_error (l1 ++ l2) = match first_error l1 with Some e => Some e | None => first_error l2 end.
Proof. induction l1 as [|[x|e] l1 IH]; cbn; auto. Qed.

Section Merged.
Context {Q : Type} (resultsFn : Q -> result (list gostr)).

(** [u] is the ascending list of all results. *)
Definition union_of (lq : list Q) (u : list gostr) : Prop :=
  ascending u /\ forall x, x ∈ u <-> exists q r, q ∈ lq /\ resultsFn q = Ok r /\ x ∈ r.

Lemma union_app a b u v : union_of a u -> union_of b v -> union_of (a ++ b) (mergeStrings u v).
Proof.
  intros [Hu Eu] [Hv Ev]. split; [by apply mergeStrings_ascending|]. intros x.
  rewrite mergeStrings_elem, Eu, Ev. split.
  - intros [(q & r & ? & ?)|(q & r & ? & ?)]; exists q, r; rewrite elem_of_app; tauto.
  - intros (q & r & [?|?]%elem_of_app & ?); [left|right]; by exists q, r.
Qed.

Lemma SplitByHalf_lengths (lq : list Q) : (2 <= length lq)%nat ->
  exists a b, SplitByHalf lq = (a, b) /\ lq = a ++ b /\ (0 < length a < length lq)%nat /\ (0 < length b < length lq)%nat.
Proof.
  intros Hl. unfold SplitByHalf. pose proof (Nat.div_mod_eq (length lq) 2).
  pose proof (Nat.mod_upper_bound (length lq) 2). eexists _, _. split; [done|].
  rewrite take_drop, length_take, length_drop. split; [done|lia].
Qed.

(** What mergeResults returns, before the outer truncation of a single result. *)
Lemma mergeResults_union fuel lq hints :
  (forall q r, q ∈ lq -> resultsFn q = Ok r -> ascending r) ->
  (0 < length lq < fuel)%nat ->
  match first_error (map resultsFn lq) with
  | Some e => mergeResults resultsFn fuel lq hints = Some (Err e)
  | None => exists u r, union_of lq u /\ mergeResults resultsFn fuel lq hints = Some (Ok r) /\
      truncateToLimit r hints = truncateToLimit u hints /\
      r = (if lq is [_] then u else truncateToLimit u hints)
  end.
Proof.
  revert lq. induction fuel as [|fuel IH]; intros lq Hasc Hf; [lia|].
  destruct lq as [|q1 lq']; [cbn in Hf; lia|]. destruct lq' as [|q2 lq'].
  { cbn. destruct (resultsFn q1) as [r|e] eqn:E; [|done]. exists r, r. split_and!; [|done..].
    split; [apply (Hasc q1); [by left|done]|]. intros x. split.
    - intros Hx. exists q1, r. split_and!; [by left|done|done].
    - intros (q & r' & ->%list_elem_of_singleton & E' & Hx). congruence. }
  destruct (SplitByHalf_lengths (q1 :: q2 :: lq')) as (a & b & Es & Eab & Ha & Hb); [cbn; lia|].
  assert (Em : mergeResults resultsFn (S fuel) (q1 :: q2 :: lq') hints =
    (s1 ← mergeResults resultsFn fuel a hints;
     match s1 with
     | Err e => Some (Err e)
     | Ok s1 => s2 ← mergeResults resultsFn fuel b hints;
         match s2 with
         | Err e => Some (Err e)
         | Ok s2 => Some (Ok (truncateToLimit (mergeStrings (truncateToLimit s1 hints) (truncateToLimit s2 hints)) hints))
         end
     end)) by (cbn [mergeResults]; by rewrite Es).
  rewrite Em, Eab, map_app, first_error_app. clear Em Es.
  pose proof (IH a) as IHa. pose proof (IH b) as IHb. rewrite Eab in *.
  destruct (first_error (map resultsFn a)) as [e|].
  { rewrite IHa; [done| |lia]. intros q r Hq. apply Hasc. apply elem_of_app. by left. }
  destruct IHa as (ua & ra & Hua & -> & Eta & _); [|lia|].
  { intros q r Hq. apply Hasc. apply elem_of_app. by left. }
  cbn [mbind option_bind]. destruct (first_error (map resultsFn b)) as [e|].
  { rewrite IHb; [done| |lia]. intros q r Hq. apply Hasc. apply elem_of_app. by right. }
  destruct IHb as (ub & rb & Hub & -> & Etb & _); [|lia|].
  { intros q r Hq. apply Hasc. apply elem_of_app. by right. }
  cbn [mbind option_bind]. exists (mergeStrings ua ub), (truncateToLimit (mergeStrings ua ub) hints).
  split_and!.
  - by apply union_app.
  - by rewrite Eta, Etb, truncate_merge.
  - apply truncate_idem.
  - destruct a as [|x1 [|x2 a]]; [cbn in *; lia| |done]. by destruct b; [cbn in *; lia|].
Qed.

End Merged.

(** A label query over several queriers whose results are ascending returns
    the error of the first querier that fails; when none fails it returns the
    ascending union of the results without duplicates, cut to the hints' limit
    when that is positive, except that the result of a single querier is not
    cut.  The recursion by halves ends within the number of queriers. *)
Theorem mergeResults_spec {Q} (resultsFn : Q -> result (list gostr)) (lq : list Q) (hints : option LabelHints)
    (u : list gostr) :
  (forall q r, q ∈ lq -> resultsFn q = Ok r -> ascending r) ->
  ascending u -> (forall x, x ∈ u <-> exists q r, q ∈ lq /\ resultsFn q = Ok r /\ x ∈ r) ->
  mergeResults resultsFn (S (length lq)) lq hints = Some
    match first_error (map resultsFn lq) with
    | Some e => Err e
    | None => Ok (if lq is [_] then u else truncateToLimit u hints)
    end.
Proof.
  intros Hasc Hu Eu. destruct lq as [|q lq].
  - destruct u as [|x u].
    { cbn. rewrite truncate_take. destruct hints as [h|]; [|done]. by destruct (0 <? Limit h); rewrite ?take_nil. }
    destruct (proj1 (Eu x)) as (q & r & Hq & _); [by left|]. by apply elem_of_nil in Hq.
  - pose proof (mergeResults_union resultsFn (S (length (q :: lq))) (q :: lq) hints Hasc ltac:(cbn; lia)) as Hm.
    destruct (first_error _) as [e|]; [done|]. destruct Hm as (u' & r & [Hu' Eu'] & -> & _ & ->).
    assert (u' = u) as -> by (apply ascending_unique; [done..|]; intros x; by rewrite Eu, Eu'). done.
Qed.

Lemma mergeResults_spec_witness :
  mergeResults (fun l => Ok l) 4 [[[97]; [99]]; [[98]]; [[97]; [100]]] (Some (mk_LabelHints 3))
  = Some (Ok [[97]; [98]; [99]]).
Proof.
  apply (mergeResults_spec (fun l => Ok l) [[[97]; [99]]; [[98]]; [[97]; [100]]] (Some (mk_LabelHints 3))
           [[97]; [98]; [99]; [100]]).
  - intros q r Hq [= ->]. rewrite !elem_of_cons, elem_of_nil in Hq.
    destruct Hq as [->|[->|[->|[]]]]; repeat constructor.
  - repeat constructor.
  - intros x. split.
    + rewrite !elem_of_cons, elem_of_nil. intros [->|[->|[->|[->|[]]]]];
        [exists [[97]; [99]]|exists [[98]]|exists [[97]; [99]]|exists [[97]; [100]]]; eexists;
        (split_and!; [|done|]; rewrite !elem_of_cons; tauto).
    + intros (q & r & Hq & [= ->] & Hx). rewrite !elem_of_cons, elem_of_nil in Hq.
      destruct Hq as [->|[->|[->|[]]]]; set_solver.
Defined.
