(* ===== verification/HeadChunks.v ===== *)
(** tsdb/head.go, tsdb/head_read.go and the m-mapping part of
    tsdb/head_append.go: the chunks of one series of the head.

    A memSeries keeps its older chunks on disk, in a slice oldest first, and its
    newer ones in a linked list, newest first; the list is a Rocq list here and
    [[]] is the nil pointer.  The chunks themselves and the disk mapper are
    reached through interfaces ([ChunkOps] of OooHead, [DiskMapper]).  A chunk is
    known to readers by an ID of 23 bits; the theorems say what moving chunks to
    disk and dropping old ones do to the chunks an ID finds. *)
From stdpp Require Import sorting.
From S2P Require Import Prelude TxRing OooHead.

(** ** The packed state word *)

Definition seriesPendingCommitMask : Z := Z.shiftl 1 30 - 1.
Definition seriesHistogramChunkHasComputedEndTimeFlag : Z := Z.shiftl 1 30.
Definition seriesGCedFlag : Z := Z.shiftl 1 31.

Definition pendingCommitCount (state : Z) : Z := Z.land state seriesPendingCommitMask.

Definition hasPendingCommit (state : Z) : bool := negb (pendingCommitCount state =? 0).

(** [None] is the panic on an overflow of the counter. *)
Definition markPendingCommit (state : Z) : option Z :=
  if pendingCommitCount state =? seriesPendingCommitMask then None else Some (u32 (state + 1)).

Definition unmarkPendingCommit (state : Z) : Z * bool :=
  if negb (hasPendingCommit state) then (state, false) else (u32 (state - 1), true).

Definition isGCed (state : Z) : bool := negb (Z.land state seriesGCedFlag =? 0).
Definition setGCed (state : Z) : Z := Z.lor state seriesGCedFlag.

Definition hasComputedHistogramChunkEndTime (state : Z) : bool :=
  negb (Z.land state seriesHistogramChunkHasComputedEndTimeFlag =? 0).

Definition setComputedHistogramChunkEndTime (computed : bool) (state : Z) : Z :=
  if computed then Z.lor state seriesHistogramChunkHasComputedEndTimeFlag
  else Z.ldiff state seriesHistogramChunkHasComputedEndTimeFlag.

(** ** Chunk IDs and references *)

Definition oooChunkIDMask : Z := Z.shiftl 1 23.

Definition wrapChunkID (id : Z) : Z := Z.land id (oooChunkIDMask - 1).

(** [None] is a panic. *)
Definition NewHeadChunkRef (hsr chunkID : Z) : option Z :=
  if Z.shiftl 1 40 - 1 <? hsr then None
  else if Z.shiftl 1 24 - 1 <? chunkID then None
  else Some (Z.lor (u64 (Z.shiftl hsr 24)) chunkID).

Definition HeadChunkRef_Unpack (p : Z) : Z * Z := (Z.shiftr p 24, Z.shiftr (u64 (Z.shiftl p 40)) 40).

Definition unpackHeadChunkRef (ref : Z) : Z * Z * bool :=
  let '(sid, cid) := HeadChunkRef_Unpack ref in
  (sid, Z.land cid (oooChunkIDMask - 1), negb (Z.land cid oooChunkIDMask =? 0)).

(** chunks.ChunkDiskMapperRef: the file and the offset in it. *)
Definition newChunkDiskMapperRef (seq offset : Z) : Z := Z.lor (u64 (Z.shiftl seq 32)) offset.
Definition MapperRef_Unpack (ref : Z) : Z * Z := (Z.shiftr ref 32, Z.shiftr (u64 (Z.shiftl ref 32)) 32).

Definition GreaterThan (ref r : Z) : bool :=
  let '(s1, o1) := MapperRef_Unpack ref in
  let '(s2, o2) := MapperRef_Unpack r in
  (s2 <? s1) || ((s1 =? s2) && (o2 <? o1)).

Definition overlapsClosedInterval (mint1 maxt1 mint2 maxt2 : Z) : bool := (mint1 <=? maxt2) && (mint2 <=? maxt1).

(** ** Interfaces *)

(** What the head asks of a chunk besides appending to it. *)
Class ChunkMeta (C : Type) := { chunk_NumSamples : C -> Z; chunk_Encoding : C -> ChunkEnc; chunk_BytesLen : C -> Z }.

(** A chunk counts its samples in 16 bits and needs at least a bit for each; an
    appender keeps the encoding, and the first sample is never recoded. *)
Class ChunkMetaLaws {H FH : Type} (C : Type) `{!@ChunkOps H FH C} `{!ChunkLaws C} `{!ChunkMeta C} := {
  NumSamples_contents : forall c, chunk_NumSamples c = u16 (Z.of_nat (length (contents c)));
  contents_bytes : forall c, Z.of_nat (length (contents c)) <= 8 * chunk_BytesLen c;
  new_encoding : forall e c, NewEmptyChunk e = Some c -> chunk_Encoding c = e;
  append_encoding : forall c s, chunk_Encoding (Append c s) = chunk_Encoding c;
  hist_encoding : forall p c s, match AppendHistogram p c s with
    | Same c' | NewChunk c' => chunk_Encoding c' = chunk_Encoding c
    | Recoded c' => chunk_Encoding c' = chunk_Encoding c /\ contents c <> []
    end;
  fhist_encoding : forall p c s, match AppendFloatHistogram p c s with
    | Same c' | NewChunk c' => chunk_Encoding c' = chunk_Encoding c
    | Recoded c' => chunk_Encoding c' = chunk_Encoding c /\ contents c <> []
    end }.

(** What the head asks of a histogram: Equals, whose argument may be nil, the
    bits of its sum and the number of its buckets. *)
Class HistogramOps (A : Type) := { hist_Equals : A -> option A -> bool; hist_Sum : A -> Z; hist_buckets : A -> Z }.

(** value.IsStaleNaN on the bits of a float64. *)
Definition StaleNaN : Z := 0x7ff0000000000002.
Definition IsStaleNaN (v : Z) : bool := v =? StaleNaN.

(** The disk mapper: WriteChunk returns a reference, Chunk reads it back. *)
Class DiskMapper (D C : Type) := {
  WriteChunk : D -> Z -> Z -> Z -> C -> bool -> D * Z;
  Chunk : D -> Z -> option C }.

(** What a mapper that is open promises: a chunk written can be read, and stays. *)
Class DiskMapperLaws (D C : Type) `{!DiskMapper D C} := {
  write_read : forall d sref lo hi c o, Chunk (WriteChunk d sref lo hi c o).1 (WriteChunk d sref lo hi c o).2 = Some c;
  write_keeps : forall d sref lo hi c o r c', Chunk d r = Some c' -> Chunk (WriteChunk d sref lo hi c o).1 r = Some c' }.

(** ** Bits of the packed words *)

Lemma land_pow2 x k : 0 <= k -> Z.land x (2 ^ k) = if Z.testbit x k then 2 ^ k else 0.
Proof.
  intros Hk. apply Z.bits_inj'. intros n Hn. rewrite Z.land_spec, Z.pow2_bits_eqb by done.
  destruct (Z.eqb_spec k n) as [->|Hne].
  - destruct (Z.testbit x n); [by rewrite Z.pow2_bits_true|by rewrite Z.bits_0].
  - rewrite andb_false_r. destruct (Z.testbit x k); [by rewrite Z.pow2_bits_false|by rewrite Z.bits_0].
Qed.

Lemma lor_pow2 x k : 0 <= k -> Z.lor x (2 ^ k) = if Z.testbit x k then x else x + 2 ^ k.
Proof.
  intros Hk. pose proof (Z.add_lor_land x (2 ^ k)) as Ha. rewrite land_pow2 in Ha by done.
  destruct (Z.testbit x k); lia.
Qed.

Lemma ldiff_pow2 x k : 0 <= k -> Z.ldiff x (2 ^ k) = if Z.testbit x k then x - 2 ^ k else x.
Proof.
  intros Hk. destruct (Z.testbit x k) eqn:E.
  - rewrite <-Z.sub_nocarry_ldiff; [done|]. apply Z.bits_inj'. intros n Hn.
    rewrite Z.ldiff_spec, Z.bits_0, Z.pow2_bits_eqb by done. destruct (Z.eqb_spec k n) as [->|]; [by rewrite E|done].
  - apply Z.bits_inj'. intros n Hn. rewrite Z.ldiff_spec, Z.pow2_bits_eqb by done.
    destruct (Z.eqb_spec k n) as [->|]; [by rewrite E|by rewrite andb_true_r].
Qed.

(** A bit above a field of [k] bits. *)
Lemma testbit_above x k b : 0 <= k -> 0 <= x < 2 ^ k -> Z.testbit (x + Z.b2z b * 2 ^ k) k = b.
Proof.
  intros Hk Hx. rewrite Z.testbit_eqb, Z.div_add, Z.div_small by lia.
  rewrite Z.add_0_l, Z.mod_small by (destruct b; cbn; lia). by destruct b.
Qed.

Lemma testbit_mod x y k : 0 <= k -> Z.testbit (x + y * 2 ^ (k + 1)) k = Z.testbit x k.
Proof.
  intros Hk. rewrite !Z.testbit_eqb by done. replace (y * 2 ^ (k + 1)) with (y * 2 * 2 ^ k) by (rewrite Z.pow_add_r; lia).
  by rewrite Z.div_add, Z.mod_add by lia.
Qed.

(** The word: the count below bit 30 and the two flags. *)
Definition pack_state (n : Z) (computed gced : bool) : Z := n + Z.b2z computed * 2 ^ 30 + Z.b2z gced * 2 ^ 31.

Lemma pack_count n c g : 0 <= n < 2 ^ 30 -> pendingCommitCount (pack_state n c g) = n.
Proof.
  intros Hn. change (pendingCommitCount (pack_state n c g)) with (Z.land (pack_state n c g) (Z.ones 30)).
  rewrite Z.land_ones by lia. unfold pack_state.
  replace (n + Z.b2z c * 2 ^ 30 + Z.b2z g * 2 ^ 31) with (n + (Z.b2z c + Z.b2z g * 2) * 2 ^ 30) by lia.
  rewrite Z.mod_add by lia. by apply Z.mod_small.
Qed.

Lemma pack_bit30 n c g : 0 <= n < 2 ^ 30 -> Z.testbit (pack_state n c g) 30 = c.
Proof. intros Hn. unfold pack_state. rewrite (testbit_mod _ _ 30) by lia. by apply testbit_above. Qed.

Lemma pack_bit31 n c g : 0 <= n < 2 ^ 30 -> Z.testbit (pack_state n c g) 31 = g.
Proof. intros Hn. unfold pack_state. apply testbit_above; [lia|]. destruct c; cbn; lia. Qed.

Lemma state_word_ops n c g :
  0 <= n <= seriesPendingCommitMask ->
  let w := pack_state n c g in
  is_u32 w /\
  pendingCommitCount w = n /\ hasComputedHistogramChunkEndTime w = c /\ isGCed w = g /\
  markPendingCommit w = (if n =? seriesPendingCommitMask then None else Some (pack_state (n + 1) c g)) /\
  unmarkPendingCommit w = (if n =? 0 then (w, false) else (pack_state (n - 1) c g, true)) /\
  setGCed w = pack_state n c true /\
  (forall b, setComputedHistogramChunkEndTime b w = pack_state n b g).
Proof.
  change seriesPendingCommitMask with (2 ^ 30 - 1). intros Hn. cbv zeta.
  assert (Hn' : 0 <= n < 2 ^ 30) by lia.
  assert (Hu : is_u32 (pack_state n c g)) by (unfold is_u32, pack_state; destruct c, g; cbn [Z.b2z]; lia).
  split_and!; [done|by apply pack_count|..].
  - unfold hasComputedHistogramChunkEndTime. change seriesHistogramChunkHasComputedEndTimeFlag with (2 ^ 30).
    rewrite land_pow2, pack_bit30 by lia. by destruct c.
  - unfold isGCed. change seriesGCedFlag with (2 ^ 31). rewrite land_pow2, pack_bit31 by lia. by destruct g.
  - unfold markPendingCommit. rewrite pack_count by done. change seriesPendingCommitMask with (2 ^ 30 - 1).
    destruct (Z.eqb_spec n (2 ^ 30 - 1)); [done|]. f_equal. rewrite u32_id; unfold is_u32, pack_state in *; lia.
  - unfold unmarkPendingCommit, hasPendingCommit. rewrite pack_count, negb_involutive by done.
    destruct (Z.eqb_spec n 0); [done|]. f_equal. rewrite u32_id; unfold is_u32, pack_state in *; [lia|].
    destruct c, g; cbn [Z.b2z] in *; lia.
  - unfold setGCed. change seriesGCedFlag with (2 ^ 31). rewrite lor_pow2, pack_bit31 by lia.
    unfold pack_state. destruct g; cbn [Z.b2z]; lia.
  - intros b. unfold setComputedHistogramChunkEndTime. change seriesHistogramChunkHasComputedEndTimeFlag with (2 ^ 30).
    destruct b; [rewrite lor_pow2 by lia|rewrite ldiff_pow2 by lia]; rewrite pack_bit30 by done;
      unfold pack_state; destruct c; cbn [Z.b2z]; lia.
Qed.

(** C37: the packed state word is a counter and two flags.  Every uint32 is such
    a word; reading a field gives it, and each operation changes its own field
    only: a reservation is counted up to the mask, where the code panics, a
    release of one that is not held is reported and changes nothing. *)
Theorem state_word_fields n c g :
  0 <= n <= seriesPendingCommitMask ->
  let w := pack_state n c g in
  is_u32 w /\
  pendingCommitCount w = n /\ hasComputedHistogramChunkEndTime w = c /\ isGCed w = g /\
  markPendingCommit w = (if n =? seriesPendingCommitMask then None else Some (pack_state (n + 1) c g)) /\
  unmarkPendingCommit w = (if n =? 0 then (w, false) else (pack_state (n - 1) c g, true)) /\
  setGCed w = pack_state n c true /\
  (forall b, setComputedHistogramChunkEndTime b w = pack_state n b g).
Proof. apply state_word_ops. Qed.

(** The words that the operations make: a count below the mask and the flags. *)
Definition word_ok (w : Z) : Prop := exists n c g, 0 <= n <= seriesPendingCommitMask /\ w = pack_state n c g.

Lemma word_mark w :
  word_ok w -> pendingCommitCount w < seriesPendingCommitMask ->
  exists w', markPendingCommit w = Some w' /\ word_ok w' /\ pendingCommitCount w' = pendingCommitCount w + 1 /\ isGCed w' = isGCed w.
Proof.
  intros (n & c & g & Hn & ->). destruct (state_word_ops n c g Hn) as (_ & -> & _ & -> & -> & _). intros Hlt.
  rewrite (proj2 (Z.eqb_neq _ _)) by lia. assert (Hn' : 0 <= n + 1 <= seriesPendingCommitMask) by lia.
  destruct (state_word_ops (n + 1) c g Hn') as (_ & E1 & _ & E2 & _). eexists. split_and!; [done| |done|done].
  by exists (n + 1), c, g.
Qed.

Lemma word_unmark w :
  word_ok w ->
  let '(w', ok) := unmarkPendingCommit w in
  word_ok w' /\ isGCed w' = isGCed w /\ ok = hasPendingCommit w /\
  pendingCommitCount w' = Z.max 0 (pendingCommitCount w - 1) /\ 0 <= pendingCommitCount w.
Proof.
  intros (n & c & g & Hn & ->). unfold hasPendingCommit.
  destruct (state_word_ops n c g Hn) as (_ & E1 & _ & E2 & _ & E3 & _). rewrite E3. rewrite E1.
  destruct (Z.eqb_spec n 0) as [->|Hne]; cbn [negb].
  - rewrite E1, E2. split_and!; [by exists 0, c, g|done|done|lia|lia].
  - assert (Hn' : 0 <= n - 1 <= seriesPendingCommitMask) by lia.
    destruct (state_word_ops (n - 1) c g Hn') as (_ & E4 & _ & E5 & _). rewrite E4, E5, E2.
    split_and!; [by exists (n - 1), c, g|done|done|lia|lia].
Qed.

Lemma word_setGCed w : word_ok w -> word_ok (setGCed w) /\ isGCed (setGCed w) = true /\ pendingCommitCount (setGCed w) = pendingCommitCount w.
Proof.
  intros (n & c & g & Hn & ->). destruct (state_word_ops n c g Hn) as (_ & E1 & _ & _ & _ & _ & E & _). rewrite E.
  destruct (state_word_ops n c true Hn) as (_ & E2 & _ & E3 & _). split_and!; [by exists n, c, true|done|congruence].
Qed.

Lemma word_computed b w :
  word_ok w -> word_ok (setComputedHistogramChunkEndTime b w) /\
  isGCed (setComputedHistogramChunkEndTime b w) = isGCed w /\
  pendingCommitCount (setComputedHistogramChunkEndTime b w) = pendingCommitCount w.
Proof.
  intros (n & c & g & Hn & ->). destruct (state_word_ops n c g Hn) as (_ & E1 & _ & E2 & _ & _ & _ & E). rewrite E.
  destruct (state_word_ops n b g Hn) as (_ & E3 & _ & E4 & _). split_and!; [by exists n, b, g|congruence|congruence].
Qed.

Lemma word_new : word_ok 0.
Proof. by exists 0, false, false. Qed.

Lemma wrapChunkID_mod id : wrapChunkID id = id mod 2 ^ 23.
Proof. exact (Z.land_ones id 23 ltac:(lia)). Qed.

(** A reference unpacks to what it was made of. *)
Lemma unpack_NewHeadChunkRef sref cid :
  0 <= sref < 2 ^ 40 -> 0 <= cid < 2 ^ 24 ->
  unpackHeadChunkRef (Z.lor (u64 (Z.shiftl sref 24)) cid) = (sref, cid mod 2 ^ 23, Z.testbit cid 23).
Proof.
  intros Hs Hc.
  assert (El : Z.lor (u64 (Z.shiftl sref 24)) cid = sref * 2 ^ 24 + cid).
  { rewrite Z.shiftl_mul_pow2, u64_id by (unfold is_u64; lia). rewrite <-Z.add_lor_land.
    replace (Z.land (sref * 2 ^ 24) cid) with 0; [lia|]. symmetry. apply Z.bits_inj'. intros n Hn.
    rewrite Z.land_spec, Z.bits_0. destruct (Z.lt_ge_cases n 24).
    - by rewrite Z.mul_pow2_bits_low.
    - rewrite (Z.bits_above_log2 cid); [apply andb_false_r|lia|]. destruct (Z.eq_dec cid 0) as [->|]; [cbn; lia|].
      apply Z.log2_lt_pow2; [lia|]. eapply Z.lt_le_trans; [apply Hc|]. by apply Z.pow_le_mono_r. }
  rewrite El. unfold unpackHeadChunkRef, HeadChunkRef_Unpack.
  rewrite !Z.shiftr_div_pow2, Z.shiftl_mul_pow2 by lia. rewrite Z.div_add_l, Z.div_small by lia.
  assert (Ec : u64 ((sref * 2 ^ 24 + cid) * 2 ^ 40) / 2 ^ 40 = cid).
  { unfold u64. replace ((sref * 2 ^ 24 + cid) * 2 ^ 40) with (cid * 2 ^ 40 + sref * 2 ^ 64) by lia.
    rewrite Z.mod_add, Z.mod_small by lia. apply Z.div_mul. lia. }
  rewrite Ec. f_equal; [f_equal; [lia|apply wrapChunkID_mod]|].
  change oooChunkIDMask with (2 ^ 23). rewrite land_pow2 by lia. by destruct (Z.testbit cid 23).
Qed.

Section Series.
  Context {H FH C D : Type}.

(** ** Data *)

Record mmappedChunk := mk_mmappedChunk {
  mm_ref : Z; mm_numSamples : Z; mm_encoding : ChunkEnc; mm_minTime : Z; mm_maxTime : Z }.

Record oooHeadChunk := mk_oooHeadChunk { oc_chunk : list (@sample H FH); oc_minTime : Z; oc_maxTime : Z }.

Record memSeriesOOOFields := mk_memSeriesOOOFields {
  oooMmappedChunks : list mmappedChunk; oooHead : option oooHeadChunk; firstOOOChunkID : Z }.

(** The labels, the metadata and the shard hash of a series are left out: no
    operation here reads them.  The appender is kept as the chunk it writes to. *)
Record memSeries := mk_memSeries {
  ser_ref : Z;
  mmappedChunks : list mmappedChunk;
  headChunks : list (memChunk C);
  firstChunkID : Z;
  ooo : option memSeriesOOOFields;
  nextAt : Z;
  state : Z;
  headChunkCount : Z;
  lastValue : Z;
  lastHistogramValue : option H;
  lastFloatHistogramValue : option FH;
  ser_app : option C;
  txs : option txRing }.

Definition set_mmapped (l : list mmappedChunk) (s : memSeries) : memSeries :=
  mk_memSeries (ser_ref s) l (headChunks s) (firstChunkID s) (ooo s) (nextAt s) (state s) (headChunkCount s)
    (lastValue s) (lastHistogramValue s) (lastFloatHistogramValue s) (ser_app s) (txs s).

Definition setHeadChunks (head : list (memChunk C)) (count : Z) (s : memSeries) : memSeries :=
  mk_memSeries (ser_ref s) (mmappedChunks s) head (firstChunkID s) (ooo s) (nextAt s) (state s) count
    (lastValue s) (lastHistogramValue s) (lastFloatHistogramValue s) (ser_app s) (txs s).

Definition set_firstChunkID (id : Z) (s : memSeries) : memSeries :=
  mk_memSeries (ser_ref s) (mmappedChunks s) (headChunks s) id (ooo s) (nextAt s) (state s) (headChunkCount s)
    (lastValue s) (lastHistogramValue s) (lastFloatHistogramValue s) (ser_app s) (txs s).

Definition set_ooo (o : option memSeriesOOOFields) (s : memSeries) : memSeries :=
  mk_memSeries (ser_ref s) (mmappedChunks s) (headChunks s) (firstChunkID s) o (nextAt s) (state s) (headChunkCount s)
    (lastValue s) (lastHistogramValue s) (lastFloatHistogramValue s) (ser_app s) (txs s).

Definition set_nextAt (t : Z) (s : memSeries) : memSeries :=
  mk_memSeries (ser_ref s) (mmappedChunks s) (headChunks s) (firstChunkID s) (ooo s) t (state s) (headChunkCount s)
    (lastValue s) (lastHistogramValue s) (lastFloatHistogramValue s) (ser_app s) (txs s).

Definition set_state (w : Z) (s : memSeries) : memSeries :=
  mk_memSeries (ser_ref s) (mmappedChunks s) (headChunks s) (firstChunkID s) (ooo s) (nextAt s) w (headChunkCount s)
    (lastValue s) (lastHistogramValue s) (lastFloatHistogramValue s) (ser_app s) (txs s).

Definition set_last (v : Z) (h : option H) (fh : option FH) (s : memSeries) : memSeries :=
  mk_memSeries (ser_ref s) (mmappedChunks s) (headChunks s) (firstChunkID s) (ooo s) (nextAt s) (state s) (headChunkCount s)
    v h fh (ser_app s) (txs s).

Definition set_app (a : option C) (s : memSeries) : memSeries :=
  mk_memSeries (ser_ref s) (mmappedChunks s) (headChunks s) (firstChunkID s) (ooo s) (nextAt s) (state s) (headChunkCount s)
    (lastValue s) (lastHistogramValue s) (lastFloatHistogramValue s) a (txs s).

Definition set_txs (x : option txRing) (s : memSeries) : memSeries :=
  mk_memSeries (ser_ref s) (mmappedChunks s) (headChunks s) (firstChunkID s) (ooo s) (nextAt s) (state s) (headChunkCount s)
    (lastValue s) (lastHistogramValue s) (lastFloatHistogramValue s) (ser_app s) x.

(** isStale, isHistogram and the bucket count. *)
Definition sampleState `{!HistogramOps H} `{!HistogramOps FH} (s : memSeries) : bool * bool * Z :=
  match lastHistogramValue s, lastFloatHistogramValue s with
  | Some h, _ => (IsStaleNaN (hist_Sum h), true, hist_buckets h)
  | None, Some fh => (IsStaleNaN (hist_Sum fh), true, hist_buckets fh)
  | None, None => (IsStaleNaN (lastValue s), false, 0)
  end.

Definition newMemSeries (id : Z) (isolationDisabled pendingCommit : bool) : option memSeries :=
  let s := mk_memSeries id [] [] 0 None MinInt64 0 0 0 None None None None in
  s ← (if pendingCommit then w ← markPendingCommit (state s); Some (set_state w s) else Some s);
  Some (if isolationDisabled then s else set_txs (Some (newTxRing 0)) s).

(** ** Times and the chunk list *)

(** len and oldest of a non-nil memChunk. *)
Fixpoint memChunk_len (l : list (memChunk C)) : Z :=
  match l with [] => 0 | _ :: l => 1 + memChunk_len l end.

Fixpoint oldest (c : memChunk C) (l : list (memChunk C)) : memChunk C :=
  match l with [] => c | c' :: l => oldest c' l end.

Definition minTime (s : memSeries) : Z :=
  match mmappedChunks s with
  | m :: _ => mm_minTime m
  | [] =>
      match headChunks s with
      | c :: l => mc_minTime (oldest c l)
      | [] => MinInt64
      end
  end.

Definition maxTime (s : memSeries) : Z :=
  match headChunks s with
  | c :: _ => mc_maxTime c
  | [] =>
      match last (mmappedChunks s) with
      | Some m => mm_maxTime m
      | None => MinInt64
      end
  end.

(** [None] is the panic when the IDs of the chunks would no longer differ. *)
Definition pushHeadChunk (chk : memChunk C) (s : memSeries) : option memSeries :=
  if oooChunkIDMask - 1 <=? Z.of_nat (length (mmappedChunks s)) + headChunkCount s then None
  else Some (setHeadChunks (chk :: headChunks s) (u32 (headChunkCount s + 1)) s).

Fixpoint collect_loop (elem hc : list (memChunk C)) : list (memChunk C) :=
  match elem with [] => hc | c :: prev => collect_loop prev (hc ++ [c]) end.

Definition collectHeadChunks (head : list (memChunk C)) : list (memChunk C) := reverse (collect_loop head []).

(** ** m-mapping *)

Context `{!ChunkMeta C} `{!DiskMapper D C}.

Fixpoint write_loop (sref : Z) (hc : list (memChunk C)) (d : D) (mm : list mmappedChunk) (count : Z)
  : D * list mmappedChunk * Z :=
  match hc with
  | [] => (d, mm, count)
  | chk :: rest =>
      let '(d, chunkRef) := WriteChunk d sref (mc_minTime chk) (mc_maxTime chk) (mc_chunk chk) false in
      let m := mk_mmappedChunk chunkRef (u16 (chunk_NumSamples (mc_chunk chk))) (chunk_Encoding (mc_chunk chk))
                 (mc_minTime chk) (mc_maxTime chk) in
      write_loop sref rest d (mm ++ [m]) (count + 1)
  end.

(** The result is the mapper, the series and how many chunks were m-mapped. *)
Definition mmapChunks (d : D) (s : memSeries) : D * memSeries * Z :=
  match headChunks s with
  | [] | [_] => (d, s, 0)
  | newest :: _ =>
      let hc := collectHeadChunks (headChunks s) in
      let '(d, mm, count) := write_loop (ser_ref s) (take (length hc - 1) hc) d (mmappedChunks s) 0 in
      (d, setHeadChunks [newest] 1 (set_mmapped mm s), count)
  end.

(** ** Truncation *)

(** The walk from the newest chunk: how many chunks come before the first one
    whose samples are all older than mint. *)
Fixpoint find_old (mint : Z) (chk : list (memChunk C)) (i : nat) : option nat :=
  match chk with
  | [] => None
  | c :: prev => if mc_maxTime c <? mint then Some i else find_old mint prev (i + 1)
  end.

(** How many of the leading chunks satisfy [old]. *)
Fixpoint count_old (old : mmappedChunk -> bool) (l : list mmappedChunk) (i removed : nat) : nat :=
  match l with
  | [] => removed
  | c :: l => if old c then count_old old l (i + 1) (i + 1) else removed
  end.

Definition truncate_ooo (minOOOMmapRef : Z) (s : memSeries) : memSeries * nat :=
  match ooo s with
  | Some o =>
      match oooMmappedChunks o with
      | [] => (s, 0%nat)
      | l =>
          let removed := count_old (fun c => negb (GreaterThan (mm_ref c) minOOOMmapRef)) l 0 0 in
          let o := mk_memSeriesOOOFields (drop removed l) (oooHead o)
                     (wrapChunkID (u64 (firstOOOChunkID o + Z.of_nat removed))) in
          let gone := (length (oooMmappedChunks o) =? 0)%nat && bool_decide (oooHead o = None) in
          (set_ooo (if gone then None else Some o) s, removed)
      end
  | None => (s, 0%nat)
  end.

(** The in-order part: the head chunks first, which take all m-mapped chunks
    with them, else the m-mapped chunks. *)
Definition truncate_head (mint : Z) (s : memSeries) : memSeries * nat :=
  match find_old mint (headChunks s) 0 with
  | None => (s, 0%nat)
  | Some i =>
      let removed := (Z.to_nat (memChunk_len (drop i (headChunks s))) + length (mmappedChunks s))%nat in
      let s := set_firstChunkID (wrapChunkID (u64 (firstChunkID s + Z.of_nat removed))) s in
      let s := if (i =? 0)%nat then setHeadChunks [] 0 s
               else setHeadChunks (take i (headChunks s)) (Z.of_nat i) s in
      (set_mmapped [] s, removed)
  end.

Definition truncate_mmapped (mint : Z) (s : memSeries) (removedInOrder : nat) : memSeries * nat :=
  if (length (mmappedChunks s) =? 0)%nat then (s, removedInOrder)
  else
    let removed := count_old (fun c => mm_maxTime c <? mint) (mmappedChunks s) 0 removedInOrder in
    let s := set_mmapped (drop removed (mmappedChunks s)) s in
    (set_firstChunkID (wrapChunkID (u64 (firstChunkID s + Z.of_nat removed))) s, removed).

Definition truncateChunksBefore (mint minOOOMmapRef : Z) (s : memSeries) : memSeries * Z :=
  let '(s, removedInOrder) := truncate_head mint s in
  let '(s, removedInOrder) := truncate_mmapped mint s removedInOrder in
  let '(s, removedOOO) := truncate_ooo minOOOMmapRef s in
  (s, Z.of_nat (removedInOrder + removedOOO)).

Definition series_cleanupAppendIDsBelow (bound : Z) (s : memSeries) : memSeries :=
  match txs s with
  | None => s
  | Some x => set_txs (Some (cleanupAppendIDsBelow x bound)) s
  end.

(** ** Finding chunks *)

Definition headChunkID (pos : nat) (s : memSeries) : Z := wrapChunkID (u64 (Z.of_nat pos + firstChunkID s)).

Definition oooHeadChunkID (pos : nat) (o : memSeriesOOOFields) : Z :=
  Z.lor (wrapChunkID (u64 (Z.of_nat pos + firstOOOChunkID o))) oooChunkIDMask.

(** [ReadError] is an error of the disk mapper. *)
Inductive lookup :=
  | Found (chunk : memChunk C) (headChunk isOpen : bool)
  | NotFound
  | ReadError.

(** [for range offset { if elem == nil { break }; elem = elem.prev }]. *)
Fixpoint walk (offset : nat) (elem : list (memChunk C)) : list (memChunk C) :=
  match offset, elem with
  | O, _ => elem
  | _, [] => []
  | S offset, _ :: prev => walk offset prev
  end.

(** The method chunk; [hc] is the pre-collected slice or nil. *)
Definition series_chunk (id : Z) (d : D) (hc : option (list (memChunk C))) (s : memSeries) : lookup :=
  let ix := Z.to_nat (wrapChunkID (u64 (id - firstChunkID s))) in
  match mmappedChunks s !! ix with
  | Some m =>
      match Chunk d (mm_ref m) with
      | None => ReadError
      | Some chk => Found (mk_memChunk chk (mm_minTime m) (mm_maxTime m)) false false
      end
  | None =>
      let ix := (ix - length (mmappedChunks s))%nat in
      match hc with
      | Some headChunks =>
          match headChunks !! ix with
          | None => NotFound
          | Some c => Found c true (ix =? length headChunks - 1)%nat
          end
      | None =>
          let headChunksLen := headChunkCount s in
          if headChunksLen <=? Z.of_nat ix then NotFound
          else
            let offset := Z.to_nat (headChunksLen - Z.of_nat ix - 1) in
            match walk offset (headChunks s) with
            | [] => NotFound
            | elem :: _ => Found elem true (offset =? 0)%nat
            end
      end
  end.

(** The method oooChunk, with the maximum time of the chunk. *)
Definition oooChunk (id : Z) (d : D) (o : memSeriesOOOFields) : option (option C * Z) :=
  let ix := Z.to_nat (wrapChunkID (u64 (id - firstOOOChunkID o))) in
  match oooMmappedChunks o !! ix with
  | None => None
  | Some m => Some (Chunk d (mm_ref m), mm_maxTime m)
  end.

Record Meta := mk_Meta { Ref : Z; MinTime : Z; MaxTime : Z }.

(** The entry of the chunk at position [pos]; [None] is the panic of
    NewHeadChunkRef. *)
Definition meta_at (s : memSeries) (pos : nat) (lo hi : Z) : option Meta :=
  r ← NewHeadChunkRef (ser_ref s) (headChunkID pos s); Some (mk_Meta r lo hi).

Fixpoint mmapped_metas (s : memSeries) (mint maxt : Z) (l : list mmappedChunk) (i : nat) (chks : list Meta)
  : option (list Meta) :=
  match l with
  | [] => Some chks
  | c :: l =>
      if negb (overlapsClosedInterval (mm_minTime c) (mm_maxTime c) mint maxt) then mmapped_metas s mint maxt l (i + 1) chks
      else m ← meta_at s i (mm_minTime c) (mm_maxTime c); mmapped_metas s mint maxt l (i + 1) (chks ++ [m])
  end.

Fixpoint head_metas (s : memSeries) (mint maxt : Z) (n : nat) (l : list (memChunk C)) (i : nat) (chks : list Meta)
  : option (list Meta) :=
  match l with
  | [] => Some chks
  | chk :: l =>
      let maxTime := if (i =? n - 1)%nat then MaxInt64 else mc_maxTime chk in
      if negb (overlapsClosedInterval (mc_minTime chk) (mc_maxTime chk) mint maxt) then head_metas s mint maxt n l (i + 1) chks
      else
        m ← meta_at s (length (mmappedChunks s) + i) (mc_minTime chk) maxTime;
        head_metas s mint maxt n l (i + 1) (chks ++ [m])
  end.

Definition appendSeriesChunks (s : memSeries) (mint maxt : Z) (chks : list Meta) : option (list Meta) :=
  chks ← mmapped_metas s mint maxt (mmappedChunks s) 0 chks;
  match headChunks s with
  | [] => Some chks
  | [c] =>
      if overlapsClosedInterval (mc_minTime c) (mc_maxTime c) mint maxt then
        m ← meta_at s (length (mmappedChunks s)) (mc_minTime c) MaxInt64; Some (chks ++ [m])
      else Some chks
  | l => let hc := collectHeadChunks l in head_metas s mint maxt (length hc) hc 0 chks
  end.

(** ** The chunks as a reader sees them *)

(** Every in-order chunk, oldest first: its data, if it can be read, and its
    time range. *)
Definition mmapped_view (d : D) (m : mmappedChunk) : option C * Z * Z := (Chunk d (mm_ref m), mm_minTime m, mm_maxTime m).
Definition head_view (c : memChunk C) : option C * Z * Z := (Some (mc_chunk c), mc_minTime c, mc_maxTime c).

Definition view (d : D) (s : memSeries) : list (option C * Z * Z) :=
  map (mmapped_view d) (mmappedChunks s) ++ map head_view (reverse (headChunks s)).

(** What pushHeadChunk and setHeadChunks keep. *)
Record counts_ok (s : memSeries) : Prop := {
  count_is_length : headChunkCount s = Z.of_nat (length (headChunks s));
  first_range : 0 <= firstChunkID s < oooChunkIDMask;
  few_chunks : Z.of_nat (length (mmappedChunks s) + length (headChunks s)) < oooChunkIDMask }.

(** What looking up the chunk at a position should give. *)
Definition lookup_view (d : D) (s : memSeries) (pos : nat) : lookup :=
  let is_head := (length (mmappedChunks s) <=? pos)%nat in
  match view d s !! pos with
  | None => NotFound
  | Some (None, _, _) => ReadError
  | Some (Some c, lo, hi) => Found (mk_memChunk c lo hi) is_head (is_head && (S pos =? length (view d s))%nat)
  end.

Lemma u64_mod_23 z : u64 z mod 2 ^ 23 = z mod 2 ^ 23.
Proof. symmetry. apply Znumtheory.Zmod_div_mod; [lia..|]. by exists (2 ^ 41). Qed.

Lemma headChunkID_pos pos s :
  Z.of_nat pos < oooChunkIDMask -> wrapChunkID (u64 (headChunkID pos s - firstChunkID s)) = Z.of_nat pos.
Proof.
  intros Hp. change oooChunkIDMask with (2 ^ 23) in Hp. unfold headChunkID.
  rewrite !wrapChunkID_mod, !u64_mod_23, Zminus_mod_idemp_l.
  replace (Z.of_nat pos + firstChunkID s - firstChunkID s) with (Z.of_nat pos) by lia. apply Z.mod_small. lia.
Qed.

Lemma collect_loop_app elem : forall hc, collect_loop elem hc = hc ++ elem.
Proof.
  induction elem as [|c elem IH]; intros hc; cbn; [by rewrite app_nil_r|]. by rewrite IH, <-app_assoc.
Qed.

Lemma collectHeadChunks_reverse head : collectHeadChunks head = reverse head.
Proof. unfold collectHeadChunks. by rewrite collect_loop_app. Qed.

Lemma walk_drop n : forall elem, walk n elem = drop n elem.
Proof. induction n as [|n IH]; intros [|c elem]; cbn; [done..|apply IH]. Qed.

Lemma length_view d s : length (view d s) = (length (mmappedChunks s) + length (headChunks s))%nat.
Proof. unfold view. by rewrite length_app, !length_map, length_reverse. Qed.

Lemma view_mmapped d s i : (i < length (mmappedChunks s))%nat -> view d s !! i = mmapped_view d <$> mmappedChunks s !! i.
Proof.
  intros Hi. unfold view. rewrite lookup_app_l by (by rewrite length_map). apply list_lookup_fmap.
Qed.

Lemma view_head d s i : (length (mmappedChunks s) <= i)%nat ->
  view d s !! i = head_view <$> reverse (headChunks s) !! (i - length (mmappedChunks s))%nat.
Proof.
  intros Hi. unfold view. rewrite lookup_app_r, length_map by (by rewrite length_map). apply list_lookup_fmap.
Qed.

(** The head part of the lookup, from the collected slice or by walking. *)
Lemma head_lookup s i (hc : option (list (memChunk C))) :
  headChunkCount s = Z.of_nat (length (headChunks s)) -> hc = None \/ hc = Some (collectHeadChunks (headChunks s)) ->
  match hc with
  | Some headChunks =>
      match headChunks !! i with
      | None => NotFound
      | Some c => Found c true (i =? length headChunks - 1)%nat
      end
  | None =>
      let headChunksLen := headChunkCount s in
      if headChunksLen <=? Z.of_nat i then NotFound
      else
        let offset := Z.to_nat (headChunksLen - Z.of_nat i - 1) in
        match walk offset (headChunks s) with
        | [] => NotFound
        | elem :: _ => Found elem true (offset =? 0)%nat
        end
  end = match reverse (headChunks s) !! i with
        | None => NotFound
        | Some c => Found c true (S i =? length (headChunks s))%nat
        end.
Proof.
  intros Hc [->| ->]; cbn zeta.
  - rewrite Hc. destruct (Z.leb_spec (Z.of_nat (length (headChunks s))) (Z.of_nat i)).
    { by rewrite lookup_ge_None_2 by (rewrite length_reverse; lia). }
    rewrite walk_drop, reverse_lookup by lia.
    replace (Z.to_nat (Z.of_nat (length (headChunks s)) - Z.of_nat i - 1)) with (length (headChunks s) - S i)%nat by lia.
    destruct (lookup_lt_is_Some_2 (headChunks s) (length (headChunks s) - S i)) as [c Ec]; [lia|].
    rewrite Ec, (drop_S _ _ _ Ec). f_equal. apply eq_true_iff_eq. rewrite ?Nat.eqb_eq. lia.
  - rewrite collectHeadChunks_reverse. destruct (reverse (headChunks s) !! i) eqn:E; [|done].
    apply lookup_lt_Some in E. rewrite length_reverse in *. f_equal. apply eq_true_iff_eq. rewrite ?Nat.eqb_eq. lia.
Qed.

Lemma series_chunk_view d s pos hc :
  counts_ok s -> Z.of_nat pos < oooChunkIDMask -> hc = None \/ hc = Some (collectHeadChunks (headChunks s)) ->
  series_chunk (headChunkID pos s) d hc s = lookup_view d s pos.
Proof.
  intros [Hc _ _] Hp Hhc. unfold series_chunk, lookup_view. cbn zeta. rewrite headChunkID_pos, Nat2Z.id by done.
  destruct (mmappedChunks s !! pos) as [m|] eqn:Em.
  - apply lookup_lt_Some in Em as Hl. rewrite view_mmapped, Em by done. cbn [fmap option_fmap option_map mmapped_view].
    rewrite (proj2 (Nat.leb_gt _ _)) by done. by destruct (Chunk d (mm_ref m)).
  - apply lookup_ge_None in Em. rewrite (head_lookup s _ hc Hc Hhc), view_head, length_view by done.
    rewrite (proj2 (Nat.leb_le _ _)) by done. destruct (reverse (headChunks s) !! _) as [c|] eqn:E; [|done].
    cbn [fmap option_fmap option_map head_view andb]. destruct c. f_equal. apply eq_true_iff_eq. rewrite ?Nat.eqb_eq. lia.
Qed.

(** ** m-mapping *)

Definition readable (d : D) (s : memSeries) : Prop :=
  Forall (fun m => is_Some (Chunk d (mm_ref m))) (mmappedChunks s).

Section Mmap.
  Context `{!DiskMapperLaws D C}.

Lemma mmapped_view_keeps d sref lo hi c o l :
  Forall (fun m => is_Some (Chunk d (mm_ref m))) l ->
  Forall (fun m => is_Some (Chunk (WriteChunk d sref lo hi c o).1 (mm_ref m))) l /\
  map (mmapped_view (WriteChunk d sref lo hi c o).1) l = map (mmapped_view d) l.
Proof.
  induction 1 as [|m l [c' Hc] _ [IH1 IH2]]; cbn [map]; [done|].
  pose proof (write_keeps d sref lo hi c o _ _ Hc) as Hc'. split.
  - constructor; [by exists c'|done].
  - rewrite IH2. unfold mmapped_view. by rewrite Hc, Hc'.
Qed.

(** The loop of mmapChunks writes the chunks it is given in order, and leaves
    what was on disk as it was. *)
Lemma write_loop_spec sref hc : forall d mm count,
  Forall (fun m => is_Some (Chunk d (mm_ref m))) mm ->
  let '(d', mm', count') := write_loop sref hc d mm count in
  Forall (fun m => is_Some (Chunk d' (mm_ref m))) mm' /\
  map (mmapped_view d') mm' = map (mmapped_view d) mm ++ map head_view hc /\
  count' = count + Z.of_nat (length hc).
Proof.
  induction hc as [|chk hc IH]; intros d mm count Hr; cbn [write_loop].
  { split_and!; [done| |cbn; lia]. by rewrite app_nil_r. }
  pose proof (write_read d sref (mc_minTime chk) (mc_maxTime chk) (mc_chunk chk) false) as Hw.
  destruct (mmapped_view_keeps d sref (mc_minTime chk) (mc_maxTime chk) (mc_chunk chk) false mm Hr) as [Hr' Hv].
  destruct (WriteChunk _ _ _ _ _ _) as [d1 r]. cbn [fst snd] in *.
  specialize (IH d1 (mm ++ [mk_mmappedChunk r (u16 (chunk_NumSamples (mc_chunk chk))) (chunk_Encoding (mc_chunk chk))
                              (mc_minTime chk) (mc_maxTime chk)]) (count + 1)).
  destruct (write_loop _ _ _ _ _) as [[d' mm'] count']. destruct IH as (H1 & H2 & H3).
  { apply Forall_app. split; [done|]. apply Forall_singleton. by eexists. }
  split_and!; [done| |rewrite H3; cbn [length]; lia].
  rewrite H2, map_app, Hv, <-app_assoc. cbn [map app]. unfold mmapped_view at 2, head_view at 2. cbn. by rewrite Hw.
Qed.

Lemma write_loop_keeps sref hc : forall d mm count r c,
  Chunk d r = Some c -> Chunk (write_loop sref hc d mm count).1.1 r = Some c.
Proof.
  induction hc as [|chk hc IH]; intros d mm count r c Hr; cbn [write_loop]; [done|].
  pose proof (write_keeps d sref (mc_minTime chk) (mc_maxTime chk) (mc_chunk chk) false r c Hr) as Hk.
  destruct (WriteChunk _ _ _ _ _ _) as [d1 r1]. by apply IH.
Qed.

(** What a reader saw stays when the mapper has more chunks. *)
Lemma view_keeps d d' s :
  readable d s -> (forall r c, Chunk d r = Some c -> Chunk d' r = Some c) -> readable d' s /\ view d' s = view d s.
Proof.
  intros Hr Hk. unfold view, readable in *. split.
  - eapply Forall_impl; [exact Hr|]. intros m [c Hc]. exists c. by apply Hk.
  - f_equal. apply map_ext_in. intros m Hm%list_elem_of_In. rewrite Forall_forall in Hr. destruct (Hr m Hm) as [c Hc].
    unfold mmapped_view. by rewrite Hc, (Hk _ _ Hc).
Qed.

(** m-mapping loses nothing: mmapChunks leaves at most the newest head chunk in
    memory and moves all others to disk; a reader sees the same chunks with the
    same data and time ranges at the same positions, and their IDs do not change;
    it returns how many chunks were moved, and what was on disk stays. *)
Lemma mmapChunks_spec d s :
  counts_ok s -> readable d s ->
  let '(d', s', count) := mmapChunks d s in
  view d' s' = view d s /\ (forall pos, headChunkID pos s' = headChunkID pos s) /\
  headChunks s' = take 1 (headChunks s) /\
  counts_ok s' /\ readable d' s' /\
  count = Z.of_nat (length (headChunks s) - 1) /\
  (forall r c, Chunk d r = Some c -> Chunk d' r = Some c).
Proof.
  intros Hok Hr. pose proof Hok as [Hc Hf Hn]. unfold mmapChunks.
  destruct (headChunks s) as [|c0 [|c1 l]] eqn:Eh; [by split_and!|by split_and!|].
  rewrite collectHeadChunks_reverse, length_reverse. cbn zeta.
  assert (Et : take (length (c0 :: c1 :: l) - 1) (reverse (c0 :: c1 :: l)) = reverse (c1 :: l)).
  { rewrite reverse_cons. replace (length (c0 :: c1 :: l) - 1)%nat with (length (reverse (c1 :: l)))
      by (rewrite length_reverse; cbn; lia). apply take_app_length. }
  rewrite Et. pose proof (write_loop_spec (ser_ref s) (reverse (c1 :: l)) d (mmappedChunks s) 0 Hr) as Hw.
  pose proof (write_loop_keeps (ser_ref s) (reverse (c1 :: l)) d (mmappedChunks s) 0) as Hk.
  destruct (write_loop _ _ _ _ _) as [[d' mm'] count']. destruct Hw as (H1 & H2 & H3).
  assert (Hl : length mm' = (length (mmappedChunks s) + length (c1 :: l))%nat).
  { apply (f_equal length) in H2. by rewrite length_app, !length_map, length_reverse in H2. }
  split_and!; try done.
  - unfold view. cbn [mmappedChunks headChunks setHeadChunks set_mmapped]. rewrite H2, Eh, (reverse_cons (c1 :: l) c0), map_app.
    by rewrite <-app_assoc.
  - split; cbn [headChunkCount headChunks firstChunkID mmappedChunks setHeadChunks set_mmapped]; [done|done|].
    rewrite Hl. cbn [length] in *. lia.
  - rewrite H3, length_reverse. cbn [length]. lia.
Qed.

End Mmap.

(** ** Truncation *)

Definition too_old (mint : Z) (v : option C * Z * Z) : Prop := v.2 < mint.

(** The maximum times do not decrease from one chunk to the next. *)
Definition times_ordered (d : D) (s : memSeries) : Prop := StronglySorted (fun a b => a.2 <= b.2) (view d s).

Lemma find_old_spec mint l : forall i,
  match find_old mint l i with
  | Some j => exists n c, j = (i + n)%nat /\ l !! n = Some c /\ mc_maxTime c < mint /\
                Forall (fun c => mint <= mc_maxTime c) (take n l)
  | None => Forall (fun c => mint <= mc_maxTime c) l
  end.
Proof.
  induction l as [|c l IH]; intros i; cbn [find_old]; [constructor|].
  destruct (Z.ltb_spec (mc_maxTime c) mint) as [Hlt|Hge].
  { exists 0%nat, c. split_and!; [lia|done|done|constructor]. }
  specialize (IH (i + 1)%nat). destruct (find_old mint l (i + 1)) as [j|]; [|by constructor].
  destruct IH as (n & c' & -> & Hc & Hlt & Hall). exists (S n), c'. split_and!; [lia|done|done|by constructor].
Qed.

Lemma count_old_spec old l : forall i,
  exists n, count_old old l i i = (i + n)%nat /\ (n <= length l)%nat /\
    Forall (fun c => old c = true) (take n l) /\ (forall c, head (drop n l) = Some c -> old c = false).
Proof.
  induction l as [|c l IH]; intros i; cbn [count_old].
  { exists 0%nat. split_and!; [lia|done|constructor|done]. }
  destruct (old c) eqn:Eo.
  - destruct (IH (i + 1)%nat) as (n & -> & Hn & Hall & Hd). exists (S n). split_and!; [lia|cbn; lia|by constructor|done].
  - exists 0%nat. split_and!; [lia|lia|constructor|]. by intros ? [= <-].
Qed.

Lemma memChunk_len_length l : memChunk_len l = Z.of_nat (length l).
Proof. induction l as [|c l IH]; [done|]. cbn [memChunk_len length]. lia. Qed.

Lemma snd_view d l : map (fun v : option C * Z * Z => v.2) (map (mmapped_view d) l) = map mm_maxTime l.
Proof. rewrite map_map. by apply map_ext. Qed.

Lemma ordered_all_old mint (l : list (option C * Z * Z)) v :
  StronglySorted (fun a b => a.2 <= b.2) (l ++ [v]) -> v.2 < mint -> Forall (too_old mint) (l ++ [v]).
Proof.
  intros (Hlv & _)%StronglySorted_app Hv. apply Forall_app. split; [|by apply Forall_singleton].
  apply Forall_forall. intros x Hx. unfold too_old. specialize (Hlv x v Hx ltac:(by apply list_elem_of_singleton)). lia.
Qed.

Lemma ordered_all_new mint (l : list (option C * Z * Z)) :
  StronglySorted (fun a b => a.2 <= b.2) l -> (forall v, head l = Some v -> mint <= v.2) -> Forall (fun v => mint <= v.2) l.
Proof.
  intros Hs Hh. destruct l as [|v l]; [constructor|]. apply StronglySorted_inv in Hs as [_ Hl].
  specialize (Hh v eq_refl). constructor; [done|]. eapply Forall_impl; [exact Hl|]. cbv beta. lia.
Qed.

Lemma wrap_range id : 0 <= wrapChunkID id < oooChunkIDMask.
Proof. rewrite wrapChunkID_mod. by apply Z.mod_pos_bound. Qed.

(** What dropping the [k] oldest chunks of [s] gives. *)
Record dropped (d : D) (mint : Z) (s s' : memSeries) (k : nat) : Prop := {
  dropped_view : view d s' = drop k (view d s);
  dropped_old : Forall (too_old mint) (take k (view d s));
  dropped_new : Forall (fun v => mint <= v.2) (view d s');
  dropped_counts : counts_ok s';
  dropped_first : firstChunkID s' = wrapChunkID (u64 (firstChunkID s + Z.of_nat k));
  dropped_ooo : ooo s' = ooo s }.

Lemma truncate_head_some d mint s i c :
  counts_ok s -> times_ordered d s ->
  find_old mint (headChunks s) 0 = Some i -> headChunks s !! i = Some c -> mc_maxTime c < mint ->
  Forall (fun c => mint <= mc_maxTime c) (take i (headChunks s)) ->
  dropped d mint s (truncate_head mint s).1 (truncate_head mint s).2 /\
  mmappedChunks (truncate_head mint s).1 = [].
Proof.
  intros [Hc Hf Hn] Ho Ei Hi Hlt Hnew. unfold truncate_head. rewrite Ei. cbn zeta.
  rewrite memChunk_len_length, Nat2Z.id. cbn [fst snd]. split; [|done].
  assert (Ev : view d s = (map (mmapped_view d) (mmappedChunks s) ++ map head_view (reverse (drop (S i) (headChunks s)))
                             ++ [head_view c]) ++ map head_view (reverse (take i (headChunks s)))).
  { unfold view. rewrite <-(take_drop_middle _ _ _ Hi) at 1. rewrite reverse_app, reverse_cons, !map_app.
    by rewrite <-!app_assoc. }
  assert (Ek : length (map (mmapped_view d) (mmappedChunks s) ++ map head_view (reverse (drop (S i) (headChunks s)))
                             ++ [head_view c]) = (length (drop i (headChunks s)) + length (mmappedChunks s))%nat).
  { rewrite (drop_S _ _ _ Hi), !length_app, !length_map, length_reverse. cbn. lia. }
  assert (Ev' : forall s', mmappedChunks s' = [] -> headChunks s' = take i (headChunks s) ->
                           view d s' = map head_view (reverse (take i (headChunks s)))).
  { intros s' E1 E2. unfold view. by rewrite E1, E2. }
  apply lookup_lt_Some in Hi as Hil.
  set (s' := set_mmapped [] _).
  assert (E1 : mmappedChunks s' = []) by done.
  assert (E2 : headChunks s' = take i (headChunks s)) by (unfold s'; by destruct i).
  assert (E3 : headChunkCount s' = Z.of_nat i) by (unfold s'; by destruct i).
  specialize (Ev' s' E1 E2). split.
  - rewrite Ev', Ev, <-Ek. symmetry. apply drop_app_length.
  - rewrite Ev, <-Ek, take_app_length, app_assoc. unfold times_ordered in Ho. rewrite Ev in Ho.
    apply StronglySorted_app in Ho as (_ & Ho & _). rewrite app_assoc in Ho. by apply ordered_all_old.
  - rewrite Ev'. by apply Forall_map, Forall_reverse.
  - split; [|unfold s'; destruct (i =? 0)%nat; apply wrap_range|].
    + rewrite E2, E3, length_take. lia.
    + rewrite E1, E2, length_take. cbn [length]. lia.
  - unfold s'. by destruct (i =? 0)%nat.
  - unfold s'. by destruct (i =? 0)%nat.
Qed.

Lemma truncate_mmapped_spec d mint s :
  counts_ok s -> times_ordered d s -> Forall (fun c => mint <= mc_maxTime c) (headChunks s) ->
  dropped d mint s (truncate_mmapped mint s 0).1 (truncate_mmapped mint s 0).2.
Proof.
  intros Hok Ho Hnew. pose proof Hok as [Hc Hf Hn].
  assert (Hhead : Forall (fun v => mint <= v.2) (map head_view (reverse (headChunks s)))).
  { by apply Forall_map, Forall_reverse. }
  unfold truncate_mmapped. destruct (Nat.eqb_spec (length (mmappedChunks s)) 0) as [E0|_].
  { apply nil_length_inv in E0. cbn [fst snd]. split; try done.
    - unfold view. by rewrite E0.
    - rewrite Z.add_0_r, wrapChunkID_mod, u64_mod_23. symmetry. apply Z.mod_small. done. }
  destruct (count_old_spec (fun c => mm_maxTime c <? mint) (mmappedChunks s) 0) as (n & -> & Hnl & Hold & Hd).
  cbn [fst snd Nat.add].
  assert (Ev : view d s = map (mmapped_view d) (take n (mmappedChunks s)) ++
                 (map (mmapped_view d) (drop n (mmappedChunks s)) ++ map head_view (reverse (headChunks s)))).
  { unfold view. by rewrite app_assoc, <-map_app, take_drop. }
  assert (Hl : length (map (mmapped_view d) (take n (mmappedChunks s))) = n) by (rewrite length_map, length_take; lia).
  unfold times_ordered in Ho. rewrite Ev in Ho. apply StronglySorted_app in Ho as (_ & _ & Ho).
  split.
  - by rewrite Ev, drop_app_length'.
  - rewrite Ev, take_app_length' by done. apply Forall_map. eapply Forall_impl; [exact Hold|].
    intros m Hm%Z.ltb_lt. exact Hm.
  - unfold view. cbn [mmappedChunks headChunks set_mmapped set_firstChunkID].
    apply Forall_app. split; [|done]. apply StronglySorted_app in Ho as (_ & Ho & _). apply ordered_all_new; [done|].
    intros v Hv. destruct (drop n (mmappedChunks s)) as [|m r]; [done|]. injection Hv as <-.
    specialize (Hd m eq_refl). cbn. lia.
  - split; cbn [mmappedChunks headChunks headChunkCount firstChunkID set_mmapped set_firstChunkID];
      [done|apply wrap_range|rewrite length_drop; lia].
  - done.
  - done.
Qed.

(** The IDs of the chunks that stay. *)
Lemma dropped_ids d mint s s' k pos :
  dropped d mint s s' k -> headChunkID pos s' = headChunkID (k + pos) s.
Proof.
  intros [_ _ _ _ Hf _]. unfold headChunkID. rewrite Hf, !wrapChunkID_mod, !u64_mod_23, Zplus_mod_idemp_r. f_equal. lia.
Qed.

(** The out-of-order part drops the leading chunks whose references are not
    above the given one, and forgets the structure when nothing is left. *)
Lemma truncate_ooo_spec r s :
  let '(s', k) := truncate_ooo r s in
  mmappedChunks s' = mmappedChunks s /\ headChunks s' = headChunks s /\ firstChunkID s' = firstChunkID s /\
  headChunkCount s' = headChunkCount s /\
  match ooo s with
  | None => s' = s /\ k = 0%nat
  | Some o =>
      (k <= length (oooMmappedChunks o))%nat /\
      Forall (fun c => GreaterThan (mm_ref c) r = false) (take k (oooMmappedChunks o)) /\
      (forall c, head (drop k (oooMmappedChunks o)) = Some c -> GreaterThan (mm_ref c) r = true) /\
      match ooo s' with
      | Some o' =>
          oooMmappedChunks o' = drop k (oooMmappedChunks o) /\ oooHead o' = oooHead o /\
          (forall pos, oooHeadChunkID pos o' = oooHeadChunkID (k + pos) o)
      | None => k = length (oooMmappedChunks o) /\ oooHead o = None
      end
  end.
Proof.
  unfold truncate_ooo. destruct (ooo s) as [o|] eqn:Eo; [|done].
  destruct (oooMmappedChunks o) as [|m0 l0] eqn:El.
  { rewrite Eo. cbn. rewrite El. by split_and!. }
  destruct (count_old_spec (fun c => negb (GreaterThan (mm_ref c) r)) (m0 :: l0) 0) as (n & -> & Hn & Hold & Hd).
  cbn [Nat.add mmappedChunks headChunks firstChunkID headChunkCount ooo set_ooo oooMmappedChunks oooHead].
  split_and!; try done.
  { eapply Forall_impl; [exact Hold|]. by intros c ?%negb_true_iff. }
  { intros c Hc. by apply negb_false_iff, Hd. }
  assert (Hid : forall l h pos,
    oooHeadChunkID pos (mk_memSeriesOOOFields l h (wrapChunkID (u64 (firstOOOChunkID o + Z.of_nat n))))
      = oooHeadChunkID (n + pos) o).
  { intros l h pos. unfold oooHeadChunkID. cbn [firstOOOChunkID]. f_equal.
    rewrite !wrapChunkID_mod, !u64_mod_23, Zplus_mod_idemp_r. f_equal. lia. }
  destruct (Nat.eqb_spec (length (drop n (m0 :: l0))) 0) as [E0|_]; cbn [andb]; [|done].
  rewrite length_drop in E0. case_bool_decide as Eh; [|done]. split; [cbn in *; lia|done].
Qed.

Lemma truncate_in_order d mint s :
  counts_ok s -> times_ordered d s ->
  let '(s1, k1) := truncate_head mint s in
  let '(s', k) := truncate_mmapped mint s1 k1 in
  dropped d mint s s' k.
Proof.
  intros Hok Ho. pose proof (find_old_spec mint (headChunks s) 0) as Hf.
  destruct (find_old mint (headChunks s) 0) as [j|] eqn:Ej.
  - destruct Hf as (n & c & -> & Hc & Hlt & Hall).
    destruct (truncate_head_some d mint s n c Hok Ho Ej Hc Hlt Hall) as [Hd Hm].
    destruct (truncate_head mint s) as [s1 k1]. cbn [fst snd] in *. unfold truncate_mmapped. by rewrite Hm.
  - unfold truncate_head. rewrite Ej. pose proof (truncate_mmapped_spec d mint s Hok Ho Hf) as Hd.
    by destruct (truncate_mmapped mint s 0).
Qed.

(** C32: truncation drops exactly the chunks that end before mint.  On a series
    whose chunks are in time order, truncateChunksBefore removes the [k] oldest
    in-order chunks, all of which end before mint; all others end at mint or
    later, and stay readable with unchanged IDs. *)
Theorem truncateChunksBefore_spec d mint r s :
  counts_ok s -> times_ordered d s ->
  let '(s', n) := truncateChunksBefore mint r s in
  exists k, Z.of_nat k <= n /\ counts_ok s' /\
    Forall (too_old mint) (take k (view d s)) /\ Forall (fun v => mint <= v.2) (drop k (view d s)) /\
    view d s' = drop k (view d s) /\
    (forall pos hc, Z.of_nat (k + pos) < oooChunkIDMask -> hc = None \/ hc = Some (collectHeadChunks (headChunks s')) ->
       series_chunk (headChunkID (k + pos) s) d hc s' = lookup_view d s' pos).
Proof.
  intros Hok Ho. unfold truncateChunksBefore. pose proof (truncate_in_order d mint s Hok Ho) as Hd.
  destruct (truncate_head mint s) as [s1 k1]. destruct (truncate_mmapped mint s1 k1) as [s2 k].
  pose proof (truncate_ooo_spec r s2) as Hooo. destruct (truncate_ooo r s2) as [s' k'].
  destruct Hooo as (E1 & E2 & E3 & E4 & _). pose proof Hd as [Hv Hold Hnew Hc Hf _].
  assert (Hv' : view d s' = view d s2) by (unfold view; by rewrite E1, E2).
  assert (Hc' : counts_ok s') by (destruct Hc; by constructor; rewrite ?E1, ?E2, ?E3, ?E4).
  exists k. split_and!; [lia|done|done|by rewrite <-Hv|by rewrite Hv'|].
  intros pos hc Hp Hhc. rewrite <-(dropped_ids _ _ _ _ _ _ Hd).
  replace (headChunkID pos s2) with (headChunkID pos s') by (unfold headChunkID; by rewrite E3).
  apply series_chunk_view; [done|lia|done].
Qed.

(** ** The chunk list of a query *)

Definition pos_overlaps (d : D) (mint maxt : Z) (s : memSeries) (pos : nat) : bool :=
  match view d s !! pos with
  | Some (_, lo, hi) => overlapsClosedInterval lo hi mint maxt
  | None => false
  end.

(** The newest head chunk is open: it has no maximum time yet. *)
Definition pos_meta (d : D) (s : memSeries) (pos : nat) : Meta :=
  let open := (length (mmappedChunks s) <=? pos)%nat && (S pos =? length (view d s))%nat in
  match view d s !! pos with
  | Some (_, lo, hi) =>
      mk_Meta (Z.lor (u64 (Z.shiftl (ser_ref s) 24)) (headChunkID pos s)) lo (if open then MaxInt64 else hi)
  | None => mk_Meta 0 0 0
  end.

Lemma meta_at_some s pos lo hi :
  0 <= ser_ref s < 2 ^ 40 ->
  meta_at s pos lo hi = Some (mk_Meta (Z.lor (u64 (Z.shiftl (ser_ref s) 24)) (headChunkID pos s)) lo hi).
Proof.
  intros Hr. unfold meta_at, NewHeadChunkRef. rewrite (proj2 (Z.ltb_ge _ _)) by (change (Z.shiftl 1 40) with (2 ^ 40); lia).
  pose proof (wrap_range (u64 (Z.of_nat pos + firstChunkID s))) as Hw. fold (headChunkID pos s) in Hw.
  rewrite (proj2 (Z.ltb_ge _ _)); [done|]. change (Z.shiftl 1 24) with (2 * oooChunkIDMask).
  change oooChunkIDMask with (2 ^ 23) in *. lia.
Qed.

Lemma mmapped_metas_spec d s mint maxt l : forall i chks,
  0 <= ser_ref s < 2 ^ 40 -> drop i (mmappedChunks s) = l ->
  mmapped_metas s mint maxt l i chks =
    Some (chks ++ map (pos_meta d s) (List.filter (pos_overlaps d mint maxt s) (seq i (length l)))).
Proof.
  induction l as [|m l IH]; intros i chks Hr Hd; cbn [mmapped_metas length seq List.filter map].
  { by rewrite app_nil_r. }
  assert (Hi : mmappedChunks s !! i = Some m) by (by rewrite <-(Nat.add_0_r i), <-lookup_drop, Hd).
  apply lookup_lt_Some in Hi as Hlt.
  assert (Hv : view d s !! i = Some (mmapped_view d m)) by (by rewrite view_mmapped, Hi).
  assert (Hd' : drop (i + 1) (mmappedChunks s) = l) by (by rewrite <-drop_drop, Hd).
  assert (Em : pos_overlaps d mint maxt s i = overlapsClosedInterval (mm_minTime m) (mm_maxTime m) mint maxt)
    by (unfold pos_overlaps; by rewrite Hv).
  rewrite Em. destruct (overlapsClosedInterval _ _ _ _); cbn [negb].
  - rewrite meta_at_some by done. cbn [mbind option_bind]. rewrite (IH _ _ Hr Hd'), <-app_assoc. cbn [app map].
    replace (i + 1)%nat with (S i) by lia. do 3 f_equal. unfold pos_meta. rewrite Hv. cbn [mmapped_view].
    by rewrite (proj2 (Nat.leb_gt _ _)) by done.
  - rewrite (IH _ _ Hr Hd'). by replace (i + 1)%nat with (S i) by lia.
Qed.

Lemma head_metas_spec d s mint maxt l : forall i chks,
  0 <= ser_ref s < 2 ^ 40 -> drop i (reverse (headChunks s)) = l ->
  head_metas s mint maxt (length (headChunks s)) l i chks =
    Some (chks ++ map (pos_meta d s)
                    (List.filter (pos_overlaps d mint maxt s) (seq (length (mmappedChunks s) + i) (length l)))).
Proof.
  induction l as [|c l IH]; intros i chks Hr Hd; cbn [head_metas length seq List.filter map].
  { by rewrite app_nil_r. }
  assert (Hi : reverse (headChunks s) !! i = Some c) by (by rewrite <-(Nat.add_0_r i), <-lookup_drop, Hd).
  apply lookup_lt_Some in Hi as Hlt. rewrite length_reverse in Hlt.
  assert (Hv : view d s !! (length (mmappedChunks s) + i)%nat = Some (head_view c)).
  { rewrite view_head by lia. by replace (_ + i - _)%nat with i by lia; rewrite Hi. }
  assert (Hd' : drop (i + 1) (reverse (headChunks s)) = l) by (by rewrite <-drop_drop, Hd).
  assert (Em : pos_overlaps d mint maxt s (length (mmappedChunks s) + i)
               = overlapsClosedInterval (mc_minTime c) (mc_maxTime c) mint maxt)
    by (unfold pos_overlaps; by rewrite Hv).
  rewrite Em. destruct (overlapsClosedInterval _ _ _ _); cbn [negb].
  - rewrite meta_at_some by done. cbn [mbind option_bind]. rewrite (IH _ _ Hr Hd'), <-app_assoc. cbn [app map].
    replace (length (mmappedChunks s) + (i + 1))%nat with (S (length (mmappedChunks s) + i)) by lia. do 3 f_equal.
    unfold pos_meta. rewrite Hv, length_view. cbn [head_view]. rewrite (proj2 (Nat.leb_le _ _)) by lia. cbn [andb].
    f_equal. destruct (Nat.eqb_spec i (length (headChunks s) - 1)), (Nat.eqb_spec
      (S (length (mmappedChunks s) + i)) (length (mmappedChunks s) + length (headChunks s))); done || lia.
  - rewrite (IH _ _ Hr Hd'). by replace (length (mmappedChunks s) + (i + 1))%nat with (S (length (mmappedChunks s) + i)) by lia.
Qed.

(** The chunk metas of a query, through both paths of appendSeriesChunks. *)
Lemma appendSeriesChunks_spec d s mint maxt chks :
  0 <= ser_ref s < 2 ^ 40 ->
  appendSeriesChunks s mint maxt chks =
    Some (chks ++ map (pos_meta d s) (List.filter (pos_overlaps d mint maxt s) (seq 0 (length (view d s))))).
Proof.
  intros Hr. unfold appendSeriesChunks. rewrite (mmapped_metas_spec d s mint maxt _ 0 chks Hr (drop_0 _)).
  cbn [mbind option_bind]. rewrite length_view, seq_app, List.filter_app, map_app, app_assoc. cbn [Nat.add].
  pose proof (head_metas_spec d s mint maxt (reverse (headChunks s)) 0) as Hh. rewrite length_reverse, Nat.add_0_r in Hh.
  destruct (headChunks s) as [|c0 [|c1 l]] eqn:Eh.
  - by rewrite app_nil_r.
  - specialize (Hh (chks ++ map (pos_meta d s) (List.filter (pos_overlaps d mint maxt s) (seq 0 (length (mmappedChunks s))))) Hr eq_refl).
    rewrite <-Hh. cbn. rewrite Nat.add_0_r. by destruct (overlapsClosedInterval _ _ _ _).
  - rewrite collectHeadChunks_reverse, length_reverse. by apply Hh.
Qed.

(** The chunks a query is given can be found.  Of a series' chunks, in
    order, appendSeriesChunks lists those that overlap the range, the newest one
    with an open end; each reference unpacks to the series and an in-order ID,
    and looking that ID up, with the collected slice or by walking the list,
    gives the chunk at that position, also after the IDs have wrapped around. *)
Theorem appendSeriesChunks_found d s mint maxt hc :
  counts_ok s -> 0 <= ser_ref s < 2 ^ 40 -> hc = None \/ hc = Some (collectHeadChunks (headChunks s)) ->
  appendSeriesChunks s mint maxt [] =
    Some (map (pos_meta d s) (List.filter (pos_overlaps d mint maxt s) (seq 0 (length (view d s))))) /\
  forall pos, (pos < length (view d s))%nat ->
    let '(sid, cid, isOOO) := unpackHeadChunkRef (Ref (pos_meta d s pos)) in
    sid = ser_ref s /\ isOOO = false /\ series_chunk cid d hc s = lookup_view d s pos.
Proof.
  intros Hok Hr Hhc. split; [by rewrite (appendSeriesChunks_spec d)|]. intros pos Hp.
  pose proof (wrap_range (u64 (Z.of_nat pos + firstChunkID s))) as Hw. fold (headChunkID pos s) in Hw.
  change oooChunkIDMask with (2 ^ 23) in Hw.
  assert (Er : Ref (pos_meta d s pos) = Z.lor (u64 (Z.shiftl (ser_ref s) 24)) (headChunkID pos s)).
  { unfold pos_meta. apply lookup_lt_is_Some in Hp as [[[c lo] hi] ->]. done. }
  rewrite Er, unpack_NewHeadChunkRef by lia. split_and!; [done| |].
  - rewrite Z.testbit_eqb, Z.div_small by lia. done.
  - rewrite Z.mod_small by done. apply series_chunk_view; [done| |done]. rewrite length_view in Hp.
    destruct Hok as [_ _ Hn]. lia.
Qed.

End Series.

(** ** Concrete chunks and a concrete mapper *)

(** A chunk is its encoding and its samples, two bytes each after the header;
    histogram appends start a new chunk after three samples. *)
Record test_chunk := mk_test_chunk { tc_encoding : ChunkEnc; tc_samples : list (@sample unit unit) }.

Definition tc_append (c : test_chunk) (s : @sample unit unit) : test_chunk :=
  mk_test_chunk (tc_encoding c) (tc_samples c ++ [s]).

#[export] Instance test_chunk_ops : @ChunkOps unit unit test_chunk := {|
  NewEmptyChunk e := if decide (e = EncNone) then None else Some (mk_test_chunk e []);
  Append := tc_append;
  AppendHistogram _ c s :=
    if (3 <=? length (tc_samples c))%nat then NewChunk (mk_test_chunk (tc_encoding c) [s]) else Same (tc_append c s);
  AppendFloatHistogram _ c s :=
    if (2 <=? length (tc_samples c))%nat then Recoded (tc_append c s) else Same (tc_append c s) |}.

#[export] Instance test_chunk_meta : ChunkMeta test_chunk := {|
  chunk_NumSamples c := u16 (Z.of_nat (length (tc_samples c)));
  chunk_Encoding := tc_encoding;
  chunk_BytesLen c := 2 + 2 * Z.of_nat (length (tc_samples c)) |}.

#[export] Instance test_chunk_laws : ChunkLaws test_chunk.
Proof.
  refine {| contents := tc_samples |}; intros; cbn.
  - rewrite decide_False by done. eauto.
  - done.
  - destruct c as [e [|? [|? [|? ?]]]]; done.
  - destruct c as [e [|? [|? ?]]]; done.
Defined.

#[export] Instance test_chunk_meta_laws : ChunkMetaLaws test_chunk.
Proof.
  split; intros; cbn in *.
  - done.
  - lia.
  - by case_decide; simplify_eq.
  - done.
  - destruct c as [e [|? [|? [|? ?]]]]; done.
  - destruct c as [e [|? [|? ?]]]; done.
Qed.

(** A mapper that is the list of the chunks written to it. *)
#[export] Instance list_mapper {C} : DiskMapper (list C) C := {|
  WriteChunk d _ _ _ c _ := (d ++ [c], Z.of_nat (length d));
  Chunk d r := if r <? 0 then None else d !! Z.to_nat r |}.

#[export] Instance list_mapper_laws {C} : DiskMapperLaws (list C) C.
Proof.
  split; intros; cbn in *.
  - rewrite (proj2 (Z.ltb_ge _ _)), Nat2Z.id by lia. by apply list_lookup_middle.
  - destruct (r <? 0); [done|]. by apply lookup_app_l_Some.
Qed.

Definition tc (e : ChunkEnc) (ts : list Z) : test_chunk := mk_test_chunk e (map (fun t => mk_sample 0 t 0 None None) ts).

(** Two chunks on disk and three in memory, with IDs that wrap around. *)
Definition example_disk : list test_chunk := [tc EncXOR [1; 2]; tc EncXOR [3; 5]].

Definition example_series : @memSeries unit unit test_chunk :=
  mk_memSeries 7
    [mk_mmappedChunk 0 2 EncXOR 1 2; mk_mmappedChunk 1 2 EncXOR 3 5]
    [mk_memChunk (tc EncXOR [30]) 30 30; mk_memChunk (tc EncXOR [20; 29]) 20 29; mk_memChunk (tc EncXOR [10; 19]) 10 19]
    (2 ^ 23 - 3) None 40 0 3 0 None None (Some (tc EncXOR [30])) None.

Lemma example_counts_ok : counts_ok example_series.
Proof. split; [done|split; [done|done]|done]. Qed.

Lemma example_ordered : times_ordered example_disk example_series.
Proof. unfold times_ordered. cbn. repeat constructor; cbn; lia. Qed.

Lemma example_readable : readable example_disk example_series.
Proof. repeat constructor; by eexists. Qed.

Lemma state_word_fields_witness :
  0 <= 5 <= seriesPendingCommitMask /\ unmarkPendingCommit (pack_state 5 true false) = (pack_state 4 true false, true).
Proof. split; [done|]. apply (state_word_fields 5 true false). done. Defined.

Lemma truncateChunksBefore_spec_witness :
  let '(s', n) := truncateChunksBefore 12 0 example_series in
  n = 2 /\ exists k, Z.of_nat k <= n /\ counts_ok s' /\
    Forall (too_old 12) (take k (view example_disk example_series)) /\
    Forall (fun v => 12 <= v.2) (drop k (view example_disk example_series)) /\
    view example_disk s' = drop k (view example_disk example_series) /\
    (forall pos hc, Z.of_nat (k + pos) < oooChunkIDMask -> hc = None \/ hc = Some (collectHeadChunks (headChunks s')) ->
       series_chunk (headChunkID (k + pos) example_series) example_disk hc s' = lookup_view example_disk s' pos).
Proof.
  split; [done|]. exact (truncateChunksBefore_spec example_disk 12 0 example_series example_counts_ok example_ordered).
Defined.

Lemma appendSeriesChunks_found_witness :
  appendSeriesChunks example_series 4 25 [] =
    Some (map (pos_meta example_disk example_series) [1; 2; 3]%nat) /\
  map MaxTime (map (pos_meta example_disk example_series) [1; 2; 3; 4]%nat) = [5; 19; 29; MaxInt64] /\
  forall pos, (pos < length (view example_disk example_series))%nat ->
    let '(sid, cid, isOOO) := unpackHeadChunkRef (Ref (pos_meta example_disk example_series pos)) in
    sid = 7 /\ isOOO = false /\
    series_chunk cid example_disk None example_series = lookup_view example_disk example_series pos.
Proof.
  destruct (appendSeriesChunks_found example_disk example_series 4 25 None example_counts_ok) as [E Hpos];
    [done|by left|]. by split_and!.
Defined.
