(* ===== verification/HeadAppend.v ===== *)
(** tsdb/head_append.go: adding a sample to one series of the head.

    [append], [appendHistogram] and [appendFloatHistogram] put a sample at the end
    of the newest head chunk and cut a new chunk when the old one is full, has
    the wrong encoding or ends its time range; [insert] puts a sample in the
    out-of-order chunk; [appendable] and its two siblings decide which of the two
    a sample is for.  The series lock is held throughout.  [None] is a panic. *)
From stdpp Require Import sorting.
From S2P Require Import Prelude Xor Float64 Retention TxRing OooHead HeadChunks.

(** tsdb/chunkenc/chunk.go. *)
Definition MaxBytesPerXORChunk : Z := 1024.
Definition MaxBytesPerXORChunkBeforeAppend : Z := MaxBytesPerXORChunk - 19.
Definition TargetBytesPerHistogramChunk : Z := 1024.
Definition MinSamplesPerHistogramChunk : Z := 10.

Record chunkOpts := mk_chunkOpts {
  chunkRange : Z; samplesPerChunk : Z; useXOR2 : bool; useHistogramST : bool; storeST : bool }.

Definition computeChunkEndTime (start cur maxT : Z) (ratioToFull : spec_float) : Z :=
  let range := f64_of_int (i64 (maxT - start)) in
  let n := f64_div range (f64_mul (f64_of_int (i64 (cur - start + 1))) ratioToFull) in
  if SFleb n (f64_of_int 1) then maxT
  else int64_of_f64 (f64_add (f64_of_int start) (f64_div range (f64_floor n))).

(** The table of TestComputeChunkEndTime. *)
Example computeChunkEndTime_tests :
  computeChunkEndTime 0 250 1000 (f64_of_int 4) = 1000 /\
  computeChunkEndTime 100 200 1000 (f64_of_int 4) = 550 /\
  computeChunkEndTime 5000 5110 10000 (f64_div (f64_of_int 42) (f64_of_int 10)) = 5500 /\
  computeChunkEndTime 0 500 1000 (f64_of_int 4) = 1000 /\
  computeChunkEndTime 100 100 1000 (f64_of_int 4) = 104.
Proof. by vm_compute. Qed.

(** The errors of appendable, by their name in package storage. *)
Inductive append_error :=
  | ErrDuplicateHistogramToFloat (t v : Z)
  | ErrDuplicateFloat (t old new : Z)
  | ErrDuplicateSampleForTimestamp
  | ErrTooOldSample
  | ErrOutOfBounds
  | ErrOutOfOrderSample.

Section Append.
  Context {H FH C D : Type} `{!@ChunkOps H FH C} `{!ChunkMeta C} `{!DiskMapper D C}.
  Notation series := (@memSeries H FH C).
  Notation smp := (@sample H FH).

(** ** Chunk cutting *)

Definition upd_head (f : memChunk C -> memChunk C) (s : series) : series :=
  match headChunks s with
  | [] => s
  | c :: prev => setHeadChunks (f c :: prev) (headChunkCount s) s
  end.

Definition cutNewHeadChunk (mint : Z) (e : ChunkEnc) (chunkRange : Z) (s : series) : option series :=
  chunk ← NewEmptyChunk (if IsValidEncoding e then e else EncXOR);
  s ← pushHeadChunk (mk_memChunk chunk mint MinInt64) s;
  Some (set_app (Some chunk) (set_nextAt (rangeForTimestamp mint chunkRange) s)).

(** The beginning of both preprocessors; the result is the series, whether the
    sample is in order and whether a chunk was created. *)
Definition check_order (t : Z) (s : series) (chunkCreated : bool) : option (series * bool * bool) :=
  c ← head (headChunks s);
  Some (s, negb (t <=? mc_maxTime c), chunkCreated).

Definition first_chunk (t : Z) (e : ChunkEnc) (o : chunkOpts) (s : series) : option (series * bool * bool) :=
  match headChunks s with
  | [] =>
      match last (mmappedChunks s) with
      | Some m =>
          if t <=? mm_maxTime m then Some (s, false, false)
          else s ← cutNewHeadChunk t e (chunkRange o) s; check_order t s true
      | None => s ← cutNewHeadChunk t e (chunkRange o) s; check_order t s true
      end
  | _ => check_order t s false
  end.

Definition cut_if (b : bool) (t : Z) (e : ChunkEnc) (o : chunkOpts) (s : series) (chunkCreated : bool)
  : option (series * bool) :=
  if b then s ← cutNewHeadChunk t e (chunkRange o) s; Some (s, true) else Some (s, chunkCreated).

(** [c.minTime = t; s.nextAt = rangeForTimestamp(c.minTime, o.chunkRange)]. *)
Definition fix_minTime (t : Z) (o : chunkOpts) (s : series) : series :=
  set_nextAt (rangeForTimestamp t (chunkRange o)) (upd_head (fun c => mk_memChunk (mc_chunk c) t (mc_maxTime c)) s).

(** The last steps of appendPreprocessor: predicting the end of the chunk and
    cutting it by time or by its number of samples. *)
Definition cut_by_samples (t : Z) (e : ChunkEnc) (o : chunkOpts) (s : series) (chunkCreated : bool)
  : option (series * bool * bool) :=
  c ← head (headChunks s);
  let numSamples := chunk_NumSamples (mc_chunk c) in
  let s := if numSamples =? 0 then fix_minTime t o s else s in
  c ← head (headChunks s);
  let s := if numSamples =? Z.quot (samplesPerChunk o) 4
           then set_nextAt (computeChunkEndTime (mc_minTime c) (mc_maxTime c) (nextAt s) (f64_of_int 4)) s else s in
  '(s, chunkCreated) ←
    cut_if ((nextAt s <=? t) || (samplesPerChunk o * 2 <=? numSamples)) t e o s chunkCreated;
  Some (s, true, chunkCreated).

Definition appendPreprocessor (t : Z) (e : ChunkEnc) (o : chunkOpts) (s : series) : option (series * bool * bool) :=
  '(s, inOrder, chunkCreated) ← first_chunk t e o s;
  if negb (inOrder : bool) then Some (s, false, chunkCreated)
  else
    c ← head (headChunks s);
    '(s, chunkCreated) ←
      cut_if (negb chunkCreated && (MaxBytesPerXORChunkBeforeAppend <? chunk_BytesLen (mc_chunk c))) t e o s chunkCreated;
    c ← head (headChunks s);
    let enc := chunk_Encoding (mc_chunk c) in
    '(s, chunkCreated) ←
      cut_if (negb (bool_decide (enc = e)) && (negb (CompatibleValues enc e) || storeST o)) t e o s chunkCreated;
    cut_by_samples t e o s chunkCreated.

(** The last steps of histogramsAppendPreprocessor: predicting the end of the
    chunk and cutting it by time or by its size. *)
Definition cut_by_bytes (t : Z) (e : ChunkEnc) (o : chunkOpts) (s : series) (chunkCreated : bool)
  : option (series * bool * bool) :=
  c ← head (headChunks s);
  let numSamples := chunk_NumSamples (mc_chunk c) in
  let targetBytes := TargetBytesPerHistogramChunk in
  let numBytes := chunk_BytesLen (mc_chunk c) in
  let s := if numSamples =? 0 then fix_minTime t o s else s in
  c ← head (headChunks s);
  let computed := hasComputedHistogramChunkEndTime (state s) in
  let nextChunkRangeStart := if computed then rangeForTimestamp (mc_minTime c) (chunkRange o) else nextAt s in
  let s :=
    if negb computed && (Z.quot targetBytes 4 <=? numBytes) then
      let ratioToFull := f64_div (f64_of_int targetBytes) (f64_of_int numBytes) in
      let s := set_nextAt (computeChunkEndTime (mc_minTime c) (mc_maxTime c) (nextAt s) ratioToFull) s in
      set_state (setComputedHistogramChunkEndTime true (state s)) s
    else s in
  '(s, chunkCreated) ←
    cut_if (((nextAt s <=? t) || (targetBytes * 2 <=? numBytes))
            && ((MinSamplesPerHistogramChunk <=? numSamples) || (nextChunkRangeStart <=? t))) t e o s chunkCreated;
  let s := if (chunkCreated : bool) then set_state (setComputedHistogramChunkEndTime false (state s)) s else s in
  Some (s, true, chunkCreated).

Definition histogramsAppendPreprocessor (t : Z) (e : ChunkEnc) (o : chunkOpts) (s : series)
  : option (series * bool * bool) :=
  '(s, inOrder, chunkCreated) ← first_chunk t e o s;
  if negb (inOrder : bool) then Some (s, false, chunkCreated)
  else
    c ← head (headChunks s);
    '(s, chunkCreated) ← cut_if (negb (bool_decide (chunk_Encoding (mc_chunk c) = e))) t e o s chunkCreated;
    cut_by_bytes t e o s chunkCreated.

(** ** Appending *)

Definition txs_add (appendID : Z) (s : series) : option series :=
  if 0 <? appendID then x ← txs s; Some (set_txs (Some (txRing_add x appendID)) s) else Some s.

(** The appender has written to the newest head chunk, which is [chunk] now. *)
Definition written (chunk : C) (t : Z) (s : series) : series :=
  set_app (Some chunk) (upd_head (fun c => mk_memChunk chunk (mc_minTime c) t) s).

(** The result is the series, sampleInOrder and chunkCreated. *)
Definition append (st t v : Z) (appendID : Z) (o : chunkOpts) (s : series) : option (series * bool * bool) :=
  '(s, inOrder, chunkCreated) ← appendPreprocessor t (ChunkEncoding ValFloat (useXOR2 o) (useHistogramST o)) o s;
  if negb (inOrder : bool) then Some (s, false, chunkCreated)
  else
    app ← ser_app s;
    let s := written (Append app (mk_sample st t v None None)) t s in
    let s := set_last v None None s in
    s ← txs_add appendID s;
    Some (s, true, chunkCreated).

(** The end of both histogram appends, on what the appender returned. *)
Definition finish_histogram (r : appended C) (t appendID : Z) (o : chunkOpts) (chunkCreated : bool) (s : series)
  : option (series * bool * bool) :=
  s ← txs_add appendID s;
  match r with
  | Same chunk => Some (written chunk t s, true, chunkCreated)
  | Recoded chunk => Some (written chunk t s, true, false)
  | NewChunk chunk =>
      s ← pushHeadChunk (mk_memChunk chunk t t) s;
      Some (set_app (Some chunk) (set_nextAt (rangeForTimestamp t (chunkRange o)) s), true, true)
  end.

Definition appendHistogram (st t : Z) (h : H) (appendID : Z) (o : chunkOpts) (s : series) : option (series * bool * bool) :=
  let prevApp := ser_app s in
  '(s, inOrder, chunkCreated) ←
    histogramsAppendPreprocessor t (ChunkEncoding ValHistogram (useXOR2 o) (useHistogramST o)) o s;
  if negb (inOrder : bool) then Some (s, false, chunkCreated)
  else
    let prevApp := if negb chunkCreated then None else prevApp in
    app ← ser_app s;
    let r := AppendHistogram prevApp app (mk_sample st t 0 (Some h) None) in
    finish_histogram r t appendID o chunkCreated (set_last (lastValue s) (Some h) None s).

Definition appendFloatHistogram (st t : Z) (fh : FH) (appendID : Z) (o : chunkOpts) (s : series)
  : option (series * bool * bool) :=
  let prevApp := ser_app s in
  '(s, inOrder, chunkCreated) ←
    histogramsAppendPreprocessor t (ChunkEncoding ValFloatHistogram (useXOR2 o) (useHistogramST o)) o s;
  if negb (inOrder : bool) then Some (s, false, chunkCreated)
  else
    let prevApp := if negb chunkCreated then None else prevApp in
    app ← ser_app s;
    let r := AppendFloatHistogram prevApp app (mk_sample st t 0 None (Some fh)) in
    finish_histogram r t appendID o chunkCreated (set_last (lastValue s) None (Some fh) s).

(** ** Out-of-order samples *)

(** The loop over the encoded chunks: the refs and the m-mapped chunks so far. *)
Fixpoint mmap_ooo_loop (sref : Z) (chks : list (memChunk C)) (d : D) (refs : list Z) (mm : list mmappedChunk)
  : D * list Z * list mmappedChunk :=
  match chks with
  | [] => (d, refs, mm)
  | c :: chks =>
      if oooChunkIDMask - 1 <=? Z.of_nat (length mm) then (d, refs, mm)
      else
        let '(d, chunkRef) := WriteChunk d sref (mc_minTime c) (mc_maxTime c) (mc_chunk c) true in
        let m := mk_mmappedChunk chunkRef (u16 (chunk_NumSamples (mc_chunk c))) (chunk_Encoding (mc_chunk c))
                   (mc_minTime c) (mc_maxTime c) in
        mmap_ooo_loop sref chks d (refs ++ [chunkRef]) (mm ++ [m])
  end.

(** [None] is the panic of handleChunkWriteError. *)
Definition mmapCurrentOOOHeadChunk (o : chunkOpts) (d : D) (s : series) : option (D * series * list Z) :=
  match ooo s with
  | None => Some (d, s, [])
  | Some f =>
      match oooHead f with
      | None => Some (d, s, [])
      | Some hc =>
          match ToEncodedChunks (oc_chunk hc) MinInt64 MaxInt64 (useXOR2 o) (useHistogramST o) with
          | (_, Some _) => None
          | (chks, None) =>
              let '(d, refs, mm) := mmap_ooo_loop (ser_ref s) chks d [] (oooMmappedChunks f) in
              Some (d, set_ooo (Some (mk_memSeriesOOOFields mm None (firstOOOChunkID f))) s, refs)
          end
      end
  end.

(** The caller ensures that [ooo s] is not nil. *)
Definition cutNewOOOHeadChunk (mint : Z) (o : chunkOpts) (d : D) (s : series) : option (D * series * oooHeadChunk * list Z) :=
  '(d, s, refs) ← mmapCurrentOOOHeadChunk o d s;
  f ← ooo s;
  let hc := mk_oooHeadChunk [] mint MinInt64 in
  Some (d, set_ooo (Some (mk_memSeriesOOOFields (oooMmappedChunks f) (Some hc) (firstOOOChunkID f))) s, hc, refs).

(** The open chunk, a new one when there is none or it is full. *)
Definition open_ooo_chunk (t : Z) (o : chunkOpts) (oooCapMax : Z) (d : D) (s : series)
  : option (D * series * oooHeadChunk * bool * list Z) :=
  f ← ooo s;
  let cut := '(d, s, c, refs) ← cutNewOOOHeadChunk t o d s; Some (d, s, c, true, refs) in
  match oooHead f with
  | Some c => if Z.of_nat (NumSamples (oc_chunk c)) =? oooCapMax then cut else Some (d, s, c, false, [])
  | None => cut
  end.

(** The results are inserted, chunkCreated and the references of the chunks
    that were m-mapped. *)
Definition insert (x : smp) (o : chunkOpts) (oooCapMax : Z) (d : D) (s : series)
  : option (D * series * bool * bool * list Z) :=
  let s := match ooo s with None => set_ooo (Some (mk_memSeriesOOOFields [] None 0)) s | Some _ => s end in
  '(d, s, c, chunkCreated, refs) ← open_ooo_chunk (s_t x) o oooCapMax d s;
  f ← ooo s;
  let '(samples, ok) := Insert x (oc_chunk c) in
  let c :=
    if ok then
      mk_oooHeadChunk samples
        (if (chunkCreated : bool) || (s_t x <? oc_minTime c) then s_t x else oc_minTime c)
        (if chunkCreated || (oc_maxTime c <? s_t x) then s_t x else oc_maxTime c)
    else mk_oooHeadChunk samples (oc_minTime c) (oc_maxTime c) in
  Some (d, set_ooo (Some (mk_memSeriesOOOFields (oooMmappedChunks f) (Some c) (firstOOOChunkID f))) s,
        ok, chunkCreated, refs).

(** ** Deciding where a sample goes *)

(** The end of the three functions: the sample is not for the in-order chunk. *)
Definition out_of_order (t headMaxt minValidTime oooTimeWindow : Z) : bool * Z * option append_error :=
  if (0 <? oooTimeWindow) && (i64 (headMaxt - oooTimeWindow) <=? t) then (true, i64 (headMaxt - t), None)
  else if 0 <? oooTimeWindow then (true, i64 (headMaxt - t), Some ErrTooOldSample)
  else if t <? minValidTime then (false, i64 (headMaxt - t), Some ErrOutOfBounds)
  else (false, i64 (headMaxt - t), Some ErrOutOfOrderSample).

(** The results are isOOO, oooDelta and the error. *)
Definition appendable (t v headMaxt minValidTime oooTimeWindow : Z) (s : series) : bool * Z * option append_error :=
  if minValidTime <=? t then
    match headChunks s with
    | [] => (false, 0, None)
    | _ =>
        let msMaxt := maxTime s in
        if msMaxt <? t then (false, 0, None)
        else if t =? msMaxt then
          if bool_decide (is_Some (lastHistogramValue s)) || bool_decide (is_Some (lastFloatHistogramValue s)) then
            (false, 0, Some (ErrDuplicateHistogramToFloat t v))
          else if negb (lastValue s =? v) then (false, 0, Some (ErrDuplicateFloat t (lastValue s) v))
          else (false, 0, None)
        else out_of_order t headMaxt minValidTime oooTimeWindow
    end
  else out_of_order t headMaxt minValidTime oooTimeWindow.

Definition appendableHistogram `{!HistogramOps H} (t : Z) (h : H) (headMaxt minValidTime oooTimeWindow : Z) (s : series)
  : bool * Z * option append_error :=
  if minValidTime <=? t then
    match headChunks s with
    | [] => (false, 0, None)
    | _ =>
        let msMaxt := maxTime s in
        if msMaxt <? t then (false, 0, None)
        else if t =? msMaxt then
          if negb (hist_Equals h (lastHistogramValue s)) then (false, 0, Some ErrDuplicateSampleForTimestamp)
          else (false, 0, None)
        else out_of_order t headMaxt minValidTime oooTimeWindow
    end
  else out_of_order t headMaxt minValidTime oooTimeWindow.

Definition appendableFloatHistogram `{!HistogramOps FH} (t : Z) (fh : FH) (headMaxt minValidTime oooTimeWindow : Z) (s : series)
  : bool * Z * option append_error :=
  if minValidTime <=? t then
    match headChunks s with
    | [] => (false, 0, None)
    | _ =>
        let msMaxt := maxTime s in
        if msMaxt <? t then (false, 0, None)
        else if t =? msMaxt then
          if negb (hist_Equals fh (lastFloatHistogramValue s)) then (false, 0, Some ErrDuplicateSampleForTimestamp)
          else (false, 0, None)
        else out_of_order t headMaxt minValidTime oooTimeWindow
    end
  else out_of_order t headMaxt minValidTime oooTimeWindow.
End Append.

(** ** What a series holds *)

Section Spec.
  Context {H FH C D : Type} `{!@ChunkOps H FH C} `{!ChunkLaws C} `{!ChunkMeta C} `{!ChunkMetaLaws C}
    `{!DiskMapper D C}.
  Notation series := (@memSeries H FH C).
  Notation smp := (@sample H FH).
  Notation cview := (option C * Z * Z)%type.
  Implicit Types (s : series) (o : chunkOpts) (d : D).

Definition vsamples (v : cview) : list smp := match v.1.1 with Some c => contents c | None => [] end.

(** The in-order samples, oldest first. *)
Definition series_samples (d : D) (s : series) : list smp := concat (map vsamples (view d s)).

(** A chunk with samples whose time range is theirs; a chunk without. *)
Definition good (v : cview) : Prop :=
  (exists x, head (vsamples v) = Some x /\ s_t x = v.1.2) /\ (exists x, last (vsamples v) = Some x /\ s_t x = v.2).
Definition empty (v : cview) : Prop := vsamples v = [] /\ v.2 = MinInt64.

(** Only the oldest chunk may be empty. *)
Definition chunks_ok (vs : list cview) : Prop :=
  match vs with [] => True | v :: r => (good v \/ empty v) /\ Forall good r end.

Definition size_bound (o : chunkOpts) (c : C) : Z :=
  if isFloatXOREncoding (chunk_Encoding c) then samplesPerChunk o * 2 else 2 ^ 14.

Definition size_ok (o : chunkOpts) (c : C) : Prop := Z.of_nat (length (contents c)) <= size_bound o c.

Record series_ok (d : D) (o : chunkOpts) (s : series) : Prop := {
  ok_counts : counts_ok s;
  ok_app : match headChunks s with c :: _ => ser_app s = Some (mc_chunk c) | [] => True end;
  ok_chunks : chunks_ok (view d s);
  ok_sorted : sorted (series_samples d s);
  ok_times : Forall (fun x => MinInt64 < s_t x) (series_samples d s);
  ok_sizes : Forall (fun c => size_ok o (mc_chunk c)) (headChunks s) }.

Definition last_time (l : list smp) : Z := match last l with Some x => s_t x | None => MinInt64 end.

Lemma chunks_ok_snoc vs v : chunks_ok (vs ++ [v]) <-> chunks_ok vs /\ (good v \/ (vs = [] /\ empty v)).
Proof.
  destruct vs as [|v0 vs]; cbn.
  - rewrite Forall_nil. naive_solver.
  - rewrite Forall_app, Forall_singleton. naive_solver.
Qed.

Lemma last_time_app l v : good v -> last_time (l ++ vsamples v) = v.2.
Proof.
  intros [_ (x & Hx & <-)]. unfold last_time. rewrite last_app, Hx. done.
Qed.

Lemma concat_snoc vs v : concat (map vsamples (vs ++ [v])) = concat (map vsamples vs) ++ vsamples v.
Proof. rewrite map_app, concat_app. cbn. by rewrite app_nil_r. Qed.

Lemma chunks_last_time vs :
  chunks_ok vs -> last_time (concat (map vsamples vs)) = match last vs with Some v => v.2 | None => MinInt64 end.
Proof.
  destruct vs as [|v vs] using rev_ind; [done|]. intros [_ Hv]%chunks_ok_snoc. rewrite last_snoc, concat_snoc.
  destruct Hv as [Hv|[-> [E1 E2]]]; [by apply last_time_app|]. cbn. by rewrite E1, E2.
Qed.

Lemma maxTime_view d s : maxTime s = match last (view d s) with Some v => v.2 | None => MinInt64 end.
Proof.
  unfold maxTime, view. destruct (headChunks s) as [|c l].
  - cbn. rewrite app_nil_r, fmap_last. by destruct (last (mmappedChunks s)).
  - rewrite reverse_cons, map_app, app_assoc. cbn [map]. by rewrite last_snoc.
Qed.

Lemma maxTime_last d o s : series_ok d o s -> maxTime s = last_time (series_samples d s).
Proof. intros [_ _ Hc _ _ _]. by rewrite (maxTime_view d), <-chunks_last_time. Qed.

Lemma sorted_snoc (l : list smp) x : sorted l -> last_time l < s_t x -> sorted (l ++ [x]).
Proof.
  intros Hs Hx. unfold sorted. apply StronglySorted_app. split_and!; [|done|by repeat constructor].
  intros a b Ha ->%list_elem_of_singleton. destruct l as [|y l _] using rev_ind; [by apply not_elem_of_nil in Ha|].
  unfold last_time in Hx. rewrite last_snoc in Hx. apply StronglySorted_app in Hs as (Hs & _ & _).
  apply elem_of_app in Ha as [Ha|Ha%list_elem_of_singleton]; [|by subst].
  specialize (Hs a y Ha ltac:(by apply list_elem_of_singleton)). cbn in Hs. lia.
Qed.

(** Adding a sample to the newest chunk, which holds [cs], or a chunk with it
    alone. *)
Lemma grown_ok vs cs lo c' (x : smp) :
  chunks_ok vs -> contents c' = cs ++ [x] -> lo = match cs with [] => s_t x | y :: _ => s_t y end ->
  sorted (concat (map vsamples vs) ++ cs) -> last_time (concat (map vsamples vs) ++ cs) < s_t x ->
  Forall (fun y => MinInt64 < s_t y) (concat (map vsamples vs) ++ cs) -> MinInt64 < s_t x ->
  let vs' := vs ++ [(Some c', lo, s_t x)] in
  chunks_ok vs' /\ concat (map vsamples vs') = (concat (map vsamples vs) ++ cs) ++ [x] /\
  sorted (concat (map vsamples vs')) /\ Forall (fun y => MinInt64 < s_t y) (concat (map vsamples vs')).
Proof.
  intros Hvs Hc' -> Hs Hlast Hall Hx. cbv zeta. set (lo := match cs with [] => _ | _ => _ end).
  assert (E : concat (map vsamples (vs ++ [(Some c', lo, s_t x)])) = (concat (map vsamples vs) ++ cs) ++ [x]).
  { rewrite concat_snoc. cbn. by rewrite Hc', app_assoc. }
  rewrite E. split_and!; [|done|by apply sorted_snoc|by apply Forall_app; split; [|apply Forall_singleton]].
  apply chunks_ok_snoc. split; [done|]. left. unfold good. cbn. rewrite Hc'. split.
  - unfold lo. destruct cs as [|y cs]; [by exists x|by exists y].
  - exists x. by rewrite last_snoc.
Qed.

(** ** Choosing the chunk *)

Record opts_ok (o : chunkOpts) : Prop := {
  range_pos : 0 < chunkRange o <= MaxInt64;
  spc_pos : 4 <= samplesPerChunk o;
  spc_small : samplesPerChunk o * 2 < 2 ^ 16 }.

(** The end of the chunk range of [t] is an int64. *)
Definition time_ok (o : chunkOpts) (t : Z) : Prop := MinInt64 <= t /\ t + chunkRange o <= MaxInt64.

Lemma rangeForTimestamp_after o t : opts_ok o -> time_ok o t -> t < rangeForTimestamp t (chunkRange o).
Proof.
  intros [[Hw Hw'] _ _] [Hlo Hhi]. unfold rangeForTimestamp. set (w := chunkRange o) in *.
  assert (Hdiv : forall u, 0 <= u -> 0 <= Z.quot u w * w <= u /\ u < Z.quot u w * w + w).
  { intros u Hu. rewrite Z.quot_div_nonneg by lia. pose proof (Z.mul_div_le u w). pose proof (Z.mul_succ_div_gt u w).
    pose proof (Z.div_pos u w). nia. }
  assert (Hb : - 2 ^ 63 <= Z.quot t w * w /\ t < Z.quot t w * w + w /\ Z.quot t w * w + w <= 2 ^ 63 - 1).
  { unfold MinInt64, MaxInt64 in *. destruct (Z.le_gt_cases 0 t) as [Ht|Ht].
    - specialize (Hdiv t Ht). lia.
    - specialize (Hdiv (- t) ltac:(lia)). rewrite Z.quot_opp_l in Hdiv by lia. lia. }
  rewrite (i64_id (Z.quot t w * w)), i64_id by (unfold is_i64, MinInt64, MaxInt64; lia).
  lia.
Qed.

Lemma quarter_pos o : opts_ok o -> (0 =? Z.quot (samplesPerChunk o) 4) = false.
Proof.
  intros [_ Hs _]. apply Z.eqb_neq. rewrite Z.quot_div_nonneg by lia.
  pose proof (Z.div_str_pos (samplesPerChunk o) 4). lia.
Qed.

Definition room (s : series) : Prop :=
  Z.of_nat (length (mmappedChunks s) + length (headChunks s)) < oooChunkIDMask - 1.

(** What the preprocessors leave alone. *)
Definition kept (s0 s : series) : Prop :=
  ser_ref s = ser_ref s0 /\ mmappedChunks s = mmappedChunks s0 /\ firstChunkID s = firstChunkID s0 /\ ooo s = ooo s0.

Definition same_base (s0 s : series) : Prop := kept s0 s /\ txs s = txs s0.

Definition same_chunks (s0 s : series) : Prop :=
  same_base s0 s /\ headChunks s = headChunks s0 /\ headChunkCount s = headChunkCount s0 /\ ser_app s = ser_app s0.

(** A new chunk of encoding [e] in front of the chunks of [s0]. *)
Record cut_from (t : Z) (e : ChunkEnc) (o : chunkOpts) (s0 s : series) (c : C) : Prop := {
  cut_base : same_base s0 s;
  cut_head : headChunks s = mk_memChunk c t MinInt64 :: headChunks s0;
  cut_count : headChunkCount s = headChunkCount s0 + 1;
  cut_app : ser_app s = Some c;
  cut_empty : contents c = [];
  cut_enc : chunk_Encoding c = e }.

Lemma pushHeadChunk_room chk s :
  counts_ok s -> room s -> pushHeadChunk chk s = Some (setHeadChunks (chk :: headChunks s) (headChunkCount s + 1) s).
Proof.
  intros [Hc _ Hn] Hr. unfold room in Hr. unfold pushHeadChunk. rewrite Hc in *.
  rewrite (proj2 (Z.leb_gt _ _)) by lia. do 2 f_equal. apply u32_id. unfold is_u32.
  change oooChunkIDMask with (2 ^ 23) in *. lia.
Qed.

Lemma cut_spec t e o s0 s :
  IsValidEncoding e = true -> same_chunks s0 s -> counts_ok s0 -> room s0 ->
  exists s' c, cutNewHeadChunk t e (chunkRange o) s = Some s' /\ cut_from t e o s0 s' c /\ state s' = state s.
Proof.
  intros He (Hb & Eh & Ec & Ea) [Hc Hf Hn] Hr. unfold cutNewHeadChunk. rewrite He.
  assert (Hne : e <> EncNone) by (by intros ->).
  destruct (empty_contents e Hne) as (c & Hnew & Hcont). rewrite Hnew. cbn [mbind option_bind].
  pose proof Hb as ((Er & Em & Ef & Eo) & Et).
  rewrite pushHeadChunk_room; [|by split; rewrite ?Eh, ?Ec, ?Em, ?Ef|unfold room in *; by rewrite Em, Eh].
  cbn [mbind option_bind]. do 2 eexists. split; [done|]. split; [|done].
  split; cbn; rewrite ?Eh, ?Ec; try done. by apply new_encoding.
Qed.

(** The state after a preprocessor: the head of the list is the chunk to append
    to, a new one or the old one, and the old one has room. *)
Inductive prepared (o : chunkOpts) (Q : ChunkEnc -> Prop) (t : Z) (s0 s : series) : bool -> Prop :=
  | prepared_new c e :
      cut_from t e o s0 s c -> Q e -> prepared o Q t s0 s true
  | prepared_same c l lo :
      same_base s0 s -> headChunks s0 = c :: l ->
      headChunks s = mk_memChunk (mc_chunk c) lo (mc_maxTime c) :: l ->
      headChunkCount s = headChunkCount s0 -> ser_app s = ser_app s0 ->
      (lo = if decide (contents (mc_chunk c) = []) then t else mc_minTime c) ->
      Q (chunk_Encoding (mc_chunk c)) -> Z.of_nat (length (contents (mc_chunk c))) < size_bound o (mc_chunk c) ->
      prepared o Q t s0 s false.

(** The samples of the head chunk are few enough for the 16-bit count. *)
Lemma NumSamples_exact o c :
  opts_ok o -> size_ok o c -> chunk_NumSamples c = Z.of_nat (length (contents c)).
Proof.
  intros [_ _ Hs] Hc. rewrite NumSamples_contents. apply u16_id. unfold is_u16, size_ok, size_bound in *.
  destruct (isFloatXOREncoding _); lia.
Qed.

Lemma first_chunk_spec t e o s d :
  IsValidEncoding e = true -> series_ok d o s -> room s -> maxTime s < t -> MinInt64 < t ->
  exists s' created, first_chunk t e o s = Some (s', true, created) /\ state s' = state s /\
    if created then headChunks s = [] /\ exists c, cut_from t e o s s' c else s' = s /\ headChunks s <> [].
Proof.
  intros He [Hc _ _ _ _ _] Hr Ht Hmin. unfold first_chunk. destruct (headChunks s) as [|c l] eqn:Eh.
  - assert (Hcut : exists s' c, (s1 ← cutNewHeadChunk t e (chunkRange o) s; check_order t s1 true) = Some (s', true, true) /\
        cut_from t e o s s' c /\ state s' = state s).
    { destruct (cut_spec t e o s s He) as (s' & c & -> & Hcut & Hst); [done..|]. exists s', c.
      split_and!; [|done|done]. cbn [mbind option_bind]. unfold check_order. rewrite (cut_head _ _ _ _ _ _ Hcut).
      cbn. by rewrite (proj2 (Z.leb_gt _ _)). }
    destruct Hcut as (s' & c & Hcut & ? & Hst). unfold maxTime in Ht. rewrite Eh in Ht.
    exists s', true. destruct (last (mmappedChunks s)) as [m|].
    + rewrite (proj2 (Z.leb_gt _ _)) by lia. split_and!; [done..|by exists c].
    + split_and!; [done..|by exists c].
  - exists s, false. unfold maxTime in Ht. rewrite Eh in Ht. unfold check_order. rewrite Eh. cbn [head mbind option_bind].
    by rewrite (proj2 (Z.leb_gt _ _)).
Qed.

(** The new chunk is not cut again: it is empty and ends after [t]. *)
Lemma cut_from_fixed t e o s0 s c :
  cut_from t e o s0 s c -> cut_from t e o s0 (fix_minTime t o s) c.
Proof.
  intros [Hb Eh Ec Ea Eno Een]. unfold fix_minTime, upd_head. rewrite Eh. by split.
Qed.

Lemma cut_by_samples_new t e o s0 s c (Q : ChunkEnc -> Prop) :
  opts_ok o -> time_ok o t -> cut_from t e o s0 s c -> Q e ->
  exists s', cut_by_samples t e o s true = Some (s', true, true) /\ prepared o Q t s0 s' true.
Proof.
  intros Ho Ht Hcut HQ. unfold cut_by_samples. rewrite (cut_head _ _ _ _ _ _ Hcut). cbn [head mbind option_bind mc_chunk].
  assert (En : chunk_NumSamples c = 0) by (by rewrite NumSamples_contents, (cut_empty _ _ _ _ _ _ Hcut)).
  rewrite En, Z.eqb_refl. cbv match. apply cut_from_fixed in Hcut. rewrite (cut_head _ _ _ _ _ _ Hcut). cbn [head mbind option_bind].
  pose proof (spc_pos _ Ho). rewrite (quarter_pos o Ho).
  change (nextAt (fix_minTime t o s)) with (rangeForTimestamp t (chunkRange o)).
  pose proof (rangeForTimestamp_after o t Ho Ht) as Hafter. rewrite !(proj2 (Z.leb_gt _ _)) by lia.
  cbn [orb cut_if mbind option_bind]. eexists. split; [done|]. by eapply prepared_new.
Qed.

(** An old head chunk after its minimum time has been fixed. *)
Definition fixed (t : Z) (o : chunkOpts) (c : memChunk C) (s : series) : series :=
  if Z.of_nat (length (contents (mc_chunk c))) =? 0 then fix_minTime t o s else s.

Definition fixed_min (t : Z) (c : memChunk C) : Z := if decide (contents (mc_chunk c) = []) then t else mc_minTime c.

Lemma length_contents_0 (c : C) : Z.of_nat (length (contents c)) = 0 <-> contents c = [].
Proof. destruct (contents c); cbn; split; done || lia. Qed.

Lemma fixed_spec t o c l s :
  headChunks s = c :: l ->
  headChunks (fixed t o c s) = mk_memChunk (mc_chunk c) (fixed_min t c) (mc_maxTime c) :: l /\
  same_base s (fixed t o c s) /\ headChunkCount (fixed t o c s) = headChunkCount s /\
  ser_app (fixed t o c s) = ser_app s /\ (contents (mc_chunk c) <> [] -> fixed t o c s = s) /\
  (contents (mc_chunk c) = [] -> fixed t o c s = fix_minTime t o s).
Proof.
  intros Eh. unfold fixed, fixed_min. pose proof (length_contents_0 (mc_chunk c)) as Hn.
  destruct (Z.eqb_spec (Z.of_nat (length (contents (mc_chunk c)))) 0) as [E0|E0].
  - rewrite decide_True by tauto. unfold fix_minTime, upd_head. rewrite Eh. split_and!; try done; intros; exfalso; tauto.
  - rewrite decide_False by tauto. rewrite Eh. destruct c. split_and!; try done; intros; exfalso; tauto.
Qed.

(** Cutting an old chunk after the fix, or not cutting it. *)
Lemma cut_old t e o s c l s2 (Q : ChunkEnc -> Prop) (b : bool) :
  IsValidEncoding e = true -> Q e -> counts_ok s -> room s -> headChunks s = c :: l ->
  same_chunks (fixed t o c s) s2 -> (b = true -> contents (mc_chunk c) <> []) ->
  (b = false -> Q (chunk_Encoding (mc_chunk c)) /\ Z.of_nat (length (contents (mc_chunk c))) < size_bound o (mc_chunk c)) ->
  exists s' created, cut_if b t e o s2 false = Some (s', created) /\ prepared o Q t s s' created.
Proof.
  intros Hv HQ Hc Hr Eh H2 Hb1 Hb2. destruct (fixed_spec t o c l s Eh) as (Eh1 & Hb & Ec & Ea & Hsame & _).
  destruct b; cbn [cut_if].
  - rewrite Hsame in H2 by auto. destruct (cut_spec t e o s s2 Hv H2 Hc Hr) as (s' & c' & -> & Hcut & _).
    exists s', true. split; [done|]. by apply (prepared_new _ _ _ _ _ c' e).
  - destruct H2 as (Hb' & Eh2 & Ec2 & Ea2). exists s2, false. split; [done|]. destruct (Hb2 eq_refl) as [HQc Hsz].
    apply (prepared_same _ _ _ _ _ c l (fixed_min t c)); try done; try congruence.
    unfold same_base, kept in *. intuition congruence.
Qed.

Lemma cut_by_samples_old t e o s c l :
  opts_ok o -> time_ok o t -> IsValidEncoding e = true -> isFloatXOREncoding e = true ->
  counts_ok s -> room s ->
  headChunks s = c :: l -> size_ok o (mc_chunk c) -> isFloatXOREncoding (chunk_Encoding (mc_chunk c)) = true ->
  exists s' created, cut_by_samples t e o s false = Some (s', true, created) /\
    prepared o (fun e => isFloatXOREncoding e = true) t s s' created.
Proof.
  intros Ho Ht Hv He Hc Hr Eh Hsz Hf. unfold cut_by_samples. rewrite Eh. cbn [head mbind option_bind].
  rewrite (NumSamples_exact o) by done. fold (fixed t o c s).
  destruct (fixed_spec t o c l s Eh) as (-> & _ & _ & _ & _ & Hfix). cbn [head mbind option_bind].
  set (n := Z.of_nat (length (contents (mc_chunk c)))).
  set (s2 := if n =? Z.quot _ _ then _ else fixed t o c s).
  destruct (cut_old t e o s c l s2 (fun e => isFloatXOREncoding e = true)
              ((nextAt s2 <=? t) || (samplesPerChunk o * 2 <=? n)) Hv He Hc Hr Eh) as (s' & created & -> & Hp).
  - unfold s2. by destruct (n =? Z.quot _ _).
  - intros Ecut En. apply length_contents_0 in En as En0. fold n in En0. unfold s2 in Ecut.
    rewrite En0, (quarter_pos o Ho), (Hfix En) in Ecut. pose proof (spc_pos _ Ho).
    pose proof (rangeForTimestamp_after o t Ho Ht). cbn [nextAt fix_minTime set_nextAt] in Ecut.
    rewrite !(proj2 (Z.leb_gt _ _)) in Ecut by lia. done.
  - intros [_ Ecut%Z.leb_gt]%orb_false_iff. split; [done|]. unfold size_bound. rewrite Hf. unfold n in Ecut. lia.
  - exists s', created. by split.
Qed.

Lemma bool_decide_refl (e : ChunkEnc) : bool_decide (e = e) = true.
Proof. by apply bool_decide_eq_true. Qed.

Lemma appendPreprocessor_spec t e o d s :
  opts_ok o -> time_ok o t -> IsValidEncoding e = true -> isFloatXOREncoding e = true ->
  series_ok d o s -> room s -> maxTime s < t -> MinInt64 < t ->
  exists s' created, appendPreprocessor t e o s = Some (s', true, created) /\
    prepared o (fun e => isFloatXOREncoding e = true) t s s' created.
Proof.
  intros Ho Ht Hv He Hs Hr Hm Hmin. unfold appendPreprocessor.
  destruct (first_chunk_spec t e o s d Hv Hs Hr Hm Hmin) as (s1 & created & -> & _ & H1).
  pose proof Hs as [Hc _ _ _ _ Hsz]. cbn [mbind option_bind negb].
  assert (Hnew : forall s' c, cut_from t e o s s' c -> exists s'' created,
    cut_by_samples t e o s' true = Some (s'', true, created) /\ prepared o (fun e => isFloatXOREncoding e = true) t s s'' created).
  { intros s' c Hcut. destruct (cut_by_samples_new t e o s s' c (fun e => isFloatXOREncoding e = true) Ho Ht Hcut He) as (s'' & E & Hp). eauto. }
  destruct created.
  - destruct H1 as (_ & c & Hcut). rewrite (cut_head _ _ _ _ _ _ Hcut). cbn [head mbind option_bind negb andb cut_if mc_chunk].
    rewrite (cut_head _ _ _ _ _ _ Hcut). cbn [head mbind option_bind mc_chunk].
    rewrite (cut_enc _ _ _ _ _ _ Hcut), bool_decide_refl. cbn [negb andb cut_if mbind option_bind]. by eapply Hnew.
  - destruct H1 as (-> & Hne). destruct (headChunks s) as [|c l] eqn:Eh; [done|]. cbn [head mbind option_bind negb andb].
    assert (Hcut : exists s' c', cutNewHeadChunk t e (chunkRange o) s = Some s' /\ cut_from t e o s s' c').
    { destruct (cut_spec t e o s s Hv) as (s' & c' & ? & ? & _); [done..|eauto]. }
    destruct Hcut as (s' & c' & Ecut & Hcut).
    destruct (MaxBytesPerXORChunkBeforeAppend <? _); cbn [cut_if].
    + rewrite Ecut. cbn [mbind option_bind]. rewrite (cut_head _ _ _ _ _ _ Hcut). cbn [head mbind option_bind mc_chunk].
      rewrite (cut_enc _ _ _ _ _ _ Hcut), bool_decide_refl. cbn [negb andb cut_if mbind option_bind]. by eapply Hnew.
    + cbn [mbind option_bind]. rewrite Eh. cbn [head mbind option_bind].
      destruct (negb (bool_decide (chunk_Encoding (mc_chunk c) = e)) && _) eqn:Eenc; cbn [cut_if].
      * rewrite Ecut. cbn [mbind option_bind]. by eapply Hnew.
      * cbn [mbind option_bind]. eapply cut_by_samples_old; try done.
        -- apply Forall_cons in Hsz. tauto.
        -- apply andb_false_iff in Eenc as [Ee%negb_false_iff|Ec%orb_false_iff].
           ++ apply bool_decide_eq_true in Ee. by rewrite Ee.
           ++ destruct Ec as [Ec%negb_false_iff _]. unfold CompatibleValues in Ec. by apply andb_true_iff in Ec as [? _].
Qed.

(** ** Histogram chunks *)

(** Recording the predicted end of the chunk changes no chunk. *)
Lemma same_chunks_state s0 s w : same_chunks s0 s -> same_chunks s0 (set_state w s).
Proof. done. Qed.

Lemma prepared_state o Q t s0 s w b : prepared o Q t s0 s b -> prepared o Q t s0 (set_state w s) b.
Proof.
  destruct 1 as [c e Hcut HQ|c l lo]; [|by apply (prepared_same _ _ _ _ _ c l lo)].
  apply (prepared_new _ _ _ _ _ c e); [|done]. destruct Hcut. by split.
Qed.

Lemma cut_by_bytes_new t e o s0 s c (Q : ChunkEnc -> Prop) :
  opts_ok o -> time_ok o t -> cut_from t e o s0 s c -> Q e ->
  exists s', cut_by_bytes t e o s true = Some (s', true, true) /\ prepared o Q t s0 s' true.
Proof.
  intros Ho Ht Hcut HQ. unfold cut_by_bytes. rewrite (cut_head _ _ _ _ _ _ Hcut). cbn [head mbind option_bind mc_chunk].
  assert (En : chunk_NumSamples c = 0) by (by rewrite NumSamples_contents, (cut_empty _ _ _ _ _ _ Hcut)).
  rewrite En, Z.eqb_refl. cbv match. apply cut_from_fixed in Hcut. set (s1 := fix_minTime t o s) in *.
  rewrite (cut_head _ _ _ _ _ _ Hcut). cbn [head mbind option_bind mc_minTime mc_maxTime].
  set (computed := hasComputedHistogramChunkEndTime (state s1)).
  pose proof (rangeForTimestamp_after o t Ho Ht) as Hafter.
  assert (Enext : (if computed then rangeForTimestamp t (chunkRange o) else nextAt s1) = rangeForTimestamp t (chunkRange o)).
  { by destruct computed. }
  rewrite Enext, (proj2 (Z.leb_gt (rangeForTimestamp t (chunkRange o)) t)) by lia.
  change (MinSamplesPerHistogramChunk <=? 0) with false. cbn [orb]. rewrite andb_false_r.
  cbn [cut_if mbind option_bind]. eexists. split; [done|]. apply prepared_state, (prepared_new _ _ _ _ _ c e); [|done].
  destruct (negb computed && _); [|done]. destruct Hcut. by split.
Qed.

Lemma cut_by_bytes_old t e o s c l :
  opts_ok o -> time_ok o t -> IsValidEncoding e = true -> isFloatXOREncoding e = false ->
  counts_ok s -> room s ->
  headChunks s = c :: l -> size_ok o (mc_chunk c) -> chunk_Encoding (mc_chunk c) = e ->
  exists s' created, cut_by_bytes t e o s false = Some (s', true, created) /\
    prepared o (fun e' => e' = e) t s s' created.
Proof.
  intros Ho Ht Hv He Hc Hr Eh Hsz Hf. unfold cut_by_bytes. rewrite Eh. cbn [head mbind option_bind].
  rewrite (NumSamples_exact o) by done. fold (fixed t o c s).
  destruct (fixed_spec t o c l s Eh) as (-> & _ & _ & _ & _ & Hfix). cbn [head mbind option_bind mc_minTime mc_maxTime].
  set (n := Z.of_nat (length (contents (mc_chunk c)))).
  set (start := if hasComputedHistogramChunkEndTime _ then _ else _).
  set (s2 := if negb _ && _ then _ else fixed t o c s).
  edestruct (cut_old t e o s c l s2 (fun e' => e' = e)) as (s' & created & -> & Hp); [done|done|done|done|done| | | |].
  - unfold s2. by destruct (negb _ && _).
  - intros [_ Ecut]%andb_true_iff En. apply length_contents_0 in En as En0. fold n in En0.
    assert (Est : start = rangeForTimestamp t (chunkRange o)).
    { unfold start. unfold fixed_min. rewrite decide_True, (Hfix En) by done. by case (hasComputedHistogramChunkEndTime _). }
    rewrite En0, Est in Ecut. change (MinSamplesPerHistogramChunk <=? 0) with false in Ecut.
    apply Z.leb_le in Ecut. pose proof (rangeForTimestamp_after o t Ho Ht). lia.
  - intros Ecut. split; [done|]. unfold size_bound. rewrite Hf, He. fold n.
    pose proof (contents_bytes (mc_chunk c)) as Hbytes. fold n in Hbytes.
    apply andb_false_iff in Ecut as [[_ Ecut%Z.leb_gt]%orb_false_iff|[Ecut%Z.leb_gt _]%orb_false_iff].
    + unfold TargetBytesPerHistogramChunk in Ecut. lia.
    + unfold MinSamplesPerHistogramChunk in Ecut. lia.
  - cbn [mbind option_bind]. eexists _, created. split; [done|]. destruct created; [by apply prepared_state|done].
Qed.

Lemma histogramsAppendPreprocessor_spec t e o d s :
  opts_ok o -> time_ok o t -> IsValidEncoding e = true -> isFloatXOREncoding e = false ->
  series_ok d o s -> room s -> maxTime s < t -> MinInt64 < t ->
  exists s' created, histogramsAppendPreprocessor t e o s = Some (s', true, created) /\
    prepared o (fun e' => e' = e) t s s' created.
Proof.
  intros Ho Ht Hv He Hs Hr Hm Hmin. unfold histogramsAppendPreprocessor.
  destruct (first_chunk_spec t e o s d Hv Hs Hr Hm Hmin) as (s1 & created & -> & _ & H1).
  pose proof Hs as [Hc _ _ _ _ Hsz]. cbn [mbind option_bind negb].
  assert (Hnew : forall s' c, cut_from t e o s s' c -> exists s'' created,
    cut_by_bytes t e o s' true = Some (s'', true, created) /\ prepared o (fun e' => e' = e) t s s'' created).
  { intros s' c Hcut. destruct (cut_by_bytes_new t e o s s' c (fun e' => e' = e) Ho Ht Hcut eq_refl) as (s'' & E & Hp). eauto. }
  destruct created.
  - destruct H1 as (_ & c & Hcut). rewrite (cut_head _ _ _ _ _ _ Hcut). cbn [head mbind option_bind mc_chunk].
    rewrite (cut_enc _ _ _ _ _ _ Hcut), bool_decide_refl. cbn [negb cut_if mbind option_bind]. by eapply Hnew.
  - destruct H1 as (-> & Hne). destruct (headChunks s) as [|c l] eqn:Eh; [done|]. cbn [head mbind option_bind].
    case_bool_decide as Eenc; cbn [negb cut_if].
    + cbn [mbind option_bind]. eapply cut_by_bytes_old; try done. apply Forall_cons in Hsz. tauto.
    + destruct (cut_spec t e o s s Hv) as (s' & c' & -> & Hcut & _); [done..|]. cbn [mbind option_bind]. by eapply Hnew.
Qed.

(** ** The sample is added *)

(** The chunks of a series behind its newest one. *)
Definition older_view (d : D) (s : series) (l : list (memChunk C)) : list cview :=
  map (mmapped_view d) (mmappedChunks s) ++ map head_view (reverse l).

Lemma view_cons d s c l : headChunks s = c :: l -> view d s = older_view d s l ++ [head_view c].
Proof. intros E. unfold view, older_view. by rewrite E, reverse_cons, map_app, app_assoc. Qed.

Lemma finish_ok d o s0 s c' cs lo l (x : smp) :
  series_ok d o s0 -> maxTime s0 < s_t x -> MinInt64 < s_t x ->
  kept s0 s -> headChunks s = mk_memChunk c' lo (s_t x) :: l ->
  headChunkCount s = Z.of_nat (S (length l)) -> Z.of_nat (length (mmappedChunks s0) + S (length l)) < oooChunkIDMask ->
  ser_app s = Some c' ->
  chunks_ok (older_view d s0 l) -> concat (map vsamples (older_view d s0 l)) ++ cs = series_samples d s0 ->
  contents c' = cs ++ [x] -> lo = match cs with [] => s_t x | y :: _ => s_t y end ->
  size_ok o c' -> Forall (fun c => size_ok o (mc_chunk c)) l ->
  series_ok d o s /\ series_samples d s = series_samples d s0 ++ [x].
Proof.
  intros Hs0 Hmax Hmin (Er & Em & Ef & Eo) Eh Ec Hroom Ea Hvs Esamples Hc' Hlo Hsz Hszl.
  rewrite (maxTime_last d o) in Hmax by done. pose proof Hs0 as [[_ Hf _] _ _ Hsort Htimes _].
  rewrite <-Esamples in *.
  destruct (grown_ok (older_view d s0 l) cs lo c' x) as (H1 & H2 & H3 & H4); try done.
  assert (Ev : view d s = older_view d s0 l ++ [(Some c', lo, s_t x)]).
  { rewrite (view_cons _ _ _ _ Eh). unfold older_view. by rewrite Em. }
  unfold series_samples. rewrite Ev. split; [|done]. split; rewrite ?Ev.
  - split; rewrite ?Eh, ?Ec, ?Ef, ?Em; done.
  - by rewrite Eh, Ea.
  - done.
  - unfold series_samples. by rewrite Ev.
  - unfold series_samples. by rewrite Ev.
  - rewrite Eh. by constructor.
Qed.

Lemma older_all d s : older_view d s (headChunks s) = view d s.
Proof. done. Qed.

Lemma good_min (v : cview) y cs : good v -> vsamples v = y :: cs -> v.1.2 = s_t y.
Proof. intros [(z & Hz & <-) _] E. rewrite E in Hz. by injection Hz as ->. Qed.

(** Writing the sample to the chunk that was prepared for it. *)
Lemma written_ok d o Q s0 s (x : smp) created :
  series_ok d o s0 -> room s0 -> maxTime s0 < s_t x -> MinInt64 < s_t x -> opts_ok o ->
  prepared o Q (s_t x) s0 s created ->
  exists app, ser_app s = Some app /\ Q (chunk_Encoding app) /\ (created = true -> contents app = []) /\
    forall c' s', contents c' = contents app ++ [x] -> chunk_Encoding c' = chunk_Encoding app ->
      kept s s' -> headChunks s' = headChunks (written c' (s_t x) s) -> headChunkCount s' = headChunkCount s ->
      ser_app s' = Some c' ->
      series_ok d o s' /\ series_samples d s' = series_samples d s0 ++ [x] /\
      length (headChunks s') = (length (headChunks s0) + if created then 1 else 0)%nat.
Proof.
  intros Hs Hr Hmax Hmin Ho Hp. pose proof Hs as [[Hc Hf Hn] Happ Hch _ _ Hsz].
  destruct Hp as [c e Hcut HQ|c l lo Hb Eh0 Eh Ec Ea Elo HQ Hlt].
  - exists c. pose proof Hcut as [Hb Eh Ec Ea Eno Een]. rewrite Een. split_and!; [done..|].
    intros c' s' Hc' He' Hb' Eh' Ec' Ea'.
    assert (Eh2 : headChunks s' = mk_memChunk c' (s_t x) (s_t x) :: headChunks s0).
    { rewrite Eh'. unfold written, upd_head. by rewrite Eh. }
    destruct (finish_ok d o s0 s' c' [] (s_t x) (headChunks s0) x) as [H1 H2]; try done.
    + unfold same_base, kept in *. intuition congruence.
    + rewrite Ec', Ec, Hc. lia.
    + unfold room in Hr. lia.
    + by rewrite app_nil_r.
    + by rewrite Hc', Eno.
    + unfold size_ok, size_bound. rewrite Hc', Eno. cbn. destruct Ho as [_ H4 _]. destruct (isFloatXOREncoding _); lia.
    + split_and!; [done|done|]. rewrite Eh2. cbn. lia.
  - rewrite Eh0 in *. exists (mc_chunk c). rewrite Ea. split_and!; [done..|].
    intros c' s' Hc' He' Hb' Eh' Ec' Ea'.
    assert (Eh2 : headChunks s' = mk_memChunk c' lo (s_t x) :: l).
    { rewrite Eh'. unfold written, upd_head. by rewrite Eh. }
    rewrite (view_cons _ _ _ _ Eh0) in Hch. apply chunks_ok_snoc in Hch as [Hvs Hlast].
    destruct (finish_ok d o s0 s' c' (contents (mc_chunk c)) lo l x) as [H1 H2]; try done.
    + unfold same_base, kept in *. intuition congruence.
    + by rewrite Ec', Ec, Hc.
    + unfold series_samples. by rewrite (view_cons _ _ _ _ Eh0), concat_snoc.
    + rewrite Elo. destruct (contents (mc_chunk c)) as [|y cs] eqn:Ecs; [done|]. rewrite decide_False by done.
      destruct Hlast as [Hg|[_ [Hg _]]]; [|cbn in Hg; congruence]. exact (good_min _ _ _ Hg Ecs).
    + unfold size_ok, size_bound in *. rewrite Hc', He', length_app. cbn [length]. lia.
    + apply Forall_cons in Hsz. tauto.
    + split_and!; [done|done|]. rewrite Eh2. cbn. lia.
Qed.

(** A sample that is not in order; only a sample at the least int64 leaves a
    trace, an empty chunk in a series without chunks. *)
Lemma first_chunk_rejects t e o d s :
  opts_ok o -> IsValidEncoding e = true -> series_ok d o s -> room s -> MinInt64 <= t -> t <= maxTime s ->
  exists s' created, first_chunk t e o s = Some (s', false, created) /\ series_ok d o s' /\
    series_samples d s' = series_samples d s /\ kept s s' /\
    length (headChunks s') = (length (headChunks s) + if (created : bool) then 1 else 0)%nat.
Proof.
  intros Ho He Hs Hr Hmin Ht. unfold first_chunk. unfold maxTime in Ht. destruct (headChunks s) as [|c l] eqn:Eh.
  - destruct (last (mmappedChunks s)) as [m|] eqn:Em.
    { rewrite (proj2 (Z.leb_le _ _)) by lia. exists s, false. rewrite Eh. by split_and!. }
    pose proof Hs as [Hc _ _ _ _ _].
    destruct (cut_spec t e o s s He) as (s' & c & -> & [Hb Eh' Ec Ea Eno Een] & _); [done..|].
    cbn [mbind option_bind]. unfold check_order. rewrite Eh'. cbn [head mbind option_bind mc_maxTime].
    rewrite (proj2 (Z.leb_le _ _)) by lia. exists s', true.
    apply last_None in Em. assert (Em' : mmappedChunks s' = []) by (destruct Hb as ((_ & E & _) & _); congruence).
    assert (Ev : view d s' = [(Some c, t, MinInt64)]) by (unfold view; by rewrite Em', Eh', Eh).
    assert (Es : series_samples d s' = []) by (unfold series_samples; rewrite Ev; cbn; by rewrite Eno).
    assert (Es0 : series_samples d s = []) by (unfold series_samples, view; by rewrite Em, Eh).
    split; [done|]. split; [|split; [by rewrite Es, Es0|split; [apply Hb|by rewrite Eh', Eh]]].
    destruct Hc as [Hcnt Hf _]. destruct Hb as ((_ & _ & Ef & _) & _). split.
    + split; rewrite ?Eh', ?Ec, ?Ef, ?Em', ?Hcnt, ?Eh; done.
    + by rewrite Eh', Ea.
    + rewrite Ev. cbn. split; [by right|constructor].
    + rewrite Es. constructor.
    + rewrite Es. constructor.
    + rewrite Eh', Eh. apply Forall_singleton. unfold size_ok, size_bound. cbn [mc_chunk]. rewrite Eno. cbn [length].
      destruct Ho as [_ H4 _]. destruct (isFloatXOREncoding _); lia.
  - unfold check_order. rewrite Eh. cbn [head mbind option_bind]. rewrite (proj2 (Z.leb_le _ _)) by lia.
    exists s, false. rewrite Eh, Nat.add_0_r. by split_and!.
Qed.

Lemma txs_add_spec id s :
  (0 < id -> is_Some (txs s)) -> exists x, txs_add id s = Some (set_txs x s) /\
    x = if 0 <? id then (fun r => txRing_add r id) <$> txs s else txs s.
Proof.
  intros Hid. unfold txs_add. destruct (Z.ltb_spec 0 id) as [Hlt|_].
  - destruct (Hid Hlt) as [r ->]. by eexists.
  - exists (txs s). split; [|done]. by destruct s.
Qed.

(** What an append of [x] does, whatever its type. *)
Definition adds (d : D) (o : chunkOpts) (s : series) (x : smp) (r : option (series * bool * bool)) : Prop :=
  exists s' created, r = Some (s', maxTime s <? s_t x, created) /\ series_ok d o s' /\
    series_samples d s' = series_samples d s ++ (if maxTime s <? s_t x then [x] else []) /\
    length (headChunks s') = (length (headChunks s) + if (created : bool) then 1 else 0)%nat /\
    ser_ref s' = ser_ref s /\ mmappedChunks s' = mmappedChunks s /\ firstChunkID s' = firstChunkID s /\ ooo s' = ooo s.

Lemma adds_rejected d o s x s' created :
  ~ maxTime s < s_t x -> series_ok d o s' -> series_samples d s' = series_samples d s -> kept s s' ->
  length (headChunks s') = (length (headChunks s) + if (created : bool) then 1 else 0)%nat ->
  adds d o s x (Some (s', false, created)).
Proof.
  intros Ht Hs' Es Hb El. exists s', created. rewrite (proj2 (Z.ltb_ge _ _)) by lia. rewrite app_nil_r.
  unfold kept in Hb. by intuition.
Qed.

Lemma adds_accepted d o s x s' created :
  maxTime s < s_t x -> series_ok d o s' -> series_samples d s' = series_samples d s ++ [x] -> kept s s' ->
  length (headChunks s') = (length (headChunks s) + if (created : bool) then 1 else 0)%nat ->
  adds d o s x (Some (s', true, created)).
Proof.
  intros Ht Hs' Es Hb El. exists s', created. rewrite (proj2 (Z.ltb_lt _ _)) by lia.
  unfold kept in Hb. by intuition.
Qed.

Lemma float_encoding o :
  let e := ChunkEncoding ValFloat (useXOR2 o) (useHistogramST o) in
  IsValidEncoding e = true /\ isFloatXOREncoding e = true.
Proof. cbv zeta. by destruct (useXOR2 o), (useHistogramST o). Qed.

Lemma hist_encoding_valid o v :
  v = ValHistogram \/ v = ValFloatHistogram ->
  let e := ChunkEncoding v (useXOR2 o) (useHistogramST o) in
  IsValidEncoding e = true /\ isFloatXOREncoding e = false.
Proof. cbv zeta. by intros [-> | ->]; destruct (useXOR2 o), (useHistogramST o). Qed.

Lemma prepared_base o Q t s0 s created : prepared o Q t s0 s created -> same_base s0 s.
Proof. by destruct 1 as [c e []|]. Qed.

Lemma in_order_min d o s t : series_ok d o s -> maxTime s < t -> MinInt64 < t.
Proof.
  intros Hs Hlt. rewrite (maxTime_last d o) in Hlt by done. destruct Hs as [_ _ _ _ Hall _]. revert Hall Hlt.
  unfold last_time. destruct (series_samples d s) as [|y l _] using rev_ind; [done|]. rewrite last_snoc.
  intros [_ Hy]%Forall_app ?. rewrite Forall_singleton in Hy. lia.
Qed.

Lemma prepared_nonempty o Q t s0 s created app d :
  series_ok d o s0 -> prepared o Q t s0 s created -> ser_app s = Some app -> contents app <> [] ->
  created = false /\ headChunks s = headChunks s0 /\ headChunkCount s = headChunkCount s0.
Proof.
  intros Hs Hp Ea Hne. pose proof (ok_app _ _ _ Hs) as Happ.
  destruct Hp as [c e Hcut _|c l lo Hb Eh0 Eh Ec Ea' Elo _ _].
  - rewrite (cut_app _ _ _ _ _ _ Hcut) in Ea. injection Ea as <-. by destruct Hne, Hcut.
  - rewrite Eh0 in *. rewrite Ea', Happ in Ea. injection Ea as <-. rewrite decide_False in Elo by done.
    split_and!; [done| |done]. rewrite Eh, Elo. by destruct c.
Qed.

(** What the histogram appenders promise of one append of [x] to [app]. *)
Definition hist_result (app : C) (x : smp) (r : appended C) : Prop :=
  match r with
  | Same c => contents c = contents app ++ [x] /\ chunk_Encoding c = chunk_Encoding app
  | Recoded c => contents c = contents app ++ [x] /\ chunk_Encoding c = chunk_Encoding app /\ contents app <> []
  | NewChunk c => contents c = [x] /\ contents app <> []
  end.

Lemma finish_histogram_adds d o Q s0 s (x : smp) created app r id a b v :
  opts_ok o -> series_ok d o s0 -> room s0 -> maxTime s0 < s_t x -> MinInt64 < s_t x -> (0 < id -> is_Some (txs s0)) ->
  prepared o Q (s_t x) s0 s created -> ser_app s = Some app -> hist_result app x r ->
  adds d o s0 x (finish_histogram r (s_t x) id o created (set_last v a b s)).
Proof.
  intros Ho Hs Hr Hlt Hmin Hid Hp Ea Hres. unfold finish_histogram.
  destruct (prepared_base _ _ _ _ _ _ Hp) as [Hk Ht].
  destruct (txs_add_spec id (set_last v a b s)) as (tx & -> & _); [by cbn; rewrite Ht|]. cbn [mbind option_bind].
  pose proof (written_ok d o Q s0 s x created Hs Hr Hlt Hmin Ho Hp) as (app' & Ea' & _ & _ & Hw).
  rewrite Ea in Ea'. injection Ea' as <-.
  set (s1 := set_txs tx (set_last v a b s)).
  assert (Hw' : forall c, contents c = contents app ++ [x] -> chunk_Encoding c = chunk_Encoding app ->
    adds d o s0 x (Some (written c (s_t x) s1, true, created))).
  { intros c Hc He.
    edestruct (Hw c (written c (s_t x) s1)) as (H1 & H2 & H3); [done|done| | | |done|].
    1-3: unfold s1, written, upd_head; by cbn; destruct (headChunks s).
    apply adds_accepted; try done. unfold kept, s1, written, upd_head in *. cbn. by destruct (headChunks s). }
  destruct r as [c|c|c].
  - destruct Hres. by apply Hw'.
  - destruct Hres as (Hc & He & Hne).
    destruct (prepared_nonempty _ _ _ _ _ _ _ _ Hs Hp Ea Hne) as (-> & _). by apply Hw'.
  - destruct Hres as [Hc Hne]. destruct (prepared_nonempty _ _ _ _ _ _ _ _ Hs Hp Ea Hne) as (-> & Eh & Ec).
    pose proof Hs as [[Hcnt Hf Hn] _ Hch _ _ Hsz]. destruct Hk as (Er & Em & Ef & Eo).
    rewrite pushHeadChunk_room.
    2: { split; cbn; rewrite ?Eh, ?Ec, ?Em, ?Ef; done. }
    2: { unfold room in *. cbn. by rewrite Eh, Em. }
    cbn [mbind option_bind]. set (s2 := set_app _ _).
    assert (Eh2 : headChunks s2 = mk_memChunk c (s_t x) (s_t x) :: headChunks s0) by (cbn; by rewrite Eh).
    destruct (finish_ok d o s0 s2 c [] (s_t x) (headChunks s0) x) as [H1 H2]; try done.
    + cbn. rewrite Ec, Hcnt. lia.
    + unfold room in Hr. lia.
    + by rewrite app_nil_r.
    + unfold size_ok, size_bound. rewrite Hc. cbn [length]. destruct Ho as [_ H4 _]. destruct (isFloatXOREncoding _); lia.
    + exists s2, true. rewrite (proj2 (Z.ltb_lt _ _)) by done. split_and!; try done. rewrite Eh2. cbn [length]. lia.
Qed.

Lemma append_adds d o s st t v appendID :
  opts_ok o -> time_ok o t -> series_ok d o s -> room s -> (0 < appendID -> is_Some (txs s)) ->
  adds d o s (mk_sample st t v None None) (append st t v appendID o s).
Proof.
  intros Ho Ht Hs Hr Hid. unfold append. destruct (float_encoding o) as [Hv He]. set (e := ChunkEncoding _ _ _) in *.
  destruct (Z.lt_ge_cases (maxTime s) t) as [Hlt|Hge].
  - assert (Hmin : MinInt64 < t).
    { by apply (in_order_min d o s t). }
    destruct (appendPreprocessor_spec t e o d s Ho Ht Hv He Hs Hr Hlt Hmin) as (s1 & created & -> & Hp).
    cbn [mbind option_bind negb]. set (x := mk_sample st t v None None).
    destruct (written_ok d o _ s s1 x created Hs Hr Hlt Hmin Ho Hp) as (app & Ea & _ & _ & Hw).
    rewrite Ea. cbn [mbind option_bind]. set (s2 := set_last v None None (written (Append app x) t s1)).
    assert (Hb : same_base s1 s2) by (unfold s2, written, upd_head; by destruct (headChunks s1)).
    destruct (prepared_base _ _ _ _ _ _ Hp) as [Hk Ht1]. destruct Hb as [Hb Ht2].
    destruct (txs_add_spec appendID s2) as (r & -> & _); [by rewrite Ht2, Ht1|]. cbn [mbind option_bind].
    edestruct (Hw (Append app x) (set_txs r s2)) as (H1 & H2 & H3);
      [apply append_contents|apply append_encoding|exact Hb|done|unfold s2, written, upd_head; by destruct (headChunks s1)|done|].
    apply adds_accepted; try done. unfold kept in *. cbn [set_txs ser_ref mmappedChunks firstChunkID ooo].
    intuition congruence.
  - destruct (first_chunk_rejects t e o d s) as (s' & created & Efc & H1 & H2 & H3 & H4); try done; [apply Ht|].
    unfold appendPreprocessor. rewrite Efc. cbn [mbind option_bind negb]. apply adds_rejected; try done. cbn. lia.
Qed.

(** Both histogram appends are this function of the appender's method. *)
Lemma histogram_adds (f : option C -> C -> appended C) d o s (x : smp) e id (h : series -> Z) a b :
  opts_ok o -> time_ok o (s_t x) -> series_ok d o s -> room s -> (0 < id -> is_Some (txs s)) ->
  IsValidEncoding e = true -> isFloatXOREncoding e = false -> (forall p c, hist_result c x (f p c)) ->
  adds d o s x
    ('(s1, inOrder, chunkCreated) ← histogramsAppendPreprocessor (s_t x) e o s;
     if negb (inOrder : bool) then Some (s1, false, chunkCreated)
     else
       let prevApp := if negb chunkCreated then None else ser_app s in
       app ← ser_app s1;
       finish_histogram (f prevApp app) (s_t x) id o chunkCreated (set_last (h s1) a b s1)).
Proof.
  intros Ho Ht Hs Hr Hid Hv He Hf. destruct (Z.lt_ge_cases (maxTime s) (s_t x)) as [Hlt|Hge].
  - pose proof (in_order_min _ _ _ _ Hs Hlt) as Hmin.
    destruct (histogramsAppendPreprocessor_spec (s_t x) e o d s Ho Ht Hv He Hs Hr Hlt Hmin) as (s1 & created & -> & Hp).
    cbn [mbind option_bind negb].
    pose proof (written_ok d o _ s s1 x created Hs Hr Hlt Hmin Ho Hp) as (app & Ea & _ & _ & _).
    rewrite Ea. cbn [mbind option_bind]. by eapply finish_histogram_adds.
  - destruct (first_chunk_rejects (s_t x) e o d s) as (s' & created & Efc & H1 & H2 & H3 & H4); try done; [apply Ht|].
    unfold histogramsAppendPreprocessor. rewrite Efc. cbn [mbind option_bind negb]. apply adds_rejected; try done. lia.
Qed.

Lemma appends_adds d o s st t appendID :
  opts_ok o -> time_ok o t -> series_ok d o s -> room s -> (0 < appendID -> is_Some (txs s)) ->
  (forall v, adds d o s (mk_sample st t v None None) (append st t v appendID o s)) /\
  (forall h, adds d o s (mk_sample st t 0 (Some h) None) (appendHistogram st t h appendID o s)) /\
  (forall fh, adds d o s (mk_sample st t 0 None (Some fh)) (appendFloatHistogram st t fh appendID o s)).
Proof.
  intros Ho Ht Hs Hr Hid. split_and!; intros v.
  - by apply append_adds.
  - destruct (hist_encoding_valid o ValHistogram (or_introl eq_refl)) as [Hv He].
    eapply (histogram_adds (fun p c => AppendHistogram p c _) d o s (mk_sample st t 0 (Some v) None)); try done.
    intros p c. pose proof (hist_contents p c (mk_sample st t 0 (Some v) None)) as Hc.
    pose proof (hist_encoding p c (mk_sample st t 0 (Some v) None)) as He'. by destruct (AppendHistogram p c _).
  - destruct (hist_encoding_valid o ValFloatHistogram (or_intror eq_refl)) as [Hv He].
    eapply (histogram_adds (fun p c => AppendFloatHistogram p c _) d o s (mk_sample st t 0 None (Some v))); try done.
    intros p c. pose proof (fhist_contents p c (mk_sample st t 0 None (Some v))) as Hc.
    pose proof (fhist_encoding p c (mk_sample st t 0 None (Some v))) as He'. by destruct (AppendFloatHistogram p c _).
Qed.

(** C7: appending adds a sample exactly when it is later than all others.  On a
    well-formed series append, appendHistogram and appendFloatHistogram do not
    panic: a sample later than the series' maximum time becomes the last sample,
    any other leaves the samples as they were, and the first result says which;
    the second says whether there is one more head chunk.  The series stays well
    formed: chunks in time order with the right time ranges, at most twice
    samplesPerChunk floats in each, the counter of the head chunks right. *)
Theorem appends_add d o s st t appendID :
  opts_ok o -> time_ok o t -> series_ok d o s -> room s -> (0 < appendID -> is_Some (txs s)) ->
  (forall v, adds d o s (mk_sample st t v None None) (append st t v appendID o s)) /\
  (forall h, adds d o s (mk_sample st t 0 (Some h) None) (appendHistogram st t h appendID o s)) /\
  (forall fh, adds d o s (mk_sample st t 0 None (Some fh)) (appendFloatHistogram st t fh appendID o s)).
Proof. apply appends_adds. Qed.

(** ** Out-of-order samples *)

Section OutOfOrder.
  Context `{!DiskMapperLaws D C}.

Definition time_range (l : list smp) (lo hi : Z) : Prop :=
  (exists x, x ∈ l /\ s_t x = lo) /\ (exists x, x ∈ l /\ s_t x = hi) /\ Forall (fun x => lo <= s_t x <= hi) l.

(** The out-of-order samples, on disk and in the open chunk. *)
Definition fields_samples (d : D) (f : memSeriesOOOFields) : list smp :=
  concat (map (fun m => vsamples (mmapped_view d m)) (oooMmappedChunks f)) ++
  match oooHead f with Some c => oc_chunk c | None => [] end.

Definition ooo_samples (d : D) (s : series) : list smp :=
  match ooo s with Some f => fields_samples d f | None => [] end.

Record fields_ok (d : D) (f : @memSeriesOOOFields H FH) : Prop := {
  f_readable : Forall (fun m => is_Some (Chunk d (mm_ref m))) (oooMmappedChunks f);
  f_good : Forall (fun m => good (mmapped_view d m)) (oooMmappedChunks f);
  f_head : match oooHead f with
           | Some c => sorted (oc_chunk c) /\ time_range (oc_chunk c) (oc_minTime c) (oc_maxTime c) /\
                       Forall (fun x => is_i64 (s_t x)) (oc_chunk c)
           | None => True
           end }.

Definition ooo_ok (d : D) (s : series) : Prop := match ooo s with Some f => fields_ok d f | None => True end.

(** The encoded chunks of the open chunk, which are to be m-mapped, have IDs. *)
Definition ooo_room (s : series) : Prop :=
  match ooo s with
  | Some f =>
      Z.of_nat (length (oooMmappedChunks f) + match oooHead f with Some c => length (oc_chunk c) | None => 0 end)
        <= oooChunkIDMask - 1
  | None => True
  end.

Lemma chunk_ok_good m : chunk_ok m -> good (head_view m).
Proof. done. Qed.

Lemma length_encoded (chks : list (memChunk C)) : Forall chunk_ok chks -> (length chks <= length (all_contents chks))%nat.
Proof.
  induction 1 as [|m l [(x & Hx & _) _] _ IH]; [done|]. unfold all_contents in *. cbn [map concat length].
  rewrite length_app. destruct (contents (mc_chunk m)); [done|]. cbn [length]. lia.
Qed.

Lemma mmap_ooo_loop_spec sref chks : forall d refs mm,
  Z.of_nat (length mm + length chks) <= oooChunkIDMask - 1 ->
  Forall (fun m => is_Some (Chunk d (mm_ref m))) mm ->
  exists d' refs' mm', mmap_ooo_loop sref chks d refs mm = (d', refs', mm') /\
    Forall (fun m => is_Some (Chunk d' (mm_ref m))) mm' /\
    map (mmapped_view d') mm' = map (mmapped_view d) mm ++ map head_view chks /\
    length refs' = (length refs + length chks)%nat.
Proof.
  induction chks as [|c chks IH]; intros d refs mm Hl Hr; cbn [mmap_ooo_loop].
  { exists d, refs, mm. split_and!; [done|done|by rewrite app_nil_r|cbn; lia]. }
  cbn [length] in Hl. rewrite (proj2 (Z.leb_gt _ _)) by lia.
  pose proof (write_read d sref (mc_minTime c) (mc_maxTime c) (mc_chunk c) true) as Hw.
  destruct (mmapped_view_keeps d sref (mc_minTime c) (mc_maxTime c) (mc_chunk c) true mm Hr) as [Hr' Hv].
  destruct (WriteChunk _ _ _ _ _ _) as [d1 r]. cbn [fst snd] in *.
  destruct (IH d1 (refs ++ [r]) (mm ++ [mk_mmappedChunk r (u16 (chunk_NumSamples (mc_chunk c)))
              (chunk_Encoding (mc_chunk c)) (mc_minTime c) (mc_maxTime c)])) as (d' & refs' & mm' & -> & H1 & H2 & H3).
  { rewrite length_app. cbn [length]. lia. }
  { apply Forall_app. split; [done|]. apply Forall_singleton. by eexists. }
  exists d', refs', mm'. split_and!; [done|done| |rewrite H3, length_app; cbn [length]; lia].
  rewrite H2, map_app, Hv, <-app_assoc. cbn [map app]. unfold mmapped_view at 2, head_view at 2. cbn. by rewrite Hw.
Qed.

Lemma map_vsamples (d : D) mm : concat (map (fun m => vsamples (mmapped_view d m)) mm) = concat (map vsamples (map (mmapped_view d) mm)).
Proof. by rewrite map_map. Qed.

Lemma encoded_samples (chks : list (memChunk C)) : concat (map vsamples (map head_view chks)) = all_contents chks.
Proof. unfold all_contents. by rewrite map_map. Qed.

Lemma good_views d mm : Forall good (map (mmapped_view d) mm) <-> Forall (fun m => good (mmapped_view d m)) mm.
Proof. apply Forall_map. Qed.

(** m-mapping the open chunk keeps every out-of-order sample. *)
Lemma mmapCurrentOOOHeadChunk_spec o d s f :
  ooo s = Some f -> fields_ok d f -> ooo_room s ->
  exists d' f' refs, mmapCurrentOOOHeadChunk o d s = Some (d', set_ooo (Some f') s, refs) /\
    oooHead f' = None /\ fields_ok d' f' /\ fields_samples d' f' = fields_samples d f.
Proof.
  intros Ef [Hread Hgood Hhead] Hroom. unfold mmapCurrentOOOHeadChunk. rewrite Ef. unfold ooo_room in Hroom. rewrite Ef in Hroom.
  destruct (oooHead f) as [c|] eqn:Eh.
  - destruct Hhead as (Hsort & Hrange & Hi64).
    destruct (ToEncodedChunks_spec (C := C) (oc_chunk c) MinInt64 MaxInt64 (useXOR2 o) (useHistogramST o) Hsort)
      as (chks & -> & Hok & Hall). rewrite filter_all in Hall by (eapply Forall_impl; [exact Hi64|done]).
    pose proof (length_encoded chks Hok) as Hl. rewrite Hall in Hl.
    destruct (mmap_ooo_loop_spec (ser_ref s) chks d [] (oooMmappedChunks f)) as (d' & refs & mm & -> & H1 & H2 & _); [lia|done|].
    exists d', (mk_memSeriesOOOFields mm None (firstOOOChunkID f)), refs. split_and!; [done|done| |].
    + split; cbn [oooMmappedChunks oooHead]; [done| |done]. apply good_views. rewrite H2. apply Forall_app.
      split; [by apply good_views|]. by apply Forall_map.
    + unfold fields_samples. cbn [oooMmappedChunks oooHead]. rewrite Eh, !map_vsamples, H2, map_app, concat_app, encoded_samples, Hall.
      by rewrite app_nil_r.
  - exists d, f, []. split_and!; [|done|split; by rewrite ?Eh|done]. rewrite <-Ef. by destruct s.
Qed.

Lemma time_range_insert l lo hi (x : smp) out created :
  (created = true /\ l = []) \/ (created = false /\ time_range l lo hi) -> out ≡ₚ x :: l ->
  time_range out (if created || (s_t x <? lo) then s_t x else lo) (if created || (hi <? s_t x) then s_t x else hi).
Proof.
  intros Hl Hp. unfold time_range. setoid_rewrite Hp.
  destruct Hl as [[-> ->]|[-> (Hlo & Hhi & Hall)]]; cbn [orb].
  - split_and!; [exists x; split; [by left|done]..|]. by repeat constructor.
  - pose proof (proj1 (Forall_forall _ _) Hall) as Hall'.
    assert (Hlh : lo <= hi) by (destruct Hlo as (y & Hy & <-); apply (Hall' _ Hy)).
    split_and!.
    + destruct (Z.ltb_spec (s_t x) lo); [exists x; by split; [left|]|]. destruct Hlo as (y & Hy & E). exists y. by split; [right|].
    + destruct (Z.ltb_spec hi (s_t x)); [exists x; by split; [left|]|]. destruct Hhi as (y & Hy & E). exists y. by split; [right|].
    + constructor; [destruct (Z.ltb_spec (s_t x) lo), (Z.ltb_spec hi (s_t x)); lia|].
      eapply Forall_impl; [exact Hall|]. intros y Hy. cbv beta in Hy.
      destruct (Z.ltb_spec (s_t x) lo), (Z.ltb_spec hi (s_t x)); lia.
Qed.

(** The open chunk that [insert] puts a sample in. *)
Definition full_or_absent (oooCapMax : Z) (s : series) : bool :=
  match ooo s with
  | Some f => match oooHead f with Some c => Z.of_nat (NumSamples (oc_chunk c)) =? oooCapMax | None => true end
  | None => true
  end.

Definition open_samples (s : series) : list smp :=
  match ooo s with
  | Some f => match oooHead f with Some c => oc_chunk c | None => [] end
  | None => []
  end.

Lemma open_ooo_chunk_spec t o cap d s f :
  ooo s = Some f -> fields_ok d f -> ooo_room s ->
  exists d' f' c created refs, open_ooo_chunk t o cap d s = Some (d', set_ooo (Some f') s, c, created, refs) /\
    created = full_or_absent cap s /\
    fields_ok d' (mk_memSeriesOOOFields (oooMmappedChunks f') None (firstOOOChunkID f')) /\
    sorted (oc_chunk c) /\ Forall (fun x => is_i64 (s_t x)) (oc_chunk c) /\
    (created = true /\ oc_chunk c = [] \/
     created = false /\ time_range (oc_chunk c) (oc_minTime c) (oc_maxTime c) /\ oc_chunk c = open_samples s) /\
    concat (map (fun m => vsamples (mmapped_view d' m)) (oooMmappedChunks f')) ++ oc_chunk c = ooo_samples d s.
Proof.
  intros Ef Hok Hroom. unfold open_ooo_chunk, full_or_absent, open_samples, ooo_samples. rewrite Ef. cbn [mbind option_bind].
  assert (Hcut : exists d' f' c refs,
    ('(d, s, c, refs) ← cutNewOOOHeadChunk t o d s; Some (d, s, c, true, refs)) =
      Some (d', set_ooo (Some f') s, c, true, refs) /\
    fields_ok d' (mk_memSeriesOOOFields (oooMmappedChunks f') None (firstOOOChunkID f')) /\ oc_chunk c = [] /\
    concat (map (fun m => vsamples (mmapped_view d' m)) (oooMmappedChunks f')) = fields_samples d f).
  { unfold cutNewOOOHeadChunk.
    destruct (mmapCurrentOOOHeadChunk_spec o d s f Ef Hok Hroom) as (d' & f1 & refs & -> & Eh & [H1 H2 _] & Es).
    cbn [mbind option_bind ooo set_ooo].
    exists d', (mk_memSeriesOOOFields (oooMmappedChunks f1) (Some (mk_oooHeadChunk [] t MinInt64)) (firstOOOChunkID f1)),
      (mk_oooHeadChunk [] t MinInt64), refs.
    split_and!; [done|by split|done|]. rewrite <-Es. unfold fields_samples. rewrite Eh. by rewrite app_nil_r. }
  destruct Hcut as (d' & f' & c & refs & Ecut & Hf & Ec & Es).
  assert (Hnew : exists d' f' c created refs,
    ('(d, s, c, refs) ← cutNewOOOHeadChunk t o d s; Some (d, s, c, true, refs)) =
      Some (d', set_ooo (Some f') s, c, created, refs) /\ created = true /\
    fields_ok d' (mk_memSeriesOOOFields (oooMmappedChunks f') None (firstOOOChunkID f')) /\
    sorted (oc_chunk c) /\ Forall (fun x => is_i64 (s_t x)) (oc_chunk c) /\
    (created = true /\ oc_chunk c = [] \/
     created = false /\ time_range (oc_chunk c) (oc_minTime c) (oc_maxTime c) /\
     oc_chunk c = match oooHead f with Some c => oc_chunk c | None => [] end) /\
    concat (map (fun m => vsamples (mmapped_view d' m)) (oooMmappedChunks f')) ++ oc_chunk c = fields_samples d f).
  { exists d', f', c, true, refs. rewrite Ec, app_nil_r. split_and!; try done; [constructor|by left]. }
  destruct (oooHead f) as [c0|] eqn:Eh; [|exact Hnew].
  destruct (Z.of_nat (NumSamples (oc_chunk c0)) =? cap); [exact Hnew|].
  destruct Hok as [H1 H2 H3]. rewrite Eh in H3. destruct H3 as (Hs & Hr & Hi).
  exists d, f, c0, false, []. split_and!; try done.
  - rewrite <-Ef. by destruct s.
  - right. done.
  - unfold fields_samples. by rewrite Eh.
Qed.

Lemma insert_spec d o s x oooCapMax :
  ooo_ok d s -> ooo_room s -> is_i64 (s_t x) ->
  exists d' s' ok created refs, insert x o oooCapMax d s = Some (d', s', ok, created, refs) /\
    ooo_ok d' s' /\ headChunks s' = headChunks s /\ mmappedChunks s' = mmappedChunks s /\
    created = full_or_absent oooCapMax s /\
    (ok = false <-> created = false /\ Exists (fun y => s_t y = s_t x) (open_samples s)) /\
    ooo_samples d' s' ≡ₚ (if ok then [x] else []) ++ ooo_samples d s.
Proof.
  intros Hok Hroom Hx.
  set (s0 := match ooo s with None => set_ooo (Some (mk_memSeriesOOOFields [] None 0)) s | Some _ => s end).
  assert (Hs0 : exists f, ooo s0 = Some f /\ fields_ok d f /\ ooo_room s0 /\ ooo_samples d s0 = ooo_samples d s /\
    full_or_absent oooCapMax s0 = full_or_absent oooCapMax s /\ open_samples s0 = open_samples s).
  { unfold s0, ooo_ok, ooo_room, ooo_samples, full_or_absent, open_samples in *. destruct (ooo s) as [f|] eqn:Ef.
    - rewrite Ef. by exists f.
    - eexists. split_and!; try done; by constructor. }
  destruct Hs0 as (f & Ef & Hf & Hr & E1 & E2 & E3).
  destruct (open_ooo_chunk_spec (s_t x) o oooCapMax d s0 f Ef Hf Hr)
    as (d' & f' & c & created & refs & Eopen & Hcr & [G1 G2 _] & Hsort & Hi64 & Hc & Es).
  unfold insert. fold s0. rewrite Eopen. cbn [mbind option_bind ooo set_ooo]. rewrite E1 in Es. rewrite E2 in Hcr. rewrite E3 in Hc.
  destruct (OOOChunk_Insert_spec x (oc_chunk c) Hsort) as [Hdup Hins].
  destruct (decide (Exists (fun y : smp => s_t y = s_t x) (oc_chunk c))) as [Hex|Hnex].
  - rewrite (Hdup Hex). destruct Hc as [[_ Enil]|(Ecr & Hrange & Eopens)]; [rewrite Enil in Hex; by apply Exists_nil in Hex|].
    eexists d', _, false, created, refs. split; [done|].
    split; [by split|]. split; [by unfold s0; destruct (ooo s)|]. split; [by unfold s0; destruct (ooo s)|].
    split; [done|]. split; [rewrite <-Eopens; tauto|]. cbn [app ooo_samples ooo set_ooo]. unfold fields_samples. cbn [oooMmappedChunks oooHead oc_chunk].
    by rewrite Es.
  - apply not_Exists_Forall in Hnex; [|apply _]. destruct (Hins Hnex) as (out & -> & Hso & Hperm).
    eexists d', _, true, created, refs. split; [done|].
    split; [|split; [by unfold s0; destruct (ooo s)|split; [by unfold s0; destruct (ooo s)|split; [done|split]]]].
    + split; cbn [oooMmappedChunks oooHead oc_chunk oc_minTime oc_maxTime]; [done|done|]. split_and!; [done| |].
      * eapply time_range_insert; [|exact Hperm]. tauto.
      * rewrite Hperm. by constructor.
    + split; [done|]. intros [-> Hex]. destruct Hc as [[? _]|(_ & _ & Eopens)]; [done|]. rewrite <-Eopens in Hex.
      apply Exists_exists in Hex as (y & Hy & Ey). rewrite Forall_forall in Hnex. by destruct (Hnex y Hy).
    + rewrite <-Es. unfold ooo_samples. cbn [ooo set_ooo]. unfold fields_samples. cbn [oooMmappedChunks oooHead oc_chunk].
      rewrite Hperm. by rewrite <-Permutation_middle.
Qed.

(** C29: an out-of-order sample is stored once.  insert does not panic; it
    refuses a sample exactly when the open out-of-order chunk is kept and has a
    sample with that timestamp, and then changes no sample; otherwise the stored
    samples are the old ones and the new one.  A full chunk is first encoded and
    m-mapped, and a new one opened; the chunks keep the time range of their
    samples, and the in-order chunks are not touched. *)
Theorem insert_stores_once d o s x oooCapMax :
  ooo_ok d s -> ooo_room s -> is_i64 (s_t x) ->
  exists d' s' ok created refs, insert x o oooCapMax d s = Some (d', s', ok, created, refs) /\
    ooo_ok d' s' /\ headChunks s' = headChunks s /\ mmappedChunks s' = mmappedChunks s /\
    created = full_or_absent oooCapMax s /\
    (ok = false <-> created = false /\ Exists (fun y => s_t y = s_t x) (open_samples s)) /\
    ooo_samples d' s' ≡ₚ (if ok then [x] else []) ++ ooo_samples d s.
Proof. apply insert_spec. Qed.
End OutOfOrder.
End Spec.

(** ** Where a sample goes *)

Section Appendable.
  Context {H FH C : Type}.
  Notation series := (@memSeries H FH C).

(** The common shape of the three functions: [dup] is the error for a sample at
    the maximum time that is not the newest sample again. *)
Definition decision (t headMaxt minValidTime oooTimeWindow : Z) (dup : option append_error) (s : series)
  : bool * Z * option append_error :=
  if minValidTime <=? t then
    match headChunks s with
    | [] => (false, 0, None)
    | _ =>
        if maxTime s <? t then (false, 0, None)
        else if t =? maxTime s then (false, 0, dup)
        else out_of_order t headMaxt minValidTime oooTimeWindow
    end
  else out_of_order t headMaxt minValidTime oooTimeWindow.

(** What each outcome says of the sample. *)
Definition outcome_ok (t headMaxt minValidTime w : Z) (dup : option append_error) (s : series)
    (r : bool * Z * option append_error) : Prop :=
  match r with
  | (false, _, None) =>
      minValidTime <= t /\ (headChunks s = [] \/ maxTime s < t \/ (t = maxTime s /\ dup = None))
  | (true, delta, None) =>
      (t < minValidTime \/ t < maxTime s) /\ 0 < w /\ headMaxt - w <= t /\ delta = headMaxt - t
  | (isOOO, _, Some ErrTooOldSample) =>
      isOOO = true /\ (t < minValidTime \/ t < maxTime s) /\ 0 < w /\ t < headMaxt - w
  | (isOOO, _, Some ErrOutOfBounds) => isOOO = false /\ t < minValidTime /\ w <= 0
  | (isOOO, _, Some ErrOutOfOrderSample) => isOOO = false /\ minValidTime <= t < maxTime s /\ w <= 0
  | (isOOO, _, Some e) => isOOO = false /\ minValidTime <= t /\ t = maxTime s /\ dup = Some e
  end.

Lemma decision_ok t headMaxt minValidTime w dup s :
  is_i64 (headMaxt - w) -> is_i64 (headMaxt - t) ->
  match dup with
  | None | Some (ErrDuplicateHistogramToFloat _ _) | Some (ErrDuplicateFloat _ _ _) | Some ErrDuplicateSampleForTimestamp => True
  | _ => False
  end ->
  outcome_ok t headMaxt minValidTime w dup s (decision t headMaxt minValidTime w dup s).
Proof.
  intros H1 H2 Hdup.
  assert (Hooo : t < minValidTime \/ t < maxTime s ->
    outcome_ok t headMaxt minValidTime w dup s (out_of_order t headMaxt minValidTime w)).
  { intros Ht. unfold out_of_order. rewrite !i64_id by done.
    destruct (Z.ltb_spec 0 w), (Z.leb_spec (headMaxt - w) t), (Z.ltb_spec t minValidTime); cbn; repeat split; lia. }
  unfold decision. destruct (Z.leb_spec minValidTime t) as [Hv|Hv]; [|apply Hooo; lia].
  destruct (headChunks s) as [|c l] eqn:Eh; [cbn; rewrite Eh; tauto|].
  destruct (Z.ltb_spec (maxTime s) t); [cbn; lia|]. destruct (Z.eqb_spec t (maxTime s)); [|apply Hooo; lia].
  destruct dup as [[]|]; cbn; rewrite ?Eh; repeat split; try done; lia || tauto.
Qed.

End Appendable.

(** ** Concrete series *)

Definition example_opts : chunkOpts := mk_chunkOpts 100 4 false false false.

Lemma example_opts_ok : opts_ok example_opts.
Proof. split; done. Qed.

Lemma example_series_ok : series_ok example_disk example_opts example_series.
Proof.
  split; [apply example_counts_ok|done| | | |].
  - cbn. split; [left; split; by eexists|]. repeat constructor; by eexists.
  - unfold sorted. cbn. repeat constructor; cbn; lia.
  - cbn. repeat constructor.
  - repeat constructor; done.
Qed.

Lemma appends_add_witness :
  adds example_disk example_opts example_series (mk_sample 0 31 7 None None)
    (append 0 31 7 0 example_opts example_series) /\
  adds example_disk example_opts example_series (mk_sample 0 31 0 (Some tt) None)
    (appendHistogram 0 31 tt 0 example_opts example_series) /\
  (append 0 30 7 0 example_opts example_series = Some (example_series, false, false)).
Proof.
  destruct (appends_add example_disk example_opts example_series 0 31 0 example_opts_ok) as (H1 & H2 & _);
    [by split|apply example_series_ok|done|done|]. split_and!; [apply H1|apply H2|by vm_compute].
Defined.

(** A full out-of-order chunk with a float and a histogram. *)
Definition example_ooo : @memSeries unit unit test_chunk :=
  set_ooo (Some (mk_memSeriesOOOFields [] (Some (mk_oooHeadChunk [flt 3; hst 9] 3 9)) 0)) example_series.

Lemma example_ooo_ok : ooo_ok example_disk example_ooo.
Proof.
  split; [constructor|constructor|]. cbn. split_and!.
  - repeat constructor; cbn; lia.
  - split; [exists (flt 3); split; [left|done]|]. split; [exists (hst 9); split; [right; left|done]|].
    do 2 (constructor; [cbn; lia|]). constructor.
  - do 2 (constructor; [done|]). constructor.
Qed.

Lemma insert_stores_once_witness :
  exists d' s' ok created refs,
    insert (flt 5) example_opts 2 example_disk example_ooo = Some (d', s', ok, created, refs) /\
    ooo_ok d' s' /\ headChunks s' = headChunks example_ooo /\ mmappedChunks s' = mmappedChunks example_ooo /\
    created = full_or_absent 2 example_ooo /\
    (ok = false <-> created = false /\ Exists (fun y => s_t y = 5) (open_samples example_ooo)) /\
    ooo_samples d' s' ≡ₚ (if ok then [flt 5] else []) ++ ooo_samples example_disk example_ooo.
Proof.
  apply (insert_stores_once example_disk example_opts example_ooo (flt 5) 2 example_ooo_ok); done.
Defined.

#[local] Instance unit_HistogramOps : HistogramOps unit := {| hist_Equals _ h := bool_decide (is_Some h); hist_Sum _ := 0; hist_buckets _ := 1 |}.


(** A series whose chunks are all m-mapped: appendable takes a sample for an
    in-order one that append then refuses. *)
Example appendable_ignores_mmapped :
  let s := mk_memSeries 7 [mk_mmappedChunk 0 2 EncXOR 1 50] [] 0 None 60 0 0 0 None None None None in
  appendable (H := unit) (FH := unit) (C := test_chunk) 10 1 50 0 0 s = (false, 0, None) /\
  append 0 10 1 0 example_opts s = Some (s, false, false).
Proof. by vm_compute. Qed.

(** The range end of a timestamp near the greatest int64 wraps around: the first
    sample of the series leaves an empty chunk behind its own. *)
Example append_range_end_wraps :
  exists s s' : @memSeries unit unit test_chunk, newMemSeries 7 true false = Some s /\
    append 0 (MaxInt64 - 5) 1 0 example_opts s = Some (s', true, true) /\
    map (fun c => length (tc_samples (mc_chunk c))) (headChunks s') = [1; 0]%nat.
Proof. eexists _, _. split; [done|]. split; [by vm_compute|done]. Qed.
