(* ===== verification/HeadSeries.v ===== *)
(** tsdb/head.go: the set of series of the head (seriesHashmap, stripeSeries)
    and its garbage collection.

    A series is found by its reference and by its label set; the second way goes
    through the 64-bit hash of the labels, with a list for the series whose
    hashes collide.  A pointer to a series is its reference here, and the objects
    are in a store ([heap]), where a series that was deleted from the maps still
    is, as appenders may hold it.  The locks of the stripes are held by each
    method; the order in which Go visits the keys of a map is an argument. *)
From stdpp Require Import fin_maps fin_sets.
From S2P Require Import Prelude OooHead HeadChunks.

(** ** seriesHashmap *)

Record seriesHashmap := mk_seriesHashmap { unique : gmap Z Z; conflicts : gmap Z (list Z) }.

Section Hashmap.
  (** Label sets, and the labels of the series that a reference points to. *)
  Context {L : Type} `{!EqDecision L}.
  Variable labels : Z -> option L.

Definition has_labels (lset : L) (ref : Z) : bool := bool_decide (labels ref = Some lset).

Definition default_conflicts (hash : Z) (m : seriesHashmap) : list Z := default [] (conflicts m !! hash).

Fixpoint get_loop (lset : L) (l : list Z) : option Z :=
  match l with
  | [] => None
  | s :: l => if has_labels lset s then Some s else get_loop lset l
  end.

Definition hm_get (hash : Z) (lset : L) (m : seriesHashmap) : option Z :=
  match unique m !! hash with
  | Some s => if has_labels lset s then Some s else get_loop lset (default_conflicts hash m)
  | None => get_loop lset (default_conflicts hash m)
  end.

(** The loop of set: the slice with [s] at the place of a series with its
    labels, or [None]. *)
Fixpoint set_loop (lset : L) (s : Z) (l : list Z) : option (list Z) :=
  match l with
  | [] => None
  | prev :: l => if has_labels lset prev then Some (s :: l) else (cons prev) <$> set_loop lset s l
  end.

Definition hm_set (hash : Z) (lset : L) (s : Z) (m : seriesHashmap) : seriesHashmap :=
  let set_unique := mk_seriesHashmap (<[hash := s]> (unique m)) (conflicts m) in
  let set_conflict :=
    let l := default_conflicts hash m in
    let l := match set_loop lset s l with Some l => l | None => l ++ [s] end in
    mk_seriesHashmap (unique m) (<[hash := l]> (conflicts m)) in
  match unique m !! hash with
  | None => set_unique
  | Some existing => if has_labels lset existing then set_unique else set_conflict
  end.

Definition hm_del (hash ref : Z) (m : seriesHashmap) : seriesHashmap :=
  let finish u (rem : list Z) :=
    mk_seriesHashmap u (match rem with [] => delete hash (conflicts m) | _ => <[hash := rem]> (conflicts m) end) in
  match unique m !! hash with
  | None => m
  | Some u =>
      if u =? ref then
        match default_conflicts hash m with
        | [] => mk_seriesHashmap (delete hash (unique m)) (conflicts m)
        | c :: rem => finish (<[hash := c]> (unique m)) rem
        end
      else finish (unique m) (List.filter (fun s => negb (s =? ref)) (default_conflicts hash m))
  end.

(** The series stored under a hash. *)
Definition bucket (m : seriesHashmap) (hash : Z) : list Z :=
  match unique m !! hash with Some u => u :: default_conflicts hash m | None => [] end.

(** Conflicts only next to a unique series; different labels under one hash. *)
Record bucket_ok (m : seriesHashmap) (hash : Z) : Prop := {
  bucket_unique : unique m !! hash = None -> conflicts m !! hash = None;
  bucket_conflicts : conflicts m !! hash <> Some [];
  bucket_labels : NoDup (map labels (bucket m hash)) }.

Lemma has_labels_false lset r : labels r <> Some lset -> has_labels lset r = false.
Proof. apply bool_decide_eq_false_2. Qed.

Lemma get_loop_spec lset l :
  match get_loop lset l with
  | Some s => s ∈ l /\ labels s = Some lset
  | None => Forall (fun s => labels s <> Some lset) l
  end.
Proof.
  induction l as [|s l IH]; cbn; [constructor|]. unfold has_labels. case_bool_decide as Es.
  - split; [left|done].
  - destruct (get_loop lset l) as [s'|]; [destruct IH; split; [by right|done]|by constructor].
Qed.

Lemma hm_get_bucket m hash lset : bucket_ok m hash -> hm_get hash lset m = get_loop lset (bucket m hash).
Proof.
  intros [Hu _ _]. unfold hm_get, bucket. destruct (unique m !! hash); [done|].
  unfold default_conflicts. by rewrite Hu.
Qed.

(** get finds the series with the label set, if there is one. *)
Lemma hm_get_spec m hash lset :
  bucket_ok m hash ->
  match hm_get hash lset m with
  | Some s => s ∈ bucket m hash /\ labels s = Some lset
  | None => Forall (fun s => labels s <> Some lset) (bucket m hash)
  end.
Proof. intros Hok. rewrite hm_get_bucket by done. apply get_loop_spec. Qed.

Lemma set_loop_none lset s l : Forall (fun r => labels r <> Some lset) l -> set_loop lset s l = None.
Proof.
  induction 1 as [|r l Hr _ IH]; cbn; [done|]. by rewrite (has_labels_false _ _ Hr), IH.
Qed.

(** Storing a series with labels that are not there adds it at the end. *)
Lemma hm_set_bucket m hash lset s h :
  bucket_ok m hash -> Forall (fun r => labels r <> Some lset) (bucket m hash) ->
  bucket (hm_set hash lset s m) h = if decide (h = hash) then bucket m hash ++ [s] else bucket m h.
Proof.
  intros [Hu _ _] Hnew. unfold hm_set, bucket in *. destruct (unique m !! hash) as [u|] eqn:Eu.
  - apply Forall_cons in Hnew as [Hu' Hc]. rewrite !(has_labels_false _ _ Hu').
    rewrite set_loop_none by done. cbn [unique conflicts]. destruct (decide (h = hash)) as [->|Hne].
    + rewrite Eu. unfold default_conflicts. cbn [conflicts]. by rewrite lookup_insert_eq.
    + unfold default_conflicts. cbn [conflicts]. by rewrite lookup_insert_ne.
  - cbn [unique conflicts]. destruct (decide (h = hash)) as [->|Hne].
    + rewrite lookup_insert_eq. unfold default_conflicts. cbn [conflicts]. by rewrite (Hu eq_refl).
    + by rewrite lookup_insert_ne.
Qed.

Lemma hm_set_ok m hash lset s h :
  labels s = Some lset -> bucket_ok m hash -> bucket_ok m h -> Forall (fun r => labels r <> Some lset) (bucket m hash) ->
  bucket_ok (hm_set hash lset s m) h.
Proof.
  intros Hs Hok Hokh Hnew. pose proof (hm_set_bucket m hash lset s h Hok Hnew) as Eb.
  assert (Hlabels : NoDup (map labels (bucket (hm_set hash lset s m) h))).
  { rewrite Eb. destruct (decide (h = hash)) as [->|_]; [|apply Hokh].
    rewrite map_app. apply NoDup_app. split_and!; [apply Hok| |apply NoDup_singleton].
    intros l Hl Hl'. apply list_elem_of_singleton in Hl' as ->. apply list_elem_of_fmap in Hl as (r & E & Hr).
    rewrite Forall_forall in Hnew. apply (Hnew r Hr). by rewrite <-E. }
  destruct Hok as [Hu Hc _], Hokh as [Huh Hch _]. unfold hm_set, bucket in *. destruct (unique m !! hash) as [u|] eqn:Eu.
  - apply Forall_cons in Hnew as [Hu' Hnew]. rewrite (has_labels_false _ _ Hu') in *. rewrite set_loop_none in * by done.
    split; [| |exact Hlabels]; cbn [unique conflicts]; (destruct (decide (h = hash)) as [->|Hne];
      [rewrite ?lookup_insert_eq|by rewrite lookup_insert_ne]); [congruence|]. by destruct (default_conflicts hash m).
  - split; [| |exact Hlabels]; cbn [unique conflicts]; [|done].
    destruct (decide (h = hash)) as [->|Hne]; [by rewrite lookup_insert_eq|by rewrite lookup_insert_ne].
Qed.

(** A map whose buckets are given by the unique and the conflicting entries. *)
Lemma bucket_upd u c (m : seriesHashmap) hash h :
  h <> hash -> u !! h = unique m !! h -> c !! h = conflicts m !! h -> bucket (mk_seriesHashmap u c) h = bucket m h.
Proof. intros _ Eu Ec. unfold bucket, default_conflicts. cbn [unique conflicts]. by rewrite Eu, Ec. Qed.

Lemma filter_not_in (ref : Z) (l : list Z) : ref ∉ l -> List.filter (fun s => negb (s =? ref)) l = l.
Proof.
  induction l as [|s l IH]; [done|]. intros [Hne Hl]%not_elem_of_cons. cbn [List.filter].
  rewrite (proj2 (Z.eqb_neq _ _)) by done. cbn [negb]. by rewrite IH.
Qed.

(** Deleting a series leaves the others, in their order. *)
Lemma hm_del_bucket m hash ref h :
  bucket_ok m hash -> bucket (hm_del hash ref m) h =
    if decide (h = hash) then List.filter (fun s => negb (s =? ref)) (bucket m hash) else bucket m h.
Proof.
  intros [Hu _ Hnd]. apply NoDup_fmap_1 in Hnd. unfold hm_del. destruct (unique m !! hash) as [u|] eqn:Eu.
  2: { destruct (decide (h = hash)) as [->|]; [|done]. unfold bucket. by rewrite Eu. }
  assert (Eb : bucket m hash = u :: default_conflicts hash m) by (unfold bucket; by rewrite Eu).
  rewrite Eb in *. apply NoDup_cons in Hnd as [Hnu _].
  destruct (Z.eqb_spec u ref) as [->|Hur]; cbn [List.filter].
  - rewrite Z.eqb_refl. cbn [negb]. rewrite filter_not_in by done.
    destruct (default_conflicts hash m) as [|c rem] eqn:Ec; destruct (decide (h = hash)) as [->|Hne].
    + unfold bucket. cbn [unique]. by rewrite lookup_delete_eq.
    + apply (bucket_upd _ _ _ hash); [done|by rewrite lookup_delete_ne|done].
    + unfold bucket, default_conflicts. cbn [unique conflicts]. rewrite lookup_insert_eq.
      destruct rem; [by rewrite lookup_delete_eq|by rewrite lookup_insert_eq].
    + apply (bucket_upd _ _ _ hash); [done|by rewrite lookup_insert_ne|].
      destruct rem; [by rewrite lookup_delete_ne|by rewrite lookup_insert_ne].
  - rewrite (proj2 (Z.eqb_neq _ _)) by done. cbn [negb].
    destruct (decide (h = hash)) as [->|Hne].
    + unfold bucket. cbn [unique]. rewrite Eu. f_equal. unfold default_conflicts at 1. cbn [conflicts].
      destruct (List.filter _ _); [by rewrite lookup_delete_eq|by rewrite lookup_insert_eq].
    + apply (bucket_upd _ _ _ hash); [done|done|].
      destruct (List.filter _ _); [by rewrite lookup_delete_ne|by rewrite lookup_insert_ne].
Qed.

Lemma NoDup_map_filter (f : Z -> bool) (l : list Z) : NoDup (map labels l) -> NoDup (map labels (List.filter f l)).
Proof.
  induction l as [|r l IH]; cbn; [done|]. intros [Hr Hl]%NoDup_cons. destruct (f r); cbn; [|by apply IH].
  apply NoDup_cons. split; [|by apply IH]. intros (r' & E & Hr')%list_elem_of_fmap. apply Hr. rewrite E.
  apply list_elem_of_fmap. exists r'. split; [done|]. by apply elem_of_lfilter in Hr' as [? _].
Qed.

Lemma hm_del_ok m hash ref h : bucket_ok m hash -> bucket_ok m h -> bucket_ok (hm_del hash ref m) h.
Proof.
  intros Hok Hokh. assert (Hlabels : NoDup (map labels (bucket (hm_del hash ref m) h))).
  { rewrite hm_del_bucket by done. destruct (decide (h = hash)) as [->|_]; [|apply Hokh].
    apply NoDup_map_filter, Hok. }
  destruct Hok as [Hu Hc0 _], Hokh as [Huh Hc1 _]. unfold hm_del, default_conflicts in *.
  destruct (unique m !! hash) as [u|] eqn:Eu; [|done].
  assert (Hfin : forall (u' : gmap Z Z) (rem : list Z), (h = hash -> is_Some (u' !! h)) -> (h <> hash -> u' !! h = unique m !! h) ->
    let c := match rem with [] => delete hash (conflicts m) | _ => <[hash := rem]> (conflicts m) end in
    (u' !! h = None -> c !! h = None) /\ c !! h <> Some []).
  { intros u' rem H1 H2. cbv zeta. destruct (decide (h = hash)) as [->|Hne].
    - split; [intros E; destruct (H1 eq_refl); congruence|].
      destruct rem; [by rewrite lookup_delete_eq|by rewrite lookup_insert_eq].
    - rewrite H2 by done. destruct rem; rewrite ?lookup_delete_ne, ?lookup_insert_ne by done; done. }
  destruct (u =? ref).
  - destruct (conflicts m !! hash) as [[|c rem]|] eqn:Ec; cbn [default from_option id] in *; [done| |].
    + destruct (Hfin (<[hash := c]> (unique m)) rem) as [H1 H2].
      { intros ->. rewrite lookup_insert_eq. by eexists. }
      { intros Hne. by rewrite lookup_insert_ne. }
      by split.
    + split; [| |exact Hlabels]; cbn [unique conflicts]; [|done].
      destruct (decide (h = hash)) as [->|Hne]; [done|]. by rewrite lookup_delete_ne.
  - destruct (Hfin (unique m) (List.filter (fun s => negb (s =? ref)) (default [] (conflicts m !! hash)))) as [H1 H2].
    { intros ->. by eexists. }
    { done. }
    by split.
Qed.
End Hashmap.

(** ** stripeSeries *)

Section Stripes.
  Context {H FH C L : Type} `{!EqDecision L}.
  (** labels.Labels.Hash. *)
  Variable hash_of : L -> Z.
  Notation series := (@memSeries H FH C).

(** The maps hold references; [objects] is the store they point into. *)
Record stripeSeries := mk_stripeSeries {
  size : Z;
  by_ref : list (gset Z);
  hashes : list seriesHashmap;
  mmapReady : list Z;
  objects : gmap Z (L * series) }.

Definition set_objects (o : gmap Z (L * series)) (st : stripeSeries) : stripeSeries :=
  mk_stripeSeries (size st) (by_ref st) (hashes st) (mmapReady st) o.
Definition set_hashes (h : list seriesHashmap) (st : stripeSeries) : stripeSeries :=
  mk_stripeSeries (size st) (by_ref st) h (mmapReady st) (objects st).
Definition set_by_ref (r : list (gset Z)) (st : stripeSeries) : stripeSeries :=
  mk_stripeSeries (size st) r (hashes st) (mmapReady st) (objects st).
Definition set_mmapReady (m : list Z) (st : stripeSeries) : stripeSeries :=
  mk_stripeSeries (size st) (by_ref st) (hashes st) m (objects st).

Definition newStripeSeries (stripeSize : nat) : stripeSeries :=
  mk_stripeSeries (Z.of_nat stripeSize) (replicate stripeSize ∅) (replicate stripeSize (mk_seriesHashmap ∅ ∅))
    (replicate stripeSize 0) ∅.

(** refStripe, and the same for a hash: the low bits. *)
Definition refStripe (st : stripeSeries) (ref : Z) : nat := Z.to_nat (Z.land ref (size st - 1)).

Definition labels_of (st : stripeSeries) (ref : Z) : option L := fst <$> objects st !! ref.

Definition incMmapReady (ref : Z) (st : stripeSeries) : stripeSeries :=
  set_mmapReady (alter (fun n => n + 1) (refStripe st ref) (mmapReady st)) st.
Definition decMmapReady (ref : Z) (st : stripeSeries) : stripeSeries :=
  set_mmapReady (alter (fun n => n - 1) (refStripe st ref) (mmapReady st)) st.

Definition hashmap_at (st : stripeSeries) (i : nat) : seriesHashmap := default (mk_seriesHashmap ∅ ∅) (hashes st !! i).
Definition refs_at (st : stripeSeries) (i : nat) : gset Z := default ∅ (by_ref st !! i).

Definition getByID (id : Z) (st : stripeSeries) : option Z :=
  if bool_decide (id ∈ refs_at st (refStripe st id)) then Some id else None.

Definition getByHash (hash : Z) (lset : L) (st : stripeSeries) : option Z :=
  hm_get (labels_of st) hash lset (hashmap_at st (refStripe st hash)).

Definition unlinkHash (hash ref : Z) (st : stripeSeries) : stripeSeries :=
  set_hashes (alter (hm_del hash ref) (refStripe st hash) (hashes st)) st.

(** The result is the series with the labels and whether it is the given one. *)
Definition setUnlessAlreadySet (hash : Z) (lset : L) (s : Z) (st : stripeSeries) : stripeSeries * Z * bool :=
  match hm_get (labels_of st) hash lset (hashmap_at st (refStripe st hash)) with
  | Some prev => (st, prev, false)
  | None =>
      let st := set_hashes (alter (hm_set (labels_of st) hash lset s) (refStripe st hash) (hashes st)) st in
      (set_by_ref (alter (fun r => {[s]} ∪ r) (refStripe st s) (by_ref st)) st, s, true)
  end.

(** ** Creating series *)

Record Head := mk_Head { h_series : stripeSeries; lastSeriesID : Z; numSeries : Z }.

(** The callback before a creation and the option of newMemSeries; the new
    series is also added to the postings (MemPostings). [None] is a panic, an
    error is that of the callback. *)
Definition getOrCreateWithOptionalID (PreCreation : L -> option goerror) (isolationDisabled : bool)
    (id hash : Z) (lset : L) (pendingCommit : bool) (h : Head) : option (Head * result (Z * bool)) :=
  match PreCreation lset with
  | Some e => Some (h, Err e)
  | None =>
      let h := if id =? 0 then mk_Head (h_series h) (u64 (lastSeriesID h + 1)) (numSeries h) else h in
      let id := if id =? 0 then lastSeriesID h else id in
      optimisticallyCreatedSeries ← newMemSeries id isolationDisabled pendingCommit;
      let st := set_objects (<[id := (lset, optimisticallyCreatedSeries)]> (objects (h_series h))) (h_series h) in
      match setUnlessAlreadySet hash lset id st with
      | (_, s, false) => Some (h, Ok (s, false))
      | (st, s, true) => Some (mk_Head st (lastSeriesID h) (u64 (numSeries h + 1)), Ok (s, true))
      end
  end.

Definition getOrCreate (PreCreation : L -> option goerror) (isolationDisabled : bool)
    (hash : Z) (lset : L) (pendingCommit : bool) (h : Head) : option (Head * result (Z * bool)) :=
  match getByHash hash lset (h_series h) with
  | Some s => Some (h, Ok (s, false))
  | None => getOrCreateWithOptionalID PreCreation isolationDisabled 0 hash lset pendingCommit h
  end.

(** ** The invariant *)

(** The series is in the maps. *)
Definition live (st : stripeSeries) (r : Z) : Prop :=
  exists l s, objects st !! r = Some (l, s) /\ r ∈ bucket (hashmap_at st (refStripe st (hash_of l))) (hash_of l).

(** A series with two or more head chunks is ready for m-mapping. *)
Definition ready (s : series) : bool := 2 <=? headChunkCount s.
Definition ready_ref (st : stripeSeries) (r : Z) : bool :=
  match objects st !! r with Some (_, s) => ready s | None => false end.

Definition count_ready (st : stripeSeries) (j : nat) : Z :=
  Z.of_nat (length (List.filter (ready_ref st) (elements (refs_at st j)))).

Record stripes_ok (st : stripeSeries) : Prop := {
  ok_size : exists k, 0 <= k /\ size st = 2 ^ k;
  ok_len_hashes : length (hashes st) = Z.to_nat (size st);
  ok_len_refs : length (by_ref st) = Z.to_nat (size st);
  ok_len_ready : length (mmapReady st) = Z.to_nat (size st);
  ok_bucket : forall i h, bucket_ok (labels_of st) (hashmap_at st i) h;
  ok_in_bucket : forall i h r, r ∈ bucket (hashmap_at st i) h ->
    i = refStripe st h /\ exists l s, objects st !! r = Some (l, s) /\ hash_of l = h /\
      headChunkCount s = Z.of_nat (length (headChunks s));
  ok_refs : forall j r, r ∈ refs_at st j <-> j = refStripe st r /\ live st r;
  ok_ready : forall j, (j < Z.to_nat (size st))%nat -> mmapReady st !! j = Some (count_ready st j) }.

Lemma refStripe_lt st r : stripes_ok st -> (refStripe st r < Z.to_nat (size st))%nat.
Proof.
  intros [(k & Hk & Es) _ _ _ _ _ _ _]. unfold refStripe. rewrite Es.
  replace (2 ^ k - 1) with (Z.ones k) by (rewrite Z.ones_equiv; lia). rewrite Z.land_ones by lia.
  pose proof (Z.mod_pos_bound r (2 ^ k) ltac:(lia)). lia.
Qed.

Lemma in_bucket_live st i h r : stripes_ok st -> r ∈ bucket (hashmap_at st i) h -> live st r.
Proof.
  intros Hok Hr. destruct (ok_in_bucket _ Hok i h r Hr) as (-> & l & s & Eo & <- & _). by exists l, s.
Qed.

(** ** One step of a collection *)

(** [st'] is [st] after the series [r] has become [s'], and has been removed
    when [rm]. *)
Record stepped (st st' : stripeSeries) (r : Z) (l : L) (s s' : series) (rm : bool) : Prop := {
  st_size : size st' = size st;
  st_objects : objects st' = <[r := (l, s')]> (objects st);
  st_hashes : hashes st' = if rm then alter (hm_del (hash_of l) r) (refStripe st (hash_of l)) (hashes st) else hashes st;
  st_refs : by_ref st' = if rm then alter (fun x => x ∖ {[r]}) (refStripe st r) (by_ref st) else by_ref st;
  st_ready : mmapReady st' =
    alter (fun n => n - (Z.b2z (ready s) - Z.b2z (negb rm && ready s'))) (refStripe st r) (mmapReady st) }.

Lemma stepped_stripe st st' r l s s' rm x : stepped st st' r l s s' rm -> refStripe st' x = refStripe st x.
Proof. intros []. unfold refStripe. congruence. Qed.

Lemma stepped_labels st st' r l s s' rm x :
  objects st !! r = Some (l, s) -> stepped st st' r l s s' rm -> labels_of st' x = labels_of st x.
Proof.
  intros Eo [_ E _ _ _]. unfold labels_of. rewrite E. destruct (decide (x = r)) as [->|Hne].
  - by rewrite lookup_insert_eq, Eo.
  - by rewrite lookup_insert_ne.
Qed.

Lemma bucket_labels_ext (f g : Z -> option L) m h : (forall x, f x = g x) -> bucket_ok f m h -> bucket_ok g m h.
Proof. intros E [H1 H2 H3]. split; [done|done|]. by rewrite (map_ext g f) by (intros; done). Qed.

(** The buckets after the step. *)
Lemma stepped_bucket st st' r l s s' rm i h :
  stripes_ok st -> objects st !! r = Some (l, s) -> stepped st st' r l s s' rm ->
  bucket_ok (labels_of st) (hashmap_at st' i) h /\
  bucket (hashmap_at st' i) h =
    if rm then List.filter (fun x => negb (x =? r)) (bucket (hashmap_at st i) h) else bucket (hashmap_at st i) h.
Proof.
  intros Hok Eo Hst. pose proof (ok_bucket _ Hok i h) as Hb. destruct Hst as [_ _ Eh _ _].
  unfold hashmap_at in *. rewrite Eh. destruct rm; [|done].
  destruct (decide (i = refStripe st (hash_of l))) as [->|Hi].
  - rewrite list_lookup_alter_eq. destruct (hashes st !! _) as [m|] eqn:Em; cbn [fmap option_fmap option_map default from_option id] in *.
    + pose proof (ok_bucket _ Hok (refStripe st (hash_of l)) (hash_of l)) as Hbh. unfold hashmap_at in Hbh. rewrite Em in Hbh. cbn in Hbh.
      split; [by apply hm_del_ok|]. rewrite (hm_del_bucket (labels_of st)) by done.
      destruct (decide (h = hash_of l)) as [->|Hne]; [done|]. symmetry. apply filter_not_in. intros Hr.
      destruct (ok_in_bucket _ Hok (refStripe st (hash_of l)) h r) as (_ & l' & s1 & Eo' & Eh' & _).
      { unfold hashmap_at. by rewrite Em. }
      rewrite Eo in Eo'. injection Eo' as <- <-. congruence.
    + split; [done|]. done.
  - rewrite list_lookup_alter_ne by done. split; [done|]. symmetry. apply filter_not_in. intros Hr.
    destruct (ok_in_bucket _ Hok i h r Hr) as (-> & l' & s1 & Eo' & Eh' & _). rewrite Eo in Eo'. injection Eo' as <- <-. congruence.
Qed.

Lemma stepped_live st st' r l s s' rm x :
  stripes_ok st -> objects st !! r = Some (l, s) -> stepped st st' r l s s' rm ->
  live st' x <-> live st x /\ (rm = true -> x <> r).
Proof.
  intros Hok Eo Hst. unfold live.
  assert (Hb : forall l' i, x ∈ bucket (hashmap_at st' i) (hash_of l') <->
    x ∈ bucket (hashmap_at st i) (hash_of l') /\ (rm = true -> x <> r)).
  { intros l' i. destruct (stepped_bucket st st' r l s s' rm i (hash_of l') Hok Eo Hst) as [_ ->]. destruct rm.
    - rewrite elem_of_lfilter, negb_true_iff, Z.eqb_neq. tauto.
    - intuition congruence. }
  split.
  - intros (l' & s1 & Eo' & Hr). rewrite (stepped_stripe _ _ _ _ _ _ _ _ Hst), Hb in Hr. destruct Hr as [Hr Hne].
    split; [|done]. rewrite (st_objects _ _ _ _ _ _ _ Hst) in Eo'. destruct (decide (x = r)) as [->|Hxr].
    + rewrite lookup_insert_eq in Eo'. injection Eo' as <- <-. by exists l, s.
    + rewrite lookup_insert_ne in Eo' by done. by exists l', s1.
  - intros [(l' & s1 & Eo' & Hr) Hne]. destruct (decide (x = r)) as [->|Hxr].
    + rewrite Eo in Eo'. injection Eo' as <- <-. exists l, s'. rewrite (stepped_stripe _ _ _ _ _ _ _ _ Hst), Hb.
      rewrite (st_objects _ _ _ _ _ _ _ Hst). by rewrite lookup_insert_eq.
    + exists l', s1. rewrite (stepped_stripe _ _ _ _ _ _ _ _ Hst), Hb.
      rewrite (st_objects _ _ _ _ _ _ _ Hst). by rewrite lookup_insert_ne.
Qed.

Lemma filter_ext_in (f g : Z -> bool) l : (forall x, x ∈ l -> f x = g x) -> List.filter f l = List.filter g l.
Proof.
  induction l as [|x l IH]; intros E; [done|]. cbn. rewrite (E x) by left. rewrite IH; [done|]. intros y Hy. apply E. by right.
Qed.

(** Counting a finite set with one element set apart. *)
Lemma length_filter_elements (f : Z -> bool) (X : gset Z) r :
  length (List.filter f (elements X)) =
    ((if bool_decide (r ∈ X) && f r then 1 else 0) + length (List.filter f (elements (X ∖ {[r]}))))%nat.
Proof.
  assert (Hperm : forall l k : list Z, l ≡ₚ k -> length (List.filter f l) = length (List.filter f k)).
  { induction 1; cbn; [done|by destruct (f x); cbn; congruence|by destruct (f x), (f y)|congruence]. }
  case_bool_decide as Hr; cbn [andb].
  - rewrite (Hperm (elements X) (r :: elements (X ∖ {[r]}))).
    + cbn. by destruct (f r).
    + rewrite <-elements_union_singleton by set_solver. f_equiv. intros x.
      rewrite elem_of_union, elem_of_singleton, elem_of_difference, elem_of_singleton.
      destruct (decide (x = r)) as [->|]; tauto.
  - replace (X ∖ {[r]}) with X; [done|]. apply set_eq. intros x. rewrite elem_of_difference, elem_of_singleton.
    split; [|tauto]. intros Hx. split; [done|]. by intros ->.
Qed.

Lemma stepped_ready st st' r l s s' rm j :
  stripes_ok st -> objects st !! r = Some (l, s) -> live st r -> stepped st st' r l s s' rm ->
  (forall j x, x ∈ refs_at st' j <-> x ∈ refs_at st j /\ (rm = true -> x <> r)) ->
  count_ready st' j = count_ready st j - if decide (j = refStripe st r) then Z.b2z (ready s) - Z.b2z (negb rm && ready s') else 0.
Proof.
  intros Hok Eo Hlive Hst Hrefs. unfold count_ready.
  assert (Hin : r ∈ refs_at st j <-> j = refStripe st r) by (rewrite (ok_refs _ Hok); tauto).
  assert (Eset : refs_at st' j ∖ {[r]} = refs_at st j ∖ {[r]}).
  { apply set_eq. intros x. rewrite !elem_of_difference, elem_of_singleton, Hrefs. tauto. }
  rewrite (length_filter_elements (ready_ref st) (refs_at st j) r), (length_filter_elements (ready_ref st') (refs_at st' j) r), Eset.
  rewrite (filter_ext_in (ready_ref st') (ready_ref st)).
  2: { intros x Hx. apply elem_of_elements, elem_of_difference in Hx as [_ Hx]. unfold ready_ref.
       rewrite (st_objects _ _ _ _ _ _ _ Hst), lookup_insert_ne; [done|]. by intros ->; apply Hx, elem_of_singleton. }
  assert (E1 : ready_ref st r = ready s) by (unfold ready_ref; by rewrite Eo).
  assert (E2 : ready_ref st' r = ready s') by (unfold ready_ref; by rewrite (st_objects _ _ _ _ _ _ _ Hst), lookup_insert_eq).
  rewrite E1, E2. destruct (decide (j = refStripe st r)) as [Ej|Ej].
  - rewrite (bool_decide_eq_true_2 (r ∈ refs_at st j)) by tauto.
    destruct rm.
    + rewrite bool_decide_eq_false_2 by (rewrite Hrefs; naive_solver). cbn. destruct (ready s); cbn; lia.
    + rewrite bool_decide_eq_true_2 by (rewrite Hrefs; intuition congruence). destruct (ready s), (ready s'); cbn; lia.
  - rewrite (bool_decide_eq_false_2 (r ∈ refs_at st j)) by tauto.
    rewrite bool_decide_eq_false_2 by (rewrite Hrefs; tauto). cbn [andb]. lia.
Qed.

Lemma stepped_ok st st' r l s s' rm :
  stripes_ok st -> objects st !! r = Some (l, s) -> live st r -> stepped st st' r l s s' rm ->
  headChunkCount s' = Z.of_nat (length (headChunks s')) -> stripes_ok st'.
Proof.
  intros Hok Eo Hlive Hst Hcnt.
  assert (Hstripe : forall x, refStripe st' x = refStripe st x) by (intros; eapply stepped_stripe; done).
  assert (Hl : forall x, live st' x <-> live st x /\ (rm = true -> x <> r)) by (intros; eapply stepped_live; done).
  assert (Hrefs : forall j x, x ∈ refs_at st' j <-> x ∈ refs_at st j /\ (rm = true -> x <> r)).
  { intros j x. unfold refs_at. rewrite (st_refs _ _ _ _ _ _ _ Hst). destruct rm; [|intuition congruence].
    destruct (decide (j = refStripe st r)) as [->|Hj].
    - rewrite list_lookup_alter_eq. destruct (by_ref st !! refStripe st r) as [X|]; cbn.
      + rewrite elem_of_difference, elem_of_singleton. tauto.
      + set_solver.
    - rewrite list_lookup_alter_ne by done. split; [|tauto]. intros Hx. split; [done|]. intros _ ->.
      fold (refs_at st j) in Hx. apply (ok_refs _ Hok) in Hx as [? _]. done. }
  pose proof Hok as [Hsz Hh Hr Hm Hb Hin Hrf Hrd]. pose proof Hst as [Es Eobj Eh Er Em]. split.
  - by rewrite Es.
  - rewrite Es, Eh. destruct rm; [by rewrite length_alter|done].
  - rewrite Es, Er. destruct rm; [by rewrite length_alter|done].
  - by rewrite Es, Em, length_alter.
  - intros i h. eapply (bucket_labels_ext (labels_of st)).
    + intros x. symmetry. by eapply stepped_labels.
    + by apply (stepped_bucket st st' r l s s' rm i h).
  - intros i h x Hx. destruct (stepped_bucket st st' r l s s' rm i h Hok Eo Hst) as [_ E]. rewrite E in Hx.
    assert (Hx' : x ∈ bucket (hashmap_at st i) h) by (destruct rm; [by apply elem_of_lfilter in Hx as [? _]|done]).
    destruct (Hin i h x Hx') as (-> & l' & s1 & Eo' & Eh' & Hc). split; [by rewrite Hstripe|]. rewrite Eobj.
    destruct (decide (x = r)) as [->|Hne].
    + rewrite lookup_insert_eq. rewrite Eo in Eo'. injection Eo' as <- <-. by exists l, s'.
    + rewrite lookup_insert_ne by done. by exists l', s1.
  - intros j x. rewrite Hrefs, Hl, Hrf, Hstripe. tauto.
  - intros j Hj. rewrite Es in Hj. rewrite Em, (stepped_ready st st' r l s s' rm j) by done.
    destruct (decide (j = refStripe st r)) as [->|Hne].
    + rewrite list_lookup_alter_eq, Hrd by done. cbn. f_equal.
    + rewrite list_lookup_alter_ne, Hrd by done. f_equal. lia.
Qed.

(** ** Lookups and creation *)

Lemma getByID_live st r : stripes_ok st -> getByID r st = Some r <-> live st r.
Proof.
  intros Hok. unfold getByID. pose proof (ok_refs _ Hok (refStripe st r) r) as Hr. case_bool_decide; split; try tauto; done.
Qed.

(** The series with a label set, if one is in the maps. *)
Lemma getByHash_spec st lset :
  stripes_ok st ->
  match getByHash (hash_of lset) lset st with
  | Some r => live st r /\ labels_of st r = Some lset
  | None => forall r, live st r -> labels_of st r <> Some lset
  end.
Proof.
  intros Hok. unfold getByHash. set (i := refStripe st (hash_of lset)).
  pose proof (hm_get_spec (labels_of st) (hashmap_at st i) (hash_of lset) lset (ok_bucket _ Hok i (hash_of lset))) as Hg.
  destruct (hm_get _ _ _ _) as [r|].
  - destruct Hg as [Hr El]. split; [by eapply in_bucket_live|done].
  - intros r (l & s & Eo & Hr) El. unfold labels_of in El. rewrite Eo in El. cbn in El. injection El as ->.
    rewrite Forall_forall in Hg. apply (Hg r Hr). unfold labels_of. by rewrite Eo.
Qed.

(** No two series in the maps have the same labels. *)
Lemma live_unique st r r' lset :
  stripes_ok st -> live st r -> labels_of st r = Some lset -> live st r' -> labels_of st r' = Some lset -> r = r'.
Proof.
  intros Hok (l & s & Eo & Hr) El (l' & s' & Eo' & Hr') El'. unfold labels_of in El, El'. rewrite Eo in El. rewrite Eo' in El'.
  cbn in El, El'. injection El as ->. injection El' as ->.
  pose proof (bucket_labels _ _ _ (ok_bucket _ Hok (refStripe st (hash_of lset)) (hash_of lset))) as Hnd.
  apply list_elem_of_lookup in Hr as [i Hi]. apply list_elem_of_lookup in Hr' as [j Hj].
  assert (i = j) as ->; [|congruence].
  eapply NoDup_lookup; [exact Hnd| |]; rewrite list_lookup_fmap.
  - rewrite Hi. cbn. unfold labels_of. by rewrite Eo.
  - rewrite Hj. cbn. unfold labels_of. by rewrite Eo'.
Qed.

(** In a consistent head a reference resolves to its series exactly while the
    series is in the maps, and a label set, through its hash and whatever other
    label sets have the same hash, resolves to the one series with these labels:
    no two series in the maps have the same labels. *)
Theorem series_lookup st r lset :
  stripes_ok st ->
  (getByID r st = Some r <-> live st r) /\
  (getByHash (hash_of lset) lset st = Some r <-> live st r /\ labels_of st r = Some lset).
Proof.
  intros Hok. split; [by apply getByID_live|]. pose proof (getByHash_spec st lset Hok) as Hg.
  split; [intros E; by rewrite E in Hg|]. intros [Hl El].
  destruct (getByHash _ _ _) as [r'|]; [|by exfalso; apply (Hg r)].
  destruct Hg as [Hl' El']. f_equal. by eapply live_unique.
Qed.

(** Before the new series is in the maps, its object changes nothing. *)
Lemma set_fresh_ok st id o :
  stripes_ok st -> objects st !! id = None ->
  let st' := set_objects (<[id := o]> (objects st)) st in
  stripes_ok st' /\ (forall x, live st' x <-> live st x) /\ labels_of st' id = Some o.1 /\
  (forall x, live st x -> objects st' !! x = objects st !! x) /\ (forall j, count_ready st' j = count_ready st j).
Proof.
  intros Hok Hid. cbv zeta. set (st' := set_objects _ st).
  assert (Hne : forall x, live st x -> x <> id) by (intros x (l & s & Eo & _) ->; congruence).
  assert (Hobj : forall x, x <> id -> objects st' !! x = objects st !! x) by (intros; unfold st'; cbn; by rewrite lookup_insert_ne).
  assert (Hl : forall x, live st' x <-> live st x).
  { intros x. split; intros (l & s & Eo & Hx).
    - assert (Hlx : live st x) by (by eapply (in_bucket_live st)). exists l, s. rewrite Hobj in Eo by (by apply Hne). done.
    - exists l, s. rewrite Hobj; [done|]. apply Hne. by exists l, s. }
  assert (Hc : forall j, count_ready st' j = count_ready st j).
  { intros j. unfold count_ready. do 2 f_equal. apply filter_ext_in. intros x Hx%elem_of_elements.
    apply (ok_refs _ Hok) in Hx as [_ Hx]. unfold ready_ref. by rewrite Hobj by (by apply Hne). }
  split_and!; [|done| |intros x Hx; apply Hobj, Hne, Hx|done].
  2: { unfold labels_of, st'. cbn. by rewrite lookup_insert_eq. }
  pose proof Hok as [Hsz Hh Hr Hm Hb Hin Hrf Hrd]. split; try done.
  - intros i h. destruct (Hb i h) as [B1 B2 B3]. split; [done|done|].
    rewrite (map_ext_in _ (labels_of st)); [done|]. intros x Hx. apply list_elem_of_In in Hx.
    unfold labels_of. rewrite Hobj; [done|]. apply Hne. by eapply in_bucket_live.
  - intros i h x Hx. pose proof (in_bucket_live _ _ _ _ Hok Hx) as Hlx. rewrite Hobj by (by apply Hne). by apply Hin.
  - intros j x. rewrite Hl. apply Hrf.
  - intros j Hj. rewrite Hc. by apply Hrd.
Qed.

(** The two writes of setUnlessAlreadySet. *)
Definition added (st : stripeSeries) (lset : L) (id : Z) : stripeSeries :=
  let st1 := set_hashes (alter (hm_set (labels_of st) (hash_of lset) lset id) (refStripe st (hash_of lset)) (hashes st)) st in
  set_by_ref (alter (fun r => {[id]} ∪ r) (refStripe st1 id) (by_ref st1)) st1.

Lemma added_maps st lset id s :
  stripes_ok st -> objects st !! id = Some (lset, s) ->
  (forall r, live st r -> labels_of st r <> Some lset) ->
  (forall i h, bucket_ok (labels_of st) (hashmap_at (added st lset id) i) h /\
    bucket (hashmap_at (added st lset id) i) h =
      if decide (i = refStripe st (hash_of lset) /\ h = hash_of lset) then bucket (hashmap_at st i) h ++ [id]
      else bucket (hashmap_at st i) h) /\
  (forall j, refs_at (added st lset id) j = if decide (j = refStripe st id) then {[id]} ∪ refs_at st j else refs_at st j).
Proof.
  intros Hok Eo Hnew. set (i0 := refStripe st (hash_of lset)).
  assert (Hlb : labels_of st id = Some lset) by (unfold labels_of; by rewrite Eo).
  assert (Hi0 : hashes st !! i0 = Some (hashmap_at st i0)).
  { unfold hashmap_at. destruct (lookup_lt_is_Some_2 (hashes st) i0) as [m Em]; [|by rewrite Em].
    rewrite (ok_len_hashes _ Hok). by apply refStripe_lt. }
  assert (Hall : Forall (fun r => labels_of st r <> Some lset) (bucket (hashmap_at st i0) (hash_of lset))).
  { apply Forall_forall. intros r Hr. apply Hnew. by eapply in_bucket_live. }
  pose proof (ok_bucket _ Hok i0) as Hb. split.
  - intros i h. unfold added. unfold hashmap_at at 1 2. cbn [hashes set_hashes set_by_ref]. fold i0.
    destruct (decide (i = i0)) as [->|Hi].
    + rewrite list_lookup_alter_eq, Hi0. cbn [fmap option_fmap option_map default from_option Datatypes.id].
      split; [by apply hm_set_ok|]. rewrite hm_set_bucket by done.
      destruct (decide (h = hash_of lset)) as [->|Hh]; [by rewrite decide_True|by rewrite decide_False by tauto].
    + rewrite list_lookup_alter_ne by done. rewrite decide_False by tauto. split; [apply (ok_bucket _ Hok)|done].
  - intros j. unfold added, refs_at. cbn [by_ref set_hashes set_by_ref]. fold (refStripe st id).
    change (refStripe (set_hashes _ st) id) with (refStripe st id).
    destruct (decide (j = refStripe st id)) as [->|Hj]; [|by rewrite list_lookup_alter_ne].
    rewrite list_lookup_alter_eq. destruct (lookup_lt_is_Some_2 (by_ref st) (refStripe st id)) as [m Em]; [|by rewrite Em].
    rewrite (ok_len_refs _ Hok). by apply refStripe_lt.
Qed.

Lemma added_ok st lset id s :
  stripes_ok st -> objects st !! id = Some (lset, s) -> ready s = false ->
  headChunkCount s = Z.of_nat (length (headChunks s)) -> ~ live st id ->
  (forall r, live st r -> labels_of st r <> Some lset) ->
  stripes_ok (added st lset id) /\ (forall x, live (added st lset id) x <-> live st x \/ x = id).
Proof.
  intros Hok Eo Hrs Hc Hnl Hnew. destruct (added_maps st lset id s Hok Eo Hnew) as [Hbk Hrefs].
  set (st' := added st lset id) in *.
  assert (Hl : forall x, live st' x <-> live st x \/ x = id).
  { intros x. unfold live. change (objects st') with (objects st).
    change (refStripe st') with (refStripe st). split.
    - intros (l & s1 & Eo1 & Hx). rewrite (proj2 (Hbk _ _)) in Hx. case_decide; [|by left; exists l, s1].
      apply elem_of_app in Hx as [Hx|Hx%list_elem_of_singleton]; [by left; exists l, s1|by right].
    - intros [(l & s1 & Eo1 & Hx)| ->].
      + exists l, s1. split; [done|]. rewrite (proj2 (Hbk _ _)). case_decide; [apply elem_of_app; by left|done].
      + exists lset, s. split; [done|]. rewrite (proj2 (Hbk _ _)), decide_True by done. apply elem_of_app. right. by left. }
  split; [|done]. pose proof Hok as [Hsz Hh Hr Hm Hb Hin Hrf Hrd]. split; try done.
  - unfold st', added. cbn. by rewrite length_alter.
  - unfold st', added. cbn. by rewrite length_alter.
  - intros i h. apply Hbk.
  - intros i h x Hx. change (objects st') with (objects st). change (refStripe st') with (refStripe st).
    rewrite (proj2 (Hbk _ _)) in Hx. case_decide as Hd; [|by apply Hin].
    apply elem_of_app in Hx as [Hx|Hx%list_elem_of_singleton]; [by apply Hin|]. destruct Hd as [-> ->]. subst x.
    split; [done|]. by exists lset, s.
  - intros j x. change (refStripe st') with (refStripe st). rewrite Hrefs, Hl. case_decide as Hd.
    + rewrite elem_of_union, elem_of_singleton, Hrf. split; [|tauto]. intros [->|?]; tauto.
    + rewrite Hrf. split; [tauto|]. intros [-> [?| ->]]; tauto.
  - intros j Hj. change (mmapReady st') with (mmapReady st). rewrite Hrd by done. f_equal.
    unfold count_ready. change (ready_ref st') with (ready_ref st). f_equal. rewrite Hrefs. case_decide as Hd; [|done].
    assert (Hid : id ∉ refs_at st j) by (rewrite Hrf; tauto).
    rewrite (length_filter_elements _ ({[id]} ∪ _) id).
    replace (({[id]} ∪ refs_at st j) ∖ {[id]}) with (refs_at st j) by set_solver.
    unfold ready_ref at 2. by rewrite Eo, Hrs, andb_false_r.
Qed.

(** The references given out so far, and the last. *)
Record head_ok (h : Head) : Prop := {
  head_stripes : stripes_ok (h_series h);
  head_lastID : 0 <= lastSeriesID h;
  head_refs : forall x, is_Some (objects (h_series h) !! x) -> x <= lastSeriesID h }.

Lemma newMemSeries_spec id iso pending :
  exists s : series, newMemSeries id iso pending = Some s /\ ser_ref s = id /\ headChunks s = [] /\ headChunkCount s = 0 /\
    hasPendingCommit (state s) = pending.
Proof. destruct pending, iso; (eexists; split; [reflexivity|by vm_compute]). Qed.

Lemma created_head PreCreation iso lset pending h :
  head_ok h -> lastSeriesID h < 2 ^ 64 - 1 -> getByHash (hash_of lset) lset (h_series h) = None -> PreCreation lset = None ->
  exists h' s, let r := lastSeriesID h + 1 in
    getOrCreate PreCreation iso (hash_of lset) lset pending h = Some (h', Ok (r, true)) /\
    head_ok h' /\ lastSeriesID h' = r /\
    objects (h_series h') !! r = Some (lset, s) /\ newMemSeries r iso pending = Some s /\
    (forall x, live (h_series h') x <-> live (h_series h) x \/ x = r) /\
    (forall x, x <> r -> objects (h_series h') !! x = objects (h_series h) !! x).
Proof.
  intros [Hok Hge Hrefs] Hlast Eg Epre. pose proof (getByHash_spec (h_series h) lset Hok) as Hg. unfold getOrCreate.
  rewrite Eg in *. unfold getOrCreateWithOptionalID. rewrite Epre. cbn [Z.eqb]. cbn [lastSeriesID h_series numSeries].
  rewrite u64_id by (unfold is_u64; lia). set (id := lastSeriesID h + 1).
  assert (Hid : objects (h_series h) !! id = None).
  { destruct (objects (h_series h) !! id) eqn:E; [|done]. specialize (Hrefs id ltac:(by rewrite E)). lia. }
  destruct (newMemSeries_spec id iso pending) as (s & Enew & _ & Hhc & Hcc & _). rewrite Enew. cbn [mbind option_bind].
  destruct (set_fresh_ok (h_series h) id (lset, s) Hok Hid) as (F1 & F2 & F3 & F4 & _).
  set (st1 := set_objects _ (h_series h)) in *.
  assert (Hnew : forall r, live st1 r -> labels_of st1 r <> Some lset).
  { intros r Hr. unfold labels_of. rewrite F4 by (by apply F2). apply Hg. by apply F2. }
  assert (Hnl : ~ live st1 id) by (intros (l & s' & E & _)%F2; congruence).
  assert (Eo1 : objects st1 !! id = Some (lset, s)) by apply lookup_insert_eq.
  pose proof (getByHash_spec st1 lset F1) as Hg1. unfold getByHash in Hg1. unfold setUnlessAlreadySet.
  destruct (hm_get _ _ _ _) as [r|]; [destruct Hg1 as [G1 G2]; by apply Hnew in G2|]. fold (added st1 lset id).
  destruct (added_ok st1 lset id s F1 Eo1) as [A1 A2]; [by unfold ready; rewrite Hcc|by rewrite Hcc, Hhc|done|done|].
  eexists _, s. split; [reflexivity|]. split_and!; try done.
  - split; cbn; [exact A1|lia|]. intros x Hx. destruct (decide (x = id)) as [->|Hne]; [done|].
    rewrite lookup_insert_ne in Hx by done. apply Hrefs in Hx. lia.
  - intros x. cbn [h_series]. rewrite A2, F2. done.
  - intros x Hx. cbn. by rewrite lookup_insert_ne.
Qed.

(** GetOrCreate returns the series with the labels if one is in the maps;
    otherwise, unless the callback refuses, it gives a series with these labels
    a new reference, and adds it and nothing else: both maps find it from then
    on, it has a pending commit when the caller asked for it, and no other
    series moves. *)
Theorem getOrCreate_spec PreCreation iso lset pending h :
  head_ok h -> lastSeriesID h < 2 ^ 64 - 1 ->
  let result := getOrCreate PreCreation iso (hash_of lset) lset pending h in
  match getByHash (hash_of lset) lset (h_series h), PreCreation lset with
  | Some r, _ => result = Some (h, Ok (r, false)) /\ live (h_series h) r /\ labels_of (h_series h) r = Some lset
  | None, Some e => result = Some (h, Err e)
  | None, None =>
      exists h' s, let r := lastSeriesID h + 1 in
        result = Some (h', Ok (r, true)) /\ head_ok h' /\ lastSeriesID h' = r /\
        objects (h_series h') !! r = Some (lset, s) /\ hasPendingCommit (state s) = pending /\
        (forall x, live (h_series h') x <-> live (h_series h) x \/ x = r) /\
        (forall x, x <> r -> objects (h_series h') !! x = objects (h_series h) !! x)
  end.
Proof.
  intros Hok Hlast. cbv zeta. pose proof (getByHash_spec (h_series h) lset (head_stripes _ Hok)) as Hg.
  destruct (getByHash _ _ _) as [r|] eqn:Eg; [unfold getOrCreate; by rewrite Eg|].
  destruct (PreCreation lset) as [e|] eqn:Epre.
  2: { destruct (created_head PreCreation iso lset pending h Hok Hlast Eg Epre) as (h' & s & E & H1 & H2 & H3 & H4 & H5).
       exists h', s. split_and!; try done; [|apply H5..]. destruct (newMemSeries_spec (lastSeriesID h + 1) iso pending) as (s' & E' & _ & _ & _ & Hp).
       congruence. }
  unfold getOrCreate, getOrCreateWithOptionalID. by rewrite Eg, Epre.
Qed.
End Stripes.

#[local] Arguments ok_size {H FH C L hash_of} : rename.
#[local] Arguments ok_bucket {H FH C L hash_of} : rename.
#[local] Arguments ok_in_bucket {H FH C L hash_of} : rename.
#[local] Arguments ok_refs {H FH C L hash_of} : rename.
#[local] Arguments ok_ready {H FH C L hash_of} : rename.
#[local] Arguments ok_len_hashes {H FH C L hash_of} : rename.
#[local] Arguments st_size {H FH C L hash_of} : rename.
#[local] Arguments st_objects {H FH C L hash_of} : rename.
#[local] Arguments st_hashes {H FH C L hash_of} : rename.
#[local] Arguments st_refs {H FH C L hash_of} : rename.
#[local] Arguments st_ready {H FH C L hash_of} : rename.
#[local] Arguments stepped_bucket {H FH C L hash_of} : rename.
#[local] Arguments stepped_live {H FH C L hash_of} : rename.
#[local] Arguments stepped_ok {H FH C L hash_of} : rename.
#[local] Arguments stepped_stripe {H FH C L hash_of} : rename.
#[local] Arguments refStripe_lt {H FH C L hash_of} : rename.
#[local] Arguments in_bucket_live {H FH C L hash_of} : rename.

Section Collection.
  Context {H FH C L A : Type} `{!EqDecision L} `{Countable A} `{!HistogramOps H} `{!HistogramOps FH}.
  (** labels.Labels.Hash, and the labels that Range goes through. *)
  Variable hash_of : L -> Z.
  Variable range_labels : L -> list A.
  Notation series := (@memSeries H FH C).
  Notation stripeSeries := (@stripeSeries H FH C L).
  Notation stripes_ok := (@stripes_ok H FH C L hash_of).
  Notation live := (@live H FH C L hash_of).
  Notation stepped := (@stepped H FH C L hash_of).

(** ** Garbage collection *)

(** The variables that the loops of gc and gcSeries collect. *)
Record gc_stats := mk_gc_stats {
  deleted : gset Z; affected : gset A; rmChunks : Z; staleSeriesDeleted : Z; histogramSeriesDeleted : Z;
  histogramBucketsDeleted : Z; actualMint : Z; minOOOTime : Z; minMmapFile : Z }.

Definition no_stats : gc_stats := mk_gc_stats ∅ ∅ 0 0 0 0 MaxInt64 MaxInt64 (2 ^ 31 - 1).

(** The end of both check functions: the series is gone entirely. *)
Definition remove_series (hashShard : nat) (hash ref : Z) (l : L) (s : series) (st : stripeSeries) (g : gc_stats)
  : stripeSeries * gc_stats :=
  let '(stale, isHist, buckets) := sampleState s in
  let g := mk_gc_stats ({[ref]} ∪ deleted g) (list_to_set (range_labels l) ∪ affected g) (rmChunks g)
             (staleSeriesDeleted g + Z.b2z stale) (histogramSeriesDeleted g + Z.b2z isHist)
             (histogramBucketsDeleted g + if isHist then buckets else 0) (actualMint g) (minOOOTime g) (minMmapFile g) in
  let st := set_objects (<[ref := (l, set_state (setGCed (state s)) s)]> (objects st)) st in
  let st := set_hashes (alter (hm_del hash ref) hashShard (hashes st)) st in
  (set_by_ref (alter (fun r => r ∖ {[ref]}) (refStripe st ref) (by_ref st)) st, g).

Definition add_mmap_file (l : list mmappedChunk) (g : gc_stats) : gc_stats :=
  match l with
  | [] => g
  | m :: _ =>
      let seq := fst (MapperRef_Unpack (mm_ref m)) in
      mk_gc_stats (deleted g) (affected g) (rmChunks g) (staleSeriesDeleted g) (histogramSeriesDeleted g)
        (histogramBucketsDeleted g) (actualMint g) (minOOOTime g) (if seq <? minMmapFile g then seq else minMmapFile g)
  end.

Definition add_ooo_time (t : Z) (g : gc_stats) : gc_stats :=
  mk_gc_stats (deleted g) (affected g) (rmChunks g) (staleSeriesDeleted g) (histogramSeriesDeleted g)
    (histogramBucketsDeleted g) (actualMint g) (if t <? minOOOTime g then t else minOOOTime g) (minMmapFile g).

Definition add_mint (t : Z) (g : gc_stats) : gc_stats :=
  mk_gc_stats (deleted g) (affected g) (rmChunks g) (staleSeriesDeleted g) (histogramSeriesDeleted g)
    (histogramBucketsDeleted g) (if t <? actualMint g then t else actualMint g) (minOOOTime g) (minMmapFile g).

Definition add_removed (n : Z) (g : gc_stats) : gc_stats :=
  mk_gc_stats (deleted g) (affected g) (rmChunks g + n) (staleSeriesDeleted g) (histogramSeriesDeleted g)
    (histogramBucketsDeleted g) (actualMint g) (minOOOTime g) (minMmapFile g).

(** What gc notes of the out-of-order chunks. *)
Definition add_ooo (o : option (@memSeriesOOOFields H FH)) (g : gc_stats) : gc_stats :=
  match o with
  | None => g
  | Some f =>
      let g := add_mmap_file (oooMmappedChunks f) g in
      let g := foldl (fun g ch => add_ooo_time (mm_minTime ch) g) g (oooMmappedChunks f) in
      match oooHead f with Some c => add_ooo_time (oc_minTime c) g | None => g end
  end.

(** Something is left of the series, or a sample for it is on its way. *)
Definition gc_keeps (s : series) : bool :=
  negb (length (mmappedChunks s) =? 0)%nat || negb (length (headChunks s) =? 0)%nat || hasPendingCommit (state s)
  || match ooo s with
     | Some f => negb (length (oooMmappedChunks f) =? 0)%nat || bool_decide (is_Some (oooHead f))
     | None => false
     end.

(** The check function of gc for one series. *)
Definition gc_check (mint minOOOMmapRef : Z) (hashShard : nat) (hash ref : Z) (a : stripeSeries * gc_stats)
  : stripeSeries * gc_stats :=
  let '(st, g) := a in
  match objects st !! ref with
  | None => (st, g)
  | Some (l, s) =>
      let wasMmapReady := 2 <=? headChunkCount s in
      let '(s, removed) := truncateChunksBefore mint minOOOMmapRef s in
      let st := set_objects (<[ref := (l, s)]> (objects st)) st in
      let g := add_removed removed g in
      let st := if wasMmapReady && (headChunkCount s <? 2) then decMmapReady ref st else st in
      let g := add_mmap_file (mmappedChunks s) g in
      let g := add_ooo (ooo s) g in
      if gc_keeps s then (st, add_mint (minTime s) g)
      else remove_series hashShard hash ref l s st g
  end.

(** The check function of gcSeries. *)
Definition gcSeries_check (refsSet : gset Z) (maxt : Z) (shouldEvict : series -> bool) (hashShard : nat) (hash ref : Z)
    (a : stripeSeries * gc_stats) : stripeSeries * gc_stats :=
  let '(st, g) := a in
  if negb (bool_decide (ref ∈ refsSet)) then (st, g)
  else
    match objects st !! ref with
    | None => (st, g)
    | Some (l, s) =>
        if hasPendingCommit (state s) || (maxt <? maxTime s) then (st, g)
        else if negb (shouldEvict s) then (st, g)
        else
          let g := add_removed (headChunkCount s + Z.of_nat (length (mmappedChunks s))) g in
          let st := if 2 <=? headChunkCount s then decMmapReady ref st else st in
          remove_series hashShard hash ref l s st g
    end.

(** The loops of iterForDeletion over one stripe; [ks] is the order in which the
    keys of the map are visited. *)
Definition iter_conflicts (check : nat -> Z -> Z -> stripeSeries * gc_stats -> stripeSeries * gc_stats) (i : nat)
    (ks : list Z) (a : stripeSeries * gc_stats) : stripeSeries * gc_stats :=
  foldl (fun a hash => foldl (fun a s => check i hash s a) a (default_conflicts hash (hashmap_at a.1 i))) a ks.

Definition iter_unique (check : nat -> Z -> Z -> stripeSeries * gc_stats -> stripeSeries * gc_stats) (i : nat)
    (ks : list Z) (a : stripeSeries * gc_stats) : stripeSeries * gc_stats :=
  foldl (fun a hash => match unique (hashmap_at a.1 i) !! hash with Some s => check i hash s a | None => a end) a ks.

Definition iterForDeletion (check : nat -> Z -> Z -> stripeSeries * gc_stats -> stripeSeries * gc_stats)
    (orders : nat -> list Z * list Z) (a : stripeSeries * gc_stats) : stripeSeries * gc_stats :=
  foldl (fun a i => iter_unique check i (orders i).2 (iter_conflicts check i (orders i).1 a)) a
    (seq 0 (Z.to_nat (size a.1))).

Definition gc (orders : nat -> list Z * list Z) (mint minOOOMmapRef : Z) (st : stripeSeries) : stripeSeries * gc_stats :=
  let '(st, g) := iterForDeletion (gc_check mint minOOOMmapRef) orders (st, no_stats) in
  (st, if actualMint g =? MaxInt64 then add_mint mint g else g).

Definition gcSeries (orders : nat -> list Z * list Z) (seriesRefs : list Z) (maxt : Z) (shouldEvict : series -> bool)
    (st : stripeSeries) : stripeSeries * gc_stats :=
  iterForDeletion (gcSeries_check (list_to_set seriesRefs) maxt shouldEvict) orders (st, no_stats).

(** ** A whole collection *)

Section Collect.
  (** What a check function does to a series: its new state, and whether it is
      removed; and what it notes of the series. *)
  Variable check : nat -> Z -> Z -> stripeSeries * gc_stats -> stripeSeries * gc_stats.
  Variable effect : Z -> series -> series * bool.
  Variable noted : series -> gc_stats -> Prop.
  Hypothesis check_steps : forall r l s st g,
    stripes_ok st -> live st r -> objects st !! r = Some (l, s) -> headChunkCount s = Z.of_nat (length (headChunks s)) ->
    let '(st', g') := check (refStripe st (hash_of l)) (hash_of l) r (st, g) in
    stepped st st' r l s (effect r s).1 (effect r s).2 /\
    deleted g' = (if (effect r s).2 then {[r]} ∪ deleted g else deleted g) /\
    ((effect r s).2 = false -> noted (effect r s).1 g') /\ (forall s, noted s g -> noted s g').
  Hypothesis effect_count : forall r s,
    headChunkCount s = Z.of_nat (length (headChunks s)) ->
    headChunkCount (effect r s).1 = Z.of_nat (length (headChunks (effect r s).1)).

Definition removed_in (st0 : stripeSeries) (x : Z) : bool :=
  match objects st0 !! x with Some (_, s) => (effect x s).2 | None => false end.

(** [a] is the state after the series of [P] have been checked. *)
Record checked (st0 : stripeSeries) (P : gset Z) (a : stripeSeries * gc_stats) : Prop := {
  ch_ok : stripes_ok a.1;
  ch_size : size a.1 = size st0;
  ch_objects : forall x, objects a.1 !! x =
    if bool_decide (x ∈ P) then (fun o => (o.1, (effect x o.2).1)) <$> objects st0 !! x else objects st0 !! x;
  ch_bucket : forall i h, bucket (hashmap_at a.1 i) h =
    List.filter (fun x => negb (bool_decide (x ∈ P) && removed_in st0 x)) (bucket (hashmap_at st0 i) h);
  ch_deleted : forall x, x ∈ deleted a.2 <-> x ∈ P /\ removed_in st0 x = true;
  ch_noted : forall x l s, x ∈ P -> objects st0 !! x = Some (l, s) -> (effect x s).2 = false -> noted (effect x s).1 a.2 }.

Lemma checked_step st0 P a i h x :
  stripes_ok st0 -> checked st0 P a -> x ∈ bucket (hashmap_at st0 i) h -> x ∉ P ->
  checked st0 ({[x]} ∪ P) (check i h x a).
Proof.
  intros Hok0 [Hok Hsz Hobj Hbk Hdel Hnot] Hx HxP. destruct a as [st g]. cbn [fst snd] in *.
  destruct (ok_in_bucket _ Hok0 i h x Hx) as (Ei & l & s & Eo0 & Eh & Hcnt).
  assert (Eo : objects st !! x = Some (l, s)) by (by rewrite Hobj, bool_decide_eq_false_2).
  assert (Hxb : x ∈ bucket (hashmap_at st i) h).
  { rewrite Hbk. apply elem_of_lfilter. split; [done|]. by rewrite bool_decide_eq_false_2. }
  pose proof (in_bucket_live _ _ _ _ Hok Hxb) as Hlive.
  assert (Ei' : i = refStripe st (hash_of l)) by (rewrite Ei, Eh; unfold refStripe; by rewrite Hsz).
  pose proof (check_steps x l s st g Hok Hlive Eo Hcnt) as Hst. rewrite <-Ei', Eh in Hst.
  destruct (check i h x (st, g)) as [st' g']. destruct Hst as (Hst & Hd & Hn1 & Hn2).
  assert (Erm : removed_in st0 x = (effect x s).2) by (unfold removed_in; by rewrite Eo0).
  split; cbn [fst snd].
  - eapply stepped_ok; [exact Hok|exact Eo|done|exact Hst|by apply effect_count].
  - by rewrite (st_size _ _ _ _ _ _ _ Hst).
  - intros y. rewrite (st_objects _ _ _ _ _ _ _ Hst). destruct (decide (y = x)) as [->|Hne].
    + rewrite lookup_insert_eq, bool_decide_eq_true_2 by set_solver. by rewrite Eo0.
    + rewrite lookup_insert_ne, Hobj by done. destruct (decide (y ∈ P)).
      * by rewrite !bool_decide_eq_true_2 by set_solver.
      * by rewrite !bool_decide_eq_false_2 by set_solver.
  - intros j k. destruct (stepped_bucket st st' x l s _ _ j k Hok Eo Hst) as [_ ->]. rewrite <-Erm, Hbk.
    destruct (removed_in st0 x) eqn:Er.
    + assert (Hff : forall (f g : Z -> bool) l, List.filter f (List.filter g l) = List.filter (fun z => g z && f z) l).
      { intros f g0 l0. induction l0 as [|z l0 IH]; [done|]. cbn. destruct (g0 z); cbn; [|done]. destruct (f z); by rewrite IH. }
      rewrite Hff. apply filter_ext_in. intros y _. destruct (Z.eqb_spec y x) as [->|Hne].
      * rewrite (bool_decide_eq_true_2 (x ∈ {[x]} ∪ P)) by set_solver. rewrite Er. by rewrite andb_false_r.
      * destruct (decide (y ∈ P)); [rewrite !bool_decide_eq_true_2 by set_solver|rewrite !bool_decide_eq_false_2 by set_solver];
          by rewrite andb_true_r.
    + apply filter_ext_in. intros y _. destruct (decide (y = x)) as [->|Hne]; [by rewrite Er, !andb_false_r|].
      destruct (decide (y ∈ P)); [by rewrite !bool_decide_eq_true_2 by set_solver|by rewrite !bool_decide_eq_false_2 by set_solver].
  - intros y. rewrite Hd, <-Erm. destruct (removed_in st0 x) eqn:Er; rewrite ?elem_of_union, ?elem_of_singleton, Hdel.
    + split; [intros [->|[? ?]]; tauto|]. intros [[->|?] ?]; tauto.
    + split; [tauto|]. intros [[->|?] ?]; [congruence|tauto].
  - intros y l' s1 Hy Eo' Hf. apply elem_of_union in Hy as [->%elem_of_singleton|Hy].
    + rewrite Eo0 in Eo'. injection Eo' as <- <-. by apply Hn1.
    + apply Hn2. by eapply Hnot.
Qed.

(** The series of one bucket, or part of them. *)
Lemma checked_list st0 i h l : forall P a,
  stripes_ok st0 -> checked st0 P a -> NoDup l -> (forall x, x ∈ l -> x ∈ bucket (hashmap_at st0 i) h /\ x ∉ P) ->
  checked st0 (list_to_set l ∪ P) (foldl (fun a s => check i h s a) a l).
Proof.
  induction l as [|x l IH]; intros P a Hok0 Hch Hnd Hl; cbn [foldl list_to_set].
  { by rewrite (left_id_L ∅ _). }
  apply NoDup_cons in Hnd as [Hx Hnd]. destruct (Hl x) as [Hxb HxP]; [left|].
  replace ({[x]} ∪ list_to_set l ∪ P) with (list_to_set l ∪ ({[x]} ∪ P)) by set_solver.
  apply IH; [done|by apply checked_step|done|]. intros y Hy. destruct (Hl y) as [Hyb HyP]; [by right|].
  split; [done|]. set_solver.
Qed.

Lemma bucket_parts (f : Z -> option L) m h :
  bucket_ok f m h -> unique m !! h = head (bucket m h) /\ default_conflicts h m = tail (bucket m h) /\
    (bucket m h <> [] -> h ∈ dom (unique m)) /\ (tail (bucket m h) <> [] -> h ∈ dom (conflicts m)).
Proof.
  intros [Hu Hc _]. unfold bucket. destruct (unique m !! h) as [u|] eqn:Eu.
  - cbn. split_and!; [done|done|intros _; by apply elem_of_dom_2 in Eu|].
    unfold default_conflicts. intros Hne. apply elem_of_dom. by destruct (conflicts m !! h).
  - cbn. unfold default_conflicts. by rewrite (Hu eq_refl).
Qed.

Lemma bucket_NoDup st i h : stripes_ok st -> NoDup (bucket (hashmap_at st i) h).
Proof. intros Hok. destruct (ok_bucket _ Hok i h) as [_ _ Hnd]. by apply NoDup_fmap_1 in Hnd. Qed.

Lemma bucket_hash st i h k x :
  stripes_ok st -> x ∈ bucket (hashmap_at st i) h -> x ∈ bucket (hashmap_at st i) k -> h = k.
Proof.
  intros Hok H1 H2. destruct (ok_in_bucket _ Hok i h x H1) as (_ & l & s & E & <- & _).
  destruct (ok_in_bucket _ Hok i k x H2) as (_ & l' & s' & E' & <- & _). congruence.
Qed.

(** A bucket none of whose series was checked is as it was. *)
Lemma checked_fresh st0 P a i h :
  checked st0 P a -> (forall x, x ∈ bucket (hashmap_at st0 i) h -> x ∉ P) ->
  bucket (hashmap_at a.1 i) h = bucket (hashmap_at st0 i) h.
Proof.
  intros Hch Hfresh. rewrite (ch_bucket _ _ _ Hch). induction (bucket (hashmap_at st0 i) h) as [|x l IH]; [done|].
  cbn. rewrite bool_decide_eq_false_2 by (apply Hfresh; left). cbn. rewrite IH; [done|]. intros y Hy. apply Hfresh. by right.
Qed.

Definition tails (st0 : stripeSeries) (i : nat) (ks : list Z) : list Z :=
  concat (map (fun h => tail (bucket (hashmap_at st0 i) h)) ks).

Lemma elem_of_tails st0 i ks x :
  x ∈ tails st0 i ks <-> exists h, h ∈ ks /\ x ∈ tail (bucket (hashmap_at st0 i) h).
Proof.
  unfold tails. induction ks as [|h ks IH]; cbn; [split; [by intros ?%elem_of_nil|by intros (? & ?%elem_of_nil & _)]|].
  rewrite elem_of_app, IH. setoid_rewrite elem_of_cons. split.
  - intros [?|(k & ? & ?)]; [by exists h; split; [left|]|by exists k; split; [right|]].
  - intros (k & [->|?] & ?); [by left|]. right. by exists k.
Qed.

Lemma NoDup_tail (l : list Z) : NoDup l -> NoDup (tail l).
Proof. destruct l; [done|]. by intros [_ ?]%NoDup_cons. Qed.

Lemma elem_of_tail (x : Z) l : x ∈ tail l -> x ∈ l.
Proof. destruct l; [done|]. by right. Qed.

Lemma checked_conflicts st0 i ks : forall P a,
  stripes_ok st0 -> checked st0 P a -> NoDup ks -> (forall h x, h ∈ ks -> x ∈ bucket (hashmap_at st0 i) h -> x ∉ P) ->
  checked st0 (list_to_set (tails st0 i ks) ∪ P) (iter_conflicts check i ks a).
Proof.
  induction ks as [|h ks IH]; intros P a Hok0 Hch Hnd Hfresh; unfold iter_conflicts; cbn [foldl].
  { cbn. by rewrite (left_id_L ∅ _). }
  apply NoDup_cons in Hnd as [Hh Hnd].
  assert (Eb : bucket (hashmap_at a.1 i) h = bucket (hashmap_at st0 i) h).
  { eapply checked_fresh; [done|]. intros x. apply Hfresh. left. }
  destruct (bucket_parts _ _ _ (ok_bucket _ (ch_ok _ _ _ Hch) i h)) as (_ & -> & _). rewrite Eb.
  assert (Hch' : checked st0 (list_to_set (tail (bucket (hashmap_at st0 i) h)) ∪ P)
                   (foldl (fun a s => check i h s a) a (tail (bucket (hashmap_at st0 i) h)))).
  { apply checked_list; [done|done| |].
    - by apply NoDup_tail, bucket_NoDup.
    - intros x Hx%elem_of_tail. split; [done|]. apply (Hfresh h); [left|done]. }
  specialize (IH _ _ Hok0 Hch' Hnd). unfold iter_conflicts in IH.
  replace (list_to_set (tails st0 i (h :: ks)) ∪ P)
    with (list_to_set (tails st0 i ks) ∪ (list_to_set (tail (bucket (hashmap_at st0 i) h)) ∪ P)); [apply IH|].
  - intros k x Hk Hx [Hxt|HxP]%elem_of_union; [|by apply (Hfresh k x); [right|..]].
    apply elem_of_list_to_set, elem_of_tail in Hxt. by rewrite (bucket_hash st0 i h k x Hok0 Hxt Hx) in Hh.
  - unfold tails. cbn [map concat]. rewrite list_to_set_app_L. set_solver.
Qed.

(** The loop over the unique series: the conflicts have been checked. *)
Lemma checked_unique st0 i ks : forall P a,
  stripes_ok st0 -> checked st0 P a -> NoDup ks ->
  (forall h x, h ∈ ks -> head (bucket (hashmap_at st0 i) h) = Some x -> x ∉ P) ->
  exists P', checked st0 P' (iter_unique check i ks a) /\
    forall x, x ∈ P' <-> x ∈ P \/ exists h, h ∈ ks /\ head (bucket (hashmap_at st0 i) h) = Some x.
Proof.
  induction ks as [|h ks IH]; intros P a Hok0 Hch Hnd Hfresh; unfold iter_unique; cbn [foldl].
  { exists P. split; [done|]. intros x. split; [by left|]. by intros [?|(? & ?%elem_of_nil & _)]. }
  apply NoDup_cons in Hnd as [Hh Hnd].
  destruct (bucket_parts _ _ _ (ok_bucket _ (ch_ok _ _ _ Hch) i h)) as (-> & _). rewrite (ch_bucket _ _ _ Hch).
  destruct (bucket (hashmap_at st0 i) h) as [|u T] eqn:Eb.
  - cbn. destruct (IH P a Hok0 Hch Hnd) as (P' & H1 & H2).
    { intros k x Hk. apply Hfresh. by right. }
    exists P'. split; [done|]. intros x. rewrite H2. setoid_rewrite elem_of_cons. split.
    + intros [?|(k & ? & ?)]; [by left|]. right. exists k. tauto.
    + intros [?|(k & [->|?] & Hx)]; [by left|by rewrite Eb in Hx|]. right. by exists k.
  - assert (Hu : u ∉ P) by (apply (Hfresh h); [left|by rewrite Eb]).
    cbn [List.filter]. rewrite bool_decide_eq_false_2 by done. cbn [andb negb head].
    assert (Hch' : checked st0 ({[u]} ∪ P) (check i h u a)) by (apply checked_step; [done|done|rewrite Eb; left|done]).
    destruct (IH _ _ Hok0 Hch' Hnd) as (P' & H1 & H2).
    { intros k x Hk Hx [->%elem_of_singleton|HxP]%elem_of_union; [|by apply (Hfresh k x); [right|..]].
      destruct (bucket (hashmap_at st0 i) k) as [|u' T'] eqn:Ek; [done|]. injection Hx as ->.
      assert (h = k) by (apply (bucket_hash st0 i h k u Hok0); rewrite ?Eb, ?Ek; left). congruence. }
    exists P'. split; [exact H1|]. intros x. rewrite H2, elem_of_union, elem_of_singleton. setoid_rewrite elem_of_cons. split.
    + intros [[->|?]|(k & ? & ?)]; [right; exists h; rewrite Eb; tauto|by left|right; exists k; tauto].
    + intros [?|(k & [->|?] & Hx)]; [tauto|rewrite Eb in Hx; injection Hx as ->; tauto|right; by exists k].
Qed.

(** The keys of the two maps of each stripe, in some order. *)
Definition orders_ok (orders : nat -> list Z * list Z) (st : stripeSeries) : Prop :=
  forall i, (orders i).1 ≡ₚ elements (dom (conflicts (hashmap_at st i))) /\
            (orders i).2 ≡ₚ elements (dom (unique (hashmap_at st i))).

Lemma checked_stripe st0 orders i P a :
  stripes_ok st0 -> orders_ok orders st0 -> checked st0 P a -> (forall h x, x ∈ bucket (hashmap_at st0 i) h -> x ∉ P) ->
  exists P', checked st0 P' (iter_unique check i (orders i).2 (iter_conflicts check i (orders i).1 a)) /\
    forall x, x ∈ P' <-> x ∈ P \/ exists h, x ∈ bucket (hashmap_at st0 i) h.
Proof.
  intros Hok0 Hord Hch Hfresh. destruct (Hord i) as [O1 O2].
  assert (N1 : NoDup (orders i).1) by (rewrite O1; apply NoDup_elements).
  assert (N2 : NoDup (orders i).2) by (rewrite O2; apply NoDup_elements).
  assert (Hc : checked st0 (list_to_set (tails st0 i (orders i).1) ∪ P) (iter_conflicts check i (orders i).1 a)).
  { apply checked_conflicts; [done..|]. intros h x _. apply Hfresh. }
  destruct (checked_unique st0 i (orders i).2 _ _ Hok0 Hc N2) as (P' & H1 & H2).
  { intros h x Hh Hx. destruct (bucket (hashmap_at st0 i) h) as [|u T] eqn:Eb; [done|]. injection Hx as ->.
    intros [Ht|HxP]%elem_of_union; [|apply (Hfresh h x); [rewrite Eb; left|done]].
    apply elem_of_list_to_set, elem_of_tails in Ht as (k & _ & Hk).
    assert (h = k) as <- by (apply (bucket_hash st0 i h k x Hok0); [rewrite Eb; left|by apply elem_of_tail]).
    pose proof (bucket_NoDup st0 i h Hok0) as Hn. rewrite Eb in Hk, Hn. by apply NoDup_cons in Hn as [? _]. }
  exists P'. split; [done|]. intros x. rewrite H2, elem_of_union, elem_of_list_to_set, elem_of_tails. split.
  - intros [[(h & _ & Hx%elem_of_tail)|?]|(h & _ & Hx)]; [right; by exists h|by left|].
    right. exists h. destruct (bucket (hashmap_at st0 i) h); [done|]. injection Hx as ->. left.
  - intros [?|(h & Hx)]; [tauto|]. destruct (bucket_parts _ _ _ (ok_bucket _ Hok0 i h)) as (_ & _ & Hd1 & Hd2).
    destruct (bucket (hashmap_at st0 i) h) as [|u T] eqn:Eb; [by apply elem_of_nil in Hx|].
    apply elem_of_cons in Hx as [->|Hx].
    + right. exists h. rewrite Eb. split; [|done]. rewrite O2. by apply elem_of_elements, Hd1.
    + left. left. exists h. rewrite Eb. split; [|done]. rewrite O1. apply elem_of_elements, Hd2. intros E. cbn in E, Hx.
      rewrite E in Hx. by apply elem_of_nil in Hx.
Qed.

(** Every series in the maps is checked, and checked once. *)
Lemma collect_spec orders st0 :
  stripes_ok st0 -> orders_ok orders st0 ->
  exists P, checked st0 P (iterForDeletion check orders (st0, no_stats)) /\ (forall x, x ∈ P <-> live st0 x).
Proof.
  intros Hok0 Hord. unfold iterForDeletion. cbn [fst].
  assert (Hloop : forall idx P a, checked st0 P a -> NoDup idx ->
    (forall i h x, i ∈ idx -> x ∈ bucket (hashmap_at st0 i) h -> x ∉ P) ->
    exists P', checked st0 P' (foldl (fun a i => iter_unique check i (orders i).2 (iter_conflicts check i (orders i).1 a)) a idx) /\
      forall x, x ∈ P' <-> x ∈ P \/ exists i h, i ∈ idx /\ x ∈ bucket (hashmap_at st0 i) h).
  { induction idx as [|i idx IH]; intros P a Hch Hnd Hfresh; cbn [foldl].
    { exists P. split; [done|]. intros x. split; [by left|]. by intros [?|(? & ? & ?%elem_of_nil & _)]. }
    apply NoDup_cons in Hnd as [Hi Hnd].
    destruct (checked_stripe st0 orders i P a Hok0 Hord Hch) as (P1 & H1 & H2).
    { intros h x. apply Hfresh. left. }
    destruct (IH P1 _ H1 Hnd) as (P' & H3 & H4).
    { intros j h x Hj Hx [HxP|(k & Hk)]%H2; [by apply (Hfresh j h x); [right|..]|].
      destruct (ok_in_bucket _ Hok0 i k x Hk) as (Ei & l & s & Eo & Eh & _).
      destruct (ok_in_bucket _ Hok0 j h x Hx) as (Ej & l' & s' & Eo' & Eh' & _). congruence. }
    exists P'. split; [done|]. intros x. rewrite H4, H2. setoid_rewrite elem_of_cons. split.
    - intros [[?|(h & ?)]|(j & h & ? & ?)]; [by left|right; exists i, h; tauto|right; exists j, h; tauto].
    - intros [?|(j & h & [->|?] & ?)]; [tauto|left; right; by exists h|right; by exists j, h]. }
  destruct (Hloop (seq 0 (Z.to_nat (size st0))) ∅ (st0, no_stats)) as (P & H1 & H2).
  - split; cbn [fst snd]; try done.
    + intros i h. symmetry. induction (bucket _ h) as [|y l IH]; [done|]. cbn. by rewrite IH.
    + cbn. set_solver.
  - apply NoDup_seq.
  - set_solver.
  - exists P. split; [done|]. intros x. rewrite H2. split.
    + intros [?|(i & h & _ & Hx)]; [set_solver|]. by eapply in_bucket_live.
    + intros (l & s & Eo & Hx). right. exists (refStripe st0 (hash_of l)), (hash_of l). split; [|done].
      apply elem_of_seq. pose proof (refStripe_lt st0 (hash_of l) Hok0). lia.
Qed.
End Collect.

(** What the maps look like after a collection. *)
Lemma collected_live effect noted st0 P a :
  stripes_ok st0 -> checked effect noted st0 P a -> (forall x, x ∈ P <-> live st0 x) ->
  (forall x, x ∈ deleted a.2 <-> live st0 x /\ removed_in effect st0 x = true) /\
  (forall x, live a.1 x <-> live st0 x /\ x ∉ deleted a.2) /\
  (forall x l s, live st0 x -> objects st0 !! x = Some (l, s) -> objects a.1 !! x = Some (l, (effect x s).1)) /\
  (forall x, ~ live st0 x -> objects a.1 !! x = objects st0 !! x).
Proof.
  intros Hok0 [Hok Hsz Hobj Hbk Hdel Hnot] HP.
  assert (Hd : forall x, x ∈ deleted a.2 <-> live st0 x /\ removed_in effect st0 x = true) by (intros x; rewrite Hdel, HP; tauto).
  assert (Hob : forall x l s, live st0 x -> objects st0 !! x = Some (l, s) -> objects a.1 !! x = Some (l, (effect x s).1)).
  { intros x l s Hl Eo. rewrite Hobj, bool_decide_eq_true_2, Eo by (by apply HP). done. }
  split_and!; [done| |done|intros x Hx; rewrite Hobj, bool_decide_eq_false_2; [done|by rewrite HP]]. intros x. rewrite Hd.
  assert (Hst : forall y, refStripe a.1 y = refStripe st0 y) by (intros; unfold refStripe; by rewrite Hsz).
  split.
  - intros (l & s & Eo & Hx). rewrite Hbk in Hx. apply elem_of_lfilter in Hx as [Hx Hn].
    pose proof (in_bucket_live _ _ _ _ Hok0 Hx) as Hl. split; [done|]. intros [_ Er]. rewrite Er, andb_true_r in Hn.
    by rewrite bool_decide_eq_true_2 in Hn by (by apply HP).
  - intros [Hl Hn]. destruct Hl as (l & s & Eo & Hx) eqn:El. exists l, (effect x s).1.
    split; [by apply Hob|]. rewrite Hbk, Hst. apply elem_of_lfilter. split; [done|].
    destruct (removed_in effect st0 x); [|by rewrite andb_false_r]. tauto.
Qed.

(** ** gc *)

Definition truncated (mint minOOOMmapRef : Z) (s : series) : series := (truncateChunksBefore mint minOOOMmapRef s).1.

Lemma truncate_frame mint r s :
  headChunkCount s = Z.of_nat (length (headChunks s)) ->
  let s' := truncated mint r s in
  headChunkCount s' = Z.of_nat (length (headChunks s')) /\ headChunkCount s' <= headChunkCount s /\ state s' = state s.
Proof.
  intros Hc. unfold truncated, truncateChunksBefore.
  assert (H1 : let s1 := (truncate_head mint s).1 in
    headChunkCount s1 = Z.of_nat (length (headChunks s1)) /\ headChunkCount s1 <= headChunkCount s /\ state s1 = state s).
  { unfold truncate_head. pose proof (find_old_spec mint (headChunks s) 0) as Hf.
    destruct (find_old mint (headChunks s) 0) as [i|]; [|cbn; split_and!; [done|lia|done]].
    destruct Hf as (n & c & -> & Hn & _). apply lookup_lt_Some in Hn. cbn [Nat.add fst].
    destruct (Nat.eqb_spec n 0) as [->|]; cbn; [split_and!; [done|lia|done]|].
    rewrite length_take. split_and!; [lia|lia|done]. }
  destruct (truncate_head mint s) as [s1 k1]. cbn [fst] in H1.
  assert (H2 : let s2 := (truncate_mmapped mint s1 k1).1 in
    headChunkCount s2 = headChunkCount s1 /\ headChunks s2 = headChunks s1 /\ state s2 = state s1).
  { unfold truncate_mmapped. by destruct (length (mmappedChunks s1) =? 0)%nat. }
  destruct (truncate_mmapped mint s1 k1) as [s2 k2]. cbn [fst] in H2.
  pose proof (truncate_ooo_spec r s2) as H3.
  assert (H4 : state (truncate_ooo r s2).1 = state s2).
  { unfold truncate_ooo. destruct (ooo s2) as [o|]; [|done]. by destruct (oooMmappedChunks o). }
  destruct (truncate_ooo r s2) as [s3 k3]. cbn [fst] in *. destruct H3 as (_ & E1 & _ & E2 & _).
  destruct H1 as (A1 & A2 & A3), H2 as (B1 & B2 & B3). rewrite E2, B1, E1, B2, H4, B3. split_and!; [done|lia|done].
Qed.

Definition gc_effect (mint minOOOMmapRef : Z) (_ : Z) (s : series) : series * bool :=
  let s' := truncated mint minOOOMmapRef s in
  if gc_keeps s' then (s', false) else (set_state (setGCed (state s')) s', true).

(** The bounds that gc collects, each at most the smaller. *)
Definition stats_le (g g' : gc_stats) : Prop :=
  actualMint g' <= actualMint g /\ minOOOTime g' <= minOOOTime g /\ minMmapFile g' <= minMmapFile g.

Definition file_noted (g : gc_stats) (l : list mmappedChunk) : Prop :=
  match l with [] => True | m :: _ => minMmapFile g <= fst (MapperRef_Unpack (mm_ref m)) end.

(** The bounds cover what is left of the series. *)
Definition noted (s : series) (g : gc_stats) : Prop :=
  actualMint g <= minTime s /\ file_noted g (mmappedChunks s) /\
  match ooo s with
  | None => True
  | Some f => file_noted g (oooMmappedChunks f) /\ Forall (fun m => minOOOTime g <= mm_minTime m) (oooMmappedChunks f) /\
              match oooHead f with Some c => minOOOTime g <= oc_minTime c | None => True end
  end.

Lemma file_noted_le g g' l : stats_le g g' -> file_noted g l -> file_noted g' l.
Proof. intros (_ & _ & Hm). unfold file_noted. destruct l; lia. Qed.

Lemma noted_le g g' s : stats_le g g' -> noted s g -> noted s g'.
Proof.
  intros Hle (H1 & H2 & H3). pose proof Hle as (L1 & L2 & L3). split_and!; [lia|by eapply file_noted_le|].
  destruct (ooo s) as [f|]; [|done]. destruct H3 as (A1 & A2 & A3). split_and!; [by eapply file_noted_le| |].
  - eapply Forall_impl; [exact A2|]. cbv beta. lia.
  - destruct (oooHead f); lia.
Qed.

Lemma stats_le_trans a b c : stats_le a b -> stats_le b c -> stats_le a c.
Proof. unfold stats_le. lia. Qed.

Lemma add_mmap_file_le l g : stats_le g (add_mmap_file l g) /\ file_noted (add_mmap_file l g) l /\ deleted (add_mmap_file l g) = deleted g.
Proof.
  unfold add_mmap_file, file_noted, stats_le. destruct l as [|m l]; [split_and!; lia || done|].
  cbn [deleted actualMint minOOOTime minMmapFile]. set (q := (MapperRef_Unpack (mm_ref m)).1).
  destruct (Z.ltb_spec q (minMmapFile g)); split_and!; lia || done.
Qed.

Lemma add_ooo_time_le t g : stats_le g (add_ooo_time t g) /\ minOOOTime (add_ooo_time t g) <= t.
Proof. unfold stats_le. cbn. destruct (Z.ltb_spec t (minOOOTime g)); split_and!; lia. Qed.

Lemma add_ooo_times_le l : forall g : gc_stats,
  let g' := foldl (fun g ch => add_ooo_time (mm_minTime ch) g) g l in
  stats_le g g' /\ Forall (fun m => minOOOTime g' <= mm_minTime m) l /\ deleted g' = deleted g.
Proof.
  induction l as [|m l IH]; intros g; cbn [foldl]; [unfold stats_le; split_and!; lia || done|].
  destruct (IH (add_ooo_time (mm_minTime m) g)) as (H1 & H2 & H3).
  destruct (add_ooo_time_le (mm_minTime m) g) as [H4 H5]. split_and!; [by eapply stats_le_trans| |done].
  constructor; [|done]. destruct H1 as (_ & H1 & _). lia.
Qed.

Lemma add_ooo_le o g :
  stats_le g (add_ooo o g) /\ deleted (add_ooo o g) = deleted g /\
  match o with
  | None => True
  | Some f => file_noted (add_ooo o g) (oooMmappedChunks f) /\
              Forall (fun m => minOOOTime (add_ooo o g) <= mm_minTime m) (oooMmappedChunks f) /\
              match oooHead f with Some c => minOOOTime (add_ooo o g) <= oc_minTime c | None => True end
  end.
Proof.
  destruct o as [f|]; cbn [add_ooo]; [|unfold stats_le; split_and!; lia || done].
  destruct (add_mmap_file_le (oooMmappedChunks f) g) as (A1 & A2 & A3). set (g1 := add_mmap_file _ g) in *.
  destruct (add_ooo_times_le (oooMmappedChunks f) g1) as (B1 & B2 & B3). set (g2 := foldl _ g1 _) in *.
  destruct (oooHead f) as [c|].
  - destruct (add_ooo_time_le (oc_minTime c) g2) as (C1 & C2).
    split_and!; [eapply stats_le_trans; [exact A1|by eapply stats_le_trans]|by rewrite <-A3, <-B3| | |done].
    + eapply file_noted_le; [|exact A2]. by eapply stats_le_trans.
    + eapply Forall_impl; [exact B2|]. cbv beta. destruct C1 as (_ & C1 & _). lia.
  - split_and!; [by eapply stats_le_trans|by rewrite B3|by eapply file_noted_le|done|done].
Qed.

Lemma alter_minus_0 (i : nat) (l : list Z) d : d = 0 -> alter (fun n => n - d) i l = l.
Proof.
  intros ->. apply list_eq. intros j. destruct (decide (j = i)) as [->|].
  - rewrite list_lookup_alter_eq. destruct (l !! i); [|done]. cbn. f_equal. lia.
  - by rewrite list_lookup_alter_ne.
Qed.

(** A series whose head chunks, and with them whether it is ready for m-mapping,
    have changed. *)
Lemma updated_stepped st r l s s1 :
  (ready s1 = true -> ready s = true) ->
  let st1 := set_objects (<[r := (l, s1)]> (objects st)) st in
  stepped st (if ready s && negb (ready s1) then decMmapReady r st1 else st1) r l s s1 false.
Proof.
  intros Hr. cbv zeta. destruct (ready s) eqn:E1, (ready s1) eqn:E2; cbn [andb negb]; split; try done;
    rewrite ?E1, ?E2; cbn; symmetry; (apply alter_minus_0; lia) || naive_solver.
Qed.

(** remove_series after the counter of the stripe was corrected. *)
Lemma removed_stepped st st1 g r l s s1 :
  size st1 = size st -> hashes st1 = hashes st -> by_ref st1 = by_ref st ->
  (forall x, <[r := x]> (objects st1) = <[r := x]> (objects st)) ->
  mmapReady st1 = alter (fun n => n - Z.b2z (ready s)) (refStripe st r) (mmapReady st) ->
  let '(st', g') := remove_series (refStripe st (hash_of l)) (hash_of l) r l s1 st1 g in
  stepped st st' r l s (set_state (setGCed (state s1)) s1) true /\ deleted g' = {[r]} ∪ deleted g /\ stats_le g g'.
Proof.
  intros Es Eh Er Eo Em. unfold remove_series. destruct (sampleState s1) as [[stale isHist] buckets].
  split_and!; [|done|unfold stats_le; cbn; lia].
  split; cbn; [done|apply Eo|by rewrite Eh|unfold refStripe; cbn; by rewrite Es, Er|rewrite Em].
  apply list_alter_ext; [|done]. intros. cbn. lia.
Qed.

Lemma stats_le_refl g : stats_le g g.
Proof. unfold stats_le. lia. Qed.

Lemma gc_check_steps mint mref r l s st g :
  objects st !! r = Some (l, s) -> headChunkCount s = Z.of_nat (length (headChunks s)) ->
  let '(st', g') := gc_check mint mref (refStripe st (hash_of l)) (hash_of l) r (st, g) in
  let '(s', rm) := gc_effect mint mref r s in
  stepped st st' r l s s' rm /\ deleted g' = (if rm then {[r]} ∪ deleted g else deleted g) /\
  (rm = false -> noted s' g') /\ (forall s, noted s g -> noted s g').
Proof.
  intros Eo Hc. destruct (truncate_frame mint mref s Hc) as (Hc1 & Hle & Est). unfold gc_check, gc_effect, truncated in *.
  rewrite Eo. destruct (truncateChunksBefore mint mref s) as [s1 removed]. cbn [fst] in *.
  assert (Hr : ready s1 = true -> ready s = true) by (unfold ready; lia).
  pose proof (updated_stepped st r l s s1 Hr) as Hst. cbv zeta in Hst.
  replace ((2 <=? headChunkCount s) && (headChunkCount s1 <? 2)) with (ready s && negb (ready s1))
    by (unfold ready; by rewrite <-Z.ltb_antisym).
  set (st1 := if _ && _ then _ else _) in *.
  set (g1 := add_removed removed g). destruct (add_mmap_file_le (mmappedChunks s1) g1) as (A1 & A2 & A3).
  set (g2 := add_mmap_file _ g1) in *. destruct (add_ooo_le (ooo s1) g2) as (B1 & B2 & B3). set (g3 := add_ooo _ g2) in *.
  assert (L3 : stats_le g g3) by (eapply stats_le_trans; [|exact B1]; exact A1).
  destruct (gc_keeps s1) eqn:Ek; cbn [fst snd].
  - assert (L4 : stats_le g3 (add_mint (minTime s1) g3) /\ actualMint (add_mint (minTime s1) g3) <= minTime s1).
    { unfold stats_le, add_mint. cbn [actualMint minOOOTime minMmapFile].
      destruct (Z.ltb_spec (minTime s1) (actualMint g3)); split_and!; lia. }
    destruct L4 as [L4 L5]. split_and!; [exact Hst| | |].
    + cbn. by rewrite B2, A3.
    + intros _. split_and!; [done| |].
      * eapply file_noted_le; [eapply stats_le_trans; [exact B1|exact L4]|exact A2].
      * destruct (ooo s1) as [f|]; [exact B3|done].
    + intros s2. apply noted_le. by eapply stats_le_trans.
  - destruct Hst as [Hsz Hobj Hh Hrf Hmr].
    assert (Hr1 : ready s1 = false).
    { unfold ready. rewrite Hc1. unfold gc_keeps in Ek. destruct (headChunks s1); [done|].
      rewrite orb_true_r in Ek. done. }
    pose proof (removed_stepped st st1 g3 r l s s1 Hsz Hh Hrf) as Hrem.
    destruct (remove_series _ _ _ _ _ _ _) as [st' g']. destruct Hrem as (C1 & C2 & C3).
    { intros x. rewrite Hobj. apply insert_insert_eq. }
    { rewrite Hmr, Hr1. apply list_alter_ext; [|done]. intros. cbn. lia. }
    split_and!; [exact C1|by rewrite C2, B2, A3|done|]. intros s2. apply noted_le. by eapply stats_le_trans.
Qed.

Lemma gc_effect_count mint mref r s :
  headChunkCount s = Z.of_nat (length (headChunks s)) ->
  headChunkCount (gc_effect mint mref r s).1 = Z.of_nat (length (headChunks (gc_effect mint mref r s).1)).
Proof. intros Hc. unfold gc_effect. destruct (truncate_frame mint mref s Hc) as (H1 & _). by destruct (gc_keeps _). Qed.

(** ** gcSeries *)

Definition evicted (refsSet : gset Z) (maxt : Z) (shouldEvict : series -> bool) (r : Z) (s : series) : bool :=
  bool_decide (r ∈ refsSet) && negb (hasPendingCommit (state s)) && (maxTime s <=? maxt) && shouldEvict s.

Definition gcSeries_effect (refsSet : gset Z) (maxt : Z) (shouldEvict : series -> bool) (r : Z) (s : series) : series * bool :=
  if evicted refsSet maxt shouldEvict r s then (set_state (setGCed (state s)) s, true) else (s, false).

Lemma gcSeries_check_steps refsSet maxt shouldEvict r l s st g :
  objects st !! r = Some (l, s) ->
  let '(st', g') := gcSeries_check refsSet maxt shouldEvict (refStripe st (hash_of l)) (hash_of l) r (st, g) in
  let '(s', rm) := gcSeries_effect refsSet maxt shouldEvict r s in
  stepped st st' r l s s' rm /\ deleted g' = (if rm then {[r]} ∪ deleted g else deleted g) /\
  (rm = false -> True) /\ (series -> True -> True).
Proof.
  intros Eo. assert (Hskip : stepped st st r l s s false).
  { split; try done; [by rewrite insert_id|]. symmetry. apply alter_minus_0. cbn. lia. }
  unfold gcSeries_check, gcSeries_effect, evicted. case_bool_decide as Hr; cbn [negb andb]; [|by split_and!].
  rewrite Eo. destruct (hasPendingCommit (state s)) eqn:Ep; cbn [orb negb andb]; [by split_and!|].
  rewrite Z.ltb_antisym. destruct (maxTime s <=? maxt); cbn [negb andb]; [|by split_and!].
  destruct (shouldEvict s); cbn [negb]; [|by split_and!].
  set (g1 := add_removed _ g). fold (ready s).
  pose proof (removed_stepped st (if ready s then decMmapReady r st else st) g1 r l s s) as Hrem.
  destruct (remove_series _ _ _ _ _ _ _) as [st' g']. destruct Hrem as (C1 & C2 & _); [by destruct (ready s)..| |].
  { destruct (ready s); [done|]. symmetry. apply alter_minus_0. done. }
  by split_and!.
Qed.

(** What a collection leaves, for the effect of its check function on a series. *)
Record collected (effect : Z -> series -> series * bool) (noted : series -> gc_stats -> Prop)
    (st st' : stripeSeries) (g : gc_stats) : Prop := {
  co_ok : stripes_ok st';
  co_live : forall x, live st' x <-> live st x /\ x ∉ deleted g;
  co_deleted : forall x, x ∈ deleted g -> live st x;
  co_series : forall x l s, live st x -> objects st !! x = Some (l, s) ->
    objects st' !! x = Some (l, (effect x s).1) /\
    (x ∈ deleted g <-> (effect x s).2 = true) /\ (x ∉ deleted g -> noted (effect x s).1 g);
  co_others : forall x, ~ live st x -> objects st' !! x = objects st !! x }.

Lemma checked_collected effect noted st0 P a :
  stripes_ok st0 -> checked effect noted st0 P a -> (forall x, x ∈ P <-> live st0 x) -> collected effect noted st0 a.1 a.2.
Proof.
  intros Hok0 Hch HP. destruct (collected_live effect noted st0 P a Hok0 Hch HP) as (H1 & H2 & H3 & H4).
  split; [apply Hch|done|intros x Hx; by apply H1| |done].
  intros x l s Hl Eo. split; [by apply H3|].
  assert (E : removed_in effect st0 x = (effect x s).2) by (unfold removed_in; by rewrite Eo).
  assert (Hiff : x ∈ deleted a.2 <-> (effect x s).2 = true) by (rewrite H1, E; tauto). split; [done|].
  intros Hn. apply (ch_noted _ _ _ _ _ Hch x l); [by apply HP|done|]. rewrite Hiff in Hn. by destruct (effect x s).2.
Qed.

Lemma gc_collected orders mint mref st :
  stripes_ok st -> orders_ok orders st ->
  let '(st', g) := gc orders mint mref st in collected (gc_effect mint mref) noted st st' g.
Proof.
  intros Hok Hord.
  destruct (collect_spec (gc_check mint mref) (gc_effect mint mref) noted) with (orders := orders) (st0 := st)
    as (P & Hch & HP); [|apply gc_effect_count|done|done|].
  { intros r l s st1 g1 _ _ Eo Hc. pose proof (gc_check_steps mint mref r l s st1 g1 Eo Hc) as Hs.
    destruct (gc_check _ _ _ _ _ _) as [st2 g2]. by destruct (gc_effect mint mref r s). }
  pose proof (checked_collected _ _ _ _ _ Hok Hch HP) as Hco. unfold gc.
  destruct (iterForDeletion _ _ _) as [st' g]. cbn [fst snd] in Hco. case_match; [|done].
  destruct Hco as [C1 C2 C3 C4 C5]. split; [done|done|done| |done]. intros x l s Hl Eo.
  destruct (C4 x l s Hl Eo) as (D1 & D2 & D3). split_and!; [done|done|]. intros Hx.
  eapply noted_le; [|by apply D3]. unfold stats_le, add_mint. cbn.
  destruct (Z.ltb_spec mint (actualMint g)); split_and!; lia.
Qed.


Lemma gcSeries_collected orders seriesRefs maxt shouldEvict st :
  stripes_ok st -> orders_ok orders st ->
  let '(st', g) := gcSeries orders seriesRefs maxt shouldEvict st in
  collected (gcSeries_effect (list_to_set seriesRefs) maxt shouldEvict) (fun _ _ => True) st st' g.
Proof.
  intros Hok Hord. set (eff := gcSeries_effect (list_to_set seriesRefs) maxt shouldEvict).
  destruct (collect_spec (gcSeries_check (list_to_set seriesRefs) maxt shouldEvict) eff (fun _ _ => True))
    with (orders := orders) (st0 := st) as (P & Hch & HP); [| |done|done|].
  { intros r l s st1 g1 _ _ Eo _. pose proof (gcSeries_check_steps (list_to_set seriesRefs) maxt shouldEvict r l s st1 g1 Eo) as Hs.
    unfold eff. destruct (gcSeries_check _ _ _ _ _ _ _) as [st2 g2]. destruct (gcSeries_effect _ _ _ r s). cbn [fst snd].
    destruct Hs as (H1 & H2 & _). by split_and!. }
  { intros r s Hc. unfold eff, gcSeries_effect. by destruct (evicted _ _ _ _ _). }
  pose proof (checked_collected _ _ _ _ _ Hok Hch HP) as Hco. unfold gcSeries.
  by destruct (iterForDeletion _ _ _) as [st' g].
Qed.

End Collection.

(** ** m-mapping the head *)

Section StripeMmap.
  Context {H FH C L D : Type} `{!EqDecision L} `{!ChunkMeta C} `{!DiskMapper D C}.
  Variable hash_of : L -> Z.
  Notation series := (@memSeries H FH C).
  Notation stripeSeries := (@stripeSeries H FH C L).

(** onChunkCreated without the metrics: the counter of the stripe. *)
Definition onChunkCreated (r prevHeadChunkCount : Z) (st : stripeSeries) : stripeSeries :=
  match objects st !! r with
  | Some (_, s) => if (prevHeadChunkCount <? 2) && (headChunkCount s =? 2) then incMmapReady r st else st
  | None => st
  end.

(** The body of the loop of mmapHeadChunksInStripe. *)
Definition mmap_series (a : D * stripeSeries * Z) (r : Z) : D * stripeSeries * Z :=
  let '(d, st, count) := a in
  match objects st !! r with
  | None => a
  | Some (l, s) =>
      if headChunkCount s <? 2 then a
      else
        let '(d, s, n) := mmapChunks d s in
        let st := set_objects (<[r := (l, s)]> (objects st)) st in
        if 0 <? n then (d, decMmapReady r st, count + n) else (d, st, count)
  end.

(** [order] is the order in which Go visits the series of the stripe. *)
Definition mmapHeadChunksInStripe (order : list Z) (i : nat) (d : D) (st : stripeSeries) : D * stripeSeries * Z :=
  if default 0 (mmapReady st !! i) =? 0 then (d, st, 0) else foldl mmap_series (d, st, 0) order.

Definition mmapHeadChunks (orders : nat -> list Z) (d : D) (st : stripeSeries) : D * stripeSeries * Z :=
  foldl (fun a i =>
    let '(d, st, count) := a in
    let '(d, st, n) := mmapHeadChunksInStripe (orders i) i d st in
    (d, st, count + n)) (d, st, 0) (seq 0 (Z.to_nat (size st))).

(** ** The counters of series ready for m-mapping *)

(** A created chunk, in order or not, makes the head of the series one chunk
    longer, or leaves it; the first sample may leave two. *)
Lemma created_stepped st r l s s1 :
  headChunkCount s <= headChunkCount s1 -> headChunkCount s1 <= Z.max 2 (headChunkCount s + 1) ->
  stepped hash_of st (onChunkCreated r (headChunkCount s) (set_objects (<[r := (l, s1)]> (objects st)) st)) r l s s1 false.
Proof.
  intros H1 H2. unfold onChunkCreated. cbn [objects set_objects]. rewrite lookup_insert_eq.
  assert (E : Z.b2z ((headChunkCount s <? 2) && (headChunkCount s1 =? 2)) = Z.b2z (ready s1) - Z.b2z (ready s))
    by (unfold ready; repeat match goal with |- context [?a <? ?b] => destruct (Z.ltb_spec a b) | |- context [?a =? ?b] => destruct (Z.eqb_spec a b) | |- context [?a <=? ?b] => destruct (Z.leb_spec a b) end; cbn; lia).
  destruct ((headChunkCount s <? 2) && (headChunkCount s1 =? 2)); cbn [Z.b2z] in E; split; try done; cbn [negb andb].
  - cbn. apply list_alter_ext; [|done]. intros. cbn. lia.
  - cbn. symmetry. apply alter_minus_0. lia.
Qed.

(** Storing a series whose head has grown and telling of the created chunk keeps
    the maps consistent; without a new head chunk nothing need be told. *)
Lemma created_ok st r l s s1 :
  stripes_ok hash_of st -> live hash_of st r -> objects st !! r = Some (l, s) ->
  headChunkCount s1 = Z.of_nat (length (headChunks s1)) ->
  headChunkCount s <= headChunkCount s1 <= Z.max 2 (headChunkCount s + 1) ->
  let st1 := set_objects (<[r := (l, s1)]> (objects st)) st in
  stripes_ok hash_of (onChunkCreated r (headChunkCount s) st1) /\
  (headChunkCount s1 = headChunkCount s -> stripes_ok hash_of st1).
Proof.
  intros Hok Hl Eo Hc [H1 H2]. cbv zeta. split.
  - eapply stepped_ok; [exact Hok|exact Eo|exact Hl|by apply created_stepped|done].
  - intros E. eapply (stepped_ok st _ r l s s1 false); [exact Hok|exact Eo|exact Hl| |done]. split; try done; cbn [negb andb].
    cbn. symmetry. apply alter_minus_0. unfold ready. rewrite E. lia.
Qed.

(** ** All series m-mapped *)

Context `{!DiskMapperLaws D C}.

(** The chunks of the series in the maps can be read. *)
Definition disk_ok (d : D) (st : stripeSeries) : Prop :=
  forall r l s, live hash_of st r -> objects st !! r = Some (l, s) -> counts_ok s /\ readable d s.

Definition same_series (d : D) (s : series) (d' : D) (s' : series) : Prop :=
  view d' s' = view d s /\ (forall pos, headChunkID pos s' = headChunkID pos s) /\
  take 1 (headChunks s') = take 1 (headChunks s) /\ (length (headChunks s') <= length (headChunks s))%nat.

(** The same series are in the maps, and a reader sees the same of each. *)
Record mapped (d : D) (st : stripeSeries) (d' : D) (st' : stripeSeries) : Prop := {
  mp_ok : stripes_ok hash_of st';
  mp_disk : disk_ok d' st';
  mp_size : size st' = size st;
  mp_refs : by_ref st' = by_ref st;
  mp_live : forall r, live hash_of st' r <-> live hash_of st r;
  mp_series : forall r l s, live hash_of st r -> objects st !! r = Some (l, s) ->
    exists s', objects st' !! r = Some (l, s') /\ same_series d s d' s' }.

Lemma mapped_refl d st : stripes_ok hash_of st -> disk_ok d st -> mapped d st d st.
Proof. intros Hok Hd. split; try done. intros r l s _ Eo. exists s. by split. Qed.

Lemma mapped_trans d st d1 st1 d2 st2 : mapped d st d1 st1 -> mapped d1 st1 d2 st2 -> mapped d st d2 st2.
Proof.
  intros [A1 A2 A3 A4 A5 A6] [B1 B2 B3 B4 B5 B6]. split; [done|done|congruence|congruence|intros r; by rewrite B5, A5|].
  intros r l s Hr Eo. destruct (A6 r l s Hr Eo) as (s1 & E1 & V1 & I1 & T1 & N1).
  destruct (B6 r l s1 (proj2 (A5 r) Hr) E1) as (s2 & E2 & V2 & I2 & T2 & N2). exists s2. split; [done|].
  split_and!; [congruence|intros pos; by rewrite I2, I1|congruence|lia].
Qed.

Definition mmapped_ref (st : stripeSeries) (r : Z) : Prop :=
  forall l (s : series), objects st !! r = Some (l, s) -> (length (headChunks s) <= 1)%nat.

Lemma mapped_mmapped d st d' st' r :
  mapped d st d' st' -> live hash_of st r -> mmapped_ref st r -> mmapped_ref st' r.
Proof.
  intros Hm (l & s & Eo & Hx) Hr l' s' Eo'. specialize (Hr l s Eo).
  destruct (mp_series _ _ _ _ Hm r l s) as (s1 & E1 & _ & _ & _ & Hle); [by exists l, s|done|].
  rewrite Eo' in E1. injection E1 as -> ->. lia.
Qed.

Lemma live_count st r l (s : series) :
  stripes_ok hash_of st -> live hash_of st r -> objects st !! r = Some (l, s) ->
  headChunkCount s = Z.of_nat (length (headChunks s)).
Proof.
  intros Hok (l' & s' & Eo' & Hx) Eo. destruct (ok_in_bucket _ Hok _ _ _ Hx) as (_ & l1 & s1 & Eo1 & _ & Hc). congruence.
Qed.

Lemma mmap_series_spec d st count r :
  stripes_ok hash_of st -> disk_ok d st -> live hash_of st r ->
  let '(d', st', _) := mmap_series (d, st, count) r in mapped d st d' st' /\ mmapped_ref st' r.
Proof.
  intros Hok Hd Hl. pose proof Hl as (l & s & Eo & _). unfold mmap_series. rewrite Eo.
  pose proof (live_count st r l s Hok Hl Eo) as Hc. destruct (Hd r l s Hl Eo) as [Hcs Hrd].
  destruct (Z.ltb_spec (headChunkCount s) 2) as [Hlt|Hge].
  { split; [by apply mapped_refl|]. intros l' s' Eo'. rewrite Eo in Eo'. injection Eo' as <- <-. lia. }
  pose proof (mmapChunks_spec d s Hcs Hrd) as Hm. destruct (mmapChunks d s) as [[d' s'] n].
  destruct Hm as (V & I & Hh & Hcs' & Hrd' & -> & Hkeep).
  rewrite (proj2 (Z.ltb_lt _ _)) by lia. set (st1 := set_objects _ st).
  assert (Hlen : length (headChunks s') = 1%nat) by (rewrite Hh, length_take; lia).
  assert (Hst : stepped hash_of st (decMmapReady r st1) r l s s' false).
  { split; try done. cbn. apply list_alter_ext; [|done]. intros y _. unfold ready.
    rewrite (proj2 (Z.leb_le 2 (headChunkCount s))) by lia. destruct Hcs' as [-> _ _]. rewrite Hlen. change (2 <=? Z.of_nat 1) with false. cbn. lia. }
  assert (Hok' : stripes_ok hash_of (decMmapReady r st1)).
  { eapply stepped_ok; [exact Hok|exact Eo|exact Hl|exact Hst|]. by destruct Hcs'. }
  assert (Hlive : forall x, live hash_of (decMmapReady r st1) x <-> live hash_of st x).
  { intros x. rewrite (stepped_live st _ r l s s' false x Hok Eo Hst). split; [by intros [? _]|by split]. }
  assert (Eobj : forall x, objects (decMmapReady r st1) !! x = if decide (x = r) then Some (l, s') else objects st !! x).
  { intros x. cbn. case_decide as Hx; [by rewrite Hx, lookup_insert_eq|by rewrite lookup_insert_ne]. }
  split; [split; try done|].
  - intros x l1 s1 Hx. rewrite Eobj. case_decide as E; [by intros [= <- <-]|]. intros Eo1.
    destruct (Hd x l1 s1) as [D1 D2]; [by apply Hlive|done|]. split; [done|]. by apply (view_keeps d).
  - intros x l1 s1 Hx Eo1. rewrite Eobj. case_decide as E.
    + rewrite E, Eo in Eo1. injection Eo1 as <- <-. exists s'. split; [done|]. split_and!; [done|done| |lia].
      rewrite Hh, take_take. done.
    + exists s1. split; [done|]. destruct (Hd x l1 s1 Hx Eo1) as [D1 D2]. split_and!; [|done..]. by apply (view_keeps d).
  - intros l1 s1. rewrite Eobj, decide_True by done. intros [= <- <-]. lia.
Qed.

Lemma mmap_series_list order : forall d st count,
  stripes_ok hash_of st -> disk_ok d st -> (forall r, r ∈ order -> live hash_of st r) ->
  let '(d', st', _) := foldl mmap_series (d, st, count) order in
  mapped d st d' st' /\ (forall r, r ∈ order -> mmapped_ref st' r).
Proof.
  induction order as [|r order IH]; intros d st count Hok Hd Hl; cbn [foldl].
  { split; [by apply mapped_refl|]. by intros r ?%elem_of_nil. }
  pose proof (mmap_series_spec d st count r Hok Hd (Hl r ltac:(left))) as Hs.
  destruct (mmap_series (d, st, count) r) as [[d1 st1] count1]. destruct Hs as [M1 R1].
  specialize (IH d1 st1 count1 (mp_ok _ _ _ _ M1) (mp_disk _ _ _ _ M1)).
  destruct (foldl mmap_series (d1, st1, count1) order) as [[d2 st2] count2]. destruct IH as [M2 R2].
  { intros x Hx. apply (mp_live _ _ _ _ M1), Hl. by right. }
  split; [by eapply mapped_trans|]. intros x [->|Hx]%elem_of_cons; [|by apply R2].
  eapply mapped_mmapped; [exact M2| |done]. apply (mp_live _ _ _ _ M1), Hl. left.
Qed.

(** A stripe whose counter is zero has nothing to m-map. *)
Lemma not_ready_stripe st i r :
  stripes_ok hash_of st -> (i < Z.to_nat (size st))%nat -> default 0 (mmapReady st !! i) = 0 -> r ∈ refs_at st i ->
  mmapped_ref st r.
Proof.
  intros Hok Hi Hz Hr l s Eo. rewrite (ok_ready _ Hok i Hi) in Hz. cbn in Hz. unfold count_ready in Hz.
  assert (Hn : List.filter (ready_ref st) (elements (refs_at st i)) = []) by (apply nil_length_inv; lia).
  assert (Hrr : ready_ref st r = false).
  { destruct (ready_ref st r) eqn:E; [|done]. assert (Hin : r ∈ List.filter (ready_ref st) (elements (refs_at st i)))
      by (apply elem_of_lfilter; split; [by apply elem_of_elements|done]). rewrite Hn in Hin. by apply elem_of_nil in Hin. }
  apply (ok_refs _ Hok) in Hr as [_ Hl]. pose proof (live_count st r l s Hok Hl Eo) as Hc.
  unfold ready_ref in Hrr. rewrite Eo in Hrr. unfold ready in Hrr. lia.
Qed.

Lemma mmapHeadChunksInStripe_spec order i d st :
  stripes_ok hash_of st -> disk_ok d st -> (i < Z.to_nat (size st))%nat -> order ≡ₚ elements (refs_at st i) ->
  let '(d', st', _) := mmapHeadChunksInStripe order i d st in
  mapped d st d' st' /\ (forall r, r ∈ refs_at st i -> mmapped_ref st' r).
Proof.
  intros Hok Hd Hi Hord. unfold mmapHeadChunksInStripe.
  destruct (Z.eqb_spec (default 0 (mmapReady st !! i)) 0) as [Hz|_].
  { split; [by apply mapped_refl|]. intros r. by apply not_ready_stripe. }
  assert (Hin : forall r, r ∈ order <-> r ∈ refs_at st i) by (intros r; rewrite Hord; apply elem_of_elements).
  pose proof (mmap_series_list order d st 0 Hok Hd) as Hs. destruct (foldl _ _ _) as [[d' st'] n]. destruct Hs as [M R].
  { intros r Hr%Hin. by apply (ok_refs _ Hok) in Hr as [_ ?]. }
  split; [done|]. intros r Hr%Hin. by apply R.
Qed.

(** M-mapping the whole head loses nothing and leaves nothing to do.  The
    same series are in the maps; of each, a reader sees the same chunks with the
    same data at the same positions and under the same IDs as before, though all
    its head chunks but the newest were moved to disk and other series were
    written to the same mapper afterwards.  Stripes whose counter is zero are
    passed over, and rightly; afterwards every counter is zero. *)
Theorem mmapHeadChunks_spec orders d st :
  stripes_ok hash_of st -> disk_ok d st -> (forall i, orders i ≡ₚ elements (refs_at st i)) ->
  let '(d', st', _) := mmapHeadChunks orders d st in
  stripes_ok hash_of st' /\ (forall r, live hash_of st' r <-> live hash_of st r) /\
  (forall r l s, live hash_of st r -> objects st !! r = Some (l, s) ->
    exists s', objects st' !! r = Some (l, s') /\ readable d' s' /\ view d' s' = view d s /\
      (forall pos, headChunkID pos s' = headChunkID pos s) /\ headChunks s' = take 1 (headChunks s)) /\
  (forall i, (i < Z.to_nat (size st))%nat -> mmapReady st' !! i = Some 0).
Proof.
  intros Hok Hd Hord. unfold mmapHeadChunks.
  assert (Hloop : forall idx d1 st1 count, mapped d st d1 st1 -> (forall i, i ∈ idx -> (i < Z.to_nat (size st))%nat) ->
    let '(d', st', _) := foldl (fun a i => let '(d, st, count) := a in
        let '(d, st, n) := mmapHeadChunksInStripe (orders i) i d st in (d, st, count + n)) (d1, st1, count) idx in
    mapped d st d' st' /\ forall r, (mmapped_ref st1 r /\ live hash_of st r) \/ (exists i, i ∈ idx /\ r ∈ refs_at st i) -> mmapped_ref st' r).
  { induction idx as [|i idx IH]; intros d1 st1 count Hm Hidx; cbn [foldl].
    { split; [done|]. by intros r [[Hr _]|(? & ?%elem_of_nil & _)]. }
    assert (Er : refs_at st1 i = refs_at st i) by (unfold refs_at; by rewrite (mp_refs _ _ _ _ Hm)).
    pose proof (mmapHeadChunksInStripe_spec (orders i) i d1 st1 (mp_ok _ _ _ _ Hm) (mp_disk _ _ _ _ Hm)) as Hs.
    destruct (mmapHeadChunksInStripe (orders i) i d1 st1) as [[d2 st2] n]. destruct Hs as [M R].
    { rewrite (mp_size _ _ _ _ Hm). apply Hidx. left. }
    { rewrite Er. apply Hord. }
    specialize (IH d2 st2 (count + n) (mapped_trans _ _ _ _ _ _ Hm M)).
    destruct (foldl _ _ _) as [[d3 st3] n3]. destruct IH as [M3 R3]; [intros j Hj; apply Hidx; by right|].
    split; [done|]. intros r Hr. apply R3. destruct Hr as [[Hr Hl]|(j & [->|Hj]%elem_of_cons & Hr)].
    - left. split; [|done]. eapply mapped_mmapped; [exact M| |done]. by apply (mp_live _ _ _ _ Hm).
    - left. split; [|by apply (ok_refs _ Hok) in Hr as [_ ?]]. apply R. by rewrite Er.
    - right. by exists j. }
  specialize (Hloop (seq 0 (Z.to_nat (size st))) d st 0 (mapped_refl d st Hok Hd)).
  destruct (foldl _ _ _) as [[d' st'] n]. destruct Hloop as [M R]; [intros i Hi%elem_of_seq; lia|].
  destruct M as [M1 M2 M3 M4 M5 M6].
  assert (Hdone : forall r, live hash_of st r -> mmapped_ref st' r).
  { intros r Hl. apply R. right. exists (refStripe st r). split; [|by apply (ok_refs _ Hok)].
    apply elem_of_seq. pose proof (refStripe_lt st r Hok). lia. }
  split_and!; [done|done| |].
  - intros r l s Hl Eo. destruct (M6 r l s Hl Eo) as (s' & Eo' & V & I & T & _). exists s'.
    split_and!; [done|by apply (M2 r l); [apply M5|]|done|done|]. rewrite <-T. symmetry. apply take_ge.
    by apply (Hdone r Hl l).
  - intros i Hi. rewrite (ok_ready _ M1) by (by rewrite M3). f_equal. unfold count_ready.
    rewrite (filter_ext_in _ (fun _ => false)).
    + induction (elements _); [done|]. done.
    + intros r Hr%elem_of_elements. apply (ok_refs _ M1) in Hr as [_ Hl]. unfold ready_ref.
      pose proof Hl as (l & s & Eo & _). rewrite Eo. unfold ready. rewrite (live_count st' r l s M1 Hl Eo).
      apply M5 in Hl. specialize (Hdone r Hl l s Eo). lia.
Qed.
End StripeMmap.

(** An empty set of series. *)
Lemma newStripeSeries_ok {H FH C L} (hash_of : L -> Z) (k : nat) :
  stripes_ok hash_of (@newStripeSeries H FH C L (Nat.pow 2 k)).
Proof.
  assert (Eh : forall i, hashmap_at (@newStripeSeries H FH C L (Nat.pow 2 k)) i = mk_seriesHashmap ∅ ∅).
  { intros i. unfold hashmap_at. cbn. destruct (replicate _ _ !! i) eqn:E; [|done]. by apply lookup_replicate in E as [-> _]. }
  assert (Er : forall i, refs_at (@newStripeSeries H FH C L (Nat.pow 2 k)) i = ∅).
  { intros i. unfold refs_at. cbn. destruct (replicate _ _ !! i) eqn:E; [|done]. by apply lookup_replicate in E as [-> _]. }
  split.
  - exists (Z.of_nat k). split; [lia|]. cbn. by rewrite Nat2Z.inj_pow.
  - cbn. rewrite length_replicate. lia.
  - cbn. rewrite length_replicate. lia.
  - cbn. rewrite length_replicate. lia.
  - intros i h. rewrite Eh. split; cbn; [done|done|constructor].
  - intros i h r. rewrite Eh. unfold bucket. cbn. by intros ?%elem_of_nil.
  - intros j r. rewrite Er. split; [set_solver|]. intros [_ (l & s & E & _)]. done.
  - intros j Hj. cbn in Hj |- *. unfold count_ready. rewrite Er. rewrite elements_empty. cbn.
    apply lookup_replicate. split; [done|lia].
Qed.

(** ** A concrete head *)

(** Label sets are numbers, and some of their hashes collide. *)
Definition example_hash (l : Z) : Z := l mod 3.
#[local] Instance unit_HistogramOps : HistogramOps unit := {| hist_Equals _ h := bool_decide (is_Some h); hist_Sum _ := 0; hist_buckets _ := 1 |}.
Notation test_head := (@Head unit unit test_chunk Z).

Definition create (pending : bool) (h : test_head) (lset : Z) : test_head :=
  match getOrCreate (fun _ => None) true (example_hash lset) lset pending h with Some (h, _) => h | None => h end.

(** The references of the labels 4, 7 and 2 are 1, 2 and 3. *)
Definition example_head : test_head :=
  create false (create true (create false (mk_Head (newStripeSeries 2) 0 0) 4) 7) 2.

Lemma create_ok pending h lset :
  head_ok example_hash h -> lastSeriesID h < 2 ^ 64 - 1 -> getByHash (example_hash lset) lset (h_series h) = None ->
  head_ok example_hash (create pending h lset).
Proof.
  intros Hok Hl Hg. destruct (created_head example_hash (fun _ => None) true lset pending h Hok Hl Hg eq_refl)
    as (h' & s & E & Hok' & _). unfold create. by rewrite E.
Qed.

Lemma example_head_ok : head_ok example_hash example_head.
Proof.
  unfold example_head. repeat (apply create_ok; [|done|by vm_compute]). split; [apply (newStripeSeries_ok _ 1)|done|].
  intros x [? [=]].
Qed.

Lemma example_live r l s :
  objects (h_series example_head) !! r = Some (l, s) ->
  bool_decide (r ∈ bucket (hashmap_at (h_series example_head) (refStripe (h_series example_head) (example_hash l))) (example_hash l)) = true ->
  live example_hash (h_series example_head) r.
Proof. intros Eo Hb%bool_decide_eq_true. by exists l, s. Qed.

(** The series 3 has chunks. *)
Definition example_stripes : @stripeSeries unit unit test_chunk Z :=
  let st := h_series example_head in
  set_mmapReady (alter (fun n => n + 1) (refStripe st 3) (mmapReady st)) (set_objects (<[3 := (2, example_series)]> (objects st)) st).

Lemma example_stripes_ok : stripes_ok example_hash example_stripes /\ live example_hash example_stripes 3.
Proof.
  assert (Hl : live example_hash (h_series example_head) 3) by (eapply example_live; by vm_compute).
  pose proof Hl as (l & s & Eo & _). pose proof (head_stripes _ _ example_head_ok) as Hok.
  assert (E : l = 2 /\ headChunkCount s = 0).
  { revert Eo. vm_compute. intros [= <- <-]. done. }
  destruct E as [-> Hc].
  assert (Hst : stepped example_hash (h_series example_head) example_stripes 3 2 s example_series false).
  { split; try done. cbn. apply list_alter_ext; [|done]. intros y _. unfold ready. rewrite Hc. cbn. lia. }
  split; [by eapply stepped_ok|]. rewrite (stepped_live _ _ _ _ _ _ _ 3 Hok Eo Hst). by split.
Qed.

Lemma series_lookup_witness :
  (getByID 2 example_stripes = Some 2 <-> live example_hash example_stripes 2) /\
  (getByHash (example_hash 7) 7 example_stripes = Some 2 <->
     live example_hash example_stripes 2 /\ labels_of example_stripes 2 = Some 7).
Proof. exact (series_lookup example_hash example_stripes 2 7 (proj1 example_stripes_ok)). Defined.

Lemma getOrCreate_spec_witness :
  getOrCreate (fun _ => None) true (example_hash 7) 7 false example_head = Some (example_head, Ok (2, false)) /\
  exists h' s,
    getOrCreate (fun _ => None) true (example_hash 1) 1 true example_head = Some (h', Ok (4, true)) /\
    head_ok example_hash h' /\ objects (h_series h') !! 4 = Some (1, s) /\ hasPendingCommit (state s) = true.
Proof.
  split; [by vm_compute|].
  destruct (getOrCreate_spec example_hash (fun _ => None) true 1 true example_head example_head_ok ltac:(done))
    as (h' & s & E & H1 & _ & H2 & H3 & _). by exists h', s.
Defined.

(** The keys of the maps, as they come. *)
Definition some_orders (st : @stripeSeries unit unit test_chunk Z) (i : nat) : list Z * list Z :=
  (elements (dom (conflicts (hashmap_at st i))), elements (dom (unique (hashmap_at st i)))).

Definition one_label (l : Z) : list Z := [l].


Lemma example_disk_ok : disk_ok example_hash example_disk example_stripes.
Proof.
  intros r l s _ Eo%elem_of_map_to_list. revert Eo.
  assert (E : exists s1 s2, map_to_list (objects example_stripes) = [(3, (2, example_series)); (2, (7, s2)); (1, (4, s1))] /\
    s1 = mk_memSeries 1 [] [] 0 None MinInt64 0 0 0 None None None None /\
    s2 = mk_memSeries 2 [] [] 0 None MinInt64 1 0 0 None None None None) by (eexists _, _; by vm_compute).
  destruct E as (s1 & s2 & -> & -> & ->). rewrite !elem_of_cons, elem_of_nil.
  intros [[= -> -> ->]|[[= -> -> ->]|[[= -> -> ->]|[]]]]; (split; [|try by constructor]).
  - apply example_counts_ok.
  - apply example_readable.
  - split; cbn; done.
  - split; cbn; done.
Qed.

Lemma mmapHeadChunks_spec_witness :
  let '(d', st', count) := mmapHeadChunks (fun i => elements (refs_at example_stripes i)) example_disk example_stripes in
  stripes_ok example_hash st' /\ count = 2 /\ exists s', objects st' !! 3 = Some (2, s') /\ view d' s' = view example_disk example_series /\
    headChunks s' = take 1 (headChunks example_series).
Proof.
  pose proof (mmapHeadChunks_spec example_hash (fun i => elements (refs_at example_stripes i)) example_disk example_stripes
    (proj1 example_stripes_ok) example_disk_ok ltac:(done)) as Hs.
  assert (Hc : (mmapHeadChunks (fun i => elements (refs_at example_stripes i)) example_disk example_stripes).2 = 2) by (by vm_compute).
  destruct (mmapHeadChunks _ _ _) as [[d' st'] count]. destruct Hs as (H1 & _ & H2 & _). cbn [snd] in Hc.
  split; [exact H1|]. split; [exact Hc|].
  destruct (H2 3 2 example_series (proj2 example_stripes_ok)) as (s' & E & _ & V & _ & T); [by vm_compute|]. by exists s'.
Defined.
