(* ===== verification/HeadAppender.v ===== *)
(** tsdb/head_append.go: the head's appender, from its creation to the samples it
    has queued.

    An appender queues samples in batches, each with at most one kind of histogram
    for a series; Commit works off the floats of a batch before its histograms.
    For every queued sample, and every series it created, the appender holds a
    reservation on the series, which garbage collection respects.  Between the
    lookup of a series and its lock a collection may run: what happens there is
    an argument ([env]) of the operations.  [None] is a panic.  Exemplars,
    metadata and metrics are left out. *)
From stdpp Require Import fin_maps fin_sets.
From S2P Require Import Prelude Isolation OooHead HeadChunks HeadAppend HeadSeries.

(** ** Queued samples *)

Inductive sampleType :=
  | stNone | stFloat | stHistogram | stCustomBucketHistogram | stFloatHistogram | stCustomBucketFloatHistogram.

#[export] Instance sampleType_eq_dec : EqDecision sampleType.
Proof. solve_decision. Defined.

(** RefSample, RefHistogramSample and RefFloatHistogramSample of package record. *)
Record RefValue (V : Type) := mk_RefValue { rv_Ref : Z; rv_ST : Z; rv_T : Z; rv_V : V }.
Arguments mk_RefValue {V} _ _ _ _.
Arguments rv_Ref {V} _.
Arguments rv_ST {V} _.
Arguments rv_T {V} _.
Arguments rv_V {V} _.

(** What the appender asks of a histogram: its methods, the histogram of a
    staleness marker and the zero sample that goes before it. *)
Class HistogramKind (A : Type) := {
  UsesCustomBuckets : A -> bool; Validate : A -> option goerror; stale_of : Z -> A; zero_of : A -> A }.

(** What it asks of a label set. *)
Class LabelSet (L : Type) := {
  ls_Hash : L -> Z; ls_WithoutEmpty : L -> L; ls_IsEmpty : L -> bool; ls_HasDuplicateLabelNames : L -> bool }.

Section Batches.
  Context {H FH L : Type} `{!HistogramKind H} `{!HistogramKind FH}.
  Notation smp := (@sample H FH).

(** The slices of series, parallel to those of the samples, hold the series that
    the references of the samples are for. *)
Record appendBatch := mk_appendBatch {
  floats : list (RefValue Z); histograms : list (RefValue H); floatHistograms : list (RefValue FH) }.

Record headAppender := mk_headAppender {
  a_minValidTime : Z; a_headMaxt : Z; a_oooTimeWindow : Z;
  a_seriesRefs : list (Z * L); a_series : list Z;
  a_batches : list appendBatch; a_typesInBatch : gmap Z sampleType;
  a_appendID : Z; a_cleanupAppendIDsBelow : Z; a_closed : bool;
  a_storeST : bool; a_useXOR2 : bool; a_useHistogramST : bool; a_DiscardOutOfOrder : bool }.

Definition set_batches (bs : list appendBatch) (types : gmap Z sampleType) (a : headAppender) : headAppender :=
  mk_headAppender (a_minValidTime a) (a_headMaxt a) (a_oooTimeWindow a) (a_seriesRefs a) (a_series a) bs types
    (a_appendID a) (a_cleanupAppendIDsBelow a) (a_closed a) (a_storeST a) (a_useXOR2 a) (a_useHistogramST a) (a_DiscardOutOfOrder a).
Definition set_created (refs : list (Z * L)) (series : list Z) (a : headAppender) : headAppender :=
  mk_headAppender (a_minValidTime a) (a_headMaxt a) (a_oooTimeWindow a) refs series (a_batches a) (a_typesInBatch a)
    (a_appendID a) (a_cleanupAppendIDsBelow a) (a_closed a) (a_storeST a) (a_useXOR2 a) (a_useHistogramST a) (a_DiscardOutOfOrder a).
Definition close_appender (a : headAppender) : headAppender :=
  mk_headAppender (a_minValidTime a) (a_headMaxt a) (a_oooTimeWindow a) (a_seriesRefs a) (a_series a) (a_batches a) (a_typesInBatch a)
    (a_appendID a) (a_cleanupAppendIDsBelow a) true (a_storeST a) (a_useXOR2 a) (a_useHistogramST a) (a_DiscardOutOfOrder a).

Definition newBatch (st : sampleType) (s : Z) (a : headAppender) : headAppender :=
  set_batches (a_batches a ++ [mk_appendBatch [] [] []])
    (match st with
     | stHistogram | stFloatHistogram | stCustomBucketHistogram | stCustomBucketFloatHistogram => {[s := st]}
     | stNone | stFloat => ∅
     end) a.

(** The batch that getCurrentBatch returns is the last one of the result. *)
Definition getCurrentBatch (st : sampleType) (s : Z) (a : headAppender) : headAppender :=
  match a_batches a with
  | [] => newBatch st s a
  | _ =>
      if decide (st = stNone) then a
      else
        let prevST := default stNone (a_typesInBatch a !! s) in
        let ok := bool_decide (is_Some (a_typesInBatch a !! s)) in
        if decide (prevST = st) then a
        else if negb ok && bool_decide (st = stFloat) then a
        else if bool_decide (st = stFloat) then newBatch st s a
        else if negb ok then set_batches (a_batches a) (<[s := st]> (a_typesInBatch a)) a
        else newBatch st s a
  end.

Definition upd_last (f : appendBatch -> appendBatch) (a : headAppender) : headAppender :=
  set_batches (alter f (length (a_batches a) - 1)%nat (a_batches a)) (a_typesInBatch a) a.

Definition add_float (x : RefValue Z) (b : appendBatch) : appendBatch :=
  mk_appendBatch (floats b ++ [x]) (histograms b) (floatHistograms b).
Definition add_histogram (x : RefValue H) (b : appendBatch) : appendBatch :=
  mk_appendBatch (floats b) (histograms b ++ [x]) (floatHistograms b).
Definition add_floatHistogram (x : RefValue FH) (b : appendBatch) : appendBatch :=
  mk_appendBatch (floats b) (histograms b) (floatHistograms b ++ [x]).

Definition histogram_type (h : H) : sampleType := if UsesCustomBuckets h then stCustomBucketHistogram else stHistogram.
Definition floatHistogram_type (fh : FH) : sampleType :=
  if UsesCustomBuckets fh then stCustomBucketFloatHistogram else stFloatHistogram.

(** The end of the appending methods. *)
Definition queue_float (x : RefValue Z) (a : headAppender) : headAppender :=
  upd_last (add_float x) (getCurrentBatch stFloat (rv_Ref x) a).
Definition queue_histogram (st : sampleType) (x : RefValue H) (a : headAppender) : headAppender :=
  upd_last (add_histogram x) (getCurrentBatch st (rv_Ref x) a).
Definition queue_floatHistogram (st : sampleType) (x : RefValue FH) (a : headAppender) : headAppender :=
  upd_last (add_floatHistogram x) (getCurrentBatch st (rv_Ref x) a).

(** ** The order in which samples are committed *)

Definition of_series {V} (r : Z) (l : list (RefValue V)) : list (RefValue V) := List.filter (fun x => rv_Ref x =? r) l.

Definition float_sample (x : RefValue Z) : smp := mk_sample (rv_ST x) (rv_T x) (rv_V x) None None.
Definition histogram_sample (x : RefValue H) : smp := mk_sample (rv_ST x) (rv_T x) 0 (Some (rv_V x)) None.
Definition floatHistogram_sample (x : RefValue FH) : smp := mk_sample (rv_ST x) (rv_T x) 0 None (Some (rv_V x)).

(** The samples of a series in the order in which Commit comes to them. *)
Definition batch_order (r : Z) (b : appendBatch) : list smp :=
  map float_sample (of_series r (floats b)) ++ map histogram_sample (of_series r (histograms b)) ++
  map floatHistogram_sample (of_series r (floatHistograms b)).

Definition commit_order (r : Z) (a : headAppender) : list smp := concat (map (batch_order r) (a_batches a)).

(** ** Batches are type clean *)

(** The histograms of the series [r] in the batch are of the type [ty], if that
    is one of a histogram; there are none otherwise. *)
Definition batch_type (ty : option sampleType) (r : Z) (b : appendBatch) : Prop :=
  Forall (fun x => ty = Some (histogram_type (rv_V x))) (of_series r (histograms b)) /\
  Forall (fun x => ty = Some (floatHistogram_type (rv_V x))) (of_series r (floatHistograms b)).

Record batches_ok (a : headAppender) : Prop := {
  bo_clean : forall b, b ∈ a_batches a -> forall r, exists ty, batch_type ty r b;
  bo_last : forall b, last (a_batches a) = Some b -> forall r, batch_type (a_typesInBatch a !! r) r b;
  bo_types : forall r ty, a_typesInBatch a !! r = Some ty -> ty <> stNone /\ ty <> stFloat }.

Lemma batch_type_empty ty r : batch_type ty r (mk_appendBatch [] [] []).
Proof. split; constructor. Qed.

(** A batch is there, and fits the type. *)
Lemma getCurrentBatch_spec st s a :
  st <> stNone -> batches_ok a ->
  let a' := getCurrentBatch st s a in
  batches_ok a' /\ (exists bs b, a_batches a' = bs ++ [b]) /\
  a_typesInBatch a' !! s = (if decide (st = stFloat) then None else Some st) /\
  (forall r, commit_order r a' = commit_order r a) /\
  set_batches (a_batches a) (a_typesInBatch a) a' = a.
Proof.
  intros Hst Hok. pose proof Hok as [Hclean Hlast Hty].
  assert (Hnew : let a' := newBatch st s a in
    batches_ok a' /\ (exists bs b, a_batches a' = bs ++ [b]) /\
    a_typesInBatch a' !! s = (if decide (st = stFloat) then None else Some st) /\
    (forall r, commit_order r a' = commit_order r a) /\ set_batches (a_batches a) (a_typesInBatch a) a' = a).
  { cbv zeta. split; [|split; [by eexists _, _|split; [|split; [|by destruct a]]]].
    - unfold newBatch. split; cbn [a_batches a_typesInBatch set_batches].
      + intros b [Hb|Hb%list_elem_of_singleton]%elem_of_app r; [by apply Hclean|]. exists None. rewrite Hb. apply batch_type_empty.
      + intros b Hb r. rewrite last_snoc in Hb. injection Hb as <-. apply batch_type_empty.
      + intros r ty. destruct st; rewrite ?lookup_empty; try done;
          (destruct (decide (r = s)) as [->|]; [rewrite lookup_singleton_eq; by intros [= <-]|by rewrite lookup_singleton_ne]).
    - unfold newBatch. cbn [a_typesInBatch set_batches]. destruct st; rewrite ?lookup_empty, ?lookup_singleton_eq; done.
    - intros r. unfold commit_order, newBatch. cbn [a_batches set_batches]. rewrite map_app, concat_app. cbn. by rewrite app_nil_r. }
  unfold getCurrentBatch. destruct (a_batches a) as [|b0 bs0] eqn:Eb; [exact Hnew|].
  assert (Hex : exists bs b, b0 :: bs0 = bs ++ [b]).
  { destruct (exists_last (l := b0 :: bs0)) as (bs & b & E); [done|]. by exists bs, b. }
  rewrite decide_False by done.
  destruct (a_typesInBatch a !! s) as [ty|] eqn:Es; cbn [default from_option id].
  - destruct (Hty s ty Es) as [T1 T2]. rewrite bool_decide_eq_true_2 by done. cbn [negb andb].
    destruct (decide (ty = st)) as [<-|Hne].
    + split_and!; [done|by rewrite Eb|by rewrite Es, decide_False|done|rewrite <-Eb; by destruct a].
    + by case_bool_decide.
  - rewrite bool_decide_eq_false_2 by (by intros [? ?]). cbn [negb andb]. rewrite decide_False by done.
    case_bool_decide as Hf.
    + split_and!; [done|by rewrite ?Eb|by rewrite Es, decide_True|done|rewrite <-Eb; by destruct a].
    + split_and!; cbn [a_batches a_typesInBatch set_batches]; [|done|by rewrite lookup_insert_eq, decide_False| |rewrite <-Eb; by destruct a].
      * split; cbn [a_batches a_typesInBatch set_batches]; [done| |].
        -- intros b Hb r. destruct (decide (r = s)) as [->|Hr].
           ++ rewrite lookup_insert_eq. pose proof (Hlast b Hb s) as [H1 H2]. rewrite Es in H1, H2. split.
              ** eapply Forall_impl; [exact H1|]. done.
              ** eapply Forall_impl; [exact H2|]. done.
           ++ rewrite lookup_insert_ne by done. by apply Hlast.
        -- intros r ty. destruct (decide (r = s)) as [->|Hr]; [rewrite lookup_insert_eq; by intros [= <-]|].
           rewrite lookup_insert_ne by done. apply Hty.
      * intros r. unfold commit_order. cbn. by rewrite Eb.
Qed.

Lemma alter_last {A} (f : A -> A) l x : alter f (length (l ++ [x]) - 1)%nat (l ++ [x]) = l ++ [f x].
Proof. rewrite length_app, Nat.add_sub. induction l as [|y l IH]; [done|]. cbn. f_equal. apply IH. Qed.

Lemma of_series_app {V} r (l : list (RefValue V)) x :
  of_series r (l ++ [x]) = of_series r l ++ (if rv_Ref x =? r then [x] else []).
Proof. unfold of_series. rewrite List.filter_app. cbn. by destruct (rv_Ref x =? r). Qed.

(** A sample queued at the end of the current batch [b] is the last of its
    series to be committed, and the batch stays clean. *)
Lemma queued (f : appendBatch -> appendBatch) (x : smp) (s : Z) (ty : option sampleType) (a a1 : headAppender) :
  batches_ok a1 -> (exists bs b, a_batches a1 = bs ++ [b]) -> a_typesInBatch a1 !! s = ty ->
  (forall r, commit_order r a1 = commit_order r a) -> set_batches (a_batches a) (a_typesInBatch a) a1 = a ->
  (forall b, batch_type ty s b -> batch_type ty s (f b) /\ batch_order s (f b) = batch_order s b ++ [x]) ->
  (forall b r, r <> s -> of_series r (floats (f b)) = of_series r (floats b) /\
     of_series r (histograms (f b)) = of_series r (histograms b) /\
     of_series r (floatHistograms (f b)) = of_series r (floatHistograms b)) ->
  let a' := upd_last f a1 in
  batches_ok a' /\ (forall r, commit_order r a' = commit_order r a ++ (if s =? r then [x] else [])) /\
  set_batches (a_batches a) (a_typesInBatch a) a' = a.
Proof.
  intros Hok (bs & b & Eb) Ety Eo Ea Hf Hother. cbv zeta. unfold upd_last. rewrite Eb, alter_last.
  pose proof Hok as [Hclean Hlast Hty]. rewrite Eb in *.
  assert (Htype : batch_type ty s b) by (rewrite <-Ety; apply Hlast; apply last_snoc).
  destruct (Hf b Htype) as [Hft Hfo].
  assert (Hsame : forall r ty', r <> s -> batch_type ty' r b -> batch_type ty' r (f b)).
  { intros r ty' Hr [H1 H2]. destruct (Hother b r Hr) as (_ & E1 & E2). unfold batch_type. by rewrite E1, E2. }
  split_and!; [| |by destruct a1].
  - split; cbn [a_batches a_typesInBatch set_batches]; [| |done].
    + intros b' [Hb|Hb%list_elem_of_singleton]%elem_of_app r; [apply Hclean, elem_of_app; by left|]. rewrite Hb.
      destruct (decide (r = s)) as [->|Hr]; [by exists ty|].
      destruct (Hclean b) with (r := r) as [ty' Ht]; [apply elem_of_app; right; left|]. exists ty'. by apply Hsame.
    + intros b' Hb r. rewrite last_snoc in Hb. injection Hb as <-.
      destruct (decide (r = s)) as [->|Hr]; [by rewrite Ety|]. apply Hsame; [done|]. apply Hlast, last_snoc.
  - intros r. rewrite <-Eo. unfold commit_order. cbn [a_batches set_batches]. rewrite Eb, !map_app, !concat_app. cbn.
    rewrite !app_nil_r, <-app_assoc. f_equal. destruct (Z.eqb_spec s r) as [<-|Hr]; [done|].
    rewrite app_nil_r. unfold batch_order. destruct (Hother b r) as (-> & -> & ->); [congruence|done].
Qed.

Lemma batch_type_none r b : batch_type None r b -> of_series r (histograms b) = [] /\ of_series r (floatHistograms b) = [].
Proof.
  intros [H1 H2]. destruct (of_series r (histograms b)); [|by apply Forall_cons in H1 as [? _]].
  destruct (of_series r (floatHistograms b)); [|by apply Forall_cons in H2 as [? _]]. done.
Qed.

Lemma queue_float_spec x a :
  batches_ok a ->
  let a' := queue_float x a in
  batches_ok a' /\ (forall r, commit_order r a' = commit_order r a ++ (if rv_Ref x =? r then [float_sample x] else [])) /\
  set_batches (a_batches a) (a_typesInBatch a) a' = a.
Proof.
  intros Hok. destruct (getCurrentBatch_spec stFloat (rv_Ref x) a) as (H1 & H2 & H3 & H4 & H5); [done|done|].
  apply (queued (add_float x) (float_sample x) (rv_Ref x) None a); try done.
  - intros b Hb. destruct (batch_type_none _ _ Hb) as [E1 E2]. split; [done|]. unfold batch_order. cbn [floats histograms floatHistograms add_float].
    rewrite E1, E2, of_series_app, Z.eqb_refl, map_app. cbn. by rewrite !app_nil_r.
  - intros b r Hr. cbn [floats histograms floatHistograms add_float add_histogram add_floatHistogram]. rewrite of_series_app. rewrite (proj2 (Z.eqb_neq _ _)) by congruence. by rewrite app_nil_r.
Qed.

Lemma queue_histogram_spec x a :
  batches_ok a ->
  let a' := queue_histogram (histogram_type (rv_V x)) x a in
  batches_ok a' /\ (forall r, commit_order r a' = commit_order r a ++ (if rv_Ref x =? r then [histogram_sample x] else [])) /\
  set_batches (a_batches a) (a_typesInBatch a) a' = a.
Proof.
  intros Hok. set (ty := histogram_type (rv_V x)).
  assert (Hty : ty <> stNone /\ ty <> stFloat) by (unfold ty, histogram_type; by destruct (UsesCustomBuckets _)).
  destruct (getCurrentBatch_spec ty (rv_Ref x) a) as (H1 & H2 & H3 & H4 & H5); [apply Hty|done|]. rewrite decide_False in H3 by apply Hty.
  apply (queued (add_histogram x) (histogram_sample x) (rv_Ref x) (Some ty) a); try done.
  - intros b [B1 B2].
    assert (E : of_series (rv_Ref x) (floatHistograms b) = []).
    { destruct (of_series _ (floatHistograms b)) as [|y l]; [done|]. apply Forall_cons in B2 as [[= Ey] _]. revert Ey.
      unfold ty, histogram_type, floatHistogram_type. by repeat destruct (UsesCustomBuckets _). }
    unfold batch_type, batch_order. cbn [floats histograms floatHistograms add_histogram].
    rewrite E, of_series_app, Z.eqb_refl, map_app. cbn. rewrite !app_nil_r, app_assoc. split; [|done]. split; [|constructor].
    apply Forall_app. split; [done|]. by apply Forall_singleton.
  - intros b r Hr. cbn [floats histograms floatHistograms add_float add_histogram add_floatHistogram]. rewrite of_series_app. rewrite (proj2 (Z.eqb_neq _ _)) by congruence. by rewrite app_nil_r.
Qed.

Lemma queue_floatHistogram_spec x a :
  batches_ok a ->
  let a' := queue_floatHistogram (floatHistogram_type (rv_V x)) x a in
  batches_ok a' /\ (forall r, commit_order r a' = commit_order r a ++ (if rv_Ref x =? r then [floatHistogram_sample x] else [])) /\
  set_batches (a_batches a) (a_typesInBatch a) a' = a.
Proof.
  intros Hok. set (ty := floatHistogram_type (rv_V x)).
  assert (Hty : ty <> stNone /\ ty <> stFloat) by (unfold ty, floatHistogram_type; by destruct (UsesCustomBuckets _)).
  destruct (getCurrentBatch_spec ty (rv_Ref x) a) as (H1 & H2 & H3 & H4 & H5); [apply Hty|done|]. rewrite decide_False in H3 by apply Hty.
  apply (queued (add_floatHistogram x) (floatHistogram_sample x) (rv_Ref x) (Some ty) a); try done.
  - intros b [B1 B2]. unfold batch_type, batch_order. cbn [floats histograms floatHistograms add_floatHistogram].
    rewrite of_series_app, Z.eqb_refl, map_app. cbn. rewrite !app_assoc. split; [|done]. split; [done|].
    apply Forall_app. split; [done|]. by apply Forall_singleton.
  - intros b r Hr. cbn [floats histograms floatHistograms add_float add_histogram add_floatHistogram]. rewrite of_series_app. rewrite (proj2 (Z.eqb_neq _ _)) by congruence. by rewrite app_nil_r.
Qed.
End Batches.

(** ** The appending methods *)

(** The errors they return. *)
Inductive append_failure :=
  | AppendError (e : append_error)
  | CreationError (e : goerror)
  | ValidationError (e : goerror)
  | ErrInvalidSample
  | ErrSTNewerThanSample
  | ErrOutOfOrderST.

Inductive outcome (A : Type) := Done (x : A) | Failed (e : append_failure).
Arguments Done {A} _.
Arguments Failed {A} _.

Section Appends.
  Context {H FH C L : Type} `{!EqDecision L} `{!LabelSet L}.
  Context `{!HistogramOps H} `{!HistogramOps FH} `{!HistogramKind H} `{!HistogramKind FH}.
  Notation series := (@memSeries H FH C).
  Notation Head := (@Head H FH C L).
  Notation headAppender := (@headAppender H FH L).
  Variable PreCreation : L -> option goerror.
  Variable isolationDisabled : bool.
  (** What else happens before the i-th time a series is locked. *)
  Variable env : nat -> Head -> Head.

Definition put_series (r : Z) (s : series) (h : Head) : Head :=
  mk_Head (set_objects (alter (fun o => (o.1, s)) r (objects (h_series h))) (h_series h)) (lastSeriesID h) (numSeries h).

Definition app_getOrCreate (lset : L) (h : Head) (a : headAppender) : option (Head * headAppender * outcome Z) :=
  let lset := ls_WithoutEmpty lset in
  if ls_IsEmpty lset then Some (h, a, Failed ErrInvalidSample)
  else if ls_HasDuplicateLabelNames lset then Some (h, a, Failed ErrInvalidSample)
  else
    '(h, r) ← getOrCreate PreCreation isolationDisabled (ls_Hash lset) lset true h;
    match r with
    | Err e => Some (h, a, Failed (CreationError e))
    | Ok (s, created) =>
        let a := if (created : bool) then set_created (a_seriesRefs a ++ [(s, lset)]) (a_series a ++ [s]) a else a in
        Some (h, a, Done s)
    end.

(** The loop of lockForAppend; [i] counts its turns. *)
Fixpoint lockForAppend (fuel i : nat) (s : Z) (h : Head) (a : headAppender) : option (Head * headAppender * outcome Z) :=
  match fuel with
  | O => None
  | S fuel =>
      let h := env i h in
      '(lset, sr) ← objects (h_series h) !! s;
      if negb (isGCed (state sr)) then Some (h, a, Done s)
      else
        '(h, a, r) ← app_getOrCreate lset h a;
        match r with
        | Done s => lockForAppend fuel (S i) s h a
        | Failed e => Some (h, a, Failed e)
        end
  end.

Definition lookup_series (ref : Z) (lset : L) (h : Head) (a : headAppender) : option (Head * headAppender * outcome Z) :=
  match getByID ref (h_series h) with
  | Some s => Some (h, a, Done s)
  | None => app_getOrCreate lset h a
  end.

(** What the appending methods do with the series they have found: [check] is
    what they ask of it, [queue] how they queue the sample. *)
Definition try_append (check : series -> option append_failure) (queue : Z -> headAppender -> headAppender)
    (s : Z) (h : Head) (a : headAppender) : option (Head * headAppender * outcome Z) :=
  '(h, a, r) ← lockForAppend 3 0 s h a;
  match r with
  | Failed e => Some (h, a, Failed e)
  | Done s =>
      '(_, sr) ← objects (h_series h) !! s;
      match check sr with
      | Some e => Some (h, a, Failed e)
      | None => w ← markPendingCommit (state sr); Some (put_series s (set_state w sr) h, queue s a, Done s)
      end
  end.

Definition on_series (r : option (Head * headAppender * outcome Z))
    (k : Z -> Head -> headAppender -> option (Head * headAppender * outcome Z)) : option (Head * headAppender * outcome Z) :=
  '(h, a, r) ← r; match r with Failed e => Some (h, a, Failed e) | Done s => k s h a end.

Definition too_early (t : Z) (a : headAppender) : bool := (a_oooTimeWindow a =? 0) && (t <? a_minValidTime a).

(** The checks; isOOO makes a sample fail with [ooo]. *)
Definition verdict (ooo : option append_failure) (fail : append_error -> append_failure) (r : bool * Z * option append_error)
  : option append_failure :=
  match r with
  | (_, _, Some e) => Some (fail e)
  | (isOOO, _, None) => if (isOOO : bool) then ooo else None
  end.

Definition st_failure (e : append_error) : append_failure :=
  match e with ErrOutOfOrderSample => ErrOutOfOrderST | _ => AppendError e end.

Definition AppendHistogram (ref : Z) (lset : L) (t : Z) (h : option H) (fh : option FH) (hd : Head) (a : headAppender)
  : option (Head * headAppender * outcome Z) :=
  if too_early t a then Some (hd, a, Failed (AppendError ErrOutOfBounds))
  else
    match h ≫= Validate with Some e => Some (hd, a, Failed (ValidationError e)) | None =>
    match fh ≫= Validate with Some e => Some (hd, a, Failed (ValidationError e)) | None =>
    on_series (lookup_series ref lset hd a) (fun s hd a =>
      match h, fh with
      | Some h, _ =>
          try_append
            (fun sr => verdict None AppendError (appendableHistogram t h (a_headMaxt a) (a_minValidTime a) (a_oooTimeWindow a) sr))
            (fun s => queue_histogram (histogram_type h) (mk_RefValue s 0 t h)) s hd a
      | None, Some fh =>
          try_append
            (fun sr => verdict None AppendError (appendableFloatHistogram t fh (a_headMaxt a) (a_minValidTime a) (a_oooTimeWindow a) sr))
            (fun s => queue_floatHistogram (floatHistogram_type fh) (mk_RefValue s 0 t fh)) s hd a
      | None, None => Some (hd, a, Done s)
      end)
    end end.

(** The rest of Append, once the series is found. *)
Definition append_found (ref : Z) (lset : L) (t v : Z) (s : Z) (h : Head) (a : headAppender) : option (Head * headAppender * outcome Z) :=
  let float :=
    try_append
      (fun sr => verdict (if a_DiscardOutOfOrder a then Some (AppendError ErrOutOfOrderSample) else None) AppendError
                   (appendable t v (a_headMaxt a) (a_minValidTime a) (a_oooTimeWindow a) sr))
      (fun s => queue_float (mk_RefValue s 0 t v)) s h a in
  if IsStaleNaN v then
    match a_typesInBatch a !! s with
    | Some stHistogram | Some stCustomBucketHistogram => AppendHistogram ref lset t (Some (stale_of v)) None h a
    | Some stFloatHistogram | Some stCustomBucketFloatHistogram => AppendHistogram ref lset t None (Some (stale_of v)) h a
    | _ => float
    end
  else float.

Definition Append (ref : Z) (lset : L) (t v : Z) (h : Head) (a : headAppender) : option (Head * headAppender * outcome Z) :=
  if too_early t a then Some (h, a, Failed (AppendError ErrOutOfBounds))
  else on_series (lookup_series ref lset h a) (append_found ref lset t v).

Definition AppendSTZeroSample (ref : Z) (lset : L) (t st : Z) (h : Head) (a : headAppender)
  : option (Head * headAppender * outcome Z) :=
  if t <=? st then Some (h, a, Failed ErrSTNewerThanSample)
  else
    on_series (lookup_series ref lset h a) (fun s h a =>
      try_append
        (fun sr => verdict (Some ErrOutOfOrderST) AppendError (appendable st 0 (a_headMaxt a) (a_minValidTime a) (a_oooTimeWindow a) sr))
        (fun s => queue_float (mk_RefValue s 0 st 0)) s h a).

Definition AppendHistogramSTZeroSample (ref : Z) (lset : L) (t st : Z) (h : option H) (fh : option FH) (hd : Head) (a : headAppender)
  : option (Head * headAppender * outcome Z) :=
  if t <=? st then Some (hd, a, Failed ErrSTNewerThanSample)
  else
    on_series (lookup_series ref lset hd a) (fun s hd a =>
      match h, fh with
      | Some h, _ =>
          try_append
            (fun sr => verdict (Some ErrOutOfOrderST) st_failure
                         (appendableHistogram st (zero_of h) (a_headMaxt a) (a_minValidTime a) (a_oooTimeWindow a) sr))
            (fun s => queue_histogram (histogram_type h) (mk_RefValue s 0 st (zero_of h))) s hd a
      | None, Some fh =>
          try_append
            (fun sr => verdict (Some ErrOutOfOrderST) st_failure
                         (appendableFloatHistogram st (zero_of fh) (a_headMaxt a) (a_minValidTime a) (a_oooTimeWindow a) sr))
            (fun s => queue_floatHistogram (floatHistogram_type fh) (mk_RefValue s 0 st (zero_of fh))) s hd a
      | None, None => Some (hd, a, Done s)
      end).
End Appends.

(** What is known of label sets and histograms. *)
Class LabelSetLaws (L : Type) `{!LabelSet L} := {
  WithoutEmpty_idem : forall l : L, ls_WithoutEmpty (ls_WithoutEmpty l) = ls_WithoutEmpty l }.
Class HistogramKindLaws (A : Type) `{!HistogramKind A} := {
  zero_buckets : forall h : A, UsesCustomBuckets (zero_of h) = UsesCustomBuckets h }.

Section Invariants.
  Context {H FH C L : Type} `{!EqDecision L} `{!LabelSet L} `{!LabelSetLaws L}.
  Notation series := (@memSeries H FH C).
  Notation Head := (@Head H FH C L).
  Notation headAppender := (@headAppender H FH L).
  Notation live := (@live H FH C L ls_Hash).

(** ** What holds of the head and of an appender *)

Definition objs (h : Head) : gmap Z (L * series) := objects (h_series h).

(** The labels that a series may have. *)
Definition normal (l : L) : Prop :=
  ls_WithoutEmpty l = l /\ ls_IsEmpty l = false /\ ls_HasDuplicateLabelNames l = false.

(** A series is marked as collected when it is not in the maps any more; then no
    appender has a reservation on it. *)
Record head_inv (h : Head) : Prop := {
  hi_ok : head_ok ls_Hash h;
  hi_word : forall r l s, objs h !! r = Some (l, s) -> word_ok (state s);
  hi_live : forall r l s, objs h !! r = Some (l, s) -> (isGCed (state s) = false <-> live (h_series h) r);
  hi_gced : forall r l s, objs h !! r = Some (l, s) -> isGCed (state s) = true -> pendingCommitCount (state s) = 0;
  hi_labels : forall r l s, objs h !! r = Some (l, s) -> normal l }.

(** How many reservations the appender has on a series. *)
Definition created_count (r : Z) (l : list Z) : Z := Z.of_nat (length (List.filter (Z.eqb r) l)).
Definition held (r : Z) (a : headAppender) : Z := Z.of_nat (length (commit_order r a)) + created_count r (a_series a).

(** The appender's reservations are counted on top of those of the others. *)
Definition counted (base : Z -> Z) (h : Head) (a : headAppender) : Prop :=
  (forall r, 0 <= base r) /\
  (forall r l s, objs h !! r = Some (l, s) -> pendingCommitCount (state s) = base r + held r a) /\
  (forall r, objs h !! r = None -> base r = 0 /\ held r a = 0).

(** ** What may happen between a lookup and a lock *)

(** Series are collected, but none that is reserved, and none is created. *)
Record interfered (h h' : Head) : Prop := {
  if_inv : head_inv h';
  if_last : lastSeriesID h' = lastSeriesID h;
  if_none : forall r, objs h !! r = None -> objs h' !! r = None;
  if_series : forall r l s, objs h !! r = Some (l, s) ->
    exists s', objs h' !! r = Some (l, s') /\ pendingCommitCount (state s') = pendingCommitCount (state s);
  if_live : forall r, live (h_series h') r -> live (h_series h) r }.

Lemma counted_interfered base h h' a : counted base h a -> interfered h h' -> counted base h' a.
Proof.
  intros (H1 & H2 & H3) [_ _ In Is _]. split_and!; [done| |].
  - intros r l s Eo. destruct (objs h !! r) as [[l0 s0]|] eqn:E0; [|by rewrite In in Eo].
    destruct (Is r l0 s0 E0) as (s' & Eo' & Ep). rewrite Eo in Eo'. injection Eo' as -> ->. rewrite Ep. by eapply H2.
  - intros r Eo. apply H3. destruct (objs h !! r) as [[l0 s0]|] eqn:E0; [|done].
    destruct (Is r l0 s0 E0) as (s' & Eo' & _). congruence.
Qed.

(** A reserved series is in the maps. *)
Lemma reserved_live h r l s :
  head_inv h -> objs h !! r = Some (l, s) -> 0 < pendingCommitCount (state s) -> live (h_series h) r.
Proof.
  intros Hi Eo Hp. apply (hi_live _ Hi r l s Eo). destruct (isGCed (state s)) eqn:E; [|done].
  rewrite (hi_gced _ Hi r l s Eo E) in Hp. lia.
Qed.

(** ** Collections *)

Context {A : Type} `{Countable A} `{!HistogramOps H} `{!HistogramOps FH}.
Variable range_labels : L -> list A.

(** Head.gc as far as the series are concerned. *)
Definition head_gc (orders : nat -> list Z * list Z) (mint minOOOMmapRef : Z) (h : Head) : Head :=
  let '(st, g) := gc range_labels orders mint minOOOMmapRef (h_series h) in
  mk_Head st (lastSeriesID h) (u64 (numSeries h - Z.of_nat (base.size (deleted g)))).

Lemma live_stripe_count st r l (s : series) :
  stripes_ok ls_Hash st -> live st r -> objects st !! r = Some (l, s) -> headChunkCount s = Z.of_nat (length (headChunks s)).
Proof.
  intros Hok (l' & s' & Eo' & Hx) Eo. destruct (ok_in_bucket _ _ Hok _ _ _ Hx) as (_ & l1 & s1 & Eo1 & _ & Hc). congruence.
Qed.

Lemma head_gc_interfered orders mint mref h :
  head_inv h -> orders_ok orders (h_series h) -> interfered h (head_gc orders mint mref h).
Proof.
  intros Hi Hord. pose proof Hi as [Hok Hw Hl Hg Hn]. pose proof (head_stripes _ _ Hok) as Hst.
  pose proof (gc_collected ls_Hash range_labels orders mint mref (h_series h) Hst Hord) as Hco. unfold head_gc.
  destruct (gc _ _ _ _ _) as [st g]. destruct Hco as [C1 C2 C3 C4 C5].
  set (h' := mk_Head st _ _).
  (* What became of a series: nothing, a truncation, or a collection. *)
  assert (Hobj : forall r l s, objs h !! r = Some (l, s) -> exists s', objs h' !! r = Some (l, s') /\
    ((state s' = state s /\ (live st r <-> live (h_series h) r)) \/
     (state s' = setGCed (state s) /\ ~ live st r /\ pendingCommitCount (state s) = 0))).
  { intros r l s Eo. destruct (objs h !! r) as [[l0 s0]|] eqn:E0; [|done]. injection Eo as -> ->.
    destruct (isGCed (state s)) eqn:Eg.
    - assert (Hnl : ~ live (h_series h) r) by (rewrite <-(Hl r l s E0), Eg; done).
      exists s. rewrite <-E0. split; [by apply C5|]. left. split; [done|]. rewrite C2. tauto.
    - assert (Hlr : live (h_series h) r) by (by apply (Hl r l s E0)).
      pose proof (live_stripe_count _ r l s Hst Hlr E0) as Hc.
      destruct (truncate_frame mint mref s Hc) as (_ & _ & Est).
      destruct (C4 r l s Hlr E0) as (D1 & D2 & _). exists (gc_effect mint mref r s).1. split; [exact D1|].
      unfold gc_effect in *. destruct (gc_keeps (truncated mint mref s)) eqn:Ek; cbn [fst snd] in *.
      + left. split; [done|]. rewrite C2, D2. split; [tauto|]. by intros _.
      + right. cbn. rewrite Est. split_and!; [done|rewrite C2, D2; tauto|].
        unfold gc_keeps in Ek. rewrite Est in Ek. unfold hasPendingCommit in Ek.
        destruct (Z.eqb_spec (pendingCommitCount (state s)) 0); [done|]. cbn [negb] in Ek. by rewrite !orb_true_r in Ek. }
  assert (Hback : forall r l s', objs h' !! r = Some (l, s') -> exists s, objs h !! r = Some (l, s)).
  { intros r l s' Eo. destruct (objs h !! r) as [[l0 s0]|] eqn:E0.
    - destruct (Hobj r l0 s0 E0) as (s1 & E1 & _). rewrite Eo in E1. injection E1 as -> ->. by exists s0.
    - assert (Hnl : ~ live (h_series h) r) by (intros (l1 & s1 & E1 & _); unfold objs in E0; congruence).
      unfold objs in Eo. cbn in Eo. rewrite (C5 r Hnl) in Eo. unfold objs in E0. congruence. }
  split.
  - split.
    + split; [done|apply Hok|]. intros r [[l s'] Eo]. destruct (Hback r l s' Eo) as [s E0]. apply (head_refs _ _ Hok). by eexists.
    + intros r l s' Eo. destruct (Hback r l s' Eo) as [s E0]. destruct (Hobj r l s E0) as (s1 & E1 & Hs). rewrite Eo in E1. injection E1 as <-.
      destruct Hs as [[-> _]|(-> & _ & _)]; [by eapply Hw|]. by apply word_setGCed, (Hw r l).
    + intros r l s' Eo. destruct (Hback r l s' Eo) as [s E0]. destruct (Hobj r l s E0) as (s1 & E1 & Hs). rewrite Eo in E1. injection E1 as <-.
      cbn. destruct Hs as [[-> ->]|(-> & Hnl & _)]; [by eapply Hl|]. destruct (word_setGCed (state s) (Hw r l s E0)) as (_ & -> & _). done.
    + intros r l s' Eo. destruct (Hback r l s' Eo) as [s E0]. destruct (Hobj r l s E0) as (s1 & E1 & Hs). rewrite Eo in E1. injection E1 as <-.
      destruct Hs as [[-> _]|(-> & _ & Hp)]; [by eapply Hg|]. by destruct (word_setGCed (state s) (Hw r l s E0)) as (_ & _ & ->).
    + intros r l s' Eo. destruct (Hback r l s' Eo) as [s E0]. by eapply Hn.
  - done.
  - intros r Eo. destruct (objs h' !! r) as [[l s']|] eqn:E; [|done]. destruct (Hback r l s' E) as [s E0]. congruence.
  - intros r l s Eo. destruct (Hobj r l s Eo) as (s' & Eo' & Hs). exists s'. split; [done|].
    destruct Hs as [[-> _]|(-> & _ & _)]; [done|]. by destruct (word_setGCed (state s) (Hw r l s Eo)) as (_ & _ & ->).
  - intros r Hr. cbn in Hr. apply C2 in Hr as [Hr _]. done.
Qed.
End Invariants.

Section AppendSpec.
  Context {H FH C L : Type} `{!EqDecision L} `{!LabelSet L} `{!LabelSetLaws L}.
  Context `{!HistogramOps H} `{!HistogramOps FH} `{!HistogramKind H} `{!HistogramKind FH}.
  Context `{!HistogramKindLaws H} `{!HistogramKindLaws FH}.
  Notation series := (@memSeries H FH C).
  Notation Head := (@Head H FH C L).
  Notation headAppender := (@headAppender H FH L).
  Notation smp := (@sample H FH).
  Notation live := (@live H FH C L ls_Hash).
  Notation objs := (@objs H FH C L).
  Variable PreCreation : L -> option goerror.
  Variable isolationDisabled : bool.
  Variable env : nat -> Head -> Head.
  Hypothesis env_interferes : forall i h, head_inv h -> interfered h (env i h).
  Notation app_getOrCreate := (app_getOrCreate PreCreation isolationDisabled).
  Notation lockForAppend := (lockForAppend PreCreation isolationDisabled env).

(** ** Finding a series *)

(** The appender and the head before and after a search that creates at most
    [n] series. *)
Record found (n : Z) (base : Z -> Z) (h : Head) (a : headAppender) (h' : Head) (a' : headAppender) : Prop := {
  fd_inv : head_inv h';
  fd_counted : counted base h' a';
  fd_last : lastSeriesID h <= lastSeriesID h' <= lastSeriesID h + n;
  fd_held : forall r, held r a' <= held r a + n;
  fd_app : set_created (a_seriesRefs a) (a_series a) a' = a }.

Lemma set_created_same (a : headAppender) : set_created (a_seriesRefs a) (a_series a) a = a.
Proof. by destruct a. Qed.

Lemma found_same n base h a : 0 <= n -> head_inv h -> counted base h a -> found n base h a h a.
Proof. intros Hn Hi Hc. split; [done|done|lia|lia|apply set_created_same]. Qed.

Lemma found_trans n m base h a h1 a1 h2 a2 : found n base h a h1 a1 -> found m base h1 a1 h2 a2 -> found (n + m) base h a h2 a2.
Proof. intros [A1 A2 A3 A5 A4] [B1 B2 B3 B5 B4]. split; [done|done|lia|intros r; specialize (A5 r); specialize (B5 r); lia|]. rewrite <-A4, <-B4. by destruct a2. Qed.

Lemma found_env n base h a i : 0 <= n -> head_inv h -> counted base h a -> found n base h a (env i h) a.
Proof.
  intros Hn Hi Hc. pose proof (env_interferes i h Hi) as He. split; [apply He| |rewrite (if_last _ _ He); lia|lia|apply set_created_same].
  by eapply counted_interfered.
Qed.

Lemma created_count_app r l x : created_count r (l ++ [x]) = created_count r l + (if x =? r then 1 else 0).
Proof.
  unfold created_count. rewrite List.filter_app, length_app. cbn. rewrite (Z.eqb_sym x r). destruct (r =? x); cbn; lia.
Qed.

Lemma created_count_nonneg r l : 0 <= created_count r l.
Proof. unfold created_count. lia. Qed.

(** A series that is found or created is in the maps; if it was created, it is
    reserved. *)
Lemma getOrCreate_found base lset h a :
  head_inv h -> counted base h a -> lastSeriesID h < 2 ^ 64 - 1 ->
  exists h' a' r, app_getOrCreate lset h a = Some (h', a', r) /\ found 1 base h a h' a' /\
    match r with
    | Failed _ => True
    | Done s => (exists sr, objs h' !! s = Some (ls_WithoutEmpty lset, sr)) /\ live (h_series h') s /\
        ((h' = h /\ a' = a) \/ (0 < held s a' /\ (forall x, live (h_series h') x -> live (h_series h) x \/ x = s)))
    end.
Proof.
  intros Hi Hc Hlast. unfold HeadAppender.app_getOrCreate. set (l := ls_WithoutEmpty lset).
  destruct (ls_IsEmpty l) eqn:E1; [eexists _, _, _; split; [done|]; split; [by apply found_same|done]|].
  destruct (ls_HasDuplicateLabelNames l) eqn:E2; [eexists _, _, _; split; [done|]; split; [by apply found_same|done]|].
  assert (Hn : normal l) by (split_and!; [apply WithoutEmpty_idem|done|done]).
  pose proof Hi as [Hok Hw Hl Hg Hlab]. pose proof (getByHash_spec ls_Hash (h_series h) l (head_stripes _ _ Hok)) as Hget.
  destruct (getByHash (ls_Hash l) l (h_series h)) as [r|] eqn:Eget.
  { unfold getOrCreate. rewrite Eget. cbn [mbind option_bind]. eexists _, _, _. split; [reflexivity|]. split; [by apply found_same|].
    destruct Hget as [Hr El]. split_and!; [|done|by left]. unfold labels_of in El. destruct (objects (h_series h) !! r) as [[l0 sr]|] eqn:Eo; [|done].
    cbn in El. injection El as ->. exists sr. done. }
  destruct (PreCreation l) as [e|] eqn:Epre.
  { unfold getOrCreate, getOrCreateWithOptionalID. rewrite Eget, Epre. cbn [mbind option_bind]. eexists _, _, _. split; [reflexivity|].
    split; [by apply found_same|done]. }
  destruct (created_head ls_Hash PreCreation isolationDisabled l true h Hok Hlast Eget Epre)
    as (h' & sr & -> & Hok' & El' & Eo' & Enew & Hlive & Hoth). cbn [mbind option_bind].
  set (id := lastSeriesID h + 1) in *. set (a' := set_created _ _ a).
  assert (Hst : state sr = 1) by (revert Enew; unfold newMemSeries; destruct isolationDisabled; cbn; by intros [= <-]).
  assert (Enone : objs h !! id = None).
  { destruct (objs h !! id) eqn:E; [|done]. pose proof (head_refs _ _ Hok id) as Hle. unfold objs in E. rewrite E in Hle.
    specialize (Hle ltac:(by eexists)). lia. }
  assert (Hw1 : word_ok 1) by (by exists 1, false, false).
  assert (Hobj : forall r l0 s0, objs h' !! r = Some (l0, s0) -> (r = id /\ l0 = l /\ s0 = sr) \/ (r <> id /\ objs h !! r = Some (l0, s0))).
  { intros r l0 s0 E. destruct (decide (r = id)) as [->|Hne]; [|right; split; [done|]; unfold objs in E; by rewrite Hoth in E].
    unfold objs in E. rewrite Eo' in E. injection E as <- <-. by left. }
  assert (Hheld : forall r, held r a' = held r a + (if id =? r then 1 else 0)).
  { intros r. unfold held, commit_order. cbn [a_batches a_series a' set_created]. rewrite created_count_app. lia. }
  eexists h', a', (Done id). split; [done|]. split; [split|].
  - split; [done| | | |].
    + intros r l0 s0 E. destruct (Hobj r l0 s0 E) as [(_ & _ & ->)|[_ E0]]; [by rewrite Hst|by eapply Hw].
    + intros r l0 s0 E. rewrite Hlive. destruct (Hobj r l0 s0 E) as [(-> & _ & ->)|[Hne E0]].
      * rewrite Hst. split; [by right|done].
      * rewrite (Hl r l0 s0 E0). split; [by left|]. by intros [?|?].
    + intros r l0 s0 E. destruct (Hobj r l0 s0 E) as [(_ & _ & ->)|[_ E0]]; [by rewrite Hst|by eapply Hg].
    + intros r l0 s0 E. destruct (Hobj r l0 s0 E) as [(_ & -> & _)|[_ E0]]; [done|by eapply Hlab].
  - destruct Hc as (B1 & B2 & B3). split_and!; [done| |].
    + intros r l0 s0 E. rewrite Hheld. destruct (Hobj r l0 s0 E) as [(-> & _ & ->)|[Hne E0]].
      * rewrite Hst, Z.eqb_refl. destruct (B3 id Enone) as [-> ->]. done.
      * rewrite (proj2 (Z.eqb_neq _ _)) by congruence. rewrite (B2 r l0 s0 E0). lia.
    + intros r E. destruct (decide (r = id)) as [->|Hne]; [unfold objs in E; congruence|].
      rewrite Hheld, (proj2 (Z.eqb_neq _ _)) by congruence. unfold objs in E. rewrite Hoth in E by done. rewrite Z.add_0_r. by apply B3.
  - lia.
  - intros r. rewrite Hheld. destruct (id =? r); lia.
  - by destruct a.
  - split; [by exists sr|]. split; [apply Hlive; by right|]. right. split; [|intros x; by rewrite Hlive].
    rewrite Hheld, Z.eqb_refl. unfold held. pose proof (created_count_nonneg id (a_series a)). lia.
Qed.

(** ** Locking it *)

Definition locked (l : L) (h : Head) (r : outcome Z) : Prop :=
  match r with Failed _ => True | Done s => exists sr, objs h !! s = Some (l, sr) /\ isGCed (state sr) = false end.

Lemma lock_S fuel i s h a :
  lockForAppend (S fuel) i s h a =
    '(lset, sr) ← objects (h_series (env i h)) !! s;
    if negb (isGCed (state sr)) then Some (env i h, a, Done s)
    else
      '(h, a, r) ← app_getOrCreate lset (env i h) a;
      match r with Done s => lockForAppend fuel (S i) s h a | Failed e => Some (h, a, Failed e) end.
Proof. done. Qed.

(** A reserved series is still there. *)
Lemma lock_reserved fuel i s h a base l sr :
  head_inv h -> counted base h a -> objs h !! s = Some (l, sr) -> 0 < pendingCommitCount (state sr) ->
  lockForAppend (S fuel) i s h a = Some (env i h, a, Done s) /\ found 0 base h a (env i h) a /\ locked l (env i h) (Done s).
Proof.
  intros Hi Hc Eo Hp. pose proof (env_interferes i h Hi) as He. destruct (if_series _ _ He s l sr Eo) as (sr' & Eo' & Ep).
  assert (Eg : isGCed (state sr') = false).
  { apply (hi_live _ (if_inv _ _ He) s l sr' Eo'). eapply reserved_live; [apply He|exact Eo'|lia]. }
  split; [|split; [by apply found_env|by exists sr']]. rewrite lock_S. unfold objs in Eo'.
  rewrite Eo'. cbn [mbind option_bind]. by rewrite Eg.
Qed.

Lemma held_pending base h a s l sr : counted base h a -> objs h !! s = Some (l, sr) -> 0 < held s a -> 0 < pendingCommitCount (state sr).
Proof. intros (H1 & H2 & _) Eo Hp. rewrite (H2 s l sr Eo). specialize (H1 s). lia. Qed.

(** A series that was in the maps may be gone when it is locked; it is then
    created again, and reserved. *)
Lemma lock_live fuel i s h a base l sr :
  head_inv h -> counted base h a -> lastSeriesID h < 2 ^ 64 - 1 -> objs h !! s = Some (l, sr) -> live (h_series h) s ->
  exists h' a' r, lockForAppend (S (S fuel)) i s h a = Some (h', a', r) /\ found 1 base h a h' a' /\ locked l h' r.
Proof.
  intros Hi Hc Hlast Eo Hs. pose proof (env_interferes i h Hi) as He. destruct (if_series _ _ He s l sr Eo) as (sr' & Eo' & Ep).
  pose proof (found_env 0 base h a i ltac:(lia) Hi Hc) as Hf. pose proof Hf as [Hi1 Hc1 _ _ _].
  rewrite lock_S. unfold objs in Eo'. rewrite Eo'. cbn [mbind option_bind].
  destruct (isGCed (state sr')) eqn:Eg; cbn [negb].
  2: { eexists _, _, _. split; [reflexivity|]. split; [by apply found_env|]. by exists sr'. }
  assert (Hl1 : lastSeriesID (env i h) < 2 ^ 64 - 1) by (by rewrite (if_last _ _ He)).
  assert (El : ls_WithoutEmpty l = l) by (by apply (hi_labels _ Hi s l sr Eo)).
  destruct (getOrCreate_found base l (env i h) a Hi1 Hc1 Hl1) as (h2 & a2 & r & E2 & F2 & Hr). rewrite E2. cbn [mbind option_bind].
  pose proof (found_trans _ _ _ _ _ _ _ _ _ Hf F2) as F02.
  destruct r as [s'|e]; [|eexists _, _, _; split; [reflexivity|by split]]. destruct Hr as ([sr2 Eo2] & Hs' & [[-> ->]|[Hh _]]); rewrite El in Eo2.
  - exfalso. assert (Es : s' = s).
    { pose proof (if_live _ _ He s' Hs') as Hs0. eapply (live_unique ls_Hash (h_series h) _ _ l); [apply (hi_ok _ Hi)|exact Hs0| |exact Hs|].
      - destruct Hs0 as (l0 & s0 & E0 & _). destruct (if_series _ _ He s' l0 s0 E0) as (s1 & E1 & _). unfold labels_of. rewrite E0.
        rewrite Eo2 in E1. cbn. congruence.
      - unfold labels_of. unfold objs in Eo. by rewrite Eo. }
    subst s'. apply (hi_live _ Hi1 s l sr' Eo') in Hs'. congruence.
  - pose proof F2 as [Hi2 Hc2 _ _ _]. destruct (lock_reserved fuel (S i) s' h2 a2 base l sr2 Hi2 Hc2 Eo2) as (E3 & F3 & H3).
    { by eapply held_pending. }
    rewrite E3. eexists _, _, _. split; [reflexivity|]. split; [|exact H3]. exact (found_trans _ _ _ _ _ _ _ _ _ F02 F3).
Qed.

(** Three turns of the loop are enough for any series. *)
Lemma lock_any s h a base l sr :
  head_inv h -> counted base h a -> lastSeriesID h < 2 ^ 64 - 1 -> objs h !! s = Some (l, sr) ->
  exists h' a' r, lockForAppend 3 0 s h a = Some (h', a', r) /\ found 1 base h a h' a' /\ locked l h' r.
Proof.
  intros Hi Hc Hlast Eo. pose proof (env_interferes 0 h Hi) as He. destruct (if_series _ _ He s l sr Eo) as (sr' & Eo' & Ep).
  pose proof (found_env 0 base h a 0 ltac:(lia) Hi Hc) as Hf. pose proof Hf as [Hi1 Hc1 _ _ _].
  rewrite lock_S. unfold objs in Eo'. rewrite Eo'. cbn [mbind option_bind]. destruct (isGCed (state sr')) eqn:Eg; cbn [negb].
  2: { eexists _, _, _. split; [reflexivity|]. split; [by apply found_env|]. by exists sr'. }
  assert (Hl1 : lastSeriesID (env 0%nat h) < 2 ^ 64 - 1) by (by rewrite (if_last _ _ He)).
  assert (El : ls_WithoutEmpty l = l) by (by apply (hi_labels _ Hi s l sr Eo)).
  destruct (getOrCreate_found base l (env 0%nat h) a Hi1 Hc1 Hl1) as (h2 & a2 & r & E2 & F2 & Hr). rewrite E2. cbn [mbind option_bind].
  pose proof (found_trans _ _ _ _ _ _ _ _ _ Hf F2) as F02. pose proof F2 as [Hi2 Hc2 _ _ _].
  destruct r as [s'|e]; [|eexists _, _, _; split; [reflexivity|by split]]. destruct Hr as ([sr2 Eo2] & Hs' & [[-> ->]|[Hh _]]); rewrite El in Eo2.
  - destruct (lock_live 0 1 s' _ a base l sr2 Hi2 Hc2 Hl1 Eo2 Hs') as (h3 & a3 & r3 & E3 & F3 & H3).
    exists h3, a3, r3. split; [exact E3|]. split; [|done]. exact (found_trans _ _ _ _ _ _ _ _ _ Hf F3).
  - destruct (lock_reserved 1 1 s' h2 a2 base l sr2 Hi2 Hc2 Eo2) as (E3 & F3 & H3); [by eapply held_pending|].
    eexists _, _, _. split; [exact E3|]. split; [|exact H3]. exact (found_trans _ _ _ _ _ _ _ _ _ F02 F3).
Qed.

(** ** Appending *)

(** What an appending method leaves when it appends [x] to a series with the
    labels [l], or fails. *)
Record appended (n : Z) (base : Z -> Z) (l : L) (x : option smp) (h : Head) (a : headAppender) (h' : Head) (a' : headAppender)
    (r : outcome Z) : Prop := {
  ap_inv : head_inv h';
  ap_counted : counted base h' a';
  ap_batches : batches_ok a';
  ap_last : lastSeriesID h <= lastSeriesID h' <= lastSeriesID h + n;
  ap_order : forall q, commit_order q a' =
    commit_order q a ++ match r, x with Done s, Some x => if s =? q then [x] else [] | _, _ => [] end;
  ap_series : match r, x with
    | Done s, Some _ => exists sr, objs h' !! s = Some (l, sr) /\ live (h_series h') s /\ hasPendingCommit (state sr) = true
    | Done s, None => live (h_series h') s
    | Failed _, _ => True
    end;
  ap_settings : set_batches (a_batches a) (a_typesInBatch a) (set_created (a_seriesRefs a) (a_series a) a') = a }.

Lemma found_order n base h a h' a' : found n base h a h' a' -> (forall q, commit_order q a' = commit_order q a) /\ a_batches a' = a_batches a /\
  a_typesInBatch a' = a_typesInBatch a.
Proof.
  intros [_ _ _ _ E]. assert (Eb : a_batches a' = a_batches a) by (by rewrite <-E). split; [|split; [done|by rewrite <-E]].
  intros q. unfold commit_order. by rewrite Eb.
Qed.

Lemma found_batches n base h a h' a' : found n base h a h' a' -> batches_ok a -> batches_ok a'.
Proof.
  intros Hf [B1 B2 B3]. destruct (found_order _ _ _ _ _ _ Hf) as (_ & E1 & E2). by split; rewrite ?E1, ?E2.
Qed.

Lemma settings_queue (a a1 a2 : headAppender) :
  a_batches a1 = a_batches a -> a_typesInBatch a1 = a_typesInBatch a -> set_created (a_seriesRefs a) (a_series a) a1 = a ->
  set_batches (a_batches a1) (a_typesInBatch a1) a2 = a1 ->
  set_batches (a_batches a) (a_typesInBatch a) (set_created (a_seriesRefs a) (a_series a) a2) = a.
Proof.
  destruct a, a1, a2. unfold set_created, set_batches. cbn. intros E1 E2 E3 E4. injection E3; injection E4; intros; subst; reflexivity.
Qed.

Lemma settings_trans (a a1 a2 : headAppender) :
  a_batches a1 = a_batches a -> a_typesInBatch a1 = a_typesInBatch a -> set_created (a_seriesRefs a) (a_series a) a1 = a ->
  set_batches (a_batches a1) (a_typesInBatch a1) (set_created (a_seriesRefs a1) (a_series a1) a2) = a1 ->
  set_batches (a_batches a) (a_typesInBatch a) (set_created (a_seriesRefs a) (a_series a) a2) = a.
Proof.
  destruct a, a1, a2. unfold set_created, set_batches. cbn. intros E1 E2 E3 E4. injection E3; injection E4; intros; subst; reflexivity.
Qed.

Lemma found_failed n base l x h a h' a' e : found n base h a h' a' -> batches_ok a -> appended n base l x h a h' a' (Failed e).
Proof.
  intros Hf Hb. destruct (found_order _ _ _ _ _ _ Hf) as (E & E1 & E2).
  split; [apply Hf|apply Hf|by eapply found_batches|apply Hf|intros q; by rewrite E, app_nil_r|done|].
  destruct Hf as [_ _ _ _ Ha]. rewrite Ha. by destruct a.
Qed.

Definition queues (queue : Z -> headAppender -> headAppender) (x : smp) : Prop :=
  forall s a, batches_ok a ->
    batches_ok (queue s a) /\ (forall r, commit_order r (queue s a) = commit_order r a ++ (if s =? r then [x] else [])) /\
    set_batches (a_batches a) (a_typesInBatch a) (queue s a) = a.

Lemma put_series_objs r s h x :
  objs (put_series r s h) !! x = if decide (x = r) then (fun o => (o.1, s)) <$> objs h !! r else objs h !! x.
Proof.
  unfold objs, put_series. cbn. case_decide as E; [by rewrite E, lookup_alter_eq|by rewrite lookup_alter_ne].
Qed.

(** Replacing a live series by one that differs in its state word alone. *)
Lemma put_state_inv h r l (s : series) w :
  head_inv h -> objs h !! r = Some (l, s) -> live (h_series h) r -> word_ok w -> isGCed w = isGCed (state s) ->
  head_inv (put_series r (set_state w s) h) /\ (forall x, live (h_series (put_series r (set_state w s) h)) x <-> live (h_series h) x).
Proof.
  intros Hi Eo Hlr Hwo Eg. pose proof Hi as [Hok Hw Hl Hg Hn]. pose proof (head_stripes _ _ Hok) as Hst.
  pose proof (live_stripe_count _ r l s Hst Hlr Eo) as Hc.
  assert (Hobj : forall x l0 s0, objs (put_series r (set_state w s) h) !! x = Some (l0, s0) ->
    (x = r /\ l0 = l /\ s0 = set_state w s) \/ (x <> r /\ objs h !! x = Some (l0, s0))).
  { intros x l0 s0. rewrite put_series_objs. case_decide as E; [|by right]. rewrite Eo. cbn. intros [= <- <-]. by left. }
  assert (Hstep : stepped ls_Hash (h_series h) (h_series (put_series r (set_state w s) h)) r l s (set_state w s) false).
  { split; try done.
    - cbn. apply map_eq. intros x. destruct (decide (x = r)) as [->|Hne].
      + rewrite lookup_alter_eq, lookup_insert_eq. unfold objs in Eo. by rewrite Eo.
      + by rewrite lookup_alter_ne, lookup_insert_ne.
    - symmetry. apply alter_minus_0. cbn. unfold ready. cbn. lia. }
  assert (Hlive : forall x, live (h_series (put_series r (set_state w s) h)) x <-> live (h_series h) x).
  { intros x. rewrite (stepped_live _ _ _ _ _ _ _ _ x Hst Eo Hstep). split; [by intros [? _]|by split]. }
  split; [|done]. split.
  - split; [|apply Hok|].
    + eapply stepped_ok; [exact Hst|exact Eo|exact Hlr|exact Hstep|done].
    + intros x Hx. apply (head_refs _ _ Hok). fold (objs (put_series r (set_state w s) h)) in Hx. rewrite put_series_objs in Hx.
      case_decide as E; [rewrite E; unfold objs in Eo; by rewrite Eo|done].
  - intros x l0 s0 E. destruct (Hobj x l0 s0 E) as [(_ & _ & ->)|[_ E0]]; [done|by eapply Hw].
  - intros x l0 s0 E. rewrite Hlive. destruct (Hobj x l0 s0 E) as [(-> & _ & ->)|[_ E0]]; [|by eapply Hl].
    cbn. rewrite Eg. by eapply Hl.
  - intros x l0 s0 E. destruct (Hobj x l0 s0 E) as [(-> & _ & ->)|[_ E0]]; [|by eapply Hg].
    cbn. rewrite Eg. rewrite (proj2 (Hl r l s Eo) Hlr). done.
  - intros x l0 s0 E. destruct (Hobj x l0 s0 E) as [(_ & -> & _)|[_ E0]]; by eapply Hn.
Qed.

Notation try_append := (try_append PreCreation isolationDisabled env).

(** There is room for another reservation on each series. *)
Definition may_reserve (base : Z -> Z) (a : headAppender) : Prop :=
  forall r, base r + held r a + 4 <= seriesPendingCommitMask.

Lemma try_append_spec check queue x s h a base l sr :
  queues queue x -> head_inv h -> counted base h a -> batches_ok a -> (forall r, base r + held r a + 1 < seriesPendingCommitMask) ->
  lastSeriesID h < 2 ^ 64 - 1 -> objs h !! s = Some (l, sr) ->
  exists h' a' r, try_append check queue s h a = Some (h', a', r) /\ appended 1 base l (Some x) h a h' a' r.
Proof.
  intros Hq Hi Hc Hb Hroom Hlast Eo. unfold HeadAppender.try_append.
  destruct (lock_any s h a base l sr Hi Hc Hlast Eo) as (h1 & a1 & r & -> & F & Hr). cbn [mbind option_bind].
  destruct r as [s1|e]; [|by eexists _, _, _; split; [done|apply found_failed]].
  destruct Hr as (sr1 & Eo1 & Eg). pose proof F as [Hi1 Hc1 Hl1 Hh1 Ha1]. unfold objs in Eo1. rewrite Eo1. cbn [mbind option_bind].
  destruct (check sr1) as [e|]; [by eexists _, _, _; split; [done|apply found_failed]|].
  assert (Hcount : pendingCommitCount (state sr1) < seriesPendingCommitMask).
  { destruct Hc1 as (_ & B2 & _). rewrite (B2 s1 l sr1 Eo1). specialize (Hroom s1). specialize (Hh1 s1). lia. }
  destruct (word_mark (state sr1) (hi_word _ Hi1 s1 l sr1 Eo1) Hcount) as (w & Ew & Hw & Ep & Eg').
  rewrite Ew. cbn [mbind option_bind]. eexists _, _, _. split; [reflexivity|].
  assert (Hlive : live (h_series h1) s1) by (by apply (hi_live _ Hi1 s1 l sr1 Eo1)).
  destruct (put_state_inv h1 s1 l sr1 w Hi1 Eo1 Hlive Hw Eg') as [Hi2 Hl2].
  destruct (Hq s1 a1 (found_batches _ _ _ _ _ _ F Hb)) as (Q1 & Q2 & Q3).
  destruct (found_order _ _ _ _ _ _ F) as (O1 & O2 & O3).
  assert (Eser : a_series (queue s1 a1) = a_series a1) by (by rewrite <-Q3 at 2).
  assert (Hheld : forall r, held r (queue s1 a1) = held r a1 + (if s1 =? r then 1 else 0)).
  { intros r. unfold held. rewrite Q2, Eser, length_app. destruct (s1 =? r); cbn; lia. }
  split; [done| |done|done|intros q; by rewrite Q2, O1| |].
  - destruct Hc1 as (B1 & B2 & B3). split_and!; [done| |].
    + intros r l0 s0. rewrite put_series_objs, Hheld. case_decide as E.
      * subst r. unfold objs. rewrite Eo1. cbn. intros [= <- <-]. cbn. rewrite Ep, Z.eqb_refl. rewrite (B2 s1 l sr1 Eo1). lia.
      * intros E0. rewrite (proj2 (Z.eqb_neq _ _)) by congruence. rewrite (B2 r l0 s0 E0). lia.
    + intros r. rewrite put_series_objs, Hheld. case_decide as E.
      * subst r. unfold objs. by rewrite Eo1.
      * intros E0. rewrite (proj2 (Z.eqb_neq _ _)) by congruence. rewrite Z.add_0_r. by apply B3.
  - exists (set_state w sr1). split; [|split; [by apply Hl2|]].
    + rewrite put_series_objs, decide_True by done. unfold objs. by rewrite Eo1.
    + cbn. unfold hasPendingCommit. rewrite Ep. destruct Hc1 as (B1 & B2 & _). rewrite (B2 s1 l sr1 Eo1).
      specialize (B1 s1). assert (0 <= held s1 a1) by (unfold held; pose proof (created_count_nonneg s1 (a_series a1)); lia).
      destruct (Z.eqb_spec (base s1 + held s1 a1 + 1) 0); [lia|done].
  - by eapply settings_queue.
Qed.

(** The labels under which a sample is appended: those of the series that the
    reference is for, or the given ones. *)
Definition target (ref : Z) (lset : L) (h : Head) : L :=
  match getByID ref (h_series h) with
  | Some s => default lset (labels_of (h_series h) s)
  | None => ls_WithoutEmpty lset
  end.

Lemma lookup_found ref lset h a base :
  head_inv h -> counted base h a -> lastSeriesID h < 2 ^ 64 - 1 ->
  exists h' a' r, lookup_series PreCreation isolationDisabled ref lset h a = Some (h', a', r) /\ found 1 base h a h' a' /\
    match r with
    | Failed _ => True
    | Done s => (exists sr, objs h' !! s = Some (target ref lset h, sr)) /\ live (h_series h') s /\
        (forall x, live (h_series h') x -> live (h_series h) x \/ x = s) /\ (getByID ref (h_series h) = None \/ h' = h)
    end.
Proof.
  intros Hi Hc Hlast. unfold lookup_series, target. pose proof (head_stripes _ _ (hi_ok _ Hi)) as Hst.
  pose proof (getByID_live ls_Hash (h_series h) ref Hst) as Hg.
  destruct (getByID ref (h_series h)) as [s|] eqn:E.
  - assert (s = ref) as -> by (revert E; unfold getByID; case_bool_decide; by intros [= <-]).
    assert (Hl : live (h_series h) ref) by (by apply Hg). eexists _, _, _. split; [reflexivity|]. split; [by apply found_same|].
    pose proof Hl as (l & sr & Eo & _). split_and!; [|done|by left|by right]. exists sr. unfold labels_of. by rewrite Eo.
  - destruct (getOrCreate_found base lset h a Hi Hc Hlast) as (h' & a' & r & E' & F & Hr). exists h', a', r. split; [done|].
    split; [done|]. destruct r; [|done]. destruct Hr as (H1 & H2 & [[-> _]|[_ H3]]); split_and!; try done; by left.
Qed.

(** What the methods do once the series is found. *)
Lemma on_series_spec n base l x h a h1 a1 r k :
  found 1 base h a h1 a1 -> batches_ok a -> 0 <= n ->
  match r with
  | Failed _ => True
  | Done s => exists h' a' r', k s h1 a1 = Some (h', a', r') /\ appended n base l x h1 a1 h' a' r'
  end ->
  exists h' a' r', on_series (Some (h1, a1, r)) k = Some (h', a', r') /\ appended (1 + n) base l x h a h' a' r'.
Proof.
  intros F Hb Hn Hk. unfold on_series. cbn [mbind option_bind]. destruct r as [s|e].
  - destruct Hk as (h' & a' & r' & E & [A1 A2 A3 A4 A5 A6 A7]). exists h', a', r'. split; [done|].
    destruct (found_order _ _ _ _ _ _ F) as (O1 & O2 & O3). destruct F as [_ _ Hl _ Ha].
    split; [done|done|done|lia|intros q; by rewrite A5, O1|done|]. by eapply settings_trans.
  - eexists _, _, _. split; [done|]. apply found_failed; [|done]. destruct F. split; try done; [lia|]. intros r. specialize (fd_held0 r). lia.
Qed.

Definition ready_for (n k : Z) (base : Z -> Z) (h : Head) (a : headAppender) : Prop :=
  head_inv h /\ counted base h a /\ batches_ok a /\ lastSeriesID h + n < 2 ^ 64 /\
  forall r, base r + held r a + k < seriesPendingCommitMask.

(** A method that looks the series up and tries to append to it. *)
Lemma lookup_append ref lset check queue x base h a :
  queues queue x -> ready_for 2 2 base h a ->
  exists h' a' r,
    on_series (lookup_series PreCreation isolationDisabled ref lset h a) (fun s h a => try_append (check a) queue s h a) = Some (h', a', r) /\
    appended 2 base (target ref lset h) (Some x) h a h' a' r.
Proof.
  intros Hq (Hi & Hc & Hb & Hlast & Hroom).
  destruct (lookup_found ref lset h a base Hi Hc ltac:(lia)) as (h1 & a1 & r & -> & F & Hr).
  apply (on_series_spec 1 base (target ref lset h) (Some x) h a h1 a1 r _ F Hb); [lia|].
  destruct r as [s|]; [|done]. destruct Hr as ([sr Eo] & _). pose proof F as [Hi1 Hc1 Hl1 Hh1 _].
  eapply try_append_spec; [done|done|done|by eapply found_batches| |lia|exact Eo].
  intros r. specialize (Hh1 r). specialize (Hroom r). lia.
Qed.

Lemma queues_float (st t v : Z) : queues (fun s => queue_float (mk_RefValue s st t v)) (mk_sample st t v None None).
Proof. intros s a Hb. exact (queue_float_spec (mk_RefValue s st t v) a Hb). Qed.

Lemma queues_histogram (st t : Z) (h h0 : H) :
  UsesCustomBuckets h = UsesCustomBuckets h0 ->
  queues (fun s => queue_histogram (histogram_type h0) (mk_RefValue s st t h)) (mk_sample st t 0 (Some h) None).
Proof.
  intros E s a Hb. pose proof (queue_histogram_spec (mk_RefValue s st t h) a Hb) as Hs. unfold histogram_type in *. cbn [rv_V] in Hs.
  by rewrite E in Hs.
Qed.

Lemma queues_floatHistogram (st t : Z) (fh fh0 : FH) :
  UsesCustomBuckets fh = UsesCustomBuckets fh0 ->
  queues (fun s => queue_floatHistogram (floatHistogram_type fh0) (mk_RefValue s st t fh)) (mk_sample st t 0 None (Some fh)).
Proof.
  intros E s a Hb. pose proof (queue_floatHistogram_spec (mk_RefValue s st t fh) a Hb) as Hs. unfold floatHistogram_type in *. cbn [rv_V] in Hs.
  by rewrite E in Hs.
Qed.

Notation AppendHistogram := (AppendHistogram PreCreation isolationDisabled env).
Notation Append := (Append PreCreation isolationDisabled env).
Notation AppendSTZeroSample := (AppendSTZeroSample PreCreation isolationDisabled env).
Notation AppendHistogramSTZeroSample := (AppendHistogramSTZeroSample PreCreation isolationDisabled env).

Lemma failed_here n base l x h a e : 0 <= n -> ready_for n 0 base h a -> appended n base l x h a h a (Failed e).
Proof. intros Hn (Hi & Hc & Hb & _). apply found_failed; [by apply found_same|done]. Qed.

Lemma ready_for_weaken n k n' k' base h a : n' <= n -> k' <= k -> ready_for n k base h a -> ready_for n' k' base h a.
Proof. intros H1 H2 (Hi & Hc & Hb & Hl & Hr). split_and!; try done; [lia|]. intros r. specialize (Hr r). lia. Qed.

Lemma AppendHistogram_spec base ref lset t h fh hd a x :
  ready_for 2 2 base hd a ->
  match h, fh with
  | Some h, _ => x = mk_sample 0 t 0 (Some h) None
  | None, Some fh => x = mk_sample 0 t 0 None (Some fh)
  | None, None => False
  end ->
  exists hd' a' r, AppendHistogram ref lset t h fh hd a = Some (hd', a', r) /\ appended 2 base (target ref lset hd) (Some x) hd a hd' a' r.
Proof.
  intros Hr Hx. pose proof (ready_for_weaken 2 2 2 0 base hd a ltac:(lia) ltac:(lia) Hr) as Hr0.
  assert (Hfail : forall e, exists hd' a' r, Some (hd, a, Failed e) = Some (hd', a', r) /\ appended 2 base (target ref lset hd) (Some x) hd a hd' a' r).
  { intros e. eexists _, _, _. split; [reflexivity|]. by apply failed_here. }
  unfold HeadAppender.AppendHistogram. destruct (too_early t a); [apply Hfail|].
  destruct (h ≫= Validate); [apply Hfail|]. destruct (fh ≫= Validate); [apply Hfail|].
  destruct h as [h|]; [|destruct fh as [fh|]; [|done]]; subst x.
  - eapply (lookup_append ref lset (fun a sr => verdict None AppendError (appendableHistogram t h (a_headMaxt a) (a_minValidTime a) (a_oooTimeWindow a) sr)));
      [by apply queues_histogram|done].
  - eapply (lookup_append ref lset (fun a sr => verdict None AppendError (appendableFloatHistogram t fh (a_headMaxt a) (a_minValidTime a) (a_oooTimeWindow a) sr)));
      [by apply queues_floatHistogram|done].
Qed.

(** The calls of a client of the appender, and the sample that each is to queue. *)
Inductive append_call :=
  | CallAppend (t v : Z)
  | CallAppendSTZeroSample (t st : Z)
  | CallAppendHistogram (t : Z) (h : H)
  | CallAppendFloatHistogram (t : Z) (fh : FH)
  | CallAppendHistogramSTZeroSample (t st : Z) (h : H)
  | CallAppendFloatHistogramSTZeroSample (t st : Z) (fh : FH).

Definition call (c : append_call) (ref : Z) (lset : L) (h : Head) (a : headAppender) : option (Head * headAppender * outcome Z) :=
  match c with
  | CallAppend t v => Append ref lset t v h a
  | CallAppendSTZeroSample t st => AppendSTZeroSample ref lset t st h a
  | CallAppendHistogram t x => AppendHistogram ref lset t (Some x) None h a
  | CallAppendFloatHistogram t x => AppendHistogram ref lset t None (Some x) h a
  | CallAppendHistogramSTZeroSample t st x => AppendHistogramSTZeroSample ref lset t st (Some x) None h a
  | CallAppendFloatHistogramSTZeroSample t st x => AppendHistogramSTZeroSample ref lset t st None (Some x) h a
  end.

Definition call_sample (c : append_call) (x : smp) : Prop :=
  match c with
  | CallAppend t v => x = mk_sample 0 t v None None \/
      (IsStaleNaN v = true /\ (x = mk_sample 0 t 0 (Some (stale_of v)) None \/ x = mk_sample 0 t 0 None (Some (stale_of v))))
  | CallAppendSTZeroSample _ st => x = mk_sample 0 st 0 None None
  | CallAppendHistogram t h => x = mk_sample 0 t 0 (Some h) None
  | CallAppendFloatHistogram t fh => x = mk_sample 0 t 0 None (Some fh)
  | CallAppendHistogramSTZeroSample _ st h => x = mk_sample 0 st 0 (Some (zero_of h)) None
  | CallAppendFloatHistogramSTZeroSample _ st fh => x = mk_sample 0 st 0 None (Some (zero_of fh))
  end.

Lemma Append_cases base ref lset t v h a :
  ready_for 3 3 base h a ->
  exists h' a' r x, Append ref lset t v h a = Some (h', a', r) /\ call_sample (CallAppend t v) x /\
    appended 3 base (target ref lset h) (Some x) h a h' a' r.
Proof.
  intros Hrd. pose proof Hrd as (Hi & Hc & Hb & Hlast & Hroom). unfold HeadAppender.Append.
  destruct (too_early t a).
  { eexists _, _, _, _. split; [reflexivity|]. split; [by left|]. apply failed_here; [lia|]. by eapply (ready_for_weaken 3 3). }
  destruct (lookup_found ref lset h a base Hi Hc ltac:(lia)) as (h1 & a1 & r & -> & F & Hr).
  pose proof F as [Hi1 Hc1 Hl1 Hh1 _]. pose proof (found_batches _ _ _ _ _ _ F Hb) as Hb1.
  assert (Hready : ready_for 2 2 base h1 a1).
  { split_and!; try done; [lia|]. intros q. specialize (Hh1 q). specialize (Hroom q). lia. }
  assert (Hx : exists x, call_sample (CallAppend t v) x /\ match r with Failed _ => True | Done s =>
    exists h' a' r', append_found PreCreation isolationDisabled env ref lset t v s h1 a1 = Some (h', a', r') /\ appended 2 base (target ref lset h) (Some x) h1 a1 h' a' r' end).
  { destruct r as [s|e]; [|by eexists; split; [by left|]]. destruct Hr as ([sr Eo] & Hs & Hnew & Hsame). unfold append_found. cbv zeta.
    assert (Hfl : exists h' a' r', try_append
            (fun sr => verdict (if a_DiscardOutOfOrder a1 then Some (AppendError ErrOutOfOrderSample) else None) AppendError
                         (appendable t v (a_headMaxt a1) (a_minValidTime a1) (a_oooTimeWindow a1) sr))
            (fun s => queue_float (mk_RefValue s 0 t v)) s h1 a1 = Some (h', a', r') /\
          appended 2 base (target ref lset h) (Some (mk_sample 0 t v None None)) h1 a1 h' a' r').
    { destruct (try_append_spec (fun sr => verdict (if a_DiscardOutOfOrder a1 then Some (AppendError ErrOutOfOrderSample) else None) AppendError
                         (appendable t v (a_headMaxt a1) (a_minValidTime a1) (a_oooTimeWindow a1) sr))
              _ (mk_sample 0 t v None None) s h1 a1 base (target ref lset h) sr (queues_float 0 t v) Hi1 Hc1 Hb1) as (h' & a' & r' & E & HA);
        [intros q; specialize (Hh1 q); specialize (Hroom q); lia|lia|done|].
      exists h', a', r'. split; [done|]. destruct HA. split; try done. lia. }
    assert (Htarget : target ref lset h1 = target ref lset h).
    { unfold target. pose proof (head_stripes _ _ (hi_ok _ Hi)) as Hst. pose proof (head_stripes _ _ (hi_ok _ Hi1)) as Hst1.
      destruct Hsame as [E0| ->]; [|done]. revert Eo. unfold target. rewrite E0. intros Eo.
      destruct (getByID ref (h_series h1)) as [s1|] eqn:E1; [|done].
      assert (s1 = ref) as -> by (revert E1; unfold getByID; case_bool_decide; by intros [= <-]).
      apply (getByID_live ls_Hash _ _ Hst1) in E1. destruct (Hnew ref E1) as [Hl| ->].
      - apply (getByID_live ls_Hash _ _ Hst) in Hl. congruence.
      - unfold labels_of. unfold objs in Eo. by rewrite Eo. }
    destruct (IsStaleNaN v) eqn:Ev; [|by eexists; split; [by left|]].
    assert (Hh : forall y, y = mk_sample 0 t 0 (Some (stale_of v)) None \/ y = mk_sample 0 t 0 None (Some (stale_of v)) -> call_sample (CallAppend t v) y)
      by (intros y Hy; right; by split).
    destruct (AppendHistogram_spec base ref lset t (Some (stale_of v)) None h1 a1 _ Hready eq_refl) as (g1 & b1 & q1 & E1 & A1).
    destruct (AppendHistogram_spec base ref lset t None (Some (stale_of v)) h1 a1 _ Hready eq_refl) as (g2 & b2 & q2 & E2 & A2).
    rewrite Htarget in A1, A2.
    destruct (a_typesInBatch a1 !! s) as [[]|]; try (by eexists; split; [by left|]).
    - eexists. split; [by apply Hh; left|]. by exists g1, b1, q1.
    - eexists. split; [by apply Hh; left|]. by exists g1, b1, q1.
    - eexists. split; [by apply Hh; right|]. by exists g2, b2, q2.
    - eexists. split; [by apply Hh; right|]. by exists g2, b2, q2. }
  destruct Hx as (x & Hx1 & Hx2).
  destruct (on_series_spec 2 base (target ref lset h) (Some x) h a h1 a1 r _ F Hb ltac:(lia) Hx2) as (h' & a' & r' & E & HA).
  exists h', a', r', x. split; [exact E|]. by split.
Qed.

(** C22: the appending methods, with any collection of series running between a
    lookup and a lock, return; three turns of the lock loop are enough.  On
    success the sample is the last that Commit will come to of its series, which
    is in the maps, not collected, has the labels asked for and is reserved once
    more; on an error no sample is queued.  Either way the order of all other
    samples is as before, each series has at most one kind of histogram in a
    batch, and each is reserved once for every queued sample and every creation,
    on top of what other appenders hold. *)
Theorem append_calls_spec base c ref lset h a :
  ready_for 3 3 base h a ->
  exists h' a' r x, call c ref lset h a = Some (h', a', r) /\ call_sample c x /\
    appended 3 base (target ref lset h) (Some x) h a h' a' r.
Proof.
  intros Hr. pose proof (ready_for_weaken 3 3 2 2 base h a ltac:(lia) ltac:(lia) Hr) as Hr2.
  assert (Hw : forall x h' a' r, appended 2 base (target ref lset h) (Some x) h a h' a' r -> appended 3 base (target ref lset h) (Some x) h a h' a' r)
    by (intros x h' a' r []; split; try done; lia).
  assert (Hfail : forall e x, appended 3 base (target ref lset h) (Some x) h a h a (Failed e))
    by (intros e x; apply failed_here; [lia|by eapply (ready_for_weaken 3 3)]).
  destruct c as [t v|t st|t x|t x|t st x|t st x]; cbn [call call_sample].
  - by apply Append_cases.
  - unfold HeadAppender.AppendSTZeroSample. destruct (t <=? st); [eexists _, _, _, _; split; [reflexivity|split; [reflexivity|apply Hfail]]|].
    destruct (lookup_append ref lset (fun a sr => verdict (Some ErrOutOfOrderST) AppendError
      (appendable st 0 (a_headMaxt a) (a_minValidTime a) (a_oooTimeWindow a) sr)) _ _ base h a (queues_float 0 st 0) Hr2) as (h' & a' & r & E & HA).
    eexists h', a', r, _. split; [exact E|]. split; [done|]. by apply Hw.
  - destruct (AppendHistogram_spec base ref lset t (Some x) None h a _ Hr2 eq_refl) as (h' & a' & r & E & HA). eexists h', a', r, _. auto.
  - destruct (AppendHistogram_spec base ref lset t None (Some x) h a _ Hr2 eq_refl) as (h' & a' & r & E & HA). eexists h', a', r, _. auto.
  - unfold HeadAppender.AppendHistogramSTZeroSample. destruct (t <=? st); [eexists _, _, _, _; split; [reflexivity|split; [reflexivity|apply Hfail]]|].
    destruct (lookup_append ref lset (fun a sr => verdict (Some ErrOutOfOrderST) st_failure
      (appendableHistogram st (zero_of x) (a_headMaxt a) (a_minValidTime a) (a_oooTimeWindow a) sr)) _ _ base h a
      (queues_histogram 0 st (zero_of x) x (zero_buckets x)) Hr2) as (h' & a' & r & E & HA).
    eexists h', a', r, _. split; [exact E|]. split; [done|]. by apply Hw.
  - unfold HeadAppender.AppendHistogramSTZeroSample. destruct (t <=? st); [eexists _, _, _, _; split; [reflexivity|split; [reflexivity|apply Hfail]]|].
    destruct (lookup_append ref lset (fun a sr => verdict (Some ErrOutOfOrderST) st_failure
      (appendableFloatHistogram st (zero_of x) (a_headMaxt a) (a_minValidTime a) (a_oooTimeWindow a) sr)) _ _ base h a
      (queues_floatHistogram 0 st (zero_of x) x (zero_buckets x)) Hr2) as (h' & a' & r & E & HA).
    eexists h', a', r, _. split; [exact E|]. split; [done|]. by apply Hw.
Qed.
End AppendSpec.

(** ** A concrete appender *)

#[local] Instance Z_labels : LabelSet Z :=
  {| ls_Hash := example_hash; ls_WithoutEmpty l := l; ls_IsEmpty l := l =? 0; ls_HasDuplicateLabelNames _ := false |}.
#[local] Instance Z_labels_laws : LabelSetLaws Z.
Proof. by split. Qed.
#[local] Instance unit_ops : HistogramOps unit := {| hist_Equals _ h := bool_decide (is_Some h); hist_Sum _ := 0; hist_buckets _ := 1 |}.
#[local] Instance unit_kind : HistogramKind unit :=
  {| UsesCustomBuckets _ := false; Validate _ := None; stale_of _ := tt; zero_of h := h |}.
#[local] Instance unit_kind_laws : HistogramKindLaws unit.
Proof. by split. Qed.

Notation test_appender := (@headAppender unit unit Z).

(** The head of HeadSeries; the series 2 has a reservation of another appender. *)
Definition example_app_head : test_head := mk_Head example_stripes 3 3.

Definition new_appender (oooTimeWindow : Z) (discard : bool) : test_appender :=
  mk_headAppender 0 30 oooTimeWindow [] [] [] ∅ 0 0 false false false false discard.

(** A collection runs before every lock. *)
Definition collecting (_ : nat) (h : test_head) : test_head := head_gc one_label (some_orders (h_series h)) 12 0 h.

Lemma collecting_interferes i h : head_inv h -> interfered h (collecting i h).
Proof. intros Hi. apply head_gc_interfered; [done|]. intros j. by split. Qed.

Lemma example_objects r l s :
  objs example_app_head !! r = Some (l, s) ->
  (r = 1 /\ l = 4 /\ state s = 0) \/ (r = 2 /\ l = 7 /\ state s = 1) \/ (r = 3 /\ l = 2 /\ s = example_series).
Proof.
  intros Eo%elem_of_map_to_list. revert Eo. unfold objs, example_app_head. cbn [h_series].
  assert (E : exists s1 s2, map_to_list (objects example_stripes) = [(3, (2, example_series)); (2, (7, s2)); (1, (4, s1))] /\
    state s1 = 0 /\ state s2 = 1) by (eexists _, _; by vm_compute).
  destruct E as (s1 & s2 & -> & E1 & E2). rewrite !elem_of_cons, elem_of_nil.
  intros [[= -> -> ->]|[[= -> -> ->]|[[= -> -> ->]|[]]]]; [right; by right|right; by left|by left].
Qed.

Lemma example_live_all r l s : objs example_app_head !! r = Some (l, s) -> live example_hash example_stripes r.
Proof.
  intros Eo. destruct (example_objects r l s Eo) as [(-> & -> & _)|[(-> & -> & _)|(-> & -> & _)]]; [| |apply example_stripes_ok].
  - exists 4, s. split; [exact Eo|]. by apply (bool_decide_eq_true_1 (1 ∈ bucket _ _)); vm_compute.
  - exists 7, s. split; [exact Eo|]. by apply (bool_decide_eq_true_1 (2 ∈ bucket _ _)); vm_compute.
Qed.

Lemma example_head_inv : head_inv example_app_head.
Proof.
  split.
  - split; [apply example_stripes_ok|done|]. intros x [[l s] Eo].
    destruct (example_objects x l s Eo) as [(-> & _)|[(-> & _)|(-> & _)]]; done.
  - intros r l s Eo. destruct (example_objects r l s Eo) as [(_ & _ & ->)|[(_ & _ & ->)|(_ & _ & ->)]];
      [by exists 0, false, false|by exists 1, false, false|by exists 0, false, false].
  - intros r l s Eo. split; [intros _; by eapply example_live_all|]. intros _.
    by destruct (example_objects r l s Eo) as [(_ & _ & ->)|[(_ & _ & ->)|(_ & _ & ->)]].
  - intros r l s Eo. by destruct (example_objects r l s Eo) as [(_ & _ & ->)|[(_ & _ & ->)|(_ & _ & ->)]].
  - intros r l s Eo. by destruct (example_objects r l s Eo) as [(_ & -> & _)|[(_ & -> & _)|(_ & -> & _)]].
Qed.

Definition example_base (r : Z) : Z := if r =? 2 then 1 else 0.

Lemma example_ready w d : ready_for 3 3 example_base example_app_head (new_appender w d).
Proof.
  split_and!; [exact example_head_inv| |split; cbn; [by intros b ?%elem_of_nil|done|done]|done|].
  - split_and!; [intros r; unfold example_base; by destruct (r =? 2)| |].
    + intros r l s Eo. by destruct (example_objects r l s Eo) as [(-> & _ & ->)|[(-> & _ & ->)|(-> & _ & ->)]].
    + intros r Eo. unfold example_base. destruct (Z.eqb_spec r 2) as [->|]; [|done]. by vm_compute in Eo.
  - intros r. unfold example_base, held. cbn. by destruct (r =? 2).
Qed.

(** The series 1 has no samples and is collected after it was looked up: the
    sample goes to a new series with its labels. *)
Lemma append_calls_spec_witness :
  exists h' a' r x, call (fun _ => None) true collecting (CallAppend 40 7) 1 0 example_app_head (new_appender 0 false) = Some (h', a', r) /\
    r = Done 4 /\ labels_of (h_series h') 4 = Some 4 /\ commit_order 4 a' = [x] /\ s_t x = 40.
Proof.
  destruct (append_calls_spec (fun _ => None) true collecting collecting_interferes example_base (CallAppend 40 7) 1 0 example_app_head
    (new_appender 0 false) (example_ready 0 false)) as (h' & a' & r & x & E & Hx & HA).
  exists h', a', r, x. split; [exact E|].
  assert (Er : (fun o => o.2) <$> call (fun _ => None) true collecting (CallAppend 40 7) 1 0 example_app_head (new_appender 0 false) = Some (Done 4))
    by (by vm_compute).
  rewrite E in Er. injection Er as ->. split; [done|]. destruct HA as [_ _ _ _ Ho (sr & Eo & _) _]. split.
  - unfold labels_of. unfold objs in Eo. rewrite Eo. by vm_compute.
  - rewrite Ho. split; [done|]. destruct Hx as [->|[? _]]; done.
Defined.

(** AppendOptions say that an out-of-order append is rejected when
    DiscardOutOfOrder is set; AppendHistogram does not look at it. *)
Example histogram_ignores_discard :
  let still (_ : nat) (h : test_head) := h in
  let a := new_appender 100 true in
  (fun o => o.2) <$> call (fun _ => None) true still (CallAppend 25 7) 3 2 example_app_head a = Some (Failed (AppendError ErrOutOfOrderSample)) /\
  (fun o => o.2) <$> call (fun _ => None) true still (CallAppendHistogram 25 tt) 3 2 example_app_head a = Some (Done 3).
Proof. by vm_compute. Qed.
