(* ===== verification/HeadCommit.v ===== *)
(** tsdb/head_append.go: Commit and Rollback of the head's appender.

    Commit logs what the appender has queued, adds the samples to their series,
    batch by batch, in order or out of order, and releases the reservations;
    samples that went out of order are logged to the WBL.  A log is a state with
    an operation [Log] that may fail; records are kept as what they hold (Record
    encodes them).  Exemplars, metadata, metrics and notifications are left out.
    [None] is a panic. *)
From stdpp Require Import fin_maps fin_sets sorting.
From S2P Require Import Prelude Isolation OooHead HeadChunks HeadAppend HeadSeries HeadAppender.

(** What is logged, by the encoder's method. *)
Inductive walRecord (H FH L : Type) :=
  | RecSeries (l : list (Z * L))
  | RecSamples (l : list (RefValue Z))
  | RecHistogramSamples (l : list (RefValue H))
  | RecCustomBucketsHistogramSamples (l : list (RefValue H))
  | RecFloatHistogramSamples (l : list (RefValue FH))
  | RecCustomBucketsFloatHistogramSamples (l : list (RefValue FH))
  | RecMmapMarkers (l : list (Z * Z)).
Arguments RecSeries {H FH L} _.
Arguments RecSamples {H FH L} _.
Arguments RecHistogramSamples {H FH L} _.
Arguments RecCustomBucketsHistogramSamples {H FH L} _.
Arguments RecFloatHistogramSamples {H FH L} _.
Arguments RecCustomBucketsFloatHistogramSamples {H FH L} _.
Arguments RecMmapMarkers {H FH L} _.

(** updateMinMaxTime and updateMinOOOMaxOOOTime: the new minimum and maximum. *)
Definition widen (mint maxt lo hi : Z) : Z * Z := (if lo <=? mint then lo else mint, if maxt <=? hi then hi else maxt).

Section Commit.
  Context {H FH C D L W : Type} `{!EqDecision L}.
  Context `{!@ChunkOps H FH C} `{!ChunkMeta C} `{!DiskMapper D C}.
  Context `{!HistogramOps H} `{!HistogramOps FH} `{!HistogramKind H} `{!HistogramKind FH}.
  Notation series := (@memSeries H FH C).
  Notation Head := (@Head H FH C L).
  Notation headAppender := (@headAppender H FH L).
  Notation appendBatch := (@appendBatch H FH).
  Notation smp := (@sample H FH).
  Notation walRecord := (walRecord H FH L).

  (** Log of the WAL and the WBL, and the order in which Go visits a map. *)
  Variable Log : W -> list walRecord -> W * option goerror.
  Variable map_order : gmap Z (list Z) -> list (Z * list Z).
  (** Options of the head. *)
  Variable h_chunkRange h_samplesPerChunk h_OutOfOrderCapMax : Z.

(** The parts of the head that Commit reads and writes. *)
Record headState := mk_headState {
  hs_head : Head; hs_disk : D;
  hs_minTime : Z; hs_maxTime : Z; hs_minOOOTime : Z; hs_maxOOOTime : Z;
  hs_iso : isolation; hs_wal : option W; hs_wbl : option W; hs_pendingCommitUnderflow : Z }.

(** appenderCommitContext without its counters; [None] is the nil map. *)
Record commitContext := mk_commitContext {
  inOrderMint : Z; inOrderMaxt : Z; oooMinT : Z; oooMaxT : Z;
  wblSamples : list (RefValue Z); wblHistograms : list (RefValue H); wblFloatHistograms : list (RefValue FH);
  oooMmapMarkers : option (gmap Z (list Z)); oooRecords : list walRecord }.

Definition new_context : commitContext := mk_commitContext MaxInt64 MinInt64 MaxInt64 MinInt64 [] [] [] None [].

(** ** Records *)

(** The records of histograms: without start times, those with custom buckets go
    to a record of their own. *)
Definition histogram_records (storeST : bool) (l : list (RefValue H)) : list walRecord :=
  if storeST then [RecHistogramSamples l]
  else
    let custom := List.filter (fun x => UsesCustomBuckets (rv_V x)) l in
    (if (length l =? length custom)%nat then [] else [RecHistogramSamples (List.filter (fun x => negb (UsesCustomBuckets (rv_V x))) l)]) ++
    (match custom with [] => [] | _ => [RecCustomBucketsHistogramSamples custom] end).

Definition floatHistogram_records (storeST : bool) (l : list (RefValue FH)) : list walRecord :=
  if storeST then [RecFloatHistogramSamples l]
  else
    let custom := List.filter (fun x => UsesCustomBuckets (rv_V x)) l in
    (if (length l =? length custom)%nat then [] else [RecFloatHistogramSamples (List.filter (fun x => negb (UsesCustomBuckets (rv_V x))) l)]) ++
    (match custom with [] => [] | _ => [RecCustomBucketsFloatHistogramSamples custom] end).

Definition if_any {A} (l : list A) (r : list walRecord) : list walRecord := match l with [] => [] | _ => r end.

(** The records that log writes, in their order. *)
Definition batch_records (storeST : bool) (b : appendBatch) : list walRecord :=
  if_any (floats b) [RecSamples (floats b)] ++
  if_any (histograms b) (histogram_records storeST (histograms b)) ++
  if_any (floatHistograms b) (floatHistogram_records storeST (floatHistograms b)).

Definition appender_records (a : headAppender) : list walRecord :=
  if_any (a_seriesRefs a) [RecSeries (a_seriesRefs a)] ++ concat (map (batch_records (a_storeST a)) (a_batches a)).

Fixpoint log_all (w : W) (l : list walRecord) : W * option goerror :=
  match l with
  | [] => (w, None)
  | r :: l =>
      match Log w [r] with
      | (w, Some e) => (w, Some e)
      | (w, None) => log_all w l
      end
  end.

Definition log (a : headAppender) (wal : option W) : option W * option goerror :=
  match wal with
  | None => (None, None)
  | Some w => let '(w, e) := log_all w (appender_records a) in (Some w, e)
  end.

Definition collectOOORecords (a : headAppender) (wbl : option W) (acc : commitContext) : commitContext :=
  let records :=
    match wbl with
    | None => oooRecords acc
    | Some _ =>
        oooRecords acc ++
        (match oooMmapMarkers acc with
         | None => []
         | Some m => [RecMmapMarkers (concat (map (fun '(ref, mmapRefs) => map (fun mmapRef => (ref, mmapRef)) mmapRefs) (map_order m)))]
         end) ++
        if_any (wblSamples acc) [RecSamples (wblSamples acc)] ++
        if_any (wblHistograms acc) (histogram_records (a_storeST a) (wblHistograms acc)) ++
        if_any (wblFloatHistograms acc) (floatHistogram_records (a_storeST a) (wblFloatHistograms acc))
    end in
  mk_commitContext (inOrderMint acc) (inOrderMaxt acc) (oooMinT acc) (oooMaxT acc) [] [] [] None records.

(** ** Committing one sample *)

Definition note_in_order (t : Z) (acc : commitContext) : commitContext :=
  mk_commitContext (if t <? inOrderMint acc then t else inOrderMint acc) (if inOrderMaxt acc <? t then t else inOrderMaxt acc)
    (oooMinT acc) (oooMaxT acc) (wblSamples acc) (wblHistograms acc) (wblFloatHistograms acc) (oooMmapMarkers acc) (oooRecords acc).

Definition note_ooo (t : Z) (fl : list (RefValue Z)) (hl : list (RefValue H)) (fhl : list (RefValue FH)) (acc : commitContext) : commitContext :=
  mk_commitContext (inOrderMint acc) (inOrderMaxt acc) (if t <? oooMinT acc then t else oooMinT acc)
    (if oooMaxT acc <? t then t else oooMaxT acc) (wblSamples acc ++ fl) (wblHistograms acc ++ hl) (wblFloatHistograms acc ++ fhl)
    (oooMmapMarkers acc) (oooRecords acc).

(** A chunk was created for an out-of-order sample of the series [ref]. *)
Definition note_markers (a : headAppender) (wbl : option W) (ref : Z) (mmapRefs : list Z) (acc : commitContext) : commitContext :=
  let r := oooMmapMarkers acc ≫= (fun m => m !! ref) in
  let acc := match r with Some [] => acc | _ => collectOOORecords a wbl acc end in
  let m := default ∅ (oooMmapMarkers acc) in
  let refs := match mmapRefs with [] => [0] | _ => mmapRefs end in
  mk_commitContext (inOrderMint acc) (inOrderMaxt acc) (oooMinT acc) (oooMaxT acc) (wblSamples acc) (wblHistograms acc)
    (wblFloatHistograms acc) (Some (<[ref := refs]> m)) (oooRecords acc).

(** releasePendingCommit; the number of underflows goes with the head. *)
Definition releasePendingCommit (r : Z) (h : Head * Z) : option (Head * Z) :=
  '(_, s) ← objects (h_series h.1) !! r;
  match unmarkPendingCommit (state s) with
  | (w, true) => Some (put_series r (set_state w s) h.1, h.2)
  | (_, false) => Some (h.1, h.2 + 1)
  end.

Definition series_cleanup (bound r : Z) (h : Head) : option Head :=
  '(_, s) ← objects (h_series h) !! r; Some (put_series r (series_cleanupAppendIDsBelow bound s) h).

Definition commit_opts (a : headAppender) : chunkOpts :=
  mk_chunkOpts h_chunkRange h_samplesPerChunk (a_useXOR2 a) (a_useHistogramST a) (a_storeST a).

(** What the three loops of Commit carry along: the head, the disk mapper, the
    underflows and the context. *)
Record commitState := mk_commitState { c_head : Head; c_disk : D; c_underflow : Z; c_acc : commitContext }.

(** The body of the three loops: [check] is the appendable of the kind of sample,
    [append] its append, [ooo] what is noted when it goes out of order;
    [chunkCreated] is the variable that is declared before the loop. *)
Definition commit_sample (a : headAppender) (wbl : option W) (r : Z) (x : smp)
    (check : series -> bool * Z * option append_error) (append : series -> option (series * bool * bool))
    (ooo : commitContext -> commitContext) (chunkCreated : bool) (c : commitState) : option (commitState * bool) :=
  '(_, s) ← objects (h_series (c_head c)) !! r;
  let prevHeadChunkCount := headChunkCount s in
  '(d, s, acc, chunkCreated) ←
    match check s with
    | (_, _, Some _) => Some (c_disk c, s, c_acc c, chunkCreated)
    | (true, _, None) =>
        '(d, s, ok, chunkCreated, mmapRefs) ← insert x (commit_opts a) h_OutOfOrderCapMax (c_disk c) s;
        let acc := if (chunkCreated : bool) then note_markers a wbl r mmapRefs (c_acc c) else c_acc c in
        Some (d, s, if (ok : bool) then ooo acc else acc, chunkCreated)
    | (false, _, None) =>
        '(s, ok, chunkCreated) ← append s;
        Some (c_disk c, s, if (ok : bool) then note_in_order (s_t x) (c_acc c) else c_acc c, chunkCreated)
    end;
  let h := put_series r s (c_head c) in
  let h := if (chunkCreated : bool) then mk_Head (onChunkCreated r prevHeadChunkCount (h_series h)) (lastSeriesID h) (numSeries h) else h in
  h ← series_cleanup (a_cleanupAppendIDsBelow a) r h;
  '(h, underflow) ← releasePendingCommit r (h, c_underflow c);
  Some (mk_commitState h d underflow acc, chunkCreated).

(** ** The loops *)

Definition commit_float (a : headAppender) (wbl : option W) (x : RefValue Z) : bool -> commitState -> option (commitState * bool) :=
  commit_sample a wbl (rv_Ref x) (float_sample x)
    (appendable (rv_T x) (rv_V x) (a_headMaxt a) (a_minValidTime a) (a_oooTimeWindow a))
    (append (rv_ST x) (rv_T x) (rv_V x) (a_appendID a) (commit_opts a))
    (note_ooo (rv_T x) [x] [] []).

Definition commit_histogram (a : headAppender) (wbl : option W) (x : RefValue H) : bool -> commitState -> option (commitState * bool) :=
  commit_sample a wbl (rv_Ref x) (histogram_sample x)
    (appendableHistogram (rv_T x) (rv_V x) (a_headMaxt a) (a_minValidTime a) (a_oooTimeWindow a))
    (appendHistogram (rv_ST x) (rv_T x) (rv_V x) (a_appendID a) (commit_opts a))
    (note_ooo (rv_T x) [] [x] []).

Definition commit_floatHistogram (a : headAppender) (wbl : option W) (x : RefValue FH) : bool -> commitState -> option (commitState * bool) :=
  commit_sample a wbl (rv_Ref x) (floatHistogram_sample x)
    (appendableFloatHistogram (rv_T x) (rv_V x) (a_headMaxt a) (a_minValidTime a) (a_oooTimeWindow a))
    (appendFloatHistogram (rv_ST x) (rv_T x) (rv_V x) (a_appendID a) (commit_opts a))
    (note_ooo (rv_T x) [] [] [x]).

(** A float staleness marker for a series whose last sample is a histogram is
    put at the end of the batch's histograms. *)
Fixpoint commitFloats (a : headAppender) (wbl : option W) (l : list (RefValue Z)) (chunkCreated : bool) (b : appendBatch) (c : commitState)
  : option (appendBatch * commitState) :=
  match l with
  | [] => Some (b, c)
  | x :: l =>
      '(_, s) ← objects (h_series (c_head c)) !! rv_Ref x;
      if IsStaleNaN (rv_V x) && bool_decide (is_Some (lastHistogramValue s)) then
        commitFloats a wbl l chunkCreated (add_histogram (mk_RefValue (rv_Ref x) (rv_ST x) (rv_T x) (stale_of (rv_V x))) b) c
      else if IsStaleNaN (rv_V x) && bool_decide (is_Some (lastFloatHistogramValue s)) then
        commitFloats a wbl l chunkCreated (add_floatHistogram (mk_RefValue (rv_Ref x) (rv_ST x) (rv_T x) (stale_of (rv_V x))) b) c
      else
        '(c, chunkCreated) ← commit_float a wbl x chunkCreated c;
        commitFloats a wbl l chunkCreated b c
  end.

Fixpoint commit_loop {V} (body : RefValue V -> bool -> commitState -> option (commitState * bool)) (l : list (RefValue V))
    (chunkCreated : bool) (c : commitState) : option commitState :=
  match l with
  | [] => Some c
  | x :: l => '(c, chunkCreated) ← body x chunkCreated c; commit_loop body l chunkCreated c
  end.

Definition commitHistograms (a : headAppender) (wbl : option W) (b : appendBatch) (c : commitState) : option commitState :=
  commit_loop (commit_histogram a wbl) (histograms b) false c.

Definition commitFloatHistograms (a : headAppender) (wbl : option W) (b : appendBatch) (c : commitState) : option commitState :=
  commit_loop (commit_floatHistogram a wbl) (floatHistograms b) false c.

Definition commit_batch (a : headAppender) (wbl : option W) (b : appendBatch) (c : commitState) : option commitState :=
  '(b, c) ← commitFloats a wbl (floats b) false b c;
  c ← commitHistograms a wbl b c;
  commitFloatHistograms a wbl b c.

Fixpoint commit_batches (a : headAppender) (wbl : option W) (bs : list appendBatch) (c : commitState) : option commitState :=
  match bs with [] => Some c | b :: bs => c ← commit_batch a wbl b c; commit_batches a wbl bs c end.

Fixpoint releaseCreatedSeriesReservations (l : list Z) (h : Head * Z) : option (Head * Z) :=
  match l with [] => Some h | r :: l => h ← releasePendingCommit r h; releaseCreatedSeriesReservations l h end.

(** ** Rollback and Commit *)

Definition roll_entry (a : headAppender) (r : Z) (h : Head * Z) : option (Head * Z) :=
  h1 ← series_cleanup (a_cleanupAppendIDsBelow a) r h.1; releasePendingCommit r (h1, h.2).

Fixpoint roll_entries (a : headAppender) (l : list Z) (h : Head * Z) : option (Head * Z) :=
  match l with [] => Some h | r :: l => h ← roll_entry a r h; roll_entries a l h end.

(** The series of the queued samples, in the order of the loops. *)
Definition batch_refs (b : appendBatch) : list Z :=
  map rv_Ref (floats b) ++ map rv_Ref (histograms b) ++ map rv_Ref (floatHistograms b).

Inductive commit_failure := ErrAppenderClosed | ErrLog (e : goerror).

(** The results are the head, the appender and the error. *)
Definition Rollback (h : headState) (a : headAppender) : option (headState * headAppender * option commit_failure) :=
  if a_closed a then Some (h, a, Some ErrAppenderClosed)
  else
    '(hd, u) ← roll_entries a (concat (map batch_refs (a_batches a))) (hs_head h, hs_pendingCommitUnderflow h);
    let a := set_batches [] (a_typesInBatch a) a in
    let '(wal, e) := log a (hs_wal h) in
    '(hd, u) ← releaseCreatedSeriesReservations (a_series a) (hd, u);
    Some (mk_headState hd (hs_disk h) (hs_minTime h) (hs_maxTime h) (hs_minOOOTime h) (hs_maxOOOTime h)
            (closeAppend (hs_iso h) (a_appendID a)) wal (hs_wbl h) u,
          close_appender a, ErrLog <$> e).

Definition Commit (h : headState) (a : headAppender) : option (headState * headAppender * option commit_failure) :=
  if a_closed a then Some (h, a, Some ErrAppenderClosed)
  else
    let '(wal, e) := log a (hs_wal h) in
    let h := mk_headState (hs_head h) (hs_disk h) (hs_minTime h) (hs_maxTime h) (hs_minOOOTime h) (hs_maxOOOTime h)
               (hs_iso h) wal (hs_wbl h) (hs_pendingCommitUnderflow h) in
    match e with
    | Some e => '(h, a, _) ← Rollback h a; Some (h, a, Some (ErrLog e))
    | None =>
        c ← commit_batches a (hs_wbl h) (a_batches a)
              (mk_commitState (hs_head h) (hs_disk h) (hs_pendingCommitUnderflow h) new_context);
        '(hd, u) ← releaseCreatedSeriesReservations (a_series a) (c_head c, c_underflow c);
        let '(mint, maxt) := widen (inOrderMint (c_acc c)) (inOrderMaxt (c_acc c)) (hs_minTime h) (hs_maxTime h) in
        let '(minO, maxO) := widen (oooMinT (c_acc c)) (oooMaxT (c_acc c)) (hs_minOOOTime h) (hs_maxOOOTime h) in
        let acc := collectOOORecords a (hs_wbl h) (c_acc c) in
        let wbl := (fun w => (Log w (oooRecords acc)).1) <$> hs_wbl h in
        Some (mk_headState hd (c_disk c) mint maxt minO maxO (closeAppend (hs_iso h) (a_appendID a)) (hs_wal h) wbl u,
              close_appender a, None)
    end.
End Commit.

(** ** What appending leaves of the state word and the transactions *)

Section Frames.
  Context {H FH C D : Type} `{!@ChunkOps H FH C} `{!ChunkMeta C} `{!DiskMapper D C}.
  Notation series := (@memSeries H FH C).
  Implicit Types s : series.

Definition framed (s s' : series) : Prop :=
  (word_ok (state s) -> word_ok (state s') /\ isGCed (state s') = isGCed (state s) /\
     pendingCommitCount (state s') = pendingCommitCount (state s)) /\
  (is_Some (txs s) -> is_Some (txs s')).

Lemma framed_refl s : framed s s.
Proof. by split. Qed.

Lemma framed_trans s1 s2 s3 : framed s1 s2 -> framed s2 s3 -> framed s1 s3.
Proof.
  intros [A1 A2] [B1 B2]. split; [|tauto]. intros Hw. destruct (A1 Hw) as (W & E1 & E2). destruct (B1 W) as (W' & E3 & E4).
  split_and!; [done|congruence|congruence].
Qed.

Lemma framed_same s s' : state s' = state s -> txs s' = txs s -> framed s s'.
Proof. intros E1 E2. split; by rewrite ?E1, ?E2. Qed.

Lemma framed_computed b s : framed s (set_state (setComputedHistogramChunkEndTime b (state s)) s).
Proof. split; [|done]. intros Hw. apply (word_computed b (state s) Hw). Qed.

Lemma push_framed c s s' : pushHeadChunk c s = Some s' -> framed s s'.
Proof. unfold pushHeadChunk. case_match; [done|]. intros [= <-]. by apply framed_same. Qed.

Lemma cut_framed t e w s s' : cutNewHeadChunk t e w s = Some s' -> framed s s'.
Proof.
  unfold cutNewHeadChunk. intros (c & _ & (s1 & E%push_framed & [= <-])%bind_Some)%bind_Some.
  eapply framed_trans; [exact E|]. by apply framed_same.
Qed.

Lemma cut_if_framed b t e o s cc s' cc' : cut_if b t e o s cc = Some (s', cc') -> framed s s'.
Proof.
  unfold cut_if. destruct b; [|intros [= <- <-]; apply framed_refl].
  intros (s1 & E%cut_framed & [= <- _])%bind_Some. done.
Qed.

Lemma first_chunk_framed t e o s s' ok cc : first_chunk t e o s = Some (s', ok, cc) -> framed s s'.
Proof.
  assert (Hc : forall s1 b, check_order t s1 b = Some (s', ok, cc) -> s1 = s').
  { intros s1 b. unfold check_order. by intros (c & _ & [= <- _ _])%bind_Some. }
  assert (Hcut : (s1 ← cutNewHeadChunk t e (chunkRange o) s; check_order t s1 true) = Some (s', ok, cc) -> framed s s')
    by (intros (s1 & E%cut_framed & E2%Hc)%bind_Some; by subst).
  unfold first_chunk. destruct (headChunks s); [destruct (last _) as [m|]; [case_match|]|].
  - intros [= <- _ _]. apply framed_refl.
  - exact Hcut.
  - exact Hcut.
  - intros E%Hc. subst. apply framed_refl.
Qed.

Lemma fix_minTime_framed t o s : framed s (fix_minTime t o s).
Proof. unfold fix_minTime, upd_head. by apply framed_same; destruct (headChunks s). Qed.

Lemma framed_if (b : bool) s s1 s2 : framed s s1 -> framed s s2 -> framed s (if b then s1 else s2).
Proof. by destruct b. Qed.

Lemma cut_by_samples_framed t e o s cc s' ok cc' : cut_by_samples t e o s cc = Some (s', ok, cc') -> framed s s'.
Proof.
  unfold cut_by_samples. intros (c & _ & E)%bind_Some. apply bind_Some in E as (c' & _ & E).
  apply bind_Some in E as ([s1 cc1] & E%cut_if_framed & [= <- _ _]). eapply framed_trans; [|exact E].
  set (s0 := if chunk_NumSamples _ =? 0 then _ else _). assert (F : framed s s0) by (apply framed_if; [apply fix_minTime_framed|apply framed_refl]).
  eapply framed_trans; [exact F|]. apply framed_if; [by apply framed_same|apply framed_refl].
Qed.

Lemma cut_by_bytes_framed t e o s cc s' ok cc' : cut_by_bytes t e o s cc = Some (s', ok, cc') -> framed s s'.
Proof.
  unfold cut_by_bytes. intros (c & _ & E)%bind_Some. apply bind_Some in E as (c' & _ & E).
  apply bind_Some in E as ([s1 cc1] & E%cut_if_framed & [= <- _ _]).
  set (s0 := if chunk_NumSamples _ =? 0 then _ else _) in *.
  assert (F : framed s s0) by (apply framed_if; [apply fix_minTime_framed|apply framed_refl]).
  eapply framed_trans; [exact F|]. apply (framed_trans _ s1); [|apply framed_if; [apply (framed_computed false)|apply framed_refl]].
  eapply framed_trans; [|exact E]. apply framed_if; [|apply framed_refl].
  set (s2 := set_nextAt _ s0). apply (framed_trans _ s2); [by apply framed_same|apply (framed_computed true)].
Qed.

Lemma appendPreprocessor_framed t e o s s' ok cc : appendPreprocessor t e o s = Some (s', ok, cc) -> framed s s'.
Proof.
  unfold appendPreprocessor. intros ([[s1 ok1] cc1] & E1%first_chunk_framed & E)%bind_Some.
  destruct ok1; cbn [negb] in E; [|by injection E as <- _ _].
  apply bind_Some in E as (c & _ & E). apply bind_Some in E as ([s2 cc2] & E2%cut_if_framed & E).
  apply bind_Some in E as (c' & _ & E). apply bind_Some in E as ([s3 cc3] & E3%cut_if_framed & E4%cut_by_samples_framed).
  eapply framed_trans; [exact E1|]. eapply framed_trans; [exact E2|]. by eapply framed_trans.
Qed.

Lemma histogramsAppendPreprocessor_framed t e o s s' ok cc : histogramsAppendPreprocessor t e o s = Some (s', ok, cc) -> framed s s'.
Proof.
  unfold histogramsAppendPreprocessor. intros ([[s1 ok1] cc1] & E1%first_chunk_framed & E)%bind_Some.
  destruct ok1; cbn [negb] in E; [|by injection E as <- _ _].
  apply bind_Some in E as (c & _ & E). apply bind_Some in E as ([s2 cc2] & E2%cut_if_framed & E3%cut_by_bytes_framed).
  eapply framed_trans; [exact E1|]. by eapply framed_trans.
Qed.

Lemma txs_add_framed id s s' : txs_add id s = Some s' -> framed s s'.
Proof.
  unfold txs_add. case_match; [|intros [= <-]; apply framed_refl].
  intros (x & _ & [= <-])%bind_Some. split; [done|]. cbn. by eexists.
Qed.

Lemma written_framed c t s : framed s (written c t s).
Proof. unfold written, upd_head. by apply framed_same; destruct (headChunks s). Qed.

Lemma append_framed st t v id o s s' ok cc : append st t v id o s = Some (s', ok, cc) -> framed s s'.
Proof.
  unfold append. intros ([[s1 ok1] cc1] & E1%appendPreprocessor_framed & E)%bind_Some.
  destruct ok1; cbn [negb] in E; [|by injection E as <- _ _].
  apply bind_Some in E as (c & _ & E). apply bind_Some in E as (s2 & E2%txs_add_framed & [= <- _ _]).
  eapply framed_trans; [exact E1|]. eapply framed_trans; [|exact E2]. eapply framed_trans; [apply written_framed|]. by apply framed_same.
Qed.

Lemma finish_histogram_framed r t id o cc s s' ok cc' : finish_histogram r t id o cc s = Some (s', ok, cc') -> framed s s'.
Proof.
  unfold finish_histogram. intros (s1 & E1%txs_add_framed & E)%bind_Some. eapply framed_trans; [exact E1|].
  destruct r; [injection E as <- _ _; apply written_framed|injection E as <- _ _; apply written_framed|].
  apply bind_Some in E as (s2 & E2%push_framed & [= <- _ _]). eapply framed_trans; [exact E2|]. by apply framed_same.
Qed.

Lemma appendHistogram_framed st t h id o s s' ok cc : appendHistogram st t h id o s = Some (s', ok, cc) -> framed s s'.
Proof.
  unfold appendHistogram. intros ([[s1 ok1] cc1] & E1%histogramsAppendPreprocessor_framed & E)%bind_Some.
  destruct ok1; cbn [negb] in E; [|by injection E as <- _ _].
  apply bind_Some in E as (c & _ & E%finish_histogram_framed). eapply framed_trans; [exact E1|].
  eapply framed_trans; [|exact E]. by apply framed_same.
Qed.

Lemma appendFloatHistogram_framed st t fh id o s s' ok cc : appendFloatHistogram st t fh id o s = Some (s', ok, cc) -> framed s s'.
Proof.
  unfold appendFloatHistogram. intros ([[s1 ok1] cc1] & E1%histogramsAppendPreprocessor_framed & E)%bind_Some.
  destruct ok1; cbn [negb] in E; [|by injection E as <- _ _].
  apply bind_Some in E as (c & _ & E%finish_histogram_framed). eapply framed_trans; [exact E1|].
  eapply framed_trans; [|exact E]. by apply framed_same.
Qed.
End Frames.

(** ** What an insert leaves alone *)

Section Inserts.
  Context {H FH C D : Type} `{!@ChunkOps H FH C} `{!ChunkLaws C} `{!ChunkMeta C} `{!ChunkMetaLaws C}
    `{!DiskMapper D C} `{!DiskMapperLaws D C}.
  Notation series := (@memSeries H FH C).
  Notation smp := (@sample H FH).
  Implicit Types (s : series) (o : chunkOpts) (d : D).

(** What was on disk stays. *)
Definition disk_keeps d d' : Prop := forall r c, Chunk d r = Some c -> Chunk d' r = Some c.

Lemma disk_keeps_refl d : disk_keeps d d.
Proof. by intros r c. Qed.

Lemma mmap_ooo_loop_keeps sref chks : forall d refs mm, disk_keeps d (mmap_ooo_loop sref chks d refs mm).1.1.
Proof.
  induction chks as [|c chks IH]; intros d refs mm r x Hr; cbn [mmap_ooo_loop]; [done|]. case_match; [done|].
  pose proof (write_keeps d sref (mc_minTime c) (mc_maxTime c) (mc_chunk c) true r x Hr) as Hk.
  destruct (WriteChunk _ _ _ _ _ _) as [d1 r1]. by apply IH.
Qed.

Lemma set_ooo_twice f g s : set_ooo f (set_ooo g s) = set_ooo f s.
Proof. done. Qed.

Lemma insert_frame x o cap d s d' s' ok cc refs :
  insert x o cap d s = Some (d', s', ok, cc, refs) -> (exists f, s' = set_ooo f s) /\ disk_keeps d d'.
Proof.
  unfold insert. set (s0 := match ooo s with None => _ | Some _ => s end).
  assert (Hs0 : exists g, s0 = set_ooo g s).
  { unfold s0. destruct (ooo s) eqn:E; [|by eexists]. exists (ooo s). by destruct s. }
  assert (Hmm : forall d1 s1 r1, mmapCurrentOOOHeadChunk o d s0 = Some (d1, s1, r1) -> (exists f, s1 = set_ooo f s) /\ disk_keeps d d1).
  { intros d1 s1 r1. unfold mmapCurrentOOOHeadChunk. destruct (ooo s0) as [f|]; [|intros [= <- <- _]; split; [done|apply disk_keeps_refl]].
    destruct (oooHead f) as [hc|]; [|intros [= <- <- _]; split; [done|apply disk_keeps_refl]]. destruct (ToEncodedChunks _ _ _ _ _) as [chks [e|]]; [done|].
    pose proof (mmap_ooo_loop_keeps (ser_ref s0) chks d [] (oooMmappedChunks f)) as Hk.
    destruct (mmap_ooo_loop _ _ _ _ _) as [[d2 r2] m2]. intros [= <- <- _]. split; [|done]. destruct Hs0 as [g ->]. by eexists. }
  assert (Hcut : forall d1 s1 c1 r1, cutNewOOOHeadChunk (s_t x) o d s0 = Some (d1, s1, c1, r1) -> (exists f, s1 = set_ooo f s) /\ disk_keeps d d1).
  { intros d1 s1 c1 r1. unfold cutNewOOOHeadChunk. intros ([[d2 s2] r2] & E & E2)%bind_Some. destruct (Hmm _ _ _ E) as [[g ->] Hk].
    apply bind_Some in E2 as (f & _ & [= <- <- _ _]). split; [by eexists|done]. }
  intros ([[[[d1 s1] c1] cc1] r1] & E & E2)%bind_Some. apply bind_Some in E2 as (f & _ & E2). destruct (Insert x (oc_chunk c1)) as [l ok1].
  injection E2 as <- <- _ _ _.
  assert (Hopen : (exists f, s1 = set_ooo f s) /\ disk_keeps d d1).
  { unfold open_ooo_chunk in E. apply bind_Some in E as (f0 & _ & E).
    assert (Hc : ('(d, s, c, refs) ← cutNewOOOHeadChunk (s_t x) o d s0; Some (d, s, c, true, refs)) = Some (d1, s1, c1, cc1, r1) ->
      (exists f, s1 = set_ooo f s) /\ disk_keeps d d1).
    { intros ([[[d2 s2] c2] r2] & E3 & [= <- <- _ _ _])%bind_Some. by eapply Hcut. }
    destruct (oooHead f0) as [c0|]; [|by apply Hc]. case_match; [by apply Hc|]. injection E as <- <- _ _ _. split; [done|apply disk_keeps_refl]. }
  destruct Hopen as [[g ->] Hk]. split; [by eexists|done].
Qed.

Lemma series_ok_ext d d' o s f :
  series_ok d o s -> readable d s -> disk_keeps d d' ->
  series_ok d' o (set_ooo f s) /\ readable d' (set_ooo f s) /\ series_samples d' (set_ooo f s) = series_samples d s.
Proof.
  intros [A1 A2 A3 A4 A5 A6] Hr Hk. destruct (view_keeps d d' s Hr Hk) as [Hr' Ev].
  assert (Ev' : view d' (set_ooo f s) = view d s) by (by rewrite <-Ev).
  assert (Es : series_samples d' (set_ooo f s) = series_samples d s) by (unfold series_samples; by rewrite Ev').
  split; [|done]. split; rewrite ?Ev', ?Es; try done. by destruct A1.
Qed.

Lemma ooo_ok_keeps d d' s : ooo_ok d s -> disk_keeps d d' -> ooo_ok d' s /\ ooo_samples d' s = ooo_samples d s.
Proof.
  unfold ooo_ok, ooo_samples. destruct (ooo s) as [f|]; [|done]. intros [A1 A2 A3] Hk.
  assert (Ev : forall m, m ∈ oooMmappedChunks f -> mmapped_view d' m = mmapped_view d m).
  { intros m Hm. rewrite Forall_forall in A1. destruct (A1 m Hm) as [c Hc]. unfold mmapped_view. by rewrite Hc, (Hk _ _ Hc). }
  split; [split|].
  - eapply Forall_impl; [exact A1|]. intros m [c Hc]. exists c. by apply Hk.
  - rewrite Forall_forall in A2 |- *. intros m Hm. rewrite Ev by done. by apply A2.
  - done.
  - unfold fields_samples. do 2 f_equal. apply map_ext_in. intros m Hm%list_elem_of_In. by rewrite Ev.
Qed.

(** A chunk on disk has samples. *)
Lemma ooo_count d s : ooo_ok d s -> (match ooo s with
   | Some f => length (oooMmappedChunks f) + match oooHead f with Some c => length (oc_chunk c) | None => 0 end | None => 0
  end <= length (ooo_samples d s))%nat.
Proof.
  unfold ooo_ok, ooo_samples. destruct (ooo s) as [f|]; [|done]. intros [_ A2 _]. unfold fields_samples. rewrite length_app.
  assert (Hl : (length (oooMmappedChunks f) <= length (concat (map (fun m => vsamples (mmapped_view d m)) (oooMmappedChunks f))))%nat).
  { induction A2 as [|m l [(x & Hx & _) _] _ IH]; [done|]. cbn [map concat length]. rewrite length_app.
    destruct (vsamples _); [done|]. cbn [length]. lia. }
  destruct (oooHead f); cbn [length]; lia.
Qed.
End Inserts.

(** ** One series changes *)

Section Update.
  Context {H FH C L : Type} `{!EqDecision L} `{!LabelSet L}.
  Notation series := (@memSeries H FH C).
  Notation Head := (@Head H FH C L).
  Notation live := (@live H FH C L ls_Hash).

Definition tell_created (created : bool) (r prev : Z) (h : Head) : Head :=
  if created then mk_Head (onChunkCreated r prev (h_series h)) (lastSeriesID h) (numSeries h) else h.

Lemma put_series_eq r l (s s' : series) (h : Head) :
  objs h !! r = Some (l, s) -> h_series (put_series r s' h) = set_objects (<[r := (l, s')]> (objs h)) (h_series h).
Proof.
  intros Eo. unfold put_series. cbn. f_equal. apply map_eq. intros x. unfold objs in *. destruct (decide (x = r)) as [->|Hne].
  - by rewrite lookup_alter_eq, lookup_insert_eq, Eo.
  - by rewrite lookup_alter_ne, lookup_insert_ne.
Qed.

Lemma tell_created_objs b r p (h : Head) : objs (tell_created b r p h) = objs h /\ lastSeriesID (tell_created b r p h) = lastSeriesID h.
Proof.
  destruct b; [|done]. unfold objs, tell_created, onChunkCreated. cbn. split; [|done].
  destruct (objects (h_series h) !! r) as [[l s]|]; [|done]. by case_match.
Qed.

Lemma step_inv h r l (s s' : series) created :
  head_inv h -> objs h !! r = Some (l, s) -> live (h_series h) r ->
  word_ok (state s') -> isGCed (state s') = isGCed (state s) ->
  headChunkCount s' = Z.of_nat (length (headChunks s')) ->
  headChunkCount s <= headChunkCount s' <= Z.max 2 (headChunkCount s + 1) ->
  (created = false -> headChunkCount s' = headChunkCount s) ->
  let h' := tell_created created r (headChunkCount s) (put_series r s' h) in
  head_inv h' /\ (forall x, live (h_series h') x <-> live (h_series h) x) /\ objs h' = <[r := (l, s')]> (objs h).
Proof.
  intros Hi Eo Hlr Hwo Eg Hc Hcc Hcr. cbv zeta. pose proof Hi as [Hok Hw Hl Hg Hn]. pose proof (head_stripes _ _ Hok) as Hst.
  set (h' := tell_created _ _ _ _). destruct (tell_created_objs created r (headChunkCount s) (put_series r s' h)) as [Eobj Elast].
  fold h' in Eobj, Elast. pose proof (put_series_eq r l s s' h Eo) as Eput.
  assert (Eobjs : objs h' = <[r := (l, s')]> (objs h)) by (rewrite Eobj; unfold objs at 1; by rewrite Eput).
  destruct (created_ok ls_Hash (h_series h) r l s s' Hst Hlr Eo Hc Hcc) as [Hcreated Hplain].
  assert (Hstep : stepped ls_Hash (h_series h) (h_series h') r l s s' false).
  { unfold h', tell_created. destruct created; cbn [h_series].
    - rewrite Eput. apply created_stepped; lia.
    - rewrite Eput. split; try done. cbn [negb andb]. cbn. symmetry. apply alter_minus_0. unfold ready. rewrite Hcr by done. lia. }
  assert (Hst' : stripes_ok ls_Hash (h_series h')).
  { unfold h', tell_created. destruct created; cbn [h_series]; rewrite Eput; [exact Hcreated|]. by apply Hplain, Hcr. }
  assert (Hlive : forall x, live (h_series h') x <-> live (h_series h) x).
  { intros x. rewrite (stepped_live _ _ _ _ _ _ _ _ x Hst Eo Hstep). split; [by intros [? _]|by split]. }
  assert (Hobj : forall x l0 s0, objs h' !! x = Some (l0, s0) -> (x = r /\ l0 = l /\ s0 = s') \/ (x <> r /\ objs h !! x = Some (l0, s0))).
  { intros x l0 s0. rewrite Eobjs. destruct (decide (x = r)) as [->|Hne]; [rewrite lookup_insert_eq; intros [= <- <-]; by left|].
    rewrite lookup_insert_ne by done. by right. }
  split; [|done]. split.
  - split; [done|rewrite Elast; apply Hok|]. intros x [[l0 s0] Ex]. rewrite Elast. apply (head_refs _ _ Hok).
    destruct (Hobj x l0 s0 Ex) as [(-> & _ & _)|[_ E0]]; [unfold objs in Eo; by rewrite Eo|unfold objs in E0; by rewrite E0].
  - intros x l0 s0 E. destruct (Hobj x l0 s0 E) as [(_ & _ & ->)|[_ E0]]; [done|by eapply Hw].
  - intros x l0 s0 E. rewrite Hlive. destruct (Hobj x l0 s0 E) as [(-> & _ & ->)|[_ E0]]; [|by eapply Hl].
    rewrite Eg. by eapply Hl.
  - intros x l0 s0 E. destruct (Hobj x l0 s0 E) as [(-> & _ & ->)|[_ E0]]; [|by eapply Hg].
    rewrite Eg. rewrite (proj2 (Hl r l s Eo) Hlr). done.
  - intros x l0 s0 E. destruct (Hobj x l0 s0 E) as [(_ & -> & _)|[_ E0]]; by eapply Hn.
Qed.

Lemma unmark_spec h u r l (s : series) :
  head_inv h -> objs h !! r = Some (l, s) -> live (h_series h) r -> 0 < pendingCommitCount (state s) ->
  headChunkCount s = Z.of_nat (length (headChunks s)) ->
  exists h' w', releasePendingCommit r (h, u) = Some (h', u) /\
    head_inv h' /\ (forall x, live (h_series h') x <-> live (h_series h) x) /\
    pendingCommitCount w' = pendingCommitCount (state s) - 1 /\ objs h' = <[r := (l, set_state w' s)]> (objs h).
Proof.
  intros Hi Eo Hl Hp Hc. pose proof (word_unmark (state s) (hi_word _ Hi r l s Eo)) as Hu.
  unfold releasePendingCommit. cbn [fst snd]. assert (Eo' := Eo). unfold objs in Eo'. rewrite Eo'. cbn [mbind option_bind].
  destruct (unmarkPendingCommit (state s)) as [w' ok]. destruct Hu as (W1 & W2 & -> & W4 & _).
  assert (Eh : hasPendingCommit (state s) = true) by (unfold hasPendingCommit; destruct (Z.eqb_spec (pendingCommitCount (state s)) 0); [lia|done]).
  rewrite Eh. destruct (step_inv h r l s (set_state w' s) false) as (Hi2 & Hl2 & Ob2); try done; [cbn; lia|].
  exists (put_series r (set_state w' s) h), w'. split_and!; [done|done|done|lia|done].
Qed.

(** The end of the loops' body: the transactions are cleaned up and one
    reservation is released. *)
Lemma release_spec bound h u r l (s : series) :
  head_inv h -> objs h !! r = Some (l, s) -> live (h_series h) r -> 0 < pendingCommitCount (state s) ->
  headChunkCount s = Z.of_nat (length (headChunks s)) ->
  exists h' w', (h1 ← series_cleanup bound r h; releasePendingCommit r (h1, u)) = Some (h', u) /\
    head_inv h' /\ (forall x, live (h_series h') x <-> live (h_series h) x) /\
    pendingCommitCount w' = pendingCommitCount (state s) - 1 /\
    objs h' = <[r := (l, set_state w' (series_cleanupAppendIDsBelow bound s))]> (objs h).
Proof.
  intros Hi Eo Hl Hp Hc. unfold series_cleanup. assert (Eo' := Eo). unfold objs in Eo'. rewrite Eo'. cbn [mbind option_bind].
  set (s1 := series_cleanupAppendIDsBelow bound s).
  assert (Es : state s1 = state s /\ headChunkCount s1 = headChunkCount s /\ headChunks s1 = headChunks s)
    by (unfold s1, series_cleanupAppendIDsBelow; by destruct (txs s)).
  destruct Es as (E1 & E2 & E3).
  destruct (step_inv h r l s s1 false) as (Hi1 & Hl1 & Ob1); [done|done|done|rewrite E1; by eapply hi_word|by rewrite E1|by rewrite E2, E3|lia|done|].
  cbn [tell_created] in *. set (h1 := put_series r s1 h) in *.
  destruct (unmark_spec h1 u r l s1) as (h' & w' & E & Hi2 & Hl2 & Ew & Ob2); try done.
  { rewrite Ob1. apply lookup_insert_eq. }
  { by apply Hl1. }
  { by rewrite E1. }
  { by rewrite E2, E3. }
  exists h', w'. split_and!; [done|done| |by rewrite Ew, E1|by rewrite Ob2, Ob1, insert_insert_eq]. intros x. by rewrite Hl2, Hl1.
Qed.
End Update.

(** ** Committing *)

Section CommitSpec.
  Context {H FH C D L W : Type} `{!EqDecision L} `{!LabelSet L}.
  Context `{!@ChunkOps H FH C} `{!ChunkLaws C} `{!ChunkMeta C} `{!ChunkMetaLaws C} `{!DiskMapper D C} `{!DiskMapperLaws D C}.
  Context `{!HistogramOps H} `{!HistogramOps FH} `{!HistogramKind H} `{!HistogramKind FH}.
  Notation series := (@memSeries H FH C).
  Notation Head := (@Head H FH C L).
  Notation headAppender := (@headAppender H FH L).
  Notation appendBatch := (@appendBatch H FH).
  Notation smp := (@sample H FH).
  Notation walRecord := (walRecord H FH L).
  Notation live := (@live H FH C L ls_Hash).
  Notation objs := (@objs H FH C L).
  Notation commitState := (@commitState H FH C D L).
  Variable Log : W -> list walRecord -> W * option goerror.
  Variable map_order : gmap Z (list Z) -> list (Z * list Z).
  Variable h_chunkRange h_samplesPerChunk h_OutOfOrderCapMax : Z.
  (** The appender, and the head when Commit begins. *)
  Variable a : headAppender.
  Variable wbl : option W.
  Variable h0 : Head.
  Variable d0 : D.
  Variable u0 : Z.
  Variable base : Z -> Z.
  Notation o := (commit_opts h_chunkRange h_samplesPerChunk a).
  Hypothesis o_ok : opts_ok o.
  Notation commit_sample := (commit_sample map_order h_chunkRange h_samplesPerChunk h_OutOfOrderCapMax a wbl).

(** What Commit needs of a series, and keeps. *)
Definition series_fit (d : D) (s : series) : Prop :=
  series_ok d o s /\ readable d s /\ ooo_ok d s /\ (0 < a_appendID a -> is_Some (txs s)).

(** There are chunk IDs for [n] more samples. *)
Definition spare (d : D) (n : Z) (s : series) : Prop :=
  Z.of_nat (length (mmappedChunks s) + length (headChunks s)) + n < oooChunkIDMask /\
  Z.of_nat (length (ooo_samples d s)) + n < oooChunkIDMask.

(** The samples come after [lo], in order, and are not too early for the appender. *)
Definition in_order (lo : Z) (q : list smp) : Prop :=
  sorted q /\ Forall (fun x => lo < s_t x /\ a_minValidTime a <= s_t x) q.

(** The series has got some of the samples [q], each once: at the end of its
    chunks, or out of order.  It has got them all if they come in order. *)
Definition grown (ds : D) (s0 : series) (d : D) (s : series) (q : list smp) : Prop :=
  (exists ins oos, series_samples d s = series_samples ds s0 ++ ins /\ ooo_samples d s ≡ₚ oos ++ ooo_samples ds s0 /\ ins ++ oos ⊆+ q) /\
  (in_order (last_time (series_samples ds s0)) q -> series_samples d s = series_samples ds s0 ++ q).

(** The state of the loops: [rem] counts the reservations that are left, [proc]
    are the samples Commit has come to. *)
Record committing (rem : Z -> Z) (proc : Z -> list smp) (c : commitState) : Prop := {
  cm_inv : head_inv (c_head c);
  cm_count : forall r l s, objs (c_head c) !! r = Some (l, s) -> pendingCommitCount (state s) = base r + rem r;
  cm_known : forall r, 0 < rem r -> is_Some (objs (c_head c) !! r);
  cm_underflow : c_underflow c = u0;
  cm_live : forall r, live (h_series (c_head c)) r <-> live (h_series h0) r;
  cm_fit : forall r l s, objs (c_head c) !! r = Some (l, s) -> live (h_series (c_head c)) r -> series_fit (c_disk c) s /\ spare (c_disk c) (rem r) s;
  cm_grown : forall r l s, objs (c_head c) !! r = Some (l, s) -> exists s0, objs h0 !! r = Some (l, s0) /\
    (live (h_series h0) r -> grown d0 s0 (c_disk c) s (proc r)) }.

Hypothesis base_pos : forall r, 0 <= base r.

Definition step_at {A} (r : Z) (f : A -> A) (g : Z -> A) : Z -> A := fun x => if decide (x = r) then f (g x) else g x.

(** What the branches of the body do to a series: it is as it was, or has [x]
    in order, or out of order. *)
Record committed (d : D) (s : series) (x : smp) (d' : D) (s' : series) (created : bool) : Prop := {
  co_disk : disk_keeps d d';
  co_fit : series_fit d' s';
  co_framed : framed s s';
  co_chunks : Z.of_nat (length (mmappedChunks s') + length (headChunks s')) <= Z.of_nat (length (mmappedChunks s) + length (headChunks s)) + 1;
  co_ooo : Z.of_nat (length (ooo_samples d' s')) <= Z.of_nat (length (ooo_samples d s)) + 1;
  co_count : headChunkCount s <= headChunkCount s' <= headChunkCount s + 1;
  co_created : created = false -> headChunkCount s' = headChunkCount s;
  co_samples : exists ins oos, series_samples d' s' = series_samples d s ++ ins /\ ooo_samples d' s' ≡ₚ oos ++ ooo_samples d s /\
    ((ins = [] /\ oos = []) \/ (ins = [x] /\ oos = []) \/ (ins = [] /\ oos = [x]));
  co_exact : maxTime s < s_t x -> a_minValidTime a <= s_t x -> series_samples d' s' = series_samples d s ++ [x] }.

(** The sample can be refused, or go out of order. *)
Definition refusable (x : smp) (s : series) : Prop := ~ (maxTime s < s_t x /\ a_minValidTime a <= s_t x).

Lemma committed_same d s x created : series_fit d s -> refusable x s -> committed d s x d s created.
Proof.
  intros Hf Hn. split; [apply disk_keeps_refl|done|apply framed_refl|lia|lia|lia|done| |by intros ? ?; destruct Hn].
  exists [], []. rewrite app_nil_r. split_and!; [done|done|by left].
Qed.

Lemma ooo_samples_ext d (s s' : series) : ooo s' = ooo s -> ooo_samples d s' = ooo_samples d s /\ (ooo_ok d s -> ooo_ok d s').
Proof. intros E. unfold ooo_samples, ooo_ok. by rewrite E. Qed.

(** An append in order. *)
Lemma committed_append d s x r :
  series_fit d s -> adds d o s x r -> (forall s' ok cc, r = Some (s', ok, cc) -> framed s s') ->
  exists s' ok created, r = Some (s', ok, created) /\ committed d s x d s' created.
Proof.
  intros (F1 & F2 & F3 & F4) (s' & created & -> & S1 & S2 & S3 & S4 & S5 & S6 & S7) Hfr.
  exists s', (maxTime s <? s_t x), created. split; [done|]. specialize (Hfr _ _ _ eq_refl).
  destruct (ooo_samples_ext d s s' S7) as [E1 E2].
  assert (Hcc : headChunkCount s' = headChunkCount s + (if created then 1 else 0)).
  { destruct S1 as [[-> _ _] _ _ _ _ _], F1 as [[-> _ _] _ _ _ _ _]. rewrite S3. destruct created; lia. }
  split; [apply disk_keeps_refl| |done|..].
  - split_and!; [done|unfold readable; by rewrite S5|by apply E2|]. intros Hid. apply Hfr, F4, Hid.
  - rewrite S3, S5. destruct created; lia.
  - rewrite E1. lia.
  - destruct created; lia.
  - intros ->. lia.
  - exists (if maxTime s <? s_t x then [x] else []), []. rewrite S2, E1. split_and!; [done|done|].
    destruct (maxTime s <? s_t x); [right; by left|by left].
  - intros Ht _. rewrite S2. by destruct (Z.ltb_spec (maxTime s) (s_t x)); [|lia].
Qed.

(** An insert out of order. *)
Lemma committed_insert d s x :
  series_fit d s -> Z.of_nat (length (ooo_samples d s)) < oooChunkIDMask -> is_i64 (s_t x) -> refusable x s ->
  exists d' s' ok created refs, insert x o h_OutOfOrderCapMax d s = Some (d', s', ok, created, refs) /\ committed d s x d' s' created.
Proof.
  intros (F1 & F2 & F3 & F4) Hroom Hx Hn.
  assert (Hr : ooo_room s).
  { pose proof (ooo_count d s F3) as Hc. unfold ooo_room. destruct (ooo s); [|done]. lia. }
  destruct (insert_spec d o s x h_OutOfOrderCapMax F3 Hr Hx) as (d' & s' & ok & created & refs & E & G1 & G2 & G3 & _ & _ & G4).
  exists d', s', ok, created, refs. split; [done|].
  destruct (insert_frame _ _ _ _ _ _ _ _ _ _ E) as [[f ->] Hk]. destruct (series_ok_ext d d' o s f F1 F2 Hk) as (S1 & S2 & S3).
  assert (Hlen : (length (ooo_samples d' (set_ooo f s)) <= length (ooo_samples d s) + 1)%nat).
  { rewrite G4, length_app. destruct ok; cbn; lia. }
  split; cbn [headChunkCount mmappedChunks headChunks set_ooo]; [done|by split_and!|by apply framed_same|lia|lia|lia|done| |by intros ? ?; destruct Hn].
  exists [], (if ok then [x] else []). rewrite S3, app_nil_r. split_and!; [done|done|]. destruct ok; [right; by right|by left].
Qed.

Lemma grown_keeps s0 d s d' q : ooo_ok d s -> readable d s -> disk_keeps d d' -> grown d0 s0 d s q -> grown d0 s0 d' s q.
Proof.
  intros H1 H2 Hk. unfold grown. destruct (ooo_ok_keeps d d' s H1 Hk) as [_ ->]. 
  assert (Es : series_samples d' s = series_samples d s) by (unfold series_samples; by destruct (view_keeps d d' s H2 Hk) as [_ ->]).
  by rewrite Es.
Qed.

Lemma fit_keeps d s d' n : series_fit d s -> spare d n s -> disk_keeps d d' -> series_fit d' s /\ spare d' n s.
Proof.
  intros (F1 & F2 & F3 & F4) [P1 P2] Hk. assert (Es : s = set_ooo (ooo s) s) by (by destruct s).
  destruct (series_ok_ext d d' o s (ooo s) F1 F2 Hk) as (S1 & S2 & _). rewrite <-Es in S1, S2.
  destruct (ooo_ok_keeps d d' s F3 Hk) as [O1 O2]. unfold spare. rewrite O2. by split_and!.
Qed.

Lemma last_time_snoc (l : list smp) q x : sorted (q ++ [x]) -> last_time l < s_t x -> last_time (l ++ q) < s_t x.
Proof.
  intros Hs Hl. destruct q as [|y q _] using rev_ind; [by rewrite app_nil_r|]. unfold last_time. rewrite app_assoc, last_snoc.
  apply (StronglySorted_app_1_elem_of _ _ _ y x Hs); [|by left]. apply elem_of_app. right. by left.
Qed.

Lemma in_order_snoc lo q x : in_order lo (q ++ [x]) -> in_order lo q /\ sorted (q ++ [x]) /\ lo < s_t x /\ a_minValidTime a <= s_t x.
Proof.
  intros [Hs Hf]. apply Forall_app in Hf as [Hq Hx]. apply Forall_cons in Hx as [[X1 X2] _]. split; [|done].
  split; [|done]. by apply StronglySorted_app_1_l in Hs.
Qed.

Lemma grown_step s0 d s x d' s' created q :
  series_fit d s -> grown d0 s0 d s q -> committed d s x d' s' created -> grown d0 s0 d' s' (q ++ [x]).
Proof.
  intros (Hok & _) [(ins & oos & E1 & E2 & E3) Hex] [_ _ _ _ _ _ _ (i & oo & F1 & F2 & F3) Hexact]. split; cycle 1.
  { intros (Hq & Hs & Hlo & Hmin)%in_order_snoc. specialize (Hex Hq). rewrite app_assoc, <-Hex. apply Hexact; [|done].
    rewrite (maxTime_last _ _ _ Hok), Hex. by apply last_time_snoc. }
  exists (ins ++ i), (oo ++ oos). rewrite F1, E1, F2, E2. rewrite !app_assoc. split_and!; [done|done|].
  assert (Hx : i ++ oo ⊆+ [x]).
  { destruct F3 as [[-> ->]|[[-> ->]|[-> ->]]]; cbn; [apply submseteq_nil_l|done|done]. }
  transitivity ((ins ++ oos) ++ (i ++ oo)); [|by apply submseteq_app].
  apply Permutation_submseteq. rewrite <-!app_assoc. f_equiv. rewrite (Permutation_app_comm oo oos), (app_assoc i), (Permutation_app_comm i oos).
  by rewrite <-!app_assoc.
Qed.
Lemma tidied b w d s :
  let s1 := set_state w (series_cleanupAppendIDsBelow b s) in
  (series_fit d s -> series_fit d s1) /\ (forall n, spare d n s -> spare d n s1) /\
  (forall s0 q, grown d0 s0 d s q -> grown d0 s0 d s1 q).
Proof.
  unfold series_cleanupAppendIDsBelow. split_and!.
  - intros ([[A1 A2 A3] B1 B2 B3 B4 B5] & F2 & F3 & F4).
    destruct (txs s) eqn:E; (split; [by split; [split|..]|split; [done|split; [done|]]]); cbn; intros Ha; [by eexists|by rewrite E; apply F4].
  - intros n Hs. by destruct (txs s).
  - intros s0 q Hg. by destruct (txs s).
Qed.

Lemma step_at_eq {A} r (f : A -> A) g : step_at r f g r = f (g r).
Proof. unfold step_at. by rewrite decide_True. Qed.

Lemma step_at_ne {A} r (f : A -> A) g x : x <> r -> step_at r f g x = g x.
Proof. intros. unfold step_at. by rewrite decide_False. Qed.

(** An append as the loops use it. *)
Definition appends (x : smp) (check : series -> bool * Z * option append_error) (append : series -> option (series * bool * bool)) : Prop :=
  time_ok o (s_t x) /\
  (forall s, ~ refusable x s -> check s = (false, 0, None)) /\
  (forall d s, series_ok d o s -> room s -> (0 < a_appendID a -> is_Some (txs s)) -> adds d o s x (append s)) /\
  (forall s s' ok cc, append s = Some (s', ok, cc) -> framed s s').

(** The three branches of the body. *)
Lemma branch_spec x check append (ooo_note : @commitContext H FH L -> @commitContext H FH L) (created : bool) r n acc d s :
  appends x check append -> series_fit d s -> 0 < n -> spare d n s ->
  exists d' s' acc' created',
    match (check s : bool * Z * option append_error) with
    | (_, _, Some _) => Some (d, s, acc, created)
    | (true, _, None) =>
        '(d, s, ok, chunkCreated, mmapRefs) ← insert x o h_OutOfOrderCapMax d s;
        let acc := if (chunkCreated : bool) then note_markers map_order a wbl r mmapRefs acc else acc in
        Some (d, s, if (ok : bool) then ooo_note acc else acc, chunkCreated)
    | (false, _, None) =>
        '(s, ok, chunkCreated) ← append s;
        Some (d, s, if (ok : bool) then note_in_order (s_t x) acc else acc, chunkCreated)
    end = Some (d', s', acc', created') /\ committed d s x d' s' created'.
Proof.
  intros (Ht & Hch & Hadd & Hfr) Hf Hn [P1 P2]. specialize (Hch s). destruct (check s) as [[[] z] [e|]].
  - eexists _, _, _, _. split; [done|]. apply committed_same; [done|]. by intros Hr; discriminate (Hch (fun Hn => Hn Hr)).
  - destruct (committed_insert d s x Hf ltac:(lia)) as (d' & s' & ok & cr & refs & -> & Hc).
    { destruct Ht as [T1 T2], o_ok. unfold is_i64. lia. }
    { by intros Hr; discriminate (Hch (fun Hn => Hn Hr)). }
    eexists _, _, _, _. by split.
  - eexists _, _, _, _. split; [done|]. apply committed_same; [done|]. by intros Hr; discriminate (Hch (fun Hn => Hn Hr)).
  - assert (Ha : adds d o s x (append s)) by (apply Hadd; [apply Hf|unfold room; lia|apply Hf]).
    destruct (committed_append d s x _ Hf Ha (Hfr s)) as (s' & ok & cr & -> & Hc). eexists _, _, _, _. by split.
Qed.

(** One reservation of the series [r] is released, and [r] goes from [s] to [s']. *)
Lemma committing_update rem proc c r l s s' h' d' acc' f :
  committing rem proc c -> objs (c_head c) !! r = Some (l, s) ->
  head_inv h' -> (forall x, live (h_series h') x <-> live (h_series (c_head c)) x) -> objs h' = <[r := (l, s')]> (objs (c_head c)) ->
  pendingCommitCount (state s') = pendingCommitCount (state s) - 1 -> disk_keeps (c_disk c) d' ->
  series_fit d' s' -> spare d' (rem r - 1) s' -> (forall s0, grown d0 s0 (c_disk c) s (proc r) -> grown d0 s0 d' s' (f (proc r))) ->
  committing (step_at r Z.pred rem) (step_at r f proc) (mk_commitState h' d' u0 acc').
Proof.
  intros [Hi Hcnt Hkn Hu Hlv Hfit Hgr] Eo Hi' Hl' Ob Ep Hk F S G.
  assert (Hob : forall x0 l0 s0, objs h' !! x0 = Some (l0, s0) ->
    (x0 = r /\ l0 = l /\ s0 = s') \/ (x0 <> r /\ objs (c_head c) !! x0 = Some (l0, s0))).
  { intros x0 l0 s0. rewrite Ob. destruct (decide (x0 = r)) as [->|Hne].
    - rewrite lookup_insert_eq. intros [= <- <-]. by left.
    - rewrite lookup_insert_ne by done. by right. }
  split; cbn [c_head c_disk c_underflow c_acc].
  - done.
  - intros x0 l0 s0 [(-> & -> & ->)|[Hne E0]]%Hob; [rewrite step_at_eq; specialize (Hcnt r l s Eo); lia|].
    rewrite step_at_ne by done. by eapply Hcnt.
  - intros x0 Hx0. rewrite Ob. destruct (decide (x0 = r)) as [->|Hne]; [by rewrite lookup_insert_eq|].
    rewrite lookup_insert_ne by done. rewrite step_at_ne in Hx0 by done. by apply Hkn.
  - done.
  - intros x0. by rewrite Hl'.
  - intros x0 l0 s0 [(-> & -> & ->)|[Hne E0]]%Hob Hlx; [by rewrite step_at_eq|].
    rewrite step_at_ne by done. destruct (Hfit x0 l0 s0 E0) as [F' S']; [by rewrite <-Hl'|]. by eapply fit_keeps.
  - intros x0 l0 s0 [(-> & -> & ->)|[Hne E0]]%Hob.
    + destruct (Hgr r l s Eo) as (s0 & E0 & Hg). exists s0. split; [done|]. intros Hlx. rewrite step_at_eq. by apply G, Hg.
    + destruct (Hgr x0 l0 s0 E0) as (s1 & E1 & Hg). exists s1. split; [done|]. intros Hlx. rewrite step_at_ne by done.
      destruct (Hfit x0 l0 s0 E0 (proj2 (Hlv x0) Hlx)) as [(F1 & F2 & F3 & _) _]. eapply grown_keeps; [done|done|done|by apply Hg].
Qed.

(** A series that has a reservation of the appender. *)
Lemma committing_series rem proc c r :
  committing rem proc c -> 0 < rem r ->
  exists l s, objs (c_head c) !! r = Some (l, s) /\ live (h_series (c_head c)) r /\ 0 < pendingCommitCount (state s) /\
    headChunkCount s = Z.of_nat (length (headChunks s)) /\ series_fit (c_disk c) s /\ spare (c_disk c) (rem r) s.
Proof.
  intros [Hi Hcnt Hkn Hu Hlv Hfit Hgr] Hr. destruct (Hkn r Hr) as [[l s] Eo].
  pose proof (Hcnt r l s Eo) as Ep. pose proof (base_pos r) as Hb. assert (Hp : 0 < pendingCommitCount (state s)) by lia.
  assert (Hl : live (h_series (c_head c)) r) by (eapply reserved_live; [done|exact Eo|done]).
  destruct (Hfit r l s Eo Hl) as [Hf Hs]. exists l, s. do 3 (split; [done|]). split; [|done].
  by destruct Hf as ([[-> _ _] _ _ _ _ _] & _).
Qed.

Lemma commit_sample_spec rem proc c r x check append ooo_note created :
  committing rem proc c -> 0 < rem r -> appends x check append ->
  exists c' created', commit_sample r x check append ooo_note created c = Some (c', created') /\
    committing (step_at r Z.pred rem) (step_at r (fun q => q ++ [x]) proc) c'.
Proof.
  intros Hcm Hr Hx. destruct (committing_series rem proc c r Hcm Hr) as (l & s & Eo & Hl & Hp & _ & Hf & Hs).
  destruct (branch_spec x check append ooo_note created r (rem r) (c_acc c) _ s Hx Hf Hr Hs) as (d' & s' & acc' & cr & E & Hco).
  pose proof Hco as [K1 K2 [K3 _] K4 K5 K6 K7 _ _]. pose proof (cm_inv _ _ _ Hcm) as Hi.
  destruct (K3 (hi_word _ Hi r l s Eo)) as (W1 & W2 & W3).
  assert (Hc' : headChunkCount s' = Z.of_nat (length (headChunks s'))) by (destruct K2 as ([[-> _ _] _ _ _ _ _] & _); done).
  destruct (step_inv _ r l s s' cr Hi Eo Hl W1 W2 Hc' ltac:(lia) K7) as (Hi1 & Hl1 & Ob1). cbv zeta in *.
  set (h1 := tell_created cr r (headChunkCount s) (put_series r s' (c_head c))) in *.
  assert (Eo1 : objs h1 !! r = Some (l, s')) by (rewrite Ob1; apply lookup_insert_eq).
  destruct (release_spec (a_cleanupAppendIDsBelow a) h1 u0 r l s' Hi1 Eo1 (proj2 (Hl1 r) Hl) ltac:(lia) Hc') as (h' & w' & E2 & Hi2 & Hl2 & Ew & Ob2).
  apply bind_Some in E2 as (h2 & E2 & E3).
  exists (mk_commitState h' d' u0 acc'), cr. split.
  { unfold HeadCommit.commit_sample. unfold objs in Eo. rewrite Eo. cbn [mbind option_bind]. rewrite E. cbn [mbind option_bind].
    change (if cr then _ else _) with h1. rewrite E2. cbn [mbind option_bind]. by rewrite (cm_underflow _ _ _ Hcm), E3. }
  destruct (tidied (a_cleanupAppendIDsBelow a) w' d' s') as (T1 & T2 & T3).
  eapply committing_update; [done|exact Eo|done|by intros x0; rewrite Hl2, Hl1|by rewrite Ob2, Ob1, insert_insert_eq|cbn; lia|done|by apply T1| |].
  - apply T2. destruct Hs as [S1 S2]. split; lia.
  - intros s0 Hg. apply T3. by eapply grown_step; [exact Hf|exact Hg|exact Hco].
Qed.

(** ** The loops *)

(** How a sample may be committed: as it is, or a staleness marker as that of a
    kind of histograms. *)
Inductive stale_form : smp -> smp -> Prop :=
  | form_same x : stale_form x x
  | form_histogram st t v : IsStaleNaN v = true -> stale_form (mk_sample st t v None None) (mk_sample st t 0 (Some (stale_of v)) None)
  | form_floatHistogram st t v : IsStaleNaN v = true -> stale_form (mk_sample st t v None None) (mk_sample st t 0 None (Some (stale_of v))).

Lemma stale_form_trans x y z : stale_form x y -> stale_form y z -> stale_form x z.
Proof. intros [] H2; inversion H2; subst; try by constructor. Qed.

Lemma forms_replace (l q p : list smp) x y :
  Forall2 stale_form l q -> q ≡ₚ x :: p -> stale_form x y -> exists q', Forall2 stale_form l q' /\ q' ≡ₚ y :: p.
Proof.
  intros Hl Hq Hxy. assert (Hx : x ∈ q) by (rewrite Hq; by left). apply list_elem_of_split in Hx as (q1 & q2 & ->).
  apply Forall2_app_inv_r in Hl as (l1 & l2 & H1 & H2 & ->). apply Forall2_cons_inv_r in H2 as (w & l3 & Hw & H3 & ->).
  exists (q1 ++ y :: q2). split.
  - apply Forall2_app; [done|]. constructor; [by eapply stale_form_trans|done].
  - rewrite <-Permutation_middle in Hq |- *. by apply Permutation_cons_inv in Hq as ->.
Qed.

(** Marks staleness by a float. *)
Definition stale_float (x : smp) : Prop := s_h x = None /\ s_fh x = None /\ IsStaleNaN (s_f x) = true.

(** What Commit has come to, [proc], and what is [left] of the queued samples. *)
Definition progress (left : Z -> list smp) (c : commitState) : Prop :=
  exists proc, committing (fun r => Z.of_nat (length (left r)) + created_count r (a_series a)) proc c /\
    forall r, (exists q, Forall2 stale_form (commit_order r a) q /\ q ≡ₚ proc r ++ left r) /\
      (Forall (fun x => ~ stale_float x) (commit_order r a) -> proc r ++ left r = commit_order r a).

Lemma committing_ext rem rem' proc proc' c :
  (forall r, rem' r = rem r) -> (forall r, proc' r = proc r) -> committing rem proc c -> committing rem' proc' c.
Proof.
  intros E1 E2 [H1 H2 H3 H4 H5 H6 H7]. split; try done.
  - intros r. rewrite E1. apply H2.
  - intros r. rewrite E1. apply H3.
  - intros r. rewrite E1. apply H6.
  - intros r. rewrite E2. apply H7.
Qed.

(** [x] is a sample of the series [r]. *)
Definition here {A} (r : Z) (x : A) (q : Z) : list A := if decide (q = r) then [x] else [].

Lemma of_series_cons {V B} (f : RefValue V -> B) x l r : map f (of_series r (x :: l)) = here (rv_Ref x) (f x) r ++ map f (of_series r l).
Proof. unfold of_series, here. cbn. destruct (Z.eqb_spec (rv_Ref x) r), (decide (r = rv_Ref x)); by subst. Qed.

Lemma progress_ext left left' c : (forall r, left' r = left r) -> progress left c -> progress left' c.
Proof.
  intros E (proc & Hc & Hq). exists proc. split; [|intros r; rewrite E; apply Hq].
  eapply committing_ext; [|reflexivity|exact Hc]. intros r. cbn. by rewrite E.
Qed.

Lemma progress_known left c r x : progress (fun q => here r x q ++ left q) c -> is_Some (objs (c_head c) !! r).
Proof.
  intros (proc & Hc & _). apply (cm_known _ _ _ Hc). unfold here. rewrite decide_True by done. cbn.
  pose proof (created_count_nonneg r (a_series a)). lia.
Qed.

(** A staleness marker becomes that of a kind of histograms and goes to the end
    of [back]. *)
Lemma progress_stale front back r x y c :
  stale_float x -> stale_form x y ->
  progress (fun q => here r x q ++ front q ++ back q) c -> progress (fun q => front q ++ here r y q ++ back q) c.
Proof.
  intros Hst Hxy (proc & Hc & Hq). exists proc. split.
  { eapply committing_ext; [|reflexivity|exact Hc]. intros q. cbn. unfold here. destruct (decide (q = r)); rewrite !length_app; cbn; lia. }
  intros q. destruct (Hq q) as [(q0 & F & P) Hno]. unfold here in *. destruct (decide (q = r)) as [->|]; [|by split; [exists q0|]].
  assert (P' : q0 ≡ₚ x :: proc r ++ front r ++ back r) by (rewrite P; by rewrite (Permutation_middle (proc r))).
  split.
  - destruct (forms_replace _ _ _ x y F P' Hxy) as (q1 & F1 & P1). exists q1. split; [done|]. rewrite P1.
    cbn. rewrite (app_assoc _ (front r)), (Permutation_middle (proc r ++ front r)). by rewrite <-app_assoc.
  - intros Hall. specialize (Hno Hall). exfalso. rewrite <-Hno in Hall. rewrite Forall_forall in Hall. apply (Hall x); [|done].
    apply elem_of_app. right. by left.
Qed.

Lemma progress_commit left r x check append ooo_note created c :
  progress (fun q => here r x q ++ left q) c -> appends x check append ->
  exists c' created', commit_sample r x check append ooo_note created c = Some (c', created') /\ progress left c'.
Proof.
  intros (proc & Hc & Hq) Hx. pose proof (created_count_nonneg r (a_series a)) as Hn.
  destruct (commit_sample_spec _ _ c r x check append ooo_note created Hc) as (c' & cr & E & Hc'); [|done|].
  { unfold here. rewrite decide_True by done. cbn. lia. }
  exists c', cr. split; [done|]. exists (step_at r (fun q => q ++ [x]) proc). split.
  - eapply committing_ext; [|reflexivity|exact Hc']. intros q. unfold step_at, here. destruct (decide (q = r)); [|done].
    rewrite length_app. cbn. lia.
  - intros q. specialize (Hq q). unfold step_at, here in *. destruct (decide (q = r)); [|done]. by rewrite <-app_assoc.
Qed.

(** ** The loops go through *)

Lemma in_order_accepted t dup w (s : series) : ~ (~ (maxTime s < t /\ a_minValidTime a <= t)) ->
  (if a_minValidTime a <=? t then
     match headChunks s with
     | [] => (false, 0, None)
     | _ => if maxTime s <? t then (false, 0, None) else dup
     end
   else w) = (false, 0, None : option append_error).
Proof.
  intros Hn. assert (Ht : maxTime s < t /\ a_minValidTime a <= t) by lia. destruct Ht as [H1 H2].
  rewrite (proj2 (Z.leb_le _ _) H2), (proj2 (Z.ltb_lt _ _) H1). by destruct (headChunks s).
Qed.

Lemma kinds_append :
  (forall x, time_ok o (rv_T x) -> appends (float_sample x)
     (appendable (rv_T x) (rv_V x) (a_headMaxt a) (a_minValidTime a) (a_oooTimeWindow a))
     (append (rv_ST x) (rv_T x) (rv_V x) (a_appendID a) o)) /\
  (forall x, time_ok o (rv_T x) -> appends (histogram_sample x)
     (appendableHistogram (rv_T x) (rv_V x) (a_headMaxt a) (a_minValidTime a) (a_oooTimeWindow a))
     (appendHistogram (rv_ST x) (rv_T x) (rv_V x) (a_appendID a) o)) /\
  (forall x, time_ok o (rv_T x) -> appends (floatHistogram_sample x)
     (appendableFloatHistogram (rv_T x) (rv_V x) (a_headMaxt a) (a_minValidTime a) (a_oooTimeWindow a))
     (appendFloatHistogram (rv_ST x) (rv_T x) (rv_V x) (a_appendID a) o)).
Proof.
  split_and!; intros x Ht; (split; [exact Ht|split; [intros s Hn; by apply in_order_accepted|split]]).
  1,3,5: intros d s H1 H2 H3; apply (appends_adds d o s (rv_ST x) (rv_T x) (a_appendID a) o_ok Ht H1 H2 H3).
  - intros s s' ok cc. apply append_framed.
  - intros s s' ok cc. apply appendHistogram_framed.
  - intros s s' ok cc. apply appendFloatHistogram_framed.
Qed.

Definition times_ok (b : appendBatch) : Prop :=
  Forall (fun x => time_ok o (rv_T x)) (floats b) /\ Forall (fun x => time_ok o (rv_T x)) (histograms b) /\
  Forall (fun x => time_ok o (rv_T x)) (floatHistograms b).

Definition back_order (b : appendBatch) (rest : Z -> list smp) (r : Z) : list smp :=
  map histogram_sample (of_series r (histograms b)) ++ map floatHistogram_sample (of_series r (floatHistograms b)) ++ rest r.

Notation commitFloats := (commitFloats map_order h_chunkRange h_samplesPerChunk h_OutOfOrderCapMax a wbl).
Notation commit_batch := (commit_batch map_order h_chunkRange h_samplesPerChunk h_OutOfOrderCapMax a wbl).
Notation commit_batches := (commit_batches map_order h_chunkRange h_samplesPerChunk h_OutOfOrderCapMax a wbl).

Lemma of_series_snoc {V B} (f : RefValue V -> B) l x r : map f (of_series r (l ++ [x])) = map f (of_series r l) ++ here (rv_Ref x) (f x) r.
Proof. unfold of_series. rewrite List.filter_app, map_app. f_equal. rewrite <-(app_nil_r (here _ _ _)). apply (of_series_cons f x []). Qed.

Lemma commitFloats_spec rest l : forall created b c,
  Forall (fun x => time_ok o (rv_T x)) l -> times_ok b ->
  progress (fun r => map float_sample (of_series r l) ++ back_order b rest r) c ->
  exists b' c', commitFloats l created b c = Some (b', c') /\ times_ok b' /\ progress (back_order b' rest) c'.
Proof.
  induction l as [|x l IH]; intros created b c Hl Hb Hp; cbn [HeadCommit.commitFloats].
  { exists b, c. by split. }
  apply Forall_cons in Hl as [Hx Hl].
  assert (Hp' : progress (fun r => here (rv_Ref x) (float_sample x) r ++ map float_sample (of_series r l) ++ back_order b rest r) c).
  { eapply progress_ext; [|exact Hp]. intros r. cbn beta. by rewrite of_series_cons, <-app_assoc. }
  destruct (progress_known _ _ _ _ Hp') as [[ls s] Eo]. unfold objs in Eo. rewrite Eo. cbn [mbind option_bind].
  assert (Hcommit : exists b' c', ('(c, cr) ← commit_float map_order h_chunkRange h_samplesPerChunk h_OutOfOrderCapMax a wbl x created c;
      commitFloats l cr b c) = Some (b', c') /\ times_ok b' /\ progress (back_order b' rest) c').
  { destruct (progress_commit _ _ _ _ _ (note_ooo (rv_T x) [x] [] []) created c Hp' (proj1 kinds_append x Hx)) as (c' & cr & E & Hc').
    unfold commit_float. rewrite E. cbn [mbind option_bind]. by apply IH. }
  destruct (IsStaleNaN (rv_V x)) eqn:Es; cbn [andb]; [|exact Hcommit].
  assert (Hst : stale_float (float_sample x)) by done.
  case_bool_decide.
  { apply IH; [done|destruct Hb as (B1 & B2 & B3); split_and!; [done|by apply Forall_app; split; [|constructor]|done]|].
    eapply progress_ext; [|eapply (progress_stale (fun r => map float_sample (of_series r l) ++ map histogram_sample (of_series r (histograms b)))
      (fun r => map floatHistogram_sample (of_series r (floatHistograms b)) ++ rest r) (rv_Ref x) _ _ c Hst (form_histogram _ _ _ Es))].
    - intros r. unfold back_order. cbn [add_histogram histograms floatHistograms]. rewrite of_series_snoc. by rewrite <-!app_assoc.
    - eapply progress_ext; [|exact Hp']. intros r. unfold back_order. by rewrite <-!app_assoc. }
  case_bool_decide.
  { apply IH; [done|destruct Hb as (B1 & B2 & B3); split_and!; [done|done|by apply Forall_app; split; [|constructor]]|].
    eapply progress_ext; [|eapply (progress_stale (fun r => map float_sample (of_series r l) ++ map histogram_sample (of_series r (histograms b)) ++
        map floatHistogram_sample (of_series r (floatHistograms b))) rest (rv_Ref x) _ _ c Hst (form_floatHistogram _ _ _ Es))].
    - intros r. unfold back_order. cbn [add_floatHistogram histograms floatHistograms]. rewrite of_series_snoc. by rewrite <-!app_assoc.
    - eapply progress_ext; [|exact Hp']. intros r. unfold back_order. by rewrite <-!app_assoc. }
  exact Hcommit.
Qed.

Lemma commit_loop_spec {V} (f : RefValue V -> smp) (body : RefValue V -> bool -> commitState -> option (commitState * bool)) rest l :
  (forall x left created c, time_ok o (rv_T x) -> progress (fun q => here (rv_Ref x) (f x) q ++ left q) c ->
     exists c' created', body x created c = Some (c', created') /\ progress left c') ->
  forall created c, Forall (fun x => time_ok o (rv_T x)) l -> progress (fun r => map f (of_series r l) ++ rest r) c ->
  exists c', commit_loop body l created c = Some c' /\ progress rest c'.
Proof.
  intros Hbody. induction l as [|x l IH]; intros created c Hl Hp; cbn [commit_loop]; [by exists c|].
  apply Forall_cons in Hl as [Hx Hl].
  destruct (Hbody x (fun r => map f (of_series r l) ++ rest r) created c Hx) as (c1 & cr & E & Hp1).
  { eapply progress_ext; [|exact Hp]. intros r. cbn beta. by rewrite of_series_cons, <-app_assoc. }
  rewrite E. cbn [mbind option_bind]. by apply IH.
Qed.

Lemma commit_batch_spec rest b c :
  times_ok b -> progress (fun r => batch_order r b ++ rest r) c -> exists c', commit_batch b c = Some c' /\ progress rest c'.
Proof.
  intros Hb Hp. unfold HeadCommit.commit_batch, commitHistograms, commitFloatHistograms.
  destruct (commitFloats_spec rest (floats b) false b c) as (b1 & c1 & E1 & (_ & B2 & B3) & Hp1); [apply Hb|done| |].
  { eapply progress_ext; [|exact Hp]. intros r. unfold back_order, batch_order. by rewrite <-!app_assoc. }
  rewrite E1. cbn [mbind option_bind].
  destruct (commit_loop_spec histogram_sample (commit_histogram map_order h_chunkRange h_samplesPerChunk h_OutOfOrderCapMax a wbl)
    (fun r => map floatHistogram_sample (of_series r (floatHistograms b1)) ++ rest r) (histograms b1)) with (created := false) (c := c1)
    as (c2 & E2 & Hp2); [|done|done|].
  { intros x left cr c0 Hx Hp0. eapply progress_commit; [exact Hp0|by apply kinds_append]. }
  rewrite E2. cbn [mbind option_bind].
  eapply (commit_loop_spec floatHistogram_sample); [|done|exact Hp2].
  intros x left cr c0 Hx Hp0. eapply progress_commit; [exact Hp0|by apply kinds_append].
Qed.

Lemma commit_batches_spec bs : forall c,
  Forall times_ok bs -> progress (fun r => concat (map (batch_order r) bs)) c -> exists c', commit_batches bs c = Some c' /\ progress (fun _ => []) c'.
Proof.
  induction bs as [|b bs IH]; intros c Hb Hp; cbn [HeadCommit.commit_batches]; [by exists c|]. apply Forall_cons in Hb as [Hb Hbs].
  destruct (commit_batch_spec (fun r => concat (map (batch_order r) bs)) b c Hb Hp) as (c1 & E & Hp1). rewrite E. by apply IH.
Qed.

(** ** Releasing what is left *)

Lemma marked w d s : (series_fit d s -> series_fit d (set_state w s)) /\ (forall n, spare d n s -> spare d n (set_state w s)) /\
  (forall s0 q, grown d0 s0 d s q -> grown d0 s0 d (set_state w s) q).
Proof. split_and!; [|done|done]. intros ([[A1 A2 A3] B1 B2 B3 B4 B5] & F). by split; [split; [split|..]|]. Qed.

Lemma spare_less d n m s : spare d n s -> m <= n -> spare d m s.
Proof. intros [S1 S2] Hm. split; lia. Qed.

(** A step that releases one reservation and adds no sample. *)
Definition releases (step : Z -> Head * Z -> option (Head * Z)) : Prop :=
  forall rem proc c r, committing rem proc c -> 0 < rem r ->
    exists h', step r (c_head c, u0) = Some (h', u0) /\ committing (step_at r Z.pred rem) proc (mk_commitState h' (c_disk c) u0 (c_acc c)).

Lemma release_releases : releases releasePendingCommit.
Proof.
  intros rem proc c r Hc Hr. destruct (committing_series rem proc c r Hc Hr) as (l & s & Eo & Hl & Hp & Hn & Hf & Hs).
  destruct (unmark_spec (c_head c) u0 r l s (cm_inv _ _ _ Hc) Eo Hl Hp Hn) as (h' & w' & E & Hi & Hl' & Ew & Ob).
  exists h'. split; [done|]. destruct (marked w' (c_disk c) s) as (M1 & M2 & M3).
  apply (committing_ext (step_at r Z.pred rem) _ (step_at r id proc)); [done|intros q; unfold step_at; by case_decide|].
  eapply committing_update; [done|exact Eo|done|done|exact Ob|done|apply disk_keeps_refl|by apply M1| |exact (fun s0 => M3 s0 _)].
  apply M2. eapply spare_less; [exact Hs|lia].
Qed.

Lemma roll_releases : releases (roll_entry a).
Proof.
  intros rem proc c r Hc Hr. destruct (committing_series rem proc c r Hc Hr) as (l & s & Eo & Hl & Hp & Hn & Hf & Hs).
  destruct (release_spec (a_cleanupAppendIDsBelow a) (c_head c) u0 r l s (cm_inv _ _ _ Hc) Eo Hl Hp Hn) as (h' & w' & E & Hi & Hl' & Ew & Ob).
  exists h'. split; [done|]. destruct (tidied (a_cleanupAppendIDsBelow a) w' (c_disk c) s) as (M1 & M2 & M3).
  apply (committing_ext (step_at r Z.pred rem) _ (step_at r id proc)); [done|intros q; unfold step_at; by case_decide|].
  eapply committing_update; [done|exact Eo|done|done|exact Ob|done|apply disk_keeps_refl|by apply M1| |exact (fun s0 => M3 s0 _)].
  apply M2. eapply spare_less; [exact Hs|lia].
Qed.

Lemma created_count_cons r x l : created_count r (x :: l) = created_count r l + (if decide (r = x) then 1 else 0).
Proof. unfold created_count. cbn. destruct (Z.eqb_spec r x), (decide (r = x)); cbn; try done; lia. Qed.

Lemma releases_all step loop :
  releases step -> (forall h, loop [] h = Some h) -> (forall r l h, loop (r :: l) h = (h ← step r h; loop l h)) ->
  forall l rem proc c, (forall r, 0 <= rem r) -> committing (fun r => created_count r l + rem r) proc c ->
  exists h', loop l (c_head c, u0) = Some (h', u0) /\ committing rem proc (mk_commitState h' (c_disk c) u0 (c_acc c)).
Proof.
  intros Hstep Hnil Hcons l. induction l as [|x l IH]; intros rem proc c Hr Hc.
  - exists (c_head c). split; [apply Hnil|]. destruct Hc; split; try done.
  - rewrite Hcons. pose proof (created_count_nonneg x l) as Hn. specialize (Hr x) as Hrx.
    destruct (Hstep _ proc c x Hc) as (h1 & E & Hc1).
    { rewrite created_count_cons, decide_True by done. lia. }
    rewrite E. cbn [mbind option_bind]. eapply (IH rem proc (mk_commitState h1 (c_disk c) u0 (c_acc c))); [done|].
    eapply committing_ext; [|reflexivity|exact Hc1]. intros r. unfold step_at. rewrite created_count_cons. destruct (decide (r = x)); lia.
Qed.

Lemma created_spec proc c :
  committing (fun r => created_count r (a_series a)) proc c ->
  exists h', releaseCreatedSeriesReservations (a_series a) (c_head c, u0) = Some (h', u0) /\
    committing (fun _ => 0) proc (mk_commitState h' (c_disk c) u0 (c_acc c)).
Proof.
  intros Hc. apply (releases_all releasePendingCommit); [apply release_releases|done|done|done|].
  eapply committing_ext; [|reflexivity|exact Hc]. intros r. cbn. lia.
Qed.

Lemma count_refs {V} r (l : list (RefValue V)) : created_count r (map rv_Ref l) = Z.of_nat (length (of_series r l)).
Proof.
  induction l as [|x l IH]; [done|]. cbn [map]. rewrite created_count_cons, IH. unfold of_series. cbn.
  destruct (Z.eqb_spec (rv_Ref x) r), (decide (r = rv_Ref x)); subst; cbn; try done; lia.
Qed.

Lemma count_app r l l' : created_count r (l ++ l') = created_count r l + created_count r l'.
Proof. unfold created_count. rewrite List.filter_app, length_app. lia. Qed.

Lemma count_queued r : created_count r (concat (map batch_refs (a_batches a))) = Z.of_nat (length (commit_order r a)).
Proof.
  unfold commit_order. induction (a_batches a) as [|b bs IH]; [done|]. cbn [map concat]. unfold batch_refs at 1, batch_order at 1.
  rewrite !count_app, IH, !length_app, !length_map, !count_refs. lia.
Qed.

Lemma roll_spec proc c :
  committing (fun r => Z.of_nat (length (commit_order r a)) + created_count r (a_series a)) proc c ->
  exists h', roll_entries a (concat (map batch_refs (a_batches a))) (c_head c, u0) = Some (h', u0) /\
    committing (fun r => created_count r (a_series a)) proc (mk_commitState h' (c_disk c) u0 (c_acc c)).
Proof.
  intros Hc. apply (releases_all (roll_entry a) (roll_entries a)); [apply roll_releases|done|done|intros r; apply created_count_nonneg|].
  eapply committing_ext; [|reflexivity|exact Hc]. intros r. cbn. by rewrite count_queued.
Qed.

(** ** From the beginning to the end *)

Lemma committing_start acc :
  head_inv h0 -> counted base h0 a ->
  (forall r l s, objs h0 !! r = Some (l, s) -> live (h_series h0) r -> series_fit d0 s /\ spare d0 (held r a) s) ->
  committing (fun r => held r a) (fun _ => []) (mk_commitState h0 d0 u0 acc).
Proof.
  intros Hi (_ & Hc & Hn) Hf. split; cbn [c_head c_disk c_underflow]; try done.
  - intros r Hr. destruct (objs h0 !! r) eqn:E; [done|]. apply Hn in E. lia.
  - intros r l s Eo. exists s. split; [done|]. intros _. split; [|by rewrite app_nil_r]. exists [], []. by rewrite app_nil_r.
Qed.

(** When Commit or Rollback is done: nothing is reserved for the appender any
    more, and each series has got samples as [got] says. *)
Record settled (got : Z -> list smp -> Prop) (h : Head) (d : D) (u : Z) : Prop := {
  se_inv : head_inv h;
  se_count : forall r l s, objs h !! r = Some (l, s) -> pendingCommitCount (state s) = base r;
  se_underflow : u = u0;
  se_live : forall r, live (h_series h) r <-> live (h_series h0) r;
  se_series : forall r l s, objs h0 !! r = Some (l, s) -> live (h_series h0) r ->
    exists s' q, objs h !! r = Some (l, s') /\ series_fit d s' /\ got r q /\ grown d0 s d s' q }.

Lemma committing_end (got : Z -> list smp -> Prop) proc c :
  committing (fun _ => 0) proc c -> (forall r, got r (proc r)) -> settled got (c_head c) (c_disk c) (c_underflow c).
Proof.
  intros [H1 H2 H3 H4 H5 H6 H7] Hgot. split; try done.
  - intros r l s Eo. rewrite (H2 r l s Eo). lia.
  - intros r l s Eo Hl. apply H5 in Hl as Hl'. destruct Hl' as (l' & s' & Eo' & Hx).
    destruct (H7 r l' s' Eo') as (s0 & E0 & Hg). rewrite Eo in E0. injection E0 as -> ->.
    exists s', (proc r). split; [done|]. split; [by eapply H6; [exact Eo'|apply H5]|]. split; [apply Hgot|by apply Hg].
Qed.

(** All queued samples, staleness markers perhaps as histograms and later than
    queued. *)
Definition all_queued (r : Z) (q : list smp) : Prop :=
  (exists q', Forall2 stale_form (commit_order r a) q' /\ q' ≡ₚ q) /\
  (Forall (fun x => ~ stale_float x) (commit_order r a) -> q = commit_order r a).

Definition nothing (_ : Z) (q : list smp) : Prop := q = [].

Lemma batches_committed acc :
  Forall times_ok (a_batches a) -> committing (fun r => held r a) (fun _ => []) (mk_commitState h0 d0 u0 acc) ->
  exists c h', commit_batches (a_batches a) (mk_commitState h0 d0 u0 acc) = Some c /\
    releaseCreatedSeriesReservations (a_series a) (c_head c, c_underflow c) = Some (h', u0) /\ settled all_queued h' (c_disk c) u0.
Proof.
  intros Ht Hc. destruct (commit_batches_spec (a_batches a) (mk_commitState h0 d0 u0 acc) Ht) as (c & E & proc & Hc' & Hq).
  { exists (fun _ => []). split; [exact Hc|]. intros r. split; [|done]. exists (commit_order r a). split; [|done].
    induction (commit_order r a); constructor; [constructor|done]. }
  destruct (created_spec proc c Hc') as (h' & E' & Hend). exists c, h'. split; [done|]. rewrite (cm_underflow _ _ _ Hc').
  split; [done|]. apply (committing_end all_queued proc _ Hend). intros r. destruct (Hq r) as [(q & F & P) Hno].
  rewrite app_nil_r in *. split; [by exists q|done].
Qed.

Lemma batches_rolled acc :
  committing (fun r => held r a) (fun _ => []) (mk_commitState h0 d0 u0 acc) ->
  exists h1 h', roll_entries a (concat (map batch_refs (a_batches a))) (h0, u0) = Some (h1, u0) /\
    releaseCreatedSeriesReservations (a_series a) (h1, u0) = Some (h', u0) /\ settled nothing h' d0 u0.
Proof.
  intros Hc. destruct (roll_spec _ _ Hc) as (h1 & E1 & Hc1). destruct (created_spec _ _ Hc1) as (h' & E2 & Hc2).
  exists h1, h'. split_and!; [exact E1|exact E2|]. by apply (committing_end nothing _ _ Hc2).
Qed.
End CommitSpec.

(** ** Commit and Rollback *)

Section Commits.
  Context {H FH C D L W : Type} `{!EqDecision L} `{!LabelSet L}.
  Context `{!@ChunkOps H FH C} `{!ChunkLaws C} `{!ChunkMeta C} `{!ChunkMetaLaws C} `{!DiskMapper D C} `{!DiskMapperLaws D C}.
  Context `{!HistogramOps H} `{!HistogramOps FH} `{!HistogramKind H} `{!HistogramKind FH}.
  Notation series := (@memSeries H FH C).
  Notation headAppender := (@headAppender H FH L).
  Notation headState := (@headState H FH C D L W).
  Notation live := (@live H FH C L ls_Hash).
  Notation objs := (@objs H FH C L).
  Variable Log : W -> list (walRecord H FH L) -> W * option goerror.
  Variable map_order : gmap Z (list Z) -> list (Z * list Z).
  Variable h_chunkRange h_samplesPerChunk h_OutOfOrderCapMax : Z.
  Notation Commit := (Commit Log map_order h_chunkRange h_samplesPerChunk h_OutOfOrderCapMax).
  Notation Rollback := (Rollback Log).

(** An open appender whose samples have times that chunks can hold, and whose
    series are well formed with room for them; [base] are the reservations of
    the other appenders. *)
Record commit_ready (base : Z -> Z) (h : headState) (a : headAppender) : Prop := {
  cr_open : a_closed a = false;
  cr_opts : opts_ok (commit_opts h_chunkRange h_samplesPerChunk a);
  cr_inv : head_inv (hs_head h);
  cr_counted : counted base (hs_head h) a;
  cr_times : Forall (times_ok h_chunkRange h_samplesPerChunk a) (a_batches a);
  cr_series : forall r l (s : series), objs (hs_head h) !! r = Some (l, s) -> live (h_series (hs_head h)) r ->
    series_fit h_chunkRange h_samplesPerChunk a (hs_disk h) s /\ spare (hs_disk h) (held r a) s }.

(** What is so after either of them. *)
Definition finished (got : Z -> list (@sample H FH) -> Prop) (base : Z -> Z) (h : headState) (a : headAppender) (h' : headState) (a' : headAppender) : Prop :=
  settled h_chunkRange h_samplesPerChunk a (hs_head h) (hs_disk h) (hs_pendingCommitUnderflow h) base got
    (hs_head h') (hs_disk h') (hs_pendingCommitUnderflow h') /\
  hs_iso h' = closeAppend (hs_iso h) (a_appendID a) /\ a_closed a' = true.

Lemma rollback_finished base h a :
  commit_ready base h a -> exists (h' : headState) (a' : headAppender) e, Rollback h a = Some (h', a', e) /\ finished nothing base h a h' a'.
Proof.
  intros [R1 R2 R3 R4 R5 R6]. unfold HeadCommit.Rollback. rewrite R1. pose proof R4 as (Hb & _).
  pose proof (committing_start h_chunkRange h_samplesPerChunk a (hs_head h) (hs_disk h) (hs_pendingCommitUnderflow h) base new_context R3 R4 R6) as Hc.
  destruct (batches_rolled h_chunkRange h_samplesPerChunk a (hs_head h) (hs_disk h) (hs_pendingCommitUnderflow h) base Hb new_context Hc)
    as (h1 & h' & E1 & E2 & Hs).
  rewrite E1. cbn [mbind option_bind]. destruct (log Log (set_batches [] (a_typesInBatch a) a) (hs_wal h)) as [wal e].
  change (a_series (set_batches [] (a_typesInBatch a) a)) with (a_series a). rewrite E2. cbn [mbind option_bind].
  eexists _, _, _. split; [reflexivity|]. by split_and!.
Qed.

(** C4: Commit and Rollback return, whatever is queued.  If the log takes the
    records, Commit gives each series each of its queued samples at most once, in
    order or out of order, and nothing else; if they come in time order after its
    last sample and are no staleness markers it gets them all, in the order
    queued, and they are in the log.  If the log fails, and in a Rollback, no
    series gets a sample.  Either way every series stays well formed, none
    disappears, the reservations are those of the other appenders again, none was
    released twice, and the append is closed. *)
Theorem Commit_spec base h a :
  commit_ready base h a ->
  (exists (h' : headState) (a' : headAppender), Commit h a = Some (h', a', ErrLog <$> (log Log a (hs_wal h)).2) /\
    match (log Log a (hs_wal h)).2 with
    | None => finished (all_queued a) base h a h' a' /\ hs_wal h' = (log Log a (hs_wal h)).1
    | Some _ => finished nothing base h a h' a'
    end) /\
  (exists h' a' e, Rollback h a = Some (h', a', e) /\ finished nothing base h a h' a').
Proof.
  intros Hr. split; [|by apply rollback_finished]. unfold HeadCommit.Commit. rewrite (cr_open _ _ _ Hr). destruct (log Log a (hs_wal h)) as [wal [e|]]; cbn [snd].
  - destruct (rollback_finished base (mk_headState (hs_head h) (hs_disk h) (hs_minTime h) (hs_maxTime h) (hs_minOOOTime h) (hs_maxOOOTime h)
      (hs_iso h) wal (hs_wbl h) (hs_pendingCommitUnderflow h)) a) as (h' & a' & e' & E & Hf); [by destruct Hr|].
    exists h', a'. split; [by rewrite E|exact Hf].
  - destruct Hr as [R1 R2 R3 R4 R5 R6]. pose proof R4 as (Hb & _). cbn [hs_head hs_disk hs_pendingCommitUnderflow hs_wbl].
    pose proof (committing_start h_chunkRange h_samplesPerChunk a (hs_head h) (hs_disk h) (hs_pendingCommitUnderflow h) base new_context R3 R4 R6) as Hc.
    destruct (batches_committed map_order h_chunkRange h_samplesPerChunk h_OutOfOrderCapMax a (hs_wbl h) (hs_head h) (hs_disk h)
      (hs_pendingCommitUnderflow h) base R2 Hb new_context R5 Hc) as (c & h1 & E1 & E2 & Hs).
    rewrite E1. cbn [mbind option_bind]. rewrite E2. cbn [mbind option_bind].
    destruct (widen _ _ _ _) as [mint maxt], (widen _ _ _ _) as [minO maxO]. eexists _, _. split; [reflexivity|]. by split_and!.
Qed.
End Commits.

(** ** Concrete commits *)

#[local] Instance Z_labels : LabelSet Z :=
  {| ls_Hash := example_hash; ls_WithoutEmpty l := l; ls_IsEmpty l := l =? 0; ls_HasDuplicateLabelNames _ := false |}.
#[local] Instance Z_labels_laws : LabelSetLaws Z.
Proof. by split. Qed.
#[local] Instance unit_ops : HistogramOps unit := {| hist_Equals _ h := bool_decide (is_Some h); hist_Sum _ := 0; hist_buckets _ := 1 |}.
#[local] Instance unit_kind : HistogramKind unit :=
  {| UsesCustomBuckets _ := false; Validate _ := None; stale_of _ := tt; zero_of h := h |}.

(** The head state around the head of the concrete appender. *)
Definition keep_log (w : list (walRecord unit unit Z)) (l : list (walRecord unit unit Z)) : list (walRecord unit unit Z) * option goerror :=
  (w ++ l, None).

Definition test_state := @headState unit unit test_chunk (list test_chunk) Z (list (walRecord unit unit Z)).
Definition head_state (h : test_head) (d : list test_chunk) : test_state :=
  mk_headState h d 0 30 MaxInt64 MinInt64 (newIsolation true) (Some []) None 0.

(** Two samples are queued for the series 3. *)
Definition queued_head : test_head := put_series 3 (set_state 2 example_series) example_app_head.
Definition queued_appender : test_appender :=
  queue_float (mk_RefValue 3 0 50 8) (queue_float (mk_RefValue 3 0 40 7) (new_appender 0 false)).

Lemma queued_objects r l s : objs queued_head !! r = Some (l, s) ->
  (r = 3 /\ l = 2 /\ s = set_state 2 example_series) \/ (r <> 3 /\ objs example_app_head !! r = Some (l, s)).
Proof.
  unfold queued_head. rewrite put_series_objs. case_decide as E; [subst|by right].
  assert (Eo : objs example_app_head !! 3 = Some (2, example_series)) by (by vm_compute). rewrite Eo. intros [= <- <-]. by left.
Qed.

Lemma queued_batches :
  a_batches queued_appender = [mk_appendBatch [mk_RefValue 3 0 40 7; mk_RefValue 3 0 50 8] [] []] /\ a_series queued_appender = [].
Proof. by vm_compute. Qed.

Lemma queued_held r : r <> 3 -> held r queued_appender = 0.
Proof.
  intros Hr. destruct queued_batches as [E1 E2]. unfold held, commit_order. rewrite E1, E2. unfold batch_order, of_series. cbn -[Z.eqb].
  by rewrite (proj2 (Z.eqb_neq 3 r)) by lia.
Qed.

Lemma queued_inv : head_inv queued_head /\ live example_hash (h_series queued_head) 3.
Proof.
  assert (Eo : objs example_app_head !! 3 = Some (2, example_series)) by (by vm_compute).
  destruct (put_state_inv example_app_head 3 2 example_series 2 example_head_inv Eo) as [Hi Hl];
    [by eapply example_live_all|by exists 2, false, false|done|].
  split; [exact Hi|]. apply Hl, example_stripes_ok.
Qed.

Lemma queued_ready : commit_ready 100 4 example_base (head_state queued_head example_disk) queued_appender.
Proof.
  assert (Eo : objs example_app_head !! 3 = Some (2, example_series)) by (by vm_compute).
  split; [done|exact example_opts_ok|apply queued_inv| | |].
  - split_and!; [intros r; unfold example_base; by destruct (r =? 2)| |].
    + intros r l s [(-> & -> & ->)|[Hne E]]%queued_objects; [done|].
      rewrite queued_held by done. by destruct (example_objects r l s E) as [(-> & _ & ->)|[(-> & _ & ->)|(-> & _ & ->)]].
    + intros r. unfold queued_head. cbn [hs_head head_state]. rewrite put_series_objs. case_decide as E; [subst; by rewrite Eo|]. intros En. split.
      * unfold example_base. destruct (Z.eqb_spec r 2) as [->|]; [|done]. by vm_compute in En.
      * by apply queued_held.
  - rewrite (proj1 queued_batches). apply Forall_singleton. unfold times_ok. cbn [floats histograms floatHistograms].
    split_and!; [|done|done]. apply Forall_cons. split; [by split|]. apply Forall_singleton. by split.
  - intros r l s Eo1 _. cbn [hs_head head_state hs_disk] in *.
    assert (Hempty : forall w k, series_fit 100 4 queued_appender example_disk (mk_memSeries k [] [] 0 None MinInt64 w 0 0 None None None None))
      by (intros w k; split_and!; [split; by repeat constructor|by constructor|done|done]).
    apply queued_objects in Eo1 as [(-> & -> & ->)|[Hne E]]; [|].
    + split; [|by split]. split_and!; [|exact example_readable|done|done].
      destruct example_series_ok as [[A1 A2 A3] B1 B2 B3 B4 B5]. by split.
    + assert (Hs : s = mk_memSeries r [] [] 0 None MinInt64 (example_base r) 0 0 None None None None /\ (r = 1 \/ r = 2)).
      { destruct (example_objects r l s E) as [(-> & _)|[(-> & _)|(-> & _)]]; [| |done];
          (split; [|by (left + right)]); revert E; vm_compute; by intros [= <-]. }
      destruct Hs as [-> Hr]. split; [apply Hempty|]. by destruct Hr as [-> | ->]; split.
Qed.

Lemma Commit_spec_witness :
  exists h' a' s', Commit keep_log map_to_list 100 4 32 (head_state queued_head example_disk) queued_appender = Some (h', a', None) /\
    objs (hs_head h') !! 3 = Some (2, s') /\ pendingCommitCount (state s') = 0 /\
    series_samples (hs_disk h') s' = series_samples example_disk example_series ++ [mk_sample 0 40 7 None None; mk_sample 0 50 8 None None].
Proof.
  destruct (Commit_spec keep_log map_to_list 100 4 32 example_base (head_state queued_head example_disk) queued_appender queued_ready)
    as [(h' & a' & E & [[_ Hc _ _ Hs] _] & _) _].
  destruct (Hs 3 2 (set_state 2 example_series)) as (s' & q & Eo & _ & [_ Hq] & [_ Hg]); [by vm_compute|apply queued_inv|].
  exists h', a', s'. split; [exact E|]. split; [exact Eo|].
  assert (Eq : q = [mk_sample 0 40 7 None None; mk_sample 0 50 8 None None]).
  { apply Hq. repeat constructor; intros (_ & _ & Hx); by vm_compute in Hx. }
  subst q. split.
  - exact (Hc 3 2 s' Eo).
  - rewrite Hg; [done|]. split; [unfold sorted; cbn; repeat constructor; cbn; lia|].
    apply Forall_cons. split; [by split|]. apply Forall_singleton. by split.
Defined.

(** ** A staleness marker that is lost *)

Definition still (_ : nat) (h : test_head) : test_head := h.

(** Calls on the series 3 by one appender, then its commit. *)
Definition run_calls (cs : list append_call) (st : test_head * list test_chunk) : option (test_head * list test_chunk) :=
  '(h, a) ← foldl (fun s c => '(h, a) ← s; '(h, a, _) ← call (fun _ => None) true still c 3 2 h a; Some (h, a))
              (Some (st.1, new_appender 0 false)) cs;
  '(h, _, _) ← Commit keep_log map_to_list 1000 120 32 (head_state h st.2) a;
  Some (hs_head h, hs_disk h).

(** The times of the samples in the head chunks of the series, and whether they
    are histograms. *)
Definition samples_of (st : test_head * list test_chunk) : list (Z * bool) :=
  match objects (h_series st.1) !! 3 with
  | Some (_, s) => concat (map (fun c => map (fun x => (s_t x, bool_decide (is_Some (s_h x)))) (tc_samples (mc_chunk c))) (headChunks s))
  | None => []
  end.

(** After the histogram at 40, a float staleness marker at 50 and a histogram at
    60: the marker is stored when each has an appender of its own, and lost when
    they share one, as it goes to the end of the batch's histograms. *)
Example marker_before_histogram_is_lost :
  let start : option (test_head * list test_chunk) := run_calls [CallAppendHistogram 40 tt] (example_app_head, example_disk) in
  let one : option (test_head * list test_chunk) := start ≫= run_calls [CallAppend 50 StaleNaN; CallAppendHistogram 60 tt] in
  let two : option (test_head * list test_chunk) := (start ≫= run_calls [CallAppend 50 StaleNaN]) ≫= run_calls [CallAppendHistogram 60 tt] in
  option_map (fun st => List.filter (fun x => 30 <? x.1) (samples_of st)) one = Some [(40, true); (60, true)] /\
  option_map (fun st => List.filter (fun x => 30 <? x.1) (samples_of st)) two = Some [(40, true); (50, true); (60, true)].
Proof. by vm_compute. Qed.
