(* ===== verification/ScrapeCache.v ===== *)
(** scrape/scrape.go: scrapeCache, which maps the exposed metric strings of a
    target to label sets and storage references, and tracks which series were
    exposed in the current and in the previous scrape.

    Entries are shared by the maps and compared by address: they live in a heap,
    at their index.  A map is visited in the order that [map_order] gives.  The
    mutex of the metadata is left out; each method is one step. *)
From stdpp Require Import fin_maps fin_sets.
From S2P Require Import Prelude Labels.

#[global] Instance Label_countable : Countable Label.
Proof. by refine (inj_countable' (fun l => (Name l, Value l)) (fun p => mk_Label p.1 p.2) _); intros []. Defined.

(** ** The cache *)

Record cacheEntry := mk_cacheEntry { ce_ref : Z; ce_lastIter : Z; ce_hash : Z; ce_lset : list Label }.

Record Metadata := mk_Metadata { md_Type : gostr; md_Unit : gostr; md_Help : gostr }.
Record metaEntry := mk_metaEntry { me_Metadata : Metadata; me_lastIter : Z; me_lastIterChange : Z }.

#[global] Instance Metadata_eq_dec : EqDecision Metadata.
Proof. solve_decision. Defined.

Definition metaEntry_size (m : metaEntry) : Z :=
  Z.of_nat (length (md_Help (me_Metadata m))) + Z.of_nat (length (md_Unit (me_Metadata m))) + Z.of_nat (length (md_Type (me_Metadata m))).

(** [entries] is the heap. *)
Record scrapeCache := mk_scrapeCache {
  iter : Z; successfulCount : Z;
  entries : list cacheEntry;
  series : gmap gostr nat; droppedSeries : gmap gostr Z;
  seriesCur : gmap Z nat; seriesPrev : gmap Z nat;
  metadata : gmap gostr metaEntry; metadataSize : Z }.

Definition newScrapeCache : scrapeCache := mk_scrapeCache 0 0 [] ∅ ∅ ∅ ∅ ∅ 0.

Definition set_entries (l : list cacheEntry) (c : scrapeCache) : scrapeCache :=
  mk_scrapeCache (iter c) (successfulCount c) l (series c) (droppedSeries c) (seriesCur c) (seriesPrev c) (metadata c) (metadataSize c).
Definition set_series (m : gmap gostr nat) (c : scrapeCache) : scrapeCache :=
  mk_scrapeCache (iter c) (successfulCount c) (entries c) m (droppedSeries c) (seriesCur c) (seriesPrev c) (metadata c) (metadataSize c).
Definition set_dropped (m : gmap gostr Z) (c : scrapeCache) : scrapeCache :=
  mk_scrapeCache (iter c) (successfulCount c) (entries c) (series c) m (seriesCur c) (seriesPrev c) (metadata c) (metadataSize c).
Definition set_tracked (cur prev : gmap Z nat) (c : scrapeCache) : scrapeCache :=
  mk_scrapeCache (iter c) (successfulCount c) (entries c) (series c) (droppedSeries c) cur prev (metadata c) (metadataSize c).
Definition set_metadata (m : gmap gostr metaEntry) (size : Z) (c : scrapeCache) : scrapeCache :=
  mk_scrapeCache (iter c) (successfulCount c) (entries c) (series c) (droppedSeries c) (seriesCur c) (seriesPrev c) m size.

(** ** The end of a scrape *)

Definition cache_count (c : scrapeCache) : Z :=
  Z.of_nat (size (series c)) + Z.of_nat (size (droppedSeries c)) + Z.of_nat (size (metadata c)).

(** An entry whose address is not in the heap cannot be; it is kept. *)
Definition seen_now (c : scrapeCache) (p : nat) : bool :=
  match entries c !! p with Some e => iter c =? ce_lastIter e | None => true end.

Definition expired (c : scrapeCache) (m : metaEntry) : bool := 10 <? u64 (iter c - me_lastIter m).

Definition sizes (m : gmap gostr metaEntry) : Z := map_fold (fun _ e n => n + metaEntry_size e) 0 m.

Definition flush (c : scrapeCache) : scrapeCache :=
  let gone := filter (fun kv : gostr * metaEntry => expired c kv.2 = true) (metadata c) in
  set_metadata (filter (fun kv : gostr * metaEntry => expired c kv.2 = false) (metadata c)) (metadataSize c - sizes gone)
    (set_dropped (filter (fun kv : gostr * Z => iter c = kv.2) (droppedSeries c))
      (set_series (filter (fun kv : gostr * nat => seen_now c kv.2 = true) (series c)) c)).

Definition iterDone (flushCache : bool) (c : scrapeCache) : scrapeCache :=
  let count := cache_count c in
  let '(successful, flushCache) :=
    if flushCache then (count, true)
    else (successfulCount c, successfulCount c * 2 + 1000 <? count) in
  let c := if (flushCache : bool) then flush c else c in
  mk_scrapeCache (u64 (iter c + 1)) successful (entries c) (series c) (droppedSeries c) ∅ (seriesCur c) (metadata c) (metadataSize c).

(** ** Series *)

Definition set_lastIter (n : Z) (e : cacheEntry) : cacheEntry := mk_cacheEntry (ce_ref e) n (ce_hash e) (ce_lset e).
Definition set_ref (ref : Z) (e : cacheEntry) : cacheEntry := mk_cacheEntry ref (ce_lastIter e) (ce_hash e) (ce_lset e).

(** The entry's address and whether it was scraped already. *)
Definition cache_get (met : gostr) (c : scrapeCache) : option (scrapeCache * option (nat * bool)) :=
  match series c !! met with
  | None => Some (c, None)
  | Some p => e ← entries c !! p; Some (set_entries (alter (set_lastIter (iter c)) p (entries c)) c, Some (p, ce_lastIter e =? iter c))
  end.

Definition addRef (met : gostr) (ref : Z) (lset : list Label) (hash : Z) (c : scrapeCache) : scrapeCache * nat :=
  let p := length (entries c) in
  (set_series (<[met := p]> (series c)) (set_entries (entries c ++ [mk_cacheEntry ref (iter c) hash lset]) c), p).

Definition addDropped (met : gostr) (c : scrapeCache) : scrapeCache := set_dropped (<[met := iter c]> (droppedSeries c)) c.

Definition getDropped (met : gostr) (c : scrapeCache) : scrapeCache * bool :=
  match droppedSeries c !! met with
  | None => (c, false)
  | Some _ => (set_dropped (<[met := iter c]> (droppedSeries c)) c, true)
  end.

(** [p] is the address of the entry, [old] its reference. *)
Definition moveStaleness (old : Z) (p : nat) (ref : Z) (tracked : gmap Z nat) : gmap Z nat :=
  if decide (tracked !! old = Some p) then <[ref := p]> (delete old tracked) else tracked.

Definition updateRef (p : nat) (ref : Z) (c : scrapeCache) : option scrapeCache :=
  e ← entries c !! p;
  let old := ce_ref e in
  if old =? ref then Some c
  else
    let c := if negb (old =? 0) then set_tracked (moveStaleness old p ref (seriesCur c)) (moveStaleness old p ref (seriesPrev c)) c else c in
    Some (set_entries (alter (set_ref ref) p (entries c)) c).

Definition trackStaleness (ref : Z) (p : nat) (c : scrapeCache) : scrapeCache :=
  set_tracked (<[ref := p]> (seriesCur c)) (seriesPrev c) c.

(** The callback [f] changes a state and says whether to go on. *)
Fixpoint stale_loop {S} (f : S -> Z -> list Label -> S * bool) (c : scrapeCache) (l : list (Z * nat)) (s : S) : option S :=
  match l with
  | [] => Some s
  | (ref, p) :: l =>
      match seriesCur c !! ref with
      | Some _ => stale_loop f c l s
      | None =>
          e ← entries c !! p;
          let '(s, more) := f s (ce_ref e) (ce_lset e) in
          if (more : bool) then stale_loop f c l s else Some s
      end
  end.

Definition forEachStale {S} (map_order : gmap Z nat -> list (Z * nat)) (f : S -> Z -> list Label -> S * bool) (c : scrapeCache) (s : S) : option S :=
  stale_loop f c (map_order (seriesPrev c)) s.

(** ** Metadata *)

Definition MetricTypeUnknown : gostr := [117; 110; 107; 110; 111; 119; 110].

(** The common shape of setType, setHelp and setUnit: [changed] compares and
    [update] sets the field.  The entry is returned. *)
Definition set_meta (changed : Metadata -> bool) (update : Metadata -> Metadata) (mfName : gostr) (c : scrapeCache) : scrapeCache * metaEntry :=
  let '(e, oldSize) :=
    match metadata c !! mfName with
    | None => (mk_metaEntry (mk_Metadata MetricTypeUnknown [] []) 0 0, 0)
    | Some e => (e, metaEntry_size e)
    end in
  let e := if changed (me_Metadata e) then mk_metaEntry (update (me_Metadata e)) (me_lastIter e) (iter c) else e in
  let e := mk_metaEntry (me_Metadata e) (iter c) (me_lastIterChange e) in
  (set_metadata (<[mfName := e]> (metadata c)) (metadataSize c + (metaEntry_size e - oldSize)) c, e).

Definition setType (mfName t : gostr) : scrapeCache -> scrapeCache * metaEntry :=
  set_meta (fun m => negb (str_eqb (md_Type m) t)) (fun m => mk_Metadata t (md_Unit m) (md_Help m)) mfName.
Definition setHelp (mfName help : gostr) : scrapeCache -> scrapeCache * metaEntry :=
  set_meta (fun m => negb (str_eqb (md_Help m) help)) (fun m => mk_Metadata (md_Type m) (md_Unit m) help) mfName.
Definition setUnit (mfName unit : gostr) : scrapeCache -> scrapeCache * metaEntry :=
  set_meta (fun m => negb (str_eqb (md_Unit m) unit)) (fun m => mk_Metadata (md_Type m) unit (md_Help m)) mfName.

Definition GetMetadata (mfName : gostr) (c : scrapeCache) : option (gostr * Metadata) :=
  (fun e => (mfName, me_Metadata e)) <$> metadata c !! mfName.
Definition SizeMetadata (c : scrapeCache) : Z := metadataSize c.
Definition LengthMetadata (c : scrapeCache) : Z := Z.of_nat (size (metadata c)).
