(* ===== verification/ScrapeLoop.v ===== *)
(** scrape/scrape.go and scrape/target.go: what a scrape loop appends.

    The storage's appender is an interface; scrapeLoopAppender.append goes through
    the entries that the parser yields for the body of a scrape, appends the
    samples through the limits, and writes staleness markers for the series that
    are gone; scrapeAndReport adds the report samples, and commits.  HTTP, the
    parsers, logging, metrics of the loop itself and time are outside: the entries,
    the time and the conversion of durations are given.  [None] is a panic. *)
From stdpp Require Import strings fin_maps fin_sets.
From S2P Require Import Prelude Labels HeadChunks ScrapeCache.

(** ** Interfaces *)

Inductive scrape_error :=
  | EOutOfOrderSample | EDuplicateSample | EOutOfBounds | ENotFound | EOutOfOrderST
  | EPartial | ESampleLimit | EBucketLimit
  | ENameLabelMandatory | EInvalidLabels | ELabelLimit
  | EOther (what : goerror).

#[global] Instance scrape_error_eq_dec : EqDecision scrape_error.
Proof. solve_decision. Defined.

(** storage.Appender: results are the appender, the reference and the error.
    [X] are exemplars without their times. *)
Class Appender (A H FH X : Type) := {
  ap_SetOptions : bool -> A -> A;
  ap_Append : Z -> list Label -> Z -> Z -> A -> A * Z * option scrape_error;
  ap_AppendHistogram : Z -> list Label -> Z -> option H -> option FH -> A -> A * Z * option scrape_error;
  ap_AppendSTZeroSample : Z -> list Label -> Z -> Z -> A -> A * Z * option scrape_error;
  ap_AppendHistogramSTZeroSample : Z -> list Label -> Z -> Z -> option H -> option FH -> A -> A * Z * option scrape_error;
  ap_AppendExemplar : Z -> list Label -> Z -> X -> A -> A * option scrape_error;
  ap_UpdateMetadata : Z -> list Label -> Metadata -> A -> A * option scrape_error;
  ap_Commit : A -> A * option scrape_error;
  ap_Rollback : A -> A;
  (** A new appender of the same storage. *)
  ap_New : A -> A }.

(** What the limits need of histograms. *)
Class HistogramBuckets (H : Type) := {
  hb_Sum : H -> Z; hb_buckets : H -> Z; hb_Schema : H -> Z; ReduceResolution : Z -> H -> H + goerror }.

Definition append_result (A : Type) : Type := A * Z * option scrape_error.

(** ** Limits *)

Definition ExponentialSchemaMax : Z := 8.
Definition ExponentialSchemaMin : Z := -4.
Definition IsExponentialSchema (s : Z) : bool := (ExponentialSchemaMin <=? s) && (s <=? ExponentialSchemaMax).
Definition IsExponentialSchemaReserved (s : Z) : bool := (-9 <=? s) && (s <=? 52).

Record limits := mk_limits { maxTime : Z; sampleLimit : Z; bucketLimit : Z; maxSchema : Z }.

Section Limits.
  Context {A H FH X : Type} `{!Appender A H FH X} `{!HistogramBuckets H} `{!HistogramBuckets FH}.
  (** The appender and the counter of limitAppender. *)
  Notation limited := (A * Z)%type.

(** A failing append of a limit returns no reference. *)
Definition no_ref {B} (r : append_result B) : append_result B := match r with (b, _, Some e) => (b, 0, Some e) | _ => r end.

Definition counted (i : Z) (r : append_result A) : append_result limited := let '(a, ref, err) := r in ((a, i), ref, err).

Definition wrap (i : Z) (r : append_result A) : append_result limited := no_ref (counted i r).

Definition timeLimit_Append (l : limits) (ref : Z) (lset : list Label) (t v : Z) (a : limited) : append_result limited :=
  if maxTime l <? t then (a, 0, Some EOutOfBounds) else wrap a.2 (ap_Append ref lset t v a.1).

Definition limit_Append (l : limits) (ref : Z) (lset : list Label) (t v : Z) (a : limited) : append_result limited :=
  if 0 <? sampleLimit l then
    let i := if (ref =? 0) || negb (IsStaleNaN v) then a.2 + 1 else a.2 in
    if ((ref =? 0) || negb (IsStaleNaN v)) && (sampleLimit l <? i) then ((a.1, i), 0, Some ESampleLimit)
    else timeLimit_Append l ref lset t v (a.1, i)
  else timeLimit_Append l ref lset t v a.

Definition limit_AppendHistogram (l : limits) (ref : Z) (lset : list Label) (t : Z) (h : option H) (fh : option FH) (a : limited) : append_result limited :=
  if 0 <? sampleLimit l then
    let counts := (ref =? 0) || (match h with Some h => negb (IsStaleNaN (hb_Sum h)) | None => false end) ||
      (match fh with Some fh => negb (IsStaleNaN (hb_Sum fh)) | None => false end) in
    let i := if counts then a.2 + 1 else a.2 in
    if counts && (sampleLimit l <? i) then ((a.1, i), 0, Some ESampleLimit)
    else wrap i (ap_AppendHistogram ref lset t h fh a.1)
  else counted a.2 (ap_AppendHistogram ref lset t h fh a.1).

(** The loop of bucketLimitAppender for one kind of histograms.  A schema that
    can be reduced is at most 8, and its reductions stop at -4. *)
Fixpoint reduce_loop {G} `{!HistogramBuckets G} (fuel : nat) (limit : Z) (h : G) : option (G + scrape_error) :=
  if limit <? hb_buckets h then
    if hb_Schema h <=? ExponentialSchemaMin then Some (inr EBucketLimit)
    else
      match fuel with
      | O => None
      | S fuel => match ReduceResolution (hb_Schema h - 1) h with inr e => Some (inr (EOther e)) | inl h => reduce_loop fuel limit h end
      end
  else Some (inl h).

Definition reduce_buckets {G} `{!HistogramBuckets G} (limit : Z) (h : option G) : option (option G + scrape_error) :=
  match h with
  | None => Some (inl None)
  | Some h =>
      if (limit <? hb_buckets h) && negb (IsExponentialSchema (hb_Schema h)) then Some (inr EBucketLimit)
      else r ← reduce_loop 13 limit h; Some (match r with inl h => inl (Some h) | inr e => inr e end)
  end.

Definition bucketLimit_AppendHistogram (l : limits) (ref : Z) (lset : list Label) (t : Z) (h : option H) (fh : option FH) (a : limited)
  : option (append_result limited) :=
  if 0 <? bucketLimit l then
    r ← reduce_buckets (bucketLimit l) h;
    match r with
    | inr e => Some (a, 0, Some e)
    | inl h =>
        r ← reduce_buckets (bucketLimit l) fh;
        match r with
        | inr e => Some (a, 0, Some e)
        | inl fh => Some (no_ref (limit_AppendHistogram l ref lset t h fh a))
        end
    end
  else Some (limit_AppendHistogram l ref lset t h fh a).

Definition cap_schema {G} `{!HistogramBuckets G} (maxSchema : Z) (h : option G) : option G + scrape_error :=
  match h with
  | None => inl None
  | Some h =>
      if IsExponentialSchemaReserved (hb_Schema h) && (maxSchema <? hb_Schema h) then
        match ReduceResolution maxSchema h with inl h => inl (Some h) | inr e => inr (EOther e) end
      else inl (Some h)
  end.

Definition maxSchema_AppendHistogram (l : limits) (ref : Z) (lset : list Label) (t : Z) (h : option H) (fh : option FH) (a : limited)
  : option (append_result limited) :=
  if maxSchema l <? ExponentialSchemaMax then
    match cap_schema (maxSchema l) h with
    | inr e => Some (a, 0, Some e)
    | inl h =>
        match cap_schema (maxSchema l) fh with
        | inr e => Some (a, 0, Some e)
        | inl fh => no_ref <$> bucketLimit_AppendHistogram l ref lset t h fh a
        end
    end
  else bucketLimit_AppendHistogram l ref lset t h fh a.
End Limits.

(** ** Strings *)

Fixpoint has_prefix (s p : gostr) : bool :=
  match p, s with
  | [], _ => true
  | x :: p, y :: s => (x =? y) && has_prefix s p
  | _, [] => false
  end.

(** strings.CutSuffix. *)
Definition cut_suffix (s suf : gostr) : gostr * bool :=
  let k := (length s - length suf)%nat in
  if (length suf <=? length s)%nat && str_eqb (drop k s) suf then (take k s, true) else (s, false).

(** The bytes of a string. *)
Definition str (s : String.string) : gostr := map (fun a => Z.of_N (Ascii.N_of_ascii a)) (String.list_ascii_of_string s).

(** The metric types that isSeriesPartOfFamily tells apart. *)
Inductive family_type := FCounter | FHistogram | FGaugeHistogram | FSummary | FInfo | FOther.

(** The name without the first of the suffixes that it has. *)
Fixpoint cut_first (mName : gostr) (sufs : list gostr) : gostr :=
  match sufs with [] => mName | x :: sufs => match cut_suffix mName x with (s, true) => s | (_, false) => cut_first mName sufs end end.

Definition isSeriesPartOfFamily (family : gostr -> family_type) (mName mfName typ : gostr) : bool :=
  if negb (has_prefix mName mfName) then false
  else
    match family typ with
    | FCounter => str_eqb (cut_suffix mfName (str "_total"%string)).1 (cut_first mName [(str "_total"%string)])
    | FHistogram => str_eqb mfName (cut_first mName [(str "_bucket"%string); (str "_sum"%string); (str "_count"%string)])
    | FGaugeHistogram => str_eqb mfName (cut_first mName [(str "_bucket"%string); (str "_gsum"%string); (str "_gcount"%string)])
    | FSummary => str_eqb mfName (cut_first mName [(str "_sum"%string); (str "_count"%string)])
    | FInfo => str_eqb (cut_suffix mfName (str "_info"%string)).1 (cut_first mName [(str "_info"%string)])
    | FOther => str_eqb mfName mName
    end.

(** ** Label limits *)

Record labelLimits := mk_labelLimits { labelLimit : Z; labelNameLengthLimit : Z; labelValueLengthLimit : Z }.

Definition verifyLabelLimits (lset : list Label) (limits : option labelLimits) : option scrape_error :=
  match limits with
  | None => None
  | Some l =>
      if (0 <? labelLimit l) && (labelLimit l <? Z.of_nat (length lset)) then Some ELabelLimit
      else if (labelNameLengthLimit l =? 0) && (labelValueLengthLimit l =? 0) then None
      else
        if existsb (fun x => ((0 <? labelNameLengthLimit l) && (labelNameLengthLimit l <? Z.of_nat (length (Name x)))) ||
             ((0 <? labelValueLengthLimit l) && (labelValueLengthLimit l <? Z.of_nat (length (Value x))))) lset
        then Some ELabelLimit else None
  end.

(** ** What a parser yields *)

Inductive sampleValue (H FH : Type) := VFloat (v : Z) | VHist (h : H) | VFloatHist (fh : FH).
Arguments VFloat {H FH} _.
Arguments VHist {H FH} _.
Arguments VFloatHist {H FH} _.

(** An exemplar has a time or none. *)
Record parsedSample (H FH X : Type) := mk_parsedSample {
  ps_met : gostr; ps_Timestamp : option Z; ps_value : sampleValue H FH; ps_Labels : list Label; ps_StartTimestamp : Z;
  ps_Exemplars : list (option Z * X) }.
Arguments mk_parsedSample {H FH X} _ _ _ _ _ _.
Arguments ps_met {H FH X} _.
Arguments ps_Timestamp {H FH X} _.
Arguments ps_value {H FH X} _.
Arguments ps_Labels {H FH X} _.
Arguments ps_StartTimestamp {H FH X} _.
Arguments ps_Exemplars {H FH X} _.

Inductive parsedEntry (H FH X : Type) :=
  | EntryType (mfName t : gostr) | EntryHelp (mfName help : gostr) | EntryUnit (mfName unit : gostr) | EntryComment
  | EntrySample (s : parsedSample H FH X).
Arguments EntryType {H FH X} _ _.
Arguments EntryHelp {H FH X} _ _.
Arguments EntryUnit {H FH X} _ _.
Arguments EntryComment {H FH X}.
Arguments EntrySample {H FH X} _.

(** A body is empty, of a type that no parser is for, or parsed up to its end or
    to an error. *)
Inductive body (H FH X : Type) := EmptyBody | NoParser (err : option scrape_error) | Parsed (l : list (parsedEntry H FH X)) (err : option scrape_error).
Arguments EmptyBody {H FH X}.
Arguments NoParser {H FH X} _.
Arguments Parsed {H FH X} _ _.

(** ** The loop *)

Record loopConfig := mk_loopConfig {
  honorTimestamps : bool; trackTimestampsStaleness : bool; enableSTZeroIngestion : bool; appendMetadataToWAL : bool;
  sl_labelLimits : option labelLimits; sl_sampleLimit : Z; sl_bucketLimit : Z; sl_maxSchema : Z;
  reportExtraMetrics : bool }.

Section Loop.
  Context {A H FH X : Type} `{!Appender A H FH X} `{!HistogramBuckets H} `{!HistogramBuckets FH}.
  Notation limited := (A * Z)%type.
  (** The fields of the loop that are functions, and functions of labels. *)
  Variable sampleMutator reportSampleMutator : list Label -> list Label.
  Variable Hash : list Label -> Z.
  Variable IsValid : list Label -> bool.
  Variable family : gostr -> family_type.
  Variable sort_exemplars : list (Z * X) -> list (Z * X).
  Variable map_order : gmap Z nat -> list (Z * nat).
  Variable cfg : loopConfig.

(** The variables of the loop. *)
Record loopState := mk_loopState {
  l_cache : scrapeCache; l_app : limited; l_meta : option (gostr * metaEntry);
  l_total : Z; l_added : Z; l_seriesAdded : Z; l_sampleLimitErr : bool; l_bucketLimitErr : bool }.

Definition has_label (n : gostr) (lset : list Label) : bool := existsb (fun l => str_eqb (Name l) n) lset.

(** sampleAdded, the errors of the limits and the error; the counters are left out. *)
Definition checkAddError (err : option scrape_error) (sampleLimitErr bucketLimitErr : bool) : bool * bool * bool * option scrape_error :=
  match err with
  | None => (true, sampleLimitErr, bucketLimitErr, None)
  | Some ESampleLimit => (false, true, bucketLimitErr, None)
  | Some EBucketLimit => (false, sampleLimitErr, true, None)
  | Some EOutOfOrderSample | Some EDuplicateSample | Some EOutOfBounds => (false, sampleLimitErr, bucketLimitErr, None)
  | Some ENotFound => (false, sampleLimitErr, bucketLimitErr, Some ENotFound)
  | Some EPartial => (true, sampleLimitErr, bucketLimitErr, None)
  | Some e => (false, sampleLimitErr, bucketLimitErr, Some e)
  end.

(** The label set of a metric that is not cached; [inl None] if it is dropped. *)
Definition new_labels (s : parsedSample H FH X) : option (list Label) + scrape_error :=
  let lset := sampleMutator (ps_Labels s) in
  match lset with
  | [] => inl None
  | _ =>
      if negb (has_label MetricName lset) then inr ENameLabelMandatory
      else if negb (IsValid lset) then inr EInvalidLabels
      else match verifyLabelLimits lset (sl_labelLimits cfg) with Some e => inr e | None => inl (Some lset) end
  end.

Definition append_value (lim : limits) (ref : Z) (lset : list Label) (t : Z) (v : sampleValue H FH) (a : limited) : option (append_result limited) :=
  match v with
  | VFloat v => Some (limit_Append lim ref lset t v a)
  | VHist h => maxSchema_AppendHistogram lim ref lset t (Some h) None a
  | VFloatHist fh => maxSchema_AppendHistogram lim ref lset t None (Some fh) a
  end.

(** The start time, if it is to be ingested; its error is logged only. *)
Definition append_st (s : parsedSample H FH X) (ref : Z) (lset : list Label) (t : Z) (a : limited) : limited * Z :=
  if enableSTZeroIngestion cfg && negb (ps_StartTimestamp s =? 0) then
    let '(a1, ref, _) :=
      match ps_value s with
      | VFloat _ => ap_AppendSTZeroSample ref lset t (ps_StartTimestamp s) a.1
      | VHist h => ap_AppendHistogramSTZeroSample ref lset t (ps_StartTimestamp s) (Some h) None a.1
      | VFloatHist fh => ap_AppendHistogramSTZeroSample ref lset t (ps_StartTimestamp s) None (Some fh) a.1
      end in
    ((a1, a.2), ref)
  else (a, ref).

(** A known entry after a successful append. *)
Definition track_known (untimed : bool) (ce : option nat) (ref : Z) (c : scrapeCache) : option scrapeCache :=
  match ce with
  | None => Some c
  | Some p =>
      c ← (if ref =? 0 then Some c else updateRef p ref c);
      e ← entries c !! p;
      Some (if untimed && negb (ce_ref e =? 0) then trackStaleness (ce_ref e) p c else c)
  end.

Definition track_new (untimed : bool) (met : gostr) (ref : Z) (lset : list Label) (hash : Z) (c : scrapeCache) : scrapeCache :=
  let '(c, p) := addRef met ref lset hash c in
  if untimed && negb (ref =? 0) then trackStaleness ref p c else c.

Definition is_hist (v : sampleValue H FH) : bool := match v with VFloat _ => false | _ => true end.

(** The exemplars that are appended, with their times. *)
Definition timed_exemplars (s : parsedSample H FH X) (t : Z) : list (Z * X) :=
  sort_exemplars (omap (fun e => match e.1 with
    | Some ts => Some (ts, e.2)
    | None => if is_hist (ps_value s) then None else Some (t, e.2)
    end) (ps_Exemplars s)).

Definition append_exemplars (ref : Z) (lset : list Label) (l : list (Z * X)) (a : limited) : limited :=
  (foldl (fun a e => (ap_AppendExemplar ref lset e.1 e.2 a).1) a.1 l, a.2).

Definition append_metadata (cached : bool) (ref : Z) (lset : list Label) (c : scrapeCache) (meta : option (gostr * metaEntry)) (a : limited) : limited :=
  match meta with
  | Some (mfName, m) =>
      if appendMetadataToWAL cfg && (negb cached || (me_lastIterChange m =? iter c)) &&
         isSeriesPartOfFamily family (get_label lset MetricName) mfName (md_Type (me_Metadata m))
      then ((ap_UpdateMetadata ref lset (me_Metadata m) a.1).1, a.2)
      else a
  | None => a
  end.

(** One sample: [inr] breaks the loop. *)
Definition scrape_sample (lim : limits) (defTime : Z) (s : parsedSample H FH X) (ls : loopState) : option (loopState * option scrape_error) :=
  let ls := mk_loopState (l_cache ls) (l_app ls) (l_meta ls) (l_total ls + 1) (l_added ls) (l_seriesAdded ls) (l_sampleLimitErr ls) (l_bucketLimitErr ls) in
  let parsedTimestamp := if honorTimestamps cfg then ps_Timestamp s else None in
  let t := default defTime parsedTimestamp in
  let untimed := negb (bool_decide (is_Some parsedTimestamp)) || trackTimestampsStaleness cfg in
  let set_cache c := mk_loopState c (l_app ls) (l_meta ls) (l_total ls) (l_added ls) (l_seriesAdded ls) (l_sampleLimitErr ls) (l_bucketLimitErr ls) in
  match getDropped (ps_met s) (l_cache ls) with
  | (c, true) => Some (set_cache c, None)
  | (c, false) =>
      '(c, ce) ← cache_get (ps_met s) c;
      known ← (match ce with
        | Some (p, again) => e ← entries c !! p; Some (inl (Some (Some p, again, ce_ref e, ce_hash e, ce_lset e)))
        | None =>
            Some (match new_labels s with
                  | inl None => inl None
                  | inl (Some lset) => inl (Some (None, false, 0, Hash (ps_Labels s), lset))
                  | inr e => inr e
                  end)
        end : option (option (option nat * bool * Z * Z * list Label) + scrape_error));
      match known with
      | inr e => Some (set_cache c, Some e)
      | inl None => Some (set_cache (addDropped (ps_met s) c), None)
      | inl (Some (ce, again, ref, hash, lset)) =>
          '(a, ref, err) ←
            (if again && negb (bool_decide (is_Some parsedTimestamp)) then Some (l_app ls, ref, Some EDuplicateSample)
             else let '(a, ref) := append_st s ref lset t (l_app ls) in append_value lim ref lset t (ps_value s) a);
          c ← (match err with None => track_known untimed ce ref c | Some _ => Some c end);
          let '(sampleAdded, sampleLimitErr, bucketLimitErr, err) := checkAddError err (l_sampleLimitErr ls) (l_bucketLimitErr ls) in
          match err with
          | Some e => Some (mk_loopState c a (l_meta ls) (l_total ls) (l_added ls) (l_seriesAdded ls) sampleLimitErr bucketLimitErr, Some e)
          | None =>
              let cached := bool_decide (is_Some ce) in
              let fresh := negb cached && sampleAdded in
              let c := if fresh then track_new untimed (ps_met s) ref lset hash c else c in
              let seriesAdded := if fresh && negb sampleLimitErr && negb bucketLimitErr then l_seriesAdded ls + 1 else l_seriesAdded ls in
              let a := append_exemplars ref lset (timed_exemplars s t) a in
              let a := append_metadata cached ref lset c (l_meta ls) a in
              Some (mk_loopState c a (l_meta ls) (l_total ls) (l_added ls + 1) seriesAdded sampleLimitErr bucketLimitErr, None)
          end
      end
  end.

Definition note_meta (mfName : gostr) (r : scrapeCache * metaEntry) (ls : loopState) : loopState :=
  mk_loopState r.1 (l_app ls) (Some (mfName, r.2)) (l_total ls) (l_added ls) (l_seriesAdded ls) (l_sampleLimitErr ls) (l_bucketLimitErr ls).

(** The loop over the entries; [perr] is the parser's error after them. *)
Fixpoint scrape_entries (lim : limits) (defTime : Z) (l : list (parsedEntry H FH X)) (perr : option scrape_error) (ls : loopState)
  : option (loopState * option scrape_error) :=
  match l with
  | [] => Some (ls, perr)
  | EntryType mfName t :: l => scrape_entries lim defTime l perr (note_meta mfName (setType mfName t (l_cache ls)) ls)
  | EntryHelp mfName help :: l => scrape_entries lim defTime l perr (note_meta mfName (setHelp mfName help (l_cache ls)) ls)
  | EntryUnit mfName unit :: l => scrape_entries lim defTime l perr (note_meta mfName (setUnit mfName unit (l_cache ls)) ls)
  | EntryComment :: l => scrape_entries lim defTime l perr ls
  | EntrySample s :: l =>
      '(ls, err) ← scrape_sample lim defTime s ls;
      match err with Some e => Some (ls, Some e) | None => scrape_entries lim defTime l perr ls end
  end.

(** The callback of updateStaleMarkers, through the limits or not. *)
Definition stale_marker {B} (set_options : bool -> B -> B) (app : Z -> list Label -> Z -> Z -> B -> append_result B) (defTime : Z)
    (s : B * option scrape_error) (ref : Z) (lset : list Label) : (B * option scrape_error) * bool :=
  let '(b, _, err) := app ref lset defTime StaleNaN (set_options true s.1) in
  let err := match err with Some EOutOfOrderSample | Some EDuplicateSample => None | e => e end in
  ((set_options false b, err), negb (bool_decide (is_Some err))).

Definition updateStaleMarkers {B} (set_options : bool -> B -> B) (app : Z -> list Label -> Z -> Z -> B -> append_result B) (defTime : Z)
    (c : scrapeCache) (b : B) : option (B * option scrape_error) :=
  forEachStale map_order (stale_marker set_options app defTime) c (b, None).

(** scrapeLoopAppender.append; [maxT] is the time of appenderWithLimits. *)
Definition scrape_append (b : body H FH X) (defTime maxT : Z) (c : scrapeCache) (a : A)
  : option (scrapeCache * A * (Z * Z * Z) * option scrape_error) :=
  match b with
  | EmptyBody =>
      '(a, err) ← updateStaleMarkers ap_SetOptions ap_Append defTime c a;
      Some (iterDone false c, a, (0, 0, 0), err)
  | NoParser err => Some (c, a, (0, 0, 0), err)
  | Parsed l perr =>
      let lim := mk_limits maxT (sl_sampleLimit cfg) (sl_bucketLimit cfg) (sl_maxSchema cfg) in
      '(ls, err) ← scrape_entries lim defTime l perr (mk_loopState c (a, 0) None 0 0 0 false false);
      let err := match err with None => if l_sampleLimitErr ls then Some ESampleLimit else None | e => e end in
      let err := match err with None => if l_bucketLimitErr ls then Some EBucketLimit else None | e => e end in
      '(a, err) ← (match err with
        | None => updateStaleMarkers (fun o a => (ap_SetOptions o a.1, a.2)) (limit_Append lim) defTime (l_cache ls) (l_app ls)
        | Some e => Some (l_app ls, Some e)
        end : option (limited * option scrape_error));
      let c := match err with None => iterDone true (l_cache ls) | Some _ => l_cache ls end in
      Some (c, a.1, (l_total ls, l_added ls, l_seriesAdded ls), err)
  end.

(** ** Reports *)

Record reportSample := mk_reportSample { rs_name : gostr; rs_Metadata : Metadata }.

(** The names end in a byte that no metric has. *)
Definition report_metric (name help unit : String.string) : reportSample :=
  mk_reportSample (str name ++ [0xff]) (mk_Metadata (str "gauge"%string) (str unit) (str help)).

Definition scrapeHealthMetric := report_metric "up" "Health of the scrape target. 1 means the target is healthy, 0 if the scrape failed." "targets".
Definition scrapeDurationMetric := report_metric "scrape_duration_seconds" "Duration of the last scrape in seconds." "seconds".
Definition scrapeSamplesMetric := report_metric "scrape_samples_scraped" "Number of samples last scraped." "samples".
Definition samplesPostRelabelMetric :=
  report_metric "scrape_samples_post_metric_relabeling" "Number of samples remaining after metric relabeling was applied." "samples".
Definition scrapeSeriesAddedMetric := report_metric "scrape_series_added" "Number of series in the last scrape." "series".
Definition scrapeTimeoutMetric := report_metric "scrape_timeout_seconds" "The configured scrape timeout for a target." "seconds".
Definition scrapeSampleLimitMetric :=
  report_metric "scrape_sample_limit" "The configured sample limit for a target. Returns zero if there is no limit configured." "samples".
Definition scrapeBodySizeBytesMetric :=
  report_metric "scrape_body_size_bytes"
    "The uncompressed size of the last scrape response, if successful. Scrapes failing because body_size_limit is exceeded report -1, other scrape failures report 0." "bytes".

Definition report_samples : list reportSample :=
  [scrapeHealthMetric; scrapeDurationMetric; scrapeSamplesMetric; samplesPostRelabelMetric; scrapeSeriesAddedMetric] ++
  (if reportExtraMetrics cfg then [scrapeTimeoutMetric; scrapeSampleLimitMetric; scrapeBodySizeBytesMetric] else []).

Definition addReportSample (s : reportSample) (t v : Z) (rejectOOO : bool) (c : scrapeCache) (a : A) : option (scrapeCache * A * option scrape_error) :=
  '(c, ce) ← cache_get (rs_name s) c;
  '(known, ref, lset) ←
    (match ce with
     | Some (p, _) => e ← entries c !! p; Some (true, ce_ref e, ce_lset e)
     | None => Some (false, 0, reportSampleMutator [mk_Label MetricName (take (length (rs_name s) - 1) (rs_name s))])
     end : option (bool * Z * list Label));
  let '(a, ref, err) := ap_Append ref lset t v (if rejectOOO then ap_SetOptions true a else a) in
  let a := if rejectOOO then ap_SetOptions false a else a in
  match err with
  | None =>
      if (known : bool) then Some (c, a, None)
      else
        let c := (addRef (rs_name s) ref lset (Hash lset) c).1 in
        Some (c, if appendMetadataToWAL cfg then (ap_UpdateMetadata ref lset (rs_Metadata s) a).1 else a, None)
  | Some EOutOfOrderSample | Some EDuplicateSample => Some (c, a, None)
  | Some e => Some (c, a, Some e)
  end.

Fixpoint add_reports (l : list (reportSample * Z)) (t : Z) (rejectOOO : bool) (c : scrapeCache) (a : A)
  : option (scrapeCache * A * option scrape_error) :=
  match l with
  | [] => Some (c, a, None)
  | (s, v) :: l =>
      '(c, a, err) ← addReportSample s t v rejectOOO c a;
      match err with Some e => Some (c, a, Some e) | None => add_reports l t rejectOOO c a end
  end.

(** The values of a report as floats, in the order of the metrics. *)
Variable report_values : bool -> Z * Z * Z -> list Z.

Definition report (t : Z) (healthy : bool) (counts : Z * Z * Z) (c : scrapeCache) (a : A) : option (scrapeCache * A * option scrape_error) :=
  add_reports (zip report_samples (report_values healthy counts)) t false c a.

Definition reportStale (t : Z) (c : scrapeCache) (a : A) : option (scrapeCache * A * option scrape_error) :=
  add_reports (map (fun s => (s, StaleNaN)) report_samples) t true c a.

(** Commit, or Rollback after an error. *)
Definition finish_scrape (err : option scrape_error) (a : A) : A := match err with Some _ => ap_Rollback a | None => (ap_Commit a).1 end.

Definition reopen (a : A) : A := ap_New (ap_Rollback a).

(** An empty scrape, and a new appender if it fails. *)
Definition append_empty (t maxT : Z) (c : scrapeCache) (a : A) : option (scrapeCache * A) :=
  '(c, a, _, err) ← scrape_append EmptyBody t maxT c a;
  Some (c, match err with Some _ => reopen a | None => a end).

(** What the scraper brings: an error forced on the loop, an error, or a body. *)
Inductive scraped := Forced | ScrapeFailed | Scraped (b : body H FH X).

(** scrapeAndReport up to its deferred calls: with the counts, and whether there
    was no error. *)
Definition attempt (t maxT : Z) (r : scraped) (c : scrapeCache) (a : A) : option (scrapeCache * A * (Z * Z * Z) * bool) :=
  match r with
  | Forced => '(c, a) ← append_empty t maxT c a; Some (c, a, (0, 0, 0), false)
  | ScrapeFailed | Scraped _ =>
      let b := match r with Scraped b => b | _ => EmptyBody end in
      '(c, a, counts, appErr) ← scrape_append b t maxT c a;
      '(c, a) ← (match appErr with None => Some (c, a) | Some _ => append_empty t maxT c (reopen a) end : option (scrapeCache * A));
      Some (c, a, counts, match r, appErr with Scraped _, None => true | _, _ => false end)
  end.

(** scrapeAndReport, with the time of the scrape; the last result is whether the
    target is reported as healthy. *)
Definition scrapeAndReport (t maxT : Z) (r : scraped) (c : scrapeCache) (a : A) : option (scrapeCache * A * bool) :=
  '(c, a, counts, healthy) ← attempt t maxT r c (ap_New a);
  '(c, a, err) ← report t healthy counts c a;
  Some (c, finish_scrape err a, healthy).

(** endOfRunStaleness after its waits. *)
Definition endOfRunStaleness (staleTime maxT : Z) (c : scrapeCache) (a : A) : option (scrapeCache * A) :=
  '(c, a) ← append_empty staleTime maxT c (ap_New a);
  '(c, a, err) ← reportStale staleTime c a;
  Some (c, finish_scrape err a).

(** The scrapes of run, each with its time and the limit of time, and then
    endOfRunStaleness at [stop], unless there was no scrape or the markers are not
    wanted; the booleans tell which scrapes were reported as healthy. *)
Fixpoint scrapes (l : list (Z * Z * scraped)) (c : scrapeCache) (a : A) : option (scrapeCache * A * list bool) :=
  match l with
  | [] => Some (c, a, [])
  | (t, maxT, r) :: l =>
      '(c, a, healthy) ← scrapeAndReport t maxT r c a;
      '(c, a, hs) ← scrapes l c a;
      Some (c, a, healthy :: hs)
  end.

Definition run_loop (l : list (Z * Z * scraped)) (stop : option (Z * Z)) (c : scrapeCache) (a : A) : option (A * list bool) :=
  '(c, a, hs) ← scrapes l c a;
  match l, stop with
  | _ :: _, Some (staleTime, maxT) => '(c, a) ← endOfRunStaleness staleTime maxT c a; Some (a, hs)
  | _, _ => Some (a, hs)
  end.
End Loop.
