(* ===== verification/ScrapeStaleness.v ===== *)
(** What the scrape loop of ScrapeLoop does to the storage, over any storage that
    keeps the contract of [AppenderLaws]: the series that are no longer exposed get
    staleness markers.  A recorder around the storage's appender keeps the calls. *)
From stdpp Require Import strings fin_maps fin_sets.
From S2P Require Import Prelude Labels HeadChunks ScrapeCache ScrapeLoop.

(** ** The storage's contract *)

(** A reference stands for one label set for good once it was handed out
    ([ap_labels]); a series may be given another reference later.  0 is no
    reference. *)
Class AppenderLaws (A H FH X : Type) `{!Appender A H FH X} := {
  ap_labels : A -> Z -> option (list Label);
  law_Append a ref lset t v a' ref' err :
    ref = 0 \/ ap_labels a ref = Some lset -> ap_Append ref lset t v a = (a', ref', err) ->
    (forall r l, ap_labels a r = Some l -> ap_labels a' r = Some l) /\ (err = None -> ref' <> 0 /\ ap_labels a' ref' = Some lset);
  law_AppendHistogram a ref lset t h fh a' ref' err :
    ref = 0 \/ ap_labels a ref = Some lset -> ap_AppendHistogram ref lset t h fh a = (a', ref', err) ->
    (forall r l, ap_labels a r = Some l -> ap_labels a' r = Some l) /\ (err = None -> ref' <> 0 /\ ap_labels a' ref' = Some lset) /\
    (err <> None -> ref' = 0);
  law_AppendST a ref lset t st a' ref' err :
    ref = 0 \/ ap_labels a ref = Some lset -> ap_AppendSTZeroSample ref lset t st a = (a', ref', err) ->
    (forall r l, ap_labels a r = Some l -> ap_labels a' r = Some l) /\ (ref' = 0 \/ ap_labels a' ref' = Some lset);
  law_AppendHistogramST a ref lset t st h fh a' ref' err :
    ref = 0 \/ ap_labels a ref = Some lset -> ap_AppendHistogramSTZeroSample ref lset t st h fh a = (a', ref', err) ->
    (forall r l, ap_labels a r = Some l -> ap_labels a' r = Some l) /\ (ref' = 0 \/ ap_labels a' ref' = Some lset);
  law_SetOptions o a r l : ap_labels a r = Some l -> ap_labels (ap_SetOptions o a) r = Some l;
  law_AppendExemplar ref lset t x a r l : ap_labels a r = Some l -> ap_labels (ap_AppendExemplar ref lset t x a).1 r = Some l;
  law_UpdateMetadata ref lset m a r l : ap_labels a r = Some l -> ap_labels (ap_UpdateMetadata ref lset m a).1 r = Some l;
  law_Commit a r l : ap_labels a r = Some l -> ap_labels (ap_Commit a).1 r = Some l;
  law_Rollback a r l : ap_labels a r = Some l -> ap_labels (ap_Rollback a) r = Some l;
  law_New a r l : ap_labels a r = Some l -> ap_labels (ap_New a) r = Some l }.

Class HistogramBucketsLaws (H : Type) `{!HistogramBuckets H} := {
  law_ReduceResolution s h h' : ReduceResolution s h = inl h' -> hb_Schema h' = s }.

(** ** The recorder *)

(** A call of Append or AppendHistogram; [ev_marker] when early out-of-order
    samples are to be rejected, which only staleness markers ask for. *)
Record event := mk_event { ev_marker : bool; ev_ref : Z; ev_lset : list Label; ev_t : Z; ev_err : option scrape_error }.

Record recorder (A : Type) := mk_recorder { rc_app : A; rc_option : bool; rc_pending : list event; rc_committed : list event }.
Arguments mk_recorder {A} _ _ _ _.
Arguments rc_app {A} _.
Arguments rc_option {A} _.
Arguments rc_pending {A} _.
Arguments rc_committed {A} _.

Section Recorder.
  Context {A H FH X : Type} `{!Appender A H FH X}.
  Implicit Types r : recorder A.

Definition with_app (a : A) r : recorder A := mk_recorder a (rc_option r) (rc_pending r) (rc_committed r).

Definition record_call (ref : Z) (lset : list Label) (t : Z) (res : append_result A) r : append_result (recorder A) :=
  let '(a, ref', err) := res in
  (mk_recorder a (rc_option r) (rc_pending r ++ [mk_event (rc_option r) ref lset t err]) (rc_committed r), ref', err).

#[global] Instance recording : Appender (recorder A) H FH X := {|
  ap_SetOptions o r := mk_recorder (ap_SetOptions o (rc_app r)) o (rc_pending r) (rc_committed r);
  ap_Append ref lset t v r := record_call ref lset t (ap_Append ref lset t v (rc_app r)) r;
  ap_AppendHistogram ref lset t h fh r := record_call ref lset t (ap_AppendHistogram ref lset t h fh (rc_app r)) r;
  ap_AppendSTZeroSample ref lset t st r :=
    let '(a, ref, err) := ap_AppendSTZeroSample ref lset t st (rc_app r) in (with_app a r, ref, err);
  ap_AppendHistogramSTZeroSample ref lset t st h fh r :=
    let '(a, ref, err) := ap_AppendHistogramSTZeroSample ref lset t st h fh (rc_app r) in (with_app a r, ref, err);
  ap_AppendExemplar ref lset t x r := let '(a, err) := ap_AppendExemplar ref lset t x (rc_app r) in (with_app a r, err);
  ap_UpdateMetadata ref lset m r := let '(a, err) := ap_UpdateMetadata ref lset m (rc_app r) in (with_app a r, err);
  ap_Commit r :=
    let '(a, err) := ap_Commit (rc_app r) in
    (mk_recorder a (rc_option r) [] (match err with None => rc_committed r ++ rc_pending r | Some _ => rc_committed r end), err);
  ap_Rollback r := mk_recorder (ap_Rollback (rc_app r)) (rc_option r) [] (rc_committed r);
  ap_New r := mk_recorder (ap_New (rc_app r)) false [] (rc_committed r) |}.
End Recorder.

(** ** What a call does *)

Section Calls.
  Context {A H FH X : Type} `{!Appender A H FH X} `{!AppenderLaws A H FH X}.
  Context `{!HistogramBuckets H} `{!HistogramBuckets FH} `{!HistogramBucketsLaws H} `{!HistogramBucketsLaws FH}.
  Implicit Types a : recorder A.

Definition ref_labels a (r : Z) : option (list Label) := ap_labels (rc_app a) r.
Definition known a (ref : Z) (lset : list Label) : Prop := ref = 0 \/ ref_labels a ref = Some lset.
Definition extends a a' : Prop := forall r l, ref_labels a r = Some l -> ref_labels a' r = Some l.

(** The recorder goes on by the events [evs] of the current appender. *)
Record goes_on a a' (evs : list event) : Prop := {
  go_labels : extends a a';
  go_option : rc_option a' = rc_option a;
  go_pending : rc_pending a' = rc_pending a ++ evs;
  go_committed : rc_committed a' = rc_committed a }.

Lemma extends_refl a : extends a a.
Proof. by intros r l. Qed.

Lemma goes_on_refl a : goes_on a a [].
Proof. split; [apply extends_refl|done|by rewrite app_nil_r|done]. Qed.

Lemma goes_on_trans a b c e1 e2 : goes_on a b e1 -> goes_on b c e2 -> goes_on a c (e1 ++ e2).
Proof.
  intros [A1 A2 A3 A4] [B1 B2 B3 B4]. split; [intros r l Hr; by apply B1, A1|congruence|by rewrite B3, A3, app_assoc|congruence].
Qed.

Lemma known_extends a a' ref lset : extends a a' -> known a ref lset -> known a' ref lset.
Proof. intros He [->|Hk]; [by left|right; by apply He]. Qed.

(** The sample of [lset] was accepted, or not: then no reference is returned. *)
Definition sampled a (ref : Z) (lset : list Label) (t : Z) a' (ref' : Z) (err : option scrape_error) : Prop :=
  exists evs, goes_on a a' evs /\
    match err with
    | None => ref' <> 0 /\ ref_labels a' ref' = Some lset /\ evs = [mk_event (rc_option a) ref lset t None]
    | Some e => ref' = 0 /\ (evs = [] \/ evs = [mk_event (rc_option a) ref lset t (Some e)])
    end.

Lemma sampled_refused a ref lset t e : sampled a ref lset t a 0 (Some e).
Proof. exists []. split; [apply goes_on_refl|]. split; [done|by left]. Qed.

Lemma recorded_sampled a ref lset t res i :
  (let '(a', ref', err) := res in (forall r l, ap_labels (rc_app a) r = Some l -> ap_labels a' r = Some l) /\
     (err = None -> ref' <> 0 /\ ap_labels a' ref' = Some lset)) ->
  exists a' ref' err, wrap i (record_call ref lset t res a) = ((a', i), ref', err) /\ sampled a ref lset t a' ref' err.
Proof.
  destruct res as [[a1 ref1] err]. intros [He Hok]. unfold record_call, wrap, no_ref, counted.
  set (a' := mk_recorder a1 _ _ _). assert (Hg : goes_on a a' [mk_event (rc_option a) ref lset t err]) by (split; [exact He|done|done|done]).
  destruct err as [e|]; eexists a', _, _; (split; [reflexivity|]); eexists; (split; [exact Hg|]).
  - split; [done|by right].
  - destruct (Hok eq_refl) as [H1 H2]. by split_and!.
Qed.

Lemma counted_wrap i (r : append_result (recorder A)) : (r.2 <> None -> r.1.2 = 0) -> counted i r = wrap i r.
Proof. destruct r as [[a ref] [e|]]; [|done]. cbn. intros H0. by rewrite H0. Qed.

Notation outcome_is r a ref lset t := (exists a' i' ref' err, r = ((a', i'), ref', err) /\ sampled a ref lset t a' ref' err).

Lemma limit_Append_spec l ref lset t v a i : known a ref lset -> outcome_is (limit_Append l ref lset t v (a, i)) a ref lset t.
Proof.
  intros Hk. unfold limit_Append.
  assert (Hb : forall i, outcome_is (timeLimit_Append l ref lset t v (a, i)) a ref lset t).
  { intros j. unfold timeLimit_Append. destruct (maxTime l <? t).
    - eexists _, _, _, _. split; [reflexivity|apply sampled_refused].
    - cbn [fst snd]. destruct (recorded_sampled a ref lset t (ap_Append ref lset t v (rc_app a)) j) as (a' & ref' & err & E & Hs).
      { destruct (ap_Append _ _ _ _ _) as [[a1 ref1] err] eqn:E. by eapply law_Append; [|exact E]. }
      eexists a', j, ref', err. by split. }
  destruct (0 <? sampleLimit l); [|apply Hb]. cbn [fst snd]. case_match; [|apply Hb].
  eexists _, _, _, _. split; [reflexivity|apply sampled_refused].
Qed.

Lemma limit_AppendHistogram_spec l ref lset t h fh a i :
  known a ref lset -> outcome_is (limit_AppendHistogram l ref lset t h fh (a, i)) a ref lset t.
Proof.
  intros Hk. unfold limit_AppendHistogram.
  destruct (ap_AppendHistogram ref lset t h fh (rc_app a)) as [[a1 ref1] err1] eqn:E0.
  destruct (law_AppendHistogram _ _ _ _ _ _ _ _ _ Hk E0) as (L1 & L2 & L3).
  assert (Hb : forall i, outcome_is (wrap i (ap_AppendHistogram ref lset t h fh a)) a ref lset t).
  { intros j. destruct (recorded_sampled a ref lset t (a1, ref1, err1) j) as (a' & ref' & err & E & Hs); [by split|].
    cbn [ap_AppendHistogram recording]. rewrite E0. eexists a', j, ref', err. by split. }
  destruct (0 <? sampleLimit l).
  - cbn [fst snd]. set (counts := _ || _ || _). destruct (counts && _); [|apply Hb]. eexists _, _, _, _. split; [reflexivity|apply sampled_refused].
  - rewrite counted_wrap; [apply Hb|]. cbn. rewrite E0. exact L3.
Qed.

(** Thirteen turns are enough for any schema that can be reduced. *)
Lemma reduce_loop_total {G} `{!HistogramBuckets G} `{!HistogramBucketsLaws G} limit fuel : forall h : G,
  hb_Schema h <= ExponentialSchemaMin + Z.of_nat fuel -> is_Some (reduce_loop fuel limit h).
Proof.
  induction fuel as [|fuel IH]; intros h Hs; cbn [reduce_loop]; (destruct (limit <? hb_buckets h); [|done]);
    destruct (Z.leb_spec (hb_Schema h) ExponentialSchemaMin); try done; [lia|].
  destruct (ReduceResolution (hb_Schema h - 1) h) as [h'|e] eqn:E; [|done]. apply IH. rewrite (law_ReduceResolution _ _ _ E). lia.
Qed.

Lemma reduce_buckets_total {G} `{!HistogramBuckets G} `{!HistogramBucketsLaws G} limit (h : option G) : is_Some (reduce_buckets limit h).
Proof.
  destruct h as [h|]; [|done]. unfold reduce_buckets.
  destruct (limit <? hb_buckets h) eqn:El; cbn [andb].
  - destruct (IsExponentialSchema (hb_Schema h)) eqn:Es; [|done]. cbn [negb].
    destruct (reduce_loop_total limit 13 h) as [r ->]; [|done].
    unfold IsExponentialSchema, ExponentialSchemaMin, ExponentialSchemaMax in *. lia.
  - cbn [reduce_loop]. by rewrite El.
Qed.

Notation value_is r a ref lset t :=
  (exists a' i' ref' err, r = Some ((a', i'), ref', err) /\ sampled a ref lset t a' ref' err).

Lemma value_refused a i ref lset t e : value_is (Some ((a, i), 0, Some e) : option (append_result (recorder A * Z))) a ref lset t.
Proof. eexists _, _, _, _. split; [reflexivity|apply sampled_refused]. Qed.

(** A limit that passes a call on changes nothing of what it returns. *)
Lemma value_no_ref (r : option (append_result (recorder A * Z))) a ref lset t : value_is r a ref lset t -> value_is (no_ref <$> r) a ref lset t.
Proof.
  intros (a' & i' & ref' & err & -> & evs & G & Hs). exists a', i', ref', err. split; [|by exists evs]. cbn. destruct err as [e|]; [|done].
  by destruct Hs as [-> _].
Qed.

Lemma value_limited l ref lset t h fh a i : known a ref lset -> value_is (Some (limit_AppendHistogram l ref lset t h fh (a, i))) a ref lset t.
Proof.
  intros Hk. destruct (limit_AppendHistogram_spec l ref lset t h fh a i Hk) as (a' & i' & ref' & err & -> & Hs). by eexists _, _, _, _.
Qed.

Lemma bucketLimit_spec l ref lset t h fh a i : known a ref lset -> value_is (bucketLimit_AppendHistogram l ref lset t h fh (a, i)) a ref lset t.
Proof.
  intros Hk. unfold bucketLimit_AppendHistogram. destruct (0 <? bucketLimit l); [|by apply value_limited].
  destruct (reduce_buckets_total (bucketLimit l) h) as [[h1|e] ->]; cbn [mbind option_bind]; [|apply value_refused].
  destruct (reduce_buckets_total (bucketLimit l) fh) as [[fh1|e] ->]; cbn [mbind option_bind]; [|apply value_refused].
  by apply (value_no_ref (Some _)), value_limited.
Qed.

Lemma maxSchema_spec l ref lset t h fh a i : known a ref lset -> value_is (maxSchema_AppendHistogram l ref lset t h fh (a, i)) a ref lset t.
Proof.
  intros Hk. unfold maxSchema_AppendHistogram. destruct (maxSchema l <? ExponentialSchemaMax); [|by apply bucketLimit_spec].
  destruct (cap_schema (maxSchema l) h); [|apply value_refused]. destruct (cap_schema (maxSchema l) fh); [|apply value_refused].
  by apply value_no_ref, bucketLimit_spec.
Qed.

Lemma append_value_spec l ref lset t (v : sampleValue H FH) a i : known a ref lset -> value_is (append_value l ref lset t v (a, i)) a ref lset t.
Proof.
  intros Hk. destruct v as [v|h|fh]; cbn [append_value]; [|by apply maxSchema_spec..].
  destruct (limit_Append_spec l ref lset t v a i Hk) as (a' & i' & ref' & err & -> & Hs). by eexists _, _, _, _.
Qed.
End Calls.

(** ** The cache between two scrapes *)

Section Cache.
  Context {A H FH X : Type} `{!Appender A H FH X} `{!AppenderLaws A H FH X}.
  Implicit Types (a : recorder A) (c : scrapeCache).
  (** The label set that an exposed metric has after relabelling, [[]] if it is
      dropped, and the names of the report metrics. *)
  Variable lset_of : gostr -> list Label.
  Variable is_report : gostr -> Prop.

(** Entry [p] is tracked under [k]: the reference that the storage has for its
    labels. *)
Definition tracked a c (k : Z) (p : nat) : Prop :=
  k <> 0 /\ exists met e, ~ is_report met /\ series c !! met = Some p /\ entries c !! p = Some e /\ ce_ref e = k /\ ref_labels a k = Some (ce_lset e).

Record cache_ok a c : Prop := {
  co_series : forall met p, series c !! met = Some p -> exists e, entries c !! p = Some e /\ known a (ce_ref e) (ce_lset e) /\
    (~ is_report met -> ce_lset e = lset_of met /\ ce_lset e <> []);
  co_cur : forall k p, seriesCur c !! k = Some p -> tracked a c k p;
  co_seen : forall k p e, seriesCur c !! k = Some p -> entries c !! p = Some e -> ce_lastIter e = iter c;
  co_prev : forall k p, seriesPrev c !! k = Some p -> tracked a c k p }.

(** The label sets that a map tracks. *)
Definition tracks c (m : gmap Z nat) (l : list Label) : Prop :=
  exists k p e, m !! k = Some p /\ entries c !! p = Some e /\ ce_lset e = l.

Definition was c : list Label -> Prop := tracks c (seriesPrev c).
Definition now c : list Label -> Prop := tracks c (seriesCur c).

(** Every exposed metric is a series of its own. *)
Hypothesis one_each : forall met met', lset_of met = lset_of met' -> lset_of met <> [] -> met = met'.

Lemma tracked_entry a c k p e : tracked a c k p -> entries c !! p = Some e -> ce_ref e = k /\ ref_labels a k = Some (ce_lset e).
Proof. intros (_ & met & e' & _ & _ & E & H1 & H2) E'. rewrite E in E'. by injection E' as ->. Qed.

Lemma same_labels a c k p e met q e' :
  cache_ok a c -> tracked a c k p -> entries c !! p = Some e -> ~ is_report met -> series c !! met = Some q -> entries c !! q = Some e' ->
  ce_lset e = ce_lset e' -> p = q.
Proof.
  intros Hok (_ & met0 & e0 & Hr & Hs & E & _) E' Hr' Hs' Eq El. rewrite E in E'. injection E' as ->.
  destruct (co_series _ _ Hok _ _ Hs) as (e1 & E1 & _ & Hl). rewrite E in E1. injection E1 as <-.
  destruct (co_series _ _ Hok _ _ Hs') as (e2 & E2 & _ & Hl'). rewrite Eq in E2. injection E2 as <-.
  destruct (Hl Hr) as [L1 L2], (Hl' Hr') as [L3 _].
  assert (Em : met0 = met) by (apply one_each; congruence). subst. congruence.
Qed.

Lemma same_key a c k p e k' p' e' :
  cache_ok a c -> tracked a c k p -> tracked a c k' p' -> entries c !! p = Some e -> entries c !! p' = Some e' -> ce_lset e = ce_lset e' ->
  k = k' /\ p = p'.
Proof.
  intros Hok Ht Ht' E E' El. pose proof Ht' as (_ & met & e0 & Hr & Hs & E0 & Hk & _). rewrite E' in E0. injection E0 as <-.
  assert (Hp : p = p') by by eapply same_labels. split; [|done]. subst p'. rewrite E in E'. injection E' as <-.
  by destruct (tracked_entry _ _ _ _ _ Ht E) as [<- _].
Qed.

(** What the storage does later changes nothing. *)
Lemma cache_extends a a' c : extends a a' -> cache_ok a c -> cache_ok a' c.
Proof.
  intros He [H1 H2 H3 H4]. assert (Ht : forall k p, tracked a c k p -> tracked a' c k p).
  { intros k p (Hk & met & e & R1 & R2 & R3 & R4 & R5). split; [done|]. exists met, e. split_and!; try done. by apply He. }
  split.
  - intros met p Hs. destruct (H1 met p Hs) as (e & E & Hkn & Hl). exists e. split; [done|]. split; [by eapply known_extends|done].
  - intros k p Hc. by apply Ht, H2.
  - done.
  - intros k p Hc. by apply Ht, H4.
Qed.

(** Other fields may change. *)
Lemma cache_same a c c' :
  iter c' = iter c -> entries c' = entries c -> series c' = series c -> seriesCur c' = seriesCur c -> seriesPrev c' = seriesPrev c ->
  cache_ok a c -> cache_ok a c' /\ (forall l, was c' l <-> was c l) /\ (forall l, now c' l <-> now c l).
Proof.
  destruct c, c'. cbn. intros -> -> -> -> -> [H1 H2 H3 H4]. by split.
Qed.

(** An entry is marked as seen. *)
Lemma seen_ok a c p :
  cache_ok a c ->
  let c' := set_entries (alter (set_lastIter (iter c)) p (entries c)) c in
  cache_ok a c' /\ (forall l, was c' l <-> was c l) /\ (forall l, now c' l <-> now c l).
Proof.
  intros [H1 H2 H3 H4]. cbv zeta. set (c' := set_entries _ c).
  assert (Hfw : forall q e, entries c !! q = Some e -> exists e', entries c' !! q = Some e' /\ ce_ref e' = ce_ref e /\ ce_lset e' = ce_lset e /\
    (ce_lastIter e = iter c -> ce_lastIter e' = iter c)).
  { intros q e E. cbn. rewrite list_lookup_alter. case_decide as Ep; [subst|by exists e]. rewrite E. by eexists. }
  assert (Hbw : forall q e', entries c' !! q = Some e' -> exists e, entries c !! q = Some e /\ ce_lset e' = ce_lset e).
  { intros q e'. cbn. rewrite list_lookup_alter. case_decide as Ep; [subst|intros E; by exists e'].
    destruct (entries c !! q) as [e|]; cbn; [|done]. intros [= <-]. by exists e. }
  assert (Ht : forall k q, tracked a c k q -> tracked a c' k q).
  { intros k q (Hk & met & e & R1 & R2 & R3 & R4 & R5). split; [done|]. destruct (Hfw _ _ R3) as (e' & E' & Er & El & _).
    exists met, e'. rewrite Er, El. by split_and!. }
  assert (Htr : forall m l, tracks c' m l <-> tracks c m l).
  { intros m l. split; intros (k & q & e & Hm & E & El).
    - destruct (Hbw _ _ E) as (e0 & E0 & El0). exists k, q, e0. split_and!; [done|done|congruence].
    - destruct (Hfw _ _ E) as (e0 & E0 & _ & El0 & _). exists k, q, e0. split_and!; [done|done|congruence]. }
  split; [|by split; intros l; apply Htr]. split.
  - intros met q Hs. destruct (H1 met q Hs) as (e & E & Hkn & Hl). destruct (Hfw _ _ E) as (e' & E' & Er & El & _).
    exists e'. rewrite Er, El. by split_and!.
  - intros k q Hc. by apply Ht, H2.
  - intros k q e' Hc E'. destruct (H2 k q Hc) as (_ & met & e & _ & _ & E & _). destruct (Hfw _ _ E) as (e1 & E1 & _ & _ & Hi).
    rewrite E' in E1. injection E1 as <-. apply Hi. by eapply H3.
  - intros k q Hc. by apply Ht, H4.
Qed.

(** A tracked entry, or one that is not tracked yet, gets another reference. *)
Lemma updateRef_ok a c met p e ref :
  cache_ok a c -> ~ is_report met -> series c !! met = Some p -> entries c !! p = Some e -> ref <> 0 -> ref_labels a ref = Some (ce_lset e) ->
  exists c', updateRef p ref c = Some c' /\ cache_ok a c' /\ (forall l, was c' l <-> was c l) /\ (forall l, now c' l <-> now c l) /\
    iter c' = iter c /\ series c' = series c /\ exists e', entries c' !! p = Some e' /\ ce_ref e' = ref /\ ce_lset e' = ce_lset e /\ ce_lastIter e' = ce_lastIter e.
Proof.
  intros Hok Hr Hs E Hnz Hlab. unfold updateRef. rewrite E. cbn [mbind option_bind].
  destruct (Z.eqb_spec (ce_ref e) ref) as [Er|Hne].
  { exists c. split_and!; try done. exists e. by split_and!. }
  (* under the new reference nothing is tracked; the old one is this entry's *)
  assert (Hfree : forall k q, tracked a c k q -> k <> ref).
  { intros k q Ht ->. pose proof Ht as (_ & met' & e' & _ & _ & E' & Hk & Hl').
    assert (Hq : q = p) by (eapply same_labels; [done|exact Ht|exact E'|exact Hr|done|exact E|congruence]). subst q.
    rewrite E in E'. injection E' as <-. done. }
  assert (Hold : forall k q, tracked a c k q -> (k = ce_ref e <-> q = p)).
  { intros k q Ht. split; [|intros ->; by destruct (tracked_entry _ _ _ _ _ Ht E) as [<- _]].
    intros ->. pose proof Ht as (Hk & met' & e' & _ & _ & E' & _ & Hl').
    destruct (co_series _ _ Hok _ _ Hs) as (e1 & E1 & [Hz|Hkn] & _); rewrite E in E1; injection E1 as <-; [done|].
    eapply same_labels; [done|exact Ht|exact E'|exact Hr|done|exact E|congruence]. }
  set (move := if negb (ce_ref e =? 0) then moveStaleness (ce_ref e) p ref else id).
  assert (Hmove : forall m, (forall k q, m !! k = Some q -> tracked a c k q) -> forall k q, move m !! k = Some q <->
      (q = p /\ k = ref /\ m !! ce_ref e = Some p) \/ (q <> p /\ m !! k = Some q)).
  { intros m Hm k q. assert (Hnp : m !! ce_ref e <> Some p -> (m !! k = Some q <-> (q = p /\ k = ref /\ m !! ce_ref e = Some p) \/ (q <> p /\ m !! k = Some q))).
    { intros Hno. split; [|by intros [(_ & _ & ?)|[_ ?]]]. intros Hk. right. split; [|done]. intros ->.
      apply Hno. by rewrite <-(proj2 (Hold k p (Hm _ _ Hk)) eq_refl). }
    unfold move. destruct (Z.eqb_spec (ce_ref e) 0) as [Ez|Enz]; cbn [negb].
    { apply Hnp. intros Hk. by apply Hm in Hk as [? _]. }
    unfold moveStaleness. destruct (decide _) as [Hd|Hd]; [|by apply Hnp].
    rewrite lookup_insert_Some, lookup_delete_Some. split.
    - intros [[<- <-]|(H1 & H2 & H3)]; [by left|]. right. split; [|done]. intros ->. by apply H2; symmetry; apply (Hold k p); [apply Hm|].
    - intros [(-> & -> & _)|[H1 H2]]; [by left|]. right. split_and!; [|intros <-|done].
      + intros <-. by apply (Hfree _ _ (Hm _ _ H2)).
      + by rewrite Hd in H2; injection H2. }
  set (c' := set_entries (alter (set_ref ref) p (entries c)) (set_tracked (move (seriesCur c)) (move (seriesPrev c)) c)).
  assert (Ec' : Some (set_entries (alter (set_ref ref) p (entries (if negb (ce_ref e =? 0) then
      set_tracked (moveStaleness (ce_ref e) p ref (seriesCur c)) (moveStaleness (ce_ref e) p ref (seriesPrev c)) c else c)))
      (if negb (ce_ref e =? 0) then set_tracked (moveStaleness (ce_ref e) p ref (seriesCur c)) (moveStaleness (ce_ref e) p ref (seriesPrev c)) c else c)) = Some c').
  { unfold c', move. destruct (negb (ce_ref e =? 0)); [done|]. by destruct c. }
  rewrite Ec'. clear Ec'. exists c'. split; [done|].
  assert (Ep : entries c' !! p = Some (set_ref ref e)) by (cbn; by rewrite list_lookup_alter_eq, E).
  assert (En : forall q, q <> p -> entries c' !! q = entries c !! q) by (intros q Hq; cbn; by rewrite list_lookup_alter_ne).
  destruct Hok as [H1 H2 H3 H4].
  assert (Hent : forall q e0, entries c !! q = Some e0 -> exists e1, entries c' !! q = Some e1 /\ ce_lset e1 = ce_lset e0 /\ ce_lastIter e1 = ce_lastIter e0).
  { intros q e0 E0. destruct (decide (q = p)) as [->|Hq]; [rewrite E in E0; injection E0 as <-; by eexists|]. exists e0. by rewrite En. }
  assert (Hmt : forall m, (forall k q, m !! k = Some q -> tracked a c k q) -> forall k q, move m !! k = Some q -> tracked a c' k q).
  { intros m Hm k q [(-> & -> & _)|[Hq Hk]]%(Hmove m Hm).
    - split; [done|]. exists met, (set_ref ref e). by split_and!.
    - destruct (Hm _ _ Hk) as (Hk0 & met' & e' & R1 & R2 & R3 & R4 & R5). split; [done|]. exists met', e'. rewrite En by done. by split_and!. }
  assert (Htr : forall m, (forall k q, m !! k = Some q -> tracked a c k q) -> forall l, tracks c' (move m) l <-> tracks c m l).
  { intros m Hm l. split.
    - intros (k & q & e' & [(-> & -> & Hk)|[Hq Hk]]%(Hmove m Hm) & E' & El).
      + exists (ce_ref e), p, e. rewrite Ep in E'. injection E' as <-. by split_and!.
      + rewrite En in E' by done. by exists k, q, e'.
    - intros (k & q & e' & Hk & E' & El). destruct (decide (q = p)) as [->|Hq].
      + exists ref, p, (set_ref ref e). rewrite E in E'. injection E' as <-. split_and!; [|done|done]. apply Hmove; [done|]. left. split_and!; [done|done|].
        by rewrite <-(proj2 (Hold k p (Hm _ _ Hk)) eq_refl).
      + exists k, q, e'. rewrite En by done. split_and!; [|done|done]. apply Hmove; [done|]. by right. }
  split_and!; [split|by apply Htr|by apply Htr|done|done|].
  - intros met' q Hq. destruct (decide (q = p)) as [->|Hqp].
    + exists (set_ref ref e). split; [done|]. split; [by right|]. destruct (H1 met' p Hq) as (e0 & E0 & _ & Hl). rewrite E in E0. by injection E0 as <-.
    + destruct (H1 met' q Hq) as (e0 & E0 & Hx). exists e0. by rewrite En.
  - by apply Hmt.
  - intros k q e' Hk E'. assert (Hkq : exists k0, seriesCur c !! k0 = Some q).
    { apply (Hmove _ H2) in Hk as [(-> & -> & Hk)|[_ Hk]]; by eexists. }
    destruct Hkq as [k0 Hk0]. destruct (H2 _ _ Hk0) as (_ & _ & e0 & _ & _ & E0 & _). destruct (Hent q e0 E0) as (e1 & E1 & _ & Ei).
    rewrite E1 in E'. injection E' as <-. rewrite Ei. by eapply H3.
  - by apply Hmt.
  - exists (set_ref ref e). by split_and!.
Qed.

Lemma track_ok a c met p e ref :
  cache_ok a c -> ~ is_report met -> series c !! met = Some p -> entries c !! p = Some e -> ref <> 0 -> ce_ref e = ref ->
  ref_labels a ref = Some (ce_lset e) -> ce_lastIter e = iter c ->
  let c' := trackStaleness ref p c in
  cache_ok a c' /\ (forall l, was c' l <-> was c l) /\ (forall l, now c' l <-> now c l \/ l = ce_lset e).
Proof.
  intros Hok Hr Hs E Hnz Er Hlab Hi. cbv zeta. set (c' := trackStaleness ref p c).
  assert (Hp : tracked a c ref p) by (split; [done|]; exists met, e; by split_and!).
  assert (Hfree : forall q, seriesCur c !! ref = Some q -> q = p).
  { intros q Hq. pose proof (co_cur _ _ Hok _ _ Hq) as Ht. pose proof Ht as (_ & met' & e' & _ & _ & E' & _ & Hl').
    eapply same_labels; [done|exact Ht|exact E'|exact Hr|done|exact E|congruence]. }
  destruct Hok as [H1 H2 H3 H4]. split_and!; [split|done|].
  - done.
  - intros k q. cbn. rewrite lookup_insert_Some. intros [[<- <-]|[_ Hk]]; [done|by apply H2].
  - intros k q e'. cbn. rewrite lookup_insert_Some. intros [[<- <-]|[_ Hk]] E'; [rewrite E in E'; by injection E' as <-|by eapply H3].
  - done.
  - intros l. split.
    + intros (k & q & e' & Hk & E' & El). cbn in Hk, E'. apply lookup_insert_Some in Hk as [[<- <-]|[_ Hk]]; [|by left; exists k, q, e'].
      rewrite E in E'. injection E' as <-. by right.
    + intros [(k & q & e' & Hk & E' & El)| ->].
      * exists k, q, e'. split_and!; [|done|done]. cbn. destruct (decide (k = ref)) as [->|Hne]; [|by rewrite lookup_insert_ne].
        rewrite lookup_insert_eq. by rewrite (Hfree q Hk).
      * exists ref, p, e. split_and!; [|done|done]. cbn. by rewrite lookup_insert_eq.
Qed.

(** A metric that is not cached gets an entry. *)
Lemma addRef_ok a c met ref lset hash :
  cache_ok a c -> series c !! met = None -> known a ref lset -> (~ is_report met -> lset = lset_of met /\ lset <> []) ->
  let '(c', p) := addRef met ref lset hash c in
  cache_ok a c' /\ (forall l, was c' l <-> was c l) /\ (forall l, now c' l <-> now c l) /\
  iter c' = iter c /\ series c' !! met = Some p /\ entries c' !! p = Some (mk_cacheEntry ref (iter c) hash lset).
Proof.
  intros Hok Hs Hk Hl. unfold addRef. set (c' := set_series _ _).
  assert (Hfw : forall q e, entries c !! q = Some e -> entries c' !! q = Some e) by (intros q e E; by apply lookup_app_l_Some).
  assert (Hser : forall met' q, series c !! met' = Some q -> series c' !! met' = Some q).
  { intros met' q Hq. cbn. rewrite lookup_insert_ne; [done|]. intros <-. by rewrite Hs in Hq. }
  assert (Ht : forall k q, tracked a c k q -> tracked a c' k q).
  { intros k q (Hk0 & met' & e & R1 & R2 & R3 & R4 & R5). split; [done|]. exists met', e. split_and!; auto. }
  destruct Hok as [H1 H2 H3 H4].
  assert (Htr : forall m, (forall k q, m !! k = Some q -> tracked a c k q) -> forall l, tracks c' m l <-> tracks c m l).
  { intros m Hm l. split; intros (k & q & e & Hq & E & El).
    - destruct (Hm _ _ Hq) as (_ & met' & e' & _ & _ & E' & _). exists k, q, e'. rewrite (Hfw _ _ E') in E. injection E as <-. by split_and!.
    - exists k, q, e. split_and!; auto. }
  split_and!; [split|by apply Htr|by apply Htr|done|cbn; by rewrite lookup_insert_eq|cbn; by rewrite lookup_app_r, Nat.sub_diag by lia].
  - intros met' q. cbn. rewrite lookup_insert_Some. intros [[<- <-]|[_ Hq]].
    + eexists. rewrite lookup_app_r, Nat.sub_diag by lia. by split_and!.
    + destruct (H1 _ _ Hq) as (e & E & Hx). exists e. split; [by apply Hfw|done].
  - intros k q Hq. by apply Ht, H2.
  - intros k q e' Hq E'. cbn in Hq. destruct (H2 _ _ Hq) as (_ & _ & e & _ & _ & E & _). rewrite (Hfw _ _ E) in E'. injection E' as <-. by eapply H3.
  - intros k q Hq. by apply Ht, H4.
Qed.

(** The end of a scrape: what was tracked now was tracked then. *)
Lemma iterDone_ok a c b :
  cache_ok a c -> let c' := iterDone b c in cache_ok a c' /\ (forall l, was c' l <-> now c l) /\ (forall l, ~ now c' l).
Proof.
  intros [H1 H2 H3 H4]. cbv zeta. unfold iterDone.
  set (sf := if b then (cache_count c, true) else (successfulCount c, successfulCount c * 2 + 1000 <? cache_count c)).
  destruct sf as [n fl]. set (c1 := if fl then flush c else c).
  assert (Hs : forall met q, series c1 !! met = Some q -> series c !! met = Some q).
  { intros met q. unfold c1. destruct fl; [|done]. cbn. by intros [Hq _]%map_lookup_filter_Some. }
  assert (Hkeep : forall met k q, seriesCur c !! k = Some q -> series c !! met = Some q -> series c1 !! met = Some q).
  { intros met k q Hk Hq. unfold c1. destruct fl; [|done]. cbn. apply map_lookup_filter_Some. split; [done|]. cbn.
    destruct (H2 _ _ Hk) as (_ & _ & e & _ & _ & E & _). unfold seen_now. rewrite E, (H3 _ _ _ Hk E). apply Z.eqb_refl. }
  assert (Ef : entries c1 = entries c /\ seriesCur c1 = seriesCur c) by (unfold c1; by destruct fl).
  destruct Ef as [Ee Ec]. rewrite Ee, Ec. split_and!; [split; cbn| |].
  - intros met q Hq%Hs. by apply H1.
  - intros k q Hk. by rewrite lookup_empty in Hk.
  - intros k q e Hk. by rewrite lookup_empty in Hk.
  - intros k q Hk. destruct (H2 _ _ Hk) as (Hk0 & met & e & R1 & R2 & R3 & R4 & R5). split; [done|]. exists met, e. split_and!; try done.
    cbn. by eapply Hkeep.
  - done.
  - intros l (k & q & e & Hk & _). cbn in Hk. by rewrite lookup_empty in Hk.
Qed.

(** ** Staleness markers *)

Variable map_order : gmap Z nat -> list (Z * nat).
Hypothesis map_order_perm : forall m, map_order m ≡ₚ map_to_list m.

(** What forEachStale calls its callback with. *)
Definition stale_list c (l : list (Z * nat)) : list (Z * list Label) :=
  omap (fun kp => match seriesCur c !! kp.1 with Some _ => None | None => (fun e => (ce_ref e, ce_lset e)) <$> entries c !! kp.2 end) l.

Definition markers (t : Z) (l : list (Z * list Label)) (evs : list event) : Prop :=
  Forall (fun ev => ev_marker ev = true /\ ev_t ev = t) evs /\ map (fun ev => (ev_ref ev, ev_lset ev)) evs = l.

(** The storage refused it for another reason than its time. *)
Definition refused (ev : event) : Prop := exists e, ev_err ev = Some e /\ e <> EOutOfOrderSample /\ e <> EDuplicateSample.

(** An appender with a recorder inside, through which a marker for a known series passes. *)
Definition passes {B} (rec : B -> recorder A) (set_options : bool -> B -> B) (app : Z -> list Label -> Z -> Z -> B -> append_result B) (t : Z) : Prop :=
  (forall o b, rec (set_options o b) = ap_SetOptions o (rec b)) /\
  (forall b ref lset, ref <> 0 -> ref_labels (rec b) ref = Some lset ->
     exists b' ref' err, app ref lset t StaleNaN b = (b', ref', err) /\
       goes_on (rec b) (rec b') [mk_event (rc_option (rec b)) ref lset t err]).

Lemma stale_loop_spec {B} (rec : B -> recorder A) set_options app t c l : forall b,
  passes rec set_options app t -> rc_option (rec b) = false ->
  (forall k p, (k, p) ∈ l -> tracked (rec b) c k p) ->
  exists b' err evs stale rest, stale_loop (stale_marker set_options app t) c l (b, None) = Some (b', err) /\
    goes_on (rec b) (rec b') evs /\ markers t stale evs /\ stale_list c l = stale ++ rest /\ (err = None -> rest = []) /\ (err <> None -> Exists refused evs).
Proof.
  induction l as [|[k p] l IH]; intros b Hp Ho Ht; cbn [stale_loop].
  { exists b, None, [], [], []. split_and!; [done|apply goes_on_refl|by split|done|done|done]. }
  unfold stale_list. cbn [omap list_omap fst snd]. fold (stale_list c l).
  assert (Htl : forall k p, (k, p) ∈ l -> tracked (rec b) c k p) by (intros; apply Ht; by right).
  destruct (seriesCur c !! k) eqn:Ek; [by apply IH|].
  destruct (Ht k p) as (Hk & met & e & _ & _ & E & Er & Hlab); [by left|]. rewrite E. cbn [mbind option_bind fmap option_fmap option_map].
  destruct Hp as [Hp1 Hp2]. unfold stale_marker at 1. cbn [fst snd].
  destruct (Hp2 (set_options true b) (ce_ref e) (ce_lset e)) as (b1 & ref1 & err & E1 & Hg1).
  { by rewrite Er. }
  { rewrite Hp1, Er. unfold ref_labels. cbn. by apply law_SetOptions. }
  rewrite E1. set (err1 := match err with Some EOutOfOrderSample | Some EDuplicateSample => None | e => e end).
  set (b2 := set_options false b1).
  assert (Hg : goes_on (rec b) (rec b2) [mk_event true (ce_ref e) (ce_lset e) t err]).
  { destruct Hg1 as [G1 G2 G3 G4]. unfold b2. rewrite Hp1 in *. split; cbn in *; [|by rewrite Ho|done|done].
    intros r lb Hr. unfold ref_labels in *. cbn. apply law_SetOptions, G1. cbn. by apply law_SetOptions. }
  destruct (bool_decide (is_Some err1)) eqn:Eb; cbn [negb].
  - exists b2, err1, [mk_event true (ce_ref e) (ce_lset e) t err], [(ce_ref e, ce_lset e)], (stale_list c l).
    split_and!; [done|done|by split; [repeat constructor|]|done| |].
    + apply bool_decide_eq_true in Eb. intros E0. rewrite E0 in Eb. by destruct Eb.
    + intros _. left. unfold err1 in Eb. destruct err as [e0|]; [|done]. exists e0. split; [done|]. by destruct e0.
  - assert (En : err1 = None) by (destruct err1; [|done]; apply bool_decide_eq_false in Eb; destruct Eb; by eexists). rewrite En.
    destruct (IH b2) as (b' & err' & evs & stale & rest & E2 & Hg2 & [M1 M2] & Es & Hr & Hf); [done|by rewrite (go_option _ _ _ Hg)| |].
    { intros k' p' Hin. destruct (Htl k' p' Hin) as (T1 & met' & e' & T2 & T3 & T4 & T5 & T6). split; [done|]. exists met', e'.
      split_and!; try done. by apply (go_labels _ _ _ Hg). }
    exists b', err', (mk_event true (ce_ref e) (ce_lset e) t err :: evs), ((ce_ref e, ce_lset e) :: stale), rest.
    split_and!; [done|by apply (goes_on_trans _ _ _ _ _ Hg Hg2)| |by rewrite Es|done|by intros He; right; apply Hf].
    split; [by constructor|]. cbn. by rewrite M2.
Qed.

(** The markers are for the label sets that were tracked and are not now. *)
Lemma stale_list_spec a c :
  cache_ok a c ->
  let l := map snd (stale_list c (map_order (seriesPrev c))) in
  NoDup l /\ (forall x, x ∈ l <-> was c x /\ ~ now c x) /\
  Forall (fun kl => ref_labels a kl.1 = Some kl.2) (stale_list c (map_order (seriesPrev c))).
Proof.
  intros Hok. cbv zeta.
  assert (Hin : forall k p, (k, p) ∈ map_order (seriesPrev c) <-> seriesPrev c !! k = Some p)
    by (intros k p; rewrite map_order_perm; apply elem_of_map_to_list).
  assert (Hnd : NoDup (map_order (seriesPrev c)).*1) by (rewrite map_order_perm; apply NoDup_fst_map_to_list).
  assert (Hel : forall r x l, (r, x) ∈ stale_list c l <-> exists k p e, (k, p) ∈ l /\ seriesCur c !! k = None /\ entries c !! p = Some e /\ ce_ref e = r /\ ce_lset e = x).
  { intros r x l. unfold stale_list. rewrite list_elem_of_omap. split.
    - intros ([k p] & Hk & E). cbn in E. destruct (seriesCur c !! k) eqn:Ek; [done|]. destruct (entries c !! p) as [e|] eqn:Ee; [|done].
      injection E as <- <-. by exists k, p, e.
    - intros (k & p & e & Hk & Ek & Ee & <- & <-). exists (k, p). split; [done|]. cbn. by rewrite Ek, Ee. }
  assert (Hwas : forall x, x ∈ map snd (stale_list c (map_order (seriesPrev c))) <-> was c x /\ ~ now c x).
  { intros x. rewrite list_elem_of_fmap. split.
    - intros ([r y] & -> & Hy). apply Hel in Hy as (k & p & e & Hk & Ek & Ee & Er & <-). apply Hin in Hk. cbn. split; [by exists k, p, e|].
      intros (k' & p' & e' & Hk' & Ee' & El). destruct (same_key a c k' p' e' k p e) as [<- _]; [done|by eapply co_cur|by eapply co_prev|done|done|congruence|]. congruence.
    - intros [(k & p & e & Hk & Ee & El) Hno]. exists (ce_ref e, x). split; [done|]. apply Hel. exists k, p, e. split_and!; [by apply Hin| |done|done|done].
      destruct (seriesCur c !! k) as [q|] eqn:Ek; [|done]. destruct Hno. destruct (co_cur _ _ Hok _ _ Ek) as (_ & met & e' & _ & _ & Ee' & Hk' & Hl').
      destruct (tracked_entry a c k p e (co_prev _ _ Hok _ _ Hk) Ee) as [_ Hl]. exists k, q, e'. split_and!; [done|done|congruence]. }
  split_and!; [|done|].
  - assert (Hpw : forall l, (forall k p, (k, p) ∈ l -> tracked a c k p) -> NoDup l.*1 -> NoDup (map snd (stale_list c l))).
    { induction l as [|[k p] l IH]; intros Ht Hn; [constructor|]. apply NoDup_cons in Hn as [Hk Hn].
      assert (Hl : NoDup (map snd (stale_list c l))) by (apply IH; [intros; apply Ht; by right|done]).
      unfold stale_list. cbn. fold (stale_list c l). destruct (seriesCur c !! k); [done|]. destruct (entries c !! p) as [e|] eqn:Ee; [|done].
      cbn. constructor; [|done]. rewrite list_elem_of_fmap. intros ([r y] & Ey & Hy). cbn in Ey. subst y.
      apply Hel in Hy as (k' & p' & e' & Hk' & _ & Ee' & _ & El).
      destruct (same_key a c k p e k' p' e') as [<- _]; [done|apply Ht; by left|apply Ht; by right|done|done|congruence|].
      apply Hk. apply list_elem_of_fmap. by exists (k, p'). }
    apply Hpw; [|done]. intros k p Hk. eapply co_prev; [done|]. by apply Hin.
  - apply Forall_forall. intros [r x] Hx. apply Hel in Hx as (k & p & e & Hk & _ & Ee & <- & <-). apply Hin in Hk.
    destruct (tracked_entry a c k p e (co_prev _ _ Hok _ _ Hk) Ee) as [-> Hl]. exact Hl.
Qed.

(** ** The loop over a body *)

Context `{!HistogramBuckets H} `{!HistogramBuckets FH} `{!HistogramBucketsLaws H} `{!HistogramBucketsLaws FH}.
Variable sampleMutator : list Label -> list Label.
Variable Hash : list Label -> Z.
Variable IsValid : list Label -> bool.
Variable family : gostr -> family_type.
Variable sort_exemplars : list (Z * X) -> list (Z * X).
Variable cfg : loopConfig.
Notation scrape_sample := (@scrape_sample (recorder A) H FH X _ _ _ sampleMutator Hash IsValid family sort_exemplars cfg).
Notation scrape_entries := (@scrape_entries (recorder A) H FH X _ _ _ sampleMutator Hash IsValid family sort_exemplars cfg).

(** The label sets of the accepted samples among the calls. *)
Definition accepted (evs : list event) : list (list Label) :=
  omap (fun ev => if negb (ev_marker ev) && bool_decide (ev_err ev = None) then Some (ev_lset ev) else None) evs.

Definition untimed (s : parsedSample H FH X) : bool :=
  negb (honorTimestamps cfg && bool_decide (is_Some (ps_Timestamp s))) || trackTimestampsStaleness cfg.

(** The label sets [seen] are those of accepted samples, all if [all] holds. *)
Definition sees (all : bool) (evs : list event) (seen : list (list Label)) : Prop :=
  if all then seen = accepted evs else seen = accepted evs \/ seen = [].

(** From [c] to [c'] the label sets [seen] were exposed. *)
Record exposes a c a' c' (evs : list event) (seen : list (list Label)) : Prop := {
  ex_on : goes_on a a' evs;
  ex_samples : Forall (fun ev => ev_marker ev = false) evs;
  ex_ok : cache_ok a' c';
  ex_was : forall l, was c' l <-> was c l;
  ex_now : forall l, now c' l <-> now c l \/ l ∈ seen;
  ex_sub : forall l, l ∈ seen -> l ∈ accepted evs }.

Lemma exposes_nothing a c c' : cache_ok a c' -> (forall l, was c' l <-> was c l) -> (forall l, now c' l <-> now c l) -> exposes a c a c' [] [].
Proof.
  intros Hok Hw Hn. split; try done; [apply goes_on_refl|]. intros l. rewrite Hn. split; [by left|by intros [?|?%elem_of_nil]].
Qed.

Lemma exposes_trans a c a1 c1 a2 c2 e1 e2 s1 s2 :
  exposes a c a1 c1 e1 s1 -> exposes a1 c1 a2 c2 e2 s2 -> exposes a c a2 c2 (e1 ++ e2) (s1 ++ s2).
Proof.
  intros [A1 A2 A3 A4 A5 A6] [B1 B2 B3 B4 B5 B6]. split.
  - by eapply goes_on_trans.
  - by apply Forall_app.
  - done.
  - intros l. by rewrite B4.
  - intros l. rewrite B5, A5, elem_of_app. tauto.
  - intros l. unfold accepted. rewrite omap_app, !elem_of_app. intros [Hl|Hl]; [left; by apply A6|right; by apply B6].
Qed.

(** Exemplars and metadata are no samples. *)
Lemma goes_on_exemplars ref lset l : forall a i, goes_on a (append_exemplars ref lset l (a, i)).1 [] .
Proof.
  unfold append_exemplars. cbn [fst snd]. induction l as [|x l IH]; intros a i; cbn [foldl]; [apply goes_on_refl|].
  apply (goes_on_trans a (ap_AppendExemplar ref lset x.1 x.2 a).1 _ [] []); [|apply (IH _ i)].
  cbn. pose proof (fun r lb => law_AppendExemplar ref lset x.1 x.2 (rc_app a) r lb) as Hl.
  destruct (ap_AppendExemplar _ _ _ _ (rc_app a)) as [a1 e]. split; [exact Hl|done|by rewrite app_nil_r|done].
Qed.

Lemma goes_on_metadata cached ref lset c meta a i : goes_on a (append_metadata family cfg cached ref lset c meta (a, i)).1 [].
Proof.
  unfold append_metadata. destruct meta as [[n m]|]; [|apply goes_on_refl]. case_match; [|apply goes_on_refl]. cbn [fst snd].
  cbn. pose proof (fun r lb => law_UpdateMetadata ref lset (me_Metadata m) (rc_app a) r lb) as Hl.
  destruct (ap_UpdateMetadata _ _ _ (rc_app a)) as [a1 e]. split; [exact Hl|done|by rewrite app_nil_r|done].
Qed.

Lemma goes_on_st (s : parsedSample H FH X) ref lset t a i :
  known a ref lset -> let '((a', _), ref') := append_st cfg s ref lset t (a, i) in goes_on a a' [] /\ known a' ref' lset.
Proof.
  intros Hk. unfold append_st. destruct (_ && _); [|by split; [apply goes_on_refl|]]. cbn [fst snd].
  destruct (ps_value s) as [v|h|fh]; cbn.
  - destruct (ap_AppendSTZeroSample _ _ _ _ (rc_app a)) as [[a1 ref1] e] eqn:E.
    destruct (law_AppendST _ _ _ _ _ _ _ _ Hk E) as [H1 H2]. split; [|done]. split; [exact H1|done|by rewrite app_nil_r|done].
  - destruct (ap_AppendHistogramSTZeroSample _ _ _ _ _ _ (rc_app a)) as [[a1 ref1] e] eqn:E.
    destruct (law_AppendHistogramST _ _ _ _ _ _ _ _ _ _ Hk E) as [H1 H2]. split; [|done]. split; [exact H1|done|by rewrite app_nil_r|done].
  - destruct (ap_AppendHistogramSTZeroSample _ _ _ _ _ _ (rc_app a)) as [[a1 ref1] e] eqn:E.
    destruct (law_AppendHistogramST _ _ _ _ _ _ _ _ _ _ Hk E) as [H1 H2]. split; [|done]. split; [exact H1|done|by rewrite app_nil_r|done].
Qed.

(** The labels of a metric as the parser gives them, and as they are after
    relabelling. *)
Definition consistent (s : parsedSample H FH X) : Prop := ~ is_report (ps_met s) /\ sampleMutator (ps_Labels s) = lset_of (ps_met s).

(** The sample as it goes to the storage. *)
Lemma sample_appended lim t s ref lset a i c :
  cache_ok a c -> rc_option a = false -> known a ref lset ->
  let '((a0, i0), ref0) := append_st cfg s ref lset t (a, i) in
  exists a' i' ref' err evs,
    append_value lim ref0 lset t (ps_value s) (a0, i0) = Some ((a', i'), ref', err) /\ goes_on a a' evs /\ cache_ok a' c /\
    Forall (fun ev => ev_marker ev = false) evs /\
    match err with
    | None => ref' <> 0 /\ ref_labels a' ref' = Some lset /\ accepted evs = [lset]
    | Some _ => ref' = 0 /\ accepted evs = []
    end.
Proof.
  intros Hok Ho Hk. pose proof (goes_on_st s ref lset t a i Hk) as Hst. destruct (append_st _ _ _ _ _ _) as [[a0 i0] ref0]. destruct Hst as [G0 K0].
  destruct (append_value_spec lim ref0 lset t (ps_value s) a0 i0 K0) as (a' & i' & ref' & err & E & evs & G & Hev).
  exists a', i', ref', err, evs. split; [done|]. pose proof (goes_on_trans _ _ _ _ _ G0 G) as Gt. split; [done|].
  split; [by eapply cache_extends; [apply Gt|]|]. rewrite (go_option _ _ _ G0), Ho in Hev.
  destruct err as [e|].
  - destruct Hev as [-> [-> | ->]]; split; try done; by repeat constructor.
  - destruct Hev as (H1 & H2 & ->). split; [by repeat constructor|done].
Qed.

Lemma track_known_ok a c met p e ref lset s :
  cache_ok a c -> ~ is_report met -> series c !! met = Some p -> entries c !! p = Some e -> ce_lastIter e = iter c -> ce_lset e = lset ->
  ref <> 0 -> ref_labels a ref = Some lset ->
  exists c', track_known (untimed s) (Some p) ref c = Some c' /\ cache_ok a c' /\ (forall l, was c' l <-> was c l) /\
    (forall l, now c' l <-> now c l \/ l ∈ (if untimed s then [lset] else [])).
Proof.
  intros Hok Hr Hs E Hi El Hnz Hlab. unfold track_known. rewrite (proj2 (Z.eqb_neq _ _) Hnz).
  destruct (updateRef_ok a c met p e ref) as (c1 & E1 & Hok1 & W1 & N1 & I1 & S1 & e1 & Ee1 & Er1 & El1 & Ei1); try done; [by rewrite El|].
  rewrite E1. cbn [mbind option_bind]. rewrite Ee1. cbn [mbind option_bind]. rewrite Er1, (proj2 (Z.eqb_neq _ _) Hnz). cbn [negb andb].
  rewrite andb_true_r. destruct (untimed s).
  - destruct (track_ok a c1 met p e1 ref) as (Hok2 & W2 & N2); try done; [by rewrite S1|by rewrite El1, El|by rewrite Ei1, I1|].
    eexists. split; [reflexivity|]. split_and!; [done|intros l; by rewrite W2|]. intros l. rewrite N2, N1, El1, El, list_elem_of_singleton. done.
  - exists c1. split_and!; try done. intros l. rewrite N1. split; [by left|by intros [?|?%elem_of_nil]].
Qed.

Lemma track_new_ok a c met ref lset hash s :
  cache_ok a c -> ~ is_report met -> series c !! met = None -> known a ref lset -> lset = lset_of met -> lset <> [] ->
  let c' := track_new (untimed s) met ref lset hash c in
  cache_ok a c' /\ (forall l, was c' l <-> was c l) /\ (forall l, now c' l <-> now c l \/ l ∈ (if untimed s && negb (ref =? 0) then [lset] else [])).
Proof.
  intros Hok Hr Hs Hk El Hne. cbv zeta. unfold track_new.
  pose proof (addRef_ok a c met ref lset hash Hok Hs Hk (fun _ => conj El Hne)) as Ha.
  destruct (addRef met ref lset hash c) as [c1 p]. destruct Ha as (Hok1 & W1 & N1 & I1 & S1 & E1).
  destruct (untimed s); cbn [andb].
  2:{ split_and!; try done. intros l. rewrite N1. split; [by left|by intros [?|?%elem_of_nil]]. }
  destruct (Z.eqb_spec ref 0) as [Hz|Hnz]; cbn [negb].
  { split_and!; try done. intros l. rewrite N1. split; [by left|by intros [?|?%elem_of_nil]]. }
  destruct Hk as [Hk|Hk]; [done|].
  destruct (track_ok a c1 met p (mk_cacheEntry ref (iter c) hash lset) ref) as (Hok2 & W2 & N2); try done.
  split_and!; [done|intros l; by rewrite W2|]. intros l. rewrite N2, N1, list_elem_of_singleton. done.
Qed.

Lemma exposes_on a c a1 c1 a2 evs seen : exposes a c a1 c1 evs seen -> goes_on a1 a2 [] -> exposes a c a2 c1 evs seen.
Proof.
  intros [A1 A2 A3 A4 A5 A6] G. split; try done.
  - rewrite <-(app_nil_r evs). by eapply goes_on_trans.
  - eapply cache_extends; [apply G|done].
Qed.

Lemma exemplars_metadata_on ref lset l cached c meta a i :
  let '(a2, _) := append_metadata family cfg cached ref lset c meta (append_exemplars ref lset l (a, i)) in goes_on a a2 [].
Proof.
  pose proof (goes_on_exemplars ref lset l a i) as G1. destruct (append_exemplars ref lset l (a, i)) as [a1 i1].
  pose proof (goes_on_metadata cached ref lset c meta a1 i1) as G2. destruct (append_metadata _ _ _ _ _ _ _ (a1, i1)) as [a2 i2].
  by apply (goes_on_trans _ _ _ [] [] G1).
Qed.

(** What the step knows when it comes to the append: a cached entry or none. *)
Definition at_hand a c (met : gostr) (ce : option nat) (again : bool) (ref : Z) (lset : list Label) : Prop :=
  known a ref lset /\ lset = lset_of met /\ lset <> [] /\
  match ce with
  | Some p => exists e, series c !! met = Some p /\ entries c !! p = Some e /\ ce_lastIter e = iter c /\ ce_lset e = lset
  | None => series c !! met = None /\ again = false
  end.

(** The rest of the step. *)
Lemma append_step lim t s ce again ref hash lset a i c slim blim :
  cache_ok a c -> rc_option a = false -> ~ is_report (ps_met s) -> at_hand a c (ps_met s) ce again ref lset ->
  exists a' i' ref' err c1 added slim' blim' err',
    (if again then Some ((a, i), ref, Some EDuplicateSample)
     else let '(a, ref) := append_st cfg s ref lset t (a, i) in append_value lim ref lset t (ps_value s) a) = Some ((a', i'), ref', err) /\
    (match err with None => track_known (untimed s) ce ref' c | Some _ => Some c end) = Some c1 /\
    checkAddError err slim blim = (added, slim', blim', err') /\
    exists evs seen, sees (untimed s) evs seen /\ rc_option a' = false /\
      exposes a c a' (if negb (bool_decide (is_Some ce)) && added then track_new (untimed s) (ps_met s) ref' lset hash c1 else c1) evs seen /\
      (err' <> None -> exposes a c a' c1 evs seen).
Proof.
  intros Hok Ho Hr (Hk & El & Hne & Hce).
  destruct again.
  { destruct ce as [p|]; [|by destruct Hce]. eexists a, i, ref, (Some EDuplicateSample), c, false, slim, blim, None. do 3 (split; [done|]).
    exists [], []. split; [by destruct (untimed s); [|left]|]. split; [done|]. rewrite andb_false_r. split; [by apply exposes_nothing|done]. }
  pose proof (sample_appended lim t s ref lset a i c Hok Ho Hk) as Hs. destruct (append_st _ _ _ _ _ _) as [[a0 i0] ref0].
  destruct Hs as (a' & i' & ref' & err & evs & E & G & Hok' & Hf & Hev). assert (Ho' : rc_option a' = false) by (rewrite (go_option _ _ _ G); done).
  exists a', i', ref', err.
  destruct err as [e|].
  - destruct Hev as [-> Hacc]. destruct (checkAddError (Some e) slim blim) as [[[added slim'] blim'] err'] eqn:Ec.
    eexists c, added, slim', blim', err'. do 3 (split; [done|]). exists evs, [].
    assert (Hx : exposes a c a' c evs []).
    { split; try done. - intros l. split; [by left|by intros [?|?%elem_of_nil]]. - by intros l ?%elem_of_nil. }
    split; [unfold sees; rewrite Hacc; by destruct (untimed s); [|left]|]. split; [done|]. split; [|done].
    destruct (bool_decide (is_Some ce)) eqn:Eb; cbn [negb andb]; [done|]. destruct added; [|done].
    destruct ce as [p|]; [by rewrite bool_decide_eq_false in Eb; destruct Eb|]. destruct Hce as [Hs _].
    destruct (track_new_ok a' c (ps_met s) 0 lset hash s Hok' Hr Hs (or_introl eq_refl) El Hne) as (Hok2 & W2 & N2).
    destruct Hx as [X1 X2 X3 X4 X5 X6]. split; try done. intros l. rewrite N2. cbn [Z.eqb negb]. by rewrite andb_false_r.
  - destruct Hev as (Hnz & Hlab & Hacc). set (seen := if untimed s then [lset] else [] : list (list Label)).
    assert (Hse : sees (untimed s) evs seen) by (unfold sees, seen; rewrite Hacc; destruct (untimed s); [done|by right]).
    assert (Hsub : forall l, l ∈ seen -> l ∈ accepted evs) by (rewrite Hacc; unfold seen; destruct (untimed s); [done|by intros l ?%elem_of_nil]).
    destruct ce as [p|].
    + destruct Hce as (e & Hs & Ee & Ei & Ele).
      destruct (track_known_ok a' c (ps_met s) p e ref' lset s) as (c1 & E1 & Hok1 & W1 & N1); try done.
      exists c1, true, slim, blim, None. do 3 (split; [done|]). exists evs, seen. split; [done|]. split; [done|].
      cbn [bool_decide]. rewrite bool_decide_eq_true_2 by by eexists. cbn [negb andb]. split; [by split|done].
    + destruct Hce as [Hs _]. exists c, true, slim, blim, None. do 3 (split; [done|]). exists evs, seen. do 2 (split; [done|]).
      rewrite bool_decide_eq_false_2 by by intros [? ?]. cbn [negb andb]. split; [|done].
      destruct (track_new_ok a' c (ps_met s) ref' lset hash s Hok' Hr Hs (or_intror Hlab) El Hne) as (Hok2 & W2 & N2).
      split; try done. intros l. rewrite N2, (proj2 (Z.eqb_neq _ _) Hnz). cbn [negb]. by rewrite andb_true_r.
Qed.

Lemma untimed_eq (s : parsedSample H FH X) :
  negb (bool_decide (is_Some (if honorTimestamps cfg then ps_Timestamp s else None))) || trackTimestampsStaleness cfg = untimed s.
Proof. unfold untimed. destruct (honorTimestamps cfg); [done|]. by rewrite bool_decide_eq_false_2 by (by intros [? ?]). Qed.

Lemma again_eq (again : bool) (ts : option Z) : again && negb (bool_decide (is_Some ts)) = true -> again = true.
Proof. by destruct again. Qed.

(** The step does what [append_step] says, and then exemplars and metadata. *)
Lemma known_step lim t s ce again ref hash lset a i c slim blim (ls : loopState (A := recorder A)) n :
  cache_ok a c -> rc_option a = false -> ~ is_report (ps_met s) -> at_hand a c (ps_met s) ce again ref lset ->
  exists ls' err,
    ('(a, ref, err) ← (if again then Some ((a, i), ref, Some EDuplicateSample)
       else let '(a, ref) := append_st cfg s ref lset t (a, i) in append_value lim ref lset t (ps_value s) a);
     c ← (match err with None => track_known (untimed s) ce ref c | Some _ => Some c end);
     let '(sampleAdded, sampleLimitErr, bucketLimitErr, err) := checkAddError err slim blim in
     match err with
     | Some e => Some (mk_loopState c a (l_meta ls) n (l_added ls) (l_seriesAdded ls) sampleLimitErr bucketLimitErr, Some e)
     | None =>
         let cached := bool_decide (is_Some ce) in
         let fresh := negb cached && sampleAdded in
         let c := if fresh then track_new (untimed s) (ps_met s) ref lset hash c else c in
         let seriesAdded := if fresh && negb sampleLimitErr && negb bucketLimitErr then l_seriesAdded ls + 1 else l_seriesAdded ls in
         let a := append_exemplars ref lset (timed_exemplars sort_exemplars s t) a in
         let a := append_metadata family cfg cached ref lset c (l_meta ls) a in
         Some (mk_loopState c a (l_meta ls) n (l_added ls + 1) seriesAdded sampleLimitErr bucketLimitErr, None)
     end) = Some (ls', err) /\
    exists evs seen, sees (untimed s) evs seen /\ rc_option (l_app ls').1 = false /\ exposes a c (l_app ls').1 (l_cache ls') evs seen.
Proof.
  intros Hok Ho Hr Hat.
  destruct (append_step lim t s ce again ref hash lset a i c slim blim Hok Ho Hr Hat)
    as (a' & i' & ref' & err & c1 & added & slim' & blim' & err' & E1 & E2 & E3 & evs & seen & Hse & Ho' & Hx & Hxe).
  rewrite E1. cbn [mbind option_bind]. rewrite E2. cbn [mbind option_bind]. rewrite E3. destruct err' as [e|].
  - eexists _, _. split; [reflexivity|]. exists evs, seen. split; [done|]. cbn. split; [done|by apply Hxe].
  - set (c2 := if _ && added then _ else _) in *.
    pose proof (exemplars_metadata_on ref' lset (timed_exemplars sort_exemplars s t) (bool_decide (is_Some ce)) c2 (l_meta ls) a' i') as G.
    destruct (append_metadata _ _ _ _ _ _ _ _) as [a2 i2]. eexists _, _. split; [reflexivity|]. exists evs, seen. split; [done|].
    cbn [l_app l_cache fst]. split; [by rewrite (go_option _ _ _ G)|by eapply exposes_on].
Qed.

Lemma new_labels_ok s lset : consistent s -> new_labels sampleMutator IsValid cfg s = inl (Some lset) -> lset = lset_of (ps_met s) /\ lset <> [].
Proof.
  intros [_ Hc]. unfold new_labels. rewrite Hc. destruct (lset_of (ps_met s)) as [|x l]; [done|]. repeat case_match; try done. by intros [= <-].
Qed.

Lemma scrape_sample_spec lim t s ls :
  cache_ok (l_app ls).1 (l_cache ls) -> rc_option (l_app ls).1 = false -> consistent s ->
  exists ls' err, scrape_sample lim t s ls = Some (ls', err) /\
    exists evs seen, sees (untimed s) evs seen /\ rc_option (l_app ls').1 = false /\
      exposes (l_app ls).1 (l_cache ls) (l_app ls').1 (l_cache ls') evs seen.
Proof.
  destruct ls as [c [a i] meta n added sadded slim blim]. cbn [l_app l_cache fst]. intros Hok Ho Hc. pose proof Hc as [Hr _].
  unfold ScrapeLoop.scrape_sample. cbn [l_cache l_app l_meta l_total l_added l_seriesAdded l_sampleLimitErr l_bucketLimitErr].
  assert (Hstop : forall c' n' (err : option scrape_error), cache_ok a c' -> (forall l, was c' l <-> was c l) -> (forall l, now c' l <-> now c l) ->
    exists ls' err', Some (mk_loopState c' (a, i) meta n' added sadded slim blim, err) = Some (ls', err') /\
    exists evs seen, sees (untimed s) evs seen /\ rc_option (l_app ls').1 = false /\ exposes a c (l_app ls').1 (l_cache ls') evs seen).
  { intros c' n' err H1 H2 H3. eexists _, _. split; [reflexivity|]. exists [], []. split; [by destruct (untimed s); [|left]|].
    split; [done|by apply exposes_nothing]. }
  unfold getDropped. destruct (droppedSeries c !! ps_met s).
  { destruct (cache_same a c (set_dropped (<[ps_met s := iter c]> (droppedSeries c)) c)) as (H1 & H2 & H3); try done. by apply Hstop. }
  unfold cache_get. destruct (series c !! ps_met s) as [p|] eqn:Es.
  - destruct (co_series _ _ Hok _ _ Es) as (e & E & Hkn & Hl). destruct (Hl Hr) as [Hl1 Hl2]. rewrite E. cbn [mbind option_bind].
    set (c1 := set_entries _ c). destruct (seen_ok a c p Hok) as (Hok1 & W1 & N1). fold c1 in Hok1, W1, N1.
    assert (E1 : entries c1 !! p = Some (set_lastIter (iter c) e)) by (cbn; by rewrite list_lookup_alter_eq, E).
    rewrite E1. cbn [mbind option_bind ce_ref ce_hash ce_lset set_lastIter]. rewrite untimed_eq.
    set (ts := if honorTimestamps cfg then ps_Timestamp s else None).
    assert (Hat : at_hand a c1 (ps_met s) (Some p) ((ce_lastIter e =? iter c) && negb (bool_decide (is_Some ts))) (ce_ref e) (ce_lset e)).
    { split; [done|]. split; [done|]. split; [done|]. exists (set_lastIter (iter c) e). by split_and!. }
    destruct (known_step lim (default t ts) s (Some p) _ (ce_ref e) (ce_hash e) (ce_lset e) a i c1 slim blim
      (mk_loopState c (a, i) meta (n + 1) added sadded slim blim) (n + 1) Hok1 Ho Hr Hat) as (ls' & err & Eq & evs & seen & Hse & Ho' & Hx).
    exists ls', err. split; [exact Eq|]. exists evs, seen. split; [done|]. split; [done|].
    destruct Hx as [X1 X2 X3 X4 X5 X6]. split; try done; [intros l; by rewrite X4|intros l; by rewrite X5, N1].
  - cbn [mbind option_bind]. destruct (new_labels _ _ _ s) as [[lset|]|e] eqn:En.
    + destruct (new_labels_ok s lset Hc En) as [Hl1 Hl2]. rewrite untimed_eq. cbn [andb].
      set (ts := if honorTimestamps cfg then ps_Timestamp s else None).
      assert (Hat : at_hand a c (ps_met s) None false 0 lset) by (split; [by left|done]).
      destruct (known_step lim (default t ts) s None false 0 (Hash (ps_Labels s)) lset a i c slim blim
        (mk_loopState c (a, i) meta (n + 1) added sadded slim blim) (n + 1) Hok Ho Hr Hat) as (ls' & err & Eq & Hx).
      exists ls', err. by split.
    + destruct (cache_same a c (addDropped (ps_met s) c)) as (H1 & H2 & H3); try done. by apply Hstop.
    + by apply Hstop.
Qed.

Definition entry_ok (e : parsedEntry H FH X) : Prop := match e with EntrySample s => consistent s | _ => True end.
Definition all_untimed (l : list (parsedEntry H FH X)) : bool := forallb (fun e => match e with EntrySample s => untimed s | _ => true end) l.

Lemma scrape_entries_spec lim t l : forall perr ls,
  cache_ok (l_app ls).1 (l_cache ls) -> rc_option (l_app ls).1 = false -> Forall entry_ok l ->
  exists ls' err, scrape_entries lim t l perr ls = Some (ls', err) /\
    exists evs seen, (all_untimed l = true -> seen = accepted evs) /\ rc_option (l_app ls').1 = false /\
      exposes (l_app ls).1 (l_cache ls) (l_app ls').1 (l_cache ls') evs seen.
Proof.
  induction l as [|e l IH]; intros perr ls Hok Ho Hl; cbn [ScrapeLoop.scrape_entries].
  { exists ls, perr. split; [done|]. exists [], []. split; [done|]. split; [done|by apply exposes_nothing]. }
  apply Forall_cons in Hl as [He Hl].
  assert (Hmeta : forall name f g x, exists ls' err, scrape_entries lim t l perr (note_meta name (set_meta f g x (l_cache ls)) ls) = Some (ls', err) /\
    exists evs seen, (all_untimed l = true -> seen = accepted evs) /\ rc_option (l_app ls').1 = false /\
      exposes (l_app ls).1 (l_cache ls) (l_app ls').1 (l_cache ls') evs seen).
  { intros name f g x. destruct (cache_same (l_app ls).1 (l_cache ls) (set_meta f g x (l_cache ls)).1) as (H1 & H2 & H3);
      try (unfold set_meta; by destruct (metadata (l_cache ls) !! x)).
    destruct (IH perr (note_meta name (set_meta f g x (l_cache ls)) ls)) as (ls' & err & E & evs & seen & Hse & Ho' & Hx); [done|done|done|].
    exists ls', err. split; [done|]. exists evs, seen. split; [done|]. split; [done|].
    apply (exposes_trans _ _ _ _ _ _ [] evs [] seen (exposes_nothing _ _ _ H1 H2 H3) Hx). }
  destruct e as [n ty|n h|n u| |s].
  - apply Hmeta.
  - apply Hmeta.
  - apply Hmeta.
  - by apply IH.
  - destruct (scrape_sample_spec lim t s ls Hok Ho He) as (ls1 & err & E & evs & seen & Hse & Ho1 & Hx). rewrite E. cbn [mbind option_bind].
    cbn [all_untimed forallb].
    destruct err as [e|].
    + exists ls1, (Some e). split; [done|]. exists evs, seen. split; [|by split]. intros [Hu _]%andb_prop. by rewrite Hu in Hse.
    + destruct (IH perr ls1) as (ls2 & err2 & E2 & evs2 & seen2 & Hse2 & Ho2 & Hx2); [apply Hx|done|done|].
      exists ls2, err2. split; [done|]. exists (evs ++ evs2), (seen ++ seen2). split; [|split; [done|by eapply exposes_trans]].
      intros [Hu1 Hu2]%andb_prop. rewrite Hu1 in Hse. rewrite (Hse2 Hu2). cbn in Hse. rewrite Hse. unfold accepted. by rewrite omap_app.
Qed.

(** ** A scrape *)

Notation scrape_append := (@scrape_append (recorder A) H FH X _ _ _ sampleMutator Hash IsValid family sort_exemplars map_order cfg).

Definition body_ok (b : body H FH X) : Prop := match b with Parsed l _ => Forall entry_ok l | _ => True end.
Definition body_untimed (b : body H FH X) : bool := match b with Parsed l _ => all_untimed l | _ => true end.

(** Markers at the time [t], one for each label set of [gone], or of some of
    them, under a reference that the storage has for it. *)
Definition marks_exactly a (t : Z) (marks : list event) (gone : list Label -> Prop) (all : Prop) : Prop :=
  Forall (fun ev => ev_marker ev = true /\ ev_t ev = t /\ ref_labels a (ev_ref ev) = Some (ev_lset ev)) marks /\
  NoDup (map ev_lset marks) /\ (forall l, l ∈ map ev_lset marks -> gone l) /\ (all -> forall l, gone l -> l ∈ map ev_lset marks).

Lemma passes_append t : passes id (ap_SetOptions (A := recorder A)) ap_Append t.
Proof.
  split; [done|]. intros b ref lset Hnz Hl. cbn. destruct (ap_Append ref lset t StaleNaN (rc_app b)) as [[a1 ref1] err] eqn:E. cbn.
  destruct (law_Append _ _ _ _ _ _ _ _ (or_intror Hl) E) as [He _]. eexists _, _, _. split; [reflexivity|]. by split.
Qed.

Lemma passes_limits lim t :
  t <= maxTime lim -> passes fst (fun o (b : recorder A * Z) => (ap_SetOptions o b.1, b.2)) (limit_Append lim) t.
Proof.
  intros Ht. split; [done|]. intros [b i] ref lset Hnz Hl. cbn [fst] in *. unfold limit_Append, timeLimit_Append. cbn [fst snd].
  rewrite (proj2 (Z.eqb_neq _ _) Hnz), (proj2 (Z.ltb_ge _ _) Ht). cbn.
  destruct (ap_Append ref lset t StaleNaN (rc_app b)) as [[a1 ref1] err] eqn:E. cbn.
  destruct (law_Append _ _ _ _ _ _ _ _ (or_intror Hl) E) as [He _].
  destruct (0 <? sampleLimit lim); destruct err as [e|]; (eexists _, _, _; split; [reflexivity|]; by split).
Qed.

Lemma updateStaleMarkers_spec {B} (rec : B -> recorder A) set_options app t c b :
  passes rec set_options app t -> cache_ok (rec b) c -> rc_option (rec b) = false ->
  exists b' err marks, updateStaleMarkers map_order set_options app t c b = Some (b', err) /\ goes_on (rec b) (rec b') marks /\
    cache_ok (rec b') c /\ rc_option (rec b') = false /\ marks_exactly (rec b') t marks (fun l => was c l /\ ~ now c l) (err = None) /\
    (err <> None -> Exists refused marks).
Proof.
  intros Hp Hok Ho. unfold updateStaleMarkers, forEachStale.
  destruct (stale_loop_spec rec set_options app t c (map_order (seriesPrev c)) b Hp Ho) as (b' & err & marks & stale & rest & E & G & [M1 M2] & Es & Hr & Hf).
  { intros k p Hk. apply (co_prev _ _ Hok). apply elem_of_map_to_list. by rewrite <-map_order_perm. }
  destruct (stale_list_spec (rec b) c Hok) as (Hnd & Hin & Hlab). rewrite Es in Hnd, Hin, Hlab. rewrite map_app in Hnd, Hin.
  assert (Em : map ev_lset marks = map snd stale) by (rewrite <-M2, map_map; done).
  exists b', err, marks. split; [done|]. split; [done|]. split; [by eapply cache_extends; [apply G|]|]. split; [by rewrite (go_option _ _ _ G)|].
  split; [|done]. unfold marks_exactly. rewrite Em. split_and!.
  - apply Forall_app in Hlab as [Hlab _]. rewrite Forall_forall in Hlab. apply Forall_forall. intros ev Hev.
    rewrite Forall_forall in M1. destruct (M1 ev Hev) as [-> ->]. split_and!; try done. apply (go_labels _ _ _ G).
    apply (Hlab (ev_ref ev, ev_lset ev)). rewrite <-M2. apply list_elem_of_fmap. by exists ev.
  - by apply NoDup_app in Hnd as [Hnd _].
  - intros l Hl. apply Hin, elem_of_app. by left.
  - intros En l Hl. apply Hin, elem_of_app in Hl as [Hl|Hl]; [done|]. by rewrite (Hr En) in Hl; apply elem_of_nil in Hl.
Qed.

Lemma marked_none a t gone : (forall l, ~ gone l) -> forall all, marks_exactly a t [] gone all.
Proof. intros Hn all. split_and!; [constructor|constructor|by intros l ?%elem_of_nil|intros _ l Hl; by apply Hn in Hl]. Qed.

Lemma marked_false a t gone (all : Prop) : ~ all -> marks_exactly a t [] gone all.
Proof. intros Hn. by split_and!; [constructor|constructor|intros l ?%elem_of_nil|]. Qed.

Lemma marked_iff a t marks g g' all : (forall l, g l <-> g' l) -> marks_exactly a t marks g all -> marks_exactly a t marks g' all.
Proof. intros Hg (M1 & M2 & M3 & M4). split_and!; [done|done|intros l Hl; by apply Hg, M3|intros Ha l Hl; by apply M4, Hg]. Qed.

(** What [append] does to the cache and to the storage. *)
Record appended_ok (b : body H FH X) (t : Z) c a c' a' (err : option scrape_error) (samples marks : list event) (seen : list (list Label)) : Prop := {
  aok_on : goes_on a a' (samples ++ marks);
  aok_cache : cache_ok a' c';
  aok_option : rc_option a' = false;
  aok_samples : Forall (fun ev => ev_marker ev = false) samples;
  aok_seen : forall l, l ∈ seen -> l ∈ accepted samples;
  aok_all : body_untimed b = true -> seen = accepted samples;
  aok_marks : marks_exactly a' t marks (fun l => was c l /\ ~ now c l /\ l ∉ seen) (err = None /\ forall e, b <> NoParser e);
  aok_next : match b, err with
             | NoParser _, _ => c' = c /\ samples = []
             | EmptyBody, _ => (forall l, was c' l <-> now c l) /\ (forall l, ~ now c' l) /\ samples = [] /\ (err <> None -> Exists refused marks)
             | Parsed _ _, None => (forall l, was c' l <-> now c l \/ l ∈ seen) /\ (forall l, ~ now c' l)
             | Parsed _ _, Some _ => (forall l, was c' l <-> was c l) /\ (forall l, now c' l <-> now c l \/ l ∈ seen)
             end }.

Lemma append_spec b t maxT c a :
  cache_ok a c -> rc_option a = false -> t <= maxT -> body_ok b ->
  exists c' a' counts err samples marks seen, scrape_append b t maxT c a = Some (c', a', counts, err) /\ appended_ok b t c a c' a' err samples marks seen.
Proof.
  intros Hok Ho Ht Hb. destruct b as [|e|l perr]; cbn [ScrapeLoop.scrape_append].
  - destruct (updateStaleMarkers_spec id ap_SetOptions ap_Append t c a (passes_append t) Hok Ho) as (a' & err & marks & E & G & Hok' & Ho' & Hm & Hf).
    rewrite E. cbn [mbind option_bind]. destruct (iterDone_ok a' c false Hok') as (Hok2 & W2 & N2).
    exists (iterDone false c), a', (0, 0, 0), err, [], marks, []. split; [done|]. split; [exact G|done|exact Ho'|done| |done| |done].
    + by intros l ?%elem_of_nil.
    + destruct Hm as (M1 & M2 & M3 & M4). split_and!; [done|done| |].
      * intros l Hl. destruct (M3 l Hl). split_and!; [done|done|by intros ?%elem_of_nil].
      * intros [He _] l (H1 & H2 & _). by apply M4.
  - exists c, a, (0, 0, 0), e, [], [], []. split; [done|]. split; [apply goes_on_refl|done|done|done| |done| |done].
    + by intros l ?%elem_of_nil.
    + apply marked_false. intros [_ Hn]. by apply (Hn e).
  - set (lim := mk_limits maxT _ _ _).
    destruct (scrape_entries_spec lim t l perr (mk_loopState c (a, 0) None 0 0 0 false false) Hok Ho Hb) as (ls & err0 & E & samples & seen & Hse & Ho1 & Hx).
    rewrite E. cbn [mbind option_bind]. cbn [l_app l_cache fst] in Hx. destruct Hx as [X1 X2 X3 X4 X5 X6].
    set (err1 := match err0 with None => if l_sampleLimitErr ls then Some ESampleLimit else None | e => e end).
    set (err2 := match err1 with None => if l_bucketLimitErr ls then Some EBucketLimit else None | e => e end).
    destruct err2 as [e|]; cbn [mbind option_bind].
    + eexists _, _, _, _, samples, [], seen. split; [reflexivity|].
      split; [by rewrite app_nil_r|exact X3|exact Ho1|exact X2|exact X6|exact Hse| |by split]. apply marked_false. by intros [? _].
    + destruct (updateStaleMarkers_spec fst (fun o (b : recorder A * Z) => (ap_SetOptions o b.1, b.2)) (limit_Append lim) t (l_cache ls) (l_app ls)
        (passes_limits lim t Ht) X3 Ho1) as (a' & err & marks & E2 & G & Hok' & Ho' & Hm & _).
      rewrite E2. cbn [mbind option_bind].
      assert (Hmk : marks_exactly a'.1 t marks (fun x => was c x /\ ~ now c x /\ x ∉ seen) (err = None /\ forall e, Parsed l perr <> NoParser e)).
      { destruct Hm as (M1 & M2 & M3 & M4). split_and!; [done|done| |].
        - intros x Hl. destruct (M3 x Hl) as [H1 H2]. rewrite X4 in H1. rewrite X5 in H2. split_and!; [done| |]; intros ?; apply H2; [by left|by right].
        - intros [He _] x (H1 & H2 & H3). apply M4; [done|]. rewrite X4, X5. split; [done|]. by intros [?|?]. }
      destruct err as [e|].
      * eexists _, _, _, _, samples, marks, seen. split; [reflexivity|].
        split; [by eapply goes_on_trans|exact Hok'|exact Ho'|exact X2|exact X6|exact Hse|exact Hmk|by split].
      * destruct (iterDone_ok a'.1 (l_cache ls) true Hok') as (Hok2 & W2 & N2).
        eexists _, _, _, _, samples, marks, seen. split; [reflexivity|].
        split; [by eapply goes_on_trans|exact Hok2|exact Ho'|exact X2|exact X6|exact Hse|exact Hmk|]. split; [|done]. intros x. rewrite W2. apply X5.
Qed.

(** ** Reports, and a whole scrape *)

Variable reportSampleMutator : list Label -> list Label.
Variable report_values : bool -> Z * Z * Z -> list Z.
Hypothesis reports_known : forall s, s ∈ report_samples cfg -> is_report (rs_name s).
Notation addReportSample := (@addReportSample (recorder A) H FH X _ reportSampleMutator Hash cfg).
Notation add_reports := (@add_reports (recorder A) H FH X _ reportSampleMutator Hash cfg).
Notation append_empty := (@append_empty (recorder A) H FH X _ _ _ sampleMutator Hash IsValid family sort_exemplars map_order cfg).
Notation scrapeAndReport :=
  (@scrapeAndReport (recorder A) H FH X _ _ _ sampleMutator reportSampleMutator Hash IsValid family sort_exemplars map_order cfg report_values).
Notation endOfRunStaleness :=
  (@endOfRunStaleness (recorder A) H FH X _ _ _ sampleMutator reportSampleMutator Hash IsValid family sort_exemplars map_order cfg).

(** The cache after reports: nothing that is tracked changes. *)
Record reported (o : bool) (t : Z) a c a' c' (evs : list event) : Prop := {
  re_on : goes_on a a' evs;
  re_ok : cache_ok a' c';
  re_was : forall l, was c' l <-> was c l;
  re_now : forall l, now c' l <-> now c l;
  re_evs : Forall (fun ev => ev_marker ev = o /\ ev_t ev = t) evs }.

Lemma set_options_on o a : rc_option a = false -> goes_on a (ap_SetOptions false (ap_SetOptions o a)) [].
Proof.
  intros Ho. split; [|by cbn; rewrite Ho|by cbn; rewrite app_nil_r|done]. intros r l Hr. unfold ref_labels. cbn. by do 2 apply law_SetOptions.
Qed.

Lemma report_sample_spec s t v o c a :
  cache_ok a c -> rc_option a = false -> is_report (rs_name s) ->
  exists c' a' err evs, addReportSample s t v o c a = Some (c', a', err) /\ reported o t a c a' c' evs /\ (err <> None -> Exists refused evs).
Proof.
  intros Hok Ho Hr. unfold ScrapeLoop.addReportSample, cache_get.
  assert (Happ : forall ref lset, known a ref lset -> exists a' ref' err,
    (let '(a1, ref', err) := ap_Append ref lset t v (if o then ap_SetOptions true a else a) in
     ((if o then ap_SetOptions false a1 else a1), ref', err)) = (a', ref', err) /\ goes_on a a' [mk_event o ref lset t err] /\
    (err = None -> known a' ref' lset)).
  { intros ref lset Hk. set (a0 := if o then ap_SetOptions true a else a).
    assert (E0 : rc_option a0 = o /\ extends a a0 /\ rc_pending a0 = rc_pending a /\ rc_committed a0 = rc_committed a).
    { unfold a0. destruct o; cbn; (split; [done|]); split; try done; [intros r l Hl; by apply law_SetOptions|by intros r l]. }
    destruct E0 as (O0 & X0 & P0 & C0). pose proof (known_extends _ _ _ _ X0 Hk) as Hk0.
    cbn. destruct (ap_Append ref lset t v (rc_app a0)) as [[a1 ref1] err] eqn:E. cbn.
    destruct (law_Append _ _ _ _ _ _ _ _ Hk0 E) as [He Hl]. rewrite O0, P0, C0.
    eexists _, _, _. split; [reflexivity|].
    assert (Hx : forall r l, ref_labels a r = Some l -> ap_labels a1 r = Some l) by (intros r l Hrl; by apply He, X0).
    destruct o; (split; [split; try done|]); try (cbn; by rewrite Ho).
    - intros r l Hrl. unfold ref_labels. cbn. by apply law_SetOptions, Hx.
    - intros ->. destruct (Hl eq_refl) as [_ Hl']. right. unfold ref_labels. cbn. by apply law_SetOptions.
    - intros ->. destruct (Hl eq_refl) as [_ Hl']. by right. }
  assert (Hmeta : forall a1 ref1 lset evs, goes_on a a1 evs -> goes_on a (if appendMetadataToWAL cfg then (ap_UpdateMetadata ref1 lset (rs_Metadata s) a1).1 else a1) evs).
  { intros a1 ref1 lset evs G. destruct (appendMetadataToWAL cfg); [|done]. rewrite <-(app_nil_r evs). eapply goes_on_trans; [exact G|]. cbn.
    pose proof (fun r lb => law_UpdateMetadata ref1 lset (rs_Metadata s) (rc_app a1) r lb) as Hl.
    destruct (ap_UpdateMetadata _ _ _ (rc_app a1)) as [a2 e]. split; [exact Hl|done|by rewrite app_nil_r|done]. }
  destruct (series c !! rs_name s) as [p|] eqn:Es.
  - destruct (co_series _ _ Hok _ _ Es) as (e & E & Hkn & _). rewrite E. cbn [mbind option_bind]. set (c1 := set_entries _ c).
    destruct (seen_ok a c p Hok) as (Hok1 & W1 & N1). fold c1 in Hok1, W1, N1.
    assert (E1 : entries c1 !! p = Some (set_lastIter (iter c) e)) by (cbn; by rewrite list_lookup_alter_eq, E).
    rewrite E1. cbn [mbind option_bind ce_ref ce_lset set_lastIter].
    destruct (Happ (ce_ref e) (ce_lset e) Hkn) as (a' & ref' & err & Ea & G & _).
    destruct (ap_Append _ _ _ _ _) as [[a1 ref1] err1]. injection Ea as <- <- <-.
    assert (Hrep : reported o t a c (if o then ap_SetOptions false a1 else a1) c1 [mk_event o (ce_ref e) (ce_lset e) t err1]).
    { split; [done|by eapply cache_extends; [apply G|]|done|done|by repeat constructor]. }
    destruct err1 as [e1|]; [|by eexists _, _, _, _; split; [reflexivity|split; [exact Hrep|]]].
    destruct e1; eexists _, _, _, _; (split; [reflexivity|]; split; [exact Hrep|]); try done; intros _; left; eexists; by split.
  - cbn [mbind option_bind]. set (lset := reportSampleMutator _).
    destruct (Happ 0 lset (or_introl eq_refl)) as (a' & ref' & err & Ea & G & Hk).
    destruct (ap_Append _ _ _ _ _) as [[a1 ref1] err1]. injection Ea as <- <- <-. set (a2 := if o then _ else a1) in *.
    assert (Hrep : reported o t a c a2 c [mk_event o 0 lset t err1]).
    { split; [done|by eapply cache_extends; [apply G|]|done|done|by repeat constructor]. }
    destruct err1 as [e1|].
    { destruct e1; eexists _, _, _, _; (split; [reflexivity|]; split; [exact Hrep|]); try done; intros _; left; eexists; by split. }
    pose proof (addRef_ok a2 c (rs_name s) ref1 lset (Hash lset)) as Ha.
    destruct (addRef _ _ _ _ c) as [c1 p]. destruct Ha as (Hok1 & W1 & N1 & _); [apply Hrep|done|by apply Hk|done|].
    eexists _, _, _, _. split; [reflexivity|]. split; [|done]. destruct Hrep as [R1 R2 R3 R4 R5]. split; [by apply Hmeta| |done|done|done].
    eapply cache_extends; [|exact Hok1]. cbn [fst]. destruct (appendMetadataToWAL cfg); [|by intros r l].
    intros r l Hrl. cbn. pose proof (law_UpdateMetadata ref1 lset (rs_Metadata s) (rc_app a2) r l Hrl) as Hl.
    destruct (ap_UpdateMetadata _ _ _ (rc_app a2)). exact Hl.
Qed.

Lemma reported_trans o t a c a1 c1 a2 c2 e1 e2 : reported o t a c a1 c1 e1 -> reported o t a1 c1 a2 c2 e2 -> reported o t a c a2 c2 (e1 ++ e2).
Proof.
  intros [A1 A2 A3 A4 A5] [B1 B2 B3 B4 B5]. split; [by eapply goes_on_trans|done|intros l; by rewrite B3|intros l; by rewrite B4|by apply Forall_app].
Qed.

Lemma add_reports_spec t o l : forall c a,
  cache_ok a c -> rc_option a = false -> (forall s v, (s, v) ∈ l -> is_report (rs_name s)) ->
  exists c' a' err evs, add_reports l t o c a = Some (c', a', err) /\ reported o t a c a' c' evs /\ (err <> None -> Exists refused evs).
Proof.
  induction l as [|[s v] l IH]; intros c a Hok Ho Hl; cbn [ScrapeLoop.add_reports].
  { exists c, a, None, []. split; [done|]. split; [by split; [apply goes_on_refl|..]|done]. }
  destruct (report_sample_spec s t v o c a Hok Ho) as (c1 & a1 & err & evs & E & Hr & Hf); [apply (Hl s v); by left|]. rewrite E. cbn [mbind option_bind].
  destruct err as [e|]; [by exists c1, a1, (Some e), evs|].
  destruct (IH c1 a1) as (c2 & a2 & err2 & evs2 & E2 & Hr2 & Hf2); [apply Hr|by rewrite (go_option _ _ _ (re_on _ _ _ _ _ _ _ Hr))|intros; eapply Hl; by right|].
  exists c2, a2, err2, (evs ++ evs2). split; [done|]. split; [by eapply reported_trans|]. intros Hn. apply Exists_app. right. by apply Hf2.
Qed.

(** Between two scrapes nothing is exposed yet. *)
Definition between a c : Prop := cache_ok a c /\ forall l, ~ now c l.

(** Markers for all that is gone, or none at all: then the storage refused one. *)
Definition swept a (t : Z) (marks : list event) (gone : list Label -> Prop) : Prop :=
  marks_exactly a t marks gone True \/ (marks = [] /\ exists tried, marks_exactly a t tried gone False /\ Exists refused tried).

Lemma extends_trans a a1 a2 : extends a a1 -> extends a1 a2 -> extends a a2.
Proof. intros H1 H2 r l Hl. by apply H2, H1. Qed.

Lemma marked_extends a a' t marks gone all : extends a a' -> marks_exactly a t marks gone all -> marks_exactly a' t marks gone all.
Proof.
  intros He (M1 & M2 & M3 & M4). split; [|done]. eapply Forall_impl; [exact M1|]. intros ev (H1 & H2 & H3). split_and!; [done|done|by apply He].
Qed.

Lemma marked_weaken a t marks gone (all all' : Prop) : (all' -> all) -> marks_exactly a t marks gone all -> marks_exactly a t marks gone all'.
Proof. intros Ha (M1 & M2 & M3 & M4). split_and!; [done|done|done|]. intros Hx. by apply M4, Ha. Qed.

Lemma swept_extends a a' t marks gone : extends a a' -> swept a t marks gone -> swept a' t marks gone.
Proof.
  intros He [Hm|(-> & tried & Hm & Hr)]; [left; by eapply marked_extends|right]. split; [done|]. exists tried. split; [by eapply marked_extends|done].
Qed.

Lemma swept_iff a t marks g g' : (forall l, g l <-> g' l) -> swept a t marks g -> swept a t marks g'.
Proof.
  intros Hg [Hm|(-> & tried & Hm & Hr)]; [left; by eapply marked_iff|right]. split; [done|]. exists tried. split; [by eapply marked_iff|done].
Qed.

Lemma reopen_fresh a : extends a (reopen a) /\ rc_option (reopen a) = false /\ rc_pending (reopen a) = [] /\ rc_committed (reopen a) = rc_committed a.
Proof. split_and!; try done. intros r l Hr. unfold ref_labels. cbn. by apply law_New, law_Rollback. Qed.

Lemma append_empty_spec t maxT c a :
  cache_ok a c -> rc_option a = false -> rc_pending a = [] -> t <= maxT ->
  exists c' a' marks, append_empty t maxT c a = Some (c', a') /\ goes_on a a' marks /\ between a' c' /\ rc_option a' = false /\
    (forall l, was c' l <-> now c l) /\ swept a' t marks (fun l => was c l /\ ~ now c l).
Proof.
  intros Hok Ho Hp Ht. unfold ScrapeLoop.append_empty.
  destruct (append_spec EmptyBody t maxT c a Hok Ho Ht I) as (c' & a1 & n & err & samples & marks & seen & E & [G Hok1 Ho1 _ Hse _ Hm (Hw & Hn & -> & Hf)]).
  rewrite E. cbn [mbind option_bind]. cbn [app] in G.
  assert (Hno : forall l, l ∉ seen) by (intros l ?%Hse; by eapply not_elem_of_nil).
  apply (marked_iff _ _ _ _ (fun l => was c l /\ ~ now c l)) in Hm; [|naive_solver].
  destruct err as [e|].
  - destruct (reopen_fresh a1) as (Hx1 & O & P & C). exists c', (reopen a1), []. split; [done|].
    split; [split; [by eapply extends_trans; [apply G|]|by rewrite O, Ho|by rewrite P, Hp|by rewrite C, (go_committed _ _ _ G)]|].
    split; [by split; [eapply cache_extends|]|]. split; [done|]. split; [done|]. right. split; [done|]. exists marks.
    split; [|by apply Hf]. eapply marked_extends; [exact Hx1|]. by eapply marked_weaken; [|exact Hm].
  - exists c', a1, marks. split_and!; try done. left. by eapply marked_weaken; [|exact Hm].
Qed.

(** After Commit or Rollback all that was pending is kept, or none of it. *)
Lemma finish_spec (err : option scrape_error) a :
  extends a (finish_scrape err a) /\ (rc_committed (finish_scrape err a) = rc_committed a \/ rc_committed (finish_scrape err a) = rc_committed a ++ rc_pending a) /\
  ((forall x, (ap_Commit (A := A) x).2 = None) -> err = None -> rc_committed (finish_scrape err a) = rc_committed a ++ rc_pending a).
Proof.
  unfold finish_scrape. destruct err as [e|]; cbn.
  - split; [intros r l Hr; unfold ref_labels; cbn; by apply law_Rollback|]. split; [by left|done].
  - pose proof (fun r l => law_Commit (rc_app a) r l) as Hl. destruct (ap_Commit (rc_app a)) as [a1 e] eqn:E. cbn in *. split; [exact Hl|].
    split; [destruct e; [by left|by right]|]. intros Hc _. specialize (Hc (rc_app a)). rewrite E in Hc. cbn in Hc. by rewrite Hc.
Qed.

(** The events [evs] go to the storage together, or none of them. *)
Definition saved a a' (evs reports : list event) : Prop :=
  (rc_committed a' = rc_committed a \/ rc_committed a' = rc_committed a ++ evs) /\
  ((forall x, (ap_Commit (A := A) x).2 = None) -> ~ Exists refused reports -> rc_committed a' = rc_committed a ++ evs).

(** The end of a scrape: reports, and Commit or Rollback. *)
Lemma reported_saved t o l a0 c a evs :
  goes_on a0 a evs -> rc_pending a0 = [] -> between a c -> rc_option a = false -> (forall s v, (s, v) ∈ l -> is_report (rs_name s)) ->
  exists c' a' err reports, add_reports l t o c a = Some (c', a', err) /\ extends a (finish_scrape err a') /\ between (finish_scrape err a') c' /\
    (forall l, was c' l <-> was c l) /\ Forall (fun ev => ev_marker ev = o /\ ev_t ev = t) reports /\ saved a0 (finish_scrape err a') (evs ++ reports) reports.
Proof.
  intros G Hp [Hok Hno] Ho Hl. destruct (add_reports_spec t o l c a Hok Ho Hl) as (c' & a' & err & reports & E & [R1 R2 R3 R4 R5] & Hf).
  exists c', a', err, reports. split; [done|]. destruct (finish_spec err a') as (Hx & C1 & C2).
  pose proof (goes_on_trans _ _ _ _ _ G R1) as [_ _ GP GC]. rewrite Hp in GP. cbn [app] in GP. rewrite GP, GC in C1, C2.
  split; [by eapply extends_trans; [apply R1|]|]. split; [|split; [done|split; [done|]]].
  - split; [by eapply cache_extends|]. intros x. rewrite R4. apply Hno.
  - split; [done|]. intros Hc Hr. apply C2; [done|]. destruct err; [|done]. by destruct Hr; apply Hf.
Qed.

(** ** A run of scrapes *)

Notation attempt :=
  (@attempt (recorder A) H FH X _ _ _ sampleMutator Hash IsValid family sort_exemplars map_order cfg).
Notation scrapes := (@scrapes (recorder A) H FH X _ _ _ sampleMutator reportSampleMutator Hash IsValid family sort_exemplars map_order cfg report_values).
Notation run_loop := (@run_loop (recorder A) H FH X _ _ _ sampleMutator reportSampleMutator Hash IsValid family sort_exemplars map_order cfg report_values).
Notation scraped := (scraped (H := H) (FH := FH) (X := X)).

(** What a scrape did: the samples of a scrape that is not healthy were rolled
    back, and so is all if the reports or Commit fail; [vi_seen] are the label sets
    that the next scrape compares with. *)
Record visit := mk_visit {
  vi_healthy : bool; vi_kept : bool; vi_samples : list event; vi_marks : list event; vi_reports : list event; vi_seen : list (list Label) }.

Definition kept_events (v : visit) : list event :=
  if vi_kept v then (if vi_healthy v then vi_samples v else []) ++ vi_marks v ++ vi_reports v else [].

Definition body_of (r : scraped) : body H FH X := match r with Scraped b => b | _ => EmptyBody end.

(** [o] tells whether the reports are markers too. *)
Record visit_ok a (t : Z) (o : bool) (b : body H FH X) (prev : list (list Label)) (v : visit) : Prop := {
  vo_samples : Forall (fun ev => ev_marker ev = false) (vi_samples v);
  vo_parsed : match b with Parsed _ _ => True | _ => vi_samples v = [] end;
  vo_seen : forall l, l ∈ vi_seen v -> l ∈ accepted (vi_samples v);
  vo_untimed : body_untimed b = true -> vi_seen v = accepted (vi_samples v);
  vo_marks : swept a t (vi_marks v) (fun l => l ∈ prev /\ l ∉ vi_seen v);
  vo_healthy : vi_healthy v = true -> marks_exactly a t (vi_marks v) (fun l => l ∈ prev /\ l ∉ vi_seen v) True;
  vo_reports : Forall (fun ev => ev_marker ev = o /\ ev_t ev = t) (vi_reports v);
  vo_kept : (forall x, (ap_Commit (A := A) x).2 = None) -> ~ Exists refused (vi_reports v) -> vi_kept v = true }.

Fixpoint visits_ok a (prev : list (list Label)) (l : list (Z * Z * scraped)) (vs : list visit) : Prop :=
  match l, vs with
  | [], [] => True
  | (t, _, r) :: l, v :: vs =>
      visit_ok a t false (body_of r) prev v /\ (vi_healthy v = true -> r = Scraped (body_of r)) /\ visits_ok a (vi_seen v) l vs
  | _, _ => False
  end.

Definition last_seen (vs : list visit) : list (list Label) := match last vs with Some v => vi_seen v | None => [] end.

(** A parser that cannot be had fails. *)
Definition scraped_ok (r : Z * Z * scraped) : Prop :=
  r.1.1 <= r.1.2 /\ match r.2 with Scraped b => body_ok b /\ b <> NoParser None | _ => True end.

Lemma visit_extends a a' t o b prev v : extends a a' -> visit_ok a t o b prev v -> visit_ok a' t o b prev v.
Proof.
  intros He [V1 V2 V3 V4 V5 V6 V7 V8]. split; try done; [by eapply swept_extends|]. intros Hh. eapply marked_extends; [exact He|by apply V6].
Qed.

Lemma visits_extends a a' l : forall prev vs, extends a a' -> visits_ok a prev l vs -> visits_ok a' prev l vs.
Proof.
  induction l as [|[[t mt] r] l IH]; intros prev [|v vs] He; cbn; try done. intros (H1 & H2 & H3).
  split; [by eapply visit_extends|]. split; [done|by apply IH].
Qed.

(** The events of a scrape that were saved or not, as a visit tells it. *)
Lemma saved_written a a' (h : bool) samples marks reports seen :
  saved a a' ((if h then samples else []) ++ marks ++ reports) reports ->
  exists k, rc_committed a' = rc_committed a ++ kept_events (mk_visit h k samples marks reports seen) /\
    ((forall x, (ap_Commit (A := A) x).2 = None) -> ~ Exists refused reports -> k = true).
Proof.
  intros [[E|E] Hs].
  - destruct (decide ((if h then samples else []) ++ marks ++ reports = [])) as [En|En].
    { exists true. split; [|done]. unfold kept_events. cbn. by rewrite En, app_nil_r. }
    exists false. split; [by unfold kept_events; cbn; rewrite app_nil_r|]. intros Hc Hr. pose proof (Hs Hc Hr) as E2. rewrite E in E2.
    symmetry in E2. rewrite <-(app_nil_r (rc_committed a)) in E2 at 2. by apply app_inv_head in E2.
  - exists true. by split.
Qed.

Lemma new_fresh a : extends a (ap_New a) /\ rc_option (ap_New a) = false /\ rc_pending (ap_New a) = [] /\ rc_committed (ap_New a) = rc_committed a.
Proof. split_and!; try done. intros r l Hr. unfold ref_labels. cbn. by apply law_New. Qed.

Lemma between_extends a a' c : extends a a' -> between a c -> between a' c.
Proof. intros He [H1 H2]. split; [by eapply cache_extends|done]. Qed.

Lemma swept_nil a t marks gone : swept a t marks gone -> (forall l, ~ gone l) -> marks = [].
Proof.
  intros [(_ & _ & M & _)|[-> _]] Hn; [|done]. destruct marks as [|ev marks]; [done|]. destruct (Hn (ev_lset ev)). apply M. by left.
Qed.

(** A scrape before its reports. *)
Definition attempted t b (prev : list (list Label)) c' a a' (healthy : bool) (v : visit) : Prop :=
  vi_healthy v = healthy /\ goes_on a a' ((if healthy then vi_samples v else []) ++ vi_marks v) /\ between a' c' /\ rc_option a' = false /\
  (forall l, was c' l <-> l ∈ vi_seen v) /\ visit_ok a' t false b prev v.

Lemma nothing_seen b : Forall (fun ev => ev_marker ev = false) [] /\ (match b : body H FH X with Parsed _ _ => True | _ => ([] : list event) = [] end).
Proof. split; [constructor|by destruct b]. Qed.

(** An empty scrape: all that was there is gone. *)
Lemma attempted_empty t maxT c a prev :
  between a c -> (forall l, was c l <-> l ∈ prev) -> rc_option a = false -> rc_pending a = [] -> t <= maxT ->
  exists c' a' v, append_empty t maxT c a = Some (c', a') /\ attempted t EmptyBody prev c' a a' false v.
Proof.
  intros [Hok Hno] Hw Ho Hp Ht. destruct (append_empty_spec t maxT c a Hok Ho Hp Ht) as (c' & a' & marks & E & G & Hb & Ho' & Hw' & Hm).
  exists c', a', (mk_visit false true [] marks [] []). split; [done|]. split_and!; try done.
  - intros l. rewrite Hw'. split; [intros Hl; by apply Hno in Hl|by intros ?%elem_of_nil].
  - split; try done. eapply swept_iff; [|exact Hm]. intros l. cbn. rewrite Hw. pose proof (Hno l). split; [|naive_solver].
    intros [H1 _]. split; [done|apply not_elem_of_nil].
Qed.

(** A body, and an empty scrape after it if it fails. *)
Lemma attempted_body t maxT b c a prev :
  between a c -> (forall l, was c l <-> l ∈ prev) -> rc_option a = false -> rc_pending a = [] -> t <= maxT -> body_ok b -> b <> NoParser None ->
  exists c1 a1 counts err c' a' v, scrape_append b t maxT c a = Some (c1, a1, counts, err) /\
    (match err with None => Some (c1, a1) | Some _ => append_empty t maxT c1 (reopen a1) end) = Some (c', a') /\
    attempted t b prev c' a a' (match err with None => true | Some _ => false end) v.
Proof.
  intros [Hok Hno] Hw Ho Hp Ht Hb Hnp.
  destruct (append_spec b t maxT c a Hok Ho Ht Hb) as (c1 & a1 & counts & err & samples & marks & seen & E & [G Hok1 Ho1 Hs Hse Ha Hm Hn]).
  assert (Hps : match b with Parsed _ _ => True | _ => samples = [] end) by (destruct b; [apply Hn|apply Hn|done]).
  assert (Hgone : forall l, was c l /\ ~ now c l /\ l ∉ seen <-> l ∈ prev /\ l ∉ seen) by (intros l; rewrite <-Hw; pose proof (Hno l); tauto).
  exists c1, a1, counts, err. destruct err as [e|].
  - destruct (reopen_fresh a1) as (Hx & O & P & C).
    destruct (append_empty_spec t maxT c1 (reopen a1)) as (c' & a' & marks' & E2 & G2 & Hb2 & Ho2 & Hw2 & Hm2); [by eapply cache_extends|done|done|done|].
    assert (Hr : (forall l, was c' l <-> l ∈ seen) /\ swept a' t marks' (fun l => l ∈ prev /\ l ∉ seen)).
    { assert (Hsn : samples = [] -> forall l, l ∉ seen) by (intros -> l ?%Hse; by eapply not_elem_of_nil).
      destruct b as [|pe|l perr].
      - destruct Hn as (N1 & N2 & N3 & N4). pose proof (Hsn N3). split; [intros l; rewrite Hw2; naive_solver|]. right.
        assert (Hnil : marks' = []) by (apply (swept_nil a' t marks' _ Hm2); intros l [H1 _]; by apply N1, Hno in H1).
        split; [done|]. exists marks. split; [|by apply N4]. eapply marked_extends; [eapply extends_trans; [exact Hx|apply G2]|].
        eapply marked_iff; [exact Hgone|]. by eapply marked_weaken; [|exact Hm].
      - destruct Hn as [-> N3]. pose proof (Hsn N3). split; [intros l; rewrite Hw2; pose proof (Hno l); naive_solver|].
        eapply swept_iff; [|exact Hm2]. intros l. cbn beta. rewrite Hw. pose proof (Hno l). pose proof (Hsn N3 l). tauto.
      - destruct Hn as [N1 N2]. split; [intros l0; rewrite Hw2, N2; pose proof (Hno l0); tauto|].
        eapply swept_iff; [|exact Hm2]. intros l0. cbn beta. rewrite N1, N2, Hw. pose proof (Hno l0). tauto. }
    destruct Hr as [Hw' Hm']. exists c', a', (mk_visit false true samples marks' [] seen). split; [exact E|]. split; [exact E2|].
    split_and!; try done.
    split; [eapply extends_trans; [apply G|by eapply extends_trans; [exact Hx|apply G2]]|by rewrite Ho2, Ho|by rewrite (go_pending _ _ _ G2), P, Hp|].
      by rewrite (go_committed _ _ _ G2), C, (go_committed _ _ _ G).
  - exists c1, a1, (mk_visit true true samples marks [] seen). split; [exact E|]. split; [done|].
    assert (Hpn : forall e, b <> NoParser e) by (intros pe ->; cbn in E; by injection E as _ _ _ ->).
    assert (Hn' : (forall l, was c1 l <-> l ∈ seen) /\ forall l, ~ now c1 l).
    { destruct b as [|pe|l perr]; [|by destruct (Hpn pe)|].
      - destruct Hn as (N1 & N2 & -> & _). split; [|done]. intros l. rewrite N1. pose proof (Hno l). split; [done|]. by intros ?%Hse%elem_of_nil.
      - destruct Hn as [N1 N2]. split; [|done]. intros l0. rewrite N1. pose proof (Hno l0). tauto. }
    destruct Hn' as [Hw' Hno']. split_and!; try done. split; try done; [left|intros _]; (eapply marked_iff; [exact Hgone|]);
      (eapply marked_weaken; [|exact Hm]); by intros _.
Qed.

(** The visit with its reports, and with what happened to it. *)
Lemma visit_reported a a' t o b prev v k reports :
  visit_ok a t false b prev v -> extends a a' -> Forall (fun ev => ev_marker ev = o /\ ev_t ev = t) reports ->
  ((forall x, (ap_Commit (A := A) x).2 = None) -> ~ Exists refused reports -> k = true) ->
  visit_ok a' t o b prev (mk_visit (vi_healthy v) k (vi_samples v) (vi_marks v) reports (vi_seen v)).
Proof.
  intros [V1 V2 V3 V4 V5 V6 V7 V8] He Hr Hk. split; try done; cbn; [by eapply swept_extends|]. intros Hh. eapply marked_extends; [exact He|by apply V6].
Qed.

(** The last part of a scrape and of the end of a run. *)
Lemma attempted_reported t o l b prev a0 c a1 h v a :
  attempted t b prev c a0 a1 h v -> extends a a0 -> rc_pending a0 = [] -> rc_committed a0 = rc_committed a -> 
  (forall s v, (s, v) ∈ l -> is_report (rs_name s)) ->
  exists c' a2 err v', add_reports l t o c a1 = Some (c', a2, err) /\ vi_healthy v' = h /\ vi_seen v' = vi_seen v /\ extends a (finish_scrape err a2) /\
    between (finish_scrape err a2) c' /\ (forall l, was c' l <-> l ∈ vi_seen v') /\ rc_committed (finish_scrape err a2) = rc_committed a ++ kept_events v' /\
    visit_ok (finish_scrape err a2) t o b prev v'.
Proof.
  intros (<- & G & Hb & Ho & Hw & Hv) Hx Hp Hc Hl.
  destruct (reported_saved t o l a0 c a1 _ G Hp Hb Ho Hl) as (c' & a2 & err & reports & E & Hx1 & Hb2 & Hw2 & Hr & Hs).
  rewrite <-app_assoc in Hs. destruct (saved_written _ _ _ _ _ _ (vi_seen v) Hs) as (k & Hk & Hk2).
  exists c', a2, err, (mk_visit (vi_healthy v) k (vi_samples v) (vi_marks v) reports (vi_seen v)). split; [done|]. split; [done|]. split; [done|].
  split; [eapply extends_trans; [exact Hx|eapply extends_trans; [apply G|done]]|]. split; [done|]. split; [intros x; by rewrite Hw2|].
  split; [by rewrite Hk, Hc|by eapply visit_reported].
Qed.

(** A scrape that failed is reported as such, whatever its empty body did. *)
Lemma failed_attempt t prev c a a' h v : attempted t EmptyBody prev c a a' h v -> exists v', attempted t EmptyBody prev c a a' false v'.
Proof.
  intros (_ & G & Hb & Ho & Hw & [V1 V2 V3 V4 V5 V6 V7 V8]). exists (mk_visit false (vi_kept v) (vi_samples v) (vi_marks v) (vi_reports v) (vi_seen v)).
  split_and!; try done. cbn in *. rewrite V2 in G. by destruct h.
Qed.

Lemma report_names {V} (vs : list V) s v : (s, v) ∈ zip (report_samples cfg) vs -> is_report (rs_name s).
Proof. intros Hin%elem_of_zip_l. by apply reports_known. Qed.

Lemma scrape_spec t maxT r c a prev :
  between a c -> (forall l, was c l <-> l ∈ prev) -> scraped_ok (t, maxT, r) ->
  exists c' a' v, scrapeAndReport t maxT r c a = Some (c', a', vi_healthy v) /\ extends a a' /\ between a' c' /\ (forall l, was c' l <-> l ∈ vi_seen v) /\
    rc_committed a' = rc_committed a ++ kept_events v /\ visit_ok a' t false (body_of r) prev v /\ (vi_healthy v = true -> r = Scraped (body_of r)).
Proof.
  intros Hb Hw [Ht Hr]. cbn in Ht, Hr. destruct (new_fresh a) as (Hx & Ho & Hp & Hc). pose proof (between_extends _ _ _ Hx Hb) as Hb0.
  assert (Hat : exists c1 a1 counts h v, attempt t maxT r c (ap_New a) = Some (c1, a1, counts, h) /\
    attempted t (body_of r) prev c1 (ap_New a) a1 h v /\ (h = true -> r = Scraped (body_of r))).
  { unfold ScrapeLoop.attempt. destruct r as [| |b]; cbn [body_of].
    - destruct (attempted_empty t maxT c (ap_New a) prev) as (c1 & a1 & v & E & Hat); try done. rewrite E. by eexists _, _, _, _, _.
    - destruct (attempted_body t maxT EmptyBody c (ap_New a) prev) as (c0 & a0 & n & err & c1 & a1 & v & E & E2 & Hat); try done.
      cbv zeta. rewrite E. cbn [mbind option_bind]. rewrite E2. cbn [mbind option_bind]. destruct (failed_attempt _ _ _ _ _ _ _ Hat) as [v' Hat'].
      eexists _, _, _, _, v'. split; [reflexivity|]. by split.
    - destruct Hr as [Hr1 Hr2].
      destruct (attempted_body t maxT b c (ap_New a) prev) as (c0 & a0 & n & err & c1 & a1 & v & E & E2 & Hat); try done.
      cbv zeta. rewrite E. cbn [mbind option_bind]. rewrite E2. cbn [mbind option_bind]. eexists _, _, _, _, _. split; [reflexivity|].
      split; [by destruct err|done]. }
  destruct Hat as (c1 & a1 & counts & h & v & E & Hat & Hh). unfold ScrapeLoop.scrapeAndReport, report. rewrite E. cbn [mbind option_bind].
  destruct (attempted_reported t false (zip (report_samples cfg) (report_values h counts)) _ _ _ _ _ _ _ a Hat Hx Hp Hc) as (c' & a2 & err & v' & E2 & V1 & V2 & V3 & V4 & V5 & V6 & V7).
  { intros s x. apply report_names. }
  rewrite E2. cbn [mbind option_bind]. exists c', (finish_scrape err a2), v'. rewrite V1. by split_and!.
Qed.

Lemma end_spec t maxT c a prev :
  between a c -> (forall l, was c l <-> l ∈ prev) -> t <= maxT ->
  exists c' a' v, endOfRunStaleness t maxT c a = Some (c', a') /\ extends a a' /\ rc_committed a' = rc_committed a ++ kept_events v /\
    visit_ok a' t true EmptyBody prev v.
Proof.
  intros Hb Hw Ht. destruct (new_fresh a) as (Hx & Ho & Hp & Hc). pose proof (between_extends _ _ _ Hx Hb) as Hb0.
  unfold ScrapeLoop.endOfRunStaleness, reportStale.
  destruct (attempted_empty t maxT c (ap_New a) prev) as (c1 & a1 & v & E & Hat); try done. rewrite E. cbn [mbind option_bind].
  destruct (attempted_reported t true (map (fun s => (s, StaleNaN)) (report_samples cfg)) _ _ _ _ _ _ _ a Hat Hx Hp Hc) as (c' & a2 & err & v' & E2 & V1 & V2 & V3 & V4 & V5 & V6 & V7).
  { intros s x (s' & [= -> ->] & Hin)%list_elem_of_fmap. by apply reports_known. }
  rewrite E2. cbn [mbind option_bind]. by exists c', (finish_scrape err a2), v'.
Qed.

Lemma between_new a : between a newScrapeCache /\ forall l, was newScrapeCache l <-> l ∈ [].
Proof.
  assert (Hn : forall l, ~ tracks newScrapeCache ∅ l) by (intros l (k & p & e & Hk & _); by rewrite lookup_empty in Hk).
  split; [split; [split; cbn; intros *; by rewrite lookup_empty|exact Hn]|]. intros l. split; [intros Hl; by apply Hn in Hl|by intros ?%elem_of_nil].
Qed.

Lemma last_seen_cons v vs : last_seen (v :: vs) = match vs with [] => vi_seen v | _ => last_seen vs end.
Proof. by destruct vs. Qed.

Lemma scrapes_spec l : forall c a prev,
  between a c -> (forall x, was c x <-> x ∈ prev) -> Forall scraped_ok l ->
  exists c' a' vs, scrapes l c a = Some (c', a', map vi_healthy vs) /\ extends a a' /\ between a' c' /\ visits_ok a' prev l vs /\
    (forall x, was c' x <-> x ∈ match vs with [] => prev | _ => last_seen vs end) /\ rc_committed a' = rc_committed a ++ concat (map kept_events vs).
Proof.
  induction l as [|[[t maxT] r] l IH]; intros c a prev Hb Hw Hl; cbn [ScrapeLoop.scrapes].
  { exists c, a, []. split_and!; try done; [apply extends_refl|by rewrite app_nil_r]. }
  apply Forall_cons in Hl as [Hr Hl].
  destruct (scrape_spec t maxT r c a prev Hb Hw Hr) as (c1 & a1 & v & -> & Hx & Hb1 & Hw1 & Hc & Hv & Hh). cbn [mbind option_bind].
  destruct (IH c1 a1 (vi_seen v) Hb1 Hw1 Hl) as (c2 & a2 & vs & -> & Hx2 & Hb2 & Hvs & Hw2 & Hc2). cbn [mbind option_bind].
  exists c2, a2, (v :: vs). split; [done|]. split; [by eapply extends_trans|]. split; [done|].
  split; [split; [by eapply visit_extends|done]|]. split; [by rewrite last_seen_cons|]. by rewrite Hc2, Hc, <-app_assoc.
Qed.

End Cache.

(** ** A storage that keeps every series *)

Module Keeper.

Definition store : Type := list (list Label).

(** The series of [lset], a new one if there is none. *)
Definition series_of (lset : list Label) (s : store) : store * Z :=
  match list_find (fun x => x = lset) s with
  | Some (i, _) => (s, Z.of_nat i + 1)
  | None => (s ++ [lset], Z.of_nat (length s) + 1)
  end.

Definition store_append (ref : Z) (lset : list Label) (s : store) : append_result store :=
  if ref =? 0 then let '(s, ref) := series_of lset s in (s, ref, None) else (s, ref, None).

#[global] Instance keeping : Appender store unit unit unit := {|
  ap_SetOptions _ s := s;
  ap_Append ref lset _ _ s := store_append ref lset s;
  ap_AppendHistogram ref lset _ _ _ s := store_append ref lset s;
  ap_AppendSTZeroSample ref _ _ _ s := (s, ref, None);
  ap_AppendHistogramSTZeroSample ref _ _ _ _ _ s := (s, ref, None);
  ap_AppendExemplar _ _ _ _ s := (s, None);
  ap_UpdateMetadata _ _ _ s := (s, None);
  ap_Commit s := (s, None);
  ap_Rollback s := s;
  ap_New s := s |}.

Definition store_labels (s : store) (ref : Z) : option (list Label) := if ref <=? 0 then None else s !! Z.to_nat (ref - 1).

Lemma store_append_ok s ref lset s' ref' err :
  ref = 0 \/ store_labels s ref = Some lset -> store_append ref lset s = (s', ref', err) ->
  (forall r l, store_labels s r = Some l -> store_labels s' r = Some l) /\ (err = None -> ref' <> 0 /\ store_labels s' ref' = Some lset).
Proof.
  unfold store_append, series_of. intros Hk. destruct (Z.eqb_spec ref 0) as [->|Hz].
  - destruct (list_find _ s) as [[i x]|] eqn:E; intros [= <- <- <-].
    + apply list_find_Some in E as (E & -> & _). split; [done|]. intros _. split; [lia|]. unfold store_labels.
      rewrite (proj2 (Z.leb_gt _ _)) by lia. by rewrite Z.add_simpl_r, Nat2Z.id.
    + split; [|intros _; split; [lia|]]; unfold store_labels.
      * intros r l. destruct (r <=? 0); [done|]. by apply lookup_app_l_Some.
      * rewrite (proj2 (Z.leb_gt _ _)) by lia. rewrite Z.add_simpl_r, Nat2Z.id. by apply list_lookup_middle.
  - intros [= <- <- <-]. split; [done|]. intros _. by destruct Hk.
Qed.

#[global, refine] Instance keeping_laws : AppenderLaws store unit unit unit := {| ap_labels := store_labels |}.
Proof.
  all: try done; cbn; intros; first [by eapply store_append_ok|idtac].
  - destruct (store_append_ok a ref lset a' ref' err) as [H1 H2]; [done..|]. split; [done|]. split; [done|].
    unfold store_append in *. destruct (ref =? 0), (series_of lset a); by simplify_eq.
  - by simplify_eq.
  - by simplify_eq.
Defined.

#[global] Instance unit_buckets : HistogramBuckets unit := {|
  hb_Sum _ := 0; hb_buckets _ := 0; hb_Schema _ := 0; ReduceResolution s h := if s =? 0 then inl h else inr (ErrFormat s) |}.

#[global] Instance unit_buckets_laws : HistogramBucketsLaws unit.
Proof. constructor. intros s h h'. cbn. destruct (Z.eqb_spec s 0); congruence. Defined.

Definition name_only (met : gostr) : list Label := [mk_Label MetricName met].
Definition ends_as_report (met : gostr) : Prop := last met = Some 0xff.
Definition plain : loopConfig := mk_loopConfig true false false false None 0 0 8 false.
Definition sample_of (met : String.string) (v : Z) : parsedEntry unit unit unit :=
  EntrySample (mk_parsedSample (str met) None (VFloat v) (name_only (str met)) 0 []).

Definition keeper_run (l : list (Z * Z * scraped (H := unit) (FH := unit) (X := unit))) (stop : option (Z * Z)) :=
  run_loop (A := recorder store) (fun l => l) (fun l => l) (fun _ => 0) (fun _ => true) (fun _ => FOther) (fun l => l) map_to_list plain
    (fun _ _ => [0; 0; 0; 0; 0]) l stop newScrapeCache (mk_recorder [] false [] []).

(** The markers that were kept, without those of the reports. *)
Definition kept_markers (r : option (recorder store * list bool)) : option (list (Z * gostr)) :=
  (fun r => omap (fun ev => if ev_marker ev then (fun l => (ev_t ev, Value l)) <$> head (ev_lset ev) else None) (rc_committed r.1)) <$> r.

(** Two metrics, and then one of them and an error of the parser: only the other
    one is marked in the failing scrape; an empty scrape then marks the first. *)
Definition failing : list (Z * Z * scraped (H := unit) (FH := unit) (X := unit)) :=
  [(10, 100, Scraped (Parsed [sample_of "a" 1; sample_of "b" 1] None));
   (20, 100, Scraped (Parsed [sample_of "a" 2] (Some (EOther EOF))));
   (30, 100, Scraped EmptyBody)].

Example failing_scrape_marks_the_rest : kept_markers (keeper_run failing None) = Some [(20, str "b"%string); (30, str "a"%string)].
Proof. vm_compute. reflexivity. Qed.

Example failing_scrape_keeps_no_sample : snd <$> keeper_run failing None = Some [true; false; true].
Proof. vm_compute. reflexivity. Qed.
End Keeper.

