(* ===== verification/Lookback.v ===== *)
(** storage/memoized_iterator.go and the instant selectors of promql/engine.go:
    at every step of a query, the value of a series is that of its newest sample
    within the lookback, unless that is a staleness marker.

    The conversion of integer histograms to float histograms, the size of a
    histogram as the limit on samples counts it, and the conversion of a timestamp
    to a float are parameters.  Statistics and the re-use of memory are left out.
    [None] is a panic, or a lack of fuel in the loop of Seek. *)
From stdpp Require Import sorting.
From S2P Require Import Prelude Xor RecordHistogram SeriesIterator Labels HeadChunks.

(** ** MemoizedSeriesIterator *)

Record MemoizedSeriesIterator (I : Type) := mk_memoized {
  mz_it : I; mz_delta : Z; mz_lastTime : Z; mz_valueType : ValueType;
  mz_prevST : Z; mz_prevTime : Z; mz_prevValue : Z; mz_prevFloatHistogram : option FloatHistogram }.
Arguments mk_memoized {I} _ _ _ _ _ _ _ _.
Arguments mz_it {I} _.
Arguments mz_delta {I} _.
Arguments mz_lastTime {I} _.
Arguments mz_valueType {I} _.
Arguments mz_prevST {I} _.
Arguments mz_prevTime {I} _.
Arguments mz_prevValue {I} _.
Arguments mz_prevFloatHistogram {I} _.

(** Integer histograms are float histograms for its users. *)
Definition memo_type (vt : ValueType) : ValueType := match vt with ValHistogram => ValFloatHistogram | _ => vt end.

Section Memoized.
  Context {I : Type} `{!SampleIterator I}.
  Implicit Types b : MemoizedSeriesIterator I.

Definition memo_Reset (it : I) b : option (MemoizedSeriesIterator I) :=
  '(vt, it) ← Next it;
  Some (mk_memoized it (mz_delta b) MinInt64 vt 0 MinInt64 (mz_prevValue b) (mz_prevFloatHistogram b)).

Definition NewMemoizedIterator (it : I) (delta : Z) : option (MemoizedSeriesIterator I) :=
  memo_Reset it (mk_memoized it delta 0 ValNone 0 MinInt64 0 None).

Definition PeekPrev b : option (Z * Z * Z * option FloatHistogram) :=
  if mz_prevTime b =? MinInt64 then None else Some (mz_prevST b, mz_prevTime b, mz_prevValue b, mz_prevFloatHistogram b).

(** The element that the iterator leaves. *)
Definition memo_keep b : option (MemoizedSeriesIterator I) :=
  match mz_valueType b with
  | ValNone => Some b
  | ValFloat =>
      st ← AtST (mz_it b);
      '(t, v) ← At (mz_it b);
      Some (mk_memoized (mz_it b) (mz_delta b) (mz_lastTime b) (mz_valueType b) st t v None)
  | ValHistogram | ValFloatHistogram =>
      st ← AtST (mz_it b);
      '(t, h) ← AtFloatHistogram (mz_it b);
      Some (mk_memoized (mz_it b) (mz_delta b) (mz_lastTime b) (mz_valueType b) st t 0 h)
  end.

Definition memo_Next b : option (ValueType * MemoizedSeriesIterator I) :=
  match mz_valueType b with
  | ValNone => Some (ValNone, b)
  | _ =>
      b ← memo_keep b;
      '(vt, it) ← Next (mz_it b);
      lastTime ← (match vt with ValNone => Some (mz_lastTime b) | _ => AtT it end);
      Some (memo_type vt, mk_memoized it (mz_delta b) lastTime (memo_type vt) (mz_prevST b) (mz_prevTime b) (mz_prevValue b) (mz_prevFloatHistogram b))
  end.

Fixpoint memo_advance (fuel : nat) (t : Z) b : option (ValueType * MemoizedSeriesIterator I) :=
  match fuel with
  | O => None
  | S fuel =>
      '(vt, b) ← memo_Next b;
      match vt with
      | ValNone => Some (ValNone, b)
      | _ => if t <=? mz_lastTime b then Some (mz_valueType b, b) else memo_advance fuel t b
      end
  end.

Definition memo_find (fuel : nat) (t : Z) b : option (ValueType * MemoizedSeriesIterator I) :=
  if t <=? mz_lastTime b then Some (mz_valueType b, b) else memo_advance fuel t b.

Definition memo_Seek (fuel : nat) (t : Z) b : option (ValueType * MemoizedSeriesIterator I) :=
  let t0 := i64 (t - mz_delta b) in
  if bool_decide (mz_valueType b <> ValNone) && (mz_lastTime b <? t0) then
    '(vt, it) ← Seek t0 (mz_it b);
    let jumped lastTime := mk_memoized it (mz_delta b) lastTime (memo_type vt) (mz_prevST b) MinInt64 (mz_prevValue b) (mz_prevFloatHistogram b) in
    match vt with
    | ValNone => Some (ValNone, jumped (mz_lastTime b))
    | _ => lastTime ← AtT it; memo_find fuel t (jumped lastTime)
    end
  else memo_find fuel t b.

(** ** Instant selectors *)

Inductive selector_error :=
  | ErrTooManySamples
  | ErrInfoMetric                       (* an info metric with histograms *)
  | ErrStorage (l : list goerror).

(** The bits of StaleNaN, as a float or as the sum of a histogram. *)
Definition stale_value (v : Z) (h : option FloatHistogram) : bool :=
  IsStaleNaN v || match h with Some h => IsStaleNaN (Sum h) | None => false end.

(** [offset] and the lookback are in milliseconds; the result is the sample's
    start timestamp, timestamp and value. *)
Definition vectorSelectorSingle (fuel : nat) (lookback offset ts : Z) b
  : option (MemoizedSeriesIterator I * option (Z * Z * Z * option FloatHistogram) + selector_error) :=
  let refTime := i64 (ts - offset) in
  '(valueType, b) ← memo_Seek fuel refTime b;
  r ← (match valueType with
       | ValNone => Some (match Err (mz_it b) with [] => inl (0, 0, 0, None) | e => inr (ErrStorage e) end)
       | ValFloat => '(t, v) ← At (mz_it b); st ← AtST (mz_it b); Some (inl (st, t, v, None))
       | ValFloatHistogram => '(t, h) ← AtFloatHistogram (mz_it b); st ← AtST (mz_it b); Some (inl (st, t, 0, h))
       | ValHistogram => None
       end : option (Z * Z * Z * option FloatHistogram + selector_error));
  let yield (r : Z * Z * Z * option FloatHistogram) := if stale_value r.1.2 r.2 then None else Some r in
  Some (match r with
  | inr e => inr e
  | inl r =>
      inl (b,
        if bool_decide (valueType = ValNone) || (refTime <? r.1.1.2) then
          match PeekPrev b with
          | None => None
          | Some r => if r.1.1.2 <=? i64 (refTime - lookback) then None else yield r
          end
        else yield r)
  end).

(** ** The steps of a query *)

(** Series of a result: points are a time and a value. *)
Record Series := mk_Series { se_Metric : list Label; se_Floats : list (Z * Z); se_Histograms : list (Z * FloatHistogram) }.

Variable hist_size : FloatHistogram -> Z.
Variable float_of_int : Z -> Z.
Variables lookback maxSamples : Z.

(** The steps from [start] to [end]. *)
Definition step_times (start end_ interval : Z) : list Z :=
  map (fun k => start + k * interval) (seqZ 0 ((end_ - start) / interval + 1)).

(** One step for one series; the number is currentSamples. *)
Definition eval_step (fuel : nat) (offset : Z) (recordOrigT : bool) (atTimestamp : option Z) (ts : Z) b (ss : Series) (current : Z)
  : option (MemoizedSeriesIterator I * Series * Z + selector_error) :=
  r ← vectorSelectorSingle fuel lookback offset (default ts atTimestamp) b;
  Some (match r with
  | inr e => inr e
  | inl (b, None) => inl (b, ss, current)
  | inl (b, Some (_, origT, f, None)) =>
      let current := current + 1 in
      if maxSamples <? current then inr ErrTooManySamples
      else inl (b, mk_Series (se_Metric ss) (se_Floats ss ++ [(ts, if recordOrigT then float_of_int origT else f)]) (se_Histograms ss), current)
  | inl (b, Some (_, _, _, Some h)) =>
      if recordOrigT then inr ErrInfoMetric
      else
        let current := current + hist_size h in
        if maxSamples <? current then inr ErrTooManySamples
        else inl (b, mk_Series (se_Metric ss) (se_Floats ss) (se_Histograms ss ++ [(ts, h)]), current)
  end).

Fixpoint eval_steps (fuel : nat) (offset : Z) (recordOrigT : bool) (atTimestamp : option Z) (steps : list Z) b (ss : Series) (current : Z)
  : option (MemoizedSeriesIterator I * Series * Z + selector_error) :=
  match steps with
  | [] => Some (inl (b, ss, current))
  | ts :: steps =>
      r ← eval_step fuel offset recordOrigT atTimestamp ts b ss current;
      match r with inr e => Some (inr e) | inl (b, ss, current) => eval_steps fuel offset recordOrigT atTimestamp steps b ss current end
  end.

(** The loop over the series, each with its iterator; [b] is used for all. *)
Fixpoint eval_all (fuel : nat) (offset : Z) (recordOrigT : bool) (atTimestamp : option Z) (steps : list Z)
    (series : list (list Label * I)) b (mat : list Series) (current : Z) : option (list Series * Z + selector_error) :=
  match series with
  | [] => Some (inl (mat, current))
  | (lset, chkIter) :: series =>
      b ← memo_Reset chkIter b;
      r ← eval_steps fuel offset recordOrigT atTimestamp steps b (mk_Series lset [] []) current;
      match r with
      | inr e => Some (inr e)
      | inl (b, ss, current) =>
          let mat := match se_Floats ss, se_Histograms ss with [], [] => mat | _, _ => mat ++ [ss] end in
          eval_all fuel offset recordOrigT atTimestamp steps series b mat current
      end
  end.

(** The empty iterator that NewMemoizedEmptyIterator begins with is [nop]. *)
Definition evalSeries (fuel : nat) (nop : I) (start end_ interval : Z) (series : list (list Label * I)) (offset : Z) (recordOrigT : bool)
    (atTimestamp : option Z) (current : Z) : option (list Series * Z + selector_error) :=
  b ← NewMemoizedIterator nop lookback;
  eval_all fuel offset recordOrigT atTimestamp (step_times start end_ interval) series b [] current.
End Memoized.

(** ** Seeking *)

Section Seeking.
  Context {I : Type} `{!SampleIterator I, !SampleIteratorLaws I}.
  Implicit Types b : MemoizedSeriesIterator I.
  (** The samples of the series, and how integer histograms are read. *)
  Variable ToFloat : Histogram -> FloatHistogram.
  Variable ss : list sample.

Definition reading (s : sample) : Z * Z * Z * option FloatHistogram :=
  match s_h s, s_fh s with
  | Some h, _ => (s_st s, s_t s, 0, Some (ToFloat h))
  | None, Some fh => (s_st s, s_t s, 0, Some fh)
  | None, None => (s_st s, s_t s, s_f s, None)
  end.

(** The iterators of the series can read an integer histogram as a float histogram. *)
Definition converts : Prop :=
  forall i s l h, rep i (fun x => x ∈ ss) (On s l) -> s_h s = Some h -> AtFloatHistogram i = Some (s_t s, Some (ToFloat h)).

  Hypothesis Hsorted : StronglySorted Z.lt (map s_t ss).
  Hypothesis Hmin : Forall (fun s => MinInt64 < s_t s) ss.
  Hypothesis Hconv : converts.

Lemma same_time s s' : s ∈ ss -> s' ∈ ss -> s_t s = s_t s' -> s = s'.
Proof.
  induction ss as [|x l IH]; [by intros ?%elem_of_nil|]. cbn in Hsorted. apply StronglySorted_inv in Hsorted as [Hl Hx]. clear Hconv.
  rewrite Forall_forall in Hx. apply Forall_cons in Hmin as [_ Hm].
  rewrite !elem_of_cons. intros [->|H1] [->|H2] E; [done| | |by apply IH].
  - pose proof (Hx (s_t s') (list_elem_of_fmap_2 _ _ _ H2)). lia.
  - pose proof (Hx (s_t s) (list_elem_of_fmap_2 _ _ _ H1)). lia.
Qed.

Lemma sorted_parts before after : ss = before ++ after ->
  Forall (fun s => Forall (fun s' => s_t s < s_t s') after) before /\ StronglySorted Z.lt (map s_t after).
Proof.
  intros E. rewrite E, map_app in Hsorted. split; [|by eapply StronglySorted_app_1_r].
  apply Forall_forall. intros s Hs. apply Forall_forall. intros s' Hs'.
  eapply StronglySorted_app_1_elem_of; [exact Hsorted|by apply list_elem_of_fmap_2..].
Qed.

Lemma from_split t l : StronglySorted Z.lt (map s_t l) ->
  exists l1 l2, l = l1 ++ l2 /\ Forall (fun s => s_t s < t) l1 /\ Forall (fun s => t <= s_t s) l2 /\ from t (map s_t l) = map s_t l2.
Proof.
  induction l as [|x l IH]; intros Hl; [by exists [], []|]. cbn [map] in *. apply StronglySorted_inv in Hl as [Hl Hx]. cbn [from].
  destruct (Z.ltb_spec (s_t x) t) as [Hlt|Hge].
  - destruct (IH Hl) as (l1 & l2 & -> & H1 & H2 & H3). exists (x :: l1), l2. split_and!; [done|by constructor|done|done].
  - exists [], (x :: l). split_and!; [done|constructor| |done]. constructor; [done|]. rewrite Forall_map in Hx. eapply Forall_impl; [exact Hx|].
    cbn. lia.
Qed.

(** The iterator is between [before] and [after]. *)
Definition it_at (i : I) (after : list sample) : Prop :=
  match after with
  | [] => exists o, rep i (fun x => x ∈ ss) (Done o)
  | s :: rest => rep i (fun x => x ∈ ss) (On s (map s_t rest))
  end.

Definition type_at (after : list sample) : ValueType := match after with [] => ValNone | s :: _ => sample_Type s end.

Lemma lands_at after o r : (forall s, s ∈ after -> s ∈ ss) -> lands rep (fun x => x ∈ ss) (map s_t after) o r ->
  exists i, r = Some (type_at after, i) /\ it_at i after.
Proof.
  destruct after as [|s rest]; cbn; intros Hin.
  - intros (i & -> & Hr). exists i. split; [done|by exists o].
  - intros (s' & i & E & -> & Hr). destruct (rep_on _ _ _ _ Hr) as [Hs _].
    assert (s' = s) as -> by (apply same_time; [exact Hs|apply Hin; by left|done]). by exists i.
Qed.

Lemma it_at_next i s rest : (forall x, x ∈ s :: rest -> x ∈ ss) -> it_at i (s :: rest) ->
  exists i', Next i = Some (type_at rest, i') /\ it_at i' rest.
Proof.
  intros Hin Hr. apply (lands_at rest (final (On s (map s_t rest)))); [intros; apply Hin; by right|]. exact (rep_next _ _ _ Hr).
Qed.

(** Seek to a timestamp: a part of what is to come is skipped. *)
Lemma it_at_seek i after t : (forall x, x ∈ after -> x ∈ ss) -> StronglySorted Z.lt (map s_t after) -> after <> [] -> it_at i after ->
  exists skip after' i', after = skip ++ after' /\ Forall (fun s => s_t s < t) skip /\ Forall (fun s => t <= s_t s) after' /\
    Seek t i = Some (type_at after', i') /\ it_at i' after'.
Proof.
  intros Hin Hs Hne Hr. destruct after as [|s rest]; [done|]. cbn in Hr, Hs. apply StronglySorted_inv in Hs as [Hs Hx]. rewrite Forall_map in Hx.
  destruct (Z.le_gt_cases t (s_t s)) as [Hle|Hgt].
  - exists [], (s :: rest), i. split_and!; [done|constructor| |by apply (rep_seek_here _ _ _ _ _ Hr)|done].
    constructor; [done|]. eapply Forall_impl; [exact Hx|]. cbn. lia.
  - destruct (from_split t rest Hs) as (l1 & l2 & -> & H1 & H2 & H3). pose proof (rep_seek _ _ _ t Hr Hgt) as Hl. cbn [SeriesIterator.rest] in Hl.
    rewrite H3 in Hl. destruct (lands_at l2 _ _ (fun x Hx => Hin x ltac:(right; apply elem_of_app; by right)) Hl) as (i' & E & Hi).
    exists (s :: l1), l2, i'. split_and!; [done|by constructor|done|done|done].
Qed.

(** What the accessors say. *)
Lemma it_at_reads i s rest : it_at i (s :: rest) ->
  AtT i = Some (s_t s) /\ AtST i = Some (s_st s) /\
  match memo_type (sample_Type s) with
  | ValFloat => sample_Type s = ValFloat /\ At i = Some (s_t s, s_f s) /\ reading s = (s_st s, s_t s, s_f s, None)
  | ValFloatHistogram => exists h, AtFloatHistogram i = Some (s_t s, Some h) /\ reading s = (s_st s, s_t s, 0, Some h)
  | _ => False
  end.
Proof.
  intros Hr. cbn in Hr. destruct (rep_on _ _ _ _ Hr) as [_ (H1 & H2 & H3)]. split; [done|]. split; [done|].
  pose proof (Hconv i s (map s_t rest)) as Hc. unfold sample_Type, reading in *. destruct (s_h s) as [h|]; cbn in *.
  - exists (ToFloat h). split; [by apply Hc|done].
  - destruct (s_fh s) as [fh|]; cbn in *; [by exists fh|done].
Qed.

(** ** The memoized iterator *)

(** Just after Reset. *)
Definition memo_fresh b : Prop :=
  it_at (mz_it b) ss /\ mz_valueType b = type_at ss /\ mz_lastTime b = MinInt64 /\ mz_prevTime b = MinInt64.

(** The iterator is between [before] and [after]. *)
Definition memo_at b (before after : list sample) : Prop :=
  ss = before ++ after /\ it_at (mz_it b) after /\ mz_valueType b = memo_type (type_at after) /\
  match after with [] => True | s :: _ => mz_lastTime b = s_t s end.

(** PeekPrev returns the last of [before], or all of it is too old at [t]. *)
Definition peeks b (before : list sample) (t : Z) : Prop :=
  match PeekPrev b with
  | Some r => exists p, last before = Some p /\ r = reading p
  | None => Forall (fun s => s_t s < t - mz_delta b) before
  end.

(** After Seek to [t]. *)
Definition sought_to b (t : Z) : Prop :=
  exists before after, memo_at b before after /\ Forall (fun s => s_t s < t) before /\ Forall (fun s => t <= s_t s) after /\ peeks b before t /\
    (after = [] -> mz_lastTime b < t).

Lemma memo_at_in b before after s : memo_at b before after -> s ∈ after -> s ∈ ss.
Proof. intros (-> & _) Hs. apply elem_of_app. by right. Qed.

Lemma memo_Next_spec b before s rest : memo_at b before (s :: rest) ->
  exists b', memo_Next b = Some (memo_type (type_at rest), b') /\ memo_at b' (before ++ [s]) rest /\ PeekPrev b' = Some (reading s) /\
    mz_delta b' = mz_delta b /\ (rest = [] -> mz_lastTime b' = s_t s).
Proof.
  intros Hat. pose proof Hat as (E & Hi & Hvt & Hl). destruct (it_at_reads _ _ _ Hi) as (A1 & A2 & A3).
  destruct (it_at_next _ _ _ (fun x => memo_at_in _ _ _ x Hat) Hi) as (i' & En & Hi').
  assert (Hm : MinInt64 < s_t s) by (eapply (proj1 (Forall_forall _ _) Hmin), memo_at_in; [exact Hat|by left]).
  assert (Hk : exists b1, memo_keep b = Some b1 /\ mz_it b1 = mz_it b /\ mz_delta b1 = mz_delta b /\ mz_lastTime b1 = mz_lastTime b /\
    (mz_prevST b1, mz_prevTime b1, mz_prevValue b1, mz_prevFloatHistogram b1) = reading s /\ mz_prevTime b1 = s_t s).
  { unfold memo_keep. rewrite Hvt. cbn [type_at]. destruct (memo_type (sample_Type s)); try done.
    - destruct A3 as (_ & A3 & Er). rewrite A2. cbn [mbind option_bind]. rewrite A3. cbn [mbind option_bind]. eexists. split; [reflexivity|]. by rewrite Er.
    - destruct A3 as (h & A3 & Er). rewrite A2. cbn [mbind option_bind]. rewrite A3. cbn [mbind option_bind]. eexists. split; [reflexivity|]. by rewrite Er. }
  destruct Hk as (b1 & Ek & K1 & K2 & K3 & K4 & K5). unfold memo_Next. rewrite Ek. cbn [mbind option_bind]. rewrite K1, En. cbn [mbind option_bind].
  assert (Ht : (match type_at rest with ValNone => Some (mz_lastTime b1) | _ => AtT i' end) = Some (match rest with [] => s_t s | x :: _ => s_t x end)).
  { destruct rest as [|x rest']; [cbn; by rewrite K3, Hl|]. destruct (it_at_reads _ _ _ Hi') as (-> & _). cbn [type_at].
    unfold sample_Type. by destruct (s_h x), (s_fh x). }
  rewrite Ht. cbn [mbind option_bind].
  assert (Hnn : mz_valueType b <> ValNone) by (rewrite Hvt; cbn; unfold sample_Type; by destruct (s_h s), (s_fh s)).
  assert (Hat' : forall p1 p2 p3 p4 d,
    memo_at (mk_memoized i' d (match rest with [] => s_t s | x :: _ => s_t x end) (memo_type (type_at rest)) p1 p2 p3 p4) (before ++ [s]) rest).
  { intros *. split; [by rewrite E, <-app_assoc|]. split; [done|]. split; [done|]. by destruct rest. }
  assert (Hp : forall d l vt, PeekPrev (mk_memoized i' d l vt (mz_prevST b1) (mz_prevTime b1) (mz_prevValue b1) (mz_prevFloatHistogram b1)) = Some (reading s)).
  { intros *. unfold PeekPrev. cbn. rewrite K5, (proj2 (Z.eqb_neq _ _)) by lia. by rewrite K5 in K4; rewrite K4. }
  destruct (mz_valueType b); [done|..]; (eexists; split; [reflexivity|]; split; [apply Hat'|]; split; [apply Hp|]; split; [done|]; by intros ->).
Qed.

Lemma memo_advance_spec t fuel : forall b before s rest,
  memo_at b before (s :: rest) -> Forall (fun x => s_t x < t) before -> s_t s < t -> (length rest < fuel)%nat ->
  exists b', memo_advance fuel t b = Some (mz_valueType b', b') /\ sought_to b' t /\ mz_delta b' = mz_delta b.
Proof.
  induction fuel as [|fuel IH]; intros b before s rest Hat Hb Hs Hf; [lia|]. cbn [memo_advance].
  destruct (memo_Next_spec b before s rest Hat) as (b' & -> & Hat' & Hp & Hd & Hl). cbn [mbind option_bind].
  assert (Hb' : Forall (fun x => s_t x < t) (before ++ [s])) by (apply Forall_app; split; [done|by constructor]).
  assert (Hpk : peeks b' (before ++ [s]) t) by (unfold peeks; rewrite Hp; exists s; by rewrite last_snoc).
  destruct rest as [|x rest]; cbn [type_at memo_type].
  - exists b'. pose proof Hat' as (_ & _ & Hv & _). cbn in Hv. rewrite Hv. split; [done|]. split; [|done]. exists (before ++ [s]), []. split_and!; try done.
    intros _. rewrite Hl; [done|done].
  - pose proof Hat' as (E & _ & Hv & Hx). cbn [type_at] in Hv.
    assert (Hnn : memo_type (sample_Type x) <> ValNone) by (unfold sample_Type; by destruct (s_h x), (s_fh x)).
    destruct (Z.leb_spec t (mz_lastTime b')) as [Hle|Hgt].
    + exists b'. split; [by destruct (memo_type (sample_Type x))|]. split; [|done]. exists (before ++ [s]), (x :: rest). split_and!; try done.
      rewrite Hx in Hle. constructor; [done|]. destruct (sorted_parts (before ++ [s]) (x :: rest) E) as [_ Hso]. cbn in Hso.
      apply StronglySorted_inv in Hso as [_ Hso]. rewrite Forall_map in Hso. eapply Forall_impl; [exact Hso|]. cbn. lia.
    + destruct (IH b' (before ++ [s]) x rest Hat' Hb') as (b2 & E2 & Hs2 & Hd2); [lia|cbn in Hf; lia|]. rewrite E2.
      exists b2. split; [by destruct (memo_type (sample_Type x))|]. split; [done|congruence].
Qed.

Lemma memo_find_spec t fuel b before after :
  memo_at b before after -> Forall (fun x => s_t x < t) before -> peeks b before t -> (after = [] -> mz_lastTime b < t) -> (length ss < fuel)%nat ->
  exists b', memo_find fuel t b = Some (mz_valueType b', b') /\ sought_to b' t /\ mz_delta b' = mz_delta b.
Proof.
  intros Hat Hb Hp Hn Hf. unfold memo_find. pose proof Hat as (E & Hi & Hv & Hl). destruct (Z.leb_spec t (mz_lastTime b)) as [Hle|Hgt].
  - exists b. split; [done|]. split; [|done]. exists before, after. split_and!; try done. destruct after as [|s rest]; [constructor|].
    rewrite Hl in Hle. constructor; [done|]. destruct (sorted_parts before (s :: rest) E) as [_ Hso]. cbn in Hso.
    apply StronglySorted_inv in Hso as [_ Hso]. rewrite Forall_map in Hso. eapply Forall_impl; [exact Hso|]. cbn. lia.
  - destruct after as [|s rest].
    + destruct fuel as [|fuel]; [lia|]. cbn [memo_advance]. unfold memo_Next. cbn in Hv. rewrite Hv. cbn. exists b. rewrite Hv. split; [done|].
      split; [|done]. by exists before, [].
    + rewrite Hl in Hgt. eapply memo_advance_spec; [exact Hat|done|done|]. rewrite E, length_app in Hf. cbn in Hf. lia.
Qed.

Lemma sought_to_later b r t : sought_to b r -> r <= t -> exists before after, memo_at b before after /\ Forall (fun s => s_t s < t) before /\
  peeks b before t /\ (after = [] -> mz_lastTime b < t).
Proof.
  intros (before & after & Hat & Hb & _ & Hp & Hl) Hr. exists before, after. split; [done|]. split; [eapply Forall_impl; [exact Hb|]; cbn; lia|].
  split; [|intros Ha; specialize (Hl Ha); lia]. unfold peeks in *. destruct (PeekPrev b); [done|]. eapply Forall_impl; [exact Hp|]. cbn. lia.
Qed.

(** The jump to the start of the lookback. *)
Lemma memo_jump t fuel b before after :
  ss = before ++ after -> it_at (mz_it b) after -> after <> [] ->
  Forall (fun s => s_t s < t - mz_delta b) before -> mz_lastTime b < t - mz_delta b -> 0 <= mz_delta b -> (length ss < fuel)%nat ->
  exists b',
    ('(vt, it) ← Seek (t - mz_delta b) (mz_it b);
     let jumped lastTime := mk_memoized it (mz_delta b) lastTime (memo_type vt) (mz_prevST b) MinInt64 (mz_prevValue b) (mz_prevFloatHistogram b) in
     match vt with
     | ValNone => Some (ValNone, jumped (mz_lastTime b))
     | _ => lastTime ← AtT it; memo_find fuel t (jumped lastTime)
     end) = Some (mz_valueType b', b') /\ sought_to b' t /\ mz_delta b' = mz_delta b.
Proof.
  intros E Hi Hne Hb Hl Hd Hf. destruct (sorted_parts before after E) as [_ Hs].
  destruct (it_at_seek (mz_it b) after (t - mz_delta b)) as (skip & after' & i' & Ea & H1 & H2 & -> & Hi'); [intros x Hx; rewrite E; apply elem_of_app; by right|done..|].
  cbn [mbind option_bind]. set (b' := fun l => mk_memoized i' (mz_delta b) l (memo_type (type_at after')) (mz_prevST b) MinInt64 (mz_prevValue b) (mz_prevFloatHistogram b)).
  assert (Hb' : Forall (fun s => s_t s < t - mz_delta b) (before ++ skip)) by (by apply Forall_app).
  assert (Hlt : Forall (fun s => s_t s < t) (before ++ skip)) by (eapply Forall_impl; [exact Hb'|]; cbn; lia).
  assert (Hpk : forall l, peeks (b' l) (before ++ skip) t) by (intros l; unfold peeks, PeekPrev; cbn; exact Hb').
  destruct after' as [|s rest]; cbn [type_at].
  - exists (b' (mz_lastTime b)). split; [done|]. split; [|done]. exists (before ++ skip), []. split_and!; try done; [|cbn; lia].
    split_and!; [by rewrite E, Ea, app_assoc|done|done|done].
  - destruct (it_at_reads _ _ _ Hi') as (A1 & _). rewrite A1. cbn [mbind option_bind].
    destruct (memo_find_spec t fuel (b' (s_t s)) (before ++ skip) (s :: rest)) as (b2 & E2 & Hs2 & Hd2); try done.
    { split_and!; [by rewrite E, Ea, app_assoc|done|done|done]. }
    exists b2. split; [|by split]. change (memo_find fuel t (b' (s_t s)) = Some (mz_valueType b2, b2)) in E2. unfold b' in E2. cbn [type_at] in E2.
    unfold sample_Type in *. destruct (s_h s), (s_fh s); exact E2.
Qed.

Lemma memo_Seek_spec t fuel b :
  memo_fresh b \/ (exists r, sought_to b r /\ r <= t) -> 0 <= mz_delta b -> MinInt64 < t - mz_delta b -> t <= MaxInt64 -> (length ss < fuel)%nat ->
  exists b', memo_Seek fuel t b = Some (mz_valueType b', b') /\ sought_to b' t /\ mz_delta b' = mz_delta b.
Proof.
  intros Hb Hd Hlo Hhi Hf. unfold memo_Seek. rewrite (i64_id (t - mz_delta b)) by (unfold is_i64, MinInt64, MaxInt64 in *; lia).
  destruct Hb as [(Hi & Hv & Hl & Hp)|(r & Hs & Hr)].
  - rewrite Hl, (proj2 (Z.ltb_lt _ _) Hlo), andb_true_r. destruct (decide (ss = [])) as [E|Hne].
    + rewrite bool_decide_eq_false_2 by (rewrite Hv, E; tauto).
      apply (memo_find_spec t fuel b [] []); [|constructor| |intros _; rewrite Hl; lia|done].
      * split_and!; [by rewrite E|rewrite <-E; exact Hi|by rewrite Hv, E|done].
      * unfold peeks, PeekPrev. rewrite Hp. constructor.
    + rewrite bool_decide_eq_true_2 by (rewrite Hv; destruct ss as [|s l]; [done|]; unfold type_at, sample_Type; by destruct (s_h s), (s_fh s)).
      pose proof (memo_jump t fuel b [] ss) as J. rewrite Hl in J. by apply J.
  - destruct (sought_to_later b r t Hs Hr) as (before & after & Hat & Hbt & Hp & Hl). pose proof Hat as (E & Hi & Hv & Hx).
    destruct after as [|s rest].
    { rewrite bool_decide_eq_false_2 by (rewrite Hv; tauto). cbn [andb]. by apply (memo_find_spec t fuel b before []). }
    destruct (Z.ltb_spec (mz_lastTime b) (t - mz_delta b)) as [Hlt|Hge]; [|rewrite andb_false_r; by apply (memo_find_spec t fuel b before (s :: rest))].
    rewrite andb_true_r, bool_decide_eq_true_2 by (rewrite Hv; unfold type_at, sample_Type; by destruct (s_h s), (s_fh s)).
    apply (memo_jump t fuel b before (s :: rest)); try done.
    destruct (sorted_parts before (s :: rest) E) as [Hso _]. eapply Forall_impl; [exact Hso|]. cbn. intros x Hxs. apply Forall_cons in Hxs as [Hxs _]. lia.
Qed.

(** ** What a selector sees *)

(** The newest sample that is not after [r]. *)
Definition newest (r : Z) : option sample := last (filter (fun s => s_t s <= r) ss).

(** The reference: the newest sample, if it is within the lookback and no
    staleness marker. *)
Definition value_at (lookback r : Z) : option (Z * Z * Z * option FloatHistogram) :=
  match newest r with
  | Some s => if (r - lookback <? s_t s) && negb (stale_value (reading s).1.2 (reading s).2) then Some (reading s) else None
  | None => None
  end.

Lemma filter_le_all r l : Forall (fun s => s_t s <= r) l -> filter (fun s => s_t s <= r) l = l.
Proof. induction 1 as [|s l Hs Hl IH]; [done|]. by rewrite filter_cons_True, IH. Qed.

Lemma filter_le_none r l : Forall (fun s => r < s_t s) l -> filter (fun s => s_t s <= r) l = [].
Proof. induction 1 as [|s l Hs Hl IH]; [done|]. rewrite filter_cons_False; [done|lia]. Qed.

Lemma newest_parts r before after : ss = before ++ after -> Forall (fun s => s_t s < r) before ->
  match after with
  | [] => newest r = last before
  | s :: rest => (s_t s = r -> newest r = Some s) /\ (r < s_t s -> newest r = last before)
  end.
Proof.
  intros E Hb. unfold newest. rewrite E, filter_app. rewrite filter_le_all by (eapply Forall_impl; [exact Hb|]; cbn; lia).
  destruct after as [|s rest]; [by rewrite filter_nil, app_nil_r|].
  destruct (sorted_parts before (s :: rest) E) as [_ Hs]. cbn in Hs. apply StronglySorted_inv in Hs as [_ Hs]. rewrite Forall_map in Hs.
  split; intros Hr.
  - rewrite filter_cons_True by lia. rewrite filter_le_none by (eapply Forall_impl; [exact Hs|]; cbn; lia). apply last_snoc.
  - rewrite filter_cons_False by lia. rewrite filter_le_none by (eapply Forall_impl; [exact Hs|]; cbn; lia). by rewrite app_nil_r.
Qed.

Lemma reading_time s : (reading s).1.1.2 = s_t s.
Proof. unfold reading. by destruct (s_h s), (s_fh s). Qed.

(** The sample that was peeked at, if it is recent. *)
Lemma peeked_value lookback r b before :
  peeks b before r -> newest r = last before -> lookback <= mz_delta b + 1 -> MinInt64 <= r - lookback <= MaxInt64 ->
  match PeekPrev b with
  | None => None
  | Some x => if x.1.1.2 <=? i64 (r - lookback) then None else if stale_value x.1.2 x.2 then None else Some x
  end = value_at lookback r.
Proof.
  intros Hp Hn Hd Hr. rewrite i64_id by done. unfold value_at. rewrite Hn. unfold peeks in Hp. destruct (PeekPrev b) as [x|].
  - destruct Hp as (p & -> & ->). rewrite reading_time. destruct (Z.leb_spec (s_t p) (r - lookback)), (Z.ltb_spec (r - lookback) (s_t p)); try lia; cbn [andb]; [done|].
    by destruct (stale_value _ _).
  - destruct (last before) as [p|] eqn:El; [|done]. rewrite Forall_forall in Hp. pose proof (Hp p (last_Some_elem_of _ _ El)).
    destruct (Z.ltb_spec (r - lookback) (s_t p)); [lia|done].
Qed.

Definition selector_bounds (lookback delta r : Z) : Prop :=
  0 <= delta /\ 1 <= lookback <= delta + 1 /\ MinInt64 < r - delta /\ r <= MaxInt64.

Lemma vectorSelectorSingle_spec fuel lookback offset ts b :
  memo_fresh b \/ (exists r, sought_to b r /\ r <= ts - offset) -> selector_bounds lookback (mz_delta b) (ts - offset) -> (length ss < fuel)%nat ->
  exists b', vectorSelectorSingle fuel lookback offset ts b = Some (inl (b', value_at lookback (ts - offset))) /\ sought_to b' (ts - offset) /\
    mz_delta b' = mz_delta b.
Proof.
  intros Hb (Hd & Hl & Hlo & Hhi) Hf. unfold vectorSelectorSingle. rewrite (i64_id (ts - offset)) by (unfold is_i64, MinInt64, MaxInt64 in *; lia).
  set (r := ts - offset) in *.
  destruct (memo_Seek_spec r fuel b Hb Hd Hlo Hhi Hf) as (b' & -> & Hs & Hd'). cbn [mbind option_bind].
  assert (Hbound : MinInt64 <= r - lookback <= MaxInt64) by (unfold MinInt64, MaxInt64 in *; lia). rewrite <-Hd' in Hl.
  pose proof Hs as (before & after & Hat & Hbt & Ha & Hp & _). pose proof Hat as (E & Hi & Hv & _).
  pose proof (newest_parts r before after E Hbt) as Hnew. destruct after as [|s rest].
  - rewrite Hv. cbn [type_at memo_type]. destruct Hi as [o Hi]. rewrite (rep_err _ _ _ Hi). cbn [mbind option_bind].
    rewrite bool_decide_eq_true_2 by done. cbn [orb]. exists b'. rewrite (peeked_value lookback r b' before); try done. lia.
  - destruct Hnew as [Hn1 Hn2]. apply Forall_cons in Ha as [Ha _]. destruct (it_at_reads _ _ _ Hi) as (A1 & A2 & A3). cbn [type_at] in Hv. rewrite Hv.
    assert (Hread : exists x, x.1.1.2 = s_t s /\ (r = s_t s -> x = reading s) /\
      (match memo_type (sample_Type s) with
       | ValNone => Some (match Err (mz_it b') with [] => inl (0, 0, 0, None) | e => inr (ErrStorage e) end)
       | ValFloat => '(t, v) ← At (mz_it b'); st ← AtST (mz_it b'); Some (inl (st, t, v, None))
       | ValFloatHistogram => '(t, h) ← AtFloatHistogram (mz_it b'); st ← AtST (mz_it b'); Some (inl (st, t, 0, h))
       | ValHistogram => None
       end : option (Z * Z * Z * option FloatHistogram + selector_error)) = Some (inl x)).
    { exists (reading s). split; [apply reading_time|]. split; [done|]. destruct (memo_type (sample_Type s)); try done.
      - destruct A3 as (_ & -> & ->). cbn [mbind option_bind]. by rewrite A2.
      - destruct A3 as (h & -> & ->). cbn [mbind option_bind]. by rewrite A2. }
    destruct Hread as (x & Hxt & Hxr & ->). cbn [mbind option_bind]. rewrite Hxt.
    rewrite bool_decide_eq_false_2 by (unfold sample_Type; by destruct (s_h s), (s_fh s)). cbn [orb]. exists b'.
    destruct (Z.ltb_spec r (s_t s)) as [Hlt|Hge].
    + rewrite (peeked_value lookback r b' before); [done|done|by apply Hn2|lia|done].
    + assert (Er : r = s_t s) by lia. rewrite (Hxr Er). unfold value_at. rewrite (Hn1 (eq_sym Er)).
      destruct (Z.ltb_spec (r - lookback) (s_t s)) as [_|Hbad]; cbn [andb].
      * by destruct (stale_value _ _).
      * lia.
Qed.

Lemma memo_Reset_spec i b : rep i (fun x => x ∈ ss) (Fresh (map s_t ss)) ->
  exists b', memo_Reset i b = Some b' /\ memo_fresh b' /\ mz_delta b' = mz_delta b.
Proof.
  intros Hr. unfold memo_Reset. pose proof (rep_next _ _ _ Hr) as Hl. cbn [SeriesIterator.rest] in Hl.
  destruct (lands_at ss _ _ (fun x Hx => Hx) Hl) as (i' & -> & Hi). cbn [mbind option_bind]. eexists. split; [reflexivity|]. by split_and!.
Qed.

(** ** A series over the steps *)

Variable hist_size : FloatHistogram -> Z.
Hypothesis size_pos : forall h, 0 < hist_size h.
Variables lookback maxSamples offset : Z.
Variable atTimestamp : option Z.

(** What is looked up at a step. *)
Definition seen_at (ts : Z) : option (Z * Z * Z * option FloatHistogram) := value_at lookback (default ts atTimestamp - offset).

Definition float_point (ts : Z) : option (Z * Z) := match seen_at ts with Some (_, _, f, None) => Some (ts, f) | _ => None end.
Definition hist_point (ts : Z) : option (Z * FloatHistogram) := match seen_at ts with Some (_, _, _, Some h) => Some (ts, h) | _ => None end.

Definition step_cost (ts : Z) : Z := match seen_at ts with Some (_, _, _, None) => 1 | Some (_, _, _, Some h) => hist_size h | None => 0 end.
Definition cost (steps : list Z) : Z := foldr Z.add 0 (map step_cost steps).

(** The reference for a series. *)
Definition series_at (steps : list Z) (lset : list Label) : Series := mk_Series lset (omap float_point steps) (omap hist_point steps).

Definition affordable (current c : Z) : Prop := c = 0 \/ current + c <= maxSamples.

Lemma step_cost_nonneg ts : 0 <= step_cost ts.
Proof. unfold step_cost. destruct (seen_at ts) as [[[[? ?] ?] [h|]]|]; [pose proof (size_pos h)|..]; lia. Qed.

Lemma cost_nonneg steps : 0 <= cost steps.
Proof. unfold cost. induction steps as [|ts l IH]; cbn; [lia|]. pose proof (step_cost_nonneg ts). lia. Qed.

Lemma eval_step_spec fuel (foi : Z -> Z) ts b se current :
  memo_fresh b \/ (exists r, sought_to b r /\ r <= default ts atTimestamp - offset) ->
  selector_bounds lookback (mz_delta b) (default ts atTimestamp - offset) -> (length ss < fuel)%nat ->
  (~ affordable current (step_cost ts) /\
     eval_step hist_size foi lookback maxSamples fuel offset false atTimestamp ts b se current = Some (inr ErrTooManySamples)) \/
  (affordable current (step_cost ts) /\ exists b',
     eval_step hist_size foi lookback maxSamples fuel offset false atTimestamp ts b se current =
       Some (inl (b', mk_Series (se_Metric se) (se_Floats se ++ omap float_point [ts]) (se_Histograms se ++ omap hist_point [ts]), current + step_cost ts)) /\
     sought_to b' (default ts atTimestamp - offset) /\ mz_delta b' = mz_delta b).
Proof.
  intros Hb Hbd Hf. unfold eval_step.
  destruct (vectorSelectorSingle_spec fuel lookback offset (default ts atTimestamp) b Hb Hbd Hf) as (b' & -> & Hs & Hd). cbn [mbind option_bind].
  unfold affordable, step_cost. cbn [omap list_omap]. unfold float_point, hist_point, seen_at.
  destruct (value_at lookback _) as [[[[st t] f] [h|]]|].
  - pose proof (size_pos h). destruct (Z.ltb_spec maxSamples (current + hist_size h)); [left; split; [lia|done]|right; split; [lia|]].
    exists b'. by rewrite app_nil_r.
  - destruct (Z.ltb_spec maxSamples (current + 1)); [left; split; [lia|done]|right; split; [lia|]]. exists b'. by rewrite app_nil_r.
  - right. split; [by left|]. exists b'. rewrite !app_nil_r, Z.add_0_r. by destruct se.
Qed.

Lemma eval_steps_spec fuel (foi : Z -> Z) steps : forall b se current,
  memo_fresh b \/ (exists r, sought_to b r /\ Forall (fun ts => r <= default ts atTimestamp - offset) steps) ->
  StronglySorted Z.le (map (fun ts => default ts atTimestamp - offset) steps) ->
  Forall (fun ts => selector_bounds lookback (mz_delta b) (default ts atTimestamp - offset)) steps -> (length ss < fuel)%nat ->
  (~ affordable current (cost steps) /\
     eval_steps hist_size foi lookback maxSamples fuel offset false atTimestamp steps b se current = Some (inr ErrTooManySamples)) \/
  (affordable current (cost steps) /\ exists b',
     eval_steps hist_size foi lookback maxSamples fuel offset false atTimestamp steps b se current =
       Some (inl (b', mk_Series (se_Metric se) (se_Floats se ++ omap float_point steps) (se_Histograms se ++ omap hist_point steps), current + cost steps)) /\
     mz_delta b' = mz_delta b).
Proof.
  induction steps as [|ts steps IH]; intros b se current Hb Hs Hbd Hf; cbn [eval_steps].
  { right. split; [by left|]. exists b. cbn. rewrite !app_nil_r, Z.add_0_r. by destruct se. }
  cbn [map] in Hs. apply StronglySorted_inv in Hs as [Hs Hts]. rewrite Forall_map in Hts. apply Forall_cons in Hbd as [Hbt Hbd].
  assert (Hc : cost (ts :: steps) = step_cost ts + cost steps) by done. pose proof (cost_nonneg steps). pose proof (step_cost_nonneg ts).
  destruct (eval_step_spec fuel foi ts b se current) as [[Hn ->]|[Ha (b1 & -> & Hs1 & Hd1)]]; [|done|done|..]; cbn [mbind option_bind].
  - destruct Hb as [Hb|(r & Hr & Hall)]; [by left|right]. exists r. split; [done|]. by apply Forall_cons in Hall as [Hall _].
  - left. split; [|done]. unfold affordable in *. rewrite Hc. lia.
  - destruct (IH b1 (mk_Series (se_Metric se) (se_Floats se ++ omap float_point [ts]) (se_Histograms se ++ omap hist_point [ts])) (current + step_cost ts))
      as [[Hn2 ->]|[Ha2 (b2 & -> & Hd2)]]; [right; by exists (default ts atTimestamp - offset)|done| |done|..].
    + eapply Forall_impl; [exact Hbd|]. cbn. by rewrite Hd1.
    + left. split; [|done]. unfold affordable in *. rewrite Hc. lia.
    + right. split; [unfold affordable in *; rewrite Hc; lia|]. exists b2. split; [|congruence]. cbn [se_Metric se_Floats se_Histograms].
      rewrite <-!app_assoc, <-!omap_app, Hc, Z.add_assoc. done.
Qed.
End Seeking.

(** ** A selector over all series *)

Lemma step_times_sorted start end_ interval : 0 <= interval -> StronglySorted Z.le (step_times start end_ interval).
Proof.
  intros Hi. unfold step_times. assert (Hl : forall n m, StronglySorted Z.le (map (fun k => start + k * interval) (seqZ m (Z.of_nat n)))).
  { induction n as [|n IH]; intros m; [constructor|]. rewrite seqZ_cons by lia. cbn [map]. replace (Z.pred (Z.of_nat (S n))) with (Z.of_nat n) by lia.
    constructor; [apply IH|]. rewrite Forall_map. apply Forall_forall. intros k Hk. apply elem_of_seqZ in Hk. nia. }
  destruct (Z.le_gt_cases ((end_ - start) / interval + 1) 0) as [Hle|Hgt].
  - rewrite seqZ_nil by lia. constructor.
  - rewrite <-(Z2Nat.id ((end_ - start) / interval + 1)) by lia. apply Hl.
Qed.

Section Selector.
  Context {I : Type} `{!SampleIterator I, !SampleIteratorLaws I}.
  Variable ToFloat : Histogram -> FloatHistogram.
  Variable hist_size : FloatHistogram -> Z.
  Hypothesis size_pos : forall h, 0 < hist_size h.
  Variable float_of_int : Z -> Z.
  Variables lookback maxSamples offset : Z.
  Variable atTimestamp : option Z.

(** A series with its labels, its iterator and its samples. *)
Record stored := mk_stored { sd_labels : list Label; sd_iterator : I; sd_samples : list sample }.

Definition stored_ok (s : stored) : Prop :=
  StronglySorted Z.lt (map s_t (sd_samples s)) /\ Forall (fun x => MinInt64 < s_t x) (sd_samples s) /\
  converts (I := I) ToFloat (sd_samples s) /\ rep (sd_iterator s) (fun x => x ∈ sd_samples s) (Fresh (map s_t (sd_samples s))).

(** The series of the result and their number of samples. *)
Definition point_series (steps : list Z) (s : stored) : Series :=
  series_at ToFloat (sd_samples s) lookback offset atTimestamp steps (sd_labels s).
Definition has_points (s : Series) : bool := match se_Floats s, se_Histograms s with [], [] => false | _, _ => true end.
Definition matrix_at (steps : list Z) (l : list stored) : list Series := List.filter has_points (map (point_series steps) l).
Definition total_cost (steps : list Z) (l : list stored) : Z :=
  foldr Z.add 0 (map (fun s => cost ToFloat (sd_samples s) hist_size lookback offset atTimestamp steps) l).

Lemma total_cost_nonneg steps l : 0 <= total_cost steps l.
Proof.
  unfold total_cost. induction l as [|s l IH]; cbn; [lia|]. pose proof (cost_nonneg ToFloat (sd_samples s) hist_size size_pos lookback offset atTimestamp steps). lia.
Qed.

Lemma eval_all_spec fuel steps l : forall b mat current,
  Forall stored_ok l -> Forall (fun s => length (sd_samples s) < fuel)%nat l ->
  StronglySorted Z.le (map (fun ts => default ts atTimestamp - offset) steps) ->
  Forall (fun ts => selector_bounds lookback (mz_delta b) (default ts atTimestamp - offset)) steps ->
  eval_all hist_size float_of_int lookback maxSamples fuel offset false atTimestamp steps (map (fun s => (sd_labels s, sd_iterator s)) l) b mat current =
    Some (if decide (total_cost steps l = 0 \/ current + total_cost steps l <= maxSamples)
          then inl (mat ++ matrix_at steps l, current + total_cost steps l) else inr ErrTooManySamples).
Proof.
  induction l as [|s l IH]; intros b mat current Hok Hf Hs Hb; cbn [eval_all map].
  { cbn. rewrite decide_True by (by left). by rewrite app_nil_r, Z.add_0_r. }
  apply Forall_cons in Hok as [(S1 & S2 & S3 & S4) Hok]. apply Forall_cons in Hf as [Hf1 Hf].
  destruct (memo_Reset_spec (sd_samples s) S1 S2 (sd_iterator s) b S4) as (b1 & -> & Hfr & Hd1). cbn [mbind option_bind].
  set (c := cost ToFloat (sd_samples s) hist_size lookback offset atTimestamp steps).
  assert (Hc : total_cost steps (s :: l) = c + total_cost steps l) by done.
  pose proof (cost_nonneg ToFloat (sd_samples s) hist_size size_pos lookback offset atTimestamp steps) as Hc0. fold c in Hc0.
  pose proof (total_cost_nonneg steps l) as Hc1.
  destruct (eval_steps_spec ToFloat (sd_samples s) S1 S2 S3 hist_size size_pos lookback maxSamples offset atTimestamp fuel float_of_int steps b1 (mk_Series (sd_labels s) [] []) current)
    as [[Hn ->]|[Ha (b2 & -> & Hd2)]]; [by left|done|by rewrite Hd1|done|..]; cbn [mbind option_bind]; unfold affordable in *.
  - fold c in Hn. rewrite decide_False; [done|]. rewrite Hc. lia.
  - fold c in Ha |- *. cbn [se_Metric se_Floats se_Histograms app]. rewrite IH; [|done|done|done|by rewrite Hd2, Hd1]. f_equal.
    assert (Hm : forall m, match omap (float_point ToFloat (sd_samples s) lookback offset atTimestamp) steps,
        omap (hist_point ToFloat (sd_samples s) lookback offset atTimestamp) steps with
      | [], [] => m | _, _ => m ++ [point_series steps s] end = m ++ List.filter has_points [point_series steps s]).
    { intros m. unfold point_series, series_at, has_points. cbn [List.filter se_Floats se_Histograms].
      destruct (omap _ steps), (omap _ steps); [by rewrite app_nil_r|done..]. }
    unfold point_series, series_at in Hm. rewrite (Hm mat), <-app_assoc.
    assert (Em : matrix_at steps (s :: l) = List.filter has_points [point_series steps s] ++ matrix_at steps l)
      by (unfold matrix_at; cbn [map List.filter]; by destruct (has_points (point_series steps s))).
    rewrite Em, Hc, Z.add_assoc.
    destruct (decide (total_cost steps l = 0 \/ current + c + total_cost steps l <= maxSamples)) as [Hy|Hy].
    + rewrite decide_True; [done|]. lia.
    + rewrite decide_False; [done|]. lia.
Qed.

End Selector.

(** ** Two series of a list iterator *)

Definition lookback_samples : list (list sample) :=
  [[mk_sample 0 10 1 None None; mk_sample 0 20 2 None None; mk_sample 0 30 StaleNaN None None; mk_sample 0 55 3 None None];
   [mk_sample 0 15 0 None (Some zero_Histogram)]].

Definition lookback_series : list (stored (I := listSeriesIterator)) :=
  map (fun l => mk_stored [] (NewListSeriesIterator l) l) lookback_samples.

Definition lookback_query (maxSamples : Z) : option (list Series * Z + selector_error) :=
  evalSeries (fun _ => 2) (fun z => z) 25 maxSamples 10 (NewListSeriesIterator []) 10 60 10
    (map (fun s => (sd_labels s, sd_iterator s)) lookback_series) 5 false None 0.

(** The marker hides the first series from 30 on, and 25 later the histogram is too old. *)
Example lookback_values : lookback_query 9 =
  Some (inl ([mk_Series [] [(20, 1); (30, 2); (60, 3)] []; mk_Series [] [] [(20, zero_Histogram); (30, zero_Histogram); (40, zero_Histogram)]], 9)).
Proof. vm_compute. reflexivity. Qed.

Example lookback_too_many : lookback_query 8 = Some (inr ErrTooManySamples).
Proof. vm_compute. reflexivity. Qed.

