(* ===== verification/VectorMatching.v ===== *)
(** promql/engine.go: binary operators between instant vectors, and their
    evaluation over the steps of a query.

    Metrics are label sets as bytes (Labels); the arithmetic of floats and
    histograms (vectorElemBinop), the hash of a label set, the size of a histogram
    and the order of Go's maps are parameters.  Annotations, statistics and the
    re-use of memory are left out.  [None] is a panic that is not an error of the
    query. *)
From stdpp Require Import sorting fin_maps fin_sets gmap.
From S2P Require Import Prelude RecordHistogram Labels LabelBuilder.

(** ** Data *)

Inductive VectorMatchCardinality := CardOneToOne | CardManyToOne | CardOneToMany | CardManyToMany.
#[global] Instance VectorMatchCardinality_eq_dec : EqDecision VectorMatchCardinality.
Proof. solve_decision. Defined.

Record VectorMatching := mk_VectorMatching {
  Card : VectorMatchCardinality; MatchingLabels : list gostr; On : bool; Include : list gostr; FillLHS : option Z; FillRHS : option Z }.

(** promql.Sample. *)
Record VSample := mk_VSample { v_T : Z; v_F : Z; v_H : option FloatHistogram; v_Metric : Labels; v_DropName : bool }.
Definition Vector : Type := list VSample.

(** promql.Series, with the points that are still to come. *)
Record MSeries := mk_MSeries { m_Metric : Labels; m_Floats : list (Z * Z); m_Histograms : list (Z * FloatHistogram); m_DropName : bool }.

(** The operators whose result is another metric, and the others. *)
Inductive binary_op := ADD | SUB | DIV | MUL | POW | MOD | ATAN2 | OtherOp (code : Z).
Definition changesMetricSchema (op : binary_op) : bool := match op with OtherOp _ => false | _ => true end.

(** What stops a query. *)
Inductive match_error :=
  | ErrManyToMany           (* found duplicate series for the match group *)
  | ErrMultipleMatches      (* many-to-one matching must be explicit *)
  | ErrGroupingLabels       (* grouping labels must ensure unique matches *)
  | ErrSameLabelset         (* vector cannot contain metrics with the same labelset *)
  | ErrTooManySamples.

(** What EvalNodeHelper keeps from one step to the next. *)
Record EvalNodeHelper := mk_EvalNodeHelper { numSigs : nat; resultMetrics : gmap gostr Labels }.

(** ** Set operators *)

(** The signatures that occur, in a cleared array. *)
Fixpoint sigs_present (h : list nat) (present : list bool) : option (list bool) :=
  match h with
  | [] => Some present
  | o :: h => _ ← present !! o; sigs_present h (<[o := true]> present)
  end.

(** The samples whose signature occurs, or does not. *)
Fixpoint select_sigs (want : bool) (present : list bool) (vec : Vector) (h : list nat) : option Vector :=
  match vec, h with
  | [], _ => Some []
  | s :: vec, o :: h => p ← present !! o; out ← select_sigs want present vec h; Some (if Bool.eqb p want then s :: out else out)
  | _ :: _, [] => None
  end.

Definition resetSigsPresent (enh : EvalNodeHelper) : list bool := replicate (numSigs enh) false.

Definition VectorAnd (lhs rhs : Vector) (m : VectorMatching) (lhsh rhsh : list nat) (enh : EvalNodeHelper) : option Vector :=
  match Card m with
  | CardManyToMany =>
      match lhs, rhs with
      | [], _ | _, [] => Some []
      | _, _ => present ← sigs_present rhsh (resetSigsPresent enh); select_sigs true present lhs lhsh
      end
  | _ => None
  end.

Definition VectorOr (lhs rhs : Vector) (m : VectorMatching) (lhsh rhsh : list nat) (enh : EvalNodeHelper) : option Vector :=
  match Card m with
  | CardManyToMany =>
      match lhs, rhs with
      | [], _ => Some rhs
      | _, [] => Some lhs
      | _, _ => present ← sigs_present (take (length lhs) lhsh) (resetSigsPresent enh); out ← select_sigs false present rhs rhsh; Some (lhs ++ out)
      end
  | _ => None
  end.

Definition VectorUnless (lhs rhs : Vector) (m : VectorMatching) (lhsh rhsh : list nat) (enh : EvalNodeHelper) : option Vector :=
  match Card m with
  | CardManyToMany =>
      match lhs, rhs with
      | [], _ | _, [] => Some lhs
      | _, _ => present ← sigs_present rhsh (resetSigsPresent enh); select_sigs false present lhs lhsh
      end
  | _ => None
  end.

(** ** Operators on values *)

Section Binop.
  (** vectorElemBinop: float, histogram, keep, info and error. *)
  Context {E : Type}.
  Variable vectorElemBinop : binary_op -> Z -> Z -> option FloatHistogram -> option FloatHistogram -> Z * option FloatHistogram * bool * option E * option E.
  Variable Sum64 : gostr -> Z.
  Variables MetricTypeLabel MetricUnitLabel : gostr.
  Variable enableDelayedNameRemoval : bool.

(** The builder's calls of resultMetric. *)
Definition metric_ops (rhs : Labels) (op : binary_op) (m : VectorMatching) (dropMetricName : bool) : option (list builder_op) :=
  included ← mapM (fun ln => v ← Labels_Get rhs ln; Some (match v with [] => OpDel [ln] | _ => OpSet ln v end)) (Include m);
  Some ((if dropMetricName || changesMetricSchema op then [OpSet MetricName []; OpSet MetricTypeLabel []; OpSet MetricUnitLabel []] else []) ++
    (match Card m with CardOneToOne => [if On m then OpKeep (MatchingLabels m) else OpDel (MatchingLabels m)] | _ => [] end) ++ included).

(** resultMetric without its cache. *)
Definition fresh_metric (lhs rhs : Labels) (op : binary_op) (m : VectorMatching) (dropMetricName : bool) : option Labels :=
  ops ← metric_ops rhs op m dropMetricName;
  b ← builder_run (NewBuilder lhs) ops;
  '(ls, _) ← Builder_Labels b;
  Some ls.

Definition resultMetric (lhs rhs : Labels) (op : binary_op) (m : VectorMatching) (dropMetricName : bool) (cache : gmap gostr Labels)
  : option (Labels * gmap gostr Labels) :=
  let key := data lhs ++ data rhs in
  match cache !! key with
  | Some ret => Some (ret, cache)
  | None => ret ← fresh_metric lhs rhs op m dropMetricName; Some (ret, <[key := ret]> cache)
  end.

(** The variables of VectorBinop: the signatures that were matched (one-to-one),
    the metrics by signature (otherwise), the output, the last error and the
    cached metrics. *)
Record binopState := mk_binopState {
  b_matched : list bool; b_inserted : list (gset Z); b_out : Vector; b_lastErr : option E; b_cache : gmap gostr Labels }.

Definition float_one : Z := 0x3ff0000000000000.

Definition doBinOp (op : binary_op) (m : VectorMatching) (returnBool : bool) (ls rs : VSample) (sigOrd : nat) (st : binopState) : option (binopState + match_error) :=
  let '(fl, fr, hl, hr) :=
    match Card m with CardOneToMany => (v_F rs, v_F ls, v_H rs, v_H ls) | _ => (v_F ls, v_F rs, v_H ls, v_H rs) end in
  let '(floatValue, histogramValue, keep, info, err) := vectorElemBinop op fl fr hl hr in
  match err with
  | Some e => Some (inl (mk_binopState (b_matched st) (b_inserted st) (b_out st) (Some e) (b_cache st)))
  | None =>
      let lastErr := match info with Some e => Some e | None => b_lastErr st end in
      let '(floatValue, histogramValue) := if returnBool then (if (keep : bool) then float_one else 0, None) else (floatValue, histogramValue) in
      '(metric, cache) ← resultMetric (v_Metric ls) (v_Metric rs) op m (negb enableDelayedNameRemoval && returnBool) (b_cache st);
      marked ← (match Card m with
        | CardOneToOne =>
            p ← b_matched st !! sigOrd;
            Some (if (p : bool) then inr ErrMultipleMatches else inl (<[sigOrd := true]> (b_matched st), b_inserted st))
        | _ =>
            sigs ← b_inserted st !! sigOrd;
            let insertSig := Labels_Hash Sum64 metric in
            Some (if decide (insertSig ∈ sigs) then inr ErrGroupingLabels
                  else inl (b_matched st, <[sigOrd := {[insertSig]} ∪ sigs]> (b_inserted st)))
        end : option (list bool * list (gset Z) + match_error));
      Some (match marked with
      | inr e => inr e
      | inl (matched, inserted) =>
          let out := if negb keep && negb returnBool then b_out st else b_out st ++ [mk_VSample 0 floatValue histogramValue metric returnBool] in
          inl (mk_binopState matched inserted out lastErr cache)
      end)
  end.

(** The samples of the side that is one, by signature. *)
Fixpoint right_sigs (rhs : Vector) (rhsh : list nat) (sigs : list (option VSample)) : option (list (option VSample) + match_error) :=
  match rhs, rhsh with
  | [], _ => Some (inl sigs)
  | rs :: rhs, o :: rhsh =>
      present ← sigs !! o;
      match present with Some _ => Some (inr ErrManyToMany) | None => right_sigs rhs rhsh (<[o := Some rs]> sigs) end
  | _ :: _, [] => None
  end.

(** What a side without a match is filled with. *)
Definition fill_sample (m : VectorMatching) (metric : Labels) (f : Z) : option VSample :=
  ls ← MatchLabels (On m) (MatchingLabels m) metric; Some (mk_VSample 0 f None ls false).

Fixpoint left_loop (op : binary_op) (m : VectorMatching) (returnBool : bool) (sigs : list (option VSample)) (lhs : Vector) (lhsh : list nat)
    (st : binopState) : option (binopState + match_error) :=
  match lhs, lhsh with
  | [], _ => Some (inl st)
  | ls :: lhs, o :: lhsh =>
      found ← sigs !! o;
      rs ← (match found with
        | Some rs => Some (Some rs)
        | None => match FillRHS m with None => Some None | Some f => rs ← fill_sample m (v_Metric ls) f; Some (Some rs) end
        end : option (option VSample));
      r ← (match rs with None => Some (inl st) | Some rs => doBinOp op m returnBool ls rs o st end : option (binopState + match_error));
      match r with inr e => Some (inr e) | inl st => left_loop op m returnBool sigs lhs lhsh st end
  | _ :: _, [] => None
  end.

Definition already_matched (m : VectorMatching) (o : nat) (st : binopState) : option bool :=
  match Card m with
  | CardOneToOne => b_matched st !! o
  | _ => (fun sigs : gset Z => bool_decide (sigs <> ∅)) <$> b_inserted st !! o
  end.

Fixpoint fill_loop (op : binary_op) (m : VectorMatching) (returnBool : bool) (f : Z) (rhs : Vector) (rhsh : list nat) (st : binopState)
  : option (binopState + match_error) :=
  match rhs, rhsh with
  | [], _ => Some (inl st)
  | rs :: rhs, o :: rhsh =>
      done ← already_matched m o st;
      r ← (if (done : bool) then Some (inl st)
           else ls ← fill_sample m (v_Metric rs) f; doBinOp op m returnBool ls rs o st : option (binopState + match_error));
      match r with inr e => Some (inr e) | inl st => fill_loop op m returnBool f rhs rhsh st end
  | _ :: _, [] => None
  end.

Definition no_vector (v : Vector) : bool := match v with [] => true | _ => false end.

(** VectorBinop from the side that is many, [lhs], to the one that is one: the
    output and the last error, which is a warning. *)
Definition binop_sides (op : binary_op) (lhs rhs : Vector) (m : VectorMatching) (returnBool : bool) (lhsh rhsh : list nat) (enh : EvalNodeHelper)
  : option (Vector * option E * EvalNodeHelper + match_error) :=
  sigs ← right_sigs rhs rhsh (replicate (numSigs enh) None);
  match sigs with
  | inr e => Some (inr e)
  | inl sigs =>
      let st := mk_binopState (replicate (numSigs enh) false) (replicate (numSigs enh) ∅) [] None (resultMetrics enh) in
      r ← left_loop op m returnBool sigs lhs lhsh st;
      r ← (match r with
        | inr e => Some (inr e)
        | inl st => match FillLHS m with None => Some (inl st) | Some f => fill_loop op m returnBool f rhs rhsh st end
        end : option (binopState + match_error));
      Some (match r with inr e => inr e | inl st => inl (b_out st, b_lastErr st, mk_EvalNodeHelper (numSigs enh) (b_cache st)) end)
  end.

Definition VectorBinop (op : binary_op) (lhs rhs : Vector) (m : VectorMatching) (returnBool : bool) (lhsh rhsh : list nat) (enh : EvalNodeHelper)
  : option (Vector * option E * EvalNodeHelper + match_error) :=
  match Card m with
  | CardManyToMany => None
  | _ =>
      if (no_vector lhs && no_vector rhs) ||
         ((no_vector lhs || no_vector rhs) && match FillRHS m, FillLHS m with None, None => true | _, _ => false end)
      then Some (inl ([], None, enh))
      else
        match Card m with
        | CardOneToMany => binop_sides op rhs lhs m returnBool rhsh lhsh enh
        | _ => binop_sides op lhs rhs m returnBool lhsh rhsh enh
        end
  end.
End Binop.

(** ** Set operators, by signature *)

Section SetOperators.
  Variable ord : VSample -> nat.
  Variable n : nat.
  Hypothesis ord_lt : forall s, (ord s < n)%nat.

Definition has_partner (s : VSample) (vec : Vector) : bool := existsb (fun r => Nat.eqb (ord s) (ord r)) vec.

Lemma has_partner_true s vec : has_partner s vec = true <-> exists r, r ∈ vec /\ ord s = ord r.
Proof.
  unfold has_partner. rewrite existsb_exists. split; intros (r & H1 & H2); exists r.
  - split; [by apply list_elem_of_In|by apply Nat.eqb_eq].
  - split; [by apply list_elem_of_In|by apply Nat.eqb_eq].
Qed.

Lemma sigs_present_spec vec : forall present, length present = n ->
  exists present', sigs_present (map ord vec) present = Some present' /\ length present' = n /\
    forall o b, present !! o = Some b -> present' !! o = Some (b || existsb (fun r => Nat.eqb o (ord r)) vec).
Proof.
  induction vec as [|s vec IH]; intros present Hl; cbn [map sigs_present existsb].
  { exists present. split_and!; [done|done|]. intros o b. by rewrite orb_false_r. }
  destruct (lookup_lt_is_Some_2 present (ord s)) as [b Hb]; [rewrite Hl; apply ord_lt|]. rewrite Hb. cbn [mbind option_bind].
  destruct (IH (<[ord s := true]> present)) as (p' & E & Hl' & Hp); [by rewrite length_insert|]. exists p'. split_and!; [done|done|].
  intros o b' Ho. destruct (Nat.eqb_spec o (ord s)) as [->|Hne].
  - cbn [orb]. rewrite orb_true_r. rewrite (Hp (ord s) true); [done|]. apply list_lookup_insert_eq. rewrite Hl. apply ord_lt.
  - cbn [orb]. apply Hp. rewrite list_lookup_insert_ne; [done|congruence].
Qed.

Lemma present_spec vec : exists present, sigs_present (map ord vec) (replicate n false) = Some present /\
  forall s, present !! ord s = Some (has_partner s vec).
Proof.
  destruct (sigs_present_spec vec (replicate n false)) as (p & E & _ & Hp); [by rewrite length_replicate|]. exists p. split; [done|].
  intros s. rewrite (Hp _ false); [done|]. apply lookup_replicate_2, ord_lt.
Qed.

Lemma select_spec want present rhs vec : (forall s, present !! ord s = Some (has_partner s rhs)) ->
  select_sigs want present vec (map ord vec) = Some (List.filter (fun s => Bool.eqb (has_partner s rhs) want) vec).
Proof.
  intros Hp. induction vec as [|s vec IH]; [done|]. cbn [select_sigs map List.filter]. rewrite Hp. cbn [mbind option_bind]. rewrite IH. cbn [mbind option_bind].
  by destruct (Bool.eqb _ _).
Qed.

Lemma filter_const {A} (f : A -> bool) l b : (forall x, f x = b) -> List.filter f l = if b then l else [].
Proof. intros Hf. induction l as [|x l IH]; cbn; [by destruct b|]. rewrite Hf, IH. by destruct b. Qed.

Lemma VectorAnd_ord lhs rhs m enh : Card m = CardManyToMany -> numSigs enh = n ->
  VectorAnd lhs rhs m (map ord lhs) (map ord rhs) enh = Some (List.filter (fun s => has_partner s rhs) lhs).
Proof.
  intros Hc Hn. unfold VectorAnd, resetSigsPresent. rewrite Hc, Hn. destruct (present_spec rhs) as (p & E & Hp).
  destruct lhs as [|l lhs]; [done|]. destruct rhs as [|r rhs]; [rewrite (filter_const _ _ false); done|]. rewrite E. cbn [mbind option_bind].
  rewrite (select_spec true p (r :: rhs)) by done. f_equal. apply List.filter_ext. intros s. by destruct (has_partner s _).
Qed.

Lemma VectorUnless_ord lhs rhs m enh : Card m = CardManyToMany -> numSigs enh = n ->
  VectorUnless lhs rhs m (map ord lhs) (map ord rhs) enh = Some (List.filter (fun s => negb (has_partner s rhs)) lhs).
Proof.
  intros Hc Hn. unfold VectorUnless, resetSigsPresent. rewrite Hc, Hn. destruct (present_spec rhs) as (p & E & Hp).
  destruct lhs as [|l lhs]; [done|]. destruct rhs as [|r rhs]; [rewrite (filter_const _ _ true); done|]. rewrite E. cbn [mbind option_bind].
  rewrite (select_spec false p (r :: rhs)) by done.
  done.
Qed.

Lemma VectorOr_ord lhs rhs m enh : Card m = CardManyToMany -> numSigs enh = n ->
  VectorOr lhs rhs m (map ord lhs) (map ord rhs) enh = Some (lhs ++ List.filter (fun s => negb (has_partner s lhs)) rhs).
Proof.
  intros Hc Hn. unfold VectorOr, resetSigsPresent. rewrite Hc, Hn. destruct (present_spec lhs) as (p & E & Hp).
  destruct lhs as [|l lhs]; [rewrite (filter_const _ _ true); done|]. destruct rhs as [|r rhs]; [by rewrite app_nil_r|].
  rewrite take_ge by (by rewrite length_map). rewrite E. cbn [mbind option_bind].
  rewrite (select_spec false p (l :: lhs)) by done. cbn [mbind option_bind]. do 2
  done.
Qed.
End SetOperators.

(** ** Operators on values, by signature *)

Section BinopSpec.
  Context {E : Type}.
  Variable vectorElemBinop : binary_op -> Z -> Z -> option FloatHistogram -> option FloatHistogram -> Z * option FloatHistogram * bool * option E * option E.
  Variable Sum64 : gostr -> Z.
  Variables MetricTypeLabel MetricUnitLabel : gostr.
  Variable enableDelayedNameRemoval : bool.
  Variable op : binary_op.
  Variable m : VectorMatching.
  Variable returnBool : bool.
  Hypothesis Hcard : Card m <> CardManyToMany.
  (** The signatures, as numbers below [n]. *)
  Variable ord : VSample -> nat.
  Variable n : nat.
  Hypothesis ord_lt : forall s, (ord s < n)%nat.
  (** The pairs of metrics that meet, and the metric of their result: two pairs
      with the same bytes have the same one. *)
  Variable meet : Labels -> Labels -> Prop.
  Variable metric_of : Labels -> Labels -> Labels.
  Notation drop := (negb enableDelayedNameRemoval && returnBool).
  Hypothesis metric_fresh : forall l r, meet l r -> fresh_metric MetricTypeLabel MetricUnitLabel l r op m drop = Some (metric_of l r).
  Hypothesis metric_key : forall l r l' r', meet l r -> meet l' r' -> data l ++ data r = data l' ++ data r' -> metric_of l r = metric_of l' r'.

(** A pair, the side that is many first, with its signature. *)
Notation pair := (VSample * VSample * nat)%type.

Definition elem (p : pair) : Z * option FloatHistogram * bool * option E * option E :=
  match Card m with
  | CardOneToMany => vectorElemBinop op (v_F p.1.2) (v_F p.1.1) (v_H p.1.2) (v_H p.1.1)
  | _ => vectorElemBinop op (v_F p.1.1) (v_F p.1.2) (v_H p.1.1) (v_H p.1.2)
  end.

(** The values can be combined. *)
Definition sound (p : pair) : bool := match (elem p).2 with None => true | Some _ => false end.
Definition remark (p : pair) : option E := match (elem p).2 with Some e => Some e | None => (elem p).1.2 end.
Definition pair_metric (p : pair) : Labels := metric_of (v_Metric p.1.1) (v_Metric p.1.2).

(** The sample of a pair, if it has one. *)
Definition pair_outcome (p : pair) : option VSample :=
  let '(f, h, keep, _, _) := elem p in
  if sound p && (keep || returnBool) then
    Some (if returnBool then mk_VSample 0 (if (keep : bool) then float_one else 0) None (pair_metric p) returnBool
          else mk_VSample 0 f h (pair_metric p) returnBool)
  else None.

(** What a result must not share with another. *)
Definition result_slot (p : pair) : nat * Z := match Card m with CardOneToOne => (p.2, 0) | _ => (p.2, Labels_Hash Sum64 (pair_metric p)) end.
Definition slots (l : list pair) : list (nat * Z) := map result_slot (List.filter sound l).
Definition clash : match_error := match Card m with CardOneToOne => ErrMultipleMatches | _ => ErrGroupingLabels end.

Definition cache_sound (cache : gmap gostr Labels) : Prop :=
  forall l r x, meet l r -> cache !! (data l ++ data r) = Some x -> x = metric_of l r.

(** The variables of VectorBinop after the pairs [l]. *)
Record after (l : list pair) (st : binopState (E := E)) : Prop := {
  af_out : b_out st = omap pair_outcome l;
  af_err : b_lastErr st = last (omap remark l);
  af_cache : cache_sound (b_cache st);
  af_matched : Card m = CardOneToOne -> forall s, b_matched st !! ord s = Some (bool_decide ((ord s, 0) ∈ slots l));
  af_inserted : Card m <> CardOneToOne -> forall s, exists sigs, b_inserted st !! ord s = Some sigs /\ forall h, h ∈ sigs <-> (ord s, h) ∈ slots l }.

Lemma slots_snoc l p : slots (l ++ [p]) = slots l ++ (if sound p then [result_slot p] else []).
Proof. unfold slots. rewrite List.filter_app, map_app. cbn. by destruct (sound p). Qed.

Lemma last_omap_snoc (l : list pair) p : last (omap remark (l ++ [p])) = match remark p with Some e => Some e | None => last (omap remark l) end.
Proof. rewrite omap_app. cbn. destruct (remark p); [by rewrite last_snoc|by rewrite app_nil_r]. Qed.

Lemma omap_snoc (l : list pair) p : omap pair_outcome (l ++ [p]) = omap pair_outcome l ++ match pair_outcome p with Some s => [s] | None => [] end.
Proof. rewrite omap_app. cbn. by destruct (pair_outcome p). Qed.

Lemma resultMetric_spec l r cache : meet l r -> cache_sound cache ->
  exists cache', resultMetric MetricTypeLabel MetricUnitLabel l r op m drop cache = Some (metric_of l r, cache') /\ cache_sound cache'.
Proof.
  intros Hm Hc. unfold resultMetric. destruct (cache !! (data l ++ data r)) as [x|] eqn:Ex.
  - rewrite (Hc l r x Hm Ex). by exists cache.
  - rewrite metric_fresh by done. cbn [mbind option_bind]. eexists. split; [reflexivity|]. intros l' r' x Hm' Hx.
    destruct (decide (data l ++ data r = data l' ++ data r')) as [Ek|Hne].
    + rewrite <-Ek, lookup_insert_eq in Hx. injection Hx as <-. by apply metric_key.
    + rewrite lookup_insert_ne in Hx by done. by apply (Hc l' r').
Qed.

Notation doBinOp := (doBinOp vectorElemBinop Sum64 MetricTypeLabel MetricUnitLabel enableDelayedNameRemoval op m returnBool).

Lemma doBinOp_spec l st ls rs s : after l st -> meet (v_Metric ls) (v_Metric rs) ->
  let p := ((ls, rs), ord s) in
  if sound p && bool_decide (result_slot p ∈ slots l) then doBinOp ls rs (ord s) st = Some (inr clash)
  else exists st', doBinOp ls rs (ord s) st = Some (inl st') /\ after (l ++ [p]) st'.
Proof.
  intros [A1 A2 A3 A4 A5] Hm p. unfold VectorMatching.doBinOp.
  assert (Ee : (let '(fl, fr, hl, hr) :=
    match Card m with CardOneToMany => (v_F rs, v_F ls, v_H rs, v_H ls) | _ => (v_F ls, v_F rs, v_H ls, v_H rs) end in
    vectorElemBinop op fl fr hl hr) = elem p) by (unfold elem; by destruct (Card m)).
  destruct (match Card m with CardOneToMany => (v_F rs, v_F ls, v_H rs, v_H ls) | _ => (v_F ls, v_F rs, v_H ls, v_H rs) end) as [[[fl fr] hl] hr]. rewrite Ee.
  destruct (elem p) as [[[[f h] keep] info] err] eqn:Ep. assert (Es : sound p = match err with None => true | Some _ => false end) by (unfold sound; by rewrite Ep).
  assert (Er : remark p = match err with Some e => Some e | None => info end) by (unfold remark; by rewrite Ep).
  assert (Eo : pair_outcome p = if sound p && (keep || returnBool) then Some (if returnBool then mk_VSample 0 (if (keep : bool) then float_one else 0) None (pair_metric p) returnBool
     else mk_VSample 0 f h (pair_metric p) returnBool) else None) by (unfold pair_outcome; by rewrite Ep).
  destruct err as [e|]; rewrite Es; cbn [andb].
  { eexists. split; [reflexivity|]. split; cbn [b_out b_lastErr b_cache b_matched b_inserted].
    - by rewrite omap_snoc, Eo, Es, A1, app_nil_r.
    - by rewrite last_omap_snoc, Er.
    - done.
    - intros Hc s'. by rewrite slots_snoc, Es, app_nil_r, A4.
    - intros Hc s'. rewrite slots_snoc, Es, app_nil_r. by apply A5. }
  destruct (resultMetric_spec _ _ (b_cache st) Hm A3) as (cache' & Em & Hc'). 
  set (fh := if returnBool then (if keep then float_one else 0, None) else (f, h)). destruct fh as [f' h'] eqn:Ef. rewrite Em. cbn [mbind option_bind].
  assert (Hout : b_out st ++ match pair_outcome p with Some s => [s] | None => [] end =
    if negb keep && negb returnBool then b_out st else b_out st ++ [mk_VSample 0 f' h' (metric_of (v_Metric ls) (v_Metric rs)) returnBool]).
  { rewrite Eo, Es. unfold pair_metric. cbn [fst snd p]. unfold fh in Ef. destruct returnBool; injection Ef as <- <-; destruct keep; cbn; by rewrite ?app_nil_r. }
  assert (Hnew : forall matched inserted,
    (Card m = CardOneToOne -> forall s', matched !! ord s' = Some (bool_decide ((ord s', 0) ∈ slots (l ++ [p])))) ->
    (Card m <> CardOneToOne -> forall s', exists sigs, inserted !! ord s' = Some sigs /\ forall h, h ∈ sigs <-> (ord s', h) ∈ slots (l ++ [p])) ->
    after (l ++ [p]) (mk_binopState matched inserted
      (if negb keep && negb returnBool then b_out st else b_out st ++ [mk_VSample 0 f' h' (metric_of (v_Metric ls) (v_Metric rs)) returnBool])
      (match info with Some e => Some e | None => b_lastErr st end) cache')).
  { intros matched inserted H1 H2. split; cbn [b_out b_lastErr b_cache b_matched b_inserted]; try done.
    - by rewrite omap_snoc, <-A1, Hout.
    - by rewrite last_omap_snoc, Er, A2. }
  assert (Hslots : slots (l ++ [p]) = slots l ++ [result_slot p]) by by rewrite slots_snoc, Es.
  destruct (decide (Card m = CardOneToOne)) as [H1|H1].
  - rewrite H1, (A4 H1). cbn [mbind option_bind]. unfold result_slot. rewrite H1. cbn [fst snd p]. case_bool_decide as Hin; [unfold clash; by rewrite H1|].
    eexists. split; [reflexivity|]. apply Hnew; [|done]. intros _ s'. rewrite Hslots. unfold result_slot. rewrite H1. cbn [fst snd p].
    destruct (decide (ord s' = ord s)) as [Eq|Hne].
    + rewrite Eq, list_lookup_insert_eq by (eapply lookup_lt_Some, (A4 H1)). rewrite bool_decide_eq_true_2; [done|]. apply elem_of_app. right. by left.
    + rewrite list_lookup_insert_ne by done. rewrite (A4 H1). f_equal. apply bool_decide_ext. rewrite elem_of_app, list_elem_of_singleton. naive_solver.
  - destruct (A5 H1 s) as (sigs & Esg & Hsg).
    assert (Hsl : result_slot p = (ord s, Labels_Hash Sum64 (pair_metric p))) by (unfold result_slot; by destruct (Card m)).
    assert (Hcl : clash = ErrGroupingLabels) by (unfold clash; by destruct (Card m)).
    assert (Hgo : forall i0, i0 = Labels_Hash Sum64 (pair_metric p) ->
      match (if decide (i0 ∈ sigs) then inr ErrGroupingLabels else inl (b_matched st, <[ord s := {[i0]} ∪ sigs]> (b_inserted st))) with
      | inr e => sound p && bool_decide (result_slot p ∈ slots l) = true /\ e = clash
      | inl (matched, inserted) => sound p && bool_decide (result_slot p ∈ slots l) = false /\
          after (l ++ [p]) (mk_binopState matched inserted
            (if negb keep && negb returnBool then b_out st else b_out st ++ [mk_VSample 0 f' h' (metric_of (v_Metric ls) (v_Metric rs)) returnBool])
            (match info with Some e => Some e | None => b_lastErr st end) cache')
      end).
    { intros i0 ->. rewrite Es, Hsl, Hcl. destruct (decide (Labels_Hash Sum64 (pair_metric p) ∈ sigs)) as [Hin|Hin].
      { split; [|done]. cbn. apply bool_decide_eq_true_2. by apply Hsg. }
      split; [cbn; apply bool_decide_eq_false_2; by rewrite <-Hsg|]. apply Hnew; [done|]. intros _ s'. rewrite Hslots, Hsl.
      destruct (decide (ord s' = ord s)) as [Eq|Hne].
      - rewrite Eq, list_lookup_insert_eq by (by eapply lookup_lt_Some). eexists. split; [reflexivity|]. intros x. rewrite elem_of_app, list_elem_of_singleton.
        rewrite <-Hsg. set_solver.
      - rewrite list_lookup_insert_ne by done. destruct (A5 H1 s') as (sg & E1 & E2). exists sg. split; [done|]. intros x.
        rewrite E2, elem_of_app, list_elem_of_singleton. naive_solver. }
    specialize (Hgo _ eq_refl). rewrite Es in Hgo. cbn [andb] in Hgo. cbn [fst snd pair_metric p] in Hgo.
    destruct (Card m) eqn:Ec; try done; rewrite Esg; cbn [mbind option_bind];
      (destruct (decide _) as [Hin|Hin]; [destruct Hgo as [-> ->]; done|destruct Hgo as [-> Hgo]; eexists; split; [reflexivity|exact Hgo]]).
Qed.

(** ** The loops *)

(** The first sample of [vec] with the signature of [s]. *)
Definition partner (s : VSample) (vec : Vector) : option VSample := List.find (fun r => Nat.eqb (ord s) (ord r)) vec.

Lemma partner_none s vec : partner s vec = None <-> has_partner ord s vec = false.
Proof.
  unfold partner, has_partner. induction vec as [|r vec IH]; cbn; [done|]. by destruct (Nat.eqb (ord s) (ord r)).
Qed.

Lemma partner_snoc s vec x : partner s (vec ++ [x]) = match partner s vec with Some y => Some y | None => if Nat.eqb (ord s) (ord x) then Some x else None end.
Proof. unfold partner. induction vec as [|y vec IH]; [done|]. cbn. destruct (Nat.eqb (ord s) (ord y)); [done|apply IH]. Qed.

Lemma partner_ord s s' vec : ord s = ord s' -> partner s vec = partner s' vec.
Proof. unfold partner. by intros ->. Qed.

Lemma right_sigs_spec vec : forall seen sigs,
  (forall s, sigs !! ord s = Some (partner s seen)) -> length sigs = n -> NoDup (map ord seen) ->
  exists r, right_sigs vec (map ord vec) sigs = Some r /\
    if decide (NoDup (map ord (seen ++ vec))) then exists sigs', r = inl sigs' /\ forall s, sigs' !! ord s = Some (partner s (seen ++ vec)) else r = inr ErrManyToMany.
Proof.
  induction vec as [|x vec IH]; intros seen sigs Hs Hl Hnd; cbn [right_sigs map].
  { eexists. split; [reflexivity|]. rewrite app_nil_r, decide_True by done. by exists sigs. }
  rewrite Hs. cbn [mbind option_bind]. destruct (partner x seen) as [y|] eqn:Ey.
  - eexists. split; [reflexivity|]. rewrite decide_False; [done|]. rewrite map_app. cbn. intros Hd. apply NoDup_app in Hd as (_ & Hd & _).
    apply find_some in Ey as [Hin Heq%Nat.eqb_eq]. apply (Hd (ord y)); [apply list_elem_of_fmap_2; by apply list_elem_of_In|]. rewrite <-Heq. by left.
  - destruct (IH (seen ++ [x]) (<[ord x := Some x]> sigs)) as (r & E2 & Hr).
    + intros s. rewrite partner_snoc. destruct (Nat.eqb_spec (ord s) (ord x)) as [Eq|Hne].
      * rewrite Eq, list_lookup_insert_eq by (rewrite Hl; apply ord_lt). by rewrite (partner_ord s x seen Eq), Ey.
      * rewrite list_lookup_insert_ne by done. rewrite Hs. by destruct (partner s seen).
    + by rewrite length_insert.
    + rewrite map_app. apply NoDup_app. split; [done|]. split; [|apply NoDup_singleton]. intros o Ho Ho2. cbn in Ho2. apply list_elem_of_singleton in Ho2 as ->.
      apply list_elem_of_fmap in Ho as (y & Ey2 & Hin). unfold partner in Ey. pose proof (find_none _ _ Ey y (proj1 (list_elem_of_In _ _) Hin)) as Hf. cbn in Hf.
      apply Nat.eqb_neq in Hf. congruence.
    + exists r. split; [done|]. by rewrite <-app_assoc in Hr.
Qed.

(** The pairs of the side that is many with the other or with its fill value. *)
Definition left_pair (rhs : Vector) (ls : VSample) : option pair :=
  match partner ls rhs with
  | Some rs => Some ((ls, rs), ord ls)
  | None => f ← FillRHS m; rs ← fill_sample m (v_Metric ls) f; Some ((ls, rs), ord ls)
  end.

(** The pairs of the other side that had none, with its fill value. *)
Definition right_pair (l : list pair) (f : Z) (rs : VSample) : option pair :=
  if bool_decide (ord rs ∈ map snd (List.filter sound l)) then None
  else ls ← fill_sample m (v_Metric rs) f; Some ((ls, rs), ord rs).

Definition fillable (ls : VSample) : Prop := forall f, is_Some (fill_sample m (v_Metric ls) f).
Definition pair_meets (p : pair) : Prop := meet (v_Metric p.1.1) (v_Metric p.1.2).

Notation left_loop := (left_loop vectorElemBinop Sum64 MetricTypeLabel MetricUnitLabel enableDelayedNameRemoval op m returnBool).
Notation fill_loop := (fill_loop vectorElemBinop Sum64 MetricTypeLabel MetricUnitLabel enableDelayedNameRemoval op m returnBool).

Lemma slots_app l l' : slots (l ++ l') = slots l ++ slots l'.
Proof. unfold slots. by rewrite List.filter_app, map_app. Qed.

(** One more pair: its slot is free, or not. *)
Lemma slots_clash l p l' : NoDup (slots l) -> sound p && bool_decide (result_slot p ∈ slots l) = true -> ~ NoDup (slots (l ++ p :: l')).
Proof.
  intros Hnd [Hs Hin%bool_decide_eq_true]%andb_prop Hd. rewrite slots_app in Hd. unfold slots at 2 in Hd. cbn [List.filter] in Hd. rewrite Hs in Hd. cbn [map] in Hd.
  apply NoDup_app in Hd as (_ & Hd & _). apply (Hd (result_slot p)); [done|by left].
Qed.

Lemma slots_free l p : NoDup (slots l) -> sound p && bool_decide (result_slot p ∈ slots l) = false -> NoDup (slots (l ++ [p])).
Proof.
  intros Hnd Hf. rewrite slots_snoc. destruct (sound p); [|by rewrite app_nil_r]. cbn in Hf. apply bool_decide_eq_false in Hf.
  apply NoDup_app. split; [done|]. split; [|apply NoDup_singleton]. intros x Hx Hx2. apply list_elem_of_singleton in Hx2 as ->. done.
Qed.

Lemma left_loop_spec rhs sigs lhs : forall l st,
  (forall s, sigs !! ord s = Some (partner s rhs)) -> after l st -> NoDup (slots l) -> Forall fillable lhs ->
  Forall pair_meets (omap (left_pair rhs) lhs) ->
  exists r, left_loop sigs lhs (map ord lhs) st = Some r /\
    if decide (NoDup (slots (l ++ omap (left_pair rhs) lhs))) then exists st', r = inl st' /\ after (l ++ omap (left_pair rhs) lhs) st' else r = inr clash.
Proof.
  induction lhs as [|ls lhs IH]; intros l st Hs Ha Hnd Hfl Hm; cbn [VectorMatching.left_loop map].
  { cbn [omap list_omap]. eexists. split; [reflexivity|]. rewrite app_nil_r, decide_True by done. by exists st. }
  apply Forall_cons in Hfl as [Hf Hfl]. rewrite Hs. cbn [mbind option_bind].
  assert (Hstep : exists o, left_pair rhs ls = (fun rs => ((ls, rs), ord ls)) <$> o /\
    (match partner ls rhs with
     | Some rs => Some (Some rs)
     | None => match FillRHS m with None => Some None | Some f => rs ← fill_sample m (v_Metric ls) f; Some (Some rs) end
     end : option (option VSample)) = Some o).
  { unfold left_pair. destruct (partner ls rhs) as [rs|]; [by exists (Some rs)|]. destruct (FillRHS m) as [f|]; [|by exists None]. cbn [mbind option_bind].
    destruct (Hf f) as [rs ->]. by exists (Some rs). }
  destruct Hstep as (o & El & ->). cbn [mbind option_bind]. destruct o as [rs|]; cbn [fmap option_fmap option_map] in El.
  2:{ cbn [mbind option_bind]. assert (Eo : omap (left_pair rhs) (ls :: lhs) = omap (left_pair rhs) lhs) by (cbn; by rewrite El). rewrite Eo in *. by apply IH. }
  assert (Eo : omap (left_pair rhs) (ls :: lhs) = ((ls, rs), ord ls) :: omap (left_pair rhs) lhs) by (cbn; by rewrite El). rewrite Eo in Hm |- *.
  apply Forall_cons in Hm as [Hm1 Hm]. pose proof (doBinOp_spec l st ls rs ls Ha Hm1) as Hd. cbv zeta in Hd.
  destruct (sound (ls, rs, ord ls) && bool_decide (result_slot (ls, rs, ord ls) ∈ slots l)) eqn:Ec.
  - rewrite Hd. cbn [mbind option_bind]. eexists. split; [reflexivity|]. by rewrite decide_False by by apply slots_clash.
  - destruct Hd as (st' & -> & Ha'). cbn [mbind option_bind].
    destruct (IH (l ++ [((ls, rs), ord ls)]) st' Hs Ha' (slots_free _ _ Hnd Ec) Hfl Hm) as (r & E2 & Hr). rewrite <-app_assoc in Hr. by exists r.
Qed.

Lemma already_matched_spec l st rs : after l st -> already_matched m (ord rs) st = Some (bool_decide (ord rs ∈ map snd (List.filter sound l))).
Proof.
  intros [_ _ _ A4 A5]. unfold already_matched.
  assert (Hfst : forall o, o ∈ map snd (List.filter sound l) <-> o ∈ map fst (slots l)).
  { intros o. unfold slots. rewrite map_map. assert (E0 : map (fun p => (result_slot p).1) (List.filter sound l) = map snd (List.filter sound l))
      by (apply List.map_ext; intros p; unfold result_slot; by destruct (Card m)). by rewrite E0. }
  destruct (decide (Card m = CardOneToOne)) as [H1|H1].
  - rewrite H1, (A4 H1). f_equal. apply bool_decide_ext. rewrite Hfst, list_elem_of_fmap. split; [intros Hin; by exists (ord rs, 0)|].
    intros ([o h] & -> & Hin). cbn. assert (Eh : h = 0) by (apply list_elem_of_fmap in Hin as (p & Ep & _); unfold result_slot in Ep; rewrite H1 in Ep; by injection Ep).
    by subst h.
  - destruct (A5 H1 rs) as (sigs & Es & Hsg).
    assert (Eg : (fun sigs : gset Z => bool_decide (sigs <> ∅)) <$> b_inserted st !! ord rs = Some (bool_decide (ord rs ∈ map snd (List.filter sound l)))).
    { rewrite Es. cbn. f_equal. apply bool_decide_ext. rewrite Hfst, list_elem_of_fmap. split.
      - intros Hne. apply set_choose_L in Hne as [h Hh]. exists (ord rs, h). split; [done|by apply Hsg].
      - intros ([o h] & Eo & Hin). cbn in Eo. subst o. apply Hsg in Hin. set_solver. }
    by destruct (Card m).
Qed.

Lemma fill_loop_spec f l rhs : forall l' st,
  after (l ++ l') st -> NoDup (slots (l ++ l')) -> Forall fillable rhs -> NoDup (map ord rhs) ->
  Forall (fun rs => ord rs ∉ map snd l') rhs -> Forall pair_meets (omap (right_pair l f) rhs) ->
  exists st', fill_loop f rhs (map ord rhs) st = Some (inl st') /\ after (l ++ l' ++ omap (right_pair l f) rhs) st'.
Proof.
  induction rhs as [|rs rhs IH]; intros l' st Ha Hnd Hfl Hdo Hno Hm; cbn [VectorMatching.fill_loop map].
  { cbn [omap list_omap]. exists st. by rewrite app_nil_r. }
  apply Forall_cons in Hfl as [Hf Hfl]. apply Forall_cons in Hno as [Hn1 Hno]. cbn [map] in Hdo. apply NoDup_cons in Hdo as [Hd1 Hdo].
  rewrite (already_matched_spec _ _ _ Ha). cbn [mbind option_bind].
  assert (Em : bool_decide (ord rs ∈ map snd (List.filter sound (l ++ l'))) = bool_decide (ord rs ∈ map snd (List.filter sound l))).
  { apply bool_decide_ext. rewrite List.filter_app, map_app, elem_of_app. split; [|by left]. intros [?|Hin]; [done|]. destruct Hn1.
    apply list_elem_of_fmap in Hin as (p & -> & Hp). apply list_elem_of_fmap_2. apply list_elem_of_In, filter_In in Hp as [Hp _]. by apply list_elem_of_In. }
  rewrite Em. destruct (decide (ord rs ∈ map snd (List.filter sound l))) as [Hin|Hin]; [rewrite (bool_decide_eq_true_2 _ Hin)|rewrite (bool_decide_eq_false_2 _ Hin)].
  { assert (Eo : omap (right_pair l f) (rs :: rhs) = omap (right_pair l f) rhs) by (cbn; unfold right_pair at 1; by rewrite (bool_decide_eq_true_2 _ Hin)).
    rewrite Eo in *. cbn [mbind option_bind]. by apply IH. }
  destruct (Hf f) as [ls Els]. rewrite Els. cbn [mbind option_bind].
  assert (Eo : omap (right_pair l f) (rs :: rhs) = ((ls, rs), ord rs) :: omap (right_pair l f) rhs)
    by (cbn; unfold right_pair at 1; rewrite (bool_decide_eq_false_2 _ Hin); by rewrite Els).
  rewrite Eo in Hm |- *. apply Forall_cons in Hm as [Hm1 Hm]. pose proof (doBinOp_spec (l ++ l') st ls rs rs Ha Hm1) as Hd. cbv zeta in Hd.
  set (p := ((ls, rs), ord rs)) in *.
  assert (Hfree : sound p && bool_decide (result_slot p ∈ slots (l ++ l')) = false).
  { destruct (sound p); [|done]. apply bool_decide_eq_false_2. intros Hsl. rewrite (bool_decide_eq_false_2 _ Hin) in Em.
    apply bool_decide_eq_false in Em. apply Em. unfold slots in Hsl. apply list_elem_of_fmap in Hsl as (q & Eq & Hq).
    apply list_elem_of_fmap. exists q. split; [|done]. unfold result_slot in Eq. destruct (Card m); by injection Eq. }
  rewrite Hfree in Hd. destruct Hd as (st' & -> & Ha'). cbn [mbind option_bind]. rewrite <-app_assoc in Ha'.
  destruct (IH (l' ++ [p]) st' Ha') as (st2 & E2 & Ha2); [rewrite app_assoc; by apply slots_free|done|done| |done|].
  - apply Forall_forall. intros r Hr. rewrite Forall_forall in Hno. rewrite map_app, elem_of_app. intros [H1|H1]; [by apply (Hno r Hr)|].
    cbn in H1. apply list_elem_of_singleton in H1. apply Hd1. rewrite <-H1. by apply list_elem_of_fmap_2.
  - exists st2. split; [done|]. by rewrite <-app_assoc in Ha2.
Qed.

(** ** VectorBinop *)

Definition pairs_of (many one : Vector) : list pair :=
  let l := omap (left_pair one) many in
  l ++ match FillLHS m with None => [] | Some f => omap (right_pair l f) one end.

(** Nothing can match, and nothing is filled. *)
Definition nothing_matches (lhs rhs : Vector) : bool :=
  (no_vector lhs && no_vector rhs) || ((no_vector lhs || no_vector rhs) && match FillRHS m, FillLHS m with None, None => true | _, _ => false end).

Definition the_many (lhs rhs : Vector) : Vector := match Card m with CardOneToMany => rhs | _ => lhs end.
Definition the_one (lhs rhs : Vector) : Vector := match Card m with CardOneToMany => lhs | _ => rhs end.

Lemma after_nothing cache : cache_sound cache -> after [] (mk_binopState (replicate n false) (replicate n ∅) [] None cache).
Proof.
  intros Hc. split; try done; cbn [b_matched b_inserted].
  - intros _ s. by apply lookup_replicate_2, ord_lt.
  - intros _ s. exists ∅. split; [apply lookup_replicate_2, ord_lt|]. intros h. unfold slots. cbn. split; [set_solver|by intros ?%elem_of_nil].
Qed.

Definition sides_result (many one : Vector) : Vector * option E + match_error :=
  if decide (NoDup (map ord one)) then
    if decide (NoDup (slots (omap (left_pair one) many))) then inl (omap pair_outcome (pairs_of many one), last (omap remark (pairs_of many one)))
    else inr clash
  else inr ErrManyToMany.

(** The reference: every sample of the side that is many with its partner. *)
Definition binop_result (lhs rhs : Vector) : Vector * option E + match_error :=
  if nothing_matches lhs rhs then inl ([], None) else sides_result (the_many lhs rhs) (the_one lhs rhs).

Lemma binop_sides_spec many one enh :
  Forall fillable many -> Forall fillable one -> Forall pair_meets (pairs_of many one) -> numSigs enh = n -> cache_sound (resultMetrics enh) ->
  exists cache, binop_sides vectorElemBinop Sum64 MetricTypeLabel MetricUnitLabel enableDelayedNameRemoval op many one m returnBool (map ord many) (map ord one) enh =
      Some (match sides_result many one with inr e => inr e | inl (out, err) => inl (out, err, mk_EvalNodeHelper n cache) end) /\ cache_sound cache.
Proof.
  intros Hfm Hfo Hm Hn Hc. unfold binop_sides, sides_result.
  destruct (right_sigs_spec one [] (replicate n None)) as (r & E1 & Hr); [intros s; apply lookup_replicate_2, ord_lt|apply length_replicate|constructor|].
  rewrite Hn, E1. cbn [mbind option_bind]. cbn [app] in Hr. destruct (decide (NoDup (map ord one))) as [Hnd|Hnd]; [|rewrite Hr; by exists (resultMetrics enh)].
  destruct Hr as (sigs & -> & Hs). unfold pairs_of in *. apply Forall_app in Hm as [Hm1 Hm2].
  destruct (left_loop_spec one sigs many [] (mk_binopState (replicate n false) (replicate n ∅) [] None (resultMetrics enh)) Hs (after_nothing _ Hc)) as (r & E2 & Hr);
    [constructor|done|done|]. rewrite E2. cbn [mbind option_bind]. cbn [app] in Hr.
  destruct (decide (NoDup (slots (omap (left_pair one) many)))) as [Hsl|Hsl]; [|rewrite Hr; by exists (resultMetrics enh)].
  destruct Hr as (st & -> & Ha). destruct (FillLHS m) as [f|].
  - destruct (fill_loop_spec f (omap (left_pair one) many) one [] st) as (st' & E3 & [B1 B2 B3 _ _]); [by rewrite app_nil_r|by rewrite app_nil_r|done|done| |done|].
    { apply Forall_forall. intros x _. by intros ?%elem_of_nil. }
    rewrite E3. cbn [mbind option_bind]. rewrite B1, B2. by exists (b_cache st').
  - destruct Ha as [B1 B2 B3 _ _]. cbn [mbind option_bind]. rewrite B1, B2, app_nil_r. by exists (b_cache st).
Qed.

Lemma VectorBinop_ord lhs rhs enh :
  Forall fillable lhs -> Forall fillable rhs -> Forall pair_meets (pairs_of (the_many lhs rhs) (the_one lhs rhs)) ->
  numSigs enh = n -> cache_sound (resultMetrics enh) ->
  exists cache, VectorBinop vectorElemBinop Sum64 MetricTypeLabel MetricUnitLabel enableDelayedNameRemoval op lhs rhs m returnBool (map ord lhs) (map ord rhs) enh =
      Some (match binop_result lhs rhs with inr e => inr e | inl (out, err) => inl (out, err, mk_EvalNodeHelper n cache) end) /\ cache_sound cache.
Proof.
  intros Hfl Hfr Hm Hn Hc. unfold VectorBinop, binop_result. fold (nothing_matches lhs rhs).
  assert (Hnm : exists cache, Some (inl ([], None, enh)) = Some (inl ([] : Vector, None : option E, mk_EvalNodeHelper n cache) : _ + match_error) /\ cache_sound cache).
  { exists (resultMetrics enh). split; [|done]. rewrite <-Hn. by destruct enh. }
  pose proof (binop_sides_spec lhs rhs enh Hfl Hfr) as H1. pose proof (binop_sides_spec rhs lhs enh Hfr Hfl) as H2.
  pose proof Hcard as Hcm. unfold the_many, the_one in Hm |- *.
  destruct (nothing_matches lhs rhs); destruct (Card m); try done; [by apply H1|by apply H1|by apply H2].
Qed.
End BinopSpec.
