(* ===== verification/BinaryRange.v ===== *)
(** promql/engine.go: rangeEval for a binary operator between two vectors: the
    signatures of all series, the input vectors of each step, the operator of
    VectorMatching, and the series of the result.

    Samples are counted against a limit; the sizes of histograms are parameters,
    and so is the order in which Go ranges over a map.  Annotations are left
    out. *)
From stdpp Require Import sorting fin_maps fin_sets gmap.
From S2P Require Import Prelude RecordHistogram Labels LabelBuilder VectorMatching.

(** ** Signatures *)

(** sigf: the bytes of the labels that have to match. *)
Definition signature (m : VectorMatching) (lset : Labels) : option gostr :=
  if On m then BytesWithLabels lset (merge_sort str_le (MatchingLabels m))
  else BytesWithoutLabels lset (merge_sort str_le (MetricName :: MatchingLabels m)).

(** The ordinals of the series of one operand; [next] is numSigs. *)
Fixpoint number_series (m : VectorMatching) (series : list MSeries) (known : gmap gostr nat) (next : nat)
  : option (list nat * gmap gostr nat * nat) :=
  match series with
  | [] => Some ([], known, next)
  | s :: series =>
      sig ← signature m (m_Metric s);
      let '(o, known, next) := match known !! sig with Some o => (o, known, next) | None => (next, <[sig := next]> known, S next) end in
      '(h, known, next) ← number_series m series known next;
      Some (o :: h, known, next)
  end.

(** ** Steps *)

(** The operators between vectors. *)
Inductive vector_op := LAND | LOR | LUNLESS | OnValues (op : binary_op) (returnBool : bool).

Section Range.
  Context {E : Type}.
  Variable vectorElemBinop : binary_op -> Z -> Z -> option FloatHistogram -> option FloatHistogram -> Z * option FloatHistogram * bool * option E * option E.
  Variable Sum64 : gostr -> Z.
  Variables MetricTypeLabel MetricUnitLabel : gostr.
  Variable enableDelayedNameRemoval : bool.
  (** The size of a histogram in a vector, beside its sample, and in a series. *)
  Variables vector_size point_size : FloatHistogram -> Z.
  Variable map_order : gmap Z (MSeries * Z) -> list (Z * (MSeries * Z)).
  Variable maxSamples : Z.
  Variable o : vector_op.
  Variable m : VectorMatching.

(** A series at a step: its sample, and the points that are left. *)
Definition next_point (ts : Z) (s : MSeries) : option (VSample * MSeries) :=
  let hist :=
    match m_Histograms s with
    | (t, h) :: hs => if t =? ts then Some (mk_VSample ts 0 (Some h) (m_Metric s) (m_DropName s), mk_MSeries (m_Metric s) (m_Floats s) hs (m_DropName s)) else None
    | [] => None
    end in
  match m_Floats s with
  | (t, f) :: fs => if t =? ts then Some (mk_VSample ts f None (m_Metric s) (m_DropName s), mk_MSeries (m_Metric s) fs (m_Histograms s) (m_DropName s)) else hist
  | [] => hist
  end.

(** The vector, its helpers, the series that are left and currentSamples. *)
Fixpoint gatherVector (ts : Z) (input : list MSeries) (h : list nat) (current : Z) : option (Vector * list nat * list MSeries * Z + match_error) :=
  match input, h with
  | [], _ => Some (inl ([], [], [], current))
  | s :: input, x :: h =>
      match next_point ts s with
      | None =>
          r ← gatherVector ts input h current;
          Some (match r with inr e => inr e | inl (vec, bh, l, current) => inl (vec, bh, s :: l, current) end)
      | Some (v, s) =>
          if maxSamples <? current + 1 then Some (inr ErrTooManySamples)
          else
            r ← gatherVector ts input h (current + 1);
            Some (match r with inr e => inr e | inl (vec, bh, l, current) => inl (v :: vec, x :: bh, s :: l, current) end)
      end
  | _ :: _, [] => None
  end.

Definition call_operator (lhs rhs : Vector) (lhsh rhsh : list nat) (enh : EvalNodeHelper) : option (Vector * EvalNodeHelper + match_error) :=
  match o with
  | LAND => out ← VectorAnd lhs rhs m lhsh rhsh enh; Some (inl (out, enh))
  | LOR => out ← VectorOr lhs rhs m lhsh rhsh enh; Some (inl (out, enh))
  | LUNLESS => out ← VectorUnless lhs rhs m lhsh rhsh enh; Some (inl (out, enh))
  | OnValues op returnBool =>
      r ← VectorBinop vectorElemBinop Sum64 MetricTypeLabel MetricUnitLabel enableDelayedNameRemoval op lhs rhs m returnBool lhsh rhsh enh;
      Some (match r with inr e => inr e | inl (out, _, enh) => inl (out, enh) end)
  end.

Definition sample_size (s : VSample) : Z := 1 + match v_H s with Some h => vector_size h | None => 0 end.
Definition TotalSamples (v : Vector) : Z := foldr Z.add 0 (map sample_size v).
Definition matrix_size (l : list MSeries) : Z :=
  foldr Z.add 0 (map (fun s => Z.of_nat (length (m_Floats s)) + foldr Z.add 0 (map (fun p => point_size p.2) (m_Histograms s))) l).

Fixpoint same_hash (seen : gset Z) (v : Vector) : bool :=
  match v with
  | [] => false
  | s :: v => bool_decide (Labels_Hash Sum64 (v_Metric s) ∈ seen) || same_hash ({[Labels_Hash Sum64 (v_Metric s)]} ∪ seen) v
  end.
Definition ContainsSameLabelset (v : Vector) : bool := same_hash ∅ v.

Definition addToSeries (ts : Z) (v : VSample) (s : MSeries) : MSeries :=
  match v_H v with
  | None => mk_MSeries (m_Metric s) (m_Floats s ++ [(ts, v_F v)]) (m_Histograms s) (m_DropName s)
  | Some h => mk_MSeries (m_Metric s) (m_Floats s) (m_Histograms s ++ [(ts, h)]) (m_DropName s)
  end.

(** The samples of a step go to the series of the result, which are kept by hash
    with the time of their last sample. *)
Fixpoint add_result (ts : Z) (v : Vector) (seriess : gmap Z (MSeries * Z)) : gmap Z (MSeries * Z) + match_error :=
  match v with
  | [] => inl seriess
  | s :: v =>
      let h := Labels_Hash Sum64 (v_Metric s) in
      match seriess !! h with
      | Some (ss, t) => if t =? ts then inr ErrSameLabelset else add_result ts v (<[h := (addToSeries ts s ss, ts)]> seriess)
      | None => add_result ts v (<[h := (addToSeries ts s (mk_MSeries (v_Metric s) [] [] (v_DropName s)), ts)]> seriess)
      end
  end.

(** What rangeEval keeps from one step to the next; [g_temp] is tempNumSamples. *)
Record rangeState := mk_rangeState {
  g_left : list MSeries; g_right : list MSeries; g_enh : EvalNodeHelper; g_temp : Z; g_seriess : gmap Z (MSeries * Z) }.

(** A step up to the result of the operator. *)
Definition range_step (lh rh : list nat) (ts : Z) (st : rangeState) : option (Vector * rangeState + match_error) :=
  l ← gatherVector ts (g_left st) lh (g_temp st);
  match l with
  | inr e => Some (inr e)
  | inl (lhs, lhsh, lmat, current) =>
      r ← gatherVector ts (g_right st) rh current;
      match r with
      | inr e => Some (inr e)
      | inl (rhs, rhsh, rmat, current) =>
          out ← call_operator lhs rhs lhsh rhsh (g_enh st);
          Some (match out with
          | inr e => inr e
          | inl (out, enh) =>
              if maxSamples <? current + TotalSamples out then inr ErrTooManySamples
              else inl (out, mk_rangeState lmat rmat enh (g_temp st + TotalSamples out) (g_seriess st))
          end)
      end
  end.

Fixpoint range_loop (lh rh : list nat) (steps : list Z) (st : rangeState) : option (rangeState + match_error) :=
  match steps with
  | [] => Some (inl st)
  | ts :: steps =>
      r ← range_step lh rh ts st;
      match r with
      | inr e => Some (inr e)
      | inl (out, st) =>
          match add_result ts out (g_seriess st) with
          | inr e => Some (inr e)
          | inl seriess => range_loop lh rh steps (mk_rangeState (g_left st) (g_right st) (g_enh st) (g_temp st) seriess)
          end
      end
  end.

Definition instant_series (ts : Z) (s : VSample) : MSeries :=
  match v_H s with
  | None => mk_MSeries (v_Metric s) [(ts, v_F s)] [] (v_DropName s)
  | Some h => mk_MSeries (v_Metric s) [] [(ts, h)] (v_DropName s)
  end.

(** [current] counts the samples of the operands' matrices, [original] those from
    before them; the result is the matrix and currentSamples. *)
Definition rangeEval (start end_ interval : Z) (lmat rmat : list MSeries) (original current : Z) : option (list MSeries * Z + match_error) :=
  '(lh, known, next) ← number_series m lmat ∅ 0;
  '(rh, _, next) ← number_series m rmat known next;
  let st := mk_rangeState lmat rmat (mk_EvalNodeHelper next ∅) current ∅ in
  if start =? end_ then
    r ← range_step lh rh start st;
    Some (match r with
    | inr e => inr e
    | inl (out, _) =>
        if negb enableDelayedNameRemoval && ContainsSameLabelset out then inr ErrSameLabelset
        else let mat := map (instant_series start) out in inl (mat, original + matrix_size mat)
    end)
  else
    r ← range_loop lh rh (map (fun k => start + k * interval) (seqZ 0 ((end_ - start) / interval + 1))) st;
    Some (match r with
    | inr e => inr e
    | inl st => let mat := map (fun x => x.2.1) (map_order (g_seriess st)) in inl (mat, original + matrix_size mat)
    end).
End Range.

(** ** Signatures are match groups *)

(** The labels of a set. *)
Definition labels_list (l : Labels) : list Label := default [] (Labels_Range l).

(** The labels that have to be the same for two samples to match. *)
Definition match_labels (m : VectorMatching) (ls : list Label) : list Label :=
  if On m then List.filter (in_names (MatchingLabels m)) ls else List.filter (fun l => negb (in_names (MetricName :: MatchingLabels m) l)) ls.

(** The bytes are those of a label set. *)
Definition well_formed (l : Labels) : Prop := exists ls, l = of_list ls /\ good ls.

Lemma well_formed_list l : well_formed l -> l = of_list (labels_list l) /\ good (labels_list l).
Proof. intros (ls & -> & Hg). unfold labels_list. rewrite Range_enc by apply Hg. by split. Qed.

Lemma filter_names_sorted (f : bool -> bool) ns ls :
  List.filter (fun l => f (in_names (merge_sort str_le ns) l)) ls = List.filter (fun l => f (in_names ns l)) ls.
Proof.
  apply List.filter_ext. intros l. f_equal. unfold in_names. apply bool_decide_ext. by rewrite (merge_sort_Permutation str_le ns).
Qed.

Lemma signature_spec m l : well_formed l -> signature m l = Some (encode (match_labels m (labels_list l))).
Proof.
  intros Hw. destruct (well_formed_list l Hw) as [E Hg]. rewrite E at 1. generalize dependent (labels_list l). intros ls _ Hg. unfold signature, match_labels.
  assert (Hs : forall ns, StronglySorted str_le (merge_sort str_le ns)) by (intros ns; apply StronglySorted_merge_sort; apply _).
  destruct (On m).
  - destruct (Labels_projections (fun _ => 0) ls (merge_sort str_le (MatchingLabels m)) Hg (Hs _)) as (-> & _).
    do 2 f_equal. exact (filter_names_sorted (fun b => b) _ _).
  - destruct (Labels_projections (fun _ => 0) ls (merge_sort str_le (MetricName :: MatchingLabels m)) Hg (Hs _)) as (_ & -> & _).
    do 2 f_equal. exact (filter_names_sorted negb _ _).
Qed.

Lemma good_match_labels m ls : good ls -> good (match_labels m ls).
Proof. intros Hg. unfold match_labels. destruct (On m); by apply good_filter. Qed.

Lemma signature_eq m l l' : well_formed l -> well_formed l' ->
  signature m l = signature m l' <-> match_labels m (labels_list l) = match_labels m (labels_list l').
Proof.
  intros H1 H2. rewrite !signature_spec by done. split; [|by intros ->]. intros [= E].
  destruct (well_formed_list l H1) as [_ G1], (well_formed_list l' H2) as [_ G2].
  apply of_list_inj; [apply (good_match_labels m _ G1)|apply (good_match_labels m _ G2)|]. unfold of_list. by rewrite E.
Qed.

(** ** Ordinals *)

(** The ordinal of a metric. *)
Definition ordinal (m : VectorMatching) (known : gmap gostr nat) (l : Labels) : nat := default O (known !! default [] (signature m l)).

Definition numbering (known : gmap gostr nat) (next : nat) : Prop :=
  (forall a b i, known !! a = Some i -> known !! b = Some i -> a = b) /\ forall a i, known !! a = Some i -> (i < next)%nat.

Definition numbered (m : VectorMatching) (known : gmap gostr nat) (l : Labels) : Prop := exists sig, signature m l = Some sig /\ is_Some (known !! sig).

Lemma number_series_spec m series : forall known next, Forall (fun s => well_formed (m_Metric s)) series -> numbering known next ->
  exists known' next', number_series m series known next = Some (map (fun s => ordinal m known' (m_Metric s)) series, known', next') /\
    known ⊆ known' /\ numbering known' next' /\ (next <= next')%nat /\ Forall (fun s => numbered m known' (m_Metric s)) series /\
    (series <> [] -> next' <> 0%nat).
Proof.
  induction series as [|s series IH]; intros known next Hw Hn; cbn [number_series map].
  { exists known, next. by split_and!. }
  apply Forall_cons in Hw as [Hs Hw]. pose proof (signature_spec m _ Hs) as Es. rewrite Es. cbn [mbind option_bind].
  set (sig := encode _) in *.
  assert (Hstep : exists o k1 n1, (match known !! sig with Some o => (o, known, next) | None => (next, <[sig := next]> known, S next) end) = (o, k1, n1) /\
    known ⊆ k1 /\ numbering k1 n1 /\ (next <= n1)%nat /\ k1 !! sig = Some o).
  { destruct Hn as [H1 H2]. destruct (known !! sig) as [x|] eqn:Ex; [by exists x, known, next|]. exists next, (<[sig := next]> known), (S next).
    split; [done|]. split; [by apply insert_subseteq|]. split; [|split; [lia|apply lookup_insert_eq]]. split.
    - intros a b i [[<- <-]|[Hna Ha]]%lookup_insert_Some [[<- E]|[Hnb Hb]]%lookup_insert_Some; [done| | |by eapply H1]; [apply H2 in Hb; lia|apply H2 in Ha; lia].
    - intros a i [[<- <-]|[_ Ha]]%lookup_insert_Some; [lia|]. apply H2 in Ha. lia. }
  destruct Hstep as (x & k1 & n1 & -> & Hk1 & Hn1 & Hle & Hx).
  destruct (IH k1 n1 Hw Hn1) as (k2 & n2 & -> & Hk2 & Hn2 & Hle2 & Hall & _). cbn [mbind option_bind]. exists k2, n2.
  assert (Hx2 : k2 !! sig = Some x) by by eapply lookup_weaken.
  split_and!; [|by etrans|done|lia| |intros _; destruct Hn2 as [_ H2]; apply H2 in Hx2; lia].
  - assert (Ho : ordinal m k2 (m_Metric s) = x) by (unfold ordinal; rewrite Es; cbn; by rewrite Hx2). by rewrite Ho.
  - constructor; [|done]. exists sig. split; [done|by exists x].
Qed.

Lemma ordinal_lt m known next l : numbering known next -> next <> 0%nat -> (ordinal m known l < next)%nat.
Proof. intros [_ H2] Hn. unfold ordinal. destruct (known !! _) as [i|] eqn:E; cbn; [by apply H2 in E|lia]. Qed.

Lemma ordinal_weaken m known known' l : known ⊆ known' -> numbered m known l -> ordinal m known l = ordinal m known' l.
Proof. intros Hk (sig & Es & [i Hi]). unfold ordinal. rewrite Es. cbn. rewrite Hi. by rewrite (lookup_weaken _ _ _ _ Hi Hk). Qed.

Lemma numbered_weaken m known known' l : known ⊆ known' -> numbered m known l -> numbered m known' l.
Proof. intros Hk (sig & Es & [i Hi]). exists sig. split; [done|]. exists i. by eapply lookup_weaken. Qed.

(** Two ordinals are the same if the metrics match. *)
Lemma ordinal_eq m known next l l' : numbering known next -> numbered m known l -> numbered m known l' -> well_formed l -> well_formed l' ->
  ordinal m known l = ordinal m known l' <-> match_labels m (labels_list l) = match_labels m (labels_list l').
Proof.
  intros [H1 _] (a & Ea & [i Hi]) (b & Eb & [j Hj]) Hw Hw'. rewrite <-signature_eq by done. unfold ordinal. rewrite Ea, Eb. cbn. rewrite Hi, Hj. cbn.
  split; [intros ->; f_equal; by eapply H1|]. intros [= ->]. congruence.
Qed.

(** ** The vectors of the steps *)

(** The sample of a series at a time. *)
Definition point_at (ts : Z) (s : MSeries) : option VSample :=
  match List.find (fun p => p.1 =? ts) (m_Floats s) with
  | Some (_, f) => Some (mk_VSample ts f None (m_Metric s) (m_DropName s))
  | None =>
      match List.find (fun p => p.1 =? ts) (m_Histograms s) with
      | Some (_, h) => Some (mk_VSample ts 0 (Some h) (m_Metric s) (m_DropName s))
      | None => None
      end
  end.

(** The instant vector of a matrix. *)
Definition vector_at (ts : Z) (mat : list MSeries) : Vector := omap (point_at ts) mat.

(** Points are in ascending order, at steps, and at a time there is one at most. *)
Record points_ok (steps : list Z) (s : MSeries) : Prop := {
  sk_floats : StronglySorted Z.lt (map fst (m_Floats s));
  sk_hists : StronglySorted Z.lt (map fst (m_Histograms s));
  sk_steps : forall t, t ∈ map fst (m_Floats s) \/ t ∈ map fst (m_Histograms s) -> t ∈ steps;
  sk_one : forall t, t ∈ map fst (m_Floats s) -> t ∉ map fst (m_Histograms s) }.

Lemma find_time_none {A} ts (l : list (Z * A)) : ts ∉ map fst l -> List.find (fun p => p.1 =? ts) l = None.
Proof.
  induction l as [|[t a] l IH]; cbn; [done|]. rewrite not_elem_of_cons. intros [Hne Hl]. rewrite (proj2 (Z.eqb_neq _ _)) by congruence. by apply IH.
Qed.

(** The head of a list of points is at the step, or nothing is. *)
Lemma find_time_head {A} ts steps (l : list (Z * A)) : StronglySorted Z.lt (ts :: steps) -> StronglySorted Z.lt (map fst l) ->
  (forall t, t ∈ map fst l -> t ∈ ts :: steps) ->
  match l with
  | [] => True
  | (t, a) :: l' => if t =? ts then List.find (fun p => p.1 =? ts) l = Some (t, a) /\ ts ∉ map fst l' /\ t = ts else ts ∉ map fst l
  end.
Proof.
  intros Hs Hl Hin. destruct l as [|[t a] l]; [done|]. cbn in Hl. apply StronglySorted_inv in Hl as [Hl Ht]. apply StronglySorted_inv in Hs as [_ Hs].
  rewrite Forall_forall in Ht, Hs. destruct (Z.eqb_spec t ts) as [->|Hne].
  - cbn. rewrite Z.eqb_refl. split_and!; [done| |done]. intros Hx. apply Ht in Hx. lia.
  - cbn. rewrite not_elem_of_cons. split; [congruence|]. intros Hx. apply Ht in Hx. pose proof (Hin t ltac:(by left)) as Hi.
    apply elem_of_cons in Hi as [?|Hi]; [done|]. apply Hs in Hi. lia.
Qed.

(** What is left of a series after a step. *)
Definition rest_of (ts : Z) (s : MSeries) : MSeries := match next_point ts s with Some (_, s') => s' | None => s end.

Lemma later_find {A} ts ts' (a : A) l : ts <> ts' -> List.find (fun p => p.1 =? ts') ((ts, a) :: l) = List.find (fun p => p.1 =? ts') l.
Proof. intros Hne. cbn. by rewrite (proj2 (Z.eqb_neq _ _) Hne). Qed.

Lemma next_point_spec ts steps s : StronglySorted Z.lt (ts :: steps) -> points_ok (ts :: steps) s ->
  next_point ts s = (fun v => (v, rest_of ts s)) <$> point_at ts s /\ points_ok steps (rest_of ts s) /\ m_Metric (rest_of ts s) = m_Metric s /\
  forall ts', ts' ∈ steps -> point_at ts' (rest_of ts s) = point_at ts' s.
Proof.
  intros Hs [K1 K2 K3 K4]. pose proof (find_time_head ts steps (m_Floats s) Hs K1 (fun t Ht => K3 t (or_introl Ht))) as Hf.
  pose proof (find_time_head ts steps (m_Histograms s) Hs K2 (fun t Ht => K3 t (or_intror Ht))) as Hh.
  assert (Hlater : forall ts', ts' ∈ steps -> ts <> ts').
  { intros ts' Hin ->. apply StronglySorted_inv in Hs as [_ Hs]. rewrite Forall_forall in Hs. apply Hs in Hin. lia. }
  assert (Hnil : forall A (l : list (Z * A)), match l with [] => ts ∉ map fst l | _ => True end) by (intros A [|? ?]; [apply not_elem_of_nil|done]).
  (* no point: the step is not among the times *)
  assert (Hnone : ts ∉ map fst (m_Floats s) -> ts ∉ map fst (m_Histograms s) ->
    next_point ts s = None -> next_point ts s = (fun v => (v, rest_of ts s)) <$> point_at ts s /\ points_ok steps (rest_of ts s) /\ m_Metric (rest_of ts s) = m_Metric s /\
    forall ts', ts' ∈ steps -> point_at ts' (rest_of ts s) = point_at ts' s).
  { intros N1 N2 En. unfold rest_of, point_at at 1. rewrite En, (find_time_none _ _ N1), (find_time_none _ _ N2). split; [done|]. split; [|done]. split; try done.
    intros t Ht. pose proof (K3 t Ht) as Hx. apply elem_of_cons in Hx as [->|Hx]; [by destruct Ht|done]. }
  assert (Hhist : ts ∉ map fst (m_Floats s) ->
    next_point ts s = match m_Histograms s with
      | (t, h) :: hs => if t =? ts then Some (mk_VSample ts 0 (Some h) (m_Metric s) (m_DropName s), mk_MSeries (m_Metric s) (m_Floats s) hs (m_DropName s)) else None
      | [] => None end ->
    next_point ts s = (fun v => (v, rest_of ts s)) <$> point_at ts s /\ points_ok steps (rest_of ts s) /\ m_Metric (rest_of ts s) = m_Metric s /\
    forall ts', ts' ∈ steps -> point_at ts' (rest_of ts s) = point_at ts' s).
  { intros N1 En. destruct (m_Histograms s) as [|[t h] hs] eqn:Eh; [by apply Hnone; [|rewrite ?Eh; apply not_elem_of_nil|]|].
    destruct (t =? ts) eqn:Et; [|by apply Hnone]. destruct Hh as (F1 & F2 & ->). unfold rest_of, point_at at 1. rewrite En, Eh, F1, (find_time_none _ _ N1).
    split; [done|]. split; [|split; [done|]].
    - cbn in K2. apply StronglySorted_inv in K2 as [K2 _]. split; cbn; [done|done| |].
      + intros x Hx. assert (Hne : x <> ts) by (intros ->; by destruct Hx). assert (Hk : x ∈ ts :: steps) by (apply K3; destruct Hx; [by left|right; by right]). by apply elem_of_cons in Hk as [?|?].
      + intros x Hx Hx2. apply (K4 x Hx). by right.
    - intros ts' Hin. unfold point_at. cbn [m_Floats m_Histograms m_Metric m_DropName]. rewrite Eh, (later_find ts ts') by by apply Hlater. done. }
  destruct (m_Floats s) as [|[t f] fs] eqn:Ef.
  - apply Hhist; [apply not_elem_of_nil|]. unfold next_point. by rewrite Ef.
  - destruct (t =? ts) eqn:Et; [|apply Hhist; [done|]; unfold next_point; by rewrite Ef, Et]. destruct Hf as (F1 & F2 & ->).
    assert (En : next_point ts s = Some (mk_VSample ts f None (m_Metric s) (m_DropName s), mk_MSeries (m_Metric s) fs (m_Histograms s) (m_DropName s)))
      by (unfold next_point; by rewrite Ef, Et).
    unfold rest_of, point_at at 1. rewrite En, Ef, F1. split; [done|]. split; [|split; [done|]].
    + cbn in K1. apply StronglySorted_inv in K1 as [K1 _]. split; cbn; [done|done| |].
      * intros x Hx. assert (Hne : x <> ts) by (intros ->; destruct Hx as [?|Hx]; [done|by apply (K4 ts); [left|]]).
        assert (Hk : x ∈ ts :: steps) by (apply K3; destruct Hx; [left; by right|by right]). by apply elem_of_cons in Hk as [?|?].
      * intros x Hx. apply K4. by right.
    + intros ts' Hin. unfold point_at. cbn [m_Floats m_Histograms m_Metric m_DropName]. rewrite Ef, (later_find ts ts') by by apply Hlater. done.
Qed.

Lemma point_at_metric ts s v : point_at ts s = Some v -> v_Metric v = m_Metric s.
Proof. unfold point_at. destruct (List.find _ (m_Floats s)) as [[? ?]|]; [by intros [= <-]|]. by destruct (List.find _ (m_Histograms s)) as [[? ?]|]; [intros [= <-]|]. Qed.

Lemma gatherVector_spec maxSamples (ordl : Labels -> nat) ts steps input : forall current,
  StronglySorted Z.lt (ts :: steps) -> Forall (points_ok (ts :: steps)) input -> current <= maxSamples ->
  gatherVector maxSamples ts input (map (fun s => ordl (m_Metric s)) input) current =
    Some (if maxSamples <? current + Z.of_nat (length (vector_at ts input)) then inr ErrTooManySamples
      else inl (vector_at ts input, map (fun v => ordl (v_Metric v)) (vector_at ts input), map (rest_of ts) input, current + Z.of_nat (length (vector_at ts input)))).
Proof.
  induction input as [|s input IH]; intros current Hs Hk Hm; cbn [gatherVector map].
  { cbn. rewrite Z.add_0_r. by rewrite (proj2 (Z.ltb_ge _ _)). }
  apply Forall_cons in Hk as [Hk1 Hk]. destruct (next_point_spec ts steps s Hs Hk1) as (En & _). rewrite En.
  assert (Ev : vector_at ts (s :: input) = match point_at ts s with Some v => v :: vector_at ts input | None => vector_at ts input end) by done.
  rewrite Ev. destruct (point_at ts s) as [v|] eqn:Ep; cbn [fmap option_fmap option_map].
  - cbn [length map]. rewrite (point_at_metric ts s v Ep). replace (current + Z.of_nat (S (length (vector_at ts input)))) with (current + 1 + Z.of_nat (length (vector_at ts input))) by lia.
    destruct (Z.ltb_spec maxSamples (current + 1)) as [Hb|Hb]; [by rewrite (proj2 (Z.ltb_lt _ _)) by lia|].
    rewrite IH by done. cbn [mbind option_bind]. by destruct (_ <? _).
  - rewrite IH by done. cbn [mbind option_bind]. assert (Hsame : rest_of ts s = s) by (unfold rest_of; by rewrite En). rewrite Hsame. by destruct (_ <? _).
Qed.

(** What is left for the later steps. *)
Lemma rest_of_spec ts steps input : StronglySorted Z.lt (ts :: steps) -> Forall (points_ok (ts :: steps)) input ->
  Forall (points_ok steps) (map (rest_of ts) input) /\ (forall ts', ts' ∈ steps -> vector_at ts' (map (rest_of ts) input) = vector_at ts' input) /\
  map m_Metric (map (rest_of ts) input) = map m_Metric input.
Proof.
  intros Hs. induction input as [|s input IH]; intros Hk; [done|]. apply Forall_cons in Hk as [Hk1 Hk]. destruct (IH Hk) as (I2 & I3 & I4).
  destruct (next_point_spec ts steps s Hs Hk1) as (_ & Hr & Hmt & Hl). cbn [map]. split; [by constructor|]. split; [|by rewrite Hmt, I4].
  intros ts' Hin. unfold vector_at in *. cbn. by rewrite (Hl ts' Hin), (I3 ts' Hin).
Qed.

(** ** Metrics of results *)

Lemma MatchLabels_wf on names l : well_formed l -> exists l', MatchLabels on names l = Some l' /\ well_formed l'.
Proof.
  intros (ls & -> & Hg). unfold MatchLabels. destruct (Reset_represents ls Hg) as (b & -> & Hr). cbn [mbind option_bind].
  assert (Hb : exists b' mp a, (if on then Builder_Keep b names else b ← Builder_Del b [MetricName]; Builder_Del b names) = Some b' /\ represents ls b' mp a).
  { destruct on.
    - destruct (Keep_represents ls b _ _ names Hr) as (b' & -> & Hr'). by eexists _, _, _.
    - destruct (Del_represents ls [MetricName] b _ _ Hr) as (b1 & -> & Hr1). cbn [mbind option_bind].
      destruct (Del_represents ls names b1 _ _ Hr1) as (b2 & -> & Hr2). by eexists _, _, _. }
  destruct Hb as (b' & mp & a & -> & Hr'). cbn [mbind option_bind]. destruct (Labels_represents _ _ _ _ Hr') as (ls' & b2 & -> & _ & Hg'). cbn [mbind option_bind].
  exists (of_list ls'). split; [done|]. by exists ls'.
Qed.

Lemma fillable_wf m s : well_formed (v_Metric s) -> fillable m s.
Proof. intros Hw f. unfold fill_sample. destruct (MatchLabels_wf (On m) (MatchingLabels m) _ Hw) as (l & -> & _). by eexists. Qed.

Lemma fill_sample_wf m l f s : well_formed l -> fill_sample m l f = Some s -> well_formed (v_Metric s).
Proof. intros Hw. unfold fill_sample. destruct (MatchLabels_wf (On m) (MatchingLabels m) _ Hw) as (l' & -> & Hw'). by intros [= <-]. Qed.

(** The label set of a result as the builder's calls make it. *)
Lemma fresh_metric_wf tn un l r op m drop : tn <> [] -> short tn -> un <> [] -> short un -> well_formed l -> well_formed r ->
  exists ops ls, metric_ops tn un r op m drop = Some ops /\ fresh_metric tn un l r op m drop = Some (of_list ls) /\ good ls /\
    lists_map ls (foldl map_exec (label_map (labels_list l), ∅) ops).1.
Proof.
  intros T1 T2 U1 U2 Hl Hr. destruct (well_formed_list l Hl) as [El Gl], (well_formed_list r Hr) as [Er Gr]. rewrite Er.
  assert (Hinc : forall names, exists inc, mapM (fun ln => v ← Labels_Get (of_list (labels_list r)) ln; Some (match v with [] => OpDel [ln] | _ => OpSet ln v end)) names = Some inc /\
    Forall op_ok inc).
  { induction names as [|ln names (inc & IH1 & IH2)]; [by exists []|]. cbn. rewrite Labels_Get_enc by done. cbn. rewrite IH1. cbn. eexists. split; [reflexivity|].
    constructor; [|done]. destruct (get_label (labels_list r) ln) as [|c v] eqn:Eg; [done|]. unfold get_label in Eg.
    destruct (list_find _ _) as [[i x]|] eqn:Ef; [|done]. apply list_find_Some in Ef as (Ex & <- & _). apply list_elem_of_lookup_2 in Ex.
    destruct Gr as (G1 & G2 & _). rewrite Forall_forall in G1, G2. destruct (G1 x Ex) as [S1 S2]. cbn. split_and!; [by apply G2|done|by rewrite <-Eg]. }
  destruct (Hinc (Include m)) as (inc & Ei & Hi). unfold fresh_metric, metric_ops. rewrite Ei. cbn [mbind option_bind].
  set (ops := _ ++ _ ++ inc). assert (Hops : Forall op_ok ops).
  { apply Forall_app. split; [|apply Forall_app; split; [|done]].
    - destruct (drop || _); [|constructor]. repeat constructor; done.
    - destruct (Card m); [|constructor..]. destruct (On m); repeat constructor. }
  destruct (Reset_represents (labels_list l) Gl) as (b & Eb & Hb). rewrite <-El in Eb. rewrite Eb.
  destruct (run_represents (labels_list l) ops Hops b _ _ Hb) as (b' & -> & Hb'). cbn [mbind option_bind].
  destruct (Labels_represents _ _ _ _ Hb') as (ls & b2 & -> & Hls & Hg). cbn [mbind option_bind]. by exists ops, ls.
Qed.

(** ** The steps of a range *)

Section RangeSpec.
  Context {E : Type}.
  Variable vectorElemBinop : binary_op -> Z -> Z -> option FloatHistogram -> option FloatHistogram -> Z * option FloatHistogram * bool * option E * option E.
  Variable Sum64 : gostr -> Z.
  Variables MetricTypeLabel MetricUnitLabel : gostr.
  Hypothesis labels_ok : MetricTypeLabel <> [] /\ short MetricTypeLabel /\ MetricUnitLabel <> [] /\ short MetricUnitLabel.
  Variable enableDelayedNameRemoval : bool.
  Variables vector_size point_size : FloatHistogram -> Z.
  Hypothesis sizes_pos : forall h, 0 <= vector_size h.
  Variable map_order : gmap Z (MSeries * Z) -> list (Z * (MSeries * Z)).
  Variable maxSamples : Z.
  Variable o : vector_op.
  Variable m : VectorMatching.
  (** The parser allows no other matching. *)
  Hypothesis op_card : match o with OnValues _ _ => Card m <> CardManyToMany | _ => Card m = CardManyToMany end.
  Variables lmat rmat : list MSeries.
  Hypothesis metrics_wf : Forall (fun s => well_formed (m_Metric s)) (lmat ++ rmat).

Definition result_metric (op : binary_op) (returnBool : bool) (l r : Labels) : Labels :=
  default (mk_Labels []) (fresh_metric MetricTypeLabel MetricUnitLabel l r op m (negb enableDelayedNameRemoval && returnBool)).

(** The result at a step, for a numbering [group] of the match groups. *)
Definition step_result (group : Labels -> nat) (ts : Z) : Vector + match_error :=
  let ord s := group (v_Metric s) in
  let lhs := vector_at ts lmat in
  let rhs := vector_at ts rmat in
  match o with
  | LAND => inl (List.filter (fun s => has_partner ord s rhs) lhs)
  | LOR => inl (lhs ++ List.filter (fun s => negb (has_partner ord s lhs)) rhs)
  | LUNLESS => inl (List.filter (fun s => negb (has_partner ord s rhs)) lhs)
  | OnValues op returnBool =>
      match binop_result vectorElemBinop Sum64 op m returnBool ord (result_metric op returnBool) lhs rhs with inl (out, _) => inl out | inr e => inr e end
  end.

(** The pairs of metrics that are combined at some step. *)
Definition combined (group : Labels -> nat) (steps : list Z) (l r : Labels) : Prop :=
  match o with
  | OnValues op _ =>
      exists ts p, ts ∈ steps /\ p ∈ pairs_of vectorElemBinop op m (fun s => group (v_Metric s))
        (the_many m (vector_at ts lmat) (vector_at ts rmat)) (the_one m (vector_at ts lmat) (vector_at ts rmat)) /\ v_Metric p.1.1 = l /\ v_Metric p.1.2 = r
  | _ => False
  end.

(** The cached metrics are told apart by their bytes. *)
Definition told_apart (group : Labels -> nat) (steps : list Z) : Prop :=
  match o with
  | OnValues op returnBool =>
      forall l r l' r', combined group steps l r -> combined group steps l' r' -> data l ++ data r = data l' ++ data r' ->
        result_metric op returnBool l r = result_metric op returnBool l' r'
  | _ => True
  end.

Lemma vector_at_wf ts mat : Forall (fun s => well_formed (m_Metric s)) mat -> Forall (fun s => well_formed (v_Metric s)) (vector_at ts mat).
Proof.
  intros Hw. apply Forall_forall. intros v Hv. unfold vector_at in Hv. apply list_elem_of_omap in Hv as (s & Hs & Ep).
  rewrite (point_at_metric ts s v Ep). rewrite Forall_forall in Hw. by apply Hw.
Qed.

Lemma pairs_wf op ord many one p : Forall (fun s => well_formed (v_Metric s)) many -> Forall (fun s => well_formed (v_Metric s)) one ->
  p ∈ pairs_of vectorElemBinop op m ord many one -> well_formed (v_Metric p.1.1) /\ well_formed (v_Metric p.1.2).
Proof.
  rewrite !Forall_forall. intros Hm Ho. unfold pairs_of. rewrite elem_of_app. intros [Hp|Hp].
  - apply list_elem_of_omap in Hp as (ls & Hls & Ep). unfold left_pair in Ep. destruct (partner ord ls one) as [rs|] eqn:Ef.
    + injection Ep as <-. cbn. split; [by apply Hm|]. apply Ho. unfold partner in Ef. apply find_some in Ef as [Hin _]. by apply list_elem_of_In.
    + destruct (FillRHS m) as [f|]; [|done]. cbn [mbind option_bind] in Ep. destruct (fill_sample m (v_Metric ls) f) as [rs|] eqn:Es; [|done].
      cbn in Ep. injection Ep as <-. cbn. split; [by apply Hm|]. eapply fill_sample_wf; [|exact Es]. by apply Hm.
  - destruct (FillLHS m) as [f|]; [|by apply elem_of_nil in Hp]. apply list_elem_of_omap in Hp as (rs & Hrs & Ep). unfold right_pair in Ep.
    destruct (bool_decide _); [done|]. destruct (fill_sample m (v_Metric rs) f) as [ls|] eqn:Es; [|done]. cbn in Ep. injection Ep as <-. cbn.
    split; [|by apply Ho]. eapply fill_sample_wf; [|exact Es]. by apply Ho.
Qed.

Lemma sides_wf l r : Forall (fun s => well_formed (v_Metric s)) l -> Forall (fun s => well_formed (v_Metric s)) r ->
  Forall (fun s => well_formed (v_Metric s)) (the_many m l r) /\ Forall (fun s => well_formed (v_Metric s)) (the_one m l r).
Proof. unfold the_many, the_one. by destruct (Card m). Qed.

Lemma combined_fresh op returnBool group steps l r : o = OnValues op returnBool -> combined group steps l r ->
  fresh_metric MetricTypeLabel MetricUnitLabel l r op m (negb enableDelayedNameRemoval && returnBool) = Some (result_metric op returnBool l r).
Proof.
  intros Eo Hc. unfold combined in Hc. rewrite Eo in Hc. destruct Hc as (ts & p & _ & Hp & <- & <-). pose proof metrics_wf as W. apply Forall_app in W as [Wl Wr].
  destruct (sides_wf _ _ (vector_at_wf ts _ Wl) (vector_at_wf ts _ Wr)) as [W1 W2]. destruct (pairs_wf _ _ _ _ _ W1 W2 Hp) as [P1 P2].
  destruct labels_ok as (T1 & T2 & U1 & U2). unfold result_metric.
  by destruct (fresh_metric_wf _ _ _ _ op m (negb enableDelayedNameRemoval && returnBool) T1 T2 U1 U2 P1 P2) as (ops & ls & _ & -> & _).
Qed.

Notation call_operator := (call_operator vectorElemBinop Sum64 MetricTypeLabel MetricUnitLabel enableDelayedNameRemoval o m).

(** What the cache has to be. *)
Definition cache_good (group : Labels -> nat) (steps : list Z) (cache : gmap gostr Labels) : Prop :=
  match o with OnValues op returnBool => cache_sound (combined group steps) (result_metric op returnBool) cache | _ => True end.

Lemma call_operator_spec group n steps ts cache :
  (forall s, (group (v_Metric s) < n)%nat) -> ts ∈ steps -> told_apart group steps -> cache_good group steps cache ->
  exists cache', call_operator (vector_at ts lmat) (vector_at ts rmat) (map (fun v => group (v_Metric v)) (vector_at ts lmat))
      (map (fun v => group (v_Metric v)) (vector_at ts rmat)) (mk_EvalNodeHelper n cache) =
    Some (match step_result group ts with inl out => inl (out, mk_EvalNodeHelper n cache') | inr e => inr e end) /\ cache_good group steps cache'.
Proof.
  intros Hn Hts Ht Hc. pose proof op_card as Hcard. assert (Hx : exists x, x = o) by eauto. destruct Hx as [x Ex].
  unfold BinaryRange.call_operator, step_result, cache_good in *. rewrite <-Ex in Hcard, Hc |- *. destruct x as [| | |op returnBool].
  - rewrite (VectorAnd_ord _ n Hn) by done. by exists cache.
  - rewrite (VectorOr_ord _ n Hn) by done. by exists cache.
  - rewrite (VectorUnless_ord _ n Hn) by done. by exists cache.
  - pose proof Ht as Hkey. unfold told_apart in Hkey. rewrite <-Ex in Hkey.
    pose proof metrics_wf as W. apply Forall_app in W as [Wl Wr]. pose proof (vector_at_wf ts _ Wl) as Vl. pose proof (vector_at_wf ts _ Wr) as Vr.
    assert (Hfl : forall v, Forall (fun s => well_formed (v_Metric s)) v -> Forall (fillable m) v)
      by (intros v Hv; eapply Forall_impl; [exact Hv|]; intros s; apply fillable_wf).
    assert (Hmeet : Forall (pair_meets (combined group steps)) (pairs_of vectorElemBinop op m (fun s => group (v_Metric s))
      (the_many m (vector_at ts lmat) (vector_at ts rmat)) (the_one m (vector_at ts lmat) (vector_at ts rmat)))).
    { apply Forall_forall. intros p Hp. unfold pair_meets, combined. rewrite <-Ex. by exists ts, p. }
    destruct (VectorBinop_ord vectorElemBinop Sum64 MetricTypeLabel MetricUnitLabel enableDelayedNameRemoval op m returnBool Hcard
      (fun s => group (v_Metric s)) n Hn (combined group steps) (result_metric op returnBool) (fun l r Hm => combined_fresh op returnBool group steps l r (eq_sym Ex) Hm) Hkey
      (vector_at ts lmat) (vector_at ts rmat) (mk_EvalNodeHelper n cache) (Hfl _ Vl) (Hfl _ Vr) Hmeet eq_refl Hc) as (cache' & Eq & Hc').
    rewrite Eq. cbn [mbind option_bind]. exists cache'. split; [|done].
    by destruct (binop_result _ _ _ _ _ _ _ _ _) as [[out err]|e].
Qed.

(** A step with the limit on the samples, [temp] of which are counted already. *)
Definition step_checked (group : Labels -> nat) (ts temp : Z) : Vector + match_error :=
  let current := temp + Z.of_nat (length (vector_at ts lmat)) + Z.of_nat (length (vector_at ts rmat)) in
  if maxSamples <? current then inr ErrTooManySamples
  else match step_result group ts with
       | inr e => inr e
       | inl out => if maxSamples <? current + TotalSamples vector_size out then inr ErrTooManySamples else inl out
       end.

Lemma TotalSamples_pos out : 0 <= TotalSamples vector_size out.
Proof.
  unfold TotalSamples. induction out as [|s out IH]; cbn [map foldr]; [lia|]. pose proof sizes_pos as Hs. unfold sample_size at 1.
  destruct (v_H s) as [h|]; [specialize (Hs h)|]; lia.
Qed.

Lemma call_operator_nothing group ts cache steps enh : vector_at ts lmat = [] -> vector_at ts rmat = [] ->
  resultMetrics enh = cache -> cache_good group steps cache ->
  exists cache', call_operator [] [] [] [] enh =
    Some (match step_result group ts with inl out => inl (out, mk_EvalNodeHelper (numSigs enh) cache') | inr e => inr e end) /\ cache_good group steps cache'.
Proof.
  intros El Er Ec Hc. pose proof op_card as Hcard. assert (Hx : exists x, x = o) by eauto. destruct Hx as [x Ex].
  unfold BinaryRange.call_operator, step_result. rewrite <-Ex in Hcard |- *. rewrite El, Er. exists cache. split; [|done]. destruct enh as [n c]. cbn in Ec |- *. subst c.
  destruct x as [| | |op returnBool]; unfold VectorAnd, VectorOr, VectorUnless, VectorBinop, binop_result, nothing_matches; cbn; try by rewrite Hcard.
  by destruct (Card m).
Qed.

(** What holds before the steps that are left. *)
Record range_ready (group : Labels -> nat) (n : nat) (all steps : list Z) (st : rangeState) : Prop := {
  rr_left : Forall (points_ok steps) (g_left st);
  rr_right : Forall (points_ok steps) (g_right st);
  rr_metrics : map m_Metric (g_left st) = map m_Metric lmat /\ map m_Metric (g_right st) = map m_Metric rmat;
  rr_vectors : forall ts, ts ∈ steps -> vector_at ts (g_left st) = vector_at ts lmat /\ vector_at ts (g_right st) = vector_at ts rmat;
  rr_sigs : numSigs (g_enh st) = n;
  rr_cache : cache_good group all (resultMetrics (g_enh st));
  rr_temp : g_temp st <= maxSamples }.

Notation range_step := (range_step vectorElemBinop Sum64 MetricTypeLabel MetricUnitLabel enableDelayedNameRemoval vector_size maxSamples o m).
Notation range_loop := (range_loop vectorElemBinop Sum64 MetricTypeLabel MetricUnitLabel enableDelayedNameRemoval vector_size maxSamples o m).

Lemma same_ordinals (ordl : Labels -> nat) mat mat' : map m_Metric mat' = map m_Metric mat ->
  map (fun s => ordl (m_Metric s)) mat = map (fun s => ordl (m_Metric s)) mat'.
Proof. intros E0. transitivity (map ordl (map m_Metric mat)); [by rewrite map_map|]. rewrite <-E0. by rewrite map_map. Qed.

Lemma range_step_spec group n all ts steps st :
  StronglySorted Z.lt (ts :: steps) -> ts ∈ all -> told_apart group all -> range_ready group n all (ts :: steps) st ->
  (forall l, (group l < n)%nat) \/ (lmat = [] /\ rmat = []) ->
  match step_checked group ts (g_temp st) with
  | inr e => range_step (map (fun s => group (m_Metric s)) lmat) (map (fun s => group (m_Metric s)) rmat) ts st = Some (inr e)
  | inl out => exists st', range_step (map (fun s => group (m_Metric s)) lmat) (map (fun s => group (m_Metric s)) rmat) ts st = Some (inl (out, st')) /\
      range_ready group n all steps st' /\ g_temp st' = g_temp st + TotalSamples vector_size out /\ g_seriess st' = g_seriess st
  end.
Proof.
  intros Hs Hts Ht [R1 R2 [R3 R3'] R4 R5 R6 R7] Hn. destruct (R4 ts ltac:(by left)) as [V1 V2].
  destruct (rest_of_spec ts steps _ Hs R1) as (L1 & L2 & L3). destruct (rest_of_spec ts steps _ Hs R2) as (Q1 & Q2 & Q3).
  unfold BinaryRange.range_step, step_checked. rewrite (same_ordinals group _ _ R3), (same_ordinals group _ _ R3').
  rewrite (gatherVector_spec maxSamples group ts steps) by done. rewrite V1. cbn [mbind option_bind].
  destruct (Z.ltb_spec maxSamples (g_temp st + Z.of_nat (length (vector_at ts lmat)))) as [Hb|Hb]; [by rewrite (proj2 (Z.ltb_lt _ _)) by lia|].
  rewrite (gatherVector_spec maxSamples group ts steps) by done. rewrite V2. cbn [mbind option_bind].
  destruct (maxSamples <? _ + Z.of_nat (length (vector_at ts rmat))) eqn:Hb2; [done|].
  assert (Hop : exists cache', call_operator (vector_at ts lmat) (vector_at ts rmat) (map (fun v => group (v_Metric v)) (vector_at ts lmat))
      (map (fun v => group (v_Metric v)) (vector_at ts rmat)) (g_enh st) =
    Some (match step_result group ts with inl out => inl (out, mk_EvalNodeHelper n cache') | inr e => inr e end) /\ cache_good group all cache').
  { destruct (g_enh st) as [n0 c0]. cbn in R5, R6. subst n0. destruct Hn as [Hn|[El Er]].
    - by apply call_operator_spec.
    - assert (Vl : vector_at ts lmat = []) by by rewrite El. assert (Vr : vector_at ts rmat = []) by by rewrite Er.
      pose proof (call_operator_nothing group ts c0 all (mk_EvalNodeHelper n c0) Vl Vr eq_refl R6) as Hc. by rewrite Vl, Vr. }
  destruct Hop as (cache' & -> & Hc'). cbn [mbind option_bind]. destruct (step_result group ts) as [out|e]; [|done].
  destruct (maxSamples <? _ + TotalSamples _ _) eqn:Hb3; [done|]. eexists. split; [reflexivity|]. cbn [g_temp g_seriess]. split; [|done].
  apply Z.ltb_ge in Hb2, Hb3. split; cbn [g_left g_right g_enh g_temp numSigs resultMetrics]; try done.
  - by rewrite L3, Q3.
  - intros ts' Hin. rewrite (L2 ts' Hin), (Q2 ts' Hin). apply R4. by right.
  - lia.
Qed.

(** ** The series of the result *)

(** The points of a series of the result among the samples of all steps. *)
Definition result_float (p : Z * VSample) : option (Z * Z) := match v_H p.2 with None => Some (p.1, v_F p.2) | Some _ => None end.
Definition result_hist (p : Z * VSample) : option (Z * FloatHistogram) := (fun h => (p.1, h)) <$> v_H p.2.
Definition of_hash (h : Z) (pts : list (Z * VSample)) : list (Z * VSample) := List.filter (fun p => Labels_Hash Sum64 (v_Metric p.2) =? h) pts.

Definition points_series (mine : list (Z * VSample)) : option (MSeries * Z) :=
  match mine with
  | [] => None
  | p :: _ => Some (mk_MSeries (v_Metric p.2) (omap result_float mine) (omap result_hist mine) (v_DropName p.2), List.last (map fst mine) p.1)
  end.

Definition collects (pts : list (Z * VSample)) (seriess : gmap Z (MSeries * Z)) : Prop := forall h, seriess !! h = points_series (of_hash h pts).

Lemma last_cons_snoc {A} (l : list A) (a x d : A) : List.last (a :: l ++ [x]) d = x.
Proof. change (a :: l ++ [x]) with ((a :: l) ++ [x]). apply List.last_last. Qed.

Lemma points_series_snoc mine ts s :
  points_series (mine ++ [(ts, s)]) = Some (match points_series mine with
    | Some (ss, _) => (addToSeries ts s ss, ts)
    | None => (addToSeries ts s (mk_MSeries (v_Metric s) [] [] (v_DropName s)), ts)
    end).
Proof.
  destruct mine as [|p mine].
  - unfold points_series, addToSeries, result_float, result_hist. cbn. by destruct (v_H s).
  - cbn [points_series app]. f_equal. change (p :: mine ++ [(ts, s)]) with ((p :: mine) ++ [(ts, s)]). rewrite !omap_app, map_app. cbn [map fst]. rewrite List.last_last.
    assert (E1 : omap result_float [(ts, s)] = match v_H s with None => [(ts, v_F s)] | Some _ => [] end) by (cbn; unfold result_float; cbn; by destruct (v_H s)).
    assert (E2 : omap result_hist [(ts, s)] = match v_H s with None => [] | Some h => [(ts, h)] end) by (cbn; unfold result_hist; cbn; by destruct (v_H s)).
    rewrite E1, E2. unfold addToSeries. cbn [m_Metric m_Floats m_Histograms m_DropName]. by destruct (v_H s); rewrite app_nil_r.
Qed.

Lemma collects_add pts seriess ts s : collects pts seriess ->
  let h := Labels_Hash Sum64 (v_Metric s) in
  collects (pts ++ [(ts, s)]) (<[h := match seriess !! h with
    | Some (ss, _) => (addToSeries ts s ss, ts)
    | None => (addToSeries ts s (mk_MSeries (v_Metric s) [] [] (v_DropName s)), ts)
    end]> seriess).
Proof.
  intros Hc h h'. unfold of_hash. rewrite List.filter_app. cbn [List.filter snd]. fold (of_hash h' pts). fold h. destruct (Z.eqb_spec h h') as [<-|Hne].
  - rewrite lookup_insert_eq, points_series_snoc, <-Hc. done.
  - rewrite lookup_insert_ne by done. rewrite app_nil_r. apply Hc.
Qed.

(** A series of the result was last extended at the time of its last sample. *)
Lemma points_series_time pts h ss t : points_series (of_hash h pts) = Some (ss, t) -> exists s, (t, s) ∈ pts /\ Labels_Hash Sum64 (v_Metric s) = h.
Proof.
  intros Es. assert (Hall : forall p, p ∈ of_hash h pts -> p ∈ pts /\ Labels_Hash Sum64 (v_Metric p.2) = h).
  { intros p Hp. unfold of_hash in Hp. apply list_elem_of_In, filter_In in Hp as [Hp Hh]. split; [by apply list_elem_of_In|]. by apply Z.eqb_eq. }
  destruct (of_hash h pts) as [|p mine] using rev_ind; [done|]. destruct p as [t' s]. rewrite points_series_snoc in Es.
  assert (t = t') as -> by (destruct (points_series mine) as [[? ?]|]; by injection Es). destruct (Hall (t', s)) as [H1 H2]; [apply elem_of_app; right; by left|]. by exists s.
Qed.

Definition hashes (out : Vector) : list Z := map (fun s => Labels_Hash Sum64 (v_Metric s)) out.

Lemma add_result_spec ts out : forall done_ pts seriess, collects (pts ++ map (fun s => (ts, s)) done_) seriess -> (forall p, p ∈ pts -> p.1 <> ts) ->
  NoDup (hashes done_) ->
  if decide (NoDup (hashes (done_ ++ out)))
  then exists seriess', add_result Sum64 ts out seriess = inl seriess' /\ collects (pts ++ map (fun s => (ts, s)) (done_ ++ out)) seriess'
  else add_result Sum64 ts out seriess = inr ErrSameLabelset.
Proof.
  induction out as [|s out IH]; intros done_ pts seriess Hc Hp Hnd; cbn [add_result].
  { rewrite !app_nil_r, decide_True by done. by exists seriess. }
  set (h := Labels_Hash Sum64 (v_Metric s)).
  assert (Hold : match seriess !! h with Some (ss, t) => h ∈ hashes done_ <-> t = ts | None => h ∉ hashes done_ end).
  { pose proof (Hc h) as Eh. assert (Hin : h ∈ hashes done_ -> exists mine s', of_hash h (pts ++ map (fun s => (ts, s)) done_) = mine ++ [(ts, s')]).
    { intros Hin. unfold of_hash. rewrite List.filter_app. destruct done_ as [|d ds] using rev_ind; [by apply elem_of_nil in Hin|]. clear IHds.
      assert (Hne : List.filter (fun p : Z * VSample => Labels_Hash Sum64 (v_Metric p.2) =? h) (map (fun s => (ts, s)) (ds ++ [d])) <> []).
      { apply list_elem_of_fmap in Hin as (x & Ex & Hx). intros Hf. assert (Hm : (ts, x) ∈ ([] : list (Z * VSample))); [|by apply elem_of_nil in Hm].
        rewrite <-Hf. apply list_elem_of_In, filter_In. split; [apply list_elem_of_In; by apply (list_elem_of_fmap_2 (fun s => (ts, s)))|]. cbn. apply Z.eqb_eq. by rewrite Ex. }
      destruct (List.filter _ (map _ _)) as [|q mine] eqn:Ef using rev_ind; [done|]. exists (List.filter (fun p => Labels_Hash Sum64 (v_Metric p.2) =? h) pts ++ mine), q.2.
      rewrite <-app_assoc. do 2 f_equal. assert (Hq : q ∈ mine ++ [q]) by (apply elem_of_app; right; by left). rewrite <-Ef in Hq.
      apply list_elem_of_In, filter_In in Hq as [Hq _]. apply in_map_iff in Hq as (x & <- & _). done. }
    rewrite Eh. destruct (points_series _) as [[ss t]|] eqn:Es.
    - split.
      + intros Hh. destruct (Hin Hh) as (mine & s' & Em). rewrite Em, points_series_snoc in Es. destruct (points_series mine) as [[? ?]|]; by injection Es.
      + intros ->. apply points_series_time in Es as (s' & Hs' & Eh'). apply elem_of_app in Hs' as [Hs'|Hs']; [by apply Hp in Hs'|].
        apply list_elem_of_fmap in Hs' as (x & [= <-] & Hx). rewrite <-Eh'. by apply (list_elem_of_fmap_2 (fun s => Labels_Hash Sum64 (v_Metric s))).
    - intros Hh. destruct (Hin Hh) as (mine & s' & Em). by rewrite Em, points_series_snoc in Es. }
  assert (Hsplit : h ∈ hashes done_ -> ~ NoDup (hashes (done_ ++ s :: out))).
  { intros Hin. unfold hashes at 1. rewrite map_app. cbn [map]. intros Hd. apply NoDup_app in Hd as (_ & Hd & _). apply (Hd h); [done|by left]. }
  assert (Hgo : h ∉ hashes done_ -> NoDup (hashes (done_ ++ [s]))).
  { intros Hin. unfold hashes. rewrite map_app. apply NoDup_app. split; [done|]. split; [|apply NoDup_singleton]. intros x Hx Hx2. apply list_elem_of_singleton in Hx2 as ->. done. }
  pose proof (collects_add _ _ ts s Hc) as Hadd. cbv zeta in Hadd. fold h in Hadd. rewrite <-app_assoc in Hadd.
  assert (Em : map (fun s => (ts, s)) done_ ++ [(ts, s)] = map (fun s => (ts, s)) (done_ ++ [s])) by by rewrite map_app. rewrite Em in Hadd.
  pose proof (fun X => IH (done_ ++ [s]) pts _ Hadd Hp (Hgo X)) as Hrec. rewrite <-!app_assoc in Hrec. cbn [app] in Hrec.
  destruct (seriess !! h) as [[ss t]|].
  - destruct (Z.eqb_spec t ts) as [->|Hne]; [rewrite decide_False; [done|]; apply Hsplit; by apply Hold|]. apply Hrec. intros Hh. by apply Hne, Hold.
  - by apply Hrec.
Qed.

(** ** rangeEval *)

(** The samples of all steps: a step may give one sample at most for a hash. *)
Fixpoint range_points (group : Labels -> nat) (steps : list Z) (temp : Z) (pts : list (Z * VSample)) : list (Z * VSample) + match_error :=
  match steps with
  | [] => inl pts
  | ts :: steps =>
      match step_checked group ts temp with
      | inr e => inr e
      | inl out =>
          if decide (NoDup (hashes out)) then range_points group steps (temp + TotalSamples vector_size out) (pts ++ map (fun s => (ts, s)) out)
          else inr ErrSameLabelset
      end
  end.

Lemma range_loop_spec group n all steps : forall pts st,
  StronglySorted Z.lt steps -> (forall ts, ts ∈ steps -> ts ∈ all) -> told_apart group all -> range_ready group n all steps st ->
  (forall l, (group l < n)%nat) \/ (lmat = [] /\ rmat = []) ->
  collects pts (g_seriess st) -> (forall p ts, p ∈ pts -> ts ∈ steps -> p.1 <> ts) ->
  match range_points group steps (g_temp st) pts with
  | inr e => range_loop (map (fun s => group (m_Metric s)) lmat) (map (fun s => group (m_Metric s)) rmat) steps st = Some (inr e)
  | inl pts' => exists st', range_loop (map (fun s => group (m_Metric s)) lmat) (map (fun s => group (m_Metric s)) rmat) steps st = Some (inl st') /\
      collects pts' (g_seriess st')
  end.
Proof.
  induction steps as [|ts steps IH]; intros pts st Hs Hall Ht Hr Hn Hc Hp; cbn [range_points BinaryRange.range_loop]; [by exists st|].
  pose proof (range_step_spec group n all ts steps st Hs (Hall ts ltac:(by left)) Ht Hr Hn) as H1.
  destruct (step_checked group ts (g_temp st)) as [out|e]; [|by rewrite H1].
  destruct H1 as (st1 & -> & [R1 R2 R3 R4 R5 R6 R7] & Et & Es). cbn [mbind option_bind].
  pose proof (add_result_spec ts out [] pts (g_seriess st)) as Ha. cbn [app map] in Ha. rewrite app_nil_r in Ha.
  specialize (Ha Hc (fun p Hin => Hp p ts Hin ltac:(by left)) ltac:(constructor)). rewrite Es.
  destruct (decide (NoDup (hashes out))) as [Hd|Hd]; [|by rewrite Ha]. destruct Ha as (seriess' & -> & Hc'). rewrite <-Et.
  apply (IH _ (mk_rangeState (g_left st1) (g_right st1) (g_enh st1) (g_temp st1) seriess')); try done.
  - by apply StronglySorted_inv in Hs as [Hs _].
  - intros ts' Hin. apply Hall. by right.
  - intros p ts' Hin Hin' E0. apply StronglySorted_inv in Hs as [_ Hs]. rewrite Forall_forall in Hs. specialize (Hs ts' Hin').
    apply elem_of_app in Hin as [Hin|Hin]; [by apply (Hp p ts' Hin); [by right|]|]. apply list_elem_of_fmap in Hin as (x & -> & _). cbn in E0. lia.
Qed.

Lemma same_hash_spec out : forall seen : gset Z, same_hash Sum64 seen out = negb (bool_decide (NoDup (hashes out) /\ Forall (fun h => h ∉ seen) (hashes out))).
Proof.
  induction out as [|s out IH]; intros seen; cbn [same_hash hashes map].
  - by rewrite bool_decide_eq_true_2 by (split; constructor).
  - fold (hashes out). rewrite IH. case_bool_decide as H1; cbn [orb].
    + rewrite bool_decide_eq_false_2; [done|]. intros [_ H2]. by apply Forall_cons in H2 as [H2 _].
    + f_equal. apply bool_decide_ext. rewrite NoDup_cons, Forall_cons, !Forall_forall. split.
      * intros [H2 H3]. split; [split; [|done]|split; [done|]]; [intros Hin; apply H3 in Hin; set_solver|]. intros h Hh. apply H3 in Hh. set_solver.
      * intros [[H2 H3] [_ H4]]. split; [done|]. intros h Hh. rewrite elem_of_union, elem_of_singleton. intros [->|Hx]; [done|]. by apply (H4 h).
Qed.

Lemma ContainsSameLabelset_spec out : ContainsSameLabelset Sum64 out = negb (bool_decide (NoDup (hashes out))).
Proof.
  unfold ContainsSameLabelset. rewrite same_hash_spec. f_equal. apply bool_decide_ext. split; [by intros [? _]|]. intros Hd. split; [done|].
  apply Forall_forall. set_solver.
Qed.

(** The match groups of the operands' series. *)
Definition groups : Labels -> nat := match number_series m (lmat ++ rmat) ∅ 0 with Some (_, known, _) => ordinal m known | None => fun _ => O end.

Lemma number_series_app a b : forall known next,
  number_series m (a ++ b) known next =
    '(h, known, next) ← number_series m a known next; '(h', known, next) ← number_series m b known next; Some (h ++ h', known, next).
Proof.
  induction a as [|s a IH]; intros known next; cbn [app number_series]; cbn [mbind option_bind].
  { by destruct (number_series m b known next) as [[[? ?] ?]|]. }
  destruct (signature m (m_Metric s)) as [sig|]; [|done]. cbn [mbind option_bind]. destruct (match known !! sig with Some _ => _ | None => _ end) as [[x k1] n1].
  rewrite IH. destruct (number_series m a k1 n1) as [[[h k2] n2]|]; [|done]. cbn [mbind option_bind]. by destruct (number_series m b k2 n2) as [[[? ?] ?]|].
Qed.

(** The ordinals of the series are those of their groups. *)
Lemma number_operands : exists known1 next1 known2 next2,
  number_series m lmat ∅ 0 = Some (map (fun s => groups (m_Metric s)) lmat, known1, next1) /\
  number_series m rmat known1 next1 = Some (map (fun s => groups (m_Metric s)) rmat, known2, next2) /\
  ((forall l, (groups l < next2)%nat) \/ (lmat = [] /\ rmat = [])) /\
  forall s s', s ∈ lmat ++ rmat -> s' ∈ lmat ++ rmat ->
    groups (m_Metric s) = groups (m_Metric s') <-> match_labels m (labels_list (m_Metric s)) = match_labels m (labels_list (m_Metric s')).
Proof.
  pose proof metrics_wf as W. pose proof W as W2. apply Forall_app in W2 as [Wl Wr].
  destruct (number_series_spec m lmat ∅ 0 Wl) as (k1 & n1 & E1 & _ & N1 & _ & Hb1 & _); [by split|].
  destruct (number_series_spec m rmat k1 n1 Wr N1) as (k2 & n2 & E2 & Hk & N2 & _ & Hb2 & _).
  assert (Eg : groups = ordinal m k2) by (unfold groups; rewrite number_series_app, E1; cbn [mbind option_bind]; by rewrite E2).
  exists k1, n1, k2, n2. rewrite Eg. split_and!.
  - rewrite E1. do 3 f_equal. apply map_ext_in. intros s Hin. apply list_elem_of_In in Hin. rewrite Forall_forall in Hb1. by apply ordinal_weaken, Hb1.
  - done.
  - destruct (number_series_spec m (lmat ++ rmat) ∅ 0 W) as (k3 & n3 & E3 & _ & _ & _ & _ & Hz); [by split|].
    rewrite number_series_app, E1 in E3. cbn [mbind option_bind] in E3. rewrite E2 in E3. injection E3 as _ _ <-.
    destruct (decide (lmat ++ rmat = [])) as [E0|E0]; [right; by apply app_eq_nil in E0|]. left. intros l. apply (ordinal_lt m k2 n2 l N2). by apply Hz.
  - intros s s' Hs Hs'. assert (Hall : Forall (fun s => numbered m k2 (m_Metric s)) (lmat ++ rmat)).
    { apply Forall_app. split; [|done]. eapply Forall_impl; [exact Hb1|]. intros x. by apply numbered_weaken. }
    rewrite Forall_forall in Hall, W. apply (ordinal_eq m k2 n2); auto.
Qed.

Lemma steps_sorted start interval k n : 0 < interval -> StronglySorted Z.lt (map (fun k => start + k * interval) (seqZ k n)).
Proof.
  intros Hi. unfold seqZ. change (map ?f (?g <$> ?l)) with (map f (map g l)). rewrite List.map_map. generalize O. induction (Z.to_nat n) as [|c IH]; intros i; cbn; [constructor|]. constructor; [apply IH|].
  apply Forall_forall. intros x Hx. apply list_elem_of_fmap in Hx as (j & -> & Hj). apply elem_of_seq in Hj. nia.
Qed.

(** The times of the steps. *)
Definition range_steps (start end_ interval : Z) : list Z :=
  if start =? end_ then [start] else map (fun k => start + k * interval) (seqZ 0 ((end_ - start) / interval + 1)).

(** The reference: the operator at each step, on the instant vectors of the step
    and the match groups of the operands' series. *)
Definition range_result (start end_ interval original current : Z) (r : option (list MSeries * Z + match_error)) : Prop :=
  let done_ mat := Some (inl (mat, original + matrix_size point_size mat)) in
  if start =? end_ then
    r = match step_checked groups start current with
        | inr e => Some (inr e)
        | inl out => if negb enableDelayedNameRemoval && negb (bool_decide (NoDup (hashes out))) then Some (inr ErrSameLabelset) else done_ (map (instant_series start) out)
        end
  else
    match range_points groups (range_steps start end_ interval) current [] with
    | inr e => r = Some (inr e)
    | inl pts => exists seriess, collects pts seriess /\ r = done_ (map (fun x => x.2.1) (map_order seriess))
    end.

Lemma rangeEval_result start end_ interval original current :
  (start = end_ \/ 0 < interval) -> Forall (points_ok (range_steps start end_ interval)) (lmat ++ rmat) -> current <= maxSamples ->
  told_apart groups (range_steps start end_ interval) ->
  range_result start end_ interval original current
    (rangeEval vectorElemBinop Sum64 MetricTypeLabel MetricUnitLabel enableDelayedNameRemoval vector_size point_size map_order maxSamples o m
       start end_ interval lmat rmat original current).
Proof.
  intros Hi Hk Hc Ht. destruct number_operands as (k1 & n1 & k2 & n2 & E1 & E2 & Hn & _). unfold rangeEval. rewrite E1. cbn [mbind option_bind]. rewrite E2.
  cbn [mbind option_bind]. apply Forall_app in Hk as [Hkl Hkr]. set (st := mk_rangeState lmat rmat (mk_EvalNodeHelper n2 ∅) current ∅).
  assert (Hcache : cache_good groups (range_steps start end_ interval) ∅).
  { assert (Hx : exists x, x = o) by eauto. destruct Hx as [x Ex]. unfold cache_good. rewrite <-Ex. by destruct x. }
  assert (Hready : range_ready groups n2 (range_steps start end_ interval) (range_steps start end_ interval) st) by by split.
  unfold range_result, range_steps in *. destruct (Z.eqb_spec start end_) as [<-|Hne].
  - assert (Hs : StronglySorted Z.lt [start]) by by repeat constructor.
    pose proof (range_step_spec groups n2 [start] start [] st Hs ltac:(by left) Ht Hready Hn) as H1. cbn [g_temp st] in H1.
    destruct (step_checked groups start current) as [out|e]; [|by rewrite H1]. destruct H1 as (st' & -> & _). cbn [mbind option_bind].
    rewrite ContainsSameLabelset_spec. by destruct (negb enableDelayedNameRemoval && _).
  - destruct Hi as [Hi|Hi]; [done|].
    pose proof (range_loop_spec groups n2 _ _ [] st (steps_sorted start interval _ _ Hi) (fun _ H => H) Ht Hready Hn) as H1. cbn [g_temp g_seriess st] in H1.
    specialize (H1 ltac:(by intros h) ltac:(by intros p ts ?%elem_of_nil)).
    destruct (range_points _ _ _ _) as [pts|e]; [|by rewrite H1]. destruct H1 as (st' & -> & Hcol). cbn [mbind option_bind]. by exists (g_seriess st').
Qed.

End RangeSpec.

(** ** Queries of two operands *)

(** Labels of one letter, and numbers for floats. *)
Definition range_label (n v : Z) : Label := mk_Label [n] [v].
Definition range_set (ls : list (Z * Z)) : Labels := of_list (map (fun p => range_label p.1 p.2) ls).
Definition range_series (ls : list (Z * Z)) (points : list (Z * Z)) : MSeries := mk_MSeries (range_set ls) points [] false.
Definition range_elem (_ : binary_op) (l r : Z) (_ _ : option FloatHistogram) : Z * option FloatHistogram * bool * option unit * option unit :=
  (l + r, None, true, None, None).
Definition range_hash (b : gostr) : Z := foldl (fun h x => 257 * h + x + 1) 0 b.
Definition test_type : gostr := [95; 116].
Definition test_unit : gostr := [95; 117].

Definition range_query (o : vector_op) (m : VectorMatching) (end_ maxSamples : Z) (l r : list MSeries) : option (list MSeries * Z + match_error) :=
  rangeEval range_elem range_hash test_type test_unit false (fun _ => 2) (fun _ => 2) map_to_list maxSamples o m 0 end_ 10 l r 1 1.

(** Two instances of a, one of which ends, and the limit of a. *)
Definition range_left : list MSeries := [range_series [(97, 1); (98, 1)] [(0, 10); (10, 20)]; range_series [(97, 1); (98, 2)] [(0, 30)]].
Definition range_right : list MSeries := [range_series [(97, 1)] [(0, 1); (10, 2)]].
Definition on_a (card : VectorMatchCardinality) : VectorMatching := mk_VectorMatching card [[97]] true [] None None.

Example range_group_left : range_query (OnValues ADD false) (on_a CardManyToOne) 10 8 range_left range_right =
  Some (inl ([range_series [(97, 1); (98, 1)] [(0, 11); (10, 22)]; range_series [(97, 1); (98, 2)] [(0, 31)]], 4)).
Proof. vm_compute. reflexivity. Qed.

Example range_one_to_one : range_query (OnValues ADD false) (on_a CardOneToOne) 10 8 range_left range_right = Some (inr ErrMultipleMatches).
Proof. vm_compute. reflexivity. Qed.

Example range_many_on_the_right : range_query (OnValues ADD false) (on_a CardManyToOne) 10 8 range_right range_left = Some (inr ErrManyToMany).
Proof. vm_compute. reflexivity. Qed.

Example range_limit : range_query (OnValues ADD false) (on_a CardManyToOne) 10 5 range_left range_right = Some (inr ErrTooManySamples).
Proof. vm_compute. reflexivity. Qed.

Example range_unless : range_query LUNLESS (mk_VectorMatching CardManyToMany [[98]] true [] None None) 0 20 range_left [range_series [(98, 2)] [(0, 1)]] =
  Some (inl ([range_series [(97, 1); (98, 1)] [(0, 10)]], 2)).
Proof. vm_compute. reflexivity. Qed.

Ltac range_wf := match goal with |- well_formed (m_Metric (range_series ?l _)) =>
  exists (map (fun p => range_label p.1 p.2) l); split; [reflexivity|]; split_and!; [repeat constructor|repeat constructor; done|repeat constructor] end.

Ltac range_points_ok := split; cbn; [repeat constructor|repeat constructor|
  intros t [Ht|Ht]; [repeat (apply elem_of_cons in Ht as [->|Ht]; [vm_compute; set_solver|])|]; by apply elem_of_nil in Ht|
  intros t _; apply not_elem_of_nil].

(** The pairs of a query are told apart. *)
Definition pairs_told (m : VectorMatching) (op : binary_op) (l r : list MSeries) (steps : list Z) : bool :=
  let group := groups m l r in
  let pairs := concat (map (fun ts => map (fun p => (v_Metric p.1.1, v_Metric p.1.2))
    (pairs_of range_elem op m (fun s => group (v_Metric s)) (the_many m (vector_at ts l) (vector_at ts r)) (the_one m (vector_at ts l) (vector_at ts r)))) steps) in
  forallb (fun p => forallb (fun q => negb (str_eqb (data p.1 ++ data p.2) (data q.1 ++ data q.2)) ||
    str_eqb (data (result_metric test_type test_unit false m op false p.1 p.2)) (data (result_metric test_type test_unit false m op false q.1 q.2))) pairs) pairs.

Lemma combined_told m op l r steps : pairs_told m op l r steps = true ->
  told_apart range_elem test_type test_unit false (OnValues op false) m l r (groups m l r) steps.
Proof.
  unfold pairs_told, told_apart. set (pairs := concat _). intros Hall x y x' y' Hp Hq Ek.
  assert (Hin : forall a b, combined range_elem (OnValues op false) m l r (groups m l r) steps a b -> In (a, b) pairs).
  { intros a b (ts & p & Hts & Hp' & <- & <-). unfold pairs. apply in_concat. eexists. split; [apply in_map; by apply list_elem_of_In|].
    apply (in_map (fun p => (v_Metric p.1.1, v_Metric p.1.2)) _ p). by apply list_elem_of_In. }
  pose proof (proj1 (forallb_forall _ _) (proj1 (forallb_forall _ _) Hall _ (Hin _ _ Hp)) _ (Hin _ _ Hq)) as Hpq. cbn [fst snd] in Hpq.
  unfold str_eqb in Hpq. rewrite (bool_decide_eq_true_2 _ Ek) in Hpq. cbn in Hpq. apply bool_decide_eq_true in Hpq.
  destruct (result_metric _ _ _ _ _ _ x y), (result_metric _ _ _ _ _ _ x' y'). cbn in Hpq. by subst.
Qed.


(** At the first step {a} meets {b}, at the second {a, b} meets the empty set;
    the bytes of both pairs are the same, and the second result gets the metric
    of the first. *)
Example range_metric_of_another_pair :
  let l := [range_series [(97, 1)] [(0, 10)]; range_series [(97, 1); (98, 1)] [(10, 20)]] in
  let r := [range_series [(98, 1)] [(0, 1)]; range_series [] [(10, 2)]] in
  let m := mk_VectorMatching CardManyToOne [] true [] None None in
  range_query (OnValues ADD false) m 10 20 l r = Some (inl ([range_series [(97, 1)] [(0, 11); (10, 22)]], 3)) /\
  fresh_metric test_type test_unit (range_set [(97, 1); (98, 1)]) (range_set []) ADD m false = Some (range_set [(97, 1); (98, 1)]).
Proof. split; vm_compute; reflexivity. Qed.

(** With group_right the fill value of the left side fills the right side: the
    left side has no sample for the second of [range_left] ... *)
Example range_fill_left_group_right :
  let m := mk_VectorMatching CardOneToMany [[98]] true [] (Some 7) None in
  range_query (OnValues ADD false) m 0 20 [range_series [(98, 1)] [(0, 1)]] range_left = Some (inl ([range_series [(97, 1); (98, 1)] [(0, 11)]], 2)) /\
  range_query (OnValues ADD false) m 0 20 [range_series [(98, 1)] [(0, 1)]; range_series [(98, 3)] [(0, 2)]] range_left =
    Some (inl ([range_series [(97, 1); (98, 1)] [(0, 11)]; range_series [(98, 3)] [(0, 9)]], 3)).
Proof. split; vm_compute; reflexivity. Qed.
