(* ===== verification/SampleRing.v ===== *)
(** storage/buffer.go: sampleRing, the ring buffer behind range selectors, and
    SampleRingIterator.

    The ring has a buffer for each kind of sample and one for mixed samples, of
    which one is in use; the positions are shared.  The theorems say that it is
    the list of the samples added, without those that were older than the range
    when another was added.  Histograms are copied into the ring, so that they are
    values here.  [None] is a panic, or a loop that does not end. *)
From stdpp Require Import sorting.
From S2P Require Import Prelude Xor Record RecordHistogram SeriesIterator.

(** ** Samples *)

Record fSample := mk_fSample { fs_st : Z; fs_t : Z; fs_f : Z }.
Record hSample := mk_hSample { hs_st : Z; hs_t : Z; hs_h : option Histogram }.
Record fhSample := mk_fhSample { fhs_st : Z; fhs_t : Z; fhs_fh : option FloatHistogram }.

(** chunks.Sample: the implementations of this package, and the others. *)
Inductive ring_sample := SF (s : fSample) | SH (s : hSample) | SFH (s : fhSample) | SO (s : sample).

Definition rs_T (s : ring_sample) : Z := match s with SF s => fs_t s | SH s => hs_t s | SFH s => fhs_t s | SO s => s_t s end.
Definition rs_ST (s : ring_sample) : Z := match s with SF s => fs_st s | SH s => hs_st s | SFH s => fhs_st s | SO s => s_st s end.
Definition rs_Type (s : ring_sample) : ValueType :=
  match s with SF _ => ValFloat | SH _ => ValHistogram | SFH _ => ValFloatHistogram | SO s => sample_Type s end.

(** ** The ring *)

Inductive bufType := noBuf | iBuf | fBuf | hBuf | fhBuf.
#[global] Instance bufType_eq_dec : EqDecision bufType.
Proof. solve_decision. Defined.

(** An unused slot of the mixed buffer is a nil interface. *)
Record sampleRing := mk_sampleRing {
  r_delta : Z; r_iBuf : list (option ring_sample); r_fBuf : list fSample; r_hBuf : list hSample; r_fhBuf : list fhSample; r_bufInUse : bufType;
  r_i : Z; r_f : Z; r_l : Z }.

(** The three positions. *)
Definition positions : Type := Z * Z * Z.
Definition r_pos (r : sampleRing) : positions := (r_i r, r_f r, r_l r).

Definition ring_reset (r : sampleRing) : sampleRing :=
  mk_sampleRing (r_delta r) [] (r_fBuf r) (r_hBuf r) (r_fhBuf r) noBuf (-1) 0 0.

Definition zero_f : fSample := mk_fSample 0 0 0.
Definition zero_h : hSample := mk_hSample 0 0 None.
Definition zero_fh : fhSample := mk_fhSample 0 0 None.

Definition newSampleRing (delta : Z) (size : nat) (typ : ValueType) : sampleRing :=
  let r := ring_reset (mk_sampleRing delta [] [] [] [] noBuf 0 0 0) in
  match typ with
  | ValFloat => mk_sampleRing delta [] (replicate size zero_f) [] [] noBuf (r_i r) (r_f r) (r_l r)
  | ValHistogram => mk_sampleRing delta [] [] (replicate size zero_h) [] noBuf (r_i r) (r_f r) (r_l r)
  | ValFloatHistogram => mk_sampleRing delta [] [] [] (replicate size zero_fh) noBuf (r_i r) (r_f r) (r_l r)
  | ValNone => r
  end.

(** Indexing panics out of range. *)
Definition slot_at {T} (buf : list T) (j : Z) : option T := if j <? 0 then None else buf !! Z.to_nat j.

Section Buffer.
  Context {T : Type} (zero : T) (time : T -> option Z).

(** The loop that frees the head of the buffer. *)
Fixpoint free_head (fuel : nat) (buf : list T) (tmin : Z) (f l : Z) : option (Z * Z) :=
  match fuel with
  | O => None
  | S fuel =>
      x ← slot_at buf f;
      t ← time x;
      if t <? tmin then
        let f := f + 1 in
        let f := if Z.of_nat (length buf) <=? f then f - Z.of_nat (length buf) else f in
        free_head fuel buf tmin f (l - 1)
      else Some (f, l)
  end.

(** Room for one more element: the buffer, its place and the new head. *)
Definition ring_room (buf : list T) (p : positions) : list T * Z * Z :=
  let '(i, f, l) := p in
  let buf := match buf with [] => replicate 16 zero | _ => buf end in
  let n := Z.of_nat (length buf) in
  if n =? l then (take (Z.to_nat f) buf ++ replicate (length buf) zero ++ drop (Z.to_nat f) buf, f, f + n)
  else (buf, (let i := i + 1 in if n <=? i then i - n else i), f).

(** The body that addSample, addF, addH and addFH share. *)
Definition ring_put (s : T) (buf : list T) (delta : Z) (p : positions) : option (list T * positions) :=
  let '(buf, i, f) := ring_room buf p in
  let l := p.2 in
  _ ← slot_at buf i;
  let buf := <[Z.to_nat i := s]> buf in
  t ← time s;
  '(f, l) ← free_head (S (length buf)) buf (i64 (t - delta)) f (l + 1);
  Some (buf, (i, f, l)).

Definition genericReduceDelta (buf : list T) (delta : Z) (p : positions) : option positions :=
  let '(i, f, l) := p in
  s ← slot_at buf i;
  t ← time s;
  '(f, l) ← free_head (S (length buf)) buf (i64 (t - delta)) f l;
  Some (i, f, l).

(** at, atF, atH and atFH; [%] panics on an empty buffer. *)
Definition ring_at (buf : list T) (f i : Z) : option T :=
  match buf with [] => None | _ => slot_at buf (Z.rem (f + i) (Z.of_nat (length buf))) end.

(** The elements that samples copies. *)
Definition ring_copy (buf : list T) (f l : Z) : list T :=
  let n := Z.of_nat (length buf) in
  let '(k, j) := if n <? f + l then (n, l - n + f) else (f + l, 0) in
  take (Z.to_nat (k - f)) (drop (Z.to_nat f) buf) ++ take (Z.to_nat j) buf.
End Buffer.

Definition opt_time (s : option ring_sample) : option Z := rs_T <$> s.
Definition f_time (s : fSample) : option Z := Some (fs_t s).
Definition h_time (s : hSample) : option Z := Some (hs_t s).
Definition fh_time (s : fhSample) : option Z := Some (fhs_t s).

(** The ring after one of its buffers has a new sample. *)
Definition with_i (r : sampleRing) (b : list (option ring_sample) * positions) : sampleRing :=
  mk_sampleRing (r_delta r) b.1 (r_fBuf r) (r_hBuf r) (r_fhBuf r) (r_bufInUse r) b.2.1.1 b.2.1.2 b.2.2.
Definition with_f (r : sampleRing) (b : list fSample * positions) : sampleRing :=
  mk_sampleRing (r_delta r) (r_iBuf r) b.1 (r_hBuf r) (r_fhBuf r) (r_bufInUse r) b.2.1.1 b.2.1.2 b.2.2.
Definition with_h (r : sampleRing) (b : list hSample * positions) : sampleRing :=
  mk_sampleRing (r_delta r) (r_iBuf r) (r_fBuf r) b.1 (r_fhBuf r) (r_bufInUse r) b.2.1.1 b.2.1.2 b.2.2.
Definition with_fh (r : sampleRing) (b : list fhSample * positions) : sampleRing :=
  mk_sampleRing (r_delta r) (r_iBuf r) (r_fBuf r) (r_hBuf r) b.1 (r_bufInUse r) b.2.1.1 b.2.1.2 b.2.2.
Definition in_use (t : bufType) (r : sampleRing) : sampleRing :=
  mk_sampleRing (r_delta r) (r_iBuf r) (r_fBuf r) (r_hBuf r) (r_fhBuf r) t (r_i r) (r_f r) (r_l r).

Definition put_i (s : ring_sample) (r : sampleRing) : option sampleRing := with_i r <$> ring_put None opt_time (Some s) (r_iBuf r) (r_delta r) (r_pos r).
Definition put_f (s : fSample) (r : sampleRing) : option sampleRing := with_f r <$> ring_put zero_f f_time s (r_fBuf r) (r_delta r) (r_pos r).
Definition put_h (s : hSample) (r : sampleRing) : option sampleRing := with_h r <$> ring_put zero_h h_time s (r_hBuf r) (r_delta r) (r_pos r).
Definition put_fh (s : fhSample) (r : sampleRing) : option sampleRing := with_fh r <$> ring_put zero_fh fh_time s (r_fhBuf r) (r_delta r) (r_pos r).

(** A specialised buffer becomes the mixed one. *)
Definition to_iBuf (r : sampleRing) : sampleRing :=
  match r_bufInUse r with
  | fBuf => mk_sampleRing (r_delta r) (r_iBuf r ++ map (fun s => Some (SF s)) (r_fBuf r)) [] (r_hBuf r) (r_fhBuf r) iBuf (r_i r) (r_f r) (r_l r)
  | hBuf => mk_sampleRing (r_delta r) (r_iBuf r ++ map (fun s => Some (SH s)) (r_hBuf r)) (r_fBuf r) [] (r_fhBuf r) iBuf (r_i r) (r_f r) (r_l r)
  | fhBuf => mk_sampleRing (r_delta r) (r_iBuf r ++ map (fun s => Some (SFH s)) (r_fhBuf r)) (r_fBuf r) (r_hBuf r) [] iBuf (r_i r) (r_f r) (r_l r)
  | _ => in_use iBuf r
  end.

(** sampleRing.add; a first sample of another implementation is not added. *)
Definition ring_add (s : ring_sample) (r : sampleRing) : option sampleRing :=
  match r_bufInUse r, s with
  | noBuf, SF s => put_f s (in_use fBuf r)
  | noBuf, SH s => put_h s (in_use hBuf r)
  | noBuf, SFH s => put_fh s (in_use fhBuf r)
  | noBuf, SO _ => Some r
  | fBuf, SF s => put_f s r
  | hBuf, SH s => put_h s r
  | fhBuf, SFH s => put_fh s r
  | iBuf, _ => put_i s r
  | _, _ => put_i s (to_iBuf r)
  end.

Definition ring_addF (s : fSample) (r : sampleRing) : option sampleRing :=
  match r_bufInUse r with
  | fBuf => put_f s r
  | noBuf => in_use fBuf <$> put_f s r
  | iBuf => put_i (SF s) r
  | _ => ring_add (SF s) r
  end.

Definition ring_addH (s : hSample) (r : sampleRing) : option sampleRing :=
  match r_bufInUse r with
  | hBuf => put_h s r
  | noBuf => in_use hBuf <$> put_h s r
  | iBuf => put_i (SH s) r
  | _ => ring_add (SH s) r
  end.

Definition ring_addFH (s : fhSample) (r : sampleRing) : option sampleRing :=
  match r_bufInUse r with
  | fhBuf => put_fh s r
  | noBuf => in_use fhBuf <$> put_fh s r
  | iBuf => put_i (SFH s) r
  | _ => ring_add (SFH s) r
  end.

Definition ring_moved (r : sampleRing) (p : positions) : sampleRing :=
  mk_sampleRing (r_delta r) (r_iBuf r) (r_fBuf r) (r_hBuf r) (r_fhBuf r) (r_bufInUse r) p.1.1 p.1.2 p.2.

Definition reduceDelta (delta : Z) (r : sampleRing) : option (bool * sampleRing) :=
  if r_delta r <? delta then Some (false, r)
  else
    let r := mk_sampleRing delta (r_iBuf r) (r_fBuf r) (r_hBuf r) (r_fhBuf r) (r_bufInUse r) (r_i r) (r_f r) (r_l r) in
    if r_l r =? 0 then Some (true, r)
    else
      p ← (match r_bufInUse r with
      | fBuf => genericReduceDelta f_time (r_fBuf r) delta (r_pos r)
      | hBuf => genericReduceDelta h_time (r_hBuf r) delta (r_pos r)
      | fhBuf => genericReduceDelta fh_time (r_fhBuf r) delta (r_pos r)
      | _ => genericReduceDelta opt_time (r_iBuf r) delta (r_pos r)
      end);
      Some (true, ring_moved r p).

(** The element at a position, as an interface; [None] inside is nil. *)
Definition ring_get (r : sampleRing) (i : Z) : option (option ring_sample) :=
  match r_bufInUse r with
  | fBuf => (fun s => Some (SF s)) <$> ring_at (r_fBuf r) (r_f r) i
  | hBuf => (fun s => Some (SH s)) <$> ring_at (r_hBuf r) (r_f r) i
  | fhBuf => (fun s => Some (SFH s)) <$> ring_at (r_fhBuf r) (r_f r) i
  | _ => ring_at (r_iBuf r) (r_f r) i
  end.

(** The boolean is ok. *)
Definition nthLast (r : sampleRing) (n : Z) : option (option ring_sample * bool) :=
  if r_l r <? n then Some (Some (SF zero_f), false)
  else s ← ring_get r (r_l r - n); Some (s, true).

Definition ring_samples (r : sampleRing) : list (option ring_sample) :=
  match r_bufInUse r with
  | noBuf => replicate (Z.to_nat (r_l r)) None
  | iBuf => ring_copy (r_iBuf r) (r_f r) (r_l r)
  | fBuf => map (fun s => Some (SF s)) (ring_copy (r_fBuf r) (r_f r) (r_l r))
  | hBuf => map (fun s => Some (SH s)) (ring_copy (r_hBuf r) (r_f r) (r_l r))
  | fhBuf => map (fun s => Some (SFH s)) (ring_copy (r_fhBuf r) (r_f r) (r_l r))
  end.

(** ** SampleRingIterator *)

(** [ri_r], the ring, is an argument of Next. *)
Record SampleRingIterator := mk_ri { ri_i : Z; ri_st : Z; ri_t : Z; ri_f : Z; ri_h : option Histogram; ri_fh : option FloatHistogram }.

Definition ri_reset (it : SampleRingIterator) : SampleRingIterator := mk_ri (-1) (ri_st it) (ri_t it) (ri_f it) None None.

Definition ri_Next (r : sampleRing) (it : SampleRingIterator) : option (ValueType * SampleRingIterator) :=
  let i := ri_i it + 1 in
  if r_l r <=? i then Some (ValNone, mk_ri i (ri_st it) (ri_t it) (ri_f it) (ri_h it) (ri_fh it))
  else
    match r_bufInUse r with
    | fBuf => s ← ring_at (r_fBuf r) (r_f r) i; Some (ValFloat, mk_ri i (fs_st s) (fs_t s) (fs_f s) (ri_h it) (ri_fh it))
    | hBuf => s ← ring_at (r_hBuf r) (r_f r) i; Some (ValHistogram, mk_ri i (hs_st s) (hs_t s) (ri_f it) (hs_h s) (ri_fh it))
    | fhBuf => s ← ring_at (r_fhBuf r) (r_f r) i; Some (ValFloatHistogram, mk_ri i (fhs_st s) (fhs_t s) (ri_f it) (ri_h it) (fhs_fh s))
    | _ =>
        s ← ring_at (r_iBuf r) (r_f r) i;
        s ← s;
        Some (match s with
        | SH s => (ValHistogram, mk_ri i (hs_st s) (hs_t s) (ri_f it) (hs_h s) None)
        | SFH s => (ValFloatHistogram, mk_ri i (fhs_st s) (fhs_t s) (ri_f it) None (fhs_fh s))
        | SF s => (ValFloat, mk_ri i (fs_st s) (fs_t s) (fs_f s) (ri_h it) (ri_fh it))
        | SO s =>
            match sample_Type s with
            | ValHistogram => (ValHistogram, mk_ri i (s_st s) (s_t s) (ri_f it) (s_h s) None)
            | ValFloatHistogram => (ValFloatHistogram, mk_ri i (s_st s) (s_t s) (ri_f it) None (s_fh s))
            | _ => (ValFloat, mk_ri i (s_st s) (s_t s) (s_f s) (ri_h it) (ri_fh it))
            end
        end)
    end.

Definition ri_At (it : SampleRingIterator) : Z * Z := (ri_t it, ri_f it).
Definition ri_AtHistogram (it : SampleRingIterator) : Z * option Histogram := (ri_t it, ri_h it).

(** Histogram.ToFloat panics on nil. *)
Definition ri_AtFloatHistogram (ToFloat : Histogram -> FloatHistogram) (it : SampleRingIterator) : option (Z * FloatHistogram) :=
  match ri_fh it with
  | Some fh => Some (ri_t it, fh)
  | None => h ← ri_h it; Some (ri_t it, ToFloat h)
  end.

(** ** A buffer is a list *)

(** [x], below 2 * [n], in a buffer of length [n]. *)
Definition ring_wrap (n x : Z) : Z := if n <=? x then x - n else x.

Lemma ring_wrap_spec n x : 0 <= x < 2 * n -> 0 <= ring_wrap n x < n /\ (ring_wrap n x = x /\ x < n \/ ring_wrap n x = x - n /\ n <= x).
Proof. intros Hx. unfold ring_wrap. destruct (Z.leb_spec n x); lia. Qed.

Lemma slot_at_nat {T} (buf : list T) j : 0 <= j -> slot_at buf j = buf !! Z.to_nat j.
Proof. intros Hj. unfold slot_at. by rewrite (proj2 (Z.ltb_ge _ _)). Qed.

(** The buffer has the elements [w], oldest first. *)
Record ring_view {T} (buf : list T) (p : positions) (w : list T) : Prop := {
  vw_len : p.2 = Z.of_nat (length w) /\ p.2 <= Z.of_nat (length buf);
  vw_head : match w with [] => p.1.2 = 0 /\ p.1.1 = -1 | _ => 0 <= p.1.2 < Z.of_nat (length buf) end;
  vw_last : w <> [] -> p.1.1 = ring_wrap (Z.of_nat (length buf)) (p.1.2 + p.2 - 1);
  vw_elem : forall k x, w !! k = Some x -> buf !! Z.to_nat (ring_wrap (Z.of_nat (length buf)) (p.1.2 + Z.of_nat k)) = Some x }.

Lemma ring_at_spec {T} (buf : list T) i f l w k x : ring_view buf (i, f, l) w -> w !! k = Some x -> ring_at buf f (Z.of_nat k) = Some x.
Proof.
  intros [[V1 V1'] V2 V3 V4] Hk. cbn [fst snd] in *. pose proof (lookup_lt_Some _ _ _ Hk) as Hlt. pose proof (V4 k x Hk) as Hx.
  destruct w as [|y w]; [done|]. destruct (ring_wrap_spec (Z.of_nat (length buf)) (f + Z.of_nat k)) as [Hw Hc]; [lia|].
  assert (Er : Z.rem (f + Z.of_nat k) (Z.of_nat (length buf)) = ring_wrap (Z.of_nat (length buf)) (f + Z.of_nat k)).
  { destruct Hc as [[-> ?]|[-> ?]]; [apply Z.rem_small; lia|]. rewrite Z.rem_mod_nonneg by lia.
    symmetry. apply Z.mod_unique with 1; lia. }
  unfold ring_at. destruct buf as [|z buf]; [cbn in V2; lia|]. by rewrite Er, slot_at_nat by lia.
Qed.

Lemma view_map {T U} (g : T -> U) buf p w : ring_view buf p w -> ring_view (map g buf) p (map g w).
Proof.
  intros [V1 V2 V3 V4]. split; rewrite ?length_map.
  - done.
  - by destruct w.
  - intros Hw. apply V3. by intros ->.
  - intros k x Hk. rewrite list_lookup_fmap in Hk. destruct (w !! k) as [y|] eqn:Ey; [|done]. injection Hk as <-.
    pose proof (V4 k y Ey) as Hy. change (map g buf) with (g <$> buf). by rewrite list_lookup_fmap, Hy.
Qed.

Lemma view_tail {T} (buf : list T) i f l y w : w <> [] -> ring_view buf (i, f, l) (y :: w) -> ring_view buf (i, ring_wrap (Z.of_nat (length buf)) (f + 1), l - 1) w.
Proof.
  intros Hw [[V1 V1'] V2 V3 V4]. cbn [fst snd length] in *. specialize (V3 ltac:(done)).
  destruct (ring_wrap_spec (Z.of_nat (length buf)) (f + 1)) as [W1 W2]; [lia|].
  destruct w as [|z w]; [done|]. cbn [length] in *. split; cbn [fst snd].
  - cbn [length]. lia.
  - done.
  - intros _. rewrite V3. unfold ring_wrap in *. repeat match goal with |- context [Z.leb ?a ?b] => destruct (Z.leb_spec a b) end; lia.
  - intros k x Hk. pose proof (lookup_lt_Some _ _ _ Hk) as Hlt. cbn [length] in Hlt. pose proof (V4 (S k) x Hk) as Hx. rewrite <-Hx. do 2 f_equal.
    unfold ring_wrap. repeat match goal with |- context [Z.leb ?a ?b] => destruct (Z.leb_spec a b) end; lia.
Qed.

Section BufferSpec.
  Context {T : Type} (zero : T) (time : T -> option Z) (tm : T -> Z).

(** The elements that are not older than [tmin], and what follows them. *)
Fixpoint drop_before (tmin : Z) (w : list T) : list T :=
  match w with [] => [] | x :: w' => if tm x <? tmin then drop_before tmin w' else w end.

Definition timed (w : list T) : Prop := Forall (fun x => time x = Some (tm x)) w.

Lemma free_head_spec buf i tmin w : forall f l fuel, ring_view buf (i, f, l) w -> timed w -> (length w <= fuel)%nat -> (exists x, last w = Some x /\ tmin <= tm x) ->
  exists f' l', free_head time fuel buf tmin f l = Some (f', l') /\ ring_view buf (i, f', l') (drop_before tmin w) /\ drop_before tmin w <> [].
Proof.
  induction w as [|x w IH]; intros f l fuel Hv Ht Hf (z & Hz & Hlast); [done|]. destruct fuel as [|fuel]; [cbn in Hf; lia|].
  apply Forall_cons in Ht as [Hx Ht]. cbn [free_head drop_before]. pose proof Hv as [[V1 V1'] V2 V3 V4]. cbn [fst snd] in *.
  pose proof (V4 O x eq_refl) as Hx0. rewrite Z.add_0_r in Hx0. unfold ring_wrap in Hx0 at 1. rewrite (proj2 (Z.leb_gt _ _)) in Hx0 by lia.
  rewrite slot_at_nat by lia. rewrite Hx0. cbn [mbind option_bind]. rewrite Hx. cbn [mbind option_bind].
  destruct (Z.ltb_spec (tm x) tmin) as [Hlt|Hge]; [|by exists f, l].
  destruct w as [|y w]; [cbn in Hz; injection Hz as <-; lia|].
  assert (Hne : y :: w <> []) by done. pose proof (view_tail _ _ _ _ _ _ Hne Hv) as Hv'. unfold ring_wrap in Hv'. apply IH; [exact Hv'|done|cbn in *; lia|by exists z].
Qed.

Lemma drop_before_app tmin w s : tmin <= tm s -> drop_before tmin (w ++ [s]) = drop_before tmin w ++ [s].
Proof. intros Hs. induction w as [|x w IH]; cbn; [by rewrite (proj2 (Z.ltb_ge _ _))|]. by destruct (_ <? _). Qed.

Lemma ring_room_view buf i f l w s : ring_view buf (i, f, l) w ->
  exists buf' i' f', ring_room zero buf (i, f, l) = (buf', i', f') /\ 0 <= i' < Z.of_nat (length buf') /\ ring_view (<[Z.to_nat i' := s]> buf') (i', f', l + 1) (w ++ [s]).
Proof.
  intros [[V1 V1'] V2 V3 V4]. cbn [fst snd] in *. unfold ring_room.
  assert (Hb : exists b, (match buf with [] => replicate 16 zero | _ => buf end) = b /\ (0 < length b)%nat /\ l <= Z.of_nat (length b) /\
    match w with [] => f = 0 /\ i = -1 | _ => 0 <= f < Z.of_nat (length b) end /\ (w <> [] -> b = buf)).
  { destruct buf as [|z buf]; eexists; (split; [reflexivity|]); cbn [length replicate] in *; [|split; [lia|]; split; [lia|]; split; [by destruct w|done]].
    destruct w; [|lia]. split; [lia|]. split; [lia|]. by split. }
  destruct Hb as (b & -> & Hb0 & Hbl & Hbf & Hbw). clear V1' V2.
  destruct (Z.eqb_spec (Z.of_nat (length b)) l) as [El|El].
  - destruct w as [|y w]; [cbn in V1; lia|]. specialize (Hbw ltac:(done)) as ->. eexists _, _, _. split; [reflexivity|].
    assert (Hlen : length (take (Z.to_nat f) buf ++ replicate (length buf) zero ++ drop (Z.to_nat f) buf) = (2 * length buf)%nat)
      by (rewrite !length_app, length_take, length_replicate, length_drop; lia).
    rewrite Hlen. split; [lia|]. split; cbn [fst snd]; rewrite ?length_insert, ?Hlen, ?length_app.
    + cbn [length] in *. lia.
    + destruct (y :: w) eqn:E; [done|]. cbn. lia.
    + intros _. unfold ring_wrap. destruct (Z.leb_spec (Z.of_nat (2 * length buf)) (f + Z.of_nat (length buf) + (l + 1) - 1)); lia.
    + intros k x Hk. destruct (decide (k = length (y :: w))) as [->|Hne].
      * rewrite lookup_app_r in Hk by lia. rewrite Nat.sub_diag in Hk. injection Hk as <-.
        replace (Z.to_nat (ring_wrap (Z.of_nat (2 * length buf)) (f + Z.of_nat (length buf) + Z.of_nat (length (y :: w))))) with (Z.to_nat f)
          by (unfold ring_wrap; match goal with |- context [Z.leb ?a ?b] => destruct (Z.leb_spec a b) end; lia).
        apply list_lookup_insert_eq. rewrite Hlen. lia.
      * pose proof (lookup_lt_Some _ _ _ Hk) as Hlt. rewrite length_app in Hlt. cbn [length] in Hlt, Hne, V1. rewrite lookup_app_l in Hk by (cbn; lia).
        pose proof (V4 k x Hk) as Hx. unfold ring_wrap in Hx |- *.
        destruct (Z.leb_spec (Z.of_nat (length buf)) (f + Z.of_nat k)) as [Hge|Hl2].
        -- rewrite (proj2 (Z.leb_le _ _)) by lia. rewrite list_lookup_insert_ne by lia. rewrite lookup_app_l by (rewrite length_take; lia).
           rewrite lookup_take_lt by lia. rewrite <-Hx. f_equal. lia.
        -- rewrite (proj2 (Z.leb_gt _ _)) by lia. rewrite list_lookup_insert_ne by lia. rewrite lookup_app_r by (rewrite length_take; lia).
           rewrite lookup_app_r by (rewrite length_take, length_replicate; lia). rewrite length_take, length_replicate, lookup_drop. rewrite <-Hx. f_equal. lia.
  - eexists _, _, _. split; [reflexivity|]. cbv zeta.
    assert (Hi : 0 <= (if Z.of_nat (length b) <=? i + 1 then i + 1 - Z.of_nat (length b) else i + 1) < Z.of_nat (length b) /\
      (if Z.of_nat (length b) <=? i + 1 then i + 1 - Z.of_nat (length b) else i + 1) = ring_wrap (Z.of_nat (length b)) (f + l)).
    { destruct w as [|y w].
      - destruct Hbf as [-> ->]. cbn in V1. subst l. unfold ring_wrap. change (-1 + 1) with 0. rewrite !(proj2 (Z.leb_gt _ _)) by lia. lia.
      - cbn [length] in V1. cbv beta iota in Hbf. rewrite <-(Hbw ltac:(done)) in V3. rewrite (V3 ltac:(done)). unfold ring_wrap. repeat match goal with |- context [Z.leb ?a ?b] => destruct (Z.leb_spec a b) end; lia. }
    destruct Hi as [Hi1 Hi2]. split; [done|]. split; cbn [fst snd]; rewrite ?length_insert, ?length_app.
    + cbn [length]. lia.
    + destruct w; cbn [app]; [cbn in V1|]; lia.
    + intros _. rewrite Hi2. f_equal. lia.
    + intros k x Hk. destruct (decide (k = length w)) as [->|Hne].
      * rewrite lookup_app_r in Hk by lia. rewrite Nat.sub_diag in Hk. injection Hk as <-. rewrite Hi2, V1. apply list_lookup_insert_eq.
        rewrite <-V1. lia.
      * pose proof (lookup_lt_Some _ _ _ Hk) as Hlt. rewrite length_app in Hlt. cbn [length] in Hlt. rewrite lookup_app_l in Hk by lia.
        assert (Hw : w <> []) by (intros ->; cbn in *; lia). rewrite <-(Hbw Hw) in V4. pose proof (V4 k x Hk) as Hx.
        rewrite list_lookup_insert_ne; [done|]. rewrite Hi2. destruct w; [done|]. unfold ring_wrap.
        repeat match goal with |- context [Z.leb ?a ?b] => destruct (Z.leb_spec a b) end; lia.
Qed.

(** A sample is added, and what is older than the range is dropped. *)
Lemma ring_put_spec buf p w s delta : ring_view buf p w -> timed w -> time s = Some (tm s) -> 0 <= delta -> i64 (tm s - delta) = tm s - delta ->
  exists buf' p', ring_put zero time s buf delta p = Some (buf', p') /\ ring_view buf' p' (drop_before (tm s - delta) (w ++ [s])).
Proof.
  intros Hv Ht Hs Hd Hi. destruct p as [[i f] l]. unfold ring_put. destruct (ring_room_view buf i f l w s Hv) as (b & i' & f' & Eg & Hib & Hv').
  rewrite Eg. cbn [snd]. rewrite slot_at_nat by lia. destruct (lookup_lt_is_Some_2 b (Z.to_nat i')) as [x Hx]; [lia|]. rewrite Hx. cbn [mbind option_bind].
  rewrite Hs. cbn [mbind option_bind]. rewrite Hi.
  destruct (free_head_spec _ i' (tm s - delta) (w ++ [s]) f' (l + 1) (S (length (<[Z.to_nat i' := s]> b))) Hv') as (f2 & l2 & -> & Hv2 & _).
  - apply Forall_app. split; [done|by repeat constructor].
  - destruct Hv' as [[V1 V1'] _ _ _]. cbn [fst snd] in *. lia.
  - exists s. split; [by rewrite last_snoc|lia].
  - cbn [mbind option_bind]. by eexists _, _.
Qed.

Lemma genericReduceDelta_spec buf p w z delta : ring_view buf p w -> timed w -> last w = Some z -> 0 <= delta -> i64 (tm z - delta) = tm z - delta ->
  exists p', genericReduceDelta time buf delta p = Some p' /\ ring_view buf p' (drop_before (tm z - delta) w) /\ drop_before (tm z - delta) w <> [].
Proof.
  intros Hv Ht Hz Hd Hi. destruct p as [[i f] l]. unfold genericReduceDelta. pose proof Hv as [[V1 V1'] V2 V3 V4]. cbn [fst snd] in *.
  destruct w as [|y w]; [done|]. specialize (V3 ltac:(done)). cbn [length] in *. rewrite last_lookup in Hz. cbn [length pred] in Hz.
  pose proof (V4 _ _ Hz) as Hx. replace (f + Z.of_nat (length w)) with (f + l - 1) in Hx by lia. rewrite <-V3 in Hx.
  destruct (ring_wrap_spec (Z.of_nat (length buf)) (f + l - 1)) as [Hw _]; [lia|]. rewrite slot_at_nat by lia. rewrite Hx. cbn [mbind option_bind].
  assert (Htz : time z = Some (tm z)) by (unfold timed in Ht; rewrite Forall_forall in Ht; apply Ht; by eapply list_elem_of_lookup_2).
  rewrite Htz. cbn [mbind option_bind]. rewrite Hi.
  destruct (free_head_spec buf i (tm z - delta) (y :: w) f l (S (length buf)) Hv Ht) as (f2 & l2 & -> & Hv2 & Hne); [cbn; lia| |].
  - exists z. split; [by rewrite last_lookup|lia].
  - cbn [mbind option_bind]. by eexists.
Qed.

Lemma ring_copy_spec buf i f l w : ring_view (T := T) buf (i, f, l) w -> ring_copy buf f l = w.
Proof.
  intros [[V1 V1'] V2 V3 V4]. cbn [fst snd] in *. apply list_eq. intros k. unfold ring_copy. destruct w as [|y w].
  - destruct V2 as [-> ->]. cbn in V1. subst l. rewrite (proj2 (Z.ltb_ge _ _)) by lia. by destruct k.
  - destruct (decide (k < length (y :: w))%nat) as [Hk|Hk].
    + destruct (lookup_lt_is_Some_2 (y :: w) k Hk) as [x Hx]. rewrite Hx. pose proof (V4 k x Hx) as Hb. unfold ring_wrap in Hb.
      destruct (Z.ltb_spec (Z.of_nat (length buf)) (f + l)) as [Hlt|Hge].
      * destruct (Z.leb_spec (Z.of_nat (length buf)) (f + Z.of_nat k)) as [H2|H2].
        -- rewrite lookup_app_r by (rewrite length_take, length_drop; lia). rewrite length_take, length_drop, lookup_take_lt by lia. rewrite <-Hb. f_equal. lia.
        -- rewrite lookup_app_l by (rewrite length_take, length_drop; lia). rewrite lookup_take_lt by lia. rewrite lookup_drop, <-Hb. f_equal. lia.
      * rewrite (proj2 (Z.leb_gt _ _)) in Hb by lia. cbn [Z.to_nat take]. rewrite app_nil_r, lookup_take_lt by lia. rewrite lookup_drop, <-Hb. f_equal. lia.
    + rewrite (lookup_ge_None_2 (y :: w)) by lia. apply lookup_ge_None_2. 
      destruct (Z.ltb_spec (Z.of_nat (length buf)) (f + l)); cbn [Z.to_nat]; rewrite length_app, !length_take, length_drop; cbn [length] in *; lia.
Qed.
End BufferSpec.

(** ** The ring is a list *)

Definition ring_holds (r : sampleRing) (w : list ring_sample) : Prop :=
  match r_bufInUse r with
  | noBuf => w = [] /\ r_iBuf r = [] /\ r_pos r = (-1, 0, 0)
  | iBuf => w <> [] /\ ring_view (r_iBuf r) (r_pos r) (map Some w)
  | fBuf => w <> [] /\ r_iBuf r = [] /\ exists l, w = map SF l /\ ring_view (r_fBuf r) (r_pos r) l
  | hBuf => w <> [] /\ r_iBuf r = [] /\ exists l, w = map SH l /\ ring_view (r_hBuf r) (r_pos r) l
  | fhBuf => w <> [] /\ r_iBuf r = [] /\ exists l, w = map SFH l /\ ring_view (r_fhBuf r) (r_pos r) l
  end.

(** The samples after one more. *)
Definition window_add (delta : Z) (w : list ring_sample) (s : ring_sample) : list ring_sample := drop_before rs_T (rs_T s - delta) (w ++ [s]).

Lemma drop_before_map {T U} (g : T -> U) (tm : U -> Z) tmin w : drop_before tm tmin (map g w) = map g (drop_before (fun x => tm (g x)) tmin w).
Proof. induction w as [|x w IH]; cbn; [done|]. by destruct (_ <? _). Qed.

Lemma window_add_snoc delta w s : 0 <= delta -> window_add delta w s = drop_before rs_T (rs_T s - delta) w ++ [s].
Proof. intros Hd. apply drop_before_app. lia. Qed.

Lemma window_add_nonempty delta w s : 0 <= delta -> window_add delta w s <> [].
Proof. intros Hd. rewrite window_add_snoc by done. by destruct (drop_before _ _ _). Qed.

Lemma window_add_map {T} (g : T -> ring_sample) (tm : T -> Z) delta l s : (forall x, rs_T (g x) = tm x) ->
  window_add delta (map g l) (g s) = map g (drop_before tm (tm s - delta) (l ++ [s])).
Proof.
  intros Hg. unfold window_add. change [g s] with (map g [s]). rewrite <-map_app, drop_before_map, Hg. f_equal. clear -Hg.
  induction (l ++ [s]) as [|x l' IH]; cbn; [done|]. by rewrite Hg, IH.
Qed.

Section Puts.
  Variable r : sampleRing.
  Hypothesis Hdelta : 0 <= r_delta r.
  (** No timestamp is so small that the range below it wraps around. *)
  Notation fits t := (i64 (t - r_delta r) = t - r_delta r).

Lemma all_timed {T} (time : T -> option Z) tm (l : list T) : (forall x, time x = Some (tm x)) -> timed time tm l.
Proof. intros Ht. apply Forall_forall. intros x _. apply Ht. Qed.

Lemma put_f_spec l s : ring_view (r_fBuf r) (r_pos r) l -> fits (fs_t s) ->
  exists r', put_f s r = Some r' /\ ring_view (r_fBuf r') (r_pos r') (drop_before fs_t (fs_t s - r_delta r) (l ++ [s])) /\
    r_bufInUse r' = r_bufInUse r /\ r_iBuf r' = r_iBuf r /\ r_delta r' = r_delta r.
Proof.
  intros Hv Hf. destruct (ring_put_spec zero_f f_time fs_t _ _ l s (r_delta r) Hv (all_timed _ _ _ (fun _ => eq_refl)) eq_refl Hdelta Hf) as (b & [[i f] n] & E & Hv').
  unfold put_f. rewrite E. eexists. by split.
Qed.

Lemma put_h_spec l s : ring_view (r_hBuf r) (r_pos r) l -> fits (hs_t s) ->
  exists r', put_h s r = Some r' /\ ring_view (r_hBuf r') (r_pos r') (drop_before hs_t (hs_t s - r_delta r) (l ++ [s])) /\
    r_bufInUse r' = r_bufInUse r /\ r_iBuf r' = r_iBuf r /\ r_delta r' = r_delta r.
Proof.
  intros Hv Hf. destruct (ring_put_spec zero_h h_time hs_t _ _ l s (r_delta r) Hv (all_timed _ _ _ (fun _ => eq_refl)) eq_refl Hdelta Hf) as (b & [[i f] n] & E & Hv').
  unfold put_h. rewrite E. eexists. by split.
Qed.

Lemma put_fh_spec l s : ring_view (r_fhBuf r) (r_pos r) l -> fits (fhs_t s) ->
  exists r', put_fh s r = Some r' /\ ring_view (r_fhBuf r') (r_pos r') (drop_before fhs_t (fhs_t s - r_delta r) (l ++ [s])) /\
    r_bufInUse r' = r_bufInUse r /\ r_iBuf r' = r_iBuf r /\ r_delta r' = r_delta r.
Proof.
  intros Hv Hf. destruct (ring_put_spec zero_fh fh_time fhs_t _ _ l s (r_delta r) Hv (all_timed _ _ _ (fun _ => eq_refl)) eq_refl Hdelta Hf) as (b & [[i f] n] & E & Hv').
  unfold put_fh. rewrite E. eexists. by split.
Qed.

Definition opt_tm (s : option ring_sample) : Z := from_option rs_T 0 s.

Lemma opt_timed w : timed opt_time opt_tm (map Some w).
Proof. apply Forall_map, Forall_forall. by intros x _. Qed.

Lemma put_i_spec w s : ring_view (r_iBuf r) (r_pos r) (map Some w) -> fits (rs_T s) -> r_bufInUse r = iBuf ->
  exists r', put_i s r = Some r' /\ ring_holds r' (window_add (r_delta r) w s) /\ r_delta r' = r_delta r.
Proof.
  intros Hv Hf Hi. destruct (ring_put_spec None opt_time opt_tm _ _ (map Some w) (Some s) (r_delta r) Hv (opt_timed w) eq_refl Hdelta Hf) as (b & [[i f] n] & E & Hv').
  unfold put_i. rewrite E. eexists. split; [reflexivity|]. split; [|done]. unfold ring_holds. cbn [with_i r_bufInUse]. rewrite Hi.
  split; [by apply window_add_nonempty|]. cbn [opt_tm from_option] in Hv'. change [Some s] with (map Some [s]) in Hv'. rewrite <-map_app, drop_before_map in Hv'. exact Hv'.
Qed.
End Puts.

(** The specialised buffers. *)
Lemma ring_holds_f r l : r_bufInUse r = fBuf -> l <> [] -> r_iBuf r = [] -> ring_view (r_fBuf r) (r_pos r) l -> ring_holds r (map SF l).
Proof. intros E Hl Hi Hv. unfold ring_holds. rewrite E. split; [by destruct l|]. split; [done|]. by exists l. Qed.
Lemma ring_holds_h r l : r_bufInUse r = hBuf -> l <> [] -> r_iBuf r = [] -> ring_view (r_hBuf r) (r_pos r) l -> ring_holds r (map SH l).
Proof. intros E Hl Hi Hv. unfold ring_holds. rewrite E. split; [by destruct l|]. split; [done|]. by exists l. Qed.
Lemma ring_holds_fh r l : r_bufInUse r = fhBuf -> l <> [] -> r_iBuf r = [] -> ring_view (r_fhBuf r) (r_pos r) l -> ring_holds r (map SFH l).
Proof. intros E Hl Hi Hv. unfold ring_holds. rewrite E. split; [by destruct l|]. split; [done|]. by exists l. Qed.

Lemma drop_before_nonempty {T} (tm : T -> Z) delta l s : 0 <= delta -> drop_before tm (tm s - delta) (l ++ [s]) <> [].
Proof. intros Hd. rewrite drop_before_app by lia. by destruct (drop_before _ _ _). Qed.

Lemma add_f r l s : 0 <= r_delta r -> i64 (fs_t s - r_delta r) = fs_t s - r_delta r -> r_iBuf r = [] -> ring_view (r_fBuf r) (r_pos r) l -> r_bufInUse r = fBuf ->
  exists r', put_f s r = Some r' /\ ring_holds r' (window_add (r_delta r) (map SF l) (SF s)) /\ r_delta r' = r_delta r.
Proof.
  intros Hd Hf Hi Hv Hu. destruct (put_f_spec r Hd l s Hv Hf) as (r' & E & Hv' & U & I & D). exists r'. split; [done|]. split; [|done].
  rewrite (window_add_map SF fs_t) by done. apply ring_holds_f; [by rewrite U|by apply drop_before_nonempty|by rewrite I|done].
Qed.
Lemma add_h r l s : 0 <= r_delta r -> i64 (hs_t s - r_delta r) = hs_t s - r_delta r -> r_iBuf r = [] -> ring_view (r_hBuf r) (r_pos r) l -> r_bufInUse r = hBuf ->
  exists r', put_h s r = Some r' /\ ring_holds r' (window_add (r_delta r) (map SH l) (SH s)) /\ r_delta r' = r_delta r.
Proof.
  intros Hd Hf Hi Hv Hu. destruct (put_h_spec r Hd l s Hv Hf) as (r' & E & Hv' & U & I & D). exists r'. split; [done|]. split; [|done].
  rewrite (window_add_map SH hs_t) by done. apply ring_holds_h; [by rewrite U|by apply drop_before_nonempty|by rewrite I|done].
Qed.
Lemma add_fh r l s : 0 <= r_delta r -> i64 (fhs_t s - r_delta r) = fhs_t s - r_delta r -> r_iBuf r = [] -> ring_view (r_fhBuf r) (r_pos r) l -> r_bufInUse r = fhBuf ->
  exists r', put_fh s r = Some r' /\ ring_holds r' (window_add (r_delta r) (map SFH l) (SFH s)) /\ r_delta r' = r_delta r.
Proof.
  intros Hd Hf Hi Hv Hu. destruct (put_fh_spec r Hd l s Hv Hf) as (r' & E & Hv' & U & I & D). exists r'. split; [done|]. split; [|done].
  rewrite (window_add_map SFH fhs_t) by done. apply ring_holds_fh; [by rewrite U|by apply drop_before_nonempty|by rewrite I|done].
Qed.

(** An empty view of any buffer. *)
Lemma view_nil {T} (buf : list T) : ring_view buf (-1, 0, 0) [].
Proof. split; cbn; [lia|done|done|by intros k x Hk]. Qed.

Lemma to_iBuf_spec r w : ring_holds r w -> r_bufInUse r <> noBuf ->
  w <> [] /\ ring_view (r_iBuf (to_iBuf r)) (r_pos (to_iBuf r)) (map Some w) /\ r_bufInUse (to_iBuf r) = iBuf /\ r_delta (to_iBuf r) = r_delta r.
Proof.
  unfold ring_holds, to_iBuf. intros Hr Hn. destruct (r_bufInUse r); [done|by destruct Hr|..]; destruct Hr as (Hw & Hi & l & -> & Hv); cbn;
    (split; [done|]; split; [|done]; rewrite Hi, map_map; cbn; by apply (view_map (fun s => Some _))).
Qed.

Definition other (s : ring_sample) : bool := match s with SO _ => true | _ => false end.

(** sampleRing.add: the window with one more sample. *)
Lemma ring_add_spec r w s : ring_holds r w -> 0 <= r_delta r -> i64 (rs_T s - r_delta r) = rs_T s - r_delta r ->
  if other s && bool_decide (w = []) then ring_add s r = Some r
  else exists r', ring_add s r = Some r' /\ ring_holds r' (window_add (r_delta r) w s) /\ r_delta r' = r_delta r.
Proof.
  intros Hr Hd Hf.
  assert (Hmixed : w <> [] -> r_bufInUse r <> noBuf -> exists r', put_i s (to_iBuf r) = Some r' /\ ring_holds r' (window_add (r_delta r) w s) /\ r_delta r' = r_delta r).
  { intros Hw Hn. destruct (to_iBuf_spec r w Hr Hn) as (_ & Hv & U & D). rewrite <-D in Hd, Hf. destruct (put_i_spec _ Hd w s Hv Hf U) as (r' & E & H1 & H2).
    rewrite D in H1, H2. by exists r'. }
  pose proof Hr as Hr'. unfold ring_holds in Hr'. unfold ring_add. destruct (r_bufInUse r) eqn:Eu.
  - destruct Hr' as (-> & Hi & Hp). rewrite bool_decide_eq_true_2, andb_true_r by done. destruct s as [s|s|s|s]; cbn [other rs_T] in *; [..|done].
    + apply (add_f (in_use fBuf r) []); try done. cbn. unfold r_pos in *. cbn in *. rewrite Hp. apply view_nil.
    + apply (add_h (in_use hBuf r) []); try done. cbn. unfold r_pos in *. cbn in *. rewrite Hp. apply view_nil.
    + apply (add_fh (in_use fhBuf r) []); try done. cbn. unfold r_pos in *. cbn in *. rewrite Hp. apply view_nil.
  - destruct Hr' as (Hw & Hv). rewrite (bool_decide_eq_false_2 _ Hw), andb_false_r.
    assert (Ho : put_i s (to_iBuf r) = put_i s r) by (unfold to_iBuf; rewrite Eu; destruct r; cbn in Eu; by subst). rewrite <-Ho.
    destruct s; by apply Hmixed.
  - destruct Hr' as (Hw & Hi & l & -> & Hv). rewrite (bool_decide_eq_false_2 _ Hw), andb_false_r. destruct s as [s|s|s|s]; try by apply Hmixed. by apply add_f.
  - destruct Hr' as (Hw & Hi & l & -> & Hv). rewrite (bool_decide_eq_false_2 _ Hw), andb_false_r. destruct s as [s|s|s|s]; try by apply Hmixed. by apply add_h.
  - destruct Hr' as (Hw & Hi & l & -> & Hv). rewrite (bool_decide_eq_false_2 _ Hw), andb_false_r. destruct s as [s|s|s|s]; try by apply Hmixed. by apply add_fh.
Qed.

(** The methods for one kind are add. *)
Lemma in_use_idem t r : in_use t (in_use t r) = in_use t r.
Proof. by destruct r. Qed.

Lemma ring_addF_add s r : ring_addF s r = ring_add (SF s) r.
Proof. unfold ring_addF, ring_add. destruct (r_bufInUse r) eqn:E; try done. unfold put_f, r_pos. cbn. by destruct (ring_put _ _ _ _ _ _). Qed.
Lemma ring_addH_add s r : ring_addH s r = ring_add (SH s) r.
Proof. unfold ring_addH, ring_add. destruct (r_bufInUse r) eqn:E; try done. unfold put_h, r_pos. cbn. by destruct (ring_put _ _ _ _ _ _). Qed.
Lemma ring_addFH_add s r : ring_addFH s r = ring_add (SFH s) r.
Proof. unfold ring_addFH, ring_add. destruct (r_bufInUse r) eqn:E; try done. unfold put_fh, r_pos. cbn. by destruct (ring_put _ _ _ _ _ _). Qed.

(** ** Lowering the range *)

(** The samples after the range was lowered: the newest is where it was. *)
Definition window_reduce (delta : Z) (w : list ring_sample) : list ring_sample :=
  match last w with Some z => drop_before rs_T (rs_T z - delta) w | None => [] end.

Lemma last_map {T U} (g : T -> U) l : last (map g l) = g <$> last l.
Proof. exact (fmap_last g l). Qed.

Lemma window_reduce_map {T} (g : T -> ring_sample) (tm : T -> Z) delta l z : (forall x, rs_T (g x) = tm x) -> last l = Some z ->
  window_reduce delta (map g l) = map g (drop_before tm (tm z - delta) l).
Proof.
  intros Hg Hz. unfold window_reduce. rewrite last_map, Hz. cbn. rewrite drop_before_map, Hg. f_equal. clear -Hg.
  induction l as [|x l' IH]; cbn; [done|]. by rewrite Hg, IH.
Qed.

Lemma last_nonempty {T} (l : list T) : l <> [] -> exists z, last l = Some z.
Proof. destruct (last l) as [z|] eqn:E; [by exists z|]. by apply last_None in E. Qed.

Lemma ring_length r w : ring_holds r w -> r_l r = Z.of_nat (length w).
Proof.
  unfold ring_holds. destruct (r_bufInUse r); [intros (-> & _ & E)|intros (_ & [[V _] _ _ _])|intros (_ & _ & l & -> & [[V _] _ _ _])..];
    [unfold r_pos in E; by injection E|unfold r_pos in V; cbn in V; by rewrite length_map in V|unfold r_pos in V; cbn in V; by rewrite length_map..].
Qed.

Definition reducible (delta : Z) (w : list ring_sample) : Prop := match last w with Some z => i64 (rs_T z - delta) = rs_T z - delta | None => True end.

Lemma reduceDelta_spec r w delta : ring_holds r w -> 0 <= delta -> reducible delta w ->
  if r_delta r <? delta then reduceDelta delta r = Some (false, r)
  else exists r', reduceDelta delta r = Some (true, r') /\ ring_holds r' (window_reduce delta w) /\ r_delta r' = delta.
Proof.
  intros Hr Hd Hf. unfold reduceDelta. destruct (r_delta r <? delta); [done|]. set (r1 := mk_sampleRing delta _ _ _ _ _ _ _ _).
  pose proof (ring_length r w Hr : r_l r1 = _) as Hl0.
  destruct w as [|x w].
  { rewrite Hl0. cbn [Z.eqb]. exists r1. split; [done|]. split; [|done]. exact Hr. }
  rewrite (proj2 (Z.eqb_neq _ 0)) by (rewrite Hl0; cbn; lia). unfold ring_holds in Hr. unfold reducible in Hf. change (r_bufInUse r1) with (r_bufInUse r).
  change (r_iBuf r1) with (r_iBuf r). change (r_fBuf r1) with (r_fBuf r). change (r_hBuf r1) with (r_hBuf r). change (r_fhBuf r1) with (r_fhBuf r).
  change (r_pos r1) with (r_pos r).
  destruct (last_nonempty (x :: w)) as [z Hz]; [done|]. rewrite Hz in Hf.
  destruct (r_bufInUse r) eqn:Eu.
  - by destruct Hr.
  - destruct Hr as (_ & Hv). destruct (genericReduceDelta_spec opt_time opt_tm _ _ _ (Some z) delta Hv (opt_timed _)) as ([[i f] l] & -> & Hv' & _); [by rewrite last_map, Hz|done|done|].
    cbn [mbind option_bind]. eexists. split; [reflexivity|]. split; [|done]. unfold ring_holds. cbn. rewrite drop_before_map in Hv'.
    unfold window_reduce. rewrite Hz. split; [|exact Hv']. rewrite last_Some in Hz. destruct Hz as [l' ->]. by apply drop_before_nonempty.
  - destruct Hr as (_ & Hi & l & El & Hv). rewrite El, last_map in Hz. destruct (last l) as [y|] eqn:Ey; [|done]. injection Hz as <-.
    destruct (genericReduceDelta_spec f_time fs_t _ _ _ y delta Hv (all_timed _ _ _ (fun _ => eq_refl)) Ey Hd Hf) as ([[i f] n] & -> & Hv' & Hne).
    cbn [mbind option_bind]. eexists. split; [reflexivity|]. split; [|done]. rewrite El, (window_reduce_map SF fs_t _ _ y) by done. by apply ring_holds_f.
  - destruct Hr as (_ & Hi & l & El & Hv). rewrite El, last_map in Hz. destruct (last l) as [y|] eqn:Ey; [|done]. injection Hz as <-.
    destruct (genericReduceDelta_spec h_time hs_t _ _ _ y delta Hv (all_timed _ _ _ (fun _ => eq_refl)) Ey Hd Hf) as ([[i f] n] & -> & Hv' & Hne).
    cbn [mbind option_bind]. eexists. split; [reflexivity|]. split; [|done]. rewrite El, (window_reduce_map SH hs_t _ _ y) by done. by apply ring_holds_h.
  - destruct Hr as (_ & Hi & l & El & Hv). rewrite El, last_map in Hz. destruct (last l) as [y|] eqn:Ey; [|done]. injection Hz as <-.
    destruct (genericReduceDelta_spec fh_time fhs_t _ _ _ y delta Hv (all_timed _ _ _ (fun _ => eq_refl)) Ey Hd Hf) as ([[i f] n] & -> & Hv' & Hne).
    cbn [mbind option_bind]. eexists. split; [reflexivity|]. split; [|done]. rewrite El, (window_reduce_map SFH fhs_t _ _ y) by done. by apply ring_holds_fh.
Qed.

Lemma ring_reset_holds r : ring_holds (ring_reset r) [].
Proof. by split. Qed.

Lemma newSampleRing_holds delta size typ : ring_holds (newSampleRing delta size typ) [] /\ r_delta (newSampleRing delta size typ) = delta.
Proof. by destruct typ. Qed.

(** ** Reading *)

Lemma ring_at_map {T} (g : T -> ring_sample) (buf : list T) p l k x : ring_view buf p l -> map g l !! k = Some x ->
  exists y, x = g y /\ ring_at buf p.1.2 (Z.of_nat k) = Some y.
Proof.
  intros Hv Hk. destruct p as [[i f] n]. rewrite list_lookup_fmap in Hk. destruct (l !! k) as [y|] eqn:Ey; [|done]. injection Hk as <-.
  exists y. split; [done|]. exact (ring_at_spec _ _ _ _ _ _ _ Hv Ey).
Qed.

Lemma ring_at_mixed r w k x : ring_view (r_iBuf r) (r_pos r) (map Some w) -> w !! k = Some x -> ring_at (r_iBuf r) (r_f r) (Z.of_nat k) = Some (Some x).
Proof. intros Hv Hk. eapply (ring_at_spec (r_iBuf r) (r_i r) (r_f r) (r_l r)); [exact Hv|]. by rewrite list_lookup_fmap, Hk. Qed.

Lemma ring_get_spec r w k x : ring_holds r w -> w !! k = Some x -> ring_get r (Z.of_nat k) = Some (Some x).
Proof.
  unfold ring_holds, ring_get. destruct (r_bufInUse r); [by intros (-> & _)|..].
  - intros (_ & Hv) Hk. by apply (ring_at_mixed r w).
  - intros (_ & _ & l & -> & Hv) Hk. destruct (ring_at_map _ _ _ _ _ _ Hv Hk) as (y & -> & E). cbn in E. by rewrite E.
  - intros (_ & _ & l & -> & Hv) Hk. destruct (ring_at_map _ _ _ _ _ _ Hv Hk) as (y & -> & E). cbn in E. by rewrite E.
  - intros (_ & _ & l & -> & Hv) Hk. destruct (ring_at_map _ _ _ _ _ _ Hv Hk) as (y & -> & E). cbn in E. by rewrite E.
Qed.

Lemma nthLast_spec r w n : ring_holds r w -> (0 < n)%nat ->
  nthLast r (Z.of_nat n) = Some (match reverse w !! pred n with Some x => (Some x, true) | None => (Some (SF zero_f), false) end).
Proof.
  intros Hr Hn. unfold nthLast. rewrite (ring_length r w Hr). destruct (Z.ltb_spec (Z.of_nat (length w)) (Z.of_nat n)) as [Hlt|Hge].
  - rewrite lookup_ge_None_2; [done|]. rewrite length_reverse. lia.
  - rewrite reverse_lookup by lia. replace (length w - S (pred n))%nat with (length w - n)%nat by lia.
    destruct (lookup_lt_is_Some_2 w (length w - n)) as [x Hx]; [lia|]. rewrite Hx.
    replace (Z.of_nat (length w) - Z.of_nat n) with (Z.of_nat (length w - n)) by lia. by rewrite (ring_get_spec r w _ x Hr Hx).
Qed.

Lemma ring_samples_spec r w : ring_holds r w -> ring_samples r = map Some w.
Proof.
  unfold ring_holds, ring_samples. destruct (r_bufInUse r).
  - intros (-> & _ & E). unfold r_pos in E. by injection E as _ _ ->.
  - intros (_ & Hv). exact (ring_copy_spec _ _ _ _ _ Hv).
  - intros (_ & _ & l & -> & Hv). unfold r_pos in Hv. by rewrite (ring_copy_spec _ _ _ _ _ Hv), map_map.
  - intros (_ & _ & l & -> & Hv). unfold r_pos in Hv. by rewrite (ring_copy_spec _ _ _ _ _ Hv), map_map.
  - intros (_ & _ & l & -> & Hv). unfold r_pos in Hv. by rewrite (ring_copy_spec _ _ _ _ _ Hv), map_map.
Qed.

(** What the accessors of the iterator say on a sample. *)
Definition ri_reads (it : SampleRingIterator) (x : ring_sample) : Prop :=
  ri_st it = rs_ST x /\ ri_t it = rs_T x /\
  match x with
  | SF s => ri_f it = fs_f s
  | SH s => ri_h it = hs_h s /\ ri_fh it = None
  | SFH s => ri_fh it = fhs_fh s
  | SO s => match sample_Type s with ValHistogram => ri_h it = s_h s /\ ri_fh it = None | ValFloatHistogram => ri_fh it = s_fh s | _ => ri_f it = s_f s end
  end.

(** A ring of integer histograms leaves the other pointer nil. *)
Definition ri_clean (r : sampleRing) (it : SampleRingIterator) : Prop := r_bufInUse r = hBuf -> ri_fh it = None.

Lemma ri_Next_spec r w it k : ring_holds r w -> ri_clean r it -> ri_i it = Z.of_nat k - 1 ->
  exists it', ri_i it' = Z.of_nat k /\ ri_clean r it' /\
    match w !! k with
    | Some x => ri_Next r it = Some (rs_Type x, it') /\ ri_reads it' x
    | None => ri_Next r it = Some (ValNone, it')
    end.
Proof.
  intros Hr Hc Hi. unfold ri_Next. rewrite (ring_length r w Hr), Hi. replace (Z.of_nat k - 1 + 1) with (Z.of_nat k) by lia.
  destruct (w !! k) as [x|] eqn:Ex.
  - pose proof (lookup_lt_Some _ _ _ Ex) as Hlt. rewrite (proj2 (Z.leb_gt _ _)) by lia. unfold ri_clean in *. unfold ring_holds in Hr.
    destruct (r_bufInUse r) eqn:Eu; [by destruct Hr as (-> & _)|..].
    + destruct Hr as (_ & Hv). rewrite (ring_at_mixed r w k x Hv Ex). cbn [mbind option_bind].
      destruct x as [s|s|s|s]; [..|destruct (sample_Type s) eqn:Es; [by unfold sample_Type in Es; destruct (s_h s), (s_fh s)|..]]; eexists; (split; [|split; [|split; [cbn; rewrite ?Es; reflexivity|]]]); try done;
        unfold ri_reads; cbn; rewrite ?Es; done.
    + destruct Hr as (_ & _ & l & -> & Hv). destruct (ring_at_map _ _ _ _ _ _ Hv Ex) as (y & -> & E). cbn in E. rewrite E. cbn [mbind option_bind].
      eexists. split; [|split; [|split; [reflexivity|]]]; done.
    + destruct Hr as (_ & _ & l & -> & Hv). destruct (ring_at_map _ _ _ _ _ _ Hv Ex) as (y & -> & E). cbn in E. rewrite E. cbn [mbind option_bind].
      eexists. split; [|split; [|split; [reflexivity|]]]; try done. split; [done|]. split; [done|]. split; [done|by apply Hc].
    + destruct Hr as (_ & _ & l & -> & Hv). destruct (ring_at_map _ _ _ _ _ _ Hv Ex) as (y & -> & E). cbn in E. rewrite E. cbn [mbind option_bind].
      eexists. split; [|split; [|split; [reflexivity|]]]; done.
  - apply lookup_ge_None in Ex. rewrite (proj2 (Z.leb_le _ _)) by lia. eexists. split; [|split; [|reflexivity]]; done.
Qed.

(** ** Sequences of operations *)

Inductive ring_op := RAdd (s : ring_sample) | RAddF (s : fSample) | RAddH (s : hSample) | RAddFH (s : fhSample) | RReduce (delta : Z) | RReset.

Definition ring_step (r : sampleRing) (op : ring_op) : option sampleRing :=
  match op with
  | RAdd s => ring_add s r
  | RAddF s => ring_addF s r
  | RAddH s => ring_addH s r
  | RAddFH s => ring_addFH s r
  | RReduce delta => snd <$> reduceDelta delta r
  | RReset => Some (ring_reset r)
  end.

Fixpoint ring_run (r : sampleRing) (ops : list ring_op) : option sampleRing :=
  match ops with [] => Some r | op :: ops => r ← ring_step r op; ring_run r ops end.

(** The specification: the range, and the samples in it. *)
Definition op_added (op : ring_op) : option ring_sample :=
  match op with RAdd s => Some s | RAddF s => Some (SF s) | RAddH s => Some (SH s) | RAddFH s => Some (SFH s) | _ => None end.

Definition window_step (st : Z * list ring_sample) (op : ring_op) : Z * list ring_sample :=
  let '(d, w) := st in
  match op with
  | RReset => (d, [])
  | RReduce d' => if d <? d' then st else (d', window_reduce d' w)
  | _ => match op_added op with Some s => if other s && bool_decide (w = []) then st else (d, window_add d w s) | None => st end
  end.

(** The ranges do not wrap around. *)
Definition ring_op_ok (st : Z * list ring_sample) (op : ring_op) : Prop :=
  match op with
  | RReset => True
  | RReduce d' => 0 <= d' /\ reducible d' st.2
  | _ => match op_added op with Some s => i64 (rs_T s - st.1) = rs_T s - st.1 | None => True end
  end.

Fixpoint ops_ok (st : Z * list ring_sample) (ops : list ring_op) : Prop :=
  match ops with [] => True | op :: ops => ring_op_ok st op /\ ops_ok (window_step st op) ops end.

Lemma ring_step_spec r d w op : ring_holds r w -> r_delta r = d -> 0 <= d -> ring_op_ok (d, w) op ->
  exists r', ring_step r op = Some r' /\ ring_holds r' (window_step (d, w) op).2 /\ r_delta r' = (window_step (d, w) op).1 /\ 0 <= (window_step (d, w) op).1.
Proof.
  intros Hr <- Hd Hok.
  assert (Hadd : forall s, i64 (rs_T s - r_delta r) = rs_T s - r_delta r ->
    exists r', ring_add s r = Some r' /\ ring_holds r' (if other s && bool_decide (w = []) then (r_delta r, w) else (r_delta r, window_add (r_delta r) w s)).2 /\
      r_delta r' = (if other s && bool_decide (w = []) then (r_delta r, w) else (r_delta r, window_add (r_delta r) w s)).1 /\
      0 <= (if other s && bool_decide (w = []) then (r_delta r, w) else (r_delta r, window_add (r_delta r) w s)).1).
  { intros s Hf. pose proof (ring_add_spec r w s Hr Hd Hf) as H. destruct (other s && _); [by exists r|]. destruct H as (r' & E & H1 & H2). by exists r'. }
  destruct op as [s|s|s|s|d'|]; cbn [ring_step window_step op_added ring_op_ok fst snd] in *.
  - by apply Hadd.
  - rewrite ring_addF_add. by apply (Hadd (SF s)).
  - rewrite ring_addH_add. by apply (Hadd (SH s)).
  - rewrite ring_addFH_add. by apply (Hadd (SFH s)).
  - destruct Hok as [Hd' Hred]. pose proof (reduceDelta_spec r w d' Hr Hd' Hred) as H. destruct (_ <? _).
    + rewrite H. by exists r.
    + destruct H as (r' & -> & H1 & H2). by exists r'.
  - exists (ring_reset r). split; [done|]. split; [apply ring_reset_holds|done].
Qed.

Lemma ring_run_spec ops : forall r d w, ring_holds r w -> r_delta r = d -> 0 <= d -> ops_ok (d, w) ops ->
  exists r', ring_run r ops = Some r' /\ ring_holds r' (foldl window_step (d, w) ops).2 /\ r_delta r' = (foldl window_step (d, w) ops).1.
Proof.
  induction ops as [|op ops IH]; intros r d w Hr Ed Hd Hok; cbn [ring_run foldl]; [by exists r|]. destruct Hok as [H1 H2].
  destruct (ring_step_spec r d w op Hr Ed Hd H1) as (r' & -> & Hr' & Ed' & Hd'). cbn [mbind option_bind].
  destruct (window_step (d, w) op) as [d' w'] eqn:E. cbn [fst snd] in *. by apply IH.
Qed.

(** The iterator after [n] calls of Next, and what the last one returned. *)
Fixpoint ri_calls (r : sampleRing) (n : nat) (it : SampleRingIterator) : option (ValueType * SampleRingIterator) :=
  match n with
  | O => Some (ValNone, it)
  | S n => '(_, it) ← ri_calls r n it; ri_Next r it
  end.

Lemma ri_calls_spec r w it0 n : ring_holds r w -> (n <= length w)%nat ->
  exists vt it, ri_calls r n (ri_reset it0) = Some (vt, it) /\ ri_i it = Z.of_nat n - 1 /\ ri_clean r it.
Proof.
  intros Hr. induction n as [|n IH]; intros Hn; [eexists _, _; by split|]. destruct IH as (vt & it & E & Hi & Hc); [lia|]. cbn [ri_calls]. rewrite E. cbn [mbind option_bind].
  destruct (ri_Next_spec r w it n Hr Hc Hi) as (it' & Hi' & Hc' & H). destruct (w !! n) as [x|]; [destruct H as [-> _]|rewrite H]; eexists _, _; (split; [reflexivity|]); (split; [lia|done]).
Qed.

(** With ascending times the samples are those in the range of the newest one. *)
Lemma drop_before_filter tmin w : StronglySorted Z.le (map rs_T w) -> drop_before rs_T tmin w = List.filter (fun s => tmin <=? rs_T s) w.
Proof.
  induction w as [|x w IH]; intros Hs; [done|]. cbn in Hs. apply StronglySorted_inv in Hs as [Hs Hx]. cbn.
  destruct (Z.ltb_spec (rs_T x) tmin) as [Hlt|Hge]; [rewrite (proj2 (Z.leb_gt _ _)) by lia; by apply IH|]. rewrite (proj2 (Z.leb_le _ _)) by lia. f_equal.
  rewrite Forall_map in Hx. clear -Hx Hge. induction Hx as [|y w Hy _ IH]; [done|]. cbn. rewrite (proj2 (Z.leb_le _ _)) by lia. by f_equal.
Qed.


(** ** Concrete rings *)

Definition ring_ops : list ring_op :=
  map (fun t => RAddF (mk_fSample 0 t (2 * t))) (seqZ 0 20) ++ [RAddH (mk_hSample 0 20 None); RReduce 3; RAdd (SFH (mk_fhSample 0 22 None))].

(** A full buffer grows, and a histogram makes it a mixed one. *)
Example ring_mixed :
  foldl window_step (17, []) ring_ops = (3, [SF (mk_fSample 0 19 38); SH (mk_hSample 0 20 None); SFH (mk_fhSample 0 22 None)]) /\
  (r ← ring_run (newSampleRing 17 0 ValNone) ring_ops; Some (length (r_iBuf r), ring_samples r)) =
    Some (32%nat, [Some (SF (mk_fSample 0 19 38)); Some (SH (mk_hSample 0 20 None)); Some (SFH (mk_fhSample 0 22 None))]).
Proof. split; vm_compute; reflexivity. Qed.

(** A first sample of another implementation is lost. *)
Example ring_first_other_lost s : ring_run (newSampleRing 10 0 ValNone) [RAdd (SO s)] = Some (newSampleRing 10 0 ValNone).
Proof. reflexivity. Qed.

