(* ===== verification/RangeSelector.v ===== *)
(** storage/buffer.go: BufferedSeriesIterator; promql/engine.go: matrixIterSlice,
    and the evaluation of a function with a range selector (the part of eval that
    goes through the series and the steps).

    A step of a query re-uses the points of the step before and reads the others
    from a buffered iterator; the theorem says that the function gets exactly the
    points of its range.  The functions themselves, the conversion and the size
    of histograms are parameters; statistics, annotations, the re-use of memory
    and arguments other than the selector are left out.  [None] is a panic, or a
    lack of fuel in the loop of Seek. *)
From stdpp Require Import sorting.
From S2P Require Import Prelude Xor RecordHistogram SeriesIterator Labels HeadChunks VectorMatching Lookback SampleRing.

(** ** BufferedSeriesIterator *)

Record BufferedSeriesIterator (I : Type) := mk_buffered { bf_it : I; bf_buf : sampleRing; bf_delta : Z; bf_lastTime : Z; bf_valueType : ValueType }.
Arguments mk_buffered {I} _ _ _ _ _.
Arguments bf_it {I} _.
Arguments bf_buf {I} _.
Arguments bf_delta {I} _.
Arguments bf_lastTime {I} _.
Arguments bf_valueType {I} _.

(** r.delta = delta *)
Definition with_delta (delta : Z) (r : sampleRing) : sampleRing :=
  mk_sampleRing delta (r_iBuf r) (r_fBuf r) (r_hBuf r) (r_fhBuf r) (r_bufInUse r) (r_i r) (r_f r) (r_l r).

(** [fst] of a range of points is their time. *)
Definition FPoints : Type := list (Z * Z).
Definition HPoints : Type := list (Z * FloatHistogram).

Record StartTimestamps := mk_starts { st_Floats : list Z; st_Histograms : list Z }.

(** selVS.Anchored and selVS.Smoothed. *)
Inductive selector_mode := PlainSelector | AnchoredSelector | SmoothedSelector.

Section Buffered.
  Context {I : Type} `{!SampleIterator I}.
  Implicit Types b : BufferedSeriesIterator I.

Definition buffered_Reset (it : I) b : option (BufferedSeriesIterator I) :=
  '(vt, it) ← Next it;
  Some (mk_buffered it (with_delta (bf_delta b) (ring_reset (bf_buf b))) (bf_delta b) MinInt64 vt).

Definition NewBufferIterator (it : I) (delta : Z) : option (BufferedSeriesIterator I) :=
  buffered_Reset it (mk_buffered it (newSampleRing delta 0 ValNone) delta 0 ValNone).

Definition ReduceDelta (delta : Z) b : option (bool * BufferedSeriesIterator I) :=
  '(ok, buf) ← reduceDelta delta (bf_buf b);
  Some (ok, mk_buffered (bf_it b) buf (bf_delta b) (bf_lastTime b) (bf_valueType b)).

Definition PeekBack (n : Z) b : option (option ring_sample * bool) := nthLast (bf_buf b) n.

(** The current element is added to the buffer. *)
Definition buffered_keep b : option sampleRing :=
  match bf_valueType b with
  | ValNone => Some (bf_buf b)
  | ValFloat => '(t, f) ← At (bf_it b); st ← AtST (bf_it b); ring_addF (mk_fSample st t f) (bf_buf b)
  | ValHistogram => '(t, h) ← AtHistogram (bf_it b); st ← AtST (bf_it b); ring_addH (mk_hSample st t h) (bf_buf b)
  | ValFloatHistogram => '(t, fh) ← AtFloatHistogram (bf_it b); st ← AtST (bf_it b); ring_addFH (mk_fhSample st t fh) (bf_buf b)
  end.

Definition buffered_Next b : option (ValueType * BufferedSeriesIterator I) :=
  match bf_valueType b with
  | ValNone => Some (ValNone, b)
  | _ =>
      buf ← buffered_keep b;
      '(vt, it) ← Next (bf_it b);
      lastTime ← (match vt with ValNone => Some (bf_lastTime b) | _ => AtT it end);
      Some (vt, mk_buffered it buf (bf_delta b) lastTime vt)
  end.

Fixpoint buffered_advance (fuel : nat) (t : Z) b : option (ValueType * BufferedSeriesIterator I) :=
  match fuel with
  | O => None
  | S fuel =>
      '(vt, b) ← buffered_Next b;
      match vt with
      | ValNone => Some (vt, b)
      | _ => if t <=? bf_lastTime b then Some (vt, b) else buffered_advance fuel t b
      end
  end.

Definition buffered_find (fuel : nat) (t : Z) b : option (ValueType * BufferedSeriesIterator I) :=
  if t <=? bf_lastTime b then Some (bf_valueType b, b) else buffered_advance fuel t b.

Definition buffered_Seek (fuel : nat) (t : Z) b : option (ValueType * BufferedSeriesIterator I) :=
  let t0 := i64 (t - r_delta (bf_buf b)) in
  if bool_decide (bf_valueType b <> ValNone) && (bf_lastTime b <? t0) then
    '(vt, it) ← Seek t0 (bf_it b);
    let jumped lastTime := mk_buffered it (ring_reset (bf_buf b)) (bf_delta b) lastTime vt in
    match vt with
    | ValNone => Some (ValNone, jumped (bf_lastTime b))
    | _ => lastTime ← AtT it; buffered_find fuel t (jumped lastTime)
    end
  else buffered_find fuel t b.

(** ** matrixIterSlice *)

Variable ToFloat : Histogram -> FloatHistogram.
(** HPoint.size. *)
Variable hist_size : FloatHistogram -> Z.
Variable maxSamples : Z.

Definition totalHPointSize (l : HPoints) : Z := foldr Z.add 0 (map (fun p => hist_size p.2) l).

(** The loop that counts the points up to [mint]; it panics if all are. *)
Fixpoint count_dropped {A} (mint : Z) (l : list (Z * A)) : option nat :=
  match l with
  | [] => None
  | (t, _) :: l => if t <=? mint then S <$> count_dropped mint l else Some O
  end.

(** What is retained of the points of an earlier step: the points, their start
    timestamps, the time after which points are new, and currentSamples. *)
Definition retain {A} (size : list (Z * A) -> Z) (mint : Z) (l : list (Z * A)) (starts : option (list Z)) (current : Z)
  : option (list (Z * A) * option (list Z) * Z * Z) :=
  let clear := Some ([], (fun _ => []) <$> starts, mint, current - size l) in
  match last l with
  | None => clear
  | Some (t, _) =>
      if mint <? t then
        n ← count_dropped mint l;
        starts ← (match starts with
          | None => Some None
          | Some s => if (length s <? n)%nat then None else Some (Some (drop n s))
          end : option (option (list Z)));
        Some (drop n l, starts, t, current - size (take n l))
      else clear
  end.

(** The points of a step and currentSamples. *)
Record range_slice := mk_slice { sl_floats : FPoints; sl_hists : HPoints; sl_starts : option StartTimestamps; sl_current : Z }.

Definition add_start_f (st : Z) (s : option StartTimestamps) : option StartTimestamps :=
  (fun s => mk_starts (st_Floats s ++ [st]) (st_Histograms s)) <$> s.
Definition add_start_h (st : Z) (s : option StartTimestamps) : option StartTimestamps :=
  (fun s => mk_starts (st_Floats s) (st_Histograms s ++ [st])) <$> s.

Definition append_float (t f st : Z) (s : range_slice) : range_slice + selector_error :=
  let current := sl_current s + 1 in
  if maxSamples <? current then inr ErrTooManySamples
  else inl (mk_slice (sl_floats s ++ [(t, f)]) (sl_hists s) (add_start_f st (sl_starts s)) current).

Definition append_hist (t : Z) (h : FloatHistogram) (st : Z) (s : range_slice) : range_slice + selector_error :=
  let current := sl_current s + hist_size h in
  if maxSamples <? current then inr ErrTooManySamples
  else inl (mk_slice (sl_floats s) (sl_hists s ++ [(t, h)]) (add_start_h st (sl_starts s)) current).

(** The loop over the buffer. *)
Fixpoint buffer_loop (fuel : nat) (r : sampleRing) (it : SampleRingIterator) (mintFloats mintHistograms : Z) (s : range_slice) : option (range_slice + selector_error) :=
  match fuel with
  | O => None
  | S fuel =>
      '(vt, it) ← ri_Next r it;
      match vt with
      | ValNone => Some (inl s)
      | ValFloat =>
          let '(t, f) := ri_At it in
          let res := if IsStaleNaN f then inl s else if mintFloats <? t then append_float t f (ri_st it) s else inl s in
          match res with inr e => Some (inr e) | inl s => buffer_loop fuel r it mintFloats mintHistograms s end
      | _ =>
          res ← (if mintHistograms <? ri_t it then
              '(t, h) ← ri_AtFloatHistogram ToFloat it;
              Some (if IsStaleNaN (Sum h) then inl s else append_hist t h (ri_st it) s)
            else Some (inl s) : option (range_slice + selector_error));
          match res with inr e => Some (inr e) | inl s => buffer_loop fuel r it mintFloats mintHistograms s end
      end
  end.

(** The sought sample, if it is in the range. *)
Definition sought_sample (vt : ValueType) (maxt : Z) b (s : range_slice) : option (range_slice + selector_error) :=
  match vt with
  | ValNone => Some (inl s)
  | ValFloat =>
      '(t, f) ← At (bf_it b);
      if bool_decide (t = maxt) && negb (IsStaleNaN f) then st ← AtST (bf_it b); Some (append_float t f st s) else Some (inl s)
  | _ =>
      t ← AtT (bf_it b);
      if bool_decide (t = maxt) then
        '(t, h) ← AtFloatHistogram (bf_it b);
        h ← h;
        if IsStaleNaN (Sum h) then Some (inl s) else st ← AtST (bf_it b); Some (append_hist t h st s)
      else Some (inl s)
  end.

Definition new_iterator : SampleRingIterator := ri_reset (mk_ri 0 0 0 0 None None).

Definition matrixIterSlice (fuel : nat) b (mint maxt : Z) (s : range_slice) : option (BufferedSeriesIterator I * range_slice + selector_error) :=
  '(floats, fstarts, mintFloats, current) ← retain (fun l => Z.of_nat (length l)) mint (sl_floats s) (st_Floats <$> sl_starts s) (sl_current s);
  '(hists, hstarts, mintHistograms, current) ← retain totalHPointSize mint (sl_hists s) (st_Histograms <$> sl_starts s) current;
  let starts := match fstarts, hstarts with Some f, Some h => Some (mk_starts f h) | _, _ => None end in
  let s := mk_slice floats hists starts current in
  if mint =? maxt then Some (inl (b, s))
  else
    '(vt, b) ← buffered_Seek fuel maxt b;
    match vt, Err (bf_it b) with
    | ValNone, (_ :: _) as e => Some (inr (ErrStorage e))
    | _, _ =>
        r ← buffer_loop (S (Z.to_nat (r_l (bf_buf b)))) (bf_buf b) new_iterator mintFloats mintHistograms s;
        match r with
        | inr e => Some (inr e)
        | inl s =>
            r ← sought_sample vt maxt b s;
            Some (match r with inr e => inr e | inl s => inl (b, s) end)
        end
    end.

(** ** Functions with a range selector *)

Variables MetricTypeLabel MetricUnitLabel : gostr.
Definition IsMetadataLabel (name : gostr) : bool := str_eqb name MetricName || str_eqb name MetricTypeLabel || str_eqb name MetricUnitLabel.

Variable enableDelayedNameRemoval : bool.
(** The function at a step with the points of the range: its first result. *)
Variable call : Z -> nat -> Labels -> FPoints -> HPoints -> option StartTimestamps -> option (Z * option FloatHistogram).
Variable mode : selector_mode.
Variables selRange offset lookback interval : Z.
(** selVS.Timestamp is set; the function keeps start timestamps. *)
Variables fixed_time keep_starts : bool.

Definition bufferRange : Z :=
  match mode with PlainSelector => selRange | AnchoredSelector => selRange + lookback | SmoothedSelector => selRange + 2 * lookback end.
Definition stepRange : Z := Z.min bufferRange interval.

(** mint and maxt of a step. *)
Definition step_bounds (ts : Z) : Z * Z :=
  let maxt := i64 (ts - offset) in
  let mint := i64 (maxt - selRange) in
  match mode with
  | PlainSelector => (mint, maxt)
  | AnchoredSelector => (i64 (mint - lookback), maxt)
  | SmoothedSelector => (i64 (mint - lookback), i64 (maxt + lookback))
  end.

Definition append_output (ts : Z) (out : option (Z * option FloatHistogram)) (ss : MSeries) : MSeries :=
  match out with
  | None => ss
  | Some (f, None) => mk_MSeries (m_Metric ss) (m_Floats ss ++ [(ts, f)]) (m_Histograms ss) (m_DropName ss)
  | Some (_, Some h) => mk_MSeries (m_Metric ss) (m_Floats ss) (m_Histograms ss ++ [(ts, h)]) (m_DropName ss)
  end.

(** The steps of one series, [metric]; [step] counts them. *)
Fixpoint call_steps (fuel : nat) (metric : Labels) (steps : list Z) (step : nat) b (s : range_slice) (ss : MSeries)
  : option (BufferedSeriesIterator I * range_slice * MSeries + selector_error) :=
  match steps with
  | [] => Some (inl (b, s, ss))
  | ts :: steps =>
      let '(mint, maxt) := step_bounds ts in
      r ← (if (step =? 0)%nat || negb fixed_time then matrixIterSlice fuel b mint maxt s else Some (inl (b, s))
           : option (BufferedSeriesIterator I * range_slice + selector_error));
      match r with
      | inr e => Some (inr e)
      | inl (b, s) =>
          match sl_floats s, sl_hists s with
          | [], [] => call_steps fuel metric steps (S step) b s ss
          | _, _ =>
              let ss := append_output ts (call ts step metric (sl_floats s) (sl_hists s) (sl_starts s)) ss in
              '(_, b) ← ReduceDelta stepRange b;
              call_steps fuel metric steps (S step) b s ss
          end
      end
  end.

(** All series, with their labels, whether their name is to be dropped, and their
    iterator; [s] is what the series before has left. *)
Fixpoint call_series (fuel : nat) (dropName : bool) (steps : list Z) (series : list (Labels * bool * I)) b (s : range_slice) (mat : list MSeries)
  : option (list MSeries * Z + selector_error) :=
  match series with
  | [] => Some (inl (mat, sl_current s - (Z.of_nat (length (sl_floats s)) + totalHPointSize (sl_hists s))))
  | (lset, inputDropName, chkIter) :: series =>
      let current := sl_current s - (Z.of_nat (length (sl_floats s)) + totalHPointSize (sl_hists s)) in
      b ← buffered_Reset chkIter b;
      let seriesDropName := dropName || inputDropName in
      metric ← (if negb enableDelayedNameRemoval && seriesDropName then DropReserved IsMetadataLabel lset else Some lset);
      let starts := if keep_starts then Some (mk_starts [] []) else None in
      r ← call_steps fuel lset steps 0 b (mk_slice [] [] starts current) (mk_MSeries metric [] [] seriesDropName);
      match r with
      | inr e => Some (inr e)
      | inl (b, s, ss) =>
          let size := Z.of_nat (length (m_Floats ss)) + totalHPointSize (m_Histograms ss) in
          if 0 <? size then
            if maxSamples <? sl_current s + size then Some (inr ErrTooManySamples)
            else call_series fuel dropName steps series b (mk_slice (sl_floats s) (sl_hists s) (sl_starts s) (sl_current s + size)) (mat ++ [ss])
          else call_series fuel dropName steps series b s mat
      end
  end.

(** The empty iterator that NewBuffer begins with is [nop]; the result is the
    matrix and currentSamples. *)
Definition eval_range_function (fuel : nat) (nop : I) (dropName : bool) (start end_ : Z) (series : list (Labels * bool * I)) (current : Z)
  : option (list MSeries * Z + selector_error) :=
  b ← NewBufferIterator nop bufferRange;
  call_series fuel dropName (step_times start end_ interval) series b (mk_slice [] [] None current) [].
End Buffered.

(** ** Seeking with a buffer *)

Section BufferSpec.
  Context {I : Type} `{!SampleIterator I, !SampleIteratorLaws I}.
  Implicit Types b : BufferedSeriesIterator I.
  (** The samples of the series. *)
  Variable ss : list sample.
  Hypothesis Hsorted : StronglySorted Z.lt (map s_t ss).
  Hypothesis Hmin : Forall (fun s => MinInt64 < s_t s) ss.

(** A sample in the ring. *)
Definition ring_of (s : sample) : ring_sample :=
  match s_h s, s_fh s with
  | Some h, _ => SH (mk_hSample (s_st s) (s_t s) (Some h))
  | None, Some fh => SFH (mk_fhSample (s_st s) (s_t s) (Some fh))
  | None, None => SF (mk_fSample (s_st s) (s_t s) (s_f s))
  end.

Lemma ring_of_T s : rs_T (ring_of s) = s_t s.
Proof. unfold ring_of. by destruct (s_h s), (s_fh s). Qed.

(** The iterator is behind [skipped] and [kept], which is in the buffer. *)
Record buffered_at b (skipped kept after : list sample) : Prop := {
  ba_all : ss = skipped ++ kept ++ after;
  ba_ring : ring_holds (bf_buf b) (map ring_of kept);
  ba_it : it_at ss (bf_it b) after;
  ba_type : bf_valueType b = type_at after;
  ba_last : match after with [] => True | s :: _ => bf_lastTime b = s_t s \/ bf_lastTime b = MinInt64 /\ skipped = [] /\ kept = [] end;
  (** The range below does not wrap around. *)
  ba_low : Forall (fun s => is_i64 (s_t s - r_delta (bf_buf b))) kept }.

Lemma ba_in b skipped kept after x : buffered_at b skipped kept after -> x ∈ after -> x ∈ ss.
Proof. intros [-> _ _ _ _ _] Hx. rewrite !elem_of_app. auto. Qed.

Lemma ba_sorted b skipped kept after : buffered_at b skipped kept after ->
  Forall (fun s => Forall (fun s' => s_t s < s_t s') after) (skipped ++ kept) /\ StronglySorted Z.lt (map s_t after).
Proof. intros [E _ _ _ _ _]. apply (sorted_parts ss Hsorted). by rewrite <-app_assoc. Qed.

Lemma drop_before_split {T} (tm : T -> Z) tmin l : exists old, l = old ++ drop_before tm tmin l /\ Forall (fun x => tm x < tmin) old.
Proof.
  induction l as [|x l (old & E & Ho)]; [by exists []|]. cbn. destruct (Z.ltb_spec (tm x) tmin) as [Hlt|Hge]; [|by exists []].
  exists (x :: old). split; [cbn; by rewrite <-E|by constructor].
Qed.

Lemma buffered_keep_spec b skipped kept s after : buffered_at b skipped kept (s :: after) -> 0 <= r_delta (bf_buf b) ->
  is_i64 (s_t s - r_delta (bf_buf b)) ->
  exists buf old, buffered_keep b = Some buf /\ kept ++ [s] = old ++ drop_before s_t (s_t s - r_delta (bf_buf b)) (kept ++ [s]) /\
    ring_holds buf (map ring_of (drop_before s_t (s_t s - r_delta (bf_buf b)) (kept ++ [s]))) /\ r_delta buf = r_delta (bf_buf b) /\
    Forall (fun x => s_t x < s_t s - r_delta (bf_buf b)) old.
Proof.
  intros [_ Hr Hi Hty _ _] Hd Hf. cbn [it_at] in Hi. destruct (rep_on _ _ _ _ Hi) as [_ (_ & H2 & H3)].
  assert (Hk : buffered_keep b = ring_add (ring_of s) (bf_buf b)).
  { unfold buffered_keep. rewrite Hty. cbn [type_at]. unfold ring_of. unfold sample_Type in *. destruct (s_h s) as [h|].
    - rewrite H3, H2. cbn. by rewrite ring_addH_add.
    - destruct (s_fh s) as [fh|]; rewrite H3, H2; cbn; [by rewrite ring_addFH_add|by rewrite ring_addF_add]. }
  pose proof (ring_add_spec (bf_buf b) _ (ring_of s) Hr Hd) as Ha. rewrite ring_of_T in Ha. specialize (Ha (i64_id _ Hf)).
  assert (Ho : other (ring_of s) = false) by (unfold ring_of; by destruct (s_h s), (s_fh s)). rewrite Ho in Ha. cbn [andb] in Ha.
  destruct Ha as (buf & E & Hw & Hd'). rewrite (window_add_map ring_of s_t) in Hw by apply ring_of_T.
  destruct (drop_before_split s_t (s_t s - r_delta (bf_buf b)) (kept ++ [s])) as (old & Eo & Hold). exists buf, old. rewrite Hk. by split_and!.
Qed.

Lemma buffered_Next_spec b skipped kept s after : buffered_at b skipped kept (s :: after) -> 0 <= r_delta (bf_buf b) ->
  is_i64 (s_t s - r_delta (bf_buf b)) ->
  exists b' old kept', buffered_Next b = Some (type_at after, b') /\ kept ++ [s] = old ++ kept' /\ buffered_at b' (skipped ++ old) kept' after /\
    Forall (fun x => s_t x < s_t s - r_delta (bf_buf b)) old /\ r_delta (bf_buf b') = r_delta (bf_buf b) /\ bf_delta b' = bf_delta b.
Proof.
  intros Hb Hd Hf. destruct (buffered_keep_spec b skipped kept s after Hb Hd Hf) as (buf & old & Ek & Eo & Hr & Hd' & Hold).
  pose proof Hb as [E _ Hi Hty _ Hlow]. destruct (it_at_next ss Hsorted Hmin _ _ _ (fun x => ba_in _ _ _ _ x Hb) Hi) as (i' & En & Hi').
  set (kept' := drop_before _ _ _) in *.
  assert (Hb' : forall lt, match after with [] => True | s' :: _ => lt = s_t s' end -> buffered_at (mk_buffered i' buf (bf_delta b) lt (type_at after)) (skipped ++ old) kept' after).
  { intros lt Hlt. split; cbn; try done.
    - rewrite E. rewrite <-!app_assoc. f_equal. change (s :: after) with ([s] ++ after). by rewrite (app_assoc kept), Eo, <-app_assoc.
    - destruct after; [done|by left].
    - rewrite Hd'. assert (Hall : Forall (fun s => is_i64 (s_t s - r_delta (bf_buf b))) (kept ++ [s])) by (apply Forall_app; split; [done|by apply Forall_singleton]).
      rewrite Eo in Hall. by apply Forall_app in Hall as [_ ?]. }
  unfold buffered_Next. rewrite Hty. cbn [type_at]. assert (Hne : sample_Type s <> ValNone) by (unfold sample_Type; by destruct (s_h s), (s_fh s)).
  destruct (sample_Type s) eqn:Es; [done|..]; rewrite Ek; cbn [mbind option_bind]; rewrite En; cbn [mbind option_bind];
    (destruct after as [|s' after]; cbn [type_at];
      [eexists _, old, kept'; split; [reflexivity|]; split; [done|]; split; [by apply Hb'|done]
      |destruct (rep_on _ _ _ _ Hi') as [_ (A1 & _ & _)];
       assert (Hm : (match sample_Type s' with ValNone => Some (bf_lastTime b) | _ => AtT i' end) = Some (s_t s')) by (rewrite A1; unfold sample_Type; by destruct (s_h s'), (s_fh s'));
       rewrite Hm; cbn [mbind option_bind]; eexists _, old, kept'; split; [reflexivity|]; split; [done|]; split; [by apply Hb'|done]]).
Qed.

Lemma type_at_none after : type_at after = ValNone <-> after = [].
Proof. destruct after as [|s after]; [done|]. split; [|done]. cbn. unfold sample_Type. by destruct (s_h s), (s_fh s). Qed.

(** Where a Seek to [t] ends. *)
Definition sought_at b (t : Z) : Prop :=
  exists skipped kept after, buffered_at b skipped kept after /\ Forall (fun s => s_t s < t) (skipped ++ kept) /\ Forall (fun s => t <= s_t s) after /\
    Forall (fun s => s_t s < t - r_delta (bf_buf b)) skipped.

Definition seek_bounds (delta t : Z) : Prop := 0 <= delta /\ MinInt64 < t - delta /\ MinInt64 <= t - 2 * delta /\ t <= MaxInt64.

Lemma all_late b skipped kept s after t : buffered_at b skipped kept (s :: after) -> t <= s_t s -> Forall (fun s => t <= s_t s) (s :: after).
Proof.
  intros Hb Ht. destruct (ba_sorted _ _ _ _ Hb) as [_ Hs]. cbn in Hs. apply StronglySorted_inv in Hs as [_ Hs]. constructor; [done|].
  rewrite Forall_map in Hs. eapply Forall_impl; [exact Hs|]. cbn. lia.
Qed.

Lemma find_from_seek fuel t after : forall b skipped kept, buffered_at b skipped kept after -> seek_bounds (r_delta (bf_buf b)) t -> (length after < fuel)%nat ->
  match after with [] => True | s :: _ => bf_lastTime b = s_t s end -> Forall (fun s => t - r_delta (bf_buf b) <= s_t s) after ->
  Forall (fun s => s_t s < t) (skipped ++ kept) -> Forall (fun s => s_t s < t - r_delta (bf_buf b)) skipped ->
  exists b' after', buffered_find fuel t b = Some (type_at after', b') /\ sought_at b' t /\ bf_valueType b' = type_at after' /\
    r_delta (bf_buf b') = r_delta (bf_buf b) /\ bf_delta b' = bf_delta b.
Proof.
  revert fuel. induction after as [|s after IH]; intros fuel b skipped kept Hb Hbd Hf Hlast Hge Hlt Hsk.
  { assert (Hs : sought_at b t) by (exists skipped, kept, []; split_and!; [done|done|constructor|done]). destruct Hb as [_ _ _ Hty _ _]. cbn [type_at] in Hty.
    unfold buffered_find. destruct (_ <=? _); [exists b, []; by rewrite Hty|]. destruct fuel as [|fuel]; [cbn in Hf; lia|].
    cbn [buffered_advance]. unfold buffered_Next. rewrite Hty. by exists b, []. }
  pose proof Hb as [_ _ _ Hty _ _]. cbn [type_at] in Hty. unfold buffered_find. rewrite Hlast.
  destruct (Z.leb_spec t (s_t s)) as [Hle|Hgt].
  { exists b, (s :: after). split; [by rewrite Hty|]. split; [|done]. exists skipped, kept, (s :: after). split_and!; [done|done|by eapply all_late|done]. }
  destruct fuel as [|fuel]; [cbn in Hf; lia|]. cbn [buffered_advance]. apply Forall_cons in Hge as [Hge1 Hge]. destruct Hbd as (D1 & D2 & D3 & D4).
  destruct (buffered_Next_spec b skipped kept s after Hb D1) as (b' & old & kept' & -> & Eo & Hb' & Hold & Ed & Ed2); [unfold is_i64; lia|].
  cbn [mbind option_bind].
  assert (Hlt' : Forall (fun s => s_t s < t) ((skipped ++ old) ++ kept')).
  { rewrite <-app_assoc, <-Eo. apply Forall_app in Hlt as [L1 L2]. apply Forall_app. split; [done|]. apply Forall_app. split; [done|by repeat constructor]. }
  assert (Hsk' : Forall (fun s => s_t s < t - r_delta (bf_buf b')) (skipped ++ old)).
  { rewrite Ed. apply Forall_app. split; [done|]. eapply Forall_impl; [exact Hold|]. cbn. lia. }
  assert (Hbd' : seek_bounds (r_delta (bf_buf b')) t) by (rewrite Ed; by split_and!). rewrite <-Ed in Hge.
  assert (Hlast' : match after with [] => True | s0 :: _ => bf_lastTime b' = s_t s0 end).
  { destruct after as [|s0 after]; [done|]. destruct Hb' as [E' _ _ _ [?|(_ & E1 & E2)] _]; [done|]. apply app_eq_nil in E1 as [_ ->]. subst kept'.
    symmetry in Eo. by destruct kept. }
  destruct (IH fuel b' (skipped ++ old) kept' Hb' Hbd' ltac:(cbn in Hf; lia) Hlast' Hge Hlt' Hsk') as (b2 & after2 & E2 & Hs2 & T2 & Ed3 & Ed4).
  rewrite Ed in Ed3. rewrite Ed2 in Ed4. exists b2, after2. split; [|by split_and!]. unfold buffered_find in E2. destruct Hb' as [_ _ _ Hty' _ _]. rewrite Hty' in E2.
  destruct (type_at after) eqn:Et; try exact E2. apply type_at_none in Et as ->. destruct (t <=? bf_lastTime b'); [exact E2|].
  destruct fuel as [|fuel]; [done|]. cbn [buffered_advance] in E2. unfold buffered_Next in E2. by rewrite Hty' in E2.
Qed.

(** What Seek to [t] needs. *)
Definition seek_ready b (t : Z) : Prop :=
  exists skipped kept after, buffered_at b skipped kept after /\ Forall (fun s => s_t s < t) (skipped ++ kept) /\
    Forall (fun s => s_t s < t - r_delta (bf_buf b)) skipped.

Lemma sought_ready b t t' : sought_at b t -> t <= t' -> seek_ready b t'.
Proof.
  intros (sk & kp & af & H1 & H2 & _ & H4) Ht. exists sk, kp, af. split; [done|].
  split; (eapply Forall_impl; [eassumption|]); cbn; lia.
Qed.

(** Seek finds the first sample at [t] or after, and the samples before it that
    are in the range are in the buffer. *)
Lemma buffered_Seek_spec fuel t b : seek_ready b t -> seek_bounds (r_delta (bf_buf b)) t -> (length ss < fuel)%nat ->
  exists b' after, buffered_Seek fuel t b = Some (type_at after, b') /\ sought_at b' t /\ bf_valueType b' = type_at after /\
    r_delta (bf_buf b') = r_delta (bf_buf b) /\ bf_delta b' = bf_delta b.
Proof.
  intros (sk & kp & af & Hb & Hlt & Hsk) Hbd Hf. pose proof Hb as [E Hr Hi Hty Hlast Hlow]. pose proof Hbd as (D1 & D2 & D3 & D4).
  assert (Hlen : (length af < fuel)%nat) by (rewrite E, !length_app in Hf; lia).
  unfold buffered_Seek. rewrite (i64_id (t - _)) by (unfold is_i64; lia). rewrite Hty. destruct af as [|s af].
  { rewrite bool_decide_eq_false_2 by (intros Hn; by apply Hn). cbn [andb]. by apply (find_from_seek fuel t [] b sk kp). }
  rewrite bool_decide_eq_true_2 by (intros Hn; by apply type_at_none in Hn). cbn [andb].
  destruct (ba_sorted _ _ _ _ Hb) as [Hbefore Hs]. rewrite Forall_forall in Hbefore.
  destruct (Z.ltb_spec (bf_lastTime b) (t - r_delta (bf_buf b))) as [Hj|Hk].
  - destruct (it_at_seek ss Hsorted Hmin (bf_it b) (s :: af) (t - r_delta (bf_buf b)) (fun x => ba_in _ _ _ _ x Hb) Hs ltac:(done) Hi) as (skip & after & i' & Ea & S1 & S2 & -> & Hi').
    cbn [mbind option_bind].
    assert (Hnew : Forall (fun x => s_t x < t - r_delta (bf_buf b)) (sk ++ kp ++ skip)).
    { rewrite !Forall_app. split; [done|]. split; [|done]. destruct Hlast as [Hl|(_ & -> & ->)]; [|constructor]. apply Forall_forall. intros x Hx.
      assert (Hxb : x ∈ sk ++ kp) by (apply elem_of_app; by right). pose proof (Hbefore x Hxb) as Hxs. apply Forall_cons in Hxs as [Hxs _]. lia. }
    assert (Hat : forall lt, match after with [] => True | s' :: _ => lt = s_t s' end ->
      buffered_at (mk_buffered i' (ring_reset (bf_buf b)) (bf_delta b) lt (type_at after)) (sk ++ kp ++ skip) [] after).
    { intros lt Hl. split; cbn; try done; [rewrite E, Ea, <-!app_assoc; done|by destruct after; [|left]]. }
    assert (Hlt2 : Forall (fun x => s_t x < t) ((sk ++ kp ++ skip) ++ [])) by (rewrite app_nil_r; eapply Forall_impl; [exact Hnew|]; cbn; lia).
    destruct after as [|s' after]; cbn [type_at].
    + eexists _, []. split; [reflexivity|]. split; [|done]. exists (sk ++ kp ++ skip), [], []. split; [by apply (Hat (bf_lastTime b))|]. split; [done|]. split; [constructor|done].
    + cbn [it_at] in Hi'. destruct (rep_on _ _ _ _ Hi') as [_ (A1 & _ & _)].
      assert (Hm : forall (f : Z -> option (ValueType * BufferedSeriesIterator I)),
        match sample_Type s' with
        | ValNone => Some (ValNone, mk_buffered i' (ring_reset (bf_buf b)) (bf_delta b) (bf_lastTime b) (sample_Type s'))
        | _ => lastTime ← AtT i'; f lastTime
        end = f (s_t s')) by (intros f; rewrite A1; unfold sample_Type; by destruct (s_h s'), (s_fh s')).
      rewrite Hm. specialize (Hat (s_t s') eq_refl). cbn [type_at] in Hat.
      destruct (find_from_seek fuel t (s' :: after) _ _ _ Hat Hbd) as (b' & after' & E2 & H2); try done.
      * rewrite Ea, length_app in Hlen. cbn [length] in Hlen |- *. lia.
      * by exists b', after'.
  - destruct Hlast as [Hl|(Hl & _)]; [|lia]. apply (find_from_seek fuel t (s :: af) b sk kp); try done. rewrite Hl in Hk. by eapply all_late.
Qed.

(** Just after Reset. *)
Lemma buffered_Reset_spec i b : rep i (fun x => x ∈ ss) (Fresh (map s_t ss)) ->
  exists b', buffered_Reset i b = Some b' /\ (forall t, seek_ready b' t) /\ r_delta (bf_buf b') = bf_delta b /\ bf_delta b' = bf_delta b.
Proof.
  intros Hr. unfold buffered_Reset. destruct (lands_at ss Hsorted Hmin ss _ _ (fun _ H => H) (rep_next _ _ _ Hr)) as (i' & -> & Hi). cbn [mbind option_bind].
  eexists. split; [reflexivity|]. split; [|done]. intros t. exists [], [], ss. split; [|split; constructor]. split; cbn; try done. destruct ss; [done|by right].
Qed.

Lemma ReduceDelta_spec b t delta : sought_at b t -> t <= MaxInt64 -> 0 <= delta ->
  exists ok b', ReduceDelta delta b = Some (ok, b') /\ sought_at b' t /\ r_delta (bf_buf b') = Z.min delta (r_delta (bf_buf b)) /\ bf_delta b' = bf_delta b.
Proof.
  intros (sk & kp & af & Hb & Hlt & Hge & Hsk) Ht Hd. pose proof Hb as [E Hr Hi Hty Hlast Hlow]. unfold ReduceDelta.
  apply Forall_app in Hlt as [Hlt1 Hlt2].
  assert (Hred : r_delta (bf_buf b) <? delta = false -> reducible delta (map ring_of kp)).
  { intros Hdl%Z.ltb_ge. unfold reducible. rewrite last_map. destruct (last kp) as [z|] eqn:Ez; [|done]. cbn. rewrite ring_of_T. apply i64_id.
    apply last_Some in Ez as [l ->]. apply Forall_app in Hlow as [_ Hl]. apply Forall_cons in Hl as [[Hl _] _]. apply Forall_app in Hlt2 as [_ Hz].
    apply Forall_cons in Hz as [Hz _]. unfold is_i64. lia. }
  destruct (r_delta (bf_buf b) <? delta) eqn:Edl.
  { unfold reduceDelta. rewrite Edl. cbn [mbind option_bind]. eexists _, _. split; [reflexivity|]. cbn [bf_buf bf_delta]. apply Z.ltb_lt in Edl.
    split; [|split; [lia|done]]. exists sk, kp, af. split; [by destruct b|]. split; [by apply Forall_app|done]. }
  pose proof (reduceDelta_spec (bf_buf b) _ delta Hr Hd (Hred eq_refl)) as H. rewrite Edl in H. destruct H as (r' & -> & Hr' & Ed). cbn [mbind option_bind].
  apply Z.ltb_ge in Edl. eexists _, _. split; [reflexivity|]. cbn [bf_buf bf_delta]. split; [|split; [lia|done]].
  assert (Hsplit : exists old kept', kp = old ++ kept' /\ window_reduce delta (map ring_of kp) = map ring_of kept' /\ Forall (fun s => s_t s < t - delta) old).
  { unfold window_reduce. rewrite last_map. destruct (last kp) as [z|] eqn:Ez; cbn [fmap option_fmap option_map].
    - rewrite ring_of_T, drop_before_map. destruct (drop_before_split (fun x => rs_T (ring_of x)) (s_t z - delta) kp) as (old & Eo & Ho).
      exists old, (drop_before (fun x => rs_T (ring_of x)) (s_t z - delta) kp). split; [done|]. split; [done|]. apply last_Some in Ez as [l ->].
      apply Forall_app in Hlt2 as [_ Hz]. apply Forall_cons in Hz as [Hz _]. eapply Forall_impl; [exact Ho|]. cbn. intros x. rewrite ring_of_T. lia.
    - apply last_None in Ez as ->. by exists [], []. }
  destruct Hsplit as (old & kept' & -> & Ew & Ho). rewrite Ew in Hr'. rewrite Forall_app in Hlt2. destruct Hlt2 as [L1 L2]. rewrite Forall_app in Hlow. destruct Hlow as [_ Hlow].
  exists (sk ++ old), kept', af. cbn [bf_buf]. rewrite Ed. split; [|split; [|split; [done|]]].
  - split; cbn; try done.
    + by rewrite E, <-!app_assoc.
    + destruct af as [|s af]; [done|]. destruct Hlast as [?|(? & -> & E0)]; [by left|]. apply app_eq_nil in E0 as [-> ->]. by right.
    + rewrite Ed. apply Forall_forall. intros x Hx. rewrite Forall_forall in L2, Hlow. specialize (L2 x Hx). destruct (Hlow x Hx) as [Hx1 _]. unfold is_i64. lia.
  - rewrite !Forall_app. by split_and!.
  - apply Forall_app. split; [|done]. eapply Forall_impl; [exact Hsk|]. cbn. lia.
Qed.

(** ** The points of a range *)

  Variable ToFloat : Histogram -> FloatHistogram.
  Hypothesis Hconv : converts (I := I) ToFloat ss.
  Variable hist_size : FloatHistogram -> Z.
  Hypothesis size_pos : forall h, 0 < hist_size h.
  Variable maxSamples : Z.

(** A sample as a point, unless it is a staleness marker. *)
Definition f_point (s : sample) : option (Z * Z) :=
  match s_h s, s_fh s with None, None => if IsStaleNaN (s_f s) then None else Some (s_t s, s_f s) | _, _ => None end.
Definition h_point (s : sample) : option (Z * FloatHistogram) :=
  match s_h s, s_fh s with
  | Some h, _ => if IsStaleNaN (Sum (ToFloat h)) then None else Some (s_t s, ToFloat h)
  | None, Some h => if IsStaleNaN (Sum h) then None else Some (s_t s, h)
  | None, None => None
  end.
Definition f_start (s : sample) : option Z := (fun _ => s_st s) <$> f_point s.
Definition h_start (s : sample) : option Z := (fun _ => s_st s) <$> h_point s.

(** The samples after [mint] up to [maxt]. *)
Definition samples_between (mint maxt : Z) : list sample := List.filter (fun s => (mint <? s_t s) && (s_t s <=? maxt)) ss.

Definition slice_of (keep : bool) (l : list sample) (current : Z) : range_slice :=
  mk_slice (omap f_point l) (omap h_point l) (if keep then Some (mk_starts (omap f_start l) (omap h_start l)) else None) current.

Definition points_cost (l : list sample) : Z := Z.of_nat (length (omap f_point l)) + totalHPointSize hist_size (omap h_point l).

Lemma totalHPointSize_app l l' : totalHPointSize hist_size (l ++ l') = totalHPointSize hist_size l + totalHPointSize hist_size l'.
Proof. unfold totalHPointSize. rewrite map_app, foldr_app. induction (map _ l) as [|x m IH]; cbn; lia. Qed.

Lemma points_cost_app l l' : points_cost (l ++ l') = points_cost l + points_cost l'.
Proof. unfold points_cost. rewrite !omap_app, length_app, totalHPointSize_app. lia. Qed.

Lemma totalHPointSize_nonneg l : 0 <= totalHPointSize hist_size l /\ (totalHPointSize hist_size l = 0 -> l = []).
Proof.
  induction l as [|[t h] l [IH _]]; [done|]. unfold totalHPointSize in *. cbn. pose proof size_pos as Hp. specialize (Hp h). split; [lia|]. intros. lia.
Qed.

Lemma points_cost_nonneg l : 0 <= points_cost l.
Proof. unfold points_cost. destruct (totalHPointSize_nonneg (omap h_point l)). lia. Qed.

Lemma filter_sorted_split (P Q R : sample -> bool) l : StronglySorted Z.lt (map s_t l) ->
  (forall s, P s = Q s || R s) -> (forall s s', R s = true -> Q s' = true -> s_t s' < s_t s) ->
  List.filter P l = List.filter Q l ++ List.filter R l.
Proof.
  intros Hs HP HQR. induction l as [|s l IH]; [done|]. cbn [map] in Hs. apply StronglySorted_inv in Hs as [Hs Hx]. cbn [List.filter]. rewrite HP, IH by done.
  destruct (R s) eqn:ER.
  - assert (HQ : List.filter Q (s :: l) = []).
    { cbn. destruct (Q s) eqn:EQ; [pose proof (HQR s s ER EQ); lia|]. rewrite Forall_map, Forall_forall in Hx.
      destruct (List.filter Q l) as [|y m] eqn:Ef; [done|]. assert (Hy : In y (List.filter Q l)) by (rewrite Ef; by left). apply filter_In in Hy as [Hy1 Hy2].
      apply list_elem_of_In in Hy1. pose proof (Hx y Hy1). pose proof (HQR s y ER Hy2). lia. }
    cbn in HQ. destruct (Q s) eqn:EQ; [done|]. cbn. rewrite HQ. done.
  - rewrite orb_false_r. by destruct (Q s).
Qed.

Lemma between_split x y z : x <= y <= z -> samples_between x z = samples_between x y ++ samples_between y z.
Proof.
  intros Hab. unfold samples_between. apply filter_sorted_split; [done| |].
  - intros s. destruct (Z.ltb_spec x (s_t s)), (Z.leb_spec (s_t s) y), (Z.ltb_spec y (s_t s)), (Z.leb_spec (s_t s) z); cbn; lia || done.
  - intros s s' [H1%Z.ltb_lt _]%andb_prop [_ H2%Z.leb_le]%andb_prop. lia.
Qed.

Lemma between_empty x y : y <= x -> samples_between x y = [].
Proof.
  intros Hxy. unfold samples_between. clear -Hxy. induction ss as [|s l IH]; [done|]. cbn [List.filter]. rewrite IH.
  by destruct (Z.ltb_spec x (s_t s)), (Z.leb_spec (s_t s) y); cbn; [lia|..].
Qed.

Lemma between_times x y : Forall (fun s => x < s_t s <= y) (samples_between x y).
Proof. apply Forall_forall. intros s Hs. apply list_elem_of_In, filter_In in Hs as [_ Hs]. apply andb_prop in Hs as [H1%Z.ltb_lt H2%Z.leb_le]. lia. Qed.

(** ** What is retained *)

Lemma count_dropped_spec {A} mint (d r : list (Z * A)) : Forall (fun p => p.1 <= mint) d -> Forall (fun p => mint < p.1) r -> r <> [] ->
  count_dropped mint (d ++ r) = Some (length d).
Proof.
  intros Hd Hr Hne. induction Hd as [|[t x] d Ht _ IH]; cbn.
  - destruct r as [|[t x] r]; [done|]. apply Forall_cons in Hr as [Ht _]. cbn in *. by rewrite (proj2 (Z.leb_gt _ _)).
  - cbn in Ht. rewrite (proj2 (Z.leb_le _ _)) by done. by rewrite IH.
Qed.

Definition last_point_time {A} (mint : Z) (r : list (Z * A)) : Z := match last r with Some (t, _) => t | None => mint end.

Lemma retain_spec {A} (size : list (Z * A) -> Z) mint d r starts current :
  Forall (fun p => p.1 <= mint) d -> Forall (fun p => mint < p.1) r ->
  match starts with Some s => length s = length (d ++ r) | None => True end ->
  retain size mint (d ++ r) starts current = Some (r, drop (length d) <$> starts, last_point_time mint r, current - size d).
Proof.
  intros Hd Hr Hst. unfold retain, last_point_time. destruct r as [|x r _] using rev_ind.
  - rewrite app_nil_r in *. cbn [last]. assert (Hs : (fun _ => []) <$> starts = drop (length d) <$> starts).
    { destruct starts as [s|]; [|done]. cbn. by rewrite <-Hst, drop_all. }
    rewrite Hs. destruct (last d) as [[t x]|] eqn:El; [|done]. apply last_Some in El as [d' ->]. apply Forall_app in Hd as [_ Hd]. apply Forall_cons in Hd as [Hd _].
    cbn in Hd. by rewrite (proj2 (Z.ltb_ge _ _)).
  - rewrite app_assoc, !last_snoc. destruct x as [t x]. rewrite <-app_assoc. pose proof Hr as Hr2. apply Forall_app in Hr2 as [_ Hx]. apply Forall_cons in Hx as [Hx _]. cbn in Hx.
    rewrite (proj2 (Z.ltb_lt _ _)) by done. rewrite (count_dropped_spec mint d (r ++ [(t, x)])); [|done|done|by destruct r]. cbn [mbind option_bind].
    rewrite drop_app_length, take_app_length. destruct starts as [s|]; [|done]. rewrite length_app in Hst.
    destruct (Nat.ltb_spec (length s) (length d)); [lia|done].
Qed.

(** ** What is added *)

(** A sample is added to the points if it is late enough. *)
Definition add_sample (mintF mintH : Z) (x : sample) (s : range_slice) : range_slice + selector_error :=
  match f_point x, h_point x with
  | Some (t, f), _ => if mintF <? t then append_float maxSamples t f (s_st x) s else inl s
  | None, Some (t, h) => if mintH <? t then append_hist hist_size maxSamples t h (s_st x) s else inl s
  | None, None => inl s
  end.

Fixpoint add_samples (mintF mintH : Z) (l : list sample) (s : range_slice) : range_slice + selector_error :=
  match l with
  | [] => inl s
  | x :: l => match add_sample mintF mintH x s with inr e => inr e | inl s => add_samples mintF mintH l s end
  end.

Lemma add_samples_app mF mH l l' s : add_samples mF mH (l ++ l') s = match add_samples mF mH l s with inr e => inr e | inl s => add_samples mF mH l' s end.
Proof. revert s. induction l as [|x l IH]; intros s; [done|]. cbn. destruct (add_sample mF mH x s); [apply IH|done]. Qed.

Lemma buffer_loop_spec r kept mF mH : ring_holds r (map ring_of kept) -> forall fuel k it s, ri_clean r it -> ri_i it = Z.of_nat k - 1 ->
  (length kept < fuel + k)%nat -> (k <= length kept)%nat ->
  buffer_loop ToFloat hist_size maxSamples fuel r it mF mH s = Some (add_samples mF mH (drop k kept) s).
Proof.
  intros Hr fuel. induction fuel as [|fuel IH]; intros k it s Hc Hi Hf Hk; [lia|]. cbn [buffer_loop].
  destruct (ri_Next_spec r _ it k Hr Hc Hi) as (it' & Hi' & Hc' & Hn). rewrite list_lookup_fmap in Hn.
  destruct (kept !! k) as [x|] eqn:Ex; cbn [fmap option_fmap option_map] in Hn.
  2:{ rewrite Hn. cbn [mbind option_bind]. apply lookup_ge_None in Ex. by rewrite drop_ge. }
  pose proof (lookup_lt_Some _ _ _ Ex) as Hlt. rewrite (drop_S _ _ _ Ex). cbn [add_samples].
  assert (Hrec : forall s, buffer_loop ToFloat hist_size maxSamples fuel r it' mF mH s = Some (add_samples mF mH (drop (S k) kept) s))
    by (intros s1; apply IH; [done|lia|lia|lia]).
  destruct Hn as [-> (R1 & R2 & R3)]. cbn [mbind option_bind]. rewrite ring_of_T in R2. unfold add_sample, f_point, h_point. unfold ring_of in R1, R3 |- *.
  destruct (s_h x) as [h|]; cbn [rs_Type hs_h fhs_fh fs_f rs_ST hs_st fhs_st fs_st] in *.
  - unfold ri_AtFloatHistogram. destruct R3 as [-> ->]. rewrite R1, R2. cbn [mbind option_bind].
    destruct (mH <? s_t x) eqn:Em; destruct (IsStaleNaN (Sum (ToFloat h))); cbn; rewrite ?Em, ?Hrec; try done; by destruct (append_hist _ _ _ _ _ _).
  - destruct (s_fh x) as [fh|]; cbn [rs_Type hs_h fhs_fh fs_f rs_ST hs_st fhs_st fs_st] in *.
    + unfold ri_AtFloatHistogram. rewrite R3, R1, R2. cbn [mbind option_bind].
      destruct (mH <? s_t x) eqn:Em; destruct (IsStaleNaN (Sum fh)); cbn; rewrite ?Em, ?Hrec; try done; by destruct (append_hist _ _ _ _ _ _).
    + unfold ri_At. rewrite R1, R2, R3. destruct (IsStaleNaN (s_f x)); [by rewrite Hrec|]. destruct (mF <? s_t x); [|by rewrite Hrec]. by destruct (append_float _ _ _ _ _).
Qed.

Lemma sought_sample_spec b skipped kept after maxt mF mH s : buffered_at b skipped kept after -> mF < maxt -> mH < maxt ->
  sought_sample hist_size maxSamples (type_at after) maxt b s =
    Some (match after with [] => inl s | x :: _ => if s_t x =? maxt then add_sample mF mH x s else inl s end).
Proof.
  intros [_ _ Hi _ _ _] HF HH. destruct after as [|x after]; [done|]. cbn [type_at]. cbn [it_at] in Hi. destruct (rep_on _ _ _ _ Hi) as [_ (A1 & A2 & A3)].
  assert (Hb : bool_decide (s_t x = maxt) = (s_t x =? maxt)) by (apply eq_bool_prop_intro; rewrite bool_decide_spec; by rewrite Is_true_true, Z.eqb_eq).
  unfold add_sample, f_point, h_point. pose proof (fun h => Hconv _ _ _ h Hi) as Hcv. unfold sample_Type in *. unfold sought_sample.
  destruct (s_h x) as [h|].
  - rewrite A1. cbn [mbind option_bind]. rewrite Hb. destruct (Z.eqb_spec (s_t x) maxt) as [Et|]; [|done]. rewrite (Hcv h eq_refl). cbn [mbind option_bind].
    destruct (IsStaleNaN (Sum (ToFloat h))); [done|]. rewrite A2. cbn [mbind option_bind]. by rewrite (proj2 (Z.ltb_lt mH _)) by lia.
  - destruct (s_fh x) as [fh|].
    + rewrite A1. cbn [mbind option_bind]. rewrite Hb. destruct (Z.eqb_spec (s_t x) maxt) as [Et|]; [|done]. rewrite A3. cbn [mbind option_bind].
      destruct (IsStaleNaN (Sum fh)); [done|]. rewrite A2. cbn [mbind option_bind]. by rewrite (proj2 (Z.ltb_lt mH _)) by lia.
    + rewrite A3. cbn [mbind option_bind]. rewrite Hb. destruct (Z.eqb_spec (s_t x) maxt) as [Et|]; [|done]. cbn [andb].
      destruct (IsStaleNaN (s_f x)); [done|]. cbn [negb]. rewrite A2. cbn [mbind option_bind]. by rewrite (proj2 (Z.ltb_lt mF _)) by lia.
Qed.

(** All samples of [l], unless they are too many. *)
Definition extend (l : list sample) (s : range_slice) : range_slice :=
  mk_slice (sl_floats s ++ omap f_point l) (sl_hists s ++ omap h_point l)
    ((fun st => mk_starts (st_Floats st ++ omap f_start l) (st_Histograms st ++ omap h_start l)) <$> sl_starts s) (sl_current s + points_cost l).

Lemma extend_nil s : extend [] s = s.
Proof. unfold extend. cbn. rewrite !app_nil_r, Z.add_0_r. destruct s as [f h [[a c]|] n]; cbn; [by rewrite !app_nil_r|done]. Qed.

Lemma extend_app l l' s : extend (l ++ l') s = extend l' (extend l s).
Proof.
  unfold extend. cbn. rewrite !omap_app, !app_assoc, points_cost_app, Z.add_assoc. f_equal. destruct (sl_starts s) as [[x y]|]; cbn; [|done]. by rewrite !app_assoc.
Qed.

Lemma point_kinds x : (f_point x = None \/ h_point x = None) /\ (forall p, f_point x = Some p -> p.1 = s_t x) /\ (forall p, h_point x = Some p -> p.1 = s_t x).
Proof.
  unfold f_point, h_point. destruct (s_h x) as [h|], (s_fh x) as [fh|];
    repeat match goal with |- context [IsStaleNaN ?v] => destruct (IsStaleNaN v) end; (split; [by auto|]); split; by intros p [= <-].
Qed.

(** Adding one late sample. *)
Lemma add_sample_late mF mH x s : mF < s_t x -> mH < s_t x ->
  add_sample mF mH x s = if decide (points_cost [x] = 0 \/ sl_current s + points_cost [x] <= maxSamples) then inl (extend [x] s) else inr ErrTooManySamples.
Proof.
  intros HF HH. destruct (point_kinds x) as (Hk & Hf & Hh). unfold add_sample, points_cost, extend, f_start, h_start. cbn [omap list_omap].
  destruct (f_point x) as [[t f]|] eqn:Ef.
  - destruct Hk as [|Hk]; [done|]. rewrite Hk. specialize (Hf _ eq_refl). cbn in Hf. subst t. rewrite (proj2 (Z.ltb_lt _ _)) by done. unfold append_float. unfold points_cost. cbn.
    rewrite Ef, Hk. cbn. rewrite app_nil_r. destruct (Z.ltb_spec maxSamples (sl_current s + 1)); [rewrite decide_False by lia; done|].
    rewrite decide_True by lia. unfold add_start_f. destruct (sl_starts s) as [[c d]|]; cbn; [by rewrite app_nil_r|done].
  - destruct (h_point x) as [[t h]|] eqn:Eh.
    + specialize (Hh _ eq_refl). cbn in Hh. subst t. rewrite (proj2 (Z.ltb_lt _ _)) by done. unfold append_hist. unfold points_cost, totalHPointSize. cbn.
      rewrite Ef, Eh. cbn. rewrite app_nil_r, Z.add_0_r. pose proof (size_pos h). destruct (Z.ltb_spec maxSamples (sl_current s + hist_size h)); [rewrite decide_False by lia; done|].
      rewrite decide_True by lia. unfold add_start_h. destruct (sl_starts s) as [[c d]|]; cbn; [by rewrite app_nil_r|done].
    + unfold points_cost, totalHPointSize. cbn. rewrite Ef, Eh. cbn. rewrite decide_True by (by left). rewrite !app_nil_r, Z.add_0_r. destruct s as [a1 a2 [[c d]|] a4]; cbn; [by rewrite !app_nil_r|done].
Qed.

Lemma add_samples_late mF mH l : forall s, Forall (fun x => mF < s_t x /\ mH < s_t x) l ->
  add_samples mF mH l s = if decide (points_cost l = 0 \/ sl_current s + points_cost l <= maxSamples) then inl (extend l s) else inr ErrTooManySamples.
Proof.
  induction l as [|x l IH]; intros s Hl; cbn [add_samples]; [by rewrite extend_nil, decide_True by (by left)|]. apply Forall_cons in Hl as [[H1 H2] Hl].
  rewrite add_sample_late by done. change (x :: l) with ([x] ++ l). rewrite extend_app, points_cost_app.
  pose proof (points_cost_nonneg [x]). pose proof (points_cost_nonneg l).
  destruct (decide (points_cost [x] = 0 \/ _)) as [Hd|Hd].
  - rewrite IH by done. assert (Ec : sl_current (extend [x] s) = sl_current s + points_cost [x]) by done. rewrite Ec.
    destruct (decide (points_cost l = 0 \/ _)), (decide (points_cost [x] + points_cost l = 0 \/ _)); try done; lia.
  - rewrite decide_False by lia. done.
Qed.

(** Samples whose points are all retained already change nothing. *)
Lemma add_samples_old mF mH l s : Forall (fun x => (forall p, f_point x = Some p -> p.1 <= mF) /\ (forall p, h_point x = Some p -> p.1 <= mH)) l ->
  add_samples mF mH l s = inl s.
Proof.
  intros Hl. induction Hl as [|x l [H1 H2] _ IH]; [done|]. cbn [add_samples]. unfold add_sample. destruct (f_point x) as [[t f]|].
  - specialize (H1 _ eq_refl). cbn in H1. rewrite (proj2 (Z.ltb_ge _ _)) by done. exact IH.
  - destruct (h_point x) as [[t h]|]; [|exact IH]. specialize (H2 _ eq_refl). cbn in H2. rewrite (proj2 (Z.ltb_ge _ _)) by done. exact IH.
Qed.

(** ** matrixIterSlice *)

Lemma start_lengths l : length (omap f_start l) = length (omap f_point l) /\ length (omap h_start l) = length (omap h_point l).
Proof.
  induction l as [|x l [IH1 IH2]]; [done|]. cbn. unfold f_start at 1, h_start at 1. split; [destruct (f_point x)|destruct (h_point x)]; cbn; by rewrite ?IH1, ?IH2.
Qed.

Lemma omap_times {A} (g : sample -> option (Z * A)) (P : Z -> Prop) l : (forall x p, g x = Some p -> p.1 = s_t x) ->
  Forall (fun x => P (s_t x)) l -> Forall (fun p => P p.1) (omap g l).
Proof.
  intros Hg Hl. apply Forall_forall. intros p Hp. apply list_elem_of_omap in Hp as (x & Hx & E). rewrite (Hg _ _ E). rewrite Forall_forall in Hl. by apply Hl.
Qed.

Lemma f_point_time x p : f_point x = Some p -> p.1 = s_t x.
Proof. apply point_kinds. Qed.
Lemma h_point_time x p : h_point x = Some p -> p.1 = s_t x.
Proof. apply point_kinds. Qed.

Lemma last_time_bounds {A} (mint M : Z) (r : list (Z * A)) : mint <= M -> Forall (fun p => mint < p.1 <= M) r -> StronglySorted Z.lt (map fst r) ->
  mint <= last_point_time mint r <= M /\ Forall (fun p => p.1 <= last_point_time mint r) r.
Proof.
  intros HM Hr Hs. unfold last_point_time. destruct r as [|[t x] r _] using rev_ind; [cbn; split; [lia|constructor]|]. rewrite last_snoc.
  pose proof Hr as Hr2. apply Forall_app in Hr2 as [_ Hx]. apply Forall_cons in Hx as [Hx _]. cbn in Hx. split; [lia|].
  rewrite map_app in Hs. apply Forall_app. split; [|apply Forall_singleton; cbn; lia]. apply Forall_forall. intros p Hp.
  assert (p.1 < t); [|lia]. eapply StronglySorted_app_1_elem_of; [exact Hs|by apply list_elem_of_fmap_2|by left].
Qed.

Lemma omap_sorted {A} (g : sample -> option (Z * A)) l : (forall x p, g x = Some p -> p.1 = s_t x) -> StronglySorted Z.lt (map s_t l) ->
  StronglySorted Z.lt (map fst (omap g l)).
Proof.
  intros Hg. induction l as [|x l IH]; intros Hs; cbn; [constructor|]. cbn in Hs. apply StronglySorted_inv in Hs as [Hs Hx]. destruct (g x) as [p|] eqn:E; [|by apply IH].
  cbn. constructor; [by apply IH|]. rewrite Forall_map in Hx |- *. rewrite (Hg _ _ E). by apply (omap_times g (fun t => s_t x < t)).
Qed.

Lemma filter_sorted (P : sample -> bool) l : StronglySorted Z.lt (map s_t l) -> StronglySorted Z.lt (map s_t (List.filter P l)).
Proof.
  induction l as [|x l IH]; intros Hs; [done|]. cbn in Hs |- *. apply StronglySorted_inv in Hs as [Hs Hx]. destruct (P x); [|by apply IH]. cbn.
  constructor; [by apply IH|]. rewrite Forall_map, Forall_forall in *. intros y Hy. apply list_elem_of_In, filter_In in Hy as [Hy _]. apply Hx. by apply list_elem_of_In.
Qed.

(** The points of the step before that are retained, for both kinds. *)
Lemma retain_slice keep mintp maxtp mint current : mintp <= mint ->
  let M := Z.max mint maxtp in
  let s := slice_of keep (samples_between mintp maxtp) current in
  let kept := samples_between mint M in
  exists current1,
  retain (fun l => Z.of_nat (length l)) mint (sl_floats s) (st_Floats <$> sl_starts s) (sl_current s) =
    Some (omap f_point kept, (if keep then Some (omap f_start kept) else None), last_point_time mint (omap f_point kept), current1) /\
  retain (totalHPointSize hist_size) mint (sl_hists s) (st_Histograms <$> sl_starts s) current1 =
    Some (omap h_point kept, (if keep then Some (omap h_start kept) else None), last_point_time mint (omap h_point kept),
      current - points_cost (samples_between mintp maxtp) + points_cost kept).
Proof.
  intros Hm M s kept.
  assert (Hsplit : exists old, samples_between mintp maxtp = old ++ kept /\ Forall (fun x => s_t x <= mint) old).
  { unfold kept, M. destruct (Z.le_gt_cases maxtp mint) as [Hle|Hgt].
    - rewrite (between_empty mint (Z.max mint maxtp)) by lia. exists (samples_between mintp maxtp). rewrite app_nil_r. split; [done|].
      eapply Forall_impl; [apply between_times|]. cbn. lia.
    - rewrite Z.max_r by lia. exists (samples_between mintp mint). split; [by apply between_split; lia|]. eapply Forall_impl; [apply between_times|]. cbn. lia. }
  destruct Hsplit as (old & Eo & Hold). assert (Hkept : Forall (fun x => mint < s_t x) kept) by (eapply Forall_impl; [apply between_times|]; cbn; lia).
  pose proof (start_lengths old) as [L1 L2]. pose proof (start_lengths (old ++ kept)) as [L3 L4]. eexists. subst s. unfold slice_of. cbn [sl_floats sl_hists sl_starts sl_current].
  rewrite Eo. split.
  - rewrite (omap_app f_point). rewrite retain_spec.
    + rewrite <-L1. destruct keep; cbn; [rewrite omap_app, drop_app_length; reflexivity|reflexivity].
    + by apply (omap_times f_point (fun t => t <= mint)); [apply f_point_time|].
    + by apply (omap_times f_point (fun t => mint < t)); [apply f_point_time|].
    + destruct keep; cbn; [|done]. rewrite L3. by rewrite omap_app.
  - rewrite (omap_app h_point). rewrite retain_spec.
    + rewrite <-L2. assert (Ec : current - Z.of_nat (length (omap f_point old)) - totalHPointSize hist_size (omap h_point old) =
        current - points_cost (old ++ kept) + points_cost kept) by (rewrite points_cost_app; unfold points_cost; lia).
      cbv beta. rewrite L1, Ec. destruct keep; cbn; [rewrite omap_app, drop_app_length; reflexivity|reflexivity].
    + by apply (omap_times h_point (fun t => t <= mint)); [apply h_point_time|].
    + by apply (omap_times h_point (fun t => mint < t)); [apply h_point_time|].
    + destruct keep; cbn; [|done]. rewrite L4. by rewrite omap_app.
Qed.

(** What is read from the buffer and the iterator: the samples after [M]. *)
Lemma late_samples b skipped kept after M maxt : buffered_at b skipped kept after -> M < maxt ->
  Forall (fun x => s_t x < maxt) (skipped ++ kept) -> Forall (fun x => maxt <= s_t x) after -> Forall (fun x => s_t x <= M) skipped ->
  samples_between M maxt = List.filter (fun x => M <? s_t x) kept ++ match after with x :: _ => if s_t x =? maxt then [x] else [] | [] => [] end.
Proof.
  intros Hb HM Hlt Hge Hsk. destruct (ba_sorted _ _ _ _ Hb) as [_ Hs]. destruct Hb as [E _ _ _ _ _]. unfold samples_between. rewrite E at 1. rewrite !List.filter_app.
  apply Forall_app in Hlt as [_ Hlt].
  assert (E1 : forall l, Forall (fun x => s_t x <= M) l -> List.filter (fun s => (M <? s_t s) && (s_t s <=? maxt)) l = []).
  { intros l Hl. induction Hl as [|x l Hx _ IH]; [done|]. cbn. by rewrite (proj2 (Z.ltb_ge _ _)). }
  assert (E2 : forall l, Forall (fun x => maxt < s_t x) l -> List.filter (fun s => (M <? s_t s) && (s_t s <=? maxt)) l = []).
  { intros l Hl. induction Hl as [|x l Hx _ IH]; [done|]. cbn. by rewrite (proj2 (Z.leb_gt _ _)), andb_false_r. }
  rewrite (E1 skipped Hsk). cbn [app]. f_equal.
  - apply List.filter_ext_in. intros x Hx. apply list_elem_of_In in Hx. rewrite Forall_forall in Hlt. specialize (Hlt x Hx). rewrite (proj2 (Z.leb_le _ maxt)) by lia. by rewrite andb_true_r.
  - destruct after as [|x after]; [done|]. cbn in Hs. apply StronglySorted_inv in Hs as [_ Hx]. rewrite Forall_map in Hx. apply Forall_cons in Hge as [Hge _]. cbn.
    rewrite E2 by (eapply Forall_impl; [exact Hx|]; cbn; lia). rewrite (proj2 (Z.ltb_lt M _)) by lia. cbn [andb].
    destruct (Z.eqb_spec (s_t x) maxt), (Z.leb_spec (s_t x) maxt); try lia; done.
Qed.

(** Points after the last retained one are new. *)
Lemma retained_bounds mint M : mint <= M ->
  let mF := last_point_time mint (omap f_point (samples_between mint M)) in
  let mH := last_point_time mint (omap h_point (samples_between mint M)) in
  mint <= mF <= M /\ Forall (fun p => p.1 <= mF) (omap f_point (samples_between mint M)) /\
  mint <= mH <= M /\ Forall (fun p => p.1 <= mH) (omap h_point (samples_between mint M)).
Proof.
  intros HM mF mH. assert (Hks : StronglySorted Z.lt (map s_t (samples_between mint M))) by by apply filter_sorted. pose proof (between_times mint M) as Hkt.
  destruct (last_time_bounds mint M (omap f_point (samples_between mint M))) as [B1 B2]; [lia| |by apply omap_sorted; [apply f_point_time|]|].
  { by apply (omap_times f_point (fun t => mint < t <= M)); [apply f_point_time|]. }
  destruct (last_time_bounds mint M (omap h_point (samples_between mint M))) as [B3 B4]; [lia| |by apply omap_sorted; [apply h_point_time|]|done].
  by apply (omap_times h_point (fun t => mint < t <= M)); [apply h_point_time|].
Qed.

Lemma add_samples_retained mint M mF mH l s : Forall (fun x => x ∈ ss) l -> mint <= mF -> mint <= mH ->
  Forall (fun p => p.1 <= mF) (omap f_point (samples_between mint M)) -> Forall (fun p => p.1 <= mH) (omap h_point (samples_between mint M)) ->
  add_samples mF mH l s = add_samples mF mH (List.filter (fun x => M <? s_t x) l) s.
Proof.
  intros Hin HF HH BF BH. revert s. rewrite Forall_forall in BF. rewrite Forall_forall in BH.
  assert (Hold : forall x, x ∈ ss -> mint < s_t x -> s_t x <= M -> x ∈ samples_between mint M).
  { intros x Hx H1 H2. apply list_elem_of_In, filter_In. split; [by apply list_elem_of_In|]. by rewrite (proj2 (Z.ltb_lt _ _)), (proj2 (Z.leb_le _ _)). }
  induction Hin as [|x l Hx _ IH]; intros s; [done|]. cbn [List.filter].
  destruct (Z.ltb_spec M (s_t x)) as [Hlate|Hle]; cbn [add_samples]; [destruct (add_sample mF mH x s); [by apply IH|done]|].
  assert (Ho : add_samples mF mH [x] s = inl s).
  { apply add_samples_old, Forall_singleton. split; intros p Hp; destruct (Z.le_gt_cases (s_t x) mint) as [Hxm|Hxm].
    - rewrite (f_point_time _ _ Hp). lia.
    - apply BF, list_elem_of_omap. exists x. split; [by apply Hold|done].
    - rewrite (h_point_time _ _ Hp). lia.
    - apply BH, list_elem_of_omap. exists x. split; [by apply Hold|done]. }
  cbn [add_samples] in Ho. destruct (add_sample mF mH x s) as [s2|e]; [|done]. injection Ho as ->. by apply IH.
Qed.

(** The points of the step before, [mintp] to [maxtp], become those of this one;
    the query fails if and only if there are new points and they are too many. *)
Lemma matrixIterSlice_spec fuel b keep mintp maxtp mint maxt current :
  mintp <= mint -> mint <= maxt -> maxtp <= maxt -> (mint < maxt -> maxtp < maxt) ->
  seek_ready b maxt -> seek_bounds (r_delta (bf_buf b)) maxt -> maxt - r_delta (bf_buf b) <= Z.max mint maxtp + 1 -> (length ss < fuel)%nat ->
  let current' := current - points_cost (samples_between mintp maxtp) + points_cost (samples_between mint maxt) in
  if decide (points_cost (samples_between (Z.max mint maxtp) maxt) = 0 \/ current' <= maxSamples)
  then exists b', matrixIterSlice ToFloat hist_size maxSamples fuel b mint maxt (slice_of keep (samples_between mintp maxtp) current) =
         Some (inl (b', slice_of keep (samples_between mint maxt) current')) /\
       (b' = b /\ mint = maxt \/ sought_at b' maxt) /\ r_delta (bf_buf b') = r_delta (bf_buf b) /\ bf_delta b' = bf_delta b
  else matrixIterSlice ToFloat hist_size maxSamples fuel b mint maxt (slice_of keep (samples_between mintp maxtp) current) = Some (inr ErrTooManySamples).
Proof.
  intros Hm1 Hm2 Hm3 Hm4 Hready Hbd Hcov Hf current'. set (M := Z.max mint maxtp) in *. set (kept := samples_between mint M).
  destruct (retain_slice keep mintp maxtp mint current Hm1) as (current1 & R1 & R2). fold M in R1, R2. fold kept in R1, R2.
  unfold matrixIterSlice. rewrite R1. cbn [mbind option_bind]. rewrite R2. cbn [mbind option_bind].
  set (s1 := mk_slice (omap f_point kept) (omap h_point kept) _ _).
  assert (Es1 : s1 = slice_of keep kept (current - points_cost (samples_between mintp maxtp) + points_cost kept)) by (unfold s1, slice_of; by destruct keep).
  clearbody s1. subst s1. set (s1 := slice_of _ kept _).
  assert (Hext : M <= maxt -> extend (samples_between M maxt) s1 = slice_of keep (samples_between mint maxt) current').
  { intros HM. rewrite (between_split mint M maxt) by lia. unfold extend, s1, slice_of. cbn [sl_floats sl_hists sl_starts sl_current]. fold kept. rewrite !omap_app.
    unfold current'. rewrite (between_split mint M maxt) by lia. fold kept. rewrite points_cost_app, Z.add_assoc. f_equal. by destruct keep. }
  destruct (Z.eqb_spec mint maxt) as [Heq|Hne].
  { assert (HM : M = maxt) by lia. rewrite HM, (between_empty maxt maxt) by lia. rewrite decide_True by (by left). exists b.
    rewrite HM, (between_empty maxt maxt) in Hext by lia. rewrite extend_nil in Hext. rewrite Hext by lia. split; [done|]. split; [by left|done]. }
  assert (HM : M < maxt) by lia.
  destruct (buffered_Seek_spec fuel maxt b Hready Hbd Hf) as (b' & after & -> & Hso & Hty & Ed1 & Ed2). cbn [mbind option_bind].
  destruct Hso as (sk & kp & af & Hb & Hlt & Hge & Hsk). pose proof Hb as [_ Hr Hi Hty2 _ _].
  assert (Herr : Err (bf_it b') = []) by (destruct af as [|x af]; cbn [it_at] in Hi; [destruct Hi as [o Hi]|]; by eapply rep_err). rewrite Herr.
  set (mF := last_point_time mint (omap f_point kept)). set (mH := last_point_time mint (omap h_point kept)).
  destruct (retained_bounds mint M) as (B1 & B2 & B3 & B4); [lia|]. fold kept in B1, B2, B3, B4. fold mF mH in B1, B2, B3, B4.
  assert (Hin : Forall (fun x => x ∈ ss) kp) by (apply Forall_forall; intros x Hx; destruct Hb as [E _ _ _ _ _]; rewrite E, !elem_of_app; auto).
  pose proof (fun s => add_samples_retained mint M mF mH kp s Hin (proj1 B1) (proj1 B3) B2 B4) as Hall.
  assert (Hloop : buffer_loop ToFloat hist_size maxSamples (S (Z.to_nat (r_l (bf_buf b')))) (bf_buf b') new_iterator mF mH s1 = Some (add_samples mF mH kp s1)).
  { apply (buffer_loop_spec (bf_buf b') kp mF mH Hr _ 0); [done|done| |lia]. rewrite (ring_length _ _ Hr), length_map. lia. }
  assert (Hcur : type_at after = type_at af) by (by rewrite <-Hty, Hty2).
  assert (Hres : (r ← buffer_loop ToFloat hist_size maxSamples (S (Z.to_nat (r_l (bf_buf b')))) (bf_buf b') new_iterator mF mH s1;
     match r with
     | inr e => Some (inr e)
     | inl s => r ← sought_sample hist_size maxSamples (type_at af) maxt b' s; Some (match r with inr e => inr e | inl s => inl (b', s) end)
     end) = Some (match add_samples mF mH (samples_between M maxt) s1 with inl s => inl (b', s) | inr e => inr e end)).
  { rewrite Hloop. cbn [mbind option_bind]. rewrite Hall.
    rewrite (late_samples b' sk kp af M maxt Hb HM Hlt Hge) by (eapply Forall_impl; [exact Hsk|]; cbn; rewrite Ed1; lia).
    rewrite add_samples_app. destruct (add_samples mF mH (List.filter _ kp) s1) as [s2|e]; [|done].
    rewrite (sought_sample_spec b' sk kp af maxt mF mH s2 Hb) by lia. cbn [mbind option_bind]. destruct af as [|x af]; [done|]. destruct (s_t x =? maxt); [|done].
    cbn [add_samples]. by destruct (add_sample mF mH x s2). }
  rewrite Hcur. assert (Hlate : Forall (fun x => mF < s_t x /\ mH < s_t x) (samples_between M maxt)) by (eapply Forall_impl; [apply between_times|]; cbn; lia).
  rewrite (add_samples_late mF mH _ s1 Hlate) in Hres. rewrite Hext in Hres by lia.
  assert (Hcost : sl_current s1 + points_cost (samples_between M maxt) = current').
  { unfold s1, current'. cbn [slice_of sl_current]. rewrite (between_split mint M maxt) by lia. rewrite points_cost_app. fold kept. lia. }
  rewrite Hcost in Hres.
  revert Hres. destruct (decide (points_cost (samples_between M maxt) = 0 \/ current' <= maxSamples)) as [Hd|Hd]; intros Hres.
  - exists b'. split; [|split; [right; by exists sk, kp, af|done]]. destruct (type_at af); exact Hres.
  - destruct (type_at af); exact Hres.
Qed.
End BufferSpec.
