(* ===== verification/RangeFunction.v ===== *)
(** What a function with a range selector is called with (RangeSelector): at every
    step of a query, and for every series, the points of the range of that step. *)
From stdpp Require Import sorting.
From S2P Require Import Prelude Xor RecordHistogram SeriesIterator Labels HeadChunks VectorMatching Lookback SampleRing RangeSelector.

Section RangeFunction.
  Context {I : Type} `{!SampleIterator I, !SampleIteratorLaws I}.
  Variable ToFloat : Histogram -> FloatHistogram.
  Variable hist_size : FloatHistogram -> Z.
  Hypothesis size_pos : forall h, 0 < hist_size h.
  Variable maxSamples : Z.
  Variables MetricTypeLabel MetricUnitLabel : gostr.
  Variable enableDelayedNameRemoval : bool.
  Variable call : Z -> nat -> Labels -> FPoints -> HPoints -> option StartTimestamps -> option (Z * option FloatHistogram).
  Variable mode : selector_mode.
  Variables selRange offset lookback interval : Z.
  Variables fixed_time keep_starts : bool.
  Hypothesis ranges_pos : 0 <= selRange /\ 0 <= lookback /\ 0 < interval.
  (** The first step. *)
  Variable start : Z.

Notation bufferRange := (bufferRange mode selRange lookback).
Notation step_bounds := (step_bounds mode selRange offset lookback).
Notation points_cost := (points_cost ToFloat hist_size).
Notation call_steps := (call_steps ToFloat hist_size maxSamples call mode selRange offset lookback interval fixed_time).

(** The range of a step, and that its limits do not wrap around. *)
Definition step_range (ts : Z) : Z * Z :=
  let hi := match mode with SmoothedSelector => ts - offset + lookback | _ => ts - offset end in (hi - bufferRange, hi).

Definition step_fits (ts : Z) : Prop :=
  ts - offset <= MaxInt64 /\ (step_range ts).2 <= MaxInt64 /\ MinInt64 < (step_range ts).1 /\ MinInt64 <= (step_range ts).2 - 2 * bufferRange.

Lemma step_bounds_range ts : step_fits ts -> step_bounds ts = step_range ts.
Proof.
  intros (F1 & F2 & F3 & F4). destruct ranges_pos as (P1 & P2 & P3). unfold RangeSelector.step_bounds, step_range, RangeSelector.bufferRange in *.
  cbn [fst snd] in *. destruct mode; rewrite (i64_id (ts - offset)), (i64_id (ts - offset - selRange)) by (unfold is_i64; lia).
  - f_equal; lia.
  - rewrite (i64_id (ts - offset - selRange - lookback)) by (unfold is_i64; lia). f_equal; lia.
  - rewrite (i64_id (ts - offset - selRange - lookback)), (i64_id (ts - offset + lookback)) by (unfold is_i64; lia). f_equal; lia.
Qed.

(** The times of the steps, and the range that is read at one. *)
Definition step_time (k : nat) : Z := start + Z.of_nat k * interval.
Definition range_at (k : nat) : Z * Z := step_range (if fixed_time then start else step_time k).
Definition range_window (ss : list sample) (k : nat) : list sample := samples_between ss (range_at k).1 (range_at k).2.

(** The result of a step is added, if there are points. *)
Definition step_output (ss : list sample) (metric : Labels) (k : nat) (out : MSeries) : MSeries :=
  let s := slice_of ToFloat keep_starts (range_window ss k) 0 in
  match sl_floats s, sl_hists s with
  | [], [] => out
  | _, _ => append_output (step_time k) (call (step_time k) k metric (sl_floats s) (sl_hists s) (sl_starts s)) out
  end.

Fixpoint steps_output (ss : list sample) (metric : Labels) (n k : nat) (out : MSeries) : MSeries :=
  match n with O => out | S n => steps_output ss metric n (S k) (step_output ss metric k out) end.

(** A step whose points are too many, beside the [base] samples of before. *)
Definition overfull (ss : list sample) (base : Z) (k : nat) : Prop := points_cost (range_window ss k) <> 0 /\ maxSamples < base + points_cost (range_window ss k).

Lemma buffer_pos : 0 <= bufferRange.
Proof. unfold RangeSelector.bufferRange. destruct ranges_pos as (P1 & P2 & P3). destruct mode; lia. Qed.

Section OneSeries.
  Variable ss : list sample.
  Hypothesis Hsorted : StronglySorted Z.lt (map s_t ss).
  Hypothesis Hmin : Forall (fun s => MinInt64 < s_t s) ss.
  Hypothesis Hconv : converts (I := I) ToFloat ss.
  Variable fuel : nat.
  Hypothesis Hfuel : (length ss < fuel)%nat.
  Variable metric : Labels.
  (** The samples from before the series. *)
  Variable base : Z.

(** Before step [k]: the points are those of [lo] to [hi]. *)
Record step_ready (k : nat) (b : BufferedSeriesIterator I) (lo hi : Z) : Prop := {
  sr_ready : forall t, hi <= t -> seek_ready ss b t;
  sr_range : match k with O => lo = MinInt64 /\ hi = MinInt64 | S j => (lo, hi) = range_at j end;
  sr_sought : lo < hi -> sought_at ss b hi;
  sr_hi : hi <= MaxInt64;
  sr_delta : match k with O => r_delta (bf_buf b) = bufferRange | S _ => Z.min bufferRange interval <= r_delta (bf_buf b) <= bufferRange end;
  sr_fine : points_cost (samples_between ss lo hi) = 0 \/ base + points_cost (samples_between ss lo hi) <= maxSamples }.

Definition state (lo hi : Z) : range_slice := slice_of ToFloat keep_starts (samples_between ss lo hi) (base + points_cost (samples_between ss lo hi)).

Lemma no_points l : points_cost l = 0 <-> omap (f_point) l = [] /\ omap (h_point ToFloat) l = [].
Proof.
  unfold RangeSelector.points_cost. pose proof (totalHPointSize_nonneg hist_size size_pos (omap (h_point ToFloat) l)) as [H1 H2]. split.
  - intros H. split; [destruct (omap f_point l); [done|cbn [length] in H; lia]|apply H2; lia].
  - by intros [-> ->].
Qed.

(** The points of a step are fetched. *)
Lemma fetch_step k b lo hi : step_ready k b lo hi -> step_fits (step_time k) -> (k = O \/ fixed_time = false) ->
  let r := matrixIterSlice ToFloat hist_size maxSamples fuel b (step_bounds (step_time k)).1 (step_bounds (step_time k)).2 (state lo hi) in
  if decide (overfull ss base k) then r = Some (inr ErrTooManySamples)
  else exists b', r = Some (inl (b', state (range_at k).1 (range_at k).2)) /\
    (forall t, (range_at k).2 <= t -> seek_ready ss b' t) /\ ((range_at k).1 < (range_at k).2 -> sought_at ss b' (range_at k).2) /\
    Z.min bufferRange interval <= r_delta (bf_buf b') <= bufferRange /\ bf_delta b' = bf_delta b /\
    (points_cost (range_window ss k) = 0 \/ base + points_cost (range_window ss k) <= maxSamples).
Proof.
  intros [S1 S2 S3 _ S4 S5] Hfit Hk r. destruct ranges_pos as (P1 & P2 & P3). pose proof buffer_pos as HB.
  assert (Er : range_at k = step_range (step_time k)).
  { unfold range_at. destruct Hk as [->|Hk]; [|by rewrite Hk]. unfold step_time. rewrite Z.mul_0_l, Z.add_0_r. by destruct fixed_time. }
  subst r. rewrite (step_bounds_range _ Hfit). unfold range_window, overfull, range_window. rewrite Er. pose proof Hfit as (F1 & F2 & F3 & F4).
  set (mint := (step_range (step_time k)).1) in *. set (maxt := (step_range (step_time k)).2) in *.
  assert (Ew : mint = maxt - bufferRange) by done.
  assert (Hprev : lo <= mint /\ hi <= maxt /\ (mint < maxt -> hi < maxt) /\ maxt - r_delta (bf_buf b) <= Z.max mint hi + 1 /\ 0 <= r_delta (bf_buf b) <= bufferRange /\
    Z.min bufferRange interval <= r_delta (bf_buf b)).
  { destruct k as [|j].
    - destruct S2 as [-> ->]. rewrite S4. lia.
    - destruct Hk as [|Hk]; [done|]. unfold range_at in S2. rewrite Hk in S2.
      assert (Hj : (step_range (step_time (S j))).2 = hi + interval /\ lo = hi - bufferRange).
      { unfold step_range in S2 |- *. injection S2 as -> ->. cbn [snd]. unfold step_time. destruct mode; lia. }
      fold maxt in Hj. lia. }
  destruct Hprev as (V1 & V2 & V3 & V4 & V5 & V6).
  pose proof (matrixIterSlice_spec ss Hsorted Hmin ToFloat Hconv hist_size size_pos maxSamples fuel b keep_starts lo hi mint maxt (base + points_cost (samples_between ss lo hi))
    V1 ltac:(lia) V2 V3 (S1 maxt V2) ltac:(unfold seek_bounds; lia) V4 Hfuel) as Hs. cbv zeta in Hs.
  replace (base + points_cost (samples_between ss lo hi) - points_cost (samples_between ss lo hi) + points_cost (samples_between ss mint maxt)) with (base + points_cost (samples_between ss mint maxt)) in Hs by lia.
  fold (state lo hi) (state mint maxt) in Hs.
  (* no new points: there were as many before *)
  assert (Hno : points_cost (samples_between ss (Z.max mint hi) maxt) = 0 -> points_cost (samples_between ss mint maxt) <> 0 -> base + points_cost (samples_between ss mint maxt) <= maxSamples).
  { intros H0 Hne. destruct (Z.le_gt_cases hi mint) as [Hle|Hgt]; [by rewrite Z.max_l in H0 by lia|]. rewrite Z.max_r in H0 by lia.
    rewrite (between_split ss Hsorted mint hi maxt) in Hne |- * by lia. rewrite points_cost_app in *.
    rewrite (between_split ss Hsorted lo mint hi), points_cost_app in S5 by lia. pose proof (points_cost_nonneg ToFloat hist_size size_pos (samples_between ss lo mint)). pose proof (points_cost_nonneg ToFloat hist_size size_pos (samples_between ss mint hi)). lia. }
  assert (Hsub : points_cost (samples_between ss mint maxt) = 0 -> points_cost (samples_between ss (Z.max mint hi) maxt) = 0).
  { intros H0. rewrite (between_split ss Hsorted mint (Z.max mint hi) maxt), points_cost_app in H0 by lia.
    pose proof (points_cost_nonneg ToFloat hist_size size_pos (samples_between ss mint (Z.max mint hi))). pose proof (points_cost_nonneg ToFloat hist_size size_pos (samples_between ss (Z.max mint hi) maxt)). lia. }
  destruct (decide (points_cost (samples_between ss mint maxt) <> 0 /\ _)) as [Hov|Hov].
  - rewrite decide_False in Hs; [exact Hs|]. intros [H0|H0]; [|lia]. specialize (Hno H0 (proj1 Hov)). lia.
  - assert (Hfine : points_cost (samples_between ss mint maxt) = 0 \/ base + points_cost (samples_between ss mint maxt) <= maxSamples) by lia.
    rewrite decide_True in Hs by (destruct Hfine; auto). destruct Hs as (b' & E & Hb & D1 & D2). exists b'. split; [exact E|].
    rewrite D1. split; [|split; [|split; [lia|by split]]].
    + intros t Ht. destruct Hb as [[-> _]|Hb]; [apply S1; lia|by eapply sought_ready].
    + intros Hlt. destruct Hb as [[_ ?]|Hb]; [lia|done].
Qed.

(** A step that is not fetched again, or was. *)
Lemma step_points k b lo hi : step_ready k b lo hi -> step_fits (step_time k) ->
  let r := if (k =? 0)%nat || negb fixed_time then matrixIterSlice ToFloat hist_size maxSamples fuel b (step_bounds (step_time k)).1 (step_bounds (step_time k)).2 (state lo hi)
    else Some (inl (b, state lo hi)) in
  if decide (overfull ss base k) then r = Some (inr ErrTooManySamples)
  else exists b', r = Some (inl (b', state (range_at k).1 (range_at k).2)) /\ step_ready (S k) b' (range_at k).1 (range_at k).2 /\ bf_delta b' = bf_delta b.
Proof.
  intros Hr Hfit r. destruct (decide (k = O \/ fixed_time = false)) as [Hk|Hk].
  - assert (Hc : (k =? 0)%nat || negb fixed_time = true) by (destruct Hk as [->| ->]; [done|apply orb_true_r]). subst r. rewrite Hc.
    pose proof (fetch_step k b lo hi Hr Hfit Hk) as H. cbv zeta in H. destruct (decide _); [exact H|]. destruct H as (b' & E & H1 & H2 & H3 & H4 & H5).
    exists b'. split; [exact E|]. split; [|done]. split; try done.
    unfold range_at. destruct Hfit as (_ & F & _). destruct Hk as [->| ->]; [|done]. unfold step_time in *. rewrite Z.mul_0_l, Z.add_0_r in F |- *. by destruct fixed_time.
  - assert (Hc : (k =? 0)%nat || negb fixed_time = false) by (destruct k; [destruct Hk; by left|]; destruct fixed_time; [done|destruct Hk; by right]). subst r. rewrite Hc.
    destruct k as [|j]; [destruct Hk; by left|]. destruct fixed_time eqn:Eft; [|destruct Hk; by right].
    assert (Er : range_at (S j) = (lo, hi)) by (destruct Hr as [_ -> _ _ _ _]; unfold range_at; by rewrite Eft). unfold overfull, range_window. rewrite Er. cbn [fst snd].
    destruct Hr as [R1 R2 R3 R4 R5 R6]. rewrite decide_False by (intros [H1 H2]; lia). exists b. split; [done|]. split; [|done]. split; try done.
Qed.

Lemma between_range lo hi : samples_between ss lo hi <> [] -> lo < hi.
Proof. intros Hne. destruct (Z.lt_ge_cases lo hi); [done|]. by rewrite between_empty in Hne. Qed.

Lemma call_steps_spec n : forall k b lo hi out, step_ready k b lo hi -> (forall j, (k <= j < k + n)%nat -> step_fits (step_time j)) ->
  let r := call_steps fuel metric (map step_time (seq k n)) k b (state lo hi) out in
  if decide (Exists (overfull ss base) (seq k n)) then r = Some (inr ErrTooManySamples)
  else exists b' lo' hi', r = Some (inl (b', state lo' hi', steps_output ss metric n k out)) /\ bf_delta b' = bf_delta b /\
    samples_between ss lo' hi' = match n with O => samples_between ss lo hi | S m => range_window ss (k + m) end.
Proof.
  induction n as [|n IH]; intros k b lo hi out Hr Hfit r; subst r; cbn [seq map RangeSelector.call_steps steps_output].
  { rewrite decide_False by (intros H; by inversion H). by exists b, lo, hi. }
  pose proof (step_points k b lo hi Hr (Hfit k ltac:(lia))) as Hp. cbv zeta in Hp. destruct (step_bounds (step_time k)) as [mint maxt]. cbn [fst snd] in Hp.
  destruct (decide (overfull ss base k)) as [Hov|Hov].
  { rewrite decide_True by (by left). by rewrite Hp. }
  destruct Hp as (b1 & -> & Hr1 & Ed1). cbn [mbind option_bind]. set (lo1 := (range_at k).1) in *. set (hi1 := (range_at k).2) in *.
  assert (Hnext : forall b2 out', step_ready (S k) b2 lo1 hi1 -> bf_delta b2 = bf_delta b -> out' = step_output ss metric k out ->
    if decide (Exists (overfull ss base) (k :: seq (S k) n)) then call_steps fuel metric (map step_time (seq (S k) n)) (S k) b2 (state lo1 hi1) out' = Some (inr ErrTooManySamples)
    else exists b' lo' hi', call_steps fuel metric (map step_time (seq (S k) n)) (S k) b2 (state lo1 hi1) out' =
      Some (inl (b', state lo' hi', steps_output ss metric n (S k) (step_output ss metric k out))) /\ bf_delta b' = bf_delta b /\ samples_between ss lo' hi' = range_window ss (k + n)).
  { intros b2 out' Hr2 Ed2 ->. specialize (IH (S k) b2 lo1 hi1 (step_output ss metric k out) Hr2 ltac:(intros j Hj; apply Hfit; lia)). cbv zeta in IH.
    destruct (decide (Exists (overfull ss base) (seq (S k) n))) as [He|He].
    - rewrite decide_True by (by right). exact IH.
    - rewrite decide_False by (rewrite Exists_cons; tauto). destruct IH as (b' & lo' & hi' & E & Ed & Ew). exists b', lo', hi'. split; [done|]. split; [congruence|].
      destruct n as [|n]; [by rewrite Nat.add_0_r|]. rewrite Ew. f_equal. lia. }
  assert (Es : state lo1 hi1 = slice_of ToFloat keep_starts (range_window ss k) (base + points_cost (range_window ss k))) by done.
  unfold step_output in Hnext. change (sl_floats (state lo1 hi1)) with (omap f_point (range_window ss k)). change (sl_hists (state lo1 hi1)) with (omap (h_point ToFloat) (range_window ss k)).
  change (sl_floats (slice_of ToFloat keep_starts (range_window ss k) 0)) with (omap f_point (range_window ss k)) in Hnext.
  change (sl_hists (slice_of ToFloat keep_starts (range_window ss k) 0)) with (omap (h_point ToFloat) (range_window ss k)) in Hnext.
  assert (Hred : range_window ss k <> [] -> exists ok b2, ReduceDelta (RangeSelector.stepRange mode selRange lookback interval) b1 = Some (ok, b2) /\
    step_ready (S k) b2 lo1 hi1 /\ bf_delta b2 = bf_delta b).
  { intros Hne. destruct Hr1 as [R1 R2 R3 R4 R5 R6]. pose proof (between_range _ _ Hne) as Hlt. destruct ranges_pos as (P1 & P2 & P3). pose proof buffer_pos as HB.
    unfold RangeSelector.stepRange. destruct (ReduceDelta_spec ss b1 hi1 (Z.min bufferRange interval) (R3 Hlt) R4 ltac:(lia)) as (ok & b2 & E & Hs & Ed & Ed2).
    exists ok, b2. split; [exact E|]. split; [|congruence]. split; try done; [intros t Ht; by eapply sought_ready|lia]. }
  unfold step_output. change (sl_floats (slice_of ToFloat keep_starts (range_window ss k) 0)) with (omap f_point (range_window ss k)).
  change (sl_hists (slice_of ToFloat keep_starts (range_window ss k) 0)) with (omap (h_point ToFloat) (range_window ss k)).
  destruct (omap f_point (range_window ss k)) as [|p ps] eqn:Ef; [destruct (omap (h_point ToFloat) (range_window ss k)) as [|q qs] eqn:Eh; [by apply Hnext|]|].
  - destruct Hred as (ok & b2 & -> & Hr2 & Ed2); [intros Hw; by rewrite Hw in Eh|]. cbn [mbind option_bind]. by apply Hnext.
  - destruct Hred as (ok & b2 & -> & Hr2 & Ed2); [intros Hw; by rewrite Hw in Ef|]. cbn [mbind option_bind]. by apply Hnext.
Qed.
End OneSeries.

(** ** All series *)

Notation IsMetadataLabel := (IsMetadataLabel MetricTypeLabel MetricUnitLabel).
Notation call_series := (call_series ToFloat hist_size maxSamples MetricTypeLabel MetricUnitLabel enableDelayedNameRemoval call mode selRange offset lookback interval fixed_time keep_starts).

(** A series with its labels, whether its name is to be dropped, its iterator and
    its samples. *)
Record ranged := mk_ranged { rg_labels : Labels; rg_drop : bool; rg_it : I; rg_samples : list sample }.

Section Series.
  Variable dropName : bool.

Definition result_labels (s : ranged) : option Labels :=
  if negb enableDelayedNameRemoval && (dropName || rg_drop s) then DropReserved IsMetadataLabel (rg_labels s) else Some (rg_labels s).

Definition ranged_ok (s : ranged) : Prop :=
  StronglySorted Z.lt (map s_t (rg_samples s)) /\ Forall (fun x => MinInt64 < s_t x) (rg_samples s) /\ converts (I := I) ToFloat (rg_samples s) /\
  rep (rg_it s) (fun x => x ∈ rg_samples s) (Fresh (map s_t (rg_samples s))) /\ is_Some (result_labels s).

(** The result for a series, over [n] steps. *)
Definition series_output (n : nat) (s : ranged) : MSeries :=
  steps_output (rg_samples s) (rg_labels s) n 0 (mk_MSeries (default (mk_Labels []) (result_labels s)) [] [] (dropName || rg_drop s)).
Definition output_size (o : MSeries) : Z := Z.of_nat (length (m_Floats o)) + totalHPointSize hist_size (m_Histograms o).
(** The points of the last step, which are still there when the result is counted. *)
Definition last_cost (n : nat) (s : ranged) : Z := match n with O => 0 | S m => points_cost (range_window (rg_samples s) m) end.

(** The reference: the matrix and the number of samples. *)
Fixpoint range_matrix (n : nat) (base : Z) (series : list ranged) (mat : list MSeries) : list MSeries * Z + selector_error :=
  match series with
  | [] => inl (mat, base)
  | s :: series =>
      let o := series_output n s in
      if decide (Exists (overfull (rg_samples s) base) (seq 0 n)) then inr ErrTooManySamples
      else if 0 <? output_size o then
        if maxSamples <? base + last_cost n s + output_size o then inr ErrTooManySamples else range_matrix n (base + output_size o) series (mat ++ [o])
      else range_matrix n base series mat
  end.

Lemma call_series_spec fuel n series : Forall ranged_ok series -> Forall (fun s => length (rg_samples s) < fuel)%nat series ->
  (forall j, (j < n)%nat -> step_fits (step_time j)) -> forall b s mat, bf_delta b = bufferRange ->
  call_series fuel dropName (map step_time (seq 0 n)) (map (fun s => (rg_labels s, rg_drop s, rg_it s)) series) b s mat =
    Some (range_matrix n (sl_current s - (Z.of_nat (length (sl_floats s)) + totalHPointSize hist_size (sl_hists s))) series mat).
Proof.
  intros Hok Hf Hfit. induction series as [|x series IH]; intros b s mat Hd; cbn [map RangeSelector.call_series range_matrix]; [done|].
  apply Forall_cons in Hok as [(K1 & K2 & K3 & K4 & K5) Hok]. apply Forall_cons in Hf as [Hf1 Hf]. set (base := sl_current s - _).
  destruct (buffered_Reset_spec (rg_samples x) K1 K2 (rg_it x) b K4) as (b1 & -> & Hready & Ed & Ed2). cbn [mbind option_bind].
  destruct K5 as [l Hl]. assert (Em : (if negb enableDelayedNameRemoval && (dropName || rg_drop x) then DropReserved IsMetadataLabel (rg_labels x) else Some (rg_labels x)) = Some l)
    by exact Hl. rewrite Em. cbn [mbind option_bind].
  assert (Hst : mk_slice [] [] (if keep_starts then Some (mk_starts [] []) else None) base = state (rg_samples x) base MinInt64 MinInt64).
  { unfold state. rewrite between_empty by lia. unfold slice_of. cbn. f_equal. unfold points_cost, totalHPointSize. cbn. lia. }
  rewrite Hst. assert (Hr0 : step_ready (rg_samples x) base 0 b1 MinInt64 MinInt64).
  { split; [intros t _; apply Hready|done|lia|done|by rewrite Ed, Hd|left; by rewrite between_empty by lia]. }
  pose proof (call_steps_spec (rg_samples x) K1 K2 K3 fuel Hf1 (rg_labels x) base n 0 b1 MinInt64 MinInt64 (mk_MSeries l [] [] (dropName || rg_drop x)) Hr0
    ltac:(intros j Hj; apply Hfit; lia)) as Hc. cbv zeta in Hc.
  assert (Ho : steps_output (rg_samples x) (rg_labels x) n 0 (mk_MSeries l [] [] (dropName || rg_drop x)) = series_output n x) by (unfold series_output; by rewrite Hl).
  rewrite Ho in Hc. destruct (decide (Exists _ _)); [by rewrite Hc|]. destruct Hc as (b2 & lo & hi & -> & Ed3 & Ew). cbn [mbind option_bind].
  assert (Hlast : points_cost (samples_between (rg_samples x) lo hi) = last_cost n x).
  { rewrite Ew. unfold last_cost. destruct n; [|done]. by rewrite between_empty by lia. }
  change (sl_current (state (rg_samples x) base lo hi)) with (base + points_cost (samples_between (rg_samples x) lo hi)). rewrite Hlast.
  fold (output_size (series_output n x)). set (size := output_size (series_output n x)).
  assert (Hcost : forall c, c + points_cost (samples_between (rg_samples x) lo hi) -
    (Z.of_nat (length (sl_floats (state (rg_samples x) base lo hi))) + totalHPointSize hist_size (sl_hists (state (rg_samples x) base lo hi))) = c).
  { intros c. unfold RangeSelector.points_cost, state, slice_of. cbn [sl_floats sl_hists]. lia. }
  destruct (0 <? size).
  - destruct (maxSamples <? _); [done|]. rewrite (IH Hok Hf) by congruence. cbn [sl_current sl_floats sl_hists]. f_equal. f_equal.
    rewrite <-Hlast. specialize (Hcost (base + size)). lia.
  - rewrite (IH Hok Hf) by congruence. f_equal. f_equal. exact (Hcost base).
Qed.

(** C16: a function with a range selector is called at every step, for every series
    that has any, with exactly the points of the range of the step that are no
    staleness markers, histograms converted, although the steps re-use each
    other's points and a narrow buffer; the results make up the series of the
    matrix.  The query fails exactly when the points of some step, or the results,
    are more than allowed. *)
Theorem range_function_points fuel nop end_ series current :
  rep nop (fun x => x ∈ []) (Fresh []) -> Forall ranged_ok series -> Forall (fun s => length (rg_samples s) < fuel)%nat series ->
  let n := Z.to_nat ((end_ - start) / interval + 1) in
  (forall j, (j < n)%nat -> step_fits (step_time j)) ->
  eval_range_function ToFloat hist_size maxSamples MetricTypeLabel MetricUnitLabel enableDelayedNameRemoval call mode selRange offset lookback interval fixed_time keep_starts
    fuel nop dropName start end_ (map (fun s => (rg_labels s, rg_drop s, rg_it s)) series) current =
  Some (range_matrix n current series []).
Proof.
  intros Hn Hok Hf n Hfit. unfold eval_range_function, NewBufferIterator.
  destruct (buffered_Reset_spec [] (SSorted_nil _) (List.Forall_nil _) nop (mk_buffered nop (newSampleRing bufferRange 0 ValNone) bufferRange 0 ValNone) Hn) as (b & -> & _ & _ & Hd).
  cbn [mbind option_bind]. assert (Hst : step_times start end_ interval = map step_time (seq 0 n)).
  { unfold step_times, seqZ. change (map ?f (?g <$> ?l)) with (map f (map g l)). rewrite map_map. apply map_ext. intros k. unfold step_time. f_equal. f_equal. lia. }
  rewrite Hst, (call_series_spec fuel n series Hok Hf Hfit) by exact Hd. cbn. by rewrite Z.sub_0_r.
Qed.
End Series.
End RangeFunction.

(** ** A query over two series *)

Definition range_samples : list (list sample) :=
  [[mk_sample 0 6 1 None None; mk_sample 0 12 2 None None; mk_sample 0 18 StaleNaN None None; mk_sample 0 20 4 None None; mk_sample 0 31 8 None None];
   [mk_sample 0 25 0 None (Some zero_Histogram)]].

Definition range_stored : list (ranged (I := listSeriesIterator)) :=
  map (fun l => mk_ranged (mk_Labels []) false (NewListSeriesIterator l) l) range_samples.

(** Adds the floats and counts the histograms. *)
Definition sum_points (_ : Z) (_ : nat) (_ : Labels) (f : FPoints) (h : HPoints) (_ : option StartTimestamps) : option (Z * option FloatHistogram) :=
  Some (foldr Z.add 0 (map snd f) + 100 * Z.of_nat (length h), None).

Definition sum_over_time (mode : selector_mode) (fixed_time : bool) (maxSamples : Z) : option (list MSeries * Z + selector_error) :=
  eval_range_function (fun h => h) (fun _ => 2) maxSamples [95; 116] [95; 117] false sum_points mode 15 0 5 10 fixed_time true 10 (NewListSeriesIterator []) true 10 40
    (map (fun s => (rg_labels s, rg_drop s, rg_it s)) range_stored) 0.

Definition sums (l : list (Z * Z)) : MSeries := mk_MSeries (mk_Labels []) l [] true.

(** The ranges are (-5, 10], (5, 20], (15, 30] and (25, 40]. *)
Example sum_plain : sum_over_time PlainSelector false 7 = Some (inl ([sums [(10, 1); (20, 7); (30, 4); (40, 8)]; sums [(30, 100)]], 5)).
Proof. vm_compute. reflexivity. Qed.

(** (-10, 15], (0, 25], (10, 35] and (20, 45]. *)
Example sum_smoothed : sum_over_time SmoothedSelector false 20 = Some (inl ([sums [(10, 3); (20, 7); (30, 14); (40, 8)]; sums [(20, 100); (30, 100); (40, 100)]], 7)).
Proof. vm_compute. reflexivity. Qed.

(** With a fixed time all steps have the points of the first. *)
Example sum_fixed : sum_over_time PlainSelector true 20 = Some (inl ([sums [(10, 1); (20, 1); (30, 1); (40, 1)]], 4)).
Proof. vm_compute. reflexivity. Qed.

Example sum_too_many : sum_over_time PlainSelector false 2 = Some (inr ErrTooManySamples).
Proof. vm_compute. reflexivity. Qed.

Lemma range_function_points_witness :
  sum_over_time PlainSelector false 7 =
    Some (range_matrix (fun h => h) (fun _ => 2) 7 [95; 116] [95; 117] false sum_points PlainSelector 15 0 5 10 false true 10 true 4 0 range_stored []).
Proof.
  apply (range_function_points (fun h => h) (fun _ => 2)).
  - intros h. lia.
  - lia.
  - apply (NewListSeriesIterator_rep []); constructor.
  - apply Forall_map. apply Forall_forall. intros l Hl. unfold range_samples in Hl.
    assert (Hs : StronglySorted Z.lt (map s_t l) /\ Forall (fun x => MinInt64 < s_t x) l /\ Forall (fun x => s_h x = None) l).
    { repeat (apply elem_of_cons in Hl as [->|Hl]; [split_and!; cbn; repeat constructor|]). by apply elem_of_nil in Hl. }
    destruct Hs as (H1 & H2 & H3). split; [done|]. split; [done|]. split; [|split; [|by eexists]].
    + intros i s l' h Hr Hh. destruct (rep_on _ _ _ _ Hr) as [Hin _]. rewrite Forall_forall in H3. by rewrite (H3 s Hin) in Hh.
    + apply NewListSeriesIterator_rep; [done|]. by apply Forall_map.
  - repeat constructor.
  - intros j Hj. change (j < 4)%nat in Hj. do 4 (destruct j as [|j]; [repeat split; vm_compute; congruence|]). lia.
Defined.
