(* ===== verification/SendLoop.v ===== *)
(** notifier/sendloop.go: the queue of alerts for one Alertmanager, with the
    goroutine that sends them and the one that stops it.

    The operations are functions on the state of a send loop; the goroutines are
    program counters over them, and a step relation interleaves their steps with
    calls of add.  A critical section is one step.  add and stop are called with
    the lock of the alertmanagerSet held, so that there is no add while stop is
    running.  Encoding and HTTP are an outcome that the environment chooses;
    latencies and logging are left out.  [None] is a panic. *)
From S2P Require Import Prelude.

(** ** The state *)

(** What the metrics of an Alertmanager say; [None] is a series that does not exist. *)
Record alertMetrics := mk_alertMetrics { mt_sent : option Z; mt_dropped : option Z; mt_errors : option Z; mt_queueLength : option Z }.

(** WithLabelValues creates a series that is not there. *)
Definition with_value (n : Z) (m : option Z) : option Z := Some (default 0 m + n).

Definition DefaultMaxBatchSize : Z := 256.

Section SendLoop.
  Context {A : Type}.
  (** Options: QueueCapacity, MaxBatchSize and DrainOnShutdown. *)
  Variables QueueCapacity o_MaxBatchSize : Z.
  Variable DrainOnShutdown : bool.

(** NewManager replaces a batch size that was not given. *)
Definition MaxBatchSize : Z := if o_MaxBatchSize <=? 0 then DefaultMaxBatchSize else o_MaxBatchSize.

(** The channels: hasWork holds one token at most, stopped is closed or not. *)
Record sendLoop := mk_sendLoop { q_queue : list A; q_hasWork : bool; q_stopped : bool; q_metrics : alertMetrics }.

(** The capacity of the slice that is made must not be negative. *)
Definition newSendLoop (m : alertMetrics) : option sendLoop :=
  if QueueCapacity <? 0 then None
  else Some (mk_sendLoop [] false false (mk_alertMetrics (with_value 0 (mt_sent m)) (with_value 0 (mt_dropped m)) (with_value 0 (mt_errors m)) (with_value 0 (mt_queueLength m)))).

Definition add_dropped (n : Z) (s : sendLoop) : sendLoop :=
  let m := q_metrics s in
  mk_sendLoop (q_queue s) (q_hasWork s) (q_stopped s) (mk_alertMetrics (mt_sent m) (with_value n (mt_dropped m)) (mt_errors m) (mt_queueLength m)).
Definition set_queueLength (s : sendLoop) : sendLoop :=
  let m := q_metrics s in
  mk_sendLoop (q_queue s) (q_hasWork s) (q_stopped s) (mk_alertMetrics (mt_sent m) (mt_dropped m) (mt_errors m) (Some (Z.of_nat (length (q_queue s))))).

(** [l[d:]] panics beyond the end. *)
Definition slice_from (d : Z) (l : list A) : option (list A) :=
  if (d <? 0) || (Z.of_nat (length l) <? d) then None else Some (drop (Z.to_nat d) l).

(** The select of notifyWork: if both channels are ready, [pick] chooses. *)
Definition notifyWork (pick : bool) (s : sendLoop) : sendLoop :=
  if q_stopped s && (pick || q_hasWork s) then s else mk_sendLoop (q_queue s) true (q_stopped s) (q_metrics s).

(** add: the state and the alerts that are dropped for it, oldest first. *)
Definition add_alerts (alerts : list A) (s : sendLoop) : option (sendLoop * list A) :=
  if q_stopped s then Some (s, [])
  else
    let d := Z.of_nat (length alerts) - QueueCapacity in
    '(alerts, lost1) ← (if 0 <? d then rest ← slice_from d alerts; Some (rest, take (Z.to_nat d) alerts) else Some (alerts, []));
    let e := Z.of_nat (length (q_queue s)) + Z.of_nat (length alerts) - QueueCapacity in
    '(queue, lost2) ← (if 0 <? e then rest ← slice_from e (q_queue s); Some (rest, take (Z.to_nat e) (q_queue s)) else Some (q_queue s, []));
    let s := notifyWork false (mk_sendLoop (queue ++ alerts) (q_hasWork s) (q_stopped s) (q_metrics s)) in
    let s := set_queueLength s in
    let dropped := (if 0 <? d then d else 0) + (if 0 <? e then e else 0) in
    Some (if 0 <? dropped then add_dropped dropped s else s, lost2 ++ lost1).

Definition nextBatch (s : sendLoop) : option (list A * sendLoop) :=
  if MaxBatchSize <? Z.of_nat (length (q_queue s)) then
    rest ← slice_from MaxBatchSize (q_queue s);
    Some (take (Z.to_nat MaxBatchSize) (q_queue s), set_queueLength (mk_sendLoop rest (q_hasWork s) (q_stopped s) (q_metrics s)))
  else Some (q_queue s, set_queueLength (mk_sendLoop [] (q_hasWork s) (q_stopped s) (q_metrics s))).

Definition queueLen (s : sendLoop) : Z := Z.of_nat (length (q_queue s)).

(** What became of a batch: sent, refused, or not encoded. *)
Inductive send_outcome := Delivered | Refused | NotEncoded.

(** sendAll and the rest of sendOneBatch; an empty batch is not sent. *)
Definition finish_batch (batch : list A) (o : send_outcome) (s : sendLoop) : sendLoop :=
  match batch with
  | [] => s
  | _ =>
      let n := Z.of_nat (length batch) in
      let m := q_metrics s in
      let m := match o with
        | Delivered => mk_alertMetrics (with_value n (mt_sent m)) (mt_dropped m) (mt_errors m) (mt_queueLength m)
        | Refused => mk_alertMetrics (mt_sent m) (with_value n (mt_dropped m)) (with_value n (mt_errors m)) (mt_queueLength m)
        | NotEncoded => mk_alertMetrics (mt_sent m) (with_value n (mt_dropped m)) (mt_errors m) (mt_queueLength m)
        end in
      mk_sendLoop (q_queue s) (q_hasWork s) (q_stopped s) m
  end.

Definition close_stopped (s : sendLoop) : sendLoop := mk_sendLoop (q_queue s) (q_hasWork s) true (q_metrics s).
Definition take_work (s : sendLoop) : sendLoop := mk_sendLoop (q_queue s) false (q_stopped s) (q_metrics s).
Definition delete_metrics (s : sendLoop) : sendLoop := mk_sendLoop (q_queue s) (q_hasWork s) (q_stopped s) (mk_alertMetrics None None None None).

(** ** The goroutines *)

(** loop: at the first select, at the second, with a token taken, while a batch is
    sent, before queueLen, before notifyWork, and returned. *)
Inductive loop_pc := LTop | LWait | LGot | LSending (batch : list A) | LCheck | LMore | LDone.

(** stop: not called, before the queue is counted, in drainQueue, with a batch to
    take, while it is sent, before the metrics are deleted, and returned. *)
Inductive stop_pc := SIdle | SCount | SDrain | STake | SSending (batch : list A) | SMetrics | SDone.

Record world := mk_world { w_loop : sendLoop; w_pc : loop_pc; w_stop : stop_pc }.

Inductive loop_event :=
  | EAdd (alerts lost : list A)
  | ETake (batch : list A)
  | EFinish (batch : list A) (o : send_outcome)
  | ETau.

(** The steps of the goroutine. *)
Inductive loop_step : world -> loop_event -> world -> Prop :=
  | loop_top_stopped s p : q_stopped s = true -> loop_step (mk_world s LTop p) ETau (mk_world s LDone p)
  | loop_top s p : q_stopped s = false -> loop_step (mk_world s LTop p) ETau (mk_world s LWait p)
  | loop_wait_stopped s p : q_stopped s = true -> loop_step (mk_world s LWait p) ETau (mk_world s LDone p)
  | loop_wait s p : q_hasWork s = true -> loop_step (mk_world s LWait p) ETau (mk_world (take_work s) LGot p)
  | loop_take s p batch s' : nextBatch s = Some (batch, s') -> loop_step (mk_world s LGot p) (ETake batch) (mk_world s' (LSending batch) p)
  | loop_send s p batch o : loop_step (mk_world s (LSending batch) p) (EFinish batch o) (mk_world (finish_batch batch o s) LCheck p)
  | loop_check_more s p : 0 < queueLen s -> loop_step (mk_world s LCheck p) ETau (mk_world s LMore p)
  | loop_check s p : queueLen s = 0 -> loop_step (mk_world s LCheck p) ETau (mk_world s LTop p)
  | loop_notify s p pick : loop_step (mk_world s LMore p) ETau (mk_world (notifyWork pick s) LTop p).

(** The steps of stop. *)
Inductive stop_step : world -> loop_event -> world -> Prop :=
  | stop_drain s c : DrainOnShutdown = true -> stop_step (mk_world s c SIdle) ETau (mk_world (close_stopped s) c SDrain)
  | stop_count s c : DrainOnShutdown = false -> stop_step (mk_world s c SIdle) ETau (mk_world (close_stopped s) c SCount)
  | stop_drop s c : stop_step (mk_world s c SCount) ETau (mk_world (add_dropped (queueLen s) s) c SMetrics)
  | stop_more s c : 0 < queueLen s -> stop_step (mk_world s c SDrain) ETau (mk_world s c STake)
  | stop_empty s c : queueLen s = 0 -> stop_step (mk_world s c SDrain) ETau (mk_world s c SMetrics)
  | stop_take s c batch s' : nextBatch s = Some (batch, s') -> stop_step (mk_world s c STake) (ETake batch) (mk_world s' c (SSending batch))
  | stop_send s c batch o : stop_step (mk_world s c (SSending batch)) (EFinish batch o) (mk_world (finish_batch batch o s) c SDrain)
  | stop_metrics s c : stop_step (mk_world s c SMetrics) ETau (mk_world (delete_metrics s) c SDone).

(** A call of add, while stop is not running. *)
Inductive add_step : world -> loop_event -> world -> Prop :=
  | add_alerts_step s c p alerts lost s' : p = SIdle \/ p = SDone -> add_alerts alerts s = Some (s', lost) ->
      add_step (mk_world s c p) (EAdd (if q_stopped s then [] else alerts) lost) (mk_world s' c p).

Definition any_step (w : world) (e : loop_event) (w' : world) : Prop := loop_step w e w' \/ stop_step w e w' \/ add_step w e w'.

(** The worlds that are reached, with the events on the way. *)
Inductive reached (m : alertMetrics) : world -> list loop_event -> Prop :=
  | reached_new s : newSendLoop m = Some s -> reached m (mk_world s LTop SIdle) []
  | reached_step w tr e w' : reached m w tr -> any_step w e w' -> reached m w' (tr ++ [e]).

(** Runs without a call of add. *)
Inductive quiet_steps : nat -> world -> world -> Prop :=
  | quiet_refl w : quiet_steps 0 w w
  | quiet_cons n w e w' w'' : loop_step w e w' \/ stop_step w e w' -> quiet_steps n w' w'' -> quiet_steps (S n) w w''.

(** ** What a run did *)

Definition ev_added (e : loop_event) : list A := match e with EAdd alerts _ => alerts | _ => [] end.
Definition ev_lost (e : loop_event) : list A := match e with EAdd _ lost => lost | _ => [] end.
Definition ev_taken (e : loop_event) : list A := match e with ETake batch => batch | _ => [] end.
Definition ev_done (e : loop_event) : list A := match e with EFinish batch _ => batch | _ => [] end.
Definition ev_sent (e : loop_event) : list A := match e with EFinish batch Delivered => batch | _ => [] end.
Definition ev_refused (e : loop_event) : list A := match e with EFinish batch Refused => batch | _ => [] end.
Definition ev_unsent (e : loop_event) : list A := match e with EFinish batch (Refused | NotEncoded) => batch | _ => [] end.
(** The alerts of one kind in a run, in order. *)
Definition all (f : loop_event -> list A) (tr : list loop_event) : list A := concat (f <$> tr).
Definition count (f : loop_event -> list A) (tr : list loop_event) : Z := Z.of_nat (length (all f tr)).

(** The batches that the goroutines hold. *)
Definition in_flight (w : world) : list A :=
  (match w_pc w with LSending batch => batch | _ => [] end) ++ (match w_stop w with SSending batch => batch | _ => [] end).

(** The metrics count: stop did not drop alerts unseen, nor delete the metrics. *)
Definition metrics_kept (p : stop_pc) : bool :=
  match p with SMetrics | SDone => false | _ => true end.

(** What the metrics say after a run that started with [m]. *)
Definition metrics_exact (m : alertMetrics) (w : world) (tr : list loop_event) : Prop :=
  q_metrics (w_loop w) = mk_alertMetrics (with_value (count ev_sent tr) (mt_sent m))
    (with_value (count ev_lost tr + count ev_unsent tr) (mt_dropped m))
    (with_value (count ev_refused tr) (mt_errors m))
    (mt_queueLength (q_metrics (w_loop w))).


(** ** The operations *)

Lemma slice_from_Some (d : Z) (l rest : list A) :
  slice_from d l = Some rest -> 0 <= d <= Z.of_nat (length l) /\ rest = drop (Z.to_nat d) l.
Proof. unfold slice_from. destruct (Z.ltb_spec d 0), (Z.ltb_spec (Z.of_nat (length l)) d); intros ?; simplify_eq/=. split; [lia|done]. Qed.

Lemma slice_from_ok (d : Z) (l : list A) : 0 <= d <= Z.of_nat (length l) -> slice_from d l = Some (drop (Z.to_nat d) l).
Proof. unfold slice_from. intros. rewrite (proj2 (Z.ltb_ge d 0)), (proj2 (Z.ltb_ge _ d)); [done|lia..]. Qed.

(** Cutting the front of a list off when it is [d] too long. *)
Lemma cut_front_spec (d : Z) (l rest lost : list A) :
  (if 0 <? d then r ← slice_from d l; Some (r, take (Z.to_nat d) l) else Some (l, [])) = Some (rest, lost) ->
  l = lost ++ rest /\ (if 0 <? d then d else 0) = Z.of_nat (length lost) /\ (0 < d -> d <= Z.of_nat (length l)).
Proof.
  destruct (Z.ltb_spec 0 d); [|intros [= <- <-]; split; [done|simpl; lia]].
  intros (r & [Hd ->]%slice_from_Some & [= <- <-])%bind_Some. rewrite take_drop, length_take. split; [done|lia].
Qed.

Lemma cut_front_ok (d : Z) (l : list A) : d <= Z.of_nat (length l) ->
  exists rest lost, (if 0 <? d then r ← slice_from d l; Some (r, take (Z.to_nat d) l) else Some (l, [])) = Some (rest, lost).
Proof. intros. destruct (Z.ltb_spec 0 d); [|eauto]. rewrite slice_from_ok by lia. simpl. eauto. Qed.

Lemma with_value_0 (m : option Z) n : with_value n (with_value 0 m) = with_value n m.
Proof. unfold with_value. simpl. f_equal. lia. Qed.
Lemma with_value_plus (m : option Z) a b : with_value a (with_value b m) = with_value (b + a) m.
Proof. unfold with_value. simpl. f_equal. lia. Qed.

Lemma add_alerts_spec alerts s s' lost : 0 <= QueueCapacity -> q_stopped s = false ->
  add_alerts alerts s = Some (s', lost) ->
  queueLen s' <= QueueCapacity /\ q_stopped s' = false /\ q_hasWork s' = true /\
  q_queue s ++ alerts ≡ₚ lost ++ q_queue s' /\ q_queue s' `suffix_of` q_queue s ++ alerts /\
  mt_sent (q_metrics s') = mt_sent (q_metrics s) /\ mt_errors (q_metrics s') = mt_errors (q_metrics s) /\
  (is_Some (mt_dropped (q_metrics s)) -> mt_dropped (q_metrics s') = with_value (Z.of_nat (length lost)) (mt_dropped (q_metrics s))).
Proof.
  unfold add_alerts. intros HQ Hs. rewrite Hs.
  intros ([rest1 lost1] & (E1 & L1 & _)%cut_front_spec & ([rest2 lost2] & (E2 & L2 & B2)%cut_front_spec & H)%bind_Some)%bind_Some.
  simplify_eq. rewrite L1, L2. unfold notifyWork, queueLen, set_queueLength, add_dropped. cbn.
  assert (Z.of_nat (length (rest2 ++ rest1)) <= QueueCapacity).
  { pose proof (f_equal length E2) as E3. rewrite !length_app in *. repeat case_match; lia. }
  assert (lost1 = [] \/ rest2 = []) as Hl.
  { rewrite !length_app in *. destruct lost1; [by left|right]. destruct rest2; [done|]. simpl in *. repeat case_match; lia. }
  assert (rest2 ++ rest1 `suffix_of` (lost2 ++ rest2) ++ lost1 ++ rest1).
  { destruct Hl as [-> | ->]; simpl; [exists lost2|exists ((lost2 ++ []) ++ lost1)]; by rewrite ?app_assoc. }
  rewrite E2. clear L1 L2 B2. case_match eqn:Hd; cbn; (repeat split); try done; try lia.
  all: try (rewrite <-!app_assoc; apply Permutation_app_head; solve_Permutation).
  - intros _. rewrite length_app. f_equal. lia.
  - intros [z ->]. rewrite length_app. unfold with_value. simpl. f_equal. lia.
Qed.

Lemma add_alerts_total alerts s : 0 <= QueueCapacity -> queueLen s <= QueueCapacity -> is_Some (add_alerts alerts s).
Proof.
  unfold add_alerts, queueLen. intros. destruct (q_stopped s); [eauto|].
  destruct (cut_front_ok (Z.of_nat (length alerts) - QueueCapacity) alerts) as (rest & lost & E); [lia|].
  rewrite E. simpl. apply cut_front_spec in E as (-> & L & _). rewrite length_app in L.
  destruct (cut_front_ok (Z.of_nat (length (q_queue s)) + Z.of_nat (length rest) - QueueCapacity) (q_queue s)) as (rest2 & lost2 & E2).
  { destruct (Z.ltb_spec 0 (Z.of_nat (length lost + length rest) - QueueCapacity)); lia. }
  rewrite E2. simpl. eauto.
Qed.

Lemma MaxBatchSize_pos : 0 < MaxBatchSize.
Proof. unfold MaxBatchSize, DefaultMaxBatchSize. case_match; lia. Qed.

Lemma nextBatch_spec s :
  exists batch s', nextBatch s = Some (batch, s') /\ q_queue s = batch ++ q_queue s' /\
    Z.of_nat (length batch) <= MaxBatchSize /\ (q_queue s <> [] -> batch <> []) /\
    q_hasWork s' = q_hasWork s /\ q_stopped s' = q_stopped s /\
    q_metrics s' = mk_alertMetrics (mt_sent (q_metrics s)) (mt_dropped (q_metrics s)) (mt_errors (q_metrics s)) (Some (queueLen s')).
Proof.
  pose proof MaxBatchSize_pos. unfold nextBatch. destruct (Z.ltb_spec MaxBatchSize (Z.of_nat (length (q_queue s)))).
  - rewrite slice_from_ok by lia. simpl. eexists _, _. split; [done|]. simpl. rewrite take_drop, length_take.
    repeat split; try lia. intros _. destruct (q_queue s); simpl in *; [lia|]. destruct (Z.to_nat MaxBatchSize) eqn:?; [lia|done].
  - exists (q_queue s). eexists. split; [done|]. cbn. rewrite app_nil_r. repeat split; try lia. done.
Qed.

(** What a goroutine that takes a batch finds. *)
Lemma nextBatch_inv s batch s' : nextBatch s = Some (batch, s') ->
  q_queue s = batch ++ q_queue s' /\ Z.of_nat (length batch) <= MaxBatchSize /\ (q_queue s <> [] -> batch <> []) /\
    q_hasWork s' = q_hasWork s /\ q_stopped s' = q_stopped s /\
    q_metrics s' = mk_alertMetrics (mt_sent (q_metrics s)) (mt_dropped (q_metrics s)) (mt_errors (q_metrics s)) (Some (queueLen s')).
Proof. intros H. destruct (nextBatch_spec s) as (b & s1 & E & R). by simplify_eq. Qed.

Lemma finish_batch_fields batch o s :
  q_queue (finish_batch batch o s) = q_queue s /\ q_hasWork (finish_batch batch o s) = q_hasWork s /\ q_stopped (finish_batch batch o s) = q_stopped s.
Proof. by destruct batch. Qed.

Lemma all_snoc f tr e : all f (tr ++ [e]) = all f tr ++ f e.
Proof. unfold all. rewrite fmap_app, concat_app. simpl. by rewrite app_nil_r. Qed.
Lemma count_snoc f tr e : count f (tr ++ [e]) = count f tr + Z.of_nat (length (f e)).
Proof. unfold count. rewrite all_snoc, length_app. lia. Qed.

(** ** What holds in every world that is reached *)

Definition stop_idle (p : stop_pc) : bool := match p with SIdle => true | _ => false end.
Definition drained (p : stop_pc) : bool := match p with SCount | SMetrics | SDone => DrainOnShutdown | _ => false end.
Definition at_select (c : loop_pc) : bool := match c with LTop | LWait => true | _ => false end.

Record sendLoop_inv (m : alertMetrics) (w : world) (tr : list loop_event) : Prop := {
  inv_cap : queueLen (w_loop w) <= QueueCapacity;
  inv_order : sublist (all ev_taken tr ++ q_queue (w_loop w)) (all ev_added tr);
  inv_newest : q_queue (w_loop w) `suffix_of` all ev_added tr;
  inv_lost : all ev_added tr ≡ₚ all ev_lost tr ++ all ev_taken tr ++ q_queue (w_loop w);
  inv_done : all ev_taken tr ≡ₚ all ev_done tr ++ in_flight w;
  inv_batches : Forall (fun e => Z.of_nat (length (ev_taken e)) <= MaxBatchSize) tr;
  inv_stopped : q_stopped (w_loop w) = negb (stop_idle (w_stop w));
  inv_exit : w_pc w = LDone -> q_stopped (w_loop w) = true;
  inv_work : q_stopped (w_loop w) = false -> q_queue (w_loop w) <> [] -> at_select (w_pc w) = true -> q_hasWork (w_loop w) = true;
  inv_drained : drained (w_stop w) = true -> q_queue (w_loop w) = [];
  inv_metrics : metrics_kept (w_stop w) = true -> metrics_exact m w tr
}.

(** Moving a batch from the queue into a goroutine's hands. *)
Lemma taken_order (taken batch queue queue' added : list A) :
  queue = batch ++ queue' -> sublist (taken ++ queue) added -> sublist ((taken ++ batch) ++ queue') (added ++ []).
Proof. intros -> H. by rewrite app_nil_r, <-app_assoc. Qed.
Lemma taken_lost (lost taken batch queue queue' added : list A) :
  queue = batch ++ queue' -> added ≡ₚ lost ++ taken ++ queue -> added ++ [] ≡ₚ (lost ++ []) ++ (taken ++ batch) ++ queue'.
Proof. intros -> H. by rewrite !app_nil_r, <-app_assoc. Qed.

Lemma taken_newest (batch queue queue' added : list A) :
  queue = batch ++ queue' -> queue `suffix_of` added -> queue' `suffix_of` added ++ [].
Proof. intros -> [k ->]. rewrite app_nil_r. exists (k ++ batch). by rewrite <-app_assoc. Qed.
Lemma added_order (taken queue queue' added alerts : list A) :
  queue' `suffix_of` queue ++ alerts -> sublist (taken ++ queue) added -> sublist (taken ++ queue') (added ++ alerts).
Proof.
  intros [k E] H. transitivity (taken ++ queue ++ alerts).
  - rewrite E. apply sublist_app; [done|]. by apply sublist_inserts_l.
  - rewrite app_assoc. by apply sublist_app.
Qed.
Lemma added_newest (queue queue' added alerts : list A) :
  queue' `suffix_of` queue ++ alerts -> queue `suffix_of` added -> queue' `suffix_of` added ++ alerts.
Proof. intros [k E] [k' ->]. exists (k' ++ k). rewrite <-!app_assoc. by rewrite <-E. Qed.

Lemma metrics_exact_tau m s s' c p c' p' tr : q_metrics s' = q_metrics s ->
  metrics_exact m (mk_world s c p) tr -> metrics_exact m (mk_world s' c' p') (tr ++ [ETau]).
Proof. unfold metrics_exact. cbn. intros -> H. rewrite !count_snoc. cbn. by rewrite !Z.add_0_r. Qed.

Lemma metrics_exact_take m s s' c p c' p' tr batch :
  q_metrics s' = mk_alertMetrics (mt_sent (q_metrics s)) (mt_dropped (q_metrics s)) (mt_errors (q_metrics s)) (Some (queueLen s')) ->
  metrics_exact m (mk_world s c p) tr -> metrics_exact m (mk_world s' c' p') (tr ++ [ETake batch]).
Proof. unfold metrics_exact. cbn. intros -> H. rewrite !count_snoc. cbn. rewrite !Z.add_0_r. by rewrite H. Qed.

Lemma metrics_exact_finish m s c p c' p' tr batch o :
  metrics_exact m (mk_world s c p) tr -> metrics_exact m (mk_world (finish_batch batch o s) c' p') (tr ++ [EFinish batch o]).
Proof.
  unfold metrics_exact. cbn. intros H. rewrite !count_snoc. destruct batch as [|a batch].
  - by destruct o; cbn; rewrite !Z.add_0_r.
  - destruct o; cbn; rewrite H; cbn; f_equal; rewrite ?with_value_plus; f_equal; lia.
Qed.

Lemma metrics_exact_add m s s' c p tr alerts lost :
  mt_sent (q_metrics s') = mt_sent (q_metrics s) -> mt_errors (q_metrics s') = mt_errors (q_metrics s) ->
  (is_Some (mt_dropped (q_metrics s)) -> mt_dropped (q_metrics s') = with_value (Z.of_nat (length lost)) (mt_dropped (q_metrics s))) ->
  metrics_exact m (mk_world s c p) tr -> metrics_exact m (mk_world s' c p) (tr ++ [EAdd alerts lost]).
Proof.
  unfold metrics_exact. cbn. intros E1 E2 E3 H. rewrite !count_snoc. destruct (q_metrics s') as [m1 m2 m3 m4] eqn:E.
  cbn in *. rewrite H in *. cbn in *. rewrite E1, E2, E3 by eauto. rewrite with_value_plus. f_equal; f_equal; lia.
Qed.

#[local] Arguments in_flight : simpl never.

Lemma inv_tau m s c p s' c' p' tr : sendLoop_inv m (mk_world s c p) tr ->
  q_queue s' = q_queue s -> in_flight (mk_world s' c' p') = in_flight (mk_world s c p) ->
  q_stopped s' = negb (stop_idle p') -> (c' = LDone -> q_stopped s' = true) ->
  (q_stopped s' = false -> q_queue s <> [] -> at_select c' = true -> q_hasWork s' = true) ->
  (drained p' = true -> q_queue s = []) ->
  (metrics_kept p' = true -> metrics_kept p = true /\ q_metrics s' = q_metrics s) ->
  sendLoop_inv m (mk_world s' c' p') (tr ++ [ETau]).
Proof.
  pose proof MaxBatchSize_pos.
  intros I Eq Ef Es He Hw Hd Hm. destruct I; cbn in *.
  split; rewrite ?all_snoc, ?app_nil_r; cbn; unfold queueLen in *; rewrite ?Eq, ?Ef, ?app_nil_r; try done.
  - apply Forall_app. split; [done|]. repeat constructor. cbn. lia.
  - intros Hk. destruct (Hm Hk) as [Hk' Em]. eauto using metrics_exact_tau.
Qed.

Lemma inv_take m s c p b s' c' p' tr : sendLoop_inv m (mk_world s c p) tr ->
  nextBatch s = Some (b, s') -> in_flight (mk_world s' c' p') ≡ₚ in_flight (mk_world s c p) ++ b ->
  stop_idle p' = stop_idle p -> (c' = LDone -> c = LDone) -> (at_select c' = true -> stop_idle p = false) ->
  (drained p' = true -> drained p = true) -> metrics_kept p' = metrics_kept p ->
  sendLoop_inv m (mk_world s' c' p') (tr ++ [ETake b]).
Proof.
  intros I (Eq & Lb & _ & _ & Es & Em)%nextBatch_inv Ef Ei He Hw Hd Hm. destruct I; cbn in *.
  assert (length (q_queue s') <= length (q_queue s))%nat by (rewrite Eq, length_app; lia).
  split; rewrite ?all_snoc; cbn; unfold queueLen in *.
  - lia.
  - eauto using taken_order.
  - eauto using taken_newest.
  - eauto using taken_lost.
  - rewrite app_nil_r, Ef, inv_done0. by rewrite <-app_assoc.
  - apply Forall_app. split; [done|]. repeat constructor. done.
  - congruence.
  - intros ->. rewrite Es. eauto.
  - intros Hs _ Hc. rewrite Es, inv_stopped0, (Hw Hc) in Hs. done.
  - intros Hk. rewrite (inv_drained0 (Hd Hk)) in Eq. by destruct b, (q_queue s').
  - rewrite Hm. eauto using metrics_exact_take.
Qed.

Lemma inv_finish m s c p b o c' p' tr : sendLoop_inv m (mk_world s c p) tr ->
  in_flight (mk_world s c p) ≡ₚ b ++ in_flight (mk_world s c' p') ->
  stop_idle p' = stop_idle p -> (c' = LDone -> c = LDone) -> (at_select c' = true -> stop_idle p = false) ->
  drained p' = false \/ p' = p -> metrics_kept p' = metrics_kept p ->
  sendLoop_inv m (mk_world (finish_batch b o s) c' p') (tr ++ [EFinish b o]).
Proof.
  pose proof MaxBatchSize_pos.
  intros I Ef Ei He Hw Hd Hm. destruct I; cbn in *. destruct (finish_batch_fields b o s) as (Eq & Ew & Es).
  split; rewrite ?all_snoc; cbn; unfold queueLen in *; rewrite ?app_nil_r, ?Eq, ?Es, ?Ew; try done.
  - rewrite inv_done0, Ef. unfold in_flight. cbn. by rewrite <-!app_assoc.
  - apply Forall_app. split; [done|]. repeat constructor. cbn. lia.
  - congruence.
  - eauto.
  - intros Hs _ Hc. rewrite inv_stopped0, (Hw Hc) in Hs. done.
  - intros Hk. destruct Hd as [Hd| ->]; [congruence|eauto].
  - rewrite Hm. intros Hk. specialize (inv_metrics0 Hk). eauto using metrics_exact_finish.
Qed.

Lemma inv_add m s c p alerts lost s' tr : 0 <= QueueCapacity -> sendLoop_inv m (mk_world s c p) tr ->
  p = SIdle \/ p = SDone -> add_alerts alerts s = Some (s', lost) ->
  sendLoop_inv m (mk_world s' c p) (tr ++ [EAdd (if q_stopped s then [] else alerts) lost]).
Proof.
  intros HQ I Hp H. pose proof MaxBatchSize_pos. destruct (q_stopped s) eqn:Hs.
  - unfold add_alerts in H. rewrite Hs in H. simplify_eq. destruct I; destruct Hp as [-> | ->]; cbn in *; [congruence|].
    split; rewrite ?all_snoc; cbn; rewrite ?app_nil_r; try done.
    apply Forall_app. split; [done|]. repeat constructor. cbn. lia.
  - destruct (add_alerts_spec alerts s s' lost HQ Hs H) as (Hc & Hs' & Hw & Hl & Ho & M1 & M2 & M3). destruct I; cbn in *.
    split; rewrite ?all_snoc; cbn; rewrite ?app_nil_r; try done.
    + eauto using added_order.
    + eauto using added_newest.
    + rewrite inv_lost0. transitivity (all ev_lost tr ++ all ev_taken tr ++ (q_queue s ++ alerts)); [by rewrite <-!app_assoc|].
      rewrite Hl. solve_Permutation.
    + apply Forall_app. split; [done|]. repeat constructor. cbn. lia.
    + congruence.
    + intros He. specialize (inv_exit0 He). congruence.
    + destruct Hp as [-> | ->]; cbn in *; congruence.
    + intros Hk. specialize (inv_metrics0 Hk). eauto using metrics_exact_add.
Qed.

Lemma loop_step_inv m w e w' tr : sendLoop_inv m w tr -> loop_step w e w' -> sendLoop_inv m w' (tr ++ [e]).
Proof.
  intros I H. pose proof I as J. destruct J as [_ _ _ _ _ _ Hst Hex Hwk Hdr _]. destruct H; cbn in *.
  all: try (eapply inv_tau; [exact I|..]; cbn; try done; eauto; fail).
  - eapply inv_take; [exact I|eassumption|..]; try done. unfold in_flight. cbn. by rewrite Permutation_app_comm.
  - eapply inv_finish; [exact I|..]; try done. by right.
  - eapply inv_tau; [exact I|..]; cbn; try done. intros _ Hq. unfold queueLen in *. destruct (q_queue s); simpl in *; [done|lia].
  - eapply inv_tau; [exact I|..]; unfold notifyWork; cbn; try done; destruct (q_stopped s) eqn:E; cbn; try case_match; cbn; try done.
    all: congruence.
Qed.

Lemma stop_step_inv m w e w' tr : sendLoop_inv m w tr -> stop_step w e w' -> sendLoop_inv m w' (tr ++ [e]).
Proof.
  intros I H. pose proof I as J. destruct J as [_ _ _ _ _ _ Hst Hex Hwk Hdr _]. destruct H; cbn in *.
  all: try (eapply inv_tau; [exact I|..]; cbn; try done; eauto; congruence).
  - eapply inv_tau; [exact I|..]; cbn; try done. intros _. unfold queueLen in *. destruct (q_queue s); simpl in *; [done|lia].
  - eapply inv_take; [exact I|eassumption|..]; try done. unfold in_flight. cbn. by rewrite app_nil_r.
  - eapply inv_finish; [exact I|..]; try done; [|by left]. unfold in_flight. cbn. rewrite app_nil_r. apply Permutation_app_comm.
Qed.

Lemma reached_capacity m w tr : reached m w tr -> 0 <= QueueCapacity.
Proof.
  induction 1 as [s Hs|]; [|done]. unfold newSendLoop in Hs. destruct (Z.ltb_spec QueueCapacity 0); [done|lia].
Qed.

Lemma reached_inv m w tr : reached m w tr -> sendLoop_inv m w tr.
Proof.
  induction 1 as [s Hs|w tr e w' R IH [H|[H|H]]]; [|by eapply loop_step_inv|by eapply stop_step_inv|].
  - unfold newSendLoop in Hs. destruct (Z.ltb_spec QueueCapacity 0); simplify_eq. by split.
  - destruct H. eapply inv_add; eauto using reached_capacity.
Qed.

(** ** Progress without a call of add *)

Definition if_left (s : sendLoop) (yes no : nat) : nat := match q_queue s with [] => no | _ => yes end.
(** How far the goroutines are from waiting, as a bound on their steps. *)
Definition loop_rank (s : sendLoop) (c : loop_pc) : nat :=
  match c with
  | LDone => 0 | LWait => 1 | LTop => 2 | LMore => 8 | LCheck => if_left s 9 3 | LSending _ => if_left s 10 4 | LGot => 5
  end.
Definition stop_rank (s : sendLoop) (p : stop_pc) : nat :=
  match p with
  | SDone => 0 | SMetrics => 1 | SCount => 2 | SDrain => if_left s 7 2 | STake => 6 | SSending _ => if_left s 8 3 | SIdle => 8
  end.
Definition rank (w : world) : nat :=
  7 * length (q_queue (w_loop w)) + (if q_hasWork (w_loop w) then 5 else 0) + loop_rank (w_loop w) (w_pc w) + stop_rank (w_loop w) (w_stop w).

Lemma nextBatch_rank s b s' : nextBatch s = Some (b, s') ->
  q_hasWork s' = q_hasWork s /\ (q_queue s = [] -> q_queue s' = []) /\
  (if_left s' 7 0 + 7 * length (q_queue s') <= 7 * length (q_queue s))%nat.
Proof.
  intros (Eq & _ & Hb & Ew & _ & _)%nextBatch_inv. split; [done|].
  split. { intros E. rewrite E in Eq. by destruct b, (q_queue s'). }
  unfold if_left. destruct (q_queue s') eqn:E1; [simpl; lia|].
  destruct (q_queue s) eqn:E2; [by destruct b|].
  destruct b as [|x b]; [by destruct Hb|]. pose proof (f_equal length Eq) as L. rewrite length_app in L. simpl in *. lia.
Qed.

Lemma quiet_step_rank w e w' : loop_step w e w' \/ stop_step w e w' -> (rank w' < rank w)%nat.
Proof.
  intros [H|H]; destruct H; unfold rank; cbn [w_loop w_pc w_stop].
  all: try match goal with H : nextBatch _ = _ |- _ => apply nextBatch_rank in H as (Ew & Hl & Hq); rewrite Ew end.
  all: try match goal with |- context [finish_batch ?b ?o ?s] => destruct (finish_batch_fields b o s) as (Eq & Ew & Es) end.
  all: try match goal with |- context [notifyWork ?pick ?s] => unfold notifyWork; destruct (q_stopped s && _) end.
  all: unfold stop_rank, loop_rank, if_left, queueLen in *; rewrite ?Eq, ?Ew; cbn.
  all: repeat case_match; simpl in *; naive_solver lia.
Qed.

Lemma quiet_steps_rank n w w' : quiet_steps n w w' -> (n + rank w' <= rank w)%nat.
Proof. induction 1 as [|n w e w1 w2 H _ IH]; [lia|]. apply quiet_step_rank in H. lia. Qed.

Lemma rank_bound w : (rank w <= 7 * length (q_queue (w_loop w)) + 23)%nat.
Proof. unfold rank, loop_rank, stop_rank, if_left. repeat case_match; lia. Qed.

Lemma quiet_steps_reached m n w w' tr : reached m w tr -> quiet_steps n w w' -> exists tr', reached m w' tr'.
Proof.
  intros R H. revert tr R. induction H as [|n w e w1 w2 H _ IH]; [eauto|]. intros tr R.
  apply (IH (tr ++ [e])). eapply reached_step; [exact R|]. destruct H; [by left|by right; left].
Qed.

(** The goroutine waits only when there is nothing to do. *)
Lemma loop_stuck m w tr : reached m w tr -> (forall e w', ~ loop_step w e w') ->
  if q_stopped (w_loop w) then w_pc w = LDone else w_pc w = LWait /\ q_queue (w_loop w) = [].
Proof.
  intros R%reached_inv H. destruct (inv_stopped _ _ _ R), R. destruct w as [s c p]. cbn in *. destruct c.
  - destruct (q_stopped s) eqn:E; destruct (H ETau (mk_world s (if q_stopped s then LDone else LWait) p)); rewrite E; by constructor.
  - destruct (q_stopped s) eqn:E; [destruct (H ETau (mk_world s LDone p)); by constructor|].
    split; [done|]. destruct (q_queue s) eqn:Eq; [done|]. destruct (H ETau (mk_world (take_work s) LGot p)). constructor. auto.
  - destruct (nextBatch_spec s) as (b & s' & E & _). destruct (H (ETake b) (mk_world s' (LSending b) p)). by constructor.
  - destruct (H (EFinish batch Delivered) (mk_world (finish_batch batch Delivered s) LCheck p)). constructor.
  - destruct (decide (queueLen s = 0)).
    + destruct (H ETau (mk_world s LTop p)). by constructor.
    + destruct (H ETau (mk_world s LMore p)). constructor. unfold queueLen in *. lia.
  - destruct (H ETau (mk_world (notifyWork true s) LTop p)). constructor.
  - by rewrite inv_exit0.
Qed.

Lemma stop_stuck w : (forall e w', ~ stop_step w e w') -> w_stop w = SDone.
Proof.
  intros H. destruct w as [s c p]. cbn. destruct p.
  - destruct DrainOnShutdown eqn:E.
    + destruct (H ETau (mk_world (close_stopped s) c SDrain)). by constructor.
    + destruct (H ETau (mk_world (close_stopped s) c SCount)). by constructor.
  - destruct (H ETau (mk_world (add_dropped (queueLen s) s) c SMetrics)). constructor.
  - destruct (decide (queueLen s = 0)).
    + destruct (H ETau (mk_world s c SMetrics)). by constructor.
    + destruct (H ETau (mk_world s c STake)). constructor. unfold queueLen in *. lia.
  - destruct (nextBatch_spec s) as (b & s' & E & _). destruct (H (ETake b) (mk_world s' c (SSending b))). by constructor.
  - destruct (H (EFinish batch Delivered) (mk_world (finish_batch batch Delivered s) c SDrain)). constructor.
  - destruct (H ETau (mk_world (delete_metrics s) c SDone)). constructor.
  - done.
Qed.

(** C8: Over any interleaving of add, the sending goroutine and stop, the queue
    stays within its capacity and holds the newest alerts, in order; batches take
    alerts in the order of add and are no larger than allowed; every alert that
    was added was dropped for newer ones, finished, is in flight, or is queued,
    each once; until stop deletes them the metrics say how many; and after a
    draining stop the queue is empty for good. *)
Theorem sendLoop_conserves m w tr : reached m w tr ->
  queueLen (w_loop w) <= QueueCapacity /\
  q_queue (w_loop w) `suffix_of` all ev_added tr /\
  sublist (all ev_taken tr ++ q_queue (w_loop w)) (all ev_added tr) /\
  Forall (fun e => Z.of_nat (length (ev_taken e)) <= MaxBatchSize) tr /\
  all ev_added tr ≡ₚ all ev_lost tr ++ all ev_done tr ++ in_flight w ++ q_queue (w_loop w) /\
  (metrics_kept (w_stop w) = true -> metrics_exact m w tr) /\
  (DrainOnShutdown = true -> w_stop w = SMetrics \/ w_stop w = SDone -> q_queue (w_loop w) = []).
Proof.
  intros R%reached_inv. destruct R. repeat split; try done.
  - rewrite inv_lost0, inv_done0. by rewrite <-!app_assoc.
  - intros Hd Hp. apply inv_drained0. by destruct Hp as [-> | ->].
Qed.

(** C26: Without a call of add the goroutines stop after a bounded number of steps,
    in whatever order they run.  The sending goroutine then waits with an empty
    queue, or has returned because the loop was stopped, so no wake-up is lost;
    stop has returned.  No call of add panics. *)
Theorem sendLoop_quiesces m w tr n w' : reached m w tr -> quiet_steps n w w' ->
  (n <= 7 * length (q_queue (w_loop w)) + 23)%nat /\
  ((forall e w'', ~ loop_step w' e w'') ->
    if q_stopped (w_loop w') then w_pc w' = LDone else w_pc w' = LWait /\ q_queue (w_loop w') = []) /\
  ((forall e w'', ~ stop_step w' e w'') -> w_stop w' = SDone) /\
  (forall alerts, is_Some (add_alerts alerts (w_loop w'))).
Proof.
  intros R Q. destruct (quiet_steps_reached _ _ _ _ _ R Q) as [tr' R']. split; [|split; [|split]].
  - pose proof (quiet_steps_rank _ _ _ Q). pose proof (rank_bound w). lia.
  - by eapply loop_stuck.
  - apply stop_stuck.
  - intros alerts. apply add_alerts_total; [by eapply reached_capacity|]. by destruct (reached_inv _ _ _ R').
Qed.
End SendLoop.

(** ** Examples *)

(** A loop with room for three alerts and batches of two. *)
Definition no_metrics : alertMetrics := mk_alertMetrics None None None None.
Definition fresh : sendLoop (A := Z) := mk_sendLoop [] false false (mk_alertMetrics (Some 0) (Some 0) (Some 0) (Some 0)).

(** Adding five alerts at once drops the two oldest. *)
Example add_five : add_alerts 3 [1; 2; 3; 4; 5] fresh =
  Some (mk_sendLoop [3; 4; 5] true false (mk_alertMetrics (Some 0) (Some 2) (Some 0) (Some 3)), [1; 2]).
Proof. reflexivity. Qed.

(** Then two more drop the oldest of the queue. *)
Example add_more : (add_alerts 3 [1; 2] fresh ≫= fun r => add_alerts 3 [3; 4; 5] r.1) =
  Some (mk_sendLoop [3; 4; 5] true false (mk_alertMetrics (Some 0) (Some 2) (Some 0) (Some 3)), [1; 2]).
Proof. reflexivity. Qed.

(** A batch is in flight when stop deletes the metrics; when it is delivered the
    series of sent alerts comes back and nobody deletes it again. *)
Lemma sent_after_stop : exists w tr, reached (A := Z) 3 2 true no_metrics w tr /\
  w_pc w = LCheck /\ w_stop w = SDone /\ q_metrics (w_loop w) = mk_alertMetrics (Some 1) None None None.
Proof.
  eexists _, _. split.
  - eapply (reached_step _ _ _ _ _ _ (EFinish [7] Delivered)); [|left; apply loop_send].
    eapply reached_step; [|right; left; apply stop_metrics].
    eapply reached_step; [|right; left; apply stop_empty].
    eapply reached_step; [|right; left; apply stop_drain].
    eapply (reached_step _ _ _ _ _ _ (ETake [7])); [|left; apply loop_take].
    eapply reached_step; [|left; apply loop_wait].
    eapply reached_step; [|left; apply loop_top].
    eapply reached_step; [|right; right; eapply (add_alerts_step _ _ _ _ [7]); [by left|]].
    { apply reached_new. reflexivity. }
    all: reflexivity.
  - done.
Qed.

(** Runs for the witnesses: a new loop, and the same after an add. *)
Lemma fresh_reached : reached (A := Z) 3 2 true no_metrics (mk_world fresh LTop SIdle) [].
Proof. by apply reached_new. Qed.
Lemma added_reached : reached (A := Z) 3 2 true no_metrics
  (mk_world (mk_sendLoop [3; 4; 5] true false (mk_alertMetrics (Some 0) (Some 2) (Some 0) (Some 3))) LTop SIdle) ([] ++ [EAdd [1; 2; 3; 4; 5] [1; 2]]).
Proof.
  eapply reached_step; [apply fresh_reached|]. right; right. apply (add_alerts_step _ fresh LTop SIdle [1; 2; 3; 4; 5]); [by left|reflexivity].
Qed.

Lemma sendLoop_conserves_witness : [1; 2; 3; 4; 5] ≡ₚ [1; 2] ++ [] ++ [] ++ [3; 4; 5].
Proof. apply (sendLoop_conserves 3 2 true no_metrics _ _ added_reached). Defined.

Lemma sendLoop_quiesces_witness : quiet_steps 2 true 1
    (mk_world (mk_sendLoop [3; 4; 5] true false (mk_alertMetrics (Some 0) (Some 2) (Some 0) (Some 3))) LTop SIdle)
    (mk_world (mk_sendLoop [3; 4; 5] true false (mk_alertMetrics (Some 0) (Some 2) (Some 0) (Some 3))) LWait SIdle) /\
  is_Some (add_alerts 3 [6] (mk_sendLoop [3; 4; 5] true false (mk_alertMetrics (Some 0) (Some 2) (Some 0) (Some 3)))).
Proof.
  assert (Q : quiet_steps 2 true 1
    (mk_world (mk_sendLoop [3; 4; 5] true false (mk_alertMetrics (Some 0) (Some 2) (Some 0) (Some 3))) LTop SIdle)
    (mk_world (mk_sendLoop [3; 4; 5] true false (mk_alertMetrics (Some 0) (Some 2) (Some 0) (Some 3))) LWait SIdle)).
  { eapply quiet_cons; [left; by apply loop_top|constructor]. }
  split; [exact Q|]. exact (proj2 (proj2 (proj2 (sendLoop_quiesces 3 2 true no_metrics _ _ 1 _ added_reached Q))) [6]).
Defined.
