(* ===== verification/Relabel.v ===== *)
(** model/relabel/relabel.go: relabelling rules, their validation and what they do
    to a label set in a builder.

    Regular expressions, Unicode case mapping, MD5 and the validation of label
    names are code of other modules: they are parameters.  A configuration points to its
    regular expression, as the code compares pointers.  [None] is a panic. *)
From S2P Require Import Prelude BitList Labels LabelBuilder.

(** ** Code outside *)

(** The methods of regexp.Regexp that are used; indexes are the submatches. *)
Class RegexpOps (R : Type) := {
  MatchString : R -> gostr -> bool;
  FindStringSubmatchIndex : R -> gostr -> option (list Z);
  ExpandString : R -> gostr -> gostr -> list Z -> gostr;
  ReplaceAllString : R -> gostr -> gostr -> gostr }.

(** common/model: ValidationScheme. *)
Inductive ValidationScheme := UnsetValidation | LegacyValidation | UTF8Validation | OtherValidation (n : Z).

(** strings.Contains(template, "$"). *)
Definition varInRegexTemplate (template : gostr) : bool := existsb (fun c => c =? 36) template.

(** strings.Join. *)
Definition Join (elems : list gostr) (sep : gostr) : gostr :=
  match elems with [] => [] | e :: elems => e ++ concat (map (fun e => sep ++ e) elems) end.

(** strconv.FormatUint in base 10; a uint64 has 20 digits at most. *)
Fixpoint format_digits (fuel : nat) (n : Z) (acc : gostr) : gostr :=
  match fuel with
  | O => acc
  | S fuel => let acc := (48 + n mod 10) :: acc in if n / 10 =? 0 then acc else format_digits fuel (n / 10) acc
  end.
Definition FormatUint (n : Z) : gostr := format_digits 20 n [].

Section Relabel.
  Context {R : Type} `{!RegexpOps R}.
  Variables (ToLower ToUpper : gostr -> gostr) (md5_Sum : gostr -> list Z) (IsValidLabelName : ValidationScheme -> gostr -> bool).

(** ** Configuration *)

Inductive Action :=
  | Replace | Keep | Drop | KeepEqual | DropEqual | HashMod | LabelMap | LabelDrop | LabelKeep | Lowercase | Uppercase
  | OtherAction (s : gostr).

#[global] Instance Action_eq_dec : EqDecision Action.
Proof. solve_decision. Defined.

(** A pointer to a compiled expression, and what it points to. *)
Definition Regexp := Z.
Variable re : Regexp -> R.
Definition same_regexp (r s : Regexp) : bool := r =? s.

(** A nil slice of source labels is [None]. *)
Record Config := mk_Config {
  SourceLabels : option (list gostr); Separator : gostr; Regex : Regexp; Modulus : Z;
  TargetLabel : gostr; Replacement : gostr; cfg_Action : Action; NameValidationScheme : ValidationScheme }.

(** The compiled "^(?s:(.*))$" of the default configuration, and relabelTargetLegacy. *)
Variables (DefaultRegex relabelTargetLegacy : Regexp).

Definition DefaultRelabelConfig : Config := mk_Config None [59] DefaultRegex 0 [] [36; 49] Replace UnsetValidation.

Inductive config_error :=
  | EmptyAction | ZeroModulus | NoTargetLabel | UnknownScheme | InvalidTargetLabel | ReplacementSet | InvalidReplacement | OnlyEqualFields | OnlyRegex.

Definition is_action (l : list Action) (c : Config) : bool := existsb (fun a => bool_decide (cfg_Action c = a)) l.

Definition valid_with_var (c : Config) (value : gostr) : bool :=
  match NameValidationScheme c with
  | UTF8Validation => IsValidLabelName UTF8Validation value
  | _ => MatchString (re relabelTargetLegacy) value
  end.

Definition with_scheme (s : ValidationScheme) (c : Config) : Config :=
  mk_Config (SourceLabels c) (Separator c) (Regex c) (Modulus c) (TargetLabel c) (Replacement c) (cfg_Action c) s.

Definition check_scheme (s : ValidationScheme) (c : Config) : option Config :=
  match NameValidationScheme c with
  | LegacyValidation | UTF8Validation => Some c
  | UnsetValidation => Some (with_scheme s c)
  | OtherValidation _ => None
  end.

Definition non_default (c : Config) : bool :=
  negb (Modulus c =? Modulus DefaultRelabelConfig) || negb (str_eqb (Separator c) (Separator DefaultRelabelConfig)) ||
  negb (str_eqb (Replacement c) (Replacement DefaultRelabelConfig)).

(** Validate: the first error, or the configuration with its scheme set. *)
Definition Config_Validate (nameValidationScheme : ValidationScheme) (c : Config) : config_error + Config :=
  if bool_decide (cfg_Action c = OtherAction []) then inl EmptyAction
  else if (Modulus c =? 0) && is_action [HashMod] c then inl ZeroModulus
  else if is_action [Replace; HashMod; Lowercase; Uppercase; KeepEqual; DropEqual] c && str_eqb (TargetLabel c) [] then inl NoTargetLabel
  else match check_scheme nameValidationScheme c with
  | None => inl UnknownScheme
  | Some c =>
    let valid := IsValidLabelName (NameValidationScheme c) in
    if is_action [Replace] c && negb (varInRegexTemplate (TargetLabel c)) && negb (valid (TargetLabel c)) then inl InvalidTargetLabel
    else if is_action [Replace] c && varInRegexTemplate (TargetLabel c) && negb (valid_with_var c (TargetLabel c)) then inl InvalidTargetLabel
    else if is_action [Lowercase; Uppercase; KeepEqual; DropEqual] c && negb (valid (TargetLabel c)) then inl InvalidTargetLabel
    else if is_action [Lowercase; Uppercase; KeepEqual; DropEqual] c && negb (str_eqb (Replacement c) (Replacement DefaultRelabelConfig)) then inl ReplacementSet
    else if is_action [LabelMap] c && negb (valid_with_var c (Replacement c)) then inl InvalidReplacement
    else if is_action [HashMod] c && negb (valid (TargetLabel c)) then inl InvalidTargetLabel
    else if is_action [DropEqual; KeepEqual] c && (negb (same_regexp (Regex c) DefaultRegex) || non_default c) then inl OnlyEqualFields
    else if is_action [LabelDrop; LabelKeep] c && (bool_decide (is_Some (SourceLabels c)) || negb (str_eqb (TargetLabel c) []) || non_default c) then inl OnlyRegex
    else inr c
  end.

(** ** Applying rules *)

(** The values of the source labels, joined. *)
Definition source_value (cfg : Config) (lb : Builder) : option gostr :=
  values ← mapM (Builder_Get lb) (default [] (SourceLabels cfg));
  Some (Join values (Separator cfg)).

(** lb.Range with a function that changes the builder: the labels are those before. *)
Definition range_update (f : Label -> Builder -> option Builder) (lb : Builder) : option Builder :=
  ls ← Builder_Range lb;
  foldl (fun lb l => lb ← lb; f l lb) (Some lb) ls.

Definition hash_mod (cfg : Config) (val : gostr) : option gostr :=
  if Modulus cfg =? 0 then None else Some (FormatUint (be_uint (drop 8 (md5_Sum val)) mod Modulus cfg)).

Definition relabel_replace (cfg : Config) (val : gostr) (lb : Builder) : option Builder :=
  if str_eqb val [] && same_regexp (Regex cfg) DefaultRegex && negb (varInRegexTemplate (TargetLabel cfg)) && negb (varInRegexTemplate (Replacement cfg))
  then Builder_Set lb (TargetLabel cfg) (Replacement cfg)
  else match FindStringSubmatchIndex (re (Regex cfg)) val with
  | None => Some lb
  | Some indexes =>
      let target := ExpandString (re (Regex cfg)) (TargetLabel cfg) val indexes in
      if negb (IsValidLabelName (NameValidationScheme cfg) target) then Some lb
      else
        let res := ExpandString (re (Regex cfg)) (Replacement cfg) val indexes in
        if Z.of_nat (length res) =? 0 then Builder_Del lb [target] else Builder_Set lb target res
  end.

Definition relabel (cfg : Config) (lb : Builder) : option (bool * Builder) :=
  val ← source_value cfg lb;
  let keep_if (b : bool) : option (bool * Builder) := Some (b, lb) in
  let done (lb : option Builder) : option (bool * Builder) := lb ← lb; Some (true, lb) in
  let matches (s : gostr) : bool := MatchString (re (Regex cfg)) s in
  match cfg_Action cfg with
  | Drop => keep_if (negb (matches val))
  | Keep => keep_if (matches val)
  | DropEqual => t ← Builder_Get lb (TargetLabel cfg); keep_if (negb (str_eqb t val))
  | KeepEqual => t ← Builder_Get lb (TargetLabel cfg); keep_if (str_eqb t val)
  | Replace => done (relabel_replace cfg val lb)
  | Lowercase => done (Builder_Set lb (TargetLabel cfg) (ToLower val))
  | Uppercase => done (Builder_Set lb (TargetLabel cfg) (ToUpper val))
  | HashMod => done (m ← hash_mod cfg val; Builder_Set lb (TargetLabel cfg) m)
  | LabelMap => done (range_update (fun l lb =>
      if matches (Name l) then Builder_Set lb (ReplaceAllString (re (Regex cfg)) (Name l) (Replacement cfg)) (Value l) else Some lb) lb)
  | LabelDrop => done (range_update (fun l lb => if matches (Name l) then Builder_Del lb [Name l] else Some lb) lb)
  | LabelKeep => done (range_update (fun l lb => if negb (matches (Name l)) then Builder_Del lb [Name l] else Some lb) lb)
  | OtherAction _ => None
  end.

(** ProcessBuilder: whether the labels are kept, and the builder. *)
Fixpoint ProcessBuilder (lb : Builder) (cfgs : list Config) : option (bool * Builder) :=
  match cfgs with
  | [] => Some (true, lb)
  | cfg :: cfgs => '(keep, lb) ← relabel cfg lb; if keep : bool then ProcessBuilder lb cfgs else Some (false, lb)
  end.

(** ** What a rule does to a set of labels *)

Abbreviation labels_map := (gmap gostr gostr).

Definition set_label (m : labels_map) (n v : gostr) : labels_map := if str_eqb v [] then delete n m else <[n := v]> m.
Definition joined (cfg : Config) (m : labels_map) : gostr :=
  Join (map (fun n => default [] (m !! n)) (default [] (SourceLabels cfg))) (Separator cfg).
Definition rule_matches (cfg : Config) (s : gostr) : bool := MatchString (re (Regex cfg)) s.
Definition expanded (cfg : Config) (template : gostr) (m : labels_map) (indexes : list Z) : gostr :=
  ExpandString (re (Regex cfg)) template (joined cfg m) indexes.
Definition mapped_name (cfg : Config) (n : gostr) : gostr := ReplaceAllString (re (Regex cfg)) n (Replacement cfg).

(** [None] is a label set that is dropped.  There is no fast path, and of several
    labels that LabelMap maps to one name any can win. *)
Definition relabel_spec (cfg : Config) (m : labels_map) (r : option labels_map) : Prop :=
  match cfg_Action cfg with
  | Drop => r = if rule_matches cfg (joined cfg m) then None else Some m
  | Keep => r = if rule_matches cfg (joined cfg m) then Some m else None
  | DropEqual => r = if str_eqb (default [] (m !! TargetLabel cfg)) (joined cfg m) then None else Some m
  | KeepEqual => r = if str_eqb (default [] (m !! TargetLabel cfg)) (joined cfg m) then Some m else None
  | Replace => r = Some
      match FindStringSubmatchIndex (re (Regex cfg)) (joined cfg m) with
      | Some indexes =>
          if IsValidLabelName (NameValidationScheme cfg) (expanded cfg (TargetLabel cfg) m indexes)
          then set_label m (expanded cfg (TargetLabel cfg) m indexes) (expanded cfg (Replacement cfg) m indexes) else m
      | None => m
      end
  | Lowercase => r = Some (set_label m (TargetLabel cfg) (ToLower (joined cfg m)))
  | Uppercase => r = Some (set_label m (TargetLabel cfg) (ToUpper (joined cfg m)))
  | HashMod => r = Some (set_label m (TargetLabel cfg) (FormatUint (be_uint (drop 8 (md5_Sum (joined cfg m))) mod Modulus cfg)))
  | LabelDrop => r = Some (filter (fun kv => rule_matches cfg kv.1 = false) m)
  | LabelKeep => r = Some (filter (fun kv => rule_matches cfg kv.1 = true) m)
  | LabelMap => exists m', r = Some m' /\ forall n,
      (exists k v, m !! k = Some v /\ rule_matches cfg k = true /\ mapped_name cfg k = n /\ m' !! n = Some v) \/
      ((forall k, is_Some (m !! k) -> rule_matches cfg k = true -> mapped_name cfg k <> n) /\ m' !! n = m !! n)
  | OtherAction _ => False
  end.

Inductive rules_spec : list Config -> labels_map -> option labels_map -> Prop :=
  | rules_nil m : rules_spec [] m (Some m)
  | rules_drop cfg cfgs m : relabel_spec cfg m None -> rules_spec (cfg :: cfgs) m None
  | rules_cons cfg cfgs m m' r : relabel_spec cfg m (Some m') -> rules_spec cfgs m' r -> rules_spec (cfg :: cfgs) m r.

(** The names and values that a rule sets are below 16 MB, and LabelMap does not
    make an empty name, which the code does not check. *)
Definition rule_fits (cfg : Config) (m : labels_map) : Prop :=
  match cfg_Action cfg with
  | Replace => forall indexes, FindStringSubmatchIndex (re (Regex cfg)) (joined cfg m) = Some indexes ->
      short (expanded cfg (TargetLabel cfg) m indexes) /\ short (expanded cfg (Replacement cfg) m indexes)
  | Lowercase => short (TargetLabel cfg) /\ short (ToLower (joined cfg m))
  | Uppercase => short (TargetLabel cfg) /\ short (ToUpper (joined cfg m))
  | HashMod => short (TargetLabel cfg)
  | LabelMap => forall k, is_Some (m !! k) -> rule_matches cfg k = true -> mapped_name cfg k <> [] /\ short (mapped_name cfg k)
  | _ => True
  end.
Fixpoint rules_fit (cfgs : list Config) (m : labels_map) : Prop :=
  match cfgs with
  | [] => True
  | cfg :: cfgs => rule_fits cfg m /\ forall m', relabel_spec cfg m (Some m') -> rules_fit cfgs m'
  end.

(** Configurations that were read and validated: UnmarshalYAML knows the action. *)
Definition known_action (a : Action) : Prop := match a with OtherAction _ => False | _ => True end.
Definition validated (cfg : Config) : Prop :=
  known_action (cfg_Action cfg) /\ exists s c, Config_Validate s c = inr cfg.

(** What is documented of regexp and of label names. *)
Class RegexpLaws := {
  default_matches_empty : is_Some (FindStringSubmatchIndex (re DefaultRegex) []);
  expand_no_variable : forall r template src indexes, varInRegexTemplate template = false -> ExpandString r template src indexes = template;
  blank_name_invalid : forall s, IsValidLabelName s [] = false }.

(** ** The builder carries the rules out *)

Lemma represents_value bl b m a n v : represents bl b m a -> m !! n = Some v -> v <> [] /\ short v.
Proof.
  intros [Hb Hg Hs Hnb Hnd Hv Hbl Hm Ha] [H|(H & Hd & _)]%Hm.
  - rewrite !Forall_forall in *. split; [by apply (Hv _ H)|by apply (Hs _ H)].
  - split; [|destruct Hg as (Hg & _); rewrite Forall_forall in Hg; by apply (Hg _ H)].
    intros ->. by apply Hd, (Hbl _ H).
Qed.

Lemma source_value_spec cfg bl b m a : represents bl b m a -> source_value cfg b = Some (joined cfg m).
Proof.
  intros Hr. unfold source_value, joined. assert (mapM (Builder_Get b) (default [] (SourceLabels cfg)) = Some (map (fun n => default [] (m !! n)) (default [] (SourceLabels cfg)))) as ->; [|done].
  induction (default [] (SourceLabels cfg)) as [|n ns IH]; [done|]. cbn. rewrite (Get_represents _ _ _ _ n Hr). cbn. by rewrite IH.
Qed.

(** The builder after [set_label]. *)
Lemma set_label_represents bl b m a n v : represents bl b m a -> n <> [] -> short n -> short v ->
  exists b' a', Builder_Set b n v = Some b' /\ represents bl b' (set_label m n v) a'.
Proof. intros Hr Hn Hsn Hsv. destruct (Set_represents bl b m a n v Hr Hn Hsn Hsv) as (b' & -> & H). eauto. Qed.

(** A range over the labels that sets or deletes labels is a run of the builder. *)
Lemma range_run (f : Label -> option builder_op) (g : Label -> Builder -> option Builder) ls :
  (forall l lb, g l lb = match f l with Some o => builder_exec lb o | None => Some lb end) ->
  forall lb, foldl (fun lb l => lb ← lb; g l lb) lb ls = builder_run lb (omap f ls).
Proof.
  intros Hg. induction ls as [|l ls IH]; intros lb; [done|]. cbn. rewrite IH.
  destruct lb as [lb|]; cbn; [rewrite Hg; by destruct (f l)|]. destruct (f l); [done|]. done.
Qed.

Lemma range_update_represents (f : Label -> option builder_op) (g : Label -> Builder -> option Builder) bl b m a :
  represents bl b m a -> (forall l lb, g l lb = match f l with Some o => builder_exec lb o | None => Some lb end) ->
  (forall l, m !! Name l = Some (Value l) -> match f l with Some o => op_ok o | None => True end) ->
  exists b' ls a', range_update g b = Some b' /\ NoDup (names ls) /\ (forall n v, mk_Label n v ∈ ls <-> m !! n = Some v) /\
    represents bl b' (foldl map_exec (m, a) (omap f ls)).1 a'.
Proof.
  intros Hr Hg Hok. destruct (Range_represents _ _ _ _ Hr) as (ls & Els & Hnd & Hls). unfold range_update. rewrite Els. cbn.
  rewrite (range_run f g ls Hg). destruct (run_represents bl (omap f ls)) with (b := b) (m := m) (a := a) as (b' & -> & Hr'); [|done|].
  - apply Forall_forall. intros o (l & Hl & Ho)%list_elem_of_omap. rewrite <-(label_eta l), Hls in Hl. specialize (Hok _ Hl). by rewrite Ho in Hok.
  - exists b', ls, (foldl map_exec (m, a) (omap f ls)).2. split_and!; [done..|exact Hr'].
Qed.

Lemma deleted_lookup (p : gostr -> bool) (ls : list Label) : forall (m : labels_map) (a : gset gostr) n,
  (foldl map_exec (m, a) (omap (fun l => if p (Name l) then Some (OpDel [Name l]) else None) ls)).1 !! n =
  if decide (p n = true /\ n ∈ names ls) then None else m !! n.
Proof.
  induction ls as [|l ls IH]; intros m a n.
  - cbn. rewrite decide_False; [done|]. intros [_ H]. by apply not_elem_of_nil in H.
  - cbn. destruct (p (Name l)) eqn:Hp; cbn; rewrite IH.
    + destruct (decide (Name l = n)) as [<-|Hn].
      * rewrite (decide_True (P := _ /\ Name l ∈ Name l :: _)) by (split; [done|left]). case_decide; [done|]. by rewrite lookup_delete_eq.
      * rewrite lookup_delete_ne by done. apply decide_ext. rewrite elem_of_cons. naive_solver.
    + apply decide_ext. rewrite elem_of_cons. split; [intros [? ?]; auto|]. intros [H1 [->|H2]]; [congruence|done].
Qed.

(** Deleting the labels of a map that satisfy [p]. *)
Lemma range_delete_represents (p : gostr -> bool) bl b m a : represents bl b m a ->
  exists b' a', range_update (fun l lb => if p (Name l) then Builder_Del lb [Name l] else Some lb) b = Some b' /\
    represents bl b' (filter (fun kv => p kv.1 = false) m) a'.
Proof.
  intros Hr. destruct (range_update_represents (fun l => if p (Name l) then Some (OpDel [Name l]) else None)
    (fun l lb => if p (Name l) then Builder_Del lb [Name l] else Some lb) _ _ _ _ Hr) as (b' & ls & a' & E & Hnd & Hls & Hr').
  - intros l lb. by destruct (p (Name l)).
  - intros l _. by destruct (p (Name l)).
  - exists b', a'. split; [done|]. erewrite <-(map_eq _ (filter (fun kv => p kv.1 = false) m)); [exact Hr'|]. intros n. rewrite deleted_lookup.
    destruct (m !! n) as [v|] eqn:E'.
    + case_decide as Hd.
      * symmetry. apply map_lookup_filter_None. right. intros v' _. cbn. destruct Hd as [-> _]. done.
      * symmetry. apply map_lookup_filter_Some. split; [done|]. cbn. destruct (p n) eqn:Hp; [|done]. exfalso. apply Hd. split; [done|].
        apply Hls in E'. by apply elem_of_names in E'.
    + symmetry. rewrite (proj2 (map_lookup_filter_None _ m n)); [by case_decide|by left].
Qed.

(** After a LabelMap every name has the value of a label mapped to it, or its own. *)
Lemma mapped_lookup (p : gostr -> bool) (f : gostr -> gostr) (ls : list Label) : Forall (fun l => Value l <> []) ls ->
  forall (m : labels_map) (a : gset gostr) n,
  let m' := (foldl map_exec (m, a) (omap (fun l => if p (Name l) then Some (OpSet (f (Name l)) (Value l)) else None) ls)).1 in
  (exists l, l ∈ ls /\ p (Name l) = true /\ f (Name l) = n /\ m' !! n = Some (Value l)) \/
  ((forall l, l ∈ ls -> p (Name l) = true -> f (Name l) <> n) /\ m' !! n = m !! n).
Proof.
  induction 1 as [|l ls Hv _ IH]; intros m a n; cbn.
  - right. split; [|done]. intros l Hl. by apply not_elem_of_nil in Hl.
  - destruct (p (Name l)) eqn:Hp; cbn.
    + unfold str_eqb. rewrite bool_decide_eq_false_2 by done. destruct (IH (<[f (Name l):=Value l]> m) ({[f (Name l)]} ∪ a) n) as [(x & Hx & H)|[H1 H2]].
      * left. exists x. split; [by right|done].
      * destruct (decide (f (Name l) = n)) as [<-|Hn].
        -- left. exists l. rewrite H2, lookup_insert_eq. split_and!; [left|done..].
        -- right. rewrite H2, lookup_insert_ne by done. split; [|done]. intros x [->|Hx]%elem_of_cons; auto.
    + destruct (IH m a n) as [(x & Hx & H)|[H1 H2]]; [left; exists x; split; [by right|done]|].
      right. split; [|done]. intros x [->|Hx]%elem_of_cons; [congruence|auto].
Qed.

Lemma labelmap_represents cfg bl b m a : represents bl b m a -> rule_fits cfg m -> cfg_Action cfg = LabelMap ->
  exists b' m' a', range_update (fun l lb => if rule_matches cfg (Name l) then Builder_Set lb (mapped_name cfg (Name l)) (Value l) else Some lb) b = Some b' /\
    relabel_spec cfg m (Some m') /\ represents bl b' m' a'.
Proof.
  intros Hr Hf Ha. unfold rule_fits in Hf. rewrite Ha in Hf.
  set (op := fun l => if rule_matches cfg (Name l) then Some (OpSet (mapped_name cfg (Name l)) (Value l)) else None).
  destruct (range_update_represents op (fun l lb => if rule_matches cfg (Name l) then Builder_Set lb (mapped_name cfg (Name l)) (Value l) else Some lb) _ _ _ _ Hr)
    as (b' & ls & a' & E & Hnd & Hls & Hr').
  - intros l lb. unfold op. by destruct (rule_matches cfg (Name l)).
  - intros l Hl. unfold op. destruct (rule_matches cfg (Name l)) eqn:Hp; [|done]. destruct (Hf (Name l)) as [Hn Hs]; [by eexists|done|].
    by destruct (represents_value _ _ _ _ _ _ Hr Hl).
  - eexists b', _, a'. split; [exact E|]. split; [|exact Hr']. unfold relabel_spec. rewrite Ha. eexists. split; [done|]. intros n.
    assert (Hvs : Forall (fun l => Value l <> []) ls).
    { apply Forall_forall. intros l Hl. rewrite <-(label_eta l), Hls in Hl. by destruct (represents_value _ _ _ _ _ _ Hr Hl). }
    destruct (mapped_lookup (rule_matches cfg) (mapped_name cfg) ls Hvs m a n) as [(l & Hl & H)|[H1 H2]].
    + left. exists (Name l), (Value l). rewrite <-Hls, label_eta. naive_solver.
    + right. split; [|exact H2]. intros k [v Hv] Hp. apply Hls in Hv. by apply (H1 _ Hv).
Qed.

(** ** Validated rules *)

Lemma check_scheme_fields s c c' : check_scheme s c = Some c' ->
  cfg_Action c' = cfg_Action c /\ TargetLabel c' = TargetLabel c /\ Modulus c' = Modulus c.
Proof. unfold check_scheme. intros. by case_match; simplify_eq. Qed.

(** What Validate promises to relabel. *)
Lemma validated_facts cfg : validated cfg ->
  known_action (cfg_Action cfg) /\
  (cfg_Action cfg = HashMod -> Modulus cfg <> 0) /\
  (is_action [Replace; HashMod; Lowercase; Uppercase; KeepEqual; DropEqual] cfg = true -> TargetLabel cfg <> []) /\
  (cfg_Action cfg = Replace -> varInRegexTemplate (TargetLabel cfg) = false -> IsValidLabelName (NameValidationScheme cfg) (TargetLabel cfg) = true).
Proof.
  intros [Hk (s & c & H)]. split; [exact Hk|]. unfold Config_Validate in H.
  destruct (bool_decide _); [done|]. destruct ((Modulus c =? 0) && _) eqn:Hm; [done|]. destruct (is_action _ c && str_eqb (TargetLabel c) []) eqn:Ht; [done|].
  destruct (check_scheme s c) as [c'|] eqn:Hs; [|done]. apply check_scheme_fields in Hs as (Ea & Et & Em).
  destruct (is_action [Replace] c' && _ && _) eqn:Hv; [done|].
  assert (c' = cfg) as -> by (repeat (destruct (_ && _) in H; [done|]); congruence). clear H.
  unfold is_action in *. rewrite <-Ea, <-Et in *. rewrite <-Em in Hm. split_and!.
  - intros E Hz. by rewrite E, Hz in Hm.
  - intros E Hz. by rewrite E, Hz in Ht.
  - intros E Hz. rewrite E, Hz in Hv. cbn in Hv. by destruct (IsValidLabelName _ _).
Qed.

Lemma format_digits_length fuel : forall n acc, (length (format_digits fuel n acc) <= fuel + length acc)%nat.
Proof. induction fuel as [|fuel IH]; intros n acc; cbn; [done|]. case_match; cbn; [lia|]. etrans; [apply IH|]. cbn. lia. Qed.
Lemma FormatUint_short n : short (FormatUint n).
Proof. unfold short, FormatUint. pose proof (format_digits_length 20 n []). cbn in *. lia. Qed.

Section Correct.
Context {Laws : RegexpLaws}.

Lemma relabel_replace_spec cfg bl b m a : represents bl b m a -> validated cfg -> rule_fits cfg m -> cfg_Action cfg = Replace ->
  exists b' m' a', relabel_replace cfg (joined cfg m) b = Some b' /\ relabel_spec cfg m (Some m') /\ represents bl b' m' a'.
Proof.
  intros Hr Hv Hf Ha. destruct (validated_facts cfg Hv) as (_ & _ & Ht & Hvalid). unfold rule_fits in Hf. rewrite Ha in Hf.
  assert (Hset : forall indexes, FindStringSubmatchIndex (re (Regex cfg)) (joined cfg m) = Some indexes ->
    IsValidLabelName (NameValidationScheme cfg) (expanded cfg (TargetLabel cfg) m indexes) = true ->
    exists b' m' a', Builder_Set b (expanded cfg (TargetLabel cfg) m indexes) (expanded cfg (Replacement cfg) m indexes) = Some b' /\
      relabel_spec cfg m (Some m') /\ represents bl b' m' a').
  { intros indexes Ei Hi. destruct (Hf indexes Ei) as [H1 H2].
    destruct (set_label_represents bl b m a (expanded cfg (TargetLabel cfg) m indexes) (expanded cfg (Replacement cfg) m indexes)) as (b' & a' & E & Hr'); try done.
    { intros Hb. by rewrite Hb, blank_name_invalid in Hi. }
    eexists b', _, a'. split; [exact E|]. split; [|exact Hr']. unfold relabel_spec. by rewrite Ha, Ei, Hi. }
  unfold relabel_replace. destruct (str_eqb (joined cfg m) [] && _ && _ && _) eqn:Hfast.
  - apply andb_true_iff in Hfast as [Hfast Hrep%negb_true_iff]. apply andb_true_iff in Hfast as [Hfast Htar%negb_true_iff].
    apply andb_true_iff in Hfast as [Hj%bool_decide_eq_true Hp%Z.eqb_eq]. destruct default_matches_empty as [indexes Ei].
    rewrite <-Hp, <-Hj in Ei. specialize (Hset indexes Ei). unfold expanded in Hset. rewrite !expand_no_variable in Hset by done. apply Hset. by apply Hvalid.
  - destruct (FindStringSubmatchIndex _ _) as [indexes|] eqn:Ei; [|exists b, m, a; unfold relabel_spec; by rewrite Ha, Ei].
    fold (expanded cfg (TargetLabel cfg) m indexes) (expanded cfg (Replacement cfg) m indexes).
    destruct (IsValidLabelName _ (expanded cfg (TargetLabel cfg) m indexes)) eqn:Hi; cbn; [|exists b, m, a; unfold relabel_spec; by rewrite Ha, Ei, Hi].
    destruct (Hset indexes eq_refl Hi) as (b' & m' & a' & E & HS). exists b', m', a'. split; [|exact HS]. rewrite <-E.
    by destruct (expanded cfg (Replacement cfg) m indexes).
Qed.

Lemma relabel_represents cfg bl b m a : represents bl b m a -> validated cfg -> rule_fits cfg m ->
  exists keep b', relabel cfg b = Some (keep, b') /\
    if keep : bool then exists m' a', relabel_spec cfg m (Some m') /\ represents bl b' m' a' else relabel_spec cfg m None.
Proof.
  intros Hr Hv Hf. pose proof (validated_facts cfg Hv) as (Hk & Hm & Ht & _). unfold relabel. rewrite (source_value_spec _ _ _ _ _ Hr). cbn.
  assert (Hset : forall v, TargetLabel cfg <> [] -> short (TargetLabel cfg) -> short v -> relabel_spec cfg m (Some (set_label m (TargetLabel cfg) v)) ->
    exists keep b', (lb ← Builder_Set b (TargetLabel cfg) v; Some (true, lb)) = Some (keep, b') /\
    if keep : bool then exists m' a', relabel_spec cfg m (Some m') /\ represents bl b' m' a' else relabel_spec cfg m None).
  { intros v H1 H2 H3 H4. destruct (set_label_represents bl b m a (TargetLabel cfg) v Hr H1 H2 H3) as (b' & a' & E & H).
    exists true, b'. rewrite E. split; [done|]. eauto. }
  assert (Hdel : forall p, relabel_spec cfg m (Some (filter (fun kv => p kv.1 = false) m)) ->
    exists keep b', (lb ← range_update (fun l lb => if p (Name l) then Builder_Del lb [Name l] else Some lb) b; Some (true, lb)) = Some (keep, b') /\
    if keep : bool then exists m' a', relabel_spec cfg m (Some m') /\ represents bl b' m' a' else relabel_spec cfg m None).
  { intros p H. destruct (range_delete_represents p bl b m a Hr) as (b' & a' & E & H'). exists true, b'. rewrite E. split; [done|]. eauto. }
  unfold is_action in Ht. unfold rule_fits in Hf. destruct (cfg_Action cfg) eqn:Ha; cbn in Hk, Ht; try specialize (Ht eq_refl).
  - destruct (relabel_replace_spec cfg bl b m a Hr Hv) as (b' & m' & a' & E & H); [unfold rule_fits; by rewrite Ha|done|]. exists true, b'. rewrite E. split; [done|]. eauto.
  - eexists _, b. split; [done|]. unfold relabel_spec, rule_matches. rewrite Ha. destruct (MatchString _ _); eauto.
  - eexists _, b. split; [done|]. unfold relabel_spec, rule_matches. rewrite Ha. destruct (MatchString _ _); cbn; eauto.
  - rewrite (Get_represents _ _ _ _ _ Hr). cbn. eexists _, b. split; [done|]. unfold relabel_spec. rewrite Ha. destruct (str_eqb _ _); cbn; eauto.
  - rewrite (Get_represents _ _ _ _ _ Hr). cbn. eexists _, b. split; [done|]. unfold relabel_spec. rewrite Ha. destruct (str_eqb _ _); cbn; eauto.
  - unfold hash_mod. rewrite (proj2 (Z.eqb_neq _ _)) by auto. cbn. apply Hset; [done|done|apply FormatUint_short|]. unfold relabel_spec. by rewrite Ha.
  - destruct (labelmap_represents cfg bl b m a Hr) as (b' & m' & a' & E & H); [unfold rule_fits; by rewrite Ha|done|].
    unfold rule_matches, mapped_name in E. exists true, b'. rewrite E. split; [done|]. eauto.
  - apply (Hdel (rule_matches cfg)). unfold relabel_spec. by rewrite Ha.
  - apply (Hdel (fun n => negb (rule_matches cfg n))). unfold relabel_spec. rewrite Ha. f_equal. apply map_filter_ext. intros k v _. cbn. by destruct (rule_matches cfg k).
  - apply Hset; [done|apply Hf..|]. unfold relabel_spec. by rewrite Ha.
  - apply Hset; [done|apply Hf..|]. unfold relabel_spec. by rewrite Ha.
  - done.
Qed.

Lemma ProcessBuilder_represents cfgs : forall bl b m a, represents bl b m a -> Forall validated cfgs -> rules_fit cfgs m ->
  exists keep b', ProcessBuilder b cfgs = Some (keep, b') /\
    if keep : bool then exists m' a', rules_spec cfgs m (Some m') /\ represents bl b' m' a' else rules_spec cfgs m None.
Proof.
  induction cfgs as [|cfg cfgs IH]; intros bl b m a Hr Hv Hf.
  - exists true, b. split; [done|]. exists m, a. split; [constructor|done].
  - inversion_clear Hv as [|x y Hv1 Hv2]. destruct Hf as [Hf1 Hf2]. destruct (relabel_represents cfg bl b m a Hr Hv1 Hf1) as (keep & b1 & E & H).
    cbn. rewrite E. cbn. destruct keep.
    + destruct H as (m' & a' & Hs & Hr'). destruct (IH bl b1 m' a' Hr' Hv2 (Hf2 m' Hs)) as (keep & b2 & E2 & H2). exists keep, b2. split; [exact E2|].
      destruct keep; [destruct H2 as (m2 & a2 & H2 & H3); exists m2, a2; split; [|done]|]; by eapply rules_cons.
    + exists false, b1. split; [done|]. by apply rules_drop.
Qed.

(** C13: Relabelling rules do to the labels in a builder what they say, in order.
    For validated rules no call panics, whatever the labels are; the builder then
    makes the sorted, well-formed label set of the map that the rules give, or the
    labels are dropped by the first rule that drops them.  The shortcut of Replace
    for empty values does what the regular expression would. *)
Theorem relabel_refines_map (bl : list Label) (cfgs : list Config) :
  good bl -> Forall validated cfgs -> rules_fit cfgs (label_map bl) ->
  exists b keep b', NewBuilder (of_list bl) = Some b /\ ProcessBuilder b cfgs = Some (keep, b') /\
    if keep : bool then exists m' ls b'', rules_spec cfgs (label_map bl) (Some m') /\
      Builder_Labels b' = Some (of_list ls, b'') /\ lists_map ls m' /\ good ls
    else rules_spec cfgs (label_map bl) None.
Proof.
  intros Hg Hv Hf. destruct (Reset_represents bl Hg) as (b & Eb & Hr).
  destruct (ProcessBuilder_represents cfgs bl b _ _ Hr Hv Hf) as (keep & b' & E & H). exists b, keep, b'. split; [done|]. split; [done|].
  destruct keep; [|done]. destruct H as (m' & a' & Hs & Hr'). destruct (Labels_represents _ _ _ _ Hr') as (ls & b'' & El & H).
  exists m', ls, b''. done.
Qed.
End Correct.
End Relabel.

(** ** An instance *)

(** The expressions "^(?s:prefix(.*))$" and templates with $1, as prefixes. *)
Fixpoint expand_1 (template sub : gostr) : gostr :=
  match template with
  | [] => []
  | c :: rest => match rest with
      | d :: rest' => if (c =? 36) && (d =? 49) then sub ++ expand_1 rest' sub else c :: expand_1 rest sub
      | [] => [c]
      end
  end.
Definition prefix_match (r s : gostr) : bool := bool_decide (take (length r) s = r).
#[local] Instance prefix_ops : RegexpOps gostr := {|
  MatchString := prefix_match;
  FindStringSubmatchIndex r s := if prefix_match r s then Some (map Z.of_nat [0; length s; length r; length s]%nat) else None;
  ExpandString r t s indexes := expand_1 t (drop (Z.to_nat (default 0 (indexes !! 2%nat))) s);
  ReplaceAllString r s t := if prefix_match r s then expand_1 t (drop (length r) s) else s |}.

Lemma expand_1_no_var t sub : varInRegexTemplate t = false -> expand_1 t sub = t.
Proof.
  induction t as [|c t IH]; [done|]. cbn. destruct (c =? 36) eqn:Hc; [done|]. cbn. intros H. rewrite (IH H). by destruct t.
Qed.

Definition prefixes (p : Z) : gostr := if p =? 0 then [] else if p =? 1 then [95; 95] else [97].
Definition name_valid (s : ValidationScheme) (n : gostr) : bool := negb (str_eqb n []).

#[local] Instance prefix_laws : RegexpLaws name_valid prefixes 0.
Proof.
  split.
  - by eexists.
  - intros r t s indexes. apply expand_1_no_var.
  - done.
Defined.

(** Copy label a into b, then drop the labels that start with "__". *)
Definition copy_label_rule : Config := mk_Config (Some [[97]]) [59] 0 0 [98] [36; 49] Replace UTF8Validation.
Definition drop_rule : Config := mk_Config None [59] 1 0 [] [36; 49] LabelDrop UTF8Validation.
Definition example_target : list Label := [mk_Label [95; 95; 120] [49]; mk_Label [97] [104; 105]].

Lemma rules_validated : Forall (validated name_valid prefixes 0 9) [copy_label_rule; drop_rule].
Proof.
  repeat constructor.
  - exists UTF8Validation, copy_label_rule. reflexivity.
  - exists UTF8Validation, drop_rule. reflexivity.
Qed.

Lemma relabel_refines_map_witness :
  (b ← NewBuilder (of_list example_target); '(keep, b) ← ProcessBuilder id id id name_valid prefixes 0 b [copy_label_rule; drop_rule]; '(ls, _) ← Builder_Labels b; Some (keep, ls))
    = Some (true, of_list [mk_Label [97] [104; 105]; mk_Label [98] [104; 105]]) /\
  exists b keep b', NewBuilder (of_list example_target) = Some b /\
    ProcessBuilder id id id name_valid prefixes 0 b [copy_label_rule; drop_rule] = Some (keep, b').
Proof.
  split; [by vm_compute|].
  assert (Hf : rules_fit id id id name_valid prefixes [copy_label_rule; drop_rule] (label_map example_target)).
  { split; [|done]. intros indexes E. vm_compute in E. injection E as <-. by vm_compute. }
  assert (Hg : good example_target) by (split_and!; repeat constructor; done).
  destruct (relabel_refines_map id id id name_valid prefixes 0 9 example_target [copy_label_rule; drop_rule] Hg rules_validated Hf) as (b & keep & b' & H1 & H2 & _).
  exists b, keep, b'. split; [exact H1|exact H2].
Defined.

(** LabelMap does not check the name it makes, as Replace does: a rule that strips
    a prefix gives the label that is named like the prefix an empty name. *)
Definition strip_rule : Config := mk_Config None [59] 2 0 [] [36; 49] LabelMap UTF8Validation.
Example labelmap_empty_name :
  Config_Validate name_valid prefixes 0 9 UTF8Validation strip_rule = inr strip_rule /\
  (b ← NewBuilder (of_list example_target); '(_, b) ← ProcessBuilder id id id name_valid prefixes 0 b [strip_rule]; Builder_Get b []) = Some [104; 105].
Proof. split; by vm_compute. Qed.

(** FormatUint writes decimal digits. *)
Example format_uint : map FormatUint [0; 7; 1024; 18446744073709551615] =
  [[48]; [55]; [49; 48; 50; 52]; [49; 56; 52; 52; 54; 55; 52; 52; 48; 55; 51; 55; 48; 57; 53; 53; 49; 54; 49; 53]].
Proof. reflexivity. Qed.
