(* ===== verification/Alertmanager.v ===== *)
(** notifier/alert.go and notifier/alertmanager.go: relabelling alerts before they
    are queued, and the Alertmanagers of a target group.

    net/url and path.Join are parameters, with those of Relabel.  A map is visited
    in the order that [order] gives.  [None] is a panic. *)
From stdpp Require Import sorting.
From S2P Require Import Prelude Labels LabelBuilder Relabel.

(** ** Alerts *)

(** Times are nanoseconds; a zero time is [None]. *)
Record Alert := mk_Alert { a_Labels : Labels; Annotations : Labels; StartsAt : option Z; EndsAt : option Z; GeneratorURL : gostr }.

Definition Alert_Name (a : Alert) : option gostr := Labels_Get (a_Labels a) AlertName.

(** Whether the alert ended at [ts] or before. *)
Definition ResolvedAt (a : Alert) (ts : Z) : bool :=
  match EndsAt a with None => false | Some e => negb (ts <? e) end.

Section Alertmanager.
  Context {R : Type} `{!RegexpOps R}.
  Variables (ToLower ToUpper : gostr -> gostr) (md5_Sum : gostr -> list Z) (IsValidLabelName : ValidationScheme -> gostr -> bool).
  Variables (re : Regexp -> R) (DefaultRegex : Regexp).

Notation ProcessBuilder := (ProcessBuilder ToLower ToUpper md5_Sum IsValidLabelName re DefaultRegex).

(** External labels are set where the alert has no value. *)
Definition add_external (externalLabels : Labels) (a : Alert) (lb : Builder) : option Builder :=
  ls ← Labels_Range externalLabels;
  foldl (fun lb l => lb ← lb; v ← Labels_Get (a_Labels a) (Name l); if str_eqb v [] then Builder_Set lb (Name l) (Value l) else Some lb) (Some lb) ls.

(** One alert: nothing if the rules drop it. *)
Definition relabelAlert (relabelConfigs : list Config) (externalLabels : Labels) (a : Alert) : option (option Alert) :=
  lb ← Builder_Reset (a_Labels a);
  lb ← add_external externalLabels a lb;
  '(keep, lb) ← ProcessBuilder lb relabelConfigs;
  if negb keep then Some None
  else
    '(ls, lb) ← Builder_Labels lb;
    if Labels_Equal (a_Labels a) ls then Some (Some a)
    else '(ls, _) ← Builder_Labels lb; Some (Some (mk_Alert ls (Annotations a) (StartsAt a) (EndsAt a) (GeneratorURL a))).

Fixpoint relabelAlerts (relabelConfigs : list Config) (externalLabels : Labels) (alerts : list Alert) : option (list Alert) :=
  match alerts with
  | [] => Some []
  | a :: alerts =>
      r ← relabelAlert relabelConfigs externalLabels a;
      rest ← relabelAlerts relabelConfigs externalLabels alerts;
      Some match r with Some a => a :: rest | None => rest end
  end.

(** ** Alertmanagers *)

(** A target group: the labels of its targets, and its own. *)
Record Group := mk_Group { Targets : list (gmap gostr gostr); g_Labels : gmap gostr gostr }.

(** The fields of AlertmanagerConfig that are read here. *)
Record AlertmanagerConfig := mk_AlertmanagerConfig { Scheme : gostr; PathPrefix : gostr; APIVersion : gostr; am_RelabelConfigs : list Config }.

Variables (url_String : gostr -> gostr -> gostr -> gostr) (path_Join : list gostr -> gostr).
Variable order : gmap gostr gostr -> list (gostr * gostr).

(** __scheme__, __address__ and __alerts_path__. *)
Definition SchemeLabel : gostr := [95; 95; 115; 99; 104; 101; 109; 101; 95; 95].
Definition AddressLabel : gostr := [95; 95; 97; 100; 100; 114; 101; 115; 115; 95; 95].
Definition pathLabel : gostr := [95; 95; 97; 108; 101; 114; 116; 115; 95; 112; 97; 116; 104; 95; 95].

(** The URL of an Alertmanager, which is its label set. *)
Definition alertmanager_url (a : Labels) : option gostr :=
  s ← Labels_Get a SchemeLabel; h ← Labels_Get a AddressLabel; p ← Labels_Get a pathLabel; Some (url_String s h p).

(** "/api/" ++ v ++ "/alerts" under the prefix. *)
Definition postPath (pre v : gostr) : gostr :=
  path_Join [[47]; pre; [47; 97; 112; 105; 47] ++ v ++ [47; 97; 108; 101; 114; 116; 115]].

(** config.CheckTargetAddress: no slash. *)
Definition CheckTargetAddress (address : gostr) : bool := negb (existsb (fun c => c =? 47) address).

Definition set_all (ls : list (gostr * gostr)) (lb : option Builder) : option Builder :=
  foldl (fun lb '(n, v) => lb ← lb; Builder_Set lb n v) lb ls.

(** The builder of a target before its relabelling. *)
Definition target_labels (tg : Group) (cfg : AlertmanagerConfig) (tlset : gmap gostr gostr) : option Builder :=
  let lb := set_all (order tlset) (Builder_Reset (mk_Labels [])) in
  let lb := set_all [(SchemeLabel, Scheme cfg); (pathLabel, postPath (PathPrefix cfg) (APIVersion cfg))] lb in
  set_all (List.filter (fun '(n, _) => negb (bool_decide (is_Some (tlset !! n)))) (order (g_Labels tg))) lb.

Fixpoint from_targets (tg : Group) (cfg : AlertmanagerConfig) (tlsets : list (gmap gostr gostr)) (res dropped : list Labels) : option ((list Labels * list Labels) + unit) :=
  match tlsets with
  | [] => Some (inl (res, dropped))
  | tlset :: tlsets =>
      lb ← target_labels tg cfg tlset;
      '(preRelabel, lb) ← Builder_Labels lb;
      '(keep, lb) ← ProcessBuilder lb (am_RelabelConfigs cfg);
      if negb keep then from_targets tg cfg tlsets res (dropped ++ [preRelabel])
      else
        addr ← Builder_Get lb AddressLabel;
        if negb (CheckTargetAddress addr) then Some (inr tt)
        else '(ls, _) ← Builder_Labels lb; from_targets tg cfg tlsets (res ++ [ls]) dropped
  end.

(** AlertmanagerFromGroup: those that are kept and those that are dropped, or an error. *)
Definition AlertmanagerFromGroup (tg : Group) (cfg : AlertmanagerConfig) : option ((list Labels * list Labels) + unit) :=
  from_targets tg cfg (Targets tg) [] [].

(** ** What relabelling does to alerts *)

(** The labels of an alert with the external labels where it has no value. *)
Definition with_external (external m : gmap gostr gostr) : gmap gostr gostr := m ∪ external.

Lemma Labels_again bl b m a x b' : represents bl b m a -> Builder_Labels b = Some (x, b') -> represents bl b' m a.
Proof.
  intros Hr H. assert (Hb : b' = b \/ b' = mk_Builder (base b) (merge_sort str_le (del b)) (merge_sort by_name (add b))).
  { unfold Builder_Labels in H. destruct (del b) eqn:Ed, (add b) eqn:Ea; [injection H as _ <-; by left| | |].
    all: apply bind_Some in H as ([[? ?] ?] & _ & (? & _ & [= _ <-])%bind_Some); right; cbn [base]; by rewrite ?Ed, ?Ea. }
  destruct Hb as [->| ->]; [done|]. pose proof (merge_sort_Permutation by_name (add b)) as Pa. pose proof (merge_sort_Permutation str_le (del b)) as Pd.
  destruct Hr as [R1 R2 R3 R4 R5 R6 R7 R8 R9]. split; cbn [base del add]; try done.
  - by rewrite Pa.
  - by rewrite Pa.
  - unfold names. by rewrite Pa.
  - by rewrite Pa.
  - intros l. rewrite Pd. apply R7.
  - intros n v. rewrite R8. unfold names. by rewrite Pa, Pd.
  - intros n. rewrite R9. unfold names. by rewrite Pa.
Qed.

Lemma add_external_map (p : gostr -> bool) (ext : list Label) : NoDup (names ext) -> forall (m : gmap gostr gostr) (a : gset gostr) n,
  (foldl map_exec (m, a) (omap (fun l => if p (Name l) then Some (OpSet (Name l) (Value l)) else None) ext)).1 !! n =
  match list_find (fun l => Name l = n) ext with
  | Some (_, l) => if p n then (if str_eqb (Value l) [] then None else Some (Value l)) else m !! n
  | None => m !! n
  end.
Proof.
  induction ext as [|l ext IH]; intros Hnd m a n; [done|]. cbn in Hnd. apply NoDup_cons in Hnd as [Hl Hnd]. cbn.
  assert (Hf : Name l = n -> list_find (fun l => Name l = n) ext = None).
  { intros <-. apply list_find_None, Forall_forall. intros x Hx E. apply Hl. rewrite <-E. by apply elem_of_names. }
  destruct (p (Name l)) eqn:Hp; cbn.
  - destruct (str_eqb (Value l) []) eqn:Hv; cbn; rewrite (IH Hnd); destruct (decide (Name l = n)) as [E|Hn].
    + rewrite (Hf E), <-E, Hp, Hv. by rewrite lookup_delete_eq.
    + destruct (list_find _ ext) as [[i x]|]; cbn; [by rewrite lookup_delete_ne|by rewrite lookup_delete_ne].
    + rewrite (Hf E), <-E, Hp, Hv. by rewrite lookup_insert_eq.
    + destruct (list_find _ ext) as [[i x]|]; cbn; by rewrite lookup_insert_ne.
  - rewrite (IH Hnd). destruct (decide (Name l = n)) as [E|Hn]; [by rewrite (Hf E), <-E, Hp|]. by destruct (list_find _ ext) as [[i x]|].
Qed.

Lemma found_label (ls : list Label) n : sorted_labels ls ->
  label_map ls !! n = match list_find (fun l => Name l = n) ls with Some (_, l) => if str_eqb (Value l) [] then None else Some (Value l) | None => None end.
Proof.
  intros Hs. destruct (list_find _ ls) as [[i l]|] eqn:E.
  - apply list_find_Some in E as (Hl & <- & _). destruct (str_eqb (Value l) []) eqn:Hv.
    + apply bool_decide_eq_true in Hv. apply eq_None_not_Some. intros [v [Hin Hne]%label_map_lookup]; [|done].
      apply list_elem_of_lookup in Hin as [j Hj]. apply sorted_names_NoDup in Hs. change (NoDup (Name <$> ls)) in Hs.
      assert (i = j) as <-; [|rewrite Hl in Hj; injection Hj as Hj; apply (f_equal Value) in Hj; cbn in Hj; congruence].
      eapply NoDup_lookup; [exact Hs|by rewrite list_lookup_fmap, Hl|by rewrite list_lookup_fmap, Hj].
    + apply bool_decide_eq_false in Hv. apply label_map_lookup; [done|]. rewrite label_eta. split; [by eapply list_elem_of_lookup_2|done].
  - apply eq_None_not_Some. intros [v [Hin _]%label_map_lookup]; [|done]. apply list_find_None in E. rewrite Forall_forall in E. by destruct (E _ Hin).
Qed.

Lemma Labels_Get_map (ls : list Label) n : good ls -> Labels_Get (of_list ls) n = Some (default [] (label_map ls !! n)).
Proof.
  intros Hg. destruct (Labels_Get_spec ls n Hg) as [-> _]. f_equal. rewrite found_label by apply Hg. unfold get_label.
  destruct (list_find _ ls) as [[i l]|]; [|done]. destruct (str_eqb (Value l) []) eqn:E; [|done]. by apply bool_decide_eq_true in E.
Qed.

Lemma add_external_represents (ext al : list Label) a b s : good ext -> good al -> a_Labels a = of_list al -> represents al b (label_map al) s ->
  exists b' s', add_external (of_list ext) a b = Some b' /\ represents al b' (with_external (label_map ext) (label_map al)) s'.
Proof.
  intros Hext Hal Ha Hr. unfold add_external. rewrite Range_enc by apply Hext. cbn. rewrite Ha.
  set (p := fun n => str_eqb (default [] (label_map al !! n)) []).
  rewrite (range_run (fun l => if p (Name l) then Some (OpSet (Name l) (Value l)) else None)
    (fun l lb => v ← Labels_Get (of_list al) (Name l); if str_eqb v [] then Builder_Set lb (Name l) (Value l) else Some lb)).
  2:{ intros l lb. rewrite Labels_Get_map by done. cbn. unfold p. by destruct (str_eqb _ _). }
  destruct (run_represents al (omap (fun l => if p (Name l) then Some (OpSet (Name l) (Value l)) else None) ext)) with (b := b) (m := label_map al) (a := s) as (b' & -> & Hr'); [|done|].
  { apply Forall_forall. intros o (l & Hl & Ho)%list_elem_of_omap. destruct (p (Name l)); [|done]. injection Ho as <-.
    destruct Hext as (H1 & H2 & _). rewrite Forall_forall in H1, H2. split; [by apply H2|by apply H1]. }
  eexists b', _. split; [done|]. erewrite <-(map_eq _ (with_external (label_map ext) (label_map al))); [exact Hr'|].
  intros n. rewrite add_external_map by (apply sorted_names_NoDup, Hext). unfold with_external. rewrite lookup_union, (found_label ext n) by apply Hext. unfold p.
  destruct (label_map al !! n) as [v|] eqn:E; cbn.
  - assert (str_eqb v [] = false) as -> by (apply bool_decide_eq_false; by destruct (represents_value _ _ _ _ _ _ Hr E)).
    destruct (list_find _ ext) as [[i l]|]; [|done]. by destruct (str_eqb (Value l) []).
  - destruct (list_find _ ext) as [[i l]|]; [|done]. by destruct (str_eqb (Value l) []).
Qed.

Variable relabelTargetLegacy : Regexp.
Context {Laws : RegexpLaws IsValidLabelName re DefaultRegex}.

Abbreviation rules_spec := (rules_spec ToLower ToUpper md5_Sum IsValidLabelName re).
Abbreviation rules_fit := (rules_fit ToLower ToUpper md5_Sum IsValidLabelName re).
Abbreviation validated := (validated IsValidLabelName re DefaultRegex relabelTargetLegacy).

Definition with_labels (ls : Labels) (a : Alert) : Alert := mk_Alert ls (Annotations a) (StartsAt a) (EndsAt a) (GeneratorURL a).

(** The alerts that are kept, in order, with the labels that the rules give. *)
Inductive alerts_spec (rules : list Config) (ext : list Label) : list Alert -> list Alert -> Prop :=
  | alerts_nil : alerts_spec rules ext [] []
  | alerts_drop a al alerts out : a_Labels a = of_list al -> rules_spec rules (with_external (label_map ext) (label_map al)) None ->
      alerts_spec rules ext alerts out -> alerts_spec rules ext (a :: alerts) out
  | alerts_keep a al m ls alerts out : a_Labels a = of_list al -> rules_spec rules (with_external (label_map ext) (label_map al)) (Some m) ->
      lists_map ls m -> good ls -> alerts_spec rules ext alerts out -> alerts_spec rules ext (a :: alerts) (with_labels (of_list ls) a :: out).

(** An alert with a label set that was built, on which the rules fit. *)
Definition alert_fits (rules : list Config) (ext : list Label) (a : Alert) : Prop :=
  exists al, a_Labels a = of_list al /\ good al /\ rules_fit rules (with_external (label_map ext) (label_map al)).

Lemma relabelAlert_spec rules ext a al : good ext -> good al -> Forall validated rules -> a_Labels a = of_list al ->
  rules_fit rules (with_external (label_map ext) (label_map al)) ->
  exists r, relabelAlert rules (of_list ext) a = Some r /\
    match r with
    | Some a' => exists m ls, a' = with_labels (of_list ls) a /\ rules_spec rules (with_external (label_map ext) (label_map al)) (Some m) /\ lists_map ls m /\ good ls
    | None => rules_spec rules (with_external (label_map ext) (label_map al)) None
    end.
Proof.
  intros Hext Hal Hv Ha Hf. unfold relabelAlert. destruct (Reset_represents al Hal) as (b0 & E0 & R0). unfold NewBuilder in E0. rewrite Ha, E0. cbn [mbind option_bind].
  destruct (add_external_represents ext al a b0 _ Hext Hal Ha R0) as (b1 & s1 & E1 & R1). rewrite E1. cbn [mbind option_bind].
  destruct (ProcessBuilder_represents ToLower ToUpper md5_Sum IsValidLabelName re DefaultRegex relabelTargetLegacy rules al b1 _ _ R1 Hv Hf) as (keep & b2 & E2 & H).
  rewrite E2. cbn [mbind option_bind]. destruct keep; cbn [negb]; [|by exists None]. destruct H as (m & s & Hs & R2).
  destruct (Labels_represents _ _ _ _ R2) as (ls & b3 & E3 & Hl & Hg). rewrite E3. cbn [mbind option_bind]. destruct (Labels_Equal (of_list al) (of_list ls)) eqn:Eq.
  - exists (Some a). split; [done|]. exists m, ls. split; [|done]. apply bool_decide_eq_true in Eq. destruct a as [x1 x2 x3 x4 x5]. unfold with_labels. cbn in *. f_equal.
    rewrite Ha. unfold of_list in *. cbn in Eq. by rewrite Eq.
  - destruct (Labels_represents _ _ _ _ (Labels_again _ _ _ _ _ _ R2 E3)) as (ls' & b4 & E4 & Hl' & Hg'). rewrite E4. cbn [mbind option_bind].
    eexists. split; [done|]. by exists m, ls'.
Qed.

(** C34: Relabelling alerts never panics and leaves out exactly the alerts that the
    rules drop; the others keep their order, annotations, times and URL, and get
    the label set that the rules make of their labels, with the external labels
    added where they had no value. *)
Theorem relabelAlerts_spec rules ext alerts : good ext -> Forall validated rules -> Forall (alert_fits rules ext) alerts ->
  exists out, relabelAlerts rules (of_list ext) alerts = Some out /\ alerts_spec rules ext alerts out.
Proof.
  intros Hext Hv. induction 1 as [|a alerts (al & Ha & Hal & Hf) _ (out & E & H)]; cbn; [eexists; split; [done|constructor]|].
  destruct (relabelAlert_spec rules ext a al Hext Hal Hv Ha Hf) as (r & E1 & H1). rewrite E1. cbn. rewrite E. cbn.
  destruct r as [a'|]; [destruct H1 as (m & ls & -> & Hs & Hl & Hg)|]; eexists; (split; [done|]).
  - by eapply alerts_keep.
  - by eapply alerts_drop.
Qed.
End Alertmanager.

(** ** Examples *)

#[local] Existing Instance prefix_ops.

Abbreviation ex_relabel := (relabelAlerts id id id name_valid prefixes 0).
Definition ex_ext : list Label := [mk_Label [97] [48]; mk_Label [101] [112]].
Definition ex_alert (v : gostr) : Alert := mk_Alert (of_list [mk_Label [97] v]) (of_list []) (Some 1) None [117].
(** Alerts whose label a starts with "a" are dropped. *)
Definition ex_drop : Config := mk_Config (Some [[97]]) [59] 2 0 [] [36; 49] Drop UTF8Validation.

(** The external label e is added; a is not replaced; the second alert is dropped. *)
Example relabel_two : ex_relabel [ex_drop; copy_label_rule] (of_list ex_ext) [ex_alert [98]; ex_alert [97; 98]] =
  Some [mk_Alert (of_list [mk_Label [97] [98]; mk_Label [98] [98]; mk_Label [101] [112]]) (of_list []) (Some 1) None [117]].
Proof. by vm_compute. Qed.

Example resolved_at : map (ResolvedAt (mk_Alert (of_list []) (of_list []) None (Some 5) [])) [4; 5; 6] = [false; true; true].
Proof. reflexivity. Qed.

Lemma relabelAlerts_spec_witness : exists out, ex_relabel [copy_label_rule] (of_list ex_ext) [ex_alert [98]] = Some out /\
  alerts_spec id id id name_valid prefixes [copy_label_rule] ex_ext [ex_alert [98]] out.
Proof.
  assert (Hv : Forall (validated name_valid prefixes 0 9) [copy_label_rule]) by (repeat constructor; exists UTF8Validation, copy_label_rule; reflexivity).
  assert (He : good ex_ext) by (split_and!; repeat constructor; done).
  assert (Ha : Forall (alert_fits id id id name_valid prefixes [copy_label_rule] ex_ext) [ex_alert [98]]).
  { repeat constructor. exists [mk_Label [97] [98]]. split; [done|]. split; [split_and!; repeat constructor; done|]. split; [|done].
    intros indexes E. vm_compute in E. injection E as <-. by vm_compute. }
  exact (relabelAlerts_spec (Laws := prefix_laws) id id id name_valid prefixes 0 9 [copy_label_rule] ex_ext [ex_alert [98]] He Hv Ha).
Defined.

(** A target with the labels of its group; another whose address has a slash. *)
Abbreviation ex_group := (AlertmanagerFromGroup id id id name_valid prefixes 0 (fun l => concat l) (fun m => map_to_list m)).
Definition ex_cfg : AlertmanagerConfig := mk_AlertmanagerConfig [104] [] [118] [].
Definition ex_targets (addr : gostr) : Group := mk_Group [ {[ AddressLabel := addr ]} ] {[ [103] := [49] ]}.

Example group_found : (fun r => match r with inl (ams, _) => map (alertmanager_url (fun s h p => s ++ h ++ p)) ams | inr _ => [] end) <$> ex_group (ex_targets [120]) ex_cfg =
  Some [Some ([104] ++ [120] ++ [47] ++ [47; 97; 112; 105; 47; 118; 47; 97; 108; 101; 114; 116; 115])].
Proof. by vm_compute. Qed.
Example group_refused : ex_group (ex_targets [120; 47]) ex_cfg = Some (inr tt).
Proof. by vm_compute. Qed.
