(* ===== verification/Notifier.v ===== *)
(** notifier/alertmanagerset.go and notifier/manager.go: which send loops run for
    which Alertmanagers, through updates of targets and of the configuration.

    Send loops are shared by address: they running in a heap, at their index, with
    the alerts that were added (SendLoop says what becomes of them).  The sets of
    the manager are updated in place.  A map is visited in the order that [order]
    gives.  The methods hold the manager's lock, so that each is one step; Run is
    the sequence of the updates that it receives and of its clean-up.  An error is
    the right side of a sum, and [None] is a panic. *)
From stdpp Require Import fin_maps fin_sets.
From S2P Require Import Prelude Labels.

(** The heap. *)
Record loop_rec (Cfg Alert : Type) := mk_loop { l_url : gostr; l_cfg : Cfg; l_added : list (list Alert); l_stopped : bool }.
Arguments mk_loop {Cfg Alert} _ _ _ _.
Arguments l_url {Cfg Alert} _.
Arguments l_cfg {Cfg Alert} _.
Arguments l_added {Cfg Alert} _.
Arguments l_stopped {Cfg Alert} _.

Section Notifier.
  (** Configurations, target groups, Alertmanagers, rules for alerts, alerts. *)
  Context {Cfg TG AM Rule Alert : Type}.
  Variable url : AM -> gostr.
  (** alertmanager.go, alert.go; None is a panic, inr an error. *)
  Variable AlertmanagerFromGroup : TG -> Cfg -> option ((list AM * list AM) + unit).
  Variable relabelAlerts : list Rule -> Labels -> list Alert -> option (list Alert).
  (** The fields of a configuration that are read, whether an HTTP client can be
      made from it, and the hash of its YAML. *)
  Variables (AlertRelabelConfigs : Cfg -> list Rule) (client_ok : Cfg -> bool) (configHash : Cfg -> option gostr).
  (** A rule with the given scheme for names, unless it has one; NameValidationScheme. *)
  Context {Scheme : Type}.
  Variable default_scheme : Scheme -> Rule -> Rule.
  Variable order : forall {V}, gmap gostr V -> list (gostr * V).

Notation heap := (list (loop_rec Cfg Alert)).

(** ** Sets *)

(** A nil map of send loops is [None]. *)
Record alertmanagerSet := mk_set { s_cfg : Cfg; s_ams : list AM; s_droppedAms : list AM; s_sendLoops : option (gmap gostr nat) }.

Definition with_loops (l : option (gmap gostr nat)) (s : alertmanagerSet) : alertmanagerSet := mk_set (s_cfg s) (s_ams s) (s_droppedAms s) l.
Definition with_ams (ams dropped : list AM) (s : alertmanagerSet) : alertmanagerSet := mk_set (s_cfg s) ams dropped (s_sendLoops s).

Definition newAlertmanagerSet (cfg : Cfg) : alertmanagerSet + unit :=
  if client_ok cfg then inl (mk_set cfg [] [] (Some ∅)) else inr tt.

Definition find_loop (s : alertmanagerSet) (us : gostr) : option nat := s_sendLoops s ≫= fun l => l !! us.

(** The methods of a loop. *)
Definition loop_add (alerts : list Alert) (l : loop_rec Cfg Alert) : loop_rec Cfg Alert :=
  if l_stopped l then l else mk_loop (l_url l) (l_cfg l) (l_added l ++ [alerts]) (l_stopped l).
Definition loop_stop (l : loop_rec Cfg Alert) : loop_rec Cfg Alert := mk_loop (l_url l) (l_cfg l) (l_added l) true.

Fixpoint addSendLoops (ams : list AM) (s : alertmanagerSet) (h : heap) : option (alertmanagerSet * heap) :=
  match ams with
  | [] => Some (s, h)
  | am :: ams =>
      let us := url am in
      match find_loop s us with
      | Some _ => addSendLoops ams s h
      | None =>
          l ← s_sendLoops s;
          addSendLoops ams (with_loops (Some (<[us := length h]> l)) s) (h ++ [mk_loop us (s_cfg s) [] false])
      end
  end.

Fixpoint cleanSendLoops (ams : list AM) (s : alertmanagerSet) (h : heap) : alertmanagerSet * heap :=
  match ams with
  | [] => (s, h)
  | am :: ams =>
      let us := url am in
      match find_loop s us with
      | Some id => cleanSendLoops ams (with_loops (delete us <$> s_sendLoops s) s) (alter loop_stop id h)
      | None => cleanSendLoops ams s h
      end
  end.

(** The Alertmanagers of all groups; a group with an error is skipped. *)
Fixpoint discovered (cfg : Cfg) (tgs : list TG) : option (list AM * list AM) :=
  match tgs with
  | [] => Some ([], [])
  | tg :: tgs =>
      r ← AlertmanagerFromGroup tg cfg;
      '(ams, dropped) ← discovered cfg tgs;
      Some match r with inl (a, d) => (a ++ ams, d ++ dropped) | inr _ => (ams, dropped) end
  end.

(** The first Alertmanager of every URL, and the URLs that were seen. *)
Fixpoint dedup (seen : gset gostr) (ams : list AM) : list AM * gset gostr :=
  match ams with
  | [] => ([], seen)
  | am :: ams => if decide (url am ∈ seen) then dedup seen ams else let '(r, seen) := dedup ({[url am]} ∪ seen) ams in (am :: r, seen)
  end.

Definition set_sync (tgs : list TG) (s : alertmanagerSet) (h : heap) : option (alertmanagerSet * heap) :=
  '(allAms, allDroppedAms) ← discovered (s_cfg s) tgs;
  let previousAms := s_ams s in
  let '(ams, seen) := dedup ∅ allAms in
  '(s, h) ← addSendLoops ams (with_ams ams allDroppedAms s) h;
  Some (cleanSendLoops (dedup seen previousAms).1 s h).

Definition set_send (alerts : list Alert) (s : alertmanagerSet) (h : heap) : option heap :=
  let to_all (alerts : list Alert) : option heap :=
    Some (foldl (fun h '(_, id) => alter (loop_add alerts) id h) h (order (default ∅ (s_sendLoops s)))) in
  match AlertRelabelConfigs (s_cfg s) with
  | [] => to_all alerts
  | rules => alerts ← relabelAlerts rules (mk_Labels []) alerts; match alerts with [] => Some h | _ => to_all alerts end
  end.

(** ** The manager *)

Record Options := mk_Options { ExternalLabels : Labels; RelabelConfigs : list Rule }.
Record Manager := mk_Manager { m_opts : Options; m_sets : gmap gostr alertmanagerSet; m_stopRequested : bool }.

Definition NewManager (o : Options) : Manager := mk_Manager o ∅ false.

(** What ApplyConfig reads: the external labels, the rules for alerts, the scheme,
    and the map of configurations that ToMap makes. *)
Record config_part := mk_config_part { c_ExternalLabels : Labels; c_AlertRelabelConfigs : list Rule; c_Scheme : Scheme; c_AlertmanagerConfigs : gmap gostr Cfg }.

(** configToAlertmanagers; the error is that of a hash. *)
Fixpoint sets_by_hash (sets : list (gostr * alertmanagerSet)) (acc : gmap gostr gostr) : option (gmap gostr gostr) :=
  match sets with
  | [] => Some acc
  | (k, s) :: sets => hash ← configHash (s_cfg s); sets_by_hash sets (<[hash := k]> acc)
  end.

(** The old sets, the new ones, and whether all went well. *)
Fixpoint make_sets (byhash : gmap gostr gostr) (cfgs : list (gostr * Cfg)) (olds news : gmap gostr alertmanagerSet) : gmap gostr alertmanagerSet * gmap gostr alertmanagerSet * bool :=
  match cfgs with
  | [] => (olds, news, true)
  | (k, cfg) :: cfgs =>
      match newAlertmanagerSet cfg, configHash cfg with
      | inl ams, Some hash =>
          match byhash !! hash ≫= fun ok => pair ok <$> olds !! ok with
          | Some (ok, old) =>
              let ams := with_ams (s_ams old) (s_droppedAms old) ams in
              match s_sendLoops old with
              | Some l => make_sets byhash cfgs (<[ok := with_loops None old]> olds) (<[k := with_loops (Some l) ams]> news)
              | None => make_sets byhash cfgs olds (<[k := ams]> news)
              end
          | None => make_sets byhash cfgs olds (<[k := ams]> news)
          end
      | _, _ => (olds, news, false)
      end
  end.

(** Sets without a map were transferred. *)
Fixpoint clean_sets (sets : list (gostr * alertmanagerSet)) (h : heap) : heap :=
  match sets with
  | [] => h
  | (_, s) :: sets => clean_sets sets (match s_sendLoops s with Some _ => (cleanSendLoops (s_ams s) s h).2 | None => h end)
  end.

(** ApplyConfig: the result is false on an error. *)
Definition ApplyConfig (c : config_part) (n : Manager) (h : heap) : Manager * heap * bool :=
  let opts := mk_Options (c_ExternalLabels c) (map (default_scheme (c_Scheme c)) (c_AlertRelabelConfigs c)) in
  match sets_by_hash (order (m_sets n)) ∅ with
  | None => (mk_Manager opts (m_sets n) (m_stopRequested n), h, false)
  | Some byhash =>
      let '(olds, news, ok) := make_sets byhash (order (c_AlertmanagerConfigs c)) (m_sets n) ∅ in
      if ok : bool then (mk_Manager opts news (m_stopRequested n), clean_sets (order olds) h, true)
      else (mk_Manager opts olds (m_stopRequested n), h, false)
  end.

Fixpoint reload_sets (tgs : list (gostr * list TG)) (sets : gmap gostr alertmanagerSet) (h : heap) : option (gmap gostr alertmanagerSet * heap) :=
  match tgs with
  | [] => Some (sets, h)
  | (id, tgroup) :: tgs =>
      match sets !! id with
      | None => reload_sets tgs sets h
      | Some am => '(am, h) ← set_sync tgroup am h; reload_sets tgs (<[id := am]> sets) h
      end
  end.

Definition with_sets (sets : gmap gostr alertmanagerSet) (n : Manager) : Manager := mk_Manager (m_opts n) sets (m_stopRequested n).

Definition reload (tgs : gmap gostr (list TG)) (n : Manager) (h : heap) : option (Manager * heap) :=
  '(sets, h) ← reload_sets (order tgs) (m_sets n) h; Some (with_sets sets n, h).

Definition Send (alerts : list Alert) (n : Manager) (h : heap) : option heap :=
  if m_stopRequested n then Some h
  else
    alerts ← relabelAlerts (RelabelConfigs (m_opts n)) (ExternalLabels (m_opts n)) alerts;
    match alerts with
    | [] => Some h
    | _ => foldl (fun h '(_, s) => h ← h; set_send alerts s h) (Some h) (order (m_sets n))
    end.

Definition Stop (n : Manager) : Manager := mk_Manager (m_opts n) (m_sets n) true.

(** The clean-up at the end of Run. *)
Fixpoint stop_sets (ks : list (gostr * alertmanagerSet)) (sets : gmap gostr alertmanagerSet) (h : heap) : gmap gostr alertmanagerSet * heap :=
  match ks with
  | [] => (sets, h)
  | (k, s) :: ks => let '(s, h) := cleanSendLoops (s_ams s) s h in stop_sets ks (<[k := s]> sets) h
  end.
Definition Run_cleanup (n : Manager) (h : heap) : Manager * heap :=
  let '(sets, h) := stop_sets (order (m_sets n)) (m_sets n) h in (with_sets sets n, h).

(** Alertmanagers and DroppedAlertmanagers: the URLs of all sets. *)
Definition Alertmanagers (n : Manager) : list gostr := order (m_sets n) ≫= fun '(_, s) => map url (s_ams s).
Definition DroppedAlertmanagers (n : Manager) : list gostr := order (m_sets n) ≫= fun '(_, s) => map url (s_droppedAms s).

(** ** Who owns which loop *)

Definition set_ids (s : alertmanagerSet) : list nat := (map_to_list (default ∅ (s_sendLoops s))).*2.
Definition pool_ids (pool : list alertmanagerSet) : list nat := pool ≫= set_ids.
Definition running (h : heap) (id : nat) : Prop := exists l, h !! id = Some l /\ l_stopped l = false.

(** The loops of a set are for their URLs, with a configuration like the set's. *)
Definition loops_ok (h : heap) (s : alertmanagerSet) : Prop := forall us id, find_loop s us = Some id ->
  exists l, h !! id = Some l /\ l_url l = us /\ configHash (l_cfg l) = configHash (s_cfg s).
(** Every loop that runs is in the map of exactly one set, at one URL. *)
Definition all_owned (pool : list alertmanagerSet) (h : heap) : Prop :=
  NoDup (pool_ids pool) /\ (forall id, id ∈ pool_ids pool <-> running h id) /\ Forall (loops_ok h) pool.
(** Loops are for Alertmanagers of the set only, so that the clean-up finds them. *)
Definition covered (s : alertmanagerSet) : Prop := forall us, is_Some (find_loop s us) -> us ∈ map url (s_ams s).

(** Loops are not changed but for alerts that are added, and being stopped. *)
Definition evolves (h h' : heap) : Prop := forall id l, h !! id = Some l ->
  exists l', h' !! id = Some l' /\ l_url l' = l_url l /\ l_cfg l' = l_cfg l /\ l_added l `prefix_of` l_added l' /\
    (l_stopped l = true -> l' = l).

#[local] Instance evolves_preorder : PreOrder evolves.
Proof.
  split.
  - intros h id l H. exists l. done.
  - intros h1 h2 h3 H12 H23 id l H. destruct (H12 id l H) as (l2 & E2 & U2 & C2 & A2 & S2). destruct (H23 id l2 E2) as (l3 & E3 & U3 & C3 & A3 & S3).
    exists l3. split_and!; [done|congruence|congruence|by etrans|]. intros Hs. rewrite (S2 Hs) in *. auto.
Qed.

Lemma elem_of_set_ids s id : id ∈ set_ids s <-> exists us, find_loop s us = Some id.
Proof.
  unfold set_ids, find_loop. rewrite list_elem_of_fmap. split.
  - intros ([us i] & -> & H%elem_of_map_to_list). exists us. by destruct (s_sendLoops s).
  - intros [us H]. exists (us, id). split; [done|]. apply elem_of_map_to_list. by destruct (s_sendLoops s).
Qed.
Lemma elem_of_pool_ids pool id : id ∈ pool_ids pool <-> exists s us, s ∈ pool /\ find_loop s us = Some id.
Proof. unfold pool_ids. rewrite list_elem_of_bind. setoid_rewrite elem_of_set_ids. naive_solver. Qed.

#[local] Instance pool_ids_perm : Proper ((≡ₚ) ==> (≡ₚ)) pool_ids.
Proof. intros p q H. unfold pool_ids. by rewrite H. Qed.
Lemma owned_perm p q h : p ≡ₚ q -> all_owned p h -> all_owned q h.
Proof.
  intros H (N & L & F). split_and!; [by rewrite <-H| |by rewrite <-H]. intros id. rewrite <-L. split; intros E; [by rewrite H|by rewrite <-H].
Qed.

Lemma pool_ids_cons s pool : pool_ids (s :: pool) = set_ids s ++ pool_ids pool.
Proof. done. Qed.

Lemma loops_ok_evolves h h' s : evolves h h' -> loops_ok h s -> loops_ok h' s.
Proof. intros He Hs us id H. destruct (Hs us id H) as (l & E & <- & Hc). destruct (He id l E) as (l' & E' & U & C & _). exists l'. split_and!; [done..|congruence]. Qed.

Lemma find_with_loops l s us : find_loop (with_loops (Some l) s) us = l !! us.
Proof. done. Qed.

(** ** Starting and stopping one loop *)

Lemma evolves_app h x : evolves h (h ++ [x]).
Proof. intros id l H. exists l. split_and!; [by apply lookup_app_l_Some|done..]. Qed.
Lemma evolves_alter (f : loop_rec Cfg Alert -> loop_rec Cfg Alert) id h : (forall l, l_url (f l) = l_url l /\ l_cfg (f l) = l_cfg l /\ l_added l `prefix_of` l_added (f l) /\ (l_stopped l = true -> f l = l)) ->
  evolves h (alter f id h).
Proof.
  intros Hf i l H. destruct (decide (i = id)) as [->|Hn].
  - exists (f l). rewrite list_lookup_alter_eq, H. split; [done|apply Hf].
  - exists l. by rewrite list_lookup_alter_ne by done.
Qed.
Lemma evolves_stop id h : evolves h (alter loop_stop id h).
Proof. apply evolves_alter. intros []. cbn. split_and!; [done..|intros ->; done]. Qed.
Lemma evolves_add alerts id h : evolves h (alter (loop_add alerts) id h).
Proof.
  apply evolves_alter. intros []. unfold loop_add. cbn. destruct l_stopped0; cbn; split_and!; try done. by apply prefix_app_r.
Qed.

Lemma start_owned s l rest h us : all_owned (s :: rest) h -> s_sendLoops s = Some l -> l !! us = None ->
  all_owned (with_loops (Some (<[us := length h]> l)) s :: rest) (h ++ [mk_loop us (s_cfg s) [] false]).
Proof.
  intros (N & L & F) Es El. assert (Hids : pool_ids (with_loops (Some (<[us := length h]> l)) s :: rest) ≡ₚ length h :: pool_ids (s :: rest)).
  { rewrite !pool_ids_cons. unfold set_ids at 1 2. cbn. rewrite Es. cbn. rewrite map_to_list_insert by done. done. }
  split_and!.
  - rewrite Hids. apply NoDup_cons. split; [|done]. rewrite L. intros (x & Hx & _). apply lookup_lt_Some in Hx. lia.
  - intros id. rewrite Hids, elem_of_cons, L. unfold running. split.
    + intros [->|(x & Hx & Hs)]; [eexists; by rewrite lookup_app_r, Nat.sub_diag by done|]. exists x. split; [by apply lookup_app_l_Some|done].
    + intros (x & [Hx|[Hi Hx]]%lookup_app_Some & Hs); [right; eauto|left]. apply list_lookup_singleton_Some in Hx as [? _]. lia.
  - apply Forall_cons in F as [F1 F2]. apply Forall_cons. split.
    + intros us' id. rewrite find_with_loops. intros [[-> <-]|[Hn H]]%lookup_insert_Some.
      * eexists. rewrite lookup_app_r, Nat.sub_diag by done. split; [done|]. done.
      * destruct (F1 us' id) as (x & Hx & H'); [unfold find_loop; by rewrite Es|]. exists x. split; [by apply lookup_app_l_Some|done].
    + eapply Forall_impl; [exact F2|]. intros x. apply loops_ok_evolves, evolves_app.
Qed.

Lemma stop_owned s l rest h us id : all_owned (s :: rest) h -> s_sendLoops s = Some l -> l !! us = Some id ->
  all_owned (with_loops (Some (delete us l)) s :: rest) (alter loop_stop id h).
Proof.
  intros (N & L & F) Es El. assert (Hids : pool_ids (s :: rest) ≡ₚ id :: pool_ids (with_loops (Some (delete us l)) s :: rest)).
  { rewrite !pool_ids_cons. unfold set_ids at 1 2. cbn. rewrite Es. cbn. by rewrite <-(map_to_list_delete l us id El). }
  rewrite Hids in N. apply NoDup_cons in N as [Nid N]. split_and!; [done| |].
  - intros i. assert (Hi : i ∈ pool_ids (with_loops (Some (delete us l)) s :: rest) <-> i <> id /\ running h i).
    { rewrite <-L, Hids, elem_of_cons. naive_solver. }
    rewrite Hi. unfold running. destruct (decide (i = id)) as [->|Hn].
    + rewrite list_lookup_alter_eq. split; [naive_solver|]. intros (x & Hx & Hs). apply fmap_Some in Hx as (y & _ & ->). done.
    + rewrite list_lookup_alter_ne by done. naive_solver.
  - apply Forall_cons in F as [F1 F2]. apply Forall_cons. split.
    + apply (loops_ok_evolves h); [apply evolves_stop|]. intros us' i. rewrite find_with_loops. intros [_ H]%lookup_delete_Some.
      apply F1. unfold find_loop. by rewrite Es.
    + eapply Forall_impl; [exact F2|]. intros x. apply loops_ok_evolves, evolves_stop.
Qed.

(** ** The operations of a set *)

(** A set that changed, next to sets that did not. *)
Definition same_set (s s' : alertmanagerSet) : Prop :=
  s_cfg s' = s_cfg s /\ s_ams s' = s_ams s /\ s_droppedAms s' = s_droppedAms s /\ (is_Some (s_sendLoops s) -> is_Some (s_sendLoops s')).

Lemma find_loop_Some s us id : find_loop s us = Some id -> exists l, s_sendLoops s = Some l /\ l !! us = Some id.
Proof. unfold find_loop. intros H. by apply bind_Some in H. Qed.

Lemma addSendLoops_owned ams : forall s rest h, all_owned (s :: rest) h -> is_Some (s_sendLoops s) ->
  exists s' h', addSendLoops ams s h = Some (s', h') /\ all_owned (s' :: rest) h' /\ same_set s s' /\ evolves h h' /\
    (forall us id, find_loop s us = Some id -> find_loop s' us = Some id) /\
    (forall us, is_Some (find_loop s' us) <-> is_Some (find_loop s us) \/ us ∈ map url ams).
Proof.
  induction ams as [|am ams IH]; intros s rest h Ho [l El].
  - exists s, h. split_and!; try done. intros us. split; [by left|]. intros [H|H]; [done|]. by apply not_elem_of_nil in H.
  - cbn. destruct (find_loop s (url am)) as [id|] eqn:Ef.
    + destruct (IH s rest h Ho) as (s' & h' & E & Ho' & Hs & He & Hk & Hd); [by eexists|]. exists s', h'. split_and!; try done.
      intros us. rewrite Hd, elem_of_cons. split; [naive_solver|]. intros [H|[->|H]]; [by left| |by right]. left. by eexists.
    + rewrite El. cbn. assert (Hl : l !! url am = None) by (unfold find_loop in Ef; by rewrite El in Ef).
      destruct (IH _ rest _ (start_owned s l rest h (url am) Ho El Hl)) as (s' & h' & E & Ho' & (S1 & S2 & S3 & S4) & He & Hk & Hd); [by eexists|].
      exists s', h'. split_and!; try done.
      * split_and!; try done. intros _. apply S4. by eexists.
      * etrans; [apply evolves_app|exact He].
      * intros us id H. apply Hk. rewrite find_with_loops. rewrite lookup_insert_ne; [unfold find_loop in H; by rewrite El in H|]. intros <-. congruence.
      * intros us. rewrite Hd, find_with_loops, elem_of_cons. unfold find_loop. rewrite El. cbn. rewrite lookup_insert_is_Some'. rewrite (eq_comm us). tauto.
Qed.

Lemma cleanSendLoops_owned ams : forall s rest h s' h', all_owned (s :: rest) h -> cleanSendLoops ams s h = (s', h') ->
  all_owned (s' :: rest) h' /\ same_set s s' /\ evolves h h' /\
  (forall us, find_loop s' us = if decide (us ∈ map url ams) then None else find_loop s us).
Proof.
  induction ams as [|am ams IH]; intros s rest h s' h' Ho; cbn.
  - intros [= <- <-]. by split_and!.
  - destruct (find_loop s (url am)) as [id|] eqn:Ef.
    + apply find_loop_Some in Ef as (l & El & Hl). rewrite El. cbn. intros E.
      destruct (IH _ _ _ _ _ (stop_owned s l rest h (url am) id Ho El Hl) E) as (Ho' & (S1 & S2 & S3 & S4) & He & Hd). split_and!; try done.
      * split_and!; try done. intros _. apply S4. by eexists.
      * etrans; [apply evolves_stop|exact He].
      * intros us. rewrite Hd, find_with_loops. unfold find_loop. rewrite El. cbn. destruct (decide (us = url am)) as [->|Hn].
        -- rewrite lookup_delete_eq, (decide_True (P := url am ∈ url am :: _)) by left. by case_decide.
        -- rewrite lookup_delete_ne by done. apply decide_ext. rewrite elem_of_cons. naive_solver.
    + intros E. destruct (IH _ _ _ _ _ Ho E) as (Ho' & Hs & He & Hd). split_and!; try done. intros us. rewrite Hd.
      destruct (decide (us = url am)) as [->|Hn].
      * rewrite (decide_True (P := url am ∈ url am :: _)) by left. by case_decide.
      * apply decide_ext. rewrite elem_of_cons. naive_solver.
Qed.

(** Cleaning a covered set stops all its loops. *)
Lemma clean_all_owned s rest h s' h' : all_owned (s :: rest) h -> covered s -> cleanSendLoops (s_ams s) s h = (s', h') ->
  all_owned rest h' /\ evolves h h' /\ same_set s s' /\ (forall us, find_loop s' us = None).
Proof.
  intros Ho Hc E. destruct (cleanSendLoops_owned _ _ _ _ _ _ Ho E) as ((N & L & F) & Hs & He & Hd).
  assert (Hn : forall us, find_loop s' us = None).
  { intros us. rewrite Hd. case_decide as H; [done|]. destruct (find_loop s us) eqn:Ef; [|done]. destruct H. apply Hc. by eexists. }
  assert (Hids : set_ids s' = []).
  { destruct (set_ids s') as [|i ids] eqn:Ei; [done|]. assert (Hi : i ∈ set_ids s') by (rewrite Ei; left). apply elem_of_set_ids in Hi as [us Hi]. by rewrite Hn in Hi. }
  rewrite pool_ids_cons, Hids in *. split; [|done]. split_and!; [done| |by inversion F]. exact L.
Qed.

Lemma dedup_spec ams : forall seen, let '(r, seen') := dedup seen ams in
  NoDup (map url r) /\ (forall us, us ∈ map url r <-> us ∈ map url ams /\ us ∉ seen) /\ (forall us, us ∈ seen' <-> us ∈ seen \/ us ∈ map url ams).
Proof.
  induction ams as [|am ams IH]; intros seen; cbn.
  - split_and!; [constructor|..]; intros us; pose proof (not_elem_of_nil us); naive_solver.
  - case_decide as Hd.
    + specialize (IH seen). destruct (dedup seen ams) as [r seen']. destruct IH as (H1 & H2 & H3). split_and!; [done|..]; intros us; rewrite ?H2, ?H3, elem_of_cons; naive_solver.
    + specialize (IH ({[url am]} ∪ seen)). destruct (dedup _ ams) as [r seen']. destruct IH as (H1 & H2 & H3). cbn. split_and!.
      * constructor; [|done]. change (url am ∉ map url r). rewrite H2. set_solver.
      * intros us. rewrite elem_of_cons. change (us ∈ url <$> r) with (us ∈ map url r). rewrite H2, elem_of_cons. destruct (decide (us = url am)); set_solver.
      * intros us. rewrite H3, elem_of_cons. set_solver.
Qed.

(** What the sets of the manager satisfy. *)
Definition set_ok (s : alertmanagerSet) : Prop := covered s /\ is_Some (s_sendLoops s).

Lemma sync_owned tgs s rest h allAms allDropped : all_owned (s :: rest) h -> set_ok s -> discovered (s_cfg s) tgs = Some (allAms, allDropped) ->
  exists s' h', set_sync tgs s h = Some (s', h') /\ all_owned (s' :: rest) h' /\ set_ok s' /\ evolves h h' /\
    s_cfg s' = s_cfg s /\ s_ams s' = (dedup ∅ allAms).1 /\ s_droppedAms s' = allDropped /\
    (forall us, is_Some (find_loop s' us) <-> us ∈ map url allAms) /\
    (forall us id, us ∈ map url allAms -> find_loop s us = Some id -> find_loop s' us = Some id).
Proof.
  intros Ho [Hc Hl] Hd. unfold set_sync. rewrite Hd. cbn. pose proof (dedup_spec allAms ∅) as Hdd. destruct (dedup ∅ allAms) as [ams seen].
  destruct Hdd as (N & Hr & Hseen).
  assert (Ho1 : all_owned (with_ams ams allDropped s :: rest) h).
  { destruct Ho as (O1 & O2 & O3). split_and!; [exact O1|exact O2|]. apply Forall_cons in O3 as [O3 O4]. apply Forall_cons. split; [exact O3|exact O4]. }
  destruct (addSendLoops_owned ams _ _ _ Ho1 Hl) as (s1 & h1 & E1 & Ho2 & (C1 & C2 & C3 & C4) & He1 & Hk & Hd1). rewrite E1. cbn.
  pose proof (dedup_spec (s_ams s) seen) as Hdp. destruct (dedup seen (s_ams s)) as [gone seen']. destruct Hdp as (_ & Hg & _). cbn.
  destruct (cleanSendLoops gone s1 h1) as [s2 h2] eqn:E2. destruct (cleanSendLoops_owned _ _ _ _ _ _ Ho2 E2) as (Ho3 & (D1 & D2 & D3 & D4) & He2 & Hf).
  assert (Hdom : forall us, is_Some (find_loop s2 us) <-> us ∈ map url allAms).
  { intros us. rewrite Hf. assert (Ha : us ∈ map url ams <-> us ∈ map url allAms) by (rewrite Hr; set_solver).
    assert (Hs : us ∈ seen <-> us ∈ map url allAms) by (rewrite Hseen; set_solver).
    case_decide as Hin.
    - apply Hg in Hin as [_ Hin]. split; [intros [? ?]; done|]. rewrite <-Hs. done.
    - rewrite Hd1, Ha. split; [|by right]. intros [H|H]; [|done]. destruct (decide (us ∈ map url allAms)); [done|]. destruct Hin. apply Hg. split; [by apply Hc|]. by rewrite Hs. }
  exists s2, h2. split_and!; try done.
  - split; [|auto]. intros us H. apply Hdom in H. rewrite D2, C2. cbn. apply Hr. set_solver.
  - by etrans.
  - by rewrite D1, C1.
  - by rewrite D2, C2.
  - by rewrite D3, C3.
  - intros us id Hus H. rewrite Hf. rewrite decide_False; [by apply Hk|]. intros [_ Hin]%Hg. rewrite Hseen in Hin. set_solver.
Qed.

(** ** The sets of the manager *)

Hypothesis order_perm : forall V (m : gmap gostr V), order m ≡ₚ map_to_list m.

Definition pool (sets : gmap gostr alertmanagerSet) : list alertmanagerSet := (map_to_list sets).*2.
Definition manager_inv (sets : gmap gostr alertmanagerSet) (h : heap) : Prop :=
  all_owned (pool sets) h /\ map_Forall (fun _ => set_ok) sets.

Lemma elem_of_pool sets s : s ∈ pool sets <-> exists k, sets !! k = Some s.
Proof.
  unfold pool. rewrite list_elem_of_fmap. split; [intros ([k x] & -> & H%elem_of_map_to_list); eauto|].
  intros [k H]. exists (k, s). by rewrite elem_of_map_to_list.
Qed.
Lemma pool_insert_new sets k s : sets !! k = None -> pool (<[k := s]> sets) ≡ₚ s :: pool sets.
Proof. intros H. unfold pool. by rewrite map_to_list_insert. Qed.
Lemma pool_lookup sets k s : sets !! k = Some s -> pool sets ≡ₚ s :: pool (delete k sets).
Proof. intros H. unfold pool. by rewrite <-(map_to_list_delete sets k s H). Qed.
Lemma pool_update sets k s : pool (<[k := s]> sets) ≡ₚ s :: pool (delete k sets).
Proof. rewrite <-insert_delete_eq. apply pool_insert_new. by rewrite lookup_delete_eq. Qed.

(** An operation on the set at [k], next to others. *)
Lemma owned_lookup sets k s rest h : sets !! k = Some s -> all_owned (pool sets ++ rest) h -> all_owned (s :: pool (delete k sets) ++ rest) h.
Proof. intros H. apply owned_perm. rewrite (pool_lookup _ _ _ H). done. Qed.
Lemma owned_update sets k s rest h : all_owned (s :: pool (delete k sets) ++ rest) h -> all_owned (pool (<[k := s]> sets) ++ rest) h.
Proof. apply owned_perm. by rewrite pool_update. Qed.

Lemma reload_sets_inv tgs : (forall tg cfg, AlertmanagerFromGroup tg cfg <> None) -> forall sets h, manager_inv sets h ->
  exists sets' h', reload_sets tgs sets h = Some (sets', h') /\ manager_inv sets' h' /\ evolves h h'.
Proof.
  intros Hg. assert (Hdisc : forall cfg tgs, is_Some (discovered cfg tgs)).
  { intros cfg l. induction l as [|tg l [[a d] IH]]; cbn; [by eexists|]. destruct (AlertmanagerFromGroup tg cfg) eqn:E; [|by destruct (Hg _ _ E)].
    cbn. rewrite IH. cbn. by eexists. }
  induction tgs as [|[id tg] tgs IH]; intros sets h [Ho Hs]; cbn.
  - exists sets, h. by split_and!.
  - destruct (sets !! id) as [am|] eqn:E; [|by apply IH]. destruct (Hdisc (s_cfg am) tg) as [[a d] Hd].
    rewrite <-(app_nil_r (pool sets)) in Ho. apply (owned_lookup _ _ _ _ _ E) in Ho.
    destruct (sync_owned tg am _ h a d Ho (Hs _ _ E) Hd) as (am' & h1 & E1 & Ho1 & Hok & He & _). rewrite E1. cbn.
    destruct (IH (<[id := am']> sets) h1) as (sets' & h' & E2 & Hi & He2).
    + split; [apply owned_update in Ho1; by rewrite app_nil_r in Ho1|]. by apply map_Forall_insert_2.
    + exists sets', h'. split_and!; [done|done|by etrans].
Qed.

Lemma reload_inv_any tgs : forall sets h sets' h', manager_inv sets h -> reload_sets tgs sets h = Some (sets', h') -> manager_inv sets' h' /\ evolves h h'.
Proof.
  induction tgs as [|[id tg] tgs IH]; intros sets h sets' h' [Ho Hs]; cbn.
  - intros [= <- <-]. by split.
  - destruct (sets !! id) as [am|] eqn:E; [|by apply IH]. intros ([am' h1] & E1 & E2)%bind_Some.
    assert (exists a d, discovered (s_cfg am) tg = Some (a, d)) as (a & d & Hd).
    { unfold set_sync in E1. destruct (discovered _ tg) as [[a d]|]; [by eexists _, _|done]. }
    rewrite <-(app_nil_r (pool sets)) in Ho. apply (owned_lookup _ _ _ _ _ E) in Ho.
    destruct (sync_owned tg am _ h a d Ho (Hs _ _ E) Hd) as (am2 & h2 & E1' & Ho1 & Hok & He & _). rewrite E1' in E1. injection E1 as -> ->.
    destruct (IH (<[id := am']> sets) h1 sets' h') as [Hi He2]; [|done|split; [done|by etrans]].
    split; [apply owned_update in Ho1; by rewrite app_nil_r in Ho1|]. by apply map_Forall_insert_2.
Qed.

(** Adding alerts to loops that may be stopped. *)
Lemma live_add alerts id h i : running (alter (loop_add alerts) id h) i <-> running h i.
Proof.
  unfold running. destruct (decide (i = id)) as [->|Hn]; [|by rewrite list_lookup_alter_ne].
  rewrite list_lookup_alter_eq. destruct (h !! id) as [l|]; cbn; [|naive_solver]. unfold loop_add. split.
  - intros (x & [= <-] & Hs). exists l. split; [done|]. destruct (l_stopped l) eqn:E; [|done]. congruence.
  - intros (x & [= <-] & Hs). eexists. split; [done|]. by rewrite Hs.
Qed.
Lemma owned_same_live p h h' : evolves h h' -> (forall i, running h' i <-> running h i) -> all_owned p h -> all_owned p h'.
Proof. intros He Hl (N & L & F). split_and!; [done|intros i; by rewrite L, Hl|]. eapply Forall_impl; [exact F|]. intros s. by apply loops_ok_evolves. Qed.

Lemma add_all_same alerts (ids : list (gostr * nat)) : forall h, let h' := foldl (fun h '(_, id) => alter (loop_add alerts) id h) h ids in
  evolves h h' /\ (forall i, running h' i <-> running h i).
Proof.
  induction ids as [|[us id] ids IH]; intros h; cbn; [done|]. destruct (IH (alter (loop_add alerts) id h)) as [He Hl]. split.
  - etrans; [apply evolves_add|exact He].
  - intros i. by rewrite Hl, live_add.
Qed.
Lemma set_send_same alerts s h h' : set_send alerts s h = Some h' -> evolves h h' /\ (forall i, running h' i <-> running h i).
Proof.
  unfold set_send. destruct (AlertRelabelConfigs (s_cfg s)) as [|r rs].
  - intros [= <-]. apply add_all_same.
  - intros ([|a al] & E & H)%bind_Some; simplify_eq; [by split|]. apply add_all_same.
Qed.
Lemma Send_same alerts n h h' : Send alerts n h = Some h' -> evolves h h' /\ (forall i, running h' i <-> running h i).
Proof.
  unfold Send. destruct (m_stopRequested n); [by intros [= <-]|]. intros ([|a al] & E & H)%bind_Some; [by simplify_eq|].
  revert h H. induction (order (m_sets n)) as [|[k s] sets IH]; intros h H; cbn in H; [by simplify_eq|].
  destruct (set_send (a :: al) s h) as [h1|] eqn:E1; cbn in H.
  - apply set_send_same in E1 as [He Hl]. destruct (IH h1 H) as [He2 Hl2]. split; [by etrans|]. intros i. by rewrite Hl2, Hl.
  - exfalso. clear -H. induction sets as [|[] sets IH]; cbn in H; [done|auto].
Qed.

(** The clean-up of the manager. *)
Lemma stop_sets_inv ks : forall sets h sets' h', NoDup ks.*1 -> (forall k s, (k, s) ∈ ks -> sets !! k = Some s) -> manager_inv sets h ->
  stop_sets ks sets h = (sets', h') -> manager_inv sets' h' /\ evolves h h' /\
  (forall k s, sets' !! k = Some s -> k ∈ ks.*1 -> forall us, find_loop s us = None) /\ (forall k, k ∉ ks.*1 -> sets' !! k = sets !! k) /\
  (forall k, is_Some (sets' !! k) -> is_Some (sets !! k)).
Proof.
  induction ks as [|[k s] ks IH]; intros sets h sets' h' Hnd Hks [Ho Hs]; cbn.
  - intros [= <- <-]. split_and!; try done. intros k s _ H. by apply not_elem_of_nil in H.
  - destruct (cleanSendLoops (s_ams s) s h) as [s1 h1] eqn:E1. intros E2. cbn in Hnd. apply NoDup_cons in Hnd as [Hk Hnd].
    assert (E : sets !! k = Some s) by (apply Hks; left). rewrite <-(app_nil_r (pool sets)) in Ho. apply (owned_lookup _ _ _ _ _ E) in Ho.
    pose proof (Hs _ _ E) as [Hc Hl]. pose proof (cleanSendLoops_owned _ _ _ _ _ _ Ho E1) as (Ho1 & (S1 & S2 & S3 & S4) & He & _).
    destruct (clean_all_owned s _ h s1 h1 Ho Hc E1) as (_ & _ & _ & Hn).
    destruct (IH (<[k := s1]> sets) h1 sets' h' Hnd) as (Hi & He2 & Hclean & Hrest & Hdom); [| |done|].
    + intros k' s' H. rewrite lookup_insert_ne; [apply Hks; by right|]. intros ->. apply Hk. by apply (list_elem_of_fmap_2 fst) in H.
    + split; [apply owned_update in Ho1; by rewrite app_nil_r in Ho1|]. apply map_Forall_insert_2; [|done]. split; [|auto].
      intros us [x H]. by rewrite Hn in H.
    + split_and!; [done|by etrans| | |].
      * intros k' s' H [->|Hin]%elem_of_cons us; [|by eapply Hclean]. rewrite Hrest, lookup_insert_eq in H by done. by simplify_eq.
      * intros k' Hin. rewrite elem_of_cons in Hin. rewrite Hrest by naive_solver. apply lookup_insert_ne. naive_solver.
      * intros k' H. apply Hdom in H. rewrite lookup_insert_is_Some' in H. destruct H as [<-|H]; [by eexists|done].
Qed.

(** ** Applying a configuration *)

Lemma sets_by_hash_spec sets : forall acc byhash, NoDup sets.*1 -> sets_by_hash sets acc = Some byhash ->
  (forall hash k, byhash !! hash = Some k -> acc !! hash = Some k \/ exists s, (k, s) ∈ sets /\ configHash (s_cfg s) = Some hash) /\
  (forall k s, (k, s) ∈ sets -> exists hash, configHash (s_cfg s) = Some hash /\
    ((forall k' s', (k', s') ∈ sets -> configHash (s_cfg s') = Some hash -> k' = k) -> byhash !! hash = Some k)) /\
  (forall hash, (forall k s, (k, s) ∈ sets -> configHash (s_cfg s) <> Some hash) -> byhash !! hash = acc !! hash).
Proof.
  induction sets as [|[k s] sets IH]; intros acc byhash Hnd; cbn.
  - intros [= <-]. split_and!; [by left| |done]. intros k s H. by apply not_elem_of_nil in H.
  - intros (hash & E & H)%bind_Some. cbn in Hnd. apply NoDup_cons in Hnd as [Hk Hnd]. destruct (IH _ _ Hnd H) as (H1 & H2 & H3). split_and!.
    + intros h' k' [Hi|(s' & Hin & Hs')]%H1; [|right; exists s'; split; [by right|done]].
      apply lookup_insert_Some in Hi as [[<- <-]|[_ Hi]]; [right; exists s; split; [left|done]|by left].
    + intros k' s' [[= -> ->]|Hin]%elem_of_cons.
      * exists hash. split; [done|]. intros Hu. rewrite H3, lookup_insert_eq; [done|]. intros k2 s2 Hin Hs2. apply Hk.
        rewrite <-(Hu k2 s2); [|by right|done]. by apply (list_elem_of_fmap_2 fst) in Hin.
      * destruct (H2 _ _ Hin) as (h' & Eh & Hu). exists h'. split; [done|]. intros Hu'. apply Hu. intros k2 s2 Hin2. apply Hu'. by right.
    + intros h' Hn. rewrite H3; [|intros k' s' Hin; apply (Hn k' s'); by right]. apply lookup_insert_ne. intros ->. apply (Hn k s); [left|done].
Qed.

(** A set whose loops were taken, or not. *)
Definition taken_from (s s' : alertmanagerSet) : Prop := s' = s \/ s' = with_loops None s.

Lemma owned_move ok old olds l ams k news h : olds !! ok = Some old -> s_sendLoops old = Some l -> news !! k = None -> configHash (s_cfg ams) = configHash (s_cfg old) ->
  all_owned (pool olds ++ pool news) h ->
  all_owned (pool (<[ok := with_loops None old]> olds) ++ pool (<[k := with_loops (Some l) ams]> news)) h.
Proof.
  intros E El Ek Eh Ho. apply (owned_lookup _ _ _ _ _ E) in Ho. apply owned_update.
  apply (owned_perm (with_loops (Some l) ams :: with_loops None old :: pool (delete ok olds) ++ pool news)).
  { rewrite (pool_insert_new _ _ _ Ek). solve_Permutation. }
  destruct Ho as (N & L & F). apply Forall_cons in F as [F1 F2].
  assert (Hids : pool_ids (with_loops (Some l) ams :: with_loops None old :: pool (delete ok olds) ++ pool news) = pool_ids (old :: pool (delete ok olds) ++ pool news)).
  { rewrite !pool_ids_cons. unfold set_ids at 1 2 3. cbn. by rewrite El. }
  split_and!; [by rewrite Hids|by rewrite Hids|]. repeat apply Forall_cons_2; [|done|done].
  intros us id H. rewrite find_with_loops in H. destruct (F1 us id) as (x & Hx & Hu & Hc); [unfold find_loop; by rewrite El|].
  exists x. split_and!; [done..|]. cbn. congruence.
Qed.
Lemma owned_new ams k olds news h : news !! k = None -> s_sendLoops ams = Some ∅ ->
  all_owned (pool olds ++ pool news) h -> all_owned (pool olds ++ pool (<[k := ams]> news)) h.
Proof.
  intros Ek El Ho. apply (owned_perm (ams :: pool olds ++ pool news)).
  { rewrite (pool_insert_new _ _ _ Ek). solve_Permutation. }
  destruct Ho as (N & L & F). assert (Hids : pool_ids (ams :: pool olds ++ pool news) = pool_ids (pool olds ++ pool news)).
  { rewrite pool_ids_cons. unfold set_ids at 1. by rewrite El. }
  split_and!; [by rewrite Hids|by rewrite Hids|]. apply Forall_cons_2; [|done]. intros us id H. unfold find_loop in H. by rewrite El in H.
Qed.

(** What the loop over the new configurations does to the sets. *)
Record made (byhash : gmap gostr gostr) (cfgs : list (gostr * Cfg)) (olds0 olds news : gmap gostr alertmanagerSet) : Prop := {
  made_old : forall k, option_Forall2 taken_from (olds0 !! k) (olds !! k);
  made_new : map_Forall (fun _ => set_ok) news;
  made_from : forall k s, news !! k = Some s -> (k, s_cfg s) ∈ cfgs;
  made_taken : forall k cfg hash ok, (k, cfg) ∈ cfgs -> configHash cfg = Some hash -> byhash !! hash = Some ok ->
    forall s, olds !! ok = Some s -> s_sendLoops s = None }.

Lemma taken_from_trans s1 s2 s3 : taken_from s1 s2 -> taken_from s2 s3 -> taken_from s1 s3.
Proof. intros [->| ->] [->| ->]; [by left|by right..]. Qed.

Lemma make_sets_made (byhash : gmap gostr gostr) (olds0 : gmap gostr alertmanagerSet) (h : heap) :
  (forall hash k s, byhash !! hash = Some k -> olds0 !! k = Some s -> configHash (s_cfg s) = Some hash) -> map_Forall (fun _ => covered) olds0 ->
  forall (cfgs done_ : list (gostr * Cfg)) (olds news olds' news' : gmap gostr alertmanagerSet), NoDup (done_ ++ cfgs).*1 -> made byhash done_ olds0 olds news -> all_owned (pool olds ++ pool news) h ->
  make_sets byhash cfgs olds news = (olds', news', true) ->
  made byhash (done_ ++ cfgs) olds0 olds' news' /\ all_owned (pool olds' ++ pool news') h.
Proof.
  intros Hby Hcov. induction cfgs as [|[k cfg] cfgs IH]; intros done_ olds news olds' news' Hnd Hm Ho; cbn.
  - intros [= <- <-]. by rewrite app_nil_r.
  - unfold newAlertmanagerSet. destruct (client_ok cfg); [|done]. destruct (configHash cfg) as [hash|] eqn:Eh; [|done].
    assert (Hk : news !! k = None).
    { destruct (news !! k) as [s|] eqn:E; [|done]. apply (made_from _ _ _ _ _ Hm) in E. rewrite fmap_app in Hnd. apply NoDup_app in Hnd as (_ & Hnd & _).
      apply (list_elem_of_fmap_2 fst) in E. destruct (Hnd k E). left. }
    rewrite cons_middle, app_assoc in Hnd.
    assert (Hstep : forall olds1 ams, s_cfg ams = cfg -> set_ok ams -> (forall k, option_Forall2 taken_from (olds !! k) (olds1 !! k)) ->
      (forall ok s, byhash !! hash = Some ok -> olds1 !! ok = Some s -> s_sendLoops s = None) -> all_owned (pool olds1 ++ pool (<[k := ams]> news)) h ->
      make_sets byhash cfgs olds1 (<[k := ams]> news) = (olds', news', true) ->
      made byhash (done_ ++ (k, cfg) :: cfgs) olds0 olds' news' /\ all_owned (pool olds' ++ pool news') h).
    { intros olds1 ams Ec Hok Hol Htk Ho1 E. rewrite cons_middle, app_assoc. refine (IH _ _ _ _ _ Hnd _ Ho1 E). destruct Hm as [M1 M2 M3 M4]. split.
      - intros k'. specialize (M1 k'). specialize (Hol k'). destruct M1; inversion Hol; subst; constructor. by eapply taken_from_trans.
      - by apply map_Forall_insert_2.
      - intros k' s [[<- <-]|[_ H]]%lookup_insert_Some; apply elem_of_app; [right; rewrite Ec; left|left; by apply M3].
      - intros k' cfg' hash' ok [Hin|[= -> ->]%list_elem_of_singleton]%elem_of_app Eh' Hb s Es.
        + specialize (Hol ok). rewrite Es in Hol. inversion Hol as [s0 s1 Ht E0 E1|]; subst. symmetry in E0.
          pose proof (M4 _ _ _ _ Hin Eh' Hb _ E0) as Hn. destruct Ht as [->| ->]; done.
        + rewrite Eh in Eh'. simplify_eq. by eapply Htk. }
    assert (Hrefl : forall k, option_Forall2 taken_from (olds !! k) (olds !! k)) by (intros k'; destruct (olds !! k'); constructor; by left).
    destruct (byhash !! hash) as [ok|] eqn:Eb; cbn; [destruct (olds !! ok) as [old|] eqn:Eo; cbn|].
    + pose proof (made_old _ _ _ _ _ Hm ok) as Ht. rewrite Eo in Ht. inversion Ht as [old0 old' Ht0 E0 E1|]; subst. symmetry in E0.
      assert (Hc : configHash (s_cfg old) = Some hash) by (destruct Ht0 as [->| ->]; cbn; by apply (Hby hash ok)).
      destruct (s_sendLoops old) as [l|] eqn:El.
      * apply Hstep.
        -- done.
        -- split; [|by eexists]. destruct Ht0 as [->| ->]; [|done]. intros us H. cbn. apply (Hcov _ _ E0). unfold find_loop. by rewrite El.
        -- intros k'. destruct (decide (k' = ok)) as [->|Hn]; [|by rewrite lookup_insert_ne]. rewrite Eo, lookup_insert_eq. constructor. by right.
        -- intros ok' s [= <-]. rewrite lookup_insert_eq. by intros [= <-].
        -- apply owned_move; [done|done|done|cbn; congruence|done].
      * apply Hstep; [done| |done| |by apply owned_new].
        -- split; [|by eexists]. intros us [x H]. done.
        -- intros ok' s [= <-]. rewrite Eo. by intros [= <-].
    + apply Hstep; [done| |done| |by apply owned_new]; [split; [intros us [x H]; done|by eexists]|]. intros ok' s [= <-]. by rewrite Eo.
    + apply Hstep; [done| |done| |by apply owned_new]; [split; [intros us [x H]; done|by eexists]|]. done.
Qed.

Lemma clean_sets_owned sets : forall rest h, Forall covered sets.*2 -> all_owned (sets.*2 ++ rest) h ->
  all_owned rest (clean_sets sets h) /\ evolves h (clean_sets sets h).
Proof.
  induction sets as [|[k s] sets IH]; intros rest h Hc Ho; cbn; [done|]. cbn in Hc. apply Forall_cons in Hc as [Hc1 Hc2].
  destruct (s_sendLoops s) as [l|] eqn:El.
  - destruct (cleanSendLoops (s_ams s) s h) as [s1 h1] eqn:E1. cbn. destruct (clean_all_owned _ _ _ _ _ Ho Hc1 E1) as (Ho1 & He & _).
    destruct (IH rest h1 Hc2 Ho1) as [Ho2 He2]. split; [done|by etrans].
  - apply IH; [done|]. assert (Hids : set_ids s = []) by (unfold set_ids; by rewrite El).
    change (all_owned (s :: sets.*2 ++ rest) h) in Ho. destruct Ho as (N & L & F). rewrite pool_ids_cons, Hids in *.
    split_and!; [exact N| |by inversion F]. exact L.
Qed.

Lemma owned_unique p h s1 s2 us1 us2 id (q : list alertmanagerSet) : all_owned (p ++ q) h -> s1 ∈ p -> find_loop s1 us1 = Some id -> s2 ∈ q -> find_loop s2 us2 = Some id -> False.
Proof.
  intros (N & _ & _) H1 F1 H2 F2. unfold pool_ids in N. rewrite bind_app in N. apply NoDup_app in N as (_ & N & _). apply (N id); apply elem_of_pool_ids; eauto.
Qed.

(** The same loop at two keys, in sets that are owned together. *)
Lemma pool_unique (sets : gmap gostr alertmanagerSet) rest h k1 k2 s1 s2 us1 us2 id : all_owned (pool sets ++ rest) h -> sets !! k1 = Some s1 -> sets !! k2 = Some s2 ->
  find_loop s1 us1 = Some id -> find_loop s2 us2 = Some id -> k1 = k2 /\ us1 = us2.
Proof.
  intros Ho E1 E2 F1 F2. apply (owned_lookup _ _ _ _ _ E1) in Ho. destruct (decide (k1 = k2)) as [->|Hn].
  - split; [done|]. rewrite E1 in E2. injection E2 as <-. destruct Ho as (N & _ & _). rewrite pool_ids_cons in N. apply NoDup_app in N as (N & _ & _).
    unfold set_ids in N. apply find_loop_Some in F1 as (l & El & H1), F2 as (l' & El' & H2). rewrite El in El'. injection El' as <-. rewrite El in N. cbn in N.
    apply elem_of_map_to_list in H1, H2. apply list_elem_of_lookup in H1 as [i Hi], H2 as [j Hj].
    assert (i = j) as ->; [|by rewrite Hi in Hj; injection Hj]. eapply NoDup_lookup; [exact N|by rewrite list_lookup_fmap, Hi|by rewrite list_lookup_fmap, Hj].
  - exfalso. change (s1 :: pool (delete k1 sets) ++ rest) with ([s1] ++ (pool (delete k1 sets) ++ rest)) in Ho.
    eapply (owned_unique [s1]); [exact Ho|left|exact F1| |exact F2]. apply elem_of_app. left. apply elem_of_pool. exists k2. by rewrite lookup_delete_ne.
Qed.

(** An ApplyConfig that succeeds: the state before the clean-up, and after it. *)
Lemma ApplyConfig_inv c n h n' h' : manager_inv (m_sets n) h -> ApplyConfig c n h = (n', h', true) ->
  exists byhash olds, sets_by_hash (order (m_sets n)) ∅ = Some byhash /\
    made byhash (order (c_AlertmanagerConfigs c)) (m_sets n) olds (m_sets n') /\ all_owned (pool olds ++ pool (m_sets n')) h /\
    manager_inv (m_sets n') h' /\ evolves h h'.
Proof.
  intros [Ho Hs] H. unfold ApplyConfig in H. destruct (sets_by_hash _ ∅) as [byhash|] eqn:Eb; [|done].
  destruct (make_sets byhash _ (m_sets n) ∅) as [[olds news] [|]] eqn:Em; [|done]. injection H as <- <-. cbn.
  assert (Hnd : forall V (m : gmap gostr V), NoDup (order m).*1) by (intros V m; rewrite order_perm; apply NoDup_fst_map_to_list).
  destruct (sets_by_hash_spec _ _ _ (Hnd _ _) Eb) as (Hb1 & _ & _).
  destruct (make_sets_made byhash (m_sets n) h) with (cfgs := order (c_AlertmanagerConfigs c)) (done_ := @nil (gostr * Cfg)) (olds := m_sets n)
    (news := (∅ : gmap gostr alertmanagerSet)) (olds' := olds) (news' := news) as [Hm Ho'].
  - intros hash k s Hk Es. apply Hb1 in Hk as [Hk|(s' & Hin & Hh)]; [by rewrite lookup_empty in Hk|].
    rewrite order_perm, elem_of_map_to_list in Hin. congruence.
  - intros k s E. by apply (Hs k s E).
  - apply Hnd.
  - split; [|done|intros k s E; by rewrite lookup_empty in E|intros k cfg hash ok Hin; by apply not_elem_of_nil in Hin].
    intros k. destruct (m_sets n !! k); constructor. by left.
  - unfold pool at 2. rewrite map_to_list_empty. cbn. by rewrite app_nil_r.
  - done.
  - exists byhash, olds. assert (Hc : Forall covered (order olds).*2).
    { apply Forall_forall. intros s (p & -> & Hin)%list_elem_of_fmap. rewrite order_perm in Hin. destruct p as [k s]. apply elem_of_map_to_list in Hin. cbn.
      pose proof (made_old _ _ _ _ _ Hm k) as Ht. rewrite Hin in Ht. inversion Ht as [s0 s1 Ht0 E0 E1|]; subst. symmetry in E0.
      destruct (Hs k s0 E0) as [Hcov _]. destruct Ht0 as [->| ->]; [done|]. intros us [x Hx]. done. }
    destruct (clean_sets_owned (order olds) (pool news) h Hc) as [Ho2 He]; [eapply owned_perm; [|exact Ho']; unfold pool at 1; by rewrite order_perm|].
    split_and!; [done|done|done| |done]. split; [done|]. exact (made_new _ _ _ _ _ Hm).
Qed.

(** ** The life of the manager *)

(** Its calls, one after the other; configurations that are not applied completely
    are left out. *)
Inductive notifier_step : Manager * heap -> Manager * heap -> Prop :=
  | step_ApplyConfig c n h n' h' : ApplyConfig c n h = (n', h', true) -> notifier_step (n, h) (n', h')
  | step_reload tgs n h n' h' : reload tgs n h = Some (n', h') -> notifier_step (n, h) (n', h')
  | step_Send alerts n h h' : Send alerts n h = Some h' -> notifier_step (n, h) (n, h')
  | step_Stop n h : notifier_step (n, h) (Stop n, h)
  | step_cleanup n h : notifier_step (n, h) (Run_cleanup n h).

Lemma notifier_step_inv w w' : notifier_step w w' -> manager_inv (m_sets w.1) w.2 -> manager_inv (m_sets w'.1) w'.2 /\ evolves w.2 w'.2.
Proof.
  destruct 1 as [c n h n' h' H|tgs n h n' h' H|alerts n h h' H|n h|n h]; cbn; intros Hi.
  - destruct (ApplyConfig_inv _ _ _ _ _ Hi H) as (_ & _ & _ & _ & _ & H1 & H2). done.
  - unfold reload in H. apply bind_Some in H as ([sets h1] & E & [= <- <-]). cbn. by eapply reload_inv_any.
  - apply Send_same in H as [He Hl]. destruct Hi as [Ho Hs]. split; [|done]. split; [|done]. by eapply owned_same_live.
  - done.
  - unfold Run_cleanup. destruct (stop_sets _ _ h) as [sets h1] eqn:E. cbn. eapply stop_sets_inv in E as (H1 & H2 & _); [done| | |done].
    + rewrite order_perm. apply NoDup_fst_map_to_list.
    + intros k s. by rewrite order_perm, elem_of_map_to_list.
Qed.

Lemma new_manager_inv o : manager_inv (m_sets (NewManager o)) [].
Proof.
  split; [|done]. unfold pool. cbn. rewrite map_to_list_empty. split_and!; [constructor| |constructor].
  intros id. split; [intros H; by apply not_elem_of_nil in H|]. intros (l & H & _). done.
Qed.

Lemma steps_inv w w' : rtc notifier_step w w' -> manager_inv (m_sets w.1) w.2 -> manager_inv (m_sets w'.1) w'.2.
Proof. induction 1 as [|w1 w2 w3 Hs _ IH]; [done|]. intros Hi. by apply IH, (notifier_step_inv _ _ Hs). Qed.

Lemma reached_manager_inv o n h : rtc notifier_step (NewManager o, []) (n, h) -> manager_inv (m_sets n) h.
Proof. intros H. apply (steps_inv _ _ H), new_manager_inv. Qed.

Lemma find_in_pool (sets : gmap gostr alertmanagerSet) id : id ∈ pool_ids (pool sets) <-> exists k s us, sets !! k = Some s /\ find_loop s us = Some id.
Proof. rewrite elem_of_pool_ids. setoid_rewrite elem_of_pool. naive_solver. Qed.

Lemma cleanup_stops n h id : manager_inv (m_sets n) h -> ~ running (Run_cleanup n h).2 id.
Proof.
  intros Hi. unfold Run_cleanup. destruct (stop_sets _ _ h) as [sets h1] eqn:E. cbn.
  eapply stop_sets_inv in E as ([(_ & L & _) _] & _ & Hc & _ & Hd); [|rewrite order_perm; apply NoDup_fst_map_to_list|intros k s; by rewrite order_perm, elem_of_map_to_list|done].
  rewrite <-L, find_in_pool. intros (k & s & us & E1 & E2). assert (Hk : is_Some (m_sets n !! k)) by (apply Hd; by eexists).
  destruct Hk as [s0 Hk]. rewrite (Hc k s E1) in E2; [done|]. rewrite order_perm. apply elem_of_map_to_list in Hk. by apply (list_elem_of_fmap_2 fst) in Hk.
Qed.

(** C10: Whatever calls the manager has seen, if every configuration was applied
    without an error, the send loops that run are exactly those in the maps of its
    sets, each in one set at its own URL, for an Alertmanager of that set and made
    with the set's configuration; no update of targets panics on a missing map;
    and the clean-up of Run leaves no loop running. *)
Theorem notifier_owns_loops o n h : rtc notifier_step (NewManager o, []) (n, h) ->
  (forall id, running h id <-> exists k s us, m_sets n !! k = Some s /\ find_loop s us = Some id) /\
  (forall id k1 s1 us1 k2 s2 us2, m_sets n !! k1 = Some s1 -> find_loop s1 us1 = Some id -> m_sets n !! k2 = Some s2 -> find_loop s2 us2 = Some id ->
    k1 = k2 /\ us1 = us2) /\
  (forall k s us id, m_sets n !! k = Some s -> find_loop s us = Some id -> us ∈ map url (s_ams s) /\
    exists l, h !! id = Some l /\ l_url l = us /\ configHash (l_cfg l) = configHash (s_cfg s)) /\
  ((forall tg cfg, AlertmanagerFromGroup tg cfg <> None) -> forall tgs, is_Some (reload tgs n h)) /\
  (forall id, ~ running (Run_cleanup n h).2 id).
Proof.
  intros Hi%reached_manager_inv. pose proof Hi as [Ho Hs]. split_and!.
  - intros id. rewrite <-find_in_pool. symmetry. apply Ho.
  - intros id k1 s1 us1 k2 s2 us2 E1 F1 E2 F2. eapply (pool_unique _ []); [rewrite app_nil_r; exact Ho|done..].
  - intros k s us id E F. split; [apply (Hs k s E); by eexists|]. destruct Ho as (_ & _ & Hf). rewrite Forall_forall in Hf. eapply Hf; [apply elem_of_pool; by exists k|done].
  - intros Hg tgs. unfold reload. destruct (reload_sets_inv (order tgs) Hg _ _ Hi) as (sets' & h' & -> & _). by eexists.
  - intros id. by apply cleanup_stops.
Qed.

(** A loop whose configuration is wanted is not left in the old sets. *)
Lemma old_not_taken n h c byhash olds news k k0 k2 s0 s2 us0 us2 id cfg : manager_inv (m_sets n) h ->
  sets_by_hash (order (m_sets n)) ∅ = Some byhash -> made byhash (order (c_AlertmanagerConfigs c)) (m_sets n) olds news ->
  olds !! k2 = Some s2 -> find_loop s2 us2 = Some id -> m_sets n !! k0 = Some s0 -> find_loop s0 us0 = Some id ->
  (forall k1 k2 s1 s2, m_sets n !! k1 = Some s1 -> m_sets n !! k2 = Some s2 -> configHash (s_cfg s1) = configHash (s_cfg s2) -> k1 = k2) ->
  c_AlertmanagerConfigs c !! k = Some cfg -> configHash cfg = configHash (s_cfg s0) -> False.
Proof.
  intros [Ho _] Eb Hm E2 F2 E0 F0 Hdist Hk Ehash. pose proof (made_old _ _ _ _ _ Hm k2) as Ht. rewrite E2 in Ht.
  inversion Ht as [s3 s4 Ht0 E3 E4|]; subst. symmetry in E3. destruct Ht0 as [->| ->]; [|done].
  assert (k2 = k0 /\ us2 = us0) as [-> ->] by (eapply (pool_unique (m_sets n) [] h); [by rewrite app_nil_r|exact E3|exact E0|exact F2|exact F0]).
  rewrite E0 in E3. injection E3 as <-.
  destruct (sets_by_hash_spec (order (m_sets n)) ∅ byhash) as (_ & Hb & _); [rewrite order_perm; apply NoDup_fst_map_to_list|done|].
  destruct (Hb k0 s0) as (hash & Eh & Hu); [by rewrite order_perm, elem_of_map_to_list|].
  assert (Hby : byhash !! hash = Some k0).
  { apply Hu. intros k' s' Hin Hh. rewrite order_perm, elem_of_map_to_list in Hin. by apply (Hdist k' k0 s' s0); [done|done|congruence]. }
  assert (Hnil : s_sendLoops s0 = None).
  { apply (made_taken _ _ _ _ _ Hm k cfg hash k0); [by rewrite order_perm, elem_of_map_to_list|congruence|done|done]. }
  unfold find_loop in F2. by rewrite Hnil in F2.
Qed.

(** C21: Applying a configuration takes no alert from a loop.  A loop goes on only if some new configuration has the hash of its own; and if the old
    configurations have different hashes, it does go on when one has, so that the
    alerts in its queue are kept. *)
Theorem ApplyConfig_keeps_loops o n h c n' h' id l : rtc notifier_step (NewManager o, []) (n, h) -> ApplyConfig c n h = (n', h', true) ->
  h !! id = Some l -> l_stopped l = false ->
  exists l', h' !! id = Some l' /\ l_url l' = l_url l /\ l_cfg l' = l_cfg l /\ l_added l `prefix_of` l_added l' /\
    (l_stopped l' = false -> exists k cfg, c_AlertmanagerConfigs c !! k = Some cfg /\ configHash cfg = configHash (l_cfg l)) /\
    ((forall k1 k2 s1 s2, m_sets n !! k1 = Some s1 -> m_sets n !! k2 = Some s2 -> configHash (s_cfg s1) = configHash (s_cfg s2) -> k1 = k2) ->
     (exists k cfg, c_AlertmanagerConfigs c !! k = Some cfg /\ configHash cfg = configHash (l_cfg l)) -> l_stopped l' = false).
Proof.
  intros Hi%reached_manager_inv H El Hlive. destruct (ApplyConfig_inv _ _ _ _ _ Hi H) as (byhash & olds & Eb & Hm & Ho1 & [(_ & L' & F') _] & He).
  destruct (He id l El) as (l' & El' & Eu & Ec & Ha & _). exists l'. split_and!; [done..| |].
  - intros Hs'. assert (Hin : running h' id) by (exists l'; done). apply L', find_in_pool in Hin as (k & s & us & E & F).
    rewrite Forall_forall in F'. destruct (F' s) with (us := us) (id := id) as (x & Ex & _ & Ehash); [apply elem_of_pool; by exists k|done|].
    exists k, (s_cfg s). split; [|congruence]. pose proof (made_from _ _ _ _ _ Hm k s E) as Hk. by rewrite order_perm, elem_of_map_to_list in Hk.
  - intros Hdist (k & cfg & Hk & Ehash). pose proof Hi as [(_ & L & F) _]. assert (Hin : running h id) by (exists l; done).
    pose proof Hin as Hin2. apply L, find_in_pool in Hin as (k0 & s0 & us0 & E0 & F0).
    rewrite Forall_forall in F. destruct (F s0) with (us := us0) (id := id) as (x & Ex & _ & Eh0); [apply elem_of_pool; by exists k0|done|].
    rewrite El in Ex. injection Ex as <-. pose proof Ho1 as (_ & L1 & _). apply L1, elem_of_pool_ids in Hin2 as (s2 & us2 & [Hp|Hp]%elem_of_app & F2).
    + exfalso. apply elem_of_pool in Hp as [k2 E2]. eapply old_not_taken; [exact Hi|exact Eb|exact Hm|exact E2|exact F2|exact E0|exact F0|done|exact Hk|congruence].
    + assert (Hl : running h' id) by (apply L', elem_of_pool_ids; by exists s2, us2). destruct Hl as (x & Ex & Hx). congruence.
Qed.
End Notifier.

(** ** An instance *)

(** Configurations are numbers, their hashes too, and there is no client for 9; a
    target group is the list of its URLs; alerts are numbers, left as they are. *)
Definition num_group (tg : list gostr) (cfg : Z) : option ((list gostr * list gostr) + unit) := Some (inl (tg, [])).
Definition num_relabel (rules : list unit) (ls : Labels) (alerts : list Z) : option (list Z) := Some alerts.
Definition num_client (cfg : Z) : bool := negb (cfg =? 9).
Definition num_order (V : Type) (m : gmap gostr V) : list (gostr * V) := reverse (map_to_list m).

Notation num_apply := (ApplyConfig (Alert := Z) id (fun cfg : Z => num_client cfg) (fun cfg => Some [cfg]) (fun (_ : unit) (r : unit) => r) num_order).
Notation num_reload := (reload (Rule := unit) (Alert := Z) id num_group num_order).
Notation num_step := (notifier_step id num_group num_relabel (fun _ => []) num_client (fun cfg => Some [cfg]) (fun (_ : unit) (r : unit) => r) num_order).

Definition num_options : Options (Rule := unit) := mk_Options (mk_Labels []) [].
Definition num_config (cfgs : list (gostr * Z)) : config_part (Rule := unit) (Scheme := unit) := mk_config_part (mk_Labels []) [] tt (list_to_map cfgs).
Definition num_targets : gmap gostr (list (list gostr)) := {[ [99; 48] := [[[109]; [110]]; [[109]]] ]}.

(** Two Alertmanagers of one set; the group that repeats one starts no second loop. *)
Definition num_start := num_apply (num_config [([99; 48], 1)]) (NewManager num_options) [].
Definition num_running := num_reload num_targets num_start.1.1 num_start.1.2.

Example two_loops : (fun r => map (fun l => (l_url l, l_stopped l)) r.2) <$> num_running = Some [([109], false); ([110], false)].
Proof. by vm_compute. Qed.

(** A configuration with the same hash takes the loops over; one with another
    hash stops them. *)
Example loops_taken_over : (fun r => map l_stopped (num_apply (num_config [([99; 49], 1)]) r.1 r.2).1.2) <$> num_running = Some [false; false].
Proof. by vm_compute. Qed.
Example loops_stopped : (fun r => map l_stopped (num_apply (num_config [([99; 48], 2)]) r.1 r.2).1.2) <$> num_running = Some [true; true].
Proof. by vm_compute. Qed.

(** ApplyConfig with a good configuration, whose loops it takes, and one that has
    no HTTP client: it fails, the sets stay, but without their map.  The loops get
    no alerts any more, and the next update of the targets panics. *)
Example failed_ApplyConfig_panics :
  (fun '(n, h) => let '(n', h', ok) := num_apply (num_config [([99; 48], 1); ([99; 49], 9)]) n h in
    (ok, map l_stopped h', map l_added <$> Send num_relabel (fun _ => []) num_order [5] n' h', fst <$> num_reload num_targets n' h')) <$> num_running
  = Some (false, [false; false], Some [[]; []], None).
Proof. by vm_compute. Qed.

(** ** Witnesses *)

Lemma num_order_perm V (m : gmap gostr V) : num_order V m ≡ₚ map_to_list m.
Proof. apply reverse_Permutation. Qed.

(** The manager after the first configuration and the first targets. *)
Definition num_world : Manager * list (loop_rec Z Z) := default (NewManager num_options, []) num_running.
Lemma num_reached : rtc num_step (NewManager num_options, []) num_world.
Proof.
  eapply rtc_l; [apply (step_ApplyConfig _ _ _ _ _ _ _ _ (num_config [([99; 48], 1)]) _ _ num_start.1.1 num_start.1.2); by vm_compute|].
  eapply rtc_once, (step_reload _ _ _ _ _ _ _ _ num_targets). by vm_compute.
Qed.

Lemma notifier_owns_loops_witness : running num_world.2 1 <-> exists k s us, m_sets num_world.1 !! k = Some s /\ find_loop s us = Some 1%nat.
Proof.
  exact (proj1 (notifier_owns_loops id num_group num_relabel (fun _ => []) num_client (fun cfg => Some [cfg]) (fun (_ : unit) (r : unit) => r) num_order num_order_perm
    num_options num_world.1 num_world.2 num_reached) 1%nat).
Defined.

Lemma ApplyConfig_keeps_loops_witness : exists l', (num_apply (num_config [([99; 49], 1)]) num_world.1 num_world.2).1.2 !! 1%nat = Some l' /\ l_url l' = [110].
Proof.
  destruct (ApplyConfig_keeps_loops id num_group num_relabel (fun _ => []) num_client (fun cfg => Some [cfg]) (fun (_ : unit) (r : unit) => r) num_order num_order_perm
    num_options num_world.1 num_world.2 (num_config [([99; 49], 1)]) (num_apply (num_config [([99; 49], 1)]) num_world.1 num_world.2).1.1
    (num_apply (num_config [([99; 49], 1)]) num_world.1 num_world.2).1.2 1%nat (mk_loop [110] 1 [] false) num_reached) as (l' & H & Hu & _); [by vm_compute..|].
  exists l'. split; [exact H|exact Hu].
Defined.
